(* ===== verification/_CoqProject ===== *)
-Q . S2P
Prelude.v
Machine.v
Opcodes.v
Object.v
Mem.v
Zio.v
Debug.v
Str.v
Do.v
Dump.v
Undump.v
Table.v
TableInv.v
TableSet.v
TablePut.v
TableCount.v
TableRehash.v
TableSpec.v
TableIter.v
Kernel.v
Lunatik.v
LunatikSpec.v
LunatikQueue.v
LunatikBindings.v
Syscall.v
Lex.v
LexSpec.v
LexTokens.v
LexInit.v
Gc.v
Func.v
Collect.v
GcInv.v
GcMark.v
GcTraverse.v
GcPropagate.v
GcAtomic.v
GcClear.v
GcSafe.v
GcBarrier.v
FuncSpec.v
GcSweep.v
GcCycle.v
GcDemo.v
Code.v
Parser.v
ParserLimits.v
ParserOk.v
JumpLists.v
ConstPool.v
Scope.v
CompileDemo.v
State.v
Errors.v
Call.v
Vm.v
Execute.v
LuaState.v
Load.v
Api.v
DebugApi.v
Auxlib.v
StrOrder.v
StackLemmas.v
ForLoop.v
Folding.v
CallSpec.v
VmNext.v
PcallSpec.v
ApiSpec.v
VmDemo.v
ApiDemo.v
Bindings.v
BindingsDemo.v
SetJmp.v
Panic.v
Engine.v
EngineDemo.v
Sysni.v
