(* ===== verification/Prelude.v ===== *)
(** * Verification of the Lunatik Lua engine

    Lunatik-ng runs Lua 5.1 inside the Linux kernel.  The repository has three
    layers: the engine (lib/lunatik/l*.c: the Lua core with integers for
    numbers), the kernel glue (lib/lunatik/lunatik.c: contexts, workqueues,
    results, bindings) and the system call (lib/lunatik/lunatik_syscall.c).
    This library translates them file by file; paths below are relative to
    src/lib/lunatik unless they start with src/.

    ** Conventions

    - Prelude.v (this file): errors as values ([result]), the state and error
      monad [M] with its equations and automation, lists indexed by Z.
    - Machine.v: the C integer types of LP64 as ranges of Z with wrap-around
      ([s32], [u64], ...), the number configuration of luaconf.h without an
      FPU (lua_Number is long) and the limits of llimits.h.
    - A C function is a definition with its name.  A longjmp is [Err]; a step
      the C program has no behaviour for is [Err (UB _)]; the theorems show
      where it cannot happen.
    - Loops without a structural measure run on fuel.  The fuel is computed
      from the state (code size, nodes of a table, characters left, slices of
      the array part) and the theorems prove that it suffices: their
      conclusions exclude [OutOfFuel].
    - Code outside src/ is a parameter: the class [Krealloc] (the kernel's
      allocator, Mem.v), [StringHash] (a string's hash as a function of its
      address, Table.v), [KernelStrto] (the kernel's number parsers, Object.v),
      [Host] (C functions, hooks and finalisers, Call.v), [LuaEngine],
      [KernelFunctions] (the engine and the callbacks as the glue
      sees them, Kernel.v), [UserSpace] with [UserLaws] (access to user memory,
      Syscall.v), readers (lists of blocks, Zio.v) and writers (Dump.v).
      Witnesses instantiate them.

    ** The engine

    - Opcodes.v (lopcodes.h, lopcodes.c): instructions as 32-bit words, the
      macros that take them apart, the table of modes.  Packing and unpacking
      are inverse.
    - Object.v (lobject.h, lobject.c): values, prototypes, raw equality,
      logarithms, the floating point byte, numbers from strings, chunk names.
      The description of a chunk fits its buffer.
    - Mem.v (lmem.h, lmem.c, l_alloc): the allocator with its accounting, in
      any state with the interface [HasMem]; growing arrays keeps the limits.
    - Zio.v (lzio.h, lzio.c): a stream over a reader; what is read does not
      depend on the blocks.
    - Str.v (lstring.h, lstring.c): the string table.  Equal strings are one
      object, resizing keeps them all, dead strings are resurrected.
    - Do.v (ldo.h, ldo.c): growing the stack of a thread.
    - Debug.v (ldebug.c): the bytecode verifier, translated with every check;
      [vm_next] and [vm_access] say which pc the interpreter (lvm.c) goes to
      and which registers, constants, upvalues and prototypes it touches.
      Accepted code is safe to run in that sense, except after LOADBOOL with
      an operand C above 1, which the verifier takes for no skip, and except
      that OP_TFORLOOP may put the arguments of its iterator up to two cells
      above the frame.
    - Dump.v, Undump.v (ldump.c, lundump.c, lundump.h): precompiled chunks.
      The dumper writes a stated format, the loader reads it back, and on any
      other input the loader ends with an error and reads nothing outside.
    - Table.v (ltable.h, ltable.c) with TableInv.v, TableSet.v, TablePut.v,
      TableCount.v, TableRehash.v, TableSpec.v, TableIter.v: tables.  The
      invariant of the hash part (chains finite, disjoint, every key on the
      chain of its main position); a table is a function from keys to values
      that the set functions update at one point, through rehashes; the
      refinement of abstract maps; optimality of computesizes; traversal
      visits every entry once; the length is a border; what an allocation
      failure in resize does.
    - Lex.v (llex.h, llex.c, fakelibc_include/ctype.h) with LexSpec.v,
      LexTokens.v, LexInit.v: the lexer.  Reading a token ends on every input,
      takes characters away, keeps the state well formed, and fails only with
      a syntax error or for lack of memory; names and quoted strings are read
      as what they spell; luaX_init marks exactly the reserved words.
    - Code.v (lcode.h, lcode.c): the code generator over the function being
      compiled: registers, constants, lists of pending jumps threaded through
      the code, expressions in each of their forms.  A C function that changes
      an expdesc returns the new one.  Parser.v (lparser.h, lparser.c): the
      grammar, one definition per function; expressions and chunks recurse
      through [subexpr_rule] and [chunk_rule] on the depth that L->nCcalls
      bounds ([level_fuel] is LUAI_MAXCCALLS + 1), loops over tokens get the
      characters left and loops over jumps the size of the code.
      ParserLimits.v and ParserOk.v: every function keeps the invariant of a
      function being compiled, so what the parser returns passes the first
      test of the verifier at every depth.  JumpLists.v: joining and patching
      of pending jumps.  ConstPool.v: constants without duplicates.  Scope.v:
      names are resolved by static scoping.  CompileDemo.v: compiled sources
      and the witnesses.
    - Gc.v, Func.v, Collect.v (lgc.h, lgc.c, lfunc.h, lfunc.c, parts of
      lstate.c and ltm.c): the collector over a heap of objects by address,
      with its lists, colours, weak tables, finalisers and steps, and closures
      with open and closed upvalues.  GcInv.v says what a heap must be and what
      marking may do to it; GcMark.v has the tricolour invariant and markers
      that compose; GcTraverse.v and GcPropagate.v visit gray objects, with a
      measure of the work left; GcAtomic.v, GcClear.v and GcSafe.v follow the
      atomic step phase by phase: no reachable object is dead when the sweep
      starts.  GcBarrier.v: a store with its barrier keeps the invariant.
      FuncSpec.v: one open upvalue for a slot, closing keeps values, names of
      active variables.  GcSweep.v: the sweep frees the dead objects of the
      list it goes over and nothing else, closes the upvalues of a freed
      thread with the values of its stack, also when they are put on that
      list, and ends in as many turns as there are objects.  GcCycle.v: a collection from the pause to the end of its sweep
      (marking, strings, objects forty at a time, the string table shrunk):
      what the program reaches stays, garbage goes.  GcDemo.v: a small heap for the witnesses.  The depth
      of reallymarkobject is three; propagateall gets the objects of the heap
      and of the gray list as fuel, the loops that run the collector get theirs
      from the caller.

    - State.v (lstate.h, parts of lstring.c and ltable.c as the interpreter
      calls them): what the interpreter runs on: the collector's state, the
      fields of each thread that the collector does not look at ([v_L]) and the
      prototypes by address ([v_p]).  Stack pointers are indices and the
      CallInfos in use are a list, the running one first.  Errors.v (ldebug.c):
      run-time errors with their message, position and the name of the
      variable, found by symbolic execution.  Call.v (ldo.c): calls and returns
      of Lua and C functions, vararg frames, hooks, protected calls,
      coroutines.  Vm.v, Execute.v (lvm.c, ltm.c): the operations on values
      with their metamethods, and the main loop, one case for each instruction.
      LuaState.v (lstate.c): making and closing states and threads.  Load.v:
      luaD_protectedparser, which joins the front end to the machine.
      Execution is bounded by fuel: an instruction takes one, a nested call gets
      the rest, and running out is [OutOfFuel] and no Lua error.  C functions,
      hooks and finalisers are the class [Host].
    - Api.v (lapi.c, lua.h): the interface to C, one definition per function;
      [adr] is what index2adr points to.  DebugApi.v (ldebug.c): hooks, levels,
      local variables, lua_getinfo.  Auxlib.v (lauxlib.c): errors, arguments,
      libraries, buffers, references, loading.  Bindings.v (bindings/): the
      libraries of the kernel, written on these, with the kernel's log, hashes
      and random numbers as the class [BindingsKernel]; BindingsDemo.v runs
      scripts that use them.
    - SetJmp.v (setjmp_x86_64.S, setjmp_x86_32.S, luaconf.h): the assembly on
      a machine with registers and bytes of memory: longjmp comes back to the
      setjmp that filled its buffer, which then does not return 0.  This is
      what an [Err] of the monad stands for.  Panic.v (ldo.c, lapi.c,
      lauxlib.c): luaD_throw when no protected call is active, with the panic
      function and the accessors of the allocator, on a state [PState] around
      that of Api.v; since exit is a return in fakelibc_include/stdlib.h, the
      error comes back to its caller (shown for threads without open upvalues).
      Everywhere else the engine is taken to run under a protected call.
    - StackLemmas.v: equations of stores to a thread.  CallSpec.v: the frame a
      call makes and the results a return delivers.  PcallSpec.v: what a
      protected call restores after an error, and where the error value is.
      VmNext.v: in code that the verifier accepts and whose LOADBOOLs have C
      at most 1, the interpreter of Execute.v goes only where the relation
      [vm_next] of Debug.v does, so it always finds an instruction, as long as
      the function at work has not been collected.
      ForLoop.v: the numeric for visits its indices and ends, except when the
      index wraps.  Folding.v: folded constants are what the instruction
      computes.  StrOrder.v: strings are compared in lexicographic order.
      ApiSpec.v: the functions of lapi.c that move values around implement
      operations on lists.  VmDemo.v, ApiDemo.v: witnesses, and sources
      compiled and run from a new state.

    ** The kernel glue

    - Kernel.v: the heap of kernel objects, allocation that may fail, the
      workqueue and module operations, and the interface to the engine.
    - Lunatik.v (lunatik.c, src/include/linux/lunatik.h): every function, with
      the worker thread of a context as a step function.
    - LunatikSpec.v: the direct call and the results as changes of the heap,
      the life of a context with its leaks; LunatikQueue.v: the synchronous
      call against the direct one, its race, the asynchronous calls under all
      interleavings, the refinement of a queue.  There memory lasts, and a
      callback owns the objects that were handed over to it with its request
      ([q_mine]: the code, what its argument points to); it frees its result
      and changes nothing but these ([req_ok]).  LunatikBindings.v: loading of
      bindings, whose registration functions lock the context, work on its
      engine and unlock it ([good_register]; Engine.v shows it of bindings/).
    - Syscall.v (lunatik_syscall.c): sys_lua, the copy of the result to user
      memory, and these composed with the glue: the synchronous call, and the
      asynchronous one with its callback, which destroys the context.  Sysni.v
      (src/kernel/sys_ni.c): the system calls of a kernel built without them.
    - Engine.v: the class [LuaEngine] implemented by Api.v and Auxlib.v, and
      [KernelFunctions] by the modules of bindings/ and the callback of
      sys_lua, so that a system call compiles and runs its script in this
      library.  EngineDemo.v runs system calls from the bytes of the script in
      user memory to those of the result, and loads the four modules of
      bindings/ into a context.

    ** What is not modelled

    - Of lauxlib.c what the kernel does not compile (files,
      LUA_COMPAT_GETN).  Of ldo.c, correctstack: a slot of a stack is a number
      and not an address, so a stack that moves changes none of them.
      Of the compiler, the anchors of strings on
      the Lua stack and the barriers of new constants are left out, and that
      it runs out of no fuel is not proved.  Of the collector, that garbage is
      left unmarked is not proved (what is marked may be more than what can be
      reached), nor that the program keeps the links that GcCycle.v asks for.
      A finaliser is a parameter, and the hooks that are off while it runs are
      not modelled.
      Strings that luaO_pushvfstring makes on its way to a message of the
      engine are not allocated (those of lua_pushfstring are).
    - Debug output (pr_debug, pr_err); the type jmp_buf, which is declared
      outside of src/; declarations, the macros of lua.h and lobject.h that
      only cast or name fields, and the configuration of luaconf.h for other
      platforms; build files (Makefile, Kconfig) and the tables that number
      the system calls, which have no behaviour of their own. *)

From stdpp Require Export base tactics strings list gmap.
From Stdlib Require Export ZArith Lia.

#[global] Open Scope Z_scope.

(** ** Errors

    A C function of the engine leaves normally or through [luaD_throw], that
    is a [longjmp] with a status; the model returns a value of [result].
    [ErrRun] is [luaG_runerror] with its message, [ErrSyntax] a syntax error,
    [ErrMem] the status LUA_ERRMEM and [ErrErr] the status LUA_ERRERR.  [UB]
    marks a step the C program has no behaviour for (an access outside an
    array, a division trap), and [OutOfFuel] a loop bound of the model that
    was too small; both are shown not to happen where a theorem says so. *)
Inductive error :=
  | ErrRun (msg : string)
  | ErrSyntax (msg : string)
  | ErrMem
  | ErrErr
  | UB (what : string)
  | OutOfFuel.

Inductive result (A : Type) :=
  | Ok (a : A)
  | Err (e : error).
Arguments Ok {A} a.
Arguments Err {A} e.

#[global] Instance error_eq_dec : EqDecision error.
Proof. solve_decision. Defined.
#[global] Instance result_eq_dec `{EqDecision A} : EqDecision (result A).
Proof. solve_decision. Defined.

#[global] Instance result_ret : MRet result := fun A a => Ok a.
#[global] Instance result_bind : MBind result := fun A B f m =>
  match m with Ok a => f a | Err e => Err e end.
#[global] Instance result_fmap : FMap result := fun A B f m =>
  match m with Ok a => Ok (f a) | Err e => Err e end.

Definition is_ok {A} (r : result A) : bool :=
  match r with Ok _ => true | Err _ => false end.

(** An array access of the C program: outside the array there is no
    behaviour. *)
Definition of_option {A} (what : string) (o : option A) : result A :=
  match o with Some a => Ok a | None => Err (UB what) end.

(** ** The state and error monad

    State changes made before a [longjmp] stay made, so the state is returned
    beside the result and not inside it. *)
Definition M (S A : Type) : Type := S -> result A * S.

#[global] Instance M_ret {S} : MRet (M S) := fun A a s => (Ok a, s).
#[global] Instance M_bind {S} : MBind (M S) := fun A B f m s =>
  match m s with
  | (Ok a, s') => f a s'
  | (Err e, s') => (Err e, s')
  end.

Definition throw {S A} (e : error) : M S A := fun s => (Err e, s).
Definition get {S} : M S S := fun s => (Ok s, s).
Definition gets {S A} (f : S -> A) : M S A := fun s => (Ok (f s), s).
Definition modify {S} (f : S -> S) : M S unit := fun s => (Ok tt, f s).
Definition lift {S A} (r : result A) : M S A := fun s => (r, s).
Definition when {S} (b : bool) (m : M S unit) : M S unit :=
  if b then m else mret tt.

(** [for i in l do f i]. *)
Fixpoint mfor {S A} (l : list A) (f : A -> M S unit) : M S unit :=
  match l with
  | [] => mret tt
  | a :: l => f a ;; mfor l f
  end.

(** [n] times [m], with the results in order: the loops that fill an array. *)
Fixpoint mreplicate {S A} (n : nat) (m : M S A) : M S (list A) :=
  match n with
  | O => mret []
  | Datatypes.S n => a ← m; l ← mreplicate n m; mret (a :: l)
  end.

Section monad_lemmas.
Context {S A B : Type}.
Implicit Types (m : M S A) (f : A -> M S B) (s : S).

Lemma bind_ok m f s a s' : m s = (Ok a, s') -> (m ≫= f) s = f a s'.
Proof. intros H. unfold mbind, M_bind. by rewrite H. Qed.

Lemma bind_err m f s e s' : m s = (Err e, s') -> (m ≫= f) s = (Err e, s').
Proof. intros H. unfold mbind, M_bind. by rewrite H. Qed.

Lemma bind_Ok_inv m f s b s2 :
  (m ≫= f) s = (Ok b, s2) ->
  exists a s1, m s = (Ok a, s1) /\ f a s1 = (Ok b, s2).
Proof.
  unfold mbind, M_bind. destruct (m s) as [[a|e] s1] eqn:E; intros H.
  - by exists a, s1.
  - discriminate.
Qed.

Lemma bind_Err_inv m f s e s2 :
  (m ≫= f) s = (Err e, s2) ->
  m s = (Err e, s2) \/
  exists a s1, m s = (Ok a, s1) /\ f a s1 = (Err e, s2).
Proof.
  unfold mbind, M_bind. destruct (m s) as [[a|e'] s1] eqn:E; intros H.
  - right. by exists a, s1.
  - left. by simplify_eq.
Qed.
End monad_lemmas.

Lemma result_bind_Ok {A B} (r : result A) (f : A -> result B) b :
  (r ≫= f) = Ok b -> exists a, r = Ok a /\ f a = Ok b.
Proof. destruct r; cbn; [eauto | discriminate]. Qed.

(** ** Weakest preconditions

    [wp m Q E s]: from [s], [m] returns a value and a state with [Q], or it
    throws an error of [E]. *)
Definition wp {S A} (m : M S A) (Q : A -> S -> Prop) (E : error -> Prop) (s : S) : Prop :=
  match m s with
  | (Ok a, s') => Q a s'
  | (Err e, _) => E e
  end.

Section wp.
Context {S : Type}.
Implicit Types (E : error -> Prop) (s : S).

Lemma wp_bind {A B} (m : M S A) (k : A -> M S B) Q E s :
  wp m (fun a s' => wp (k a) Q E s') E s -> wp (m ≫= k) Q E s.
Proof. unfold wp, mbind, M_bind. by destruct (m s) as [[a|e] s']. Qed.

Lemma wp_mono {A} (m : M S A) (Q Q' : A -> S -> Prop) E E' s :
  wp m Q E s -> (forall a s', Q a s' -> Q' a s') -> (forall e, E e -> E' e) -> wp m Q' E' s.
Proof. unfold wp. destruct (m s) as [[a|e] s']; auto. Qed.

(** A sequence whose first part ends in states with [P]. *)
Lemma wp_seq {A B} (m : M S A) (k : A -> M S B) (P : A -> S -> Prop) Q E s :
  wp m P E s -> (forall a s', P a s' -> wp (k a) Q E s') -> wp (m ≫= k) Q E s.
Proof. intros Hm Hk. apply wp_bind. eapply wp_mono; eauto. Qed.

Lemma wp_when b (m : M S unit) Q E s :
  (b = true -> wp m Q E s) -> (b = false -> Q tt s) -> wp (when b m) Q E s.
Proof. intros H1 H2. destruct b; [exact (H1 eq_refl)|exact (H2 eq_refl)]. Qed.

Lemma wp_get {B} (k : S -> M S B) Q E s : wp (k s) Q E s -> wp (get ≫= k) Q E s.
Proof. done. Qed.
Lemma wp_gets {A B} (f : S -> A) (k : A -> M S B) Q E s : wp (k (f s)) Q E s -> wp (gets f ≫= k) Q E s.
Proof. done. Qed.
Lemma wp_modify {B} (f : S -> S) (k : unit -> M S B) Q E s : wp (k tt) Q E (f s) -> wp (modify f ≫= k) Q E s.
Proof. done. Qed.
Lemma wp_ret {A} (a : A) (Q : A -> S -> Prop) E s : Q a s -> wp (mret a) Q E s.
Proof. done. Qed.
Lemma wp_assoc {A B C} (m : M S A) (f : A -> M S B) (g : B -> M S C) Q E s :
  wp (x ← m; y ← f x; g y) Q E s -> wp (y ← (x ← m; f x); g y) Q E s.
Proof. unfold wp, mbind, M_bind. by destruct (m s) as [[a|e] s']. Qed.
Lemma wp_assoc_r {A B C} (m : M S A) (f : M S B) (g : B -> M S C) Q E s :
  wp (y ← (m;; f); g y) Q E s -> wp (m;; y ← f; g y) Q E s.
Proof. unfold wp, mbind, M_bind. by destruct (m s) as [[a|e] s']. Qed.
Lemma wp_ok {A} (m : M S A) Q E s a s' : m s = (Ok a, s') -> Q a s' -> wp m Q E s.
Proof. intros Hm HQ. unfold wp. by rewrite Hm. Qed.
End wp.

(** ** Tactics *)

(** Take a successful run of a sequence of monadic steps apart. *)
Ltac m_inv H :=
  lazymatch type of H with
  | (mbind _ _) _ = (Ok _, _) =>
      let a := fresh "a" in let s := fresh "s" in let H1 := fresh "H" in
      apply bind_Ok_inv in H as (a & s & H1 & H); try m_inv H1; try m_inv H
  | mret _ _ = (_, _) => cbv [mret M_ret] in H; simplify_eq
  | get _ = (_, _) => cbv [get] in H; simplify_eq
  | gets _ _ = (_, _) => cbv [gets] in H; simplify_eq
  | modify _ _ = (_, _) => cbv [modify] in H; simplify_eq
  | throw _ _ = (Ok _, _) => cbv [throw] in H; discriminate
  | lift _ _ = (_, _) => cbv [lift] in H; simplify_eq
  end.

(** Reduce the monad's own operations in the goal. *)
Ltac m_simpl :=
  cbv [mbind M_bind result_bind mret M_ret result_ret get gets modify throw lift when].

(** Boolean comparisons of the source to propositions, everywhere. *)
Ltac b2p :=
  repeat match goal with
  | H : andb _ _ = true |- _ => apply andb_true_iff in H; destruct H
  | H : andb _ _ = false |- _ => apply andb_false_iff in H
  | H : orb _ _ = false |- _ => apply orb_false_iff in H; destruct H
  | H : orb _ _ = true |- _ => apply orb_true_iff in H
  | H : negb _ = true |- _ => apply negb_true_iff in H
  | H : negb _ = false |- _ => apply negb_false_iff in H
  | H : (_ <? _)%Z = true |- _ => apply Z.ltb_lt in H
  | H : (_ <? _)%Z = false |- _ => apply Z.ltb_ge in H
  | H : (_ <=? _)%Z = true |- _ => apply Z.leb_le in H
  | H : (_ <=? _)%Z = false |- _ => apply Z.leb_gt in H
  | H : (_ =? _)%Z = true |- _ => apply Z.eqb_eq in H
  | H : (_ =? _)%Z = false |- _ => apply Z.eqb_neq in H
  | H : (_ >=? _)%Z = _ |- _ => rewrite Z.geb_leb in H
  | H : (_ >? _)%Z = _ |- _ => rewrite Z.gtb_ltb in H
  | H : bool_decide _ = true |- _ => apply bool_decide_eq_true in H
  | H : bool_decide _ = false |- _ => apply bool_decide_eq_false in H
  end.

(** Case split on the first [if] of the goal, with its condition as a
    proposition. *)
Ltac case_if :=
  match goal with
  | |- context [if ?b then _ else _] => let E := fresh "E" in destruct b eqn:E; b2p
  end.

Create HintDb lua.

(** ** Lists indexed by a C [int] *)

Definition znth {A} (l : list A) (i : Z) : option A :=
  if i <? 0 then None else l !! Z.to_nat i.
Definition zupd {A} (i : Z) (a : A) (l : list A) : list A :=
  if i <? 0 then l else <[Z.to_nat i := a]> l.
Definition zlen {A} (l : list A) : Z := Z.of_nat (length l).

Section zlist.
Context {A : Type}.
Implicit Types (l : list A) (i j : Z).

Lemma zlen_nonneg l : 0 <= zlen l.
Proof. unfold zlen. lia. Qed.

Lemma zlen_app l1 l2 : zlen (l1 ++ l2) = zlen l1 + zlen l2.
Proof. unfold zlen. rewrite length_app. lia. Qed.

Lemma zlen_cons a l : zlen (a :: l) = 1 + zlen l.
Proof. unfold zlen. cbn [length]. lia. Qed.

Lemma zlen_zupd i a l : zlen (zupd i a l) = zlen l.
Proof. unfold zupd, zlen. case_if; [done|]. by rewrite length_insert. Qed.

Lemma znth_Some_lt l i a : znth l i = Some a -> 0 <= i < zlen l.
Proof.
  unfold znth, zlen. case_if; [done|]. intros H%lookup_lt_Some. lia.
Qed.

Lemma znth_elem l i a : znth l i = Some a -> a ∈ l.
Proof. unfold znth. case_if; [done|]. apply list_elem_of_lookup_2. Qed.

Lemma znth_is_Some l i : 0 <= i < zlen l -> exists a, znth l i = Some a.
Proof.
  unfold znth, zlen. intros H. case_if; [lia|].
  destruct (lookup_lt_is_Some_2 l (Z.to_nat i)) as [a Ha]; [lia|eauto].
Qed.

Lemma znth_zupd_eq l i a : 0 <= i < zlen l -> znth (zupd i a l) i = Some a.
Proof.
  unfold znth, zupd, zlen. intros H. destruct (i <? 0) eqn:E; b2p; [lia|].
  apply list_lookup_insert_eq. lia.
Qed.

Lemma znth_zupd_ne l i j a : i <> j -> znth (zupd i a l) j = znth l j.
Proof.
  unfold znth, zupd. intros H. destruct (j <? 0) eqn:E1, (i <? 0) eqn:E2; b2p; try done.
  apply list_lookup_insert_ne. lia.
Qed.

Lemma znth_app_l l1 l2 i : i < zlen l1 -> znth (l1 ++ l2) i = znth l1 i.
Proof.
  unfold znth, zlen. intros H. case_if; [done|]. apply lookup_app_l. lia.
Qed.

Lemma znth_app_r l1 l2 i :
  zlen l1 <= i -> znth (l1 ++ l2) i = znth l2 (i - zlen l1).
Proof.
  unfold znth, zlen. intros H.
  destruct (i <? 0) eqn:E1; b2p; [lia|].
  destruct (i - Z.of_nat (length l1) <? 0) eqn:E2; b2p; [lia|].
  rewrite lookup_app_r by lia. f_equal. lia.
Qed.
End zlist.

#[export] Hint Resolve zlen_nonneg : lua.
#[export] Hint Rewrite @zlen_app @zlen_cons @zlen_zupd : lua.

(** ** Filters *)

Section filter.
Context {A : Type} (P : A -> Prop) `{!forall x, Decision (P x)}.
Implicit Types l : list A.

Lemma filter_all l : (forall x, x ∈ l -> P x) -> filter P l = l.
Proof.
  induction l as [|a l IH]; intros Hp; [done|]. rewrite filter_cons, decide_True by (apply Hp; by left).
  f_equal. apply IH. intros x Hx. apply Hp. by right.
Qed.

Lemma filter_none l : (forall x, x ∈ l -> ~ P x) -> filter P l = [].
Proof.
  induction l as [|a l IH]; intros Hp; [done|]. rewrite filter_cons, decide_False by (apply Hp; by left).
  apply IH. intros x Hx. apply Hp. by right.
Qed.

(** A list is its elements with [P] and those without. *)
Lemma zlen_filter_split l : zlen (filter P l) + zlen (filter (fun x => ~ P x) l) = zlen l.
Proof.
  induction l as [|a l IH]; [done|]. rewrite !filter_cons.
  repeat case_decide; rewrite ?zlen_cons; tauto || lia.
Qed.
End filter.
