(* ===== verification/Machine.v ===== *)
(** * Machine integers and the numbers of Lua

    The target is a 64-bit Linux kernel (LP64): [int] has 32 bits, [long],
    [size_t] and [ptrdiff_t] have 64.  A value of a C integer type is a [Z] in
    the range of the type; the casts below give the wrap-around.  The kernel
    is built with -fno-strict-overflow, so signed arithmetic wraps.

    The kernel has no floating point (NO_FPU in luaconf.h), so [lua_Number] is
    [long] and the arithmetic of Lua is the arithmetic of [long]. *)

From S2P Require Import Prelude.

#[global] Arguments Z.testbit : simpl never.
#[global] Arguments Z.pow : simpl never.

(** ** Casts *)

(** The cast to an unsigned type of [w] bits. *)
Definition uwrap (w x : Z) : Z := x mod 2 ^ w.
(** The cast to a signed type of [w] bits. *)
Definition swrap (w x : Z) : Z := (x + 2 ^ (w - 1)) mod 2 ^ w - 2 ^ (w - 1).

Abbreviation u8 := (uwrap 8).
Abbreviation u16 := (uwrap 16).
Abbreviation u32 := (uwrap 32).
Abbreviation u64 := (uwrap 64).
Abbreviation s8 := (swrap 8).
Abbreviation s32 := (swrap 32).
Abbreviation s64 := (swrap 64).

Definition in_u (w x : Z) : Prop := 0 <= x < 2 ^ w.
Definition in_s (w x : Z) : Prop := - 2 ^ (w - 1) <= x < 2 ^ (w - 1).

#[global] Instance in_u_dec w x : Decision (in_u w x).
Proof. unfold in_u. apply _. Defined.
#[global] Instance in_s_dec w x : Decision (in_s w x).
Proof. unfold in_s. apply _. Defined.

(** ** Limits (luaconf.h, llimits.h) *)

Definition LUA_INT_MAX : Z := 2147483647.
(** [MAX_INT], "maximum value of an int (-2 for safety)". *)
Definition MAX_INT : Z := LUA_INT_MAX - 2.
(** [(size_t)(~(size_t)0)-2]. *)
Definition MAX_SIZET : Z := 2 ^ 64 - 1 - 2.
Definition MAXSTACK : Z := 250.
Definition MINSTRTABSIZE : Z := 32.
Definition LUA_MINBUFFER : Z := 32.
Definition LUAI_MAXCALLS : Z := 20000.
Definition LUAI_MAXCCALLS : Z := 200.
Definition LUAI_MAXVARS : Z := 200.
Definition LUAI_MAXUPVALUES : Z := 60.
Definition LUA_IDSIZE : Z := 60.
Definition LUA_MULTRET : Z := -1.

(** ** Arithmetic of Lua numbers (luaconf.h, the luai_num macros)

    A quotient by zero, and the quotient of the least number by -1, trap on
    the processor. *)
Definition LONG_MIN : Z := - 2 ^ 63.

Definition luai_numadd (a b : Z) : Z := s64 (a + b).
Definition luai_numsub (a b : Z) : Z := s64 (a - b).
Definition luai_nummul (a b : Z) : Z := s64 (a * b).
Definition luai_numdiv (a b : Z) : result Z :=
  if (b =? 0) || ((a =? LONG_MIN) && (b =? -1)) then Err (UB "division trap")
  else Ok (Z.quot a b).
Definition luai_nummod (a b : Z) : result Z :=
  if (b =? 0) || ((a =? LONG_MIN) && (b =? -1)) then Err (UB "division trap")
  else Ok (Z.rem a b).
Definition luai_numpow (a b : Z) : Z := luai_nummul a b.
Definition luai_numunm (a : Z) : Z := s64 (- a).
Definition luai_numeq (a b : Z) : bool := a =? b.
Definition luai_numlt (a b : Z) : bool := a <? b.
Definition luai_numle (a b : Z) : bool := a <=? b.
Definition luai_numisnan (a : Z) : bool := negb (luai_numeq a a).
(** [lua_number2int]: [(int)(d)]. *)
Definition lua_number2int (d : Z) : Z := s32 d.

(** ** Lemmas *)

Lemma uwrap_range w x : 0 <= w -> in_u w (uwrap w x).
Proof.
  intros H. unfold in_u, uwrap. apply Z.mod_pos_bound, Z.pow_pos_nonneg; lia.
Qed.

Lemma uwrap_small w x : in_u w x -> uwrap w x = x.
Proof. unfold in_u, uwrap. intros. by apply Z.mod_small. Qed.

Lemma pow2_half w : 0 < w -> 2 ^ w = 2 * 2 ^ (w - 1).
Proof.
  intros H. rewrite <- Z.pow_succ_r by lia. f_equal. lia.
Qed.

Lemma swrap_range w x : 0 < w -> in_s w (swrap w x).
Proof.
  intros H. unfold in_s, swrap.
  pose proof (Z.mod_pos_bound (x + 2 ^ (w - 1)) (2 ^ w)
    ltac:(apply Z.pow_pos_nonneg; lia)).
  pose proof (pow2_half w H). lia.
Qed.

Lemma swrap_small w x : 0 < w -> in_s w x -> swrap w x = x.
Proof.
  unfold in_s, swrap. intros Hw H. rewrite Z.mod_small; [lia|].
  pose proof (pow2_half w Hw). lia.
Qed.

(** A signed cast loses a multiple of the modulus. *)
Lemma swrap_congr w x : 0 < w -> exists k, swrap w x = x + k * 2 ^ w.
Proof.
  intros H. unfold swrap.
  exists (- ((x + 2 ^ (w - 1)) / 2 ^ w)).
  pose proof (Z.div_mod (x + 2 ^ (w - 1)) (2 ^ w)
    ltac:(apply Z.pow_nonzero; lia)). lia.
Qed.

Lemma luai_numisnan_false a : luai_numisnan a = false.
Proof. unfold luai_numisnan, luai_numeq. by rewrite Z.eqb_refl. Qed.

(** A number is equal to its own [int] cast exactly when it is an [int]. *)
Lemma number2int_exact n :
  luai_numeq (lua_number2int n) n = true <-> in_s 32 n.
Proof.
  unfold luai_numeq, lua_number2int. rewrite Z.eqb_eq. split.
  - intros H. rewrite <- H. apply swrap_range. lia.
  - intros H. apply swrap_small; [lia|done].
Qed.

Lemma land_ones_mod x w : 0 <= w -> Z.land x (2 ^ w - 1) = x mod 2 ^ w.
Proof.
  intros H. rewrite <- (Z.land_ones x w H), Z.ones_equiv. by f_equal.
Qed.

Lemma uwrap_spec w x j :
  0 <= w -> 0 <= j -> Z.testbit (uwrap w x) j = (j <? w) && Z.testbit x j.
Proof.
  intros Hw Hj. unfold uwrap. destruct (j <? w) eqn:E; b2p.
  - by apply Z.mod_pow2_bits_low.
  - apply Z.mod_pow2_bits_high. lia.
Qed.

(** Bits at or above the width of an unsigned value are clear. *)
Lemma testbit_in_u w x j : 0 <= w -> in_u w x -> w <= j -> Z.testbit x j = false.
Proof.
  intros Hw Hx Hj. rewrite <- (uwrap_small w x Hx), uwrap_spec by lia.
  by destruct (Z.ltb_spec j w); [lia|].
Qed.

Lemma in_u_mono w1 w2 x : 0 <= w1 <= w2 -> in_u w1 x -> in_u w2 x.
Proof.
  intros Hw. unfold in_u. pose proof (Z.pow_le_mono_r 2 w1 w2). lia.
Qed.

Lemma lxor_range w a b : 0 <= w -> in_u w a -> in_u w b -> in_u w (Z.lxor a b).
Proof.
  intros Hw Ha Hb.
  assert (H : Z.lxor a b = uwrap w (Z.lxor a b)).
  { apply Z.bits_inj'. intros j Hj. rewrite uwrap_spec by lia.
    destruct (j <? w) eqn:E; b2p; [by rewrite andb_true_r || done|].
    rewrite Z.lxor_spec, (testbit_in_u w a j), (testbit_in_u w b j) by done. done. }
  rewrite H. by apply uwrap_range.
Qed.
