(* ===== verification/Opcodes.v ===== *)
(** * Opcodes.v: the instruction format (lopcodes.h, lopcodes.c)

    An instruction is an unsigned 32-bit word: the opcode in bits 0-5, A in
    6-13, C in 14-22, B in 23-31, or Bx in 14-31.  The macros of lopcodes.h
    are bit operations on the word. *)

From S2P Require Import Prelude Machine.

(** ** Formats *)

Inductive OpMode := iABC | iABx | iAsBx.
Inductive OpArgMask := OpArgN | OpArgU | OpArgR | OpArgK.

#[global] Instance OpMode_eq_dec : EqDecision OpMode.
Proof. solve_decision. Defined.
#[global] Instance OpArgMask_eq_dec : EqDecision OpArgMask.
Proof. solve_decision. Defined.

Definition SIZE_C : Z := 9.
Definition SIZE_B : Z := 9.
Definition SIZE_Bx : Z := SIZE_C + SIZE_B.
Definition SIZE_A : Z := 8.
Definition SIZE_OP : Z := 6.
Definition POS_OP : Z := 0.
Definition POS_A : Z := POS_OP + SIZE_OP.
Definition POS_C : Z := POS_A + SIZE_A.
Definition POS_B : Z := POS_C + SIZE_C.
Definition POS_Bx : Z := POS_C.

(** SIZE_Bx < LUAI_BITSINT-1, so the first branch of the [#if] holds. *)
Definition MAXARG_Bx : Z := Z.shiftl 1 SIZE_Bx - 1.
Definition MAXARG_sBx : Z := Z.shiftr MAXARG_Bx 1.
Definition MAXARG_A : Z := Z.shiftl 1 SIZE_A - 1.
Definition MAXARG_B : Z := Z.shiftl 1 SIZE_B - 1.
Definition MAXARG_C : Z := Z.shiftl 1 SIZE_C - 1.

(** [((~((~(Instruction)0)<<n))<<p)] on 32-bit words. *)
Definition MASK1 (n p : Z) : Z :=
  u32 (Z.shiftl (u32 (Z.lnot (u32 (Z.shiftl (u32 (Z.lnot 0)) n)))) p).
Definition MASK0 (n p : Z) : Z := u32 (Z.lnot (MASK1 n p)).

(** ** Opcodes *)

Inductive OpCode :=
  | OP_MOVE | OP_LOADK | OP_LOADBOOL | OP_LOADNIL | OP_GETUPVAL
  | OP_GETGLOBAL | OP_GETTABLE | OP_SETGLOBAL | OP_SETUPVAL | OP_SETTABLE
  | OP_NEWTABLE | OP_SELF | OP_ADD | OP_SUB | OP_MUL | OP_DIV | OP_MOD
  | OP_POW | OP_UNM | OP_NOT | OP_LEN | OP_CONCAT | OP_JMP | OP_EQ | OP_LT
  | OP_LE | OP_TEST | OP_TESTSET | OP_CALL | OP_TAILCALL | OP_RETURN
  | OP_FORLOOP | OP_FORPREP | OP_TFORLOOP | OP_SETLIST | OP_CLOSE
  | OP_CLOSURE | OP_VARARG.

#[global] Instance OpCode_eq_dec : EqDecision OpCode.
Proof. solve_decision. Defined.

(** The enumeration in its order ("ORDER OP"). *)
Definition all_opcodes : list OpCode :=
  [OP_MOVE; OP_LOADK; OP_LOADBOOL; OP_LOADNIL; OP_GETUPVAL;
   OP_GETGLOBAL; OP_GETTABLE; OP_SETGLOBAL; OP_SETUPVAL; OP_SETTABLE;
   OP_NEWTABLE; OP_SELF; OP_ADD; OP_SUB; OP_MUL; OP_DIV; OP_MOD;
   OP_POW; OP_UNM; OP_NOT; OP_LEN; OP_CONCAT; OP_JMP; OP_EQ; OP_LT;
   OP_LE; OP_TEST; OP_TESTSET; OP_CALL; OP_TAILCALL; OP_RETURN;
   OP_FORLOOP; OP_FORPREP; OP_TFORLOOP; OP_SETLIST; OP_CLOSE;
   OP_CLOSURE; OP_VARARG].

Definition NUM_OPCODES : Z := zlen all_opcodes.

(** The value of an enumerator: [cast(int, o)]. *)
Definition op2z (o : OpCode) : Z :=
  match o with
  | OP_MOVE => 0 | OP_LOADK => 1 | OP_LOADBOOL => 2 | OP_LOADNIL => 3
  | OP_GETUPVAL => 4 | OP_GETGLOBAL => 5 | OP_GETTABLE => 6
  | OP_SETGLOBAL => 7 | OP_SETUPVAL => 8 | OP_SETTABLE => 9
  | OP_NEWTABLE => 10 | OP_SELF => 11 | OP_ADD => 12 | OP_SUB => 13
  | OP_MUL => 14 | OP_DIV => 15 | OP_MOD => 16 | OP_POW => 17 | OP_UNM => 18
  | OP_NOT => 19 | OP_LEN => 20 | OP_CONCAT => 21 | OP_JMP => 22
  | OP_EQ => 23 | OP_LT => 24 | OP_LE => 25 | OP_TEST => 26
  | OP_TESTSET => 27 | OP_CALL => 28 | OP_TAILCALL => 29 | OP_RETURN => 30
  | OP_FORLOOP => 31 | OP_FORPREP => 32 | OP_TFORLOOP => 33
  | OP_SETLIST => 34 | OP_CLOSE => 35 | OP_CLOSURE => 36 | OP_VARARG => 37
  end.

(** The word of an opcode field as an enumerator; the six bits can hold a
    number that is none. *)
Definition z2op (z : Z) : option OpCode := znth all_opcodes z.

(** ** Fields *)

Definition GETFIELD (i p n : Z) : Z := Z.land (Z.shiftr i p) (MASK1 n 0).
Definition SETFIELD (i v p n : Z) : Z :=
  Z.lor (Z.land i (MASK0 n p)) (Z.land (u32 (Z.shiftl (u32 v) p)) (MASK1 n p)).

Definition GET_OPCODE (i : Z) : Z := GETFIELD i POS_OP SIZE_OP.
Definition SET_OPCODE (i : Z) (o : OpCode) : Z := SETFIELD i (op2z o) POS_OP SIZE_OP.
Definition GETARG_A (i : Z) : Z := GETFIELD i POS_A SIZE_A.
Definition SETARG_A (i u : Z) : Z := SETFIELD i u POS_A SIZE_A.
Definition GETARG_B (i : Z) : Z := GETFIELD i POS_B SIZE_B.
Definition SETARG_B (i b : Z) : Z := SETFIELD i b POS_B SIZE_B.
Definition GETARG_C (i : Z) : Z := GETFIELD i POS_C SIZE_C.
Definition SETARG_C (i b : Z) : Z := SETFIELD i b POS_C SIZE_C.
Definition GETARG_Bx (i : Z) : Z := GETFIELD i POS_Bx SIZE_Bx.
Definition SETARG_Bx (i b : Z) : Z := SETFIELD i b POS_Bx SIZE_Bx.
Definition GETARG_sBx (i : Z) : Z := GETARG_Bx i - MAXARG_sBx.
Definition SETARG_sBx (i b : Z) : Z := SETARG_Bx i (u32 (b + MAXARG_sBx)).

Definition CREATE_ABC (o : OpCode) (a b c : Z) : Z :=
  Z.lor (Z.lor (Z.lor (u32 (Z.shiftl (u32 (op2z o)) POS_OP))
                      (u32 (Z.shiftl (u32 a) POS_A)))
               (u32 (Z.shiftl (u32 b) POS_B)))
        (u32 (Z.shiftl (u32 c) POS_C)).
Definition CREATE_ABx (o : OpCode) (a bc : Z) : Z :=
  Z.lor (Z.lor (u32 (Z.shiftl (u32 (op2z o)) POS_OP))
               (u32 (Z.shiftl (u32 a) POS_A)))
        (u32 (Z.shiftl (u32 bc) POS_Bx)).

(** ** RK operands: a register, or a constant when bit [BITRK] is set *)

Definition BITRK : Z := Z.shiftl 1 (SIZE_B - 1).
Definition ISK (x : Z) : bool := negb (Z.land x BITRK =? 0).
Definition INDEXK (r : Z) : Z := Z.land r (Z.lnot BITRK).
Definition MAXINDEXRK : Z := BITRK - 1.
Definition RKASK (x : Z) : Z := Z.lor x BITRK.
Definition NO_REG : Z := MAXARG_A.

(** ** Properties of the opcodes (luaP_opmodes) *)

Definition argmask2z (m : OpArgMask) : Z :=
  match m with OpArgN => 0 | OpArgU => 1 | OpArgR => 2 | OpArgK => 3 end.
Definition z2argmask (z : Z) : OpArgMask :=
  if z =? 0 then OpArgN else if z =? 1 then OpArgU
  else if z =? 2 then OpArgR else OpArgK.
Definition opmode2z (m : OpMode) : Z :=
  match m with iABC => 0 | iABx => 1 | iAsBx => 2 end.

Definition opmode (t a : Z) (b c : OpArgMask) (m : OpMode) : Z :=
  Z.lor (Z.lor (Z.lor (Z.lor (Z.shiftl t 7) (Z.shiftl a 6))
     (Z.shiftl (argmask2z b) 4)) (Z.shiftl (argmask2z c) 2)) (opmode2z m).

Definition luaP_opmodes : list Z :=
  [ opmode 0 1 OpArgR OpArgN iABC    (* OP_MOVE *)
  ; opmode 0 1 OpArgK OpArgN iABx    (* OP_LOADK *)
  ; opmode 0 1 OpArgU OpArgU iABC    (* OP_LOADBOOL *)
  ; opmode 0 1 OpArgR OpArgN iABC    (* OP_LOADNIL *)
  ; opmode 0 1 OpArgU OpArgN iABC    (* OP_GETUPVAL *)
  ; opmode 0 1 OpArgK OpArgN iABx    (* OP_GETGLOBAL *)
  ; opmode 0 1 OpArgR OpArgK iABC    (* OP_GETTABLE *)
  ; opmode 0 0 OpArgK OpArgN iABx    (* OP_SETGLOBAL *)
  ; opmode 0 0 OpArgU OpArgN iABC    (* OP_SETUPVAL *)
  ; opmode 0 0 OpArgK OpArgK iABC    (* OP_SETTABLE *)
  ; opmode 0 1 OpArgU OpArgU iABC    (* OP_NEWTABLE *)
  ; opmode 0 1 OpArgR OpArgK iABC    (* OP_SELF *)
  ; opmode 0 1 OpArgK OpArgK iABC    (* OP_ADD *)
  ; opmode 0 1 OpArgK OpArgK iABC    (* OP_SUB *)
  ; opmode 0 1 OpArgK OpArgK iABC    (* OP_MUL *)
  ; opmode 0 1 OpArgK OpArgK iABC    (* OP_DIV *)
  ; opmode 0 1 OpArgK OpArgK iABC    (* OP_MOD *)
  ; opmode 0 1 OpArgK OpArgK iABC    (* OP_POW *)
  ; opmode 0 1 OpArgR OpArgN iABC    (* OP_UNM *)
  ; opmode 0 1 OpArgR OpArgN iABC    (* OP_NOT *)
  ; opmode 0 1 OpArgR OpArgN iABC    (* OP_LEN *)
  ; opmode 0 1 OpArgR OpArgR iABC    (* OP_CONCAT *)
  ; opmode 0 0 OpArgR OpArgN iAsBx   (* OP_JMP *)
  ; opmode 1 0 OpArgK OpArgK iABC    (* OP_EQ *)
  ; opmode 1 0 OpArgK OpArgK iABC    (* OP_LT *)
  ; opmode 1 0 OpArgK OpArgK iABC    (* OP_LE *)
  ; opmode 1 1 OpArgR OpArgU iABC    (* OP_TEST *)
  ; opmode 1 1 OpArgR OpArgU iABC    (* OP_TESTSET *)
  ; opmode 0 1 OpArgU OpArgU iABC    (* OP_CALL *)
  ; opmode 0 1 OpArgU OpArgU iABC    (* OP_TAILCALL *)
  ; opmode 0 0 OpArgU OpArgN iABC    (* OP_RETURN *)
  ; opmode 0 1 OpArgR OpArgN iAsBx   (* OP_FORLOOP *)
  ; opmode 0 1 OpArgR OpArgN iAsBx   (* OP_FORPREP *)
  ; opmode 1 0 OpArgN OpArgU iABC    (* OP_TFORLOOP *)
  ; opmode 0 0 OpArgU OpArgU iABC    (* OP_SETLIST *)
  ; opmode 0 0 OpArgN OpArgN iABC    (* OP_CLOSE *)
  ; opmode 0 1 OpArgU OpArgN iABx    (* OP_CLOSURE *)
  ; opmode 0 1 OpArgU OpArgN iABC ]. (* OP_VARARG *)

(** The entry of an opcode; [luaP_opmodes] has one for each. *)
Definition opmodes_at (o : OpCode) : Z := default 0 (znth luaP_opmodes (op2z o)).

Definition getOpMode (o : OpCode) : OpMode :=
  let m := Z.land (opmodes_at o) 3 in
  if m =? 0 then iABC else if m =? 1 then iABx else iAsBx.
Definition getBMode (o : OpCode) : OpArgMask := z2argmask (Z.land (Z.shiftr (opmodes_at o) 4) 3).
Definition getCMode (o : OpCode) : OpArgMask := z2argmask (Z.land (Z.shiftr (opmodes_at o) 2) 3).
Definition testAMode (o : OpCode) : bool := negb (Z.land (opmodes_at o) (Z.shiftl 1 6) =? 0).
Definition testTMode (o : OpCode) : bool := negb (Z.land (opmodes_at o) (Z.shiftl 1 7) =? 0).

Definition luaP_opnames : list string :=
  ["MOVE"; "LOADK"; "LOADBOOL"; "LOADNIL"; "GETUPVAL"; "GETGLOBAL";
   "GETTABLE"; "SETGLOBAL"; "SETUPVAL"; "SETTABLE"; "NEWTABLE"; "SELF";
   "ADD"; "SUB"; "MUL"; "DIV"; "MOD"; "POW"; "UNM"; "NOT"; "LEN"; "CONCAT";
   "JMP"; "EQ"; "LT"; "LE"; "TEST"; "TESTSET"; "CALL"; "TAILCALL"; "RETURN";
   "FORLOOP"; "FORPREP"; "TFORLOOP"; "SETLIST"; "CLOSE"; "CLOSURE"; "VARARG"]%string.

(** Number of list items to accumulate before a SETLIST instruction. *)
Definition LFIELDS_PER_FLUSH : Z := 50.

(** ** Bit-level characterisation *)

Lemma MASK1_spec n p j :
  0 <= n -> 0 <= p -> n + p <= 32 -> 0 <= j ->
  Z.testbit (MASK1 n p) j = (p <=? j) && (j <? p + n).
Proof.
  intros Hn Hp Hnp Hj. unfold MASK1.
  rewrite uwrap_spec, Z.shiftl_spec by lia.
  destruct (Z.leb_spec p j) as [Hpj|Hpj]; cbn.
  2: { rewrite Z.testbit_neg_r by lia. by rewrite andb_false_r. }
  rewrite uwrap_spec, Z.lnot_spec, uwrap_spec, Z.shiftl_spec by lia.
  destruct (Z.ltb_spec (j - p) n) as [H1|H1].
  - rewrite Z.testbit_neg_r by lia. rewrite andb_false_r. cbn.
    destruct (Z.ltb_spec j 32), (Z.ltb_spec (j - p) 32), (Z.ltb_spec j (p + n)); cbn; lia.
  - rewrite uwrap_spec, Z.lnot_spec, Z.bits_0 by lia. cbn.
    destruct (Z.ltb_spec (j - p) 32), (Z.ltb_spec (j - p - n) 32),
      (Z.ltb_spec j 32), (Z.ltb_spec j (p + n)); cbn; lia.
Qed.

Lemma MASK0_spec n p j :
  0 <= n -> 0 <= p -> n + p <= 32 -> 0 <= j ->
  Z.testbit (MASK0 n p) j = (j <? 32) && negb ((p <=? j) && (j <? p + n)).
Proof.
  intros. unfold MASK0. rewrite uwrap_spec, Z.lnot_spec, MASK1_spec by lia. done.
Qed.

Lemma GETFIELD_spec i p n j :
  0 <= n -> 0 <= p -> n + p <= 32 -> 0 <= j ->
  Z.testbit (GETFIELD i p n) j = (j <? n) && Z.testbit i (j + p).
Proof.
  intros. unfold GETFIELD. rewrite Z.land_spec, Z.shiftr_spec, MASK1_spec by lia.
  rewrite andb_comm. f_equal. destruct (Z.leb_spec 0 j); [done|lia].
Qed.

Lemma SETFIELD_spec i v p n j :
  0 <= n -> 0 <= p -> n + p <= 32 -> 0 <= j -> in_u 32 i ->
  Z.testbit (SETFIELD i v p n) j =
    if (p <=? j) && (j <? p + n) then Z.testbit v (j - p) else Z.testbit i j.
Proof.
  intros Hn Hp Hnp Hj Hi. unfold SETFIELD.
  rewrite Z.lor_spec, !Z.land_spec, MASK1_spec, MASK0_spec by lia.
  rewrite uwrap_spec, Z.shiftl_spec by lia.
  destruct (Z.leb_spec p j) as [H1|H1], (Z.ltb_spec j (p + n)) as [H2|H2]; cbn;
    rewrite ?andb_false_r, ?andb_true_r, ?orb_false_r; cbn.
  { rewrite uwrap_spec by lia.
    destruct (Z.ltb_spec j 32), (Z.ltb_spec (j - p) 32); try lia. by cbn. }
  all: destruct (Z.ltb_spec j 32) as [H3|H3];
    rewrite ?andb_true_r, ?andb_false_r; try done;
    symmetry; by apply (testbit_in_u 32).
Qed.

(** The field of a 32-bit word as a quotient. *)
Lemma GETFIELD_div i p n :
  0 <= n -> 0 <= p -> n + p <= 32 -> GETFIELD i p n = (i / 2 ^ p) mod 2 ^ n.
Proof.
  intros. apply Z.bits_inj'. intros j Hj. rewrite GETFIELD_spec by lia.
  rewrite <- Z.shiftr_div_pow2 by lia. fold (uwrap n (Z.shiftr i p)).
  by rewrite uwrap_spec, Z.shiftr_spec by lia.
Qed.

Lemma GETFIELD_range i p n :
  0 <= n -> 0 <= p -> n + p <= 32 -> in_u n (GETFIELD i p n).
Proof. intros. rewrite GETFIELD_div by lia. by apply uwrap_range. Qed.

Lemma SETFIELD_range i v p n :
  0 <= n -> 0 <= p -> n + p <= 32 -> in_u 32 i -> in_u 32 (SETFIELD i v p n).
Proof.
  intros Hn Hp Hnp Hi.
  enough (SETFIELD i v p n = u32 (SETFIELD i v p n)) as -> by by apply uwrap_range.
  apply Z.bits_inj'. intros j Hj. rewrite uwrap_spec by lia.
  destruct (Z.ltb_spec j 32) as [Hj32|Hj32]; [done|]; cbn.
  rewrite SETFIELD_spec by done.
  destruct (Z.leb_spec p j), (Z.ltb_spec j (p + n)); cbn; try lia;
    by apply (testbit_in_u 32).
Qed.

(** A field read after it was written. *)
Lemma GET_SETFIELD_same i v p n :
  0 <= n -> 0 <= p -> n + p <= 32 -> in_u 32 i ->
  GETFIELD (SETFIELD i v p n) p n = uwrap n v.
Proof.
  intros. apply Z.bits_inj'. intros j Hj.
  rewrite GETFIELD_spec, uwrap_spec by lia.
  destruct (Z.ltb_spec j n); [cbn|done].
  rewrite SETFIELD_spec by (lia || done).
  destruct (Z.leb_spec p (j + p)), (Z.ltb_spec (j + p) (p + n)); try lia.
  cbn. f_equal. lia.
Qed.

(** A field read after a field that does not overlap it was written. *)
Lemma GET_SETFIELD_other i v p n p' n' :
  0 <= n -> 0 <= p -> n + p <= 32 -> 0 <= n' -> 0 <= p' -> n' + p' <= 32 ->
  in_u 32 i -> p + n <= p' \/ p' + n' <= p ->
  GETFIELD (SETFIELD i v p n) p' n' = GETFIELD i p' n'.
Proof.
  intros. apply Z.bits_inj'. intros j Hj. rewrite !GETFIELD_spec by lia.
  destruct (Z.ltb_spec j n'); [cbn|done]. rewrite SETFIELD_spec by (lia || done).
  destruct (Z.leb_spec p (j + p')), (Z.ltb_spec (j + p') (p + n)); try lia; done.
Qed.

Ltac fields := cbv [POS_OP POS_A POS_B POS_C POS_Bx SIZE_OP SIZE_A SIZE_B SIZE_C SIZE_Bx] in *;
  change (9 + 9) with 18 in *.

Lemma op2z_range o : in_u SIZE_OP (op2z o).
Proof. destruct o; by vm_compute. Qed.

Lemma z2op_op2z o : z2op (op2z o) = Some o.
Proof. by destruct o. Qed.

Lemma op2z_z2op z o : z2op z = Some o -> op2z o = z.
Proof.
  intros H. pose proof (znth_Some_lt _ _ _ H) as Hz.
  change (zlen all_opcodes) with 38 in Hz.
  assert (forallb (fun n => match z2op (Z.of_nat n) with
    | Some o => op2z o =? Z.of_nat n | None => true end) (seq 0 38) = true)
    as Hall by by vm_compute.
  rewrite forallb_forall in Hall.
  specialize (Hall (Z.to_nat z)). rewrite Z2Nat.id in Hall by lia.
  rewrite H in Hall. apply Z.eqb_eq, Hall, in_seq. lia.
Qed.

#[global] Instance op2z_inj : Inj (=) (=) op2z.
Proof.
  intros o1 o2 H. pose proof (z2op_op2z o1) as H1.
  rewrite H, z2op_op2z in H1. by simplify_eq.
Qed.

Lemma z2op_lt_NUM z : 0 <= z < NUM_OPCODES -> exists o, z2op z = Some o.
Proof. apply znth_is_Some. Qed.

(** Words made by [CREATE_ABC] and [CREATE_ABx], as field writes. *)
Lemma CREATE_ABC_spec o a b c j :
  in_u SIZE_A a -> in_u SIZE_B b -> in_u SIZE_C c -> 0 <= j ->
  Z.testbit (CREATE_ABC o a b c) j =
    if j <? 6 then Z.testbit (op2z o) j
    else if j <? 14 then Z.testbit a (j - 6)
    else if j <? 23 then Z.testbit c (j - 14)
    else if j <? 32 then Z.testbit b (j - 23) else false.
Proof.
  intros Ha Hb Hc Hj. pose proof (op2z_range o) as Ho. fields.
  unfold CREATE_ABC. fields.
  rewrite (uwrap_small 32 (op2z o)), (uwrap_small 32 a), (uwrap_small 32 b),
    (uwrap_small 32 c) by (eapply in_u_mono; [|eassumption]; lia).
  rewrite !Z.lor_spec, !uwrap_spec, !Z.shiftl_spec by lia.
  assert (forall x n k, 0 <= n -> in_u n x -> k < 0 \/ n <= k -> Z.testbit x k = false)
    as Hbit.
  { intros x n k Hn Hx [Hk|Hk]; [by apply Z.testbit_neg_r|by apply (testbit_in_u n)]. }
  replace (j - 0) with j by lia.
  replace (j - (0 + 6 + 8 + 9)) with (j - 23) by lia.
  replace (j - (0 + 6 + 8)) with (j - 14) by lia.
  replace (j - (0 + 6)) with (j - 6) by lia.
  destruct (Z.ltb_spec j 6); [|destruct (Z.ltb_spec j 14); [|destruct (Z.ltb_spec j 23);
    [|destruct (Z.ltb_spec j 32)]]]; cbn;
  try (destruct (Z.ltb_spec j 32); [|lia]); cbn;
  try rewrite (Hbit (op2z o) 6 j) by (done || lia);
  try rewrite (Hbit a 8 (j - 6)) by (done || lia);
  try rewrite (Hbit c 9 (j - 14)) by (done || lia);
  try rewrite (Hbit b 9 (j - 23)) by (done || lia);
  rewrite ?orb_false_r, ?orb_false_l; done.
Qed.

Lemma CREATE_ABx_spec o a bc j :
  in_u SIZE_A a -> in_u SIZE_Bx bc -> 0 <= j ->
  Z.testbit (CREATE_ABx o a bc) j =
    if j <? 6 then Z.testbit (op2z o) j
    else if j <? 14 then Z.testbit a (j - 6)
    else if j <? 32 then Z.testbit bc (j - 14) else false.
Proof.
  intros Ha Hb Hj. pose proof (op2z_range o) as Ho. unfold CREATE_ABx. fields.
  rewrite (uwrap_small 32 (op2z o)), (uwrap_small 32 a), (uwrap_small 32 bc)
    by (eapply in_u_mono; [|eassumption]; lia).
  rewrite !Z.lor_spec, !uwrap_spec, !Z.shiftl_spec by lia.
  assert (forall x n k, 0 <= n -> in_u n x -> k < 0 \/ n <= k -> Z.testbit x k = false)
    as Hbit.
  { intros x n k Hn Hx [Hk|Hk]; [by apply Z.testbit_neg_r|by apply (testbit_in_u n)]. }
  replace (j - 0) with j by lia.
  replace (j - (0 + 6 + 8)) with (j - 14) by lia.
  replace (j - (0 + 6)) with (j - 6) by lia.
  destruct (Z.ltb_spec j 6); [|destruct (Z.ltb_spec j 14);
    [|destruct (Z.ltb_spec j 32)]]; cbn;
  try (destruct (Z.ltb_spec j 32); [|lia]); cbn;
  try rewrite (Hbit (op2z o) 6 j) by (done || lia);
  try rewrite (Hbit a 8 (j - 6)) by (done || lia);
  try rewrite (Hbit bc 18 (j - 14)) by (done || lia);
  rewrite ?orb_false_r, ?orb_false_l; done.
Qed.

Lemma in_u_bits w x :
  0 <= w -> (forall j, 0 <= j -> w <= j -> Z.testbit x j = false) -> in_u w x.
Proof.
  intros Hw H. enough (x = uwrap w x) as -> by by apply uwrap_range.
  apply Z.bits_inj'. intros j Hj. rewrite uwrap_spec by lia.
  destruct (Z.ltb_spec j w); [done|]. by rewrite H.
Qed.

Lemma CREATE_ABC_range o a b c :
  in_u SIZE_A a -> in_u SIZE_B b -> in_u SIZE_C c -> in_u 32 (CREATE_ABC o a b c).
Proof.
  intros. apply in_u_bits; [done|]. intros j Hj Hj'. rewrite CREATE_ABC_spec by done.
  repeat case_if; try lia; done.
Qed.

Lemma CREATE_ABx_range o a bc :
  in_u SIZE_A a -> in_u SIZE_Bx bc -> in_u 32 (CREATE_ABx o a bc).
Proof.
  intros. apply in_u_bits; [done|]. intros j Hj Hj'. rewrite CREATE_ABx_spec by done.
  repeat case_if; try lia; done.
Qed.

(** Reads one field of a created word: bit by bit, the bits inside the field
    are those of the argument and those above it are clear on both sides. *)
Ltac read_field w spec arg :=
  apply Z.bits_inj'; intros j Hj; fields;
  rewrite GETFIELD_spec by lia;
  destruct (Z.ltb_spec j w);
  [ cbn; rewrite spec by first [done|lia]; repeat (case_if; try lia); f_equal; lia
  | cbn; symmetry; apply (testbit_in_u w); done ].

Section created.
Context (o : OpCode) (a b c bc : Z).
Context (Ha : in_u SIZE_A a) (Hb : in_u SIZE_B b) (Hc : in_u SIZE_C c).
Context (Hbc : in_u SIZE_Bx bc).

Lemma GET_OPCODE_ABC : GET_OPCODE (CREATE_ABC o a b c) = op2z o.
Proof. pose proof (op2z_range o). unfold GET_OPCODE. read_field 6 CREATE_ABC_spec (op2z o). Qed.
Lemma GETARG_A_ABC : GETARG_A (CREATE_ABC o a b c) = a.
Proof. unfold GETARG_A. read_field 8 CREATE_ABC_spec a. Qed.
Lemma GETARG_B_ABC : GETARG_B (CREATE_ABC o a b c) = b.
Proof. unfold GETARG_B. read_field 9 CREATE_ABC_spec b. Qed.
Lemma GETARG_C_ABC : GETARG_C (CREATE_ABC o a b c) = c.
Proof. unfold GETARG_C. read_field 9 CREATE_ABC_spec c. Qed.
Lemma GET_OPCODE_ABx : GET_OPCODE (CREATE_ABx o a bc) = op2z o.
Proof. pose proof (op2z_range o). unfold GET_OPCODE. read_field 6 CREATE_ABx_spec (op2z o). Qed.
Lemma GETARG_A_ABx : GETARG_A (CREATE_ABx o a bc) = a.
Proof. unfold GETARG_A. read_field 8 CREATE_ABx_spec a. Qed.
Lemma GETARG_Bx_ABx : GETARG_Bx (CREATE_ABx o a bc) = bc.
Proof. unfold GETARG_Bx. read_field 18 CREATE_ABx_spec bc. Qed.
End created.

Lemma GETARG_A_range i : in_u 8 (GETARG_A i).
Proof. by apply GETFIELD_range. Qed.
Lemma GETARG_B_range i : in_u 9 (GETARG_B i).
Proof. by apply GETFIELD_range. Qed.
Lemma GETARG_C_range i : in_u 9 (GETARG_C i).
Proof. by apply GETFIELD_range. Qed.
Lemma GETARG_Bx_range i : in_u 18 (GETARG_Bx i).
Proof. by apply GETFIELD_range. Qed.
Lemma GET_OPCODE_range i : in_u 6 (GET_OPCODE i).
Proof. by apply GETFIELD_range. Qed.

(** The word is determined by its fields. *)
Lemma CREATE_ABC_fields i o :
  in_u 32 i -> z2op (GET_OPCODE i) = Some o ->
  CREATE_ABC o (GETARG_A i) (GETARG_B i) (GETARG_C i) = i.
Proof.
  intros Hi Ho%op2z_z2op. apply Z.bits_inj'. intros j Hj.
  pose proof (GETARG_A_range i). pose proof (GETARG_B_range i).
  pose proof (GETARG_C_range i).
  rewrite CREATE_ABC_spec, Ho by done.
  unfold GET_OPCODE, GETARG_A, GETARG_B, GETARG_C in *. fields.
  repeat case_if; rewrite ?GETFIELD_spec by lia.
  5: symmetry; by apply (testbit_in_u 32).
  all: match goal with |- (?x <? ?y) && _ = _ => destruct (Z.ltb_spec x y); [|lia] end;
    cbn; f_equal; lia.
Qed.

Lemma CREATE_ABx_fields i o :
  in_u 32 i -> z2op (GET_OPCODE i) = Some o ->
  CREATE_ABx o (GETARG_A i) (GETARG_Bx i) = i.
Proof.
  intros Hi Ho%op2z_z2op. apply Z.bits_inj'. intros j Hj.
  pose proof (GETARG_A_range i). pose proof (GETARG_Bx_range i).
  rewrite CREATE_ABx_spec, Ho by done.
  unfold GET_OPCODE, GETARG_A, GETARG_Bx in *. fields.
  repeat case_if; rewrite ?GETFIELD_spec by lia.
  4: symmetry; by apply (testbit_in_u 32).
  all: match goal with |- (?x <? ?y) && _ = _ => destruct (Z.ltb_spec x y); [|lia] end;
    cbn; f_equal; lia.
Qed.

(** RK operands. *)
Lemma BITRK_spec j : 0 <= j -> Z.testbit BITRK j = (j =? 8).
Proof.
  intros. unfold BITRK. fields. change (Z.shiftl 1 (9 - 1)) with (2 ^ 8).
  rewrite Z.pow2_bits_eqb by lia. apply Z.eqb_sym.
Qed.

Lemma ISK_testbit x : ISK x = Z.testbit x 8.
Proof.
  unfold ISK. destruct (Z.testbit x 8) eqn:E.
  - destruct (Z.land x BITRK =? 0) eqn:E2; b2p; [|done].
    pose proof (f_equal (fun z => Z.testbit z 8) E2) as H. cbv beta in H.
    rewrite Z.land_spec, E, BITRK_spec in H by lia. discriminate.
  - replace (Z.land x BITRK) with 0; [done|]. symmetry.
    apply Z.bits_inj'. intros j Hj. rewrite Z.land_spec, BITRK_spec, Z.bits_0 by lia.
    destruct (Z.eqb_spec j 8) as [->|]; [by rewrite E|by rewrite andb_false_r].
Qed.

Lemma RK_constant k :
  0 <= k <= MAXINDEXRK -> ISK (RKASK k) = true /\ INDEXK (RKASK k) = k /\ in_u 9 (RKASK k).
Proof.
  intros Hk. change MAXINDEXRK with 255 in Hk.
  assert (in_u 8 k) as Hk8 by (unfold in_u; lia).
  assert (forall j, 8 <= j -> Z.testbit k j = false) as Hhi.
  { intros. by apply (testbit_in_u 8). }
  split_and!.
  - rewrite ISK_testbit. unfold RKASK. rewrite Z.lor_spec, BITRK_spec by lia.
    by rewrite orb_true_r.
  - unfold INDEXK, RKASK. apply Z.bits_inj'. intros j Hj.
    rewrite Z.land_spec, Z.lor_spec, Z.lnot_spec, BITRK_spec by lia.
    destruct (Z.eqb_spec j 8) as [->|]; cbn.
    + by rewrite andb_false_r, Hhi.
    + by rewrite orb_false_r, andb_true_r.
  - apply in_u_bits; [lia|]. intros j Hj Hj9. unfold RKASK.
    rewrite Z.lor_spec, BITRK_spec, Hhi by lia.
    destruct (Z.eqb_spec j 8); [lia|done].
Qed.

Lemma RK_register r : 0 <= r < BITRK -> ISK r = false.
Proof.
  intros Hr. rewrite ISK_testbit. apply (testbit_in_u 8); [lia| |lia].
  unfold in_u. by change BITRK with (2 ^ 8) in Hr.
Qed.

(** [INDEXK] of a constant operand of an instruction is a constant index. *)
Lemma INDEXK_range r : in_u 9 r -> ISK r = true -> INDEXK r = r - 256.
Proof.
  intros Hr. rewrite ISK_testbit. intros H8.
  unfold INDEXK. change BITRK with 256.
  enough (r = Z.lor (Z.land r (Z.lnot 256)) 256 /\
          Z.land (Z.land r (Z.lnot 256)) 256 = 0) as [H1 H2].
  { pose proof (Z.add_nocarry_lxor _ _ H2) as H3.
    rewrite Z.lxor_lor in H3 by done. lia. }
  split; apply Z.bits_inj'; intros j Hj; change 256 with BITRK;
    rewrite ?Z.lor_spec, ?Z.land_spec, ?Z.lnot_spec, ?BITRK_spec, ?Z.bits_0 by lia.
  - destruct (Z.eqb_spec j 8) as [->|]; rewrite ?H8; cbn; [done|].
    by rewrite andb_true_r, orb_false_r.
  - destruct (Z.eqb_spec j 8) as [->|]; cbn; by rewrite ?andb_false_r, ?andb_true_r.
Qed.

(** ** The instruction format is a bijection *)

(** Encoding an instruction and reading its fields gives back the opcode
    and the operands in both formats, signed jump offsets included; and every
    32-bit word with a valid opcode is the encoding of its own fields. *)
Theorem instruction_roundtrip o a b c bx j i o' :
  in_u SIZE_A a -> in_u SIZE_B b -> in_u SIZE_C c -> in_u SIZE_Bx bx ->
  - MAXARG_sBx <= j <= MAXARG_sBx ->
  in_u 32 i -> z2op (GET_OPCODE i) = Some o' ->
  (z2op (GET_OPCODE (CREATE_ABC o a b c)) = Some o /\ GETARG_A (CREATE_ABC o a b c) = a /\
   GETARG_B (CREATE_ABC o a b c) = b /\ GETARG_C (CREATE_ABC o a b c) = c) /\
  (z2op (GET_OPCODE (CREATE_ABx o a bx)) = Some o /\ GETARG_A (CREATE_ABx o a bx) = a /\
   GETARG_Bx (CREATE_ABx o a bx) = bx) /\
  GETARG_sBx (CREATE_ABx o a (j + MAXARG_sBx)) = j /\
  CREATE_ABC o' (GETARG_A i) (GETARG_B i) (GETARG_C i) = i /\
  CREATE_ABx o' (GETARG_A i) (GETARG_Bx i) = i.
Proof.
  intros Ha Hb Hc Hbx Hj Hi Ho'.
  rewrite GET_OPCODE_ABC, GET_OPCODE_ABx, z2op_op2z by done.
  split_and!; auto using GETARG_A_ABC, GETARG_B_ABC, GETARG_C_ABC, GETARG_A_ABx, GETARG_Bx_ABx,
    CREATE_ABC_fields, CREATE_ABx_fields.
  unfold GETARG_sBx. rewrite GETARG_Bx_ABx; [lia|done|].
  change MAXARG_sBx with 131071 in *. unfold in_u, SIZE_Bx, SIZE_C, SIZE_B in *.
  change (2 ^ (9 + 9)) with 262144. lia.
Qed.

Lemma instruction_roundtrip_witness :
  let o := OP_ADD in
  (z2op (GET_OPCODE (CREATE_ABC o 3 300 7)) = Some o /\ GETARG_A (CREATE_ABC o 3 300 7) = 3 /\
   GETARG_B (CREATE_ABC o 3 300 7) = 300 /\ GETARG_C (CREATE_ABC o 3 300 7) = 7) /\
  (z2op (GET_OPCODE (CREATE_ABx o 3 1000)) = Some o /\ GETARG_A (CREATE_ABx o 3 1000) = 3 /\
   GETARG_Bx (CREATE_ABx o 3 1000) = 1000) /\
  GETARG_sBx (CREATE_ABx o 3 (-5 + MAXARG_sBx)) = -5 /\
  CREATE_ABC OP_MOVE (GETARG_A 64) (GETARG_B 64) (GETARG_C 64) = 64 /\
  CREATE_ABx OP_MOVE (GETARG_A 64) (GETARG_Bx 64) = 64.
Proof.
  apply (instruction_roundtrip OP_ADD 3 300 7 1000 (-5) 64 OP_MOVE);
    vm_compute; try (split; congruence); reflexivity.
Defined.

(** Patching one operand of an instruction in place (what the code
    generator does to jumps and calls) sets that operand, truncated to its
    width, and leaves the opcode and the other operands as they were. *)
Theorem SETARG_spec i v :
  in_u 32 i ->
  (GETARG_A (SETARG_A i v) = uwrap SIZE_A v /\ GETARG_Bx (SETARG_A i v) = GETARG_Bx i /\
   GET_OPCODE (SETARG_A i v) = GET_OPCODE i) /\
  (GETARG_B (SETARG_B i v) = uwrap SIZE_B v /\ GETARG_A (SETARG_B i v) = GETARG_A i /\
   GETARG_C (SETARG_B i v) = GETARG_C i /\ GET_OPCODE (SETARG_B i v) = GET_OPCODE i) /\
  (GETARG_C (SETARG_C i v) = uwrap SIZE_C v /\ GETARG_A (SETARG_C i v) = GETARG_A i /\
   GETARG_B (SETARG_C i v) = GETARG_B i /\ GET_OPCODE (SETARG_C i v) = GET_OPCODE i) /\
  (GETARG_Bx (SETARG_Bx i v) = uwrap SIZE_Bx v /\ GETARG_A (SETARG_Bx i v) = GETARG_A i /\
   GET_OPCODE (SETARG_Bx i v) = GET_OPCODE i) /\
  (- MAXARG_sBx <= v <= MAXARG_sBx -> GETARG_sBx (SETARG_sBx i v) = v).
Proof.
  intros Hi. assert (Hbx : forall u, GETARG_Bx (SETARG_Bx i u) = uwrap SIZE_Bx u).
  { intros u. by apply GET_SETFIELD_same. }
  split_and!; auto; try (by apply GET_SETFIELD_same);
    try (apply GET_SETFIELD_other; fields; (lia || done)).
  intros Hv. unfold GETARG_sBx, SETARG_sBx. rewrite Hbx.
  change MAXARG_sBx with 131071 in *. unfold SIZE_Bx, SIZE_C, SIZE_B.
  rewrite !uwrap_small; [lia|unfold in_u; lia|].
  rewrite uwrap_small by (unfold in_u; lia). unfold in_u. change (2 ^ (9 + 9)) with 262144. lia.
Qed.

Lemma SETARG_spec_witness :
  let i := CREATE_ABC OP_CALL 1 2 3 in
  GETARG_C (SETARG_C i 9) = 9 /\ GETARG_B (SETARG_C i 9) = 2.
Proof.
  cbv zeta. destruct (SETARG_spec (CREATE_ABC OP_CALL 1 2 3) 9)
    as (_ & _ & (H1 & _ & H2 & _) & _).
  - vm_compute. split; congruence.
  - rewrite H1, H2. vm_compute. split; reflexivity.
Defined.
