(* ===== verification/Object.v ===== *)
(** * Object.v: Lua values and the generic functions over them
    (lobject.h, lobject.c)

    A tagged value is an inductive with one constructor per tag; the address
    of a collectable object is a number.  A C string is the list of its bytes
    without the final NUL; a [char *] that may be NULL is an option. *)

From S2P Require Import Prelude Machine.

(** ** Values *)

Definition LUA_TNIL : Z := 0.
Definition LUA_TBOOLEAN : Z := 1.
Definition LUA_TLIGHTUSERDATA : Z := 2.
Definition LUA_TNUMBER : Z := 3.
Definition LUA_TSTRING : Z := 4.
Definition LUA_TTABLE : Z := 5.
Definition LUA_TFUNCTION : Z := 6.
Definition LUA_TUSERDATA : Z := 7.
Definition LUA_TTHREAD : Z := 8.
Definition LUA_TPROTO : Z := 9.
Definition LUA_TUPVAL : Z := 10.
Definition LUA_TDEADKEY : Z := 11.

Inductive TValue :=
  | VNil
  | VBoolean (b : Z)
  | VLightUserdata (p : Z)
  | VNumber (n : Z)
  | VString (gc : Z)
  | VTable (gc : Z)
  | VFunction (gc : Z)
  | VUserdata (gc : Z)
  | VThread (gc : Z)
  | VProto (gc : Z)
  | VDeadKey (gc : Z).

#[global] Instance TValue_eq_dec : EqDecision TValue.
Proof. solve_decision. Defined.

Definition ttype (o : TValue) : Z :=
  match o with
  | VNil => LUA_TNIL | VBoolean _ => LUA_TBOOLEAN
  | VLightUserdata _ => LUA_TLIGHTUSERDATA | VNumber _ => LUA_TNUMBER
  | VString _ => LUA_TSTRING | VTable _ => LUA_TTABLE
  | VFunction _ => LUA_TFUNCTION | VUserdata _ => LUA_TUSERDATA
  | VThread _ => LUA_TTHREAD | VProto _ => LUA_TPROTO
  | VDeadKey _ => LUA_TDEADKEY
  end.

Definition ttisnil (o : TValue) : bool := ttype o =? LUA_TNIL.
Definition ttisnumber (o : TValue) : bool := ttype o =? LUA_TNUMBER.
Definition ttisstring (o : TValue) : bool := ttype o =? LUA_TSTRING.
Definition iscollectable (o : TValue) : bool := LUA_TSTRING <=? ttype o.

(** [gcvalue], the [gc] field of the union; read only when collectable. *)
Definition gcvalue (o : TValue) : Z :=
  match o with
  | VString p | VTable p | VFunction p | VUserdata p | VThread p | VProto p
  | VDeadKey p => p
  | _ => 0
  end.

Definition l_isfalse (o : TValue) : bool :=
  match o with VNil => true | VBoolean b => b =? 0 | _ => false end.

(** [luaO_rawequalObj]. *)
Definition luaO_rawequalObj (t1 t2 : TValue) : bool :=
  if negb (ttype t1 =? ttype t2) then false
  else match t1, t2 with
  | VNil, _ => true
  | VNumber n1, VNumber n2 => luai_numeq n1 n2
  | VBoolean b1, VBoolean b2 => b1 =? b2  (* boolean true must be 1 !! *)
  | VLightUserdata p1, VLightUserdata p2 => p1 =? p2
  | _, _ => gcvalue t1 =? gcvalue t2
  end.

(** ** Numbers packed in few bits *)

(** [while (x >= 16) { x = (x+1) >> 1; e++; }]: an [unsigned int] has 32 bits
    and each turn drops one, so 32 turns are enough. *)
Fixpoint int2fb_loop (fuel : nat) (x e : Z) : Z * Z :=
  match fuel with
  | O => (x, e)
  | S fuel => if x >=? 16 then int2fb_loop fuel (Z.shiftr (u32 (x + 1)) 1) (e + 1)
              else (x, e)
  end.

Definition luaO_int2fb (x : Z) : Z :=
  let '(x, e) := int2fb_loop 32 x 0 in
  if x <? 8 then x else Z.lor (Z.shiftl (e + 1) 3) (x - 8).

Definition luaO_fb2int (x : Z) : Z :=
  let e := Z.land (Z.shiftr x 3) 31 in
  if e =? 0 then x else s32 (Z.shiftl (Z.land x 7 + 8) (e - 1)).

(** The table of [luaO_log2]: entry 0, then for each power of two its run. *)
Definition log_2 : list Z :=
  [ 0;1;2;2;3;3;3;3;4;4;4;4;4;4;4;4;5;5;5;5;5;5;5;5;5;5;5;5;5;5;5;5;
    6;6;6;6;6;6;6;6;6;6;6;6;6;6;6;6;6;6;6;6;6;6;6;6;6;6;6;6;6;6;6;6;
    7;7;7;7;7;7;7;7;7;7;7;7;7;7;7;7;7;7;7;7;7;7;7;7;7;7;7;7;7;7;7;7;
    7;7;7;7;7;7;7;7;7;7;7;7;7;7;7;7;7;7;7;7;7;7;7;7;7;7;7;7;7;7;7;7;
    8;8;8;8;8;8;8;8;8;8;8;8;8;8;8;8;8;8;8;8;8;8;8;8;8;8;8;8;8;8;8;8;
    8;8;8;8;8;8;8;8;8;8;8;8;8;8;8;8;8;8;8;8;8;8;8;8;8;8;8;8;8;8;8;8;
    8;8;8;8;8;8;8;8;8;8;8;8;8;8;8;8;8;8;8;8;8;8;8;8;8;8;8;8;8;8;8;8;
    8;8;8;8;8;8;8;8;8;8;8;8;8;8;8;8;8;8;8;8;8;8;8;8;8;8;8;8;8;8;8;8 ].

(** [while (x >= 256) { l += 8; x >>= 8; }]: at most three turns. *)
Fixpoint log2_loop (fuel : nat) (l x : Z) : Z * Z :=
  match fuel with
  | O => (l, x)
  | S fuel => if x >=? 256 then log2_loop fuel (l + 8) (Z.shiftr x 8) else (l, x)
  end.

Definition luaO_log2 (x : Z) : Z :=
  let '(l, x) := log2_loop 4 (-1) x in l + default 0 (znth log_2 x).

Definition ceillog2 (x : Z) : Z := luaO_log2 (u32 (x - 1)) + 1.

(** [lmod]: [cast(int, (s) & ((size)-1))]. *)
Definition lmod (s size : Z) : Z := s32 (Z.land s (size - 1)).
Definition twoto (x : Z) : Z := s32 (Z.shiftl 1 x).

(** ** Byte strings *)

Abbreviation bytes := (list Z).
Definition wf_bytes (s : bytes) : Prop := Forall (in_u 8) s.

Definition bytes_of_string (s : string) : bytes :=
  (fun a => Z.of_N (Ascii.N_of_ascii a)) <$> String.list_ascii_of_string s.

(** [strcspn(source, "\n\r")]: the length of the prefix without newlines. *)
Fixpoint strcspn_nl (s : bytes) : nat :=
  match s with
  | [] => O
  | c :: s => if (c =? 10) || (c =? 13) then O else S (strcspn_nl s)
  end.

(** The characters [isspace] of the kernel's ctype table accepts. *)
Definition isspace (c : Z) : bool :=
  ((9 <=? c) && (c <=? 13)) || (c =? 32) || (c =? 160).

(** [luaO_chunkid]: the contents of [out] up to its NUL.  [bufflen] is the
    size of [out], LUA_IDSIZE or MAXSRC. *)
Definition luaO_chunkid (source : bytes) (bufflen : Z) : bytes :=
  match source with
  | 61 (* '=' *) :: rest =>
      (* strncpy copies at most bufflen bytes; out[bufflen-1] = '\0' *)
      take (Z.to_nat (bufflen - 1)) rest
  | 64 (* '@' *) :: rest =>
      let bufflen := bufflen - 8 (* sizeof(" '...' ") *) in
      let l := zlen rest in
      if l >? bufflen then bytes_of_string "..." ++ drop (Z.to_nat (l - bufflen)) rest
      else rest
  | _ =>
      let len := Z.of_nat (strcspn_nl source) in
      let bufflen := bufflen - 17 (* sizeof(" [string \"...\"] ") *) in
      let len := if len >? bufflen then bufflen else len in
      bytes_of_string "[string " ++ [34] ++
      (if len <? zlen source then take (Z.to_nat len) source ++ bytes_of_string "..."
       else source) ++ [34] ++ bytes_of_string "]"
  end.

(** ** Conversion of strings to numbers

    [simple_strtol] and [simple_strtoul] are functions of the kernel: each
    returns the value and the number of bytes it consumed. *)
Class KernelStrto := {
  simple_strtol : bytes -> Z * nat;     (* base 10 *)
  simple_strtoul16 : bytes -> Z * nat;  (* base 16 *)
}.

Definition luaO_str2d `{KernelStrto} (s : bytes) : option Z :=
  let '(r, n) := simple_strtol s in
  if (n =? 0)%nat then None  (* conversion failed *)
  else
    let '(r, n) :=
      match s !! n with
      | Some 120 (* 'x' *) | Some 88 (* 'X' *) =>
          let '(v, n) := simple_strtoul16 s in (s64 v, n)
      | _ => (r, n)
      end in
    if forallb isspace (drop n s) then Some r else None.

(** ** Function prototypes

    A [TString *] is the contents of the string, [None] for NULL: strings are
    interned, so equal contents are equal pointers (the file Str). *)
Abbreviation TStr := (option bytes).

Inductive Const :=
  | KNil
  | KBoolean (b : Z)
  | KNumber (n : Z)
  | KString (s : TStr).

#[global] Instance Const_eq_dec : EqDecision Const.
Proof. solve_decision. Defined.

Definition ttype_k (c : Const) : Z :=
  match c with
  | KNil => LUA_TNIL | KBoolean _ => LUA_TBOOLEAN
  | KNumber _ => LUA_TNUMBER | KString _ => LUA_TSTRING
  end.

Record LocVar := mkLocVar { varname : TStr; startpc : Z; endpc : Z }.

#[global] Instance LocVar_eq_dec : EqDecision LocVar.
Proof. solve_decision. Defined.

Inductive Proto := mkProto {
  pt_source : TStr;
  pt_linedefined : Z;
  pt_lastlinedefined : Z;
  pt_nups : Z;
  pt_numparams : Z;
  pt_is_vararg : Z;
  pt_maxstacksize : Z;
  pt_code : list Z;
  pt_k : list Const;
  pt_p : list Proto;
  pt_lineinfo : list Z;
  pt_locvars : list LocVar;
  pt_upvalues : list TStr;
}.

Definition VARARG_HASARG : Z := 1.
Definition VARARG_ISVARARG : Z := 2.
Definition VARARG_NEEDSARG : Z := 4.

Definition pt_sizecode (f : Proto) : Z := zlen (pt_code f).
Definition pt_sizek (f : Proto) : Z := zlen (pt_k f).
Definition pt_sizep (f : Proto) : Z := zlen (pt_p f).
Definition pt_sizelineinfo (f : Proto) : Z := zlen (pt_lineinfo f).
Definition pt_sizelocvars (f : Proto) : Z := zlen (pt_locvars f).
Definition pt_sizeupvalues (f : Proto) : Z := zlen (pt_upvalues f).

(** Sizes of the C structures on the target (LP64). *)
Definition sizeof_int : Z := 4.
Definition sizeof_size_t : Z := 8.
Definition sizeof_ptr : Z := 8.
Definition sizeof_Instruction : Z := 4.
Definition sizeof_lua_Number : Z := 8.
Definition sizeof_TValue : Z := 16.
Definition sizeof_Node : Z := 40.
Definition sizeof_Table : Z := 64.
Definition sizeof_TString : Z := 24.
Definition sizeof_Proto : Z := 120.
Definition sizeof_LocVar : Z := 16.
Definition sizeof_UpVal : Z := 40.

(** ** Lemmas *)

Lemma bytes_of_string_wf s : wf_bytes (bytes_of_string s).
Proof.
  unfold wf_bytes, bytes_of_string. apply Forall_forall. intros c Hc.
  apply list_elem_of_fmap in Hc as (a & -> & _).
  pose proof (Ascii.N_ascii_bounded a). unfold in_u. lia.
Qed.


(** Induction over a prototype and the prototypes nested in it. *)
Lemma Proto_nested_ind (P : Proto -> Prop) :
  (forall f, Forall P (pt_p f) -> P f) -> forall f, P f.
Proof.
  intros H.
  refine (fix rec (f : Proto) : P f := H f _).
  destruct f as [? ? ? ? ? ? ? ? ? p ? ? ?]; cbn.
  induction p as [|g p IH]; [constructor|].
  constructor; [exact (rec g)|exact IH].
Qed.

Lemma rawequal_spec t1 t2 : luaO_rawequalObj t1 t2 = true <-> t1 = t2.
Proof.
  unfold luaO_rawequalObj, luai_numeq.
  destruct t1, t2; cbn; rewrite ?Z.eqb_eq; naive_solver.
Qed.

Lemma rawequal_refl t : luaO_rawequalObj t t = true.
Proof. by apply rawequal_spec. Qed.

Lemma ttisnil_spec o : ttisnil o = true <-> o = VNil.
Proof. destruct o; cbn; naive_solver. Qed.

Lemma ttisnil_false o : ttisnil o = false <-> o <> VNil.
Proof. destruct o; cbn; naive_solver. Qed.

Lemma ttisnumber_spec o : ttisnumber o = true <-> exists n, o = VNumber n.
Proof. destruct o; cbn; naive_solver. Qed.

(** [luaO_log2] is the binary logarithm; its value at 0 is -1. *)
Lemma log2_table x : 1 <= x < 256 -> znth log_2 x = Some (Z.log2 x + 1).
Proof.
  intros Hx.
  assert (forallb (fun n => bool_decide
    (znth log_2 (Z.of_nat n) = Some (Z.log2 (Z.of_nat n) + 1))) (seq 1 255) = true)
    as H by by vm_compute.
  rewrite forallb_forall in H. specialize (H (Z.to_nat x)).
  rewrite Z2Nat.id in H by lia. eapply bool_decide_eq_true, H, in_seq. lia.
Qed.

Lemma log2_loop_spec fuel l x :
  1 <= x < 2 ^ (8 * Z.of_nat fuel) ->
  let '(l', x') := log2_loop fuel l x in
  1 <= x' < 256 /\ l' + Z.log2 x' = l + Z.log2 x.
Proof.
  revert l x. induction fuel as [|fuel IH]; intros l x Hx.
  { cbn in Hx. change (2 ^ 0) with 1 in Hx. lia. }
  cbn [log2_loop]. case_if; [|lia].
  assert (1 <= Z.shiftr x 8 < 2 ^ (8 * Z.of_nat fuel)) as Hs.
  { rewrite Z.shiftr_div_pow2 by lia. change (2 ^ 8) with 256.
    split; [apply Z.div_le_lower_bound; lia|].
    apply Z.div_lt_upper_bound; [lia|].
    replace (8 * Z.of_nat (S fuel)) with (8 + 8 * Z.of_nat fuel) in Hx by lia.
    rewrite Z.pow_add_r in Hx by lia. change (2 ^ 8) with 256 in Hx. lia. }
  specialize (IH (l + 8) _ Hs). destruct (log2_loop _ _ _) as [l' x'].
  destruct IH as [IH1 IH2]. split; [done|].
  rewrite Z.log2_shiftr in IH2 by lia.
  pose proof (Z.log2_le_mono 256 x ltac:(lia)) as H8.
  change (Z.log2 256) with 8 in H8. lia.
Qed.

Lemma luaO_log2_spec x :
  0 <= x < 2 ^ 32 -> luaO_log2 x = if x =? 0 then -1 else Z.log2 x.
Proof.
  intros Hx. case_if; [by subst|].
  unfold luaO_log2. pose proof (log2_loop_spec 4 (-1) x) as H.
  destruct (log2_loop _ _ _) as [l y].
  destruct H as [H1 H2]. { change (8 * Z.of_nat 4) with 32. lia. }
  rewrite log2_table by done. cbn [default id]. cbn. lia.
Qed.

Lemma ceillog2_spec x : 1 <= x <= 2 ^ 31 -> ceillog2 x = Z.log2_up x.
Proof.
  intros Hx. unfold ceillog2. rewrite uwrap_small by (unfold in_u; lia).
  rewrite luaO_log2_spec by lia. destruct (Z.eqb_spec (x - 1) 0).
  - by replace x with 1 by lia.
  - unfold Z.log2_up. destruct (Z.compare_spec 1 x); try lia.
    rewrite <- Z.sub_1_r. lia.
Qed.

(** Masking with a power of two less one is the remainder. *)
Lemma lmod_spec s k : 0 <= k <= 31 -> lmod s (2 ^ k) = s mod 2 ^ k.
Proof.
  intros Hk. unfold lmod. rewrite land_ones_mod by lia.
  apply swrap_small; [lia|]. unfold in_s.
  pose proof (Z.mod_pos_bound s (2 ^ k) ltac:(apply Z.pow_pos_nonneg; lia)).
  pose proof (Z.pow_le_mono_r 2 k 31). change (32 - 1) with 31. lia.
Qed.

Lemma twoto_spec k : 0 <= k < 31 -> twoto k = 2 ^ k.
Proof.
  intros Hk. unfold twoto. rewrite Z.shiftl_1_l. apply swrap_small; [lia|].
  unfold in_s. pose proof (Z.pow_lt_mono_r 2 k 31).
  pose proof (Z.pow_pos_nonneg 2 k). change (32 - 1) with 31. lia.
Qed.

(** ** Packed sizes and source names *)

Lemma int2fb_loop_spec fuel x e :
  0 <= x < 2 ^ 32 - 1 -> x <= 15 * 2 ^ Z.of_nat fuel ->
  let '(x', e') := int2fb_loop fuel x e in
  e <= e' <= e + Z.of_nat fuel /\ 0 <= x' < 16 /\ (x < 16 -> x' = x /\ e' = e) /\
  (16 <= x -> 8 <= x') /\ (e < e' -> 15 * 2 ^ (e' - e - 1) < x) /\
  x <= x' * 2 ^ (e' - e) /\ x' * 2 ^ (e' - e) < x + 2 ^ (e' - e).
Proof.
  revert x e. induction fuel as [|fuel IH]; intros x e Hx Hf; cbn [int2fb_loop].
  { rewrite Z.sub_diag. change (2 ^ 0) with 1. change (2 ^ Z.of_nat 0) with 1 in Hf. lia. }
  case_if; [|rewrite Z.sub_diag; change (2 ^ 0) with 1; lia].
  rewrite uwrap_small by (unfold in_u; lia). rewrite Z.shiftr_div_pow2 by lia. change (2 ^ 1) with 2.
  assert (Hd : x <= 2 * ((x + 1) / 2) <= x + 1).
  { pose proof (Z.div_mod (x + 1) 2 ltac:(lia)). pose proof (Z.mod_pos_bound (x + 1) 2 ltac:(lia)). lia. }
  replace (Z.of_nat (S fuel)) with (Z.of_nat fuel + 1) in * by lia.
  rewrite Z.pow_add_r in Hf by lia. change (2 ^ 1) with 2 in Hf.
  specialize (IH ((x + 1) / 2) (e + 1) ltac:(lia)).
  destruct (int2fb_loop fuel ((x + 1) / 2) (e + 1)) as [x' e'].
  destruct IH as (He & Hx' & Hsm & Hbig & Hmin & Hlo & Hhi); [lia|].
  assert (Hmin' : e < e' -> 15 * 2 ^ (e' - e - 1) < x).
  { intros _. destruct (decide (e' = e + 1)) as [->|Hne].
    - replace (e + 1 - e - 1) with 0 by lia. change (2 ^ 0) with 1. lia.
    - specialize (Hmin ltac:(lia)). replace (e' - e - 1) with ((e' - (e + 1) - 1) + 1) by lia.
      rewrite Z.pow_add_r by lia. change (2 ^ 1) with 2. lia. }
  split_and!; try lia;
    (replace (e' - e) with ((e' - (e + 1)) + 1) by lia); rewrite Z.pow_add_r by lia;
    change (2 ^ 1) with 2; lia.
Qed.

Lemma fb2int_packed e x :
  0 <= e <= 27 -> 8 <= x < 16 -> luaO_fb2int (Z.lor (Z.shiftl (e + 1) 3) (x - 8)) = x * 2 ^ e.
Proof.
  intros He Hx.
  assert (Hl : Z.lor (Z.shiftl (e + 1) 3) (x - 8) = (e + 1) * 8 + (x - 8)).
  { rewrite Z.shiftl_mul_pow2 by lia. change (2 ^ 3) with 8. pose proof (Z.add_lor_land ((e + 1) * 8) (x - 8)).
    assert (Hz : Z.land ((e + 1) * 8) (x - 8) = 0); [|lia].
    apply Z.bits_inj'. intros j Hj. rewrite Z.land_spec, Z.bits_0.
    destruct (decide (j < 3)).
    - change 8 with (2 ^ 3) at 1. rewrite <-Z.shiftl_mul_pow2 by lia.
      rewrite Z.shiftl_spec_low by lia. done.
    - rewrite (testbit_in_u 3 (x - 8) j), andb_false_r; [done|lia| |lia].
      unfold in_u. change (2 ^ 3) with 8. lia. }
  rewrite Hl. unfold luaO_fb2int. rewrite Z.shiftr_div_pow2 by lia. change (2 ^ 3) with 8.
  rewrite Z.div_add_l, (Z.div_small (x - 8)) by lia. rewrite Z.add_0_r.
  change 31 with (2 ^ 5 - 1). change 7 with (2 ^ 3 - 1). rewrite !land_ones_mod by lia.
  change (2 ^ 5) with 32. change (2 ^ 3) with 8.
  rewrite (Z.mod_small (e + 1)) by lia. destruct (Z.eqb_spec (e + 1) 0); [lia|].
  replace (((e + 1) * 8 + (x - 8)) mod 8) with (x - 8)
    by (rewrite Z.add_comm, Z_mod_plus_full, Z.mod_small; lia).
  rewrite Z.shiftl_mul_pow2 by lia. replace (e + 1 - 1) with e by lia.
  replace (x - 8 + 8) with x by lia. apply swrap_small; [lia|]. unfold in_s. cbn.
  assert (2 ^ e <= 2 ^ 27) by (apply Z.pow_le_mono_r; lia).
  assert (0 < 2 ^ e) by lia. change (2 ^ 27) with 134217728 in *.
  change (2 ^ 31) with 2147483648. nia.
Qed.

(** The "floating point byte" of NEWTABLE rounds a size up, never down,
    and by less than a seventh: unpacking what luaO_int2fb packed gives
    a size that is enough, and below 16 the exact one. *)
Theorem fb_roundtrip x :
  0 <= x <= 15 * 2 ^ 27 ->
  x <= luaO_fb2int (luaO_int2fb x) /\ 7 * (luaO_fb2int (luaO_int2fb x) - x) <= x /\ 
  (x < 16 -> luaO_fb2int (luaO_int2fb x) = x).
Proof.
  intros Hx. unfold luaO_int2fb.
  pose proof (int2fb_loop_spec 32 x 0 ltac:(lia) ltac:(cbn; lia)) as H.
  destruct (int2fb_loop 32 x 0) as [x' e]. rewrite Z.sub_0_r in H.
  destruct H as (He & Hx' & Hsm & Hbig & Hmin & Hlo & Hhi). case_if.
  - assert (Hlt : x < 16) by (destruct (decide (x < 16)); [done|lia]).
    destruct (Hsm Hlt) as [-> ->].
    assert (Hf : luaO_fb2int x = x).
    { unfold luaO_fb2int. rewrite Z.shiftr_div_pow2, Z.div_small by (cbn; lia). done. }
    rewrite Hf. lia.
  - assert (0 < 2 ^ e) by lia.
    assert (He27 : e <= 27).
    { destruct (decide (e <= 27)); [done|]. exfalso.
      assert (2 ^ 27 <= 2 ^ (e - 1)) by (apply Z.pow_le_mono_r; lia). lia. }
    rewrite fb2int_packed by lia. split_and!; [lia| |].
    + destruct (decide (e = 0)) as [->|].
      * change (2 ^ 0) with 1 in *. lia.
      * assert (8 * 2 ^ e <= x' * 2 ^ e) by nia. nia.
    + intros Hlt. destruct (Hsm Hlt) as [-> ->]. change (2 ^ 0) with 1. lia.
Qed.

Lemma fb_roundtrip_witness :
  1000 <= luaO_fb2int (luaO_int2fb 1000) /\ 7 * (luaO_fb2int (luaO_int2fb 1000) - 1000) <= 1000 /\
  (1000 < 16 -> luaO_fb2int (luaO_int2fb 1000) = 1000).
Proof. apply (fb_roundtrip 1000). vm_compute. split; congruence. Defined.

Lemma strcspn_nl_length s : (strcspn_nl s <= length s)%nat.
Proof. induction s as [|c s IH]; cbn; [lia|]. case_if; lia. Qed.

(** C23: The description of a chunk's source fits the buffer it is printed
    into, its final NUL included, for any source (the buffers have
    LUA_IDSIZE = 60 and MAXSRC = 80 bytes). *)
Theorem luaO_chunkid_fits source bufflen :
  18 <= bufflen -> zlen (luaO_chunkid source bufflen) + 1 <= bufflen.
Proof.
  intros Hb. unfold luaO_chunkid.
  assert (Hother : zlen (let len := Z.of_nat (strcspn_nl source) in
      let bufflen := bufflen - 17 in
      let len := if len >? bufflen then bufflen else len in
      bytes_of_string "[string " ++ [34] ++
      (if len <? zlen source then take (Z.to_nat len) source ++ bytes_of_string "..."
       else source) ++ [34] ++ bytes_of_string "]") + 1 <= bufflen).
  { cbv zeta. rewrite !zlen_app.
    change (zlen (bytes_of_string "[string ")) with 8. change (zlen [34]) with 1.
    change (zlen (bytes_of_string "]")) with 1.
    set (len := if _ >? _ then _ else _).
    assert (Hl : 0 <= len <= bufflen - 17) by (unfold len; case_if; lia).
    assert (Hm : zlen (if len <? zlen source then take (Z.to_nat len) source ++ bytes_of_string "..."
                       else source) <= len + 3).
    { case_if.
      - rewrite zlen_app. change (zlen (bytes_of_string "...")) with 3.
        unfold zlen at 1. rewrite length_take. lia.
      - lia. }
    lia. }
  destruct source as [|c rest]; [exact Hother|].
  destruct (decide (c = 61)) as [->|H1].
  - unfold zlen. rewrite length_take. lia.
  - destruct (decide (c = 64)) as [->|H2].
    + cbv zeta. case_if; [|lia]. rewrite zlen_app. change (zlen (bytes_of_string "...")) with 3.
      unfold zlen in *. rewrite length_drop. lia.
    + assert (Hm : forall (A : Type) (x y z : A),
        match c with 61 => x | 64 => y | _ => z end = z).
      { intros A x y z. destruct c as [|c|c]; [done| |done].
        repeat (destruct c as [c|c|]; try done). }
      by rewrite Hm.
Qed.

Lemma luaO_chunkid_fits_witness :
  zlen (luaO_chunkid (64 :: replicate 200 97) LUA_IDSIZE) + 1 <= LUA_IDSIZE.
Proof. apply luaO_chunkid_fits. vm_compute. congruence. Defined.

(** The table-driven logarithm: luaO_log2 is the floor and ceillog2 the
    ceiling of the base-2 logarithm, on every size the engine uses. *)
Theorem log2_spec x :
  1 <= x <= 2 ^ 31 -> luaO_log2 x = Z.log2 x /\ ceillog2 x = Z.log2_up x.
Proof.
  intros Hx. split; [|by apply ceillog2_spec].
  rewrite luaO_log2_spec by lia. by destruct (Z.eqb_spec x 0); [lia|].
Qed.

Lemma log2_spec_witness : luaO_log2 1000 = Z.log2 1000 /\ ceillog2 1000 = Z.log2_up 1000.
Proof. apply log2_spec. vm_compute. split; congruence. Defined.
