(* ===== verification/Mem.v ===== *)
(** * Mem.v: the memory manager (lmem.h, lmem.c, the allocator of lauxlib.c)

    Every allocation goes through [luaM_realloc_], which asks the allocator
    and keeps [g->totalbytes].  A component states through [HasMem] where its
    state keeps the counter; the functions below then work on any of them. *)

From S2P Require Import Prelude Machine Object.

(** ** The allocator

    [krealloc] is the kernel's: [krealloc_ok total osize nsize] tells whether
    it finds memory for a block of [osize] bytes to become one of [nsize],
    when the state has [total] bytes allocated. *)
Class Krealloc := krealloc_ok : Z -> Z -> Z -> bool.

(** [l_alloc] (lauxlib.c): [true] for a non-NULL result. *)
Definition l_alloc `{Krealloc} (total osize nsize : Z) : bool :=
  if nsize =? 0 then false (* kfree; return NULL *)
  else krealloc_ok total osize nsize.

(** The documented promise of a system that does not run out of memory. *)
Class ReliableAlloc `{Krealloc} : Prop :=
  krealloc_reliable total osize nsize : krealloc_ok total osize nsize = true.

(** An allocator with enough memory, and one with none. *)
Definition krealloc_always : Krealloc := fun _ _ _ => true.
Definition krealloc_never : Krealloc := fun _ _ _ => false.

Lemma krealloc_always_reliable : @ReliableAlloc krealloc_always.
Proof. done. Qed.

(** ** The counter of allocated bytes *)

Class HasMem (S : Type) := {
  totalbytes : S -> Z;
  set_totalbytes : Z -> S -> S;
}.

(** The laws of a field of a record. *)
Class HasMemLaws S `{HasMem S} : Prop := {
  totalbytes_set n (s : S) : totalbytes (set_totalbytes n s) = n;
  set_set_totalbytes n m (s : S) :
    set_totalbytes n (set_totalbytes m s) = set_totalbytes n s;
  set_totalbytes_id (s : S) : set_totalbytes (totalbytes s) s = s;
}.

(** The counter alone is a state. *)
#[export] Instance Z_HasMem : HasMem Z := {| totalbytes n := n; set_totalbytes n _ := n |}.
#[export] Instance Z_HasMemLaws : HasMemLaws Z.
Proof. by split. Qed.

Section mem.
Context {S : Type} `{HasMem S} `{Krealloc}.

Definition luaM_toobig {A} : M S A :=
  throw (ErrRun "memory allocation error: block too big").

Definition luaM_realloc_ (osize nsize : Z) : M S unit := fun s =>
  if negb (l_alloc (totalbytes s) osize nsize) && (nsize >? 0)
  then throw ErrMem s
  else modify (set_totalbytes (u64 (u64 (totalbytes s - osize) + nsize))) s.

(** [luaM_reallocv(L,b,on,n,e)] *)
Definition luaM_reallocv (on n e : Z) : M S unit :=
  if u64 (n + 1) <=? MAX_SIZET / e
  then luaM_realloc_ (u64 (on * e)) (u64 (n * e))
  else luaM_toobig.

Definition luaM_freemem (s : Z) : M S unit := luaM_realloc_ s 0.
Definition luaM_freearray (n t : Z) : M S unit := luaM_reallocv n 0 t.
Definition luaM_malloc (t : Z) : M S unit := luaM_realloc_ 0 t.
Definition luaM_newvector (n t : Z) : M S unit := luaM_reallocv 0 n t.

Definition MINSIZEARRAY : Z := 4.

(** [luaM_growaux_]: the new size of the array. *)
Definition luaM_growaux_ (size size_elems limit : Z) (errormsg : string) : M S Z :=
  newsize ←
    (if size >=? limit / 2 then   (* cannot double it? *)
       if size >=? limit then throw (ErrRun errormsg)
       else mret limit            (* still have at least one free place *)
     else
       let newsize := size * 2 in
       mret (if newsize <? MINSIZEARRAY then MINSIZEARRAY else newsize));
  luaM_reallocv size newsize size_elems;;
  mret newsize.                   (* update only when everything else is OK *)

(** [luaM_growvector(L,v,nelems,size,t,limit,e)] *)
Definition luaM_growvector (nelems size t limit : Z) (e : string) : M S Z :=
  if nelems + 1 >? size then luaM_growaux_ size t limit e else mret size.
End mem.

(** ** Lemmas *)

Section mem_lemmas.
Context {S : Type} `{HasMem S} `{Krealloc}.
Implicit Types s : S.

(** A successful reallocation changes nothing but the counter. *)
Lemma luaM_realloc_Ok osize nsize s u s' :
  luaM_realloc_ osize nsize s = (Ok u, s') ->
  s' = set_totalbytes (u64 (u64 (totalbytes s - osize) + nsize)) s.
Proof.
  unfold luaM_realloc_. case_if; cbv [throw modify]; intros; by simplify_eq.
Qed.

Lemma luaM_realloc_Err osize nsize s e s' :
  luaM_realloc_ osize nsize s = (Err e, s') ->
  e = ErrMem /\ s' = s /\ 0 < nsize /\ ~ ReliableAlloc.
Proof.
  unfold luaM_realloc_, l_alloc. case_if; cbv [throw modify]; intros; simplify_eq.
  split_and!; [done..|]. intros Hr. rewrite Hr in *. by destruct (nsize =? 0) eqn:?; b2p; [lia|].
Qed.

Lemma luaM_realloc_reliable `{!ReliableAlloc} osize nsize s :
  luaM_realloc_ osize nsize s =
    (Ok tt, set_totalbytes (u64 (u64 (totalbytes s - osize) + nsize)) s).
Proof.
  unfold luaM_realloc_, l_alloc. rewrite krealloc_reliable.
  destruct (Z.eqb_spec nsize 0) as [->|]; done.
Qed.

(** An array of [int] length is never too big. *)
Lemma luaM_reallocv_fits on n e s :
  0 <= n < 2 ^ 31 -> 1 <= e <= 2 ^ 20 ->
  luaM_reallocv on n e s = luaM_realloc_ (u64 (on * e)) (u64 (n * e)) s.
Proof.
  intros Hn He. unfold luaM_reallocv.
  rewrite (uwrap_small 64 (n + 1)) by (unfold in_u; lia).
  destruct (Z.leb_spec (n + 1) (MAX_SIZET / e)) as [|Hlt]; [done|exfalso].
  assert (n + 1 <= MAX_SIZET / e); [|lia].
  apply Z.div_le_lower_bound; [lia|]. unfold MAX_SIZET. nia.
Qed.

(** Growing leaves room for one more element and stays within the limit. *)
Lemma luaM_growaux_bounds size t limit e s size' s' :
  0 <= size -> MINSIZEARRAY <= limit ->
  luaM_growaux_ size t limit e s = (Ok size', s') ->
  size < size' <= limit /\ (size < limit / 2 -> 2 * size <= size').
Proof.
  unfold luaM_growaux_, MINSIZEARRAY. intros Hs Hl.
  destruct (size >=? limit / 2) eqn:E1; b2p.
  - destruct (size >=? limit) eqn:E2; b2p; intros Hr; m_inv Hr; lia.
  - intros Hr; m_inv Hr. pose proof (Z.mul_div_le limit 2 ltac:(lia)).
    destruct (size * 2 <? 4) eqn:E3; b2p; lia.
Qed.
End mem_lemmas.

(** Growing an array: luaM_growaux_ fails with its message at the limit,
    or asks for a size that has room for one more element, at most the limit,
    at least double the old one when that is possible; a failed allocation
    leaves the counter of bytes as it was. *)
Theorem luaM_growaux_spec {S : Type} `{HasMem S} `{Krealloc} size t limit msg (s : S) :
  0 <= size -> MINSIZEARRAY <= limit < 2 ^ 31 -> 1 <= t <= 2 ^ 20 ->
  match luaM_growaux_ size t limit msg s with
  | (Ok size', s') => size < size' <= limit /\ (size < limit / 2 -> 2 * size <= size') /\
      s' = set_totalbytes (u64 (u64 (totalbytes s - u64 (size * t)) + u64 (size' * t))) s
  | (Err e, s') => s' = s /\ ((limit <= size /\ e = ErrRun msg) \/ (e = ErrMem /\ ~ ReliableAlloc))
  end.
Proof.
  intros Hs Hl Ht. destruct (luaM_growaux_ size t limit msg s) as [[size'|e] s'] eqn:E.
  - destruct (luaM_growaux_bounds size t limit msg s size' s' Hs (proj1 Hl) E) as [Hb Hd].
    split_and!; try done; try lia. unfold luaM_growaux_ in E. apply bind_Ok_inv in E as (n & s1 & E1 & E).
    assert (s1 = s) as ->.
    { destruct (size >=? limit / 2); [destruct (size >=? limit)|]; by m_inv E1. }
    apply bind_Ok_inv in E as (u & s2 & E2 & E). cbv [mret M_ret] in E. simplify_eq.
    rewrite luaM_reallocv_fits in E2 by lia. by apply luaM_realloc_Ok in E2.
  - unfold luaM_growaux_ in E. apply bind_Err_inv in E as [E|(n & s1 & E1 & E)].
    + destruct (size >=? limit / 2); [|done]. destruct (size >=? limit) eqn:E2; b2p; [|done].
      cbv [throw] in E. simplify_eq. auto.
    + assert (Hn : 0 <= n < 2 ^ 31 /\ s1 = s).
      { unfold MINSIZEARRAY in *. pose proof (Z.mul_div_le limit 2 ltac:(lia)).
        destruct (size >=? limit / 2) eqn:E2; [destruct (size >=? limit); [done|]|];
          cbv [mret M_ret] in E1; simplify_eq; (split; [|done]); [lia|]. b2p. case_if; lia. }
      destruct Hn as [Hn ->]. apply bind_Err_inv in E as [E|(u & s2 & E2 & E)]; [|done].
      rewrite luaM_reallocv_fits in E by lia.
      apply luaM_realloc_Err in E as (-> & -> & _ & ?). auto.
Qed.

Lemma luaM_growaux_spec_witness :
  match luaM_growaux_ (H0 := krealloc_always) 3 16 100 "too many" (500 : Z) with
  | (Ok size', s') => 3 < size' <= 100 /\ (3 < 100 / 2 -> 2 * 3 <= size') /\
      s' = set_totalbytes (u64 (u64 (totalbytes 500 - u64 (3 * 16)) + u64 (size' * 16))) 500
  | (Err e, s') => s' = 500 /\ ((100 <= 3 /\ e = ErrRun "too many") \/
      (e = ErrMem /\ ~ ReliableAlloc (H := krealloc_always)))
  end.
Proof.
  apply (luaM_growaux_spec (H0 := krealloc_always) 3 16 100 "too many" (500 : Z));
    unfold MINSIZEARRAY; lia.
Defined.
