(* ===== verification/Zio.v ===== *)
(** * Zio.v: buffered streams (lzio.h, lzio.c)

    A stream reads from a [lua_Reader], code outside the engine: what it does
    is the list of the blocks it will return, and it returns NULL when the
    list is over.  [z_p] is a position in the current block; the bytes before
    it stay there, as [luaZ_lookahead] steps back. *)

From S2P Require Import Prelude Machine Object Mem.

Definition EOZ : Z := -1.

Record ZIO := mkZIO {
  z_n : Z;             (* bytes still unread *)
  z_buff : bytes;      (* the block [p] points into *)
  z_p : Z;             (* current position in it *)
  z_reader : list bytes;
}.

#[global] Instance ZIO_eq_dec : EqDecision ZIO.
Proof. solve_decision. Defined.

Definition luaZ_init (reader : list bytes) : ZIO := mkZIO 0 [] 0 reader.

(** [*p]: there is no behaviour outside the block. *)
Definition z_peek (z : ZIO) : result Z := of_option "read outside the block" (znth (z_buff z) (z_p z)).

Definition luaZ_fill : M ZIO Z := fun z =>
  match z_reader z with
  | [] => (Ok EOZ, z)
  | buff :: rest =>
      let size := zlen buff in
      if size =? 0 then (Ok EOZ, mkZIO (z_n z) (z_buff z) (z_p z) rest)
      else let z' := mkZIO (size - 1) buff 0 rest in
           (z_peek z', mkZIO (size - 1) buff 1 rest)
  end.

(** [zgetc(z)]: [(((z)->n--)>0 ? char2int( *(z)->p++) : luaZ_fill(z))].  The
    counter is a [size_t], so the decrement of 0 wraps. *)
Definition zgetc : M ZIO Z := fun z =>
  let z1 := mkZIO (u64 (z_n z - 1)) (z_buff z) (z_p z) (z_reader z) in
  if z_n z >? 0
  then (z_peek z1, mkZIO (z_n z1) (z_buff z1) (z_p z1 + 1) (z_reader z1))
  else luaZ_fill z1.

Definition luaZ_lookahead : M ZIO Z := fun z =>
  if z_n z =? 0 then
    match luaZ_fill z with
    | (Ok c, z') =>
        if c =? EOZ then (Ok EOZ, z')
        else (* luaZ_fill removed first byte; put back it *)
          let z2 := mkZIO (z_n z' + 1) (z_buff z') (z_p z' - 1) (z_reader z') in
          (z_peek z2, z2)
    | r => r
    end
  else (z_peek z, z).

(** [luaZ_read]: the bytes copied and the number of missing ones.  Each turn
    finishes or empties a block, so one turn more than the blocks left after
    the current one is enough. *)
Fixpoint luaZ_read_loop (fuel : nat) (n : Z) (b : bytes) : M ZIO (bytes * Z) :=
  match fuel with
  | O => throw OutOfFuel
  | S fuel =>
      if n =? 0 then mret (b, 0)
      else
        c ← luaZ_lookahead;
        if c =? EOZ then mret (b, n) (* return number of missing bytes *)
        else
          z ← get;
          let m := if n <=? z_n z then n else z_n z in
          let chunk := take (Z.to_nat m) (drop (Z.to_nat (z_p z)) (z_buff z)) in
          modify (fun z => mkZIO (z_n z - m) (z_buff z) (z_p z + m) (z_reader z));;
          luaZ_read_loop fuel (n - m) (b ++ chunk)
  end.

Definition luaZ_read (n : Z) : M ZIO (bytes * Z) := fun z =>
  luaZ_read_loop (length (z_reader z) + 3) n [] z.

(** ** The scratch buffer ([Mbuffer]) *)

Record Mbuffer := mkMbuffer { b_buffer : bytes; b_n : Z; b_buffsize : Z }.

Definition luaZ_initbuffer : Mbuffer := mkMbuffer [] 0 0.

Section buffer.
Context {S : Type} `{HasMem S} `{Krealloc}.

(** [luaZ_resizebuffer]: the size becomes [size] once the block has it. *)
Definition luaZ_resizebuffer (buffsize size : Z) : M S Z :=
  luaM_reallocv buffsize size 1;; mret size.

(** [luaZ_openspace]: the new [buffsize]. *)
Definition luaZ_openspace (buffsize n : Z) : M S Z :=
  if n >? buffsize then
    let n := if n <? LUA_MINBUFFER then LUA_MINBUFFER else n in
    luaZ_resizebuffer buffsize n
  else mret buffsize.
End buffer.

(** ** The stream as the bytes still to come *)

(** The stream is at a sane point: [n] bytes of the block are unread. *)
Definition zio_ok (z : ZIO) : Prop :=
  0 <= z_p z /\ 0 <= z_n z /\ z_p z + z_n z = zlen (z_buff z) /\
  zlen (z_buff z) < 2 ^ 64 /\ Forall (fun b => b <> [] /\ zlen b < 2 ^ 64) (z_reader z) /\
  Forall wf_bytes (z_buff z :: z_reader z).

Definition unread (z : ZIO) : bytes := drop (Z.to_nat (z_p z)) (z_buff z).

(** What the stream will deliver, the blocks joined. *)
Definition zrest (z : ZIO) : bytes := unread z ++ concat (z_reader z).

Lemma unread_length z : zio_ok z -> zlen (unread z) = z_n z.
Proof.
  intros (? & ? & Hn & _). unfold unread, zlen in *. rewrite length_drop. lia.
Qed.

Lemma zio_ok_init reader :
  Forall (fun b => b <> [] /\ zlen b < 2 ^ 64) reader -> Forall wf_bytes reader ->
  zio_ok (luaZ_init reader) /\ zrest (luaZ_init reader) = concat reader.
Proof.
  intros H1 H2. split; [|done]. unfold zio_ok; cbn. split_and!; try lia; try done.
  constructor; [by constructor|done].
Qed.

Lemma znth_drop {A} (l : list A) p i :
  0 <= p -> 0 <= i -> znth (drop (Z.to_nat p) l) i = znth l (p + i).
Proof.
  intros Hp Hi. unfold znth.
  destruct (i <? 0) eqn:E1, (p + i <? 0) eqn:E2; b2p; try lia.
  rewrite lookup_drop. f_equal. lia.
Qed.

Lemma drop_S_znth {A} (l : list A) p a :
  znth l p = Some a -> drop (Z.to_nat p) l = a :: drop (Z.to_nat (p + 1)) l.
Proof.
  intros H. pose proof (znth_Some_lt _ _ _ H). unfold znth in H.
  destruct (p <? 0) eqn:E; b2p; [lia|].
  rewrite (drop_S l a (Z.to_nat p)) by done. do 2 f_equal. lia.
Qed.

Lemma zio_ok_fill z :
  zio_ok z -> z_n z = 0 ->
  match zrest z with
  | [] => luaZ_fill z = (Ok EOZ, z)
  | c :: r => exists z', luaZ_fill z = (Ok c, z') /\ zio_ok z' /\ zrest z' = r /\
                0 < z_p z' /\ znth (z_buff z') (z_p z' - 1) = Some c /\
                z_n z' + 1 < 2 ^ 64 /\ length (z_reader z) = S (length (z_reader z'))
  end.
Proof.
  intros Hok Hn. pose proof (unread_length z Hok) as Hu.
  destruct Hok as (Hp & _ & Hpn & Hlen & Hrd & Hwf).
  assert (unread z = []) as Hu0.
  { destruct (unread z); [done|]. unfold zlen in Hu. cbn in Hu. lia. }
  unfold zrest. rewrite Hu0. unfold luaZ_fill.
  destruct (z_reader z) as [|b rd] eqn:Er; [done|].
  apply Forall_cons in Hrd as [[Hb Hbl] Hrd].
  destruct b as [|c b]; [done|]. cbn [app concat].
  eexists. split; [|split_and!].
  - rewrite (proj2 (Z.eqb_neq _ _)) by (rewrite zlen_cons; pose proof (zlen_nonneg b); lia).
    reflexivity.
  - unfold zio_ok; cbn. rewrite zlen_cons in *. pose proof (zlen_nonneg b).
    split_and!; try lia; try done. by inversion Hwf.
  - done.
  - done.
  - done.
  - cbn [z_n]. lia.
  - done.
Qed.

(** [zgetc] takes the next byte of the stream; at its end it gives EOZ (and
    leaves a stream that must not be read again). *)
Lemma zgetc_spec z :
  zio_ok z ->
  match zrest z with
  | [] => exists z', zgetc z = (Ok EOZ, z')
  | c :: r => exists z', zgetc z = (Ok c, z') /\ zio_ok z' /\ zrest z' = r
  end.
Proof.
  intros Hok. unfold zgetc. destruct (z_n z >? 0) eqn:En; b2p.
  - pose proof (unread_length z Hok) as Hu. unfold zrest.
    destruct Hok as (Hp & Hn0 & Hpn & Hlen & Hrd & Hwf).
    destruct (unread z) as [|c r] eqn:Eu; [unfold zlen in Hu; cbn in Hu; lia|].
    cbn [app]. destruct (znth_is_Some (z_buff z) (z_p z) ltac:(lia)) as [c' Hc].
    unfold unread in *. rewrite (drop_S_znth _ _ _ Hc) in Eu. injection Eu as -> Hr.
    eexists. split; [unfold z_peek; cbn; by rewrite Hc|].
    unfold zio_ok; cbn [z_n z_buff z_p z_reader].
    rewrite uwrap_small by (unfold in_u; lia).
    split; [split_and!; try lia; done|by rewrite Hr].
  - assert (z_n z = 0) as Hn by (destruct Hok as (_ & ? & _); lia).
    pose proof (zio_ok_fill z Hok Hn) as Hf.
    unfold luaZ_fill in *. cbn [z_reader z_n z_buff z_p].
    assert (Hrd := Hok). destruct Hrd as (_ & _ & _ & _ & Hrd & _).
    destruct (z_reader z) as [|b rd] eqn:Erd.
    + destruct (zrest z); [eauto|]. destruct Hf as (? & _ & _ & _ & _ & _ & _ & Hf).
      discriminate.
    + apply Forall_cons in Hrd as [[Hb _] _].
      destruct (zlen b =? 0) eqn:E0.
      { destruct b; [done|]. unfold zlen in E0. cbn in E0. b2p. lia. }
      destruct (zrest z); [injection Hf as Hf _; rewrite Hf; eauto|].
      destruct Hf as (z' & Hf & Hok' & Hr & _). eauto.
Qed.

(** [luaZ_lookahead] looks at the next byte without taking it. *)
Lemma luaZ_lookahead_spec z :
  zio_ok z ->
  match zrest z with
  | [] => luaZ_lookahead z = (Ok EOZ, z) /\ z_n z = 0
  | c :: r => exists z', luaZ_lookahead z = (Ok c, z') /\ zio_ok z' /\
      zrest z' = c :: r /\ 0 < z_n z' /\
      (z' = z \/ length (z_reader z) = S (length (z_reader z')))
  end.
Proof.
  intros Hok. unfold luaZ_lookahead. destruct (z_n z =? 0) eqn:En; b2p.
  - pose proof (zio_ok_fill z Hok En) as Hf.
    destruct (zrest z) as [|c r] eqn:Er.
    { rewrite Hf. done. }
    destruct Hf as (z' & -> & Hok' & Hr & Hp' & Hc & Hn' & Hrd).
    destruct (Z.eqb_spec c EOZ) as [->|Hne].
    { exfalso. assert (wf_bytes (zrest z)) as Hw.
      { destruct Hok as (_ & _ & _ & _ & _ & Hwf). unfold zrest, unread, wf_bytes in *.
        apply Forall_cons in Hwf as [Hw1 Hw2].
        apply Forall_app; split; [by apply Forall_drop|].
        by apply Forall_concat. }
      rewrite Er in Hw. apply Forall_cons in Hw as [[? _] _]. unfold EOZ in *. lia. }
    eexists. split; [unfold z_peek; cbn; rewrite Hc; done|].
    destruct Hok' as (Ha & Hb & Hd & He & Hf & Hg).
    split; [unfold zio_ok; cbn; split_and!; try lia; done|].
    split; [|split; [cbn; lia|by right]].
    unfold zrest, unread; cbn [z_p z_buff z_reader].
    erewrite drop_S_znth by done. replace (z_p z' - 1 + 1) with (z_p z') by lia.
    cbn. by rewrite <- Hr.
  - pose proof (unread_length z Hok) as Hu.
    destruct Hok as (Hp & Hn0 & Hpn & Hlen & Hrd & Hwf).
    destruct (znth_is_Some (z_buff z) (z_p z) ltac:(lia)) as [c' Hc].
    destruct (zrest z) as [|c r] eqn:Er;
      unfold zrest, unread in Er; erewrite drop_S_znth in Er by done; [done|].
    injection Er as -> Er. exists z. unfold z_peek. rewrite Hc.
    split_and!; try done; try lia; [|by left].
    unfold zrest, unread. erewrite drop_S_znth by done. by rewrite <- Er.
Qed.

(** One turn of the copy takes the first [m] bytes of the stream. *)
Lemma zio_take z m :
  zio_ok z -> 0 <= m <= z_n z ->
  let z' := mkZIO (z_n z - m) (z_buff z) (z_p z + m) (z_reader z) in
  let chunk := take (Z.to_nat m) (drop (Z.to_nat (z_p z)) (z_buff z)) in
  zio_ok z' /\ chunk = take (Z.to_nat m) (zrest z) /\
  zrest z' = drop (Z.to_nat m) (zrest z) /\ m <= zlen (zrest z).
Proof.
  intros Hok Hm z' chunk. pose proof (unread_length z Hok) as Hu.
  destruct Hok as (Hp & Hn & Hpn & Hlen & Hrd & Hwf).
  assert (Z.to_nat m <= length (unread z))%nat as Hle by (unfold zlen in Hu; lia).
  split; [|split_and!].
  - unfold zio_ok, z'; cbn. split_and!; try lia; done.
  - unfold chunk, zrest, unread in *. by rewrite take_app_le.
  - unfold zrest, unread, z' in *; cbn. rewrite drop_app_le by done.
    rewrite drop_drop. do 2 f_equal. lia.
  - unfold zrest. rewrite zlen_app. pose proof (zlen_nonneg (concat (z_reader z))). lia.
Qed.

Definition read_need (n : Z) (z : ZIO) : nat :=
  if n =? 0 then 1%nat
  else (length (z_reader z) + 2 + (if (z_n z =? 0)%Z then 0 else 1))%nat.

Lemma luaZ_read_loop_spec fuel n b z :
  zio_ok z -> 0 <= n -> (read_need n z <= fuel)%nat ->
  exists z', luaZ_read_loop fuel n b z =
      (Ok (b ++ take (Z.to_nat n) (zrest z), Z.max 0 (n - zlen (zrest z))), z') /\
    zio_ok z' /\ zrest z' = drop (Z.to_nat n) (zrest z).
Proof.
  revert n b z. induction fuel as [|fuel IH]; intros n b z Hok Hn Hfuel.
  { unfold read_need in Hfuel. repeat case_match; lia. }
  cbn [luaZ_read_loop]. case_if.
  { subst n. exists z. cbn. rewrite app_nil_r, drop_0.
    pose proof (zlen_nonneg (zrest z)). rewrite Z.max_l by lia. done. }
  pose proof (luaZ_lookahead_spec z Hok) as Hl.
  destruct (zrest z) as [|c r] eqn:Er.
  { destruct Hl as [Hl _]. erewrite bind_ok by done. cbn.
    exists z. rewrite take_nil, drop_nil, Er, app_nil_r.
    rewrite Z.max_r by (unfold zlen; cbn; lia).
    replace (n - zlen (A:=Z) []) with n by (unfold zlen; cbn; lia). done. }
  destruct Hl as (z1 & Hl & Hok1 & Hr1 & Hn1 & Hz1).
  erewrite bind_ok by done. rewrite <- Er in Hr1 |- *.
  rewrite (proj2 (Z.eqb_neq c EOZ)).
  2: { assert (In c (zrest z)) as Hin by (rewrite Er; by left).
       destruct Hok as (_ & _ & _ & _ & _ & Hwf).
       apply Forall_cons in Hwf as [Hw1 Hw2].
       assert (wf_bytes (zrest z)) as Hw.
       { unfold zrest, unread. apply Forall_app; split; [by apply Forall_drop|].
         by apply Forall_concat. }
       unfold wf_bytes in Hw. rewrite List.Forall_forall in Hw.
       destruct (Hw c Hin). unfold EOZ. lia. }
  erewrite bind_ok by done. cbv zeta.
  set (m := if n <=? z_n z1 then n else z_n z1).
  assert (0 <= m <= z_n z1 /\ 0 < m <= n) as [Hm Hm'] by (unfold m; case_if; lia).
  destruct (zio_take z1 m Hok1 Hm) as (Hok2 & Hc & Hr2 & Hmlen).
  erewrite bind_ok by done. rewrite Hc, Hr1 in *.
  destruct (IH (n - m) (b ++ take (Z.to_nat m) (zrest z)) _ ltac:(exact Hok2)
    ltac:(lia)) as (z' & Hrun & Hok' & Hr').
  { unfold read_need in *. cbn [z_reader z_n].
    rewrite (proj2 (Z.eqb_neq n 0)) in Hfuel by done.
    destruct (Z.eqb_spec (n - m) 0); [lia|].
    assert (z_n z1 - m = 0) as -> by (subst m; destruct (n <=? z_n z1) eqn:?; b2p; lia).
    destruct Hz1 as [->|Hz1]; [|destruct (z_n z =? 0); cbn; lia].
    destruct (Z.eqb_spec (z_n z) 0); [lia|]. cbn. lia. }
  exists z'. rewrite Hrun, Hr2, <- app_assoc. split_and!; [|done|].
  - do 3 f_equal.
    + rewrite take_take_drop. f_equal.
      by replace (Z.to_nat m + Z.to_nat (n - m))%nat with (Z.to_nat n) by lia.
    + rewrite <- (take_drop (Z.to_nat m) (zrest z)) at 2.
      rewrite zlen_app. unfold zlen at 2. rewrite length_take_le by (unfold zlen in *; lia).
      lia.
  - rewrite Hr', Hr2, drop_drop. f_equal. lia.
Qed.

(** [luaZ_read] on the joined blocks: the next [n] bytes, or all of them and
    the number of missing ones. *)
Lemma luaZ_read_flat n z :
  zio_ok z -> 0 <= n ->
  exists z', luaZ_read n z =
      (Ok (take (Z.to_nat n) (zrest z), Z.max 0 (n - zlen (zrest z))), z') /\
    zio_ok z' /\ zrest z' = drop (Z.to_nat n) (zrest z).
Proof.
  intros Hok Hn. apply (luaZ_read_loop_spec _ n [] z Hok Hn).
  unfold read_need. repeat case_match; lia.
Qed.

(** ** The contract of the stream *)

(** luaZ_read does not depend on how the reader cuts its blocks: it copies
    the next n bytes of the joined blocks, or all that is left and the number
    of missing bytes, and leaves the stream just after them. *)
Theorem luaZ_read_spec n z :
  zio_ok z -> 0 <= n ->
  exists z', luaZ_read n z =
      (Ok (take (Z.to_nat n) (zrest z), Z.max 0 (n - zlen (zrest z))), z') /\
    zio_ok z' /\ zrest z' = drop (Z.to_nat n) (zrest z).
Proof. apply luaZ_read_flat. Qed.

Lemma luaZ_read_spec_witness :
  exists z', luaZ_read 3 (luaZ_init [[1; 2]; [3; 4; 5]]) =
      (Ok ([1; 2; 3], 0), z') /\ zio_ok z' /\ zrest z' = [4; 5].
Proof.
  apply (luaZ_read_spec 3 (luaZ_init [[1; 2]; [3; 4; 5]])); [|lia].
  apply zio_ok_init; repeat constructor; try discriminate; vm_compute; congruence.
Defined.
