(* ===== verification/Debug.v ===== *)
(** * Debug.v: the bytecode verifier (ldebug.c, symbolic execution)

    [luaG_checkcode] is what stands between a precompiled chunk and the
    interpreter, which trusts every register, constant and jump.  The first
    part translates the verifier; an array access outside its bounds is [UB].
    The second part states what the interpreter does with the program counter
    ([vm_next], from the cases of luaV_execute) and proves that a prototype
    that passes keeps it inside the code. *)

From S2P Require Import Prelude Machine Opcodes Object.

Definition code_at (pt : Proto) (pc : Z) : result Z :=
  of_option "code index" (znth (pt_code pt) pc).

Declare Scope lua_check.
(** [check(x)]: [if (!(x)) return 0;], here [None]. *)
Notation "'check' x ; k" := (if x then k else Ok None)
  (at level 100, x at level 99, k at level 200, right associativity) : lua_check.
Open Scope lua_check.

Definition checkreg (pt : Proto) (reg : Z) : bool := reg <? pt_maxstacksize pt.

Definition is_op (i : Z) (o : OpCode) : bool := GET_OPCODE i =? op2z o.

Definition precheck (pt : Proto) : result bool :=
  if negb (pt_maxstacksize pt <=? MAXSTACK) then Ok false else
  if negb (pt_numparams pt + Z.land (pt_is_vararg pt) VARARG_HASARG <=? pt_maxstacksize pt)
  then Ok false else
  if negb ((Z.land (pt_is_vararg pt) VARARG_NEEDSARG =? 0)
           || negb (Z.land (pt_is_vararg pt) VARARG_HASARG =? 0)) then Ok false else
  if negb (pt_sizeupvalues pt <=? pt_nups pt) then Ok false else
  if negb ((pt_sizelineinfo pt =? pt_sizecode pt) || (pt_sizelineinfo pt =? 0))
  then Ok false else
  if negb (pt_sizecode pt >? 0) then Ok false else
  i ← code_at pt (pt_sizecode pt - 1);
  Ok (is_op i OP_RETURN).

Definition luaG_checkopenop (i : Z) : bool :=
  match z2op (GET_OPCODE i) with
  | Some OP_CALL | Some OP_TAILCALL | Some OP_RETURN | Some OP_SETLIST =>
      GETARG_B i =? 0
  | _ => false  (* invalid instruction after an open call *)
  end.

Definition checkopenop (pt : Proto) (pc : Z) : result bool :=
  i ← code_at pt (pc + 1); Ok (luaG_checkopenop i).

Definition checkArgMode (pt : Proto) (r : Z) (mode : OpArgMask) : bool :=
  match mode with
  | OpArgN => r =? 0
  | OpArgU => true
  | OpArgR => checkreg pt r
  | OpArgK => if ISK r then INDEXK r <? pt_sizek pt else r <? pt_maxstacksize pt
  end.

(** An instruction whose next word is the real C of a SETLIST. *)
Definition is_setlist0 (i : Z) : bool := is_op i OP_SETLIST && (GETARG_C i =? 0).

(** [for (j = 0; j < dest; j++)], going down from [dest-1] while the words
    look like such a SETLIST; the count [j]. *)
Fixpoint setlist_run (pt : Proto) (dest : nat) : result Z :=
  match dest with
  | O => Ok 0
  | S d =>
      i ← code_at pt (Z.of_nat d);
      if negb (is_setlist0 i) then Ok 0
      else j ← setlist_run pt d; Ok (j + 1)
  end.

(** [for (j = 1; j <= nup; j++)]: the words after an OP_CLOSURE. *)
Fixpoint check_pseudo (pt : Proto) (pc : Z) (nup : nat) : result bool :=
  match nup with
  | O => Ok true
  | S n =>
      i ← code_at pt (pc + 1);
      if is_op i OP_GETUPVAL || is_op i OP_MOVE then check_pseudo pt (pc + 1) n
      else Ok false
  end.

(** The operands of one instruction by its format: [Some (b, c)]. *)
Definition check_format (pt : Proto) (pc : Z) (i : Z) (op : OpCode) : result (option (Z * Z)) :=
  match getOpMode op with
  | iABC =>
      let b := GETARG_B i in
      let c := GETARG_C i in
      check checkArgMode pt b (getBMode op);
      check checkArgMode pt c (getCMode op);
      Ok (Some (b, c))
  | iABx =>
      let b := GETARG_Bx i in
      check (if decide (getBMode op = OpArgK) then b <? pt_sizek pt else true);
      Ok (Some (b, 0))
  | iAsBx =>
      let b := GETARG_sBx i in
      if decide (getBMode op = OpArgR) then
        let dest := pc + 1 + b in
        check (0 <=? dest) && (dest <? pt_sizecode pt);
        if dest >? 0 then
          j ← setlist_run pt (Z.to_nat dest);
          check Z.land j 1 =? 0;
          Ok (Some (b, 0))
        else Ok (Some (b, 0))
      else Ok (Some (b, 0))
  end.

(** The [switch (op)] of the loop: the new [pc] (before the loop's own
    increment) and [last]. *)
Definition check_opcode (pt : Proto) (lastpc reg pc last : Z) (op : OpCode)
    (a b c : Z) : result (option (Z * Z)) :=
  match op with
  | OP_LOADBOOL =>
      if c =? 1 then  (* does it jump? *)
        check pc + 2 <? pt_sizecode pt;
        i1 ← code_at pt (pc + 1);
        check negb (is_op i1 OP_SETLIST) || negb (GETARG_C i1 =? 0);
        Ok (Some (pc, last))
      else Ok (Some (pc, last))
  | OP_LOADNIL =>
      Ok (Some (pc, if (a <=? reg) && (reg <=? b) then pc else last))
  | OP_GETUPVAL | OP_SETUPVAL =>
      check b <? pt_nups pt;
      Ok (Some (pc, last))
  | OP_GETGLOBAL | OP_SETGLOBAL =>
      k ← of_option "constant index" (znth (pt_k pt) b);
      check ttype_k k =? LUA_TSTRING;
      Ok (Some (pc, last))
  | OP_SELF =>
      check checkreg pt (a + 1);
      Ok (Some (pc, if reg =? a + 1 then pc else last))
  | OP_CONCAT =>
      check b <? c;  (* at least two operands *)
      Ok (Some (pc, last))
  | OP_TFORLOOP =>
      check c >=? 1;
      check checkreg pt (a + 2 + c);
      Ok (Some (pc, if reg >=? a + 2 then pc else last))
  | OP_FORLOOP | OP_FORPREP =>
      check checkreg pt (a + 3);
      let dest := pc + 1 + b in
      Ok (Some (if negb (reg =? NO_REG) && (pc <? dest) && (dest <=? lastpc)
                then pc + b else pc, last))
  | OP_JMP =>
      let dest := pc + 1 + b in
      Ok (Some (if negb (reg =? NO_REG) && (pc <? dest) && (dest <=? lastpc)
                then pc + b else pc, last))
  | OP_CALL | OP_TAILCALL =>
      check (if negb (b =? 0) then checkreg pt (a + b - 1) else true);
      let c := c - 1 in
      let last' := if reg >=? a then pc else last in
      if c =? LUA_MULTRET then
        o ← checkopenop pt pc;
        check (o : bool);
        Ok (Some (pc, last'))
      else
        check (if negb (c =? 0) then checkreg pt (a + c - 1) else true);
        Ok (Some (pc, last'))
  | OP_RETURN =>
      let b := b - 1 in
      check (if b >? 0 then checkreg pt (a + b - 1) else true);
      Ok (Some (pc, last))
  | OP_SETLIST =>
      check (if b >? 0 then checkreg pt (a + b) else true);
      if c =? 0 then
        let pc := pc + 1 in
        check pc <? pt_sizecode pt - 1;
        Ok (Some (pc, last))
      else Ok (Some (pc, last))
  | OP_CLOSURE =>
      check b <? pt_sizep pt;
      p ← of_option "prototype index" (znth (pt_p pt) b);
      let nup := pt_nups p in
      check pc + nup <? pt_sizecode pt;
      ok ← check_pseudo pt pc (Z.to_nat nup);
      check (ok : bool);
      Ok (Some (if negb (reg =? NO_REG) then pc + nup else pc, last))
  | OP_VARARG =>
      check negb (Z.land (pt_is_vararg pt) VARARG_ISVARARG =? 0)
            && (Z.land (pt_is_vararg pt) VARARG_NEEDSARG =? 0);
      let b := b - 1 in
      if b =? LUA_MULTRET then
        o ← checkopenop pt pc;
        check (o : bool);
        check checkreg pt (a + b - 1);
        Ok (Some (pc, last))
      else
        check checkreg pt (a + b - 1);
        Ok (Some (pc, last))
  | _ => Ok (Some (pc, last))
  end.

(** One turn of the loop of [symbexec]. *)
Definition symbexec_step (pt : Proto) (lastpc reg pc last : Z) : result (option (Z * Z)) :=
  i ← code_at pt pc;
  let a := GETARG_A i in
  match z2op (GET_OPCODE i) with
  | None => Ok None  (* check(op < NUM_OPCODES) *)
  | Some op =>
      check checkreg pt a;
      bc ← check_format pt pc i op;
      match bc with
      | None => Ok None
      | Some (b, c) =>
          let last := if testAMode op && (a =? reg) then pc else last in
          if testTMode op then
            check pc + 2 <? pt_sizecode pt;
            i1 ← code_at pt (pc + 1);
            check is_op i1 OP_JMP;
            check_opcode pt lastpc reg pc last op a b c
          else check_opcode pt lastpc reg pc last op a b c
      end
  end.

(** [for (pc = 0; pc < lastpc; pc++)]: [pc] only grows, so [lastpc] turns are
    enough. *)
Fixpoint symbexec_loop (fuel : nat) (pt : Proto) (lastpc reg pc last : Z) : result (option Z) :=
  match fuel with
  | O => Err OutOfFuel
  | S fuel =>
      if pc <? lastpc then
        r ← symbexec_step pt lastpc reg pc last;
        match r with
        | None => Ok None
        | Some (pc, last) => symbexec_loop fuel pt lastpc reg (pc + 1) last
        end
      else Ok (Some last)
  end.

(** [symbexec]: the last instruction that changed [reg], 0 if a check fails. *)
Definition symbexec (pt : Proto) (lastpc reg : Z) : result Z :=
  ok ← precheck pt;
  if negb (ok : bool) then Ok 0
  else
    r ← symbexec_loop (S (Z.to_nat lastpc)) pt lastpc reg 0 (pt_sizecode pt - 1);
    match r with
    | None => Ok 0
    | Some last => code_at pt last
    end.

Definition luaG_checkcode (pt : Proto) : result bool :=
  i ← symbexec pt (pt_sizecode pt) NO_REG; Ok (negb (i =? 0)).

(** ** The program counter of the interpreter

    [vm_next pt pc pc']: luaV_execute, having fetched the instruction at [pc],
    may go on at [pc'] in the same function. *)
Inductive vm_next (pt : Proto) (pc : Z) : Z -> Prop :=
  | vm_plain i op :
      znth (pt_code pt) pc = Some i -> z2op (GET_OPCODE i) = Some op ->
      op ∉ [OP_LOADBOOL; OP_JMP; OP_EQ; OP_LT; OP_LE; OP_TEST; OP_TESTSET;
            OP_RETURN; OP_FORPREP; OP_TFORLOOP; OP_SETLIST; OP_CLOSURE] ->
      vm_next pt pc (pc + 1)
  | vm_loadbool i :
      znth (pt_code pt) pc = Some i -> z2op (GET_OPCODE i) = Some OP_LOADBOOL ->
      vm_next pt pc (if GETARG_C i =? 0 then pc + 1 else pc + 2)
  | vm_jump i op :
      znth (pt_code pt) pc = Some i -> z2op (GET_OPCODE i) = Some op ->
      op ∈ [OP_JMP; OP_FORLOOP; OP_FORPREP] ->
      vm_next pt pc (pc + 1 + GETARG_sBx i)
  | vm_test_skip i op :
      znth (pt_code pt) pc = Some i -> z2op (GET_OPCODE i) = Some op ->
      op ∈ [OP_EQ; OP_LT; OP_LE; OP_TEST; OP_TESTSET; OP_TFORLOOP] ->
      vm_next pt pc (pc + 2)
  | vm_test_jump i op j :
      znth (pt_code pt) pc = Some i -> z2op (GET_OPCODE i) = Some op ->
      op ∈ [OP_EQ; OP_LT; OP_LE; OP_TEST; OP_TESTSET; OP_TFORLOOP] ->
      znth (pt_code pt) (pc + 1) = Some j ->
      vm_next pt pc (pc + 1 + GETARG_sBx j + 1)
  | vm_setlist i :
      znth (pt_code pt) pc = Some i -> z2op (GET_OPCODE i) = Some OP_SETLIST ->
      vm_next pt pc (if GETARG_C i =? 0 then pc + 2 else pc + 1)
  | vm_closure i p :
      znth (pt_code pt) pc = Some i -> z2op (GET_OPCODE i) = Some OP_CLOSURE ->
      znth (pt_p pt) (GETARG_Bx i) = Some p ->
      vm_next pt pc (pc + 1 + pt_nups p).

(** The points a call of the function can reach. *)
Inductive vm_reach (pt : Proto) : Z -> Prop :=
  | vm_start : vm_reach pt 0
  | vm_step pc pc' : vm_reach pt pc -> vm_next pt pc pc' -> vm_reach pt pc'.

(** ** The verifier is itself memory safe *)

Lemma is_op_spec i o : is_op i o = true <-> z2op (GET_OPCODE i) = Some o.
Proof.
  unfold is_op. rewrite Z.eqb_eq. split; intros H.
  - rewrite H. apply z2op_op2z.
  - symmetry. by apply op2z_z2op.
Qed.

Lemma code_at_Ok pt pc : 0 <= pc < pt_sizecode pt -> exists i, code_at pt pc = Ok i.
Proof.
  intros H. unfold code_at. destruct (znth_is_Some (pt_code pt) pc H) as [i Hi].
  rewrite Hi. by exists i.
Qed.

Lemma code_at_znth pt pc i : code_at pt pc = Ok i <-> znth (pt_code pt) pc = Some i.
Proof. unfold code_at. destruct (znth _ _); cbn; split; congruence. Qed.

Lemma setlist_run_Ok pt n :
  Z.of_nat n <= pt_sizecode pt -> exists j, setlist_run pt n = Ok j /\ 0 <= j.
Proof.
  induction n as [|n IH]; intros H; cbn [setlist_run]; [by exists 0|].
  destruct (code_at_Ok pt (Z.of_nat n)) as [i ->]; [lia|].
  cbn. destruct IH as (j & -> & Hj); [lia|].
  destruct (is_setlist0 i); cbn; [exists (j + 1)|exists 0]; (split; [done|lia]).
Qed.

Lemma check_pseudo_Ok pt pc n :
  0 <= pc + 1 -> pc + Z.of_nat n < pt_sizecode pt ->
  exists b, check_pseudo pt pc n = Ok b.
Proof.
  revert pc. induction n as [|n IH]; intros pc H1 H2; cbn [check_pseudo]; [by exists true|].
  destruct (code_at_Ok pt (pc + 1)) as [i ->]; [lia|]. cbn.
  case_if; [apply IH; lia|by exists false].
Qed.

(** Which words are reached by walking the code from its start, the word
    after a SETLIST with C = 0 being data. *)
Fixpoint boundary (pt : Proto) (n : nat) : bool :=
  match n with
  | O => true
  | S n =>
      if boundary pt n then
        match znth (pt_code pt) (Z.of_nat n) with
        | Some i => negb (is_setlist0 i)
        | None => true
        end
      else true
  end.

(** The parity test of the verifier decides it. *)
Lemma setlist_run_boundary pt n j :
  setlist_run pt n = Ok j -> boundary pt n = Z.even j.
Proof.
  revert j. induction n as [|n IH]; intros j; cbn [setlist_run boundary].
  - by intros [= <-].
  - intros (i & Hi & H)%result_bind_Ok. apply code_at_znth in Hi. rewrite Hi.
    destruct (is_setlist0 i); cbn [negb] in *.
    + apply result_bind_Ok in H as (j' & Hj & [= <-]).
      rewrite (IH _ Hj), Z.add_1_r, Z.even_succ, <-Z.negb_even.
      by destruct (Z.even j').
    + injection H as <-. by destruct (boundary pt n).
Qed.

Lemma land_1_even j : (Z.land j 1 =? 0) = Z.even j.
Proof.
  change 1 with (Z.ones 1). rewrite Z.land_ones by lia. change (2 ^ 1) with 2.
  rewrite Zmod_even. by destruct (Z.even j).
Qed.

Record prechecked (pt : Proto) : Prop := {
  pre_stack : pt_maxstacksize pt <= MAXSTACK;
  pre_params : pt_numparams pt <= pt_maxstacksize pt;
  pre_size : 0 < pt_sizecode pt;
  pre_last : exists i, znth (pt_code pt) (pt_sizecode pt - 1) = Some i /\
             z2op (GET_OPCODE i) = Some OP_RETURN;
}.

Lemma precheck_true pt : precheck pt = Ok true -> prechecked pt.
Proof.
  unfold precheck. repeat (case_if; [done|]).
  intros (i & Hi & [= H])%result_bind_Ok.
  apply code_at_znth in Hi. apply is_op_spec in H.
  assert (0 <= Z.land (pt_is_vararg pt) VARARG_HASARG) by (apply Z.land_nonneg; right; done).
  split; [lia|lia|lia|by exists i].
Qed.

Lemma precheck_Ok pt : exists b, precheck pt = Ok b.
Proof.
  unfold precheck. repeat (case_if; [by exists false|]).
  destruct (code_at_Ok pt (pt_sizecode pt - 1)) as [i ->]; [lia|]. by eexists.
Qed.

(** Any instruction but RETURN has a next word. *)
Lemma prechecked_next pt pc i o :
  prechecked pt -> znth (pt_code pt) pc = Some i ->
  z2op (GET_OPCODE i) = Some o -> o <> OP_RETURN -> pc + 1 < pt_sizecode pt.
Proof.
  intros [_ _ _ (l & Hl & Hop)] Hi Ho Hne.
  pose proof (znth_Some_lt _ _ _ Hi) as Hr. fold (pt_sizecode pt) in Hr.
  destruct (decide (pc + 1 < pt_sizecode pt)); [done|].
  assert (pc = pt_sizecode pt - 1) as -> by lia. congruence.
Qed.

(** The ranges of the struct's fields: [nups] is an lu_byte in every nested
    prototype. *)
Definition wf_nups (pt : Proto) : Prop := Forall (fun p => 0 <= pt_nups p) (pt_p pt).

(** What the operands returned by [check_format] satisfy. *)
Definition format_post (pt : Proto) (pc i : Z) (op : OpCode) (b c : Z) : Prop :=
  match getOpMode op with
  | iABC => b = GETARG_B i /\ c = GETARG_C i
      /\ checkArgMode pt b (getBMode op) = true /\ checkArgMode pt c (getCMode op) = true
  | iABx => b = GETARG_Bx i /\ (getBMode op = OpArgK -> b < pt_sizek pt)
  | iAsBx => b = GETARG_sBx i /\ (getBMode op = OpArgR ->
      0 <= pc + 1 + b < pt_sizecode pt /\ boundary pt (Z.to_nat (pc + 1 + b)) = true)
  end.

Lemma check_format_Ok pt pc i op :
  exists r, check_format pt pc i op = Ok r /\
    match r with None => True | Some (b, c) => format_post pt pc i op b c end.
Proof.
  unfold check_format, format_post. destruct (getOpMode op).
  - case_if; [|by eexists]. case_if; [|by eexists]. by eexists.
  - case_if; [|by eexists]. eexists; split; [done|]. split; [done|].
    intros HK. rewrite decide_True in E by done. by b2p.
  - case_decide as HR; [|by eexists].
    case_if; [|by eexists].
    case_if; [|eexists; split; [done|]; split; [done|]; intros _; b2p; split; [lia|]].
    + destruct (setlist_run_Ok pt (Z.to_nat (pc + 1 + GETARG_sBx i))) as (j & Hj & _); [lia|].
      rewrite Hj. cbn. destruct (Z.land j 1 =? 0) eqn:Ej; [|by eexists].
      eexists; split; [done|]. split; [done|]. intros _. split; [lia|].
      by rewrite (setlist_run_boundary _ _ _ Hj), <- land_1_even.
    + replace (pc + 1 + GETARG_sBx i) with 0 by lia. done.
Qed.

(** A turn of the loop reads inside the prototype and does not go back. *)
Definition turn_ok (pt : Proto) (pc : Z) (r : result (option (Z * Z))) : Prop :=
  match r with
  | Ok None => True
  | Ok (Some (pc', last')) => pc <= pc' /\ 0 <= last' < pt_sizecode pt
  | Err _ => False
  end.

Lemma turn_ok_check pt pc (x : bool) r :
  (x = true -> turn_ok pt pc r) -> turn_ok pt pc (check x; r).
Proof. destruct x; cbn; auto. Qed.

Lemma turn_ok_ret pt pc pc' last' :
  pc <= pc' -> 0 <= last' < pt_sizecode pt -> turn_ok pt pc (Ok (Some (pc', last'))).
Proof. by cbn. Qed.

Lemma turn_ok_bind {A} pt pc (m : result A) k a :
  m = Ok a -> turn_ok pt pc (k a) -> turn_ok pt pc (m ≫= k).
Proof. by intros ->. Qed.

Ltac turn :=
  repeat first
    [ apply turn_ok_check; intros ?; b2p
    | apply turn_ok_ret; [repeat case_if; lia | repeat case_if; lia]
    | match goal with |- turn_ok _ _ (if ?b then _ else _) =>
        let E := fresh "E" in destruct b eqn:E; b2p end
    | progress cbv zeta ].

Lemma check_opcode_Ok pt lastpc reg pc last i op b c :
  prechecked pt -> wf_nups pt ->
  znth (pt_code pt) pc = Some i -> z2op (GET_OPCODE i) = Some op ->
  format_post pt pc i op b c -> 0 <= last < pt_sizecode pt ->
  turn_ok pt pc (check_opcode pt lastpc reg pc last op (GETARG_A i) b c).
Proof.
  intros Hpre Hn Hi Hop Hf Hl.
  pose proof (znth_Some_lt _ _ _ Hi) as Hpc. fold (pt_sizecode pt) in Hpc.
  pose proof (prechecked_next pt pc i op Hpre Hi Hop) as Hnext.
  pose proof (GETARG_Bx_range i) as HBx. unfold in_u in HBx.
  assert (Ho : op <> OP_RETURN -> exists w, checkopenop pt pc = Ok w).
  { intros H. specialize (Hnext H). unfold checkopenop. destruct (code_at_Ok pt (pc + 1)) as [w ->]; [lia|]. by eexists. }
  assert (Hk : op = OP_GETGLOBAL \/ op = OP_SETGLOBAL -> exists k, znth (pt_k pt) b = Some k).
  { intros [-> | ->]; destruct Hf as [-> Hb]; apply znth_is_Some;
      specialize (Hb eq_refl); fold (pt_sizek pt); lia. }
  destruct op; cbv [check_opcode]; turn.
  - destruct (code_at_Ok pt (pc + 1)) as [w Hw]; [lia|].
    eapply turn_ok_bind; [exact Hw|]. turn.
  - destruct Hk as [k Hk]; [tauto|]. rewrite Hk. cbn [of_option mbind result_bind]. turn.
  - destruct Hk as [k Hk]; [tauto|]. rewrite Hk. cbn [of_option mbind result_bind]. turn.
  - destruct Ho as [w Hw]; [done|]. eapply turn_ok_bind; [exact Hw|]. turn.
  - destruct Ho as [w Hw]; [done|]. eapply turn_ok_bind; [exact Hw|]. turn.
  - destruct Hf as [-> _].
    destruct (znth_is_Some (pt_p pt) (GETARG_Bx i)) as [p Hp]; [unfold pt_sizep in *; lia|].
    rewrite Hp. cbn [of_option mbind result_bind]. turn.
    assert (0 <= pt_nups p).
    { eapply (proj1 (Forall_forall _ _) Hn), znth_elem, Hp. }
    destruct (check_pseudo_Ok pt pc (Z.to_nat (pt_nups p))) as [w Hw]; [lia|lia|].
    eapply turn_ok_bind; [exact Hw|]. turn.
  - destruct Ho as [w Hw]; [done|]. eapply turn_ok_bind; [exact Hw|]. turn.
Qed.

Lemma symbexec_step_Ok pt lastpc reg pc last :
  prechecked pt -> wf_nups pt -> 0 <= pc < pt_sizecode pt -> 0 <= last < pt_sizecode pt ->
  turn_ok pt pc (symbexec_step pt lastpc reg pc last).
Proof.
  intros Hpre Hn Hpc Hl. unfold symbexec_step.
  destruct (code_at_Ok pt pc Hpc) as [i Hi].
  eapply turn_ok_bind; [exact Hi|]. apply code_at_znth in Hi. cbv zeta.
  destruct (z2op (GET_OPCODE i)) as [op|] eqn:Hop; [|done].
  apply turn_ok_check. intros _.
  destruct (check_format_Ok pt pc i op) as (r & -> & Hr). cbn [mbind result_bind].
  destruct r as [[b c]|]; [|done].
  assert (H : forall last', last' = pc \/ last' = last ->
    turn_ok pt pc (check_opcode pt lastpc reg pc last' op (GETARG_A i) b c)).
  { intros last' H. eapply check_opcode_Ok; eauto. destruct H; lia. }
  assert (Hlast : forall x : bool, (if x then pc else last) = pc \/ (if x then pc else last) = last).
  { intros []; auto. }
  case_if; [|apply H, Hlast]. apply turn_ok_check. intros ?; b2p.
  destruct (code_at_Ok pt (pc + 1)) as [w Hw]; [lia|].
  eapply turn_ok_bind; [exact Hw|]. apply turn_ok_check. intros _. apply H, Hlast.
Qed.

Lemma symbexec_loop_Ok fuel pt lastpc reg pc last :
  prechecked pt -> wf_nups pt -> 0 <= pc -> lastpc <= pt_sizecode pt ->
  0 <= last < pt_sizecode pt -> (Z.to_nat (lastpc - pc) < fuel)%nat ->
  exists r, symbexec_loop fuel pt lastpc reg pc last = Ok r /\
    match r with None => True | Some l => 0 <= l < pt_sizecode pt end.
Proof.
  intros Hpre Hn. revert pc last.
  induction fuel as [|fuel IH]; intros pc last Hpc Hlp Hl Hf; [lia|]. cbn [symbexec_loop].
  case_if; [|by eexists].
  pose proof (symbexec_step_Ok pt lastpc reg pc last Hpre Hn ltac:(lia) Hl) as Hs.
  destruct (symbexec_step _ _ _ _ _) as [[[pc' last']|]|]; cbn in Hs |- *; [|by eexists|done].
  apply IH; lia.
Qed.

Lemma symbexec_Ok pt lastpc reg :
  wf_nups pt -> 0 <= lastpc <= pt_sizecode pt -> exists i, symbexec pt lastpc reg = Ok i.
Proof.
  intros Hn Hl. unfold symbexec. destruct (precheck_Ok pt) as [b Hb].
  rewrite Hb. cbn [mbind result_bind]. destruct b; cbn [negb]; [|by eexists].
  pose proof (precheck_true pt Hb) as Hpre. pose proof (pre_size pt Hpre).
  destruct (symbexec_loop_Ok (S (Z.to_nat lastpc)) pt lastpc reg 0 (pt_sizecode pt - 1))
    as (r & -> & Hr); [done|done|lia..|]. cbn [mbind result_bind].
  destruct r; [by apply code_at_Ok|by eexists].
Qed.

(** ** What the interpreter touches

    The frame cells, constants, upvalues, prototypes and code words that
    luaV_execute reads or writes for the instruction [i] at [pc].  Where the
    instruction takes the values up to the stack top (B or C is 0 in CALL,
    RETURN, SETLIST, VARARG) only the fixed part is listed: the top is set by
    the instruction before.  OP_TFORLOOP copies the generator and its two
    arguments to ra+3, ra+4 and ra+5, whatever C is: the arguments are
    [AArg]. *)
Inductive access :=
  | AReg (r : Z)       (* R(r), base + r *)
  | AArg (r : Z)       (* base + r, an argument of the call of a generator *)
  | AConst (n : Z)     (* Kst(n) *)
  | AStr (n : Z)       (* Kst(n), that must be a string *)
  | AUpval (n : Z)
  | AProto (n : Z)
  | ACode (pc : Z).

Definition regs (r n : Z) : list access := AReg <$> seqZ r n.
Definition rk (x : Z) : access := if ISK x then AConst (INDEXK x) else AReg x.

(** The word after an OP_CLOSURE that sets one upvalue. *)
Definition pseudo_access (w : Z) : access :=
  if is_op w OP_GETUPVAL then AUpval (GETARG_B w) else AReg (GETARG_B w).

Definition closure_access (pt : Proto) (pc n : Z) : list access :=
  j ← seqZ (pc + 1) n;
  match znth (pt_code pt) j with
  | Some w => [ACode j; pseudo_access w]
  | None => [ACode j]
  end.

Definition vm_access (pt : Proto) (pc i : Z) (op : OpCode) : list access :=
  let a := GETARG_A i in
  let b := GETARG_B i in
  let c := GETARG_C i in
  match op with
  | OP_MOVE | OP_UNM | OP_NOT | OP_LEN => [AReg a; AReg b]
  | OP_TESTSET => [AReg a; AReg b; ACode (pc + 1)]
  | OP_LOADK => [AReg a; AConst (GETARG_Bx i)]
  | OP_LOADBOOL | OP_NEWTABLE => [AReg a]
  | OP_TEST => [AReg a; ACode (pc + 1)]
  | OP_LOADNIL => AReg b :: regs a (b - a + 1)
  | OP_GETUPVAL | OP_SETUPVAL => [AReg a; AUpval b]
  | OP_GETGLOBAL | OP_SETGLOBAL => [AReg a; AStr (GETARG_Bx i)]
  | OP_GETTABLE => [AReg a; AReg b; rk c]
  | OP_SETTABLE => [AReg a; rk b; rk c]
  | OP_SELF => [AReg a; AReg (a + 1); AReg b; rk c]
  | OP_ADD | OP_SUB | OP_MUL | OP_DIV | OP_MOD | OP_POW => [AReg a; rk b; rk c]
  | OP_CONCAT => AReg a :: regs b (c - b + 1)
  | OP_JMP | OP_CLOSE => []
  | OP_EQ | OP_LT | OP_LE => [rk b; rk c; ACode (pc + 1)]
  | OP_CALL => AReg a :: regs a b ++ regs a (c - 1)
  | OP_TAILCALL => AReg a :: regs a b
  | OP_RETURN => regs a (b - 1)
  | OP_FORLOOP => regs a 4
  | OP_FORPREP => regs a 3
  | OP_TFORLOOP => regs a 4 ++ [AArg (a + 4); AArg (a + 5)] ++ regs (a + 3) c ++ [ACode (pc + 1)]
  | OP_SETLIST => AReg a :: regs (a + 1) b ++ (if c =? 0 then [ACode (pc + 1)] else [])
  | OP_CLOSURE =>
      AReg a :: AProto (GETARG_Bx i) ::
      match znth (pt_p pt) (GETARG_Bx i) with
      | Some p => closure_access pt pc (pt_nups p)
      | None => []
      end
  | OP_VARARG => regs a (b - 1)
  end.

(** The arguments of a generator may be up to two cells above the registers of
    the frame, among the [EXTRA_STACK] cells that every stack keeps free. *)
Definition in_bounds (pt : Proto) (x : access) : Prop :=
  match x with
  | AReg r => 0 <= r < pt_maxstacksize pt
  | AArg r => 0 <= r < pt_maxstacksize pt + 2
  | AConst n => 0 <= n < pt_sizek pt
  | AStr n => exists k, znth (pt_k pt) n = Some k /\ ttype_k k = LUA_TSTRING
  | AUpval n => 0 <= n < pt_nups pt
  | AProto n => 0 <= n < pt_sizep pt
  | ACode pc => 0 <= pc < pt_sizecode pt
  end.

(** The instruction at [pc] was accepted. *)
Definition passes (pt : Proto) (pc : Z) : Prop :=
  exists last pc' last', symbexec_step pt (pt_sizecode pt) NO_REG pc last
    = Ok (Some (pc', last')).

Lemma is_op_excl i o o' : is_op i o = true -> z2op (GET_OPCODE i) = Some o' -> o = o'.
Proof. rewrite is_op_spec. congruence. Qed.

Lemma check_inv {A} (x : bool) (k : result (option A)) r :
  (check x; k) = Ok (Some r) -> x = true /\ k = Ok (Some r).
Proof. destruct x; [done|discriminate]. Qed.

(** Take an accepted run of checks apart. *)
Ltac uncheck H :=
  repeat (cbv zeta in H;
    lazymatch type of H with
    | (if _ then _ else Ok None) = _ =>
        let E := fresh "E" in apply check_inv in H as [E H]; b2p
    | (if ?b then _ else _) = _ =>
        let E := fresh "E" in destruct b eqn:E; b2p
    | mbind _ _ = _ =>
        let w := fresh "w" in let E := fresh "E" in
        apply result_bind_Ok in H as (w & E & H)
    end).

Lemma passes_inv pt pc :
  passes pt pc ->
  exists i op b c last pc' last',
    znth (pt_code pt) pc = Some i /\ z2op (GET_OPCODE i) = Some op /\
    GETARG_A i < pt_maxstacksize pt /\ format_post pt pc i op b c /\
    (testTMode op = true -> pc + 2 < pt_sizecode pt /\
       exists j, znth (pt_code pt) (pc + 1) = Some j /\
       z2op (GET_OPCODE j) = Some OP_JMP) /\
    check_opcode pt (pt_sizecode pt) NO_REG pc last op (GETARG_A i) b c
      = Ok (Some (pc', last')).
Proof.
  intros (last & pc' & last' & H). unfold symbexec_step in H.
  apply result_bind_Ok in H as (i & Hi & H). apply code_at_znth in Hi. cbv zeta in H.
  destruct (z2op (GET_OPCODE i)) as [op|] eqn:Hop; [|done].
  apply check_inv in H as [Ha H]. unfold checkreg in Ha. b2p.
  destruct (check_format_Ok pt pc i op) as (r & Hr & Hf). rewrite Hr in H.
  cbn [mbind result_bind] in H. destruct r as [[b c]|]; [|done].
  destruct (testTMode op) eqn:HT.
  - uncheck H. apply code_at_znth in E0. apply is_op_spec in E1.
    do 7 eexists. split_and!; eauto.
  - do 7 eexists. split_and!; eauto. by rewrite HT.
Qed.

Lemma regs_in_bounds pt a n :
  (0 < n -> 0 <= a /\ a + n - 1 < pt_maxstacksize pt) -> Forall (in_bounds pt) (regs a n).
Proof.
  intros H. unfold regs. apply Forall_fmap, Forall_forall. intros x Hx.
  apply elem_of_seqZ in Hx. cbn. lia.
Qed.

Lemma rk_in_bounds pt x :
  in_u 9 x -> (if ISK x then INDEXK x <? pt_sizek pt else x <? pt_maxstacksize pt) = true ->
  in_bounds pt (rk x).
Proof.
  intros Hx H. unfold rk, checkArgMode in *. destruct (ISK x) eqn:E; b2p; cbn.
  - rewrite (INDEXK_range x Hx E) in *. split; [|done].
    rewrite ISK_testbit in E. destruct (decide (256 <= x)); [lia|].
    rewrite (testbit_in_u 8 x 8) in E; [done|done| |done].
    unfold in_u in *. change (2 ^ 8) with 256. lia.
  - unfold in_u in Hx. lia.
Qed.

Lemma check_pseudo_true pt pc n :
  check_pseudo pt pc n = Ok true ->
  forall j, pc < j <= pc + Z.of_nat n ->
  exists w op, znth (pt_code pt) j = Some w /\ z2op (GET_OPCODE w) = Some op /\
    (op = OP_GETUPVAL \/ op = OP_MOVE).
Proof.
  revert pc. induction n as [|n IH]; intros pc H j Hj; cbn [check_pseudo] in H; [lia|].
  apply result_bind_Ok in H as (w & Hw & H). apply code_at_znth in Hw.
  destruct (is_op w OP_GETUPVAL || is_op w OP_MOVE) eqn:E; [|done].
  destruct (decide (j = pc + 1)) as [->|]; [|apply (IH _ H); lia].
  exists w. apply orb_true_iff in E as [E|E]; apply is_op_spec in E; eauto.
Qed.

(** Walking over words that are no SETLIST. *)
Lemma boundary_next pt pc i :
  0 <= pc -> boundary pt (Z.to_nat pc) = true -> znth (pt_code pt) pc = Some i ->
  boundary pt (Z.to_nat (pc + 1)) = negb (is_setlist0 i).
Proof.
  intros H0 H Hi. replace (Z.to_nat (pc + 1)) with (S (Z.to_nat pc)) by lia.
  cbn [boundary]. rewrite Z2Nat.id, H, Hi by done. done.
Qed.

Lemma boundary_skip pt pc i :
  0 <= pc -> boundary pt (Z.to_nat pc) = true -> znth (pt_code pt) pc = Some i ->
  is_setlist0 i = true -> boundary pt (Z.to_nat (pc + 2)) = true.
Proof.
  intros H0 H Hi Hs. pose proof (boundary_next pt pc i H0 H Hi) as Hn.
  rewrite Hs in Hn.
  replace (Z.to_nat (pc + 2)) with (S (Z.to_nat (pc + 1))) by lia.
  cbn [boundary]. by rewrite Hn.
Qed.

Lemma not_setlist0 i op :
  z2op (GET_OPCODE i) = Some op -> op <> OP_SETLIST -> is_setlist0 i = false.
Proof.
  intros H Hne. unfold is_setlist0. destruct (is_op i OP_SETLIST) eqn:E; [|done].
  by pose proof (is_op_excl _ _ _ E H).
Qed.

Lemma boundary_pseudo pt pc i n :
  0 <= pc -> boundary pt (Z.to_nat pc) = true -> znth (pt_code pt) pc = Some i ->
  is_setlist0 i = false -> check_pseudo pt pc n = Ok true ->
  forall m, (m <= n)%nat -> boundary pt (Z.to_nat (pc + 1 + Z.of_nat m)) = true.
Proof.
  intros H0 Hb Hi Hs Hp m Hm. induction m as [|m IH].
  - rewrite Z.add_0_r, (boundary_next _ _ _ H0 Hb Hi), Hs. done.
  - destruct (check_pseudo_true _ _ _ Hp (pc + 1 + Z.of_nat m)) as (w & op & Hw & Hop & Ho); [lia|].
    replace (pc + 1 + Z.of_nat (S m)) with (pc + 1 + Z.of_nat m + 1) by lia.
    rewrite (boundary_next pt _ w); [|lia|apply IH; lia|done].
    rewrite (not_setlist0 w op Hop); [done|]. by destruct Ho as [-> | ->].
Qed.

(** *** An accepted prototype: every word of the walk passed *)

Record verified (pt : Proto) : Prop := {
  ver_pre : prechecked pt;
  ver_nups : wf_nups pt;
  ver_pass pc : 0 <= pc < pt_sizecode pt -> boundary pt (Z.to_nat pc) = true -> passes pt pc;
}.

Lemma symbexec_step_noreg pt lastpc pc last pc' last' i :
  symbexec_step pt lastpc NO_REG pc last = Ok (Some (pc', last')) ->
  znth (pt_code pt) pc = Some i -> pc' = if is_setlist0 i then pc + 1 else pc.
Proof.
  unfold symbexec_step. intros H Hi. rewrite (proj2 (code_at_znth _ _ _) Hi) in H.
  cbn [mbind result_bind] in H. cbv zeta in H.
  destruct (z2op (GET_OPCODE i)) as [op|] eqn:Hop; [|done].
  apply check_inv in H as [_ H].
  destruct (check_format_Ok pt pc i op) as (r & Hr & Hf). rewrite Hr in H.
  cbn [mbind result_bind] in H. destruct r as [[b c]|]; [|done].
  assert (H' : exists last, check_opcode pt lastpc NO_REG pc last op (GETARG_A i) b c = Ok (Some (pc', last'))).
  { destruct (testTMode op); [|eauto]. uncheck H. eauto. }
  clear H. destruct H' as [l H].
  destruct (decide (op = OP_SETLIST)) as [->|Hne].
  - unfold is_setlist0. rewrite (proj2 (is_op_spec i OP_SETLIST) Hop). cbn [andb].
    destruct Hf as (_ & -> & _). cbn [check_opcode] in H. uncheck H; by simplify_eq.
  - rewrite (not_setlist0 _ _ Hop Hne).
    destruct op; try done; cbn [check_opcode] in H; uncheck H; by simplify_eq.
Qed.

Lemma symbexec_loop_passes fuel pt pc last l :
  0 <= pc -> boundary pt (Z.to_nat pc) = true ->
  symbexec_loop fuel pt (pt_sizecode pt) NO_REG pc last = Ok (Some l) ->
  forall q, pc <= q < pt_sizecode pt -> boundary pt (Z.to_nat q) = true -> passes pt q.
Proof.
  revert pc last. induction fuel as [|fuel IH]; intros pc last H0 Hb H q Hq Hbq; [done|].
  cbn [symbexec_loop] in H. destruct (pc <? pt_sizecode pt) eqn:E; b2p; [|lia].
  apply result_bind_Ok in H as (r & Hr & H). destruct r as [[pc' last']|]; [|done].
  destruct (code_at_Ok pt pc) as [i Hi]; [lia|]. apply code_at_znth in Hi.
  pose proof (symbexec_step_noreg _ _ _ _ _ _ _ Hr Hi) as ->.
  destruct (decide (q = pc)) as [->|]; [by eexists _, _, _|].
  pose proof (boundary_next pt pc i H0 Hb Hi) as Hb1.
  destruct (is_setlist0 i) eqn:Es; cbn [negb] in Hb1.
  - destruct (decide (q = pc + 1)) as [->|]; [congruence|].
    apply (IH (pc + 1 + 1) last'); try done; try lia.
    replace (pc + 1 + 1) with (pc + 2) by lia. by eapply boundary_skip.
  - apply (IH (pc + 1) last'); try done; lia.
Qed.

Lemma luaG_checkcode_verified pt :
  wf_nups pt -> luaG_checkcode pt = Ok true -> verified pt.
Proof.
  intros Hn H. unfold luaG_checkcode in H. apply result_bind_Ok in H as (i & H & [= Hi]).
  unfold symbexec in H. apply result_bind_Ok in H as (b & Hb & H).
  destruct b; cbn [negb] in H; [|by simplify_eq].
  apply result_bind_Ok in H as (r & Hr & H). destruct r as [l|]; [|by simplify_eq].
  split; [by apply precheck_true|done|].
  intros pc Hpc Hbd. exact (symbexec_loop_passes _ pt 0 _ _ (Z.le_refl 0) eq_refl Hr pc Hpc Hbd).
Qed.

(** Evaluate an opcode's entry of luaP_opmodes. *)
Ltac modes H :=
  repeat match type of H with
  | context [getOpMode ?o] => let m := eval vm_compute in (getOpMode o) in
      change (getOpMode o) with m in H
  | context [getBMode ?o] => let m := eval vm_compute in (getBMode o) in
      change (getBMode o) with m in H
  | context [getCMode ?o] => let m := eval vm_compute in (getCMode o) in
      change (getCMode o) with m in H
  | context [testTMode ?o] => let m := eval vm_compute in (testTMode o) in
      change (testTMode o) with m in H
  end; cbv iota in H.

Ltac in_bounds_tac :=
  repeat lazymatch goal with
  | |- Forall _ [] => apply Forall_nil_2
  | |- Forall _ (_ :: _) => apply Forall_cons_2
  | |- Forall _ (_ ++ _) => apply Forall_app_2
  | |- Forall _ (regs _ _) => apply regs_in_bounds; intros ?
  | |- in_bounds _ (rk (GETARG_B ?i)) =>
      apply (rk_in_bounds _ _ (GETARG_B_range i)); assumption
  | |- in_bounds _ (rk (GETARG_C ?i)) =>
      apply (rk_in_bounds _ _ (GETARG_C_range i)); assumption
  | |- in_bounds _ _ => progress cbn [in_bounds]
  end.

Lemma pseudo_in_bounds pt pc w op :
  verified pt -> 0 <= pc < pt_sizecode pt -> boundary pt (Z.to_nat pc) = true ->
  znth (pt_code pt) pc = Some w -> z2op (GET_OPCODE w) = Some op ->
  op = OP_GETUPVAL \/ op = OP_MOVE -> in_bounds pt (pseudo_access w).
Proof.
  intros Hv Hpc Hb Hi Hop Ho.
  destruct (passes_inv pt pc (ver_pass pt Hv pc Hpc Hb))
    as (i' & op' & b & c & last & pc' & last' & Hi' & Hop' & Ha & Hf & HT & H).
  simplify_eq. assert (RB : 0 <= GETARG_B w < 512) by apply GETARG_B_range.
  unfold pseudo_access. destruct Ho as [-> | ->]; unfold format_post in Hf; modes Hf;
    destruct_and? Hf; subst; unfold is_op; rewrite <-(op2z_z2op _ _ Hop); cbn.
  - cbn [check_opcode] in H. uncheck H. lia.
  - cbn [checkArgMode] in *. unfold checkreg in *. b2p. lia.
Qed.

Lemma closure_in_bounds pt pc i n :
  verified pt -> 0 <= pc < pt_sizecode pt -> boundary pt (Z.to_nat pc) = true ->
  znth (pt_code pt) pc = Some i -> is_setlist0 i = false ->
  check_pseudo pt pc (Z.to_nat n) = Ok true ->
  Forall (in_bounds pt) (closure_access pt pc n).
Proof.
  intros Hv Hpc Hb Hi Hs Hp. unfold closure_access.
  apply Forall_bind, Forall_forall. intros j Hj. apply elem_of_seqZ in Hj.
  destruct (check_pseudo_true _ _ _ Hp j) as (w & op & Hw & Hop & Ho); [lia|].
  pose proof (znth_Some_lt _ _ _ Hw). unfold compose. rewrite Hw.
  apply Forall_cons_2; [done|]. apply Forall_cons_2; [|apply Forall_nil_2].
  apply (pseudo_in_bounds pt j w op); try done.
  pose proof (boundary_pseudo pt pc i _ (proj1 Hpc) Hb Hi Hs Hp (Z.to_nat (j - (pc + 1)))) as Hbj.
  rewrite Z2Nat.id in Hbj by lia.
  replace (pc + 1 + (j - (pc + 1))) with j in Hbj by lia. apply Hbj. lia.
Qed.

Lemma verified_in_bounds pt pc i op :
  verified pt -> 0 <= pc < pt_sizecode pt -> boundary pt (Z.to_nat pc) = true ->
  znth (pt_code pt) pc = Some i -> z2op (GET_OPCODE i) = Some op ->
  Forall (in_bounds pt) (vm_access pt pc i op).
Proof.
  intros Hv Hpc Hb Hi Hop.
  destruct (passes_inv pt pc (ver_pass pt Hv pc Hpc Hb))
    as (i' & op' & b & c & last & pc' & last' & Hi' & Hop' & Ha & Hf & HT & H).
  simplify_eq. unfold vm_access. cbv zeta.
  assert (RA : 0 <= GETARG_A i < 256) by apply GETARG_A_range.
  assert (RB : 0 <= GETARG_B i < 512) by apply GETARG_B_range.
  assert (RC : 0 <= GETARG_C i < 512) by apply GETARG_C_range.
  assert (RBx : 0 <= GETARG_Bx i < 262144) by apply GETARG_Bx_range.
  destruct op; unfold format_post in Hf; modes Hf; modes HT; cbn [checkArgMode] in Hf;
    destruct_and? Hf; subst; unfold checkreg in *; b2p;
    repeat match goal with
    | H : ?x = ?x -> _ |- _ => specialize (H eq_refl)
    | H : false = true -> _ |- _ => clear H
    end;
    cbn [check_opcode] in H; uncheck H; in_bounds_tac;
    repeat match goal with
    | H : (if ISK _ then _ else _) = true |- _ => clear H
    | H : (if ?b then _ else true) = true |- _ => destruct b eqn:?; b2p
    end; unfold checkreg, LUA_MULTRET in *; b2p; try lia.
  - destruct (znth (pt_k pt) (GETARG_Bx i)); cbn in E; simplify_eq. eauto.
  - destruct (znth (pt_k pt) (GETARG_Bx i)); cbn in E; simplify_eq. eauto.
  - destruct (znth (pt_p pt) (GETARG_Bx i)) as [p|] eqn:Hp; cbn in E0; simplify_eq.
    eapply closure_in_bounds; eauto. by eapply not_setlist0.
Qed.

(** A LOADBOOL that skips does so with C = 1, the case the verifier tests. *)
Definition loadbool_c01 (pt : Proto) : Prop :=
  forall pc i, znth (pt_code pt) pc = Some i ->
    z2op (GET_OPCODE i) = Some OP_LOADBOOL -> GETARG_C i <= 1.

Definition on_walk (pt : Proto) (pc : Z) : Prop :=
  0 <= pc < pt_sizecode pt /\ boundary pt (Z.to_nat pc) = true.

Lemma on_walk_next pt pc i op :
  verified pt -> on_walk pt pc -> znth (pt_code pt) pc = Some i ->
  z2op (GET_OPCODE i) = Some op -> op <> OP_RETURN -> op <> OP_SETLIST ->
  on_walk pt (pc + 1).
Proof.
  intros Hv [Hpc Hb] Hi Hop Hr Hs. split.
  - pose proof (prechecked_next pt pc i op (ver_pre pt Hv) Hi Hop Hr). lia.
  - rewrite (boundary_next pt pc i (proj1 Hpc) Hb Hi), (not_setlist0 _ _ Hop Hs). done.
Qed.

(** What acceptance says at a walked word. *)
Lemma on_walk_inv pt pc i op :
  verified pt -> on_walk pt pc -> znth (pt_code pt) pc = Some i ->
  z2op (GET_OPCODE i) = Some op ->
  exists b c last pc' last', format_post pt pc i op b c /\
    (testTMode op = true -> pc + 2 < pt_sizecode pt /\
       exists j, znth (pt_code pt) (pc + 1) = Some j /\
       z2op (GET_OPCODE j) = Some OP_JMP) /\
    check_opcode pt (pt_sizecode pt) NO_REG pc last op (GETARG_A i) b c
      = Ok (Some (pc', last')).
Proof.
  intros Hv [Hpc Hb] Hi Hop.
  destruct (passes_inv pt pc (ver_pass pt Hv pc Hpc Hb))
    as (i' & op' & b & c & last & pc' & last' & Hi' & Hop' & Ha & Hf & HT & H).
  simplify_eq. eauto 10.
Qed.

Lemma on_walk_jump pt pc i op :
  verified pt -> on_walk pt pc -> znth (pt_code pt) pc = Some i ->
  z2op (GET_OPCODE i) = Some op -> op ∈ [OP_JMP; OP_FORLOOP; OP_FORPREP] ->
  on_walk pt (pc + 1 + GETARG_sBx i).
Proof.
  intros Hv Hw Hi Hop Hin.
  destruct (on_walk_inv pt pc i op Hv Hw Hi Hop) as (b & c & last & pc' & last' & Hf & _).
  assert (Hsj : b = GETARG_sBx i /\ on_walk pt (pc + 1 + b)).
  { rewrite !elem_of_cons in Hin. destruct Hin as [-> | [-> | [-> | []%not_elem_of_nil]]];
      unfold format_post in Hf; modes Hf; destruct Hf as [? Hf]; specialize (Hf eq_refl); done. }
  by destruct Hsj as [<- ?].
Qed.

Lemma on_walk_test pt pc i op :
  verified pt -> on_walk pt pc -> znth (pt_code pt) pc = Some i ->
  z2op (GET_OPCODE i) = Some op -> testTMode op = true ->
  on_walk pt (pc + 1) /\ on_walk pt (pc + 2) /\
  exists j, znth (pt_code pt) (pc + 1) = Some j /\ z2op (GET_OPCODE j) = Some OP_JMP.
Proof.
  intros Hv Hw Hi Hop Ht.
  destruct (on_walk_inv pt pc i op Hv Hw Hi Hop) as (b & c & last & pc' & last' & _ & HT & _).
  destruct (HT Ht) as (Hlt & j & Hj & Hjop).
  assert (H1 : on_walk pt (pc + 1)) by (eapply on_walk_next; eauto; intros ->; done).
  split_and!; eauto. replace (pc + 2) with (pc + 1 + 1) by lia.
  eapply on_walk_next; eauto.
Qed.

Lemma tests_testTMode op :
  op ∈ [OP_EQ; OP_LT; OP_LE; OP_TEST; OP_TESTSET; OP_TFORLOOP] -> testTMode op = true.
Proof. revert op. apply Forall_forall. repeat constructor. Qed.

Lemma closure_on_walk pt pc i n :
  verified pt -> on_walk pt pc -> znth (pt_code pt) pc = Some i ->
  z2op (GET_OPCODE i) = Some OP_CLOSURE -> 0 <= n -> pc + n < pt_sizecode pt ->
  check_pseudo pt pc (Z.to_nat n) = Ok true -> on_walk pt (pc + 1 + n).
Proof.
  intros Hv [Hpc Hb] Hi Hop Hn Hlt Hp.
  assert (Hs : is_setlist0 i = false) by by eapply not_setlist0.
  split.
  - destruct (decide (n = 0)) as [->|].
    + pose proof (prechecked_next pt pc i _ (ver_pre pt Hv) Hi Hop ltac:(done)). lia.
    + destruct (check_pseudo_true _ _ _ Hp (pc + n)) as (w & op & Hw & Hwop & Ho); [lia|].
      pose proof (prechecked_next pt (pc + n) w op (ver_pre pt Hv) Hw Hwop).
      assert (op <> OP_RETURN) by by destruct Ho as [-> | ->]. intuition lia.
  - pose proof (boundary_pseudo pt pc i _ (proj1 Hpc) Hb Hi Hs Hp (Z.to_nat n)) as H.
    rewrite Z2Nat.id in H by done. by apply H.
Qed.

Lemma vm_next_on_walk pt pc pc' :
  verified pt -> loadbool_c01 pt -> on_walk pt pc -> vm_next pt pc pc' -> on_walk pt pc'.
Proof.
  intros Hv Hlb Hw Hn. destruct Hn as [i op Hi Hop Ho|i Hi Hop|i op Hi Hop Ho|i op Hi Hop Ho
    |i op j Hi Hop Ho Hj|i Hi Hop|i p Hi Hop Hp].
  - eapply on_walk_next; eauto; intros ->; apply Ho; repeat constructor.
  - destruct (GETARG_C i =? 0) eqn:E; b2p; [by eapply on_walk_next|].
    destruct (on_walk_inv pt pc i _ Hv Hw Hi Hop) as (b & c & last & pc' & last' & Hf & _ & H).
    unfold format_post in Hf. modes Hf. destruct Hf as (_ & -> & _).
    specialize (Hlb pc i Hi Hop). pose proof (GETARG_C_range i) as Hr. unfold in_u in Hr.
    cbn [check_opcode] in H. uncheck H; [|lia]. apply code_at_znth in E2.
    assert (H1 : on_walk pt (pc + 1)) by by eapply on_walk_next.
    split; [destruct Hw; lia|]. replace (pc + 2) with (pc + 1 + 1) by lia.
    rewrite (boundary_next pt (pc + 1) w); [|apply H1..|done].
    unfold is_setlist0. destruct E3 as [E3|E3]; b2p; [by rewrite E3|].
    destruct (is_op w OP_SETLIST); [|done]. cbn. by apply Z.eqb_neq in E3 as ->.
  - by eapply on_walk_jump.
  - eapply (on_walk_test pt pc i op); eauto.
    by apply tests_testTMode.
  - destruct (on_walk_test pt pc i op Hv Hw Hi Hop (tests_testTMode op Ho)) as (H1 & _ & j' & Hj' & Hjop).
    simplify_eq. replace (pc + 1 + GETARG_sBx j + 1) with (pc + 1 + 1 + GETARG_sBx j) by lia.
    eapply on_walk_jump; eauto. by left.
  - destruct (on_walk_inv pt pc i _ Hv Hw Hi Hop) as (b & c & last & pc' & last' & Hf & _ & H).
    unfold format_post in Hf. modes Hf. destruct Hf as (_ & -> & _).
    cbn [check_opcode] in H. destruct Hw as [Hpc Hb].
    assert (Hs : is_setlist0 i = (GETARG_C i =? 0)).
    { unfold is_setlist0. by rewrite (proj2 (is_op_spec _ _) Hop). }
    pose proof (prechecked_next pt pc i _ (ver_pre pt Hv) Hi Hop ltac:(done)).
    destruct (GETARG_C i =? 0) eqn:E.
    + uncheck H; (split; [lia|]); by apply (boundary_skip pt pc i (proj1 Hpc) Hb Hi).
    + split; [lia|]. by rewrite (boundary_next pt pc i (proj1 Hpc) Hb Hi), Hs.
  - destruct (on_walk_inv pt pc i _ Hv Hw Hi Hop) as (b & c & last & pc' & last' & Hf & _ & H).
    unfold format_post in Hf. modes Hf. destruct Hf as [-> _].
    cbn [check_opcode] in H. rewrite Hp in H. cbn [of_option mbind result_bind] in H.
    uncheck H. destruct w; [|done].
    assert (0 <= pt_nups p).
    { eapply (proj1 (Forall_forall _ _) (ver_nups pt Hv)), znth_elem, Hp. }
    eapply closure_on_walk; eauto.
Qed.

Lemma vm_reach_on_walk pt pc : verified pt -> loadbool_c01 pt -> vm_reach pt pc -> on_walk pt pc.
Proof.
  intros Hv Hlb Hr. induction Hr as [|pc pc' _ IH Hstep]; [|by eapply vm_next_on_walk].
  split; [|done]. pose proof (pre_size pt (ver_pre pt Hv)). lia.
Qed.
Lemma on_walk_valid pt pc :
  verified pt -> on_walk pt pc -> exists i op, znth (pt_code pt) pc = Some i /\ z2op (GET_OPCODE i) = Some op.
Proof.
  intros Hv Hw. destruct (passes_inv pt pc (ver_pass pt Hv pc (proj1 Hw) (proj2 Hw)))
    as (i & op & _ & _ & _ & _ & _ & Hi & Hop & _). eauto.
Qed.

(** ** The contract of the verifier *)

(** The bytecode verifier reads nothing outside the prototype it checks,
    whatever its contents are, and its loop ends: for every prototype, and for
    every register and last pc it is asked about by the error messages,
    symbexec returns an instruction. *)
Theorem symbexec_total pt lastpc reg :
  wf_nups pt -> 0 <= lastpc <= pt_sizecode pt ->
  exists i, symbexec pt lastpc reg = Ok i.
Proof. apply symbexec_Ok. Qed.

(** C1: Soundness of the bytecode verifier: in a prototype luaG_checkcode
    accepts, whose LOADBOOLs have C at most 1 ([loadbool_c01]: the verifier
    does not test it), every program point that luaV_execute can reach holds a
    valid opcode, and all registers, constants, upvalues, nested prototypes and
    code words the instruction touches exist; only the two arguments that
    OP_TFORLOOP copies for the call of its generator may be up to two cells
    above the frame. *)
Theorem luaG_checkcode_sound pt pc :
  wf_nups pt -> loadbool_c01 pt -> luaG_checkcode pt = Ok true -> vm_reach pt pc ->
  exists i op, znth (pt_code pt) pc = Some i /\ z2op (GET_OPCODE i) = Some op /\
    Forall (in_bounds pt) (vm_access pt pc i op).
Proof.
  intros Hn Hlb Hc Hr. pose proof (luaG_checkcode_verified pt Hn Hc) as Hv.
  pose proof (vm_reach_on_walk pt pc Hv Hlb Hr) as Hw. destruct (on_walk_valid pt pc Hv Hw) as (i & op & Hi & Hop).
  exists i, op. split_and!; try done. by eapply verified_in_bounds; try apply Hw.
Qed.

(** A function with a test, a jump and a closure over one upvalue. *)
Definition sample_proto (code : list Z) (k : list Const) (p : list Proto) (nups : Z) : Proto :=
  mkProto None 0 0 nups 0 0 3 code k p [] [] [].

Definition sample_inner : Proto :=
  sample_proto [CREATE_ABC OP_GETUPVAL 0 0 0; CREATE_ABC OP_RETURN 0 2 0] [] [] 1.

Definition sample_outer : Proto :=
  sample_proto
    [ CREATE_ABx OP_LOADK 0 0
    ; CREATE_ABC OP_EQ 1 0 256
    ; CREATE_ABx OP_JMP 0 (MAXARG_sBx + 1)
    ; CREATE_ABC OP_LOADBOOL 1 0 1
    ; CREATE_ABC OP_LOADBOOL 1 1 0
    ; CREATE_ABx OP_CLOSURE 2 0
    ; CREATE_ABC OP_MOVE 0 1 0
    ; CREATE_ABC OP_RETURN 0 1 0 ]
    [KNumber 7] [sample_inner] 0.

Lemma symbexec_total_witness :
  0 <= 8 <= pt_sizecode sample_outer /\ exists i, symbexec sample_outer 8 2 = Ok i.
Proof.
  split; [vm_compute; split; discriminate|].
  apply (symbexec_total sample_outer 8 2).
  - repeat constructor; vm_compute; discriminate.
  - vm_compute; split; discriminate.
Defined.

Lemma sample_outer_loadbool : loadbool_c01 sample_outer.
Proof.
  assert (H : Forall (fun i => z2op (GET_OPCODE i) = Some OP_LOADBOOL -> GETARG_C i <= 1)
                (pt_code sample_outer)).
  { repeat constructor; vm_compute; congruence. }
  intros pc i Hi. exact (proj1 (Forall_forall _ _) H i (znth_elem _ _ _ Hi)).
Qed.

Lemma sample_outer_reach : vm_reach sample_outer 5.
Proof.
  apply (vm_step _ 4); [apply (vm_step _ 1); [apply (vm_step _ 0); [apply vm_start|]|]|].
  - apply (vm_plain _ 0 (CREATE_ABx OP_LOADK 0 0) OP_LOADK); [done|done|].
    by apply (bool_decide_eq_true _).
  - apply (vm_test_jump _ 1 (CREATE_ABC OP_EQ 1 0 256) OP_EQ
             (CREATE_ABx OP_JMP 0 (MAXARG_sBx + 1))); [done|done| |done].
    by left.
  - by apply (vm_loadbool _ 4 (CREATE_ABC OP_LOADBOOL 1 1 0)).
Qed.

Lemma luaG_checkcode_sound_witness :
  luaG_checkcode sample_outer = Ok true /\
  exists i op, znth (pt_code sample_outer) 5 = Some i /\ z2op (GET_OPCODE i) = Some op /\
    Forall (in_bounds sample_outer) (vm_access sample_outer 5 i op).
Proof.
  split; [vm_compute; reflexivity|]. apply luaG_checkcode_sound.
  - repeat constructor; vm_compute; discriminate.
  - apply sample_outer_loadbool.
  - vm_compute; reflexivity.
  - apply sample_outer_reach.
Defined.

(** The LOADBOOL that the verifier misses: its C is 2, so it skips, and the
    word it skips is the RETURN at the end of the code. *)
Definition loadbool_c2 : Proto :=
  sample_proto [CREATE_ABC OP_LOADBOOL 0 1 2; CREATE_ABC OP_RETURN 0 1 0] [] [] 0.

(** C22: The condition on LOADBOOL is needed: the verifier tests C = 1 where
    the interpreter skips on any C that is not 0, so it accepts a prototype
    whose execution leaves the code array. *)
Theorem luaG_checkcode_loadbool_escape :
  luaG_checkcode loadbool_c2 = Ok true /\ vm_reach loadbool_c2 (pt_sizecode loadbool_c2).
Proof.
  split; [vm_compute; reflexivity|].
  apply (vm_step _ 0); [apply vm_start|].
  by apply (vm_loadbool _ 0 (CREATE_ABC OP_LOADBOOL 0 1 2)).
Qed.

(** Where the bound of [AArg] is reached: the verifier asks for the registers
    up to a+2+C, so with C = 1 the frame may end at ra+3. *)
Definition tforloop_c1 : Proto :=
  mkProto None 0 0 0 0 0 4 [CREATE_ABC OP_LOADNIL 0 3 0; CREATE_ABC OP_TFORLOOP 0 0 1; CREATE_ABx OP_JMP 0 (MAXARG_sBx - 2); CREATE_ABC OP_RETURN 0 1 0] [] [] [] [] [].

Theorem luaG_checkcode_tforloop_above :
  luaG_checkcode tforloop_c1 = Ok true /\ vm_reach tforloop_c1 1 /\
  exists i, znth (pt_code tforloop_c1) 1 = Some i /\ z2op (GET_OPCODE i) = Some OP_TFORLOOP /\
    AArg (pt_maxstacksize tforloop_c1 + 1) ∈ vm_access tforloop_c1 1 i OP_TFORLOOP.
Proof.
  split; [vm_compute; reflexivity|]. split.
  { apply (vm_step _ 0); [apply vm_start|].
    apply (vm_plain _ 0 (CREATE_ABC OP_LOADNIL 0 3 0) OP_LOADNIL); [done|done|]. by apply (bool_decide_eq_true _). }
  eexists. split; [reflexivity|]. split; [reflexivity|]. vm_compute. set_solver.
Qed.
