(* ===== verification/Str.v ===== *)
(** * Str.v: the string table (lstring.h, lstring.c)

    All strings are interned: [luaS_newlstr] looks a string up in a hash table
    of chains before it makes a new one.  A [TString] is modelled with the
    address of its object; "the same string is the same object" is a theorem
    about the table, and what the rest of the engine relies on when it compares
    strings by address.  The marks of the collector are kept, because a string
    found dead must be made white again. *)

From S2P Require Import Prelude Machine Object Mem.

(** ** Marks (lgc.h) *)

Definition WHITE0BIT : Z := 0.
Definition WHITE1BIT : Z := 1.
Definition WHITEBITS : Z := Z.lor (Z.shiftl 1 WHITE0BIT) (Z.shiftl 1 WHITE1BIT).

Definition GCSpause : Z := 0.
Definition GCSsweepstring : Z := 2.

(** ** Data *)

Record TString := mkTString {
  ts_addr : Z;      (* the object's address *)
  ts_hash : Z;
  ts_marked : Z;
  ts_str : bytes;   (* [len] bytes; the final NUL is not kept *)
}.

#[global] Instance TString_eq_dec : EqDecision TString.
Proof. solve_decision. Defined.

Definition ts_len (ts : TString) : Z := zlen (ts_str ts).

Record stringtable := mkStringtable {
  st_hash : list (list TString);   (* the chains *)
  st_nuse : Z;
  st_size : Z;
}.

(** The fields of the global state that strings use.  [g_next] is the address
    the next object gets: addresses of live objects differ, which is what an
    allocator gives. *)
Record global_State := mkGlobal {
  g_totalbytes : Z;
  g_strt : stringtable;
  g_currentwhite : Z;
  g_gcstate : Z;
  g_next : Z;
}.

Definition set_strt (tb : stringtable) (g : global_State) : global_State :=
  mkGlobal (g_totalbytes g) tb (g_currentwhite g) (g_gcstate g) (g_next g).
Definition set_next (n : Z) (g : global_State) : global_State :=
  mkGlobal (g_totalbytes g) (g_strt g) (g_currentwhite g) (g_gcstate g) n.

#[export] Instance global_HasMem : HasMem global_State := {|
  totalbytes := g_totalbytes;
  set_totalbytes n g := mkGlobal n (g_strt g) (g_currentwhite g) (g_gcstate g) (g_next g);
|}.
#[export] Instance global_HasMemLaws : HasMemLaws global_State.
Proof. split; [done..|]. by intros []. Qed.

Definition otherwhite (g : global_State) : Z := Z.lxor (g_currentwhite g) WHITEBITS.
Definition isdead (g : global_State) (marked : Z) : bool :=
  negb (Z.land (Z.land marked (otherwhite g)) WHITEBITS =? 0).
Definition changewhite (ts : TString) : TString :=
  mkTString (ts_addr ts) (ts_hash ts) (Z.lxor (ts_marked ts) WHITEBITS) (ts_str ts).
Definition luaC_white (g : global_State) : Z := Z.land (g_currentwhite g) WHITEBITS.

(** ** Operations *)

(** [for (l1=l; l1>=step; l1-=step)]: each turn takes [step >= 1] off [l1]. *)
Fixpoint hash_loop (fuel : nat) (str : bytes) (l1 step h : Z) : result Z :=
  match fuel with
  | O => Err OutOfFuel
  | S fuel =>
      if l1 >=? step then
        c ← of_option "string index" (znth str (l1 - 1));
        hash_loop fuel str (l1 - step) step
          (Z.lxor h (u32 (u32 (Z.shiftl h 5) + Z.shiftr h 2 + c)))
      else Ok h
  end.

Definition luaS_hash (str : bytes) (l : Z) : result Z :=
  hash_loop (S (Z.to_nat l)) str l (Z.shiftr l 5 + 1) (u32 l).

(** One chain of the old table, pushed entry by entry on the new ones. *)
Fixpoint rehash_chain (newsize : Z) (p : list TString) (newhash : list (list TString))
    : result (list (list TString)) :=
  match p with
  | [] => Ok newhash
  | ts :: next =>
      let h1 := lmod (ts_hash ts) newsize in
      chain ← of_option "newhash index" (znth newhash h1);
      rehash_chain newsize next (zupd h1 (ts :: chain) newhash)
  end.

Fixpoint rehash_all (newsize : Z) (hash : list (list TString)) (newhash : list (list TString))
    : result (list (list TString)) :=
  match hash with
  | [] => Ok newhash
  | p :: hash =>
      newhash ← rehash_chain newsize p newhash;
      rehash_all newsize hash newhash
  end.

(** The first string of a chain with these bytes. *)
Fixpoint find_str (str : bytes) (l : Z) (o : list TString) : option TString :=
  match o with
  | [] => None
  | ts :: next =>
      if (ts_len ts =? l) && bool_decide (str = ts_str ts) then Some ts
      else find_str str l next
  end.

(** A store to the object of a string. *)
Definition update_ts (a : Z) (f : TString -> TString) (chain : list TString) : list TString :=
  (fun ts => if ts_addr ts =? a then f ts else ts) <$> chain.

Section strings.
Context `{Krealloc}.

Definition luaS_resize (newsize : Z) : M global_State unit :=
  g ← get;
  if g_gcstate g =? GCSsweepstring then mret tt  (* cannot resize during GC traverse *)
  else
    luaM_newvector newsize sizeof_ptr;;
    tb ← gets g_strt;
    newhash ← lift (rehash_all newsize (st_hash tb) (replicate (Z.to_nat newsize) []));
    luaM_freearray (st_size tb) sizeof_ptr;;
    modify (set_strt (mkStringtable newhash (st_nuse tb) newsize)).

Definition newlstr (str : bytes) (l h : Z) : M global_State TString :=
  when (u64 (l + 1) >? MAX_SIZET - sizeof_TString) luaM_toobig;;
  luaM_malloc (u64 (u64 (l + 1) + sizeof_TString));;
  g ← get;
  let ts := mkTString (g_next g) h (luaC_white g) str in
  modify (set_next (g_next g + 1));;
  let tb := g_strt g in
  let h := lmod h (st_size tb) in
  chain ← lift (of_option "hash index" (znth (st_hash tb) h));
  let tb := mkStringtable (zupd h (ts :: chain) (st_hash tb)) (u32 (st_nuse tb + 1)) (st_size tb) in
  modify (set_strt tb);;
  when ((st_nuse tb >? u32 (st_size tb)) && (st_size tb <=? MAX_INT / 2))
    (luaS_resize (st_size tb * 2));;  (* too crowded *)
  mret ts.

Definition luaS_newlstr (str : bytes) : M global_State TString :=
  let l := zlen str in
  h ← lift (luaS_hash str l);
  g ← get;
  let tb := g_strt g in
  let i := lmod h (st_size tb) in
  o ← lift (of_option "hash index" (znth (st_hash tb) i));
  match find_str str l o with
  | Some ts =>
      (* string may be dead *)
      if isdead g (ts_marked ts) then
        modify (set_strt (mkStringtable
          (zupd i (update_ts (ts_addr ts) changewhite o) (st_hash tb))
          (st_nuse tb) (st_size tb)));;
        mret (changewhite ts)
      else mret ts
  | None => newlstr str l h  (* not found *)
  end.
End strings.

(** ** The hash function ends and gives 32 bits *)

Lemma hash_loop_Ok fuel str l1 step h :
  wf_bytes str -> 1 <= step -> 0 <= l1 <= zlen str -> in_u 32 h -> l1 < Z.of_nat fuel ->
  exists h', hash_loop fuel str l1 step h = Ok h' /\ in_u 32 h'.
Proof.
  intros Hw Hs. revert l1 h. induction fuel as [|fuel IH]; intros l1 h Hl Hh Hf; cbn [hash_loop].
  - lia.
  - case_if; [|by eexists].
    destruct (znth_is_Some str (l1 - 1)) as [c Hc]; [lia|]. rewrite Hc.
    cbn [of_option mbind result_bind]. apply IH; [lia| |lia].
    apply lxor_range; [lia|done|apply uwrap_range; lia].
Qed.

Lemma luaS_hash_Ok str :
  wf_bytes str -> exists h, luaS_hash str (zlen str) = Ok h /\ in_u 32 h.
Proof.
  intros Hw. unfold luaS_hash. pose proof (zlen_nonneg str).
  assert (0 <= Z.shiftr (zlen str) 5) by by apply Z.shiftr_nonneg.
  apply hash_loop_Ok; [done|lia|lia|apply uwrap_range; lia|lia].
Qed.

(** ** Buckets *)

Definition bucket_ok (size : Z) (hash : list (list TString)) : Prop :=
  zlen hash = size /\
  forall i o ts, znth hash i = Some o -> ts ∈ o -> lmod (ts_hash ts) size = i.

Lemma concat_zupd {A} (l : list (list A)) i o x :
  znth l i = Some o -> concat (zupd i (x :: o) l) ≡ₚ x :: concat l.
Proof.
  unfold znth, zupd. destruct (i <? 0); [done|]. generalize (Z.to_nat i) as n.
  induction l as [|o' l IH]; intros [|n] H; simplify_eq/=; [done|].
  rewrite (IH n H). by rewrite Permutation_middle.
Qed.

Lemma bucket_ok_push k ts hash :
  0 <= k <= 31 -> bucket_ok (2 ^ k) hash ->
  exists chain, znth hash (lmod (ts_hash ts) (2 ^ k)) = Some chain /\
    bucket_ok (2 ^ k) (zupd (lmod (ts_hash ts) (2 ^ k)) (ts :: chain) hash).
Proof.
  intros Hk [Hl Hb]. set (i := lmod (ts_hash ts) (2 ^ k)).
  assert (Hi : 0 <= i < zlen hash).
  { unfold i. rewrite lmod_spec, Hl by done. apply Z.mod_pos_bound. lia. }
  destruct (znth_is_Some hash i Hi) as [chain Hc]. exists chain. split; [done|].
  split; [by rewrite zlen_zupd|]. intros j o t Ho Ht.
  destruct (decide (i = j)) as [<-|Hne].
  - rewrite znth_zupd_eq in Ho by done. simplify_eq.
    apply elem_of_cons in Ht as [->|Ht]; [done|by eapply Hb].
  - rewrite znth_zupd_ne in Ho by done. by eapply Hb.
Qed.

Lemma rehash_chain_spec k p newhash :
  0 <= k <= 31 -> bucket_ok (2 ^ k) newhash ->
  exists newhash', rehash_chain (2 ^ k) p newhash = Ok newhash' /\
    bucket_ok (2 ^ k) newhash' /\ concat newhash' ≡ₚ p ++ concat newhash.
Proof.
  intros Hk. revert newhash. induction p as [|ts p IH]; intros nh Hb; cbn [rehash_chain].
  - by eexists.
  - destruct (bucket_ok_push k ts nh Hk Hb) as (chain & Hc & Hb'). rewrite Hc.
    cbn [of_option mbind result_bind].
    destruct (IH _ Hb') as (nh' & Hr & Hok & Hp). exists nh'. split_and!; [done|done|].
    rewrite Hp, (concat_zupd _ _ _ _ Hc). cbn. by rewrite Permutation_middle.
Qed.

Lemma rehash_all_spec k hash newhash :
  0 <= k <= 31 -> bucket_ok (2 ^ k) newhash ->
  exists newhash', rehash_all (2 ^ k) hash newhash = Ok newhash' /\
    bucket_ok (2 ^ k) newhash' /\ concat newhash' ≡ₚ concat hash ++ concat newhash.
Proof.
  intros Hk. revert newhash. induction hash as [|p hash IH]; intros nh Hb; cbn [rehash_all].
  - by eexists.
  - destruct (rehash_chain_spec k p nh Hk Hb) as (nh1 & -> & Hb1 & Hp1).
    cbn [mbind result_bind]. destruct (IH _ Hb1) as (nh2 & -> & Hb2 & Hp2).
    exists nh2. split_and!; [done|done|]. rewrite Hp2, Hp1. cbn.
    rewrite !(assoc_L (++)). f_equiv. apply Permutation_app_comm.
Qed.

Lemma bucket_ok_empty k : 0 <= k <= 31 ->
  bucket_ok (2 ^ k) (replicate (Z.to_nat (2 ^ k)) []) /\
  concat (replicate (Z.to_nat (2 ^ k)) ([] : list TString)) = [].
Proof.
  intros Hk. split; [split|].
  - unfold zlen. rewrite length_replicate. lia.
  - intros i o ts H%znth_elem. apply elem_of_replicate in H as [-> _].
    by intros ?%elem_of_nil.
  - induction (Z.to_nat (2 ^ k)); done.
Qed.

(** ** The invariant of the table *)

Definition entries (g : global_State) : list TString := concat (st_hash (g_strt g)).

Record strt_ok (g : global_State) : Prop := {
  so_size : exists k, 0 <= k <= 30 /\ st_size (g_strt g) = 2 ^ k;
  so_bucket : bucket_ok (st_size (g_strt g)) (st_hash (g_strt g));
  so_hash : Forall (fun ts => luaS_hash (ts_str ts) (ts_len ts) = Ok (ts_hash ts)) (entries g);
  so_next : Forall (fun ts => ts_addr ts < g_next g) (entries g);
  so_str : NoDup (ts_str <$> entries g);
  so_addr : NoDup (ts_addr <$> entries g);
  so_nuse : st_nuse (g_strt g) = u32 (zlen (entries g));
}.

(** The string [s] is the object at [a]. *)
Definition interned (g : global_State) (s : bytes) (a : Z) : Prop :=
  exists ts, ts ∈ entries g /\ ts_str ts = s /\ ts_addr ts = a.

Lemma interned_entry g s a :
  interned g s a <-> (s, a) ∈ ((fun ts => (ts_str ts, ts_addr ts)) <$> entries g).
Proof.
  unfold interned. rewrite list_elem_of_fmap. split.
  - intros (ts & H & <- & <-). eauto.
  - intros (ts & [= -> ->] & H). eauto.
Qed.

Lemma interned_perm g g' :
  (fun ts => (ts_str ts, ts_addr ts)) <$> entries g' ≡ₚ
    (fun ts => (ts_str ts, ts_addr ts)) <$> entries g ->
  forall s a, interned g' s a <-> interned g s a.
Proof. intros H s a. by rewrite !interned_entry, H. Qed.

Lemma interned_mem n g s a : interned (set_totalbytes n g) s a <-> interned g s a.
Proof. done. Qed.

Lemma strt_ok_mem n g : strt_ok g -> strt_ok (set_totalbytes n g).
Proof. by intros []. Qed.

Lemma NoDup_fmap_elem {A B} (f : A -> B) (l : list A) x y :
  NoDup (f <$> l) -> x ∈ l -> y ∈ l -> f x = f y -> x = y.
Proof.
  intros Hnd Hx Hy Hf. apply list_elem_of_lookup in Hx as [i Hi], Hy as [j Hj].
  assert (i = j) as ->; [|congruence].
  eapply NoDup_lookup; [exact Hnd|by rewrite list_lookup_fmap, Hi|].
  by rewrite list_lookup_fmap, Hj, Hf.
Qed.

(** ** The operations *)

Section strings_spec.
Context `{Krealloc}.

(** How the state may differ after a call that interns nothing new. *)
Definition same_strings (g g' : global_State) : Prop :=
  (forall s a, interned g' s a <-> interned g s a) /\
  g_next g' = g_next g /\ g_currentwhite g' = g_currentwhite g /\ g_gcstate g' = g_gcstate g.

Lemma same_strings_mem n g : same_strings g (set_totalbytes n g).
Proof. done. Qed.

(** The invariant only sees the table up to the order of its entries. *)
Lemma strt_ok_perm g tb :
  strt_ok g ->
  (exists k, 0 <= k <= 30 /\ st_size tb = 2 ^ k) ->
  bucket_ok (st_size tb) (st_hash tb) -> st_nuse tb = st_nuse (g_strt g) ->
  concat (st_hash tb) ≡ₚ entries g ->
  strt_ok (set_strt tb g) /\ same_strings g (set_strt tb g).
Proof.
  intros [_ _ Hh Hn Hs Ha Hu] Hk Hb Hnuse Hp. split.
  - split; cbn; unfold entries in *; cbn; rewrite ?Hp; try done.
    rewrite Hnuse, Hu. unfold zlen. by rewrite Hp.
  - split; [|done]. apply interned_perm. unfold entries at 1. cbn. by rewrite Hp.
Qed.

Lemma luaS_resize_spec k g :
  strt_ok g -> 0 <= k <= 30 ->
  exists r g', luaS_resize (2 ^ k) g = (r, g') /\ (r = Ok tt \/ (r = Err ErrMem /\ ~ ReliableAlloc)) /\
    strt_ok g' /\ same_strings g g' /\
    (r = Ok tt -> g_gcstate g <> GCSsweepstring -> st_size (g_strt g') = 2 ^ k).
Proof.
  intros Hok Hk.
  assert (Hpow : 1 <= 2 ^ k <= 2 ^ 30).
  { split; [change 1 with (2 ^ 0); apply Z.pow_le_mono_r; lia|apply Z.pow_le_mono_r; lia]. }
  unfold luaS_resize. m_simpl.
  destruct (g_gcstate g =? GCSsweepstring) eqn:Egc; b2p.
  { exists (Ok tt), g. split_and!; auto; [by split|]. congruence. }
  unfold luaM_newvector. rewrite luaM_reallocv_fits by (unfold sizeof_ptr; lia).
  destruct (luaM_realloc_ _ _ g) as [[u|e] g1] eqn:E1.
  - apply luaM_realloc_Ok in E1 as ->. set (n1 := u64 _).
    destruct (bucket_ok_empty k) as [Hb0 Hc0]; [lia|].
    destruct (rehash_all_spec k (st_hash (g_strt g)) _ ltac:(lia) Hb0) as (nh & Hnh & Hb & Hp).
    change (g_strt (set_totalbytes n1 g)) with (g_strt g). rewrite Hnh.
    rewrite Hc0, app_nil_r in Hp.
    unfold luaM_freearray. rewrite luaM_reallocv_fits by (unfold sizeof_ptr; lia).
    destruct (luaM_realloc_ _ _ (set_totalbytes n1 g)) as [[u'|e'] g2] eqn:E2.
    + apply luaM_realloc_Ok in E2 as ->.
      match goal with |- context [set_totalbytes ?n (set_totalbytes n1 g)] => set (n2 := n) end.
      set (tb := mkStringtable nh (st_nuse (g_strt g)) (2 ^ k)).
      destruct (strt_ok_perm (set_totalbytes n2 (set_totalbytes n1 g)) tb) as [Hok' Hs'];
        [by repeat apply strt_ok_mem|by exists k|done..|].
      eexists _, _. split; [reflexivity|]. split_and!; auto.
    + apply luaM_realloc_Err in E2 as (_ & _ & Habs & _). done.
  - apply luaM_realloc_Err in E1 as (-> & -> & _ & Hrel).
    exists (Err ErrMem), g. split_and!; auto; [by split|done].
Qed.

(** A new string is pushed on its chain. *)
Lemma strt_ok_push g ts chain :
  strt_ok g -> ts_addr ts = g_next g ->
  luaS_hash (ts_str ts) (ts_len ts) = Ok (ts_hash ts) ->
  (forall a, ~ interned g (ts_str ts) a) ->
  let i := lmod (ts_hash ts) (st_size (g_strt g)) in
  let g1 := set_strt (mkStringtable (zupd i (ts :: chain) (st_hash (g_strt g)))
               (u32 (st_nuse (g_strt g) + 1)) (st_size (g_strt g)))
               (set_next (g_next g + 1) g) in
  znth (st_hash (g_strt g)) i = Some chain ->
  strt_ok g1 /\ entries g1 ≡ₚ ts :: entries g.
Proof.
  intros [(k & Hk & Hsz) Hb Hh Hn Hs Ha Hu] Haddr Hhash Hnew i g1 Hc.
  assert (Hp : entries g1 ≡ₚ ts :: entries g) by by apply concat_zupd.
  split; [|done]. split; cbn [g1 g_strt set_strt st_size st_hash st_nuse g_next set_next].
  - by exists k.
  - destruct (bucket_ok_push k ts (st_hash (g_strt g))) as (c & Hc' & Hb');
      [lia|by rewrite <-Hsz|].
    rewrite <-Hsz in Hc', Hb'. fold i in Hc', Hb'. by simplify_eq.
  - rewrite Hp. by constructor.
  - rewrite Hp. constructor; [lia|]. eapply Forall_impl; [exact Hn|]. cbn. lia.
  - rewrite Hp. cbn. constructor; [|done]. intros (t & Ht & Hin)%list_elem_of_fmap.
    apply (Hnew (ts_addr t)). by exists t.
  - rewrite Hp. cbn. constructor; [|done]. intros (t & Ht & Hin)%list_elem_of_fmap.
    apply (proj1 (Forall_forall _ _) Hn) in Hin. cbn in Hin. lia.
  - rewrite Hu. unfold zlen. rewrite Hp. cbn [length]. unfold uwrap.
    rewrite Zplus_mod_idemp_l. f_equal. lia.
Qed.

Lemma find_str_Some str l o ts :
  find_str str l o = Some ts -> ts ∈ o /\ ts_str ts = str.
Proof.
  induction o as [|t o IH]; cbn; [done|]. case_if.
  - intros [= ->]. split; [by left|done].
  - intros [? ?]%IH. split; [by right|done].
Qed.

Lemma find_str_None str o ts :
  find_str str (zlen str) o = None -> ts ∈ o -> ts_str ts <> str.
Proof.
  induction o as [|t o IH]; cbn; [by intros _ ?%elem_of_nil|].
  destruct (decide (str = ts_str t)) as [->|Hne].
  - unfold ts_len. by rewrite Z.eqb_refl, bool_decide_true.
  - rewrite bool_decide_false, andb_false_r by done.
    intros Hf [->|Hin]%elem_of_cons; auto.
Qed.

(** A string is searched in the only chain it can be in. *)
Lemma entries_chain g i o str h ts :
  strt_ok g -> luaS_hash str (zlen str) = Ok h -> i = lmod h (st_size (g_strt g)) ->
  znth (st_hash (g_strt g)) i = Some o -> ts ∈ entries g -> ts_str ts = str -> ts ∈ o.
Proof.
  intros Hok Hh -> Ho Hin Hs. pose proof (so_bucket g Hok) as [_ Hb].
  pose proof (proj1 (Forall_forall _ _) (so_hash g Hok) ts Hin) as Hts. cbv beta in Hts.
  unfold ts_len in Hts. rewrite Hs, Hh in Hts. injection Hts as ->.
  unfold entries in Hin. apply list_elem_of_In, in_concat in Hin as (o' & Ho' & Hin).
  apply list_elem_of_In in Ho', Hin.
  apply list_elem_of_lookup in Ho' as [j Hj].
  assert (Hj' : znth (st_hash (g_strt g)) (Z.of_nat j) = Some o').
  { unfold znth. destruct (Z.ltb_spec (Z.of_nat j) 0); [lia|]. by rewrite Nat2Z.id. }
  pose proof (Hb _ _ _ Hj' Hin) as Hl. rewrite <-Hl in Hj'. congruence.
Qed.
(** *** Marks *)

Lemma isdead_bits g m :
  isdead g m = negb (Z.land (Z.land m 3) (Z.lxor (Z.land (g_currentwhite g) 3) 3) =? 0).
Proof.
  unfold isdead, otherwhite. change WHITEBITS with 3. do 2 f_equal.
  apply Z.bits_inj'. intros j Hj. rewrite !Z.land_spec, !Z.lxor_spec, !Z.land_spec.
  destruct (Z.testbit m j), (Z.testbit (g_currentwhite g) j), (Z.testbit 3 j); done.
Qed.

Definition white_ok (g : global_State) : Prop :=
  Z.land (g_currentwhite g) 3 = 1 \/ Z.land (g_currentwhite g) 3 = 2.

Lemma land_3_cases m : Z.land m 3 = 0 \/ Z.land m 3 = 1 \/ Z.land m 3 = 2 \/ Z.land m 3 = 3.
Proof.
  change 3 with (2 ^ 2 - 1). rewrite land_ones_mod by lia.
  pose proof (Z.mod_pos_bound m (2 ^ 2) ltac:(lia)). lia.
Qed.

Lemma isdead_white g : white_ok g -> isdead g (luaC_white g) = false.
Proof.
  intros Hw. rewrite isdead_bits. unfold luaC_white. change WHITEBITS with 3.
  rewrite <-Z.land_assoc. change (Z.land 3 3) with 3. by destruct Hw as [-> | ->].
Qed.

Lemma isdead_changewhite g ts :
  white_ok g -> isdead g (ts_marked ts) = true -> isdead g (ts_marked (changewhite ts)) = false.
Proof.
  intros Hw. rewrite !isdead_bits. cbn [changewhite ts_marked]. change WHITEBITS with 3.
  assert (Hx : Z.land (Z.lxor (ts_marked ts) 3) 3 = Z.lxor (Z.land (ts_marked ts) 3) 3).
  { apply Z.bits_inj'. intros j Hj. rewrite !Z.land_spec, !Z.lxor_spec, !Z.land_spec.
    by destruct (Z.testbit (ts_marked ts) j), (Z.testbit 3 j). }
  rewrite Hx. destruct Hw as [-> | ->];
    destruct (land_3_cases (ts_marked ts)) as [-> | [-> | [-> | ->]]]; done.
Qed.

(** A dead string that is found is made white in place: same object. *)
Lemma strt_ok_recolour g i o a :
  strt_ok g -> znth (st_hash (g_strt g)) i = Some o ->
  let g1 := set_strt (mkStringtable (zupd i (update_ts a changewhite o) (st_hash (g_strt g)))
               (st_nuse (g_strt g)) (st_size (g_strt g))) g in
  strt_ok g1 /\ same_strings g g1.
Proof.
  intros [Hk [Hl Hb] Hh Hn Hs Ha Hu] Ho g1.
  assert (Hmap : forall {B} (f : TString -> B), (forall t, f (changewhite t) = f t) ->
            f <$> entries g1 = f <$> entries g).
  { intros B f Hf. unfold entries, g1. cbn. unfold zupd, znth in *.
    destruct (i <? 0); [done|]. revert Ho. generalize (Z.to_nat i) as n.
    generalize (st_hash (g_strt g)) as l.
    induction l as [|o' l IH]; intros [|n] Ho; simplify_eq/=; [|rewrite !fmap_app, (IH n Ho); done].
    rewrite !fmap_app. f_equal. unfold update_ts. rewrite <-list_fmap_compose.
    apply list_fmap_ext. intros _ t _. cbn. case_if; [apply Hf|done]. }
  set (key := fun t => (ts_str t, ts_hash t, ts_addr t)).
  assert (Hkey : key <$> entries g1 = key <$> entries g) by by apply Hmap.
  assert (Hall : forall Q : bytes * Z * Z -> Prop,
            Forall (Q ∘ key) (entries g) -> Forall (Q ∘ key) (entries g1)).
  { intros Q HQ. apply Forall_fmap. rewrite Hkey. by apply Forall_fmap. }
  split.
  - split; [done| |..].
    + split; cbn; [by rewrite zlen_zupd|]. intros j o' t Ho' Ht.
      destruct (decide (i = j)) as [<-|Hne].
      * rewrite znth_zupd_eq in Ho' by (by eapply znth_Some_lt). simplify_eq.
        unfold update_ts in Ht. apply list_elem_of_fmap in Ht as (t' & -> & Ht').
        rewrite <-(Hb _ _ _ Ho Ht'). by case_if.
      * rewrite znth_zupd_ne in Ho' by done. by eapply Hb.
    + exact (Hall (fun '(s, h, _) => luaS_hash s (zlen s) = Ok h) Hh).
    + exact (Hall (fun '(_, _, a) => a < g_next g) Hn).
    + rewrite Hmap; done.
    + rewrite Hmap; done.
    + cbn. rewrite Hu. unfold zlen. do 2 f_equal.
      rewrite <-(length_fmap ts_str (entries g)), <-(Hmap _ ts_str), length_fmap; done.
  - split; [|done]. apply interned_perm. by rewrite Hmap.
Qed.

(** *** Making and finding strings *)

(** What the caller of [luaS_newlstr str] gets. *)
Definition newlstr_post (str : bytes) (g : global_State) (r : result TString)
    (g' : global_State) : Prop :=
  strt_ok g' /\ (white_ok g -> white_ok g') /\
  match r with
  | Ok ts => ts_str ts = str /\ interned g' str (ts_addr ts) /\
      (forall a, interned g str a -> ts_addr ts = a) /\
      (forall s a, s <> str -> (interned g' s a <-> interned g s a)) /\
      (white_ok g -> isdead g' (ts_marked ts) = false)
  | Err e => e = ErrMem /\ ~ ReliableAlloc /\ forall s a, interned g s a -> interned g' s a
  end.

Lemma newlstr_spec str h g :
  strt_ok g -> luaS_hash str (zlen str) = Ok h -> zlen str < 2 ^ 63 ->
  (forall a, ~ interned g str a) ->
  exists r g', newlstr str (zlen str) h g = (r, g') /\ newlstr_post str g r g'.
Proof.
  intros Hok Hh Hlen Hnew. unfold newlstr.
  assert (Hl : u64 (zlen str + 1) = zlen str + 1).
  { apply uwrap_small. pose proof (zlen_nonneg str). unfold in_u. lia. }
  rewrite Hl. destruct (zlen str + 1 >? _) eqn:Ebig; b2p.
  { unfold MAX_SIZET, sizeof_TString in Ebig. lia. }
  unfold luaM_malloc. m_simpl.
  match goal with |- context [luaM_realloc_ ?a ?b g] =>
    destruct (luaM_realloc_ a b g) as [[u|e] g0] eqn:E1 end.
  2:{ apply luaM_realloc_Err in E1 as (-> & -> & _ & Hrel).
      exists (Err ErrMem), g. split; [done|split_and!; auto]. }
  apply luaM_realloc_Ok in E1 as ->.
  match goal with |- context [set_totalbytes ?x g] => set (n := x) end.
  change (g_strt (set_totalbytes n g)) with (g_strt g).
  change (g_next (set_totalbytes n g)) with (g_next g).
  change (luaC_white (set_totalbytes n g)) with (luaC_white g).
  set (ts := mkTString (g_next g) h (luaC_white g) str).
  destruct (so_size g Hok) as (k & Hk & Hsz).
  destruct (bucket_ok_push k ts (st_hash (g_strt g))) as (chain & Hc & _);
    [lia|rewrite <-Hsz; apply (so_bucket g Hok)|]. rewrite <-Hsz in Hc.
  change (ts_hash ts) with h in Hc. rewrite Hc. cbn [of_option].
  destruct (strt_ok_push (set_totalbytes n g) ts chain) as [Hok1 Hp]; [by apply strt_ok_mem|done..|].
  match type of Hok1 with strt_ok ?x => set (g1 := x) in * end.
  assert (Hints : forall s a, interned g1 s a <-> (s, a) = (str, g_next g) \/ interned g s a).
  { intros s a. rewrite !interned_entry, Hp, fmap_cons, elem_of_cons. done. }
  assert (Hpost : forall g', strt_ok g' -> same_strings g1 g' -> newlstr_post str g (Ok ts) g').
  { intros g' Hok' (Hi & _ & Hcw & _). change (g_currentwhite g1) with (g_currentwhite g) in Hcw.
    split_and!; [done|unfold white_ok; by rewrite Hcw|done|apply Hi, Hints; by left|..].
    - intros a Ha. by destruct (Hnew a).
    - intros s a Hs. rewrite Hi, Hints. split; [by intros [[=]|]|by right].
    - intros Hw. rewrite <-(isdead_white g Hw). unfold isdead, otherwhite. by rewrite Hcw. }
  case_if.
  - destruct (luaS_resize_spec (k + 1) g1 Hok1) as (r & g' & Hr & Hor & Hok' & Hs' & _).
    { rewrite Hsz in *. unfold MAX_INT in *. split; [lia|].
      destruct (decide (k <= 29)); [lia|]. exfalso.
      assert (k = 30) as -> by lia. vm_compute in H1. done. }
    replace (2 ^ (k + 1)) with (st_size (g_strt g) * 2) in Hr
      by (rewrite Hsz, Z.pow_add_r by lia; done).
    change (luaS_resize (st_size (g_strt g) * 2) g1 = (r, g')) in Hr.
    match goal with |- context [luaS_resize ?a ?b] =>
      change (luaS_resize a b) with (luaS_resize (st_size (g_strt g) * 2) g1) end.
    rewrite Hr. destruct Hor as [-> | [-> Hrel]].
    + exists (Ok ts), g'. split; [done|]. by apply Hpost.
    + exists (Err ErrMem), g'. split; [done|]. destruct Hs' as (Hi & _ & Hcw & _).
      split_and!; [done|unfold white_ok; by rewrite Hcw|done|done|].
      intros s a Hs. apply Hi, Hints. by right.
  - exists (Ok ts), g1. split; [done|]. apply Hpost; [done|by split].
Qed.

Lemma luaS_newlstr_spec str g :
  strt_ok g -> wf_bytes str -> zlen str < 2 ^ 63 ->
  exists r g', luaS_newlstr str g = (r, g') /\ newlstr_post str g r g'.
Proof.
  intros Hok Hw Hlen. unfold luaS_newlstr.
  destruct (luaS_hash_Ok str Hw) as (h & Hh & _). rewrite Hh. m_simpl.
  destruct (so_size g Hok) as (k & Hk & Hsz). destruct (so_bucket g Hok) as [Hl Hb].
  destruct (znth_is_Some (st_hash (g_strt g)) (lmod h (st_size (g_strt g)))) as [o Ho].
  { rewrite Hl, Hsz, lmod_spec by lia. apply Z.mod_pos_bound. lia. }
  rewrite Ho. cbn [of_option].
  destruct (find_str str (zlen str) o) as [ts|] eqn:Hf.
  - apply find_str_Some in Hf as [Hin Hs].
    assert (Hent : ts ∈ entries g).
    { apply list_elem_of_In, in_concat. exists o. split; apply list_elem_of_In; [|done].
      by eapply znth_elem. }
    assert (Hint : interned g str (ts_addr ts)) by (by exists ts).
    assert (Huniq : forall a, interned g str a -> ts_addr ts = a).
    { intros a (t & Ht & Hts & <-). f_equal. rewrite <-Hs in Hts.
      by apply (NoDup_fmap_elem ts_str (entries g) _ _ (so_str g Hok)). }
    case_if.
    + destruct (strt_ok_recolour g _ o (ts_addr ts) Hok Ho) as [Hok1 (Hi & Hnx & Hcw & Hgc)].
      eexists _, _. split; [reflexivity|]. split_and!; [done..|by apply Hi|done|auto|].
      intros Hwh. rewrite <-(isdead_changewhite g ts Hwh E). done.
    + exists (Ok ts), g. by split_and!.
  - apply newlstr_spec; try done. intros a (t & Ht & Hts & _).
    eapply find_str_None; [exact Hf| |exact Hts].
    by eapply (entries_chain g _ o str h).
Qed.
End strings_spec.

(** ** The contract of the string table *)

Lemma interned_inj g s1 s2 a : strt_ok g -> interned g s1 a -> interned g s2 a -> s1 = s2.
Proof.
  intros Hok (t1 & H1 & <- & <-) (t2 & H2 & <- & Ha).
  by rewrite (NoDup_fmap_elem ts_addr (entries g) _ _ (so_addr g Hok) H2 H1 Ha).
Qed.

(** C20: Interning: whatever the table holds, two strings made one after the
    other are the same object exactly when they have the same bytes; the
    table stays well formed across both calls, growth included. *)
Theorem luaS_newlstr_interning `{Krealloc} g s1 s2 t1 t2 g1 g2 :
  strt_ok g -> wf_bytes s1 -> wf_bytes s2 -> zlen s1 < 2 ^ 63 -> zlen s2 < 2 ^ 63 ->
  luaS_newlstr s1 g = (Ok t1, g1) -> luaS_newlstr s2 g1 = (Ok t2, g2) ->
  strt_ok g2 /\ (ts_addr t1 = ts_addr t2 <-> s1 = s2).
Proof.
  intros Hok Hw1 Hw2 Hl1 Hl2 E1 E2.
  destruct (luaS_newlstr_spec s1 g Hok Hw1 Hl1) as (r1 & g1' & E1' & Hp1).
  rewrite E1 in E1'. simplify_eq. destruct Hp1 as (Hok1 & _ & _ & Hi1 & _).
  destruct (luaS_newlstr_spec s2 g1' Hok1 Hw2 Hl2) as (r2 & g2' & E2' & Hp2).
  rewrite E2 in E2'. simplify_eq. destruct Hp2 as (Hok2 & _ & _ & Hi2 & Hsame & Hfr & _).
  split; [done|]. split.
  - intros Ha. destruct (decide (s1 = s2)) as [|Hne]; [done|].
    apply (interned_inj g2' s1 s2 (ts_addr t2) Hok2); [|done].
    apply Hfr; [done|]. by rewrite <-Ha.
  - intros ->. symmetry. by apply Hsame.
Qed.

(** luaS_newlstr always ends in one of two ways: it returns a string with
    the bytes asked for, that is in the table and not dead, and every other
    string keeps its object; or it fails for lack of memory, and no string is
    lost.  The table is well formed after both. *)
Theorem luaS_newlstr_post `{Krealloc} str g :
  strt_ok g -> white_ok g -> wf_bytes str -> zlen str < 2 ^ 63 ->
  exists r g', luaS_newlstr str g = (r, g') /\ strt_ok g' /\ white_ok g' /\
    match r with
    | Ok ts => ts_str ts = str /\ interned g' str (ts_addr ts) /\
        isdead g' (ts_marked ts) = false /\
        (forall s a, s <> str -> (interned g' s a <-> interned g s a))
    | Err e => e = ErrMem /\ ~ ReliableAlloc /\ forall s a, interned g s a -> interned g' s a
    end.
Proof.
  intros Hok Hwh Hw Hl. destruct (luaS_newlstr_spec str g Hok Hw Hl) as (r & g' & E & Hok' & Hwh' & Hp).
  exists r, g'. split_and!; auto. destruct r; [|done].
  destruct Hp as (? & ? & ? & ? & ?). split_and!; auto.
Qed.

(** Resizing the table (it is skipped while the collector sweeps it) keeps
    every string at its address, rehashes each into the chain of its hash, and
    a failed allocation leaves the table as it was. *)
Theorem luaS_resize_keeps `{Krealloc} k g :
  strt_ok g -> 0 <= k <= 30 ->
  exists r g', luaS_resize (2 ^ k) g = (r, g') /\ (r = Ok tt \/ (r = Err ErrMem /\ ~ ReliableAlloc)) /\
    strt_ok g' /\ (forall s a, interned g' s a <-> interned g s a) /\
    (r = Ok tt -> g_gcstate g <> GCSsweepstring -> st_size (g_strt g') = 2 ^ k).
Proof.
  intros Hok Hk. destruct (luaS_resize_spec k g Hok Hk) as (r & g' & E & Hr & Hok' & [Hi _] & Hs).
  exists r, g'. by split_and!.
Qed.

(** *** A table of one chain that has to grow *)

Definition tiny_state : global_State :=
  mkGlobal 100 (mkStringtable [[]; []] 0 2) 33 GCSpause 1000.

Lemma tiny_state_ok : strt_ok tiny_state.
Proof.
  split; cbn; try by constructor.
  - by exists 1.
  - split; [done|]. intros i o ts H%znth_elem. repeat (apply elem_of_cons in H as [->|H]);
      by intros ?%elem_of_nil || by apply elem_of_nil in H.
Qed.

Lemma luaS_newlstr_interning_witness :
  let s := bytes_of_string "print" in
  exists t1 t2 g1 g2,
    luaS_newlstr (H := krealloc_always) s tiny_state = (Ok t1, g1) /\
    luaS_newlstr (H := krealloc_always) s g1 = (Ok t2, g2) /\
    strt_ok g2 /\ (ts_addr t1 = ts_addr t2 <-> s = s).
Proof.
  cbv zeta. eexists _, _, _, _.
  split; [vm_compute; reflexivity|]. split; [vm_compute; reflexivity|].
  eapply (luaS_newlstr_interning (H := krealloc_always) tiny_state
    (bytes_of_string "print") (bytes_of_string "print")).
  - apply tiny_state_ok.
  - apply bytes_of_string_wf.
  - apply bytes_of_string_wf.
  - vm_compute; reflexivity.
  - vm_compute; reflexivity.
  - vm_compute; reflexivity.
  - vm_compute; reflexivity.
Defined.

Lemma luaS_newlstr_post_witness :
  exists r g', luaS_newlstr (H := krealloc_always) (bytes_of_string "x") tiny_state = (r, g') /\
    strt_ok g' /\ white_ok g' /\
    match r with
    | Ok ts => ts_str ts = bytes_of_string "x" /\ interned g' (bytes_of_string "x") (ts_addr ts) /\
        isdead g' (ts_marked ts) = false /\
        (forall s a, s <> bytes_of_string "x" -> (interned g' s a <-> interned tiny_state s a))
    | Err e => e = ErrMem /\ ~ ReliableAlloc (H := krealloc_always) /\
        forall s a, interned tiny_state s a -> interned g' s a
    end.
Proof.
  apply (luaS_newlstr_post (H := krealloc_always) (bytes_of_string "x") tiny_state).
  - apply tiny_state_ok.
  - left. vm_compute. reflexivity.
  - apply bytes_of_string_wf.
  - vm_compute; reflexivity.
Defined.

Lemma luaS_resize_keeps_witness :
  exists r g', luaS_resize (H := krealloc_always) (2 ^ 5) tiny_state = (r, g') /\
    (r = Ok tt \/ (r = Err ErrMem /\ ~ ReliableAlloc (H := krealloc_always))) /\
    strt_ok g' /\ (forall s a, interned g' s a <-> interned tiny_state s a) /\
    (r = Ok tt -> g_gcstate tiny_state <> GCSsweepstring -> st_size (g_strt g') = 2 ^ 5).
Proof.
  apply (luaS_resize_keeps (H := krealloc_always) 5 tiny_state); [apply tiny_state_ok|lia].
Defined.
