(* ===== verification/Do.v ===== *)
(** * Do.v: the Lua stack (ldo.h, ldo.c)

    A thread's stack as the engine sizes it: [stacksize] cells are allocated,
    the last [EXTRA_STACK + 1] of them reserved, and [top] is the index of the
    first free one.  Indices replace the pointers that [correctstack] adjusts
    after a reallocation. *)

From S2P Require Import Prelude Machine Object Mem Str.

Definition EXTRA_STACK : Z := 5.

Record lua_State := mkState {
  l_G : global_State;
  L_top : Z;
  L_stacksize : Z;
  L_nCcalls : Z;
}.

Definition set_G (g : global_State) (L : lua_State) : lua_State :=
  mkState g (L_top L) (L_stacksize L) (L_nCcalls L).
Definition set_top (n : Z) (L : lua_State) : lua_State :=
  mkState (l_G L) n (L_stacksize L) (L_nCcalls L).
Definition set_stacksize (n : Z) (L : lua_State) : lua_State :=
  mkState (l_G L) (L_top L) n (L_nCcalls L).
Definition set_nCcalls (n : Z) (L : lua_State) : lua_State :=
  mkState (l_G L) (L_top L) (L_stacksize L) n.

#[export] Instance state_HasMem : HasMem lua_State := {|
  totalbytes L := totalbytes (l_G L);
  set_totalbytes n L := set_G (set_totalbytes n (l_G L)) L;
|}.
#[export] Instance state_HasMemLaws : HasMemLaws lua_State.
Proof. split; [done..|]. by intros [[]]. Qed.

(** A function of the global state, run on a thread. *)
Definition onG {A} (m : M global_State A) : M lua_State A := fun L =>
  let '(r, g) := m (l_G L) in (r, set_G g L).

(** [L->stack_last - L->stack]. *)
Definition L_stack_last (L : lua_State) : Z := L_stacksize L - EXTRA_STACK - 1.

Section stack.
Context `{Krealloc}.

Definition luaD_reallocstack (newsize : Z) : M lua_State unit :=
  L ← get;
  let realsize := newsize + 1 + EXTRA_STACK in
  luaM_reallocv (L_stacksize L) realsize sizeof_TValue;;
  modify (set_stacksize realsize).

Definition luaD_growstack (n : Z) : M lua_State unit :=
  L ← get;
  if n <=? L_stacksize L  (* double size is enough? *)
  then luaD_reallocstack (2 * L_stacksize L)
  else luaD_reallocstack (L_stacksize L + n).

Definition luaD_checkstack (n : Z) : M lua_State unit :=
  L ← get;
  when (L_stack_last L - L_top L <=? n) (luaD_growstack n).

Definition incr_top : M lua_State unit :=
  luaD_checkstack 1;; modify (fun L => set_top (L_top L + 1) L).
End stack.

(** ** Lemmas *)

(** The cells in use are below the reserved ones. *)
Definition stack_ok (L : lua_State) : Prop :=
  0 <= L_top L <= L_stack_last L /\ L_stacksize L < 2 ^ 29.

Section stack_lemmas.
Context `{Krealloc}.

(** After [luaD_checkstack n] there is room for [n] values and one more;
    the stack is otherwise as it was. *)
Lemma luaD_checkstack_spec n L :
  stack_ok L -> 0 <= n < 2 ^ 29 ->
  exists r L', luaD_checkstack n L = (r, L') /\
    match r with
    | Ok _ => L_top L' = L_top L /\ L_nCcalls L' = L_nCcalls L /\
        (exists b, l_G L' = set_totalbytes b (l_G L)) /\
        n < L_stack_last L' - L_top L' /\
        (L_stacksize L' = L_stacksize L \/
         L_stacksize L <= L_top L + n + EXTRA_STACK + 1 /\
         L_stacksize L' = L_stacksize L + Z.max n (L_stacksize L) + EXTRA_STACK + 1)
    | Err e => e = ErrMem /\ ~ ReliableAlloc /\ L' = L
    end.
Proof.
  intros [Ht Hs] Hn. unfold luaD_checkstack. m_simpl. unfold L_stack_last, EXTRA_STACK in *.
  case_if.
  2:{ exists (Ok tt), L. split; [done|]. split_and!; auto.
      exists (totalbytes (l_G L)). by rewrite set_totalbytes_id. }
  assert (Hr : luaD_growstack n L = luaD_reallocstack (L_stacksize L + Z.max n (L_stacksize L)) L).
  { unfold luaD_growstack. m_simpl. case_if; f_equal; lia. }
  rewrite Hr. unfold luaD_reallocstack. m_simpl. unfold EXTRA_STACK.
  rewrite luaM_reallocv_fits by (unfold sizeof_TValue; lia).
  match goal with |- context [luaM_realloc_ ?a ?b L] =>
    destruct (luaM_realloc_ a b L) as [[u|e] L1] eqn:E1 end.
  - apply luaM_realloc_Ok in E1 as ->. eexists _, _. split; [reflexivity|]. cbn.
    split_and!; auto; [by eexists|lia|right; lia].
  - apply luaM_realloc_Err in E1 as (-> & -> & _ & Hrel).
    by exists (Err ErrMem), L.
Qed.
End stack_lemmas.
