(* ===== verification/Dump.v ===== *)
(** * Dump.v: saving precompiled chunks (ldump.c)

    The dumper walks a prototype and hands blocks of bytes to a [lua_Writer],
    code outside the engine: [writer data b] is the status it returns and its
    new data.  Values are written as they lie in memory on the target: little
    endian, int of 4 bytes, size_t and lua_Number of 8.

    [chunk_function] is the format as a grammar, the list of the blocks of a
    function; the dumper is shown to write exactly these, and lundump.c to
    read them back. *)

From S2P Require Import Prelude Machine Opcodes Object.

(** ** Values in memory *)

Fixpoint le_bytes (n : nat) (x : Z) : bytes :=
  match n with
  | O => []
  | S n => x mod 256 :: le_bytes n (x / 256)
  end.

Fixpoint le_val (b : bytes) : Z :=
  match b with
  | [] => 0
  | c :: b => c + 256 * le_val b
  end.

Definition mem_char (x : Z) : bytes := [u8 x].
Definition mem_int (x : Z) : bytes := le_bytes 4 x.
Definition mem_size_t (x : Z) : bytes := le_bytes 8 x.
Definition mem_Number (x : Z) : bytes := le_bytes 8 x.
Definition mem_Instruction (x : Z) : bytes := le_bytes 4 x.

(** ** The header (luaU_header of lundump.c) *)

Definition LUAC_VERSION : Z := 81.   (* 0x51 *)
Definition LUAC_FORMAT : Z := 0.
Definition LUAC_HEADERSIZE : Z := 12.
Definition LUA_SIGNATURE : bytes := [27; 76; 117; 97].  (* \033Lua *)

Definition luaU_header : bytes :=
  LUA_SIGNATURE ++
  [ LUAC_VERSION; LUAC_FORMAT
  ; 1                    (* the first byte of the int 1 in memory *)
  ; sizeof_int; sizeof_size_t; sizeof_Instruction; sizeof_lua_Number
  ; 1 ].                 (* ((lua_Number)0.5)==0 *)

(** ** The dumper *)

Section dump.
Context {W : Type} (writer : W -> bytes -> Z * W) (strip : bool).

Record DumpState := mkDumpState { d_data : W; d_status : Z }.

Abbreviation D := (M DumpState unit).

Definition DumpBlock (b : bytes) : D := fun s =>
  if d_status s =? 0
  then let '(st, w) := writer (d_data s) b in (Ok tt, mkDumpState w st)
  else (Ok tt, s).

Definition DumpChar (y : Z) : D := DumpBlock (mem_char y).
Definition DumpInt (x : Z) : D := DumpBlock (mem_int x).
Definition DumpNumber (x : Z) : D := DumpBlock (mem_Number x).

(** [DumpVector]: the count, then the array as one block. *)
Definition DumpVector (mem : Z -> bytes) (b : list Z) : D :=
  DumpInt (zlen b);; DumpBlock (b ≫= mem).

Definition DumpString (s : TStr) : D :=
  match s with
  | None => DumpBlock (mem_size_t 0)
  | Some s =>
      let size := u64 (zlen s + 1) in  (* include trailing '\0' *)
      DumpBlock (mem_size_t size);;
      DumpBlock (s ++ [0])
  end.

Definition DumpCode (f : Proto) : D := DumpVector mem_Instruction (pt_code f).

Definition DumpConstant (o : Const) : D :=
  DumpChar (ttype_k o);;
  match o with
  | KNil => mret tt
  | KBoolean b => DumpChar b
  | KNumber n => DumpNumber n
  | KString s => DumpString s
  end.

Definition DumpDebug (f : Proto) : D :=
  DumpVector mem_int (if strip then [] else pt_lineinfo f);;
  let locvars := if strip then [] else pt_locvars f in
  DumpInt (zlen locvars);;
  mfor locvars (fun v =>
    DumpString (varname v);; DumpInt (startpc v);; DumpInt (endpc v));;
  let upvalues := if strip then [] else pt_upvalues f in
  DumpInt (zlen upvalues);;
  mfor upvalues DumpString.

Fixpoint DumpFunction (f : Proto) (p : TStr) {struct f} : D :=
  match f with
  | mkProto source linedefined lastlinedefined nups numparams is_vararg maxstacksize
      code k ps lineinfo locvars upvalues =>
      DumpString (if bool_decide (source = p) || strip then None else source);;
      DumpInt linedefined;;
      DumpInt lastlinedefined;;
      DumpChar nups;;
      DumpChar numparams;;
      DumpChar is_vararg;;
      DumpChar maxstacksize;;
      DumpCode f;;
      (* DumpConstants *)
      DumpInt (zlen k);;
      mfor k DumpConstant;;
      DumpInt (zlen ps);;
      (fix DumpFunctions (ps : list Proto) : D :=
         match ps with
         | [] => mret tt
         | g :: ps => DumpFunction g source;; DumpFunctions ps
         end) ps;;
      DumpDebug f
  end.

Definition DumpHeader : D := DumpBlock luaU_header.

(** The status returned and the writer's data. *)
Definition luaU_dump (f : Proto) (data : W) : Z * W :=
  let '(_, s) := (DumpHeader;; DumpFunction f None) (mkDumpState data 0) in
  (d_status s, d_data s).
End dump.

(** ** The format *)

Definition chunk_string (s : TStr) : list bytes :=
  match s with
  | None => [mem_size_t 0]
  | Some s => [mem_size_t (u64 (zlen s + 1)); s ++ [0]]
  end.

Definition chunk_vector (mem : Z -> bytes) (b : list Z) : list bytes :=
  [mem_int (zlen b); b ≫= mem].

Definition chunk_constant (o : Const) : list bytes :=
  mem_char (ttype_k o) ::
  match o with
  | KNil => []
  | KBoolean b => [mem_char b]
  | KNumber n => [mem_Number n]
  | KString s => chunk_string s
  end.

Definition chunk_locvar (v : LocVar) : list bytes :=
  chunk_string (varname v) ++ [mem_int (startpc v); mem_int (endpc v)].

(** A counted array of items. *)
Definition chunk_list {A} (item : A -> list bytes) (l : list A) : list bytes :=
  mem_int (zlen l) :: (l ≫= item).

Definition chunk_debug (strip : bool) (f : Proto) : list bytes :=
  chunk_vector mem_int (if strip then [] else pt_lineinfo f) ++
  chunk_list chunk_locvar (if strip then [] else pt_locvars f) ++
  chunk_list chunk_string (if strip then [] else pt_upvalues f).

Fixpoint chunk_function (strip : bool) (p : TStr) (f : Proto) {struct f} : list bytes :=
  match f with
  | mkProto source linedefined lastlinedefined nups numparams is_vararg maxstacksize
      code k ps lineinfo locvars upvalues =>
      chunk_string (if bool_decide (source = p) || strip then None else source) ++
      [mem_int linedefined; mem_int lastlinedefined; mem_char nups; mem_char numparams;
       mem_char is_vararg; mem_char maxstacksize] ++
      chunk_vector mem_Instruction code ++
      chunk_list chunk_constant k ++
      (mem_int (zlen ps) :: concat (map (chunk_function strip source) ps)) ++
      chunk_debug strip f
  end.

(** The chunk: the header and the main function. *)
Definition chunk (strip : bool) (f : Proto) : list bytes :=
  luaU_header :: chunk_function strip None f.

(** ** The dumper writes the format *)

Section dump_spec.
Context {W : Type} (writer : W -> bytes -> Z * W) (strip : bool).

(** Hand blocks to the writer until it fails. *)
Fixpoint write_blocks (l : list bytes) (s : @DumpState W) : @DumpState W :=
  match l with
  | [] => s
  | b :: l =>
      if d_status s =? 0
      then let '(st, w) := writer (d_data s) b in write_blocks l (mkDumpState w st)
      else s
  end.

(** The step [m] writes the blocks [l]. *)
Definition writes (m : M (@DumpState W) unit) (l : list bytes) : Prop :=
  forall s, m s = (Ok tt, write_blocks l s).

Lemma write_blocks_failed l s : d_status s <> 0 -> write_blocks l s = s.
Proof. destruct l; cbn; [done|]. by intros ->%Z.eqb_neq. Qed.

Lemma write_blocks_app l1 l2 s :
  write_blocks (l1 ++ l2) s = write_blocks l2 (write_blocks l1 s).
Proof.
  revert s. induction l1 as [|b l1 IH]; intros s; cbn; [done|].
  case_if; [|by rewrite write_blocks_failed].
  destruct (writer (d_data s) b). apply IH.
Qed.

Lemma writes_block b : writes (DumpBlock writer b) [b].
Proof.
  intros s. unfold DumpBlock. cbn. case_if; [|done]. by destruct (writer (d_data s) b).
Qed.

Lemma writes_nil : writes (mret tt) [].
Proof. done. Qed.

Lemma writes_seq m1 m2 l1 l2 : writes m1 l1 -> writes m2 l2 -> writes (m1;; m2) (l1 ++ l2).
Proof.
  intros H1 H2 s. rewrite (bind_ok _ _ _ tt (write_blocks l1 s)) by apply H1.
  by rewrite H2, write_blocks_app.
Qed.

Lemma writes_mfor {A} (l : list A) f item :
  (forall a, writes (f a) (item a)) -> writes (mfor l f) (l ≫= item).
Proof.
  intros H. induction l as [|a l IH]; cbn; [apply writes_nil|by apply writes_seq].
Qed.

Lemma writes_string s : writes (DumpString writer s) (chunk_string s).
Proof. destruct s; [|apply writes_block]. apply (writes_seq _ _ [_] [_]); apply writes_block. Qed.

Lemma writes_vector mem b : writes (DumpVector writer mem b) (chunk_vector mem b).
Proof. apply (writes_seq _ _ [_] [_]); apply writes_block. Qed.

Lemma writes_constant o : writes (DumpConstant writer o) (chunk_constant o).
Proof.
  apply (writes_seq _ _ [_]); [apply writes_block|].
  destruct o; [apply writes_nil|apply writes_block|apply writes_block|apply writes_string].
Qed.

Lemma writes_locvar v :
  writes (DumpString writer (varname v);; DumpInt writer (startpc v);; DumpInt writer (endpc v))
    (chunk_locvar v).
Proof.
  apply writes_seq; [apply writes_string|].
  apply (writes_seq _ _ [_] [_]); apply writes_block.
Qed.

Lemma writes_list {A} f item (l : list A) m rest :
  (forall a, writes (f a) (item a)) -> writes m rest ->
  writes (DumpInt writer (zlen l);; mfor l f;; m) (chunk_list item l ++ rest).
Proof.
  intros Hf Hm. unfold chunk_list. rewrite <-app_comm_cons.
  apply (writes_seq _ _ [_]); [apply writes_block|].
  apply writes_seq; [by apply writes_mfor|done].
Qed.

Lemma writes_debug f : writes (DumpDebug writer strip f) (chunk_debug strip f).
Proof.
  apply writes_seq; [apply writes_vector|]. cbv zeta.
  apply writes_list; [apply writes_locvar|].
  apply (writes_seq _ _ [_]); [apply writes_block|].
  apply writes_mfor, writes_string.
Qed.

Lemma writes_function f p : writes (DumpFunction writer strip f p) (chunk_function strip p f).
Proof.
  revert p. induction f as [f IH] using Proto_nested_ind. intros p.
  destruct f as [source ld lld nups np va ms code k ps li lv uv]. cbn [pt_p] in IH.
  cbn [DumpFunction chunk_function].
  apply writes_seq; [apply writes_string|].
  do 6 (apply (writes_seq _ _ [_]); [apply writes_block|]).
  apply writes_seq; [apply writes_vector|].
  apply writes_list; [apply writes_constant|].
  apply (writes_seq _ _ [_]); [apply writes_block|].
  apply writes_seq; [|apply writes_debug].
  induction IH as [|g ps Hg _ IHps]; [apply writes_nil|by apply writes_seq].
Qed.

Lemma luaU_dump_blocks f data :
  luaU_dump writer strip f data =
    let s := write_blocks (chunk strip f) (mkDumpState data 0) in (d_status s, d_data s).
Proof.
  unfold luaU_dump, chunk.
  assert (H : writes (DumpHeader writer;; DumpFunction writer strip f None)
                ([luaU_header] ++ chunk_function strip None f)).
  { apply writes_seq; [apply writes_block|apply writes_function]. }
  by rewrite (H (mkDumpState data 0)).
Qed.
End dump_spec.

(** When the writer fails on a block, luaU_dump returns its status and
    hands it no further block. *)
Theorem luaU_dump_stops {W} (writer : W -> bytes -> Z * W) strip f data data1 l1 b l2 st data2 :
  chunk strip f = l1 ++ b :: l2 ->
  write_blocks writer l1 (mkDumpState data 0) = mkDumpState data1 0 ->
  writer data1 b = (st, data2) -> st <> 0 ->
  luaU_dump writer strip f data = (st, data2).
Proof.
  intros Hc Hl Hw Hst. rewrite luaU_dump_blocks, Hc. cbv zeta.
  rewrite write_blocks_app, Hl. cbn. rewrite Hw, write_blocks_failed; done.
Qed.

(** *** A function with a nested one *)

Definition sample_fun (ps : list Proto) (code : list Z) (nups : Z) : Proto :=
  mkProto (Some (bytes_of_string "@t")) 0 3 nups 0 2 4 code
    [KNumber (-5); KString (Some (bytes_of_string "x")); KBoolean 1; KNil] ps
    (replicate (length code) 1) [mkLocVar (Some (bytes_of_string "v")) 0 1] [].

Definition sample_main : Proto :=
  sample_fun [sample_fun [] [CREATE_ABC OP_RETURN 0 1 0] 0]
    [CREATE_ABx OP_CLOSURE 0 0; CREATE_ABx OP_SETGLOBAL 0 1; CREATE_ABC OP_RETURN 0 1 0] 0.

(** A writer with room for one block only. *)
Definition one_block (w : list bytes) (b : bytes) : Z * list bytes :=
  if bool_decide (w = []) then (0, [b]) else (7, w).

Lemma luaU_dump_stops_witness :
  luaU_dump one_block false sample_main [] = (7, [luaU_header]).
Proof.
  apply (luaU_dump_stops one_block false sample_main [] [luaU_header] [luaU_header]
           (mem_size_t 3) (drop 2 (chunk false sample_main))); done.
Defined.
