(* ===== verification/Undump.v ===== *)
(** * Undump.v: loading precompiled chunks (lundump.c)

    The loader reads a stream that anyone may have written.  A [LoadState]
    has the thread it allocates for, the stream and the size of the scratch
    buffer strings are read into; the name of the chunk only appears in the
    messages. *)

From S2P Require Import Prelude Machine Opcodes Object Mem Zio Debug Str Do Dump.

Record LoadState := mkLoadState {
  ls_L : lua_State;
  ls_Z : ZIO;
  ls_buffsize : Z;
}.

Definition set_ls_L (L : lua_State) (S : LoadState) : LoadState :=
  mkLoadState L (ls_Z S) (ls_buffsize S).

#[export] Instance load_HasMem : HasMem LoadState := {|
  totalbytes S := totalbytes (ls_L S);
  set_totalbytes n S := set_ls_L (set_totalbytes n (ls_L S)) S;
|}.
#[export] Instance load_HasMemLaws : HasMemLaws LoadState.
Proof. split; [done..|]. by intros [[[]]]. Qed.

(** A function of the thread, of the stream. *)
Definition onL {A} (m : M lua_State A) : M LoadState A := fun S =>
  let '(r, L) := m (ls_L S) in (r, set_ls_L L S).
Definition onZ {A} (m : M ZIO A) : M LoadState A := fun S =>
  let '(r, z) := m (ls_Z S) in (r, mkLoadState (ls_L S) z (ls_buffsize S)).

(** The array of [n] elements of [size] bytes that [b] holds. *)
Fixpoint split_vector (n : nat) (size : nat) (b : bytes) : list bytes :=
  match n with
  | O => []
  | S n => take size b :: split_vector n size (drop size b)
  end.

Section undump.
Context `{Krealloc} (name : string).

Definition error {A} (why : string) : M LoadState A :=
  throw (ErrSyntax (name +:+ ": " +:+ why +:+ " in precompiled chunk")%string).

Definition LoadBlock (size : Z) : M LoadState bytes :=
  r ← onZ (luaZ_read size);
  let '(b, missing) := r in
  when (negb (missing =? 0)) (error "unexpected end");;
  mret b.

Definition LoadChar : M LoadState Z :=
  b ← LoadBlock 1; mret (s8 (le_val b)).

Definition LoadByte : M LoadState Z :=
  x ← LoadChar; mret (u8 x).

Definition LoadInt : M LoadState Z :=
  b ← LoadBlock sizeof_int;
  let x := s32 (le_val b) in
  when (x <? 0) (error "bad integer");;
  mret x.

Definition LoadNumber : M LoadState Z :=
  b ← LoadBlock sizeof_lua_Number; mret (s64 (le_val b)).

Definition LoadString : M LoadState TStr :=
  b ← LoadBlock sizeof_size_t;
  let size := le_val b in
  if size =? 0 then mret None
  else
    S ← get;
    buffsize ← luaZ_openspace (ls_buffsize S) size;
    modify (fun S => mkLoadState (ls_L S) (ls_Z S) buffsize);;
    s ← LoadBlock size;
    ts ← onL (onG (luaS_newlstr (take (Z.to_nat (size - 1)) s)));  (* remove trailing '\0' *)
    mret (Some (ts_str ts)).

(** [LoadVector] of [n] elements. *)
Definition LoadVector (n size : Z) : M LoadState (list bytes) :=
  b ← LoadBlock (n * size);
  mret (split_vector (Z.to_nat n) (Z.to_nat size) b).

Definition LoadCode : M LoadState (list Z) :=
  n ← LoadInt;
  luaM_newvector n sizeof_Instruction;;
  v ← LoadVector n sizeof_Instruction;
  mret (le_val <$> v).

Definition LoadConstant : M LoadState Const :=
  t ← LoadChar;
  if t =? LUA_TNIL then mret KNil
  else if t =? LUA_TBOOLEAN then
    x ← LoadChar; mret (KBoolean (if x =? 0 then 0 else 1))
  else if t =? LUA_TNUMBER then
    x ← LoadNumber; mret (KNumber x)
  else if t =? LUA_TSTRING then
    s ← LoadString; mret (KString s)
  else error "bad constant".

(** A counted array, allocated and then filled. *)
Definition LoadArray {A} (size : Z) (item : M LoadState A) : M LoadState (list A) :=
  n ← LoadInt;
  luaM_newvector n size;;
  mreplicate (Z.to_nat n) item.

Definition LoadLocVar : M LoadState LocVar :=
  varname ← LoadString;
  startpc ← LoadInt;
  endpc ← LoadInt;
  mret (mkLocVar varname startpc endpc).

Definition LoadDebug : M LoadState (list Z * list LocVar * list TStr) :=
  n ← LoadInt;
  luaM_newvector n sizeof_int;;
  lineinfo ← LoadVector n sizeof_int;
  locvars ← LoadArray sizeof_LocVar LoadLocVar;
  upvalues ← LoadArray sizeof_ptr LoadString;
  mret ((fun b => s32 (le_val b)) <$> lineinfo, locvars, upvalues).

(** One function; [rec] loads the nested ones. *)
Definition LoadFunction_body (rec : TStr -> M LoadState Proto) (p : TStr) : M LoadState Proto :=
  onL (modify (fun L => set_nCcalls (L_nCcalls L + 1) L));;
  S ← get;
  when (L_nCcalls (ls_L S) >? LUAI_MAXCCALLS) (error "code too deep");;
  onL (luaM_malloc sizeof_Proto);;  (* luaF_newproto *)
  onL incr_top;;
  src ← LoadString;
  let source := match src with None => p | Some _ => src end in
  linedefined ← LoadInt;
  lastlinedefined ← LoadInt;
  nups ← LoadByte;
  numparams ← LoadByte;
  is_vararg ← LoadByte;
  maxstacksize ← LoadByte;
  code ← LoadCode;
  k ← LoadArray sizeof_TValue LoadConstant;
  ps ← LoadArray sizeof_ptr (rec source);
  dbg ← LoadDebug;
  let '(lineinfo, locvars, upvalues) := dbg in
  let f := mkProto source linedefined lastlinedefined nups numparams is_vararg
             maxstacksize code k ps lineinfo locvars upvalues in
  ok ← lift (luaG_checkcode f);
  when (negb ok) (error "bad code");;
  onL (modify (fun L => set_top (L_top L - 1) L));;
  onL (modify (fun L => set_nCcalls (L_nCcalls L - 1) L));;
  mret f.

(** [fuel] bounds the nesting; the C call counter does so before it. *)
Fixpoint LoadFunction (fuel : nat) (p : TStr) : M LoadState Proto :=
  match fuel with
  | O => throw OutOfFuel
  | S fuel => LoadFunction_body (LoadFunction fuel) p
  end.

Definition LoadHeader : M LoadState unit :=
  s ← LoadBlock LUAC_HEADERSIZE;
  when (negb (bool_decide (luaU_header = s))) (error "bad header").
End undump.

(** The name used in messages. *)
Definition chunk_name (name : string) : string :=
  match name with
  | EmptyString => name
  | String c rest =>
      let c := Ascii.nat_of_ascii c in
      if (c =? 64)%nat || (c =? 61)%nat then rest  (* '@', '=' *)
      else if (c =? 27)%nat then  (* LUA_SIGNATURE[0] *) "binary string"%string
      else name
  end.

(** [luaU_undump]: LUAI_MAXCCALLS + 1 levels are more than the counter lets
    pass. *)
Definition luaU_undump `{Krealloc} (name : string) : M LoadState Proto :=
  let name := chunk_name name in
  LoadHeader name;;
  ts ← onL (onG (luaS_newlstr (bytes_of_string "=?")));
  LoadFunction name (Z.to_nat LUAI_MAXCCALLS + 1) (Some (ts_str ts)).

(** ** Numbers in memory *)

Lemma le_val_bytes n x : le_val (le_bytes n x) = x mod 2 ^ (8 * Z.of_nat n).
Proof.
  revert x. induction n as [|n IH]; intros x; cbn [le_bytes le_val].
  - by rewrite Z.mod_1_r.
  - rewrite IH. replace (2 ^ (8 * Z.of_nat (S n))) with (256 * 2 ^ (8 * Z.of_nat n)).
    + rewrite Z.rem_mul_r by lia. lia.
    + rewrite <-(Z.pow_add_r 2 8) by lia. f_equal. lia.
Qed.

Lemma le_bytes_length n x : length (le_bytes n x) = n.
Proof. revert x. induction n as [|n IH]; intros x; cbn; [done|by rewrite IH]. Qed.

Lemma le_bytes_zlen n x : zlen (le_bytes n x) = Z.of_nat n.
Proof. unfold zlen. by rewrite le_bytes_length. Qed.

Lemma le_bytes_wf n x : wf_bytes (le_bytes n x).
Proof.
  revert x. induction n as [|n IH]; intros x; constructor; [|apply IH].
  apply (Z.mod_pos_bound x 256). lia.
Qed.

Lemma le_val_range b : wf_bytes b -> 0 <= le_val b < 2 ^ (8 * zlen b).
Proof.
  induction 1 as [|c b Hc _ IH]; [done|]. cbn [le_val]. rewrite zlen_cons.
  pose proof (zlen_nonneg b). rewrite Z.mul_add_distr_l, Z.pow_add_r by lia.
  change (2 ^ (8 * 1)) with 256. unfold in_u in Hc. change (2 ^ 8) with 256 in Hc. lia.
Qed.

Lemma swrap_mod w x : 0 < w -> swrap w (x mod 2 ^ w) = swrap w x.
Proof. intros Hw. unfold swrap. by rewrite Zplus_mod_idemp_l. Qed.

Lemma uwrap_swrap w x : 0 < w -> uwrap w (swrap w x) = uwrap w x.
Proof.
  intros Hw. destruct (swrap_congr w x Hw) as [k ->]. unfold uwrap.
  by rewrite Z_mod_plus_full.
Qed.

Lemma mem_int_val x : in_s 32 x -> s32 (le_val (mem_int x)) = x.
Proof.
  intros H. unfold mem_int. rewrite le_val_bytes, (swrap_mod 32) by lia.
  by apply swrap_small.
Qed.

Lemma mem_Number_val x : in_s 64 x -> s64 (le_val (mem_Number x)) = x.
Proof.
  intros H. unfold mem_Number. rewrite le_val_bytes, (swrap_mod 64) by lia.
  by apply swrap_small.
Qed.

Lemma mem_unsigned_val n x : 0 <= x < 2 ^ (8 * Z.of_nat n) -> le_val (le_bytes n x) = x.
Proof. intros H. by rewrite le_val_bytes, Z.mod_small. Qed.

Lemma split_vector_bind n (l : list Z) :
  split_vector (length l) n (l ≫= le_bytes n) = le_bytes n <$> l.
Proof.
  induction l as [|x l IH]; cbn; [done|].
  rewrite take_app_length' by by rewrite le_bytes_length.
  rewrite drop_app_length' by by rewrite le_bytes_length. by rewrite IH.
Qed.

Lemma length_bind_le n (l : list Z) : zlen (l ≫= le_bytes n) = zlen l * Z.of_nat n.
Proof.
  induction l as [|x l IH]; cbn; [done|].
  rewrite zlen_app, IH, le_bytes_zlen, zlen_cons. lia.
Qed.

(** ** Running the loader *)

(** What holds between two steps of the loader: the stream is sane, the
    strings are interned, [c] C calls and [t] stack cells are in use. *)
Record load_ok (c t : Z) (S : LoadState) : Prop := {
  lo_zio : zio_ok (ls_Z S);
  lo_len : zlen (zrest (ls_Z S)) < 2 ^ 61;
  lo_strt : strt_ok (l_G (ls_L S));
  lo_c : L_nCcalls (ls_L S) = c;
  lo_t : L_top (ls_L S) = t;
  lo_crange : 0 <= c <= LUAI_MAXCCALLS + 1;
  lo_trange : 0 <= t <= 2 ^ 20 + c;
  lo_stack : t <= L_stack_last (ls_L S) /\ L_stacksize (ls_L S) <= 2 ^ 23;
}.

(** The stream to come. *)
Definition rest (S : LoadState) : bytes := zrest (ls_Z S).

Lemma zrest_wf z : zio_ok z -> wf_bytes (zrest z).
Proof.
  intros (_ & _ & _ & _ & _ & Hwf). apply Forall_cons in Hwf as [H1 H2].
  apply Forall_app. split; [by apply Forall_drop|by apply Forall_concat].
Qed.

Section load_lemmas.
Context `{Krealloc} (name : string).

(** Out of memory is the only failure on well-formed input. *)
Definition oom (e : Prelude.error) : Prop := e = ErrMem /\ ~ ReliableAlloc.

(** The failures a stream can cause. *)
Definition load_error (e : Prelude.error) : Prop :=
  match e with
  | ErrSyntax _ | ErrRun _ => True
  | ErrMem => ~ ReliableAlloc
  | _ => False
  end.

Lemma oom_load_error e : oom e -> load_error e.
Proof. by intros [-> ?]. Qed.

Lemma wp_LoadBlock n c t S Q E :
  load_ok c t S -> 0 <= n ->
  (zlen (rest S) < n -> E (ErrSyntax (name +:+ ": unexpected end in precompiled chunk")%string)) ->
  (forall S', load_ok c t S' -> rest S' = drop (Z.to_nat n) (rest S) ->
     ls_L S' = ls_L S -> ls_buffsize S' = ls_buffsize S -> n <= zlen (rest S) ->
     Q (take (Z.to_nat n) (rest S)) S') ->
  wp (LoadBlock name n) Q E S.
Proof.
  intros [Hz Hl Hs Hc Ht Hcr Htr Hst] Hn Herr Hok. unfold wp, LoadBlock, onZ. m_simpl.
  destruct (luaZ_read_flat n (ls_Z S) Hz Hn) as (z' & -> & Hz' & Hr').
  unfold rest in *. case_if; cbn [error throw].
  - apply Herr. lia.
  - apply Hok; cbn; try done; [|lia]. split; try done. cbn. rewrite Hr'.
    unfold zlen in *. rewrite length_drop. lia.
Qed.

(** A change of the byte counter is not seen. *)
Lemma load_ok_mem c t b S : load_ok c t S -> load_ok c t (set_totalbytes b S).
Proof. intros []. split; try done. by apply strt_ok_mem. Qed.

Lemma wp_newvector n size c t S (Q : unit -> LoadState -> Prop) E :
  0 <= n < 2 ^ 31 -> 1 <= size <= 2 ^ 20 -> load_ok c t S ->
  (forall e, oom e -> E e) ->
  (forall S', load_ok c t S' -> rest S' = rest S -> ls_buffsize S' = ls_buffsize S -> Q tt S') ->
  wp (luaM_newvector n size) Q E S.
Proof.
  intros Hn Hs Hok HE HQ. unfold wp, luaM_newvector. rewrite luaM_reallocv_fits by done.
  destruct (luaM_realloc_ _ _ S) as [[[]|e] S'] eqn:E1.
  - apply luaM_realloc_Ok in E1 as ->. apply HQ; [by apply load_ok_mem|done..].
  - apply luaM_realloc_Err in E1 as (-> & _ & _ & ?). by apply HE.
Qed.
(** Interning through the loader. *)
Lemma wp_newlstr s c t S (Q : TString -> LoadState -> Prop) E :
  wf_bytes s -> zlen s < 2 ^ 63 -> load_ok c t S -> (forall e, oom e -> E e) ->
  (forall ts S', load_ok c t S' -> rest S' = rest S -> ts_str ts = s -> Q ts S') ->
  wp (onL (onG (luaS_newlstr s))) Q E S.
Proof.
  intros Hw Hlen Hok HE HQ. destruct Hok as [Hz Hl Hs Hc Ht Hcr Htr Hst].
  unfold wp, onL, onG.
  destruct (luaS_newlstr_spec s (l_G (ls_L S)) Hs Hw Hlen) as (r & g' & -> & Hs' & _ & Hp).
  destruct r as [ts|e].
  - destruct Hp as [Hts _]. by apply HQ.
  - destruct Hp as (-> & Hrel & _). by apply HE.
Qed.

Definition toobig : Prelude.error := ErrRun "memory allocation error: block too big".

Lemma wp_openspace n c t S (Q : Z -> LoadState -> Prop) E :
  0 <= n < 2 ^ 64 -> load_ok c t S -> (forall e, oom e -> E e) ->
  (2 ^ 63 <= n -> E toobig) ->
  (forall b S', load_ok c t S' -> rest S' = rest S -> Q b S') ->
  wp (luaZ_openspace (ls_buffsize S) n) Q E S.
Proof.
  intros Hn Hok HE Hbig HQ. unfold wp, luaZ_openspace. case_if; [|by apply HQ].
  unfold luaZ_resizebuffer, luaM_reallocv. cbv zeta. m_simpl.
  set (n' := if n <? LUA_MINBUFFER then _ else _).
  destruct (u64 (n' + 1) <=? _) eqn:E1; b2p.
  - match goal with |- context [luaM_realloc_ ?a ?b S] =>
      destruct (luaM_realloc_ a b S) as [[u|e] S'] eqn:E2 end.
    + apply luaM_realloc_Ok in E2 as ->. apply HQ; [by apply load_ok_mem|done].
    + apply luaM_realloc_Err in E2 as (-> & _ & _ & ?). by apply HE.
  - unfold luaM_toobig, throw. apply Hbig. destruct (decide (2 ^ 63 <= n)); [done|].
    rewrite uwrap_small, Z.div_1_r in E1; unfold n', in_u, LUA_MINBUFFER, MAX_SIZET in *;
      destruct (n <? 32) eqn:?; b2p; lia.
Qed.

Lemma load_ok_buff c t b S :
  load_ok c t S -> load_ok c t (mkLoadState (ls_L S) (ls_Z S) b).
Proof. by intros []. Qed.

(** A string: its size, then its bytes with the NUL. *)
Lemma wp_LoadString c t S Q E :
  load_ok c t S -> (forall e, oom e -> E e) ->
  (8 <= zlen (rest S) -> le_val (take 8 (rest S)) = 0 ->
     forall S', load_ok c t S' -> rest S' = drop 8 (rest S) -> Q None S') ->
  (forall size, size = le_val (take 8 (rest S)) -> 0 < size -> 8 + size <= zlen (rest S) ->
     forall S', load_ok c t S' -> rest S' = drop (8 + Z.to_nat size) (rest S) ->
     Q (Some (take (Z.to_nat (size - 1)) (drop 8 (rest S)))) S') ->
  (2 ^ 62 <= le_val (take 8 (rest S)) -> E toobig) ->
  (zlen (rest S) < 8 \/ zlen (rest S) < 8 + le_val (take 8 (rest S)) ->
     E (ErrSyntax (name +:+ ": unexpected end in precompiled chunk")%string)) ->
  wp (LoadString name) Q E S.
Proof.
  intros Hok HE HNone HSome Htoobig Hend. unfold LoadString. apply wp_bind.
  apply (wp_LoadBlock _ c t); [done|done|auto|].
  intros S1 Hok1 Hr1 HL1 Hb1 Hlen. change (Z.to_nat sizeof_size_t) with 8%nat in *.
  change sizeof_size_t with 8 in *. cbv zeta.
  assert (Hw : wf_bytes (rest S)) by (apply zrest_wf, (lo_zio _ _ _ Hok)).
  pose proof (le_val_range (take 8 (rest S)) (Forall_take _ _ _ Hw)) as Hv.
  assert (Hz8 : zlen (take 8 (rest S)) = 8) by (unfold zlen in *; rewrite length_take; lia).
  rewrite Hz8 in Hv. set (size := le_val _) in *.
  case_if; [by apply HNone|]. apply wp_bind. unfold wp at 1. cbn [get].
  apply wp_bind. apply (wp_openspace _ c t); [done|done|done|intros; apply Htoobig; lia|].
  intros b S2 Hok2 Hr2. apply wp_bind. unfold wp at 1. cbn [modify].
  apply (load_ok_buff _ _ b) in Hok2 as Hok3.
  match type of Hok3 with load_ok _ _ ?x => set (S3 := x) in * end.
  assert (Hr3 : rest S3 = drop 8 (rest S)) by (change (rest S3) with (rest S2); congruence).
  assert (Hl3 : zlen (rest S3) = zlen (rest S) - 8).
  { rewrite Hr3. unfold zlen in *. rewrite length_drop. lia. }
  apply wp_bind. apply (wp_LoadBlock _ c t); [done|lia| |].
  { intros Hlt. apply Hend. right. lia. }
  intros S4 Hok4 Hr4 _ _ Hlen4. pose proof (lo_len _ _ _ Hok) as Hbig. fold (rest S) in Hbig.
  apply wp_bind. rewrite take_take. rewrite Nat.min_l by lia.
  apply (wp_newlstr _ c t); [by rewrite Hr3; apply Forall_take, Forall_drop| |done|done|].
  { unfold zlen in *. rewrite length_take. lia. }
  intros ts S5 Hok5 Hr5 Hts. unfold wp. cbn. rewrite Hts, Hr3.
  apply HSome; [done|lia|lia|done|]. rewrite Hr5, Hr4, Hr3, drop_drop. done.
Qed.
End load_lemmas.

(** ** Reading back what the dumper wrote *)

(** Prototypes whose fields have the ranges of their C types, that the
    verifier accepts, nested at most [n] deep. *)
Definition wf_str (s : TStr) : Prop :=
  match s with None => True | Some s => wf_bytes s /\ zlen s < 2 ^ 61 end.

Definition wf_const (o : Const) : Prop :=
  match o with
  | KNil => True
  | KBoolean b => b = 0 \/ b = 1
  | KNumber n => in_s 64 n
  | KString s => wf_str s
  end.

(** A nonnegative int. *)
Definition nonneg_int (x : Z) : Prop := 0 <= x < 2 ^ 31.

Record wf_fields (f : Proto) : Prop := {
  wf_source : pt_source f <> None /\ wf_str (pt_source f);
  wf_lines : nonneg_int (pt_linedefined f) /\ nonneg_int (pt_lastlinedefined f);
  wf_bytes_fields : in_u 8 (pt_nups f) /\ in_u 8 (pt_numparams f) /\
    in_u 8 (pt_is_vararg f) /\ in_u 8 (pt_maxstacksize f);
  wf_code : nonneg_int (pt_sizecode f) /\ Forall (in_u 32) (pt_code f);
  wf_k : nonneg_int (pt_sizek f) /\ Forall wf_const (pt_k f);
  wf_p : nonneg_int (pt_sizep f);
  wf_lineinfo : nonneg_int (pt_sizelineinfo f) /\ Forall (in_s 32) (pt_lineinfo f);
  wf_locvars : nonneg_int (pt_sizelocvars f) /\
    Forall (fun v => wf_str (varname v) /\ nonneg_int (startpc v) /\ nonneg_int (endpc v))
      (pt_locvars f);
  wf_upvalues : nonneg_int (pt_sizeupvalues f) /\ Forall wf_str (pt_upvalues f);
  wf_checked : luaG_checkcode f = Ok true;
}.

Inductive wf_proto : nat -> Proto -> Prop :=
  | wf_proto_intro n f :
      wf_fields f -> Forall (wf_proto n) (pt_p f) -> wf_proto (S n) f.

Section loads.
Context `{Krealloc} (name : string).

(** [m] reads the bytes [bs] as [v]. *)
Definition loads {A} (c t : Z) (m : M LoadState A) (bs : bytes) (v : A) : Prop :=
  forall S tl, load_ok c t S -> rest S = bs ++ tl ->
    wp m (fun a S' => a = v /\ load_ok c t S' /\ rest S' = tl) oom S.

Lemma loads_ret {A} c t (v : A) : loads c t (mret v) [] v.
Proof. by intros S tl Hok Hr. Qed.

Lemma loads_bind {A B} c t (m : M LoadState A) (k : A -> M LoadState B) bs bs' v w :
  loads c t m bs v -> loads c t (k v) bs' w -> loads c t (m ≫= k) (bs ++ bs') w.
Proof.
  intros Hm Hk S tl Hok Hr. apply wp_bind. rewrite <-app_assoc in Hr.
  eapply wp_mono; [by apply Hm| |done]. cbn. intros a S' (-> & Hok' & Hr').
  by apply Hk.
Qed.

(** The last step of a sequence only computes. *)
Lemma loads_fmap {A B} c t (m : M LoadState A) (k : A -> M LoadState B) bs v w :
  loads c t m bs v -> k v = mret w -> loads c t (m ≫= k) bs w.
Proof.
  intros Hm Hk. rewrite <-(app_nil_r bs). eapply loads_bind; [done|]. rewrite Hk. apply loads_ret.
Qed.

Lemma loads_block c t bs n : zlen bs = n -> loads c t (LoadBlock name n) bs bs.
Proof.
  intros <- S tl Hok Hr.
  assert (Hn : Z.to_nat (zlen bs) = length bs) by (unfold zlen; lia).
  apply (wp_LoadBlock _ _ c t); [done|apply zlen_nonneg| |].
  - rewrite Hr, zlen_app. pose proof (zlen_nonneg tl). lia.
  - intros S' Hok' Hr' _ _ _. rewrite Hn, Hr in *.
    rewrite take_app_length, drop_app_length in *. done.
Qed.

Lemma loads_char c t x : loads c t (LoadChar name) (mem_char x) (s8 x).
Proof.
  eapply loads_fmap; [by apply loads_block|]. cbn [mem_char le_val].
  f_equal. rewrite Z.mul_0_r, Z.add_0_r. unfold uwrap. by rewrite (swrap_mod 8).
Qed.

Lemma loads_byte c t x : in_u 8 x -> loads c t (LoadByte name) (mem_char x) x.
Proof.
  intros Hx. eapply loads_fmap; [apply loads_char|].
  by rewrite uwrap_swrap, uwrap_small.
Qed.

Lemma loads_int c t x : nonneg_int x -> loads c t (LoadInt name) (mem_int x) x.
Proof.
  intros Hx. eapply loads_fmap; [by apply loads_block, le_bytes_zlen|].
  cbv zeta. rewrite mem_int_val by (unfold nonneg_int, in_s in *; cbn; lia).
  destruct (x <? 0) eqn:E; b2p; [unfold nonneg_int in *; lia|]. done.
Qed.

Lemma loads_number c t x : in_s 64 x -> loads c t (LoadNumber name) (mem_Number x) x.
Proof.
  intros Hx. eapply loads_fmap; [by apply loads_block, le_bytes_zlen|].
  by rewrite mem_Number_val.
Qed.

Lemma loads_string c t s : wf_str s -> loads c t (LoadString name) (concat (chunk_string s)) s.
Proof.
  intros Hs S tl Hok Hr.
  set (size := match s with None => 0 | Some s => zlen s + 1 end).
  assert (Hsz : 0 <= size < 2 ^ 62).
  { unfold size. destruct s as [s|]; [|done]. destruct Hs. pose proof (zlen_nonneg s). lia. }
  assert (Htk : take 8 (rest S) = mem_size_t size /\
    drop 8 (rest S) = match s with None => tl | Some s => s ++ [0] ++ tl end).
  { rewrite Hr. unfold size, chunk_string. destruct s as [s|]; cbn [concat].
    - rewrite app_nil_r, uwrap_small by (cbn in Hsz; unfold in_u; lia).
      rewrite <-!app_assoc. by rewrite take_app_length', drop_app_length'
        by (symmetry; apply le_bytes_length).
    - rewrite app_nil_r. by rewrite take_app_length', drop_app_length'
        by (symmetry; apply le_bytes_length). }
  destruct Htk as [Htk Hdr].
  assert (Hv : le_val (take 8 (rest S)) = size).
  { rewrite Htk. apply mem_unsigned_val. cbn. lia. }
  assert (Hlen : 8 + size <= zlen (rest S)).
  { rewrite <-(take_drop 8 (rest S)), zlen_app, Htk, Hdr. unfold mem_size_t.
    rewrite le_bytes_zlen. unfold size. pose proof (zlen_nonneg tl).
    destruct s as [s|]; rewrite ?zlen_app, ?zlen_cons; [|lia].
    change (zlen (A := Z) []) with 0. lia. }
  apply (wp_LoadString _ c t); rewrite ?Hv; try done; try lia.
  - intros _ Hz S' Hok' Hr'. unfold size in Hz. destruct s as [s|].
    + pose proof (zlen_nonneg s). lia.
    + by rewrite Hr', Hdr.
  - intros size' -> Hpos _ S' Hok' Hr'. unfold size in *. destruct s as [s|]; [|lia].
    rewrite Hdr. replace (Z.to_nat (zlen s + 1 - 1)) with (length s) by (unfold zlen; lia).
    rewrite take_app_length. split_and!; [done|done|].
    rewrite Hr', <-drop_drop, Hdr.
    replace (Z.to_nat (zlen s + 1)) with (length (s ++ [0])) by (rewrite length_app; unfold zlen; cbn; lia).
    by rewrite (assoc_L (++)), drop_app_length.
Qed.

Lemma loads_newvector c t n size :
  nonneg_int n -> 1 <= size <= 2 ^ 20 ->
  loads c t (luaM_newvector n size) [] tt.
Proof.
  intros Hn Hs S tl Hok Hr. apply (wp_newvector _ _ c t); try done.
  intros S' Hok' Hr' _. split_and!; [done|done|]. by rewrite Hr', Hr.
Qed.

Lemma loads_mreplicate {A} c t (m : M LoadState A) (encs : list bytes) (l : list A) :
  Forall2 (loads c t m) encs l ->
  loads c t (mreplicate (length l) m) (concat encs) l.
Proof.
  induction 1 as [|e a encs l Ha _ IH]; cbn; [apply loads_ret|].
  eapply loads_bind; [done|]. by eapply loads_fmap.
Qed.

Lemma loads_counted {A} c t (m : M LoadState A) size encs (l : list A) :
  nonneg_int (zlen l) -> 1 <= size <= 2 ^ 20 -> Forall2 (loads c t m) encs l ->
  loads c t (LoadArray name size m) (mem_int (zlen l) ++ concat encs) l.
Proof.
  intros Hn Hs Hl. unfold LoadArray. eapply loads_bind; [by apply loads_int|].
  rewrite <-(app_nil_l (concat _)). eapply loads_bind; [by apply loads_newvector|].
  unfold zlen. rewrite Nat2Z.id. by apply loads_mreplicate.
Qed.

Lemma loads_array {A} c t (m : M LoadState A) item size (l : list A) :
  nonneg_int (zlen l) -> 1 <= size <= 2 ^ 20 ->
  Forall (fun a => loads c t m (concat (item a)) a) l ->
  loads c t (LoadArray name size m) (concat (chunk_list item l)) l.
Proof.
  intros Hn Hs Hl. unfold chunk_list. cbn [concat].
  replace (concat (l ≫= item)) with (concat ((fun a => concat (item a)) <$> l)).
  - apply loads_counted; [done..|]. apply Forall2_fmap_l, Forall_Forall2_diag, Hl.
  - clear. induction l as [|a l IH]; cbn; [done|]. by rewrite concat_app, <-IH.
Qed.

Lemma loads_vector c t n (l : list Z) :
  (0 < n)%nat ->
  loads c t (LoadVector name (zlen l) (Z.of_nat n)) (l ≫= le_bytes n) (le_bytes n <$> l).
Proof.
  intros Hn. eapply loads_fmap; [apply loads_block, length_bind_le|].
  unfold zlen. rewrite !Nat2Z.id. by rewrite split_vector_bind.
Qed.

Lemma loads_code c t l :
  nonneg_int (zlen l) -> Forall (in_u 32) l ->
  loads c t (LoadCode name) (concat (chunk_vector mem_Instruction l)) l.
Proof.
  intros Hn Hl. unfold LoadCode, chunk_vector. cbn [concat]. rewrite app_nil_r.
  eapply loads_bind; [by apply loads_int|].
  rewrite <-(app_nil_l (_ ≫= _)). eapply loads_bind; [by apply loads_newvector|].
  eapply loads_fmap; [apply (loads_vector _ _ 4); lia|]. f_equal.
  rewrite <-list_fmap_compose. rewrite <-(list_fmap_id l) at 2.
  apply Forall_fmap_ext. eapply Forall_impl; [exact Hl|]. intros x Hx.
  by apply mem_unsigned_val.
Qed.
End loads.

(** ** The verifier does not look at debug information *)

Record same_code (f g : Proto) : Prop := {
  sc_code : pt_code g = pt_code f;
  sc_k : pt_k g = pt_k f;
  sc_p : pt_nups <$> pt_p g = pt_nups <$> pt_p f;
  sc_stack : pt_maxstacksize g = pt_maxstacksize f;
  sc_nups : pt_nups g = pt_nups f;
  sc_vararg : pt_is_vararg g = pt_is_vararg f;
  sc_params : pt_numparams g = pt_numparams f;
}.

Section same_code.
Context (f g : Proto) (Hs : same_code f g).

Lemma code_at_same pc : code_at g pc = code_at f pc.
Proof. unfold code_at. by rewrite (sc_code _ _ Hs). Qed.

Lemma sizecode_same : pt_sizecode g = pt_sizecode f.
Proof. unfold pt_sizecode. by rewrite (sc_code _ _ Hs). Qed.

Lemma setlist_run_same n : setlist_run g n = setlist_run f n.
Proof. induction n as [|n IH]; cbn; [done|]. by rewrite code_at_same, IH. Qed.

Lemma check_pseudo_same pc n : check_pseudo g pc n = check_pseudo f pc n.
Proof.
  revert pc. induction n as [|n IH]; intros pc; cbn; [done|].
  rewrite code_at_same. destruct (code_at f (pc + 1)); cbn; [|done]. by case_if.
Qed.

Lemma check_format_same pc i op : check_format g pc i op = check_format f pc i op.
Proof.
  unfold check_format, checkArgMode, checkreg, pt_sizek. cbv zeta.
  rewrite setlist_run_same, sizecode_same, (sc_k _ _ Hs), (sc_stack _ _ Hs). done.
Qed.

Lemma check_opcode_same lastpc reg pc last op a b c :
  check_opcode g lastpc reg pc last op a b c = check_opcode f lastpc reg pc last op a b c.
Proof.
  assert (Hp : pt_nups <$> znth (pt_p g) b = pt_nups <$> znth (pt_p f) b).
  { unfold znth. case_if; [done|]. by rewrite <-!list_lookup_fmap, (sc_p _ _ Hs). }
  assert (Hl : pt_sizep g = pt_sizep f).
  { unfold pt_sizep, zlen. by rewrite <-(length_fmap pt_nups (pt_p g)), (sc_p _ _ Hs), length_fmap. }
  destruct op; cbn [check_opcode]; unfold checkreg, checkopenop;
    rewrite ?code_at_same, ?sizecode_same, ?(sc_k _ _ Hs), ?(sc_stack _ _ Hs),
      ?(sc_nups _ _ Hs), ?(sc_vararg _ _ Hs); try done.
  rewrite Hl. destruct (znth (pt_p g) b), (znth (pt_p f) b); try done.
  injection Hp as Hp. cbn [of_option mbind result_bind]. by rewrite Hp, check_pseudo_same.
Qed.

Lemma symbexec_loop_same fuel lastpc reg pc last :
  symbexec_loop fuel g lastpc reg pc last = symbexec_loop fuel f lastpc reg pc last.
Proof.
  revert pc last. induction fuel as [|fuel IH]; intros pc last; cbn [symbexec_loop]; [done|].
  assert (Hst : symbexec_step g lastpc reg pc last = symbexec_step f lastpc reg pc last).
  { unfold symbexec_step, checkreg. rewrite (code_at_same pc).
    destruct (code_at f pc) as [i|e]; cbn [mbind result_bind]; [|reflexivity]. cbv zeta.
    destruct (z2op (GET_OPCODE i)) as [op|]; [|done].
    rewrite check_format_same, (sc_stack _ _ Hs), sizecode_same, code_at_same.
    destruct (check_format f pc i op) as [[[b c]|]|]; cbn [mbind result_bind];
      rewrite ?check_opcode_same; [|done..]. case_if; [|done]. case_if; [|done]. case_if; [|done].
    destruct (code_at f (pc + 1)); cbn [mbind result_bind]; by rewrite ?check_opcode_same. }
  rewrite Hst. case_if; [|done]. destruct (symbexec_step f _ _ _ _) as [[[]|]|]; cbn; done.
Qed.

(** Without line and upvalue names the size checks still hold. *)
Lemma luaG_checkcode_same :
  (pt_sizelineinfo g = 0 /\ pt_sizeupvalues g = 0 /\ 0 <= pt_nups f) ->
  luaG_checkcode f = Ok true -> luaG_checkcode g = Ok true.
Proof.
  intros (Hl & Hu & Hn). unfold luaG_checkcode, symbexec.
  assert (Hpre : precheck f = Ok true -> precheck g = Ok true).
  { unfold precheck. rewrite Hl, Hu, code_at_same, sizecode_same,
      (sc_stack _ _ Hs), (sc_nups _ _ Hs), (sc_vararg _ _ Hs), (sc_params _ _ Hs).
    replace (0 <=? pt_nups f) with true by (symmetry; by apply Z.leb_le).
    replace ((0 =? pt_sizecode f) || (0 =? 0)) with true by (by rewrite orb_true_r).
    cbn [negb]. intros Hf.
    repeat match type of Hf with (if ?b then _ else _) = _ => destruct b; [done|] end. done. }
  destruct (precheck_Ok f) as [[] Hf]; rewrite Hf; [|done].
  rewrite (Hpre Hf). cbn [mbind result_bind negb].
  rewrite symbexec_loop_same, sizecode_same.
  destruct (symbexec_loop _ f _ _ _ _) as [[l|]|]; [|done..].
  cbn [mbind result_bind]. by rewrite code_at_same.
Qed.
End same_code.

(** The prototype a stripped chunk stands for. *)
Fixpoint stripped (src : TStr) (f : Proto) : Proto :=
  match f with
  | mkProto _ ld lld nups np va ms code k ps _ _ _ =>
      mkProto src ld lld nups np va ms code k (map (stripped src) ps) [] [] []
  end.

Definition reloaded (strip : bool) (src : TStr) (f : Proto) : Proto :=
  if strip then stripped src f else f.

Lemma stripped_same src f : same_code f (stripped src f).
Proof.
  destruct f. cbn. split; cbn; try done.
  change @map with (fun A B => @fmap list _ A B). cbv beta.
  rewrite <-list_fmap_compose. apply list_fmap_ext. by intros _ [] _.
Qed.

Lemma reloaded_checked strip src f :
  0 <= pt_nups f -> luaG_checkcode f = Ok true -> luaG_checkcode (reloaded strip src f) = Ok true.
Proof.
  intros Hn Hc. destruct strip; [|done]. apply (luaG_checkcode_same f); [apply stripped_same| |done].
  split_and!; [..|done]; by destruct f.
Qed.

Section loads_function.
Context `{Krealloc} (name : string).

Lemma loads_constant c t o :
  wf_const o -> loads c t (LoadConstant name) (concat (chunk_constant o)) o.
Proof.
  intros Ho. unfold LoadConstant, chunk_constant. cbn [concat].
  eapply loads_bind; [apply loads_char|]. destruct o as [|b|x|s]; cbn in Ho.
  - apply loads_ret.
  - rewrite <-(app_nil_r (mem_char b)). cbn [concat]. rewrite app_nil_r.
    eapply loads_fmap; [apply loads_char|]. by destruct Ho as [-> | ->].
  - cbn [concat]. rewrite app_nil_r. by eapply loads_fmap; [apply loads_number|].
  - by eapply loads_fmap; [apply loads_string|].
Qed.

Lemma loads_locvar c t v :
  wf_str (varname v) -> nonneg_int (startpc v) -> nonneg_int (endpc v) ->
  loads c t (LoadLocVar name) (concat (chunk_locvar v)) v.
Proof.
  intros Hv Hs He. unfold LoadLocVar, chunk_locvar. rewrite concat_app. cbn [concat].
  rewrite app_nil_r. eapply loads_bind; [by apply loads_string|].
  eapply loads_bind; [by apply loads_int|]. eapply loads_fmap; [by apply loads_int|].
  by destruct v.
Qed.

Lemma loads_debug c t strip f :
  wf_fields f ->
  loads c t (LoadDebug name) (concat (chunk_debug strip f))
    (if strip then ([], [], []) else (pt_lineinfo f, pt_locvars f, pt_upvalues f)).
Proof.
  intros Hf. unfold LoadDebug, chunk_debug. rewrite !concat_app.
  set (li := if strip then [] else pt_lineinfo f).
  set (lv := if strip then [] else pt_locvars f).
  set (uv := if strip then [] else pt_upvalues f).
  assert (Hli : nonneg_int (zlen li) /\ Forall (in_s 32) li).
  { unfold li. destruct strip; [by split|apply (wf_lineinfo f Hf)]. }
  unfold chunk_vector. cbn [concat]. rewrite app_nil_r, <-app_assoc.
  eapply loads_bind; [apply loads_int, Hli|].
  rewrite <-(app_nil_l (_ ++ _)). eapply loads_bind; [by apply loads_newvector; [apply Hli|]|].
  eapply loads_bind; [apply (loads_vector _ _ _ 4); lia|].
  eapply loads_bind; [apply (loads_array _ _ _ _ _ _ lv)|eapply loads_fmap;
                      [apply (loads_array _ _ _ _ _ _ uv)|]].
  - unfold lv. destruct strip; [by split|apply (wf_locvars f Hf)].
  - done.
  - unfold lv. destruct strip; [constructor|].
    eapply Forall_impl; [apply (wf_locvars f Hf)|]. cbn. intros v (? & ? & ?).
    by apply loads_locvar.
  - unfold uv. destruct strip; [by split|apply (wf_upvalues f Hf)].
  - done.
  - unfold uv. destruct strip; [constructor|].
    eapply Forall_impl; [apply (wf_upvalues f Hf)|]. intros. by apply loads_string.
  - rewrite <-list_fmap_compose.
    replace (_ <$> li) with li; [by destruct strip|].
    rewrite <-(list_fmap_id li) at 1. apply Forall_fmap_ext.
    eapply Forall_impl; [apply Hli|]. intros x Hx. symmetry. by apply mem_int_val.
Qed.
End loads_function.

Section load_function.
Context `{Krealloc} (name : string).

(** One step of a sequence, in the middle of it. *)
Lemma wp_loads {A B} c t (m : M LoadState A) (k : A -> M LoadState B) bs tl v Q S :
  loads c t m bs v -> load_ok c t S -> rest S = bs ++ tl ->
  (forall S', load_ok c t S' -> rest S' = tl -> wp (k v) Q oom S') ->
  wp (m ≫= k) Q oom S.
Proof.
  intros Hm Hok Hr Hk. apply wp_bind. eapply wp_mono; [by apply Hm| |done].
  cbn. intros a S' (-> & ? & ?). by apply Hk.
Qed.

(** Entering a function: one more C call, one more stack cell. *)
Lemma wp_enter {A} c t S (k : unit -> M LoadState A) Q (E : Prelude.error -> Prop) :
  load_ok c t S -> c < LUAI_MAXCCALLS -> (forall e, oom e -> E e) ->
  (forall S', load_ok (c + 1) (t + 1) S' -> rest S' = rest S -> wp (k tt) Q E S') ->
  wp (onL (modify (fun L => set_nCcalls (L_nCcalls L + 1) L));;
      S ← get;
      when (L_nCcalls (ls_L S) >? LUAI_MAXCCALLS) (error name "code too deep");;
      onL (luaM_malloc sizeof_Proto);;
      onL incr_top ≫= k) Q E S.
Proof.
  intros [Hz Hl Hs Hc Ht Hcr Htr Hst] Hlt HE Hk.
  unfold wp. cbv [mbind M_bind mret M_ret get when onL modify]. cbn [ls_L set_ls_L L_nCcalls set_nCcalls].
  rewrite Hc. destruct (c + 1 >? LUAI_MAXCCALLS) eqn:E1; b2p; [lia|].
  unfold luaM_malloc.
  match goal with |- context [luaM_realloc_ ?a ?b ?x] =>
    destruct (luaM_realloc_ a b x) as [[u|e] L1] eqn:E2 end.
  2:{ apply luaM_realloc_Err in E2 as (-> & _ & _ & ?). by apply HE. }
  apply luaM_realloc_Ok in E2 as ->.
  match goal with |- context [incr_top ?x] => set (L1 := x) end.
  assert (Hst1 : stack_ok L1).
  { unfold stack_ok, L_stack_last, EXTRA_STACK, LUAI_MAXCCALLS in *. cbn. lia. }
  destruct (luaD_checkstack_spec 1 L1 Hst1 ltac:(lia)) as (r & L2 & Hr & Hp).
  unfold incr_top. destruct r as [[]|e].
  - erewrite bind_ok by exact Hr. cbn [modify]. destruct Hp as (Ht2 & Hc2 & [b Hg2] & Hroom & Hsz).
    unfold modify. apply Hk; [|done].
    assert (Hs1 : L_stacksize L1 = L_stacksize (ls_L S)) by done.
    assert (Ht1 : L_top L1 = L_top (ls_L S)) by done.
    unfold L_stack_last, EXTRA_STACK, LUAI_MAXCCALLS in *.
    split; cbn; try done; rewrite ?Hg2, ?Ht2, ?Hc2; cbn; try lia.
    + by repeat apply strt_ok_mem.
    + unfold LUAI_MAXCCALLS. lia.
    + unfold L_stack_last, EXTRA_STACK. cbn. lia.
  - erewrite bind_err by exact Hr. destruct Hp as (-> & Hrel & _). by apply HE.
Qed.

(** Leaving it. *)
Lemma wp_leave {A} c t S (v : A) (Q : A -> LoadState -> Prop) E :
  load_ok (c + 1) (t + 1) S -> 0 <= c -> 0 <= t ->
  (forall S', load_ok c t S' -> rest S' = rest S -> Q v S') ->
  wp (onL (modify (fun L => set_top (L_top L - 1) L));;
      onL (modify (fun L => set_nCcalls (L_nCcalls L - 1) L));;
      mret v) Q E S.
Proof.
  intros [Hz Hl Hs Hc Ht Hcr Htr Hst] H0 H1 HQ. unfold wp. m_simpl. unfold onL.
  cbn. apply HQ; [|done].
  split; cbn; try done; unfold L_stack_last in *; cbn; lia.
Qed.

Ltac next H :=
  match goal with
  | Hok : load_ok _ _ ?S, Hr : rest ?S = _ |- _ =>
      eapply wp_loads; [exact H|exact Hok|exact Hr|]; clear Hok Hr; clear S; intros S Hok Hr
  end.

Lemma loads_function fuel n strip f c t p pd :
  wf_proto n f -> (n <= fuel)%nat -> c + Z.of_nat n <= LUAI_MAXCCALLS ->
  p <> None -> (strip = false -> pd = None \/ pd = p) ->
  loads c t (LoadFunction name fuel p) (concat (chunk_function strip pd f)) (reloaded strip p f).
Proof.
  revert n f c t p pd. induction fuel as [|fuel IH]; intros n f c t p pd Hwf Hn Hc Hp Hpd.
  { inversion Hwf; subst; lia. }
  inversion Hwf as [n' f' Hf Hps]; subst n f'.
  intros S tl Hok Hr. cbn [LoadFunction]. unfold LoadFunction_body.
  assert (Hct : 0 <= c /\ 0 <= t) by (destruct Hok; lia).
  apply (wp_enter c t); [done|lia|done|]. intros S1 Hok1 Hr1. rewrite <-Hr1 in Hr. clear S Hok Hr1.
  destruct f as [source ld lld nups np va ms code k ps li lv uv].
  cbn [chunk_function] in Hr. rewrite !concat_app in Hr. cbn [concat] in Hr.
  rewrite <-!app_assoc, app_nil_l, ?app_nil_r in Hr.
  destruct (wf_lines _ Hf) as [Hld Hlld]. destruct (wf_bytes_fields _ Hf) as (Hnu & Hnp & Hva & Hms).
  cbn in Hld, Hlld, Hnu, Hnp, Hva, Hms.
  set (src := if bool_decide (source = pd) || strip then None else source) in Hr.
  assert (Hsrc : wf_str src).
  { unfold src. case_if; [done|apply (wf_source _ Hf)]. }
  next (loads_string name (c + 1) (t + 1) src Hsrc).
  set (source' := match src with None => p | Some _ => src end).
  assert (Hs' : source' = pt_source (reloaded strip p (mkProto source ld lld nups np va ms code k ps li lv uv))).
  { unfold source', src. destruct (wf_source _ Hf) as [Hnone _]. cbn in Hnone.
    destruct strip; cbn; [by rewrite orb_true_r|]. rewrite orb_false_r.
    destruct (bool_decide_reflect (source = pd)) as [->|].
    - by destruct (Hpd eq_refl) as [-> | ->].
    - by destruct source. }
  next (loads_int name (c + 1) (t + 1) ld Hld).
  next (loads_int name (c + 1) (t + 1) lld Hlld).
  next (loads_byte name (c + 1) (t + 1) nups Hnu).
  next (loads_byte name (c + 1) (t + 1) np Hnp).
  next (loads_byte name (c + 1) (t + 1) va Hva).
  next (loads_byte name (c + 1) (t + 1) ms Hms).
  next (loads_code name (c + 1) (t + 1) code (proj1 (wf_code _ Hf)) (proj2 (wf_code _ Hf))).
  next (loads_array name (c + 1) (t + 1) (LoadConstant name) chunk_constant sizeof_TValue k
          (proj1 (wf_k _ Hf)) ltac:(done)
          (Forall_impl _ _ _ (proj2 (wf_k _ Hf)) (fun o => loads_constant name _ _ o))).
  assert (Hps' : Forall2 (loads (c + 1) (t + 1) (LoadFunction name fuel source'))
            ((fun g => concat (chunk_function strip source g)) <$> ps) (reloaded strip source' <$> ps)).
  { apply Forall2_fmap, Forall_Forall2_diag. eapply Forall_impl; [exact Hps|].
    intros g Hg. apply (IH n' g); [done|lia|lia| |].
    - rewrite Hs'. destruct strip; [done|apply (wf_source _ Hf)].
    - intros ->. right. by rewrite Hs'. }
  assert (Hlen : zlen (reloaded strip source' <$> ps) = zlen ps).
  { unfold zlen. by rewrite length_fmap. }
  assert (Henc : concat (concat (map (chunk_function strip source) ps)) =
            concat ((fun g => concat (chunk_function strip source g)) <$> ps)).
  { clear. induction ps as [|g ps IH]; cbn; [done|]. by rewrite concat_app, IH. }
  rewrite Henc, <-Hlen, (assoc_L (++)) in Hr.
  next (loads_counted name (c + 1) (t + 1) (LoadFunction name fuel source') sizeof_ptr _ _
          (eq_ind_r nonneg_int (wf_p _ Hf) Hlen) ltac:(done) Hps').
  next (loads_debug name (c + 1) (t + 1) strip _ Hf).
  assert (Hfin : wp
    (let '(lineinfo, locvars, upvalues) :=
       if strip then ([], [], []) else (li, lv, uv) in
     let f := mkProto source' ld lld nups np va ms code k (reloaded strip source' <$> ps)
                lineinfo locvars upvalues in
     ok ← lift (luaG_checkcode f);
     when (negb ok) (error name "bad code");;
     onL (modify (fun L => set_top (L_top L - 1) L));;
     onL (modify (fun L => set_nCcalls (L_nCcalls L - 1) L));;
     mret f)
    (fun a S' => a = reloaded strip p (mkProto source ld lld nups np va ms code k ps li lv uv)
       /\ load_ok c t S' /\ rest S' = tl) oom S1); [|by destruct strip].
  assert (Hre : reloaded strip p (mkProto source ld lld nups np va ms code k ps li lv uv) =
    let '(lineinfo, locvars, upvalues) := if strip then ([], [], []) else (li, lv, uv) in
    mkProto source' ld lld nups np va ms code k (reloaded strip source' <$> ps)
                lineinfo locvars upvalues).
  { rewrite Hs'. destruct strip; [done|]. cbn. by rewrite list_fmap_id. }
  pose proof (reloaded_checked strip p _ (proj1 (proj1 (wf_bytes_fields _ Hf))) (wf_checked _ Hf)) as Hck.
  rewrite Hre in Hck |- *.
  destruct (if strip then _ else _) as [[li' lv'] uv']. cbv zeta.
  apply wp_bind. unfold wp at 1. cbn [lift]. rewrite Hck. cbn [negb when].
  apply wp_bind. unfold wp at 1. cbn [mret M_ret].
  apply (wp_leave c t); [done| | |]; [apply Hct..|].
  intros S' Hok' Hr'. by rewrite Hr'.
Qed.
End load_function.

(** ** Any stream at all *)

Section safe.
Context `{Krealloc} (name : string).

(** [m] ends, with a value of [P] or an error that is reported. *)
Definition safe {A} (c t : Z) (P : A -> Prop) (m : M LoadState A) : Prop :=
  forall S, load_ok c t S -> wp m (fun a S' => load_ok c t S' /\ P a) load_error S.

Lemma safe_ret {A} c t (P : A -> Prop) a : P a -> safe c t P (mret a).
Proof. by intros Ha S Hok. Qed.

Lemma safe_bind {A B} c t (P : A -> Prop) (R : B -> Prop) (m : M LoadState A) k :
  safe c t P m -> (forall a, P a -> safe c t R (k a)) -> safe c t R (m ≫= k).
Proof.
  intros Hm Hk S Hok. apply wp_bind. eapply wp_mono; [by apply Hm| |done].
  cbn. intros a S' [Hok' Ha]. by apply Hk.
Qed.

Lemma safe_error {A} c t (P : A -> Prop) why : safe c t P (error name why).
Proof. by intros S Hok. Qed.

Lemma safe_when c t (b : bool) why : safe c t (fun _ => b = false) (when b (error name why)).
Proof. destruct b; [apply safe_error|by apply safe_ret]. Qed.

Lemma safe_block c t n :
  0 <= n -> safe c t (fun b => wf_bytes b /\ zlen b = n) (LoadBlock name n).
Proof.
  intros Hn S Hok. apply (wp_LoadBlock _ _ c t); [done..|].
  intros S' Hok' _ _ _ Hlen. split; [done|]. split.
  - apply Forall_take, zrest_wf, (lo_zio _ _ _ Hok).
  - unfold zlen in *. rewrite length_take. lia.
Qed.

Lemma safe_char c t : safe c t (in_s 8) (LoadChar name).
Proof.
  eapply safe_bind; [by apply safe_block|]. intros b _. apply safe_ret, swrap_range. lia.
Qed.

Lemma safe_byte c t : safe c t (in_u 8) (LoadByte name).
Proof.
  eapply safe_bind; [apply safe_char|]. intros x _. apply safe_ret, uwrap_range. lia.
Qed.

Lemma safe_int c t : safe c t nonneg_int (LoadInt name).
Proof.
  eapply safe_bind; [by apply safe_block|]. intros b _. cbv zeta.
  eapply safe_bind; [apply safe_when|]. cbn. intros _ Hlt. b2p. apply safe_ret.
  pose proof (swrap_range 32 (le_val b) ltac:(lia)) as Hr. unfold in_s, nonneg_int in *.
  change (2 ^ (32 - 1)) with (2 ^ 31) in Hr. lia.
Qed.

Lemma safe_number c t : safe c t (in_s 64) (LoadNumber name).
Proof.
  eapply safe_bind; [by apply safe_block|]. intros b _. apply safe_ret, swrap_range. lia.
Qed.

Lemma safe_string c t : safe c t wf_str (LoadString name).
Proof.
  intros S Hok. apply (wp_LoadString _ c t); try done.
  - apply oom_load_error.
  - intros size _ Hpos Hlen S' Hok' _. split; [done|]. cbn.
    pose proof (lo_len _ _ _ Hok) as Hl. fold (rest S) in Hl. split.
    + apply Forall_take, Forall_drop, zrest_wf, (lo_zio _ _ _ Hok).
    + unfold zlen in *. rewrite length_take, length_drop. lia.
Qed.

Lemma safe_newvector c t n size :
  nonneg_int n -> 1 <= size <= 2 ^ 20 -> safe c t (fun _ => True) (luaM_newvector n size).
Proof.
  intros Hn Hs S Hok. apply (wp_newvector _ _ c t); try done. apply oom_load_error.
Qed.

Lemma safe_mreplicate {A} c t (P : A -> Prop) m n :
  safe c t P m -> safe c t (fun l => length l = n /\ Forall P l) (mreplicate n m).
Proof.
  intros Hm. induction n as [|n IH]; cbn; [by apply safe_ret|].
  eapply safe_bind; [exact Hm|]. intros a Ha.
  eapply safe_bind; [exact IH|]. cbn. intros l [Hl HF].
  apply safe_ret. split; [cbn; lia|by constructor].
Qed.

Lemma safe_array {A} c t (P : A -> Prop) size m :
  1 <= size <= 2 ^ 20 -> safe c t P m ->
  safe c t (fun l => nonneg_int (zlen l) /\ Forall P l) (LoadArray name size m).
Proof.
  intros Hs Hm. eapply safe_bind; [apply safe_int|]. intros n Hn.
  eapply safe_bind; [by apply safe_newvector|]. intros _ _ S Hok.
  eapply wp_mono; [by apply (safe_mreplicate c t P m _ Hm)| |done]. cbn.
  intros l S' (Hok' & Hl & HF). split_and!; try done.
  unfold zlen, nonneg_int in *. lia.
Qed.

Lemma split_vector_spec n size b :
  wf_bytes b -> length b = (n * size)%nat ->
  length (split_vector n size b) = n /\
  Forall (fun w => wf_bytes w /\ length w = size) (split_vector n size b).
Proof.
  revert b. induction n as [|n IH]; intros b Hw Hb; cbn; [by split|].
  destruct (IH (drop size b)) as [Hl HF]; [by apply Forall_drop|rewrite length_drop; lia|].
  split; [by rewrite Hl|]. constructor; [|done]. split; [by apply Forall_take|].
  rewrite length_take. lia.
Qed.

Lemma safe_vector c t n size :
  nonneg_int n -> 0 <= size ->
  safe c t (fun l => zlen l = n /\ Forall (fun w => wf_bytes w /\ zlen w = size) l)
    (LoadVector name n size).
Proof.
  intros Hn Hs. eapply safe_bind; [apply safe_block; unfold nonneg_int in Hn; lia|].
  intros b [Hw Hb]. apply safe_ret.
  destruct (split_vector_spec (Z.to_nat n) (Z.to_nat size) b) as [Hl HF]; [done| |].
  { unfold zlen, nonneg_int in *. nia. }
  unfold zlen, nonneg_int in *. split; [lia|]. eapply Forall_impl; [exact HF|].
  cbn. intros w [? ?]. split; [done|lia].
Qed.

Lemma safe_code c t :
  safe c t (fun l => nonneg_int (zlen l) /\ Forall (in_u 32) l) (LoadCode name).
Proof.
  eapply safe_bind; [apply safe_int|]. intros n Hn.
  eapply safe_bind; [by apply safe_newvector|]. intros _ _.
  eapply safe_bind; [by apply safe_vector|]. intros v [Hv HF]. apply safe_ret.
  unfold zlen in *. rewrite length_fmap. split; [by rewrite Hv|].
  apply Forall_fmap. eapply Forall_impl; [exact HF|]. cbn. intros w [Hw Hz].
  pose proof (le_val_range w Hw) as Hr. unfold zlen in Hr. by rewrite Hz in Hr.
Qed.

Lemma safe_constant c t : safe c t wf_const (LoadConstant name).
Proof.
  eapply safe_bind; [apply safe_char|]. intros x _.
  case_if; [by apply safe_ret|].
  case_if; [eapply safe_bind; [apply safe_char|]; intros y _; apply safe_ret; cbn; case_if; auto|].
  case_if; [eapply safe_bind; [apply safe_number|]; intros y Hy; by apply safe_ret|].
  case_if; [eapply safe_bind; [apply safe_string|]; intros y Hy; by apply safe_ret|].
  apply safe_error.
Qed.

Lemma safe_locvar c t :
  safe c t (fun v => wf_str (varname v) /\ nonneg_int (startpc v) /\ nonneg_int (endpc v))
    (LoadLocVar name).
Proof.
  eapply safe_bind; [apply safe_string|]. intros s Hs.
  eapply safe_bind; [apply safe_int|]. intros x Hx.
  eapply safe_bind; [apply safe_int|]. intros y Hy. by apply safe_ret.
Qed.

Lemma safe_debug c t :
  safe c t (fun '(li, lv, uv) =>
    (nonneg_int (zlen li) /\ Forall (in_s 32) li) /\
    (nonneg_int (zlen lv) /\ Forall (fun v => wf_str (varname v) /\
       nonneg_int (startpc v) /\ nonneg_int (endpc v)) lv) /\
    (nonneg_int (zlen uv) /\ Forall wf_str uv)) (LoadDebug name).
Proof.
  eapply safe_bind; [apply safe_int|]. intros n Hn.
  eapply safe_bind; [by apply safe_newvector|]. intros _ _.
  eapply safe_bind; [by apply safe_vector|]. intros v [Hv HF].
  eapply safe_bind; [apply (safe_array c t _ sizeof_LocVar _ ltac:(done) (safe_locvar c t))|]. intros lv Hlv.
  eapply safe_bind; [apply (safe_array c t _ sizeof_ptr _ ltac:(done) (safe_string c t))|]. intros uv Huv.
  apply safe_ret. split_and!; try apply Hlv; try apply Huv.
  - unfold zlen in *. by rewrite length_fmap, Hv.
  - apply Forall_fmap, Forall_forall. intros w _. apply swrap_range. lia.
Qed.

Ltac next H a Ha :=
  match goal with
  | Hok : load_ok ?c ?t ?S |- wp (_ ≫= _) _ _ ?S =>
      apply wp_bind; eapply wp_mono; [apply H; exact Hok| |done];
      clear Hok; clear S; cbv beta; intros a S [Hok Ha]
  end.

(** The counter stops the nesting before the fuel does. *)
Lemma wp_enter_deep {A} c t S (k : unit -> M LoadState A) Q :
  load_ok c t S -> LUAI_MAXCCALLS <= c ->
  wp (onL (modify (fun L => set_nCcalls (L_nCcalls L + 1) L));;
      S ← get;
      when (L_nCcalls (ls_L S) >? LUAI_MAXCCALLS) (error name "code too deep");;
      onL (luaM_malloc sizeof_Proto);;
      onL incr_top ≫= k) Q load_error S.
Proof.
  intros Hok Hc. unfold wp. cbv [mbind M_bind mret M_ret get when onL modify].
  cbn [ls_L set_ls_L L_nCcalls set_nCcalls]. rewrite (lo_c _ _ _ Hok).
  destruct (c + 1 >? LUAI_MAXCCALLS) eqn:E; b2p; [done|lia].
Qed.

Lemma safe_function_body c t p n (rec : TStr -> M LoadState Proto) :
  p <> None -> wf_str p -> c < LUAI_MAXCCALLS ->
  (forall p', p' <> None -> wf_str p' -> safe (c + 1) (t + 1) (wf_proto n) (rec p')) ->
  safe c t (wf_proto (Datatypes.S n)) (LoadFunction_body name rec p).
Proof.
  intros Hp Hwp Hlt Hrec S Hok. assert (Hct : 0 <= c /\ 0 <= t) by (destruct Hok; lia).
  unfold LoadFunction_body.
  apply (wp_enter _ c t); [done|lia|apply oom_load_error|]. intros S1 Hok1 _. clear S Hok.
  next (safe_string (c + 1) (t + 1)) src Hsrc.
  set (source := match src with None => p | Some _ => src end).
  assert (Hs : source <> None /\ wf_str source) by (unfold source; by destruct src).
  next (safe_int (c + 1) (t + 1)) ld Hld.
  next (safe_int (c + 1) (t + 1)) lld Hlld.
  next (safe_byte (c + 1) (t + 1)) nups Hnu.
  next (safe_byte (c + 1) (t + 1)) np Hnp.
  next (safe_byte (c + 1) (t + 1)) va Hva.
  next (safe_byte (c + 1) (t + 1)) ms Hms.
  next (safe_code (c + 1) (t + 1)) code Hcode.
  next (safe_array (c + 1) (t + 1) _ sizeof_TValue _ ltac:(done) (safe_constant _ _)) k Hk.
  next (safe_array (c + 1) (t + 1) _ sizeof_ptr _ ltac:(done) (Hrec source (proj1 Hs) (proj2 Hs))) ps Hps.
  next (safe_debug (c + 1) (t + 1)) dbg Hdbg.
  destruct dbg as [[li lv] uv]. destruct Hdbg as (Hli & Hlv & Huv).
  set (f := mkProto _ _ _ _ _ _ _ _ _ _ _ _ _).
  assert (Hnups : wf_nups f).
  { eapply Forall_impl; [apply (proj2 Hps)|]. intros g Hg. inversion Hg as [? ? Hg' _]; subst.
    apply (wf_bytes_fields _ Hg'). }
  destruct (symbexec_Ok f (pt_sizecode f) NO_REG Hnups) as [i Hi].
  { split; [apply zlen_nonneg|done]. }
  assert (Hck : luaG_checkcode f = Ok (negb (i =? 0))) by (unfold luaG_checkcode; by rewrite Hi).
  apply wp_bind. unfold wp at 1. cbn [lift]. rewrite Hck.
  next (safe_when (c + 1) (t + 1) (negb (negb (i =? 0))) "bad code") u Hu.
  apply (wp_leave c t); [done|apply Hct..|]. intros S' Hok' _. split; [done|].
  constructor; [|apply Hps]. split; try done; try apply Hps.
  rewrite Hck. f_equal. by destruct (negb (i =? 0)).
Qed.

Lemma safe_function n c t p :
  p <> None -> wf_str p -> LUAI_MAXCCALLS - c <= Z.of_nat n ->
  safe c t (wf_proto n) (LoadFunction name (S n) p).
Proof.
  revert c t p. induction n as [|n IH]; intros c t p Hp Hwp Hn.
  - intros S Hok. apply (wp_enter_deep c t); [done|lia].
  - destruct (decide (LUAI_MAXCCALLS <= c)).
    + intros S Hok. by apply (wp_enter_deep c t).
    + apply safe_function_body; [done|done|lia|]. intros p' Hp' Hw'. apply IH; try done. lia.
Qed.

Lemma safe_header c t : safe c t (fun _ => True) (LoadHeader name).
Proof.
  eapply safe_bind; [by apply safe_block|]. intros s _ S Hok.
  eapply wp_mono; [by apply (safe_when c t)| |done]. by intros ? ? [? _].
Qed.
End safe.

(** ** The contract of the dumper and the loader *)

(** A writer that keeps everything. *)
Definition append_writer (w b : bytes) : Z * bytes := (0, w ++ b).

Lemma write_blocks_append l w :
  write_blocks append_writer l (mkDumpState w 0) = mkDumpState (w ++ concat l) 0.
Proof.
  revert w. induction l as [|b l IH]; intros w; cbn; [by rewrite app_nil_r|].
  rewrite IH. by rewrite (assoc_L (++)).
Qed.

Lemma luaU_dump_append strip f :
  luaU_dump append_writer strip f [] = (0, concat (chunk strip f)).
Proof. rewrite luaU_dump_blocks, write_blocks_append. done. Qed.

Lemma loads_header `{Krealloc} name c t : loads c t (LoadHeader name) luaU_header ().
Proof. eapply loads_fmap; [by apply loads_block|]. by rewrite bool_decide_true. Qed.

Lemma literal_ok : wf_str (Some (bytes_of_string "=?")).
Proof. split; [apply bytes_of_string_wf|done]. Qed.

Section undump_spec.
Context `{Krealloc} (name : string).

Lemma loads_chunk n strip f c t :
  wf_proto n f -> c + Z.of_nat n <= LUAI_MAXCCALLS -> 0 <= c ->
  loads c t (luaU_undump name) (concat (chunk strip f))
    (reloaded strip (Some (bytes_of_string "=?")) f).
Proof.
  intros Hf Hn Hc S tl Hok Hr. unfold luaU_undump, chunk in *. cbv zeta. cbn [concat] in Hr.
  rewrite <-app_assoc in Hr.
  eapply wp_loads; [apply loads_header|done|exact Hr|]. clear S Hok Hr. intros S Hok Hr.
  apply wp_bind. apply (wp_newlstr _ c t); [apply bytes_of_string_wf|done|done|done|].
  intros ts S' Hok' Hr' ->. rewrite Hr in Hr'.
  eapply (loads_function _ _ n strip f c t _ None); try done; [|by left].
  unfold LUAI_MAXCCALLS in *. lia.
Qed.

Lemma safe_chunk c t :
  0 <= c -> safe c t (wf_proto (Z.to_nat LUAI_MAXCCALLS)) (luaU_undump name).
Proof.
  intros Hc. unfold luaU_undump. cbv zeta. eapply safe_bind; [apply safe_header|]. intros _ _ S Hok.
  apply wp_bind. apply (wp_newlstr _ c t); [apply bytes_of_string_wf|done|done|apply oom_load_error|].
  intros ts S' Hok' _ ->. rewrite Nat.add_1_r.
  apply safe_function; try done; [apply literal_ok|]. unfold LUAI_MAXCCALLS. lia.
Qed.
End undump_spec.

(** The dumper writes exactly the binary format: with a writer that keeps
    the bytes it is given, luaU_dump returns 0 and has written the header and
    the encoding of the function, for every function, stripped or not. *)
Theorem luaU_dump_format strip f :
  luaU_dump append_writer strip f [] = (0, concat (chunk strip f)).
Proof. apply luaU_dump_append. Qed.

(** C19: Round trip: luaU_undump applied to a stream that starts with what
    luaU_dump wrote, in any division into blocks, returns the function that was
    dumped (the function without debug information and with source =? when it
    was stripped) and leaves the stream after it; the only other outcome is a
    failed allocation. *)
Theorem luaU_undump_dump `{Krealloc} name n strip f bs tl c t S :
  wf_proto n f -> c + Z.of_nat n <= LUAI_MAXCCALLS -> load_ok c t S ->
  luaU_dump append_writer strip f [] = (0, bs) -> zrest (ls_Z S) = bs ++ tl ->
  exists r S', luaU_undump name S = (r, S') /\
    ((r = Ok (if strip then stripped (Some (bytes_of_string "=?")) f else f) /\
      zrest (ls_Z S') = tl) \/
     (r = Err ErrMem /\ ~ ReliableAlloc)).
Proof.
  intros Hf Hn Hok Hd Hr. rewrite luaU_dump_append in Hd. simplify_eq.
  pose proof (loads_chunk name n strip f c t Hf Hn (proj1 (lo_crange _ _ _ Hok)) S tl Hok Hr) as Hl.
  unfold wp in Hl. destruct (luaU_undump name S) as [[a|e] S']; eexists _, _; (split; [done|]).
  - left. by destruct Hl as (-> & _ & ?).
  - right. by destruct Hl as [-> ?].
Qed.

(** C18: The loader is safe on any input: on every stream it ends without
    reading outside the blocks, the buffers or the prototypes, and without
    running past the nesting limit; it returns a prototype whose fields have
    their C ranges and that, with all those nested in it, passed the bytecode
    verifier, or it reports a syntax error, a block too big, or no memory. *)
Theorem luaU_undump_safe `{Krealloc} name c t S :
  load_ok c t S ->
  exists r S', luaU_undump name S = (r, S') /\
    match r with
    | Ok f => wf_proto (Z.to_nat LUAI_MAXCCALLS) f
    | Err (ErrSyntax _) | Err (ErrRun _) => True
    | Err ErrMem => ~ ReliableAlloc
    | Err _ => False
    end.
Proof.
  intros Hok. pose proof (safe_chunk name c t (proj1 (lo_crange _ _ _ Hok)) S Hok) as Hs.
  unfold wp in Hs. destruct (luaU_undump name S) as [[f|e] S']; eexists _, _; (split; [done|]).
  - apply Hs.
  - by destruct e.
Qed.

(** A chunk whose first 12 bytes are not this machine's header (another
    version, endianness or integer size) is refused with the error bad header. *)
Theorem luaU_undump_bad_header `{Krealloc} name c t S :
  load_ok c t S -> LUAC_HEADERSIZE <= zlen (zrest (ls_Z S)) ->
  take 12 (zrest (ls_Z S)) <> luaU_header ->
  fst (luaU_undump name S) =
    Err (ErrSyntax (chunk_name name +:+ ": bad header in precompiled chunk")).
Proof.
  intros Hok Hlen Hne.
  assert (Hw : wp (LoadHeader (chunk_name name)) (fun _ _ => False)
    (fun e => e = ErrSyntax (chunk_name name +:+ ": bad header in precompiled chunk")) S).
  { apply wp_bind, (wp_LoadBlock _ _ c t); [done|done| |].
    - unfold rest. lia.
    - intros S' _ _ _ _ _. unfold wp. by rewrite bool_decide_false by (intros Heq; by apply Hne). }
  unfold wp in Hw. unfold luaU_undump. cbv zeta.
  destruct (LoadHeader (chunk_name name) S) as [[u|e] S'] eqn:E; [done|].
  by rewrite (bind_err _ _ _ _ _ E), Hw.
Qed.

(** *** A function with a nested one, saved and loaded *)

Definition sample_load (bs : bytes) : LoadState :=
  mkLoadState (mkState tiny_state 3 45 0) (luaZ_init [take 7 bs; drop 7 bs]) 0.

Lemma sample_fun_wf ps code nups :
  zlen code < 2 ^ 31 -> Forall (in_u 32) code -> in_u 8 nups -> zlen ps < 2 ^ 31 ->
  luaG_checkcode (sample_fun ps code nups) = Ok true -> wf_fields (sample_fun ps code nups).
Proof.
  intros Hl Hc Hn Hp Hck. pose proof (zlen_nonneg code). pose proof (zlen_nonneg ps).
  assert (Hx : forall s, zlen (bytes_of_string s) < 2 ^ 61 -> wf_str (Some (bytes_of_string s))).
  { intros s Hs. split; [apply bytes_of_string_wf|done]. }
  split.
  - split; [done|]. by apply Hx.
  - by repeat split.
  - split; [exact Hn|]. by repeat split.
  - by repeat split.
  - split; [done|]. apply Forall_cons_2; [by split|]. apply Forall_cons_2; [by apply Hx|].
    apply Forall_cons_2; [by right|]. by apply Forall_cons_2; [|apply Forall_nil_2].
  - by split.
  - cbn [pt_sizelineinfo pt_lineinfo sample_fun]. unfold pt_sizelineinfo, nonneg_int, zlen in *.
    cbn [pt_lineinfo sample_fun]. rewrite length_replicate. split; [lia|].
    apply Forall_replicate. by split.
  - split; [done|]. apply Forall_cons_2; [|apply Forall_nil_2].
    split; [by apply Hx|]. by repeat split.
  - split; [done|apply Forall_nil_2].
  - done.
Qed.

Lemma sample_main_wf : wf_proto 2 sample_main.
Proof.
  assert (Hw : forall ps code, zlen code < 2 ^ 31 -> zlen ps < 2 ^ 31 ->
    forallb (fun x => (0 <=? x) && (x <? 2 ^ 32)) code = true ->
    luaG_checkcode (sample_fun ps code 0) = Ok true -> wf_fields (sample_fun ps code 0)).
  { intros ps code Hl Hp Hc Hck. apply sample_fun_wf; try done.
    apply Forall_forall. intros x Hx. rewrite forallb_forall in Hc.
    specialize (Hc x (proj1 (list_elem_of_In _ _) Hx)). b2p. by split. }
  constructor; [apply Hw; vm_compute; reflexivity|].
  apply Forall_cons_2; [|apply Forall_nil_2].
  constructor; [apply Hw; vm_compute; reflexivity|apply Forall_nil_2].
Qed.

Lemma sample_load_ok bs :
  wf_bytes bs -> 7 < zlen bs < 2 ^ 61 ->
  load_ok 0 3 (sample_load bs) /\ zrest (ls_Z (sample_load bs)) = bs.
Proof.
  intros Hw Hl.
  destruct (zio_ok_init [take 7 bs; drop 7 bs]) as [Hz Hr].
  - unfold zlen in *.
    assert (length (take 7 bs) = 7%nat) by (rewrite length_take; lia).
    assert (length (drop 7 bs) = (length bs - 7)%nat) by (rewrite length_drop; lia).
    apply Forall_cons_2; [|apply Forall_cons_2; [|apply Forall_nil_2]]; split; try lia;
      intros E; apply (f_equal length) in E; cbn [length] in E; lia.
  - apply Forall_cons_2; [|apply Forall_cons_2; [|apply Forall_nil_2]];
      [by apply Forall_take|by apply Forall_drop].
  - cbn in Hr. rewrite app_nil_r, take_drop in Hr. cbn [sample_load ls_Z]. split; [|done].
    split; cbn; try done; try (rewrite Hr; lia). apply tiny_state_ok.
Qed.

Lemma wf_bytes_forallb bs :
  forallb (fun x => (0 <=? x) && (x <? 256)) bs = true -> wf_bytes bs.
Proof.
  intros Hc. apply Forall_forall. intros x Hx. rewrite forallb_forall in Hc.
  specialize (Hc x (proj1 (list_elem_of_In _ _) Hx)). b2p. by split.
Qed.

Lemma sample_chunk_ok strip :
  load_ok 0 3 (sample_load (concat (chunk strip sample_main))) /\
  zrest (ls_Z (sample_load (concat (chunk strip sample_main)))) = concat (chunk strip sample_main) ++ [].
Proof.
  rewrite app_nil_r. apply sample_load_ok.
  - apply wf_bytes_forallb. destruct strip; vm_compute; reflexivity.
  - destruct strip; vm_compute; split; done.
Qed.

Lemma luaU_undump_dump_witness :
  exists r S', luaU_undump (H := krealloc_always) "@t"
      (sample_load (concat (chunk true sample_main))) = (r, S') /\
    ((r = Ok (stripped (Some (bytes_of_string "=?")) sample_main) /\
      zrest (ls_Z S') = []) \/
     (r = Err ErrMem /\ ~ ReliableAlloc (H := krealloc_always))).
Proof.
  apply (luaU_undump_dump (H := krealloc_always) "@t" 2 true sample_main
           (concat (chunk true sample_main)) [] 0 3).
  - apply sample_main_wf.
  - done.
  - apply sample_chunk_ok.
  - apply luaU_dump_append.
  - apply sample_chunk_ok.
Defined.

Lemma luaU_undump_safe_witness :
  exists r S', luaU_undump (H := krealloc_always) "@t" (sample_load (replicate 20 27)) = (r, S') /\
    match r with
    | Ok f => wf_proto (Z.to_nat LUAI_MAXCCALLS) f
    | Err (ErrSyntax _) | Err (ErrRun _) => True
    | Err ErrMem => ~ ReliableAlloc (H := krealloc_always)
    | Err _ => False
    end.
Proof.
  apply (luaU_undump_safe (H := krealloc_always) "@t" 0 3).
  apply sample_load_ok; [|done]. apply Forall_replicate. by split.
Defined.

Lemma luaU_undump_bad_header_witness :
  fst (luaU_undump (H := krealloc_always) "@t" (sample_load (replicate 20 27))) =
    Err (ErrSyntax "t: bad header in precompiled chunk").
Proof.
  apply (luaU_undump_bad_header (H := krealloc_always) "@t" 0 3).
  - apply sample_load_ok; [|done]. apply Forall_replicate. by split.
  - done.
  - done.
Defined.
