(* ===== verification/Table.v ===== *)
(** * Table.v: Lua tables (ltable.h, ltable.c)

    A table has an array part, for the keys 1 to [sizearray], and a hash part:
    a vector of nodes whose size is a power of two, with the collisions chained
    inside the vector (chained scatter with Brent's variation).  Node pointers
    are indices into the vector.  An empty hash part is the static
    [dummynode_], shared by all tables and never written.

    The search and set functions of the source return the address of a value;
    the model returns a [slot], or [None] for [luaO_nilobject]. *)

From S2P Require Import Prelude Machine Object Mem.

(** The hash of the string object at an address ([tsv.hash]). *)
Class StringHash := tsv_hash : Z -> Z.

(** ** Data *)

Record Node := mkNode {
  i_val : TValue;
  i_key : TValue;
  i_next : option Z;   (* gnext: the index of the next node of the chain *)
}.

#[global] Instance Node_eq_dec : EqDecision Node.
Proof. solve_decision. Defined.

(** [t_dummy]: [t->node == dummynode]. *)
Record Table := mkTable {
  t_flags : Z;
  t_lsizenode : Z;
  t_metatable : option Z;
  t_array : list TValue;
  t_node : list Node;
  t_dummy : bool;
  t_lastfree : Z;      (* lastfree - node *)
  t_sizearray : Z;
}.

Definition dummynode_ : Node := mkNode VNil VNil None.

Definition MAXBITS : Z := 26.
Definition MAXASIZE : Z := Z.shiftl 1 MAXBITS.

Definition sizenode (t : Table) : Z := twoto (t_lsizenode t).

Definition set_flags (x : Z) (t : Table) : Table :=
  mkTable x (t_lsizenode t) (t_metatable t) (t_array t) (t_node t) (t_dummy t) (t_lastfree t) (t_sizearray t).
Definition set_array (a : list TValue) (n : Z) (t : Table) : Table :=
  mkTable (t_flags t) (t_lsizenode t) (t_metatable t) a (t_node t) (t_dummy t) (t_lastfree t) n.
Definition set_lastfree (x : Z) (t : Table) : Table :=
  mkTable (t_flags t) (t_lsizenode t) (t_metatable t) (t_array t) (t_node t) (t_dummy t) x (t_sizearray t).
Definition set_nodes (nd : list Node) (t : Table) : Table :=
  mkTable (t_flags t) (t_lsizenode t) (t_metatable t) (t_array t) nd (t_dummy t) (t_lastfree t) (t_sizearray t).
Definition set_hashpart (lsize : Z) (nd : list Node) (dummy : bool) (lastfree : Z) (t : Table) : Table :=
  mkTable (t_flags t) lsize (t_metatable t) (t_array t) nd dummy lastfree (t_sizearray t).

(** The address of a value of the table. *)
Inductive slot := SArray (i : Z) | SNode (i : Z).

#[global] Instance slot_eq_dec : EqDecision slot.
Proof. solve_decision. Defined.

Definition slot_get (t : Table) (s : slot) : result TValue :=
  match s with
  | SArray i => of_option "array index" (znth (t_array t) i)
  | SNode i => nd ← of_option "node index" (znth (t_node t) i); Ok (i_val nd)
  end.

Definition set_val (v : TValue) (nd : Node) : Node := mkNode v (i_key nd) (i_next nd).
Definition set_key (k : TValue) (nd : Node) : Node := mkNode (i_val nd) k (i_next nd).
Definition set_nxt (x : option Z) (nd : Node) : Node := mkNode (i_val nd) (i_key nd) x.

(** A store to one node. *)
Definition upd_node (i : Z) (f : Node -> Node) (nodes : list Node) : list Node :=
  match znth nodes i with
  | Some nd => zupd i (f nd) nodes
  | None => nodes
  end.

Definition slot_set (s : slot) (v : TValue) (t : Table) : Table :=
  match s with
  | SArray i => set_array (zupd i v (t_array t)) (t_sizearray t) t
  | SNode i => set_nodes (upd_node i (set_val v) (t_node t)) t
  end.

(** ** Hashing *)

Section hash.
Context `{StringHash}.

Definition IntPoint (p : Z) : Z := u32 p.

Definition hashpow2 (t : Table) (n : Z) : Z := lmod n (sizenode t).
Definition hashmod (t : Table) (n : Z) : Z := n mod (Z.lor (sizenode t - 1) 1).
Definition hashpointer (t : Table) (p : Z) : Z := hashmod t (IntPoint p).

(** The two [unsigned int] halves of the number, added. *)
Definition hashnum (t : Table) (n : Z) : Z :=
  if luai_numeq n 0 then 0
  else hashmod t (u32 (u32 n + u32 (Z.shiftr n 32))).

Definition mainposition (t : Table) (key : TValue) : Z :=
  match key with
  | VNumber n => hashnum t n
  | VString s => hashpow2 t (tsv_hash s)
  | VBoolean b => hashpow2 t b
  | VLightUserdata p => hashpointer t p
  | _ => hashpointer t (gcvalue key)
  end.
End hash.

(** ** Searching *)

Definition arrayindex (key : TValue) : Z :=
  match key with
  | VNumber n => let k := lua_number2int n in if luai_numeq k n then k else -1
  | _ => -1
  end.

(** [do { if (p(n)) return n; else n = gnext(n); } while (n)]: a chain has at
    most all the nodes. *)
Fixpoint chain_find (fuel : nat) (nodes : list Node) (p : Node -> bool) (n : Z) : result (option Z) :=
  match fuel with
  | O => Err OutOfFuel
  | S fuel =>
      nd ← of_option "node index" (znth nodes n);
      if p nd then Ok (Some n)
      else match i_next nd with
           | None => Ok None
           | Some n => chain_find fuel nodes p n
           end
  end.

Definition chain_search (t : Table) (p : Node -> bool) (n : Z) : result (option Z) :=
  chain_find (length (t_node t)) (t_node t) p n.

Section search.
Context `{StringHash}.

Definition luaH_getnum (t : Table) (key : Z) : result (option slot) :=
  (* (1 <= key && key <= t->sizearray) *)
  if u32 (key - 1) <? u32 (t_sizearray t) then Ok (Some (SArray (key - 1)))
  else
    n ← chain_search t
          (fun nd => match i_key nd with VNumber x => luai_numeq x key | _ => false end)
          (hashnum t key);
    Ok (option_map SNode n).

Definition luaH_getstr (t : Table) (key : Z) : result (option slot) :=
  n ← chain_search t
        (fun nd => match i_key nd with VString x => x =? key | _ => false end)
        (hashpow2 t (tsv_hash key));
  Ok (option_map SNode n).

(** The branch for any other key. *)
Definition luaH_getany (t : Table) (key : TValue) : result (option slot) :=
  n ← chain_search t (fun nd => luaO_rawequalObj (i_key nd) key) (mainposition t key);
  Ok (option_map SNode n).

Definition luaH_get (t : Table) (key : TValue) : result (option slot) :=
  match key with
  | VNil => Ok None
  | VString s => luaH_getstr t s
  | VNumber n =>
      let k := lua_number2int n in
      if luai_numeq k n  (* index is int? *)
      then luaH_getnum t k  (* use specialized version *)
      else luaH_getany t key
  | _ => luaH_getany t key
  end.

(** The value at the address a search returned. *)
Definition get_value (t : Table) (r : result (option slot)) : result TValue :=
  s ← r; match s with Some s => slot_get t s | None => Ok VNil end.

(** *** Traversal *)

Definition findindex (t : Table) (key : TValue) : result Z :=
  if ttisnil key then Ok (-1)  (* first iteration *)
  else
    let i := arrayindex key in
    if (0 <? i) && (i <=? t_sizearray t) then Ok (i - 1)
    else
      n ← chain_search t
            (fun nd => luaO_rawequalObj (i_key nd) key ||
              match i_key nd with
              | VDeadKey p => iscollectable key && (p =? gcvalue key)
              | _ => false
              end)
            (mainposition t key);
      match n with
      | Some i => Ok (i + t_sizearray t)
      | None => Err (ErrRun "invalid key to 'next'")  (* key not found *)
      end.

(** The first non-nil value of the array at index [i] or after it. *)
Fixpoint next_array (fuel : nat) (t : Table) (i : Z) : result (option (TValue * TValue)) :=
  match fuel with
  | O => Ok None
  | S fuel =>
      if i <? t_sizearray t then
        v ← of_option "array index" (znth (t_array t) i);
        if ttisnil v then next_array fuel t (i + 1)
        else Ok (Some (VNumber (i + 1), v))
      else Ok None
  end.

Fixpoint next_node (fuel : nat) (t : Table) (i : Z) : result (option (TValue * TValue)) :=
  match fuel with
  | O => Ok None
  | S fuel =>
      if i <? sizenode t then
        nd ← of_option "node index" (znth (t_node t) i);
        if ttisnil (i_val nd) then next_node fuel t (i + 1)
        else Ok (Some (i_key nd, i_val nd))
      else Ok None
  end.

(** [luaH_next]: the next key and value, [None] at the end. *)
Definition luaH_next (t : Table) (key : TValue) : result (option (TValue * TValue)) :=
  i ← findindex t key;
  let i := i + 1 in
  r ← next_array (Z.to_nat (t_sizearray t - i)) t i;
  match r with
  | Some e => Ok (Some e)
  | None =>
      let i := Z.max i (t_sizearray t) - t_sizearray t in
      next_node (Z.to_nat (sizenode t - i)) t i
  end.
End search.

(** ** Rehash: counting the integer keys *)

(** [twotoi] doubles each turn; all keys are counted by slice 26. *)
Fixpoint computesizes_loop (fuel : nat) (nums : list Z) (narray i twotoi a na n : Z)
    : result (Z * Z) :=
  match fuel with
  | O => Err OutOfFuel
  | S fuel =>
      if twotoi / 2 <? narray then
        ni ← of_option "nums index" (znth nums i);
        let '(a, na, n) :=
          if ni >? 0 then
            let a := a + ni in
            if a >? twotoi / 2  (* more than half elements present? *)
            then (a, a, twotoi)
            else (a, na, n)
          else (a, na, n) in
        if a =? narray then Ok (na, n)  (* all elements already counted *)
        else computesizes_loop fuel nums narray (i + 1) (twotoi * 2) a na n
      else Ok (na, n)
  end.

(** The number of elements for the array part and its new size. *)
Definition computesizes (nums : list Z) (narray : Z) : result (Z * Z) :=
  computesizes_loop 32 nums narray 0 1 0 0 0.

Definition countint (key : TValue) (nums : list Z) : result (Z * list Z) :=
  let k := arrayindex key in
  if (0 <? k) && (k <=? MAXASIZE) then
    x ← of_option "nums index" (znth nums (ceillog2 k));
    Ok (1, zupd (ceillog2 k) (x + 1) nums)
  else Ok (0, nums).

(** [for (; i <= lim; i++)]: the non-nil values at the keys from [i] on. *)
Fixpoint count_slice (n : nat) (array : list TValue) (i : Z) : result Z :=
  match n with
  | O => Ok 0
  | S n =>
      v ← of_option "array index" (znth array (i - 1));
      lc ← count_slice n array (i + 1);
      Ok ((if ttisnil v then 0 else 1) + lc)
  end.

(** One turn for each of the slices 0 to MAXBITS. *)
Fixpoint numusearray_loop (turns : nat) (t : Table) (lg ttlg i ause : Z) (nums : list Z)
    : result (Z * list Z) :=
  match turns with
  | O => Ok (ause, nums)
  | S turns =>
      if (ttlg >? t_sizearray t) && (i >? t_sizearray t)
      then Ok (ause, nums)  (* no more elements to count *)
      else
        let lim := if ttlg >? t_sizearray t then t_sizearray t else ttlg in
        lc ← count_slice (Z.to_nat (lim - i + 1)) (t_array t) i;
        x ← of_option "nums index" (znth nums lg);
        numusearray_loop turns t (lg + 1) (ttlg * 2) (Z.max i (lim + 1)) (ause + lc)
          (zupd lg (x + lc) nums)
  end.

Definition numusearray (t : Table) (nums : list Z) : result (Z * list Z) :=
  numusearray_loop (Z.to_nat (MAXBITS + 1)) t 0 1 1 0 nums.

(** From the last node to the first: the total, the integer keys and [nums]. *)
Fixpoint numusehash_loop (nodes : list Node) (totaluse ause : Z) (nums : list Z)
    : result (Z * Z * list Z) :=
  match nodes with
  | [] => Ok (totaluse, ause, nums)
  | n :: nodes =>
      if ttisnil (i_val n) then numusehash_loop nodes totaluse ause nums
      else
        c ← countint (i_key n) nums;
        let '(c, nums) := c in
        numusehash_loop nodes (totaluse + 1) (ause + c) nums
  end.

Definition numusehash (t : Table) (nums : list Z) : result (Z * Z * list Z) :=
  numusehash_loop (rev (t_node t)) 0 0 nums.

(** ** Operations that change the table *)

Record TS := mkTS { ts_mem : Z; ts_t : Table }.

#[export] Instance TS_HasMem : HasMem TS := {|
  totalbytes := ts_mem;
  set_totalbytes n s := mkTS n (ts_t s);
|}.
#[export] Instance TS_HasMemLaws : HasMemLaws TS.
Proof. split; [done..|]. by intros []. Qed.

Definition upd (f : Table -> Table) : M TS unit := modify (fun s => mkTS (ts_mem s) (f (ts_t s))).

Section alloc.
Context `{Krealloc}.

Definition setarrayvector (size : Z) : M TS unit :=
  t ← gets ts_t;
  luaM_reallocv (t_sizearray t) size sizeof_TValue;;
  upd (set_array (take (Z.to_nat (Z.min size (t_sizearray t))) (t_array t) ++
         replicate (Z.to_nat (size - t_sizearray t)) VNil) size).

Definition setnodevector (size : Z) : M TS unit :=
  if size =? 0 then  (* no elements to hash part? *)
    upd (set_hashpart 0 [dummynode_] true 0)
  else
    let lsize := ceillog2 size in
    if lsize >? MAXBITS then throw (ErrRun "table overflow")
    else
      let size := twoto lsize in
      luaM_newvector size sizeof_Node;;
      upd (set_hashpart lsize (replicate (Z.to_nat size) (mkNode VNil VNil None)) false size).
End alloc.

(** [while (t->lastfree-- > t->node)]: the free node found and the new
    [lastfree]. *)
Fixpoint getfreepos_loop (fuel : nat) (nodes : list Node) (lastfree : Z) : result (option Z * Z) :=
  match fuel with
  | O => Err OutOfFuel
  | S fuel =>
      if lastfree >? 0 then
        nd ← of_option "node index" (znth nodes (lastfree - 1));
        if ttisnil (i_key nd) then Ok (Some (lastfree - 1), lastfree - 1)
        else getfreepos_loop fuel nodes (lastfree - 1)
      else Ok (None, lastfree - 1)  (* could not find a free place *)
  end.

Definition getfreepos : M TS (option Z) :=
  t ← gets ts_t;
  r ← lift (getfreepos_loop (S (Z.to_nat (t_lastfree t))) (t_node t) (t_lastfree t));
  let '(n, lastfree) := r in
  upd (set_lastfree lastfree);;
  mret n.

(** [while (gnext(othern) != mp) othern = gnext(othern)]: find previous. *)
Fixpoint find_previous (fuel : nat) (nodes : list Node) (othern mp : Z) : result Z :=
  match fuel with
  | O => Err OutOfFuel
  | S fuel =>
      nd ← of_option "node index" (znth nodes othern);
      match i_next nd with
      | None => Err (UB "NULL node")
      | Some n => if n =? mp then Ok othern else find_previous fuel nodes n mp
      end
  end.

Section table.
Context `{Krealloc} `{StringHash}.

(** *** The operations that insert, given [newkey] *)
Section with_newkey.
Context (newkey : TValue -> M TS slot).

Definition luaH_set_with (key : TValue) : M TS slot :=
  t ← gets ts_t;
  p ← lift (luaH_get t key);
  upd (set_flags 0);;
  match p with
  | Some s => mret s
  | None =>
      match key with
      | VNil => throw (ErrRun "table index is nil")
      | VNumber n =>
          if luai_numisnan n then throw (ErrRun "table index is NaN") else newkey key
      | _ => newkey key
      end
  end.

Definition luaH_setnum_with (key : Z) : M TS slot :=
  t ← gets ts_t;
  p ← lift (luaH_getnum t key);
  match p with
  | Some s => mret s
  | None => newkey (VNumber key)
  end.

Definition luaH_setstr_with (key : Z) : M TS slot :=
  t ← gets ts_t;
  p ← lift (luaH_getstr t key);
  match p with
  | Some s => mret s
  | None => newkey (VString key)
  end.

Definition resize_with (nasize nhsize : Z) : M TS unit :=
  old ← gets ts_t;
  let oldasize := t_sizearray old in
  let oldhsize := t_lsizenode old in
  let nold := t_node old in  (* save old hash ... *)
  when (nasize >? oldasize)  (* array part must grow? *)
    (setarrayvector nasize);;
  (* create new hash part with appropriate size *)
  setnodevector nhsize;;
  when (nasize <? oldasize)  (* array part must shrink? *)
    (upd (fun t => set_array (t_array t) nasize t);;
     (* re-insert elements from vanishing slice *)
     mfor (seqZ nasize (oldasize - nasize)) (fun i =>
       t ← gets ts_t;
       v ← lift (of_option "array index" (znth (t_array t) i));
       when (negb (ttisnil v))
         (s ← luaH_setnum_with (i + 1); upd (slot_set s v)));;
     (* shrink array *)
     luaM_reallocv oldasize nasize sizeof_TValue;;
     upd (fun t => set_array (take (Z.to_nat nasize) (t_array t)) nasize t));;
  (* re-insert elements from hash part *)
  mfor (rev nold) (fun nd =>
    when (negb (ttisnil (i_val nd)))
      (s ← luaH_set_with (i_key nd); upd (slot_set s (i_val nd))));;
  when (negb (t_dummy old))
    (luaM_freearray (twoto oldhsize) sizeof_Node).

Definition rehash_with (ek : TValue) : M TS unit :=
  t ← gets ts_t;
  let nums := replicate (Z.to_nat (MAXBITS + 1)) 0 in  (* reset counts *)
  r ← lift (numusearray t nums);  (* count keys in array part *)
  let '(nasize, nums) := r in
  let totaluse := nasize in  (* all those keys are integer keys *)
  r ← lift (numusehash t nums);  (* count keys in hash part *)
  let '(tot, ause, nums) := r in
  let nasize := nasize + ause in
  let totaluse := totaluse + tot in
  (* count extra key *)
  r ← lift (countint ek nums);
  let '(c, nums) := r in
  let nasize := nasize + c in
  let totaluse := totaluse + 1 in
  (* compute new size for array part *)
  r ← lift (computesizes nums nasize);
  let '(na, nasize) := r in
  (* resize the table to new computed sizes *)
  resize_with nasize (totaluse - na).
End with_newkey.

(** *** [newkey]

    It may rehash, which inserts into the new parts; there is room there, so
    that a second level of the recursion never rehashes: 2 is enough. *)
Fixpoint newkey (fuel : nat) (key : TValue) : M TS slot :=
  match fuel with
  | O => throw OutOfFuel
  | S fuel =>
      t ← gets ts_t;
      let mp := mainposition t key in
      nd ← lift (of_option "node index" (znth (t_node t) mp));
      if negb (ttisnil (i_val nd)) || t_dummy t then
        n ← getfreepos;  (* get a free place *)
        match n with
        | None =>  (* cannot find a free place? *)
            rehash_with (newkey fuel) key;;  (* grow table *)
            luaH_set_with (newkey fuel) key  (* re-insert key into grown table *)
        | Some n =>
            let othern := mainposition t (i_key nd) in
            if negb (othern =? mp) then  (* is colliding node out of its main position? *)
              (* yes; move colliding node into free position *)
              prev ← lift (find_previous (length (t_node t)) (t_node t) othern mp);
              upd (fun t => set_nodes (upd_node prev (set_nxt (Some n)) (t_node t)) t);;
              nd ← gets (fun s => znth (t_node (ts_t s)) mp);
              nd ← lift (of_option "node index" nd);
              upd (fun t => set_nodes (zupd n nd (t_node t)) t);;
              upd (fun t => set_nodes (zupd mp (mkNode VNil key None) (t_node t)) t);;
              mret (SNode mp)
            else  (* colliding node is in its own main position *)
              (* new node will go into free position *)
              upd (fun t => set_nodes (upd_node n (set_nxt (i_next nd)) (t_node t)) t);;
              upd (fun t => set_nodes (upd_node mp (set_nxt (Some n)) (t_node t)) t);;
              upd (fun t => set_nodes (upd_node n (set_key key) (t_node t)) t);;
              mret (SNode n)
        end
      else
        upd (fun t => set_nodes (upd_node mp (set_key key) (t_node t)) t);;
        mret (SNode mp)
  end.

Definition newkey_fuel : nat := 2.

Definition luaH_set : TValue -> M TS slot := luaH_set_with (newkey newkey_fuel).
Definition luaH_setnum : Z -> M TS slot := luaH_setnum_with (newkey newkey_fuel).
Definition luaH_setstr : Z -> M TS slot := luaH_setstr_with (newkey newkey_fuel).
Definition resize : Z -> Z -> M TS unit := resize_with (newkey newkey_fuel).
Definition rehash : TValue -> M TS unit := rehash_with (newkey newkey_fuel).

Definition luaH_resizearray (nasize : Z) : M TS unit :=
  t ← gets ts_t;
  let nsize := if t_dummy t then 0 else sizenode t in
  resize nasize nsize.

(** The table that the state holds after it is the new one. *)
Definition luaH_new (narray nhash : Z) : M TS unit :=
  luaM_malloc sizeof_Table;;
  (* temporary values (kept only if some malloc fails) *)
  upd (fun _ => mkTable (u8 (Z.lnot 0)) 0 None [] [dummynode_] true 0 0);;
  setarrayvector narray;;
  setnodevector nhash.

Definition luaH_free : M TS unit :=
  t ← gets ts_t;
  when (negb (t_dummy t)) (luaM_freearray (sizenode t) sizeof_Node);;
  luaM_freearray (t_sizearray t) sizeof_TValue;;
  luaM_freemem sizeof_Table.
End table.

(** ** The border of a table (the length operator) *)

Section getn.
Context `{StringHash}.

Definition getnum_isnil (t : Table) (j : Z) : result bool :=
  v ← get_value t (luaH_getnum t (s32 j)); Ok (ttisnil v).

(** [while (j - i > 1)]: the interval halves. *)
Fixpoint binsearch (fuel : nat) (isnil : Z -> result bool) (i j : Z) : result Z :=
  match fuel with
  | O => Err OutOfFuel
  | S fuel =>
      if u32 (j - i) >? 1 then
        let m := u32 (i + j) / 2 in
        b ← isnil m;
        if (b : bool) then binsearch fuel isnil i m else binsearch fuel isnil m j
      else Ok i
  end.

(** [while (!ttisnil(luaH_getnum(t, i))) i++]: at most the number of
    values of the table. *)
Fixpoint linear_search (fuel : nat) (t : Table) (i : Z) : result Z :=
  match fuel with
  | O => Err OutOfFuel
  | S fuel =>
      b ← getnum_isnil t i;
      if (b : bool) then Ok (s32 (i - 1)) else linear_search fuel t (u32 (i + 1))
  end.

Fixpoint unbound_loop (fuel : nat) (t : Table) (i j : Z) : result Z :=
  match fuel with
  | O => Err OutOfFuel
  | S fuel =>
      b ← getnum_isnil t j;
      if (b : bool) then
        (* now do a binary search between them *)
        r ← binsearch 33 (getnum_isnil t) i j; Ok (s32 r)
      else
        let i := j in
        let j := u32 (j * 2) in
        if j >? MAX_INT then  (* overflow? *)
          (* table was built with bad purposes: resort to linear search *)
          linear_search (length (t_array t) + length (t_node t) + 1) t 1
        else unbound_loop fuel t i j
  end.

Definition unbound_search (t : Table) (j : Z) : result Z :=
  unbound_loop 33 t j (u32 (j + 1)).

Definition luaH_getn (t : Table) : result Z :=
  let j := t_sizearray t in
  let array_isnil m := v ← of_option "array index" (znth (t_array t) (m - 1)); Ok (ttisnil v) in
  last ← (if j >? 0 then array_isnil j else Ok false);
  if (last : bool) then
    (* there is a boundary in the array part: (binary) search for it *)
    r ← binsearch 33 array_isnil 0 j; Ok (s32 r)
  else if t_dummy t then Ok j  (* hash part is empty? that is easy... *)
  else unbound_search t j.
End getn.

(** A nil key is refused: luaH_set throws its message and changes nothing
    but the cache of absent metamethods. *)
Theorem luaH_set_nil `{Krealloc} `{StringHash} m t :
  luaH_set VNil (mkTS m t) = (Err (ErrRun "table index is nil"), mkTS m (set_flags 0 t)).
Proof. reflexivity. Qed.
