(* ===== verification/TableInv.v ===== *)
(** * TableInv.v: the invariant of tables, and what a search finds

    The chains of the hash part are shown to be finite and disjoint, and every
    key to lie on the chain of its main position; hence the searches of
    Table.v compute the specification [slot_of]. *)

From S2P Require Import Prelude Machine Object Mem Table.

(** ** Chains *)

Inductive chain (nodes : list Node) : Z -> list Z -> Prop :=
  | chain_end i nd :
      znth nodes i = Some nd -> i_next nd = None -> chain nodes i [i]
  | chain_step i nd j l :
      znth nodes i = Some nd -> i_next nd = Some j -> chain nodes j l ->
      chain nodes i (i :: l).

Lemma chain_functional nodes i l l' : chain nodes i l -> chain nodes i l' -> l = l'.
Proof.
  intros H. revert l'. induction H as [i nd Hi Hn|i nd j l Hi Hn Hc IH]; intros l' H'.
  - inversion H'; subst; [done|congruence].
  - inversion H' as [? ? Hi' Hn'|? ? j' l'' Hi' Hn' Hc']; subst; [congruence|].
    f_equal. apply IH. congruence.
Qed.

Lemma chain_head nodes i l : chain nodes i l -> exists l', l = i :: l'.
Proof. destruct 1; eauto. Qed.

(** The rest of a chain from one of its nodes. *)
Lemma chain_suffix nodes i l x :
  chain nodes i l -> x ∈ l -> exists l1 l2, l = l1 ++ l2 /\ chain nodes x l2.
Proof.
  induction 1 as [i nd Hi Hn|i nd j l Hi Hn Hc IH]; intros Hx.
  - apply list_elem_of_singleton in Hx as ->. exists [], [i]. split; [done|by econstructor].
  - apply elem_of_cons in Hx as [->|Hx].
    + exists [], (i :: l). split; [done|by econstructor].
    + destruct (IH Hx) as (l1 & l2 & -> & H2). exists (i :: l1), l2. done.
Qed.

Lemma chain_NoDup nodes i l : chain nodes i l -> NoDup l.
Proof.
  induction 1 as [i nd Hi Hn|i nd j l Hi Hn Hc IH]; [apply NoDup_singleton|].
  constructor; [|done]. intros Hin.
  destruct (chain_suffix _ _ _ _ Hc Hin) as (l1 & l2 & -> & H2).
  assert (Hi' : chain nodes i (i :: l1 ++ l2)) by by econstructor.
  pose proof (chain_functional _ _ _ _ Hi' H2) as Heq.
  apply (f_equal length) in Heq. cbn in Heq. rewrite length_app in Heq. lia.
Qed.

Lemma chain_range nodes i l x : chain nodes i l -> x ∈ l -> 0 <= x < zlen nodes.
Proof.
  induction 1 as [i nd Hi Hn|i nd j l Hi Hn Hc IH]; intros Hx.
  - apply list_elem_of_singleton in Hx as ->. by eapply znth_Some_lt.
  - apply elem_of_cons in Hx as [->|Hx]; [by eapply znth_Some_lt|auto].
Qed.

(** A list of different indices is no longer than what they index. *)
Lemma NoDup_range_length (l : list Z) n :
  NoDup l -> (forall x, x ∈ l -> 0 <= x < Z.of_nat n) -> (length l <= n)%nat.
Proof.
  intros Hnd Hr. transitivity (length (seqZ 0 (Z.of_nat n))); [|rewrite length_seqZ; lia].
  apply submseteq_length, NoDup_submseteq; [done|].
  intros x Hx%Hr. apply elem_of_seqZ. lia.
Qed.

Lemma chain_length nodes i l : chain nodes i l -> (length l <= length nodes)%nat.
Proof.
  intros Hc. apply NoDup_range_length; [by eapply chain_NoDup|].
  intros x Hx. by eapply chain_range.
Qed.

(** What the loops over a chain return: the first node of the chain with [p]. *)
Fixpoint first_of (nodes : list Node) (p : Node -> bool) (l : list Z) : option Z :=
  match l with
  | [] => None
  | i :: l =>
      match znth nodes i with
      | Some nd => if p nd then Some i else first_of nodes p l
      | None => None
      end
  end.

Lemma chain_find_spec fuel nodes p i l :
  chain nodes i l -> (length l <= fuel)%nat ->
  chain_find fuel nodes p i = Ok (first_of nodes p l).
Proof.
  intros Hc. revert fuel. induction Hc as [i nd Hi Hn|i nd j l Hi Hn Hc IH];
    intros [|fuel] Hf; cbn in Hf; try lia; cbn [chain_find first_of]; rewrite Hi;
    cbn [of_option mbind result_bind]; destruct (p nd); try done; rewrite Hn; [done|].
  apply IH. lia.
Qed.

Lemma first_of_Some nodes p l i :
  first_of nodes p l = Some i -> i ∈ l /\ exists nd, znth nodes i = Some nd /\ p nd = true.
Proof.
  induction l as [|j l IH]; cbn; [done|]. destruct (znth nodes j) as [nd|] eqn:Hj; [|done].
  destruct (p nd) eqn:Hp.
  - intros [= ->]. split; [by left|eauto].
  - intros [? ?]%IH. split; [by right|done].
Qed.

Lemma first_of_None nodes p l i nd :
  (forall x, x ∈ l -> 0 <= x < zlen nodes) ->
  first_of nodes p l = None -> i ∈ l -> znth nodes i = Some nd -> p nd = false.
Proof.
  induction l as [|j l IH]; cbn; intros Hr Hf Hin Hnd; [by apply elem_of_nil in Hin|].
  destruct (znth_is_Some nodes j) as [nd' Hj]; [apply Hr; by left|]. rewrite Hj in Hf.
  destruct (p nd') eqn:Hp; [done|]. apply elem_of_cons in Hin as [->|Hin]; [congruence|].
  apply IH; auto. intros x Hx. apply Hr. by right.
Qed.

(** ** The hash part *)

(** A key that can be looked up: neither nil nor the key of a collected
    object. *)
Definition proper (k : TValue) : bool :=
  match k with VNil | VDeadKey _ => false | _ => true end.

Record hash_ok (mpos : TValue -> Z) (nodes : list Node) : Prop := {
  ho_mpos k : 0 <= mpos k < zlen nodes;
  (* every chain ends *)
  ho_chain i : 0 <= i < zlen nodes -> exists l, chain nodes i l;
  (* a node is the next of one node at most *)
  ho_inj i j x y k : znth nodes i = Some x -> znth nodes j = Some y ->
    i_next x = Some k -> i_next y = Some k -> i = j;
  (* a node with no key is in no chain *)
  ho_nil i x : znth nodes i = Some x -> i_key x = VNil ->
    i_val x = VNil /\ i_next x = None /\
    forall j y, znth nodes j = Some y -> i_next y <> Some i;
  (* a key is on the chain of its main position *)
  ho_reach i x : znth nodes i = Some x -> proper (i_key x) = true ->
    exists l, chain nodes (mpos (i_key x)) l /\ i ∈ l;
  (* whose first node has a key with the same main position *)
  ho_first i x y : znth nodes i = Some x -> proper (i_key x) = true ->
    znth nodes (mpos (i_key x)) = Some y -> proper (i_key y) = true ->
    mpos (i_key y) = mpos (i_key x);
  ho_uniq i j x y : znth nodes i = Some x -> znth nodes j = Some y ->
    proper (i_key x) = true -> i_key x = i_key y -> i = j;
  (* only a proper key has a value *)
  ho_live i x : znth nodes i = Some x -> i_val x <> VNil -> proper (i_key x) = true;
}.

(** The node that has the key. *)
Definition node_of (nodes : list Node) (k : TValue) : option Z :=
  (fun p => Z.of_nat (fst p)) <$> list_find (fun nd => i_key nd = k) nodes.

Lemma znth_of_nat {A} (l : list A) (n : nat) : znth l (Z.of_nat n) = l !! n.
Proof. unfold znth. destruct (Z.ltb_spec (Z.of_nat n) 0); [lia|]. by rewrite Nat2Z.id. Qed.

Lemma node_of_Some_1 nodes k i :
  node_of nodes k = Some i -> exists nd, znth nodes i = Some nd /\ i_key nd = k.
Proof.
  unfold node_of. intros ((n & nd) & Hf & ->)%fmap_Some. cbn.
  apply list_find_Some in Hf as (Hl & Hk & _). rewrite znth_of_nat. eauto.
Qed.

Lemma node_of_None nodes k i nd :
  node_of nodes k = None -> znth nodes i = Some nd -> i_key nd <> k.
Proof.
  unfold node_of. intros H%fmap_None Hi.
  apply list_find_None in H. rewrite Forall_forall in H. by apply H, (znth_elem _ _ _ Hi).
Qed.

Lemma node_of_Some mpos nodes k i nd :
  hash_ok mpos nodes -> proper k = true -> znth nodes i = Some nd -> i_key nd = k ->
  node_of nodes k = Some i.
Proof.
  intros Hok Hp Hi Hk. destruct (node_of nodes k) as [j|] eqn:E.
  - apply node_of_Some_1 in E as (nd' & Hj & Hk'). f_equal. symmetry.
    eapply (ho_uniq _ _ Hok i j); eauto; congruence.
  - by destruct (node_of_None _ _ _ _ E Hi).
Qed.

(** A search for a proper key on the chain of its main position. *)
Lemma chain_search_spec mpos t k p :
  hash_ok mpos (t_node t) -> proper k = true ->
  (forall nd, p nd = true <-> i_key nd = k) ->
  chain_search t p (mpos k) = Ok (node_of (t_node t) k).
Proof.
  intros Hok Hk Hp. unfold chain_search.
  destruct (ho_chain _ _ Hok (mpos k) (ho_mpos _ _ Hok k)) as [l Hl].
  rewrite (chain_find_spec _ _ _ _ _ Hl) by by eapply chain_length. f_equal.
  destruct (first_of (t_node t) p l) as [i|] eqn:Ef.
  - apply first_of_Some in Ef as (_ & nd & Hi & Hpn). symmetry.
    eapply node_of_Some; eauto. by apply Hp.
  - destruct (node_of (t_node t) k) as [i|] eqn:En; [|done].
    apply node_of_Some_1 in En as (nd & Hi & Hkn).
    destruct (ho_reach _ _ Hok i nd Hi) as (l' & Hl' & Hin); [congruence|].
    rewrite Hkn in Hl'. rewrite (chain_functional _ _ _ _ Hl' Hl) in Hin.
    pose proof (first_of_None _ _ _ _ _ (fun x => chain_range _ _ _ x Hl) Ef Hin Hi).
    rewrite (proj2 (Hp nd) Hkn) in *. done.
Qed.

(** ** The table *)

(** The key is the index of a cell of the array part. *)
Definition in_array (t : Table) (k : TValue) : bool :=
  match k with VNumber n => (1 <=? n) && (n <=? t_sizearray t) | _ => false end.

Record table_ok `{StringHash} (t : Table) : Prop := {
  to_lsize : 0 <= t_lsizenode t <= MAXBITS;
  to_nodes : zlen (t_node t) = 2 ^ t_lsizenode t;
  to_array : 0 <= t_sizearray t <= zlen (t_array t);
  to_asize : t_sizearray t <= MAXASIZE;
  to_hash : hash_ok (mainposition t) (t_node t);
  (* array keys are not in the hash part *)
  to_apart i nd : znth (t_node t) i = Some nd -> in_array t (i_key nd) = false;
  (* any free position is before lastfree *)
  to_free i nd : t_dummy t = false -> znth (t_node t) i = Some nd -> i_key nd = VNil ->
    i < t_lastfree t;
  to_lastfree : t_lastfree t <= zlen (t_node t);
  to_dummy : t_dummy t = true ->
    t_node t = [dummynode_] /\ t_lsizenode t = 0 /\ t_lastfree t <= 0;
}.

(** Where a key is. *)
Definition slot_of (t : Table) (k : TValue) : option slot :=
  match k with
  | VNumber n => if in_array t k then Some (SArray (n - 1)) else SNode <$> node_of (t_node t) k
  | _ => SNode <$> node_of (t_node t) k
  end.

(** The value of a key: the table as a function. *)
Definition tget (t : Table) (k : TValue) : TValue :=
  match slot_of t k with
  | Some s => match slot_get t s with Ok v => v | Err _ => VNil end
  | None => VNil
  end.

Lemma MAXASIZE_eq : MAXASIZE = 2 ^ 26.
Proof. reflexivity. Qed.

Lemma sizenode_pow t : 0 <= t_lsizenode t <= MAXBITS -> sizenode t = 2 ^ t_lsizenode t.
Proof. unfold MAXBITS. intros. apply twoto_spec. lia. Qed.

Section search_spec.
Context `{StringHash}.

Lemma hashmod_range t n : 0 <= t_lsizenode t <= MAXBITS -> 0 <= n ->
  0 <= hashmod t n < 2 ^ t_lsizenode t.
Proof.
  intros Hl Hn. unfold hashmod. rewrite sizenode_pow by done.
  set (k := t_lsizenode t) in *. assert (1 <= 2 ^ k) by lia.
  assert (Hor : 1 <= Z.lor (2 ^ k - 1) 1 <= 2 ^ k).
  { destruct (decide (k = 0)) as [->|]; [done|].
    assert (Hpow : 2 ^ k = 2 * 2 ^ (k - 1)) by (apply pow2_half; lia).
    assert (Hodd : Z.lor (2 ^ k - 1) 1 = 2 ^ k - 1).
    { apply Z.bits_inj'. intros j Hj. rewrite Z.lor_spec.
      destruct (decide (j = 0)) as [->|].
      - rewrite !Z.bit0_odd, orb_true_r, Hpow.
        replace (2 * 2 ^ (k - 1) - 1) with (2 * (2 ^ (k - 1) - 1) + 1) by lia.
        by rewrite Z.odd_add, Z.odd_mul.
      - assert (H1 : Z.testbit 1 j = false) by (apply (Z.pow2_bits_false 0 j); lia).
        by rewrite H1, orb_false_r. }
    rewrite Hodd. assert (0 < 2 ^ (k - 1)) by lia. lia. }
  pose proof (Z.mod_pos_bound n (Z.lor (2 ^ k - 1) 1) ltac:(lia)). lia.
Qed.

Lemma mainposition_range t k :
  0 <= t_lsizenode t <= MAXBITS -> 0 <= mainposition t k < 2 ^ t_lsizenode t.
Proof.
  intros Hl.
  assert (Hp : forall n, 0 <= hashpow2 t n < 2 ^ t_lsizenode t).
  { intros n. unfold hashpow2. rewrite sizenode_pow by done.
    unfold MAXBITS in Hl. rewrite lmod_spec by lia. apply Z.mod_pos_bound. lia. }
  assert (Hm : forall n, 0 <= hashmod t (u32 n) < 2 ^ t_lsizenode t).
  { intros n. apply hashmod_range; [done|apply uwrap_range; lia]. }
  destruct k; cbn [mainposition]; unfold hashpointer, IntPoint, hashnum; auto.
  case_if; [lia|auto].
Qed.

Lemma arrayindex_in_array t k :
  table_ok t ->
  ((0 <? arrayindex k) && (arrayindex k <=? t_sizearray t)) = in_array t k /\
  (in_array t k = true -> k = VNumber (arrayindex k)).
Proof.
  intros Hok. pose proof (to_asize t Hok) as Has. rewrite MAXASIZE_eq in Has.
  destruct k; cbn [arrayindex in_array]; try done. unfold luai_numeq. cbv zeta.
  destruct (Z.eqb_spec (lua_number2int n) n) as [->|Hne].
  - split; [|done]. destruct (Z.ltb_spec 0 n), (Z.leb_spec 1 n); try lia; done.
  - assert (Hout : (1 <=? n) && (n <=? t_sizearray t) = false).
    { destruct (Z.leb_spec 1 n), (Z.leb_spec n (t_sizearray t)); try done.
      destruct Hne. apply Z.eqb_eq, number2int_exact. unfold in_s. cbn. lia. }
    by rewrite Hout.
Qed.

Lemma luaH_getnum_spec t key :
  table_ok t -> in_s 32 key -> luaH_getnum t key = Ok (slot_of t (VNumber key)).
Proof.
  intros Hok Hk. unfold luaH_getnum, slot_of, in_array.
  pose proof (to_array t Hok). pose proof (to_asize t Hok) as Has. rewrite MAXASIZE_eq in Has.
  assert (Hc : (u32 (key - 1) <? u32 (t_sizearray t)) = (1 <=? key) && (key <=? t_sizearray t)).
  { rewrite (uwrap_small 32 (t_sizearray t)) by (unfold in_u; lia). unfold in_s in Hk. cbn in Hk.
    destruct (Z.leb_spec 1 key) as [Hge|Hlt]; cbn [andb].
    - rewrite uwrap_small by (unfold in_u; lia).
      destruct (Z.ltb_spec (key - 1) (t_sizearray t)), (Z.leb_spec key (t_sizearray t)); lia || done.
    - replace (u32 (key - 1)) with (key - 1 + 2 ^ 32).
      + destruct (Z.ltb_spec (key - 1 + 2 ^ 32) (t_sizearray t)); [lia|done].
      + unfold uwrap. rewrite <-(Z_mod_plus_full (key - 1) 1), Z.mul_1_l, Z.mod_small; lia. }
  rewrite Hc. case_if; [done|].
  change (hashnum t key) with (mainposition t (VNumber key)).
  rewrite (chain_search_spec (mainposition t) t (VNumber key)); [done|apply (to_hash t Hok)|done|].
  intros nd. destruct (i_key nd); try (split; done).
  unfold luai_numeq. rewrite Z.eqb_eq. split; congruence.
Qed.

Lemma luaH_getstr_spec t key :
  table_ok t -> luaH_getstr t key = Ok (slot_of t (VString key)).
Proof.
  intros Hok. unfold luaH_getstr, slot_of.
  change (hashpow2 t (tsv_hash key)) with (mainposition t (VString key)).
  rewrite (chain_search_spec (mainposition t) t (VString key)); [done|apply (to_hash t Hok)|done|].
  intros nd. destruct (i_key nd); try (split; done). rewrite Z.eqb_eq. split; congruence.
Qed.

Lemma luaH_getany_spec t k :
  table_ok t -> proper k = true ->
  luaH_getany t k = Ok (SNode <$> node_of (t_node t) k).
Proof.
  intros Hok Hp. unfold luaH_getany.
  rewrite (chain_search_spec (mainposition t) t k); [done|apply (to_hash t Hok)|done|].
  intros nd. apply rawequal_spec.
Qed.

(** The main search function. *)
Lemma luaH_get_spec t k :
  table_ok t -> proper k = true -> luaH_get t k = Ok (slot_of t k).
Proof.
  intros Hok Hp. destruct k; cbn [luaH_get]; try done;
    try (rewrite luaH_getany_spec; done); [|by apply luaH_getstr_spec].
  unfold luai_numeq. cbv zeta.
  destruct (Z.eqb_spec (lua_number2int n) n) as [Heq|Hne].
  - rewrite Heq. apply luaH_getnum_spec; [done|]. by apply number2int_exact, Z.eqb_eq.
  - rewrite luaH_getany_spec by done. unfold slot_of.
    destruct (in_array t (VNumber n)) eqn:E; [|done].
    destruct (arrayindex_in_array t (VNumber n) Hok) as [_ Ha]. specialize (Ha E).
    cbn [arrayindex] in Ha. cbv zeta in Ha. unfold luai_numeq in Ha.
    rewrite (proj2 (Z.eqb_neq _ _) Hne) in Ha. injection Ha as ->. done.
Qed.
End search_spec.
