(* ===== verification/TableSet.v ===== *)
(** * TableSet.v: inserting a key into the hash part

    The three ways [newkey] places a key (in its own main position, after the
    colliding node, or in place of a colliding node that is moved) keep the
    invariant of the hash part and the value of every other key. *)

From S2P Require Import Prelude Machine Object Mem Table TableInv.

(** ** Stores to nodes *)

Lemma zlen_upd_node i f nodes : zlen (upd_node i f nodes) = zlen nodes.
Proof. unfold upd_node. destruct (znth nodes i); [apply zlen_zupd|done]. Qed.

Lemma znth_upd_node_eq i f nodes : znth (upd_node i f nodes) i = f <$> znth nodes i.
Proof.
  unfold upd_node. destruct (znth nodes i) eqn:E; [|done].
  apply znth_zupd_eq. by eapply znth_Some_lt.
Qed.

Lemma znth_upd_node_ne i j f nodes : i <> j -> znth (upd_node i f nodes) j = znth nodes j.
Proof. intros. unfold upd_node. destruct (znth nodes i); [by apply znth_zupd_ne|done]. Qed.

Lemma upd_node_upd_node i f g nodes :
  upd_node i f (upd_node i g nodes) = upd_node i (fun nd => f (g nd)) nodes.
Proof.
  unfold upd_node at 1. rewrite znth_upd_node_eq.
  destruct (znth nodes i) as [nd|] eqn:E; cbn; unfold upd_node; rewrite E; [|done].
  unfold zupd. case_if; [done|]. apply list_insert_insert_eq.
Qed.

(** The entries of a vector of nodes: the live keys and their values. *)
Definition bound (nodes : list Node) (k v : TValue) : Prop :=
  v <> VNil /\ exists i nd, znth nodes i = Some nd /\ i_key nd = k /\ i_val nd = v.

(** The node vector after a new key was put at [p]. *)
Record inserted (mpos : TValue -> Z) (nodes nodes' : list Node) (k : TValue) (p : Z) : Prop := {
  ins_len : zlen nodes' = zlen nodes;
  ins_ok : hash_ok mpos nodes';
  ins_at : exists nd, znth nodes' p = Some nd /\ i_key nd = k /\ i_val nd = VNil;
  ins_bound k' v : bound nodes' k' v <-> bound nodes k' v;
  (* no free node appears *)
  ins_free i nd : znth nodes' i = Some nd -> i_key nd = VNil -> znth nodes i = Some nd;
  ins_keys i nd : znth nodes' i = Some nd ->
    i_key nd = k \/ exists j nd', znth nodes j = Some nd' /\ i_key nd' = i_key nd;
}.

(** One free node at most is used. *)
Definition free_but (nodes nodes' : list Node) (n : Z) : Prop :=
  forall i nd, i <> n -> znth nodes i = Some nd -> i_key nd = VNil -> znth nodes' i = Some nd.

Lemma proper_nil k : proper k = true -> k <> VNil.
Proof. by destruct k. Qed.

Lemma chain_nil mpos nodes i x l :
  hash_ok mpos nodes -> znth nodes i = Some x -> i_key x = VNil -> chain nodes i l -> l = [i].
Proof.
  intros Hok Hi Hk Hc. destruct (ho_nil _ _ Hok i x Hi Hk) as (_ & Hn & _).
  inversion Hc; subst; [done|congruence].
Qed.

(** A node with no key is not the main position of another node's key. *)
Lemma mpos_not_free mpos nodes i x n y :
  hash_ok mpos nodes -> znth nodes i = Some x -> proper (i_key x) = true ->
  znth nodes n = Some y -> i_key y = VNil -> mpos (i_key x) <> n.
Proof.
  intros Hok Hi Hp Hn Hk <-. destruct (ho_reach _ _ Hok i x Hi Hp) as (l & Hc & Hin).
  rewrite (chain_nil _ _ _ _ _ Hok Hn Hk Hc) in Hin.
  apply list_elem_of_singleton in Hin. subst. rewrite Hn in Hi. simplify_eq.
  by rewrite Hk in Hp.
Qed.

Lemma live_not_free mpos nodes i x n y :
  hash_ok mpos nodes -> znth nodes i = Some x -> i_val x <> VNil ->
  znth nodes n = Some y -> i_key y = VNil -> n <> i.
Proof.
  intros Hok Hi Hv Hn Hk ->. assert (x = y) as -> by congruence.
  apply (ho_live _ _ Hok _ _ Hi) in Hv. by rewrite Hk in Hv.
Qed.

(** ** The main position is free or has no value *)

Section insert_main.
Context (mpos : TValue -> Z) (nodes : list Node) (k : TValue) (nd : Node).
Context (Hok : hash_ok mpos nodes) (Hk : proper k = true).
Context (Hnew : forall i x, znth nodes i = Some x -> i_key x <> k).
Context (Hmp : znth nodes (mpos k) = Some nd) (Hv : i_val nd = VNil).

Let nodes' := upd_node (mpos k) (set_key k) nodes.

Lemma main_lookup i x : znth nodes' i = Some x ->
  (i = mpos k /\ x = set_key k nd) \/ (i <> mpos k /\ znth nodes i = Some x).
Proof.
  unfold nodes'. intros H. destruct (decide (mpos k = i)) as [<-|].
  - rewrite znth_upd_node_eq, Hmp in H. cbn in H. simplify_eq. by left.
  - rewrite znth_upd_node_ne in H by done. by right.
Qed.

(** Every node keeps its next node. *)
Lemma main_next i x : znth nodes' i = Some x ->
  exists y, znth nodes i = Some y /\ i_next y = i_next x /\ i_val y = i_val x.
Proof. intros [[-> ->]|[_ H]]%main_lookup; eauto. Qed.

Lemma main_next' i y : znth nodes i = Some y ->
  exists x, znth nodes' i = Some x /\ i_next y = i_next x.
Proof.
  intros H. unfold nodes'. destruct (decide (mpos k = i)) as [<-|].
  - rewrite znth_upd_node_eq, H. cbn. eauto.
  - rewrite znth_upd_node_ne by done. eauto.
Qed.

Lemma main_chain i l : chain nodes i l -> chain nodes' i l.
Proof.
  induction 1 as [i y Hi Hn|i y j l Hi Hn Hc IH];
    destruct (main_next' i y Hi) as (x & Hx & E); [eapply chain_end|eapply chain_step]; eauto; congruence.
Qed.

Lemma insert_main_ok : hash_ok mpos nodes'.
Proof.
  pose proof (ho_mpos _ _ Hok k) as Hr.
  assert (Hlen : zlen nodes' = zlen nodes) by apply zlen_upd_node.
  split.
  - intros. rewrite Hlen. apply (ho_mpos _ _ Hok).
  - intros i Hi. rewrite Hlen in Hi. destruct (ho_chain _ _ Hok i Hi) as [l Hl].
    exists l. by apply main_chain.
  - intros i j x y m Hi Hj Hx Hy.
    apply main_next in Hi as (x' & Hi & Ex & _). apply main_next in Hj as (y' & Hj & Ey & _).
    apply (ho_inj _ _ Hok i j x' y' m); congruence.
  - intros i x Hi Hn. apply main_lookup in Hi as [[-> ->]|[Hne Hi]].
    { cbn in Hn. by apply proper_nil in Hk. }
    destruct (ho_nil _ _ Hok i x Hi Hn) as (? & ? & Hno). split_and!; try done.
    intros j y (y' & Hj & <- & _)%main_next. by eapply Hno.
  - intros i x Hi Hp. apply main_lookup in Hi as [[-> ->]|[Hne Hi]]; cbn [set_key i_key].
    + destruct (ho_chain _ _ Hok _ Hr) as [l Hl]. exists l. split; [by apply main_chain|].
      destruct (chain_head _ _ _ Hl) as [? ->]. by left.
    + destruct (ho_reach _ _ Hok i x Hi Hp) as (l & Hl & ?). exists l. split; [by apply main_chain|done].
  - intros i x y Hi Hp Hy Hpy. apply main_lookup in Hy as [[Heq ->]|[Hne Hy]]; [by rewrite Heq|].
    apply main_lookup in Hi as [[-> ->]|[_ Hi]]; cbn [set_key i_key] in *; [done|].
    by eapply (ho_first _ _ Hok i x y).
  - intros i j x y Hi Hj Hp He.
    apply main_lookup in Hi as [[-> ->]|[Hne Hi]];
      apply main_lookup in Hj as [[-> ->]|[Hnj Hj]]; cbn [set_key i_key] in *; try done.
    + by destruct (Hnew _ _ Hj).
    + by destruct (Hnew _ _ Hi).
    + by apply (ho_uniq _ _ Hok i j x y).
  - intros i x Hi Hn. apply main_lookup in Hi as [[-> ->]|[Hne Hi]]; [done|].
    by apply (ho_live _ _ Hok i x).
Qed.

Lemma insert_main : inserted mpos nodes nodes' k (mpos k) /\ free_but nodes nodes' (mpos k).
Proof.
  split; [split|].
  - apply zlen_upd_node.
  - apply insert_main_ok.
  - exists (set_key k nd). unfold nodes'. by rewrite znth_upd_node_eq, Hmp.
  - intros k' v. unfold bound. split; intros (Hnv & i & x & Hi & Hkx & Hvx); (split; [done|]).
    + apply main_lookup in Hi as [[-> ->]|[? Hi]]; [|eauto]. cbn in Hvx. congruence.
    + destruct (decide (mpos k = i)) as [<-|]; [congruence|].
      exists i, x. unfold nodes'. by rewrite znth_upd_node_ne.
  - intros i x [[-> ->]|[? Hi]]%main_lookup Hn; [|done]. cbn in Hn. by apply proper_nil in Hk.
  - intros i x [[-> ->]|[? Hi]]%main_lookup; [by left|]. right. eauto.
  - intros i x Hne Hi _. unfold nodes'. by rewrite znth_upd_node_ne.
Qed.
End insert_main.

(** ** The colliding node is in its main position *)

Section insert_after.
Context (mpos : TValue -> Z) (nodes : list Node) (k : TValue) (nd fr : Node) (n : Z).
Context (Hok : hash_ok mpos nodes) (Hk : proper k = true).
Context (Hnew : forall i x, znth nodes i = Some x -> i_key x <> k).
Context (Hmp : znth nodes (mpos k) = Some nd) (Hv : i_val nd <> VNil).
Context (Hmain : mpos (i_key nd) = mpos k).
Context (Hfr : znth nodes n = Some fr) (Hfk : i_key fr = VNil).

Let nodes' := upd_node n (set_key k)
  (upd_node (mpos k) (set_nxt (Some n)) (upd_node n (set_nxt (i_next nd)) nodes)).

Lemma after_ne : n <> mpos k.
Proof. by apply (live_not_free mpos nodes (mpos k) nd n fr). Qed.

Lemma after_fr : fr = mkNode VNil VNil None.
Proof.
  destruct (ho_nil _ _ Hok n fr Hfr Hfk) as (? & ? & _). destruct fr. cbn in *. congruence.
Qed.

Lemma after_at_n : znth nodes' n = Some (mkNode VNil k (i_next nd)).
Proof.
  pose proof after_ne. unfold nodes'.
  rewrite znth_upd_node_eq, znth_upd_node_ne, znth_upd_node_eq, Hfr by done. by rewrite after_fr.
Qed.

Lemma after_at_mp : znth nodes' (mpos k) = Some (set_nxt (Some n) nd).
Proof.
  pose proof after_ne. unfold nodes'.
  by rewrite znth_upd_node_ne, znth_upd_node_eq, znth_upd_node_ne, Hmp by done.
Qed.

Lemma after_other i : i <> n -> i <> mpos k -> znth nodes' i = znth nodes i.
Proof. intros. unfold nodes'. by rewrite !znth_upd_node_ne by done. Qed.

Lemma after_lookup i x : znth nodes' i = Some x ->
  (i = n /\ x = mkNode VNil k (i_next nd)) \/
  (i = mpos k /\ x = set_nxt (Some n) nd) \/
  (i <> n /\ i <> mpos k /\ znth nodes i = Some x).
Proof.
  intros H. destruct (decide (i = n)) as [->|]; [left|right].
  { rewrite after_at_n in H. by simplify_eq. }
  destruct (decide (i = mpos k)) as [->|]; [left|right].
  { rewrite after_at_mp in H. by simplify_eq. }
  by rewrite after_other in H.
Qed.

Lemma after_no_next j y : znth nodes j = Some y -> i_next y <> Some n.
Proof. destruct (ho_nil _ _ Hok n fr Hfr Hfk) as (_ & _ & Hno). apply Hno. Qed.

Lemma after_chain i l : chain nodes i l -> i <> n ->
  exists l', chain nodes' i l' /\ (forall x, x ∈ l -> x ∈ l') /\ (mpos k ∈ l -> n ∈ l').
Proof.
  induction 1 as [i y Hi Hn|i y j l Hi Hn Hc IH]; intros Hne.
  - destruct (decide (i = mpos k)) as [->|Hi'].
    + assert (y = nd) as -> by congruence. exists [mpos k; n]. split.
      * eapply chain_step; [apply after_at_mp|done|]. eapply chain_end; [apply after_at_n|done].
      * set_solver.
    + exists [i]. split; [|set_solver]. eapply chain_end; [by rewrite after_other|done].
  - assert (Hj : j <> n) by (intros ->; by eapply after_no_next).
    destruct (IH Hj) as (l' & Hl' & Hsub & Hmn).
    destruct (decide (i = mpos k)) as [->|Hi'].
    + assert (y = nd) as -> by congruence. exists (mpos k :: n :: l'). split; [|set_solver].
      eapply chain_step; [apply after_at_mp|done|]. eapply chain_step; [apply after_at_n|done|done].
    + exists (i :: l'). split; [|set_solver].
      eapply chain_step; [by rewrite after_other|done|done].
Qed.

Lemma after_chain_n : exists l, chain nodes' n l.
Proof.
  destruct (ho_chain _ _ Hok (mpos k) (ho_mpos _ _ Hok k)) as [l Hl].
  inversion Hl as [? nd' Hnd' Hnx|? nd' j l' Hnd' Hnx Hl'].
  - exists [n]. eapply chain_end; [apply after_at_n|]. cbn. congruence.
  - destruct (after_chain j l' Hl') as (l'' & Hl'' & _).
    + intros Hjn. apply (after_no_next (mpos k) nd Hmp). congruence.
    + exists (n :: l''). eapply chain_step; [apply after_at_n| |done]. cbn. congruence.
Qed.

Lemma after_inj : forall i j x y m, znth nodes' i = Some x -> znth nodes' j = Some y ->
  i_next x = Some m -> i_next y = Some m -> i = j.
Proof.
  pose proof after_ne as Hne. pose proof (ho_live _ _ Hok _ _ Hmp Hv) as Hpn.
  intros i j x y m Hi Hj Hx Hy.
  assert (Hnn : forall i x, znth nodes i = Some x -> i_next x <> Some n) by apply after_no_next.
  apply after_lookup in Hi as [[-> ->]|[[-> ->]|(? & ? & Hi)]];
    apply after_lookup in Hj as [[-> ->]|[[-> ->]|(? & ? & Hj)]]; cbn in Hx, Hy; try done;
    try (exfalso; assert (m = n) as -> by congruence; eapply Hnn; [|eassumption]; eassumption).
  + by pose proof (ho_inj _ _ Hok (mpos k) j nd y m Hmp Hj Hx Hy).
  + by pose proof (ho_inj _ _ Hok (mpos k) i nd x m Hmp Hi Hy Hx).
  + by apply (ho_inj _ _ Hok i j x y m).
Qed.

Lemma after_nil : forall i x, znth nodes' i = Some x -> i_key x = VNil ->
  i_val x = VNil /\ i_next x = None /\
  forall j y, znth nodes' j = Some y -> i_next y <> Some i.
Proof.
  pose proof after_ne as Hne. pose proof (ho_live _ _ Hok _ _ Hmp Hv) as Hpn.
  intros i x Hi Hn. apply after_lookup in Hi as [[-> ->]|[[-> ->]|(Hin & Him & Hi)]]; cbn in Hn.
  { by apply proper_nil in Hk. }
  { rewrite Hn in Hpn. done. }
  destruct (ho_nil _ _ Hok i x Hi Hn) as (? & ? & Hno). split_and!; try done.
  intros j y Hj. apply after_lookup in Hj as [[-> ->]|[[-> ->]|(? & ? & Hj)]]; cbn.
  + by eapply Hno.
  + congruence.
  + by eapply Hno.
Qed.

Lemma after_reach : forall i x, znth nodes' i = Some x -> proper (i_key x) = true ->
  exists l, chain nodes' (mpos (i_key x)) l /\ i ∈ l.
Proof.
  pose proof after_ne as Hne. pose proof (ho_live _ _ Hok _ _ Hmp Hv) as Hpn.
  intros i x Hi Hp.
  assert (Hch : forall m, 0 <= m < zlen nodes -> m <> n -> exists l l', chain nodes m l /\
    chain nodes' m l' /\ (forall x, x ∈ l -> x ∈ l') /\ (mpos k ∈ l -> n ∈ l')).
  { intros m Hm Hmn. destruct (ho_chain _ _ Hok m Hm) as [l Hl].
    destruct (after_chain m l Hl Hmn) as (l' & ?). eauto. }
  apply after_lookup in Hi as [[-> ->]|[[-> ->]|(Hin & Him & Hi)]]; cbn [i_key set_nxt].
  + destruct (Hch (mpos k) (ho_mpos _ _ Hok k) (not_eq_sym Hne)) as (l & l' & Hl & Hl' & _ & Hn).
    exists l'. split; [done|]. apply Hn. destruct (chain_head _ _ _ Hl) as [? ->]. by left.
  + rewrite Hmain.
    destruct (Hch (mpos k) (ho_mpos _ _ Hok k) (not_eq_sym Hne)) as (l & l' & Hl & Hl' & _).
    exists l'. split; [done|]. destruct (chain_head _ _ _ Hl') as [? ->]. by left.
  + destruct (ho_reach _ _ Hok i x Hi Hp) as (l & Hl & Hil).
    pose proof (mpos_not_free _ _ _ _ _ _ Hok Hi Hp Hfr Hfk).
    destruct (after_chain _ _ Hl) as (l' & Hl' & Hsub & _); [done|]. exists l'. auto.
Qed.

Lemma after_first : forall i x y, znth nodes' i = Some x -> proper (i_key x) = true ->
  znth nodes' (mpos (i_key x)) = Some y -> proper (i_key y) = true ->
  mpos (i_key y) = mpos (i_key x).
Proof.
  pose proof after_ne as Hne. pose proof (ho_live _ _ Hok _ _ Hmp Hv) as Hpn.
  intros i x y Hi Hp Hy Hpy.
  assert (Hmn : mpos (i_key x) <> n).
  { apply after_lookup in Hi as [[-> ->]|[[-> ->]|(Hin & Him & Hi)]]; cbn [i_key set_nxt];
      [congruence..|by eapply mpos_not_free]. }
  apply after_lookup in Hy as [[Hy _]|[[Hy ->]|(Hyn & Hym & Hy)]]; cbn [i_key set_nxt]; [done|congruence|].
  apply after_lookup in Hi as [[-> ->]|[[-> ->]|(Hin & Him & Hi)]]; cbn [i_key set_nxt] in *;
    [done|congruence|by apply (ho_first _ _ Hok i x y)].
Qed.

Lemma after_uniq : forall i j x y, znth nodes' i = Some x -> znth nodes' j = Some y ->
  proper (i_key x) = true -> i_key x = i_key y -> i = j.
Proof.
  pose proof after_ne as Hne. pose proof (ho_live _ _ Hok _ _ Hmp Hv) as Hpn.
  intros i j x y Hi Hj Hp He.
  apply after_lookup in Hi as [[-> ->]|[[-> ->]|(? & ? & Hi)]];
    apply after_lookup in Hj as [[-> ->]|[[-> ->]|(? & ? & Hj)]]; cbn in He, Hp; try done.
  + by destruct (Hnew _ _ Hmp).
  + by destruct (Hnew _ _ Hj).
  + by destruct (Hnew _ _ Hmp).
  + by apply (ho_uniq _ _ Hok _ _ nd y).
  + by destruct (Hnew _ _ Hi).
  + by apply (ho_uniq _ _ Hok _ _ x nd).
  + by apply (ho_uniq _ _ Hok _ _ x y).
Qed.

Lemma insert_after_ok : hash_ok mpos nodes'.
Proof.
  pose proof after_ne as Hne. pose proof (ho_live _ _ Hok _ _ Hmp Hv) as Hpn.
  assert (Hlen : zlen nodes' = zlen nodes) by (unfold nodes'; by rewrite !zlen_upd_node).
  assert (Hchain : forall i, 0 <= i < zlen nodes -> i <> n -> exists l, chain nodes' i l).
  { intros i Hi Hin. destruct (ho_chain _ _ Hok i Hi) as [l Hl].
    destruct (after_chain i l Hl Hin) as (l' & ? & _). eauto. }
  split.
  - intros. rewrite Hlen. apply (ho_mpos _ _ Hok).
  - intros i Hi. rewrite Hlen in Hi. destruct (decide (i = n)) as [->|]; [|by apply Hchain].
    apply after_chain_n.
  - apply after_inj.
  - apply after_nil.
  - apply after_reach.
  - apply after_first.
  - apply after_uniq.
  - intros i x Hi Hvx. apply after_lookup in Hi as [[-> ->]|[[-> ->]|(? & ? & Hi)]]; cbn in *; try done.
    by apply (ho_live _ _ Hok i x).
Qed.

Lemma insert_after : inserted mpos nodes nodes' k n /\ free_but nodes nodes' n.
Proof.
  pose proof after_ne as Hne. pose proof (ho_live _ _ Hok _ _ Hmp Hv) as Hpn.
  assert (Hdown : forall i x, i <> n -> znth nodes i = Some x -> exists x',
    znth nodes' i = Some x' /\ i_key x' = i_key x /\ i_val x' = i_val x /\ (i <> mpos k -> x' = x)).
  { intros i x Hin Hi. destruct (decide (i = mpos k)) as [->|].
    - assert (x = nd) as -> by congruence. rewrite after_at_mp. eexists. split_and!; done.
    - rewrite after_other by done. eauto. }
  split; [split|].
  - unfold nodes'. by rewrite !zlen_upd_node.
  - apply insert_after_ok.
  - eexists. split; [apply after_at_n|done].
  - intros k' v. unfold bound. split; intros (Hnv & i & x & Hi & Hkx & Hvx); (split; [done|]).
    + apply after_lookup in Hi as [[-> ->]|[[-> ->]|(? & ? & Hi)]]; cbn in *; [congruence|eauto..].
    + destruct (decide (i = n)) as [->|Hin].
      { rewrite Hfr, after_fr in Hi. by simplify_eq. }
      destruct (Hdown i x Hin Hi) as (x' & ? & ? & ? & _). exists i, x'. split_and!; congruence.
  - intros i x Hi Hn. apply after_lookup in Hi as [[-> ->]|[[-> ->]|(? & ? & Hi)]]; cbn in *;
      [by apply proper_nil in Hk|by rewrite Hn in Hpn|done].
  - intros i x Hi. apply after_lookup in Hi as [[-> ->]|[[-> ->]|(? & ? & Hi)]]; cbn in *; eauto.
  - intros i x Hin Hi Hn. destruct (decide (i = mpos k)) as [->|]; [|by rewrite after_other].
    rewrite Hmp in Hi. simplify_eq. by rewrite Hn in Hpn.
Qed.
End insert_after.

(** ** The colliding node is moved to a free node *)

Section insert_move.
Context (mpos : TValue -> Z) (nodes : list Node) (k : TValue) (nd fr pr : Node) (n prev : Z).
Context (Hok : hash_ok mpos nodes) (Hk : proper k = true).
Context (Hnew : forall i x, znth nodes i = Some x -> i_key x <> k).
Context (Hmp : znth nodes (mpos k) = Some nd) (Hv : i_val nd <> VNil).
Context (Hmain : mpos (i_key nd) <> mpos k).
Context (Hfr : znth nodes n = Some fr) (Hfk : i_key fr = VNil).
Context (Hprev : znth nodes prev = Some pr) (Hpn : i_next pr = Some (mpos k)).

Let nodes' :=
  zupd (mpos k) (mkNode VNil k None) (zupd n nd (upd_node prev (set_nxt (Some n)) nodes)).

(** A node keeps its key and its value, with [n] in place of [mp]. *)
Let sigma (i : Z) : Z := if decide (i = mpos k) then n else i.

Lemma move_ne : n <> mpos k.
Proof. by apply (live_not_free mpos nodes (mpos k) nd n fr). Qed.

Lemma move_no_next j y : znth nodes j = Some y -> i_next y <> Some n.
Proof. destruct (ho_nil _ _ Hok n fr Hfr Hfk) as (_ & _ & Hno). apply Hno. Qed.

Lemma move_prev_n : prev <> n.
Proof.
  intros ->. destruct (ho_nil _ _ Hok n fr Hfr Hfk) as (_ & Hnone & _). congruence.
Qed.

(** A node is not its own next: chains end. *)
Lemma move_prev_mp : prev <> mpos k.
Proof.
  intros E. destruct (ho_chain _ _ Hok (mpos k) (ho_mpos _ _ Hok k)) as [l Hl].
  pose proof (chain_NoDup _ _ _ Hl) as Hnd. rewrite E in Hprev.
  inversion Hl as [|? x j l' Hx Hxn Hl' Heq]; subst; [congruence|].
  assert (j = mpos k) as -> by congruence. destruct (chain_head _ _ _ Hl') as [l'' ->].
  apply NoDup_cons in Hnd as [Hnd _]. apply Hnd. by left.
Qed.

(** No key of the table has the main position of the new one. *)
Lemma move_no_main i x : znth nodes i = Some x -> proper (i_key x) = true -> mpos (i_key x) <> mpos k.
Proof.
  intros Hi Hp E. apply Hmain. rewrite <-E.
  apply (ho_first _ _ Hok i x nd Hi Hp); [by rewrite E|by apply (ho_live _ _ Hok _ _ Hmp)].
Qed.

Lemma move_at_mp : znth nodes' (mpos k) = Some (mkNode VNil k None).
Proof. unfold nodes'. apply znth_zupd_eq. rewrite zlen_zupd, zlen_upd_node. apply (ho_mpos _ _ Hok). Qed.

Lemma move_at_n : znth nodes' n = Some nd.
Proof.
  pose proof move_ne. unfold nodes'. rewrite znth_zupd_ne by done. apply znth_zupd_eq.
  rewrite zlen_upd_node. by eapply znth_Some_lt.
Qed.

Lemma move_at_prev : znth nodes' prev = Some (set_nxt (Some n) pr).
Proof.
  pose proof move_prev_n. pose proof move_prev_mp. unfold nodes'.
  by rewrite !znth_zupd_ne, znth_upd_node_eq, Hprev by done.
Qed.

Lemma move_other i : i <> n -> i <> mpos k -> i <> prev -> znth nodes' i = znth nodes i.
Proof. intros. unfold nodes'. by rewrite !znth_zupd_ne, znth_upd_node_ne by done. Qed.

Lemma move_lookup i x : znth nodes' i = Some x ->
  (i = mpos k /\ x = mkNode VNil k None) \/ (i = n /\ x = nd) \/
  (i = prev /\ x = set_nxt (Some n) pr) \/
  (i <> n /\ i <> mpos k /\ i <> prev /\ znth nodes i = Some x).
Proof.
  intros H. destruct (decide (i = mpos k)) as [->|]; [left|right].
  { rewrite move_at_mp in H. by simplify_eq. }
  destruct (decide (i = n)) as [->|]; [left|right].
  { rewrite move_at_n in H. by simplify_eq. }
  destruct (decide (i = prev)) as [->|]; [left|right].
  { rewrite move_at_prev in H. by simplify_eq. }
  by rewrite move_other in H.
Qed.

(** Where an old node is now. *)
Lemma move_sigma i x : znth nodes i = Some x -> i <> n ->
  exists x', znth nodes' (sigma i) = Some x' /\ i_key x' = i_key x /\ i_val x' = i_val x /\
    i_next x' = sigma <$> i_next x.
Proof.
  intros Hi Hin. unfold sigma at 1. destruct (decide (i = mpos k)) as [->|Him].
  - assert (x = nd) as -> by congruence. exists nd. rewrite move_at_n. split_and!; try done.
    destruct (i_next nd) as [j|] eqn:Ej; [|done]. cbn. unfold sigma.
    destruct (decide (j = mpos k)) as [->|]; [|done].
    exfalso. apply move_prev_mp. by apply (ho_inj _ _ Hok prev (mpos k) pr nd (mpos k)).
  - destruct (decide (i = prev)) as [->|Hip].
    + assert (x = pr) as -> by congruence. exists (set_nxt (Some n) pr). rewrite move_at_prev.
      split_and!; try done. rewrite Hpn. cbn. unfold sigma. by rewrite decide_True.
    + exists x. rewrite move_other by done. split_and!; try done.
      destruct (i_next x) as [j|] eqn:Ej; [|done]. cbn. unfold sigma.
      destruct (decide (j = mpos k)) as [->|]; [|done].
      exfalso. apply Hip. by apply (ho_inj _ _ Hok i prev x pr (mpos k)).
Qed.

Lemma move_chain i l : chain nodes i l -> i <> n -> chain nodes' (sigma i) (sigma <$> l).
Proof.
  induction 1 as [i y Hi Hn|i y j l Hi Hn Hc IH]; intros Hne;
    destruct (move_sigma i y Hi Hne) as (x & Hx & _ & _ & Hxn); rewrite Hn in Hxn; cbn in Hxn.
  - by eapply chain_end.
  - eapply chain_step; [done..|]. apply IH. intros ->. exact (move_no_next _ _ Hi Hn).
Qed.

Lemma sigma_main i x : znth nodes i = Some x -> proper (i_key x) = true ->
  sigma (mpos (i_key x)) = mpos (i_key x).
Proof. intros. unfold sigma. rewrite decide_False; [done|by eapply move_no_main]. Qed.

(** Every node of the new vector but the new one is an old one. *)
Lemma move_back i x : znth nodes' i = Some x -> i <> mpos k ->
  exists j y, znth nodes j = Some y /\ i_key y = i_key x /\ i_val y = i_val x /\
    i_next x = sigma <$> i_next y /\ i = sigma j /\ (j <> n).
Proof.
  intros Hi Hne.
  assert (exists j y, znth nodes j = Some y /\ i = sigma j /\ j <> n) as (j & y & Hj & -> & Hjn).
  { apply move_lookup in Hi as [[? _]|[[-> ->]|[[-> ->]|(? & ? & ? & Hi)]]]; [done|..]; unfold sigma.
    - exists (mpos k), nd. rewrite decide_True by done. split_and!; [done..|]. apply not_eq_sym, move_ne.
    - exists prev, pr. rewrite decide_False by done. split_and!; [done..|apply move_prev_n].
    - exists i, x. by rewrite decide_False. }
  destruct (move_sigma j y Hj Hjn) as (x' & Hx' & ? & ? & ?).
  assert (x' = x) as -> by congruence. eauto 10.
Qed.

Lemma sigma_inj i j : sigma i = sigma j -> i <> n -> j <> n -> i = j.
Proof. unfold sigma. repeat case_decide; congruence. Qed.

Lemma move_inj : forall i j x y m, znth nodes' i = Some x -> znth nodes' j = Some y ->
  i_next x = Some m -> i_next y = Some m -> i = j.
Proof.
  pose proof move_ne as Hne.
  intros i j x y m Hi Hj Hx Hy.
  destruct (decide (i = mpos k)) as [->|Him]; [rewrite move_at_mp in Hi; by simplify_eq|].
  destruct (decide (j = mpos k)) as [->|Hjm]; [rewrite move_at_mp in Hj; by simplify_eq|].
  destruct (move_back i x Hi Him) as (i0 & x0 & Hi0 & _ & _ & Hnx & -> & Hi0n).
  destruct (move_back j y Hj Hjm) as (j0 & y0 & Hj0 & _ & _ & Hny & -> & Hj0n).
  rewrite Hx in Hnx. rewrite Hy in Hny.
  destruct (i_next x0) as [a|] eqn:Ea, (i_next y0) as [b|] eqn:Eb; cbn in Hnx, Hny; try done.
  assert (a = b) as ->.
  { apply sigma_inj; [congruence|intros ->..]; [exact (move_no_next _ _ Hi0 Ea)|exact (move_no_next _ _ Hj0 Eb)]. }
  f_equal. by apply (ho_inj _ _ Hok i0 j0 x0 y0 b).
Qed.

Lemma move_nil : forall i x, znth nodes' i = Some x -> i_key x = VNil ->
  i_val x = VNil /\ i_next x = None /\
  forall j y, znth nodes' j = Some y -> i_next y <> Some i.
Proof.
  pose proof move_ne as Hne.
  intros i x Hi Hn. destruct (decide (i = mpos k)) as [->|Him].
  { rewrite move_at_mp in Hi. simplify_eq. by apply proper_nil in Hk. }
  destruct (move_back i x Hi Him) as (j & y & Hj & Hjk & Hjv & Hjn & -> & Hjne).
  destruct (ho_nil _ _ Hok j y Hj) as (Hy1 & Hy2 & Hno); [congruence|].
  assert (Hjs : sigma j = j).
  { unfold sigma. case_decide as E; [|done]. subst j. congruence. }
  split_and!; [congruence|by rewrite Hjn, Hy2|]. rewrite Hjs.
  intros m z Hm Hz. destruct (decide (m = mpos k)) as [->|Hmm].
  { rewrite move_at_mp in Hm. by simplify_eq. }
  destruct (move_back m z Hm Hmm) as (m0 & z0 & Hm0 & _ & _ & Hzn & _).
  rewrite Hz in Hzn. destruct (i_next z0) as [b|] eqn:Eb; cbn in Hzn; [|done].
  apply (Hno m0 z0 Hm0). rewrite Eb. f_equal. symmetry.
  apply sigma_inj; [congruence|done|]. intros ->. exact (move_no_next _ _ Hm0 Eb).
Qed.

Lemma move_reach : forall i x, znth nodes' i = Some x -> proper (i_key x) = true ->
  exists l, chain nodes' (mpos (i_key x)) l /\ i ∈ l.
Proof.
  pose proof move_ne as Hne.
  intros i x Hi Hp. destruct (decide (i = mpos k)) as [->|Him].
  { rewrite move_at_mp in Hi. simplify_eq. cbn. exists [mpos k]. split; [|by left].
    eapply chain_end; [apply move_at_mp|done]. }
  destruct (move_back i x Hi Him) as (j & y & Hj & Hjk & _ & _ & -> & Hjne).
  rewrite <-Hjk in *. destruct (ho_reach _ _ Hok j y Hj Hp) as (l & Hl & Hin).
  exists (sigma <$> l). split; [|by apply list_elem_of_fmap_2].
  rewrite <-(sigma_main j y Hj Hp). apply move_chain; [done|]. by eapply mpos_not_free.
Qed.

Lemma move_first : forall i x y, znth nodes' i = Some x -> proper (i_key x) = true ->
  znth nodes' (mpos (i_key x)) = Some y -> proper (i_key y) = true ->
  mpos (i_key y) = mpos (i_key x).
Proof.
  pose proof move_ne as Hne.
  intros i x y Hi Hp Hy Hpy. destruct (decide (mpos (i_key x) = mpos k)) as [E|Hxm].
  { rewrite E in Hy. rewrite move_at_mp in Hy. simplify_eq. by rewrite E. }
  destruct (decide (i = mpos k)) as [->|Him]; [rewrite move_at_mp in Hi; by simplify_eq|].
  destruct (move_back i x Hi Him) as (j & x0 & Hj & Hjk & _ & _ & -> & Hjne).
  destruct (move_back _ y Hy Hxm) as (m & y0 & Hm & Hmk & _ & _ & Hms & Hmne).
  rewrite <-Hjk, <-Hmk in *. apply (ho_first _ _ Hok j x0 y0); try done.
  rewrite <-(sigma_main j x0 Hj Hp) in Hms. apply sigma_inj in Hms; [by subst|by eapply mpos_not_free|done].
Qed.

Lemma move_uniq : forall i j x y, znth nodes' i = Some x -> znth nodes' j = Some y ->
  proper (i_key x) = true -> i_key x = i_key y -> i = j.
Proof.
  pose proof move_ne as Hne.
  intros i j x y Hi Hj Hp He.
  destruct (decide (i = mpos k)) as [->|Him], (decide (j = mpos k)) as [->|Hjm]; [done|..].
  + destruct (move_back j y Hj Hjm) as (m & y0 & Hm & Hmk & _). rewrite move_at_mp in Hi. simplify_eq.
    destruct (Hnew m y0 Hm). by rewrite Hmk.
  + destruct (move_back i x Hi Him) as (m & x0 & Hm & Hmk & _). rewrite move_at_mp in Hj. simplify_eq.
    destruct (Hnew m x0 Hm). by rewrite Hmk.
  + destruct (move_back i x Hi Him) as (i0 & x0 & Hi0 & Hik & _ & _ & -> & _).
    destruct (move_back j y Hj Hjm) as (j0 & y0 & Hj0 & Hjk & _ & _ & -> & _).
    f_equal. apply (ho_uniq _ _ Hok i0 j0 x0 y0); congruence.
Qed.

Lemma insert_move_ok : hash_ok mpos nodes'.
Proof.
  pose proof move_ne as Hne.
  assert (Hlen : zlen nodes' = zlen nodes) by (unfold nodes'; by rewrite !zlen_zupd, zlen_upd_node).
  split.
  - intros. rewrite Hlen. apply (ho_mpos _ _ Hok).
  - intros i Hi. rewrite Hlen in Hi. destruct (decide (i = mpos k)) as [->|Him].
    { exists [mpos k]. eapply chain_end; [apply move_at_mp|done]. }
    destruct (znth_is_Some nodes' i) as [x Hx]; [by rewrite Hlen|].
    destruct (move_back i x Hx Him) as (j & y & Hj & _ & _ & _ & -> & Hjn).
    destruct (ho_chain _ _ Hok j) as [l Hl]; [by eapply znth_Some_lt|].
    exists (sigma <$> l). by apply move_chain.
  - apply move_inj.
  - apply move_nil.
  - apply move_reach.
  - apply move_first.
  - apply move_uniq.
  - intros i x Hi Hvx. destruct (decide (i = mpos k)) as [->|Him].
    { rewrite move_at_mp in Hi. by simplify_eq. }
    destruct (move_back i x Hi Him) as (j & y & Hj & Hjk & Hjv & _).
    rewrite <-Hjk. apply (ho_live _ _ Hok j y Hj). congruence.
Qed.

Lemma insert_move : inserted mpos nodes nodes' k (mpos k) /\ free_but nodes nodes' n.
Proof.
  pose proof move_ne as Hne.
  split; [split|].
  - unfold nodes'. by rewrite !zlen_zupd, zlen_upd_node.
  - apply insert_move_ok.
  - eexists. split; [apply move_at_mp|done].
  - intros k' v. unfold bound. split; intros (Hnv & i & x & Hi & Hkx & Hvx); (split; [done|]).
    + destruct (decide (i = mpos k)) as [->|Him]; [rewrite move_at_mp in Hi; by simplify_eq|].
      destruct (move_back i x Hi Him) as (j & y & Hj & Hjk & Hjv & _). exists j, y. split_and!; congruence.
    + destruct (decide (i = n)) as [->|Hin].
      { destruct (ho_nil _ _ Hok n fr Hfr Hfk) as [Hfv _]. congruence. }
      destruct (move_sigma i x Hi Hin) as (x' & ? & ? & ? & _). exists (sigma i), x'. split_and!; congruence.
  - intros i x Hi Hn. destruct (decide (i = mpos k)) as [->|Him].
    { rewrite move_at_mp in Hi. simplify_eq. by apply proper_nil in Hk. }
    apply move_lookup in Hi as [[? _]|[[-> ->]|[[-> ->]|(? & ? & ? & Hi)]]]; try done; cbn in Hn.
    + apply (ho_live _ _ Hok _ _ Hmp) in Hv. by rewrite Hn in Hv.
    + destruct (ho_nil _ _ Hok _ _ Hprev Hn) as (_ & ? & _). congruence.
  - intros i x Hi. destruct (decide (i = mpos k)) as [->|Him].
    { rewrite move_at_mp in Hi. simplify_eq. by left. }
    right. destruct (move_back i x Hi Him) as (j & y & Hj & Hjk & _). eauto.
  - intros i x Hin Hi Hn. rewrite move_other; [done..| |]; intros ->.
    + assert (x = nd) as -> by congruence. apply (ho_live _ _ Hok _ _ Hmp) in Hv. by rewrite Hn in Hv.
    + assert (x = pr) as -> by congruence. destruct (ho_nil _ _ Hok _ _ Hi Hn) as (_ & ? & _). congruence.
Qed.
End insert_move.
