(* ===== verification/TablePut.v ===== *)
(** * TablePut.v: setting a key of a table that has room for it

    [newkey] with a free node left, and the functions that find or make the
    place of a key.  The effect of a store is stated on [tget]: the table is
    a function, updated at one point. *)

From S2P Require Import Prelude Machine Object Mem Table TableInv TableSet.

(** ** Free nodes *)

Definition nfree (nodes : list Node) : Z := zlen (filter (fun nd => i_key nd = VNil) nodes).

Lemma nfree_pos nodes i nd : znth nodes i = Some nd -> i_key nd = VNil -> 0 < nfree nodes.
Proof.
  intros Hi Hk. unfold nfree, zlen.
  assert (Hin : nd ∈ filter (fun nd => i_key nd = VNil) nodes).
  { apply list_elem_of_filter. split; [done|by eapply znth_elem]. }
  destruct (filter _ nodes); [by apply elem_of_nil in Hin|cbn; lia].
Qed.

Lemma nfree_zero nodes : nfree nodes = 0 -> forall i nd, znth nodes i = Some nd -> i_key nd <> VNil.
Proof. intros H0 i nd Hi Hk. pose proof (nfree_pos nodes i nd Hi Hk). lia. Qed.

Lemma nfree_cons nd nodes : nfree (nd :: nodes) = (if decide (i_key nd = VNil) then 1 else 0) + nfree nodes.
Proof. unfold nfree. rewrite filter_cons. case_decide; rewrite ?zlen_cons; lia. Qed.

Lemma nfree_app l1 l2 : nfree (l1 ++ l2) = nfree l1 + nfree l2.
Proof. unfold nfree. by rewrite filter_app, zlen_app. Qed.

Lemma nfree_mono nodes nodes' :
  Forall2 (fun x y => i_key x = VNil -> i_key y = VNil) nodes nodes' -> nfree nodes <= nfree nodes'.
Proof.
  induction 1 as [|x y l l' Hxy _ IH]; [done|]. rewrite !nfree_cons.
  repeat case_decide; try lia. tauto.
Qed.

Lemma nfree_zupd n nd nodes : nfree nodes <= nfree (zupd n nd nodes) + 1.
Proof.
  unfold zupd. case_if; [lia|]. destruct (decide (Z.to_nat n < length nodes)%nat) as [Hlt|].
  - destruct (lookup_lt_is_Some_2 _ _ Hlt) as [x Hx].
    rewrite <-(take_drop_middle _ _ _ Hx) at 1. rewrite insert_take_drop by done.
    rewrite !nfree_app, !nfree_cons. repeat case_decide; lia.
  - rewrite list_insert_ge by lia. lia.
Qed.

(** An update of the nodes that uses one free node at most. *)
Lemma free_but_nfree nodes nodes' n :
  zlen nodes' = zlen nodes -> free_but nodes nodes' n -> nfree nodes <= nfree nodes' + 1.
Proof.
  intros Hlen Hf. transitivity (nfree (zupd n (mkNode VNil (VNumber 0) None) nodes) + 1); [apply nfree_zupd|].
  apply Z.add_le_mono_r, nfree_mono, Forall2_same_length_lookup_2.
  { pose proof (zlen_zupd n (mkNode VNil (VNumber 0) None) nodes). unfold zlen in *. lia. }
  intros i x y Hx Hy Hk. rewrite <-znth_of_nat in Hx, Hy.
  destruct (decide (n = Z.of_nat i)) as [->|Hne].
  - rewrite znth_zupd_eq in Hx; [by simplify_eq|]. rewrite <-Hlen. by eapply znth_Some_lt.
  - rewrite znth_zupd_ne in Hx by done.
    rewrite (Hf (Z.of_nat i) x ltac:(done) Hx Hk) in Hy. congruence.
Qed.

(** The search for a free node: the last one before [lastfree]. *)
Lemma getfreepos_loop_spec fuel nodes lf :
  lf <= zlen nodes -> (Z.to_nat lf < fuel)%nat ->
  exists o lf', getfreepos_loop fuel nodes lf = Ok (o, lf') /\ lf' < lf /\
    match o with
    | Some n => lf' = n /\ 0 <= n /\ (exists nd, znth nodes n = Some nd /\ i_key nd = VNil)
    | None => lf' < 0
    end /\
    (forall i nd, lf' < i < lf -> znth nodes i = Some nd -> i_key nd <> VNil).
Proof.
  revert lf. induction fuel as [|fuel IH]; intros lf Hlf Hf; [lia|]. cbn [getfreepos_loop].
  destruct (Z.gtb_spec lf 0) as [Hgt|Hle].
  - destruct (znth_is_Some nodes (lf - 1)) as [nd Hnd]; [lia|]. rewrite Hnd. cbn [of_option mbind result_bind].
    destruct (ttisnil (i_key nd)) eqn:Ek.
    + exists (Some (lf - 1)), (lf - 1). split_and!; [done|lia|done|lia| |intros; lia].
      exists nd. split; [done|]. by destruct (i_key nd).
    + destruct (IH (lf - 1)) as (o & lf' & -> & Hlt & Ho & Hno); [lia..|].
      exists o, lf'. split_and!; [done|lia|done|]. intros i x Hi Hx.
      destruct (decide (i = lf - 1)) as [->|]; [|apply (Hno i x); [lia|done]].
      assert (x = nd) as -> by congruence. intros E. by rewrite E in Ek.
  - exists None, (lf - 1). split_and!; [done|lia..|]. intros i nd Hi Hx.
    apply znth_Some_lt in Hx. lia.
Qed.

(** ** The table as a function *)

Section put.
Context `{StringHash}.
Implicit Types (t : Table) (k v : TValue).

Lemma mainposition_lsize t t' k :
  t_lsizenode t' = t_lsizenode t -> mainposition t' k = mainposition t k.
Proof.
  intros E. destruct k; cbn [mainposition];
    unfold hashpointer, hashnum, hashpow2, hashmod, sizenode; by rewrite E.
Qed.

Lemma hash_ok_ext f g nodes : (forall k, g k = f k) -> hash_ok f nodes -> hash_ok g nodes.
Proof.
  intros E Hok. split; intros *; rewrite ?E; try apply Hok.
Qed.

Lemma in_array_proper t k : in_array t k = true -> proper k = true.
Proof. by destruct k. Qed.

Lemma slot_of_array t k : in_array t k = true -> exists n, k = VNumber n /\ slot_of t k = Some (SArray (n - 1)).
Proof. intros Hk. destruct k; try done. exists n. unfold slot_of. by rewrite Hk. Qed.

Lemma slot_of_hash t k : in_array t k = false -> slot_of t k = SNode <$> node_of (t_node t) k.
Proof. intros Hk. unfold slot_of. destruct k; try done. by rewrite Hk. Qed.

(** Outside the array, a value of the table is an entry of the nodes. *)
Lemma tget_bound t k v :
  table_ok t -> in_array t k = false -> v <> VNil ->
  tget t k = v <-> bound (t_node t) k v.
Proof.
  intros Hok Ha Hv. unfold tget. rewrite slot_of_hash by done. split.
  - destruct (node_of (t_node t) k) as [i|] eqn:E; cbn; [|congruence].
    apply node_of_Some_1 in E as (nd & Hi & Hk). rewrite Hi. cbn. intros <-. split; [done|eauto].
  - intros (_ & i & nd & Hi & Hk & Hx).
    assert (Hp : proper k = true) by (rewrite <-Hk; apply (ho_live _ _ (to_hash t Hok) i nd Hi); congruence).
    rewrite (node_of_Some _ _ _ _ _ (to_hash t Hok) Hp Hi Hk). cbn. by rewrite Hi.
Qed.

Lemma tget_ext t t' k :
  table_ok t -> table_ok t' -> in_array t k = false -> in_array t' k = false ->
  (forall v, bound (t_node t') k v <-> bound (t_node t) k v) -> tget t' k = tget t k.
Proof.
  intros Hok Hok' Ha Ha' Hb.
  destruct (decide (tget t' k = VNil)) as [E'|E'].
  - destruct (decide (tget t k = VNil)) as [E|E]; [congruence|exfalso].
    assert (Hx : bound (t_node t) k (tget t k)) by by apply tget_bound.
    apply Hb, (tget_bound t') in Hx; congruence.
  - symmetry. apply tget_bound; try done. apply Hb. by apply tget_bound.
Qed.

Lemma tget_array_eq t t' k :
  t_array t' = t_array t -> t_sizearray t' = t_sizearray t -> in_array t k = true ->
  tget t' k = tget t k.
Proof.
  intros Ea Es Hk. unfold tget. destruct (slot_of_array t k Hk) as (n & -> & ->).
  unfold slot_of. replace (in_array t' (VNumber n)) with true; [cbn; by rewrite Ea|].
  cbn in *. by rewrite Es.
Qed.

(** A key that is not proper has no value. *)
Lemma tget_improper t k : table_ok t -> proper k = false -> tget t k = VNil.
Proof.
  intros Hok Hp. destruct (decide (tget t k = VNil)) as [|Hn]; [done|].
  assert (Ha : in_array t k = false) by by destruct k.
  assert (Hb : bound (t_node t) k (tget t k)) by by apply tget_bound.
  destruct Hb as (_ & i & nd & Hi & Hk & Hv).
  pose proof (ho_live _ _ (to_hash t Hok) i nd Hi ltac:(congruence)). congruence.
Qed.

(** What stays when a key is placed: everything but the nodes. *)
Record same_shape t t' : Prop := {
  ss_lsize : t_lsizenode t' = t_lsizenode t;
  ss_meta : t_metatable t' = t_metatable t;
  ss_size : t_sizearray t' = t_sizearray t;
  ss_dummy : t_dummy t' = t_dummy t;
}.

#[global] Instance same_shape_preorder : PreOrder same_shape.
Proof. split; [by intros t|intros ??? [] []; split; congruence]. Qed.

Lemma same_shape_in_array t t' k : same_shape t t' -> in_array t' k = in_array t k.
Proof. intros [_ _ E _]. destruct k; cbn; by rewrite ?E. Qed.

(** The number of keys that can be added without a rehash. *)
Definition room t : Z := if t_dummy t then 0 else nfree (t_node t).

Lemma table_ok_insert t nodes' k p lf :
  table_ok t -> in_array t k = false -> t_dummy t = false ->
  inserted (mainposition t) (t_node t) nodes' k p -> lf <= zlen (t_node t) ->
  (forall i nd, znth nodes' i = Some nd -> i_key nd = VNil -> i < lf) ->
  table_ok (set_nodes nodes' (set_lastfree lf t)).
Proof.
  intros Hok Ha Hd Hins Hlf Hfree. destruct Hins as [Hlen Hhash Hat Hb Hfr Hkeys].
  split; cbn; try apply Hok; try congruence.
  - rewrite Hlen. apply Hok.
  - eapply hash_ok_ext; [|exact Hhash]. intros. by apply mainposition_lsize.
  - intros i nd Hi. destruct (Hkeys i nd Hi) as [->|(j & nd' & Hj & <-)]; [done|].
    by apply (to_apart t Hok j nd').
  - intros i nd _. apply Hfree.
Qed.

Lemma tget_insert t nodes' k p lf k' :
  table_ok t -> table_ok (set_nodes nodes' (set_lastfree lf t)) ->
  inserted (mainposition t) (t_node t) nodes' k p ->
  tget (set_nodes nodes' (set_lastfree lf t)) k' = tget t k'.
Proof.
  intros Hok Hok' Hins. destruct (in_array t k') eqn:Ha; [by apply tget_array_eq|].
  apply tget_ext; try done. intros v. apply (ins_bound _ _ _ _ _ Hins).
Qed.

Lemma slot_of_insert t nodes' k p lf :
  in_array t k = false -> proper k = true ->
  inserted (mainposition t) (t_node t) nodes' k p ->
  slot_of (set_nodes nodes' (set_lastfree lf t)) k = Some (SNode p).
Proof.
  intros Ha Hp Hins. rewrite slot_of_hash by by destruct k.
  destruct (ins_at _ _ _ _ _ Hins) as (nd & Hnd & Hk & _). cbn [t_node set_nodes].
  by rewrite (node_of_Some _ _ _ _ _ (ins_ok _ _ _ _ _ Hins) Hp Hnd Hk).
Qed.
End put.

(** ** Placing a new key *)

Lemma find_previous_spec fuel nodes o l mp :
  chain nodes o l -> mp ∈ l -> o <> mp -> (length l <= fuel)%nat ->
  exists prev pr, find_previous fuel nodes o mp = Ok prev /\
    znth nodes prev = Some pr /\ i_next pr = Some mp.
Proof.
  intros Hc. revert fuel. induction Hc as [i nd Hi Hn|i nd j l Hi Hn Hc IH];
    intros [|fuel] Hin Hne Hf; cbn in Hf; try lia.
  { by apply list_elem_of_singleton in Hin. }
  cbn [find_previous]. rewrite Hi. cbn [of_option mbind result_bind]. rewrite Hn.
  destruct (Z.eqb_spec j mp) as [->|Hj]; [eauto|].
  apply elem_of_cons in Hin as [->|Hin]; [done|]. apply IH; try done. lia.
Qed.

Section newkey.
Context `{Krealloc} `{StringHash}.
Implicit Types (t : Table) (k v : TValue) (m : Z).

(** A table [t'] with a place [s] for [k], and the same values as [t]. *)
Record placed t k t' (s : slot) : Prop := {
  pl_ok : table_ok t';
  pl_shape : same_shape t t';
  pl_array : t_array t' = t_array t;
  pl_slot : slot_of t' k = Some s;
  pl_get k' : tget t' k' = tget t k';
  pl_room : room t <= room t' + (if in_array t k then 0 else 1);
}.

Lemma placed_insert t nodes' k p n lf :
  table_ok t -> in_array t k = false -> proper k = true -> t_dummy t = false ->
  inserted (mainposition t) (t_node t) nodes' k p -> free_but (t_node t) nodes' n ->
  lf <= zlen (t_node t) ->
  (forall i nd, znth nodes' i = Some nd -> i_key nd = VNil -> i < lf) ->
  placed t k (set_nodes nodes' (set_lastfree lf t)) (SNode p).
Proof.
  intros Hok Ha Hp Hd Hins Hfb Hlf Hfree.
  assert (Hok' : table_ok (set_nodes nodes' (set_lastfree lf t))) by (eapply table_ok_insert; eauto).
  split; [done|done|done|by eapply slot_of_insert|intros; by eapply tget_insert|].
  unfold room. cbn. rewrite Hd, Ha. eapply free_but_nfree; [apply Hins|done].
Qed.

Lemma slot_of_None t k :
  slot_of t k = None -> in_array t k = false /\ forall i x, znth (t_node t) i = Some x -> i_key x <> k.
Proof.
  intros Hs. destruct (in_array t k) eqn:Ha.
  { destruct (slot_of_array t k Ha) as (n & -> & E). congruence. }
  split; [done|]. rewrite slot_of_hash in Hs by done. intros i x Hi.
  apply (node_of_None (t_node t) k i x); [by apply fmap_None in Hs|done].
Qed.

Lemma getfreepos_spec m t :
  table_ok t ->
  exists o lf, getfreepos (mkTS m t) = (Ok o, mkTS m (set_lastfree lf t)) /\ lf < t_lastfree t /\
  match o with
  | Some n => t_dummy t = false /\ lf = n /\
      (exists nd, znth (t_node t) n = Some nd /\ i_key nd = VNil) /\
      (forall i nd, znth (t_node t) i = Some nd -> i_key nd = VNil -> i <= n)
  | None => room t = 0
  end.
Proof.
  intros Hok. unfold getfreepos. m_simpl. cbn [ts_t].
  destruct (getfreepos_loop_spec (S (Z.to_nat (t_lastfree t))) (t_node t) (t_lastfree t))
    as (o & lf & -> & Hlt & Ho & Hno); [apply Hok|lia|].
  exists o, lf. split_and!; [done|done|]. destruct o as [n|].
  - destruct Ho as (-> & Hn & Hfree).
    assert (Hd : t_dummy t = false).
    { destruct (t_dummy t) eqn:E; [|done]. destruct (to_dummy t Hok E) as (_ & _ & ?). lia. }
    split_and!; try done. intros i nd Hi Hk. destruct (Z.le_gt_cases i n); [done|].
    pose proof (to_free t Hok i nd Hd Hi Hk). by destruct (Hno i nd ltac:(lia) Hi).
  - unfold room. destruct (t_dummy t) eqn:Hd; [done|].
    destruct (decide (nfree (t_node t) = 0)) as [|Hnz]; [done|exfalso].
    unfold nfree in Hnz. destruct (filter _ (t_node t)) as [|x l] eqn:Ef; [done|].
    assert (Hx : x ∈ filter (fun nd => i_key nd = VNil) (t_node t)) by (rewrite Ef; by left).
    apply list_elem_of_filter in Hx as [Hk Hx]. apply list_elem_of_lookup in Hx as [i Hi].
    rewrite <-znth_of_nat in Hi. pose proof (to_free t Hok _ x Hd Hi Hk).
    by destruct (Hno (Z.of_nat i) x ltac:(lia) Hi).
Qed.

Lemma table_ok_lastfree t lf :
  table_ok t -> room t = 0 -> lf < t_lastfree t -> table_ok (set_lastfree lf t).
Proof.
  intros Hok Hr Hlt. destruct Hok as [? ? ? ? Hh ? Hfree ? Hd]. split; cbn; try done; try lia.
  - intros i nd Hdf Hi Hk. unfold room in Hr. rewrite Hdf in Hr.
    by destruct (nfree_zero (t_node t) Hr i nd Hi).
  - intros Hdt. destruct (Hd Hdt) as (? & ? & ?). split_and!; try done. lia.
Qed.

(** The free nodes left are before the one used. *)
Lemma free_below mpos nodes nodes' k p n :
  inserted mpos nodes nodes' k p ->
  (forall i nd, znth nodes i = Some nd -> i_key nd = VNil -> i <= n) ->
  (exists x, znth nodes' n = Some x /\ i_key x <> VNil) ->
  forall i x, znth nodes' i = Some x -> i_key x = VNil -> i < n.
Proof.
  intros Hins Hlast (y & Hy & Hky) i x Hi Hk.
  pose proof (Hlast i x (ins_free _ _ _ _ _ Hins i x Hi Hk) Hk).
  destruct (decide (i = n)) as [->|]; [congruence|lia].
Qed.

(** [newkey] places the key, or rehashes when no free node is left. *)
Lemma newkey_step fuel m t k :
  table_ok t -> proper k = true -> slot_of t k = None ->
  (exists s t', newkey (S fuel) k (mkTS m t) = (Ok s, mkTS m t') /\ placed t k t' s) \/
  (room t = 0 /\ exists lf, table_ok (set_lastfree lf t) /\
    newkey (S fuel) k (mkTS m t) =
      (rehash_with (newkey fuel) k;; luaH_set_with (newkey fuel) k) (mkTS m (set_lastfree lf t))).
Proof.
  intros Hok Hp Hs. pose proof (to_hash t Hok) as Hh.
  destruct (slot_of_None t k Hs) as [Ha Hnew]. cbn [newkey].
  set (mp := mainposition t k). assert (Hmp : 0 <= mp < zlen (t_node t)) by apply (ho_mpos _ _ Hh).
  destruct (znth_is_Some (t_node t) mp Hmp) as [nd Hnd].
  rewrite (bind_ok _ _ _ t (mkTS m t)) by done. fold mp.
  rewrite (bind_ok _ _ _ nd (mkTS m t)) by (cbn; by rewrite Hnd).
  destruct (negb (ttisnil (i_val nd)) || t_dummy t) eqn:Ec; b2p.
  - destruct (getfreepos_spec m t Hok) as (o & lf & Hg & Hlf & Ho).
    rewrite (bind_ok _ _ _ _ _ Hg). destruct o as [n|]; [|right; eauto using table_ok_lastfree].
    left. destruct Ho as (Hd & -> & (fr & Hfr & Hfk) & Hlast).
    assert (Hv : i_val nd <> VNil).
    { intros E. rewrite E, Hd in Ec. by destruct Ec. }
    assert (Hle : n <= zlen (t_node t)) by (pose proof (to_lastfree t Hok); lia).
    destruct (Z.eqb_spec (mainposition t (i_key nd)) mp) as [Hmain|Hmain]; cbn [negb].
    + destruct (insert_after (mainposition t) (t_node t) k nd fr n) as [Hins Hfb]; try done.
      eexists (SNode n), (set_nodes _ (set_lastfree n t)). split; [reflexivity|].
      eapply placed_insert; try done. eapply free_below; [done..|]. destruct (ins_at _ _ _ _ _ Hins) as (x & Hx & Hkx & _).
      exists x. split; [done|]. rewrite Hkx. by apply proper_nil.
    + destruct (ho_reach _ _ Hh mp nd Hnd (ho_live _ _ Hh _ _ Hnd Hv)) as (l & Hl & Hin).
      destruct (find_previous_spec (length (t_node t)) _ _ _ mp Hl Hin Hmain)
        as (prev & pr & Hfp & Hpr & Hpn); [by eapply chain_length|].
      destruct (insert_move (mainposition t) (t_node t) k nd fr pr n prev) as [Hins Hfb]; try done.
      assert (Hpm : prev <> mp) by (by eapply (move_prev_mp (mainposition t) (t_node t) k)).
      eexists (SNode mp), (set_nodes _ (set_lastfree n t)). split.
      { rewrite (bind_ok _ _ _ prev (mkTS m (set_lastfree n t))) by (cbn; by rewrite Hfp).
        erewrite bind_ok by reflexivity. erewrite (bind_ok _ _ _ (Some nd)).
        2: { unfold gets. cbn. rewrite znth_upd_node_ne by done. by rewrite Hnd. }
        reflexivity. }
      eapply placed_insert; try done. eapply free_below; [done..|]. exists nd. split; [by eapply move_at_n|].
      intros E. apply (ho_live _ _ Hh _ _ Hnd) in Hv. by rewrite E in Hv.
  - left. assert (Hv : i_val nd = VNil) by (by destruct (i_val nd)).
    destruct (insert_main (mainposition t) (t_node t) k nd Hh Hp Hnew Hnd Hv) as [Hins Hfb].
    exists (SNode mp), (set_nodes (upd_node mp (set_key k) (t_node t)) (set_lastfree (t_lastfree t) t)).
    split; [by destruct t|]. eapply placed_insert; try done; [apply Hok|].
    intros i x Hi Hk. apply (ins_free _ _ _ _ _ Hins) in Hi; [|done]. by apply (to_free t Hok i x).
Qed.
End newkey.

(** ** Storing a value at a place *)

Lemma chain_same nodes nodes' i l :
  (forall i x, znth nodes i = Some x -> exists x', znth nodes' i = Some x' /\ i_next x' = i_next x) ->
  chain nodes i l -> chain nodes' i l.
Proof.
  intros Hs. induction 1 as [i x Hi Hn|i x j l Hi Hn Hc IH];
    destruct (Hs i x Hi) as (x' & Hx' & E); [eapply chain_end|eapply chain_step]; eauto; congruence.
Qed.

Section store.
Context (mpos : TValue -> Z) (nodes : list Node) (p : Z) (v : TValue) (nd : Node).
Context (Hok : hash_ok mpos nodes) (Hp : znth nodes p = Some nd) (Hk : proper (i_key nd) = true).

Lemma set_val_back i x : znth (upd_node p (set_val v) nodes) i = Some x ->
  exists y, znth nodes i = Some y /\ i_key y = i_key x /\ i_next y = i_next x /\
    (i <> p -> y = x) /\ (i = p -> i_val x = v).
Proof.
  destruct (decide (p = i)) as [<-|Hne].
  - rewrite znth_upd_node_eq, Hp. cbn. intros [= <-]. exists nd. by split_and!.
  - rewrite znth_upd_node_ne by done. intros Hi. exists x. by rewrite Hi.
Qed.

Lemma set_val_next i x : znth nodes i = Some x ->
  exists x', znth (upd_node p (set_val v) nodes) i = Some x' /\ i_next x' = i_next x /\ i_key x' = i_key x.
Proof.
  intros Hi. destruct (decide (p = i)) as [<-|Hne].
  - rewrite znth_upd_node_eq, Hi. cbn. eauto.
  - rewrite znth_upd_node_ne by done. eauto.
Qed.

Lemma set_val_chain i l : chain nodes i l -> chain (upd_node p (set_val v) nodes) i l.
Proof. apply chain_same. intros j x (x' & ? & ? & _)%set_val_next. eauto. Qed.

Lemma set_val_ok : hash_ok mpos (upd_node p (set_val v) nodes).
Proof.
  split.
  - intros. rewrite zlen_upd_node. apply (ho_mpos _ _ Hok).
  - intros i. rewrite zlen_upd_node. intros [l Hl]%(ho_chain _ _ Hok). eauto using set_val_chain.
  - intros i j x y m (x' & Hi & _ & <- & _)%set_val_back (y' & Hj & _ & <- & _)%set_val_back.
    by apply (ho_inj _ _ Hok).
  - intros i x Hx Hn. apply set_val_back in Hx as (x' & Hi & Hkx & Hnx & Hne & _).
    assert (i <> p) by (intros ->; rewrite Hp in Hi; simplify_eq; by rewrite Hkx, Hn in Hk).
    rewrite Hne in Hi by done. destruct (ho_nil _ _ Hok i x Hi Hn) as (? & ? & Hno). split_and!; try done.
    intros j y (y' & Hj & _ & <- & _)%set_val_back. by eapply Hno.
  - intros i x (x' & Hi & <- & _)%set_val_back Hpx.
    destruct (ho_reach _ _ Hok i x' Hi Hpx) as (l & ? & ?). eauto using set_val_chain.
  - intros i x y (x' & Hi & <- & _)%set_val_back Hpx (y' & Hj & <- & _)%set_val_back.
    by apply (ho_first _ _ Hok i x' y').
  - intros i j x y (x' & Hi & <- & _)%set_val_back (y' & Hj & <- & _)%set_val_back.
    by apply (ho_uniq _ _ Hok).
  - intros i x Hx Hv. apply set_val_back in Hx as (x' & Hi & Hkx & _ & Hne & _).
    destruct (decide (i = p)) as [->|Hip].
    + rewrite Hp in Hi. simplify_eq. by rewrite <-Hkx.
    + rewrite Hne in Hi by done. by apply (ho_live _ _ Hok i x).
Qed.

(** The entry of the key changes, the others stay. *)
Lemma set_val_bound k' w : k' <> i_key nd ->
  bound (upd_node p (set_val v) nodes) k' w <-> bound nodes k' w.
Proof.
  intros Hne. unfold bound. split; intros (Hw & i & x & Hi & Hkx & Hvx); (split; [done|]).
  - apply set_val_back in Hi as (x' & Hi & Hkx' & _ & Hsame & _). exists i, x'. split_and!; [done|congruence|].
    rewrite Hsame; [done|]. intros ->. congruence.
  - exists i, x. rewrite znth_upd_node_ne; [done|]. intros ->. congruence.
Qed.

Lemma set_val_nfree : nfree (upd_node p (set_val v) nodes) = nfree nodes.
Proof.
  assert (Hlen : length (upd_node p (set_val v) nodes) = length nodes)
    by (pose proof (zlen_upd_node p (set_val v) nodes); unfold zlen in *; lia).
  apply Z.le_antisymm; apply nfree_mono, Forall2_same_length_lookup_2; try done;
    intros i x y; rewrite <-!znth_of_nat; intros Hx Hy Hkx.
  - apply set_val_back in Hx as (x' & Hi & Hk' & _). congruence.
  - apply set_val_next in Hx as (x' & Hi & _ & Hk'). congruence.
Qed.
End store.

Section slot_set.
Context `{StringHash}.
Implicit Types (t : Table) (k v : TValue).

(** The table [t'] is [t] with [v] stored at [k]. *)
Record stored t k v t' : Prop := {
  st_ok : table_ok t';
  st_shape : same_shape t t';
  st_array : in_array t k = false -> t_array t' = t_array t;
  st_len : length (t_array t') = length (t_array t);
  st_get k' : tget t' k' = if decide (k' = k) then v else tget t k';
  st_room : room t <= room t' + (if in_array t k then 0 else 1);
}.

Lemma slot_set_node t k v i :
  table_ok t -> proper k = true -> slot_of t k = Some (SNode i) -> stored t k v (slot_set (SNode i) v t).
Proof.
  intros Hok Hp Hs. destruct (in_array t k) eqn:Ha.
  { destruct (slot_of_array t k Ha) as (n & -> & E). congruence. }
  pose proof Hs as Hs'. rewrite slot_of_hash in Hs' by done. apply fmap_Some in Hs' as (j & Hj & [= ->]).
  apply node_of_Some_1 in Hj as (nd & Hnd & Hk). rewrite <-Hk in Hp.
  assert (Hh : hash_ok (mainposition t) (upd_node j (set_val v) (t_node t)))
    by (by eapply set_val_ok; [apply Hok|..]).
  assert (Hok' : table_ok (slot_set (SNode j) v t)).
  { split; cbn; try apply Hok.
    - rewrite zlen_upd_node. apply Hok.
    - eapply hash_ok_ext; [|exact Hh]. intros. by apply mainposition_lsize.
    - intros i x Hi. eapply set_val_back in Hi as (y & Hi & <- & _); [|done]. by apply (to_apart t Hok i y).
    - intros i x Hd Hi Hkx. eapply set_val_back in Hi as (y & Hi & Hky & _); [|done].
      apply (to_free t Hok i y); congruence.
    - rewrite zlen_upd_node. apply Hok.
    - intros Hd. destruct (to_dummy t Hok Hd) as (En & _ & _). exfalso. rewrite En in Hnd.
      apply znth_elem, list_elem_of_singleton in Hnd. subst nd. by cbn in Hp. }
  split; try done.
  - intros k'. case_decide as Hkk.
    + subst k'. destruct (decide (v = VNil)) as [->|Hv].
      * destruct (decide (tget (slot_set (SNode j) VNil t) k = VNil)) as [|Hn]; [done|exfalso].
        assert (Hb : bound (t_node (slot_set (SNode j) VNil t)) k (tget (slot_set (SNode j) VNil t) k))
          by (by apply tget_bound).
        destruct Hb as (Hv & i & x & Hi & Hkx & Hvx).
        eapply set_val_back in Hi as (y & Hi & Hky & _ & _ & Hval); [|done].
        apply Hv. rewrite <-Hvx. apply Hval.
        eapply (ho_uniq _ _ (to_hash t Hok) i j y nd); congruence.
      * apply (tget_bound _ k v Hok'); try done. split; [done|]. exists j, (set_val v nd).
        cbn. by rewrite znth_upd_node_eq, Hnd.
    + destruct (in_array t k') eqn:Ha'; [by apply tget_array_eq|].
      apply tget_ext; try done. intros w. cbn. apply (set_val_bound _ _ _ _ Hnd). congruence.
  - unfold room. cbn. rewrite (set_val_nfree _ _ _ _ Hnd), Ha. case_match; lia.
Qed.

Lemma slot_set_room t k v s : slot_of t k = Some s -> room (slot_set s v t) = room t.
Proof.
  intros Hs. destruct s as [i|i]; [done|]. unfold room. cbn.
  assert (Hi : exists nd, znth (t_node t) i = Some nd).
  { assert (Hn : SNode <$> node_of (t_node t) k = Some (SNode i)).
    { unfold slot_of in Hs. destruct k; try done. by case_match. }
    apply fmap_Some in Hn as (j & Hj & [= ->]). apply node_of_Some_1 in Hj as (nd & ? & _). eauto. }
  destruct Hi as [nd Hnd]. by rewrite (set_val_nfree _ _ _ _ Hnd).
Qed.

Lemma in_array_cell t k :
  table_ok t -> in_array t k = true ->
  exists n w, k = VNumber n /\ 1 <= n <= t_sizearray t /\ znth (t_array t) (n - 1) = Some w.
Proof.
  intros Hok Ha. destruct k; try done. cbn in Ha. b2p. pose proof (to_array t Hok).
  destruct (znth_is_Some (t_array t) (n - 1)) as [w Hw]; [lia|eauto 10].
Qed.

Lemma slot_set_array t k v i :
  table_ok t -> in_array t k = true -> slot_of t k = Some (SArray i) -> stored t k v (slot_set (SArray i) v t).
Proof.
  intros Hok Ha Hs. destruct (in_array_cell t k Hok Ha) as (n & w & -> & Hn & Hw).
  unfold slot_of in Hs. rewrite Ha in Hs. simplify_eq.
  assert (Hok' : table_ok (slot_set (SArray (n - 1)) v t)).
  { split; cbn; try apply Hok. rewrite zlen_zupd. apply Hok. }
  split; try done.
  - congruence.
  - cbn. pose proof (zlen_zupd (n - 1) v (t_array t)). unfold zlen in *. lia.
  - intros k'. destruct (in_array t k') eqn:Ha'.
    + destruct (in_array_cell t k' Hok Ha') as (n' & w' & -> & Hn' & Hw').
      unfold tget, slot_of. change (in_array (slot_set _ _ _)) with (in_array t). rewrite Ha'.
      cbn. case_decide as E.
      * simplify_eq. rewrite znth_zupd_eq; [done|by eapply znth_Some_lt].
      * by rewrite znth_zupd_ne by (intros ?; apply E; f_equal; lia).
    + rewrite decide_False by congruence. apply tget_ext; done.
  - unfold room. rewrite Ha. cbn [slot_set t_dummy t_node set_array]. lia.
Qed.

Lemma slot_set_stored t k v s :
  table_ok t -> proper k = true -> slot_of t k = Some s -> stored t k v (slot_set s v t).
Proof.
  intros Hok Hp Hs. destruct s as [i|i]; [|by apply slot_set_node].
  apply slot_set_array; try done. destruct (in_array t k) eqn:Ha; [done|].
  rewrite slot_of_hash in Hs by done. by destruct (node_of (t_node t) k).
Qed.
End slot_set.

(** ** Setting a key of a table with room *)

Section set_room.
Context `{Krealloc} `{StringHash}.
Implicit Types (t : Table) (k v : TValue) (m : Z).

Lemma table_ok_flags t x : table_ok t -> table_ok (set_flags x t).
Proof. intros Hok. split; apply Hok. Qed.

Lemma placed_self t k s : table_ok t -> slot_of t k = Some s -> placed t k t s.
Proof. intros. split; try done. case_if; lia. Qed.

Lemma placed_flags t k t' s x : placed (set_flags x t) k t' s -> placed t k t' s.
Proof. intros [? [] ? ? ? ?]. by split. Qed.

Lemma newkey_room fuel m t k :
  table_ok t -> proper k = true -> slot_of t k = None -> 0 < room t ->
  exists s t', newkey (S fuel) k (mkTS m t) = (Ok s, mkTS m t') /\ placed t k t' s.
Proof.
  intros Hok Hp Hs Hr. destruct (newkey_step fuel m t k Hok Hp Hs) as [|[? _]]; [done|lia].
Qed.

Lemma luaH_set_room fuel m t k :
  table_ok t -> proper k = true -> (slot_of t k = None -> 0 < room t) ->
  exists s t', luaH_set_with (newkey (S fuel)) k (mkTS m t) = (Ok s, mkTS m t') /\ placed t k t' s.
Proof.
  intros Hok Hp Hr. unfold luaH_set_with. erewrite bind_ok by reflexivity. cbn [ts_t].
  erewrite bind_ok by (unfold lift; by rewrite luaH_get_spec). erewrite bind_ok by reflexivity. cbn [ts_mem ts_t].
  apply (table_ok_flags t 0) in Hok as Hok'.
  destruct (slot_of t k) as [s|] eqn:Hs.
  - exists s, (set_flags 0 t). split; [done|]. apply (placed_flags _ _ _ _ 0). apply placed_self; [by apply table_ok_flags|done].
  - destruct (newkey_room fuel m (set_flags 0 t) k Hok' Hp Hs (Hr eq_refl)) as (s & t' & Hn & Hpl).
    exists s, t'. split; [|by eapply placed_flags].
    destruct k; try done. by rewrite luai_numisnan_false.
Qed.

Lemma luaH_setnum_room fuel m t n :
  table_ok t -> in_s 32 n -> (slot_of t (VNumber n) = None -> 0 < room t) ->
  exists s t', luaH_setnum_with (newkey (S fuel)) n (mkTS m t) = (Ok s, mkTS m t') /\
    placed t (VNumber n) t' s.
Proof.
  intros Hok Hn Hr. unfold luaH_setnum_with. erewrite bind_ok by reflexivity. cbn [ts_t].
  erewrite bind_ok by (unfold lift; by rewrite luaH_getnum_spec).
  destruct (slot_of t (VNumber n)) as [s|] eqn:Hs.
  - exists s, t. split; [done|]. by apply placed_self.
  - exact (newkey_room fuel m t (VNumber n) Hok eq_refl Hs (Hr eq_refl)).
Qed.

(** A place, then the value. *)
Lemma placed_stored t k v t' s :
  proper k = true -> placed t k t' s -> stored t k v (slot_set s v t').
Proof.
  intros Hp [Hok Hsh Har Hsl Hget Hroom].
  destruct (slot_set_stored t' k v s Hok Hp Hsl) as [Hok2 Hsh2 Har2 Hlen2 Hget2 Hroom2].
  pose proof (same_shape_in_array _ _ k Hsh) as Hin.
  split; [done|by etrans| | | |].
  - intros Ha. rewrite Har2 by congruence. done.
  - congruence.
  - intros k'. rewrite Hget2, Hget. done.
  - by rewrite (slot_set_room t' k).
Qed.
End set_room.
