(* ===== verification/TableCount.v ===== *)
(** * TableCount.v: the entries of a table, and how a rehash counts them

    [entries t] lists the keys that have a value, in the order of a traversal.
    The counting functions of the rehash compute from it the number of integer
    keys in each slice, and [computesizes] the best size of the array part. *)

From S2P Require Import Prelude Machine Object Mem Table TableInv TableSet TablePut.

(** ** Entries *)

Definition array_entry (arr : list TValue) (i : Z) : option (TValue * TValue) :=
  match znth arr i with
  | Some v => if ttisnil v then None else Some (VNumber (i + 1), v)
  | None => None
  end.

Definition node_entry (nd : Node) : option (TValue * TValue) :=
  if ttisnil (i_val nd) then None else Some (i_key nd, i_val nd).

Definition array_entries (t : Table) : list (TValue * TValue) :=
  omap (array_entry (t_array t)) (seqZ 0 (t_sizearray t)).
Definition node_entries (t : Table) : list (TValue * TValue) :=
  omap node_entry (t_node t).
Definition entries (t : Table) : list (TValue * TValue) := array_entries t ++ node_entries t.

Lemma array_entry_Some arr i k v :
  array_entry arr i = Some (k, v) <-> k = VNumber (i + 1) /\ znth arr i = Some v /\ v <> VNil.
Proof.
  unfold array_entry. destruct (znth arr i) as [w|]; [|naive_solver].
  destruct (ttisnil w) eqn:E.
  - apply ttisnil_spec in E. naive_solver.
  - apply ttisnil_false in E. naive_solver.
Qed.

Lemma node_entry_Some nd k v :
  node_entry nd = Some (k, v) <-> i_key nd = k /\ i_val nd = v /\ v <> VNil.
Proof.
  unfold node_entry. destruct (ttisnil (i_val nd)) eqn:E.
  - apply ttisnil_spec in E. naive_solver.
  - apply ttisnil_false in E. naive_solver.
Qed.

(** Different elements with entries have different keys, so do the entries. *)
Lemma NoDup_omap_fst {A} (ent : A -> option (TValue * TValue)) (l : list A) :
  (forall i j x y k v w, l !! i = Some x -> l !! j = Some y ->
    ent x = Some (k, v) -> ent y = Some (k, w) -> i = j) ->
  NoDup (omap ent l).*1.
Proof.
  induction l as [|a l IH]; intros Hinj; cbn; [constructor|].
  assert (IH' : NoDup (omap ent l).*1).
  { apply IH. intros i j x y k v w Hi Hj Hx Hy.
    pose proof (Hinj (S i) (S j) x y k v w Hi Hj Hx Hy). lia. }
  destruct (ent a) as [[k v]|] eqn:Ea; [|done]. cbn. constructor; [|done].
  intros ([k' w] & Hk & Hin)%list_elem_of_fmap. cbn in Hk. subst k'.
  apply list_elem_of_omap in Hin as (b & Hb & Heb). apply list_elem_of_lookup in Hb as [j Hj].
  pose proof (Hinj 0%nat (S j) a b k v w eq_refl Hj Ea Heb). lia.
Qed.

Section entries.
Context `{StringHash}.
Implicit Types (t : Table) (k v : TValue).

Lemma elem_of_array_entries t k v :
  table_ok t -> (k, v) ∈ array_entries t <-> in_array t k = true /\ tget t k = v /\ v <> VNil.
Proof.
  intros Hok. unfold array_entries. rewrite list_elem_of_omap. split.
  - intros (i & Hi & (-> & Hv & Hn)%array_entry_Some). apply elem_of_seqZ in Hi.
    assert (Ha : in_array t (VNumber (i + 1)) = true).
    { cbn. destruct (Z.leb_spec 1 (i + 1)), (Z.leb_spec (i + 1) (t_sizearray t)); try done; lia. }
    split_and!; try done. unfold tget, slot_of. rewrite Ha. cbn.
    replace (i + 1 - 1) with i by lia. by rewrite Hv.
  - intros (Ha & Hg & Hn). destruct (in_array_cell t k Hok Ha) as (n & w & -> & Hr & Hw).
    exists (n - 1). rewrite elem_of_seqZ, array_entry_Some. split_and!; try lia; [f_equal; lia| |done].
    unfold tget, slot_of in Hg. rewrite Ha in Hg. cbn in Hg. rewrite Hw in Hg. cbn in Hg. congruence.
Qed.

Lemma elem_of_node_entries t k v : (k, v) ∈ node_entries t <-> bound (t_node t) k v.
Proof.
  unfold node_entries, bound. rewrite list_elem_of_omap. split.
  - intros (nd & Hin & (Hk & Hv & Hn)%node_entry_Some). split; [done|].
    apply list_elem_of_lookup in Hin as [i Hi]. exists (Z.of_nat i), nd. by rewrite znth_of_nat.
  - intros (Hn & i & nd & Hi & Hk & Hv). exists nd. rewrite node_entry_Some.
    split; [by eapply znth_elem|done].
Qed.

Lemma bound_not_array t k v : table_ok t -> bound (t_node t) k v -> in_array t k = false.
Proof. intros Hok (_ & i & nd & Hi & <- & _). by apply (to_apart t Hok i nd). Qed.

(** The entries are the graph of the table as a function. *)
Lemma elem_of_entries t k v : table_ok t -> (k, v) ∈ entries t <-> tget t k = v /\ v <> VNil.
Proof.
  intros Hok. unfold entries. rewrite elem_of_app, elem_of_array_entries, elem_of_node_entries by done.
  split.
  - intros [(_ & ? & ?)|Hb]; [done|]. pose proof (bound_not_array t k v Hok Hb).
    split; [|by destruct Hb]. apply tget_bound; try done. by destruct Hb.
  - intros [Hg Hn]. destruct (in_array t k) eqn:Ha; [by left|right].
    by apply tget_bound.
Qed.

Lemma array_entries_NoDup arr n m : NoDup (omap (array_entry arr) (seqZ n m)).*1.
Proof.
  apply NoDup_omap_fst. intros i j x y k v w Hi Hj Hx Hy.
  apply lookup_seqZ in Hi as [-> _], Hj as [-> _].
  apply array_entry_Some in Hx as (-> & _). apply array_entry_Some in Hy as ([= Hk] & _). lia.
Qed.

Lemma node_entries_NoDup t : table_ok t -> NoDup (node_entries t).*1.
Proof.
  intros Hok. apply NoDup_omap_fst. intros i j x y k v w Hi Hj Hx Hy.
  apply node_entry_Some in Hx as (Hkx & Hvx & Hnx). apply node_entry_Some in Hy as (Hky & _).
  rewrite <-znth_of_nat in Hi, Hj.
  assert (Hp : proper (i_key x) = true) by (apply (ho_live _ _ (to_hash t Hok) _ x Hi); congruence).
  pose proof (ho_uniq _ _ (to_hash t Hok) _ _ x y Hi Hj Hp ltac:(congruence)). lia.
Qed.

Lemma entries_NoDup t : table_ok t -> NoDup (entries t).*1.
Proof.
  intros Hok. unfold entries. rewrite fmap_app. apply NoDup_app. split_and!.
  - apply array_entries_NoDup.
  - intros k ([k1 v1] & -> & H1)%list_elem_of_fmap ([k2 v2] & E & H2)%list_elem_of_fmap.
    cbn in E. subst k2. apply elem_of_array_entries in H1 as [Ha _]; [|done].
    apply elem_of_node_entries, (bound_not_array t) in H2; [congruence|done].
  - by apply node_entries_NoDup.
Qed.

Lemma entries_proper t k v : table_ok t -> (k, v) ∈ entries t -> proper k = true.
Proof.
  intros Hok [Hg Hn]%elem_of_entries; [|done]. destruct (proper k) eqn:Hp; [done|].
  rewrite tget_improper in Hg by done. congruence.
Qed.
End entries.

(** ** Counting the integer keys *)

(** The keys that can be in an array part. *)
Definition int_key (k : TValue) : option Z :=
  match k with
  | VNumber n => if (1 <=? n) && (n <=? MAXASIZE) then Some n else None
  | _ => None
  end.

(** How many of the integers are at most [m]. *)
Definition cnt (ks : list Z) (m : Z) : Z := zlen (filter (fun k => k <= m) ks).

(** [nums[i]] is the number of keys in the slice (2^(i-1), 2^i]. *)
Definition nums_ok (nums ks : list Z) : Prop :=
  zlen nums = MAXBITS + 1 /\
  (forall k, k ∈ ks -> 1 <= k <= MAXASIZE) /\
  forall i, 0 <= i <= MAXBITS ->
    znth nums i = Some (zlen (filter (fun k => Z.log2_up k = i) ks)).

Lemma int_key_Some k n : int_key k = Some n <-> k = VNumber n /\ 1 <= n <= MAXASIZE.
Proof.
  destruct k; cbn; try naive_solver.
  destruct (Z.leb_spec 1 n0), (Z.leb_spec n0 MAXASIZE); cbn; naive_solver lia.
Qed.

Lemma ceillog2_slice k : 1 <= k <= MAXASIZE -> ceillog2 k = Z.log2_up k /\ 0 <= Z.log2_up k <= MAXBITS.
Proof.
  rewrite MAXASIZE_eq. unfold MAXBITS. intros Hk. split; [apply ceillog2_spec; lia|].
  split; [apply Z.log2_up_nonneg|]. change 26 with (Z.log2_up (2 ^ 26)). apply Z.log2_up_le_mono. lia.
Qed.

Lemma nums_ok_nil : nums_ok (replicate (Z.to_nat (MAXBITS + 1)) 0) [].
Proof.
  split_and!; [done|by intros k ?%elem_of_nil|]. intros i Hi. unfold znth.
  destruct (Z.ltb_spec i 0); [lia|]. apply lookup_replicate_2. unfold MAXBITS in *. lia.
Qed.

(** More keys of one slice are counted. *)
Lemma nums_ok_slice nums ks i x new :
  nums_ok nums ks -> 0 <= i <= MAXBITS -> znth nums i = Some x ->
  (forall k, k ∈ new -> 1 <= k <= MAXASIZE /\ Z.log2_up k = i) ->
  nums_ok (zupd i (x + zlen new) nums) (new ++ ks).
Proof.
  intros (Hlen & Hks & Hn) Hi Hx Hnew. split_and!.
  - by rewrite zlen_zupd.
  - intros k [Hk|Hk]%elem_of_app; [by apply Hnew|auto].
  - intros j Hj. rewrite filter_app, zlen_app. destruct (decide (i = j)) as [<-|Hne].
    + rewrite znth_zupd_eq by lia. rewrite Hn in Hx by done. injection Hx as <-.
      rewrite (filter_all (fun k => Z.log2_up k = i) new); [f_equal; lia|].
      intros k Hk. by apply Hnew.
    + rewrite znth_zupd_ne, Hn by done.
      rewrite (filter_none (fun k => Z.log2_up k = j) new); [done|].
      intros k Hk Hkj. destruct (Hnew k Hk). congruence.
Qed.

Lemma countint_spec key nums ks :
  nums_ok nums ks ->
  match int_key key with
  | Some n => exists nums', countint key nums = Ok (1, nums') /\ nums_ok nums' (n :: ks)
  | None => countint key nums = Ok (0, nums)
  end.
Proof.
  intros Hok. unfold countint.
  assert (Hidx : (0 <? arrayindex key) && (arrayindex key <=? MAXASIZE) =
    match int_key key with Some _ => true | None => false end /\
    forall n, int_key key = Some n -> arrayindex key = n).
  { rewrite MAXASIZE_eq. unfold int_key. rewrite MAXASIZE_eq.
    destruct key; cbn [arrayindex]; try done. unfold luai_numeq. cbv zeta.
    destruct (Z.eqb_spec (lua_number2int n) n) as [->|Hne].
    - destruct (Z.ltb_spec 0 n), (Z.leb_spec 1 n), (Z.leb_spec n (2 ^ 26)); cbn; try lia; naive_solver.
    - destruct (Z.leb_spec 1 n), (Z.leb_spec n (2 ^ 26)); try done.
      destruct Hne. apply Z.eqb_eq, number2int_exact. unfold in_s. cbn. lia. }
  destruct Hidx as [-> Hn]. destruct (int_key key) as [n|] eqn:E; [|done].
  rewrite (Hn n eq_refl). apply int_key_Some in E as [_ Hr].
  destruct (ceillog2_slice n Hr) as [-> Hl]. destruct Hok as (Hlen & Hks & Hnum).
  rewrite Hnum by done. cbn [of_option mbind result_bind]. eexists. split; [done|].
  apply (nums_ok_slice nums ks _ _ [n]); [done|done|by apply Hnum|].
  intros k ->%list_elem_of_singleton. done.
Qed.

Lemma numusehash_loop_spec nodes tot ause nums ks :
  nums_ok nums ks ->
  exists nums', numusehash_loop nodes tot ause nums =
      Ok (tot + zlen (omap node_entry nodes),
          ause + zlen (omap int_key (omap node_entry nodes).*1), nums') /\
    nums_ok nums' (rev (omap int_key (omap node_entry nodes).*1) ++ ks).
Proof.
  revert tot ause nums ks. induction nodes as [|nd nodes IH]; intros tot ause nums ks Hok.
  { exists nums. cbn. rewrite !Z.add_0_r. done. }
  cbn [numusehash_loop omap list_omap].
  assert (Hne : node_entry nd = if ttisnil (i_val nd) then None else Some (i_key nd, i_val nd)) by done.
  destruct (ttisnil (i_val nd)); rewrite Hne; [by apply IH|].
  pose proof (countint_spec (i_key nd) nums ks Hok) as Hc. rewrite !fmap_cons. cbn [fst omap list_omap].
  destruct (int_key (i_key nd)) as [n|].
  - destruct Hc as (nums1 & -> & Hok1). cbn [mbind result_bind].
    destruct (IH (tot + 1) (ause + 1) nums1 (n :: ks) Hok1) as (nums' & -> & Hok').
    exists nums'. rewrite !zlen_cons. split; [do 3 f_equal; lia|]. cbn [rev]. by rewrite <-(app_assoc _ [n]).
  - rewrite Hc. cbn [mbind result_bind].
    destruct (IH (tot + 1) (ause + 0) nums ks Hok) as (nums' & -> & Hok').
    exists nums'. rewrite !zlen_cons. split; [do 3 f_equal; lia|]. done.
Qed.

(** *** The array part *)

(** The keys from [i] on, [n] of them, that have a value in the array. *)
Definition array_ints (arr : list TValue) (i : Z) (n : nat) : list Z :=
  omap int_key (omap (array_entry arr) (seqZ (i - 1) (Z.of_nat n))).*1.

Lemma count_slice_spec n arr i :
  1 <= i -> i - 1 + Z.of_nat n <= zlen arr -> i - 1 + Z.of_nat n <= MAXASIZE ->
  count_slice n arr i = Ok (zlen (array_ints arr i n)) /\
  zlen (array_ints arr i n) = zlen (omap (array_entry arr) (seqZ (i - 1) (Z.of_nat n))) /\
  (forall k, k ∈ array_ints arr i n -> i <= k <= i - 1 + Z.of_nat n).
Proof.
  revert i. induction n as [|n IH]; intros i Hi Hlen Hmax.
  { split_and!; [done..|]. by intros k ?%elem_of_nil. }
  destruct (IH (i + 1)) as (Hc & Hz & Hr); [lia..|]. cbn [count_slice].
  destruct (znth_is_Some arr (i - 1)) as [v Hv]; [lia|]. rewrite Hv. cbn [of_option mbind result_bind].
  rewrite Hc. cbn [mbind result_bind]. unfold array_ints in *.
  rewrite Nat2Z.inj_succ, (seqZ_cons (i - 1)), Z.pred_succ by lia.
  replace (Z.succ (i - 1)) with (i + 1 - 1) by lia. cbn [omap list_omap].
  assert (He : array_entry arr (i - 1) = if ttisnil v then None else Some (VNumber i, v)).
  { unfold array_entry. rewrite Hv. by replace (i - 1 + 1) with i by lia. }
  rewrite He. destruct (ttisnil v).
  - split_and!; [done|done|]. intros k Hk. specialize (Hr k Hk). lia.
  - rewrite fmap_cons. cbn [fst omap list_omap].
    rewrite (proj2 (int_key_Some (VNumber i) i)) by (split; [done|lia]).
    rewrite !zlen_cons. split_and!; [done|lia|].
    intros k [->|Hk]%elem_of_cons; [lia|]. specialize (Hr k Hk). lia.
Qed.

Lemma array_ints_app arr i n1 n2 :
  array_ints arr i (n1 + n2) = array_ints arr i n1 ++ array_ints arr (i + Z.of_nat n1) n2.
Proof.
  unfold array_ints. rewrite Nat2Z.inj_add, seqZ_app by lia.
  rewrite omap_app, fmap_app, omap_app.
  by replace (i + Z.of_nat n1 - 1) with (i - 1 + Z.of_nat n1) by lia.
Qed.

Lemma slice_log2_up lg k : 0 <= lg -> 2 ^ lg / 2 < k <= 2 ^ lg -> Z.log2_up k = lg.
Proof.
  intros Hlg Hk. destruct (decide (lg = 0)) as [->|].
  - change (2 ^ 0 / 2) with 0 in Hk. by assert (k = 1) as -> by lia.
  - apply Z.log2_up_unique; [lia|]. rewrite (pow2_half lg) in Hk by lia.
    rewrite Z.mul_comm, Z.div_mul in Hk by lia. rewrite <-Z.sub_1_r. pose proof (pow2_half lg). lia.
Qed.

(** [turns] more slices: what is left of the array is counted. *)
Lemma numusearray_loop_spec `{StringHash} turns t lg i ause nums ks :
  table_ok t -> 0 <= lg -> Z.of_nat turns = MAXBITS + 1 - lg ->
  1 <= i <= t_sizearray t + 1 ->
  i = Z.min (2 ^ lg / 2) (t_sizearray t) + 1 -> nums_ok nums ks ->
  exists nums' new, numusearray_loop turns t lg (2 ^ lg) i ause nums = Ok (ause + zlen new, nums') /\
    nums_ok nums' (new ++ ks) /\ new ≡ₚ array_ints (t_array t) i (Z.to_nat (t_sizearray t + 1 - i)).
Proof.
  intros Hok. pose proof (to_asize t Hok) as Hmax. pose proof (to_array t Hok) as Hsz.
  rewrite MAXASIZE_eq in Hmax. revert lg i ause nums ks.
  induction turns as [|turns IH]; intros lg i ause nums ks Hlg Ht Hi Hil Hnums.
  { exists nums, []. cbn. rewrite Z.add_0_r. unfold MAXBITS in Ht. assert (lg = 27) as -> by lia.
    change (2 ^ 27 / 2) with (2 ^ 26) in Hil. split_and!; [done..|].
    replace (Z.to_nat (t_sizearray t + 1 - i)) with 0%nat by lia. done. }
  cbn [numusearray_loop].
  destruct ((2 ^ lg >? t_sizearray t) && (i >? t_sizearray t)) eqn:Ec.
  { b2p. exists nums, []. cbn. rewrite Z.add_0_r. split_and!; [done..|].
    replace (Z.to_nat (t_sizearray t + 1 - i)) with 0%nat by lia. done. }
  set (lim := if 2 ^ lg >? t_sizearray t then t_sizearray t else 2 ^ lg).
  assert (Hlim : lim = Z.min (2 ^ lg) (t_sizearray t)) by (unfold lim; case_if; lia).
  assert (Hpow : 0 < 2 ^ lg) by lia. pose proof (Z.div_le_upper_bound (2 ^ lg) 2 (2 ^ lg)).
  assert (Hi2 : i = 2 ^ lg / 2 + 1 /\ i <= lim + 1) by (b2p; lia).
  destruct (count_slice_spec (Z.to_nat (lim - i + 1)) (t_array t) i) as (Hc & _ & Hr);
    [lia|lia|rewrite MAXASIZE_eq; lia|].
  set (slice := array_ints (t_array t) i (Z.to_nat (lim - i + 1))) in *. rewrite Hc. cbn [mbind result_bind].
  assert (Hx : znth nums lg = Some (zlen (filter (fun k => Z.log2_up k = lg) ks))) by (apply Hnums; lia).
  rewrite Hx. cbn [of_option mbind result_bind].
  destruct (IH (lg + 1) (Z.max i (lim + 1)) (ause + zlen slice)
    (zupd lg (zlen (filter (fun k => Z.log2_up k = lg) ks) + zlen slice) nums) (slice ++ ks))
    as (nums' & new & Hn & Hok' & Hperm); [lia|lia|lia| |..].
  { rewrite (pow2_half (lg + 1)), Z.mul_comm, Z.div_mul, Z.add_simpl_r by lia. lia. }
  { apply nums_ok_slice; [done|lia|done|]. intros k Hk. specialize (Hr k Hk).
    rewrite MAXASIZE_eq. split; [lia|]. by apply slice_log2_up; lia. }
  exists nums', (new ++ slice). replace (2 ^ lg * 2) with (2 ^ (lg + 1)) by (rewrite (pow2_half (lg + 1)), Z.add_simpl_r; lia).
  rewrite Hn. split_and!.
  - rewrite zlen_app. do 2 f_equal. lia.
  - by rewrite <-app_assoc.
  - replace (Z.to_nat (t_sizearray t + 1 - i)) with
      (Z.to_nat (lim - i + 1) + Z.to_nat (t_sizearray t + 1 - Z.max i (lim + 1)))%nat by lia.
    rewrite array_ints_app. fold slice. rewrite Hperm.
    replace (i + Z.of_nat (Z.to_nat (lim - i + 1))) with (Z.max i (lim + 1)) by lia.
    apply Permutation_app_comm.
Qed.

Lemma numusearray_spec `{StringHash} t :
  table_ok t ->
  exists nums' new, numusearray t (replicate (Z.to_nat (MAXBITS + 1)) 0) = Ok (zlen (array_entries t), nums') /\
    nums_ok nums' new /\ new ≡ₚ omap int_key (array_entries t).*1 /\ zlen new = zlen (array_entries t).
Proof.
  intros Hok. pose proof (to_asize t Hok). pose proof (to_array t Hok).
  destruct (numusearray_loop_spec (Z.to_nat (MAXBITS + 1)) t 0 1 0
    (replicate (Z.to_nat (MAXBITS + 1)) 0) []) as (nums' & new & Hn & Hnums & Hperm); try done.
  { lia. }
  { change (2 ^ 0 / 2) with 0. lia. }
  { apply nums_ok_nil. }
  rewrite app_nil_r in Hnums. replace (t_sizearray t + 1 - 1) with (t_sizearray t) in Hperm by lia.
  destruct (count_slice_spec (Z.to_nat (t_sizearray t)) (t_array t) 1) as (_ & Hz & _); [lia..|].
  assert (He : array_ints (t_array t) 1 (Z.to_nat (t_sizearray t)) = omap int_key (array_entries t).*1).
  { unfold array_ints, array_entries. by rewrite Z2Nat.id by lia. }
  assert (Hlen : zlen new = zlen (array_entries t)).
  { unfold zlen in *. rewrite Hperm, Hz. unfold array_entries. by rewrite Z2Nat.id by lia. }
  exists nums', new. split_and!; [|done|by rewrite Hperm, He|done].
  unfold numusearray. change (2 ^ 0) with 1 in Hn. rewrite Hn. do 2 f_equal. by rewrite Z.add_0_l.
Qed.

(** *** The best size of the array part *)

Section computesizes.
Context (ks : list Z) (Hks : forall k, k ∈ ks -> 1 <= k <= MAXASIZE) (Hnd : NoDup ks).

Lemma cnt_le m : cnt ks m <= zlen ks.
Proof. unfold cnt, zlen. pose proof (length_filter (fun k => k <= m) ks). lia. Qed.

Lemma cnt_mono m n : m <= n -> cnt ks m <= cnt ks n.
Proof.
  intros Hmn. unfold cnt. clear Hks Hnd. induction ks as [|k l IH]; [done|].
  rewrite !filter_cons. repeat case_decide; rewrite ?zlen_cons; lia.
Qed.

Lemma cnt_all : cnt ks MAXASIZE = zlen ks.
Proof. unfold cnt. rewrite filter_all; [done|]. intros k Hk. by apply Hks. Qed.

Lemma cnt_zero : cnt ks 0 = 0.
Proof. unfold cnt. rewrite filter_none; [done|]. intros k Hk. specialize (Hks k Hk). lia. Qed.

(** There are no more keys up to [m] than [m]. *)
Lemma cnt_bound m : 0 <= m -> cnt ks m <= m.
Proof.
  intros Hm. unfold cnt, zlen.
  assert (length (filter (fun k => (k <= m)%Z) ks) <= length (seqZ 1 m))%nat as Hle.
  { apply submseteq_length, NoDup_submseteq; [by apply NoDup_filter|].
    intros k [Hk Hin]%list_elem_of_filter. apply elem_of_seqZ. specialize (Hks k Hin). lia. }
  rewrite length_seqZ in Hle. lia.
Qed.

Lemma cnt_slice i : 0 <= i ->
  cnt ks (2 ^ i) = cnt ks (2 ^ i / 2) + zlen (filter (fun k => Z.log2_up k = i) ks).
Proof.
  intros Hi. unfold cnt.
  assert (Hup : forall k, 1 <= k -> Z.log2_up k = i <-> 2 ^ i / 2 < k <= 2 ^ i).
  { intros k Hk. split; [|intros; by apply slice_log2_up]. intros <-.
    destruct (decide (k = 1)) as [->|]; [done|].
    pose proof (Z.log2_up_spec k ltac:(lia)) as Hs. pose proof (Z.log2_up_pos k ltac:(lia)).
    rewrite <-Z.sub_1_r in Hs. rewrite (pow2_half (Z.log2_up k)) by lia.
    rewrite Z.mul_comm, Z.div_mul by lia. rewrite (pow2_half (Z.log2_up k)) in Hs by lia. lia. }
  assert (Hdiv : 2 ^ i / 2 <= 2 ^ i) by (apply Z.div_le_upper_bound; lia).
  clear Hnd. induction ks as [|k l IH]; [done|].
  assert (Hk : 1 <= k) by (apply (Hks k); by left). specialize (Hup k Hk).
  rewrite !filter_cons. repeat case_decide; rewrite ?zlen_cons, ?IH; try lia;
    intros j Hj; apply Hks; by right.
Qed.

(** [n] is the best size of an array part among the slices before [i]:
    the largest power of two more than half of which is used. *)
Record best (i na n : Z) : Prop := {
  best_cnt : na = cnt ks n;
  best_form : n = 0 \/ exists j, 0 <= j < i /\ n = 2 ^ j /\ n / 2 < na;
  best_max j : 0 <= j < i -> 2 ^ j / 2 < cnt ks (2 ^ j) -> 2 ^ j <= n;
}.

Lemma pow2_div2_mono i j : 0 <= i < j -> 2 ^ i <= 2 ^ j / 2.
Proof.
  intros Hij. rewrite (pow2_half j), Z.mul_comm, Z.div_mul by lia. apply Z.pow_le_mono_r; lia.
Qed.

(** All the keys are counted before slice [i]. *)
Lemma best_done i na n : 0 <= i <= MAXBITS + 1 -> zlen ks <= 2 ^ i / 2 -> best i na n -> best (MAXBITS + 1) na n.
Proof.
  intros Hi Hle [Hc Hf Hm]. split; [done| |].
  - destruct Hf as [->|(j & ? & ? & ?)]; [by left|right]. exists j. split_and!; try done; lia.
  - intros j Hj Hcj. destruct (Z.lt_ge_cases j i) as [|Hge]; [apply Hm; [lia|done]|].
    pose proof (cnt_le (2 ^ j)). assert (2 ^ i / 2 <= 2 ^ j / 2); [|lia].
    apply Z.div_le_mono; [lia|]. apply Z.pow_le_mono_r; lia.
Qed.

Lemma best_step i na n :
  0 <= i -> best i na n ->
  let a := cnt ks (2 ^ i) in
  best (i + 1) (if a >? 2 ^ i / 2 then a else na) (if a >? 2 ^ i / 2 then 2 ^ i else n).
Proof.
  intros Hi [Hc Hf Hm] a. destruct (Z.gtb_spec a (2 ^ i / 2)) as [Hgt|Hle].
  - split; [done| |].
    + right. exists i. split_and!; [lia..|done|lia].
    + intros j Hj _. apply Z.pow_le_mono_r; lia.
  - split; [done| |].
    + destruct Hf as [->|(j & ? & ? & ?)]; [by left|right]. exists j. split_and!; try done; lia.
    + intros j Hj Hcj. destruct (decide (j = i)) as [->|]; [unfold a in Hle; lia|]. apply Hm; [lia|done].
Qed.

Lemma computesizes_loop_spec fuel nums i na n :
  nums_ok nums ks -> 0 <= i <= MAXBITS -> (Z.to_nat (MAXBITS + 1 - i) < fuel)%nat ->
  best i na n ->
  exists na' n', computesizes_loop fuel nums (zlen ks) i (2 ^ i) (cnt ks (2 ^ i / 2)) na n = Ok (na', n') /\
    best (MAXBITS + 1) na' n'.
Proof.
  intros Hnums. revert i na n. induction fuel as [|fuel IH]; intros i na n Hi Hf Hb; [lia|].
  cbn [computesizes_loop].
  destruct (Z.ltb_spec (2 ^ i / 2) (zlen ks)) as [Hlt|Hge].
  2: { exists na, n. split; [done|]. apply (best_done i); [lia|lia|done]. }
  rewrite (proj2 (proj2 Hnums)) by done. cbn [of_option mbind result_bind].
  pose proof (cnt_slice i ltac:(lia)) as Hs. set (ni := zlen (filter (fun k => Z.log2_up k = i) ks)) in *.
  assert (Hni : 0 <= ni) by apply zlen_nonneg.
  assert (Hhalf : cnt ks (2 ^ i / 2) <= 2 ^ i / 2) by (apply cnt_bound, Z.div_pos; lia).
  assert (Hupd : (if ni >? 0
     then if cnt ks (2 ^ i / 2) + ni >? 2 ^ i / 2
          then (cnt ks (2 ^ i / 2) + ni, cnt ks (2 ^ i / 2) + ni, 2 ^ i)
          else (cnt ks (2 ^ i / 2) + ni, na, n)
     else (cnt ks (2 ^ i / 2), na, n)) =
    (cnt ks (2 ^ i), if cnt ks (2 ^ i) >? 2 ^ i / 2 then cnt ks (2 ^ i) else na,
     if cnt ks (2 ^ i) >? 2 ^ i / 2 then 2 ^ i else n)).
  { rewrite Hs. destruct (Z.gtb_spec ni 0); [by case_if|].
    assert (ni = 0) as -> by lia. rewrite Z.add_0_r. by destruct (Z.gtb_spec (cnt ks (2 ^ i / 2)) (2 ^ i / 2)); [lia|]. }
  rewrite Hupd. apply best_step in Hb; [|lia]. cbv zeta in Hb. pose proof (cnt_bound (2 ^ i) ltac:(lia)).
  destruct (Z.eqb_spec (cnt ks (2 ^ i)) (zlen ks)) as [Ha|Ha].
  - eexists _, _. split; [done|]. eapply (best_done (i + 1)); [lia| |done].
    pose proof (pow2_div2_mono i (i + 1) ltac:(lia)). lia.
  - assert (i <> MAXBITS) by (intros ->; apply Ha, cnt_all).
    destruct (IH (i + 1) _ _ ltac:(lia) ltac:(lia) Hb) as (na' & n' & He & Hb').
    exists na', n'. split; [|done]. rewrite <-He. f_equal.
    + rewrite (pow2_half (i + 1)), Z.add_simpl_r by lia. lia.
    + f_equal. rewrite (pow2_half (i + 1)), Z.add_simpl_r, Z.mul_comm, Z.div_mul by lia. done.
Qed.

Lemma computesizes_spec nums :
  nums_ok nums ks ->
  exists na n, computesizes nums (zlen ks) = Ok (na, n) /\ best (MAXBITS + 1) na n.
Proof.
  intros Hnums. unfold computesizes.
  destruct (computesizes_loop_spec 32 nums 0 0 0 Hnums) as (na & n & Hc & Hb); [done|unfold MAXBITS; lia| |].
  { split; [by rewrite cnt_zero|by left|intros; lia]. }
  exists na, n. split; [|done]. rewrite <-Hc. change (2 ^ 0 / 2) with 0. by rewrite cnt_zero.
Qed.
End computesizes.

(** computesizes finds the best size of the array part: given the numbers
    of integer keys in the slices, the size is 0 or a power of two more than
    half of whose cells are used, and the largest such; the keys that go to
    the array are exactly those up to it. *)
Theorem computesizes_optimal nums ks :
  nums_ok nums ks -> NoDup ks ->
  exists na n, computesizes nums (zlen ks) = Ok (na, n) /\ na = cnt ks n /\ na <= n /\
    (n = 0 \/ exists j, 0 <= j <= MAXBITS /\ n = 2 ^ j /\ n / 2 < na) /\
    forall j, 0 <= j <= MAXBITS -> 2 ^ j / 2 < cnt ks (2 ^ j) -> 2 ^ j <= n.
Proof.
  intros Hn Hnd. pose proof (proj1 (proj2 Hn)) as Hks.
  destruct (computesizes_spec ks Hks Hnd nums Hn) as (na & n & Hc & [Hcnt Hf Hm]).
  exists na, n. split_and!; [done|done| | |].
  - rewrite Hcnt. apply cnt_bound; [done|done|]. destruct Hf as [->|(j & ? & -> & _)]; lia.
  - destruct Hf as [->|(j & Hj & ? & ?)]; [by left|right]. exists j. split_and!; try done; lia.
  - intros j Hj. apply Hm. lia.
Qed.

Lemma sample_nums_ok :
  nums_ok (zupd 0 (0 + 1) (zupd 2 (0 + 2) (replicate (Z.to_nat (MAXBITS + 1)) 0))) [1; 4; 3].
Proof.
  apply (nums_ok_slice _ [4; 3] 0 0 [1]); [|done|done|by intros k ->%list_elem_of_singleton].
  apply (nums_ok_slice _ [] 2 0 [4; 3]); [apply nums_ok_nil|done|done|].
  intros k Hk. rewrite MAXASIZE_eq. apply elem_of_cons in Hk as [->|Hk]; [by split|].
  apply list_elem_of_singleton in Hk as ->. by split.
Qed.

Lemma computesizes_optimal_witness :
  exists na n, computesizes (zupd 0 (0 + 1) (zupd 2 (0 + 2) (replicate (Z.to_nat (MAXBITS + 1)) 0))) 3 = Ok (na, n) /\
    na = cnt [1; 4; 3] n /\ na <= n /\
    (n = 0 \/ exists j, 0 <= j <= MAXBITS /\ n = 2 ^ j /\ n / 2 < na) /\
    forall j, 0 <= j <= MAXBITS -> 2 ^ j / 2 < cnt [1; 4; 3] (2 ^ j) -> 2 ^ j <= n.
Proof.
  apply (computesizes_optimal _ [1; 4; 3]).
  - exact sample_nums_ok.
  - repeat constructor; set_solver.
Defined.
