(* ===== verification/TableRehash.v ===== *)
(** * TableRehash.v: growing a table

    [resize] moves every entry to the new parts, and [rehash] asks for parts
    in which all of them and the extra key fit; so the insertion that follows
    never rehashes again, and [luaH_set] is the update of a function. *)

From S2P Require Import Prelude Machine Object Mem Table TableInv TableSet TablePut TableCount.

(** ** A loop that stores entries *)

Section puts.
Context `{StringHash}.
Implicit Types (t : Table) (k v : TValue) (m : Z).

(** How many of the keys go to the hash part. *)
Definition outer t (l : list (TValue * TValue)) : Z := zlen (filter (fun e => in_array t e.1 = false) l).

Lemma outer_cons t e l : outer t (e :: l) = (if in_array t e.1 then 0 else 1) + outer t l.
Proof. unfold outer. rewrite filter_cons. destruct (in_array t e.1); [done|]. by rewrite decide_True, zlen_cons. Qed.

Lemma outer_size t t' l : t_sizearray t' = t_sizearray t -> outer t' l = outer t l.
Proof.
  intros Hs. induction l as [|e l IH]; [done|]. rewrite !outer_cons, IH. f_equal.
  destruct e as [k v]. cbn [fst]. destruct k; cbn [in_array]; by rewrite ?Hs.
Qed.

Lemma outer_nonneg t l : 0 <= outer t l.
Proof. apply zlen_nonneg. Qed.

Lemma outer_shape t t' l : same_shape t t' -> outer t' l = outer t l.
Proof. intros Hs. apply outer_size, Hs. Qed.

(** The result of storing a list of entries. *)
Record stored_all t (l : list (TValue * TValue)) t' : Prop := {
  sa_ok : table_ok t';
  sa_shape : same_shape t t';
  sa_in k v : (k, v) ∈ l -> tget t' k = v;
  sa_out k : k ∉ l.*1 -> tget t' k = tget t k;
  sa_room : room t <= room t' + outer t l;
}.

Context {A : Type} (ent : A -> option (TValue * TValue)) (act : A -> M TS unit) (I : Table -> Prop).

(** One turn of the loop: nothing, or a store that has room. *)
Definition puts_one (a : A) : Prop := forall m t, I t -> table_ok t ->
  match ent a with
  | None => act a (mkTS m t) = (Ok tt, mkTS m t)
  | Some (k, v) => (slot_of t k = None -> 0 < room t) ->
      exists t', act a (mkTS m t) = (Ok tt, mkTS m t') /\ stored t k v t' /\ I t'
  end.

Lemma puts_spec l m t :
  (forall a, a ∈ l -> puts_one a) -> NoDup (omap ent l).*1 ->
  I t -> table_ok t -> outer t (omap ent l) <= room t ->
  exists t', mfor l act (mkTS m t) = (Ok tt, mkTS m t') /\ I t' /\ stored_all t (omap ent l) t'.
Proof.
  revert t. induction l as [|a l IH]; intros t Hone Hnd HI Hok Hroom; cbn [mfor].
  { exists t. split_and!; [done..|]. split; [done|done|by intros ?? ?%elem_of_nil|done|pose proof (outer_nonneg t []); cbn [omap list_omap]; lia]. }
  assert (Hl : forall b, b ∈ l -> puts_one b) by (intros; apply Hone; by right).
  pose proof (Hone a (list_elem_of_here _ _) m t HI Hok) as Ha. cbn [omap list_omap] in *.
  destruct (ent a) as [[k v]|].
  - rewrite fmap_cons in Hnd. cbn [fst] in Hnd. apply NoDup_cons in Hnd as [Hk Hnd].
    rewrite outer_cons in Hroom. cbn [fst] in Hroom. pose proof (outer_nonneg t (omap ent l)).
    destruct Ha as (t1 & Ha & Hst & HI1).
    { intros Hs. apply slot_of_None in Hs as [Hin _]. rewrite Hin in Hroom. lia. }
    rewrite (bind_ok _ _ _ _ _ Ha). destruct Hst as [Hok1 Hsh1 _ _ Hget1 Hroom1].
    destruct (IH t1 Hl Hnd HI1 Hok1) as (t' & Hm & HI' & [Hok' Hsh' Hin' Hout' Hroom']).
    { rewrite (outer_shape t t1) by done. lia. }
    exists t'. split_and!; [done..|]. split; [done|by etrans| | |].
    + intros k' v' [[= -> ->]|Hkv]%elem_of_cons; [|by apply Hin'].
      rewrite Hout', Hget1 by done. by rewrite decide_True.
    + intros k' Hk'. rewrite fmap_cons in Hk'. apply not_elem_of_cons in Hk' as [Hne Hk'].
      rewrite Hout', Hget1 by done. by rewrite decide_False.
    + rewrite outer_cons. cbn [fst]. rewrite (outer_shape t t1) in Hroom' by done. lia.
  - rewrite (bind_ok _ _ _ _ _ Ha). by apply IH.
Qed.
End puts.

(** ** The parts of [resize] *)

(** The number of nodes for [n] keys. *)
Definition capacity (n : Z) : Z := if n =? 0 then 0 else 2 ^ Z.log2_up n.

Lemma capacity_ge n : 0 <= n -> n <= capacity n.
Proof.
  intros Hn. unfold capacity. destruct (Z.eqb_spec n 0); [lia|].
  destruct (decide (n = 1)) as [->|]; [done|]. pose proof (Z.log2_up_spec n ltac:(lia)). lia.
Qed.

Definition fresh_nodes (lsize : Z) : list Node := replicate (Z.to_nat (2 ^ lsize)) dummynode_.

Section resize.
Context `{Krealloc} `{StringHash}.
Implicit Types (t : Table) (k v : TValue) (m : Z).

Lemma fresh_lookup lsize i nd : znth (fresh_nodes lsize) i = Some nd -> nd = dummynode_.
Proof. intros Hi%znth_elem. unfold fresh_nodes in Hi. by apply elem_of_replicate in Hi as [-> _]. Qed.

Lemma fresh_len lsize : 0 <= lsize -> zlen (fresh_nodes lsize) = 2 ^ lsize.
Proof. intros. unfold zlen, fresh_nodes. rewrite length_replicate. lia. Qed.

Lemma fresh_hash_ok mpos lsize :
  0 <= lsize -> (forall k, 0 <= mpos k < 2 ^ lsize) -> hash_ok mpos (fresh_nodes lsize).
Proof.
  intros Hl Hm. pose proof (fresh_len lsize Hl) as Hlen.
  split; try (intros *; intros Hx%fresh_lookup; subst; done).
  - intros k. rewrite Hlen. apply Hm.
  - intros i Hi. destruct (znth_is_Some _ _ Hi) as [nd Hnd]. exists [i].
    pose proof (fresh_lookup _ _ _ Hnd). subst. by eapply chain_end.
  - intros i x Hx%fresh_lookup _. subst. split_and!; try done.
    intros j y Hy%fresh_lookup. by subst.
Qed.

(** A new hash part, all of it free. *)
Lemma fresh_table_ok t lsize dummy arr na fl mt :
  t = mkTable fl lsize mt arr (fresh_nodes lsize) dummy (if dummy then 0 else 2 ^ lsize) na ->
  0 <= lsize <= MAXBITS -> (dummy = true -> lsize = 0) -> 0 <= na <= zlen arr -> na <= MAXASIZE ->
  table_ok t /\ room t = (if dummy then 0 else 2 ^ lsize) /\
  (forall k, in_array t k = false -> tget t k = VNil).
Proof.
  intros -> Hl Hd Hna Hmax. set (t := mkTable _ _ _ _ _ _ _ _).
  pose proof (fresh_len lsize ltac:(lia)) as Hlen.
  assert (Hok : table_ok t).
  { split; unfold t; cbn; try done.
    - apply fresh_hash_ok; [lia|]. intros k. by apply (mainposition_range t k).
    - intros i nd Hi. by rewrite (fresh_lookup _ _ _ Hi).
    - intros i nd -> Hi _. rewrite <-Hlen. by eapply znth_Some_lt.
    - rewrite Hlen. case_match; lia.
    - intros ->. rewrite (Hd eq_refl). done. }
  split_and!; [done| |].
  - unfold room. cbn. destruct dummy; [done|]. unfold nfree. rewrite filter_all; [done|].
    intros nd Hnd. unfold fresh_nodes in Hnd. by apply elem_of_replicate in Hnd as [-> _].
  - intros k Ha. destruct (decide (tget t k = VNil)) as [|Hn]; [done|].
    assert (Hb : bound (t_node t) k (tget t k)) by by apply tget_bound.
    destruct Hb as (Hv & i & nd & Hi & _ & Hnv). apply fresh_lookup in Hi. by subst nd.
Qed.
End resize.

(** *** Its allocations *)

Section resize_steps.
Context `{Krealloc} `{StringHash}.
Implicit Types (t : Table) (k v : TValue) (m : Z).

Definition oom (e : error) : Prop := e = ErrMem /\ ~ ReliableAlloc.

Lemma wp_reallocv on n e (Q : unit -> TS -> Prop) (E : error -> Prop) m t :
  0 <= n < 2 ^ 31 -> 1 <= e <= 2 ^ 20 -> (forall x, oom x -> E x) ->
  (forall m', Q tt (mkTS m' t)) -> wp (luaM_reallocv on n e) Q E (mkTS m t).
Proof.
  intros Hn He HE HQ. unfold wp. rewrite luaM_reallocv_fits by done.
  destruct (luaM_realloc_ _ _ _) as [[[]|x] s'] eqn:Er.
  - apply luaM_realloc_Ok in Er as ->. apply HQ.
  - apply luaM_realloc_Err in Er as (-> & _ & _ & Hr). by apply HE.
Qed.

(** The array part, with [na] cells: the old ones that remain, then nils. *)
Definition array_to t (na : Z) : list TValue :=
  take (Z.to_nat (Z.min na (t_sizearray t))) (t_array t) ++
  replicate (Z.to_nat (na - t_sizearray t)) VNil.

Lemma array_to_len t na : table_ok t -> 0 <= na -> zlen (array_to t na) = na.
Proof.
  intros Hok Hna. pose proof (to_array t Hok). unfold array_to, zlen in *.
  rewrite length_app, length_take, length_replicate. lia.
Qed.

Lemma array_to_old t na i :
  table_ok t -> 0 <= i < t_sizearray t -> i < na -> znth (array_to t na) i = znth (t_array t) i.
Proof.
  intros Hok Hi Hn. pose proof (to_array t Hok). unfold array_to, znth, zlen in *.
  destruct (Z.ltb_spec i 0); [done|]. rewrite lookup_app_l by (rewrite length_take; lia).
  apply lookup_take_lt. lia.
Qed.

Lemma array_to_new t na i :
  table_ok t -> t_sizearray t <= i < na -> znth (array_to t na) i = Some VNil.
Proof.
  intros Hok Hi. pose proof (to_array t Hok). unfold array_to, znth, zlen in *.
  destruct (Z.ltb_spec i 0); [lia|]. rewrite lookup_app_r by (rewrite length_take; lia).
  apply lookup_replicate_2. rewrite length_take. lia.
Qed.

Lemma wp_setarrayvector na (Q : unit -> TS -> Prop) (E : error -> Prop) m t :
  0 <= na <= MAXASIZE -> (forall x, oom x -> E x) ->
  (forall m', Q tt (mkTS m' (set_array (array_to t na) na t))) ->
  wp (setarrayvector na) Q E (mkTS m t).
Proof.
  rewrite MAXASIZE_eq. intros Hna HE HQ. unfold setarrayvector. apply wp_bind. unfold gets, wp at 1. cbn [ts_t].
  apply wp_bind, wp_reallocv; [lia|unfold sizeof_TValue; lia|done|]. intros m'. apply HQ.
Qed.

Lemma wp_setnodevector nh (Q : unit -> TS -> Prop) (E : error -> Prop) m t :
  0 <= nh < 2 ^ 31 -> (forall x, oom x -> E x) -> (2 ^ MAXBITS < nh -> E (ErrRun "table overflow")) ->
  (forall m' lsize dummy, 0 <= lsize <= MAXBITS -> (dummy = true -> lsize = 0) ->
    (if dummy then 0 else 2 ^ lsize) = capacity nh ->
    Q tt (mkTS m' (set_hashpart lsize (fresh_nodes lsize) dummy (if dummy then 0 else 2 ^ lsize) t))) ->
  wp (setnodevector nh) Q E (mkTS m t).
Proof.
  unfold MAXBITS. intros Hnh HE Hov HQ. unfold setnodevector, capacity in *. destruct (Z.eqb_spec nh 0) as [->|Hz].
  { by apply (HQ m 0 true). }
  rewrite ceillog2_spec by lia. cbv zeta. pose proof (Z.log2_up_nonneg nh).
  destruct (Z.gtb_spec (Z.log2_up nh) MAXBITS) as [Hgt|Hle]; unfold MAXBITS in *.
  { apply Hov. by apply Z.log2_up_lt_cancel. }
  rewrite twoto_spec by lia.
  assert (2 ^ Z.log2_up nh <= 2 ^ 26) by (apply Z.pow_le_mono_r; lia).
  apply wp_bind. unfold luaM_newvector. apply wp_reallocv; [lia|unfold sizeof_Node; lia|done|].
  intros m'. by apply (HQ m' (Z.log2_up nh) false).
Qed.
End resize_steps.

(** *** Moving the entries *)

Section resize_moves.
Context `{Krealloc} `{StringHash}.
Implicit Types (t : Table) (k v : TValue) (m : Z).

(** Storing a value at the place of a key, when there is room. *)
Lemma put_room fuel k v m t :
  table_ok t -> proper k = true -> (slot_of t k = None -> 0 < room t) ->
  exists t', (s ← luaH_set_with (newkey (S fuel)) k; upd (slot_set s v)) (mkTS m t) = (Ok tt, mkTS m t') /\
    stored t k v t'.
Proof.
  intros Hok Hp Hr. destruct (luaH_set_room fuel m t k Hok Hp Hr) as (s & t' & Hs & Hpl).
  exists (slot_set s v t'). split; [by rewrite (bind_ok _ _ _ _ _ Hs)|by eapply placed_stored].
Qed.

Lemma putnum_room fuel n v m t :
  table_ok t -> in_s 32 n -> (slot_of t (VNumber n) = None -> 0 < room t) ->
  exists t', (s ← luaH_setnum_with (newkey (S fuel)) n; upd (slot_set s v)) (mkTS m t) = (Ok tt, mkTS m t') /\
    stored t (VNumber n) v t'.
Proof.
  intros Hok Hn Hr. destruct (luaH_setnum_room fuel m t n Hok Hn Hr) as (s & t' & Hs & Hpl).
  exists (slot_set s v t'). split; [by rewrite (bind_ok _ _ _ _ _ Hs)|by apply placed_stored].
Qed.

Lemma outer_app t l1 l2 : outer t (l1 ++ l2) = outer t l1 + outer t l2.
Proof. unfold outer. by rewrite filter_app, zlen_app. Qed.

Lemma outer_perm t l1 l2 : l1 ≡ₚ l2 -> outer t l1 = outer t l2.
Proof. intros Hp. unfold outer, zlen. by rewrite Hp. Qed.

(** The part of the table that was in the array part has been moved. *)
Record moved t (na cap : Z) t' : Prop := {
  mv_ok : table_ok t';
  mv_size : t_sizearray t' = na;
  mv_meta : t_metatable t' = t_metatable t;
  mv_get k : tget t' k = if in_array t k then tget t k else VNil;
  mv_room : cap <= room t' + outer t' (array_entries t);
}.

(** The new parts with the array part of [t], shorter or longer. *)
Definition refreshed t (arr : list TValue) (na lsize : Z) (dummy : bool) : Table :=
  set_hashpart lsize (fresh_nodes lsize) dummy (if dummy then 0 else 2 ^ lsize) (set_array arr na t).

Lemma refreshed_ok t arr na lsize dummy :
  0 <= lsize <= MAXBITS -> (dummy = true -> lsize = 0) -> 0 <= na <= zlen arr -> na <= MAXASIZE ->
  let t' := refreshed t arr na lsize dummy in
  table_ok t' /\ room t' = (if dummy then 0 else 2 ^ lsize) /\
  (forall k, in_array t' k = false -> tget t' k = VNil).
Proof. intros ? ? ? ? t'. by eapply fresh_table_ok. Qed.

Lemma tget_in_array t n :
  in_array t (VNumber n) = true -> tget t (VNumber n) = default VNil (znth (t_array t) (n - 1)).
Proof.
  intros Ha. unfold tget, slot_of. rewrite Ha. cbn. by destruct (znth _ _).
Qed.

Lemma in_array_iff t n : in_array t (VNumber n) = true <-> 1 <= n <= t_sizearray t.
Proof. cbn. rewrite andb_true_iff, !Z.leb_le. done. Qed.

(** The array part does not shrink. *)
Lemma moved_grow t arr na lsize dummy :
  table_ok t -> t_sizearray t <= na <= MAXASIZE -> na <= zlen arr ->
  (forall i, 0 <= i < t_sizearray t -> znth arr i = znth (t_array t) i) ->
  (forall i, t_sizearray t <= i < na -> znth arr i = Some VNil) ->
  0 <= lsize <= MAXBITS -> (dummy = true -> lsize = 0) ->
  moved t na (if dummy then 0 else 2 ^ lsize) (refreshed t arr na lsize dummy).
Proof.
  intros Hok Hna Hlen Hold Hnew Hl Hd. pose proof (to_array t Hok) as Hsz.
  destruct (refreshed_ok t arr na lsize dummy Hl Hd) as (Hok' & Hroom & Hout); [lia..|].
  split; try done.
  - intros k. destruct (in_array t k) eqn:Ha.
    + destruct (in_array_cell t k Hok Ha) as (n & w & -> & Hn & Hw).
      rewrite tget_in_array by (apply in_array_iff; cbn; lia). rewrite tget_in_array by done. cbn.
      by rewrite Hold by lia.
    + destruct (in_array (refreshed t arr na lsize dummy) k) eqn:Ha'; [|by apply Hout].
      destruct (in_array_cell _ k Hok' Ha') as (n & w & -> & Hn & Hw). rewrite tget_in_array by done.
      assert (~ (1 <= n <= t_sizearray t)) by (rewrite <-in_array_iff; congruence).
      cbn in *. by rewrite Hnew by lia.
  - rewrite Hroom. pose proof (outer_nonneg (refreshed t arr na lsize dummy) (array_entries t)). lia.
Qed.

(** The array shrinks in place: what is after its new end is not read. *)
Lemma table_truncate t :
  table_ok t ->
  let t' := set_array (take (Z.to_nat (t_sizearray t)) (t_array t)) (t_sizearray t) t in
  table_ok t' /\ (forall k, tget t' k = tget t k) /\ room t' = room t.
Proof.
  intros Hok t'. pose proof (to_array t Hok) as Hsz.
  assert (Hok' : table_ok t').
  { split; unfold t'; cbn; try apply Hok. unfold zlen in *. rewrite length_take. lia. }
  split_and!; try done. intros k. destruct (in_array t k) eqn:Ha.
  - destruct (in_array_cell t k Hok Ha) as (n & w & -> & Hn & Hw). rewrite !tget_in_array by done.
    cbn. f_equal. unfold znth. destruct (Z.ltb_spec (n - 1) 0); [done|]. apply lookup_take_lt. lia.
  - apply tget_ext; done.
Qed.
End resize_moves.

Section resize_spec.
Context `{Krealloc} `{StringHash}.
Implicit Types (t : Table) (k v : TValue) (m : Z).

(** The loop over the vanishing slice. *)
Definition slice_put (fuel : nat) (i : Z) : M TS unit :=
  t ← gets ts_t;
  v ← lift (of_option "array index" (znth (t_array t) i));
  when (negb (ttisnil v)) (s ← luaH_setnum_with (newkey (S fuel)) (i + 1); upd (slot_set s v)).

Lemma slice_put_one fuel arr na i :
  0 <= na <= i -> i < zlen arr -> i < MAXASIZE ->
  puts_one (array_entry arr) (slice_put fuel) (fun t => t_array t = arr /\ t_sizearray t = na) i.
Proof.
  rewrite MAXASIZE_eq. intros Hi Hlen Hmax m t [Harr Hsz] Hok. unfold slice_put.
  destruct (znth_is_Some arr i) as [v Hv]; [lia|].
  erewrite bind_ok by reflexivity. cbn [ts_t]. rewrite (bind_ok _ _ _ v (mkTS m t)) by (cbn; by rewrite Harr, Hv).
  unfold array_entry. rewrite Hv. destruct (ttisnil v); cbn [negb when]; [done|]. intros Hr.
  destruct (putnum_room fuel (i + 1) v m t Hok) as (t' & Hp & Hst); [unfold in_s; cbn; lia|done|].
  exists t'. split_and!; [done..| |].
  - rewrite (st_array _ _ _ _ Hst); [done|]. apply not_true_iff_false. rewrite in_array_iff. lia.
  - by rewrite (ss_size _ _ (st_shape _ _ _ _ Hst)).
Qed.

Lemma array_entries_split t na :
  0 <= na <= t_sizearray t ->
  array_entries t = omap (M := list) (array_entry (t_array t)) (seqZ 0 na) ++
                    omap (array_entry (t_array t)) (seqZ na (t_sizearray t - na)).
Proof.
  intros Hna. unfold array_entries. rewrite <-omap_app.
  replace (t_sizearray t) with (na + (t_sizearray t - na)) at 1 by lia. by rewrite seqZ_app by lia.
Qed.

Lemma elem_of_slice t na k v :
  table_ok t -> 0 <= na ->
  (k, v) ∈ omap (M := list) (array_entry (t_array t)) (seqZ na (t_sizearray t - na)) <->
  exists n : Z, k = VNumber n /\ na < n <= t_sizearray t /\ tget t k = v /\ v <> VNil.
Proof.
  intros Hok Hna. rewrite list_elem_of_omap. split.
  - intros (i & Hi%elem_of_seqZ & (-> & Hv & Hn)%array_entry_Some). exists (i + 1).
    split_and!; try done; try lia. rewrite tget_in_array by (apply in_array_iff; lia).
    replace (i + 1 - 1) with i by lia. by rewrite Hv.
  - intros (n & -> & Hn & Hg & Hv). exists (n - 1). rewrite elem_of_seqZ, array_entry_Some.
    split_and!; try lia; [f_equal; lia| |done]. rewrite tget_in_array in Hg by (apply in_array_iff; lia).
    destruct (znth _ _); cbn in *; congruence.
Qed.

Lemma moved_shrink fuel t na lsize (dummy : bool) m (Q : unit -> TS -> Prop) (E : error -> Prop) :
  let cap := if dummy then 0 else 2 ^ lsize in
  let t2 := set_hashpart lsize (fresh_nodes lsize) dummy cap t in
  table_ok t -> 0 <= na < t_sizearray t -> 0 <= lsize <= MAXBITS -> (dummy = true -> lsize = 0) ->
  outer (set_array (t_array t) na t) (array_entries t) <= cap ->
  (forall x, oom x -> E x) -> (forall m' t', moved t na cap t' -> Q tt (mkTS m' t')) ->
  wp (upd (fun t => set_array (t_array t) na t);;
      mfor (seqZ na (t_sizearray t - na)) (slice_put fuel);;
      luaM_reallocv (t_sizearray t) na sizeof_TValue;;
      upd (fun t => set_array (take (Z.to_nat na) (t_array t)) na t)) Q E (mkTS m t2).
Proof.
  intros cap t2 Hok Hna Hl Hd Hcap HE HQ. pose proof (to_array t Hok) as Hsz. pose proof (to_asize t Hok) as Hmax.
  apply wp_bind. set (t3 := refreshed t (t_array t) na lsize dummy).
  change (wp (mfor (seqZ na (t_sizearray t - na)) (slice_put fuel);;
      luaM_reallocv (t_sizearray t) na sizeof_TValue;;
      upd (fun t => set_array (take (Z.to_nat na) (t_array t)) na t)) Q E (mkTS m t3)).
  destruct (refreshed_ok t (t_array t) na lsize dummy Hl Hd) as (Hok3 & Hroom3 & Hout3); [lia..|]. fold t3 in Hok3, Hroom3, Hout3.
  rewrite (array_entries_split t na) in Hcap by lia. rewrite outer_app in Hcap.
  set (slice := omap (array_entry (t_array t)) (seqZ na (t_sizearray t - na))) in *.
  set (rest := omap (array_entry (t_array t)) (seqZ 0 na)) in *.
  pose proof (outer_nonneg (set_array (t_array t) na t) rest).
  destruct (puts_spec (array_entry (t_array t)) (slice_put fuel) (fun x => t_array x = t_array t /\ t_sizearray x = na)
    (seqZ na (t_sizearray t - na)) m t3) as (t4 & Hm & [Harr4 Hsz4] & [Hok4 Hsh4 Hin4 Hout4 Hroom4]).
  { intros i Hi%elem_of_seqZ. apply slice_put_one; lia. }
  { apply array_entries_NoDup. }
  { done. }
  { done. }
  { fold slice. change (outer t3 slice) with (outer (set_array (t_array t) na t) slice). unfold cap in Hcap. lia. }
  apply wp_bind. unfold wp at 1. rewrite Hm. apply wp_bind, wp_reallocv; [rewrite MAXASIZE_eq in Hmax; lia|done|done|].
  intros m'. destruct (table_truncate t4 Hok4) as (Hok5 & Hget5 & Hroom5). rewrite Hsz4 in *. apply HQ.
  fold slice in Hin4, Hout4, Hroom4. split; cbn [ts_t]; try done.
  - apply Hsh4.
  - intros k. rewrite Hget5. destruct (decide (k ∈ slice.*1)) as [Hk|Hk].
    + apply list_elem_of_fmap in Hk as ([k' v] & -> & Hkv). cbn [fst]. rewrite (Hin4 k' v Hkv).
      apply elem_of_slice in Hkv as (n & -> & Hn & Hg & _); [|done|lia].
      by rewrite (proj2 (in_array_iff t n)) by lia.
    + rewrite Hout4 by done. destruct (in_array t3 k) eqn:Ha3.
      * destruct (in_array_cell t3 k Hok3 Ha3) as (n & w & -> & Hn & Hw). cbn in Hn.
        rewrite (proj2 (in_array_iff t n)) by lia. rewrite !tget_in_array; [done|apply in_array_iff; lia|done].
      * rewrite Hout3 by done. destruct (in_array t k) eqn:Ha; [|done].
        destruct (in_array_cell t k Hok Ha) as (n & w & -> & Hn & Hw).
        assert (~ (1 <= n <= na)) by (change na with (t_sizearray t3); rewrite <-in_array_iff; congruence).
        destruct (decide (tget t (VNumber n) = VNil)) as [|Hv]; [done|]. destruct Hk.
        apply list_elem_of_fmap. exists (VNumber n, tget t (VNumber n)). split; [done|].
        apply elem_of_slice; [done|lia|]. exists n. split_and!; try done; lia.
  - rewrite Hroom5. change (outer _ (array_entries t)) with (outer t3 (array_entries t)).
    rewrite (array_entries_split t na), outer_app by lia. fold slice rest. rewrite Hroom3 in Hroom4.
    pose proof (outer_nonneg t3 rest). unfold cap. lia.
Qed.
End resize_spec.

Section rehash_spec.
Context `{Krealloc} `{StringHash}.
Implicit Types (t : Table) (k v : TValue) (m : Z).

Definition node_put (fuel : nat) (nd : Node) : M TS unit :=
  when (negb (ttisnil (i_val nd)))
    (s ← luaH_set_with (newkey (S fuel)) (i_key nd); upd (slot_set s (i_val nd))).

Lemma node_put_one fuel nd :
  (i_val nd <> VNil -> proper (i_key nd) = true) ->
  puts_one node_entry (node_put fuel) (fun _ => True) nd.
Proof.
  intros Hp m t _ Hok. unfold node_put, node_entry. destruct (ttisnil (i_val nd)) eqn:Hv; [done|].
  apply ttisnil_false in Hv. intros Hr.
  destruct (put_room fuel (i_key nd) (i_val nd) m t Hok (Hp Hv) Hr) as (t' & ? & ?). eauto.
Qed.

(** The result of a resize: all the entries, in new parts. *)
Record resized t (na cap : Z) t' : Prop := {
  rs_ok : table_ok t';
  rs_size : t_sizearray t' = na;
  rs_meta : t_metatable t' = t_metatable t;
  rs_get k : tget t' k = tget t k;
  rs_room : cap <= room t' + outer t' (entries t);
}.

(** The loop over the old nodes completes the move. *)
Lemma resized_nodes fuel t na cap t1 m :
  table_ok t -> moved t na cap t1 -> outer t1 (entries t) <= cap ->
  exists t', mfor (rev (t_node t)) (node_put fuel) (mkTS m t1) = (Ok tt, mkTS m t') /\ resized t na cap t'.
Proof.
  intros Hok [Hok1 Hsz1 Hmeta1 Hget1 Hroom1] Hcap.
  assert (Hperm : omap node_entry (rev (t_node t)) ≡ₚ node_entries t).
  { unfold node_entries. by rewrite <-(Permutation_rev (t_node t)). }
  unfold entries in *. rewrite outer_app in Hcap.
  destruct (puts_spec node_entry (node_put fuel) (fun _ => True) (rev (t_node t)) m t1)
    as (t' & Hm & _ & [Hok' Hsh' Hin' Hout' Hroom']); try done.
  { intros nd Hnd. apply node_put_one. rewrite <-(Permutation_rev (t_node t)) in Hnd.
    apply list_elem_of_lookup in Hnd as [i Hi]. rewrite <-znth_of_nat in Hi.
    by apply (ho_live _ _ (to_hash t Hok) _ nd Hi). }
  { rewrite Hperm. by apply node_entries_NoDup. }
  { rewrite (outer_perm _ _ _ Hperm). lia. }
  exists t'. split; [done|]. split; [done| | | |].
  - by rewrite (ss_size _ _ Hsh').
  - by rewrite (ss_meta _ _ Hsh').
  - intros k. destruct (decide (k ∈ (node_entries t).*1)) as [Hk|Hk].
    + apply list_elem_of_fmap in Hk as ([k' v] & -> & Hkv). cbn [fst].
      rewrite (Hin' k' v) by by rewrite Hperm.
      symmetry. apply (elem_of_entries t k' v Hok). unfold entries. apply elem_of_app. by right.
    + rewrite Hout' by by rewrite Hperm. rewrite Hget1. destruct (in_array t k) eqn:Ha; [done|].
      destruct (decide (tget t k = VNil)) as [|Hv]; [done|]. destruct Hk. apply list_elem_of_fmap.
      exists (k, tget t k). split; [done|]. by apply elem_of_node_entries, tget_bound.
  - unfold entries. rewrite outer_app, !(outer_shape t1 t') by done.
    rewrite (outer_perm _ _ _ Hperm) in Hroom'. lia.
Qed.

Definition resize_err (nh : Z) (e : error) : Prop :=
  oom e \/ (e = ErrRun "table overflow" /\ 2 ^ MAXBITS < nh).

Lemma wp_resize fuel na nh m t :
  table_ok t -> 0 <= na <= MAXASIZE -> 0 <= nh < 2 ^ 31 ->
  outer (set_array (t_array t) na t) (entries t) <= capacity nh ->
  wp (resize_with (newkey (S fuel)) na nh)
    (fun _ s => resized t na (capacity nh) (ts_t s)) (resize_err nh) (mkTS m t).
Proof.
  intros Hok Hna Hnh Hcap. pose proof (to_array t Hok) as Hsz. unfold resize_with.
  assert (HE : forall x, oom x -> resize_err nh x) by by left.
  assert (Hfinal : forall m1 t1, moved t na (capacity nh) t1 ->
    wp (mfor (rev (t_node t)) (node_put fuel);;
        when (negb (t_dummy t)) (luaM_freearray (twoto (t_lsizenode t)) sizeof_Node))
      (fun _ s => resized t na (capacity nh) (ts_t s)) (resize_err nh) (mkTS m1 t1)).
  { intros m1 t1 Hmv. destruct (resized_nodes fuel t na _ t1 m1 Hok Hmv) as (t' & Hm & Hr).
    { transitivity (outer (set_array (t_array t) na t) (entries t)); [|done].
      rewrite (outer_size (set_array (t_array t) na t) t1); [done|apply Hmv]. }
    apply wp_bind. unfold wp at 1. rewrite Hm. apply wp_when; intros _; [|done].
    unfold luaM_freearray. apply wp_reallocv; [lia|unfold sizeof_Node; lia|done|done]. }
  apply wp_bind. unfold gets at 1, wp at 1. cbn [ts_t]. cbv zeta.
  destruct (Z.gtb_spec na (t_sizearray t)) as [Hgt|Hle]; cbn [when].
  - apply wp_bind, wp_setarrayvector; [done|done|]. intros m1.
    apply wp_bind, wp_setnodevector; [done|done|by right|]. intros m2 lsize dummy Hl Hd Hc.
    destruct (Z.ltb_spec na (t_sizearray t)); [lia|]. cbn [when]. apply wp_bind.
    apply Hfinal. rewrite <-Hc. apply moved_grow; try done; [lia|rewrite array_to_len; [done|done|lia]|..].
    + intros i Hi. apply array_to_old; [done|lia..].
    + intros i Hi. by apply array_to_new.
  - apply wp_bind. unfold mret, M_ret, wp at 1.
    apply wp_bind, wp_setnodevector; [done|done|by right|]. intros m2 lsize dummy Hl Hd Hc.
    destruct (Z.ltb_spec na (t_sizearray t)) as [Hlt|Hge]; cbn [when].
    + apply wp_bind. fold (slice_put fuel). apply (moved_shrink fuel t na lsize dummy); [exact Hok|lia|exact Hl|exact Hd| |exact HE|].
      * rewrite Hc. etransitivity; [|exact Hcap]. unfold entries. rewrite outer_app.
        pose proof (outer_nonneg (set_array (t_array t) na t) (node_entries t)). lia.
      * intros m3 t3. rewrite Hc. apply Hfinal.
    + apply wp_bind. apply Hfinal. rewrite <-Hc. assert (na = t_sizearray t) as -> by lia.
      destruct t. apply moved_grow; try done; cbn in *; lia.
Qed.
End rehash_spec.

(** ** The rehash and the set functions *)

Section set_spec.
Context `{Krealloc} `{StringHash}.
Implicit Types (t : Table) (k v : TValue) (m : Z).

(** The integer keys that fit an array of size [n] are not outside it. *)
Lemma cnt_outer t (l : list (TValue * TValue)) :
  t_sizearray t <= MAXASIZE ->
  cnt (omap int_key l.*1) (t_sizearray t) = zlen l - outer t l.
Proof.
  intros Hmax. unfold cnt. induction l as [|[k v] l IH]; [done|]. rewrite fmap_cons, outer_cons, zlen_cons.
  cbn [omap list_omap fst]. destruct (int_key k) as [n|] eqn:Ek.
  - apply int_key_Some in Ek as [-> Hn]. rewrite filter_cons. destruct (in_array t (VNumber n)) eqn:Ha.
    + apply in_array_iff in Ha. rewrite decide_True, zlen_cons by lia. lia.
    + apply not_true_iff_false in Ha. rewrite in_array_iff in Ha. rewrite decide_False by lia. lia.
  - destruct (in_array t k) eqn:Ha; [|lia]. destruct k; try done. apply in_array_iff in Ha.
    assert (int_key (VNumber n) = Some n) by (apply int_key_Some; split; [done|lia]). congruence.
Qed.

Lemma int_keys_NoDup (l : list TValue) : NoDup l -> NoDup (omap int_key l).
Proof.
  induction 1 as [|k l Hk _ IH]; [constructor|]. cbn [omap list_omap].
  destruct (int_key k) as [n|] eqn:E; [|done]. constructor; [|done].
  intros (k' & Hk' & E')%list_elem_of_omap. apply int_key_Some in E as [-> _], E' as [-> _]. done.
Qed.

Lemma outer_le t l : outer t l <= zlen l.
Proof.
  unfold outer. pose proof (length_filter (fun e : TValue * TValue => in_array t e.1 = false) l). unfold zlen. lia.
Qed.

Lemma entries_bound t : table_ok t -> zlen (entries t) <= 2 ^ 27.
Proof.
  intros Hok. pose proof (to_asize t Hok) as Hmax. rewrite MAXASIZE_eq in Hmax.
  pose proof (to_nodes t Hok) as Hn. pose proof (to_array t Hok).
  assert (2 ^ t_lsizenode t <= 2 ^ 26) by (apply Z.pow_le_mono_r; [lia|apply Hok]).
  assert (Hlen : forall A (f : A -> option (TValue * TValue)) (l : list A), zlen (omap f l) <= zlen l).
  { intros A f l. unfold zlen. induction l as [|a l IH]; [done|]. cbn. destruct (f a); cbn; lia. }
  unfold entries, array_entries, node_entries. rewrite zlen_app.
  pose proof (Hlen _ (array_entry (t_array t)) (seqZ 0 (t_sizearray t))) as Ha.
  pose proof (Hlen _ node_entry (t_node t)) as Hb.
  unfold zlen at 2 in Ha. rewrite length_seqZ in Ha. lia.
Qed.

Definition set_err t (e : error) : Prop :=
  oom e \/ (e = ErrRun "table overflow" /\ 2 ^ MAXBITS <= zlen (entries t)).

(** The counts of a rehash: all the entries, and the integer keys with the
    extra key among them. *)
Lemma rehash_counts k t :
  table_ok t ->
  exists nums1 nums2 nums3 ause c ks,
    numusearray t (replicate (Z.to_nat (MAXBITS + 1)) 0) = Ok (zlen (array_entries t), nums1) /\
    numusehash t nums1 = Ok (zlen (node_entries t), ause, nums2) /\
    countint k nums2 = Ok (c, nums3) /\
    zlen (array_entries t) + ause + c = zlen ks /\
    nums_ok nums3 ks /\ ks ≡ₚ omap int_key (k :: (entries t).*1).
Proof.
  intros Hok. destruct (numusearray_spec t Hok) as (nums1 & ka & Ha & Hn1 & Hka & Hlen).
  destruct (numusehash_loop_spec (rev (t_node t)) 0 0 nums1 ka Hn1) as (nums2 & Hh & Hn2).
  assert (Hperm : omap node_entry (rev (t_node t)) ≡ₚ node_entries t).
  { unfold node_entries. by rewrite <-(Permutation_rev (t_node t)). }
  set (ne := omap node_entry (rev (t_node t))) in *.
  assert (Hks : rev (omap int_key ne.*1) ++ ka ≡ₚ omap int_key (entries t).*1).
  { unfold entries. rewrite fmap_app, omap_app, <-Hka, <-Permutation_rev, Hperm. apply Permutation_app_comm. }
  assert (Hz : zlen (rev (omap int_key ne.*1) ++ ka) = zlen (array_entries t) + zlen (omap int_key ne.*1)).
  { rewrite zlen_app, Hlen. unfold zlen at 1. rewrite length_rev. unfold zlen. lia. }
  pose proof (countint_spec k nums2 _ Hn2) as Hc.
  assert (Htot : zlen ne = zlen (node_entries t)) by (unfold zlen; by rewrite Hperm).
  cbn [omap list_omap]. destruct (int_key k) as [n|].
  - destruct Hc as (nums3 & Hc & Hn3). eexists _, _, _, _, _, _. split_and!; [exact Ha| |exact Hc| |exact Hn3|].
    + unfold numusehash. rewrite Hh, Htot, !Z.add_0_l. reflexivity.
    + rewrite zlen_cons, Hz. lia.
    + by constructor.
  - eexists _, _, _, _, _, _. split_and!; [exact Ha| |exact Hc| |exact Hn2|done].
    + unfold numusehash. rewrite Hh, Htot, !Z.add_0_l. reflexivity.
    + rewrite Hz. lia.
Qed.

(** The table after a rehash has room for the extra key. *)
Lemma wp_rehash fuel k m t :
  table_ok t -> tget t k = VNil ->
  wp (rehash_with (newkey (S fuel)) k)
    (fun _ s => table_ok (ts_t s) /\ (forall k', tget (ts_t s) k' = tget t k') /\
       t_metatable (ts_t s) = t_metatable t /\ (in_array (ts_t s) k = false -> 0 < room (ts_t s)))
    (set_err t) (mkTS m t).
Proof.
  intros Hok Hk. destruct (rehash_counts k t Hok) as (nums1 & nums2 & nums3 & ause & c & ks & Ha & Hh & Hc & Hsum & Hn & Hks).
  assert (Hnd : NoDup ks).
  { rewrite Hks. apply int_keys_NoDup. constructor; [|by apply entries_NoDup].
    intros ([k' v] & -> & Hin)%list_elem_of_fmap. apply elem_of_entries in Hin as [Hg Hv]; [|done]. cbn in Hk. congruence. }
  destruct (computesizes_spec ks (proj1 (proj2 Hn)) Hnd nums3 Hn) as (na & n & Hcs & Hbest).
  unfold rehash_with. apply wp_bind. unfold gets, wp at 1. cbn [ts_t]. cbv zeta.
  rewrite Ha. apply wp_bind. unfold lift, wp at 1. rewrite Hh. apply wp_bind. unfold wp at 1.
  rewrite Hc. apply wp_bind. unfold wp at 1. rewrite Hsum, Hcs. apply wp_bind. unfold wp at 1.
  assert (Hnr : 0 <= n <= MAXASIZE).
  { rewrite MAXASIZE_eq. destruct (best_form _ _ _ _ Hbest) as [->|(j & Hj & -> & _)]; [lia|].
    unfold MAXBITS in Hj. split; [lia|]. apply Z.pow_le_mono_r; lia. }
  set (tn := set_array (t_array t) n t).
  assert (Hna : na = zlen (entries t) + 1 - outer tn ((k, VNil) :: entries t)).
  { rewrite (best_cnt _ _ _ _ Hbest). transitivity (cnt (omap int_key (((k, VNil) :: entries t)).*1) n).
    - unfold cnt, zlen. by rewrite Hks.
    - change n with (t_sizearray tn) at 1. rewrite cnt_outer, zlen_cons by (cbn; lia). lia. }
  rewrite outer_cons in Hna. cbn [fst] in Hna. unfold entries in Hna at 1. rewrite zlen_app in Hna.
  set (nh := zlen (array_entries t) + zlen (node_entries t) + 1 - na).
  pose proof (entries_bound t Hok) as Hb. unfold entries in Hb. rewrite zlen_app in Hb.
  pose proof (outer_nonneg tn (entries t)). pose proof (outer_le tn (entries t)) as Hol.
  unfold entries in Hol at 2. rewrite zlen_app in Hol.
  assert (Hnh : nh = outer tn (entries t) + if in_array tn k then 0 else 1) by (unfold nh; lia).
  assert (Hcap : nh <= capacity nh) by (apply capacity_ge; case_match; lia).
  eapply wp_mono; [apply (wp_resize fuel n nh m t Hok Hnr)|..].
  - case_match; lia.
  - fold tn. case_match; lia.
  - intros _ s [Hok' Hsz Hmeta Hget Hroom]. split_and!; try done.
    rewrite (outer_size tn) in Hroom by done. intros Hak.
    assert (Hin : in_array tn k = false) by (rewrite <-Hak; destruct k; cbn; by rewrite ?Hsz).
    rewrite Hin in Hnh. lia.
  - intros e [He|[-> He]]; [by left|right]. split; [done|]. unfold entries. rewrite zlen_app.
    case_match; lia.
Qed.
End set_spec.
