(* ===== verification/TableSpec.v ===== *)
(** * TableSpec.v: what a table promises

    A table that is [table_ok] is a function from keys to values ([tget]); the
    set functions update it at one key and the get functions read it, whatever
    rehashes and moves of nodes happen inside. *)

From S2P Require Import Prelude Machine Object Mem Table TableInv TableSet TablePut TableCount TableRehash.

Section spec.
Context `{Krealloc} `{StringHash}.
Implicit Types (t : Table) (k v : TValue) (m : Z).

(** A place for the key in a table with the same values. *)
Record found t k t' (s : slot) : Prop := {
  fd_ok : table_ok t';
  fd_meta : t_metatable t' = t_metatable t;
  fd_slot : slot_of t' k = Some s;
  fd_get k' : tget t' k' = tget t k';
}.

Lemma placed_found t k t' s : placed t k t' s -> found t k t' s.
Proof. intros [? [] ? ? ? ?]. by split. Qed.

(** A new key is placed, with one rehash at most. *)
Lemma wp_newkey m t k :
  table_ok t -> proper k = true -> slot_of t k = None ->
  wp (newkey newkey_fuel k) (fun s st => found t k (ts_t st) s) (set_err t) (mkTS m t).
Proof.
  intros Hok Hp Hs. unfold newkey_fuel.
  destruct (newkey_step 1 m t k Hok Hp Hs) as [(s & t' & Hn & Hpl)|(_ & lf & Hok' & Hn)].
  { unfold wp. rewrite Hn. by apply placed_found. }
  unfold wp. rewrite Hn. change (wp (rehash_with (newkey 1) k;; luaH_set_with (newkey 1) k)
    (fun s st => found t k (ts_t st) s) (set_err t) (mkTS m (set_lastfree lf t))).
  eapply wp_seq; [apply (wp_rehash 0 k m (set_lastfree lf t) Hok')|].
  { change (tget t k = VNil). unfold tget. by rewrite Hs. }
  intros _ [m1 t1] (Hok1 & Hget1 & Hmeta1 & Hroom1). cbn [ts_t] in *.
  destruct (luaH_set_room 0 m1 t1 k Hok1 Hp) as (s & t' & Hset & Hpl).
  { intros Hn1. apply Hroom1. by destruct (slot_of_None _ _ Hn1). }
  unfold wp. rewrite Hset. cbn [ts_t]. destruct (placed_found _ _ _ _ Hpl) as [Hok2 Hmeta2 Hsl2 Hget2].
  split; [done|by rewrite Hmeta2, Hmeta1|done|]. intros k'. by rewrite Hget2, Hget1.
Qed.

Lemma found_flags t k t' s x : found (set_flags x t) k t' s -> found t k t' s.
Proof. intros [? ? ? ?]. by split. Qed.

Lemma wp_luaH_set m t k :
  table_ok t -> proper k = true ->
  wp (luaH_set k) (fun s st => found t k (ts_t st) s) (set_err t) (mkTS m t).
Proof.
  intros Hok Hp. unfold luaH_set, luaH_set_with. apply wp_bind. unfold gets, wp at 1. cbn [ts_t].
  rewrite luaH_get_spec by done. apply wp_bind. unfold lift, wp at 1.
  apply wp_bind. unfold upd, modify, wp at 1. cbn [ts_mem ts_t].
  destruct (slot_of t k) as [s|] eqn:Hs.
  - split; [by apply table_ok_flags|done..].
  - assert (Hn : wp (newkey newkey_fuel k) (fun s st => found t k (ts_t st) s) (set_err t) (mkTS m (set_flags 0 t))).
    { eapply wp_mono; [apply wp_newkey; [by apply table_ok_flags|done|done]| |done].
      intros s st. apply found_flags. }
    destruct k; try done. by rewrite luai_numisnan_false.
Qed.

Lemma wp_luaH_setnum m t n :
  table_ok t -> in_s 32 n ->
  wp (luaH_setnum n) (fun s st => found t (VNumber n) (ts_t st) s) (set_err t) (mkTS m t).
Proof.
  intros Hok Hn. unfold luaH_setnum, luaH_setnum_with. apply wp_bind. unfold gets, wp at 1. cbn [ts_t].
  rewrite luaH_getnum_spec by done. apply wp_bind. unfold lift, wp at 1.
  destruct (slot_of t (VNumber n)) as [s|] eqn:Hs; [by split|by apply wp_newkey].
Qed.

Lemma wp_luaH_setstr m t x :
  table_ok t ->
  wp (luaH_setstr x) (fun s st => found t (VString x) (ts_t st) s) (set_err t) (mkTS m t).
Proof.
  intros Hok. unfold luaH_setstr, luaH_setstr_with. apply wp_bind. unfold gets, wp at 1. cbn [ts_t].
  rewrite luaH_getstr_spec by done. apply wp_bind. unfold lift, wp at 1.
  destruct (slot_of t (VString x)) as [s|] eqn:Hs; [by split|by apply wp_newkey].
Qed.

(** [t'] is [t] with the value [v] at the key [k]. *)
Definition updated t k v t' : Prop :=
  table_ok t' /\ t_metatable t' = t_metatable t /\
  (forall k', tget t' k' = if decide (k' = k) then v else tget t k') /\
  (forall k', proper k' = true -> get_value t' (luaH_get t' k') = Ok (tget t' k')).

Lemma get_value_tget t k :
  table_ok t -> proper k = true -> get_value t (luaH_get t k) = Ok (tget t k).
Proof.
  intros Hok Hp. rewrite luaH_get_spec by done. unfold get_value, tget. cbn.
  destruct (slot_of t k) as [s|] eqn:Hs; [|done]. destruct (in_array t k) eqn:Ha.
  - destruct (in_array_cell t k Hok Ha) as (n & w & -> & Hn & Hw). unfold slot_of in Hs. rewrite Ha in Hs.
    simplify_eq. cbn. by rewrite Hw.
  - rewrite slot_of_hash in Hs by done. apply fmap_Some in Hs as (i & Hi & ->).
    apply node_of_Some_1 in Hi as (nd & Hnd & _). cbn. by rewrite Hnd.
Qed.

Lemma found_updated t k v t' s : proper k = true -> found t k t' s -> updated t k v (slot_set s v t').
Proof.
  intros Hp [Hok Hmeta Hs Hget]. destruct (slot_set_stored t' k v s Hok Hp Hs) as [Hok2 Hsh _ _ Hget2 _].
  split_and!; [done|by rewrite (ss_meta _ _ Hsh)| |intros; by apply get_value_tget].
  intros k'. by rewrite Hget2, Hget.
Qed.

(** A set function followed by the store of a value, as the callers do. *)
Lemma wp_store m t k v (set : M TS slot) :
  proper k = true ->
  wp set (fun s st => found t k (ts_t st) s) (set_err t) (mkTS m t) ->
  wp (s ← set; upd (slot_set s v)) (fun _ st => updated t k v (ts_t st)) (set_err t) (mkTS m t).
Proof.
  intros Hp Hset. eapply wp_seq; [exact Hset|]. intros s [m' t'] Hf. exact (found_updated t k v t' s Hp Hf).
Qed.
End spec.

(** ** The main properties *)

(** C3: A table is a finite map: storing a value at the place luaH_set returns
    for a key updates the table at that key and nowhere else, and every later
    luaH_get reads the updated value; the invariant of the table holds again.
    The only failures are an allocation that fails and a table with 2^26
    entries; the insertion needs one rehash at most. *)
Theorem luaH_set_updates `{Krealloc} `{StringHash} m t k v :
  table_ok t -> proper k = true ->
  wp (s ← luaH_set k; upd (slot_set s v)) (fun _ st => updated t k v (ts_t st)) (set_err t) (mkTS m t).
Proof. intros Hok Hp. by apply wp_store, wp_luaH_set. Qed.

(** The specialised set functions, for integers and for strings, have the
    same effect. *)
Theorem luaH_setnum_setstr_update `{Krealloc} `{StringHash} m t n x v :
  table_ok t -> in_s 32 n ->
  wp (s ← luaH_setnum n; upd (slot_set s v)) (fun _ st => updated t (VNumber n) v (ts_t st)) (set_err t) (mkTS m t) /\
  wp (s ← luaH_setstr x; upd (slot_set s v)) (fun _ st => updated t (VString x) v (ts_t st)) (set_err t) (mkTS m t).
Proof. intros Hok Hn. split; apply wp_store; try done; [by apply wp_luaH_setnum|by apply wp_luaH_setstr]. Qed.

(** ** Making, filling and resizing tables *)

Section making.
Context `{Krealloc} `{StringHash}.
Implicit Types (t : Table) (k v : TValue) (m : Z).

(** An empty table with the asked sizes. *)
Record empty_table (na nh : Z) t : Prop := {
  et_ok : table_ok t;
  et_size : t_sizearray t = na;
  et_room : room t = capacity nh;
  et_get k : tget t k = VNil;
}.

Lemma table_ok_initial t :
  t = mkTable (u8 (Z.lnot 0)) 0 None [] [dummynode_] true 0 0 -> table_ok t.
Proof. intros ->. by eapply (fresh_table_ok _ 0 true []). Qed.

Lemma wp_luaH_new na nh s :
  0 <= na <= MAXASIZE -> 0 <= nh < 2 ^ 31 ->
  wp (luaH_new na nh) (fun _ st => empty_table na nh (ts_t st)) (resize_err nh) s.
Proof.
  intros Hna Hnh. unfold luaH_new. destruct s as [m t0].
  assert (HE : forall x, oom x -> resize_err nh x) by by left.
  apply wp_bind. unfold wp, luaM_malloc.
  destruct (luaM_realloc_ 0 sizeof_Table (mkTS m t0)) as [[[]|e] s1] eqn:E.
  2: { apply luaM_realloc_Err in E as (-> & _ & _ & Hr). by left. }
  set (ti := mkTable (u8 (Z.lnot 0)) 0 None [] [dummynode_] true 0 0).
  assert (Hoki : table_ok ti) by by apply table_ok_initial.
  change (wp (setarrayvector na;; setnodevector nh) (fun _ st => empty_table na nh (ts_t st)) (resize_err nh)
    (mkTS (ts_mem s1) ti)).
  apply wp_bind, wp_setarrayvector; [done|done|]. intros m1.
  apply wp_setnodevector; [done|done|by right|]. intros m2 lsize dummy Hl Hd Hc.
  destruct (refreshed_ok ti (array_to ti na) na lsize dummy Hl Hd) as (Hok & Hroom & Hget).
  { rewrite array_to_len; [lia|done|lia]. }
  { lia. }
  split; [done|done|exact (eq_trans Hroom Hc)|]. intros k. cbn [ts_t].
  destruct (in_array (refreshed ti (array_to ti na) na lsize dummy) k) eqn:Ha; [|by apply Hget].
  destruct (in_array_cell _ k Hok Ha) as (n & w & -> & Hn & Hw).
  change (tget (refreshed ti (array_to ti na) na lsize dummy) (VNumber n) = VNil).
  rewrite tget_in_array by done. cbn [refreshed t_array set_hashpart set_array t_sizearray] in *.
  by rewrite array_to_new by (done || cbn; lia).
Qed.

(** Growing the array part keeps every entry. *)
Lemma wp_luaH_resizearray m t na :
  table_ok t -> t_sizearray t <= na <= MAXASIZE ->
  wp (luaH_resizearray na)
    (fun _ st => table_ok (ts_t st) /\ t_sizearray (ts_t st) = na /\ forall k, tget (ts_t st) k = tget t k)
    oom (mkTS m t).
Proof.
  intros Hok Hna. pose proof (to_array t Hok). pose proof (to_lsize t Hok) as Hl.
  unfold luaH_resizearray. apply wp_bind. unfold gets, wp at 1. cbn [ts_t]. cbv zeta.
  set (nh := if t_dummy t then 0 else sizenode t).
  assert (Hnh : nh = capacity nh /\ 0 <= nh <= 2 ^ 26).
  { unfold nh. destruct (t_dummy t); [done|]. rewrite sizenode_pow by done. unfold capacity.
    rewrite Z.log2_up_pow2 by lia. destruct (Z.eqb_spec (2 ^ t_lsizenode t) 0); [lia|]. split; [done|].
    split; [lia|]. apply Z.pow_le_mono_r; unfold MAXBITS in Hl; lia. }
  assert (Hfit : outer (set_array (t_array t) na t) (entries t) <= nh).
  { unfold entries. rewrite outer_app. set (tn := set_array (t_array t) na t).
    assert (outer tn (array_entries t) = 0) as ->.
    { unfold outer. rewrite filter_none; [done|]. intros [k v] Hin%elem_of_array_entries; [|done].
      destruct Hin as [Ha _]. destruct k; try done. apply in_array_iff in Ha. cbn [fst].
      rewrite (proj2 (in_array_iff tn n)); [done|]. cbn. lia. }
    assert (Hlen : zlen (node_entries t) <= nh); [|pose proof (outer_le tn (node_entries t)); lia].
    unfold nh. destruct (t_dummy t) eqn:Hd.
    - destruct (to_dummy t Hok Hd) as (En & _ & _). unfold node_entries. by rewrite En.
    - rewrite sizenode_pow by done. rewrite <-(to_nodes t Hok). unfold node_entries, zlen.
      clear. induction (t_node t) as [|x l IH]; [done|]. cbn. destruct (node_entry x); cbn; lia. }
  assert (Hw : wp (resize_with (newkey 2) na nh) (fun _ s => resized t na (capacity nh) (ts_t s))
    (resize_err nh) (mkTS m t)) by (apply wp_resize; [done|lia|lia|lia]).
  eapply wp_mono; [exact Hw|..].
  - intros _ s [Hok' Hsz _ Hget _]. done.
  - intros e [He|[_ Hbig]]; [done|]. unfold MAXBITS in Hbig. lia.
Qed.

(** *** A sequence of stores *)

Definition run_sets (l : list (TValue * TValue)) : M TS unit :=
  mfor l (fun kv => s ← luaH_set kv.1; upd (slot_set s kv.2)).

(** What the stores mean: a function updated at one point after the other. *)
Fixpoint apply_sets (f : TValue -> TValue) (l : list (TValue * TValue)) : TValue -> TValue :=
  match l with
  | [] => f
  | (k, v) :: l => apply_sets (fun k' => if decide (k' = k) then v else f k') l
  end.

Lemma apply_sets_ext f g l k :
  (forall k, f k = g k) -> apply_sets f l k = apply_sets g l k.
Proof.
  revert f g. induction l as [|[k2 v2] l IH]; intros f g Hfg; [apply Hfg|]. cbn [apply_sets]. apply IH.
  intros k3. by rewrite Hfg.
Qed.

(** A store adds one entry at most. *)
Lemma updated_entries t k v t' :
  table_ok t -> updated t k v t' -> zlen (entries t') <= zlen (entries t) + 1.
Proof.
  intros Hok (Hok' & _ & Hget & _).
  assert (length (entries t').*1 <= length (k :: (entries t).*1))%nat as Hle.
  { apply submseteq_length, NoDup_submseteq; [by apply entries_NoDup|].
    intros k' ([k1 w] & -> & Hin)%list_elem_of_fmap. cbn [fst].
    apply elem_of_entries in Hin as [Hg Hw]; [|done]. rewrite Hget in Hg. case_decide as E.
    - subst. by left.
    - right. apply list_elem_of_fmap. exists (k1, w). split; [done|]. by apply elem_of_entries. }
  cbn in Hle. rewrite !length_fmap in Hle. unfold zlen. lia.
Qed.

Lemma run_sets_spec `{!ReliableAlloc} l m t :
  table_ok t -> (forall k v, (k, v) ∈ l -> proper k = true) -> zlen (entries t) + zlen l <= 2 ^ MAXBITS ->
  exists st, run_sets l (mkTS m t) = (Ok tt, st) /\ table_ok (ts_t st) /\
    forall k, tget (ts_t st) k = apply_sets (tget t) l k.
Proof.
  revert m t. induction l as [|[k v] l IH]; intros m t Hok Hp Hlen; [by exists (mkTS m t)|].
  rewrite zlen_cons in Hlen. pose proof (zlen_nonneg l).
  pose proof (wp_store m t k v (luaH_set k) (Hp k v (list_elem_of_here _ _))
    (wp_luaH_set m t k Hok (Hp k v (list_elem_of_here _ _)))) as Hw.
  unfold wp in Hw. cbn [run_sets mfor fst snd].
  destruct ((s ← luaH_set k; upd (slot_set s v)) (mkTS m t)) as [[[]|e] [m1 t1]] eqn:E.
  - pose proof (updated_entries t k v t1 Hok Hw) as He. destruct Hw as (Hok1 & _ & Hget1 & _).
    destruct (IH m1 t1 Hok1) as (st & Hr & Hok' & Hget); [intros; apply Hp with v0; by right|lia|].
    exists st. rewrite (bind_ok _ _ _ _ _ E). split_and!; [done|done|]. intros k'. rewrite Hget. cbn [apply_sets].
    by apply apply_sets_ext.
  - exfalso. destruct Hw as [[_ Hno]|[_ Hbig]]; [done|lia].
Qed.
End making.

Lemma new_run_sets `{Krealloc} `{!ReliableAlloc} `{StringHash} na nh l s0 :
  0 <= na <= MAXASIZE -> 0 <= nh <= 2 ^ MAXBITS ->
  (forall k v, (k, v) ∈ l -> proper k = true) -> zlen l <= 2 ^ MAXBITS ->
  exists st, (luaH_new na nh;; run_sets l) s0 = (Ok tt, st) /\ table_ok (ts_t st) /\
    forall k, proper k = true ->
      get_value (ts_t st) (luaH_get (ts_t st) k) = Ok (apply_sets (fun _ => VNil) l k).
Proof.
  intros Hna Hnh Hp Hlen. pose proof (wp_luaH_new na nh s0 Hna) as Hw. unfold MAXBITS in Hnh.
  specialize (Hw ltac:(lia)). unfold wp in Hw. destruct (luaH_new na nh s0) as [[[]|e] [m t]] eqn:E.
  - destruct Hw as [Hok _ _ Hget]. cbn [ts_t] in *.
    assert (He : entries t = []).
    { destruct (entries t) as [|[k v] l'] eqn:El; [done|].
      assert (Hin : (k, v) ∈ entries t) by (rewrite El; by left).
      apply elem_of_entries in Hin as [Hg Hv]; [|done]. congruence. }
    destruct (run_sets_spec l m t Hok Hp) as (st & Hr & Hok' & Hget'); [rewrite He; done|].
    exists st. rewrite (bind_ok _ _ _ _ _ E). split_and!; [done..|]. intros k Hk.
    rewrite get_value_tget, Hget' by done. f_equal. by apply apply_sets_ext.
  - exfalso. destruct Hw as [[_ Hno]|[_ Hbig]]; [done|]. unfold MAXBITS in Hbig. lia.
Qed.

(** C4: Refinement of the abstract map: from a new table, any sequence of
    stores with proper keys ends normally when memory does not run out and
    there are at most 2^26 of them, and every key then reads the last value
    stored at it, or nil; this holds through all the rehashes. *)
Theorem table_refines_map `{Krealloc} `{!ReliableAlloc} `{StringHash} na nh l s0 :
  0 <= na <= MAXASIZE -> 0 <= nh <= 2 ^ MAXBITS ->
  (forall k v, (k, v) ∈ l -> proper k = true) -> zlen l <= 2 ^ MAXBITS ->
  exists st, (luaH_new na nh;; run_sets l) s0 = (Ok tt, st) /\ table_ok (ts_t st) /\
    forall k, proper k = true ->
      get_value (ts_t st) (luaH_get (ts_t st) k) = Ok (apply_sets (fun _ => VNil) l k).
Proof. apply new_run_sets. Qed.

(** [st] has the table [t] with an array part of [na] cells. *)
Definition regrown `{StringHash} (t : Table) (na : Z) (st : TS) : Prop :=
  table_ok (ts_t st) /\ t_sizearray (ts_t st) = na /\ forall k, tget (ts_t st) k = tget t k.

(** Growing the array part of a table (luaH_resizearray with a size not
    below the present one) keeps every entry; it fails only when an
    allocation does. *)
Theorem luaH_resizearray_keeps `{Krealloc} `{StringHash} m t na :
  table_ok t -> t_sizearray t <= na <= MAXASIZE ->
  wp (luaH_resizearray na) (fun _ => regrown t na) oom (mkTS m t).
Proof. apply wp_luaH_resizearray. Qed.

(** ** Samples and witnesses *)

(** Hashes of strings for the samples. *)
Definition id_hash : StringHash := fun x => u32 (x * 7).

#[local] Existing Instances krealloc_always krealloc_always_reliable id_hash.

Definition sample_table : Table := refreshed (mkTable 0 0 None [] [] true 0 0) [] 0 2 false.

Lemma sample_table_ok : table_ok sample_table.
Proof. apply refreshed_ok; done. Qed.

Lemma luaH_set_updates_witness :
  wp (s ← luaH_set (VNumber 7); upd (slot_set s (VNumber 70)))
    (fun _ st => updated sample_table (VNumber 7) (VNumber 70) (ts_t st))
    (set_err sample_table) (mkTS 0 sample_table).
Proof. exact (luaH_set_updates 0 sample_table (VNumber 7) (VNumber 70)
  sample_table_ok eq_refl). Defined.

Lemma luaH_setnum_setstr_update_witness :
  wp (s ← luaH_setnum 3; upd (slot_set s (VNumber 70)))
    (fun _ st => updated sample_table (VNumber 3) (VNumber 70) (ts_t st))
    (set_err sample_table) (mkTS 0 sample_table) /\
  wp (s ← luaH_setstr 100; upd (slot_set s (VNumber 70)))
    (fun _ st => updated sample_table (VString 100) (VNumber 70) (ts_t st))
    (set_err sample_table) (mkTS 0 sample_table).
Proof.
  apply (luaH_setnum_setstr_update 0 sample_table 3 100 (VNumber 70)).
  - apply sample_table_ok.
  - unfold in_s. cbn. lia.
Defined.

Definition sample_sets : list (TValue * TValue) :=
  [(VNumber 1, VNumber 10); (VNumber 2, VNumber 20); (VString 5, VNumber 30);
   (VNumber 3, VNumber 40); (VNumber 1, VNumber 50); (VBoolean 1, VNumber 60)].

Lemma sample_sets_proper k v : (k, v) ∈ sample_sets -> proper k = true.
Proof.
  intros Hin. unfold sample_sets in Hin.
  repeat (apply elem_of_cons in Hin as [[= -> ->]|Hin]; [done|]). by apply elem_of_nil in Hin.
Qed.

Lemma table_refines_map_witness :
  exists st, (luaH_new 0 1;;
      run_sets sample_sets) (mkTS 0 sample_table) = (Ok tt, st) /\
    table_ok (ts_t st) /\
    forall k, proper k = true ->
      get_value (ts_t st) (luaH_get (ts_t st) k) = Ok (apply_sets (fun _ => VNil) sample_sets k).
Proof.
  apply (table_refines_map 0 1 sample_sets (mkTS 0 sample_table)).
  - rewrite MAXASIZE_eq. lia.
  - unfold MAXBITS. lia.
  - exact sample_sets_proper.
  - by vm_compute.
Defined.

Lemma luaH_resizearray_keeps_witness :
  wp (luaH_resizearray 8) (fun _ => regrown sample_table 8) oom (mkTS 0 sample_table).
Proof.
  apply (luaH_resizearray_keeps 0 sample_table 8).
  - apply sample_table_ok.
  - rewrite MAXASIZE_eq. cbn. lia.
Defined.

(** An allocator that has no block of one node left. *)
Definition no_node_alloc : Krealloc := fun _ _ nsize => negb (nsize =? sizeof_Node).

Definition full_sets : list (TValue * TValue) :=
  [(VNumber 1, VNumber 10); (VNumber 2, VNumber 20); (VNumber 3, VNumber 30); (VString 5, VNumber 50)].

Definition full_table : TS :=
  snd ((luaH_new (H := no_node_alloc) 0 4;; run_sets (H := no_node_alloc) full_sets) (mkTS 0 sample_table)).

(** The value of the key 1. *)
Definition value_of_1 (s : TS) : result TValue := get_value (ts_t s) (luaH_get (ts_t s) (VNumber 1)).

(** C21: A failed rehash is not harmless: resize grows the array part before
    it asks for the new nodes, and when that allocation fails the table keeps
    the larger array, whose cells are nil, in front of its old nodes; the
    entries with those keys, still in the nodes, are no longer found. *)
Theorem resize_oom_hides_entries :
  value_of_1 full_table = Ok (VNumber 10) /\
  fst (luaH_set (H := no_node_alloc) (VNumber 4) full_table) = Err ErrMem /\
  value_of_1 (snd (luaH_set (H := no_node_alloc) (VNumber 4) full_table)) = Ok VNil.
Proof. split_and!; vm_compute; reflexivity. Qed.
