(* ===== verification/TableIter.v ===== *)
(** * TableIter.v: traversal and length of a table

    [luaH_next] goes through the entries in the order of [entries], each one
    once, and [luaH_getn] finds a border of the table. *)

From S2P Require Import Prelude Machine Object Mem Table TableInv TableSet TablePut TableCount TableRehash TableSpec.

(** ** Traversal *)

(** The loop [for k, v in next, t]. *)
Fixpoint traverse `{StringHash} (fuel : nat) (t : Table) (key : TValue) : result (list (TValue * TValue)) :=
  match fuel with
  | O => Err OutOfFuel
  | S fuel =>
      r ← luaH_next t key;
      match r with
      | None => Ok []
      | Some (k, v) => l ← traverse fuel t k; Ok ((k, v) :: l)
      end
  end.

(** The entries from position [p] of a traversal on. *)
Definition entries_from (t : Table) (p : Z) : list (TValue * TValue) :=
  omap (array_entry (t_array t)) (seqZ p (t_sizearray t - p)) ++
  omap node_entry (drop (Z.to_nat (p - t_sizearray t)) (t_node t)).

Lemma chain_find_ext fuel nodes p q n :
  (forall j x, znth nodes j = Some x -> p x = q x) -> chain_find fuel nodes p n = chain_find fuel nodes q n.
Proof.
  intros Hpq. revert n. induction fuel as [|fuel IH]; intros n; [done|]. cbn [chain_find].
  destruct (znth nodes n) as [x|] eqn:Hx; [|done]. cbn [of_option mbind result_bind].
  rewrite (Hpq n x Hx). by destruct (q x), (i_next x).
Qed.

(** The first element with an entry, and what follows it. *)
Lemma omap_cons_inv {A B} (f : A -> option B) (l : list A) e tl :
  omap f l = e :: tl -> exists i x, l !! i = Some x /\ f x = Some e /\ tl = omap f (drop (S i) l).
Proof.
  induction l as [|a l IH]; [done|]. cbn [omap list_omap]. destruct (f a) eqn:Ea.
  - intros [= -> <-]. by exists 0%nat, a.
  - intros (i & x & ? & ? & ?)%IH. by exists (S i), x.
Qed.

Lemma drop_seqZ n m i : drop i (seqZ n m) = seqZ (n + Z.of_nat i) (m - Z.of_nat i).
Proof.
  revert n m. induction i as [|i IH]; intros n m; [rewrite drop_0; f_equal; lia|].
  destruct (decide (0 < m)).
  - rewrite seqZ_cons by done. cbn [drop]. rewrite IH. f_equal; lia.
  - by rewrite !seqZ_nil by lia.
Qed.

Section next.
Context `{StringHash}.
Implicit Types (t : Table) (k v : TValue).

(** No key of a collected object has the address of a key of the table: the
    collector marks a key dead when it frees the object. *)
Definition dead_apart t : Prop :=
  forall i nd p k, znth (t_node t) i = Some nd -> i_key nd = VDeadKey p ->
    iscollectable k = true -> gcvalue k = p -> node_of (t_node t) k = None.

(** The position of a place in a traversal. *)
Definition position t (s : slot) : Z :=
  match s with SArray i => i | SNode i => i + t_sizearray t end.

Lemma next_array_spec fuel t i :
  table_ok t -> 0 <= i -> Z.of_nat fuel = Z.max 0 (t_sizearray t - i) ->
  next_array fuel t i = Ok (head (omap (array_entry (t_array t)) (seqZ i (t_sizearray t - i)))).
Proof.
  intros Hok. pose proof (to_array t Hok) as Hsz. revert i. induction fuel as [|fuel IH]; intros i Hi Hf.
  { rewrite seqZ_nil by lia. done. }
  cbn [next_array]. destruct (Z.ltb_spec i (t_sizearray t)); [|lia].
  destruct (znth_is_Some (t_array t) i) as [v Hv]; [lia|]. rewrite Hv. cbn [of_option mbind result_bind].
  rewrite (seqZ_cons i) by lia. cbn [omap list_omap].
  assert (He : array_entry (t_array t) i = if ttisnil v then None else Some (VNumber (i + 1), v))
    by (unfold array_entry; by rewrite Hv).
  rewrite He. destruct (ttisnil v); [|done]. rewrite IH by lia. do 3 f_equal. f_equal; lia.
Qed.

Lemma next_node_spec fuel t i :
  table_ok t -> 0 <= i -> Z.of_nat fuel = Z.max 0 (sizenode t - i) ->
  next_node fuel t i = Ok (head (omap node_entry (drop (Z.to_nat i) (t_node t)))).
Proof.
  intros Hok. assert (Hsz : sizenode t = zlen (t_node t)).
  { rewrite sizenode_pow by apply Hok. by rewrite (to_nodes t Hok). }
  revert i. induction fuel as [|fuel IH]; intros i Hi Hf.
  { rewrite drop_ge by (unfold zlen in *; lia). done. }
  cbn [next_node]. destruct (Z.ltb_spec i (sizenode t)); [|lia].
  destruct (znth_is_Some (t_node t) i) as [nd Hnd]; [lia|]. rewrite Hnd. cbn [of_option mbind result_bind].
  unfold znth in Hnd. destruct (Z.ltb_spec i 0); [done|]. rewrite (drop_S _ _ _ Hnd). cbn [omap list_omap].
  assert (He : node_entry nd = if ttisnil (i_val nd) then None else Some (i_key nd, i_val nd)) by done.
  rewrite He. destruct (ttisnil (i_val nd)); [|done]. rewrite IH by lia.
  by replace (Z.to_nat (i + 1)) with (S (Z.to_nat i)) by lia.
Qed.

(** Where [findindex] finds a key that has a place. *)
Lemma findindex_spec t k :
  table_ok t -> dead_apart t -> proper k = true ->
  findindex t k =
    match slot_of t k with
    | Some s => Ok (position t s)
    | None => findindex t k
    end.
Proof.
  intros Hok Hd Hp. destruct (slot_of t k) as [s|] eqn:Hs; [|done]. unfold findindex.
  assert (Hnil : ttisnil k = false) by by destruct k. rewrite Hnil. cbv zeta.
  destruct (arrayindex_in_array t k Hok) as [Ha Hak]. rewrite Ha.
  destruct (in_array t k) eqn:Hin.
  - rewrite (Hak eq_refl) in Hs, Hin. unfold slot_of in Hs. rewrite Hin in Hs. by simplify_eq.
  - rewrite slot_of_hash in Hs by done. apply fmap_Some in Hs as (i & Hi & ->).
    pose proof (node_of_Some_1 _ _ _ Hi) as (nd & Hnd & Hk).
    unfold chain_search. rewrite (chain_find_ext _ _ _ (fun nd => luaO_rawequalObj (i_key nd) k)).
    + fold (chain_search t (fun nd => luaO_rawequalObj (i_key nd) k) (mainposition t k)).
      rewrite (chain_search_spec (mainposition t) t k); [by rewrite Hi|apply (to_hash t Hok)|done|].
      intros x. apply rawequal_spec.
    + intros j x Hx. destruct (i_key x) eqn:Ek; rewrite ?orb_false_r; try done.
      rename select Z into p.
      destruct (iscollectable k && (p =? gcvalue k)) eqn:Ec; [|by rewrite orb_false_r].
      apply andb_true_iff in Ec as [Hc Hpk]. apply Z.eqb_eq in Hpk.
      pose proof (Hd j x p k Hx Ek Hc (eq_sym Hpk)). congruence.
Qed.

Lemma luaH_next_from t key idx :
  table_ok t -> -1 <= idx -> findindex t key = Ok idx ->
  luaH_next t key = Ok (head (entries_from t (idx + 1))).
Proof.
  intros Hok Hidx Hf. pose proof (to_array t Hok). unfold luaH_next. rewrite Hf. cbn [mbind result_bind]. cbv zeta.
  rewrite next_array_spec by (done || lia). cbn [mbind result_bind]. unfold entries_from.
  destruct (omap (array_entry (t_array t)) _) as [|e l]; [|done]. cbn [head app].
  rewrite next_node_spec; [|done|lia|lia]. by replace (Z.to_nat (Z.max (idx + 1) (t_sizearray t) - t_sizearray t))
    with (Z.to_nat (idx + 1 - t_sizearray t)) by lia.
Qed.

(** The first entry from [p] on, its position, and the entries after it. *)
Lemma entries_from_cons t p k v tl :
  table_ok t -> 0 <= p -> entries_from t p = (k, v) :: tl ->
  exists s, slot_of t k = Some s /\ p <= position t s /\ proper k = true /\
    entries_from t (position t s + 1) = tl.
Proof.
  intros Hok Hp He. pose proof (to_array t Hok). unfold entries_from in He.
  destruct (omap (array_entry (t_array t)) (seqZ p (t_sizearray t - p))) as [|e l] eqn:Ea; cbn [app] in He.
  - apply omap_cons_inv in He as (i & nd & Hi & (Hk & Hv & Hn)%node_entry_Some & ->).
    rewrite lookup_drop, <-znth_of_nat in Hi.
    assert (Hpr : proper k = true) by (rewrite <-Hk; apply (ho_live _ _ (to_hash t Hok) _ nd Hi); congruence).
    exists (SNode (Z.of_nat (Z.to_nat (p - t_sizearray t) + i))). split_and!; [| |done|].
    + rewrite slot_of_hash by (rewrite <-Hk; by apply (to_apart t Hok _ nd Hi)).
      by rewrite (node_of_Some _ _ _ _ _ (to_hash t Hok) Hpr Hi Hk).
    + cbn [position]. lia.
    + unfold entries_from. cbn [position]. rewrite seqZ_nil by lia. cbn [omap list_omap app].
      rewrite drop_drop. do 2 f_equal. lia.
  - injection He as -> <-. apply omap_cons_inv in Ea as (i & x & Hi & (-> & Hv & Hn)%array_entry_Some & ->).
    apply lookup_seqZ in Hi as [-> Hi]. exists (SArray (p + Z.of_nat i)). cbn [position]. split_and!; [|lia|done|].
    + unfold slot_of. rewrite (proj2 (in_array_iff t (p + Z.of_nat i + 1))) by lia. do 2 f_equal. lia.
    + unfold entries_from. rewrite drop_seqZ. f_equal; [f_equal; f_equal; lia|].
      by replace (Z.to_nat (p + Z.of_nat i + 1 - t_sizearray t)) with (Z.to_nat (p - t_sizearray t)) by lia.
Qed.

Lemma traverse_from t fuel key idx :
  table_ok t -> dead_apart t -> -1 <= idx -> findindex t key = Ok idx ->
  (length (entries_from t (idx + 1)) < fuel)%nat ->
  traverse fuel t key = Ok (entries_from t (idx + 1)).
Proof.
  intros Hok Hd. revert key idx. induction fuel as [|fuel IH]; intros key idx Hidx Hf Hlen; [lia|].
  cbn [traverse]. rewrite (luaH_next_from t key idx) by done.
  destruct (entries_from t (idx + 1)) as [|[k v] tl] eqn:E; [done|]. cbn [head mbind result_bind].
  destruct (entries_from_cons t (idx + 1) k v tl Hok ltac:(lia) E) as (s & Hs & Hp & Hpr & <-).
  rewrite (IH k (position t s)); [done|lia| |cbn in Hlen; lia].
  rewrite (findindex_spec t k Hok Hd Hpr). by rewrite Hs.
Qed.

Lemma entries_from_0 t : table_ok t -> entries_from t 0 = entries t.
Proof.
  intros Hok. pose proof (to_array t Hok). unfold entries_from, entries, array_entries, node_entries.
  replace (Z.to_nat (0 - t_sizearray t)) with 0%nat by lia. by rewrite drop_0, Z.sub_0_r.
Qed.
End next.

(** C24: A traversal with luaH_next, from nil until it answers that there is
    no more, ends and visits every key that has a value exactly once, with its
    value. *)
Theorem luaH_next_visits_all `{StringHash} t :
  table_ok t -> dead_apart t ->
  exists l, traverse (S (length (entries t))) t VNil = Ok l /\ NoDup l.*1 /\
    forall k v, (k, v) ∈ l <-> tget t k = v /\ v <> VNil.
Proof.
  intros Hok Hd. exists (entries t). split_and!; [|by apply entries_NoDup|intros; by apply elem_of_entries].
  rewrite <-(entries_from_0 t Hok). apply (traverse_from t _ VNil (-1)); try done.
  change (-1 + 1) with 0. lia.
Qed.

(** luaH_next goes on from any key that has a place in the table, also
    when its value has become nil meanwhile: the rest of the traversal does not
    depend on the values already visited. *)
Theorem luaH_next_after_key `{StringHash} t k s :
  table_ok t -> dead_apart t -> proper k = true -> slot_of t k = Some s ->
  luaH_next t k = Ok (head (entries_from t (position t s + 1))).
Proof.
  intros Hok Hd Hp Hs. apply luaH_next_from; [done| |].
  - pose proof (to_array t Hok). destruct s as [i|i]; cbn [position].
    + unfold slot_of in Hs. destruct k; try (by destruct (node_of (t_node t) _)).
      case_match eqn:Ha; [|by destruct (node_of (t_node t) _)]. simplify_eq. apply in_array_iff in Ha. lia.
    + assert (0 <= i); [|lia]. assert (Hn : SNode <$> node_of (t_node t) k = Some (SNode i)).
      { unfold slot_of in Hs. destruct k; try done. by case_match. }
      apply fmap_Some in Hn as (j & Hj & [= ->]). apply node_of_Some_1 in Hj as (nd & Hi & _).
      apply znth_Some_lt in Hi. lia.
  - rewrite (findindex_spec t k Hok Hd Hp). by rewrite Hs.
Qed.

(** ** The length operator *)

(** [n] is a border: [t[n]] is not nil, or [n] is 0, and [t[n+1]] is nil. *)
Definition border (t : Table) (n : Z) : Prop :=
  0 <= n /\ (n = 0 \/ tget t (VNumber n) <> VNil) /\ tget t (VNumber (n + 1)) = VNil.

(** The binary search for a change of [f] between [i] and [j]. *)
Lemma binsearch_spec fuel (isnil : Z -> result bool) (f : Z -> bool) i j :
  0 <= i < j -> j < 2 ^ 31 -> j - i <= 2 ^ Z.of_nat fuel / 2 ->
  (forall m, i < m < j -> isnil m = Ok (f m)) -> f j = true -> (i = 0 \/ f i = false) ->
  exists r, binsearch fuel isnil i j = Ok r /\ i <= r < j /\ (r = 0 \/ f r = false) /\ f (r + 1) = true.
Proof.
  revert i j. induction fuel as [|fuel IH]; intros i j Hij Hmax Hf Hnil Hj Hi.
  { change (2 ^ Z.of_nat 0 / 2) with 0 in Hf. lia. }
  cbn [binsearch]. rewrite (uwrap_small 32 (j - i)) by (unfold in_u; lia).
  destruct (Z.gtb_spec (j - i) 1) as [Hgt|Hle].
  2: { exists i. assert (j = i + 1) as -> by lia. split_and!; [done|lia|lia|done|done]. }
  rewrite (uwrap_small 32 (i + j)) by (unfold in_u; lia).
  assert (Hpow : 2 ^ Z.of_nat (S fuel) / 2 = 2 ^ Z.of_nat fuel).
  { rewrite Nat2Z.inj_succ, Z.pow_succ_r, Z.mul_comm, Z.div_mul by lia. done. }
  rewrite Hpow in Hf. pose proof (Z.div_mod (i + j) 2 ltac:(lia)) as Hm.
  pose proof (Z.mod_pos_bound (i + j) 2 ltac:(lia)). set (m := (i + j) / 2) in *.
  assert (Hfuel : 0 < Z.of_nat fuel).
  { destruct fuel; [change (2 ^ Z.of_nat 0) with 1 in Hf|]; lia. }
  pose proof (pow2_half (Z.of_nat fuel) Hfuel) as Hh.
  assert (Hhalf : 2 ^ Z.of_nat fuel / 2 = 2 ^ (Z.of_nat fuel - 1)) by (rewrite Hh, Z.mul_comm, Z.div_mul; lia).
  rewrite (Hnil m) by lia. cbn [mbind result_bind]. destruct (f m) eqn:Efm.
  - destruct (IH i m) as (r & Hr & ? & ? & ?); try done; try lia.
    { intros x Hx. apply Hnil. lia. }
    exists r. split_and!; try done; lia.
  - destruct (IH m j) as (r & Hr & ? & ? & ?); try done; try lia.
    { intros x Hx. apply Hnil. lia. }
    { by right. }
    exists r. split_and!; try done; lia.
Qed.

Section getn.
Context `{StringHash}.
Implicit Types (t : Table).

Lemma getnum_isnil_spec t j :
  table_ok t -> in_s 32 j -> getnum_isnil t j = Ok (ttisnil (tget t (VNumber j))).
Proof.
  intros Hok Hj. unfold getnum_isnil. rewrite swrap_small, luaH_getnum_spec by done.
  assert (Hg : get_value t (Ok (slot_of t (VNumber j))) = Ok (tget t (VNumber j))).
  { unfold get_value, tget. cbn [mbind result_bind]. destruct (slot_of t (VNumber j)) as [s|] eqn:Hs; [|done].
    destruct (in_array t (VNumber j)) eqn:Ha.
    - destruct (in_array_cell t _ Hok Ha) as (n & w & [= <-] & Hn & Hw). unfold slot_of in Hs. rewrite Ha in Hs.
      simplify_eq. cbn. by rewrite Hw.
    - rewrite slot_of_hash in Hs by done. apply fmap_Some in Hs as (i & Hi & ->).
      apply node_of_Some_1 in Hi as (nd & Hnd & _). cbn. by rewrite Hnd. }
  by rewrite Hg.
Qed.

(** If the keys 1 to [n] have values there are [n] entries. *)
Lemma run_bound t n :
  table_ok t -> 0 <= n -> (forall m, 1 <= m <= n -> tget t (VNumber m) <> VNil) -> n <= zlen (entries t).
Proof.
  intros Hok Hn Hm.
  assert (length (VNumber <$> seqZ 1 n) <= length (entries t).*1)%nat as Hle.
  { apply submseteq_length, NoDup_submseteq; [apply NoDup_fmap; [intros ?? [=]; done|apply NoDup_seqZ]|].
    intros k (m & -> & Hin%elem_of_seqZ)%list_elem_of_fmap. apply list_elem_of_fmap.
    exists (VNumber m, tget t (VNumber m)). split; [done|]. apply elem_of_entries; [done|]. split; [done|].
    apply Hm. lia. }
  rewrite !length_fmap, length_seqZ in Hle. unfold zlen. lia.
Qed.

Lemma entries_length t : table_ok t -> (length (entries t) <= length (t_array t) + length (t_node t))%nat.
Proof.
  intros Hok. pose proof (to_array t Hok).
  assert (Hlen : forall A (f : A -> option (TValue * TValue)) (l : list A), (length (omap f l) <= length l)%nat).
  { intros A f l. induction l as [|a l IH]; [done|]. cbn. destruct (f a); cbn; lia. }
  unfold entries, array_entries, node_entries. rewrite length_app.
  pose proof (Hlen _ (array_entry (t_array t)) (seqZ 0 (t_sizearray t))) as Ha.
  pose proof (Hlen _ node_entry (t_node t)) as Hb. rewrite length_seqZ in Ha. unfold zlen in *. lia.
Qed.

Lemma linear_search_spec fuel t i :
  table_ok t -> 1 <= i -> (forall m, 1 <= m < i -> tget t (VNumber m) <> VNil) ->
  zlen (entries t) + 1 - (i - 1) <= Z.of_nat fuel ->
  exists r, linear_search fuel t i = Ok r /\ border t r.
Proof.
  intros Hok. pose proof (entries_bound t Hok) as Hb. revert i.
  induction fuel as [|fuel IH]; intros i Hi Hrun Hf.
  { pose proof (run_bound t (i - 1) Hok ltac:(lia) ltac:(intros; apply Hrun; lia)). lia. }
  pose proof (run_bound t (i - 1) Hok ltac:(lia) ltac:(intros; apply Hrun; lia)) as Hle.
  cbn [linear_search]. rewrite getnum_isnil_spec by (done || unfold in_s; cbn; lia). cbn [mbind result_bind].
  destruct (ttisnil (tget t (VNumber i))) eqn:E.
  - apply ttisnil_spec in E. rewrite swrap_small by (unfold in_s; cbn; lia). exists (i - 1). split; [done|].
    split_and!; [lia| |by replace (i - 1 + 1) with i by lia].
    destruct (decide (i = 1)) as [->|]; [by left|right]. apply Hrun. lia.
  - apply ttisnil_false in E. rewrite uwrap_small by (unfold in_u; lia). apply IH; [lia| |lia].
    intros m Hm. destruct (decide (m = i)) as [->|]; [done|]. apply Hrun. lia.
Qed.

Lemma unbound_loop_spec fuel t i j :
  table_ok t -> 0 <= i < j -> j <= 2 ^ 31 - 1 -> 2 ^ 31 <= 2 ^ Z.of_nat fuel * j ->
  (i = 0 \/ tget t (VNumber i) <> VNil) ->
  exists r, unbound_loop fuel t i j = Ok r /\ border t r.
Proof.
  intros Hok. revert i j. induction fuel as [|fuel IH]; intros i j Hij Hmax Hf Hi.
  { change (2 ^ Z.of_nat 0) with 1 in Hf. lia. }
  cbn [unbound_loop]. rewrite getnum_isnil_spec by (done || unfold in_s; cbn; lia). cbn [mbind result_bind].
  destruct (ttisnil (tget t (VNumber j))) eqn:E.
  - destruct (binsearch_spec 33 (getnum_isnil t) (fun m => ttisnil (tget t (VNumber m))) i j)
      as (r & Hr & Hrange & Hlo & Hhi); 
      [done|lia|change (2 ^ Z.of_nat 33 / 2) with (2 ^ 32); lia| |done|by rewrite ttisnil_false|].
    { intros m Hm. apply getnum_isnil_spec; [done|]. unfold in_s. cbn. lia. }
    rewrite Hr. cbn [mbind result_bind]. rewrite swrap_small by (unfold in_s; cbn; lia).
    exists r. split; [done|]. rewrite ttisnil_spec in Hhi. rewrite ttisnil_false in Hlo. split_and!; [lia|done..].
  - apply ttisnil_false in E. rewrite (uwrap_small 32 (j * 2)) by (unfold in_u; lia).
    destruct (Z.gtb_spec (j * 2) MAX_INT) as [Hgt|Hle].
    + apply linear_search_spec; [done|lia|intros; lia|]. pose proof (entries_length t Hok). unfold zlen. lia.
    + unfold MAX_INT, LUA_INT_MAX in Hle. apply IH; [lia|lia| |by right].
      rewrite Nat2Z.inj_succ, Z.pow_succ_r in Hf by lia. lia.
Qed.

Lemma luaH_getn_border t : table_ok t -> exists r, luaH_getn t = Ok r /\ border t r.
Proof.
  intros Hok. pose proof (to_array t Hok) as Hsz. pose proof (to_asize t Hok) as Hmax.
  rewrite MAXASIZE_eq in Hmax. unfold luaH_getn. cbv zeta.
  set (isnil := fun m => v ← of_option "array index" (znth (t_array t) (m - 1)); Ok (ttisnil v)).
  assert (Hcell : forall m, 1 <= m <= t_sizearray t -> isnil m = Ok (ttisnil (tget t (VNumber m)))).
  { intros m Hm. rewrite tget_in_array by by apply in_array_iff. unfold isnil.
    destruct (znth_is_Some (t_array t) (m - 1)) as [v Hv]; [lia|]. by rewrite Hv. }
  assert (Hhash : (t_sizearray t = 0 \/ tget t (VNumber (t_sizearray t)) <> VNil) ->
    exists r, (if t_dummy t then Ok (t_sizearray t) else unbound_search t (t_sizearray t)) = Ok r /\ border t r).
  { intros Hlast. destruct (t_dummy t) eqn:Hd.
    - exists (t_sizearray t). split; [done|]. split_and!; [lia|done|].
      destruct (to_dummy t Hok Hd) as (En & _ & _). unfold tget. rewrite slot_of_hash.
      + rewrite En. done.
      + apply not_true_iff_false. rewrite in_array_iff. lia.
    - unfold unbound_search. rewrite uwrap_small by (unfold in_u; lia).
      apply unbound_loop_spec; try done; try lia. }
  destruct (Z.gtb_spec (t_sizearray t) 0) as [Hgt|Hle].
  - change (of_option "array index" (znth (t_array t) (t_sizearray t - 1)) ≫= (fun v => Ok (ttisnil v)))
      with (isnil (t_sizearray t)).
    rewrite Hcell by lia. cbn [mbind result_bind]. destruct (ttisnil _) eqn:E.
    + destruct (binsearch_spec 33 isnil (fun m => ttisnil (tget t (VNumber m))) 0 (t_sizearray t))
        as (r & Hr & Hrange & Hlo & Hhi); [lia|lia|change (2 ^ Z.of_nat 33 / 2) with (2 ^ 32); lia| |done|by left|].
      { intros m Hm. apply Hcell. lia. }
      rewrite Hr. cbn [mbind result_bind]. rewrite swrap_small by (unfold in_s; cbn; lia).
      exists r. split; [done|]. rewrite ttisnil_spec in Hhi. rewrite ttisnil_false in Hlo. split_and!; [lia|done..].
    + apply Hhash. right. by apply ttisnil_false.
  - cbn [mbind result_bind]. apply Hhash. left. lia.
Qed.
End getn.

(** C25: The length operator always ends and returns a border of the table: an
    index n with a value (or 0) such that n + 1 has none. *)
Theorem luaH_getn_is_border `{StringHash} t :
  table_ok t -> exists n, luaH_getn t = Ok n /\ border t n.
Proof. apply luaH_getn_border. Qed.

(** ** A filled table *)

#[local] Existing Instances krealloc_always krealloc_always_reliable id_hash.

Definition sample_filled : Table :=
  ts_t (snd ((luaH_new 0 1;; run_sets sample_sets) (mkTS 0 sample_table))).

Lemma sample_filled_ok : table_ok sample_filled.
Proof.
  destruct (new_run_sets 0 1 sample_sets (mkTS 0 sample_table)) as (st & Hr & Hok & _).
  - rewrite MAXASIZE_eq. lia.
  - unfold MAXBITS. lia.
  - exact sample_sets_proper.
  - by vm_compute.
  - unfold sample_filled. by rewrite Hr.
Qed.

Lemma no_dead_apart t :
  forallb (fun nd => match i_key nd with VDeadKey _ => false | _ => true end) (t_node t) = true ->
  dead_apart t.
Proof.
  intros Hf i nd p k Hi Hk. rewrite forallb_forall in Hf.
  specialize (Hf nd (proj1 (list_elem_of_In _ _) (znth_elem _ _ _ Hi))). by rewrite Hk in Hf.
Qed.

Lemma luaH_next_visits_all_witness :
  exists l, traverse (S (length (entries sample_filled))) sample_filled VNil = Ok l /\ NoDup l.*1 /\
    forall k v, (k, v) ∈ l <-> tget sample_filled k = v /\ v <> VNil.
Proof.
  apply (luaH_next_visits_all sample_filled).
  - exact sample_filled_ok.
  - by apply no_dead_apart.
Defined.

Lemma luaH_next_after_key_witness :
  luaH_next sample_filled (VNumber 2) = Ok (head (entries_from sample_filled (position sample_filled (SArray 1) + 1))).
Proof.
  apply (luaH_next_after_key sample_filled (VNumber 2) (SArray 1)).
  - exact sample_filled_ok.
  - by apply no_dead_apart.
  - done.
  - by vm_compute.
Defined.

Lemma luaH_getn_is_border_witness : exists n, luaH_getn sample_filled = Ok n /\ border sample_filled n.
Proof. apply (luaH_getn_is_border sample_filled). exact sample_filled_ok. Defined.
