(* ===== verification/Kernel.v ===== *)
(** * Kernel.v: the kernel and the Lua engine as the glue code sees them

    lunatik.c and lunatik_syscall.c run between the Linux kernel and the Lua
    engine.  The kernel's objects live in a heap; an allocation gives a fresh
    object or NULL, as an oracle decides, and touching an object that is not
    there is [UB].  The engine is seen through the few API calls lunatik.c
    makes, the class [LuaEngine]; the functions other modules hand over
    (callbacks, registration functions) are the class [KernelFunctions]. *)

From S2P Require Import Prelude Machine Object.

Definition ENOMEM : Z := 12.
Definition EFAULT : Z := 14.
Definition EINTR : Z := 4.
Definition EINVAL : Z := 22.

(** Pointers are numbers, 0 is NULL. *)
Abbreviation ptr := Z.
Definition NULL : ptr := 0.

(** ** The Lua engine *)

(** What lunatik.c asks of the value on the top of the stack. *)
Inductive lua_value :=
  | LNil
  | LNumber (n : Z)
  | LBoolean (b : Z)
  | LString (s : bytes)
  (** a userdata: its bytes, and the string of the field __name of its
      metatable when it has one *)
  | LUserdata (data : bytes) (name : option bytes)
  | LLightUserdata (p : Z)
  | LOther (type : Z).

Definition LUA_TNIL : Z := 0.
Definition LUA_TBOOLEAN : Z := 1.
Definition LUA_TLIGHTUSERDATA : Z := 2.
Definition LUA_TNUMBER : Z := 3.
Definition LUA_TSTRING : Z := 4.
Definition LUA_TUSERDATA : Z := 7.

Definition lua_type (v : lua_value) : Z :=
  match v with
  | LNil => LUA_TNIL
  | LNumber _ => LUA_TNUMBER
  | LBoolean _ => LUA_TBOOLEAN
  | LString _ => LUA_TSTRING
  | LUserdata _ _ => LUA_TUSERDATA
  | LLightUserdata _ => LUA_TLIGHTUSERDATA
  | LOther t => t
  end.

Class LuaEngine := {
  lua_State : Type;
  lua_newstate : lua_State;                           (* lua_open *)
  luaL_loadbuffer : lua_State -> bytes -> Z * lua_State;
  lua_pcall : lua_State -> Z * lua_State;             (* no argument, one result *)
  lua_at_top : lua_State -> lua_value;                (* index -1 *)
  lua_pop1 : lua_State -> lua_State;
  lua_pushcfunction : lua_State -> Z -> lua_State;
}.

(** ** Objects of the heap *)

(** The argument of [callback_work]. *)
Inductive work_callback := loadcode_work_cleanup_cb | loadcode_async_work_cleanup_cb.

(** [struct loadcode_data]; a function pointer is [None] when NULL. *)
Record loadcode_data := mkData {
  d_code : ptr;
  d_sz_code : Z;
  d_result : ptr;
  d_ret : Z;
  d_need_result : bool;
  d_callback_arg : Z;
  d_callback : option Z;
  d_callback_nores : option Z;
  d_callback_work : option work_callback;
  d_complete : Z;       (* the count of the semaphore *)
}.

(** The handler of a work and its [work_data]. *)
Inductive work_func := loadcode_work (d : ptr) | openlib_work (luaopen_func : Z).

Record lunatik_work := mkWork { lw_lc : ptr; lw_wq : ptr; lw_func : work_func }.

Record lunatik_result := mkResult {
  r_type : Z;
  r_number : Z;
  r_boolean : Z;
  r_string : ptr;
  r_string_size : Z;
  r_userdata : ptr;
  r_userdata_size : Z;
  r_userdata_type : ptr;
  r_lightuserdata : Z;
}.

Record lunatik_binding := mkBinding { b_owner : Z; b_regfunc : Z }.

(** Where the worker thread of an ordered workqueue is: between two works, or
    in [loadcode_work_handler] after [up], with its local variables. *)
Inductive worker := Idle | PastUp (w d : ptr).

Section objects.
Context `{LuaEngine}.

Record lunatik_context := mkContext {
  lc_L : option lua_State;
  lc_mutex : bool;          (* held *)
  lc_wq : ptr;
  lc_active : list ptr;     (* active_bindings *)
}.

Inductive obj :=
  | OBytes (b : bytes)
  | OData (d : loadcode_data)
  | OWork (w : lunatik_work)
  | OContext (c : lunatik_context)
  | OActive (b : ptr)                       (* struct active_binding *)
  | OBinding (b : lunatik_binding)
  | OResult (r : lunatik_result)
  | OAsyncInfo (lc code_kern : ptr)         (* struct sys_lua_async_info *)
  | OQueue (pending : list ptr) (at_work : worker).

(** ** The state

    [k_oracle n] tells whether the n-th allocation succeeds; [k_modules] has
    the reference counts of the modules. *)
Record kernel := mkKernel {
  k_heap : gmap Z obj;
  k_next : Z;
  k_oracle : nat -> bool;
  k_allocs : nat;
  k_modules : gmap Z Z;
  k_bindings : list ptr;      (* LIST_HEAD(lunatik_bindings) *)
}.

Definition set_heap (h : gmap Z obj) (k : kernel) : kernel :=
  mkKernel h (k_next k) (k_oracle k) (k_allocs k) (k_modules k) (k_bindings k).
Definition set_modules (m : gmap Z Z) (k : kernel) : kernel :=
  mkKernel (k_heap k) (k_next k) (k_oracle k) (k_allocs k) m (k_bindings k).
Definition set_bindings (l : list ptr) (k : kernel) : kernel :=
  mkKernel (k_heap k) (k_next k) (k_oracle k) (k_allocs k) (k_modules k) l.

(** [kmalloc], [kzalloc] with the first contents of the block. *)
Definition kmalloc (o : obj) : M kernel ptr := fun k =>
  if k_oracle k (k_allocs k)
  then (Ok (k_next k), mkKernel (<[k_next k := o]> (k_heap k)) (k_next k + 1) (k_oracle k)
                         (S (k_allocs k)) (k_modules k) (k_bindings k))
  else (Ok NULL, mkKernel (k_heap k) (k_next k) (k_oracle k) (S (k_allocs k)) (k_modules k) (k_bindings k)).

Definition kfree (p : ptr) : M kernel unit := fun k =>
  if p =? NULL then (Ok tt, k)
  else match k_heap k !! p with
       | Some _ => (Ok tt, set_heap (delete p (k_heap k)) k)
       | None => (Err (UB "kfree of a freed object"), k)
       end.

Definition deref (p : ptr) : M kernel obj := fun k =>
  match k_heap k !! p with
  | Some o => (Ok o, k)
  | None => (Err (UB "use after free"), k)
  end.

Definition store (p : ptr) (o : obj) : M kernel unit := fun k =>
  match k_heap k !! p with
  | Some _ => (Ok tt, set_heap (<[p := o]> (k_heap k)) k)
  | None => (Err (UB "use after free"), k)
  end.

Definition bad_cast {A} : M kernel A := throw (UB "wrong type of object").

Definition get_bytes (p : ptr) : M kernel bytes :=
  o ← deref p; match o with OBytes b => mret b | _ => bad_cast end.
Definition get_data (p : ptr) : M kernel loadcode_data :=
  o ← deref p; match o with OData d => mret d | _ => bad_cast end.
Definition get_work (p : ptr) : M kernel lunatik_work :=
  o ← deref p; match o with OWork w => mret w | _ => bad_cast end.
Definition get_context (p : ptr) : M kernel lunatik_context :=
  o ← deref p; match o with OContext c => mret c | _ => bad_cast end.
Definition get_active (p : ptr) : M kernel ptr :=
  o ← deref p; match o with OActive b => mret b | _ => bad_cast end.
Definition get_binding (p : ptr) : M kernel lunatik_binding :=
  o ← deref p; match o with OBinding b => mret b | _ => bad_cast end.
Definition get_result (p : ptr) : M kernel lunatik_result :=
  o ← deref p; match o with OResult r => mret r | _ => bad_cast end.
Definition get_queue (p : ptr) : M kernel (list ptr * worker) :=
  o ← deref p; match o with OQueue q w => mret (q, w) | _ => bad_cast end.

(** [queue_work] on an ordered workqueue. *)
Definition queue_work (wq w : ptr) : M kernel unit :=
  q ← get_queue wq; store wq (OQueue (q.1 ++ [w]) q.2).
End objects.

(** ** Functions handed over by other modules *)

(** [try_module_get m] succeeds when [module_live m]; the callbacks and the
    registration functions of bindings act on the kernel's state. *)
Class KernelFunctions `{LuaEngine} := {
  module_live : Z -> bool;
  run_callback : Z -> Z -> Z -> ptr -> M kernel unit;        (* fn, arg, ret, result *)
  run_callback_nores : Z -> Z -> Z -> M kernel unit;         (* fn, arg, ret *)
  run_regfunc : Z -> ptr -> M kernel Z;                      (* regfunc, lc *)
}.

Section modules.
Context `{KernelFunctions}.

Definition module_refs (m : Z) (k : kernel) : Z := default 0 (k_modules k !! m).

Definition try_module_get (m : Z) : M kernel bool := fun k =>
  if module_live m then (Ok true, set_modules (<[m := module_refs m k + 1]> (k_modules k)) k)
  else (Ok false, k).

Definition module_put (m : Z) : M kernel unit :=
  modify (fun k => set_modules (<[m := module_refs m k - 1]> (k_modules k)) k).
End modules.
