(* ===== verification/Lunatik.v ===== *)
(** * Lunatik.v: running Lua code in the kernel (lunatik.c)

    Contexts, the four ways of running a piece of code in one (direct, sync,
    async, async without result), results handed out of the engine, and the
    registry of bindings.  The workqueue of a context runs its works one after
    the other on a thread of its own: [worker_step] is one atomic step of that
    thread, and a waiting caller lets it make some steps. *)

From S2P Require Import Prelude Machine Object Kernel.

Section lunatik.
Context `{KernelFunctions}.

(** ** Results *)

Definition zero_result : lunatik_result := mkResult 0 0 0 NULL 0 NULL 0 NULL 0.

(** The result and the error code, when [perror] would be written. *)
Definition lunatik_result_get (L : lua_State) : M kernel (ptr * option Z) :=
  r ← kmalloc (OResult zero_result);
  if r =? NULL then mret (NULL, Some (- ENOMEM))
  else
    let v := lua_at_top L in
    let set ty num bo st sts ud uds udt li := store r (OResult (mkResult ty num bo st sts ud uds udt li)) in
    match v with
    | LNil => set LUA_TNIL 0 0 NULL 0 NULL 0 NULL 0;; mret (r, None)
    | LNumber n => set LUA_TNUMBER n 0 NULL 0 NULL 0 NULL 0;; mret (r, None)
    | LBoolean b => set LUA_TBOOLEAN 0 b NULL 0 NULL 0 NULL 0;; mret (r, None)
    | LString s =>
        p ← kmalloc (OBytes (s ++ [0]));
        if p =? NULL then set LUA_TSTRING 0 0 NULL 0 NULL 0 NULL 0;; mret (r, Some (- ENOMEM))
        else set LUA_TSTRING 0 0 p (zlen s) NULL 0 NULL 0;; mret (r, None)
    | LUserdata data name =>
        p ← kmalloc (OBytes data);
        if p =? NULL then set LUA_TUSERDATA 0 0 NULL 0 NULL 0 NULL 0;; mret (r, Some (- ENOMEM))
        else
          match name with
          | None => throw (UB "r_userdata_type_size is not initialised")
          | Some s =>
              q ← kmalloc (OBytes (s ++ [0]));
              if q =? NULL then
                kfree p;;
                set LUA_TUSERDATA 0 0 NULL 0 NULL (zlen data) NULL 0;; mret (r, Some (- ENOMEM))
              else set LUA_TUSERDATA 0 0 NULL 0 p (zlen data) q 0;; mret (r, None)
          end
    | LLightUserdata p => set LUA_TLIGHTUSERDATA 0 0 NULL 0 NULL 0 NULL p;; mret (r, None)
    | LOther t => set t 0 0 NULL 0 NULL 0 NULL 0;; mret (r, Some (- EINVAL))
    end.

Definition lunatik_result_free (result : ptr) : M kernel unit :=
  if result =? NULL then mret tt
  else
    r ← get_result result;
    when (r_type r =? LUA_TSTRING) (kfree (r_string r));;
    when (r_type r =? LUA_TUSERDATA) (kfree (r_userdata r);; kfree (r_userdata_type r));;
    kfree result.

(** ** Contexts *)

Definition lunatik_context_lock (lc : ptr) : M kernel unit :=
  c ← get_context lc;
  if lc_mutex c then throw (UB "deadlock")
  else store lc (OContext (mkContext (lc_L c) true (lc_wq c) (lc_active c))).

Definition lunatik_context_unlock (lc : ptr) : M kernel unit :=
  c ← get_context lc;
  store lc (OContext (mkContext (lc_L c) false (lc_wq c) (lc_active c))).

Definition set_L (L : option lua_State) (lc : ptr) : M kernel unit :=
  c ← get_context lc;
  store lc (OContext (mkContext L (lc_mutex c) (lc_wq c) (lc_active c))).

Definition set_active (l : list ptr) (lc : ptr) : M kernel unit :=
  c ← get_context lc;
  store lc (OContext (mkContext (lc_L c) (lc_mutex c) (lc_wq c) l)).

Definition get_L (lc : ptr) : M kernel lua_State :=
  c ← get_context lc;
  match lc_L c with Some L => mret L | None => throw (UB "lua_State is NULL") end.

(** The workqueue, NULL for -ENOMEM. *)
Definition lunatik_workqueue_init : M kernel ptr := kmalloc (OQueue [] Idle).

Definition lunatik_workqueue_deinit (wq : ptr) : M kernel unit := kfree wq.

(** The context, or the error of [ERR_PTR]. *)
Definition lunatik_context_create : M kernel (Z + ptr) :=
  lc ← kmalloc (OContext (mkContext None false NULL []));
  if lc =? NULL then mret (inl (- ENOMEM))
  else
    opened ← (fun k => (Ok (k_oracle k (k_allocs k)), mkKernel (k_heap k) (k_next k) (k_oracle k)
                          (S (k_allocs k)) (k_modules k) (k_bindings k)));  (* lua_open *)
    if negb opened then kfree lc;; mret (inl (- ENOMEM))
    else
      set_L (Some lua_newstate) lc;;
      wq ← lunatik_workqueue_init;
      if wq =? NULL then mret (inl (- ENOMEM))  (* goto out_error *)
      else
        c ← get_context lc;
        store lc (OContext (mkContext (lc_L c) (lc_mutex c) wq (lc_active c)));;
        mret (inr lc).

(** [lc] NULL or an error pointer is [inl]. *)
Definition lunatik_context_destroy (lc : Z + ptr) : M kernel unit :=
  match lc with
  | inl _ => mret tt
  | inr lc =>
      if lc =? NULL then mret tt
      else
        lunatik_context_lock lc;;
        c ← get_context lc;
        mfor (lc_active c) (fun ab =>
          b ← get_active ab;
          bd ← get_binding b;
          module_put (b_owner bd));;
        set_active [] lc;;
        get_L lc;;  (* lua_close *)
        set_L None lc;;
        lunatik_context_unlock lc;;
        kfree lc
  end.

(** ** Running code *)

Definition set_ret (ret : Z) (d : loadcode_data) : loadcode_data :=
  mkData (d_code d) (d_sz_code d) (d_result d) ret (d_need_result d) (d_callback_arg d) (d_callback d)
    (d_callback_nores d) (d_callback_work d) (d_complete d).
Definition set_result (r : ptr) (d : loadcode_data) : loadcode_data :=
  mkData (d_code d) (d_sz_code d) r (d_ret d) (d_need_result d) (d_callback_arg d) (d_callback d)
    (d_callback_nores d) (d_callback_work d) (d_complete d).
Definition set_complete (n : Z) (d : loadcode_data) : loadcode_data :=
  mkData (d_code d) (d_sz_code d) (d_result d) (d_ret d) (d_need_result d) (d_callback_arg d) (d_callback d)
    (d_callback_nores d) (d_callback_work d) n.

Definition with_data (d : ptr) (f : loadcode_data -> loadcode_data) : M kernel unit :=
  x ← get_data d; store d (OData (f x)).

(** Load the code and call it: the status and the state of the engine. *)
Definition run_code (L : lua_State) (code : bytes) : Z * lua_State :=
  let '(ret, L) := luaL_loadbuffer L code in
  if negb (ret =? 0) then (ret, L) else lua_pcall L.

(** [d->sz_code - 1] is a size_t; the bytes of the code are read up to it. *)
Definition loadcode_internal (lc d : ptr) : M kernel unit :=
  lunatik_context_lock lc;;
  L ← get_L lc;
  x ← get_data d;
  code ← get_bytes (d_code x);
  let n := u64 (d_sz_code x - 1) in
  (if n >? zlen code then throw (UB "luaL_loadbuffer reads outside the code") else mret tt);;
  let '(ret, L) := run_code L (take (Z.to_nat n) code) in
  with_data d (set_ret ret);;
  when (d_need_result x)
    (r ← lunatik_result_get L;
     with_data d (set_result r.1);;
     match r.2 with Some e => with_data d (set_ret e) | None => mret tt end);;
  set_L (Some (lua_pop1 L)) lc;;
  lunatik_context_unlock lc.

(** The result is stored when [want] ([presult] is not NULL). *)
Definition lunatik_loadcode_direct (lc code : ptr) (sz_code : Z) (want : bool) : M kernel (Z * ptr) :=
  d ← kmalloc (OData (mkData code sz_code NULL (-1) want 0 None None None 0));
  if d =? NULL then mret (- ENOMEM, NULL)
  else
    loadcode_internal lc d;;
    x ← get_data d;
    kfree d;;
    mret (d_ret x, d_result x).

(** The work, or the error pointer -ENOMEM. *)
Definition lunatik_work_create (lc : ptr) (f : work_func) : M kernel (Z + ptr) :=
  c ← get_context lc;
  lw ← kmalloc (OWork (mkWork lc (lc_wq c) f));
  if lw =? NULL then mret (inl (- ENOMEM)) else mret (inr lw).

Definition lunatik_work_destroy (lw : ptr) : M kernel unit := kfree lw.

Definition lunatik_work_queue (lw : Z + ptr) : M kernel unit :=
  match lw with
  | inl _ => throw (UB "lw is an error pointer")
  | inr lw => w ← get_work lw; queue_work (lw_wq w) lw
  end.

(** ** The worker thread *)

(** [lw->work_data] *)
Definition work_data (lw : ptr) : M kernel ptr :=
  w ← get_work lw;
  match lw_func w with loadcode_work d => mret d | openlib_work f => mret f end.

Definition loadcode_work_cleanup (lw : ptr) : M kernel unit :=
  d ← work_data lw;
  x ← get_data d;
  kfree (d_code x);;
  kfree d;;
  lunatik_work_destroy lw.

Definition loadcode_async_work_cleanup (lw : ptr) : M kernel unit :=
  d ← work_data lw;
  kfree d;;
  lunatik_work_destroy lw.

(** [loadcode_work_handler] up to [up(&d->complete)]. *)
Definition handler_run (lw d : ptr) : M kernel unit :=
  w ← get_work lw;
  loadcode_internal (lw_lc w) d;;
  with_data d (fun x => set_complete (d_complete x + 1) x).

(** [loadcode_work_handler] after it. *)
Definition handler_post (lw d : ptr) : M kernel unit :=
  x ← get_data d;
  match d_callback x with
  | Some f => run_callback f (d_callback_arg x) (d_ret x) (d_result x)
  | None => mret tt
  end;;
  x ← get_data d;
  match d_callback_nores x with
  | Some f => run_callback_nores f (d_callback_arg x) (d_ret x)
  | None => mret tt
  end;;
  x ← get_data d;
  match d_callback_work x with
  | Some loadcode_work_cleanup_cb => loadcode_work_cleanup lw
  | Some loadcode_async_work_cleanup_cb => loadcode_async_work_cleanup lw
  | None => mret tt
  end.

Definition openlib (lc : ptr) (luaopen_func : Z) : M kernel unit :=
  L ← get_L lc;
  let '(_, L) := lua_pcall (lua_pushcfunction L luaopen_func) in
  set_L (Some L) lc.

Definition openlib_work_handler (lw : ptr) (f : Z) : M kernel unit :=
  w ← get_work lw;
  lunatik_context_lock (lw_lc w);;
  openlib (lw_lc w) f;;
  lunatik_context_unlock (lw_lc w).

(** One step of the thread of a workqueue. *)
Definition worker_step (wq : ptr) : M kernel unit :=
  q ← get_queue wq;
  match q with
  | ([], Idle) => mret tt
  | (w :: pending, Idle) =>
      x ← get_work w;
      match lw_func x with
      | loadcode_work d => store wq (OQueue pending (PastUp w d));; handler_run w d
      | openlib_work f => store wq (OQueue pending Idle);; openlib_work_handler w f
      end
  | (pending, PastUp w d) => store wq (OQueue pending Idle);; handler_post w d
  end.

Definition worker_steps (n : nat) (wq : ptr) : M kernel unit :=
  mfor (replicate n tt) (fun _ => worker_step wq).

(** Waiting on [d->complete] while the worker makes [n] steps; a signal
    interrupts the wait when it is not over by then. *)
Definition down_interruptible (n : nat) (wq d : ptr) : M kernel Z :=
  worker_steps n wq;;
  x ← get_data d;
  if d_complete x >? 0 then with_data d (set_complete (d_complete x - 1));; mret 0
  else mret (- EINTR).

(** ** Running code on the workqueue *)

Definition lunatik_loadcode_sync (n : nat) (lc code : ptr) (sz_code : Z) (want : bool) : M kernel (Z * ptr) :=
  d ← kmalloc (OData (mkData code sz_code NULL (-1) want 0 None None None 0));
  if d =? NULL then mret (- ENOMEM, NULL)
  else
    lw ← lunatik_work_create lc (loadcode_work d);
    (* if (!lw): an error pointer is not NULL *)
    lunatik_work_queue lw;;
    match lw with
    | inl _ => throw (UB "lw is an error pointer")
    | inr lw =>
        w ← get_work lw;
        ret ← down_interruptible n (lw_wq w) d;
        x ← get_data d;
        lunatik_work_destroy lw;;
        kfree d;;
        if negb (ret =? 0) then mret (ret, NULL) else mret (d_ret x, d_result x)
    end.

(** Deprecated: with [want] as the sync variant, without it as an async one
    that frees the code. *)
Definition lunatik_loadcode (n : nat) (lc code : ptr) (sz_code : Z) (want : bool) : M kernel (Z * ptr) :=
  d ← kmalloc (OData (mkData code sz_code NULL (-1) want 0 None None
         (if want then None else Some loadcode_work_cleanup_cb) 0));
  if d =? NULL then mret (- ENOMEM, NULL)
  else
    lw ← lunatik_work_create lc (loadcode_work d);
    lunatik_work_queue lw;;
    if negb want then mret (0, NULL)
    else
      match lw with
      | inl _ => throw (UB "lw is an error pointer")
      | inr lw =>
          w ← get_work lw;
          ret ← down_interruptible n (lw_wq w) d;
          x ← get_data d;
          lunatik_work_destroy lw;;
          kfree d;;
          if negb (ret =? 0) then mret (ret, NULL) else mret (d_ret x, d_result x)
      end.

Definition loadcode_async_with (lc code : ptr) (sz_code : Z) (need_result : bool)
    (callb callb_nores : option Z) (callb_arg : Z) : M kernel Z :=
  d ← kmalloc (OData (mkData code sz_code NULL (-1) need_result callb_arg callb callb_nores
         (Some loadcode_async_work_cleanup_cb) 0));
  if d =? NULL then mret (- ENOMEM)
  else
    lw ← lunatik_work_create lc (loadcode_work d);
    lunatik_work_queue lw;;
    mret 0.

Definition lunatik_loadcode_async (lc code : ptr) (sz_code callb callb_arg : Z) : M kernel Z :=
  loadcode_async_with lc code sz_code true (Some callb) None callb_arg.

Definition lunatik_loadcode_async_nores (lc code : ptr) (sz_code callb callb_arg : Z) : M kernel Z :=
  loadcode_async_with lc code sz_code false None (Some callb) callb_arg.

Definition lunatik_openlib (lc : ptr) (luaopen_func : Z) : M kernel Z :=
  lw ← lunatik_work_create lc (openlib_work luaopen_func);
  lunatik_work_queue lw;;
  mret 0.

(** ** Bindings *)

Definition lunatik_bindings_register (owner regfunc : Z) : M kernel (Z + ptr) :=
  b ← kmalloc (OBinding (mkBinding owner regfunc));
  if b =? NULL then mret (inl (- ENOMEM))
  else modify (fun k => set_bindings (k_bindings k ++ [b]) k);; mret (inr b).

Definition lunatik_bindings_unregister (b : ptr) : M kernel unit :=
  modify (fun k => set_bindings (filter (fun x => x <> b) (k_bindings k)) k);;
  kfree b.

(** Whether [b] is among the active bindings of the context. *)
Fixpoint is_active (l : list ptr) (b : ptr) : M kernel bool :=
  match l with
  | [] => mret false
  | ab :: l => x ← get_active ab; if x =? b then mret true else is_active l b
  end.

(** The loop of [lunatik_bindings_load]: 0, or the error that ended it. *)
Fixpoint bindings_load_loop (l : list ptr) (lc : ptr) : M kernel Z :=
  match l with
  | [] => mret 0
  | b :: l =>
      c ← get_context lc;
      active ← is_active (lc_active c) b;
      if (active : bool) then bindings_load_loop l lc
      else
        bd ← get_binding b;
        got ← try_module_get (b_owner bd);
        if (got : bool) then
          ret ← run_regfunc (b_regfunc bd) lc;
          if negb (ret =? 0) then mret ret
          else
            ab ← kmalloc (OActive NULL);
            if ab =? NULL then mret (- ENOMEM)
            else
              store ab (OActive b);;
              c ← get_context lc;
              set_active (lc_active c ++ [ab]) lc;;
              bindings_load_loop l lc
        else bindings_load_loop l lc
  end.

Definition lunatik_bindings_load (lc : ptr) : M kernel Z :=
  l ← gets k_bindings;
  bindings_load_loop l lc.

(** [lunatik_default_context] is the argument. *)
Definition lunatik_default_context_get (lc : ptr) : M kernel (Z + ptr) :=
  ret ← lunatik_bindings_load lc;
  mret (if negb (ret =? 0) then inl ret else inr lc).

(** The value of [lunatik_default_context] is returned beside the error. *)
Definition lunatik_default_context_init : M kernel (Z * (Z + ptr)) :=
  c ← lunatik_context_create;
  mret (match c with inl e => e | inr _ => 0 end, c).

Definition lunatik_init : M kernel (Z * (Z + ptr)) := lunatik_default_context_init.

Definition lunatik_exit (lunatik_default_context : Z + ptr) : M kernel unit :=
  lunatik_context_destroy lunatik_default_context.
End lunatik.
