(* ===== verification/LunatikSpec.v ===== *)
(** * LunatikSpec.v: what running Lua code in the kernel promises

    The heap is followed object by object: an operation is described by the
    objects it adds to the heap it finds ([is_result] for a result), so that
    leaks and double frees show as differences of heaps. *)

From S2P Require Import Prelude Machine Object Kernel Lunatik.

(** ** Symbolic execution *)

Section exec.
Context `{LuaEngine}.
Context (orc : nat -> bool) (mods : gmap Z Z) (bs : list ptr).
Implicit Types (h ob : gmap Z obj) (nx : Z) (al : nat) (p : ptr).

Definition K h nx al : kernel := mkKernel h nx orc al mods bs.

(** Only allocated addresses are in the heap. *)
Definition heap_wf h nx : Prop := 1 <= nx /\ forall p o, h !! p = Some o -> 1 <= p < nx.

Lemma heap_wf_fresh h nx p : heap_wf h nx -> nx <= p -> h !! p = None.
Proof.
  intros [_ Hw] Hp. destruct (h !! p) as [o|] eqn:E; [|done]. apply Hw in E. lia.
Qed.

Lemma heap_wf_insert h nx nx' p o : heap_wf h nx -> nx <= nx' -> 1 <= p < nx' -> heap_wf (<[p := o]> h) nx'.
Proof.
  intros [Hn Hw] Hle Hp. split; [lia|]. intros q x Hq. destruct (decide (p = q)) as [<-|]; [lia|].
  rewrite lookup_insert_ne in Hq by done. apply Hw in Hq. lia.
Qed.

Lemma heap_wf_union ob h nx nx' :
  heap_wf h nx -> nx <= nx' -> (forall p o, ob !! p = Some o -> nx <= p < nx') -> heap_wf (ob ∪ h) nx'.
Proof.
  intros [Hn Hw] Hle Hob. split; [lia|]. intros p o Hp. apply lookup_union_Some_raw in Hp as [Hp|[_ Hp]].
  - apply Hob in Hp. lia.
  - apply Hw in Hp. lia.
Qed.

Lemma fresh_disjoint ob h nx nx' :
  heap_wf h nx -> (forall p o, ob !! p = Some o -> nx <= p < nx') -> ob ##ₘ h.
Proof.
  intros Hw Hob. apply map_disjoint_spec. intros p x y Hx Hy. apply Hob in Hx. apply Hw in Hy. lia.
Qed.

Lemma kmalloc_ok o h nx al : orc al = true -> kmalloc o (K h nx al) = (Ok nx, K (<[nx := o]> h) (nx + 1) (S al)).
Proof. intros Ho. unfold kmalloc, K. cbn. by rewrite Ho. Qed.

Lemma kmalloc_fail o h nx al : orc al = false -> kmalloc o (K h nx al) = (Ok NULL, K h nx (S al)).
Proof. intros Ho. unfold kmalloc, K. cbn. by rewrite Ho. Qed.

Lemma kfree_null h nx al : kfree NULL (K h nx al) = (Ok tt, K h nx al).
Proof. done. Qed.

Lemma kfree_ok p o h nx al : h !! p = Some o -> p <> NULL -> kfree p (K h nx al) = (Ok tt, K (delete p h) nx al).
Proof.
  intros Hp Hn. unfold kfree, K. destruct (Z.eqb_spec p NULL); [done|]. cbn. by rewrite Hp.
Qed.

Lemma store_ok p o x h nx al : h !! p = Some x -> store p o (K h nx al) = (Ok tt, K (<[p := o]> h) nx al).
Proof. intros Hp. unfold store, K. cbn. by rewrite Hp. Qed.

Lemma deref_ok p o h nx al : h !! p = Some o -> deref p (K h nx al) = (Ok o, K h nx al).
Proof. intros Hp. unfold deref, K. cbn. by rewrite Hp. Qed.

Lemma get_bytes_ok p b h nx al : h !! p = Some (OBytes b) -> get_bytes p (K h nx al) = (Ok b, K h nx al).
Proof. intros Hp. unfold get_bytes. by rewrite (bind_ok _ _ _ _ _ (deref_ok _ _ _ _ _ Hp)). Qed.
Lemma get_data_ok p d h nx al : h !! p = Some (OData d) -> get_data p (K h nx al) = (Ok d, K h nx al).
Proof. intros Hp. unfold get_data. by rewrite (bind_ok _ _ _ _ _ (deref_ok _ _ _ _ _ Hp)). Qed.
Lemma get_work_ok p w h nx al : h !! p = Some (OWork w) -> get_work p (K h nx al) = (Ok w, K h nx al).
Proof. intros Hp. unfold get_work. by rewrite (bind_ok _ _ _ _ _ (deref_ok _ _ _ _ _ Hp)). Qed.
Lemma get_context_ok p c h nx al : h !! p = Some (OContext c) -> get_context p (K h nx al) = (Ok c, K h nx al).
Proof. intros Hp. unfold get_context. by rewrite (bind_ok _ _ _ _ _ (deref_ok _ _ _ _ _ Hp)). Qed.
Lemma get_result_ok p r h nx al : h !! p = Some (OResult r) -> get_result p (K h nx al) = (Ok r, K h nx al).
Proof. intros Hp. unfold get_result. by rewrite (bind_ok _ _ _ _ _ (deref_ok _ _ _ _ _ Hp)). Qed.
Lemma get_queue_ok p q w h nx al : h !! p = Some (OQueue q w) -> get_queue p (K h nx al) = (Ok (q, w), K h nx al).
Proof. intros Hp. unfold get_queue. by rewrite (bind_ok _ _ _ _ _ (deref_ok _ _ _ _ _ Hp)). Qed.
End exec.

(** Look an address up in a heap made of insertions. *)
Ltac kne := first [assumption | congruence | lia | (apply not_eq_sym; assumption)].
Ltac klookup :=
  repeat first [rewrite lookup_insert_eq | rewrite lookup_insert_ne by kne | rewrite lookup_delete_ne by kne
    | rewrite lookup_singleton_eq | rewrite lookup_singleton_ne by kne];
  first [reflexivity | eassumption].

(** One step of a sequence whose result the lemmas above give. *)
Ltac kstep := erewrite bind_ok by
  (first [ eapply store_ok; klookup | eapply kfree_ok; [klookup|unfold NULL in *; kne]
  | eapply get_data_ok; klookup | eapply get_context_ok; klookup | eapply get_work_ok; klookup
  | eapply get_result_ok; klookup | eapply get_bytes_ok; klookup | eapply get_queue_ok; klookup
  | eapply kmalloc_ok; eassumption | eapply kmalloc_fail; eassumption ]).

Ltac klook_all :=
  repeat first [rewrite lookup_insert_eq | rewrite lookup_insert_ne by kne | rewrite lookup_delete_eq
    | rewrite lookup_delete_ne by kne | rewrite lookup_singleton_eq | rewrite lookup_singleton_ne by kne
    | rewrite lookup_empty | rewrite lookup_union].

(** Two heaps are equal at every address. *)
Ltac heap_eq :=
  apply map_eq;
  let i := fresh "i" in
  intros i; rewrite ?lookup_union;
  repeat match goal with
  | |- context [ <[?p := _]> _ !! i ] => destruct (decide (i = p)) as [->|]; klook_all
  | |- context [ {[?p := _]} !! i ] => destruct (decide (i = p)) as [->|]; klook_all
  | |- context [ delete ?p _ !! i ] => destruct (decide (i = p)) as [->|]; klook_all
  end;
  klook_all; try reflexivity; try (symmetry; assumption); try congruence;
  try (match goal with |- context [?m !! i] => destruct (m !! i) eqn:? | |- context [?m !! ?j] => destruct (m !! j) eqn:? end;
       cbn; congruence).

(** ** Results *)

Section results.
Context `{KernelFunctions}.
Context (orc : nat -> bool) (mods : gmap Z Z) (bs : list ptr).
Implicit Types (h ob : gmap Z obj) (nx : Z) (al : nat) (p : ptr).
#[local] Abbreviation K := (K orc mods bs).

(** The values that need one object, with the error code they get. *)
Definition plain_result (v : lua_value) : option (lunatik_result * option Z) :=
  match v with
  | LNil => Some (mkResult LUA_TNIL 0 0 NULL 0 NULL 0 NULL 0, None)
  | LNumber n => Some (mkResult LUA_TNUMBER n 0 NULL 0 NULL 0 NULL 0, None)
  | LBoolean b => Some (mkResult LUA_TBOOLEAN 0 b NULL 0 NULL 0 NULL 0, None)
  | LLightUserdata x => Some (mkResult LUA_TLIGHTUSERDATA 0 0 NULL 0 NULL 0 NULL x, None)
  | LOther t => Some (mkResult t 0 0 NULL 0 NULL 0 NULL 0, Some (- EINVAL))
  | LString _ | LUserdata _ _ => None
  end.

(** The objects of a result [p] for a value, and the error reported. *)
Inductive is_result : lua_value -> ptr -> option Z -> gmap Z obj -> Prop :=
  | res_none v : is_result v NULL (Some (- ENOMEM)) ∅
  | res_plain v r e p : p <> NULL -> plain_result v = Some (r, e) -> is_result v p e {[ p := OResult r ]}
  | res_string s p q : p <> NULL -> q <> NULL -> p <> q ->
      is_result (LString s) p None
        (<[p := OResult (mkResult LUA_TSTRING 0 0 q (zlen s) NULL 0 NULL 0)]> {[ q := OBytes (s ++ [0]) ]})
  | res_string_nomem s p : p <> NULL ->
      is_result (LString s) p (Some (- ENOMEM)) {[ p := OResult (mkResult LUA_TSTRING 0 0 NULL 0 NULL 0 NULL 0) ]}
  | res_userdata data name p q n : p <> NULL -> q <> NULL -> n <> NULL -> p <> q -> p <> n -> q <> n ->
      is_result (LUserdata data (Some name)) p None
        (<[p := OResult (mkResult LUA_TUSERDATA 0 0 NULL 0 q (zlen data) n 0)]>
          (<[q := OBytes data]> {[ n := OBytes (name ++ [0]) ]}))
  | res_userdata_nomem data name p size : p <> NULL ->
      is_result (LUserdata data name) p (Some (- ENOMEM))
        {[ p := OResult (mkResult LUA_TUSERDATA 0 0 NULL 0 NULL size NULL 0) ]}.

(** The values whose conversion does not read the size that was never set. *)
Definition named (v : lua_value) : bool :=
  match v with LUserdata _ None => false | _ => true end.

(** No tag of another type is the one of strings or userdata. *)
Definition tagged (v : lua_value) : bool :=
  match v with LOther t => negb (t =? LUA_TSTRING) && negb (t =? LUA_TUSERDATA) | _ => true end.

(** The error of a value taken out of the engine when memory suffices. *)
Definition value_error (v : lua_value) : option Z :=
  match v with LOther _ => Some (- EINVAL) | _ => None end.

(** A result; a complete one when no allocation fails. *)
Definition got (v : lua_value) p (e : option Z) ob : Prop :=
  is_result v p e ob /\ ((forall n, orc n = true) -> p <> NULL /\ e = value_error v).

Lemma got_ok v p e ob : is_result v p e ob -> p <> NULL -> e = value_error v -> got v p e ob.
Proof. by split. Qed.

Lemma got_nomem v p e ob m : orc m = false -> is_result v p e ob -> got v p e ob.
Proof. intros Hm Hr. split; [done|]. intros Ho. by rewrite Ho in Hm. Qed.

(** The result depends on the next address and the allocations to come, and
    not on the rest of the heap. *)
Lemma lunatik_result_get_run L nx al :
  1 <= nx -> named (lua_at_top L) = true ->
  exists p e ob nx' al', got (lua_at_top L) p e ob /\ nx <= nx' /\ (forall q o, ob !! q = Some o -> nx <= q < nx') /\
    forall h, heap_wf h nx -> lunatik_result_get L (K h nx al) = (Ok (p, e), K (ob ∪ h) nx' al').
Proof.
  intros Hnx Hn. unfold lunatik_result_get. destruct (orc al) eqn:Ho.
  2: { exists NULL, (Some (- ENOMEM)), ∅, nx, (S al).
       split_and!; [by apply (got_nomem _ _ _ _ al), res_none|lia|by intros q o ?%lookup_empty_Some|].
       intros h _. erewrite bind_ok by by apply kmalloc_fail. by rewrite map_empty_union. }
  assert (Hplain : forall r e, plain_result (lua_at_top L) = Some (r, e) ->
    exists p e' ob nx' al', got (lua_at_top L) p e' ob /\ nx <= nx' /\ (forall q o, ob !! q = Some o -> nx <= q < nx') /\
      forall h, heap_wf h nx -> (store nx (OResult r);; mret (nx, e)) (K (<[nx:=OResult zero_result]> h) (nx + 1) (S al)) =
        (Ok (p, e'), K (ob ∪ h) nx' al')).
  { intros r e Hp. exists nx, e, {[ nx := OResult r ]}, (nx + 1), (S al). split_and!.
    - apply got_ok; [constructor; [unfold NULL; lia|done]|unfold NULL; lia|by destruct (lua_at_top L); cbn in Hp; simplify_eq].
    - lia.
    - intros q o [-> _]%lookup_singleton_Some. lia.
    - intros h _. kstep. rewrite insert_insert_eq. by rewrite <-insert_union_singleton_l. }
  assert (Hstart : forall (m : ptr -> M kernel (ptr * option Z)) h, (r ← kmalloc (OResult zero_result); if r =? NULL then mret (NULL, Some (- ENOMEM)) else m r) (K h nx al) =
    m nx (K (<[nx:=OResult zero_result]> h) (nx + 1) (S al))).
  { intros m h. erewrite bind_ok by by apply kmalloc_ok. by destruct (Z.eqb_spec nx NULL); [unfold NULL in *; lia|]. }
  destruct (lua_at_top L) as [| | |s|data name|x|t] eqn:Ev.
  1-3,6-7: destruct (Hplain _ _ eq_refl) as (p & e & ob & nx' & al' & ? & ? & ? & Hp); exists p, e, ob, nx', al';
    split_and!; [done..|]; intros h Hw; rewrite Hstart; by apply Hp.
  - destruct (orc (S al)) eqn:Ho2.
    + eexists nx, None, _, (nx + 1 + 1), (S (S al)).
      split_and!; [apply got_ok; [apply (res_string s nx (nx + 1)); unfold NULL; lia|unfold NULL; lia|done]|lia| |].
      * intros q o Hq. apply lookup_insert_Some in Hq as [[<- _]|[_ [<- _]%lookup_singleton_Some]]; lia.
      * intros h _. rewrite Hstart. erewrite bind_ok by by apply kmalloc_ok. destruct (Z.eqb_spec (nx + 1) NULL); [unfold NULL in *; lia|].
        kstep. cbv [mret M_ret]. do 2 f_equal. heap_eq.
    + eexists nx, _, _, (nx + 1), (S (S al)). split_and!; [eapply got_nomem, res_string_nomem; [done|unfold NULL; lia]|lia| |].
      * intros q o [<- _]%lookup_singleton_Some. lia.
      * intros h _. rewrite Hstart. erewrite bind_ok by by apply kmalloc_fail. cbn [Z.eqb NULL]. kstep. cbv [mret M_ret]. do 2 f_equal. heap_eq.
  - destruct (orc (S al)) eqn:Ho2.
    2: { eexists nx, _, _, (nx + 1), (S (S al)).
      split_and!; [eapply got_nomem, (res_userdata_nomem data name nx 0); [done|unfold NULL; lia]|lia| |].
      * intros q o [<- _]%lookup_singleton_Some. lia.
      * intros h _. rewrite Hstart. erewrite bind_ok by by apply kmalloc_fail. cbn [Z.eqb NULL]. kstep. cbv [mret M_ret]. do 2 f_equal. heap_eq. }
    destruct name as [name|]; [|done]. destruct (orc (S (S al))) eqn:Ho3.
    + eexists nx, None, _, (nx + 1 + 1 + 1), (S (S (S al))).
      split_and!; [apply got_ok; [apply (res_userdata data name nx (nx + 1) (nx + 1 + 1)); unfold NULL; lia|unfold NULL; lia|done]|lia| |].
      * intros q o Hq. apply lookup_insert_Some in Hq as [[<- _]|[_ Hq]]; [lia|].
        apply lookup_insert_Some in Hq as [[<- _]|[_ [<- _]%lookup_singleton_Some]]; lia.
      * intros h _. rewrite Hstart. erewrite bind_ok by by apply kmalloc_ok. destruct (Z.eqb_spec (nx + 1) NULL); [unfold NULL in *; lia|].
        erewrite bind_ok by by apply kmalloc_ok. destruct (Z.eqb_spec (nx + 1 + 1) NULL); [unfold NULL in *; lia|].
        kstep. cbv [mret M_ret]. do 2 f_equal. heap_eq.
    + eexists nx, _, _, (nx + 1 + 1), (S (S (S al))).
      split_and!; [eapply got_nomem, (res_userdata_nomem data (Some name) nx (zlen data)); [done|unfold NULL; lia]|lia| |].
      * intros q o [<- _]%lookup_singleton_Some. lia.
      * intros h Hw. rewrite Hstart. erewrite bind_ok by by apply kmalloc_ok. destruct (Z.eqb_spec (nx + 1) NULL); [unfold NULL in *; lia|].
        erewrite bind_ok by by apply kmalloc_fail. cbn [Z.eqb NULL]. kstep. kstep. cbv [mret M_ret]. do 2 f_equal.
        assert (h !! (nx + 1) = None) by (by apply (heap_wf_fresh h nx); [|lia]). heap_eq.
Qed.

Lemma lunatik_result_get_spec L h nx al :
  heap_wf h nx -> named (lua_at_top L) = true ->
  exists p e ob nx' al',
    lunatik_result_get L (K h nx al) = (Ok (p, e), K (ob ∪ h) nx' al') /\
    got (lua_at_top L) p e ob /\ nx <= nx' /\ (forall q o, ob !! q = Some o -> nx <= q < nx').
Proof.
  intros Hw Hn. destruct (lunatik_result_get_run L nx al (proj1 Hw) Hn) as (p & e & ob & nx' & al' & Hg & Hle & Hf & Hr).
  exists p, e, ob, nx', al'. auto.
Qed.

(** Freeing a result takes away its objects, and nothing else. *)
Lemma lunatik_result_free_spec v p e ob h nx al :
  is_result v p e ob -> tagged v = true -> ob ##ₘ h ->
  lunatik_result_free p (K (ob ∪ h) nx al) = (Ok tt, K h nx al).
Proof.
  intros Hr Ht Hd. unfold lunatik_result_free. destruct (Z.eqb_spec p NULL) as [->|Hp].
  { inversion Hr; subst; try done. by rewrite map_empty_union. }
  destruct Hr as [v|v r e p ? Hpl|s p q|s p|data name p q n|data name p size]; try done.
  - assert (Hh : h !! p = None) by (eapply map_disjoint_Some_l; [exact Hd|klookup]).
    rewrite <-insert_union_singleton_l. kstep.
    assert (Hty : (r_type r =? LUA_TSTRING) = false /\ (r_type r =? LUA_TUSERDATA) = false).
    { destruct v; cbn in Hpl; simplify_eq; try done. cbn in Ht |- *.
      by apply andb_true_iff in Ht as [?%negb_true_iff ?%negb_true_iff]. }
    destruct Hty as [-> ->]. cbn [when]. erewrite bind_ok by done. erewrite bind_ok by done.
    rewrite (kfree_ok _ _ _ p (OResult r)) by (klookup || done). by rewrite delete_insert_id.
  - assert (Hh : h !! p = None) by (eapply map_disjoint_Some_l; [exact Hd|klookup]).
    assert (Hq : h !! q = None) by (eapply map_disjoint_Some_l; [exact Hd|klookup]).
    rewrite <-insert_union_l, <-insert_union_singleton_l. kstep. cbn [r_type r_userdata r_userdata_type r_string when Z.eqb Pos.eqb LUA_TSTRING LUA_TUSERDATA].
    kstep. erewrite bind_ok by done. erewrite kfree_ok by (klookup || done). do 2 f_equal. heap_eq.
  - assert (Hh : h !! p = None) by (eapply map_disjoint_Some_l; [exact Hd|klookup]).
    rewrite <-insert_union_singleton_l. kstep. cbn [r_type r_userdata r_userdata_type r_string when Z.eqb Pos.eqb LUA_TSTRING LUA_TUSERDATA]. erewrite bind_ok by apply kfree_null.
    erewrite bind_ok by done. erewrite kfree_ok by (klookup || done). do 2 f_equal. heap_eq.
  - assert (Hh : h !! p = None) by (eapply map_disjoint_Some_l; [exact Hd|klookup]).
    assert (Hq : h !! q = None) by (eapply map_disjoint_Some_l; [exact Hd|klookup]).
    assert (Hn : h !! n = None) by (eapply map_disjoint_Some_l; [exact Hd|klookup]).
    rewrite <-!insert_union_l, <-insert_union_singleton_l. kstep. cbn [r_type r_userdata r_userdata_type r_string when Z.eqb Pos.eqb LUA_TSTRING LUA_TUSERDATA]. erewrite bind_ok by done.
    erewrite bind_ok; [|kstep; erewrite kfree_ok by (klookup || done); reflexivity].
    erewrite kfree_ok by (klookup || done). do 2 f_equal. heap_eq.
  - assert (Hh : h !! p = None) by (eapply map_disjoint_Some_l; [exact Hd|klookup]).
    rewrite <-insert_union_singleton_l. kstep. cbn [r_type r_userdata r_userdata_type r_string when Z.eqb Pos.eqb LUA_TSTRING LUA_TUSERDATA]. erewrite bind_ok by done.
    erewrite bind_ok; [|erewrite bind_ok by apply kfree_null; apply kfree_null].
    erewrite kfree_ok by (klookup || done). do 2 f_equal. heap_eq.
Qed.

(** a value is taken out of the engine and freed again.  The result has
    the value's type and a copy of its data (or -ENOMEM or -EINVAL and what
    could be had), in new objects; freeing it takes exactly those away. *)
Theorem lunatik_result_get_free L h nx al :
  heap_wf h nx -> named (lua_at_top L) = true -> tagged (lua_at_top L) = true ->
  exists p e ob nx' al', lunatik_result_get L (K h nx al) = (Ok (p, e), K (ob ∪ h) nx' al') /\
    got (lua_at_top L) p e ob /\
    lunatik_result_free p (K (ob ∪ h) nx' al') = (Ok tt, K h nx' al').
Proof.
  intros Hw Hn Ht. destruct (lunatik_result_get_spec L h nx al Hw Hn) as (p & e & ob & nx' & al' & E & Hr & _ & Hf).
  exists p, e, ob, nx', al'. split_and!; [done|done|]. eapply lunatik_result_free_spec; [apply Hr|done|].
  by eapply fresh_disjoint.
Qed.
End results.

(** ** Running a piece of code *)

Section run.
Context `{KernelFunctions}.
Context (orc : nat -> bool) (mods : gmap Z Z) (bs : list ptr).
Implicit Types (h ob : gmap Z obj) (nx : Z) (al : nat) (p lc d code wq : ptr) (L : lua_State).
#[local] Abbreviation K := (K orc mods bs).

(** The new objects of an operation are not in the old heap. *)
Definition fresh_objs ob nx nx' : Prop := nx <= nx' /\ forall q o, ob !! q = Some o -> nx <= q < nx'.

Lemma fresh_objs_None ob nx nx' p : fresh_objs ob nx nx' -> p < nx -> ob !! p = None.
Proof. intros [_ Hf] Hp. destruct (ob !! p) eqn:E; [|done]. apply Hf in E. lia. Qed.

Lemma fresh_objs_empty nx nx' : nx <= nx' -> fresh_objs ∅ nx nx'.
Proof. intros. split; [done|]. by intros q o ?%lookup_empty_Some. Qed.

Lemma store_frame ob p o x h nx al :
  ob !! p = None -> h !! p = Some x -> store p o (K (ob ∪ h) nx al) = (Ok tt, K (ob ∪ <[p := o]> h) nx al).
Proof.
  intros Ho Hp. erewrite store_ok by (by rewrite lookup_union_r). by rewrite insert_union_r.
Qed.

Lemma get_data_frame ob p x h nx al :
  ob !! p = None -> h !! p = Some (OData x) -> get_data p (K (ob ∪ h) nx al) = (Ok x, K (ob ∪ h) nx al).
Proof. intros Ho Hp. apply get_data_ok. by rewrite lookup_union_r. Qed.

Lemma get_context_frame ob p c h nx al :
  ob !! p = None -> h !! p = Some (OContext c) -> get_context p (K (ob ∪ h) nx al) = (Ok c, K (ob ∪ h) nx al).
Proof. intros Ho Hp. apply get_context_ok. by rewrite lookup_union_r. Qed.

(** An open context, not locked. *)
Definition open_context (L : lua_State) wq act : obj := OContext (mkContext (Some L) false wq act).

Lemma lock_spec lc L wq act h nx al :
  h !! lc = Some (open_context L wq act) ->
  lunatik_context_lock lc (K h nx al) = (Ok tt, K (<[lc := OContext (mkContext (Some L) true wq act)]> h) nx al).
Proof. intros Hlc. unfold lunatik_context_lock. kstep. cbn [lc_mutex lc_L lc_wq lc_active]. by eapply store_ok. Qed.

(** What running the code leaves in [d], given the status [ret], the result
    [p] and the error of the result. *)
Definition ran_data (ret : Z) (p : ptr) (e : option Z) (x : loadcode_data) : loadcode_data :=
  set_ret (default ret e) (set_result p x).

Definition outcome (need : bool) L p (e : option Z) ob : Prop :=
  if need then got orc (lua_at_top L) p e ob else p = NULL /\ e = None /\ ob = ∅.

(** The code that [d] asks to run. *)
Definition code_of (x : loadcode_data) (cs : bytes) : bytes := take (Z.to_nat (d_sz_code x - 1)) cs.

Record runnable h lc d L wq act x cs : Prop := {
  rn_lc : h !! lc = Some (open_context L wq act);
  rn_d : h !! d = Some (OData x);
  rn_code : h !! d_code x = Some (OBytes cs);
  rn_sz : 1 <= d_sz_code x <= zlen cs + 1;
  rn_max : zlen cs < 2 ^ 63;
  rn_null : d_result x = NULL;
  rn_named : d_need_result x = true -> named (lua_at_top (run_code L (code_of x cs)).2) = true;
}.

(** What it does is the same wherever the data and the context are. *)
Lemma loadcode_internal_run L (code : bytes) (need : bool) nx al :
  1 <= nx -> (need = true -> named (lua_at_top (run_code L code).2) = true) ->
  let '(ret, L') := run_code L code in
  exists p e ob nx' al', outcome need L' p e ob /\ fresh_objs ob nx nx' /\
    forall lc d h wq act x cs, heap_wf h nx -> runnable h lc d L wq act x cs -> code_of x cs = code -> d_need_result x = need ->
    loadcode_internal lc d (K h nx al) =
      (Ok tt, K (ob ∪ <[lc := open_context (lua_pop1 L') wq act]> (<[d := OData (ran_data ret p e x)]> h)) nx' al').
Proof.
  intros Hnx Hnamed. destruct (run_code L code) as [ret L'] eqn:Er. cbn [snd] in Hnamed.
  assert (Hres : exists p e ob nx' al', outcome need L' p e ob /\ fresh_objs ob nx nx' /\
    (need = true -> forall h, heap_wf h nx -> lunatik_result_get L' (K h nx al) = (Ok (p, e), K (ob ∪ h) nx' al')) /\
    (need = false -> (nx', al') = (nx, al))).
  { destruct need.
    - destruct (lunatik_result_get_run orc mods bs L' nx al Hnx (Hnamed eq_refl)) as (p & e & ob & nx' & al' & Hg & Hle & Hf & Hr).
      by exists p, e, ob, nx', al'.
    - exists NULL, None, ∅, nx, al. split_and!; [done|by apply fresh_objs_empty|done..]. }
  destruct Hres as (p & e & ob & nx' & al' & Hout & Hf & Hget & Hsame). exists p, e, ob, nx', al'. split_and!; [done..|].
  intros lc d h wq act x cs Hw [Hlc Hd Hcode Hsz Hmax Hnull _] Ec En. unfold code_of in Ec.
  assert (Hld : lc <> d) by (unfold open_context in Hlc; congruence).
  assert (Hlx : lc <> d_code x) by (unfold open_context in Hlc; congruence).
  assert (Hdx : d <> d_code x) by congruence.
  pose proof (proj2 Hw _ _ Hlc) as Hrlc. pose proof (proj2 Hw _ _ Hd) as Hrd.
  unfold loadcode_internal. erewrite bind_ok by by apply (lock_spec lc L wq act).
  erewrite bind_ok by (unfold get_L; kstep; reflexivity). kstep. kstep.
  rewrite uwrap_small by (unfold in_u; lia). cbv zeta.
  destruct (Z.gtb_spec (d_sz_code x - 1) (zlen cs)); [lia|]. erewrite bind_ok by done. rewrite Ec, Er.
  erewrite bind_ok by (unfold with_data; kstep; eapply store_ok; klookup).
  set (h1 := <[d:=OData (set_ret ret x)]> (<[lc:=OContext (mkContext (Some L) true wq act)]> h)). rewrite En.
  assert (Hod : ob !! d = None) by (by apply (fresh_objs_None ob nx nx'); [|lia]).
  assert (Hol : ob !! lc = None) by (by apply (fresh_objs_None ob nx nx'); [|lia]).
  assert (Hset : forall f y h2, h2 !! d = Some (OData y) ->
    with_data d f (K (ob ∪ h2) nx' al') = (Ok tt, K (ob ∪ <[d := OData (f y)]> h2) nx' al')).
  { intros f y h2 Hy. unfold with_data. erewrite bind_ok by by eapply get_data_frame. by eapply store_frame. }
  assert (Hres : when need (r ← lunatik_result_get L'; with_data d (set_result r.1);;
      match r.2 with Some e => with_data d (set_ret e) | None => mret tt end) (K h1 nx al) =
    (Ok tt, K (ob ∪ <[d := OData (ran_data ret p e x)]> h1) nx' al')).
  { destruct need; cbn [when].
    - assert (Hw1 : heap_wf h1 nx)
        by (apply (heap_wf_insert _ nx); [apply (heap_wf_insert _ nx); [done|lia|lia]|lia|lia]).
      erewrite bind_ok by (by apply Hget). cbn [fst snd]. erewrite bind_ok by (apply Hset; unfold h1; klookup).
      destruct e as [e|]; [|done]. erewrite Hset by klookup. by rewrite insert_insert_eq.
    - destruct Hout as (-> & -> & ->). specialize (Hsame eq_refl) as [= -> ->]. rewrite map_empty_union. unfold h1, ran_data. cbn [default].
      rewrite insert_insert_eq. destruct x. cbn in Hnull. by subst. }
  erewrite bind_ok by exact Hres.
  erewrite bind_ok by (unfold set_L; erewrite bind_ok by (eapply get_context_frame; [done|unfold h1; klookup]);
    eapply store_frame; [done|unfold h1; klookup]).
  unfold lunatik_context_unlock. erewrite bind_ok by (eapply get_context_frame; [done|klookup]).
  erewrite store_frame by (done || klookup). do 3 f_equal. cbn [lc_L lc_wq lc_active]. unfold h1.
  rewrite insert_insert_eq. heap_eq.
Qed.

Lemma loadcode_internal_spec lc d h nx al L wq act x cs :
  heap_wf h nx -> runnable h lc d L wq act x cs ->
  let '(ret, L') := run_code L (code_of x cs) in
  exists p e ob nx' al',
    loadcode_internal lc d (K h nx al) =
      (Ok tt, K (ob ∪ <[lc := open_context (lua_pop1 L') wq act]> (<[d := OData (ran_data ret p e x)]> h)) nx' al') /\
    outcome (d_need_result x) L' p e ob /\ fresh_objs ob nx nx'.
Proof.
  intros Hw Hr. pose proof (loadcode_internal_run L (code_of x cs) (d_need_result x) nx al (proj1 Hw) (rn_named _ _ _ _ _ _ _ _ Hr)) as Hrun.
  destruct (run_code L (code_of x cs)) as [ret L']. destruct Hrun as (p & e & ob & nx' & al' & Hout & Hf & Hi).
  exists p, e, ob, nx', al'. split_and!; [by apply (Hi lc d h wq act x cs)|done..].
Qed.

(** The call [r] has run the code: its status and its result, the engine's
    new state in the context, and no other change but the result's objects. *)
Definition ran (want : bool) (ret : Z) L' lc wq act h nx (r : Z * ptr) (st : kernel) : Prop :=
  exists p e ob nx' al', r = (default ret e, p) /\
    st = K (ob ∪ <[lc := open_context (lua_pop1 L') wq act]> h) nx' al' /\
    outcome want L' p e ob /\ fresh_objs ob nx nx'.

(** A context and a piece of code that can be run in it. *)
Record loadable h lc code sz want L wq act cs : Prop := {
  ld_lc : h !! lc = Some (open_context L wq act);
  ld_code : h !! code = Some (OBytes cs);
  ld_sz : 1 <= sz <= zlen cs + 1;
  ld_max : zlen cs < 2 ^ 63;
  ld_named : want = true -> named (lua_at_top (run_code L (take (Z.to_nat (sz - 1)) cs)).2) = true;
}.

Lemma loadable_runnable h lc code sz want L wq act cs d x :
  loadable h lc code sz want L wq act cs -> h !! d = None ->
  d_code x = code -> d_sz_code x = sz -> d_need_result x = want -> d_result x = NULL ->
  runnable (<[d := OData x]> h) lc d L wq act x cs.
Proof.
  intros [Hlc Hc Hs Hm Hn] Hd <- <- <- Hnull.
  assert (lc <> d) by (intros ->; congruence). assert (d_code x <> d) by (intros <-; congruence).
  split; try done; by klookup.
Qed.

(** The data of a call without callbacks. *)
Definition call_data code sz want : loadcode_data := mkData code sz NULL (-1) want 0 None None None 0.

(** The direct call, when running the code is known. *)
Lemma lunatik_loadcode_direct_with lc code sz want h nx al o ret p e ob nx' al' :
  heap_wf h nx -> orc al = true -> is_Some (h !! lc) -> fresh_objs ob (nx + 1) nx' ->
  loadcode_internal lc nx (K (<[nx := OData (call_data code sz want)]> h) (nx + 1) (S al)) =
    (Ok tt, K (ob ∪ <[lc := o]> (<[nx := OData (ran_data ret p e (call_data code sz want))]> (<[nx := OData (call_data code sz want)]> h))) nx' al') ->
  lunatik_loadcode_direct lc code sz want (K h nx al) = (Ok (default ret e, p), K (ob ∪ <[lc := o]> h) nx' al').
Proof.
  intros Hw Ho [olc Elc] Hf Hi. pose proof (proj1 Hw). pose proof (proj2 Hw _ _ Elc). unfold lunatik_loadcode_direct. kstep.
  destruct (Z.eqb_spec nx NULL); [unfold NULL in *; lia|].
  assert (Hn : h !! nx = None) by (by apply (heap_wf_fresh h nx); [|lia]).
  assert (Hod : ob !! nx = None) by (by apply (fresh_objs_None ob (nx + 1) nx'); [|lia]).
  erewrite bind_ok by exact Hi. erewrite bind_ok by (eapply get_data_frame; [done|klookup]).
  erewrite bind_ok by (eapply kfree_ok; [rewrite lookup_union_r by done; klookup|done]).
  cbv [mret M_ret]. do 2 f_equal. rewrite delete_union, (delete_id ob) by done. f_equal. heap_eq.
Qed.

(** lunatik_loadcode_direct runs the code without its last byte in the
    context: it returns the status (or the error of the result) and the
    result, and its only effects are the engine's new state and the objects
    of the result; its own block is freed.  When that block cannot be
    allocated it returns -ENOMEM and does nothing. *)
Theorem lunatik_loadcode_direct_runs lc code sz want h nx al L wq act cs :
  heap_wf h nx -> loadable h lc code sz want L wq act cs ->
  let '(ret, L') := run_code L (take (Z.to_nat (sz - 1)) cs) in
  if orc al
  then exists r st, lunatik_loadcode_direct lc code sz want (K h nx al) = (Ok r, st) /\
         ran want ret L' lc wq act h nx r st
  else lunatik_loadcode_direct lc code sz want (K h nx al) = (Ok (- ENOMEM, NULL), K h nx (S al)).
Proof.
  intros Hw Hl. pose proof (proj1 Hw). destruct (orc al) eqn:Ho.
  2: { destruct (run_code _ _). unfold lunatik_loadcode_direct. by erewrite bind_ok by by apply kmalloc_fail. }
  assert (Hn : h !! nx = None) by (by apply (heap_wf_fresh h nx); [|lia]).
  pose proof (loadable_runnable _ _ _ _ _ _ _ _ _ nx (call_data code sz want) Hl Hn eq_refl eq_refl eq_refl eq_refl) as Hr.
  pose proof (loadcode_internal_spec lc nx _ (nx + 1) (S al) L wq act _ cs
    (heap_wf_insert h nx (nx + 1) nx _ Hw ltac:(lia) ltac:(lia)) Hr) as Hi.
  unfold code_of in Hi. cbn [d_sz_code call_data] in Hi. destruct (run_code L (take (Z.to_nat (sz - 1)) cs)) as [ret L'].
  destruct Hi as (p & e & ob & nx' & al' & Hi & Hout & Hf). eexists _, _.
  split; [eapply lunatik_loadcode_direct_with; try done; rewrite (ld_lc _ _ _ _ _ _ _ _ _ Hl); by eexists|].
  exists p, e, ob, nx', al'. split_and!; [done..|]. destruct Hf as [Hle Hf]. split; [lia|]. intros q o Hq. apply Hf in Hq. lia.
Qed.

Lemma lunatik_context_create_ok h nx al :
  heap_wf h nx -> orc al = true -> orc (S al) = true -> orc (S (S al)) = true ->
  lunatik_context_create (K h nx al) =
    (Ok (inr nx), K (<[nx := open_context lua_newstate (nx + 1) []]> (<[nx + 1 := OQueue [] Idle]> h)) (nx + 1 + 1) (S (S (S al)))).
Proof.
  intros Hw Ho Ho1 Ho2. pose proof (proj1 Hw). unfold lunatik_context_create. kstep.
  destruct (Z.eqb_spec nx NULL); [unfold NULL in *; lia|]. erewrite bind_ok by reflexivity.
  cbn [k_oracle k_allocs k_heap k_next k_modules k_bindings K]. rewrite Ho1. cbn [negb].
  change (mkKernel ?a ?b orc ?c mods bs) with (K a b c).
  erewrite bind_ok by (unfold set_L; kstep; eapply store_ok; klookup). cbn [lc_L lc_mutex lc_wq lc_active].
  unfold lunatik_workqueue_init. kstep. destruct (Z.eqb_spec (nx + 1) NULL); [unfold NULL in *; lia|]. kstep. kstep.
  cbn [lc_L lc_mutex lc_wq lc_active]. cbv [mret M_ret]. do 2 f_equal. unfold open_context. heap_eq.
Qed.

Lemma lunatik_context_destroy_ok lc L wq h nx al :
  h !! lc = Some (open_context L wq []) -> lc <> NULL ->
  lunatik_context_destroy (inr lc) (K h nx al) = (Ok tt, K (delete lc h) nx al).
Proof.
  intros Hlc Hn. unfold lunatik_context_destroy. destruct (Z.eqb_spec lc NULL); [done|].
  erewrite bind_ok by (by apply (lock_spec lc L wq [])). kstep.
  cbn [lc_active mfor]. erewrite bind_ok by reflexivity.
  erewrite bind_ok by (unfold set_active; kstep; eapply store_ok; klookup).
  erewrite bind_ok by (unfold get_L; kstep; reflexivity).
  erewrite bind_ok by (unfold set_L; kstep; eapply store_ok; klookup).
  erewrite bind_ok by (unfold lunatik_context_unlock; kstep; eapply store_ok; klookup).
  erewrite kfree_ok by (klookup || done). do 2 f_equal. heap_eq.
Qed.

(** C31: the life of a context.  Creating one allocates it, the engine and a
    workqueue, and gives -ENOMEM when one of them fails: with the workqueue the
    context (and its engine) stays allocated.  Destroying a new context frees
    it, and its workqueue stays. *)
Theorem lunatik_context_life h nx al :
  heap_wf h nx ->
  if orc al then
    if orc (S al) then
      if orc (S (S al)) then
        exists st, lunatik_context_create (K h nx al) = (Ok (inr nx), st) /\
          k_heap st !! nx = Some (open_context lua_newstate (nx + 1) []) /\
          lunatik_context_destroy (inr nx) st = (Ok tt, K (<[nx + 1 := OQueue [] Idle]> h) (nx + 1 + 1) (S (S (S al))))
      else lunatik_context_create (K h nx al) =
        (Ok (inl (- ENOMEM)), K (<[nx := open_context lua_newstate NULL []]> h) (nx + 1) (S (S (S al))))
    else lunatik_context_create (K h nx al) = (Ok (inl (- ENOMEM)), K h (nx + 1) (S (S al)))
  else lunatik_context_create (K h nx al) = (Ok (inl (- ENOMEM)), K h nx (S al)).
Proof.
  intros Hw. pose proof (proj1 Hw). assert (Hn : h !! nx = None) by (by apply (heap_wf_fresh h nx); [|lia]).
  destruct (orc al) eqn:Ho; [destruct (orc (S al)) eqn:Ho1; [destruct (orc (S (S al))) eqn:Ho2|]|].
  - eexists. split; [by apply lunatik_context_create_ok|]. split; [cbn; klookup|].
    erewrite lunatik_context_destroy_ok by (klookup || (unfold NULL; lia)). do 2 f_equal.
    assert (h !! (nx + 1) = None) by (by apply (heap_wf_fresh h nx); [|lia]). heap_eq.
  - unfold lunatik_context_create. kstep. destruct (Z.eqb_spec nx NULL); [unfold NULL in *; lia|].
    erewrite bind_ok by reflexivity. cbn [k_oracle k_allocs k_heap k_next k_modules k_bindings K]. rewrite Ho1. cbn [negb].
    change (mkKernel ?a ?b orc ?c mods bs) with (K a b c).
    erewrite bind_ok by (unfold set_L; kstep; eapply store_ok; klookup). cbn [lc_L lc_mutex lc_wq lc_active].
    rewrite insert_insert_eq. unfold lunatik_workqueue_init. by erewrite bind_ok by by apply kmalloc_fail.
  - unfold lunatik_context_create. kstep. destruct (Z.eqb_spec nx NULL); [unfold NULL in *; lia|].
    erewrite bind_ok by reflexivity. cbn [k_oracle k_allocs k_heap k_next k_modules k_bindings K]. rewrite Ho1. cbn [negb].
    change (mkKernel ?a ?b orc ?c mods bs) with (K a b c). kstep. cbv [mret M_ret]. by rewrite delete_insert_id.
  - unfold lunatik_context_create. by erewrite bind_ok by by apply kmalloc_fail.
Qed.
End run.

(** ** A small engine for examples

    Its stack holds strings.  Loading code pushes the code, and fails when the
    code is empty; calling it leaves it as the result. *)

Definition LUA_ERRSYNTAX : Z := 3.

#[local] Instance echo_engine : LuaEngine := {|
  lua_State := list bytes;
  lua_newstate := [];
  luaL_loadbuffer L code := (if bool_decide (code = []) then LUA_ERRSYNTAX else 0, code :: L);
  lua_pcall L := (0, L);
  lua_at_top L := match L with [] => LNil | s :: _ => LString s end;
  lua_pop1 L := tail L;
  lua_pushcfunction L f := [f] :: L;
|}.

(** Its callbacks free the result; a registration function returns its own
    number; the modules with positive numbers are alive. *)
#[local] Instance echo_functions : KernelFunctions := {|
  module_live m := 0 <? m;
  run_callback f arg ret p := lunatik_result_free p;
  run_callback_nores f arg ret := mret tt;
  run_regfunc f lc := mret f;
|}.

(** A context at 1, its queue at 2, and the code "hi" at 3. *)
Definition echo_heap : gmap Z obj :=
  {[ 1 := open_context (H := echo_engine) [] 2 []; 2 := OQueue [] Idle; 3 := OBytes [104; 105; 0] ]}.

Lemma heap_wf_decide `{LuaEngine} (h : gmap Z obj) nx :
  bool_decide (1 <= nx /\ map_Forall (fun p _ => 1 <= p < nx) h) = true -> heap_wf h nx.
Proof. by rewrite bool_decide_eq_true. Qed.

Lemma echo_heap_wf : heap_wf echo_heap 4.
Proof. apply heap_wf_decide. vm_compute. reflexivity. Qed.

Lemma echo_loadable want : loadable echo_heap 1 3 3 want [] 2 [] [104; 105; 0].
Proof. split; reflexivity || (split; vm_compute; discriminate) || (intros; reflexivity). Qed.

Lemma lunatik_result_get_free_witness :
  exists p e ob nx' al',
    lunatik_result_get [[104; 105]] (K (fun _ => true) ∅ [] echo_heap 4 0) = (Ok (p, e), K (fun _ => true) ∅ [] (ob ∪ echo_heap) nx' al') /\
    got (fun _ => true) (LString [104; 105]) p e ob /\
    lunatik_result_free p (K (fun _ => true) ∅ [] (ob ∪ echo_heap) nx' al') = (Ok tt, K (fun _ => true) ∅ [] echo_heap nx' al').
Proof.
  exact (lunatik_result_get_free (fun _ => true) ∅ [] [[104; 105]] echo_heap 4 0 echo_heap_wf eq_refl eq_refl).
Defined.

Lemma lunatik_loadcode_direct_runs_witness :
  exists r st, lunatik_loadcode_direct 1 3 3 true (K (fun _ => true) ∅ [] echo_heap 4 0) = (Ok r, st) /\
    ran (fun _ => true) ∅ [] true 0 [[104; 105]] 1 2 [] echo_heap 4 r st.
Proof.
  exact (lunatik_loadcode_direct_runs (fun _ => true) ∅ [] 1 3 3 true echo_heap 4 0 [] 2 [] _ echo_heap_wf (echo_loadable true)).
Defined.

Lemma lunatik_context_life_witness :
  exists st, lunatik_context_create (K (fun _ => true) ∅ [] echo_heap 4 0) = (Ok (inr 4), st) /\
    k_heap st !! 4 = Some (open_context [] 5 []) /\
    lunatik_context_destroy (inr 4) st = (Ok tt, K (fun _ => true) ∅ [] (<[5 := OQueue [] Idle]> echo_heap) 6 3).
Proof. exact (lunatik_context_life (fun _ => true) ∅ [] echo_heap 4 0 echo_heap_wf). Defined.
