(* ===== verification/LunatikQueue.v ===== *)
(** * LunatikQueue.v: code run on the workqueue of a context

    The worker thread runs the works of a context one after the other.  The
    synchronous call is the direct one when the worker finishes before the
    caller goes on; the asynchronous calls are run in the order of their
    submission, whatever the interleaving, and of the library's own objects
    they leave nothing behind. *)

From S2P Require Import Prelude Machine Object Kernel Lunatik LunatikSpec.

Section worker.
Context `{KernelFunctions}.
Context (orc : nat -> bool) (mods : gmap Z Z) (bs : list ptr).
Implicit Types (h ob : gmap Z obj) (nx : Z) (al : nat) (p lc d code wq lw : ptr) (L : lua_State).
#[local] Abbreviation K := (K orc mods bs).

(** The worker takes the next work and runs its code, when that is known. *)
Lemma worker_start_with wq lw lc wq' d pending h nx al x o y ob nx' al' :
  heap_wf h nx -> h !! wq = Some (OQueue (lw :: pending) Idle) ->
  h !! lw = Some (OWork (mkWork lc wq' (loadcode_work d))) -> h !! d = Some (OData x) -> is_Some (h !! lc) -> lc <> d -> lc <> lw ->
  fresh_objs ob nx nx' ->
  loadcode_internal lc d (K (<[wq := OQueue pending (PastUp lw d)]> h) nx al) =
    (Ok tt, K (ob ∪ <[lc := o]> (<[d := OData y]> (<[wq := OQueue pending (PastUp lw d)]> h))) nx' al') ->
  worker_step wq (K h nx al) =
    (Ok tt, K (ob ∪ <[lc := o]> (<[d := OData (set_complete (d_complete y + 1) y)]> (<[wq := OQueue pending (PastUp lw d)]> h))) nx' al').
Proof.
  intros Hw Hq Hlw Hd [olc Elc] Hld Hll Hf Hi. pose proof (proj2 Hw _ _ Hd).
  assert (Hne : wq <> d /\ wq <> lw) by (split; congruence). destruct Hne as (? & ?).
  assert (Hod : ob !! d = None) by (by apply (fresh_objs_None ob nx nx'); [|lia]).
  unfold worker_step. kstep. cbn iota. kstep. cbn [lw_func]. kstep. unfold handler_run.
  erewrite bind_ok by (apply get_work_ok; klookup). cbn [lw_lc].
  rewrite (bind_ok _ _ _ _ _ Hi). unfold with_data. erewrite bind_ok by (eapply get_data_frame; [done|klookup]).
  erewrite store_frame by (done || klookup). do 3 f_equal. heap_eq.
Qed.

Lemma runnable_queued wq lw d pending h lc L wqc act x cs :
  h !! wq = Some (OQueue (lw :: pending) Idle) -> runnable h lc d L wqc act x cs ->
  runnable (<[wq := OQueue pending (PastUp lw d)]> h) lc d L wqc act x cs.
Proof.
  intros Hq [Hlc Hd Hcode Hsz Hmax Hnull Hnamed].
  assert (Hne : wq <> lc /\ wq <> d /\ wq <> d_code x) by (unfold open_context in Hlc; split_and!; congruence).
  destruct Hne as (? & ? & ?). split; try done; by rewrite lookup_insert_ne.
Qed.

Lemma worker_start wq lw lc wq' d pending h nx al L wqc act x cs :
  heap_wf h nx -> h !! wq = Some (OQueue (lw :: pending) Idle) ->
  h !! lw = Some (OWork (mkWork lc wq' (loadcode_work d))) -> runnable h lc d L wqc act x cs ->
  let '(ret, L') := run_code L (code_of x cs) in
  exists p e ob nx' al',
    worker_step wq (K h nx al) =
      (Ok tt, K (ob ∪ <[lc := open_context (lua_pop1 L') wqc act]>
                   (<[d := OData (set_complete (d_complete x + 1) (ran_data ret p e x))]>
                     (<[wq := OQueue pending (PastUp lw d)]> h))) nx' al') /\
    outcome orc (d_need_result x) L' p e ob /\ fresh_objs ob nx nx'.
Proof.
  intros Hw Hq Hlw Hr. pose proof (rn_lc _ _ _ _ _ _ _ _ Hr) as Hlc. pose proof (rn_d _ _ _ _ _ _ _ _ Hr) as Hd.
  pose proof (proj2 Hw _ _ Hq).
  assert (Hw1 : heap_wf (<[wq := OQueue pending (PastUp lw d)]> h) nx) by (apply (heap_wf_insert _ nx); [done|lia|lia]).
  pose proof (loadcode_internal_spec orc mods bs lc d _ nx al L wqc act x cs Hw1 (runnable_queued _ _ _ _ _ _ _ _ _ _ _ Hq Hr)) as Hi.
  destruct (run_code L (code_of x cs)) as [ret L']. destruct Hi as (p & e & ob & nx' & al' & Hi & Hout & Hf).
  exists p, e, ob, nx', al'. split_and!; [|done|done]. unfold open_context in Hlc.
  eapply (worker_start_with wq lw lc wq' d pending h nx al x _ (ran_data ret p e x)); try done; try congruence.
Qed.

(** *** The synchronous call *)

(** The queue has nothing to do. *)
Definition idle h wq : Prop := h !! wq = Some (OQueue [] Idle).

Lemma worker_idle wq h nx al :
  h !! wq = Some (OQueue [] Idle) -> worker_step wq (K h nx al) = (Ok tt, K h nx al).
Proof. intros Hq. unfold worker_step. by kstep. Qed.

Lemma worker_steps_S n wq k : worker_steps (S n) wq k = (worker_step wq;; worker_steps n wq) k.
Proof. done. Qed.

Lemma worker_steps_idle n wq h nx al :
  h !! wq = Some (OQueue [] Idle) -> worker_steps n wq (K h nx al) = (Ok tt, K h nx al).
Proof.
  intros Hq. induction n as [|n IH]; [done|]. rewrite worker_steps_S.
  by erewrite bind_ok by by apply worker_idle.
Qed.

(** The end of a handler without callbacks. *)
Lemma worker_post_sync wq lw d pending x ob h nx al :
  ob !! wq = None -> ob !! d = None ->
  h !! wq = Some (OQueue pending (PastUp lw d)) -> h !! d = Some (OData x) ->
  d_callback x = None -> d_callback_nores x = None -> d_callback_work x = None ->
  worker_step wq (K (ob ∪ h) nx al) = (Ok tt, K (ob ∪ <[wq := OQueue pending Idle]> h) nx al).
Proof.
  intros Ho Hod Hq Hd E1 E2 E3. assert (wq <> d) by congruence. unfold worker_step.
  erewrite bind_ok by (apply get_queue_ok; by rewrite lookup_union_r).
  assert (Hst : (store wq (OQueue pending Idle);; handler_post lw d) (K (ob ∪ h) nx al) =
    handler_post lw d (K (ob ∪ <[wq := OQueue pending Idle]> h) nx al)).
  { by erewrite bind_ok by by eapply store_frame. }
  destruct pending as [|w pending]; cbn iota; rewrite Hst; unfold handler_post;
    (erewrite bind_ok by (eapply get_data_frame; [done|klookup])); rewrite E1;
    (erewrite bind_ok by reflexivity); (erewrite bind_ok by (eapply get_data_frame; [done|klookup])); rewrite E2;
    (erewrite bind_ok by reflexivity); (erewrite bind_ok by (eapply get_data_frame; [done|klookup])); by rewrite E3.
Qed.

(** Once the work is queued: its data at [nx], the work after it. *)
Definition queued h nx lc code sz want wq : gmap Z obj :=
  <[wq := OQueue [nx + 1] Idle]> (<[nx + 1 := OWork (mkWork lc wq (loadcode_work nx))]>
    (<[nx := OData (call_data code sz want)]> h)).

Definition sync_rest n wq d lw : M kernel (Z * ptr) :=
  ret ← down_interruptible n wq d;
  x ← get_data d;
  lunatik_work_destroy lw;;
  kfree d;;
  if negb (ret =? 0) then mret (ret, NULL) else mret (d_ret x, d_result x).

Lemma sync_queued n lc code sz want h nx al L wq act cs :
  heap_wf h nx -> loadable h lc code sz want L wq act cs -> idle h wq -> orc al = true -> orc (S al) = true ->
  let h1 := queued h nx lc code sz want wq in
  lunatik_loadcode_sync n lc code sz want (K h nx al) = sync_rest n wq nx (nx + 1) (K h1 (nx + 1 + 1) (S (S al))) /\
  heap_wf h1 (nx + 1 + 1) /\
  runnable h1 lc nx L wq act (call_data code sz want) cs.
Proof.
  intros Hw Hl Hq Ho1 Ho2 h1. pose proof (proj1 Hw). unfold idle in Hq.
  pose proof (ld_lc _ _ _ _ _ _ _ _ _ Hl) as Hlc. pose proof (proj2 Hw _ _ Hlc). pose proof (proj2 Hw _ _ Hq).
  assert (wq <> lc) by (unfold open_context in Hlc; congruence). split_and!.
  - unfold lunatik_loadcode_sync. kstep. destruct (Z.eqb_spec nx NULL); [unfold NULL in *; lia|].
    unfold lunatik_work_create. erewrite bind_ok.
    2: { erewrite bind_ok by (eapply get_context_ok; unfold open_context in Hlc; klookup). kstep.
         destruct (Z.eqb_spec (nx + 1) NULL); [unfold NULL in *; lia|]. reflexivity. }
    cbn [lc_wq lunatik_work_queue]. erewrite bind_ok.
    2: { kstep. cbn [lw_wq]. unfold queue_work. kstep. eapply store_ok. klookup. }
    cbn [fst snd app]. by kstep.
  - apply (heap_wf_insert _ (nx + 1 + 1)); [|lia|lia]. apply (heap_wf_insert _ (nx + 1)); [|lia|lia].
    by apply (heap_wf_insert _ nx); [|lia|lia].
  - destruct Hl as [_ Hc Hs Hm Hnamed]. pose proof (proj2 Hw _ _ Hc). assert (wq <> code) by congruence.
    split; try done; unfold h1, queued; change (d_code (call_data code sz want)) with code; klookup.
Qed.

Lemma lunatik_loadcode_sync_spec n lc code sz want h nx al L wq act cs :
  (2 <= n)%nat -> heap_wf h nx -> loadable h lc code sz want L wq act cs ->
  idle h wq -> orc al = true -> orc (S al) = true ->
  let '(ret, L') := run_code L (take (Z.to_nat (sz - 1)) cs) in
  exists r st, lunatik_loadcode_sync n lc code sz want (K h nx al) = (Ok r, st) /\
    lunatik_loadcode_direct lc code sz want (K h (nx + 1) (S al)) = (Ok r, st) /\
    ran orc mods bs want ret L' lc wq act h nx r st.
Proof.
  intros Hn2 Hw Hl Hq Ho1 Ho2. pose proof (proj1 Hw). pose proof (ld_lc _ _ _ _ _ _ _ _ _ Hl) as Hlc.
  destruct (sync_queued n _ _ _ _ _ _ _ _ _ _ _ Hw Hl Hq Ho1 Ho2) as (-> & Hw1 & Hr1). unfold idle in Hq.
  assert (Hn : h !! nx = None) by (by apply (heap_wf_fresh h nx); [|lia]).
  assert (Hn' : h !! (nx + 1) = None) by (by apply (heap_wf_fresh h nx); [|lia]).
  pose proof (proj2 Hw _ _ Hlc). pose proof (proj2 Hw _ _ Hq).
  assert (wq <> lc) by (unfold open_context in Hlc; congruence).
  pose proof (loadcode_internal_run orc mods bs L (take (Z.to_nat (sz - 1)) cs) want (nx + 1 + 1) (S (S al)) ltac:(lia) (ld_named _ _ _ _ _ _ _ _ _ Hl)) as Hrun.
  destruct (run_code L (take (Z.to_nat (sz - 1)) cs)) as [ret L'] eqn:Er. destruct Hrun as (p & e & ob & nx' & al' & Hout & Hf & Hi).
  assert (Hob : forall q, q < nx + 1 + 1 -> ob !! q = None) by (intros q Hq'; by eapply fresh_objs_None).
  assert (Hs : worker_step wq (K (queued h nx lc code sz want wq) (nx + 1 + 1) (S (S al))) =
    (Ok tt, K (ob ∪ <[lc := open_context (lua_pop1 L') wq act]> (<[nx := OData (set_complete (0 + 1) (ran_data ret p e (call_data code sz want)))]>
      (<[wq := OQueue [] (PastUp (nx + 1) nx)]> (queued h nx lc code sz want wq)))) nx' al')).
  { eapply (worker_start_with wq (nx + 1) lc wq nx [] _ _ _ (call_data code sz want) _ (ran_data ret p e (call_data code sz want)));
      [done|unfold queued; klookup|unfold queued; klookup|unfold queued; klookup| |lia|lia|done|].
    - unfold queued. rewrite !lookup_insert_ne by lia. by rewrite Hlc.
    - apply (Hi lc nx _ wq act _ cs); [|apply runnable_queued; [unfold queued; klookup|done]|done|done].
      by apply (heap_wf_insert _ (nx + 1 + 1)); [|lia|lia]. }
  unfold sync_rest, down_interruptible. destruct n as [|[|n]]; [lia|lia|].
  erewrite bind_ok.
  2: { erewrite bind_ok.
       2: { rewrite worker_steps_S, (bind_ok _ _ _ _ _ Hs), worker_steps_S.
            erewrite bind_ok by (eapply (worker_post_sync wq (nx + 1) nx []); [apply Hob; lia|apply Hob; lia|klookup|klookup|done..]).
            apply worker_steps_idle. rewrite lookup_union_r by (apply Hob; lia). klookup. }
       erewrite bind_ok by (eapply get_data_frame; [apply Hob; lia|klookup]). cbn [d_complete set_complete].
       change (0 + 1 >? 0) with true. cbn iota. erewrite bind_ok by
         (unfold with_data; erewrite bind_ok by (eapply get_data_frame; [apply Hob; lia|klookup]);
          eapply store_frame; [apply Hob; lia|klookup]).
       reflexivity. }
  erewrite bind_ok by (eapply get_data_frame; [apply Hob; lia|klookup]).
  erewrite bind_ok by (eapply kfree_ok; [rewrite lookup_union_r by (apply Hob; lia); unfold queued; klookup|unfold NULL; lia]).
  erewrite bind_ok by (eapply kfree_ok; [rewrite lookup_delete_ne by lia; rewrite lookup_union_r by (apply Hob; lia); klookup|unfold NULL; lia]).
  exists (default ret e, p), (K (ob ∪ <[lc := open_context (lua_pop1 L') wq act]> h) nx' al'). split_and!.
  - cbv [mret M_ret]. do 2 f_equal. rewrite delete_union, delete_union, !(delete_id ob) by (apply Hob; lia). f_equal. unfold queued. heap_eq.
  - assert (Hw2 : heap_wf h (nx + 1)) by (destruct Hw as [_ Hh]; split; [lia|intros q o Hq'; apply Hh in Hq'; lia]).
    eapply lunatik_loadcode_direct_with; [done..|by rewrite Hlc|done|]. apply (Hi lc (nx + 1) _ wq act _ cs).
    + by apply (heap_wf_insert _ (nx + 1)); [|lia|lia].
    + by apply (loadable_runnable _ lc code sz want).
    + done.
    + done.
  - exists p, e, ob, nx', al'. split_and!; [done..|]. destruct Hf as [Hle Hf]. split; [lia|]. intros q o Hq'. apply Hf in Hq'. lia.
Qed.

(** C29: lunatik_loadcode_sync, when the worker ends the handler before the
    caller goes on, is lunatik_loadcode_direct: the same values are returned
    and the same state is left, when the direct call starts where the next
    object is the one behind the work, which the synchronous call allocates
    too and frees again.  That state has the engine's new state and the
    objects of the result, and nothing else that is new ([ran]). *)
Theorem lunatik_loadcode_sync_runs n lc code sz want h nx al L wq act cs :
  (2 <= n)%nat -> heap_wf h nx -> loadable h lc code sz want L wq act cs ->
  idle h wq -> orc al = true -> orc (S al) = true ->
  let '(ret, L') := run_code L (take (Z.to_nat (sz - 1)) cs) in
  exists r st, lunatik_loadcode_sync n lc code sz want (K h nx al) = (Ok r, st) /\
    lunatik_loadcode_direct lc code sz want (K h (nx + 1) (S al)) = (Ok r, st) /\
    ran orc mods bs want ret L' lc wq act h nx r st.
Proof. apply lunatik_loadcode_sync_spec. Qed.

(** C30: lunatik_loadcode_sync frees the data and the work without waiting for
    the end of the handler.  When the wait is interrupted before the worker
    ran ([n] is 0), and also when the caller wakes up right after the
    handler's up() ([n] is 1), the worker's next step reads freed memory. *)
Theorem lunatik_loadcode_sync_race n lc code sz want h nx al L wq act cs :
  (n < 2)%nat -> heap_wf h nx -> loadable h lc code sz want L wq act cs ->
  idle h wq -> orc al = true -> orc (S al) = true ->
  exists r st st', lunatik_loadcode_sync n lc code sz want (K h nx al) = (Ok r, st) /\
    worker_step wq st = (Err (UB "use after free"), st').
Proof.
  intros Hn2 Hw Hl Hq Ho1 Ho2. pose proof (proj1 Hw). pose proof (ld_lc _ _ _ _ _ _ _ _ _ Hl) as Hlc.
  destruct (sync_queued n _ _ _ _ _ _ _ _ _ _ _ Hw Hl Hq Ho1 Ho2) as (-> & Hw1 & Hr1). unfold idle in Hq.
  pose proof (proj2 Hw _ _ Hlc). pose proof (proj2 Hw _ _ Hq).
  assert (wq <> lc) by (unfold open_context in Hlc; congruence).
  unfold sync_rest, down_interruptible. destruct n as [|[|n]]; [| |lia].
  - erewrite bind_ok.
    2: { erewrite bind_ok by reflexivity. erewrite bind_ok by (apply get_data_ok; unfold queued; klookup). reflexivity. }
    unfold queued. kstep. unfold lunatik_work_destroy. kstep. kstep. eexists _, _, _. split; [reflexivity|].
    unfold worker_step. kstep. cbn iota. unfold get_work, deref, K. unfold mbind, M_bind. cbn [k_heap].
    rewrite lookup_delete_ne by lia. by rewrite lookup_delete_eq.
  - pose proof (worker_start wq (nx + 1) lc wq nx [] _ (nx + 1 + 1) (S (S al)) L wq act _ cs Hw1
      ltac:(unfold queued; klookup) ltac:(unfold queued; klookup) Hr1) as Hs.
    destruct (run_code L _) as [ret L']. destruct Hs as (p & e & ob & nx' & al' & Hs & Hout & Hf).
    assert (Hob : forall q, q < nx + 1 + 1 -> ob !! q = None) by (intros q Hq'; by eapply fresh_objs_None).
    erewrite bind_ok.
    2: { erewrite bind_ok by (rewrite worker_steps_S, (bind_ok _ _ _ _ _ Hs); reflexivity).
         erewrite bind_ok by (eapply get_data_frame; [apply Hob; lia|klookup]). cbn [d_complete set_complete call_data].
         change (0 + 1 >? 0) with true. cbn iota. erewrite bind_ok by
           (unfold with_data; erewrite bind_ok by (eapply get_data_frame; [apply Hob; lia|klookup]);
            eapply store_frame; [apply Hob; lia|klookup]).
         reflexivity. }
    erewrite bind_ok by (eapply get_data_frame; [apply Hob; lia|klookup]).
    erewrite bind_ok by (eapply kfree_ok; [rewrite lookup_union_r by (apply Hob; lia); unfold queued; klookup|unfold NULL; lia]).
    erewrite bind_ok by (eapply kfree_ok; [rewrite lookup_delete_ne by lia; rewrite lookup_union_r by (apply Hob; lia); klookup|unfold NULL; lia]).
    eexists _, _, _. split; [reflexivity|]. unfold worker_step.
    erewrite bind_ok by (apply get_queue_ok; rewrite !lookup_delete_ne by lia; rewrite lookup_union_r by (apply Hob; lia); klookup).
    cbn iota. erewrite bind_ok by (eapply store_ok; rewrite !lookup_delete_ne by lia; rewrite lookup_union_r by (apply Hob; lia); klookup).
    unfold handler_post, get_data, deref, K. unfold mbind, M_bind. cbn [k_heap].
    rewrite lookup_insert_ne by lia. by rewrite lookup_delete_eq.
Qed.
End worker.

(** ** Asynchronous calls *)

(** What a callback is told: the return code and, when it asked for a result,
    the value. *)
Abbreviation given := (Z * option lua_value)%type.

Section requests.
Context `{LuaEngine}.

(** A piece of code to be run, with its callback.  The caller hands over to
    the callback some objects of its own, [q_mine] (the code itself, the
    structure that the argument points to); of these the callback leaves
    [q_left], which depends on what it was told, and the others it has freed. *)
Record request := mkRequest {
  q_code : ptr; q_sz : Z; q_want : bool; q_callb : Z; q_arg : Z; q_bytes : bytes;
  q_mine : gmap Z obj; q_left : given -> gmap Z obj;
}.

(** A request that is queued: its work and its data. *)
Record job := mkJob { j_req : request; j_lw : ptr; j_d : ptr }.

(** The worker and the callers take turns in any order. *)
Inductive action := Submit (q : request) | Work.
End requests.

Section async.
Context `{KernelFunctions}.
Context (mods : gmap Z Z) (bs : list ptr) (lc wq : ptr) (act : list ptr).
Implicit Types (h ob c : gmap Z obj) (nx : Z) (al : nat) (L : lua_State) (q : request) (j : job) (jobs : list job) (out : given).

(** Memory does not run out. *)
#[local] Abbreviation K := (K (fun _ => true) mods bs).

(** lunatik_loadcode_async, or lunatik_loadcode_async_nores. *)
Definition submit q : M kernel Z :=
  if q_want q then lunatik_loadcode_async lc (q_code q) (q_sz q) (q_callb q) (q_arg q)
  else lunatik_loadcode_async_nores lc (q_code q) (q_sz q) (q_callb q) (q_arg q).

Definition run_action (a : action) : M kernel unit :=
  match a with
  | Submit q => submit q;; mret tt
  | Work => worker_step wq
  end.

Definition req_code q : bytes := take (Z.to_nat (q_sz q - 1)) (q_bytes q).

(** What the callback of [q] is told when running the code gave [ret] and left
    the engine in the state [L]. *)
Definition told q (ret : Z) L : given :=
  if q_want q then (default ret (value_error (lua_at_top L)), Some (lua_at_top L)) else (ret, None).

(** A heap after the callback of [q]. *)
Definition settle q out h : gmap Z obj := q_left q out ∪ (h ∖ q_mine q).

(** The queue in the abstract: the engine's state, the objects of the clients,
    the request whose callback is due with what it will be told, and the
    requests that wait. *)
Record aqueue := mkQueue { aq_L : lua_State; aq_heap : gmap Z obj; aq_running : option (request * given); aq_pending : list request }.

Definition astep (s : aqueue) (a : action) : aqueue :=
  match a with
  | Submit q => mkQueue (aq_L s) (aq_heap s) (aq_running s) (aq_pending s ++ [q])
  | Work =>
      match aq_running s with
      | Some (q, out) => mkQueue (aq_L s) (settle q out (aq_heap s)) None (aq_pending s)
      | None =>
          match aq_pending s with
          | [] => s
          | q :: rest =>
              let '(ret, L) := run_code (aq_L s) (req_code q) in
              mkQueue (lua_pop1 L) (aq_heap s) (Some (q, told q ret L)) rest
          end
      end
  end.

Definition job_data q : loadcode_data :=
  mkData (q_code q) (q_sz q) NULL (-1) (q_want q) (q_arg q)
    (if q_want q then Some (q_callb q) else None) (if q_want q then None else Some (q_callb q))
    (Some loadcode_async_work_cleanup_cb) 0.

(** The callback of [q], as the handler calls it. *)
Definition call_back q (ret : Z) (p : ptr) : M kernel unit :=
  if q_want q then run_callback (q_callb q) (q_arg q) ret p else run_callback_nores (q_callb q) (q_arg q) ret.

(** What the library asks of a callback: it frees its result, changes of the
    rest no more than the objects it was handed over, and leaves [q_left] of
    them. *)
Definition callback_ok q : Prop := forall ret L p e ob h nx al,
  outcome (fun _ => true) (q_want q) L p e ob -> (q_want q = true -> tagged (lua_at_top L) = true) ->
  ob ##ₘ q_mine q ∪ h -> q_mine q ##ₘ h -> heap_wf (ob ∪ (q_mine q ∪ h)) nx ->
  exists nx' al', nx <= nx' /\
    call_back q (default ret e) p (K (ob ∪ (q_mine q ∪ h)) nx al) = (Ok tt, K (q_left q (told q ret L) ∪ h) nx' al').

(** A request whose result, when one is wanted, is a value that
    lunatik_result_get can take out of the engine. *)
Record req_ok q : Prop := {
  rq_sz : 1 <= q_sz q <= zlen (q_bytes q) + 1;
  rq_max : zlen (q_bytes q) < 2 ^ 63;
  rq_value L : q_want q = true ->
    let v := lua_at_top (run_code L (req_code q)).2 in named v = true /\ tagged v = true;
  rq_left out p : q_mine q !! p = None -> q_left q out !! p = None;
  rq_callback : callback_ok q;
}.

(** The callback of [q1] runs before the code of [q2] and before its callback. *)
Definition apart q1 q2 : Prop := q_mine q1 ##ₘ q_mine q2 /\ q_mine q1 !! q_code q2 = None.

(** The clients' objects [c] have the code of the requests, which are to run
    in this order, and what their callbacks are handed over. *)
Record owns c (qs : list request) : Prop := {
  ow_mine q : q ∈ qs -> q_mine q ⊆ c;
  ow_code q : q ∈ qs -> c !! q_code q = Some (OBytes (q_bytes q));
  ow_apart : ForallOrdPairs apart qs;
}.

Lemma lookup_settle q out h p :
  settle q out h !! p = match q_left q out !! p with Some o => Some o | None => match q_mine q !! p with Some _ => None | None => h !! p end end.
Proof.
  unfold settle. rewrite lookup_union, lookup_difference. by destruct (q_left q out !! p), (q_mine q !! p), (h !! p).
Qed.

Lemma lookup_settle_ne q out h p : req_ok q -> q_mine q !! p = None -> settle q out h !! p = h !! p.
Proof. intros Hq Hp. by rewrite lookup_settle, (rq_left q Hq), Hp. Qed.

(** The requests behind [q] still have theirs after its callback. *)
Lemma owns_settle q out c qs : req_ok q -> owns c (q :: qs) -> owns (settle q out c) qs.
Proof.
  intros Hq [Hm Hc Ha]. inversion Ha as [|? ? Hall Hrest]; subst. rewrite Forall_forall in Hall. split; [| |done].
  - intros q' Hin. destruct (Hall q' Hin) as [Hd _]. apply map_subseteq_spec. intros p o Hp.
    rewrite lookup_settle_ne by (done || by eapply map_disjoint_Some_r). apply (lookup_weaken (q_mine q')); [done|]. apply Hm. by right.
  - intros q' Hin. rewrite lookup_settle_ne by (done || by apply Hall). apply Hc. by right.
Qed.

Definition job_at h (j : job) (x : loadcode_data) : Prop :=
  h !! j_lw j = Some (OWork (mkWork lc wq (loadcode_work (j_d j)))) /\ h !! j_d j = Some (OData x).

Definition owned jobs : list ptr := jobs ≫= (fun j => [j_lw j; j_d j]).

(** The job at work, with its data and what its callback will be told. *)
Abbreviation running := (option (job * loadcode_data * given)).
Definition running_job (ro : running) : list job := match ro with Some (j, _, _) => [j] | None => [] end.
Definition running_worker (ro : running) : worker :=
  match ro with Some (j, _, _) => PastUp (j_lw j) (j_d j) | None => Idle end.

(** The heap, less the objects of the result at hand: the context, the queue,
    the jobs, and the clients' objects [c]. *)
Record rep L c (ro : running) jobs h nx : Prop := {
  rp_wf : heap_wf h nx;
  rp_lc : h !! lc = Some (open_context L wq act);
  rp_wq : h !! wq = Some (OQueue (j_lw <$> jobs) (running_worker ro));
  rp_jobs j : j ∈ jobs -> job_at h j (job_data (j_req j)) /\ req_ok (j_req j);
  rp_run j x out : ro = Some (j, x, out) -> job_at h j x /\ req_ok (j_req j);
  rp_nodup : NoDup (owned (running_job ro ++ jobs));
  rp_frame p : p <> lc -> p <> wq -> p ∉ owned (running_job ro ++ jobs) -> h !! p = c !! p;
  rp_new p : p ∈ owned (running_job ro ++ jobs) -> c !! p = None;
  rp_own : c !! lc = None /\ c !! wq = None;
}.

(** The objects of the result that waits for its callback. *)
Definition at_work (ro : running) ob h nx : Prop :=
  match ro with
  | None => ob = ∅
  | Some (j, x, out) => ob ##ₘ h /\ (forall p o, ob !! p = Some o -> 1 <= p < nx) /\ exists L' ret p e,
      x = set_complete 1 (ran_data ret p e (job_data (j_req j))) /\ out = told (j_req j) ret L' /\
      outcome (fun _ => true) (q_want (j_req j)) L' p e ob /\ (q_want (j_req j) = true -> tagged (lua_at_top L') = true)
  end.

Definition absq L c (ro : running) jobs : aqueue :=
  mkQueue L c (match ro with Some (j, _, out) => Some (j_req j, out) | None => None end) (j_req <$> jobs).

Lemma owned_app l1 l2 : owned (l1 ++ l2) = owned l1 ++ owned l2.
Proof. apply bind_app. Qed.

Lemma submit_unfold q :
  submit q = (d ← kmalloc (OData (job_data q));
    if d =? NULL then mret (- ENOMEM)
    else lw ← lunatik_work_create lc (loadcode_work d); lunatik_work_queue lw;; mret 0).
Proof. destruct q as [cd sz want cb arg b mine left]. by destruct want. Qed.

Lemma job_at_insert h j x p o : job_at h j x -> p <> j_lw j -> p <> j_d j -> job_at (<[p := o]> h) j x.
Proof. intros [Hl Hd] Hn1 Hn2. split; by rewrite lookup_insert_ne. Qed.

Lemma job_at_range h nx j x : heap_wf h nx -> job_at h j x -> 1 <= j_lw j < nx /\ 1 <= j_d j < nx.
Proof. intros [_ Hw] [Hl Hd]. split; by eapply Hw. Qed.

Lemma rep_owned L c ro jobs h nx p :
  rep L c ro jobs h nx -> p ∈ owned (running_job ro ++ jobs) ->
  exists j x, job_at h j x /\ (p = j_lw j \/ p = j_d j).
Proof.
  intros Hr Hp. unfold owned in Hp. apply list_elem_of_bind in Hp as (j & Hp & Hj).
  assert (Hx : exists x, job_at h j x).
  { apply elem_of_app in Hj as [Hj|Hj].
    - destruct ro as [[[j' x] out]|]; [|by apply elem_of_nil in Hj]. apply list_elem_of_singleton in Hj as ->.
      exists x. by eapply (rp_run _ _ _ _ _ _ Hr).
    - exists (job_data (j_req j)). by apply (rp_jobs _ _ _ _ _ _ Hr). }
  destruct Hx as [x Hx]. exists j, x. split; [done|]. apply elem_of_cons in Hp as [->|Hp]; [by left|right].
  by apply list_elem_of_singleton in Hp.
Qed.

(** The addresses of jobs are neither the context nor the queue, and old. *)
Lemma rep_owned_ne L c ro jobs h nx p :
  rep L c ro jobs h nx -> p ∈ owned (running_job ro ++ jobs) -> p <> lc /\ p <> wq /\ 1 <= p < nx.
Proof.
  intros Hr Hp. destruct (rep_owned _ _ _ _ _ _ _ Hr Hp) as (j & x & Hj & E).
  pose proof (job_at_range _ _ _ _ (rp_wf _ _ _ _ _ _ Hr) Hj). destruct Hj as [Hl Hd].
  pose proof (rp_lc _ _ _ _ _ _ Hr) as Hlc. pose proof (rp_wq _ _ _ _ _ _ Hr) as Hq. unfold open_context in Hlc.
  destruct E as [-> | ->]; split_and!; try lia; congruence.
Qed.

(** A submission allocates the data and the work and appends to the queue. *)
Lemma submit_exec L c ro jobs ob h nx al q :
  rep L c ro jobs h nx -> (forall p o, ob !! p = Some o -> 1 <= p < nx) -> ob ##ₘ h ->
  submit q (K (ob ∪ h) nx al) = (Ok 0, K (ob ∪
    <[wq := OQueue ((j_lw <$> jobs) ++ [nx + 1]) (running_worker ro)]>
      (<[nx + 1 := OWork (mkWork lc wq (loadcode_work nx))]> (<[nx := OData (job_data q)]> h)))
    (nx + 1 + 1) (S (S al))).
Proof.
  intros Hr Hob Hdis. pose proof (rp_wf _ _ _ _ _ _ Hr) as Hw. pose proof (proj1 Hw).
  assert (Hobn : forall p, nx <= p -> ob !! p = None).
  { intros p Hp. destruct (ob !! p) eqn:E; [|done]. apply Hob in E. lia. }
  pose proof (rp_lc _ _ _ _ _ _ Hr) as Hlc. pose proof (rp_wq _ _ _ _ _ _ Hr) as Hq. unfold open_context in Hlc.
  pose proof (proj2 Hw _ _ Hlc). pose proof (proj2 Hw _ _ Hq).
  assert (Hol : ob !! lc = None) by (eapply map_disjoint_Some_r; [exact Hdis|exact Hlc]).
  assert (Hoq : ob !! wq = None) by (eapply map_disjoint_Some_r; [exact Hdis|exact Hq]).
  rewrite submit_unfold. erewrite bind_ok by by apply kmalloc_ok.
  destruct (Z.eqb_spec nx NULL); [unfold NULL in *; lia|]. rewrite insert_union_r by (apply Hobn; lia).
  unfold lunatik_work_create. erewrite bind_ok.
  2: { erewrite bind_ok by (eapply get_context_frame; [done|klookup]). erewrite bind_ok by by apply kmalloc_ok.
       destruct (Z.eqb_spec (nx + 1) NULL); [unfold NULL in *; lia|]. reflexivity. }
  cbn [lc_wq lunatik_work_queue]. rewrite insert_union_r by (apply Hobn; lia).
  erewrite bind_ok; [done|]. erewrite bind_ok by (apply get_work_ok; rewrite lookup_union_r by (apply Hobn; lia); klookup).
  cbn [lw_wq]. unfold queue_work. erewrite bind_ok by (apply get_queue_ok; rewrite lookup_union_r by done; klookup).
  eapply store_frame; [done|klookup].
Qed.

Lemma rep_submit L c ro jobs h nx q :
  rep L c ro jobs h nx -> req_ok q ->
  rep L c ro (jobs ++ [mkJob q (nx + 1) nx])
    (<[wq := OQueue ((j_lw <$> jobs) ++ [nx + 1]) (running_worker ro)]>
      (<[nx + 1 := OWork (mkWork lc wq (loadcode_work nx))]> (<[nx := OData (job_data q)]> h)))
    (nx + 1 + 1).
Proof.
  intros Hr Hq. pose proof (rp_wf _ _ _ _ _ _ Hr) as Hw. pose proof (proj1 Hw).
  pose proof (rp_lc _ _ _ _ _ _ Hr) as Hlc. pose proof (rp_wq _ _ _ _ _ _ Hr) as Hwq. 
  pose proof (proj2 Hw _ _ Hlc). pose proof (proj2 Hw _ _ Hwq).
  assert (wq <> lc) by (unfold open_context in Hlc; congruence).
  set (j := mkJob q (nx + 1) nx).
  assert (Hown : owned (running_job ro ++ jobs ++ [j]) = owned (running_job ro ++ jobs) ++ [nx + 1; nx]).
  { by rewrite (app_assoc _ jobs), owned_app. }
  assert (Hin : forall j' x, job_at h j' x -> job_at
    (<[wq := OQueue ((j_lw <$> jobs) ++ [nx + 1]) (running_worker ro)]>
      (<[nx + 1 := OWork (mkWork lc wq (loadcode_work nx))]> (<[nx := OData (job_data q)]> h))) j' x).
  { intros j' x Hj. pose proof (job_at_range _ _ _ _ Hw Hj). destruct Hj as [Hjl Hjd].
    repeat apply job_at_insert; try lia; try congruence. done. }
  split.
  - apply (heap_wf_insert _ (nx + 1 + 1)); [|lia|lia]. apply (heap_wf_insert _ (nx + 1)); [|lia|lia].
    by apply (heap_wf_insert _ nx); [|lia|lia].
  - klookup.
  - rewrite fmap_app. klookup.
  - intros j' [Hj| ->%list_elem_of_singleton]%elem_of_app.
    + destruct (rp_jobs _ _ _ _ _ _ Hr j' Hj). auto.
    + split; [|done]. split; unfold j; cbn [j_lw j_d j_req]; klookup.
  - intros j' x out Hro. destruct (rp_run _ _ _ _ _ _ Hr j' x out Hro) as [Hj Hq']. auto.
  - rewrite Hown. apply NoDup_app. split_and!; [apply Hr| |].
    + intros p Hp. pose proof (rep_owned_ne _ _ _ _ _ _ _ Hr Hp). set_unfold. lia.
    + apply NoDup_cons. split; [intros ?%list_elem_of_singleton; lia|apply NoDup_singleton].
  - intros p H1p H2p Hp. rewrite Hown in Hp. apply not_elem_of_app in Hp as [Hp Hp2].
    apply not_elem_of_cons in Hp2 as [? Hp2]. apply not_elem_of_cons in Hp2 as [? _].
    rewrite !lookup_insert_ne by congruence. by apply (rp_frame _ _ _ _ _ _ Hr).
  - intros p Hp. rewrite Hown in Hp. apply elem_of_app in Hp as [Hp|Hp]; [by apply (rp_new _ _ _ _ _ _ Hr)|].
    assert (Hpn : nx <= p) by (set_unfold; lia). 
    destruct (c !! p) as [o|] eqn:E; [exfalso|done].
    assert (Hh : h !! p = Some o).
    { rewrite <-E. apply (rp_frame _ _ _ _ _ _ Hr); [lia|lia|]. intros Hp'. pose proof (rep_owned_ne _ _ _ _ _ _ _ Hr Hp'). lia. }
    apply (proj2 Hw) in Hh. lia.
  - apply Hr.
Qed.

(** The worker takes the first job. *)
Lemma rep_start L c j jobs h nx ret p e L' out :
  rep L c None (j :: jobs) h nx ->
  let x := set_complete 1 (ran_data ret p e (job_data (j_req j))) in
  rep L' c (Some (j, x, out)) jobs
    (<[lc := open_context L' wq act]> (<[j_d j := OData x]> (<[wq := OQueue (j_lw <$> jobs) (PastUp (j_lw j) (j_d j))]> h))) nx.
Proof.
  intros Hr x. pose proof (rp_wf _ _ _ _ _ _ Hr) as Hw.
  pose proof (rp_lc _ _ _ _ _ _ Hr) as Hlc. pose proof (rp_wq _ _ _ _ _ _ Hr) as Hwq.
  assert (wq <> lc) by (unfold open_context in Hlc; congruence).
  pose proof (proj2 Hw _ _ Hlc). pose proof (proj2 Hw _ _ Hwq).
  destruct (rp_jobs _ _ _ _ _ _ Hr j (list_elem_of_here _ _)) as [[Hjl Hjd] Hjq].
  pose proof (proj2 Hw _ _ Hjl). pose proof (proj2 Hw _ _ Hjd).
  assert (j_d j <> lc /\ j_lw j <> lc /\ j_d j <> wq /\ j_lw j <> wq /\ j_lw j <> j_d j) as (?&?&?&?&?).
  { unfold open_context in Hlc. split_and!; congruence. }
  pose proof (rp_nodup _ _ _ _ _ _ Hr) as Hnd. cbn in Hnd.
  apply NoDup_cons in Hnd as [_ Hnd]. apply NoDup_cons in Hnd as [Hnd _].
  split.
  - repeat (apply (heap_wf_insert _ nx); [|lia|lia]). done.
  - klookup.
  - cbn [running_worker]. klookup.
  - intros j' Hj'. destruct (rp_jobs _ _ _ _ _ _ Hr j' (list_elem_of_further _ _ _ Hj')) as [Hj Hq]. split; [|done].
    assert (Hin : j_d j' ∈ owned jobs) by (apply list_elem_of_bind; exists j'; split; [set_solver|done]).
    assert (j_d j <> j_d j') by (intros E; rewrite E in Hnd; by apply Hnd). destruct Hj as [Hl Hd].
    unfold open_context in Hlc. repeat apply job_at_insert; try congruence. done.
  - intros j' y out' [= <- <- <-]. split; [split; klookup|done].
  - by apply (rp_nodup _ _ _ _ _ _ Hr).
  - intros i ?? Hi. assert (i <> j_d j) by (intros ->; apply Hi; set_solver).
    rewrite !lookup_insert_ne by congruence. by apply (rp_frame _ _ _ _ _ _ Hr).
  - by apply (rp_new _ _ _ _ _ _ Hr).
  - apply Hr.
Qed.

(** What a callback is handed over is none of the library's. *)
Lemma mine_apart L c ro jobs h nx q p :
  rep L c ro jobs h nx -> q_mine q ⊆ c -> p = lc \/ p = wq \/ p ∈ owned (running_job ro ++ jobs) -> q_mine q !! p = None.
Proof.
  intros Hr Hm Hp. apply (lookup_weaken_None _ c); [|done]. destruct (rp_own _ _ _ _ _ _ Hr).
  destruct Hp as [->|[->|Hp]]; [done|done|]. by apply (rp_new _ _ _ _ _ _ Hr).
Qed.

Lemma mine_in_heap L c ro jobs h nx q o :
  rep L c ro jobs h nx -> q_mine q ⊆ c -> q_mine q ⊆ <[wq := o]> h.
Proof.
  intros Hr Hm. apply map_subseteq_spec. intros p o' Hp.
  assert (Hne : forall i, q_mine q !! i = None -> p <> i) by (intros i Hi ->; congruence).
  pose proof (mine_apart _ _ _ _ _ _ q lc Hr Hm ltac:(by left)). pose proof (mine_apart _ _ _ _ _ _ q wq Hr Hm ltac:(by right; left)).
  rewrite lookup_insert_ne by (apply not_eq_sym; auto). rewrite (rp_frame _ _ _ _ _ _ Hr); [by eapply lookup_weaken|auto..|].
  intros Hin. by apply (Hne p); [apply (mine_apart _ _ _ _ _ _ q p Hr Hm); right; right|].
Qed.

(** The worker ends the job at hand. *)
Lemma rep_end L c j x out jobs h nx nx' :
  rep L c (Some (j, x, out)) jobs h nx -> q_mine (j_req j) ⊆ c -> nx <= nx' ->
  rep L (settle (j_req j) out c) None jobs
    (delete (j_lw j) (delete (j_d j) (settle (j_req j) out (<[wq := OQueue (j_lw <$> jobs) Idle]> h)))) nx'.
Proof.
  intros Hr Hm Hnx. pose proof (rp_wf _ _ _ _ _ _ Hr) as Hw.
  pose proof (rp_lc _ _ _ _ _ _ Hr) as Hlc. pose proof (rp_wq _ _ _ _ _ _ Hr) as Hwq.
  pose proof (proj2 Hw _ _ Hwq).
  destruct (rp_run _ _ _ _ _ _ Hr j x out eq_refl) as [[Hjl Hjd] Hq].
  assert (j_d j <> lc /\ j_lw j <> lc /\ j_d j <> wq /\ j_lw j <> wq /\ wq <> lc) as (?&?&?&?&?).
  { unfold open_context in Hlc. split_and!; congruence. }
  pose proof (fun p => mine_apart _ _ _ _ _ _ _ p Hr Hm) as Hmine. cbn [running_job] in Hmine.
  pose proof (rp_nodup _ _ _ _ _ _ Hr) as Hnd. cbn in Hnd.
  apply NoDup_cons in Hnd as [Hn1 Hnd]. apply NoDup_cons in Hnd as [Hn2 Hnd].
  assert (Hown : forall i j', j' ∈ jobs -> i = j_d j' \/ i = j_lw j' -> i ∈ owned jobs).
  { intros i j' Hj' Hi. apply list_elem_of_bind. exists j'. split; [destruct Hi as [-> | ->]; set_solver|done]. }
  assert (Hin : forall i, i ∈ owned jobs -> i ∈ owned ([j] ++ jobs)) by (intros i Hi; set_solver).
  set (h1 := <[wq := OQueue (j_lw <$> jobs) Idle]> h).
  assert (Hkeep : forall i, i <> j_lw j -> i <> j_d j -> q_mine (j_req j) !! i = None ->
    delete (j_lw j) (delete (j_d j) (settle (j_req j) out h1)) !! i = h1 !! i).
  { intros i ?? Hi. rewrite !lookup_delete_ne by congruence. by apply lookup_settle_ne. }
  split.
  - assert (Hsub := mine_in_heap _ _ _ _ _ _ (j_req j) (OQueue (j_lw <$> jobs) Idle) Hr Hm). fold h1 in Hsub.
    destruct (heap_wf_insert h nx nx wq (OQueue (j_lw <$> jobs) Idle) Hw) as [Hn Hi]; [lia|lia|].
    split; [lia|]. intros i o [_ [_ Hi']%lookup_delete_Some]%lookup_delete_Some. rewrite lookup_settle in Hi'.
    assert (Hex : exists o', h1 !! i = Some o').
    { destruct (q_mine (j_req j) !! i) as [om|] eqn:Em; [exists om; by eapply lookup_weaken|].
      rewrite (rq_left _ Hq) in Hi' by done. by eexists. }
    destruct Hex as [o' Ho']. apply Hi in Ho'. lia.
  - rewrite Hkeep by (auto || (apply Hmine; by left)). unfold h1. klookup.
  - rewrite Hkeep by (auto || (apply Hmine; by right; left)). cbn [running_worker]. unfold h1. klookup.
  - intros j' Hj'. destruct (rp_jobs _ _ _ _ _ _ Hr j' Hj') as [[Hl Hd] Hq']. split; [|done].
    assert (j_d j <> j_d j') by (intros E; apply Hn2; rewrite E; eapply Hown; eauto).
    assert (j_lw j <> j_lw j') by (intros E; apply Hn1; rewrite E; apply elem_of_cons; right; eapply Hown; eauto).
    split; (rewrite Hkeep; [unfold h1; klookup|congruence|congruence|apply Hmine; right; right; apply Hin; eapply Hown; eauto]).
  - done.
  - done.
  - intros i ?? Hi. pose proof (rp_new _ _ _ _ _ _ Hr) as Hnew. cbn [running_job] in Hnew.
    destruct (decide (i = j_lw j)) as [->|?].
    { rewrite lookup_delete_eq. rewrite lookup_settle_ne by (done || (apply Hmine; right; right; set_solver)). symmetry. apply Hnew. set_solver. }
    rewrite lookup_delete_ne by congruence. destruct (decide (i = j_d j)) as [->|?].
    { rewrite lookup_delete_eq. rewrite lookup_settle_ne by (done || (apply Hmine; right; right; set_solver)). symmetry. apply Hnew. set_solver. }
    rewrite lookup_delete_ne by congruence. rewrite !lookup_settle. unfold h1. rewrite lookup_insert_ne by congruence.
    rewrite (rp_frame _ _ _ _ _ _ Hr); [done|done|done|set_solver].
  - intros i Hi. rewrite lookup_settle_ne by (done || (apply Hmine; right; right; by apply Hin)). apply (rp_new _ _ _ _ _ _ Hr). by apply Hin.
  - destruct (rp_own _ _ _ _ _ _ Hr). rewrite !lookup_settle_ne by (done || (apply Hmine; tauto)). done.
Qed.

(** *** The simulation *)

(** The kernel's state [k] is the abstract queue [s]; [future] are the
    requests still to come. *)
Definition related (s : aqueue) (future : list request) (k : kernel) : Prop :=
  exists L c ro jobs ob h nx al,
    k = K (ob ∪ h) nx al /\ rep L c ro jobs h nx /\ at_work ro ob h nx /\ s = absq L c ro jobs /\
    owns c ((j_req <$> running_job ro ++ jobs) ++ future).

Lemma at_work_range ro ob h nx :
  at_work ro ob h nx -> (forall p o, ob !! p = Some o -> 1 <= p < nx) /\ ob ##ₘ h.
Proof.
  destruct ro as [[[j x] out]|]; cbn.
  - by intros (? & ? & _).
  - intros ->. split; [by intros p o ?%lookup_empty_Some|apply map_disjoint_empty_l].
Qed.

Lemma related_submit s k q future :
  related s (q :: future) k -> req_ok q -> exists k', run_action (Submit q) k = (Ok tt, k') /\ related (astep s (Submit q)) future k'.
Proof.
  intros (L & c & ro & jobs & ob & h & nx & al & -> & Hr & Hat & -> & Hown) Hq.
  destruct (at_work_range _ _ _ _ Hat) as [Hob Hdis].
  eexists. split; [cbn; by erewrite bind_ok by by eapply submit_exec|].
  pose proof (rep_submit _ _ _ _ _ _ _ Hr Hq) as Hr'.
  eexists L, c, ro, _, ob, _, _, _. split; [reflexivity|]. split; [exact Hr'|]. split_and!.
  - destruct ro as [[[j x] out]|]; cbn in Hat |- *; [|done]. destruct Hat as (_ & _ & Hx). split_and!; [|intros p o Hp; apply Hob in Hp; lia|done].
    apply map_disjoint_spec. intros p o1 o2 H1p H2p.
    assert (Hpr : 1 <= p < nx) by (by eapply Hob). assert (Hpn : p <> nx /\ p <> nx + 1) by lia.
    assert (Hpq : p <> wq).
    { intros ->. eapply map_disjoint_spec; [exact Hdis|exact H1p|apply Hr]. }
    destruct Hpn. rewrite !lookup_insert_ne in H2p by congruence. by eapply map_disjoint_spec.
  - unfold absq. cbn. by rewrite fmap_app.
  - rewrite (assoc_L (++)), fmap_app. cbn. by rewrite <-(assoc_L (++)).
Qed.

(** The end of the handler, in its order: callback, clean-up of the data, of
    the work. *)
Lemma worker_end L c j x out jobs ob h nx al :
  rep L c (Some (j, x, out)) jobs h nx -> at_work (Some (j, x, out)) ob h nx -> q_mine (j_req j) ⊆ c ->
  exists nx' al', nx <= nx' /\ worker_step wq (K (ob ∪ h) nx al) =
    (Ok tt, K (delete (j_lw j) (delete (j_d j) (settle (j_req j) out (<[wq := OQueue (j_lw <$> jobs) Idle]> h)))) nx' al').
Proof.
  intros Hr Hat Hm. destruct (at_work_range _ _ _ _ Hat) as [Hob Hdis].
  destruct Hat as (_ & _ & L' & ret & p & e & -> & Eout & Hout & Htag). set (q := j_req j) in *.
  pose proof (rp_wq _ _ _ _ _ _ Hr) as Hwq. destruct (rp_run _ _ _ _ _ _ Hr j _ _ eq_refl) as [[Hjl Hjd] Hq]. fold q in Hq.
  assert (wq <> j_d j /\ wq <> j_lw j /\ j_lw j <> j_d j) as (?&?&?) by (split_and!; congruence).
  pose proof (rp_wf _ _ _ _ _ _ Hr) as Hw. pose proof (proj2 Hw _ _ Hjl). pose proof (proj2 Hw _ _ Hjd). pose proof (proj2 Hw _ _ Hwq).
  assert (Hoq : ob !! wq = None) by (eapply map_disjoint_Some_r; [exact Hdis|exact Hwq]).
  assert (Hod : ob !! j_d j = None) by (eapply map_disjoint_Some_r; [exact Hdis|exact Hjd]).
  set (h1 := <[wq := OQueue (j_lw <$> jobs) Idle]> h).
  assert (Hd1 : ob ##ₘ h1) by (by apply map_disjoint_insert_r_2).
  assert (Hw1 : heap_wf h1 nx) by (by apply (heap_wf_insert _ nx); [|lia|lia]).
  assert (Hsub : q_mine q ⊆ h1) by (by eapply mine_in_heap).
  assert (Eh : q_mine q ∪ h1 ∖ q_mine q = h1) by (by apply map_difference_union).
  destruct (rq_callback q Hq ret L' p e ob (h1 ∖ q_mine q) nx al Hout Htag) as (nx' & al' & Hle & Hcb).
  { by rewrite Eh. }
  { by apply map_disjoint_difference_r1. }
  { rewrite Eh. split; [lia|]. intros i o [Hi|[_ Hi]]%lookup_union_Some_raw; [by eapply Hob|by eapply Hw1]. }
  rewrite Eh, <-Eout in Hcb. fold (settle q out h1) in Hcb. exists nx', al'. split; [done|].
  unfold worker_step. erewrite bind_ok by (apply get_queue_ok; by rewrite lookup_union_r).
  cbn [running_worker].
  assert (Hst : (store wq (OQueue (j_lw <$> jobs) Idle);; handler_post (j_lw j) (j_d j)) (K (ob ∪ h) nx al) =
    handler_post (j_lw j) (j_d j) (K (ob ∪ h1) nx al)) by (by erewrite bind_ok by by eapply store_frame).
  assert (Hend : handler_post (j_lw j) (j_d j) (K (ob ∪ h1) nx al) = (Ok tt, K (delete (j_lw j) (delete (j_d j) (settle q out h1))) nx' al')).
  2: { destruct (j_lw <$> jobs); cbn iota; by rewrite Hst. }
  assert (Hmd : q_mine q !! j_d j = None) by (eapply mine_apart; [exact Hr|done|right; right; set_solver]).
  assert (Hml : q_mine q !! j_lw j = None) by (eapply mine_apart; [exact Hr|done|right; right; set_solver]).
  set (x := set_complete 1 _) in Hjd.
  assert (Hx1 : get_data (j_d j) (K (ob ∪ h1) nx al) = (Ok x, K (ob ∪ h1) nx al)) by (eapply get_data_frame; [done|unfold h1; klookup]).
  assert (Hx2 : get_data (j_d j) (K (settle q out h1) nx' al') = (Ok x, K (settle q out h1) nx' al')).
  { apply get_data_ok. rewrite lookup_settle_ne by done. unfold h1. klookup. }
  unfold handler_post. rewrite (bind_ok _ _ _ _ _ Hx1).
  assert (Hret : d_ret x = default ret e) by (unfold x; by destruct e). assert (Hres : d_result x = p) by (unfold x; by destruct e).
  assert (Harg : d_callback_arg x = q_arg q) by (unfold x; by destruct e).
  assert (Hc1 : d_callback x = if q_want q then Some (q_callb q) else None) by (unfold x; by destruct e).
  assert (Hc2 : d_callback_nores x = if q_want q then None else Some (q_callb q)) by (unfold x; by destruct e).
  assert (Hc3 : d_callback_work x = Some loadcode_async_work_cleanup_cb) by (unfold x; by destruct e).
  rewrite Hc1, Hret, Hres, Harg. unfold call_back in Hcb. destruct (q_want q) eqn:Hwant.
  all: [> rewrite (bind_ok _ _ _ _ _ Hcb), (bind_ok _ _ _ _ _ Hx2), Hc2; (erewrite bind_ok by reflexivity)
       | (erewrite bind_ok by reflexivity); rewrite (bind_ok _ _ _ _ _ Hx1), Hc2, Hret, Harg, (bind_ok _ _ _ _ _ Hcb) ];
    rewrite (bind_ok _ _ _ _ _ Hx2), Hc3; unfold loadcode_async_work_cleanup, work_data;
    (erewrite bind_ok by (erewrite bind_ok by (apply get_work_ok; rewrite lookup_settle_ne by done; unfold h1; klookup); reflexivity));
    cbn [lw_func]; (erewrite bind_ok by (eapply kfree_ok; [rewrite lookup_settle_ne by done; unfold h1; klookup|unfold NULL; lia]));
    unfold lunatik_work_destroy; (eapply kfree_ok; [rewrite lookup_delete_ne by done; rewrite lookup_settle_ne by done; unfold h1; klookup|unfold NULL; lia]).
Qed.

Lemma rep_runnable L c j jobs h nx :
  rep L c None (j :: jobs) h nx -> c !! q_code (j_req j) = Some (OBytes (q_bytes (j_req j))) ->
  runnable h lc (j_d j) L wq act (job_data (j_req j)) (q_bytes (j_req j)).
Proof.
  intros Hr Hc. destruct (rp_jobs _ _ _ _ _ _ Hr j (list_elem_of_here _ _)) as [[_ Hjd] [Hsz Hmax Hval _ _]].
  destruct (rp_own _ _ _ _ _ _ Hr).
  split; [apply Hr|done| |done|done|done|intros Hwant; by apply Hval].
  cbn [d_code job_data]. rewrite <-Hc. apply (rp_frame _ _ _ _ _ _ Hr); [congruence|congruence|].
  intros Hp. apply (rp_new _ _ _ _ _ _ Hr) in Hp. congruence.
Qed.

Lemma related_work s k future : related s future k -> exists k', run_action Work k = (Ok tt, k') /\ related (astep s Work) future k'.
Proof.
  intros (L & c & ro & jobs & ob & h & nx & al & -> & Hr & Hat & -> & Hown). destruct ro as [[[j x] out]|].
  { pose proof (ow_mine _ _ Hown (j_req j) ltac:(set_solver)) as Hm. destruct (rp_run _ _ _ _ _ _ Hr j x out eq_refl) as [_ Hq].
    destruct (worker_end _ _ _ _ _ _ _ _ _ al Hr Hat Hm) as (nx' & al' & Hle & E).
    eexists. split; [exact E|]. eexists L, _, None, jobs, ∅, _, nx', al'.
    split; [by rewrite map_empty_union|]. split; [by eapply rep_end|]. split; [done|]. split; [done|]. by apply owns_settle. }
  cbn in Hat. subst ob. rewrite map_empty_union. destruct jobs as [|j jobs].
  { eexists. split; [by apply worker_idle, Hr|]. eexists L, c, None, [], ∅, h, nx, al. by rewrite map_empty_union. }
  pose proof (rp_jobs _ _ _ _ _ _ Hr j (list_elem_of_here _ _)) as [[Hjl Hjd] Hrq].
  pose proof (ow_code _ _ Hown (j_req j) ltac:(set_solver)) as Hcode.
  pose proof (worker_start (fun _ => true) mods bs wq (j_lw j) lc wq (j_d j) _ h nx al L wq act _ _
    (rp_wf _ _ _ _ _ _ Hr) (rp_wq _ _ _ _ _ _ Hr) Hjl (rep_runnable _ _ _ _ _ _ Hr Hcode)) as Hs.
  destruct (run_code L (code_of (job_data (j_req j)) (q_bytes (j_req j)))) as [ret L'] eqn:Er.
  destruct Hs as (p & e & ob & nx' & al' & Hs & Hout & Hf). eexists. split; [exact Hs|].
  pose proof (rep_start L c j jobs h nx ret p e (lua_pop1 L') (told (j_req j) ret L') Hr) as Hr'.
  cbv zeta in Hr'. match type of Hr' with rep _ _ _ _ ?hh _ => set (h' := hh) in * end. destruct Hf as [Hle Hf].
  assert (Hr2 : rep (lua_pop1 L') c (Some (j, set_complete 1 (ran_data ret p e (job_data (j_req j))), told (j_req j) ret L')) jobs h' nx').
  { destruct Hr' as [[Hwn Hw'] ? ? ? ? ? ? ? ?]. split; try done. split; [lia|]. intros i o Hi. apply Hw' in Hi. lia. }
  eexists _, c, _, _, ob, h', nx', al'. split; [reflexivity|]. split; [exact Hr2|]. split_and!.
  - pose proof (proj1 (rp_wf _ _ _ _ _ _ Hr)). split; [by apply (fresh_disjoint ob h' nx nx'); [apply Hr'|]|].
    split; [intros i o Hi; apply Hf in Hi; lia|]. exists L', ret, p, e. split_and!; [done|done|done|].
    intros Hwant. destruct (rq_value _ Hrq L Hwant) as [_ Ht]. unfold req_code in Ht. unfold code_of in Er.
    cbn in Er. by rewrite Er in Ht.
  - cbn. unfold absq, req_code. unfold code_of in Er. cbn in Er. by rewrite Er.
  - exact Hown.
Qed.

(** *** Sequences of actions *)

Definition run_actions (acts : list action) : M kernel unit := mfor acts run_action.

(** The requests among the actions, in their order. *)
Definition submitted (acts : list action) : list request :=
  omap (fun a => match a with Submit q => Some q | Work => None end) acts.

Lemma run_actions_related acts s k :
  related s (submitted acts) k -> Forall req_ok (submitted acts) ->
  exists k', run_actions acts k = (Ok tt, k') /\ related (foldl astep s acts) [] k'.
Proof.
  revert s k. induction acts as [|a acts IH]; intros s k Hk Hok; [by exists k|].
  assert (Hstep : exists k1, run_action a k = (Ok tt, k1) /\ related (astep s a) (submitted acts) k1 /\ Forall req_ok (submitted acts)).
  { destruct a as [q|].
    - change (submitted (Submit q :: acts)) with (q :: submitted acts) in *. apply Forall_cons in Hok as [Hq Hok].
      destruct (related_submit _ _ _ _ Hk Hq) as (k1 & E & Hk1). eauto.
    - destruct (related_work _ _ _ Hk) as (k1 & E & Hk1). eauto. }
  destruct Hstep as (k1 & E1 & Hk1 & Hok1). destruct (IH _ _ Hk1 Hok1) as (k2 & E2 & Hk2).
  exists k2. split; [|done]. unfold run_actions. cbn [mfor]. by rewrite (bind_ok _ _ _ _ _ E1).
Qed.

(** The heap between calls: the context, its queue, and the clients' objects. *)
Definition quiet L c : gmap Z obj := <[lc := open_context L wq act]> (<[wq := OQueue [] Idle]> c).

(** The clients' objects are none of the library's, and have what the
    requests need. *)
Record clients c (qs : list request) : Prop := {
  cl_own : c !! lc = None /\ c !! wq = None /\ lc <> wq;
  cl_reqs : owns c qs;
  cl_ok : Forall req_ok qs;
}.

Lemma related_init L c qs nx al : heap_wf (quiet L c) nx -> clients c qs -> related (mkQueue L c None []) qs (K (quiet L c) nx al).
Proof.
  intros Hw [(Hlc & Hwq & Hne) Hreq _]. exists L, c, None, [], ∅, (quiet L c), nx, al. rewrite map_empty_union. split_and!; try done.
  unfold quiet in *. split; try done; try (by intros j ?%elem_of_nil); [klookup|klookup|constructor|].
  intros p ???. by rewrite !lookup_insert_ne.
Qed.

Lemma related_drained L c k : related (mkQueue L c None []) [] k -> exists nx al, k = K (quiet L c) nx al.
Proof.
  intros (L' & c' & ro & jobs & ob & h & nx & al & -> & Hr & Hat & E & _). unfold absq in E.
  destruct ro as [[[j x] out]|]; [done|]. destruct jobs; [|done]. cbn in Hat. simplify_eq. exists nx, al.
  rewrite map_empty_union. f_equal. unfold quiet. apply map_eq. intros p. destruct (decide (p = lc)) as [->|].
  - rewrite lookup_insert_eq. apply Hr.
  - rewrite lookup_insert_ne by congruence. destruct (decide (p = wq)) as [->|].
    + rewrite (rp_wq _ _ _ _ _ _ Hr). by rewrite lookup_insert_eq.
    + rewrite lookup_insert_ne by congruence. apply (rp_frame _ _ _ _ _ _ Hr); [done..|]. by intros ?%elem_of_nil.
Qed.

(** Running a request in the engine, with its result popped, and then its
    callback, which changes the clients' objects. *)
Definition exec_request (s : lua_State * gmap Z obj) q : lua_State * gmap Z obj :=
  let '(ret, L) := run_code s.1 (req_code q) in (lua_pop1 L, settle q (told q ret L) s.2).

(** The state once the request at work has ended. *)
Definition ended (s : aqueue) : lua_State * gmap Z obj :=
  (aq_L s, match aq_running s with Some (q, out) => settle q out (aq_heap s) | None => aq_heap s end).

(** What ran, and then what waits, is what was submitted. *)
Lemma astep_fifo acts s :
  exists done_, foldl exec_request (ended s) done_ = ended (foldl astep s acts) /\
    aq_pending s ++ submitted acts = done_ ++ aq_pending (foldl astep s acts).
Proof.
  revert s. induction acts as [|a acts IH]; intros s; [exists []; by rewrite app_nil_r|].
  destruct (IH (astep s a)) as (dn & E1 & E2). cbn [foldl]. rewrite <-E1. destruct a as [q|].
  - exists dn. split; [done|]. rewrite <-E2. cbn. by rewrite <-(assoc_L (++)).
  - change (submitted (Work :: acts)) with (submitted acts). destruct s as [L c [[q out]|] [|q' rest]]; try (by exists dn).
    exists (q' :: dn). cbn in E2 |- *. unfold exec_request at 2. unfold ended in *. cbn [fst snd aq_L aq_heap aq_running] in *.
    destruct (run_code L (req_code q')) as [ret L']. cbn [aq_pending aq_L aq_heap aq_running] in *. split; [done|]. by f_equal.
Qed.

(** The turns that the worker still needs. *)
Definition turns (s : aqueue) : nat := 2 * length (aq_pending s) + (match aq_running s with Some _ => 1 | None => 0 end).

Lemma turns_work s : turns (astep s Work) = pred (turns s).
Proof.
  unfold turns. destruct s as [L c [[q out]|] [|q' rest]]; cbn; try lia. destruct (run_code _ _). cbn. lia.
Qed.

Lemma astep_drain n s : (turns s <= n)%nat -> turns (foldl astep s (replicate n Work)) = 0%nat.
Proof.
  revert s. induction n as [|n IH]; intros s Hn; cbn [replicate foldl]; [lia|]. apply IH. rewrite turns_work. lia.
Qed.

Lemma turns_0 s : turns s = 0%nat -> aq_running s = None /\ aq_pending s = [].
Proof. unfold turns. by destruct s as [L c [[q out]|] [|q' rest]]; cbn; try lia. Qed.

Lemma submitted_app l1 l2 : submitted (l1 ++ l2) = submitted l1 ++ submitted l2.
Proof. apply omap_app. Qed.

Lemma submitted_work n : submitted (replicate n Work) = [].
Proof. by induction n. Qed.

Lemma turns_le acts s : (turns (foldl astep s acts) <= turns s + 2 * length (submitted acts))%nat.
Proof.
  revert s. induction acts as [|a acts IH]; intros s; [cbn; lia|]. cbn [foldl]. etrans; [apply IH|]. destruct a as [q|].
  - change (submitted (Submit q :: acts)) with (q :: submitted acts). unfold turns. cbn. rewrite length_app. cbn. lia.
  - change (submitted (Work :: acts)) with (submitted acts). rewrite turns_work. lia.
Qed.

(** C26: however the asynchronous calls and the steps of the worker interleave,
    once the worker gets enough turns every request has run, in the order of
    submission, and then its callback, before the next one.  Nothing else
    remains of them: the results, the data and the works are freed, each once,
    and of the clients' objects the callbacks have changed their own only.
    Memory does not run out; a callback frees the result it is given, and of
    other objects touches those that were handed over to it with the request
    (its code, which it may free, the structure behind its argument), which
    the clients have from the start, and not the context ([req_ok], [owns]). *)
Theorem async_runs_in_order acts L c nx al :
  heap_wf (quiet L c) nx -> clients c (submitted acts) ->
  exists nx' al', run_actions (acts ++ replicate (2 * length (submitted acts)) Work) (K (quiet L c) nx al) =
    (let '(L', c') := foldl exec_request (L, c) (submitted acts) in (Ok tt, K (quiet L' c') nx' al')).
Proof.
  intros Hw Hcl. set (n := (2 * length (submitted acts))%nat). set (s0 := mkQueue L c None []).
  assert (Es : submitted (acts ++ replicate n Work) = submitted acts) by (by rewrite submitted_app, submitted_work, app_nil_r).
  destruct (run_actions_related (acts ++ replicate n Work) s0 (K (quiet L c) nx al)) as (k' & E & Hk).
  { rewrite Es. by apply related_init. }
  { rewrite Es. apply Hcl. }
  rewrite E. pose proof (astep_fifo (acts ++ replicate n Work) s0) as (dn & F1 & F2). rewrite Es in F2.
  destruct (turns_0 (foldl astep s0 (acts ++ replicate n Work))) as [D1 D2].
  { rewrite foldl_app. apply astep_drain. pose proof (turns_le acts s0). cbn in *. lia. }
  destruct (foldl astep s0 (acts ++ replicate n Work)) as [L' c' r p]. cbn in *. subst. rewrite app_nil_r in F2. subst dn.
  unfold ended in F1. cbn in F1. rewrite F1. cbn. apply related_drained in Hk as (nx' & al' & ->). eauto.
Qed.

(** The state between the actions, seen from outside: the context is unlocked
    and has the engine's state; the works of the queue are the requests that
    wait; the worker is idle unless a callback is due; and the clients'
    objects are there. *)
Definition shows (s : aqueue) (k : kernel) : Prop :=
  k_heap k !! lc = Some (open_context (aq_L s) wq act) /\
  (exists pend w, k_heap k !! wq = Some (OQueue pend w) /\ (w = Idle <-> aq_running s = None) /\
     Forall2 (fun lw q => exists d, k_heap k !! lw = Some (OWork (mkWork lc wq (loadcode_work d))) /\
       k_heap k !! d = Some (OData (job_data q))) pend (aq_pending s)) /\
  aq_heap s ⊆ k_heap k.

Lemma related_shows s k : related s [] k -> shows s k.
Proof.
  intros (L & c & ro & jobs & ob & h & nx & al & -> & Hr & Hat & -> & _). destruct (at_work_range _ _ _ _ Hat) as [_ Hdis].
  assert (Hup : forall p o, h !! p = Some o -> k_heap (K (ob ∪ h) nx al) !! p = Some o) by (intros p o Hp; by apply lookup_union_Some_r).
  split; [apply Hup, Hr|]. split.
  - eexists _, _. split; [apply Hup, Hr|]. split; [by destruct ro as [[[j x] out]|]|].
    apply Forall2_fmap, Forall_Forall2_diag, Forall_forall. intros j Hj. destruct (rp_jobs _ _ _ _ _ _ Hr j Hj) as [[Hjl Hjd] _].
    exists (j_d j). auto.
  - apply map_subseteq_spec. intros p o Hp. apply Hup. cbn in Hp. destruct (rp_own _ _ _ _ _ _ Hr).
    rewrite (rp_frame _ _ _ _ _ _ Hr); [done|congruence|congruence|]. intros Hin. apply (rp_new _ _ _ _ _ _ Hr) in Hin. congruence.
Qed.

(** C27: the heap of contexts, works and data implements the abstract queue:
    each action of a caller or of the worker is the abstract one, from the
    empty queue on, and none of them touches freed memory.  Memory does not
    run out, and the callbacks keep to what C26 asks of them. *)
Theorem workqueue_refines acts L c nx al :
  heap_wf (quiet L c) nx -> clients c (submitted acts) ->
  exists k', run_actions acts (K (quiet L c) nx al) = (Ok tt, k') /\ shows (foldl astep (mkQueue L c None []) acts) k'.
Proof.
  intros Hw Hcl. destruct (run_actions_related acts _ _ (related_init L c _ nx al Hw Hcl) (cl_ok _ _ Hcl)) as (k' & E & Hk).
  exists k'. split; [done|]. by apply related_shows.
Qed.
End async.

(** ** Examples *)

#[local] Existing Instance echo_engine.
#[local] Existing Instance echo_functions.

Lemma lunatik_loadcode_sync_runs_witness :
  exists r st, lunatik_loadcode_sync 2 1 3 3 true (K (fun _ => true) ∅ [] echo_heap 4 0) = (Ok r, st) /\
    lunatik_loadcode_direct 1 3 3 true (K (fun _ => true) ∅ [] echo_heap 5 1) = (Ok r, st) /\
    ran (fun _ => true) ∅ [] true 0 [[104; 105]] 1 2 [] echo_heap 4 r st.
Proof.
  exact (lunatik_loadcode_sync_runs (fun _ => true) ∅ [] 2 1 3 3 true echo_heap 4 0 [] 2 [] _
    ltac:(lia) echo_heap_wf (echo_loadable true) eq_refl eq_refl eq_refl).
Defined.

Lemma lunatik_loadcode_sync_race_witness :
  exists r st st', lunatik_loadcode_sync 1 1 3 3 true (K (fun _ => true) ∅ [] echo_heap 4 0) = (Ok r, st) /\
    worker_step 2 st = (Err (UB "use after free"), st').
Proof.
  exact (lunatik_loadcode_sync_race (fun _ => true) ∅ [] 1 1 3 3 true echo_heap 4 0 [] 2 [] _
    ltac:(lia) echo_heap_wf (echo_loadable true) eq_refl eq_refl eq_refl).
Defined.

(** Callbacks as lunatik.h describes them: the one that is given a result frees
    it and the code, which is its argument; the others free the code, or write
    the return code where the argument points. *)
#[local] Instance client_functions : KernelFunctions := {|
  module_live m := true;
  run_callback f arg ret p := lunatik_result_free p;; kfree arg;
  run_callback_nores f arg ret := if f =? 7 then kfree arg else store arg (OBytes [u8 ret]);
  run_regfunc f lc := mret f;
|}.

(** Three requests: for "hi" with a result, for "ok" without, both freed; and
    for "hm", which stays, with a place for the return code. *)
Definition client_heap : gmap Z obj :=
  {[ 3 := OBytes [104; 105; 0]; 4 := OBytes [111; 107; 0]; 5 := OBytes [104; 109; 0]; 6 := OBytes [255] ]}.
Definition hi_request : request := mkRequest 3 3 true 7 3 [104; 105; 0] {[ 3 := OBytes [104; 105; 0] ]} (fun _ => ∅).
Definition ok_request : request := mkRequest 4 3 false 7 4 [111; 107; 0] {[ 4 := OBytes [111; 107; 0] ]} (fun _ => ∅).
Definition hm_request : request :=
  mkRequest 5 3 false 8 6 [104; 109; 0] {[ 6 := OBytes [255] ]} (fun out => {[ 6 := OBytes [u8 out.1] ]}).
Definition client_actions : list action := [Submit hi_request; Work; Submit ok_request; Submit hm_request].

Lemma hi_request_ok : req_ok ∅ [] hi_request.
Proof.
  split; [split; vm_compute; discriminate|reflexivity|done|done|].
  intros ret L p e ob h nx al [Hres _] Ht Hd Hm Hw. exists nx, al. split; [lia|]. unfold call_back. cbn [hi_request q_want q_mine q_left q_callb q_arg] in *.
  cbn [run_callback client_functions]. rewrite map_empty_union.
  erewrite bind_ok by (eapply lunatik_result_free_spec; [exact Hres|by apply Ht|done]).
  rewrite <-insert_union_singleton_l. erewrite kfree_ok by (klookup || done). rewrite delete_insert_id; [done|].
  eapply map_disjoint_Some_l; [exact Hm|klookup].
Qed.

Lemma ok_request_ok : req_ok ∅ [] ok_request.
Proof.
  split; [split; vm_compute; discriminate|reflexivity|done|done|].
  intros ret L p e ob h nx al (-> & -> & ->) Ht Hd Hm Hw. exists nx, al. split; [lia|]. unfold call_back. cbn [ok_request q_want q_mine q_left q_callb q_arg] in *.
  cbn [run_callback_nores client_functions Z.eqb Pos.eqb]. rewrite !map_empty_union, <-insert_union_singleton_l.
  erewrite kfree_ok by (klookup || done). rewrite delete_insert_id; [done|]. eapply map_disjoint_Some_l; [exact Hm|klookup].
Qed.

Lemma hm_request_ok : req_ok ∅ [] hm_request.
Proof.
  split; [split; vm_compute; discriminate|reflexivity|done| |].
  { intros out p Hp. cbn in *. apply lookup_singleton_None in Hp. by apply lookup_singleton_None. }
  intros ret L p e ob h nx al (-> & -> & ->) Ht Hd Hm Hw. exists nx, al. split; [lia|]. unfold call_back. cbn [hm_request q_want q_mine q_left q_callb q_arg] in *.
  cbn [run_callback_nores client_functions Z.eqb Pos.eqb]. rewrite map_empty_union, <-!insert_union_singleton_l.
  erewrite store_ok by klookup. by rewrite insert_insert_eq.
Qed.

Lemma client_requests : clients ∅ [] 1 2 client_heap (submitted client_actions).
Proof.
  change (submitted client_actions) with [hi_request; ok_request; hm_request].
  split; [done| |apply Forall_cons; split; [exact hi_request_ok|apply Forall_cons; split; [exact ok_request_ok|apply Forall_singleton, hm_request_ok]]].
  split.
  - intros q Hq. apply map_subseteq_spec. intros p o. repeat (apply elem_of_cons in Hq as [->|Hq]; [cbn; by intros [<- <-]%lookup_singleton_Some|]).
    by apply elem_of_nil in Hq.
  - intros q Hq. repeat (apply elem_of_cons in Hq as [->|Hq]; [reflexivity|]). by apply elem_of_nil in Hq.
  - repeat constructor; cbn; try (by apply map_disjoint_singleton_l_2, lookup_singleton_ne); reflexivity.
Qed.

Lemma client_heap_wf : heap_wf (quiet 1 2 [] [] client_heap) 7.
Proof. apply heap_wf_decide. vm_compute. reflexivity. Qed.

Lemma async_runs_in_order_witness :
  exists nx' al', run_actions 1 2 (client_actions ++ replicate 6 Work) (K (fun _ => true) ∅ [] (quiet 1 2 [] [] client_heap) 7 0) =
    (Ok tt, K (fun _ => true) ∅ [] (quiet 1 2 [] [] {[ 5 := OBytes [104; 109; 0]; 6 := OBytes [0] ]}) nx' al').
Proof.
  exact (async_runs_in_order ∅ [] 1 2 [] client_actions [] client_heap 7 0 client_heap_wf client_requests).
Defined.

Lemma workqueue_refines_witness :
  exists k', run_actions 1 2 client_actions (K (fun _ => true) ∅ [] (quiet 1 2 [] [] client_heap) 7 0) = (Ok tt, k') /\
    shows 1 2 [] (mkQueue [] client_heap (Some (hi_request, (0, Some (LString [104; 105])))) [ok_request; hm_request]) k'.
Proof.
  exact (workqueue_refines ∅ [] 1 2 [] client_actions [] client_heap 7 0 client_heap_wf client_requests).
Defined.
