(* ===== verification/LunatikBindings.v ===== *)
(** * LunatikBindings.v: loading the registered bindings into a context

    lunatik_bindings_load activates the bindings of live modules that are not
    active yet, each once, and takes one reference of its module for each. *)

From S2P Require Import Prelude Machine Object Kernel Lunatik LunatikSpec.

(** ** What a registration function may do

    It takes the lock of the context, works on the context's engine (and may
    allocate and free), gives the lock back and returns a status; it leaves
    the registry, the context's list of active bindings and the module
    references alone. *)
Section registry.
Context `{KernelFunctions}.
Implicit Types (h : gmap Z obj) (lc : ptr).

Definition registry_object (o : obj) : bool :=
  match o with OActive _ | OBinding _ => true | _ => false end.

(** A context that is not locked, with an engine. *)
Definition ready (c : lunatik_context) : Prop := lc_mutex c = false /\ is_Some (lc_L c).

(** The bindings that are active in the context, in the order of the list. *)
Definition loaded h lc (acts : list ptr) : Prop :=
  exists c, h !! lc = Some (OContext c) /\ ready c /\ Forall2 (fun ab b => h !! ab = Some (OActive b)) (lc_active c) acts.

(** [h'] has the registry and the active bindings of [h]. *)
Definition keeps_registry h h' : Prop :=
  forall p o, h !! p = Some o -> registry_object o = true -> h' !! p = Some o.

Definition keeps_active h h' lc : Prop :=
  forall c, h !! lc = Some (OContext c) -> exists c', h' !! lc = Some (OContext c') /\ ready c' /\ lc_active c' = lc_active c.

(** The registration function [f] does so on a context that is ready. *)
Definition good_register (f : Z) : Prop := forall lc c orc mods bs h nx al,
  heap_wf h nx -> h !! lc = Some (OContext c) -> ready c ->
  exists r h' nx' al', run_regfunc f lc (K orc mods bs h nx al) = (Ok r, K orc mods bs h' nx' al') /\
    heap_wf h' nx' /\ keeps_registry h h' /\ keeps_active h h' lc.

Definition owner_of h (b : ptr) : option Z :=
  match h !! b with Some (OBinding bd) => Some (b_owner bd) | _ => None end.
End registry.

Section load.
Context `{KernelFunctions}.
Context (orc : nat -> bool) (bs : list ptr).
Implicit Types (h : gmap Z obj) (nx : Z) (al : nat) (lc b : ptr) (acts l : list ptr) (mods : gmap Z Z).
#[local] Abbreviation K := (fun mods => K orc mods bs).

(** [b] belongs to a module that is alive. *)
Definition live h b : bool := match owner_of h b with Some m => module_live m | None => false end.

(** A binding that was registered. *)
Definition is_binding h b : Prop := exists bd, h !! b = Some (OBinding bd) /\ good_register (b_regfunc bd).

Lemma keeps_owner h h' b : keeps_registry h h' -> is_binding h b -> owner_of h' b = owner_of h b /\ is_binding h' b.
Proof.
  intros Hk (bd & Hb & Hg). pose proof (Hk _ _ Hb eq_refl) as Hb'. unfold owner_of. rewrite Hb, Hb'. split; [done|by exists bd].
Qed.

Lemma keeps_trans h1 h2 h3 : keeps_registry h1 h2 -> keeps_registry h2 h3 -> keeps_registry h1 h3.
Proof. intros H12 H23 p o Hp Ho. auto. Qed.

Lemma loaded_keeps h h' lc acts : loaded h lc acts -> keeps_registry h h' -> keeps_active h h' lc -> loaded h' lc acts.
Proof.
  intros (c & Hc & _ & Hf) Hr Ha. destruct (Ha c Hc) as (c' & Hc' & Hrd & E). exists c'. split; [done|]. split; [done|]. rewrite E.
  eapply Forall2_impl; [exact Hf|]. intros ab b Hab. by apply Hr.
Qed.

Lemma is_active_spec mods h nx al l acts b :
  Forall2 (fun ab b => h !! ab = Some (OActive b)) l acts ->
  is_active l b (K mods h nx al) = (Ok (bool_decide (b ∈ acts)), K mods h nx al).
Proof.
  induction 1 as [|ab x l acts Hab Hf IH]; cbn [is_active].
  - rewrite bool_decide_false by apply not_elem_of_nil. done.
  - erewrite bind_ok by (unfold get_active; by erewrite bind_ok by by apply deref_ok).
    destruct (Z.eqb_spec x b) as [->|Hn].
    + rewrite bool_decide_true by left. done.
    + rewrite IH. do 2 f_equal. apply bool_decide_ext. rewrite elem_of_cons. naive_solver.
Qed.

(** Appending one more active binding. *)
Lemma activate_spec mods h nx al lc acts b (m : M kernel Z) :
  heap_wf h nx -> loaded h lc acts -> orc al = true ->
  exists h', (ab ← kmalloc (OActive NULL);
     if ab =? NULL then mret (- ENOMEM)
     else store ab (OActive b);; c ← get_context lc; set_active (lc_active c ++ [ab]) lc;; m)
      (K mods h nx al) = m (K mods h' (nx + 1) (S al)) /\
    heap_wf h' (nx + 1) /\ keeps_registry h h' /\ loaded h' lc (acts ++ [b]).
Proof.
  intros Hw (c & Hc & Hrd & Hf) Ho. pose proof (proj1 Hw). pose proof (proj2 Hw _ _ Hc).
  erewrite bind_ok by by apply kmalloc_ok. destruct (Z.eqb_spec nx NULL); [unfold NULL in *; lia|].
  kstep. rewrite insert_insert_eq. kstep. unfold set_active.
  erewrite bind_ok by (kstep; eapply store_ok; klookup). eexists. split; [done|]. split_and!.
  - apply (heap_wf_insert _ (nx + 1)); [|lia|lia]. by apply (heap_wf_insert _ nx); [|lia|lia].
  - intros p o Hp Ho'. assert (p <> lc) by (intros ->; rewrite Hc in Hp; by simplify_eq).
    pose proof (proj2 Hw _ _ Hp). by rewrite !lookup_insert_ne by lia.
  - eexists. split; [klookup|]. split; [exact Hrd|]. cbn [lc_active]. apply Forall2_app; [|constructor; [klookup|constructor]].
    eapply Forall2_impl; [exact Hf|]. intros ab x Hab. cbn in Hab |- *.
    assert (ab <> lc) by (intros ->; rewrite Hc in Hab; by simplify_eq). pose proof (proj2 Hw _ _ Hab).
    by rewrite !lookup_insert_ne by lia.
Qed.

(** The references of a module, and how many of the bindings are its own. *)
Definition refs mods (m : Z) : Z := default 0 (mods !! m).
Definition owned_by h (m : Z) l : Z := zlen (filter (fun b => owner_of h b = Some m) l).

Lemma owned_by_nil h m : owned_by h m [] = 0.
Proof. done. Qed.

(** What a run of the loop over [l] ends with: the bindings [new] became
    active, and when it failed the module [extra] was left with a reference. *)
Record loads l lc acts h mods (r : Z) h' mods' (new : list ptr) (extra : option Z) : Prop := {
  lo_loaded : loaded h' lc (acts ++ new);
  lo_nodup : NoDup (acts ++ new);
  lo_new b : b ∈ new -> b ∈ l /\ live h b = true;
  lo_all b : r = 0 -> b ∈ l -> live h b = true -> b ∈ acts ++ new;
  lo_extra : extra = None <-> r = 0;
  lo_refs m : refs mods' m = refs mods m + owned_by h m new + (if decide (extra = Some m) then 1 else 0);
}.

Lemma live_keeps h h' b : keeps_registry h h' -> is_binding h b -> live h' b = live h b.
Proof. intros Hk Hb. unfold live. by destruct (keeps_owner _ _ _ Hk Hb) as [-> _]. Qed.

Lemma owned_by_keeps h h' m l :
  keeps_registry h h' -> (forall b, b ∈ l -> is_binding h b) -> owned_by h' m l = owned_by h m l.
Proof.
  intros Hk Hl. unfold owned_by. induction l as [|b l IH]; [done|]. rewrite !filter_cons.
  destruct (keeps_owner _ _ _ Hk (Hl b (list_elem_of_here _ _))) as [-> _].
  specialize (IH (fun x Hx => Hl x (list_elem_of_further _ _ _ Hx))). case_decide; rewrite ?zlen_cons; lia.
Qed.

(** A binding in front of the loop's list that is passed over. *)
Lemma loads_skip b l lc acts h mods r h' mods' new extra :
  (live h b = true -> b ∈ acts) ->
  loads l lc acts h mods r h' mods' new extra -> loads (b :: l) lc acts h mods r h' mods' new extra.
Proof.
  intros Hb [H1l H2l H3l H4l H5l H6l]. split; try done.
  - intros x Hx. destruct (H3l x Hx). split; [by right|done].
  - intros x Hr [->|Hx]%elem_of_cons Hlx; [apply elem_of_app; left; auto|by apply H4l].
Qed.

Lemma refs_get mods (m m' : Z) : refs (<[m := refs mods m + 1]> mods) m' = refs mods m' + (if decide (m = m') then 1 else 0).
Proof.
  unfold refs at 1. destruct (decide (m = m')) as [->|Hn].
  - by rewrite lookup_insert_eq.
  - rewrite lookup_insert_ne by done. unfold refs. lia.
Qed.

Lemma bindings_load_loop_spec l lc acts h mods nx al :
  heap_wf h nx -> loaded h lc acts -> NoDup acts -> (forall b, b ∈ l -> is_binding h b) ->
  exists r mods' h' nx' al' new extra, bindings_load_loop l lc (K mods h nx al) = (Ok r, K mods' h' nx' al') /\
    heap_wf h' nx' /\ keeps_registry h h' /\ loads l lc acts h mods r h' mods' new extra.
Proof.
  revert acts h mods nx al. induction l as [|b l IH]; intros acts h mods nx al Hw Hl Hnd Hbs.
  { exists 0, mods, h, nx, al, [], None. split; [done|]. split_and!; [done|by intros ?|].
    split; rewrite ?app_nil_r; try done; [by intros ? ?%elem_of_nil|by intros ? _ ?%elem_of_nil|intros m; rewrite owned_by_nil; destruct (decide (None = Some m)); [done|lia]]. }
  pose proof Hl as (c & Hc & Hrd & Hf). cbn [bindings_load_loop]. kstep.
  erewrite bind_ok by (eapply is_active_spec; exact Hf). pose proof (Hbs b (list_elem_of_here _ _)) as (bd & Hb & Hg).
  assert (Hbs' : forall x, x ∈ l -> is_binding h x) by (intros x Hx; apply Hbs; by right).
  destruct (bool_decide_reflect (b ∈ acts)) as [Hin|Hout].
  { destruct (IH acts h mods nx al Hw Hl Hnd Hbs') as (r & mods' & h' & nx' & al' & new & extra & E & Hw' & Hk & Hls).
    exists r, mods', h', nx', al', new, extra. split_and!; try done. by apply loads_skip. }
  erewrite bind_ok by (unfold get_binding; by erewrite bind_ok by by apply deref_ok).
  assert (Hown : owner_of h b = Some (b_owner bd)) by (unfold owner_of; by rewrite Hb).
  assert (Hlive : live h b = module_live (b_owner bd)) by (unfold live; by rewrite Hown).
  unfold try_module_get at 1. destruct (module_live (b_owner bd)) eqn:Em.
  2: { erewrite bind_ok by done.
    destruct (IH acts h mods nx al Hw Hl Hnd Hbs') as (r & mods' & h' & nx' & al' & new & extra & E & Hw' & Hk & Hls).
    exists r, mods', h', nx', al', new, extra. split_and!; try done. apply loads_skip; [congruence|done]. }
  set (m := b_owner bd) in *. set (mods1 := <[m := refs mods m + 1]> mods).
  erewrite bind_ok by reflexivity. change (set_modules _ _) with (K mods1 h nx al).
  destruct (Hg lc c orc mods1 bs h nx al Hw Hc Hrd)
    as (ret & h1 & nx1 & al1 & Er & Hw1 & Hk1 & Ha1). erewrite bind_ok by exact Er.
  pose proof (loaded_keeps _ _ _ _ Hl Hk1 Ha1) as Hl1.
  assert (Hfail : forall r h' , r <> 0 -> loaded h' lc acts ->
    loads (b :: l) lc acts h mods r h' mods1 [] (Some m)).
  { intros r h' Hr Hl'. split; rewrite ?app_nil_r; try done.
    - by intros x ?%elem_of_nil.
    - intros m'. unfold mods1. rewrite refs_get, owned_by_nil.
      destruct (decide (m = m')), (decide (Some m = Some m')); congruence || lia. }
  destruct (Z.eqb_spec ret 0) as [Hr0|Hr0]; cbn [negb].
  2: { eexists _, _, h1, nx1, al1, [], (Some m). split; [reflexivity|]. split_and!; try done. by apply Hfail. }
  destruct (orc al1) eqn:Ho.
  2: { erewrite bind_ok by by apply kmalloc_fail. cbn [Z.eqb NULL]. eexists _, _, h1, nx1, _, [], (Some m).
       split; [reflexivity|]. split_and!; try done. by apply Hfail. }
  destruct (activate_spec mods1 h1 nx1 al1 lc acts b (bindings_load_loop l lc) Hw1 Hl1 Ho)
    as (h2 & E2 & Hw2 & Hk2 & Hl2). rewrite E2. pose proof (keeps_trans _ _ _ Hk1 Hk2) as Hk12.
  assert (Hnd2 : NoDup (acts ++ [b])).
  { apply NoDup_app. split_and!; [done| |apply NoDup_singleton]. intros x Hx ->%list_elem_of_singleton. done. }
  assert (Hbs2 : forall x, x ∈ l -> is_binding h2 x).
  { intros x Hx. by apply (keeps_owner h h2 x Hk12), Hbs'. }
  destruct (IH _ _ mods1 _ (S al1) Hw2 Hl2 Hnd2 Hbs2) as (r & mods' & h' & nx' & al' & new & extra & E & Hw' & Hk & Hls).
  exists r, mods', h', nx', al', (b :: new), extra. split; [exact E|]. split_and!; [done|by eapply keeps_trans|].
  destruct Hls as [H1l H2l H3l H4l H5l H6l].
  assert (Hnew : forall x, x ∈ new -> is_binding h x) by (intros x Hx; apply Hbs'; by apply H3l).
  split; rewrite ?(cons_middle b), ?app_assoc; try done.
  - intros x [->|Hx]%elem_of_cons; [split; [by left|congruence]|]. destruct (H3l x Hx) as [Hx1 Hx2].
    split; [by right|]. rewrite <-Hx2. symmetry. apply live_keeps; [done|by apply Hbs'].
  - intros x Hr [->|Hx]%elem_of_cons Hlx; [set_solver|]. apply H4l; [done|done|].
    rewrite <-Hlx. apply live_keeps; [done|by apply Hbs'].
  - intros m'. rewrite H6l. unfold mods1. rewrite refs_get, (owned_by_keeps h h2) by done.
    unfold owned_by. rewrite filter_cons, Hown. fold m.
    destruct (decide (m = m')), (decide (Some m = Some m')); rewrite ?zlen_cons; congruence || lia.
Qed.

(** When every live binding is active, nothing is left to do. *)
Lemma bindings_load_loop_idle l lc acts h mods nx al :
  loaded h lc acts -> (forall b, b ∈ l -> is_binding h b /\ (live h b = true -> b ∈ acts)) ->
  bindings_load_loop l lc (K mods h nx al) = (Ok 0, K mods h nx al).
Proof.
  intros (c & Hc & _ & Hf) Hbs. induction l as [|b l IH]; [done|]. cbn [bindings_load_loop]. kstep.
  erewrite bind_ok by (eapply is_active_spec; exact Hf).
  destruct (Hbs b (list_elem_of_here _ _)) as [(bd & Hb & _) Hact].
  assert (IH' := IH (fun x Hx => Hbs x (list_elem_of_further _ _ _ Hx))).
  destruct (bool_decide_reflect (b ∈ acts)) as [Hin|Hout]; [done|].
  erewrite bind_ok by (unfold get_binding; by erewrite bind_ok by by apply deref_ok).
  unfold live, owner_of in Hact. rewrite Hb in Hact. unfold try_module_get.
  destruct (module_live (b_owner bd)) eqn:Em; [by destruct Hout; apply Hact|]. by erewrite bind_ok by done.
Qed.

(** C32: lunatik_bindings_load activates the registered bindings of live
    modules that were not active, each once and in the order of the registry,
    and takes one module reference for each.  When it fails it has stopped at
    a binding, whose module keeps a reference too many.  The context is not
    locked and has an engine, and stays so; the registration functions lock
    it, work on its engine and unlock it, and may fail ([good_register]). *)
Theorem lunatik_bindings_load_activates lc acts h mods nx al :
  heap_wf h nx -> loaded h lc acts -> NoDup acts -> (forall b, b ∈ bs -> is_binding h b) ->
  exists r mods' h' nx' al' new extra, lunatik_bindings_load lc (K mods h nx al) = (Ok r, K mods' h' nx' al') /\
    heap_wf h' nx' /\ keeps_registry h h' /\ loads bs lc acts h mods r h' mods' new extra.
Proof. intros. by apply bindings_load_loop_spec. Qed.

(** loading again after a successful load changes nothing. *)
Theorem lunatik_bindings_load_idempotent lc acts h mods nx al k' :
  heap_wf h nx -> loaded h lc acts -> NoDup acts -> (forall b, b ∈ bs -> is_binding h b) ->
  lunatik_bindings_load lc (K mods h nx al) = (Ok 0, k') -> lunatik_bindings_load lc k' = (Ok 0, k').
Proof.
  intros Hw Hl Hnd Hbs E.
  destruct (bindings_load_loop_spec bs lc acts h mods nx al Hw Hl Hnd Hbs)
    as (r & mods' & h' & nx' & al' & new & extra & E' & Hw' & Hk & Hls).
  assert (E2 : bindings_load_loop bs lc (K mods h nx al) = (Ok 0, k')) by exact E.
  cbn beta in E2, E'. rewrite E' in E2. simplify_eq. destruct Hls as [H1l _ _ H4l _ _].
  change (bindings_load_loop bs lc (K mods' h' nx' al') = (Ok 0, K mods' h' nx' al')).
  eapply bindings_load_loop_idle; [exact H1l|]. intros b Hb.
  split; [apply (keeps_owner h h' b Hk), Hbs, Hb|]. intros Hlv. apply H4l; [done|done|].
  rewrite <-Hlv. symmetry. by apply live_keeps, Hbs.
Qed.
End load.

(** ** Examples *)

#[local] Existing Instance echo_engine.

(** A registration function that takes the lock: it pushes a function and
    fails when its number is negative. *)
#[local] Instance register_functions : KernelFunctions := {|
  module_live m := 0 <? m;
  run_callback f arg ret p := lunatik_result_free p;
  run_callback_nores f arg ret := mret tt;
  run_regfunc f lc :=
    lunatik_context_lock lc;;
    L ← get_L lc;
    set_L (Some (lua_pushcfunction L f)) lc;;
    lunatik_context_unlock lc;;
    mret (if f <? 0 then f else 0);
|}.

Lemma register_good f : good_register f.
Proof.
  intros lc [L m w act] orc mods bs h nx al Hw Hc [Hm [L0 HL]]. cbn in Hm, HL. subst m L.
  pose proof (proj2 Hw _ _ Hc). cbn [run_regfunc register_functions].
  erewrite bind_ok by (unfold lunatik_context_lock; kstep; cbn [lc_mutex]; eapply store_ok; klookup).
  erewrite bind_ok by (unfold get_L; kstep; reflexivity).
  erewrite bind_ok by (unfold set_L; kstep; eapply store_ok; klookup).
  erewrite bind_ok by (unfold lunatik_context_unlock; kstep; eapply store_ok; klookup).
  cbn [lc_L lc_wq lc_active]. eexists _, _, _, _. split; [reflexivity|]. rewrite !insert_insert_eq. split_and!.
  - by apply (heap_wf_insert _ nx); [|lia|lia].
  - intros p o Hp Ho. rewrite lookup_insert_ne; [done|]. intros <-. rewrite Hc in Hp. by injection Hp as <-.
  - intros c E. rewrite Hc in E. injection E as <-. eexists. split; [klookup|]. split; [|done]. by split; [|eexists].
Qed.

(** Two registered bindings, at 5 of the live module 1 and at 6 of a dying one. *)
Definition echo_registry : gmap Z obj :=
  <[5 := OBinding (mkBinding 1 0)]> (<[6 := OBinding (mkBinding (-1) 0)]> echo_heap).

Lemma echo_registry_wf : heap_wf echo_registry 7.
Proof. apply heap_wf_decide. vm_compute. reflexivity. Qed.

Lemma echo_registry_loaded : loaded echo_registry 1 [].
Proof. eexists. split; [reflexivity|]. split; [by split; [|eexists]|constructor]. Qed.

Lemma echo_registry_bindings b : b ∈ [5; 6] -> is_binding echo_registry b.
Proof.
  intros [->|[->|[]%elem_of_nil]%elem_of_cons]%elem_of_cons; eexists; (split; [reflexivity|apply register_good]).
Qed.

Lemma lunatik_bindings_load_idempotent_witness :
  let k' := (lunatik_bindings_load 1 (K (fun _ => true) ∅ [5; 6] echo_registry 7 0)).2 in
  lunatik_bindings_load 1 k' = (Ok 0, k').
Proof.
  refine (lunatik_bindings_load_idempotent (fun _ => true) [5; 6] 1 [] echo_registry ∅ 7 0 _
    echo_registry_wf echo_registry_loaded (NoDup_nil_2) echo_registry_bindings _).
  vm_compute. reflexivity.
Defined.
