(* ===== verification/Syscall.v ===== *)
(** * Syscall.v: the Lua system call (lunatik_syscall.c)

    sys_lua copies code from user space, runs it in a new context, and copies
    the result back.  User memory is what the kernel's access functions make
    of it: they are the class [UserSpace], and [UserLaws] states what the
    kernel documents of them. *)

From S2P Require Import Prelude Machine Object Dump Kernel Lunatik LunatikSpec LunatikQueue.

(** ** User memory *)

Class UserSpace := {
  user_mem : Type;
  (** the number of bytes that could not be copied *)
  copy_to_user : ptr -> bytes -> user_mem -> Z * user_mem;
  (** the number of bytes that could not be copied, and the bytes read *)
  copy_from_user : ptr -> Z -> user_mem -> Z * bytes;
  (** [put_user size v p], [get_user size p]: the error; the value *)
  put_user : Z -> Z -> ptr -> user_mem -> Z * user_mem;
  get_user : Z -> ptr -> user_mem -> Z * Z;
}.

Record system `{LuaEngine} `{UserSpace} := mkSystem { s_kernel : kernel; s_user : user_mem }.

Section syscall.
Context `{KernelFunctions} `{UserSpace}.

(** The kernel's part of the state. *)
Definition kern {A} (m : M kernel A) : M system A := fun s =>
  let '(r, k) := m (s_kernel s) in (r, mkSystem _ _ k (s_user s)).
Definition user {A} (f : user_mem -> A * user_mem) : M system A := fun s =>
  let '(a, u) := f (s_user s) in (Ok a, mkSystem _ _ (s_kernel s) u).

Definition sizeof_int : Z := 4.
Definition sizeof_s64 : Z := 8.
Definition sizeof_size_t : Z := 8.
Definition sizeof_voidp : Z := 8.

(** Reading [n] bytes of a kernel buffer. *)
Definition read_kernel (p : ptr) (n : Z) : M system bytes :=
  if n =? 0 then mret []
  else
    b ← kern (get_bytes p);
    if n >? zlen b then throw (UB "read outside a kernel buffer") else mret (take (Z.to_nat n) b).

(** [strlen] of a kernel string: the bytes before the first zero. *)
Fixpoint strlen_bytes (b : bytes) : option Z :=
  match b with
  | [] => None
  | c :: b => if c =? 0 then Some 0 else option_map Z.succ (strlen_bytes b)
  end.

Definition strlen (p : ptr) : M system Z :=
  b ← kern (get_bytes p);
  match strlen_bytes b with Some n => mret n | None => throw (UB "string without an end") end.

(** A scalar is delivered when there is room for it. *)
Definition put_scalar (size v : Z) (r_data : ptr) (r_size_kern : Z) : M system (Z * Z) :=
  if r_size_kern >=? size then ret ← user (put_user size v r_data); mret (ret, size)
  else mret (0, 0).

Definition put_string (r : lunatik_result) (r_data : ptr) (r_size_kern : Z) : M system (Z * Z) :=
  let copy_size := Z.min r_size_kern (u64 (r_string_size r + 1)) in
  b ← read_kernel (r_string r) copy_size;
  n ← user (copy_to_user r_data b);
  mret (if negb (n =? 0) then - EFAULT else 0, u64 (copy_size - n)).

Definition put_userdata (r : lunatik_result) (r_data : ptr) (r_size_kern : Z) : M system (Z * Z) :=
  len ← strlen (r_userdata_type r);
  let userdata_type_len := u64 (len + 1) in
  let copy_size := Z.min r_size_kern userdata_type_len in
  b ← read_kernel (r_userdata_type r) copy_size;
  n ← user (copy_to_user r_data b);
  when (u64 (copy_size - n) <? userdata_type_len)
    (user (put_user 1 0 (r_data + copy_size - n - 1));; mret tt);;
  if negb (n =? 0) then mret (- EFAULT, u64 (copy_size - n))
  else if r_size_kern <=? userdata_type_len then mret (0, copy_size)
  else
    let copy_size := Z.min (u64 (r_size_kern - userdata_type_len)) (r_userdata_size r) in
    b ← read_kernel (r_userdata r) copy_size;
    n ← user (copy_to_user (r_data + userdata_type_len) b);
    mret (if negb (n =? 0) then - EFAULT else 0, u64 (userdata_type_len + copy_size - n)).

Definition copy_lunatik_result_to_user (r : lunatik_result) (r_type r_data r_size : ptr) : M system Z :=
  s ← user (fun u => (get_user sizeof_size_t r_size u, u));
  let '(ret, r_size_kern) := (s : Z * Z) in
  if negb (ret =? 0) then mret ret
  else
    ret ← user (put_user sizeof_int (Kernel.r_type r) r_type);
    if negb (ret =? 0) then mret ret
    else
      x ←
        (if Kernel.r_type r =? LUA_TNUMBER then put_scalar sizeof_s64 (r_number r) r_data r_size_kern
         else if Kernel.r_type r =? LUA_TBOOLEAN then put_scalar sizeof_int (r_boolean r) r_data r_size_kern
         else if Kernel.r_type r =? LUA_TSTRING then put_string r r_data r_size_kern
         else if Kernel.r_type r =? LUA_TUSERDATA then put_userdata r r_data r_size_kern
         else if Kernel.r_type r =? LUA_TLIGHTUSERDATA then put_scalar sizeof_voidp (r_lightuserdata r) r_data r_size_kern
         else mret (0, 0));
      let '(ret, r_size_kern) := (x : Z * Z) in
      ret2 ← user (put_user sizeof_size_t r_size_kern r_size);
      mret (if (ret =? 0) && negb (ret2 =? 0) then ret2 else ret).

(** [struct sys_lua_async_info] is the object [OAsyncInfo]. *)
Definition sys_lua_async_cleanup (arg : ptr) (ret : Z) : M kernel unit :=
  o ← deref arg;
  match o with
  | OAsyncInfo lc code_kern =>
      lunatik_context_destroy (inr lc);;
      kfree code_kern;;
      kfree arg
  | _ => bad_cast
  end.

(** [goto out_code], [goto out_lc]. *)
Definition out_code (code_kern : ptr) (ret : Z) : M system Z := kern (kfree code_kern);; mret ret.
Definition out_lc (lc code_kern : ptr) (ret : Z) : M system Z :=
  kern (lunatik_context_destroy (inr lc));; out_code code_kern ret.

(** The asynchronous call; [cleanup] is the address of the callback. *)
Definition sys_lua_async (cleanup : Z) (lc code_kern : ptr) (code_size : Z) : M system Z :=
  callback_info ← kern (kmalloc (OAsyncInfo lc code_kern));
  if callback_info =? NULL then out_lc lc code_kern (- ENOMEM)
  else
    kern (lunatik_loadcode_async_nores lc code_kern code_size cleanup callback_info);;
    mret 0.

Definition sys_lua_sync (n : nat) (lc code_kern : ptr) (code_size : Z) (r_type r_data r_size : ptr) : M system Z :=
  x ← kern (lunatik_loadcode_sync n lc code_kern code_size true);
  let '(ret, result) := (x : Z * ptr) in
  ret ←
    (if result =? NULL then mret ret
     else
       r ← kern (get_result result);
       ret2 ← copy_lunatik_result_to_user r r_type r_data r_size;
       kern (lunatik_result_free result);;
       mret (if (ret =? 0) && negb (ret2 =? 0) then ret2 else ret));
  out_lc lc code_kern ret.

(** [n] is how far the worker gets while the synchronous call waits. *)
Definition sys_lua (n : nat) (cleanup : Z) (code : ptr) (code_size : Z) (r_type r_data r_size : ptr) : M system Z :=
  code_kern ← kern (kmalloc (OBytes []));
  if code_kern =? NULL then mret (- ENOMEM)
  else
    x ← user (fun u => (copy_from_user code code_size u, u));
    let '(rest, b) := (x : Z * bytes) in
    if negb (rest =? 0) then out_code code_kern (- EFAULT)
    else
      kern (store code_kern (OBytes b));;
      c ← kern lunatik_context_create;
      match c with
      | inl e => out_code code_kern e
      | inr lc =>
          ret ← kern (lunatik_bindings_load lc);
          if negb (ret =? 0) then out_lc lc code_kern ret
          else if (r_type =? NULL) && (r_data =? NULL) && (r_size =? NULL)
          then sys_lua_async cleanup lc code_kern code_size
          else if negb (r_type =? NULL) && negb (r_data =? NULL) && negb (r_size =? NULL)
          then sys_lua_sync n lc code_kern code_size r_type r_data r_size
          else out_lc lc code_kern (- EINVAL)
      end.
End syscall.

(** ** What the kernel documents of its access functions

    [poke p b u] is [u] with the bytes [b] written at [p].  A scalar is
    written whole or not at all, and its access fails with -EFAULT; a copy
    writes the bytes it counts as copied. *)
Class UserLaws `{UserSpace} := {
  accessible : user_mem -> ptr -> Z -> bool;
  poke : ptr -> bytes -> user_mem -> user_mem;
  poke_nil p u : poke p [] u = u;
  poke_app p b b' u : poke p (b ++ b') u = poke (p + zlen b) b' (poke p b u);
  poke_twice p b b' u : length b = length b' -> poke p b (poke p b' u) = poke p b u;
  poke_accessible p b u q n : accessible (poke p b u) q n = accessible u q n;
  accessible_sub u p n q m :
    accessible u p n = true -> p <= q -> 0 <= m -> q + m <= p + n -> accessible u q m = true;
  copy_to_user_spec p b u :
    if accessible u p (zlen b) then copy_to_user p b u = (0, poke p b u)
    else exists n, 0 < n <= zlen b /\ copy_to_user p b u = (n, poke p (take (Z.to_nat (zlen b - n)) b) u);
  copy_from_user_spec p n u :
    0 <= n ->
    if accessible u p n then exists b, copy_from_user p n u = (0, b) /\ zlen b = n
    else exists m b, 0 < m <= n /\ copy_from_user p n u = (m, b);
  put_user_spec size v p u :
    put_user size v p u =
      if accessible u p size then (0, poke p (le_bytes (Z.to_nat size) v) u) else (- EFAULT, u);
  get_user_spec size p u :
    0 <= size ->
    if accessible u p size then exists v, get_user size p u = (0, v) /\ 0 <= v < 2 ^ (8 * size)
    else get_user size p u = (- EFAULT, 0);
}.

Section spec.
Context `{KernelFunctions} `{UserLaws}.
Implicit Types (u : user_mem) (k : kernel).

(** The string a C function sees in the bytes: up to the first zero. *)
Fixpoint cstring (b : bytes) : bytes :=
  match b with
  | [] => []
  | c :: b => if c =? 0 then [] else c :: cstring b
  end.

(** What the caller of the system call gets of a value when it has room for
    [size] bytes; of a userdata the type's name and then the data, and only
    the name, cut short and terminated, when that is all there is room for. *)
Definition delivered (v : lua_value) (size : Z) : bytes :=
  match v with
  | LNumber n => if size >=? 8 then le_bytes 8 n else []
  | LBoolean b => if size >=? 4 then le_bytes 4 b else []
  | LLightUserdata p => if size >=? 8 then le_bytes 8 p else []
  | LString s => take (Z.to_nat size) (s ++ [0])
  | LUserdata data (Some name) =>
      let t := cstring name ++ [0] in
      if size <? zlen t then take (Z.to_nat (size - 1)) t ++ [0]
      else t ++ take (Z.to_nat (size - zlen t)) data
  | _ => []
  end.

Definition is_userdata (v : lua_value) : bool := match v with LUserdata _ _ => true | _ => false end.

(** The memory after the delivery of [v]. *)
Definition deliver (v : lua_value) (size : Z) (r_type r_data r_size : ptr) u : user_mem :=
  poke r_size (le_bytes 8 (zlen (delivered v size)))
    (poke r_data (delivered v size) (poke r_type (le_bytes 4 (lua_type v)) u)).

Definition sizes_ok (v : lua_value) : Prop :=
  match v with
  | LString s => zlen s < 2 ^ 63
  | LUserdata data (Some name) => zlen data < 2 ^ 63 /\ zlen name < 2 ^ 63
  | _ => True
  end.

Lemma bind_user {A B} (f : user_mem -> A * user_mem) (g : A -> M system B) k u a u' :
  f u = (a, u') -> (user f ≫= g) (mkSystem _ _ k u) = g a (mkSystem _ _ k u').
Proof. intros E. unfold mbind, M_bind, user. cbn. by rewrite E. Qed.

Lemma bind_kern {A B} (m : M kernel A) (g : A -> M system B) k u a k' :
  m k = (Ok a, k') -> (kern m ≫= g) (mkSystem _ _ k u) = g a (mkSystem _ _ k' u).
Proof. intros E. unfold mbind, M_bind, kern. cbn. by rewrite E. Qed.

Lemma read_kernel_ok p n b k u :
  k_heap k !! p = Some (OBytes b) -> 0 <= n <= zlen b ->
  read_kernel p n (mkSystem _ _ k u) = (Ok (take (Z.to_nat n) b), mkSystem _ _ k u).
Proof.
  intros Hp Hn. unfold read_kernel. destruct (Z.eqb_spec n 0) as [->|]; [done|].
  erewrite bind_kern by (unfold get_bytes, deref, mbind, M_bind; by rewrite Hp).
  destruct (Z.gtb_spec n (zlen b)); [lia|done].
Qed.

Lemma strlen_cstring name : strlen_bytes (name ++ [0]) = Some (zlen (cstring name)).
Proof.
  induction name as [|c name IH]; [done|]. cbn. destruct (c =? 0); [done|]. rewrite IH. cbn.
  unfold zlen. cbn [length]. f_equal. lia.
Qed.

Lemma cstring_prefix name : take (length (cstring name) + 1) (name ++ [0]) = cstring name ++ [0].
Proof.
  induction name as [|c name IH]; [done|]. cbn. destruct (Z.eqb_spec c 0) as [->|]; [done|]. cbn. by rewrite IH.
Qed.

Lemma cstring_length name : zlen (cstring name) <= zlen name.
Proof.
  unfold zlen. induction name as [|c name IH]; [done|]. cbn. destruct (c =? 0); cbn [length]; lia.
Qed.

Lemma put_scalar_ok size v p n k u :
  0 < size -> accessible u p n = true ->
  put_scalar size v p n (mkSystem _ _ k u) =
    (Ok (0, if n >=? size then size else 0),
     mkSystem _ _ k (poke p (if n >=? size then le_bytes (Z.to_nat size) v else []) u)).
Proof.
  intros Hs Ha. unfold put_scalar. destruct (Z.geb_spec n size); [|by rewrite poke_nil].
  erewrite bind_user; [reflexivity|]. rewrite put_user_spec.
  by rewrite (accessible_sub _ _ _ _ _ Ha) by lia.
Qed.

Lemma copy_to_user_ok p b u n :
  accessible u p n = true -> zlen b <= n -> copy_to_user p b u = (0, poke p b u).
Proof.
  intros Ha Hb. pose proof (copy_to_user_spec p b u) as Hc.
  assert (0 <= zlen b) by (unfold zlen; lia). by rewrite (accessible_sub _ _ _ _ _ Ha) in Hc by lia.
Qed.

Lemma put_string_ok r s p n k u :
  k_heap k !! r_string r = Some (OBytes (s ++ [0])) -> r_string_size r = zlen s -> zlen s < 2 ^ 63 ->
  accessible u p n = true -> 0 <= n < 2 ^ 64 ->
  let b := take (Z.to_nat n) (s ++ [0]) in
  put_string r p n (mkSystem _ _ k u) = (Ok (0, zlen b), mkSystem _ _ k (poke p b u)).
Proof.
  intros Hs Hz Hm Ha Hn b. unfold put_string. rewrite Hz. assert (0 <= zlen s) by (unfold zlen; lia).
  rewrite uwrap_small by (unfold in_u; lia).
  assert (Hb : take (Z.to_nat (Z.min n (zlen s + 1))) (s ++ [0]) = b).
  { unfold b. destruct (Z.min_spec n (zlen s + 1)) as [[? ->]|[? ->]]; [done|].
    by rewrite !(take_ge (s ++ [0])) by (rewrite length_app; unfold zlen in *; cbn [length] in *; lia). }
  assert (Hl : zlen b = Z.min n (zlen s + 1)).
  { unfold b, zlen. rewrite length_take, length_app. cbn [length]. lia. }
  assert (zlen (s ++ [0]) = zlen s + 1) by (rewrite zlen_app; done).
  erewrite bind_ok by (apply read_kernel_ok; [exact Hs|lia]). rewrite Hb.
  erewrite bind_user by (eapply copy_to_user_ok; [exact Ha|lia]). cbn [Z.eqb negb].
  rewrite uwrap_small by (unfold in_u; lia). cbv [mret M_ret]. do 3 f_equal. lia.
Qed.

(** The name of the type alone, cut and terminated when it does not fit; the
    data follow when there is room. *)
Lemma put_userdata_ok r name data p n k u :
  k_heap k !! r_userdata_type r = Some (OBytes (name ++ [0])) ->
  k_heap k !! r_userdata r = Some (OBytes data) -> r_userdata_size r = zlen data ->
  zlen data < 2 ^ 63 -> zlen name < 2 ^ 63 ->
  accessible u p n = true -> 0 < n < 2 ^ 64 ->
  let b := delivered (LUserdata data (Some name)) n in
  put_userdata r p n (mkSystem _ _ k u) = (Ok (0, zlen b), mkSystem _ _ k (poke p b u)).
Proof.
  intros Ht Hd Hz Hm Hmn Ha Hn. cbn [delivered]. unfold put_userdata, strlen.
  erewrite bind_ok.
  2: { erewrite bind_kern by (unfold get_bytes, deref, mbind, M_bind; by rewrite Ht).
       by rewrite strlen_cstring. }
  pose proof (cstring_length name). set (t := cstring name ++ [0]).
  assert (Hl : zlen t = zlen (cstring name) + 1) by (unfold t; by rewrite zlen_app).
  assert (0 <= zlen (cstring name)) by (unfold zlen; lia). assert (0 <= zlen data) by (unfold zlen; lia).
  rewrite uwrap_small by (unfold in_u; lia). rewrite <-Hl.
  assert (Hnl : zlen (name ++ [0]) = zlen name + 1) by (by rewrite zlen_app).
  assert (Hpre : forall m, m <= zlen t -> take (Z.to_nat m) (name ++ [0]) = take (Z.to_nat m) t).
  { intros m Hmt. unfold t. rewrite <-cstring_prefix, take_take. f_equal. unfold zlen in *. lia. }
  assert (Hlen : forall m, 0 <= m <= zlen t -> zlen (take (Z.to_nat m) t) = m).
  { intros m Hmt. unfold zlen in *. rewrite length_take. lia. }
  erewrite bind_ok by (apply read_kernel_ok; [exact Ht|lia]). rewrite Hpre by lia.
  erewrite bind_user by (eapply copy_to_user_ok; [exact Ha|rewrite Hlen; lia]).
  rewrite (uwrap_small _ (Z.min n (zlen t) - 0)) by (unfold in_u; lia). rewrite Z.sub_0_r. cbn [Z.eqb negb].
  destruct (Z.ltb_spec n (zlen t)) as [Hlt|Hge].
  - rewrite Z.min_l by lia. destruct (Z.ltb_spec n (zlen t)); [|lia]. cbn [when].
    erewrite bind_ok.
    2: { erewrite bind_user; [reflexivity|]. rewrite put_user_spec, poke_accessible.
         by rewrite (accessible_sub _ _ _ _ _ Ha) by lia. }
    destruct (Z.leb_spec n (zlen t)); [|lia]. cbv [mret M_ret]. change (Z.to_nat 1) with 1%nat.
    rewrite zlen_app, Hlen by lia. change (zlen [0]) with 1. rewrite Z.sub_add.
    assert (Hsplit : exists c, take (Z.to_nat n) t = take (Z.to_nat (n - 1)) t ++ [c]).
    { destruct (lookup_lt_is_Some_2 t (Z.to_nat (n - 1))) as [c Hc]; [unfold zlen in *; lia|].
      exists c. rewrite <-(take_S_r _ _ _ Hc). f_equal. lia. }
    destruct Hsplit as [c ->]. rewrite poke_app, Hlen by lia. replace (p + n - 0 - 1) with (p + (n - 1)) by lia.
    rewrite (poke_twice _ [0] [c]) by done. rewrite poke_app, Hlen by lia. done.
  - rewrite Z.min_r by lia. destruct (Z.ltb_spec (zlen t) (zlen t)); [lia|]. cbn [when].
    erewrite bind_ok by reflexivity. destruct (Z.leb_spec n (zlen t)).
    + assert (n = zlen t) as -> by lia. rewrite Z.sub_diag, app_nil_r.
      rewrite take_ge by (unfold zlen; lia). done.
    + rewrite (uwrap_small _ (n - zlen t)) by (unfold in_u; lia). rewrite Hz.
      set (m := Z.min (n - zlen t) (zlen data)).
      erewrite bind_ok by (apply (read_kernel_ok _ m data); [exact Hd|lia]).
      assert (Hdm : take (Z.to_nat m) data = take (Z.to_nat (n - zlen t)) data).
      { unfold m. destruct (Z.min_spec (n - zlen t) (zlen data)) as [[? ->]|[? ->]]; [done|].
        by rewrite !(take_ge data) by (unfold zlen in *; lia). }
      assert (Hdl : zlen (take (Z.to_nat m) data) = m) by (unfold zlen in *; rewrite length_take; lia).
      rewrite (take_ge t) by (unfold zlen; lia).
      erewrite bind_user; [|eapply (copy_to_user_ok _ _ _ m); [rewrite poke_accessible; apply (accessible_sub _ _ _ _ _ Ha); lia|lia]].
      cbn [Z.eqb negb]. rewrite uwrap_small by (unfold in_u; lia). cbv [mret M_ret].
      rewrite <-Hdm, zlen_app, Hdl, poke_app. do 3 f_equal. lia.
Qed.

(** The common parts of copy_lunatik_result_to_user, around the switch. *)
Definition put_value (r : lunatik_result) (r_data : ptr) (n : Z) : M system (Z * Z) :=
  if Kernel.r_type r =? LUA_TNUMBER then put_scalar sizeof_s64 (r_number r) r_data n
  else if Kernel.r_type r =? LUA_TBOOLEAN then put_scalar sizeof_int (r_boolean r) r_data n
  else if Kernel.r_type r =? LUA_TSTRING then put_string r r_data n
  else if Kernel.r_type r =? LUA_TUSERDATA then put_userdata r r_data n
  else if Kernel.r_type r =? LUA_TLIGHTUSERDATA then put_scalar sizeof_voidp (r_lightuserdata r) r_data n
  else mret (0, 0).

Lemma put_value_ok v p ob r r_data n k u :
  is_result v p None ob -> ob !! p = Some (OResult r) -> ob ⊆ k_heap k -> sizes_ok v ->
  accessible u r_data n = true -> 0 <= n < 2 ^ 64 -> (is_userdata v = true -> 0 < n) ->
  put_value r r_data n (mkSystem _ _ k u) =
    (Ok (0, zlen (delivered v n)), mkSystem _ _ k (poke r_data (delivered v n) u)) /\ Kernel.r_type r = lua_type v.
Proof.
  intros Hr Hp Hsub Hsz Ha Hn Hu. unfold put_value.
  assert (Hlift : forall q o, ob !! q = Some o -> k_heap k !! q = Some o) by (intros q o Hq; by eapply lookup_weaken).
  inversion Hr as [|v' r' e p' Hp0 Hpl|s p' q|s p'|data name p' q m|data name p' size]; subst; simplify_map_eq.
  - destruct v as [|x|b|s|data name|x|t]; cbn in Hpl; simplify_eq; cbn [Kernel.r_type r_number r_boolean r_lightuserdata];
      (split; [|done]); cbn [Z.eqb Pos.eqb LUA_TNIL LUA_TNUMBER LUA_TBOOLEAN LUA_TSTRING LUA_TUSERDATA LUA_TLIGHTUSERDATA delivered];
      try (rewrite put_scalar_ok by (done || (unfold sizeof_s64, sizeof_int, sizeof_voidp; lia)));
      unfold sizeof_s64, sizeof_int, sizeof_voidp; [by rewrite poke_nil|by destruct (n >=? _)..].
  - split; [|done]. cbn. apply put_string_ok; try done. cbn. apply Hlift. klookup.
  - split; [|done]. destruct Hsz. cbn [Kernel.r_type Z.eqb Pos.eqb LUA_TNIL LUA_TNUMBER LUA_TBOOLEAN LUA_TSTRING LUA_TUSERDATA].
    apply put_userdata_ok; try done; [| |specialize (Hu eq_refl); lia]; cbn [r_userdata r_userdata_type]; apply Hlift; klookup.
Qed.

Lemma copy_lunatik_result_to_user_spec v p ob r r_type r_data r_size n k u :
  is_result v p None ob -> ob !! p = Some (OResult r) -> ob ⊆ k_heap k -> sizes_ok v ->
  get_user sizeof_size_t r_size u = (0, n) -> accessible u r_size sizeof_size_t = true ->
  accessible u r_type sizeof_int = true -> accessible u r_data n = true -> 0 <= n < 2 ^ 64 ->
  (is_userdata v = true -> 0 < n) ->
  copy_lunatik_result_to_user r r_type r_data r_size (mkSystem _ _ k u) =
    (Ok 0, mkSystem _ _ k (deliver v n r_type r_data r_size u)).
Proof.
  intros Hr Hp Hsub Hsz Hg Has Hat Had Hn Hu. unfold copy_lunatik_result_to_user.
  erewrite bind_user by by rewrite Hg. cbn [Z.eqb negb].
  erewrite bind_user by by rewrite put_user_spec, Hat. cbn [Z.eqb negb].
  destruct (put_value_ok v p ob r r_data n k (poke r_type (le_bytes (Z.to_nat sizeof_int) (Kernel.r_type r)) u)
    Hr Hp Hsub Hsz ltac:(by rewrite poke_accessible) Hn Hu) as [E Ety].
  unfold put_value in E. erewrite bind_ok by exact E. rewrite Ety.
  erewrite bind_user by by rewrite put_user_spec, !poke_accessible, Has. done.
Qed.

(** a result that was taken without an error is delivered: the type, the
    value cut to the room there is, and the number of bytes delivered are
    written to user memory in this order, and nothing else; 0 is returned.
    (A userdata needs room for one byte at least.) *)
Theorem copy_lunatik_result_to_user_delivers v p ob r r_type r_data r_size n k u :
  is_result v p None ob -> ob !! p = Some (OResult r) -> ob ⊆ k_heap k -> sizes_ok v ->
  get_user sizeof_size_t r_size u = (0, n) -> accessible u r_size sizeof_size_t = true ->
  accessible u r_type sizeof_int = true -> accessible u r_data n = true -> 0 <= n < 2 ^ 64 ->
  (is_userdata v = true -> 0 < n) ->
  copy_lunatik_result_to_user r r_type r_data r_size (mkSystem _ _ k u) =
    (Ok 0, mkSystem _ _ k (deliver v n r_type r_data r_size u)).
Proof. apply copy_lunatik_result_to_user_spec. Qed.

(** A userdata delivered to a caller that has no room at all: a zero is
    written in front of the caller's buffer. *)
Lemma put_userdata_no_room r name p k u :
  k_heap k !! r_userdata_type r = Some (OBytes (name ++ [0])) -> zlen name < 2 ^ 63 ->
  accessible u p 0 = true -> accessible u (p - 1) 1 = true ->
  put_userdata r p 0 (mkSystem _ _ k u) = (Ok (0, 0), mkSystem _ _ k (poke (p - 1) [0] u)).
Proof.
  intros Ht Hm Ha Ha1. unfold put_userdata, strlen. erewrite bind_ok.
  2: { erewrite bind_kern by (unfold get_bytes, deref, mbind, M_bind; by rewrite Ht).
       by rewrite strlen_cstring. }
  pose proof (cstring_length name). assert (0 <= zlen (cstring name)) by (unfold zlen; lia).
  rewrite uwrap_small by (unfold in_u; lia). rewrite Z.min_l by lia.
  erewrite bind_ok by reflexivity. erewrite bind_user by by eapply (copy_to_user_ok p [] u 0). rewrite poke_nil.
  change (u64 (0 - 0)) with 0. destruct (Z.ltb_spec 0 (zlen (cstring name) + 1)); [|lia]. cbn [when].
  replace (p + 0 - 0 - 1) with (p - 1) by lia.
  erewrite bind_ok by (erewrite bind_user by (rewrite put_user_spec, Ha1; reflexivity); reflexivity).
  cbn [Z.eqb negb]. by destruct (Z.leb_spec 0 (zlen (cstring name) + 1)); [|lia].
Qed.

Lemma sizeof_size_t_range m u r_size :
  accessible u r_size sizeof_size_t = true -> get_user sizeof_size_t r_size u = (0, m) -> 0 <= m < 2 ^ 64.
Proof. intros Ha Hg. pose proof (get_user_spec sizeof_size_t r_size u) as Hs. rewrite Ha, Hg in Hs. by destruct Hs as (? & [= <-] & ?). Qed.

(** Where a synchronous call writes, and the value [v] it delivers. *)
Record receives (v : lua_value) (r_type r_data r_size : ptr) (m : Z) u : Prop := {
  rc_null : r_type <> NULL /\ r_data <> NULL /\ r_size <> NULL;
  rc_room : get_user sizeof_size_t r_size u = (0, m);
  rc_size : accessible u r_size sizeof_size_t = true;
  rc_type : accessible u r_type sizeof_int = true;
  rc_data : accessible u r_data m = true;
  rc_userdata : is_userdata v = true -> 0 < m;
  rc_value : named v = true /\ tagged v = true /\ value_error v = None;
  rc_sizes : sizes_ok v;
}.

Lemma sys_lua_sync_spec n cleanup code code_size r_type r_data r_size b m orc mods h nx al u ret L' :
  (2 <= n)%nat -> heap_wf h nx -> (forall i, orc i = true) -> 1 <= code_size < 2 ^ 63 ->
  copy_from_user code code_size u = (0, b) -> zlen b = code_size ->
  run_code lua_newstate (take (Z.to_nat (code_size - 1)) b) = (ret, L') ->
  receives (lua_at_top L') r_type r_data r_size m u ->
  exists nx' al', sys_lua n cleanup code code_size r_type r_data r_size (mkSystem _ _ (K orc mods [] h nx al) u) =
    (Ok ret, mkSystem _ _ (K orc mods [] (<[nx + 1 + 1 := OQueue [] Idle]> h) nx' al')
               (deliver (lua_at_top L') m r_type r_data r_size u)).
Proof.
  intros Hn Hw Ho Hcs Hcopy Hlen Hrun [(Ht & Hd & Hs) Hroom Has Hat Had Hud (Hnm & Htg & Herr) Hsz].
  pose proof (proj1 Hw). unfold sys_lua. erewrite bind_kern by by apply kmalloc_ok.
  destruct (Z.eqb_spec nx NULL); [unfold NULL in *; lia|]. erewrite bind_user by by rewrite Hcopy. cbn [Z.eqb negb].
  erewrite bind_kern by (eapply store_ok; klookup). rewrite insert_insert_eq.
  set (h0 := <[nx := OBytes b]> h). assert (Hw0 : heap_wf h0 (nx + 1)) by (by apply (heap_wf_insert _ nx); [|lia|lia]).
  erewrite bind_kern by by apply lunatik_context_create_ok. cbn iota.
  set (h1 := <[nx + 1 := _]> _). erewrite bind_kern by reflexivity. cbn [Z.eqb negb].
  rewrite !(proj2 (Z.eqb_neq _ _)) by done. cbn [andb negb].
  assert (Hw1 : heap_wf h1 (nx + 1 + 1 + 1)).
  { apply (heap_wf_insert _ (nx + 1 + 1 + 1)); [|lia|lia]. by apply (heap_wf_insert _ (nx + 1)); [|lia|lia]. }
  assert (Hl : loadable h1 (nx + 1) nx code_size true lua_newstate (nx + 1 + 1) [] b).
  { split; [unfold h1; klookup|unfold h1, h0; klookup|lia|lia|]. intros _. by rewrite Hrun. }
  assert (Hq : idle h1 (nx + 1 + 1)) by (unfold idle, h1; klookup).
  pose proof (lunatik_loadcode_sync_spec orc mods [] n _ _ _ _ _ _ (S (S (S (S al)))) _ _ _ _ Hn Hw1 Hl Hq (Ho _) (Ho _)) as Hsync.
  rewrite Hrun in Hsync. destruct Hsync as (r & st & Hsync & _ & p & e & ob & nx' & al' & -> & -> & [Hres Hok] & Hf).
  destruct (Hok Ho) as [Hp He]. rewrite Herr in He. subst e. cbn [default] in *.
  unfold sys_lua_sync. erewrite bind_kern by exact Hsync. cbn iota. destruct (Z.eqb_spec p NULL); [done|].
  set (h2 := <[nx + 1 := open_context (lua_pop1 L') _ _]> h1) in *.
  assert (Hdis : ob ##ₘ h2).
  { eapply (fresh_disjoint _ _ (nx + 1 + 1 + 1)); [|apply Hf]. by apply (heap_wf_insert _ (nx + 1 + 1 + 1)); [|lia|lia]. }
  assert (Hrp : exists r, ob !! p = Some (OResult r)).
  { inversion Hres; subst; try done; eexists; klookup. }
  destruct Hrp as [r Hrp]. erewrite bind_ok.
  2: { erewrite bind_kern by (apply get_result_ok; by apply lookup_union_Some_l).
       pose proof (sizeof_size_t_range _ _ _ Has Hroom) as Hm.
       erewrite bind_ok by (apply (copy_lunatik_result_to_user_spec (lua_at_top L') p ob r r_type r_data r_size m);
         try done; apply map_union_subseteq_l).
       erewrite bind_kern by (by eapply lunatik_result_free_spec). reflexivity. }
  cbn [Z.eqb negb andb]. rewrite andb_false_r. unfold out_lc, out_code.
  erewrite bind_kern by (eapply lunatik_context_destroy_ok; [unfold h2; klookup|unfold NULL; lia]).
  erewrite bind_kern by (eapply kfree_ok; [unfold h2, h1, h0; klookup|done]).
  exists nx', al'. cbv [mret M_ret]. do 3 f_equal. unfold h2, h1, h0.
  assert (h !! nx = None) by (by apply (heap_wf_fresh h nx); [|lia]).
  assert (h !! (nx + 1) = None) by (by apply (heap_wf_fresh h nx); [|lia]). heap_eq.
Qed.

(** C28: the synchronous system call, from the copy of the code to the delivery
    of the result.  When memory suffices, no bindings are registered and the
    worker finishes, it returns the status of running the code in a new
    engine, user memory has got the value the code left, and everything the
    call allocated is freed again except the workqueue. *)
Theorem sys_lua_sync_end_to_end n cleanup code code_size r_type r_data r_size b m orc mods h nx al u ret L' :
  (2 <= n)%nat -> heap_wf h nx -> (forall i, orc i = true) -> 1 <= code_size < 2 ^ 63 ->
  copy_from_user code code_size u = (0, b) -> zlen b = code_size ->
  run_code lua_newstate (take (Z.to_nat (code_size - 1)) b) = (ret, L') ->
  receives (lua_at_top L') r_type r_data r_size m u ->
  exists nx' al', sys_lua n cleanup code code_size r_type r_data r_size (mkSystem _ _ (K orc mods [] h nx al) u) =
    (Ok ret, mkSystem _ _ (K orc mods [] (<[nx + 1 + 1 := OQueue [] Idle]> h) nx' al')
               (deliver (lua_at_top L') m r_type r_data r_size u)).
Proof. apply sys_lua_sync_spec. Qed.

(** ** The asynchronous call *)

(** What an asynchronous call has made before it queues its code: the copy of
    the code, the context and its queue, and the callback's argument. *)
Definition async_heap nx (b : bytes) h : gmap Z obj :=
  <[nx + 3 := OAsyncInfo (nx + 1) nx]> (<[nx + 1 := open_context lua_newstate (nx + 2) []]>
    (<[nx + 2 := OQueue [] Idle]> (<[nx := OBytes b]> h))).

Definition async_data nx code_size cleanup : loadcode_data :=
  mkData nx code_size NULL (-1) false (nx + 3) None (Some cleanup) (Some loadcode_async_work_cleanup_cb) 0.

(** And when its code is queued. *)
Definition async_queued nx (b : bytes) code_size cleanup h : gmap Z obj :=
  <[nx + 2 := OQueue [nx + 5] Idle]> (<[nx + 5 := OWork (mkWork (nx + 1) (nx + 2) (loadcode_work (nx + 4)))]>
    (<[nx + 4 := OData (async_data nx code_size cleanup)]> (async_heap nx b h))).

Lemma async_heap_wf nx b h : heap_wf h nx -> heap_wf (async_heap nx b h) (nx + 4).
Proof.
  intros Hw. pose proof (proj1 Hw). unfold async_heap.
  apply (heap_wf_insert _ (nx + 3)); [|lia|lia]. apply (heap_wf_insert _ (nx + 3)); [|lia|lia].
  apply (heap_wf_insert _ (nx + 1)); [|lia|lia]. by apply (heap_wf_insert _ nx); [|lia|lia].
Qed.

Lemma async_queued_wf nx b code_size cleanup h : heap_wf h nx -> heap_wf (async_queued nx b code_size cleanup h) (nx + 6).
Proof.
  intros Hw. pose proof (proj1 Hw). unfold async_queued.
  apply (heap_wf_insert _ (nx + 6)); [|lia|lia]. apply (heap_wf_insert _ (nx + 5)); [|lia|lia].
  by apply (heap_wf_insert _ (nx + 4)); [apply async_heap_wf|lia|lia].
Qed.

(** As far as the call does not fail before its code is queued. *)
Lemma sys_lua_async_call n cleanup code code_size b orc mods h nx al u :
  heap_wf h nx -> (forall i, i <> (5 + al)%nat -> orc i = true) ->
  copy_from_user code code_size u = (0, b) ->
  sys_lua n cleanup code code_size NULL NULL NULL (mkSystem _ _ (K orc mods [] h nx al) u) =
    (Ok 0, mkSystem _ _ (if orc (5 + al)%nat then K orc mods [] (async_queued nx b code_size cleanup h) (nx + 6) (7 + al)
                         else K orc mods [] (async_heap nx b h) (nx + 4) (6 + al)) u).
Proof.
  intros Hw Ho Hcopy. pose proof (proj1 Hw). unfold sys_lua. erewrite bind_kern by (apply kmalloc_ok, Ho; lia).
  destruct (Z.eqb_spec nx NULL); [unfold NULL in *; lia|]. erewrite bind_user by by rewrite Hcopy. cbn [Z.eqb negb].
  erewrite bind_kern by (eapply store_ok; klookup). rewrite insert_insert_eq.
  assert (Hw0 : heap_wf (<[nx := OBytes b]> h) (nx + 1)) by (by apply (heap_wf_insert _ nx); [|lia|lia]).
  erewrite bind_kern by (apply lunatik_context_create_ok; [done|apply Ho; lia..]). cbn iota.
  erewrite bind_kern by reflexivity. cbn [Z.eqb negb andb NULL]. unfold sys_lua_async.
  erewrite bind_kern by (apply kmalloc_ok, Ho; lia).
  replace (nx + 1 + 1 + 1) with (nx + 3) by lia. replace (nx + 1 + 1) with (nx + 2) by lia. fold (async_heap nx b h).
  destruct (Z.eqb_spec (nx + 3) NULL); [unfold NULL in *; lia|].
  replace (nx + 3 + 1) with (nx + 4) by lia. change (S (S (S (S (S al))))) with (5 + al)%nat.
  unfold lunatik_loadcode_async_nores, loadcode_async_with. fold (async_data nx code_size cleanup).
  destruct (orc (5 + al)%nat) eqn:Ho5; (erewrite bind_kern; [reflexivity|]).
  2: { by kstep. }
  kstep. destruct (Z.eqb_spec (nx + 4) NULL); [unfold NULL in *; lia|]. assert (Ho6 : orc (6 + al)%nat = true) by (apply Ho; lia).
  unfold lunatik_work_create. erewrite bind_ok.
  2: { erewrite bind_ok by (eapply get_context_ok; unfold async_heap, open_context; klookup). cbn [lc_wq]. replace (nx + 4 + 1) with (nx + 5) by lia.
       erewrite bind_ok by (apply kmalloc_ok; exact Ho6). destruct (Z.eqb_spec (nx + 5) NULL); [unfold NULL in *; lia|]. reflexivity. }
  unfold lunatik_work_queue. erewrite bind_ok.
  2: { kstep. cbn [lw_wq]. unfold queue_work. erewrite bind_ok by (eapply get_queue_ok; unfold async_heap; klookup).
       eapply store_ok. unfold async_heap. klookup. }
  cbn [fst snd app]. replace (nx + 5 + 1) with (nx + 6) by lia. done.
Qed.

(** The callback frees the context, the code and its argument. *)
Lemma sys_lua_async_cleanup_ok arg lc code_kern o L wq ret h orc mods nx al :
  h !! arg = Some (OAsyncInfo lc code_kern) -> h !! lc = Some (open_context L wq []) -> h !! code_kern = Some o ->
  arg <> NULL -> lc <> NULL -> code_kern <> NULL -> code_kern <> lc -> code_kern <> arg ->
  sys_lua_async_cleanup arg ret (K orc mods [] h nx al) = (Ok tt, K orc mods [] (delete arg (delete code_kern (delete lc h))) nx al).
Proof.
  intros Ha Hl Hc ?????. assert (arg <> lc) by (unfold open_context in Hl; congruence).
  unfold sys_lua_async_cleanup. erewrite bind_ok by (by apply deref_ok). cbn iota.
  erewrite bind_ok by (by eapply lunatik_context_destroy_ok). erewrite bind_ok by (eapply kfree_ok; [klookup|done]).
  eapply kfree_ok; [klookup|done].
Qed.

(** What the worker leaves of the call before the callback. *)
Definition async_ran nx (b : bytes) code_size cleanup L (ret : Z) w h : gmap Z obj :=
  <[nx + 2 := OQueue [] w]> (<[nx + 1 := open_context L (nx + 2) []]>
    (<[nx + 4 := OData (set_complete 1 (set_ret ret (async_data nx code_size cleanup)))]>
      (<[nx + 5 := OWork (mkWork (nx + 1) (nx + 2) (loadcode_work (nx + 4)))]> (async_heap nx b h)))).

Lemma async_worker_start nx b code_size cleanup orc mods h al ret L :
  heap_wf h nx -> 1 <= code_size < 2 ^ 63 -> zlen b = code_size ->
  run_code lua_newstate (take (Z.to_nat (code_size - 1)) b) = (ret, L) ->
  exists nx' al', worker_step (nx + 2) (K orc mods [] (async_queued nx b code_size cleanup h) (nx + 6) al) =
    (Ok tt, K orc mods [] (async_ran nx b code_size cleanup (lua_pop1 L) ret (PastUp (nx + 5) (nx + 4)) h) nx' al').
Proof.
  intros Hw Hcs Hlen Hrun. pose proof (proj1 Hw).
  assert (Hr : runnable (async_queued nx b code_size cleanup h) (nx + 1) (nx + 4) lua_newstate (nx + 2) [] (async_data nx code_size cleanup) b).
  { unfold async_queued, async_heap. split; cbn [async_data d_code d_sz_code d_result d_need_result]; [klookup..|lia|lia|done|done]. }
  pose proof (worker_start orc mods [] (nx + 2) (nx + 5) (nx + 1) (nx + 2) (nx + 4) [] _ (nx + 6) al _ _ _ _ _
    (async_queued_wf nx b code_size cleanup h Hw) ltac:(unfold async_queued; klookup) ltac:(unfold async_queued; klookup) Hr) as Hs.
  unfold code_of in Hs. cbn [d_sz_code async_data] in Hs. rewrite Hrun in Hs. destruct Hs as (p & e & ob & nx' & al' & Hs & (-> & -> & ->) & _).
  exists nx', al'. rewrite Hs, map_empty_union. do 2 f_equal. unfold async_ran, async_queued, ran_data. cbn [default]. heap_eq.
Qed.

Lemma async_worker_end nx b code_size cleanup orc mods h nx' al L ret :
  heap_wf h nx -> (forall arg ret, run_callback_nores cleanup arg ret = sys_lua_async_cleanup arg ret) ->
  worker_step (nx + 2) (K orc mods [] (async_ran nx b code_size cleanup L ret (PastUp (nx + 5) (nx + 4)) h) nx' al) =
    (Ok tt, K orc mods [] (<[nx + 2 := OQueue [] Idle]> h) nx' al).
Proof.
  intros Hw Hcb. pose proof (proj1 Hw). set (d := set_complete 1 (set_ret ret (async_data nx code_size cleanup))).
  set (h1 := <[nx + 1 := open_context L (nx + 2) []]> (async_heap nx b h)).
  assert (Eh : <[nx + 2 := OQueue [] Idle]> (async_ran nx b code_size cleanup L ret (PastUp (nx + 5) (nx + 4)) h) =
    <[nx + 4 := OData d]> (<[nx + 5 := OWork (mkWork (nx + 1) (nx + 2) (loadcode_work (nx + 4)))]> h1)).
  { unfold async_ran, h1, async_heap. fold d. heap_eq. }
  unfold worker_step. erewrite bind_ok by (apply get_queue_ok; unfold async_ran; klookup). cbn iota.
  erewrite bind_ok by (eapply store_ok; unfold async_ran; klookup). rewrite Eh. unfold handler_post. kstep. cbn [d d_callback set_complete set_ret async_data].
  erewrite bind_ok by reflexivity. kstep. cbn [d d_callback_nores d_callback_arg d_ret set_complete set_ret async_data]. rewrite Hcb.
  erewrite bind_ok by (eapply (sys_lua_async_cleanup_ok (nx + 3) (nx + 1) nx); [unfold h1, async_heap; klookup..|unfold NULL; lia|unfold NULL; lia|unfold NULL; lia|lia|lia]).
  unfold h1, async_heap. kstep. cbn [d d_callback_work set_complete set_ret async_data]. unfold loadcode_async_work_cleanup, work_data.
  erewrite bind_ok by (kstep; reflexivity). cbn [lw_func]. kstep. unfold lunatik_work_destroy.
  erewrite kfree_ok by (klookup || (unfold NULL; lia)). do 2 f_equal.
  assert (forall p, nx <= p -> h !! p = None) as Hn by (intros p ?; by eapply heap_wf_fresh).
  pose proof (Hn nx ltac:(lia)). pose proof (Hn (nx + 1) ltac:(lia)). pose proof (Hn (nx + 3) ltac:(lia)).
  pose proof (Hn (nx + 4) ltac:(lia)). pose proof (Hn (nx + 5) ltac:(lia)). heap_eq.
Qed.

(** C12: the asynchronous system call (no places for a result; no bindings
    are registered and the code can be copied), and then the worker.  The call returns 0 at once, with the code queued and not yet run;
    the worker's first step runs it in the call's own context, and the second
    is the callback [sys_lua_async_cleanup], which destroys that context and
    frees the code and its own argument: with the data and the work everything
    is freed again but the workqueue.  Memory suffices, except perhaps for the
    data of lunatik_loadcode_async_nores: then the call returns 0 as well,
    nothing is queued, and the code, the context and the argument stay
    allocated. *)
Theorem sys_lua_async_end_to_end n cleanup code code_size b orc mods h nx al u ret L' :
  heap_wf h nx -> (forall i, i <> (5 + al)%nat -> orc i = true) -> 1 <= code_size < 2 ^ 63 ->
  copy_from_user code code_size u = (0, b) -> zlen b = code_size ->
  (forall arg ret, run_callback_nores cleanup arg ret = sys_lua_async_cleanup arg ret) ->
  run_code lua_newstate (take (Z.to_nat (code_size - 1)) b) = (ret, L') ->
  exists st, sys_lua n cleanup code code_size NULL NULL NULL (mkSystem _ _ (K orc mods [] h nx al) u) = (Ok 0, mkSystem _ _ st u) /\
    k_heap st !! (nx + 1) = Some (open_context lua_newstate (nx + 2) []) /\
    if orc (5 + al)%nat then
      exists st1 nx' al', worker_step (nx + 2) st = (Ok tt, st1) /\
        k_heap st1 !! (nx + 1) = Some (open_context (lua_pop1 L') (nx + 2) []) /\
        worker_step (nx + 2) st1 = (Ok tt, K orc mods [] (<[nx + 2 := OQueue [] Idle]> h) nx' al')
    else st = K orc mods [] (async_heap nx b h) (nx + 4) (6 + al).
Proof.
  intros Hw Ho Hcs Hcopy Hlen Hcb Hrun. eexists. split; [by eapply sys_lua_async_call|]. destruct (orc (5 + al)%nat).
  - split; [cbn; unfold async_queued, async_heap; klookup|].
    destruct (async_worker_start nx b code_size cleanup orc mods h (7 + al) ret L' Hw Hcs Hlen Hrun) as (nx' & al' & Es).
    eexists _, nx', al'. split; [exact Es|]. split; [cbn; unfold async_ran; klookup|]. by apply async_worker_end.
  - split; [cbn; unfold async_heap; klookup|done].
Qed.
End spec.

(** ** A user memory for examples

    Every address but those below 1 can be accessed; addresses never written
    read as zero. *)
Fixpoint map_poke (p : ptr) (b : bytes) (u : gmap Z Z) : gmap Z Z :=
  match b with [] => u | c :: b => map_poke (p + 1) b (<[p := c]> u) end.

Definition map_peek (p n : Z) (u : gmap Z Z) : bytes :=
  map (fun i => default 0 (u !! i) mod 256) (seqZ p n).

Definition map_accessible (p n : Z) : bool := (1 <=? p) || (n <=? 0).

#[local] Instance map_space : UserSpace := {|
  user_mem := gmap Z Z;
  copy_to_user p b u := if map_accessible p (zlen b) then (0, map_poke p b u) else (zlen b, u);
  copy_from_user p n u := if map_accessible p n then (0, map_peek p n u) else (n, []);
  put_user size v p u :=
    if map_accessible p size then (0, map_poke p (le_bytes (Z.to_nat size) v) u) else (- EFAULT, u);
  get_user size p u :=
    if map_accessible p size then (0, le_val (map_peek p size u) mod 2 ^ (8 * size)) else (- EFAULT, 0);
|}.

Lemma map_poke_app p b b' u : map_poke p (b ++ b') u = map_poke (p + zlen b) b' (map_poke p b u).
Proof.
  revert p u. induction b as [|c b IH]; intros p u.
  - cbn. by rewrite Z.add_0_r.
  - cbn [app map_poke]. rewrite IH, zlen_cons. f_equal. lia.
Qed.

Lemma map_poke_insert p q c b u : q < p -> <[q := c]> (map_poke p b u) = map_poke p b (<[q := c]> u).
Proof.
  revert p u. induction b as [|x b IH]; intros p u Hq; cbn; [done|].
  rewrite IH by lia. by rewrite insert_insert_ne by lia.
Qed.

Lemma map_poke_twice p b b' u : length b = length b' -> map_poke p b (map_poke p b' u) = map_poke p b u.
Proof.
  revert p b' u. induction b as [|c b IH]; intros p [|c' b'] u Hl; try done. cbn in *.
  rewrite map_poke_insert by lia. rewrite IH by lia. by rewrite insert_insert_eq.
Qed.

#[local] Instance map_laws : UserLaws.
Proof.
  refine {| accessible _ p n := map_accessible p n; poke := map_poke |}; cbn.
  - done.
  - intros. apply map_poke_app.
  - intros. by apply map_poke_twice.
  - done.
  - unfold map_accessible. intros _ p n q m Ha Hp Hm Hle.
    apply orb_true_iff in Ha as [?%Z.leb_le|?%Z.leb_le]; apply orb_true_iff; [left|right]; apply Z.leb_le; lia.
  - intros p b u. destruct (map_accessible p (zlen b)) eqn:Ha; [done|]. exists (zlen b).
    unfold map_accessible in Ha. b2p. by rewrite Z.sub_diag.
  - intros p n u Hn. destruct (map_accessible p n) eqn:Ha.
    + eexists. split; [done|]. unfold zlen, map_peek. rewrite length_map, length_seqZ. lia.
    + exists n, []. unfold map_accessible in Ha. b2p. split; [lia|done].
  - done.
  - intros size p u Hs. destruct (map_accessible p size); [|done]. eexists. split; [done|].
    apply Z.mod_pos_bound, Z.pow_pos_nonneg; lia.
Defined.

#[local] Existing Instance echo_engine.
#[local] Existing Instance echo_functions.

(** Room for 2 bytes (the size is at 200), and the code "hi" at 300. *)
Definition sample_user : gmap Z Z := map_poke 300 [104; 105; 0] (map_poke 200 [2] ∅).

Lemma sample_receives : receives (LString [104; 105]) 100 400 200 2 sample_user.
Proof. by split. Qed.

Lemma copy_lunatik_result_to_user_delivers_witness :
  let ob := <[5 := OResult (mkResult LUA_TSTRING 0 0 6 2 NULL 0 NULL 0)]> {[ 6 := OBytes ([104; 105] ++ [0]) ]} in
  let k := K (fun _ => true) ∅ [] (ob ∪ echo_heap) 7 0 in
  copy_lunatik_result_to_user (mkResult LUA_TSTRING 0 0 6 2 NULL 0 NULL 0) 100 400 200 (mkSystem _ _ k sample_user) =
    (Ok 0, mkSystem _ _ k (deliver (LString [104; 105]) 2 100 400 200 sample_user)).
Proof.
  intros ob k.
  refine (copy_lunatik_result_to_user_delivers (LString [104; 105]) 5 ob _ 100 400 200 2 k sample_user
    (res_string [104; 105] 5 6 _ _ _) _ (map_union_subseteq_l _ _) _ _ _ _ _ _ _); done.
Defined.

(** The callback of the asynchronous call is at 1. *)
#[local] Instance cleanup_functions : KernelFunctions := {|
  module_live m := true;
  run_callback f arg ret p := lunatik_result_free p;
  run_callback_nores f arg ret := if f =? 1 then sys_lua_async_cleanup arg ret else mret tt;
  run_regfunc f lc := mret f;
|}.

Lemma sys_lua_async_end_to_end_witness :
  exists st, sys_lua (H0 := cleanup_functions) 0 1 300 3 0 0 0 (mkSystem _ _ (K (fun _ => true) ∅ [] ∅ 1 0) sample_user) =
      (Ok 0, mkSystem _ _ st sample_user) /\
    k_heap st !! 2 = Some (open_context [] 3 []) /\
    exists st1 nx' al', worker_step (H0 := cleanup_functions) 3 st = (Ok tt, st1) /\
      k_heap st1 !! 2 = Some (open_context [] 3 []) /\
      worker_step (H0 := cleanup_functions) 3 st1 = (Ok tt, K (fun _ => true) ∅ [] (<[3 := OQueue [] Idle]> ∅) nx' al').
Proof.
  refine (sys_lua_async_end_to_end (H0 := cleanup_functions) 0 1 300 3 [104; 105; 0] (fun _ => true) ∅ ∅ 1 0 sample_user 0 [[104; 105]]
    _ _ _ _ _ _ _); done.
Defined.

Lemma sys_lua_sync_end_to_end_witness :
  exists nx' al', sys_lua 2 0 300 3 100 400 200 (mkSystem _ _ (K (fun _ => true) ∅ [] ∅ 1 0) sample_user) =
    (Ok 0, mkSystem _ _ (K (fun _ => true) ∅ [] (<[3 := OQueue [] Idle]> ∅) nx' al')
             (deliver (LString [104; 105]) 2 100 400 200 sample_user)).
Proof.
  refine (sys_lua_sync_end_to_end 2 0 300 3 100 400 200 [104; 105; 0] 2 _ _ ∅ 1 0 sample_user 0 [[104; 105]]
    _ _ _ _ _ _ _ sample_receives); done.
Defined.
