(* ===== verification/Lex.v ===== *)
(** * Lex.v: the lexer (llex.h, llex.c)

    The lexer turns a stream of characters into tokens.  Its state has the
    stream, one character of it, the buffer of the token at hand and what it
    allocates from: the string table and the table of the parser's function
    state that keeps new strings from being collected.  The byte [reserved]
    of a string object is kept beside the string table, by address. *)

From stdpp Require Import pretty.
From S2P Require Import Prelude Machine Object Mem Zio Str Table.

(** ** Character classes

    fakelibc_include/ctype.h: the classes of the kernel's table (Latin-1), for
    positive characters only, so that EOZ is in none. *)

Definition isdigit (c : Z) : bool := (48 <=? c) && (c <=? 57).
Definition isalpha (c : Z) : bool :=
  ((65 <=? c) && (c <=? 90)) || ((97 <=? c) && (c <=? 122)) ||
  ((192 <=? c) && (c <=? 255) && negb (c =? 215) && negb (c =? 247)).
Definition isalnum (c : Z) : bool := isalpha c || isdigit c.
Definition iscntrl (c : Z) : bool := ((1 <=? c) && (c <=? 31)) || (c =? 127).

(** ** Tokens *)

Definition FIRST_RESERVED : Z := 257.

Definition TK_AND : Z := 257.
Definition TK_FUNCTION : Z := 265.
Definition TK_WHILE : Z := 277.
Definition TK_CONCAT : Z := 278.
Definition TK_DOTS : Z := 279.
Definition TK_EQ : Z := 280.
Definition TK_GE : Z := 281.
Definition TK_LE : Z := 282.
Definition TK_NE : Z := 283.
Definition TK_NUMBER : Z := 284.
Definition TK_NAME : Z := 285.
Definition TK_STRING : Z := 286.
Definition TK_EOS : Z := 287.

Definition NUM_RESERVED : Z := TK_WHILE - FIRST_RESERVED + 1.

Definition luaX_tokens : list string :=
  ["and"; "break"; "do"; "else"; "elseif"; "end"; "false"; "for"; "function"; "if";
   "in"; "local"; "nil"; "not"; "or"; "repeat"; "return"; "then"; "true"; "until"; "while";
   ".."; "..."; "=="; ">="; "<="; "~="; "<number>"; "<name>"; "<string>"; "<eof>"]%string.

(** The semantic information; [NoInfo] is the union's content when the token
    has none. *)
Inductive SemInfo := NoInfo | SNumber (r : Z) | SString (ts : TString).

Record Token := mkToken { tk_token : Z; tk_seminfo : SemInfo }.

(** ** State *)

Record LexState := mkLex {
  ls_current : Z;
  ls_linenumber : Z;
  ls_lastline : Z;
  ls_t : Token;
  ls_lookahead : Token;
  ls_h : option Table;      (* ls->fs->h; None when fs is NULL *)
  ls_G : global_State;      (* of ls->L *)
  ls_reserved : gmap Z Z;   (* tsv.reserved of the strings, by address *)
  ls_z : ZIO;
  ls_buff : bytes;          (* buff->buffer, buff->n bytes of it *)
  ls_buffsize : Z;
  ls_source : bytes;
  ls_decpoint : Z;
}.

Definition set_current (c : Z) (z : ZIO) (ls : LexState) : LexState :=
  mkLex c (ls_linenumber ls) (ls_lastline ls) (ls_t ls) (ls_lookahead ls) (ls_h ls) (ls_G ls) (ls_reserved ls)
    z (ls_buff ls) (ls_buffsize ls) (ls_source ls) (ls_decpoint ls).
Definition set_linenumber (n : Z) (ls : LexState) : LexState :=
  mkLex (ls_current ls) n (ls_lastline ls) (ls_t ls) (ls_lookahead ls) (ls_h ls) (ls_G ls) (ls_reserved ls)
    (ls_z ls) (ls_buff ls) (ls_buffsize ls) (ls_source ls) (ls_decpoint ls).
Definition set_lastline (n : Z) (ls : LexState) : LexState :=
  mkLex (ls_current ls) (ls_linenumber ls) n (ls_t ls) (ls_lookahead ls) (ls_h ls) (ls_G ls) (ls_reserved ls)
    (ls_z ls) (ls_buff ls) (ls_buffsize ls) (ls_source ls) (ls_decpoint ls).
Definition set_tokens (t la : Token) (ls : LexState) : LexState :=
  mkLex (ls_current ls) (ls_linenumber ls) (ls_lastline ls) t la (ls_h ls) (ls_G ls) (ls_reserved ls)
    (ls_z ls) (ls_buff ls) (ls_buffsize ls) (ls_source ls) (ls_decpoint ls).
Definition set_world (h : option Table) (g : global_State) (r : gmap Z Z) (ls : LexState) : LexState :=
  mkLex (ls_current ls) (ls_linenumber ls) (ls_lastline ls) (ls_t ls) (ls_lookahead ls) h g r
    (ls_z ls) (ls_buff ls) (ls_buffsize ls) (ls_source ls) (ls_decpoint ls).
Definition set_buff (b : bytes) (size : Z) (ls : LexState) : LexState :=
  mkLex (ls_current ls) (ls_linenumber ls) (ls_lastline ls) (ls_t ls) (ls_lookahead ls) (ls_h ls) (ls_G ls) (ls_reserved ls)
    (ls_z ls) b size (ls_source ls) (ls_decpoint ls).
Definition set_decpoint (c : Z) (ls : LexState) : LexState :=
  mkLex (ls_current ls) (ls_linenumber ls) (ls_lastline ls) (ls_t ls) (ls_lookahead ls) (ls_h ls) (ls_G ls) (ls_reserved ls)
    (ls_z ls) (ls_buff ls) (ls_buffsize ls) (ls_source ls) c.

#[export] Instance LexState_HasMem : HasMem LexState := {|
  totalbytes ls := totalbytes (ls_G ls);
  set_totalbytes n ls := set_world (ls_h ls) (set_totalbytes n (ls_G ls)) (ls_reserved ls) ls;
|}.
#[export] Instance LexState_HasMemLaws : HasMemLaws LexState.
Proof. split; [done..|]. by intros [? ? ? ? ? ? [] ? ? ? ? ? ?]. Qed.

(** ** Errors

    The text that luaO_pushfstring builds; the strings it allocates on the Lua
    stack on the way are not modelled. *)

Definition string_of_bytes (b : bytes) : string :=
  String.string_of_list_ascii (map (fun c => Ascii.ascii_of_N (Z.to_N c)) b).

(** A C string in a buffer: what is before the first zero. *)
Fixpoint c_string (b : bytes) : bytes :=
  match b with
  | [] => []
  | c :: b => if c =? 0 then [] else c :: c_string b
  end.

(** [%d] *)
Definition fmt_d (n : Z) : bytes := bytes_of_string (pretty n).

Definition MAXSRC : Z := 80.

(** [luaX_lexerror(ls, msg, 0)], and the message with the text of a token. *)
Definition lexerror_near {A} (msg : string) (near : option bytes) : M LexState A := fun ls =>
  let buff := luaO_chunkid (ls_source ls) MAXSRC in
  let msg := buff ++ [58] ++ fmt_d (ls_linenumber ls) ++ bytes_of_string ": " ++ bytes_of_string msg in
  let msg := match near with
             | Some t => msg ++ bytes_of_string " near '" ++ t ++ bytes_of_string "'"
             | None => msg
             end in
  (Err (ErrSyntax (string_of_bytes msg)), ls).

Section lexer.
Context `{Krealloc} `{StringHash} `{KernelStrto}.

(** [save]: the buffer doubles when it is full. *)
Definition save (c : Z) : M LexState unit :=
  ls ← get;
  when (zlen (ls_buff ls) + 1 >? ls_buffsize ls)
    ((if ls_buffsize ls >=? MAX_SIZET / 2 then lexerror_near "lexical element too long" None else mret tt);;
     let newsize := ls_buffsize ls * 2 in
     size ← luaZ_resizebuffer (ls_buffsize ls) newsize;
     modify (fun ls => set_buff (ls_buff ls) size ls));;
  ls ← get;
  if zlen (ls_buff ls) <? ls_buffsize ls
  then modify (fun ls => set_buff (ls_buff ls ++ [u8 c]) (ls_buffsize ls) ls)
  else throw (UB "write outside the buffer").

Definition next : M LexState unit := fun ls =>
  match zgetc (ls_z ls) with
  | (Ok c, z) => (Ok tt, set_current c z ls)
  | (Err e, z) => (Err e, set_current (ls_current ls) z ls)
  end.

Definition save_and_next : M LexState unit :=
  c ← gets ls_current; save c;; next.

Definition luaZ_resetbuffer : M LexState unit := modify (fun ls => set_buff [] (ls_buffsize ls) ls).

Definition currIsNewline (ls : LexState) : bool := (ls_current ls =? 10) || (ls_current ls =? 13).

Definition luaX_token2str (token : Z) : bytes :=
  if token <? FIRST_RESERVED
  then (if iscntrl token then bytes_of_string "char(" ++ fmt_d token ++ [41] else [token])
  else bytes_of_string (nth (Z.to_nat (token - FIRST_RESERVED)) luaX_tokens "").

Definition txtToken (token : Z) : M LexState bytes :=
  if (token =? TK_NAME) || (token =? TK_STRING) || (token =? TK_NUMBER)
  then save 0;; ls ← get; mret (c_string (ls_buff ls))
  else mret (luaX_token2str token).

Definition luaX_lexerror {A} (msg : string) (token : Z) : M LexState A :=
  if token =? 0 then lexerror_near msg None
  else t ← txtToken token; lexerror_near msg (Some t).

Definition luaX_syntaxerror {A} (msg : string) : M LexState A :=
  ls ← get; luaX_lexerror msg (tk_token (ls_t ls)).

(** *** Strings *)

Definition onLexG {A} (m : M global_State A) : M LexState A := fun ls =>
  let '(r, g) := m (ls_G ls) in (r, set_world (ls_h ls) g (ls_reserved ls) ls).

(** A function of the table [fs->h]. *)
Definition on_h {A} (m : M TS A) : M LexState A := fun ls =>
  match ls_h ls with
  | None => (Err (UB "ls->fs is NULL"), ls)
  | Some t =>
      let '(r, st) := m (mkTS (totalbytes (ls_G ls)) t) in
      (r, set_world (Some (ts_t st)) (set_totalbytes (ts_mem st) (ls_G ls)) (ls_reserved ls) ls)
  end.

Definition luaX_newstring (str : bytes) : M LexState TString :=
  ts ← onLexG (luaS_newlstr str);
  on_h (o ← luaH_setstr (ts_addr ts);
        t ← gets ts_t;
        v ← lift (slot_get t o);
        when (ttisnil v) (upd (slot_set o (VBoolean 1))));;
  mret ts.

Definition FIXEDBIT : Z := 5.

(** [luaS_fix]: the string object is never collected. *)
Definition luaS_fix (ts : TString) : M global_State unit :=
  modify (fun g => set_strt (mkStringtable
    (update_ts (ts_addr ts) (fun s => mkTString (ts_addr s) (ts_hash s) (Z.lor (ts_marked s) (Z.shiftl 1 FIXEDBIT)) (ts_str s))
      <$> st_hash (g_strt g)) (st_nuse (g_strt g)) (st_size (g_strt g))) g).

(** [luaX_init] from the [i]-th reserved word on. *)
Fixpoint init_words (i : Z) (words : list string) : M LexState unit :=
  match words with
  | [] => mret tt
  | w :: words =>
      ts ← onLexG (luaS_newlstr (bytes_of_string w));
      onLexG (luaS_fix ts);;
      modify (fun ls => set_world (ls_h ls) (ls_G ls) (<[ts_addr ts := u8 (i + 1)]> (ls_reserved ls)) ls);;
      init_words (i + 1) words
  end.

Definition reserved_words : list string := take (Z.to_nat NUM_RESERVED) luaX_tokens.

Definition luaX_init : M LexState unit := init_words 0 reserved_words.

(** *** Lines and input *)

Definition inclinenumber : M LexState unit :=
  old ← gets ls_current;
  next;;  (* skip `\n' or `\r' *)
  ls ← get;
  when (currIsNewline ls && negb (ls_current ls =? old)) next;;  (* skip `\n\r' or `\r\n' *)
  modify (fun ls => set_linenumber (ls_linenumber ls + 1) ls);;
  ls ← get;
  when (ls_linenumber ls >=? MAX_INT) (luaX_syntaxerror "chunk has too many lines").

Definition luaX_setinput (z : ZIO) (source : bytes) : M LexState unit :=
  modify (fun ls => mkLex (ls_current ls) 1 1 (ls_t ls) (mkToken TK_EOS (tk_seminfo (ls_lookahead ls))) None
    (ls_G ls) (ls_reserved ls) z (ls_buff ls) (ls_buffsize ls) source 46);;
  ls ← get;
  size ← luaZ_resizebuffer (ls_buffsize ls) LUA_MINBUFFER;
  modify (fun ls => set_buff (ls_buff ls) size ls);;
  next.  (* read first char *)

(** *** Loops

    A [while] loop runs on fuel; every turn of the lexer's loops takes a
    character, so the characters left are enough. *)
Fixpoint mwhile (fuel : nat) (cond : LexState -> bool) (body : M LexState unit) : M LexState unit :=
  match fuel with
  | O => throw OutOfFuel
  | S fuel => ls ← get; if cond ls then body;; mwhile fuel cond body else mret tt
  end.

(** The characters left, the current one included. *)
Definition left (ls : LexState) : nat :=
  if ls_current ls =? EOZ then O else S (length (zrest (ls_z ls))).

Definition while (cond : LexState -> bool) (body : M LexState unit) : M LexState unit :=
  ls ← get; mwhile (S (left ls)) cond body.

(** *** Pieces of tokens *)

(** [strchr(set, c)], that also finds the zero at the end of [set]. *)
Definition strchr (set : bytes) (c : Z) : bool :=
  (u8 c =? 0) || existsb (Z.eqb (u8 c)) set.

Definition check_next (set : bytes) : M LexState bool :=
  ls ← get;
  if negb (strchr set (ls_current ls)) then mret false
  else save_and_next;; mret true.

Definition buffreplace (from to : Z) : M LexState unit :=
  modify (fun ls => set_buff (map (fun c => if c =? from then to else c) (ls_buff ls)) (ls_buffsize ls) ls).

(** [localeconv()] is NULL (fakelibc_include/locale.h). *)
Definition trydecpoint : M LexState Z :=
  old ← gets ls_decpoint;
  modify (set_decpoint 46);;
  buffreplace old 46;;
  ls ← get;
  match luaO_str2d (c_string (ls_buff ls)) with
  | Some r => mret r
  | None => buffreplace (ls_decpoint ls) 46;; luaX_lexerror "malformed number" TK_NUMBER
  end.

Definition read_numeral : M LexState Z :=
  save_and_next;;
  while (fun ls => isdigit (ls_current ls) || (ls_current ls =? 46)) save_and_next;;
  e ← check_next [69; 101];
  when e (check_next [43; 45];; mret tt);;
  while (fun ls => isalnum (ls_current ls) || (ls_current ls =? 95)) save_and_next;;
  save 0;;
  dp ← gets ls_decpoint;
  buffreplace 46 dp;;
  ls ← get;
  match luaO_str2d (c_string (ls_buff ls)) with
  | Some r => mret r
  | None => trydecpoint
  end.

(** The loop of [skip_sep] that counts the equal signs.  The count is an [int]
    in C, here a number without a limit: the two agree, with the [2 * (2 + sep)]
    that is computed of it, on delimiters of less than 2^30 characters. *)
Fixpoint skip_eqs (fuel : nat) (count : Z) : M LexState Z :=
  match fuel with
  | O => throw OutOfFuel
  | S fuel =>
      ls ← get;
      if ls_current ls =? 61 then save_and_next;; skip_eqs fuel (count + 1)
      else mret count
  end.

Definition skip_sep : M LexState Z :=
  s ← gets ls_current;
  save_and_next;;
  ls ← get;
  count ← skip_eqs (S (left ls)) 0;
  ls ← get;
  mret (if ls_current ls =? s then count else - count - 1).

(** The loop of [read_long_string]; [str] tells that [seminfo] is not NULL. *)
Fixpoint long_loop (fuel : nat) (str : bool) (sep : Z) : M LexState unit :=
  match fuel with
  | O => throw OutOfFuel
  | S fuel =>
      ls ← get;
      let c := ls_current ls in
      if c =? EOZ then
        luaX_lexerror (if str then "unfinished long string" else "unfinished long comment") TK_EOS
      else if c =? 91 then
        n ← skip_sep;
        if n =? sep then
          save_and_next;;  (* skip 2nd `[' *)
          if sep =? 0 then luaX_lexerror "nesting of [[...]] is deprecated" 91
          else long_loop fuel str sep
        else long_loop fuel str sep
      else if c =? 93 then
        n ← skip_sep;
        if n =? sep then save_and_next  (* skip 2nd `]' *)
        else long_loop fuel str sep
      else if (c =? 10) || (c =? 13) then
        save 10;;
        inclinenumber;;
        (if str then mret tt else luaZ_resetbuffer);;  (* avoid wasting space *)
        long_loop fuel str sep
      else
        (if str then save_and_next else next);;
        long_loop fuel str sep
  end.

(** [buffer + from], [len] bytes. *)
Definition sub_buffer (from len : Z) : M LexState bytes :=
  ls ← get;
  if (from + u64 len <=? zlen (ls_buff ls)) && (0 <=? from)
  then mret (take (Z.to_nat (u64 len)) (drop (Z.to_nat from) (ls_buff ls)))
  else throw (UB "read outside the buffer").

Definition read_long_string (str : bool) (sep : Z) : M LexState SemInfo :=
  save_and_next;;  (* skip 2nd `[' *)
  ls ← get;
  when (currIsNewline ls) inclinenumber;;  (* string starts with a newline? skip it *)
  ls ← get;
  long_loop (S (left ls)) str sep;;
  if str then
    ls ← get;
    b ← sub_buffer (2 + sep) (zlen (ls_buff ls) - 2 * (2 + sep));
    ts ← luaX_newstring b;
    mret (SString ts)
  else mret NoInfo.

(** The digits of an escape, three at most. *)
Fixpoint read_decimal (n : nat) (c : Z) : M LexState Z :=
  match n with
  | O => mret c
  | S n =>
      ls ← get;
      if isdigit (ls_current ls) then
        let c := 10 * c + (ls_current ls - 48) in
        next;; read_decimal n c
      else mret c
  end.

(** The character an escape of one letter stands for. *)
Definition escape (c : Z) : option Z :=
  if c =? 97 then Some 7
  else if c =? 98 then Some 8
  else if c =? 102 then Some 12
  else if c =? 110 then Some 10
  else if c =? 114 then Some 13
  else if c =? 116 then Some 9
  else if c =? 118 then Some 11
  else None.

(** The case of the backslash. *)
Definition read_escape : M LexState unit :=
  next;;  (* do not save the backslash *)
  ls ← get;
  let c := ls_current ls in
  match escape c with
  | Some x => save x;; next
  | None =>
      if (c =? 10) || (c =? 13) then save 10;; inclinenumber
      else if c =? EOZ then mret tt  (* will raise an error next loop *)
      else if negb (isdigit c) then save_and_next  (* handles an escaped backslash, quote or question mark *)
      else
        c ← read_decimal 3 0;
        (if c >? 255 then luaX_lexerror "escape sequence too large" TK_STRING else mret tt);;
        save c
  end.

Fixpoint string_loop (fuel : nat) (del : Z) : M LexState unit :=
  match fuel with
  | O => throw OutOfFuel
  | S fuel =>
      ls ← get;
      let c := ls_current ls in
      if c =? del then mret tt
      else
        (if c =? EOZ then luaX_lexerror "unfinished string" TK_EOS
         else if (c =? 10) || (c =? 13) then luaX_lexerror "unfinished string" TK_STRING
         else if c =? 92 then read_escape
         else save_and_next);;
        string_loop fuel del
  end.

Definition read_string (del : Z) : M LexState SemInfo :=
  save_and_next;;
  ls ← get;
  string_loop (S (left ls)) del;;
  save_and_next;;  (* skip delimiter *)
  ls ← get;
  b ← sub_buffer 1 (zlen (ls_buff ls) - 2);
  ts ← luaX_newstring b;
  mret (SString ts).

(** *** Tokens *)

(** One of the tokens [c] and [c=]. *)
Definition with_eq (c tk : Z) : M LexState (option Token) :=
  next;;
  ls ← get;
  if negb (ls_current ls =? 61) then mret (Some (mkToken c NoInfo))
  else next;; mret (Some (mkToken tk NoInfo)).

Definition read_name : M LexState (option Token) :=
  save_and_next;;
  while (fun ls => isalnum (ls_current ls) || (ls_current ls =? 95)) save_and_next;;
  ls ← get;
  ts ← luaX_newstring (ls_buff ls);
  ls ← get;
  let r := default 0 (ls_reserved ls !! ts_addr ts) in
  if r >? 0 then mret (Some (mkToken (r - 1 + FIRST_RESERVED) NoInfo))  (* reserved word? *)
  else mret (Some (mkToken TK_NAME (SString ts))).

Definition read_minus : M LexState (option Token) :=
  next;;
  ls ← get;
  if negb (ls_current ls =? 45) then mret (Some (mkToken 45 NoInfo))
  else
    (* else is a comment *)
    next;;
    ls ← get;
    long ←
      (if ls_current ls =? 91 then
         sep ← skip_sep;
         luaZ_resetbuffer;;  (* `skip_sep' may dirty the buffer *)
         if sep >=? 0 then
           read_long_string false sep;;  (* long comment *)
           luaZ_resetbuffer;;
           mret true
         else mret false
       else mret false);
    (if (long : bool) then mret tt
     else while (fun ls => negb (currIsNewline ls) && negb (ls_current ls =? EOZ)) next);;
    mret None.

Definition read_bracket : M LexState (option Token) :=
  sep ← skip_sep;
  if sep >=? 0 then
    i ← read_long_string true sep;
    mret (Some (mkToken TK_STRING i))
  else if sep =? -1 then mret (Some (mkToken 91 NoInfo))
  else luaX_lexerror "invalid long string delimiter" TK_STRING.

Definition read_dots : M LexState (option Token) :=
  save_and_next;;
  d ← check_next [46];
  if (d : bool) then
    d ← check_next [46];
    mret (Some (mkToken (if (d : bool) then TK_DOTS else TK_CONCAT) NoInfo))
  else
    ls ← get;
    if negb (isdigit (ls_current ls)) then mret (Some (mkToken 46 NoInfo))
    else r ← read_numeral; mret (Some (mkToken TK_NUMBER (SNumber r))).

(** One turn of the loop of [llex]: [None] to go on. *)
Definition llex_step : M LexState (option Token) :=
  ls ← get;
  let c := ls_current ls in
  if (c =? 10) || (c =? 13) then inclinenumber;; mret None
  else if c =? 45 then read_minus
  else if c =? 91 then read_bracket
  else if c =? 61 then with_eq 61 TK_EQ
  else if c =? 60 then with_eq 60 TK_LE
  else if c =? 62 then with_eq 62 TK_GE
  else if c =? 126 then with_eq 126 TK_NE
  else if (c =? 34) || (c =? 39) then i ← read_string c; mret (Some (mkToken TK_STRING i))
  else if c =? 46 then read_dots
  else if c =? EOZ then mret (Some (mkToken TK_EOS NoInfo))
  else if isspace c then next;; mret None
  else if isdigit c then r ← read_numeral; mret (Some (mkToken TK_NUMBER (SNumber r)))
  else if isalpha c || (c =? 95) then read_name
  else next;; mret (Some (mkToken c NoInfo)).  (* single-char tokens (+ - / ...) *)

Fixpoint llex_loop (fuel : nat) : M LexState Token :=
  match fuel with
  | O => throw OutOfFuel
  | S fuel =>
      r ← llex_step;
      match r with Some t => mret t | None => llex_loop fuel end
  end.

Definition llex : M LexState Token :=
  luaZ_resetbuffer;;
  ls ← get;
  llex_loop (S (left ls)).

(** A token without semantic information leaves the old one in its place. *)
Definition put_token (t old : Token) : Token :=
  match tk_seminfo t with NoInfo => mkToken (tk_token t) (tk_seminfo old) | _ => t end.

Definition luaX_next : M LexState unit :=
  modify (fun ls => set_lastline (ls_linenumber ls) ls);;
  ls ← get;
  if negb (tk_token (ls_lookahead ls) =? TK_EOS)  (* is there a look-ahead token? *)
  then modify (fun ls => set_tokens (ls_lookahead ls) (mkToken TK_EOS (tk_seminfo (ls_lookahead ls))) ls)
  else t ← llex; modify (fun ls => set_tokens (put_token t (ls_t ls)) (ls_lookahead ls) ls).

Definition luaX_lookahead : M LexState unit :=
  t ← llex; modify (fun ls => set_tokens (ls_t ls) (put_token t (ls_lookahead ls)) ls).
End lexer.
