(* ===== verification/LexSpec.v ===== *)
(** * LexSpec.v: what the lexer promises

    The state is seen as the characters to come and the buffer.  On every
    input the lexer ends, reads nothing past the end of the stream, and fails
    only with a syntax error or for lack of memory. *)

From S2P Require Import Prelude Machine Object Mem Zio Str Table TableInv TableSet TablePut TableCount TableRehash TableSpec Lex.

(** ** The state *)

Section spec.
Context `{Krealloc} `{StringHash} `{KernelStrto}.
Implicit Types (ls : LexState) (cs b : bytes).

(** The reserved words are interned, and they alone are marked. *)
Record reserved_ok (g : global_State) (res : gmap Z Z) : Prop := {
  ro_words i w : reserved_words !! i = Some w ->
    exists a, interned g (bytes_of_string w) a /\ res !! a = Some (Z.of_nat i + 1);
  ro_marked a r : res !! a = Some r ->
    exists i w, reserved_words !! i = Some w /\ r = Z.of_nat i + 1 /\ interned g (bytes_of_string w) a;
}.

(** The characters to come, the current one in front. *)
Definition chars ls : bytes := if ls_current ls =? EOZ then [] else ls_current ls :: zrest (ls_z ls).

Record lex_ok ls : Prop := {
  lx_char : ls_current ls = EOZ \/ (in_u 8 (ls_current ls) /\ zio_ok (ls_z ls));
  lx_size : 1 <= ls_buffsize ls <= MAX_SIZET;
  lx_buff : zlen (ls_buff ls) <= ls_buffsize ls;
  lx_bytes : wf_bytes (ls_buff ls);
  lx_strt : strt_ok (ls_G ls);
  lx_res : reserved_ok (ls_G ls) (ls_reserved ls);
  lx_h : exists t, ls_h ls = Some t /\ table_ok t;
  lx_point : ls_decpoint ls = 46;
}.

(** The errors of the lexer. *)
Definition lex_err (e : error) : Prop :=
  (exists msg, e = ErrSyntax msg) \/ e = ErrMem \/ e = ErrRun "table overflow".

(** [ls] is at the characters [cs] with [b] in the buffer. *)
Definition at_ cs b ls : Prop := lex_ok ls /\ chars ls = cs /\ ls_buff ls = b.

Lemma left_chars ls : left ls = length (chars ls).
Proof. unfold left, chars. by destruct (_ =? _). Qed.

Lemma at_current c cs b ls : at_ (c :: cs) b ls -> ls_current ls = c /\ in_u 8 c /\ zio_ok (ls_z ls) /\ zrest (ls_z ls) = cs.
Proof.
  intros ([Hc _ _ _ _ _ _ _] & Hcs & _). unfold chars in Hcs. destruct (Z.eqb_spec (ls_current ls) EOZ); [done|].
  injection Hcs as <- <-. destruct Hc as [?|[? ?]]; [done|]. done.
Qed.

Lemma at_end b ls : at_ [] b ls -> ls_current ls = EOZ.
Proof. intros (_ & Hcs & _). unfold chars in Hcs. by destruct (Z.eqb_spec (ls_current ls) EOZ). Qed.

Lemma at_intro ls : lex_ok ls -> at_ (chars ls) (ls_buff ls) ls.
Proof. done. Qed.

(** ** The basic steps *)

Lemma zrest_bytes z : zio_ok z -> wf_bytes (zrest z).
Proof.
  intros (_ & _ & _ & _ & _ & Hw). unfold zrest, unread, wf_bytes in *. apply Forall_cons in Hw as [Hb Hr].
  apply Forall_app. split; [by apply Forall_drop|]. by apply Forall_concat.
Qed.

Lemma wp_next c cs b ls : at_ (c :: cs) b ls -> wp next (fun _ => at_ cs b) lex_err ls.
Proof.
  intros Hat. pose proof (at_current _ _ _ _ Hat) as (Hc & Hin & Hz & Hr). destruct Hat as ([] & _ & Hb).
  pose proof (zgetc_spec _ Hz) as Hg. pose proof (zrest_bytes _ Hz) as Hwf. rewrite Hr in Hg, Hwf.
  unfold wp, next. destruct cs as [|d cs].
  - destruct Hg as [z' ->]. split; [|done]. by split; [left|..].
  - destruct Hg as (z' & -> & Hz' & Hr'). apply Forall_cons in Hwf as [Hd _].
    split; [split; try done; by right|]. split; [|done]. unfold chars. cbn [ls_current set_current ls_z].
    destruct (Z.eqb_spec d EOZ) as [->|]; [|by rewrite Hr']. unfold in_u, EOZ in Hd. lia.
Qed.

Lemma wp_lexerror_near {A} msg near Q ls : wp (lexerror_near (A := A) msg near) Q lex_err ls.
Proof. left. by eexists. Qed.

(** A change of the world that keeps the strings and the words. *)
Lemma reserved_ok_mono g g' res :
  (forall s a, interned g s a -> interned g' s a) -> reserved_ok g res -> reserved_ok g' res.
Proof.
  intros Hi [Hw Hm]. split.
  - intros i w Hiw. destruct (Hw i w Hiw) as (a & Ha & Hr). eauto.
  - intros a r Hr. destruct (Hm a r Hr) as (i & w & ? & ? & ?). eauto 6.
Qed.

Lemma at_mem n cs b ls : at_ cs b ls -> at_ cs b (set_totalbytes n ls).
Proof.
  intros ([] & ? & ?). split; [|done]. split; try done; [by apply strt_ok_mem|].
  eapply reserved_ok_mono; [|done]. done.
Qed.

Lemma at_size n cs b ls : 1 <= n <= MAX_SIZET -> zlen b <= n -> at_ cs b ls -> at_ cs b (set_buff (ls_buff ls) n ls).
Proof. intros ?? ([] & ? & <-). split; [by split|done]. Qed.

Lemma at_buff b' cs b ls : zlen b' <= ls_buffsize ls -> wf_bytes b' -> at_ cs b ls -> at_ cs b' (set_buff b' (ls_buffsize ls) ls).
Proof. intros ?? ([] & ? & <-). split; [by split|done]. Qed.

Lemma max_size : MAX_SIZET = 18446744073709551613 /\ MAX_SIZET / 2 = 9223372036854775806 /\ MAX_SIZET / 1 = 18446744073709551613.
Proof. done. Qed.

Lemma wp_resizebuffer cs b ls :
  at_ cs b ls -> ls_buffsize ls < MAX_SIZET / 2 ->
  wp (luaZ_resizebuffer (ls_buffsize ls) (ls_buffsize ls * 2))
    (fun n ls' => n = ls_buffsize ls * 2 /\ at_ cs b ls' /\ ls_buffsize ls' = ls_buffsize ls) lex_err ls.
Proof.
  intros Hat Hs. pose proof (lx_size _ (proj1 Hat)) as Hsz. unfold luaZ_resizebuffer, luaM_reallocv.
  apply wp_bind. destruct (_ <=? _) eqn:E.
  2: { b2p. destruct max_size as (? & ? & ?). rewrite uwrap_small in E by (unfold in_u; lia). lia. }
  unfold wp at 1. destruct (luaM_realloc_ _ _ ls) as [[u|e] ls'] eqn:Er.
  - apply luaM_realloc_Ok in Er as ->. apply wp_ret. split; [done|]. split; [by apply at_mem|done].
  - apply luaM_realloc_Err in Er as (-> & _). right. by left.
Qed.

Lemma wp_save c cs b ls : at_ cs b ls -> wp (save c) (fun _ => at_ cs (b ++ [u8 c])) lex_err ls.
Proof.
  intros Hat. unfold save. apply wp_get. pose proof Hat as (Hok & _ & Hb). pose proof (lx_size _ Hok). pose proof (lx_buff _ Hok) as Hle.
  rewrite Hb in Hle. eapply (wp_seq _ _ (fun _ ls' => at_ cs b ls' /\ zlen b + 1 <= ls_buffsize ls')).
  - apply wp_when; intros Hc; rewrite Hb in Hc; b2p; [|done]. destruct (Z.geb_spec (ls_buffsize ls) (MAX_SIZET / 2)).
    { apply wp_bind, wp_lexerror_near. }
    apply wp_bind, wp_ret. eapply wp_seq; [by apply wp_resizebuffer|]. intros n ls' (-> & Hat' & Hsz).
    unfold modify, wp. assert (1 <= ls_buffsize ls * 2 <= MAX_SIZET) by (destruct max_size as (? & ? & ?); lia).
    split; [by apply at_size; [|lia|]|cbn; lia].
  - intros [] ls' [Hat' Hroom]. apply wp_get. pose proof Hat' as (Hok' & _ & Hb'). rewrite Hb'.
    destruct (Z.ltb_spec (zlen b) (ls_buffsize ls')); [|lia]. unfold modify, wp. rewrite Hb'. apply (at_buff _ cs b); [| |done].
    + rewrite zlen_app. change (zlen [u8 c]) with 1. lia.
    + pose proof (lx_bytes _ Hok') as Hw. rewrite Hb' in Hw. apply Forall_app. split; [done|].
      constructor; [apply uwrap_range; lia|done].
Qed.

Lemma wp_save_and_next c cs b ls : at_ (c :: cs) b ls -> wp save_and_next (fun _ => at_ cs (b ++ [c])) lex_err ls.
Proof.
  intros Hat. unfold save_and_next. apply wp_gets. pose proof (at_current _ _ _ _ Hat) as (-> & Hin & _).
  eapply wp_seq; [by apply wp_save|]. intros [] ls' Hat'. rewrite uwrap_small in Hat' by done.
  eapply wp_mono; [by eapply wp_next|done..].
Qed.

Lemma wp_reset cs b ls : at_ cs b ls -> wp luaZ_resetbuffer (fun _ => at_ cs []) lex_err ls.
Proof. intros Hat. apply (at_buff [] cs b); [|constructor|done]. pose proof (lx_size _ (proj1 Hat)). change (zlen []) with 0. lia. Qed.

Lemma at_c_string cs b ls : at_ cs b ls -> exists x, c_string (ls_buff ls) = x.
Proof. eauto. Qed.

Lemma wp_lexerror {A} msg token cs b Q ls : at_ cs b ls -> wp (luaX_lexerror (A := A) msg token) Q lex_err ls.
Proof.
  intros Hat. unfold luaX_lexerror. case_if; [apply wp_lexerror_near|]. apply wp_bind.
  eapply (wp_mono _ (fun _ _ => True)); [|intros; apply wp_lexerror_near|done]. unfold txtToken. case_if; [|done].
  eapply wp_seq; [by eapply wp_save|]. by intros [] ls' _.
Qed.

Definition is_newline (c : Z) : bool := (c =? 10) || (c =? 13).

Lemma newline_current c cs b ls : at_ (c :: cs) b ls -> currIsNewline ls = is_newline c.
Proof. intros Hat. by destruct (at_current _ _ _ _ Hat) as [<- _]. Qed.

Lemma newline_end b ls : at_ [] b ls -> currIsNewline ls = false.
Proof. intros Hat. unfold currIsNewline. by rewrite (at_end _ _ Hat). Qed.

(** What is left after the newline [c] was skipped, with the second half of a
    pair. *)
Definition skip_pair (c : Z) cs : bytes :=
  match cs with d :: r => if is_newline d && negb (d =? c) then r else cs | [] => [] end.

Lemma skip_pair_length c cs : (length (skip_pair c cs) <= length cs)%nat.
Proof. destruct cs as [|d cs]; cbn; [lia|]. case_if; cbn; lia. Qed.

Lemma wp_inclinenumber c cs b ls : at_ (c :: cs) b ls -> wp inclinenumber (fun _ => at_ (skip_pair c cs) b) lex_err ls.
Proof.
  intros Hat. unfold inclinenumber. apply wp_gets. pose proof (at_current _ _ _ _ Hat) as (-> & _).
  eapply wp_seq; [by eapply wp_next|]. intros [] ls1 Hat1. apply wp_get.
  eapply (wp_seq _ _ (fun _ => at_ (skip_pair c cs) b)).
  - apply wp_when; intros Hc.
    + destruct cs as [|d cs]; [by rewrite (newline_end _ _ Hat1) in Hc|].
      rewrite (newline_current _ _ _ _ Hat1) in Hc. destruct (at_current _ _ _ _ Hat1) as [E _]. rewrite E in Hc.
      cbn. rewrite Hc. by eapply wp_next.
    + destruct cs as [|d cs]; [done|]. rewrite (newline_current _ _ _ _ Hat1) in Hc.
      destruct (at_current _ _ _ _ Hat1) as [E _]. rewrite E in Hc. cbn. by rewrite Hc.
  - intros [] ls2 Hat2. apply wp_modify, wp_get.
    assert (Hat3 : at_ (skip_pair c cs) b (set_linenumber (ls_linenumber ls2 + 1) ls2)) by (destruct Hat2 as ([] & ? & ?); by split; [split|]).
    apply wp_when; [intros _|done]. unfold luaX_syntaxerror. apply wp_get. by eapply wp_lexerror.
Qed.

(** ** Strings *)

Lemma set_err_lex t e : set_err t e -> lex_err e.
Proof. intros [Ho|[-> _]]; [|by right; right]. right; left. apply Ho. Qed.

(** A new string anchored in the table of the function state. *)
Lemma wp_anchor m t x :
  table_ok t ->
  wp (o ← luaH_setstr x; t ← gets ts_t; v ← lift (slot_get t o); when (ttisnil v) (upd (slot_set o (VBoolean 1))))
    (fun _ st => table_ok (ts_t st)) lex_err (mkTS m t).
Proof.
  intros Hok. eapply wp_seq.
  { eapply wp_mono; [by apply wp_luaH_setstr|intros s st Hf; exact Hf|apply set_err_lex]. }
  intros o [m' t'] Hf. cbn [ts_t] in Hf. apply wp_gets. cbn [ts_t].
  pose proof Hf as [Hok' _ Hs _]. assert (Hp : proper (VString x) = true) by done.
  pose proof (get_value_tget t' (VString x) Hok' Hp) as Hg. rewrite luaH_get_spec in Hg by done.
  unfold get_value in Hg. rewrite Hs in Hg. cbn in Hg. rewrite Hg. apply wp_bind. unfold lift, wp at 1.
  apply wp_when; [intros _|done]. unfold wp, upd, modify. cbn [ts_t].
  by apply (found_updated t (VString x) (VBoolean 1) t' o Hp Hf).
Qed.

Lemma wp_on_h {A} (m : M TS A) t ls :
  ls_h ls = Some t -> wp m (fun _ st => table_ok (ts_t st)) lex_err (mkTS (totalbytes (ls_G ls)) t) ->
  wp (on_h m) (fun _ ls' => exists t' n, table_ok t' /\
    ls' = set_world (Some t') (set_totalbytes n (ls_G ls)) (ls_reserved ls) ls) lex_err ls.
Proof.
  intros Ht. unfold wp, on_h. rewrite Ht. destruct (m _) as [[a|e] [m' t']]; [|done]. cbn. eauto.
Qed.

Definition has_string (g : global_State) (ts : TString) str : Prop :=
  ts_str ts = str /\ interned g str (ts_addr ts).

Lemma wp_newstring str cs b ls :
  at_ cs b ls -> wf_bytes str -> zlen str < 2 ^ 63 ->
  wp (luaX_newstring str) (fun ts ls' => at_ cs b ls' /\ has_string (ls_G ls') ts str) lex_err ls.
Proof.
  intros Hat Hw Hl. unfold luaX_newstring. pose proof (proj1 Hat) as Hok.
  destruct (luaS_newlstr_spec str (ls_G ls) (lx_strt _ Hok) Hw Hl) as (r & g' & E & Hg' & _ & Hp).
  apply wp_bind. unfold wp at 1, onLexG. rewrite E. destruct r as [ts|e]; [|by right; left; apply Hp].
  destruct Hp as (Hstr & Hint & Huniq & Hother & _).
  assert (Hmono : forall s a, interned (ls_G ls) s a -> interned g' s a).
  { intros s a Hs. destruct (decide (s = str)) as [->|Hn]; [by rewrite <-(Huniq _ Hs)|by apply Hother]. }
  destruct (lx_h _ Hok) as (t & Ht & Htok).
  eapply wp_seq; [apply (wp_on_h _ t); [done|by apply wp_anchor]|].
  intros _ ls' (t2 & n & Ht2 & ->). apply wp_ret. split; [|by split].
  destruct Hat as ([] & Hcs & Hb). split; [|done]. split; try done; cbn.
  - by apply strt_ok_mem.
  - by eapply reserved_ok_mono.
  - by exists t2.
Qed.
End spec.

(** ** Bounds

    At most [n] characters to come, at most [N] with the ones in the buffer,
    and at least [l] in the buffer. *)

Section bounds.
Context `{Krealloc} `{StringHash} `{KernelStrto}.
Implicit Types (ls : LexState) (cs b : bytes) (N n l : nat).

Record bd N n l ls : Prop := {
  bd_ok : lex_ok ls;
  bd_n : (length (chars ls) <= n)%nat;
  bd_N : (length (ls_buff ls) + length (chars ls) <= N)%nat;
  bd_l : (l <= length (ls_buff ls))%nat;
}.

Lemma bd_at N n l cs b ls :
  at_ cs b ls -> (length cs <= n)%nat -> (length b + length cs <= N)%nat -> (l <= length b)%nat -> bd N n l ls.
Proof. intros (? & <- & <-) ???. by split. Qed.

Lemma bd_mono N n l N' n' l' ls : bd N n l ls -> (N <= N')%nat -> (n <= n')%nat -> (l' <= l)%nat -> bd N' n' l' ls.
Proof. intros [] ???. split; [done|lia..]. Qed.

(** A state that is not at the end. *)
Lemma bd_inv N n l ls :
  bd N n l ls -> ls_current ls <> EOZ ->
  exists c cs b m, at_ (c :: cs) b ls /\ ls_current ls = c /\ n = S m /\ (length cs <= m)%nat /\
    (length b + S (length cs) <= N)%nat /\ (l <= length b)%nat.
Proof.
  intros [Hok Hn HN Hl] Hc. unfold chars in *. destruct (Z.eqb_spec (ls_current ls) EOZ); [done|]. cbn [length] in *.
  destruct n as [|m]; [lia|]. exists (ls_current ls), (zrest (ls_z ls)), (ls_buff ls), m. split_and!; try done; [|lia].
  split; [done|]. split; [|done]. unfold chars. by destruct (Z.eqb_spec (ls_current ls) EOZ).
Qed.

Ltac bd_inv H Hc :=
  let c := fresh "c" in let cs := fresh "cs" in let b := fresh "b" in let m := fresh "m" in
  let Hat := fresh "Hat" in let Hn := fresh "Hn" in let HN := fresh "HN" in let Hl := fresh "Hl" in let Ec := fresh "Ec" in
  destruct (bd_inv _ _ _ _ H Hc) as (c & cs & b & m & Hat & Ec & -> & Hn & HN & Hl).

Lemma wp_next_bd N n l ls : bd N n l ls -> ls_current ls <> EOZ -> wp next (fun _ => bd (N - 1) (n - 1) l) lex_err ls.
Proof.
  intros Hb Hc. bd_inv Hb Hc. eapply wp_mono; [by eapply wp_next| |done].
  intros [] ls' Hat'. eapply bd_at; [exact Hat'|lia..].
Qed.

Lemma wp_save_bd c N n l ls : bd N n l ls -> wp (save c) (fun _ => bd (S N) n (S l)) lex_err ls.
Proof.
  intros [Hok Hn HN Hl]. eapply wp_mono; [by apply wp_save, at_intro| |done].
  intros [] ls' Hat'. eapply bd_at; [exact Hat'|rewrite ?length_app; cbn [length]; lia..].
Qed.

Lemma wp_save_and_next_bd N n l ls :
  bd N n l ls -> ls_current ls <> EOZ -> wp save_and_next (fun _ => bd N (n - 1) (S l)) lex_err ls.
Proof.
  intros Hb Hc. bd_inv Hb Hc. eapply wp_mono; [by eapply wp_save_and_next| |done].
  intros [] ls' Hat'. eapply bd_at; [exact Hat'|rewrite ?length_app; cbn [length]; lia..].
Qed.

Lemma wp_inclinenumber_bd N n l ls :
  bd N n l ls -> currIsNewline ls = true -> wp inclinenumber (fun _ => bd (N - 1) (n - 1) l) lex_err ls.
Proof.
  intros Hb Hc. assert (Hne : ls_current ls <> EOZ) by (intros E; unfold currIsNewline in Hc; by rewrite E in Hc).
  bd_inv Hb Hne. eapply wp_mono; [by eapply wp_inclinenumber| |done].
  intros [] ls' Hat'. pose proof (skip_pair_length c cs). eapply bd_at; [exact Hat'|lia..].
Qed.

Lemma wp_reset_bd N n l ls : bd N n l ls -> wp luaZ_resetbuffer (fun _ ls' => bd n n 0 ls' /\ bd N n 0 ls') lex_err ls.
Proof.
  intros [Hok Hn HN Hl]. eapply wp_mono; [by eapply wp_reset, at_intro| |done].
  intros [] ls' Hat'. split; (eapply bd_at; [exact Hat'|cbn; lia..]).
Qed.

Lemma wp_lexerror_bd {A} msg token N n l Q ls : bd N n l ls -> wp (luaX_lexerror (A := A) msg token) Q lex_err ls.
Proof. intros []. by eapply wp_lexerror, at_intro. Qed.

(** A loop whose turns take a character each. *)
Lemma wp_mwhile fuel cond body N n l ls :
  (forall ls, cond ls = true -> ls_current ls <> EOZ) ->
  (forall m ls, bd N m l ls -> cond ls = true -> wp body (fun _ => bd N (m - 1) l) lex_err ls) ->
  bd N n l ls -> (n < fuel)%nat ->
  wp (mwhile fuel cond body) (fun _ ls' => bd N n l ls' /\ cond ls' = false) lex_err ls.
Proof.
  intros Hc Hbody. revert n ls. induction fuel as [|fuel IH]; intros n ls Hb Hf; [lia|]. cbn [mwhile].
  apply wp_get. destruct (cond ls) eqn:E; [|by apply wp_ret].
  eapply wp_seq; [by apply Hbody|]. intros [] ls' Hb'. bd_inv Hb (Hc _ E).
  eapply wp_mono; [apply (IH (S m - 1)%nat); [done|lia]| |done]. intros [] ls2 [Hb2 E2]. split; [|done].
  eapply bd_mono; [exact Hb2|lia..].
Qed.

Lemma wp_while cond body N n l ls :
  (forall ls, cond ls = true -> ls_current ls <> EOZ) ->
  (forall m ls, bd N m l ls -> cond ls = true -> wp body (fun _ => bd N (m - 1) l) lex_err ls) ->
  bd N n l ls -> wp (while cond body) (fun _ ls' => bd N n l ls' /\ cond ls' = false) lex_err ls.
Proof.
  intros Hc Hbody [Hok Hn HN Hl]. unfold while. apply wp_get. eapply wp_mono; [apply (wp_mwhile _ _ _ N (left ls) l); try done| |done].
  - split; [done|by rewrite left_chars|lia..].
  - lia.
  - intros [] ls' [Hb E]. split; [|done]. rewrite left_chars in Hb. eapply bd_mono; [exact Hb|lia..].
Qed.

(** ** The pieces of tokens *)

Lemma isdigit_not_end c : isdigit c = true -> c <> EOZ.
Proof. unfold isdigit, EOZ. intros ?. b2p. lia. Qed.

Lemma isalnum_not_end c : isalnum c = true -> c <> EOZ.
Proof. intros Hc ->. done. Qed.

Lemma wp_check_next_bd set N n l ls :
  strchr set EOZ = false -> bd N n l ls -> wp (check_next set) (fun _ => bd N n l) lex_err ls.
Proof.
  intros Hs Hb. unfold check_next. apply wp_get. destruct (strchr set (ls_current ls)) eqn:E; cbn [negb]; [|done].
  eapply wp_seq; [eapply wp_save_and_next_bd; [exact Hb|congruence]|]. intros [] ls' Hb'. apply wp_ret.
  eapply bd_mono; [exact Hb'|lia..].
Qed.

Lemma wp_buffreplace_bd from to N n l ls :
  in_u 8 to -> bd N n l ls -> wp (buffreplace from to) (fun _ => bd N n l) lex_err ls.
Proof.
  intros Ht [Hok Hn HN Hl]. unfold buffreplace, modify, wp.
  apply (bd_at _ _ _ (chars ls) (map (fun c => if c =? from then to else c) (ls_buff ls))); rewrite ?length_map; try lia.
  apply (at_buff _ _ (ls_buff ls)); [|apply Forall_map|by apply at_intro].
  - unfold zlen. rewrite length_map. apply Hok.
  - eapply Forall_impl; [apply (lx_bytes _ Hok)|]. intros c Hc. cbn. by destruct (c =? from).
Qed.

Lemma wp_trydecpoint_bd N n l ls : bd N n l ls -> wp trydecpoint (fun _ => bd N n l) lex_err ls.
Proof.
  intros Hb. unfold trydecpoint. apply wp_gets, wp_modify.
  assert (Hb' : bd N n l (set_decpoint 46 ls)) by (destruct Hb as [[] ? ? ?]; split; [by split|done..]).
  eapply wp_seq; [apply wp_buffreplace_bd; [done|exact Hb']|]. intros [] ls1 Hb1. apply wp_get.
  destruct (luaO_str2d _); [done|].
  eapply wp_seq; [apply wp_buffreplace_bd; [done|exact Hb1]|]. intros [] ls2 Hb2. by eapply wp_lexerror_bd.
Qed.

Lemma wp_read_numeral_bd N n l ls :
  bd N n l ls -> ls_current ls <> EOZ -> wp read_numeral (fun _ => bd (S N) (n - 1) l) lex_err ls.
Proof.
  intros Hb Hc. unfold read_numeral. eapply wp_seq; [by eapply wp_save_and_next_bd|]. intros [] ls1 Hb1.
  assert (Hb1' : bd N (n - 1) l ls1) by (eapply bd_mono; [exact Hb1|lia..]).
  assert (Hbody : forall m ls, ls_current ls <> EOZ -> bd N m l ls ->
    wp save_and_next (fun _ => bd N (m - 1) l) lex_err ls).
  { intros m ls2 Hc2 Hb2. eapply wp_mono; [by eapply wp_save_and_next_bd| |done].
    intros [] ls3 Hb3. eapply bd_mono; [exact Hb3|lia..]. }
  assert (H1c : forall ls, isdigit (ls_current ls) || (ls_current ls =? 46) = true -> ls_current ls <> EOZ)
    by (intros ls2 [?%isdigit_not_end|?]%orb_true_iff; b2p; unfold EOZ in *; [done|lia]).
  assert (H2c : forall ls, isalnum (ls_current ls) || (ls_current ls =? 95) = true -> ls_current ls <> EOZ)
    by (intros ls2 [?%isalnum_not_end|?]%orb_true_iff; b2p; unfold EOZ in *; [done|lia]).
  eapply wp_seq; [apply wp_while; [exact H1c|auto|exact Hb1']|]. intros [] ls2 [Hb2 _].
  eapply wp_seq; [by apply wp_check_next_bd|]. intros e ls3 Hb3.
  eapply (wp_seq _ _ (fun _ => bd N (n - 1) l)).
  { apply wp_when; [intros _|done]. eapply wp_seq; [apply wp_check_next_bd; [done|exact Hb3]|]. intros ? ls4 Hb4. by apply wp_ret. }
  intros [] ls4 Hb4. eapply wp_seq; [apply wp_while; [exact H2c|auto|exact Hb4]|]. intros [] ls5 [Hb5 _].
  eapply wp_seq; [by eapply wp_save_bd|]. intros [] ls6 Hb6. apply wp_gets.
  eapply wp_seq; [apply wp_buffreplace_bd; [by rewrite (lx_point _ (bd_ok _ _ _ _ Hb6))|exact Hb6]|]. intros [] ls7 Hb7.
  apply wp_get. destruct (luaO_str2d _).
  - apply wp_ret. eapply bd_mono; [exact Hb7|lia..].
  - eapply wp_mono; [by apply wp_trydecpoint_bd| |done]. intros ? ls8 Hb8. eapply bd_mono; [exact Hb8|lia..].
Qed.

Lemma wp_skip_eqs_bd fuel count N n l ls :
  bd N n l ls -> (n < fuel)%nat ->
  wp (skip_eqs fuel count) (fun x ls' => count <= x /\ bd N n (l + Z.to_nat (x - count)) ls') lex_err ls.
Proof.
  revert count n l ls. induction fuel as [|fuel IH]; intros count n l ls Hb Hf; [lia|]. cbn [skip_eqs]. apply wp_get.
  destruct (Z.eqb_spec (ls_current ls) 61) as [E|E].
  - assert (Hc : ls_current ls <> EOZ) by (unfold EOZ; lia).
    eapply wp_seq; [by eapply wp_save_and_next_bd|]. intros [] ls1 Hb1. bd_inv Hb Hc.
    eapply wp_mono; [apply IH; [exact Hb1|lia]| |done]. intros x ls2 [Hx Hb2]. split; [lia|].
    eapply bd_mono; [exact Hb2|lia..].
  - apply wp_ret. split; [lia|]. eapply bd_mono; [exact Hb|lia..].
Qed.

(** After [skip_sep] returned a level, the second bracket is at hand. *)
Lemma wp_skip_sep_bd N n l ls :
  bd N n l ls -> ls_current ls <> EOZ ->
  wp skip_sep (fun x ls' => bd N (n - 1) (S l) ls' /\
    (0 <= x -> ls_current ls' <> EOZ /\ bd N (n - 1) (S l + Z.to_nat x) ls')) lex_err ls.
Proof.
  intros Hb Hc. unfold skip_sep. apply wp_gets. eapply wp_seq; [by eapply wp_save_and_next_bd|]. intros [] ls1 Hb1.
  apply wp_get. destruct Hb1 as [Hok1 Hn1 HN1 Hl1].
  rewrite left_chars. eapply wp_seq; [apply (wp_skip_eqs_bd _ _ N (length (chars ls1)) (S l)); [by split|lia]|].
  intros x ls2 [Hx Hb2]. apply wp_get, wp_ret.
  split; [eapply bd_mono; [exact Hb2|lia..]|]. destruct (Z.eqb_spec (ls_current ls2) (ls_current ls)) as [E|E].
  - intros _. split; [congruence|]. eapply bd_mono; [exact Hb2|lia..].
  - lia.
Qed.

(** A newline is saved before it is skipped. *)
Lemma wp_save_newline_bd N n l ls :
  bd N n l ls -> is_newline (ls_current ls) = true ->
  wp (save 10;; inclinenumber) (fun _ => bd N (n - 1) (S l)) lex_err ls.
Proof.
  intros Hb Hc. assert (Hne : ls_current ls <> EOZ) by (intros E; by rewrite E in Hc). bd_inv Hb Hne.
  eapply wp_seq; [by eapply wp_save|]. intros [] ls1 Hat1. eapply wp_mono; [by eapply wp_inclinenumber| |done].
  intros [] ls2 Hat2. pose proof (skip_pair_length c cs).
  eapply bd_at; [exact Hat2|rewrite ?length_app; cbn [length]; lia..].
Qed.

Definition long_min (str : bool) (sep : Z) l : nat := if str then (l + 2 + Z.to_nat sep)%nat else O.

Lemma wp_long_loop_bd fuel str sep N n l ls :
  0 <= sep -> bd N n l ls -> (n < fuel)%nat ->
  wp (long_loop fuel str sep) (fun _ => bd N n (long_min str sep l)) lex_err ls.
Proof.
  intros Hs. revert n l ls. induction fuel as [|fuel IH]; intros n l ls Hb Hf; [lia|]. cbn [long_loop]. apply wp_get.
  (* going on after a turn *)
  assert (Hon : forall m l' ls', n = S m -> bd N m l' ls' -> (str = true -> (l <= l')%nat) ->
    wp (long_loop fuel str sep) (fun _ => bd N n (long_min str sep l)) lex_err ls').
  { intros m l' ls' -> Hb' Hl'. eapply wp_mono; [apply (IH m l'); [done|lia]| |done]. intros [] ls2 Hb2.
    eapply bd_mono; [exact Hb2|lia..|]. unfold long_min. destruct str; [specialize (Hl' eq_refl); lia|lia]. }
  destruct (Z.eqb_spec (ls_current ls) EOZ) as [E|Hc]; [by eapply wp_lexerror_bd|].
  assert (Hn : exists m, n = S m) by (bd_inv Hb Hc; eauto). destruct Hn as [m ->].
  pose proof (wp_skip_sep_bd _ _ _ _ Hb Hc) as Hsep. rewrite Nat.sub_succ, Nat.sub_0_r in Hsep.
  destruct (Z.eqb_spec (ls_current ls) 91) as [E|_]; [|destruct (Z.eqb_spec (ls_current ls) 93) as [E|_]].
  - eapply wp_seq; [exact Hsep|]. intros x ls1 [Hb1 Hx]. destruct (Z.eqb_spec x sep) as [->|Hne].
    + destruct (Hx Hs) as [Hc1 Hb1']. eapply wp_seq; [by eapply wp_save_and_next_bd|]. intros [] ls2 Hb2.
      case_if; [by eapply wp_lexerror_bd|]. eapply (Hon m (S (S l))); [done|eapply bd_mono; [exact Hb2|lia..]|lia].
    + eapply (Hon m (S l)); [done|done|lia].
  - eapply wp_seq; [exact Hsep|]. intros x ls1 [Hb1 Hx]. destruct (Z.eqb_spec x sep) as [->|Hne].
    + destruct (Hx Hs) as [Hc1 Hb1']. eapply wp_mono; [by eapply wp_save_and_next_bd| |done]. intros [] ls2 Hb2.
      eapply bd_mono; [exact Hb2|lia..|]. unfold long_min. destruct str; lia.
    + eapply (Hon m (S l)); [done|done|lia].
  - destruct (_ || _) eqn:Enl.
    + apply wp_assoc_r. eapply wp_seq; [by eapply wp_save_newline_bd|]. intros [] ls1 Hb1.
      rewrite Nat.sub_succ, Nat.sub_0_r in Hb1. destruct str.
      * apply wp_bind, wp_ret. eapply (Hon m (S l)); [done|done|lia].
      * eapply wp_seq; [by eapply wp_reset_bd|]. intros [] ls2 [_ Hb2].
        by eapply (Hon m O).
    + destruct str.
      * eapply wp_seq; [by eapply wp_save_and_next_bd|]. intros [] ls1 Hb1. rewrite Nat.sub_succ, Nat.sub_0_r in Hb1.
        eapply (Hon m (S l)); [done|done|lia].
      * eapply wp_seq; [by eapply wp_next_bd|]. intros [] ls1 Hb1. rewrite Nat.sub_succ, Nat.sub_0_r in Hb1.
        eapply (Hon m l); [done|eapply bd_mono; [exact Hb1|lia..]|lia].
Qed.

(** ** Strings *)

Definition slice (from len : Z) b : bytes := take (Z.to_nat len) (drop (Z.to_nat from) b).

Lemma sub_buffer_ok from len ls :
  0 <= from -> 0 <= len -> from + len <= zlen (ls_buff ls) -> zlen (ls_buff ls) < 2 ^ 63 ->
  sub_buffer from len ls = (Ok (slice from len (ls_buff ls)), ls).
Proof.
  intros Hf Hl Hle Hb. unfold sub_buffer. m_simpl. rewrite uwrap_small by (unfold in_u; lia).
  destruct (Z.leb_spec (from + len) (zlen (ls_buff ls))); [|lia]. destruct (Z.leb_spec 0 from); [done|lia].
Qed.

Lemma slice_wf from len b : wf_bytes b -> wf_bytes (slice from len b).
Proof. intros Hb. unfold slice. by apply Forall_take, Forall_drop. Qed.

Lemma slice_length from len b : zlen (slice from len b) <= zlen b.
Proof. unfold slice, zlen. rewrite length_take, length_drop. lia. Qed.

(** Part of the buffer becomes a string. *)
Lemma wp_buffer_string from len N n l ls :
  bd N n l ls -> Z.of_nat N < 2 ^ 62 -> 0 <= from -> 0 <= len -> from + len <= zlen (ls_buff ls) ->
  wp (b ← sub_buffer from len; ts ← luaX_newstring b; mret (SString ts)) (fun _ => bd N n l) lex_err ls.
Proof.
  intros [Hok Hn HN Hl] Hmax Hf Hlen Hle. assert (zlen (ls_buff ls) < 2 ^ 63) by (unfold zlen; lia).
  apply wp_bind. unfold wp at 1. rewrite sub_buffer_ok by done.
  pose proof (slice_length from len (ls_buff ls)). eapply wp_seq.
  { eapply wp_newstring; [by apply at_intro|apply slice_wf, (lx_bytes _ Hok)|lia]. }
  intros ts ls' [Hat' _]. apply wp_ret. eapply bd_at; [exact Hat'|lia..].
Qed.

Lemma wp_read_long_string_bd str sep N n l ls :
  0 <= sep -> (str = true -> (S (Z.to_nat sep) <= l)%nat) -> Z.of_nat N < 2 ^ 62 ->
  bd N n l ls -> ls_current ls <> EOZ ->
  wp (read_long_string str sep) (fun _ => bd N (n - 1) 0) lex_err ls.
Proof.
  intros Hs Hl HN Hb Hc. unfold read_long_string. eapply wp_seq; [by eapply wp_save_and_next_bd|]. intros [] ls1 Hb1.
  apply wp_get. eapply (wp_seq _ _ (fun _ => bd N (n - 1) (S l))).
  { apply wp_when; intros E; [|done]. eapply wp_mono; [by eapply wp_inclinenumber_bd| |done].
    intros [] ls2 Hb2. eapply bd_mono; [exact Hb2|lia..]. }
  intros [] ls2 Hb2. apply wp_get. pose proof Hb2 as [Hok2 Hn2 HN2 Hl2]. rewrite left_chars.
  eapply wp_seq; [apply (wp_long_loop_bd _ str sep N (length (chars ls2)) (S l)); [done|by split|lia]|].
  intros [] ls3 Hb3. assert (Hb3' : bd N (n - 1) (long_min str sep (S l)) ls3) by (eapply bd_mono; [exact Hb3|lia..]).
  destruct str; [|by apply wp_ret]. apply wp_get. unfold long_min in Hb3'. specialize (Hl eq_refl).
  assert (Z.of_nat (S l + 2 + Z.to_nat sep) <= zlen (ls_buff ls3)) by (unfold zlen; destruct Hb3'; lia).
  eapply wp_mono; [eapply wp_buffer_string; [exact Hb3'|done|lia..]| |done].
  intros ? ls4 Hb4. eapply bd_mono; [exact Hb4|lia..].
Qed.

Lemma wp_read_decimal_bd k c N n l ls : bd N n l ls -> wp (read_decimal k c) (fun _ => bd N n l) lex_err ls.
Proof.
  revert c N n ls. induction k as [|k IH]; intros c N n ls Hb; [by apply wp_ret|]. cbn [read_decimal]. apply wp_get.
  destruct (isdigit (ls_current ls)) eqn:E; [|by apply wp_ret].
  eapply wp_seq; [eapply wp_next_bd; [exact Hb|by apply isdigit_not_end]|]. intros [] ls1 Hb1.
  eapply wp_mono; [by eapply IH| |done]. intros ? ls2 Hb2. eapply bd_mono; [exact Hb2|lia..].
Qed.

(** An escape takes two characters at least and saves one at most. *)
Lemma wp_read_escape_bd N n l ls :
  bd N n l ls -> ls_current ls <> EOZ -> wp read_escape (fun _ => bd N (n - 1) l) lex_err ls.
Proof.
  intros Hb Hc. assert (HN1 : (1 <= N)%nat) by (bd_inv Hb Hc; lia).
  unfold read_escape. eapply wp_seq; [by eapply wp_next_bd|]. intros [] ls1 Hb1. apply wp_get.
  set (M := (N - 1)%nat) in *. assert (HM : N = S M) by lia.
  destruct (escape (ls_current ls1)) as [x|] eqn:Ee.
  { assert (Hc1 : ls_current ls1 <> EOZ) by (intros E; by rewrite E in Ee).
    bd_inv Hb1 Hc1. eapply wp_seq; [by eapply wp_save|]. intros [] ls2 Hat2.
    eapply wp_mono; [by eapply wp_next| |done]. intros [] ls3 Hat3.
    eapply bd_at; [exact Hat3|rewrite ?length_app; cbn [length]; lia..]. }
  destruct (_ || _) eqn:Enl.
  { eapply wp_mono; [by eapply wp_save_newline_bd| |done]. intros [] ls2 Hb2. eapply bd_mono; [exact Hb2|lia..]. }
  destruct (Z.eqb_spec (ls_current ls1) EOZ) as [|Hc1]; [apply wp_ret; eapply bd_mono; [exact Hb1|lia..]|].
  destruct (isdigit (ls_current ls1)); cbn [negb].
  - eapply wp_seq; [by eapply wp_read_decimal_bd|]. intros c ls2 Hb2. case_if; [apply wp_bind; eapply wp_lexerror_bd, Hb2|].
    apply wp_bind, wp_ret. eapply wp_mono; [eapply wp_save_bd, Hb2| |done]. intros [] ls3 Hb3. eapply bd_mono; [exact Hb3|lia..].
  - eapply wp_mono; [by eapply wp_save_and_next_bd| |done]. intros [] ls2 Hb2. eapply bd_mono; [exact Hb2|lia..].
Qed.

Lemma wp_string_loop_bd fuel del N n l ls :
  del <> EOZ -> bd N n l ls -> (n < fuel)%nat ->
  wp (string_loop fuel del) (fun _ ls' => bd N n l ls' /\ ls_current ls' = del) lex_err ls.
Proof.
  intros Hd. revert n ls. induction fuel as [|fuel IH]; intros n ls Hb Hf; [lia|]. cbn [string_loop]. apply wp_get.
  destruct (Z.eqb_spec (ls_current ls) del) as [E|Hne]; [by apply wp_ret|].
  destruct (Z.eqb_spec (ls_current ls) EOZ) as [E|Hc]; [apply wp_bind; by eapply wp_lexerror_bd|].
  assert (Hn : exists m, n = S m) by (bd_inv Hb Hc; eauto). destruct Hn as [m ->].
  eapply (wp_seq _ _ (fun _ => bd N m l)).
  - destruct (_ || _); [by eapply wp_lexerror_bd|]. destruct (_ =? 92).
    + eapply wp_mono; [by eapply wp_read_escape_bd| |done]. intros [] ls1 Hb1. eapply bd_mono; [exact Hb1|lia..].
    + eapply wp_mono; [by eapply wp_save_and_next_bd| |done]. intros [] ls1 Hb1. eapply bd_mono; [exact Hb1|lia..].
  - intros [] ls1 Hb1. eapply wp_mono; [apply IH; [exact Hb1|lia]| |done]. intros [] ls2 [Hb2 E2]. split; [|done].
    eapply bd_mono; [exact Hb2|lia..].
Qed.

Lemma wp_read_string_bd del N n l ls :
  bd N n l ls -> ls_current ls = del -> del <> EOZ -> Z.of_nat N < 2 ^ 62 ->
  wp (read_string del) (fun _ => bd N (n - 1) 0) lex_err ls.
Proof.
  intros Hb Hc Hd HN. unfold read_string. eapply wp_seq; [eapply wp_save_and_next_bd; [exact Hb|congruence]|]. intros [] ls1 Hb1.
  apply wp_get. pose proof Hb1 as [Hok1 Hn1 HN1 Hl1]. rewrite left_chars.
  eapply wp_seq; [apply (wp_string_loop_bd _ del N (length (chars ls1)) (S l)); [done|by split|lia]|].
  intros [] ls2 [Hb2 E2]. eapply wp_seq; [eapply wp_save_and_next_bd; [exact Hb2|congruence]|]. intros [] ls3 Hb3.
  apply wp_get. assert (Z.of_nat (S (S l)) <= zlen (ls_buff ls3)) by (unfold zlen; destruct Hb3; lia).
  eapply wp_mono; [eapply wp_buffer_string; [exact Hb3|done|lia..]| |done].
  intros ? ls4 Hb4. eapply bd_mono; [exact Hb4|lia..].
Qed.

(** ** Tokens *)

(** After a turn of the main loop that started before the end: it took a
    character, and it gave a token or a state to go on from. *)
Definition turn N n (r : option Token) ls : Prop :=
  (1 <= n)%nat /\
  match r with
  | None => bd N (n - 1) 0 ls
  | Some t => tk_token t <> TK_EOS /\ bd (S N) (n - 1) 0 ls
  end.

Lemma turn_token N n t l ls : (1 <= n)%nat -> tk_token t <> TK_EOS -> bd N (n - 1) l ls -> turn N n (Some t) ls.
Proof. intros ?? Hb. split; [done|]. split; [done|]. eapply bd_mono; [exact Hb|lia..]. Qed.

Lemma turn_mono N n N' n' r ls : turn N n r ls -> (N <= N')%nat -> (n <= n')%nat -> turn N' n' r ls.
Proof.
  intros [Hpos Hr] ??. split; [lia|]. destruct r as [t|]; [destruct Hr as [Ht Hb]; split; [done|]; eapply bd_mono; [exact Hb|lia..]|].
  eapply bd_mono; [exact Hr|lia..].
Qed.

Lemma bd_pos N n l ls : bd N n l ls -> ls_current ls <> EOZ -> (1 <= n)%nat /\ (1 <= N)%nat.
Proof. intros Hb Hc. bd_inv Hb Hc. lia. Qed.

Lemma wp_with_eq_bd c tk N n l ls :
  c <> TK_EOS -> tk <> TK_EOS -> bd N n l ls -> ls_current ls <> EOZ ->
  wp (with_eq c tk) (turn N n) lex_err ls.
Proof.
  intros H1c H2c Hb Hc. pose proof (bd_pos _ _ _ _ Hb Hc). unfold with_eq.
  eapply wp_seq; [by eapply wp_next_bd|]. intros [] ls1 Hb1. apply wp_get.
  destruct (Z.eqb_spec (ls_current ls1) 61) as [E|E]; cbn [negb].
  - eapply wp_seq; [eapply wp_next_bd; [exact Hb1|unfold EOZ; lia]|]. intros [] ls2 Hb2. apply wp_ret.
    eapply (turn_token _ _ _ 0); [lia|done|eapply bd_mono; [exact Hb2|lia..]].
  - apply wp_ret. eapply (turn_token _ _ _ 0); [lia|done|eapply bd_mono; [exact Hb1|lia..]].
Qed.

(** The token of a name: the reserved word with its spelling, if there is one. *)
Definition name_token str (t : Token) : Prop :=
  match list_find (fun w => bytes_of_string w = str) reserved_words with
  | Some (i, _) => t = mkToken (Z.of_nat i + FIRST_RESERVED) NoInfo
  | None => exists ts, t = mkToken TK_NAME (SString ts) /\ ts_str ts = str
  end.

Lemma reserved_words_inj : NoDup (bytes_of_string <$> reserved_words).
Proof. by apply (bool_decide_eq_true_1 (NoDup (bytes_of_string <$> reserved_words))); vm_compute. Qed.

Lemma reserved_words_length : length reserved_words = 21%nat.
Proof. done. Qed.

Lemma wp_name_token str cs b ls :
  at_ cs b ls -> wf_bytes str -> zlen str < 2 ^ 63 ->
  wp (ts ← luaX_newstring str;
      ls ← get;
      let r := default 0 (ls_reserved ls !! ts_addr ts) in
      if r >? 0 then mret (Some (mkToken (r - 1 + FIRST_RESERVED) NoInfo))
      else mret (Some (mkToken TK_NAME (SString ts))))
    (fun r ls' => at_ cs b ls' /\ exists t, r = Some t /\ name_token str t /\ tk_token t <> TK_EOS) lex_err ls.
Proof.
  intros Hat Hw Hl. eapply wp_seq; [eapply wp_newstring; [exact Hat|done..]|]. intros ts ls1 [Hat1 [Hstr Hint]]. apply wp_get. cbv zeta.
  destruct (lx_res _ (proj1 Hat1)) as [Hwords Hmarked]. pose proof (lx_strt _ (proj1 Hat1)) as Hst.
  unfold name_token. destruct (list_find _ reserved_words) as [[i w]|] eqn:Ef.
  - apply list_find_Some in Ef as (Hi & Hwi & _). destruct (Hwords i w Hi) as (a & Ha & Hr).
    assert (a = ts_addr ts) as ->.
    { destruct Ha as (t1 & Ht1 & E1 & <-), Hint as (t2 & Ht2 & E2 & <-). f_equal.
      apply (NoDup_fmap_elem ts_str _ _ _ (so_str _ Hst) Ht1 Ht2). congruence. }
    rewrite Hr. cbn [default]. unfold id. destruct (Z.gtb_spec (Z.of_nat i + 1) 0); [|lia]. apply wp_ret. cbn beta. split; [done|].
    eexists. split; [done|]. split; [f_equal; lia|]. apply lookup_lt_Some in Hi. rewrite reserved_words_length in Hi.
    cbn. unfold TK_EOS, FIRST_RESERVED. lia.
  - assert (Hnone : ls_reserved ls1 !! ts_addr ts = None).
    { destruct (ls_reserved ls1 !! ts_addr ts) as [r|] eqn:Er; [exfalso|done].
      destruct (Hmarked _ _ Er) as (i & w & Hi & _ & Hiw).
      apply list_find_None in Ef. rewrite Forall_forall in Ef. apply (Ef w); [by eapply list_elem_of_lookup_2|].
      by eapply interned_inj. }
    rewrite Hnone. apply wp_ret. split; [done|]. eexists. split; [done|]. split; [by exists ts|done].
Qed.

Lemma wp_read_name_bd N n l ls :
  bd N n l ls -> ls_current ls <> EOZ -> Z.of_nat N < 2 ^ 62 -> wp read_name (turn N n) lex_err ls.
Proof.
  intros Hb Hc HN. pose proof (bd_pos _ _ _ _ Hb Hc). unfold read_name.
  eapply wp_seq; [by eapply wp_save_and_next_bd|]. intros [] ls1 Hb1.
  assert (Hb1' : bd N (n - 1) l ls1) by (eapply bd_mono; [exact Hb1|lia..]).
  assert (H2c : forall ls, isalnum (ls_current ls) || (ls_current ls =? 95) = true -> ls_current ls <> EOZ)
    by (intros ls2 [?%isalnum_not_end|?]%orb_true_iff; b2p; unfold EOZ in *; [done|lia]).
  eapply wp_seq; [apply wp_while; [exact H2c| |exact Hb1']|].
  { intros m ls2 Hb2 Hc2. eapply wp_mono; [eapply wp_save_and_next_bd; [exact Hb2|by apply H2c]| |done].
    intros [] ls3 Hb3. eapply bd_mono; [exact Hb3|lia..]. }
  intros [] ls2 [Hb2 _]. apply wp_get. destruct Hb2 as [Hok2 Hn2 HN2 Hl2].
  eapply wp_mono; [eapply wp_name_token; [by apply at_intro|apply (lx_bytes _ Hok2)|unfold zlen; lia]| |done].
  intros r ls3 (Hat3 & t & -> & _ & Ht). eapply (turn_token _ _ _ 0); [lia|done|].
  eapply bd_at; [exact Hat3|lia..].
Qed.

Lemma wp_read_bracket_bd N n l ls :
  bd N n l ls -> ls_current ls <> EOZ -> Z.of_nat N < 2 ^ 62 -> wp read_bracket (turn N n) lex_err ls.
Proof.
  intros Hb Hc HN. pose proof (bd_pos _ _ _ _ Hb Hc). unfold read_bracket.
  eapply wp_seq; [by eapply wp_skip_sep_bd|]. intros sep ls1 [Hb1 Hsep].
  destruct (Z.geb_spec sep 0) as [Hs|Hs].
  - destruct (Hsep ltac:(lia)) as [Hc1 Hb1']. eapply wp_seq.
    { eapply (wp_read_long_string_bd true sep); [lia| |exact HN|exact Hb1'|exact Hc1]. lia. }
    intros i ls2 Hb2. apply wp_ret. eapply (turn_token _ _ _ 0); [lia|done|eapply bd_mono; [exact Hb2|lia..]].
  - case_if; [|by eapply wp_lexerror_bd]. apply wp_ret. eapply turn_token; [lia|done|exact Hb1].
Qed.

Lemma wp_read_minus_bd N n l ls :
  bd N n l ls -> ls_current ls <> EOZ -> Z.of_nat N < 2 ^ 62 -> wp read_minus (turn N n) lex_err ls.
Proof.
  intros Hb Hc HN. pose proof (bd_pos _ _ _ _ Hb Hc). unfold read_minus.
  eapply wp_seq; [by eapply wp_next_bd|]. intros [] ls1 Hb1. apply wp_get.
  destruct (Z.eqb_spec (ls_current ls1) 45) as [E|E]; cbn [negb].
  2: { apply wp_ret. eapply (turn_token _ _ _ 0); [lia|done|eapply bd_mono; [exact Hb1|lia..]]. }
  eapply wp_seq; [eapply wp_next_bd; [exact Hb1|unfold EOZ; lia]|]. intros [] ls2 Hb2. apply wp_get.
  eapply (wp_seq _ _ (fun _ => bd N (n - 1) 0)).
  - destruct (Z.eqb_spec (ls_current ls2) 91) as [E2|_]; [|apply wp_ret; eapply bd_mono; [exact Hb2|lia..]].
    eapply wp_seq; [eapply wp_skip_sep_bd; [exact Hb2|unfold EOZ; lia]|]. intros sep ls3 [Hb3 Hsep].
    destruct (Z.geb_spec sep 0) as [Hs|Hs].
    + destruct (Hsep ltac:(lia)) as [Hc3 _]. clear Hsep.
      eapply (wp_seq _ _ (fun _ ls' => bd N (n - 1) 0 ls' /\ ls_current ls' <> EOZ)).
      { unfold luaZ_resetbuffer, modify, wp. split; [|done]. destruct Hb3 as [Hok3 Hn3 HN3 _].
        apply (bd_at _ _ _ (chars ls3) []); [|cbn; lia..].
        apply (at_buff [] _ (ls_buff ls3)); [pose proof (lx_size _ Hok3); change (zlen []) with 0; lia|constructor|by apply at_intro]. }
      intros [] ls4 [Hb4 Hc4]. eapply wp_seq; [apply (wp_read_long_string_bd false sep N (n - 1) 0); [lia|done|exact HN|exact Hb4|exact Hc4]|].
      intros ? ls5 Hb5. eapply wp_seq; [eapply wp_reset_bd, Hb5|]. intros [] ls6 [_ Hb6]. apply wp_ret.
      eapply bd_mono; [exact Hb6|lia..].
    + eapply wp_seq; [eapply wp_reset_bd, Hb3|]. intros [] ls4 [_ Hb4]. apply wp_ret. eapply bd_mono; [exact Hb4|lia..].
  - intros long ls3 Hb3. eapply (wp_seq _ _ (fun _ => bd N (n - 1) 0)); [|intros [] ls4 Hb4; apply wp_ret; split; [lia|exact Hb4]].
    destruct long; [by apply wp_ret|]. eapply wp_mono; [apply wp_while; [| |exact Hb3]| |done].
    + intros ls4 [_ ?%negb_true_iff%Z.eqb_neq]%andb_true_iff. done.
    + intros m ls4 Hb4 [_ Hc4%negb_true_iff%Z.eqb_neq]%andb_true_iff.
      eapply wp_mono; [by eapply wp_next_bd| |done]. intros [] ls5 Hb5. eapply bd_mono; [exact Hb5|lia..].
    + by intros [] ls4 [Hb4 _].
Qed.

Lemma wp_read_dots_bd N n l ls :
  bd N n l ls -> ls_current ls <> EOZ -> wp read_dots (turn N n) lex_err ls.
Proof.
  intros Hb Hc. pose proof (bd_pos _ _ _ _ Hb Hc). unfold read_dots.
  eapply wp_seq; [by eapply wp_save_and_next_bd|]. intros [] ls1 Hb1.
  eapply wp_seq; [eapply wp_check_next_bd; [done|exact Hb1]|]. intros d ls2 Hb2. destruct d.
  - eapply wp_seq; [eapply wp_check_next_bd; [done|exact Hb2]|]. intros d ls3 Hb3. apply wp_ret.
    eapply turn_token; [lia|by destruct d|exact Hb3].
  - apply wp_get. destruct (isdigit (ls_current ls2)) eqn:E; cbn [negb].
    + eapply wp_seq; [eapply wp_read_numeral_bd; [exact Hb2|by apply isdigit_not_end]|]. intros r ls3 Hb3. apply wp_ret.
      split; [lia|]. split; [done|]. eapply bd_mono; [exact Hb3|lia..].
    + apply wp_ret. eapply turn_token; [lia|done|exact Hb2].
Qed.

Lemma wp_llex_step N n ls :
  bd N n 0 ls -> Z.of_nat N < 2 ^ 62 ->
  wp llex_step (fun r ls' => if ls_current ls =? EOZ then r = Some (mkToken TK_EOS NoInfo) /\ ls' = ls else turn N n r ls')
    lex_err ls.
Proof.
  intros Hb HN. unfold llex_step. apply wp_get. cbv zeta. destruct (Z.eqb_spec (ls_current ls) EOZ) as [->|Hc]; [done|].
  destruct (bd_pos _ _ _ _ Hb Hc).
  assert (Hc8 : in_u 8 (ls_current ls)) by (destruct (lx_char _ (bd_ok _ _ _ _ Hb)) as [?|[? _]]; done).
  assert (Hskip : forall ls', bd (N - 1) (n - 1) 0 ls' -> wp (mret None) (turn N n) lex_err ls').
  { intros ls' Hb'. apply wp_ret. split; [done|]. eapply bd_mono; [exact Hb'|lia..]. }
  destruct ((ls_current ls =? 10) || (ls_current ls =? 13)) eqn:Enl.
  { eapply wp_seq; [eapply wp_inclinenumber_bd; [exact Hb|exact Enl]|]. intros [] ls1 Hb1. by apply Hskip. }
  destruct (ls_current ls =? 45); [by eapply wp_read_minus_bd|].
  destruct (ls_current ls =? 91); [by eapply wp_read_bracket_bd|].
  destruct (ls_current ls =? 61); [by eapply wp_with_eq_bd|].
  destruct (ls_current ls =? 60); [by eapply wp_with_eq_bd|].
  destruct (ls_current ls =? 62); [by eapply wp_with_eq_bd|].
  destruct (ls_current ls =? 126); [by eapply wp_with_eq_bd|].
  destruct ((ls_current ls =? 34) || (ls_current ls =? 39)).
  { eapply wp_seq; [by eapply wp_read_string_bd|]. intros i ls1 Hb1. apply wp_ret. by apply (turn_token _ _ _ 0). }
  destruct (ls_current ls =? 46); [by eapply wp_read_dots_bd|].
  destruct (isspace (ls_current ls)).
  { eapply wp_seq; [by eapply wp_next_bd|]. intros [] ls1 Hb1. by apply Hskip. }
  destruct (isdigit (ls_current ls)).
  { eapply wp_seq; [by eapply wp_read_numeral_bd|]. intros r ls1 Hb1. apply wp_ret. split; [done|]. by split. }
  destruct (isalpha (ls_current ls) || (ls_current ls =? 95)); [by eapply wp_read_name_bd|].
  eapply wp_seq; [by eapply wp_next_bd|]. intros [] ls1 Hb1. apply wp_ret.
  eapply (turn_token _ _ _ 0); [done| |eapply bd_mono; [exact Hb1|lia..]].
  cbn. unfold in_u, TK_EOS in *. lia.
Qed.

(** A token was read: at the end of the stream, or with a character of it. *)
Definition token_read n (t : Token) ls : Prop :=
  lex_ok ls /\
  if tk_token t =? TK_EOS then ls_current ls = EOZ else (length (chars ls) < n)%nat.

Lemma wp_llex_loop fuel N n ls :
  bd N n 0 ls -> Z.of_nat N < 2 ^ 62 -> (n < fuel)%nat ->
  wp (llex_loop fuel) (fun t => token_read n t) lex_err ls.
Proof.
  intros Hb HN. revert n ls Hb. induction fuel as [|fuel IH]; intros n ls Hb Hf; [lia|]. cbn [llex_loop].
  eapply wp_seq; [by apply wp_llex_step|]. intros r ls1 Hr. destruct (Z.eqb_spec (ls_current ls) EOZ) as [E|E].
  { destruct Hr as [-> ->]. apply wp_ret. split; [apply Hb|done]. }
  destruct Hr as [Hn Hr]. destruct r as [t|].
  - destruct Hr as [Ht [Hok Hn' _ _]]. apply wp_ret. split; [done|]. rewrite (proj2 (Z.eqb_neq _ _) Ht). lia.
  - eapply wp_mono; [apply IH; [exact Hr|lia]| |done]. intros t ls2 [Hok Ht]. split; [done|].
    destruct (tk_token t =? TK_EOS); [done|lia].
Qed.

Lemma wp_llex ls :
  lex_ok ls -> zlen (chars ls) < 2 ^ 62 ->
  wp llex (fun t => token_read (length (chars ls)) t) lex_err ls.
Proof.
  intros Hok Hl. unfold llex. eapply wp_seq; [eapply (wp_reset_bd _ (length (chars ls)) 0); split; [exact Hok|done|done|lia]|].
  intros [] ls1 [Hb1 _]. apply wp_get. rewrite left_chars. destruct Hb1 as [Hok1 Hn1 HN1 _].
  eapply wp_mono; [apply (wp_llex_loop _ (length (chars ls)) (length (chars ls1)))| |done].
  - by split; [|..|lia].
  - unfold zlen in Hl. lia.
  - lia.
  - intros t ls2 [Hok2 Ht]. split; [done|]. destruct (tk_token t =? TK_EOS); [done|lia].
Qed.
End bounds.

(** C37: the lexer on any input: luaX_next ends, and it has read the next token,
    or the end of the stream, or it fails with a syntax error, for lack of
    memory or at the limit of a table.  It never reads after the end of the
    stream or outside its buffer, and every token but the last takes a
    character at least, so that scanning a source ends. *)
Theorem luaX_next_total `{Krealloc} `{StringHash} `{KernelStrto} ls :
  lex_ok ls -> tk_token (ls_lookahead ls) = TK_EOS -> zlen (chars ls) < 2 ^ 62 ->
  wp luaX_next (fun _ ls' => token_read (length (chars ls)) (ls_t ls') ls') lex_err ls.
Proof.
  intros Hok Hla Hl. unfold luaX_next. apply wp_modify, wp_get. cbn [ls_lookahead set_lastline]. rewrite Hla. cbn [negb Z.eqb].
  assert (Hok' : lex_ok (set_lastline (ls_linenumber ls) ls)) by (destruct Hok; by split).
  eapply wp_seq; [by apply wp_llex|]. intros t ls1 [[] Ht]. unfold modify, wp. split; [by split|].
  unfold put_token. cbn [ls_t set_tokens]. by destruct t as [k []].
Qed.
