(* ===== verification/LexTokens.v ===== *)
(** * LexTokens.v: which token the lexer reads

    Names are read whole and told from reserved words by their spelling;
    string literals denote the string their escapes spell. *)

From S2P Require Import Prelude Machine Object Mem Zio Str Table TableInv Lex LexSpec.

Section tokens.
Context `{Krealloc} `{StringHash} `{KernelStrto}.
Implicit Types (ls : LexState) (cs b str src rest : bytes).

(** ** One turn of the main loop, at a token *)

Lemma wp_luaX_next cs ls (Q : Token -> LexState -> Prop) :
  at_ cs (ls_buff ls) ls -> tk_token (ls_lookahead ls) = TK_EOS ->
  (forall ls', at_ cs [] ls' -> wp llex_step (fun r ls2 => exists t, r = Some t /\ Q t ls2) lex_err ls') ->
  wp luaX_next (fun _ ls' => exists t ls2, Q t ls2 /\ ls' = set_tokens (put_token t (ls_t ls2)) (ls_lookahead ls2) ls2)
    lex_err ls.
Proof.
  intros Hat Hla Hstep. unfold luaX_next. apply wp_modify, wp_get. cbn [ls_lookahead set_lastline]. rewrite Hla. cbn [negb Z.eqb].
  assert (Hat1 : at_ cs (ls_buff ls) (set_lastline (ls_linenumber ls) ls)) by (destruct Hat as ([] & ? & ?); by split; [split|]).
  unfold llex. apply wp_assoc. eapply wp_seq; [eapply wp_reset, Hat1|]. intros [] ls1 Hat2. apply wp_assoc, wp_get. cbn [llex_loop].
  apply wp_assoc. eapply wp_seq; [by apply Hstep|]. intros r ls2 (t & -> & HQ). apply wp_bind, wp_ret.
  unfold modify, wp. by exists t, ls2.
Qed.

(** ** Names *)

Definition name_char (c : Z) : bool := isalnum c || (c =? 95).
Definition name_start (c : Z) : bool := isalpha c || (c =? 95).

(** [str] is the spelling of a name. *)
Definition is_name str : Prop :=
  match str with c :: r => name_start c = true /\ Forall (fun c => name_char c = true) r | [] => False end.

(** What follows does not continue the name. *)
Definition name_ends rest : Prop := match rest with c :: _ => name_char c = false | [] => True end.

Lemma current_class (f : Z -> bool) cs b ls :
  f EOZ = false -> at_ cs b ls -> f (ls_current ls) = match cs with c :: _ => f c | [] => false end.
Proof.
  intros He Hat. destruct cs as [|c cs]; [by rewrite (at_end _ _ Hat)|]. by destruct (at_current _ _ _ _ Hat) as [-> _].
Qed.

Lemma wp_name_loop fuel str rest b ls :
  Forall (fun c => name_char c = true) str -> name_ends rest -> at_ (str ++ rest) b ls -> (length str < fuel)%nat ->
  wp (mwhile fuel (fun ls => isalnum (ls_current ls) || (ls_current ls =? 95)) save_and_next)
    (fun _ => at_ rest (b ++ str)) lex_err ls.
Proof.
  intros Hs He. revert b ls fuel. induction Hs as [|c str Hc Hs IH]; intros b ls [|fuel] Hat Hf; cbn [length] in Hf; try lia;
    cbn [mwhile]; apply wp_get; pose proof (current_class name_char _ _ _ eq_refl Hat) as E; unfold name_char at 1 in E; rewrite E; cbn [app].
  - rewrite app_nil_r. destruct rest as [|d rest]; [by apply wp_ret|]. cbn in He |- *. rewrite He. by apply wp_ret.
  - rewrite Hc. eapply wp_seq; [by eapply wp_save_and_next|]. intros [] ls1 Hat1.
    eapply wp_mono; [apply (IH (b ++ [c])); [exact Hat1|lia]| |done]. intros [] ls2 Hat2. by rewrite <-app_assoc in Hat2.
Qed.

Lemma name_start_range c :
  name_start c = true -> (65 <= c <= 90 \/ 97 <= c <= 122 \/ 192 <= c <= 255 \/ c = 95).
Proof. unfold name_start, isalpha. intros Hc. repeat (apply orb_true_iff in Hc as [Hc|Hc]); b2p; lia. Qed.

Lemma wp_step_name c str rest ls :
  is_name (c :: str) -> name_ends rest -> zlen (c :: str) < 2 ^ 63 -> at_ (c :: str ++ rest) [] ls ->
  wp llex_step (fun r ls' => exists t, r = Some t /\ at_ rest (c :: str) ls' /\ name_token (c :: str) t) lex_err ls.
Proof.
  intros [Hc Hs] He Hl Hat. unfold llex_step. apply wp_get. cbv zeta.
  destruct (at_current _ _ _ _ Hat) as (-> & Hc8 & _). pose proof (name_start_range c Hc).
  repeat match goal with |- context [c =? ?k] => lazymatch k with 95 => fail | _ => rewrite (proj2 (Z.eqb_neq c k)) by (unfold EOZ; lia) end end.
  cbn [orb].
  destruct (isspace c) eqn:Esp; [exfalso; unfold isspace in Esp; repeat (apply orb_true_iff in Esp as [Esp|Esp]); b2p; lia|].
  destruct (isdigit c) eqn:Ed; [exfalso; unfold isdigit in Ed; b2p; lia|].
  unfold name_start in Hc.
  rewrite Hc.
  unfold read_name. eapply wp_seq; [by eapply wp_save_and_next|]. intros [] ls1 Hat1. cbn [app] in Hat1.
  unfold while. apply wp_assoc, wp_get. rewrite left_chars. pose proof Hat1 as (Hok1 & Hcs1 & Hb1). rewrite Hcs1.
  eapply wp_seq; [apply wp_name_loop; [exact Hs|exact He|exact Hat1|rewrite length_app; lia]|].
  intros [] ls2 Hat2. cbn [app] in Hat2. apply wp_get. pose proof Hat2 as (Hok2 & _ & Hb2). rewrite Hb2.
  eapply wp_mono; [eapply wp_name_token; [exact Hat2|rewrite <-Hb2; apply (lx_bytes _ Hok2)|done]| |done].
  intros r ls3 (Hat3 & t & -> & Ht & _). by exists t.
Qed.

(** a name, that no further letter, digit or underscore follows, is read
    whole: luaX_next gives the reserved word of its spelling, or TK_NAME with
    the name as an interned string, and stops at the character after it. *)
Theorem luaX_next_name str rest ls :
  is_name str -> name_ends rest -> zlen str < 2 ^ 63 ->
  at_ (str ++ rest) (ls_buff ls) ls -> tk_token (ls_lookahead ls) = TK_EOS ->
  wp luaX_next (fun _ ls' => chars ls' = rest /\ lex_ok ls' /\
      exists t old, name_token str t /\ ls_t ls' = put_token t old) lex_err ls.
Proof.
  intros Hs He Hl Hat Hla. destruct str as [|c str]; [done|].
  eapply wp_mono; [apply (wp_luaX_next _ _ (fun t ls' => at_ rest (c :: str) ls' /\ name_token (c :: str) t) Hat Hla)| |done].
  { intros ls' Hat'. eapply wp_mono; [by apply (wp_step_name c str rest)| |done]. intros r ls2 (t & -> & ? & ?). by exists t. }
  intros [] ls' (t & ls2 & [([] & Hcs & _) Ht] & ->). split; [done|]. split; [by split|]. by exists t, (ls_t ls2).
Qed.

(** ** String literals *)

Definition is_digit_val (d : Z) : Prop := 0 <= d <= 9.

(** [spells del src s]: between two [del], the source [src] spells [s]. *)
Inductive spells (del : Z) : bytes -> bytes -> Prop :=
  | sp_nil : spells del [] []
  | sp_plain c src s : c <> del -> c <> 92 -> is_newline c = false -> spells del src s ->
      spells del (c :: src) (c :: s)
  | sp_letter x c src s : escape x = Some c -> spells del src s -> spells del (92 :: x :: src) (c :: s)
  | sp_quoted c src s : escape c = None -> isdigit c = false -> is_newline c = false -> spells del src s ->
      spells del (92 :: c :: src) (c :: s)
  | sp_newline c src s : is_newline c = true -> spells del (skip_pair c src) s ->
      spells del (92 :: c :: src) (10 :: s)
  | sp_decimal x y z src s : is_digit_val x -> is_digit_val y -> is_digit_val z -> 100 * x + 10 * y + z <= 255 ->
      spells del src s ->
      spells del (92 :: 48 + x :: 48 + y :: 48 + z :: src) (100 * x + 10 * y + z :: s).

Lemma isdigit_val d : is_digit_val d -> isdigit (48 + d) = true.
Proof. unfold is_digit_val, isdigit. intros. apply andb_true_iff. split; apply Z.leb_le; lia. Qed.

Lemma wp_read_digit k acc d cs b ls (Q : Z -> LexState -> Prop) :
  is_digit_val d -> at_ (48 + d :: cs) b ls ->
  (forall ls', at_ cs b ls' -> wp (read_decimal k (10 * acc + d)) Q lex_err ls') ->
  wp (read_decimal (S k) acc) Q lex_err ls.
Proof.
  intros Hd Hat Hk. cbn [read_decimal]. apply wp_get. destruct (at_current _ _ _ _ Hat) as (-> & _).
  rewrite isdigit_val by done. eapply wp_seq; [by eapply wp_next|]. intros [] ls1 Hat1.
  replace (10 * acc + (48 + d - 48)) with (10 * acc + d) by lia. by apply Hk.
Qed.

(** The escapes. *)
Lemma wp_escape_letter x c cs b ls :
  escape x = Some c -> at_ (92 :: x :: cs) b ls -> wp read_escape (fun _ => at_ cs (b ++ [c])) lex_err ls.
Proof.
  intros He Hat. unfold read_escape. eapply wp_seq; [by eapply wp_next|]. intros [] ls1 Hat1. apply wp_get. cbv zeta.
  destruct (at_current _ _ _ _ Hat1) as (-> & _). rewrite He.
  eapply wp_seq; [by eapply wp_save|]. intros [] ls2 Hat2. rewrite uwrap_small in Hat2.
  - by eapply wp_next.
  - unfold escape in He. repeat case_match; simplify_eq; unfold in_u; lia.
Qed.

Lemma wp_escape_quoted c cs b ls :
  escape c = None -> isdigit c = false -> is_newline c = false -> at_ (92 :: c :: cs) b ls ->
  wp read_escape (fun _ => at_ cs (b ++ [c])) lex_err ls.
Proof.
  intros He Hd Hn Hat. unfold read_escape. eapply wp_seq; [by eapply wp_next|]. intros [] ls1 Hat1. apply wp_get. cbv zeta.
  destruct (at_current _ _ _ _ Hat1) as (-> & Hin & _). rewrite He. fold (is_newline c). rewrite Hn.
  destruct (Z.eqb_spec c EOZ) as [->|_]; [unfold in_u, EOZ in Hin; lia|]. rewrite Hd. cbn [negb].
  by eapply wp_save_and_next.
Qed.

Lemma escape_newline c : is_newline c = true -> escape c = None.
Proof. unfold is_newline. intros [?|?]%orb_true_iff; b2p; by subst. Qed.

Lemma wp_escape_newline c cs b ls :
  is_newline c = true -> at_ (92 :: c :: cs) b ls ->
  wp read_escape (fun _ => at_ (skip_pair c cs) (b ++ [10])) lex_err ls.
Proof.
  intros Hn Hat. unfold read_escape. eapply wp_seq; [by eapply wp_next|]. intros [] ls1 Hat1. apply wp_get. cbv zeta.
  destruct (at_current _ _ _ _ Hat1) as (-> & _). rewrite escape_newline by done. fold (is_newline c). rewrite Hn.
  eapply wp_seq; [by eapply wp_save|]. intros [] ls2 Hat2. by eapply wp_inclinenumber.
Qed.

Lemma wp_escape_decimal x y z cs b ls :
  is_digit_val x -> is_digit_val y -> is_digit_val z -> 100 * x + 10 * y + z <= 255 ->
  at_ (92 :: 48 + x :: 48 + y :: 48 + z :: cs) b ls ->
  wp read_escape (fun _ => at_ cs (b ++ [100 * x + 10 * y + z])) lex_err ls.
Proof.
  intros Hx Hy Hz Hmax Hat. pose proof (isdigit_val _ Hx) as Hd. unfold read_escape. eapply wp_seq; [by eapply wp_next|]. intros [] ls1 Hat1.
  apply wp_get. cbv zeta. destruct (at_current _ _ _ _ Hat1) as (-> & _). unfold is_digit_val in *.
  assert (He : escape (48 + x) = None).
  { unfold escape. repeat (rewrite (proj2 (Z.eqb_neq (48 + x) _)) by lia). done. }
  rewrite He, Hd. rewrite !(proj2 (Z.eqb_neq (48 + x) _)) by (unfold EOZ; lia). cbn [orb negb].
  eapply (wp_seq _ _ (fun c ls' => c = 100 * x + 10 * y + z /\ at_ cs b ls')).
  - eapply wp_read_digit; [exact Hx|exact Hat1|]. intros ls2 Hat2. eapply wp_read_digit; [exact Hy|exact Hat2|].
    intros ls3 Hat3. eapply wp_read_digit; [exact Hz|exact Hat3|]. intros ls4 Hat4. apply wp_ret. split; [lia|done].
  - intros c ls2 [-> Hat2]. destruct (Z.gtb_spec (100 * x + 10 * y + z) 255); [lia|]. apply wp_bind, wp_ret.
    eapply wp_mono; [by eapply wp_save| |done]. intros [] ls3 Hat3. by rewrite uwrap_small in Hat3 by (unfold in_u; lia).
Qed.

Lemma skip_pair_app c src del rest :
  is_newline del = false -> skip_pair c (src ++ del :: rest) = skip_pair c src ++ del :: rest.
Proof. intros Hd. destruct src as [|d src]; cbn; [by rewrite Hd|]. by destruct (_ && _). Qed.

Definition is_quote (del : Z) : Prop := del = 34 \/ del = 39.

Lemma wp_string_loop fuel del src s rest b ls :
  is_quote del -> spells del src s -> at_ (src ++ del :: rest) b ls -> (length src < fuel)%nat ->
  wp (string_loop fuel del) (fun _ => at_ (del :: rest) (b ++ s)) lex_err ls.
Proof.
  intros Hq Hs. assert (Hdn : is_newline del = false) by (by destruct Hq as [-> | ->]).
  assert (Hd92 : 92 <> del) by (by destruct Hq as [-> | ->]).
  revert b ls fuel.
  induction Hs as [|c src s Hne H92 Hnl Hs IHHs|x c src s He Hs IHHs|c src s He Hdg Hnl Hs IHHs|c src s Hnl Hs IHHs|x y z src s Hx Hy Hz Hmax Hs IHHs];
    intros buf ls [|fuel] Hat Hf; try lia; cbn [string_loop]; apply wp_get; cbv zeta;
    cbn [app length] in *; destruct (at_current _ _ _ _ Hat) as (-> & Hin & _).
  { rewrite Z.eqb_refl. apply wp_ret. by rewrite app_nil_r. }
  1: { rewrite (proj2 (Z.eqb_neq c del)) by done. destruct (Z.eqb_spec c EOZ) as [->|_]; [unfold in_u, EOZ in Hin; lia|].
       fold (is_newline c). rewrite Hnl, (proj2 (Z.eqb_neq c 92)) by done.
       eapply wp_seq; [by eapply wp_save_and_next|]. intros [] ls1 Hat1.
       eapply wp_mono; [apply IHHs; [exact Hat1|lia]| |done]. intros [] ls2 Hat2. by rewrite <-app_assoc in Hat2. }
  all: rewrite (proj2 (Z.eqb_neq 92 del)) by done; change (92 =? EOZ) with false; cbn [orb Z.eqb Pos.eqb].
  - eapply wp_seq; [by eapply wp_escape_letter|]. intros [] ls1 Hat1.
    eapply wp_mono; [apply IHHs; [exact Hat1|lia]| |done]. intros [] ls2 Hat2. by rewrite <-app_assoc in Hat2.
  - eapply wp_seq; [by eapply wp_escape_quoted|]. intros [] ls1 Hat1.
    eapply wp_mono; [apply IHHs; [exact Hat1|lia]| |done]. intros [] ls2 Hat2. by rewrite <-app_assoc in Hat2.
  - eapply wp_seq; [by eapply wp_escape_newline|]. intros [] ls1 Hat1. rewrite skip_pair_app in Hat1 by done.
    pose proof (skip_pair_length c src).
    eapply wp_mono; [apply IHHs; [exact Hat1|lia]| |done]. intros [] ls2 Hat2. by rewrite <-app_assoc in Hat2.
  - eapply wp_seq; [apply (wp_escape_decimal x y z); [done..|exact Hat]|]. intros [] ls1 Hat1.
    eapply wp_mono; [apply IHHs; [exact Hat1|lia]| |done]. intros [] ls2 Hat2. by rewrite <-app_assoc in Hat2.
Qed.

Lemma wp_step_string del src s rest ls :
  is_quote del -> spells del src s -> zlen s < 2 ^ 62 -> at_ (del :: src ++ del :: rest) [] ls ->
  wp llex_step (fun r ls' => exists ts, r = Some (mkToken TK_STRING (SString ts)) /\ ts_str ts = s /\
    lex_ok ls' /\ chars ls' = rest) lex_err ls.
Proof.
  intros Hq Hs Hl Hat. unfold llex_step. apply wp_get. cbv zeta. destruct (at_current _ _ _ _ Hat) as (-> & _).
  assert (Hstr : wp (i ← read_string del; mret (Some (mkToken TK_STRING i))) (fun r ls' => exists ts,
    r = Some (mkToken TK_STRING (SString ts)) /\ ts_str ts = s /\ lex_ok ls' /\ chars ls' = rest) lex_err ls).
  2: { by destruct Hq as [-> | ->]. }
  unfold read_string. apply wp_assoc. eapply wp_seq; [by eapply wp_save_and_next|]. intros [] ls1 Hat1. cbn [app] in Hat1.
  apply wp_assoc, wp_get. rewrite left_chars. pose proof (proj1 (proj2 Hat1)) as Hcs1. rewrite Hcs1.
  apply wp_assoc. eapply wp_seq; [eapply wp_string_loop; [exact Hq|exact Hs|exact Hat1|rewrite length_app; lia]|].
  intros [] ls2 Hat2. apply wp_assoc. eapply wp_seq; [by eapply wp_save_and_next|]. intros [] ls3 Hat3. cbn [app] in Hat3.
  pose proof Hat3 as (Hok3 & _ & Hb3). assert (Hlen : zlen (ls_buff ls3) = zlen s + 2).
  { rewrite Hb3, zlen_cons, zlen_app. change (zlen [del]) with 1. lia. }
  pose proof (zlen_nonneg s). apply wp_assoc, wp_get, wp_assoc, wp_bind. unfold wp at 1.
  rewrite sub_buffer_ok by lia. replace (zlen (ls_buff ls3) - 2) with (zlen s) by lia.
  assert (Hsl : slice 1 (zlen s) (ls_buff ls3) = s).
  { unfold slice. rewrite Hb3. change (drop (Z.to_nat 1) (del :: s ++ [del])) with (s ++ [del]).
    unfold zlen. rewrite Nat2Z.id. apply take_app_length. }
  rewrite Hsl. apply wp_assoc. eapply wp_seq.
  { eapply wp_newstring; [exact Hat3| |lia]. rewrite <-Hsl. apply slice_wf, (lx_bytes _ Hok3). }
  intros ts ls4 [(Hok4 & Hcs4 & _) [Hts _]]. apply wp_bind, wp_ret, wp_ret. by exists ts.
Qed.

(** a string literal between two quotes of a kind denotes the string its
    escapes spell (letters, three decimal digits, escaped newlines of one or
    two characters, any other character as itself): luaX_next gives TK_STRING
    with that string and stops after the closing quote. *)
Theorem luaX_next_string del src s rest ls :
  is_quote del -> spells del src s -> zlen s < 2 ^ 62 ->
  at_ (del :: src ++ del :: rest) (ls_buff ls) ls -> tk_token (ls_lookahead ls) = TK_EOS ->
  wp luaX_next (fun _ ls' => chars ls' = rest /\ lex_ok ls' /\
      exists ts, ls_t ls' = mkToken TK_STRING (SString ts) /\ ts_str ts = s) lex_err ls.
Proof.
  intros Hq Hs Hl Hat Hla.
  eapply wp_mono; [apply (wp_luaX_next _ _ (fun t ls' => exists ts, t = mkToken TK_STRING (SString ts) /\ ts_str ts = s /\
    lex_ok ls' /\ chars ls' = rest) Hat Hla)| |done].
  { intros ls' Hat'. eapply wp_mono; [by apply (wp_step_string del src s rest)| |done].
    intros r ls2 (ts & -> & ? & ? & ?). eexists. split; [done|]. by exists ts. }
  intros [] ls' (t & ls2 & (ts & -> & Hts & [] & Hcs) & ->). split; [done|]. split; [by split|]. by exists ts.
Qed.

(** Every string can be written in decimal escapes. *)
Definition decimal_escapes (s : bytes) : bytes :=
  s ≫= (fun c => [92; 48 + c / 100; 48 + (c / 10) mod 10; 48 + c mod 10]).

Lemma spells_decimal del s : wf_bytes s -> spells del (decimal_escapes s) s.
Proof.
  induction 1 as [|c s Hc Hs IH]; [constructor|]. unfold decimal_escapes. cbn [mbind list_bind app].
  unfold in_u in Hc. pose proof (Z.mod_pos_bound c 10 ltac:(lia)). pose proof (Z.mod_pos_bound (c / 10) 10 ltac:(lia)).
  assert (Hd : 100 * (c / 100) + 10 * ((c / 10) mod 10) + c mod 10 = c) by (Z.div_mod_to_equations; lia).
  assert (0 <= c / 100 <= 2) by (Z.div_mod_to_equations; lia).
  rewrite <-Hd at 4. apply sp_decimal; [unfold is_digit_val; lia..|lia|exact IH].
Qed.
End tokens.
