(* ===== verification/LexInit.v ===== *)
(** * LexInit.v: the reserved words, and the lexer at the start of a source

    luaX_init interns the reserved words and marks them; with it and
    luaX_setinput the invariant of the lexer holds. *)

From S2P Require Import Prelude Machine Object Mem Zio Str Table TableInv TableSet TablePut TableCount TableRehash TableSpec Lex LexSpec LexTokens.

Section init.
Context `{Krealloc} `{StringHash} `{KernelStrto}.
Implicit Types (ls : LexState) (g : global_State).

(** ** Marking an object keeps the table *)

Definition fix_mark (a : Z) (ts : TString) : TString :=
  if ts_addr ts =? a then mkTString (ts_addr ts) (ts_hash ts) (Z.lor (ts_marked ts) (Z.shiftl 1 FIXEDBIT)) (ts_str ts) else ts.

Lemma concat_fmap_fmap {A B} (f : A -> B) (l : list (list A)) : concat ((fun x : list A => f <$> x) <$> l) = f <$> concat l.
Proof. induction l as [|x l IH]; [done|]. cbn. by rewrite IH, fmap_app. Qed.

Lemma luaS_fix_ok ts g :
  strt_ok g -> exists g', luaS_fix ts g = (Ok tt, g') /\ strt_ok g' /\ (forall s a, interned g' s a <-> interned g s a).
Proof.
  intros [Hk [Hl Hb] Hh Hn Hs Ha Hu]. eexists. split; [reflexivity|].
  match goal with |- strt_ok ?g' /\ _ => set (g1 := g') end.
  assert (He : Str.entries g1 = fix_mark (ts_addr ts) <$> Str.entries g) by apply (concat_fmap_fmap (fix_mark (ts_addr ts))).
  assert (Hmap : forall {B} (f : TString -> B), (forall t, f (fix_mark (ts_addr ts) t) = f t) -> f <$> Str.entries g1 = f <$> Str.entries g).
  { intros B f Hf. rewrite He, <-list_fmap_compose. apply list_fmap_ext. intros _ t _. apply Hf. }
  assert (Hkey : forall t, ts_str (fix_mark (ts_addr ts) t) = ts_str t /\ ts_hash (fix_mark (ts_addr ts) t) = ts_hash t /\
    ts_addr (fix_mark (ts_addr ts) t) = ts_addr t) by (intros t; unfold fix_mark; by destruct (_ =? _)).
  split.
  - split; [done| | | | | |].
    + split; cbn; [by rewrite <-Hl; unfold zlen; rewrite length_fmap|]. intros i o t Ho Ht.
      unfold znth in Ho. destruct (i <? 0) eqn:Ei; [done|]. rewrite list_lookup_fmap in Ho.
      destruct (st_hash (g_strt g) !! Z.to_nat i) as [o0|] eqn:Eo; [|done]. cbn in Ho. injection Ho as <-.
      apply list_elem_of_fmap in Ht as (t0 & -> & Ht0). fold (fix_mark (ts_addr ts) t0).
      destruct (Hkey t0) as (_ & -> & _). eapply (Hb i o0); [|done]. unfold znth. by rewrite Ei.
    + rewrite He. apply Forall_fmap. eapply Forall_impl; [exact Hh|]. intros t Ht. cbn. unfold ts_len in *.
      destruct (Hkey t) as (-> & -> & _). done.
    + rewrite He. apply Forall_fmap. eapply Forall_impl; [exact Hn|]. intros t Ht. cbn.
      destruct (Hkey t) as (_ & _ & ->). done.
    + rewrite Hmap; [done|]. intros t. apply Hkey.
    + rewrite Hmap; [done|]. intros t. apply Hkey.
    + cbn [g_strt set_strt st_nuse g1]. rewrite Hu, He. unfold zlen. by rewrite length_fmap.
  - intros s a. rewrite !interned_entry, Hmap; [done|]. intros t. destruct (Hkey t) as (-> & _ & ->). done.
Qed.

(** ** The reserved words *)

(** The first [n] words are interned and marked, and nothing else is marked. *)
Record marked (n : nat) ls : Prop := {
  mk_strt : strt_ok (ls_G ls);
  mk_words i w : (i < n)%nat -> reserved_words !! i = Some w ->
    exists a, interned (ls_G ls) (bytes_of_string w) a /\ ls_reserved ls !! a = Some (Z.of_nat i + 1);
  mk_marked a r : ls_reserved ls !! a = Some r ->
    exists i w, (i < n)%nat /\ reserved_words !! i = Some w /\ r = Z.of_nat i + 1 /\ interned (ls_G ls) (bytes_of_string w) a;
}.

(** Everything but the world is as it was. *)
Definition same_input ls ls' : Prop := ls' = set_world (ls_h ls) (ls_G ls') (ls_reserved ls') ls.

Lemma words_short : Forall (fun w => zlen (bytes_of_string w) <= 20) reserved_words.
Proof. apply (bool_decide_eq_true_1 (Forall _ _)). vm_compute. reflexivity. Qed.

Lemma word_range i w : reserved_words !! i = Some w -> (i < 21)%nat /\ wf_bytes (bytes_of_string w) /\ zlen (bytes_of_string w) < 2 ^ 63.
Proof.
  intros Hi. assert (Hr := lookup_lt_Some _ _ _ Hi). rewrite reserved_words_length in Hr. split; [done|].
  split; [apply bytes_of_string_wf|]. pose proof (Forall_lookup_1 _ _ _ _ words_short Hi) as Hs. cbn beta in Hs. lia.
Qed.

Lemma wp_init_words n words ls :
  drop n reserved_words = words -> (n <= 21)%nat -> marked n ls ->
  wp (init_words (Z.of_nat n) words) (fun _ ls' => marked 21 ls' /\ same_input ls ls') lex_err ls.
Proof.
  revert n ls. induction words as [|w words IH]; intros n ls Hd Hn Hm; cbn [init_words].
  { assert (n = 21%nat) as ->.
    { apply (f_equal length) in Hd. rewrite length_drop, reserved_words_length in Hd. cbn in Hd. lia. }
    apply wp_ret. split; [done|]. by destruct ls. }
  assert (Hw : reserved_words !! n = Some w).
  { rewrite <-(Nat.add_0_r n), <-lookup_drop, Hd. done. }
  destruct (word_range _ _ Hw) as (Hn' & Hwf & Hlen). destruct Hm as [Hst Hwords Hmarked].
  destruct (luaS_newlstr_spec (bytes_of_string w) (ls_G ls) Hst Hwf Hlen) as (r & g1 & E1 & Hst1 & _ & Hp).
  apply wp_bind. unfold wp at 1, onLexG. rewrite E1. destruct r as [ts|e]; [|by right; left; apply Hp].
  destruct Hp as (Hstr & Hint & Huniq & Hother & _).
  assert (Hmono : forall s a, interned (ls_G ls) s a -> interned g1 s a).
  { intros s a Hs. destruct (decide (s = bytes_of_string w)) as [->|Hne]; [by rewrite <-(Huniq _ Hs)|by apply Hother]. }
  destruct (luaS_fix_ok ts g1 Hst1) as (g2 & E2 & Hst2 & Hi2).
  apply wp_bind. unfold wp at 1. cbn [ls_G set_world]. rewrite E2. apply wp_modify.
  replace (Z.of_nat n + 1) with (Z.of_nat (S n)) by lia. eapply wp_mono; [apply (IH (S n)); [|lia|]| |done].
  - pose proof (drop_drop reserved_words 1 n) as Hdd. rewrite Hd, Nat.add_1_r in Hdd. by rewrite <-Hdd.
  - assert (Hu8 : u8 (Z.of_nat (S n)) = Z.of_nat n + 1) by (rewrite uwrap_small by (unfold in_u; lia); lia). rewrite Hu8.
    assert (Hnew : forall i v a, (i < n)%nat -> reserved_words !! i = Some v -> interned g1 (bytes_of_string v) a -> a <> ts_addr ts).
    { intros i v a Hi Hv Ha ->. assert (Heq : bytes_of_string v = bytes_of_string w) by (by apply (interned_inj g1 _ _ (ts_addr ts))).
      assert (i = n); [|lia]. eapply (NoDup_lookup (bytes_of_string <$> reserved_words) i n).
      - apply reserved_words_inj.
      - rewrite list_lookup_fmap, Hv. reflexivity.
      - rewrite list_lookup_fmap, Hw. cbn. by rewrite Heq. }
    split; cbn [ls_G ls_reserved set_world].
    + done.
    + intros i v Hi Hv. destruct (decide (i = n)) as [->|Hne].
      * assert (v = w) as -> by congruence. exists (ts_addr ts). rewrite lookup_insert_eq. split; [by apply Hi2|done].
      * destruct (Hwords i v ltac:(lia) Hv) as (a & Ha & Hr). exists a. apply Hmono in Ha.
        rewrite lookup_insert_ne by (apply not_eq_sym; eapply Hnew; [|exact Hv|exact Ha]; lia). split; [by apply Hi2|done].
    + intros a r Hr. destruct (decide (ts_addr ts = a)) as [<-|Hne].
      * rewrite lookup_insert_eq in Hr. simplify_eq. exists n, w. split_and!; [lia|done|done|by apply Hi2].
      * rewrite lookup_insert_ne in Hr by done. destruct (Hmarked a r Hr) as (i & v & Hi & Hv & -> & Ha).
        exists i, v. split_and!; [lia|done|done|by apply Hi2, Hmono].
  - intros [] ls' [Hm' Hs']. split; [done|]. unfold same_input in *. by rewrite Hs'.
Qed.

Lemma marked_reserved ls : marked 21 ls -> strt_ok (ls_G ls) /\ reserved_ok (ls_G ls) (ls_reserved ls).
Proof.
  intros [Hst Hw Hm]. split; [done|]. split.
  - intros i w Hi. apply Hw; [|done]. apply (word_range i w Hi).
  - intros a r Hr. destruct (Hm a r Hr) as (i & w & _ & ? & ? & ?). by exists i, w.
Qed.

(** ** The start of a source *)

(** The function state of the parser is there, with its table. *)
Definition with_fs (t : Table) ls : LexState := set_world (Some t) (ls_G ls) (ls_reserved ls) ls.

Lemma wp_luaX_setinput z source t ls :
  strt_ok (ls_G ls) -> reserved_ok (ls_G ls) (ls_reserved ls) -> table_ok t -> zio_ok z ->
  ls_buff ls = [] -> 0 <= ls_buffsize ls ->
  wp (luaX_setinput z source)
    (fun _ ls' => lex_ok (with_fs t ls') /\ chars ls' = zrest z /\ tk_token (ls_lookahead ls') = TK_EOS /\ ls_linenumber ls' = 1)
    lex_err ls.
Proof.
  intros Hst Hro Ht Hz Hb Hs. unfold luaX_setinput. apply wp_modify, wp_get. cbn [ls_buffsize].
  unfold luaZ_resizebuffer. rewrite Hb. match goal with |- context [mkLex ?a 1 1 ?t0 ?la None ?g ?r z [] ?n source 46] => set (ls1 := mkLex a 1 1 t0 la None g r z [] n source 46) end.
  apply wp_assoc. apply wp_bind. unfold wp at 1. rewrite luaM_reallocv_fits by (unfold LUA_MINBUFFER; lia).
  match goal with |- context [luaM_realloc_ ?a ?b ls1] => destruct (luaM_realloc_ a b ls1) as [[u|e] ls2] eqn:E end.
  2: { apply luaM_realloc_Err in E as (-> & _). right. by left. }
  apply luaM_realloc_Ok in E as ->. apply wp_bind, wp_ret, wp_modify.
  match goal with |- wp next _ _ ?l => set (ls2 := l) end.
  pose proof (zgetc_spec z Hz) as Hg. pose proof (zrest_bytes z Hz) as Hwf. unfold wp, next. change (ls_z ls2) with z.
  assert (Hmk : forall c z', (c = EOZ \/ (in_u 8 c /\ zio_ok z')) -> lex_ok (with_fs t (set_current c z' ls2))).
  { intros c z' Hc. split; cbn; try done.
    - constructor.
    - by apply (strt_ok_mem _ (ls_G ls)).
    - eapply reserved_ok_mono; [|exact Hro]. done.
    - by exists t. }
  destruct (zrest z) as [|c r].
  - destruct Hg as [z' ->]. split; [apply Hmk; by left|done].
  - destruct Hg as (z' & -> & Hz' & Hr). apply Forall_cons in Hwf as [Hc _]. split; [apply Hmk; by right|].
    split; [|done]. unfold chars. cbn. destruct (Z.eqb_spec c EOZ) as [->|]; [|by rewrite Hr]. unfold in_u, EOZ in Hc. lia.
Qed.

(** From an empty engine to the first character. *)
Lemma wp_start reader source t ls :
  strt_ok (ls_G ls) -> ls_reserved ls = ∅ -> table_ok t -> ls_buff ls = [] -> 0 <= ls_buffsize ls ->
  Forall (fun b => b <> [] /\ zlen b < 2 ^ 64) reader -> Forall wf_bytes reader ->
  wp (luaX_init;; luaX_setinput (luaZ_init reader) source)
    (fun _ ls' => lex_ok (with_fs t ls') /\ chars ls' = concat reader /\ tk_token (ls_lookahead ls') = TK_EOS) lex_err ls.
Proof.
  intros Hst Hr Ht Hb Hs Hrd Hwf. eapply wp_seq.
  { unfold luaX_init. pose proof (wp_init_words 0 reserved_words ls (drop_0 _)) as Hi. change (Z.of_nat 0) with 0 in Hi.
    apply Hi; [lia|]. split; [done|lia|]. intros a r. by rewrite Hr. }
  intros [] ls1 [Hm Hsame]. destruct (marked_reserved _ Hm) as [Hst1 Hro1]. destruct (zio_ok_init reader Hrd Hwf) as [Hz Hzr].
  eapply wp_mono; [apply (wp_luaX_setinput _ _ t); try done; by rewrite Hsame| |intros e He; exact He].
  intros [] ls2 (Hok & Hcs & Hla & _). rewrite Hzr in Hcs. done.
Qed.
End init.

(** luaX_init interns the reserved words and marks each with its token,
    and marks no other string; or memory runs out. *)
Theorem luaX_init_reserves `{Krealloc} `{StringHash} `{KernelStrto} ls :
  strt_ok (ls_G ls) -> ls_reserved ls = ∅ ->
  wp luaX_init (fun _ ls' => strt_ok (ls_G ls') /\ reserved_ok (ls_G ls') (ls_reserved ls') /\ same_input ls ls') lex_err ls.
Proof.
  intros Hst Hr. unfold luaX_init. pose proof (wp_init_words 0 reserved_words ls (drop_0 _)) as Hi. change (Z.of_nat 0) with 0 in Hi.
  eapply wp_mono; [apply Hi; [lia|]| |intros e He; exact He].
  - split; [done|lia|]. intros a r. by rewrite Hr.
  - intros [] ls' [Hm Hs]. destruct (marked_reserved _ Hm) as [Hst' Hro]. exact (conj Hst' (conj Hro Hs)).
Qed.

Lemma wp_is_ok {S A} (m : M S A) Q E s : wp m Q E s -> is_ok (m s).1 = true -> exists a, Q a (m s).2.
Proof. unfold wp. destruct (m s) as [[a|e] s']; [by exists a|done]. Qed.

(** ** Examples *)

#[local] Existing Instance krealloc_always.
#[local] Existing Instance id_hash.

(** Decimal numbers, read as the kernel's functions do. *)
Fixpoint decimal_prefix (b : bytes) (acc : Z) (n : nat) : Z * nat :=
  match b with
  | c :: b => if isdigit c then decimal_prefix b (10 * acc + c - 48) (S n) else (acc, n)
  | [] => (acc, n)
  end.

#[local] Instance decimal_strto : KernelStrto := {|
  simple_strtol b := decimal_prefix b 0 0;
  simple_strtoul16 b := (0, O);
|}.

Definition no_token : Token := mkToken TK_EOS NoInfo.
Definition empty_table : Table := mkTable (u8 (Z.lnot 0)) 0 None [] [dummynode_] true 0 0.
Definition start_state : LexState :=
  mkLex 0 0 0 no_token no_token None tiny_state ∅ (luaZ_init []) [] 0 [] 0.

(** The lexer at the start of a source. *)
Definition start_lexer (src : bytes) : M LexState unit :=
  luaX_init;; luaX_setinput (luaZ_init [src]) (bytes_of_string "@sample").
Definition sample_lex (src : bytes) : LexState := with_fs empty_table (start_lexer src start_state).2.

Lemma sample_run (m : M LexState unit) src s :
  wp m (fun _ ls' => lex_ok (with_fs empty_table ls') /\ chars ls' = concat [src] /\ tk_token (ls_lookahead ls') = TK_EOS) lex_err s ->
  is_ok (m s).1 = true ->
  lex_ok (with_fs empty_table (m s).2) /\ chars (with_fs empty_table (m s).2) = src /\ tk_token (ls_lookahead (with_fs empty_table (m s).2)) = TK_EOS.
Proof.
  intros Hs Hok. destruct (wp_is_ok _ _ _ _ Hs Hok) as [_ (Hl & Hc & Hla)]. cbn [concat] in Hc. rewrite app_nil_r in Hc.
  split; [exact Hl|]. split; [exact Hc|exact Hla].
Qed.

Lemma start_lexer_wp src :
  src <> [] -> zlen src < 2 ^ 64 -> wf_bytes src ->
  wp (start_lexer src) (fun _ ls' => lex_ok (with_fs empty_table ls') /\ chars ls' = concat [src] /\
    tk_token (ls_lookahead ls') = TK_EOS) lex_err start_state.
Proof.
  intros Hne Hlen Hw. unfold start_lexer. apply (wp_start [src] (bytes_of_string "@sample") empty_table start_state).
  - apply tiny_state_ok.
  - reflexivity.
  - by apply table_ok_initial.
  - reflexivity.
  - apply Z.le_refl.
  - by constructor.
  - by constructor.
Qed.

Lemma sample_lex_ok src :
  src <> [] -> zlen src < 2 ^ 64 -> wf_bytes src -> is_ok (start_lexer src start_state).1 = true ->
  lex_ok (sample_lex src) /\ chars (sample_lex src) = src /\ tk_token (ls_lookahead (sample_lex src)) = TK_EOS.
Proof. exact (fun H1 H2 H3 => sample_run (start_lexer src) src start_state (start_lexer_wp src H1 H2 H3)). Qed.

Lemma luaX_init_reserves_witness :
  wp luaX_init (fun _ ls' => strt_ok (ls_G ls') /\ reserved_ok (ls_G ls') (ls_reserved ls') /\ same_input start_state ls') lex_err start_state.
Proof. exact (luaX_init_reserves start_state tiny_state_ok eq_refl). Defined.

(** [while1 "a\n\065"] *)
Definition sample_source : bytes := bytes_of_string "while1 " ++ [34; 97; 92; 110; 92; 48; 54; 53; 34].

Lemma sample_source_ok :
  lex_ok (sample_lex sample_source) /\ chars (sample_lex sample_source) = sample_source /\
  tk_token (ls_lookahead (sample_lex sample_source)) = TK_EOS.
Proof.
  apply sample_lex_ok; [done|done| |vm_compute; reflexivity].
  apply (bool_decide_eq_true_1 (Forall _ _)). vm_compute. reflexivity.
Qed.

Lemma luaX_next_total_witness :
  wp luaX_next (fun _ ls' => token_read (length (chars (sample_lex sample_source))) (ls_t ls') ls') lex_err (sample_lex sample_source).
Proof.
  apply (luaX_next_total (sample_lex sample_source)).
  - apply sample_source_ok.
  - apply sample_source_ok.
  - rewrite (proj1 (proj2 sample_source_ok)). vm_compute. reflexivity.
Defined.

Lemma luaX_next_name_witness :
  wp luaX_next (fun _ ls' => chars ls' = 32 :: drop 7 sample_source /\ lex_ok ls' /\
      exists t old, name_token (bytes_of_string "while1") t /\ ls_t ls' = put_token t old) lex_err (sample_lex sample_source).
Proof.
  apply (luaX_next_name (bytes_of_string "while1") (32 :: drop 7 sample_source) (sample_lex sample_source)).
  - split; [done|]. repeat constructor.
  - done.
  - vm_compute. reflexivity.
  - split; [apply sample_source_ok|]. split; [|done]. rewrite (proj1 (proj2 sample_source_ok)). reflexivity.
  - apply sample_source_ok.
Defined.

(** ["a\n\065"] alone. *)
Definition sample_string : bytes := [34; 97; 92; 110; 92; 48; 54; 53; 34].

Lemma sample_string_ok :
  lex_ok (sample_lex sample_string) /\ chars (sample_lex sample_string) = sample_string /\
  tk_token (ls_lookahead (sample_lex sample_string)) = TK_EOS.
Proof.
  apply sample_lex_ok; [done|done| |vm_compute; reflexivity].
  apply (bool_decide_eq_true_1 (Forall _ _)). vm_compute. reflexivity.
Qed.

Lemma luaX_next_string_witness :
  wp luaX_next (fun _ ls' => chars ls' = [] /\ lex_ok ls' /\
      exists ts, ls_t ls' = mkToken TK_STRING (SString ts) /\ ts_str ts = [97; 10; 65]) lex_err (sample_lex sample_string).
Proof.
  apply (luaX_next_string 34 [97; 92; 110; 92; 48; 54; 53] [97; 10; 65] [] (sample_lex sample_string)).
  - by left.
  - apply sp_plain; [done..|]. apply sp_letter; [done|]. apply (sp_decimal 34 0 6 5); [done..|constructor].
  - vm_compute. reflexivity.
  - split; [apply sample_string_ok|]. split; [|done]. rewrite (proj1 (proj2 sample_string_ok)). reflexivity.
  - apply sample_string_ok.
Defined.
