(* ===== verification/Gc.v ===== *)
(** * Gc.v: the collector's objects, and how it marks them (lgc.h, lgc.c)

    Here an object is a cell of a heap: the byte [marked] of its header, and a
    body.  The lists that lgc.c threads through the objects (rootgc and the
    chains of strings through [next], gray, grayagain and weak through
    [gclist], the open upvalues of a thread through [next]) are lists of
    addresses; that no object is twice on a list is part of the invariants of
    GcInv.v.  rootgc is kept in two parts, before and after the link that
    sweepgc points to.  A pointer is the address it holds, [NULL] is no
    object's.

    This file is the marking half: colours, [reallymarkobject], the traversal
    of each kind of object, [propagateall], the write barriers. *)

From S2P Require Import Prelude Machine Object Mem Table.

(** ** Marks (lgc.h) *)

Definition GCSpause : Z := 0.
Definition GCSpropagate : Z := 1.
Definition GCSsweepstring : Z := 2.
Definition GCSsweep : Z := 3.
Definition GCSfinalize : Z := 4.

Definition bitmask (b : Z) : Z := Z.shiftl 1 b.
Definition bit2mask (b1 b2 : Z) : Z := Z.lor (bitmask b1) (bitmask b2).
Definition resetbits (x m : Z) : Z := Z.land x (u8 (Z.lnot m)).
Definition setbits (x m : Z) : Z := u8 (Z.lor x m).
Definition testbits (x m : Z) : bool := negb (Z.land x m =? 0).

Definition WHITE0BIT : Z := 0.
Definition WHITE1BIT : Z := 1.
Definition BLACKBIT : Z := 2.
Definition FINALIZEDBIT : Z := 3.
Definition KEYWEAKBIT : Z := 3.
Definition VALUEWEAKBIT : Z := 4.
Definition FIXEDBIT : Z := 5.
Definition SFIXEDBIT : Z := 6.
Definition WHITEBITS : Z := bit2mask WHITE0BIT WHITE1BIT.
Definition KEYWEAK : Z := bitmask KEYWEAKBIT.
Definition VALUEWEAK : Z := bitmask VALUEWEAKBIT.

(** Of the byte [marked]. *)
Definition iswhite (m : Z) : bool := testbits m WHITEBITS.
Definition isblack (m : Z) : bool := testbits m (bitmask BLACKBIT).
Definition isgray (m : Z) : bool := negb (isblack m) && negb (iswhite m).
Definition gray2black (m : Z) : Z := setbits m (bitmask BLACKBIT).
Definition white2gray (m : Z) : Z := resetbits m WHITEBITS.
Definition black2gray (m : Z) : Z := resetbits m (bitmask BLACKBIT).
Definition changewhite (m : Z) : Z := Z.lxor m WHITEBITS.
Definition maskmarks : Z := u8 (Z.lnot (Z.lor (bitmask BLACKBIT) WHITEBITS)).
Definition isfinalized (m : Z) : bool := testbits m (bitmask FINALIZEDBIT).
Definition markfinalized (m : Z) : Z := setbits m (bitmask FINALIZEDBIT).

(** ** Objects *)

Definition NULL : Z := 0.

(** Where the value of an upvalue is: in a slot of a thread's stack while it
    is open, in the upvalue itself once it is closed. *)
Inductive UpVal := UOpen (th level : Z) | UClosed (v : TValue).

Inductive Closure :=
  | CClosure (env : Z) (upvalue : list TValue)
  | LClosure (env p : Z) (upvals : list Z).

(** The parts of a prototype that the collector looks at, and the sizes of the
    others.  [locvars] has the names of the local variables. *)
Record ProtoObj := mkProtoObj {
  p_k : list TValue;
  p_p : list Z;
  p_upvalues : list Z;
  p_locvars : list Z;
  p_source : Z;
  p_sizecode : Z;
  p_sizelineinfo : Z;
}.

(** A thread; [th_ci] has the field [top] of each CallInfo in use, and levels
    of the stack are indices.  The stack has [stacksize] slots. *)
Record Thread := mkThread {
  th_gt : TValue;
  th_stack : list TValue;
  th_top : Z;
  th_ci : list Z;
  th_size_ci : Z;
  th_openupval : list Z;
}.

Definition th_stacksize (th : Thread) : Z := zlen (th_stack th).
Definition set_stack (s : list TValue) (th : Thread) : Thread :=
  mkThread (th_gt th) s (th_top th) (th_ci th) (th_size_ci th) (th_openupval th).
Definition set_size_ci (n : Z) (th : Thread) : Thread :=
  mkThread (th_gt th) (th_stack th) (th_top th) (th_ci th) n (th_openupval th).
Definition set_openupval (l : list Z) (th : Thread) : Thread :=
  mkThread (th_gt th) (th_stack th) (th_top th) (th_ci th) (th_size_ci th) l.

Inductive body :=
  | BString (str : bytes)
  | BUserdata (metatable env len : Z)
  | BUpVal (uv : UpVal)
  | BFunction (cl : Closure)
  | BTable (h : Table)
  | BThread (th : Thread)
  | BProto (p : ProtoObj).

Record GCObject := mkObj { marked : Z; obj : body }.

(** [gch.tt] *)
Definition tt_of (b : body) : Z :=
  match b with
  | BString _ => LUA_TSTRING | BUserdata _ _ _ => LUA_TUSERDATA | BUpVal _ => LUA_TUPVAL
  | BFunction _ => LUA_TFUNCTION | BTable _ => LUA_TTABLE | BThread _ => LUA_TTHREAD | BProto _ => LUA_TPROTO
  end.

(** ** The global state *)

Record gstate := mkG {
  gc_heap : gmap Z GCObject;  (* the objects, by address *)
  gc_currentwhite : Z;
  gc_gcstate : Z;
  gc_gray : list Z;  (* g->gray *)
  gc_grayagain : list Z;  (* g->grayagain *)
  gc_weak : list Z;  (* g->weak *)
  gc_totalbytes : Z;
  gc_root_swept : list Z;  (* rootgc up to the link at sweepgc *)
  gc_root_rest : list Z;  (* *sweepgc and what follows *)
  gc_sweepstrgc : Z;
  gc_strt : list (list Z);  (* strt.hash *)
  gc_nuse : Z;  (* strt.nuse *)
  gc_tmudata : list Z;  (* g->tmudata, from its first element *)
  gc_uvhead : list Z;  (* from uvhead.next *)
  gc_next : Z;  (* the address the next object gets *)
  gc_GCthreshold : Z;
  gc_estimate : Z;
  gc_gcdept : Z;
  gc_gcpause : Z;
  gc_gcstepmul : Z;
  gc_buffsize : Z;  (* buff.buffsize *)
  gc_registry : TValue;
  gc_mainthread : Z;
  gc_mt : list Z;  (* NULL or a table *)
  gc_tmname : list Z;
}.

Definition setg_heap (x : gmap Z GCObject) (g : gstate) : gstate :=
  mkG x (gc_currentwhite g) (gc_gcstate g) (gc_gray g) (gc_grayagain g) (gc_weak g) (gc_totalbytes g)
    (gc_root_swept g) (gc_root_rest g) (gc_sweepstrgc g) (gc_strt g) (gc_nuse g) (gc_tmudata g)
    (gc_uvhead g) (gc_next g) (gc_GCthreshold g) (gc_estimate g) (gc_gcdept g) (gc_gcpause g)
    (gc_gcstepmul g) (gc_buffsize g) (gc_registry g) (gc_mainthread g) (gc_mt g) (gc_tmname g).
Definition setg_currentwhite (x : Z) (g : gstate) : gstate :=
  mkG (gc_heap g) x (gc_gcstate g) (gc_gray g) (gc_grayagain g) (gc_weak g) (gc_totalbytes g)
    (gc_root_swept g) (gc_root_rest g) (gc_sweepstrgc g) (gc_strt g) (gc_nuse g) (gc_tmudata g)
    (gc_uvhead g) (gc_next g) (gc_GCthreshold g) (gc_estimate g) (gc_gcdept g) (gc_gcpause g)
    (gc_gcstepmul g) (gc_buffsize g) (gc_registry g) (gc_mainthread g) (gc_mt g) (gc_tmname g).
Definition setg_gcstate (x : Z) (g : gstate) : gstate :=
  mkG (gc_heap g) (gc_currentwhite g) x (gc_gray g) (gc_grayagain g) (gc_weak g) (gc_totalbytes g)
    (gc_root_swept g) (gc_root_rest g) (gc_sweepstrgc g) (gc_strt g) (gc_nuse g) (gc_tmudata g)
    (gc_uvhead g) (gc_next g) (gc_GCthreshold g) (gc_estimate g) (gc_gcdept g) (gc_gcpause g)
    (gc_gcstepmul g) (gc_buffsize g) (gc_registry g) (gc_mainthread g) (gc_mt g) (gc_tmname g).
Definition setg_gray (x : list Z) (g : gstate) : gstate :=
  mkG (gc_heap g) (gc_currentwhite g) (gc_gcstate g) x (gc_grayagain g) (gc_weak g) (gc_totalbytes g)
    (gc_root_swept g) (gc_root_rest g) (gc_sweepstrgc g) (gc_strt g) (gc_nuse g) (gc_tmudata g)
    (gc_uvhead g) (gc_next g) (gc_GCthreshold g) (gc_estimate g) (gc_gcdept g) (gc_gcpause g)
    (gc_gcstepmul g) (gc_buffsize g) (gc_registry g) (gc_mainthread g) (gc_mt g) (gc_tmname g).
Definition setg_grayagain (x : list Z) (g : gstate) : gstate :=
  mkG (gc_heap g) (gc_currentwhite g) (gc_gcstate g) (gc_gray g) x (gc_weak g) (gc_totalbytes g)
    (gc_root_swept g) (gc_root_rest g) (gc_sweepstrgc g) (gc_strt g) (gc_nuse g) (gc_tmudata g)
    (gc_uvhead g) (gc_next g) (gc_GCthreshold g) (gc_estimate g) (gc_gcdept g) (gc_gcpause g)
    (gc_gcstepmul g) (gc_buffsize g) (gc_registry g) (gc_mainthread g) (gc_mt g) (gc_tmname g).
Definition setg_weak (x : list Z) (g : gstate) : gstate :=
  mkG (gc_heap g) (gc_currentwhite g) (gc_gcstate g) (gc_gray g) (gc_grayagain g) x (gc_totalbytes g)
    (gc_root_swept g) (gc_root_rest g) (gc_sweepstrgc g) (gc_strt g) (gc_nuse g) (gc_tmudata g)
    (gc_uvhead g) (gc_next g) (gc_GCthreshold g) (gc_estimate g) (gc_gcdept g) (gc_gcpause g)
    (gc_gcstepmul g) (gc_buffsize g) (gc_registry g) (gc_mainthread g) (gc_mt g) (gc_tmname g).
Definition setg_totalbytes (x : Z) (g : gstate) : gstate :=
  mkG (gc_heap g) (gc_currentwhite g) (gc_gcstate g) (gc_gray g) (gc_grayagain g) (gc_weak g) x
    (gc_root_swept g) (gc_root_rest g) (gc_sweepstrgc g) (gc_strt g) (gc_nuse g) (gc_tmudata g)
    (gc_uvhead g) (gc_next g) (gc_GCthreshold g) (gc_estimate g) (gc_gcdept g) (gc_gcpause g)
    (gc_gcstepmul g) (gc_buffsize g) (gc_registry g) (gc_mainthread g) (gc_mt g) (gc_tmname g).
Definition setg_sweepstrgc (x : Z) (g : gstate) : gstate :=
  mkG (gc_heap g) (gc_currentwhite g) (gc_gcstate g) (gc_gray g) (gc_grayagain g) (gc_weak g)
    (gc_totalbytes g) (gc_root_swept g) (gc_root_rest g) x (gc_strt g) (gc_nuse g) (gc_tmudata g)
    (gc_uvhead g) (gc_next g) (gc_GCthreshold g) (gc_estimate g) (gc_gcdept g) (gc_gcpause g)
    (gc_gcstepmul g) (gc_buffsize g) (gc_registry g) (gc_mainthread g) (gc_mt g) (gc_tmname g).
Definition setg_strt (x : list (list Z)) (g : gstate) : gstate :=
  mkG (gc_heap g) (gc_currentwhite g) (gc_gcstate g) (gc_gray g) (gc_grayagain g) (gc_weak g)
    (gc_totalbytes g) (gc_root_swept g) (gc_root_rest g) (gc_sweepstrgc g) x (gc_nuse g) (gc_tmudata g)
    (gc_uvhead g) (gc_next g) (gc_GCthreshold g) (gc_estimate g) (gc_gcdept g) (gc_gcpause g)
    (gc_gcstepmul g) (gc_buffsize g) (gc_registry g) (gc_mainthread g) (gc_mt g) (gc_tmname g).
Definition setg_nuse (x : Z) (g : gstate) : gstate :=
  mkG (gc_heap g) (gc_currentwhite g) (gc_gcstate g) (gc_gray g) (gc_grayagain g) (gc_weak g)
    (gc_totalbytes g) (gc_root_swept g) (gc_root_rest g) (gc_sweepstrgc g) (gc_strt g) x (gc_tmudata g)
    (gc_uvhead g) (gc_next g) (gc_GCthreshold g) (gc_estimate g) (gc_gcdept g) (gc_gcpause g)
    (gc_gcstepmul g) (gc_buffsize g) (gc_registry g) (gc_mainthread g) (gc_mt g) (gc_tmname g).
Definition setg_tmudata (x : list Z) (g : gstate) : gstate :=
  mkG (gc_heap g) (gc_currentwhite g) (gc_gcstate g) (gc_gray g) (gc_grayagain g) (gc_weak g)
    (gc_totalbytes g) (gc_root_swept g) (gc_root_rest g) (gc_sweepstrgc g) (gc_strt g) (gc_nuse g) x
    (gc_uvhead g) (gc_next g) (gc_GCthreshold g) (gc_estimate g) (gc_gcdept g) (gc_gcpause g)
    (gc_gcstepmul g) (gc_buffsize g) (gc_registry g) (gc_mainthread g) (gc_mt g) (gc_tmname g).
Definition setg_uvhead (x : list Z) (g : gstate) : gstate :=
  mkG (gc_heap g) (gc_currentwhite g) (gc_gcstate g) (gc_gray g) (gc_grayagain g) (gc_weak g)
    (gc_totalbytes g) (gc_root_swept g) (gc_root_rest g) (gc_sweepstrgc g) (gc_strt g) (gc_nuse g)
    (gc_tmudata g) x (gc_next g) (gc_GCthreshold g) (gc_estimate g) (gc_gcdept g) (gc_gcpause g)
    (gc_gcstepmul g) (gc_buffsize g) (gc_registry g) (gc_mainthread g) (gc_mt g) (gc_tmname g).
Definition setg_next (x : Z) (g : gstate) : gstate :=
  mkG (gc_heap g) (gc_currentwhite g) (gc_gcstate g) (gc_gray g) (gc_grayagain g) (gc_weak g)
    (gc_totalbytes g) (gc_root_swept g) (gc_root_rest g) (gc_sweepstrgc g) (gc_strt g) (gc_nuse g)
    (gc_tmudata g) (gc_uvhead g) x (gc_GCthreshold g) (gc_estimate g) (gc_gcdept g) (gc_gcpause g)
    (gc_gcstepmul g) (gc_buffsize g) (gc_registry g) (gc_mainthread g) (gc_mt g) (gc_tmname g).
Definition setg_GCthreshold (x : Z) (g : gstate) : gstate :=
  mkG (gc_heap g) (gc_currentwhite g) (gc_gcstate g) (gc_gray g) (gc_grayagain g) (gc_weak g)
    (gc_totalbytes g) (gc_root_swept g) (gc_root_rest g) (gc_sweepstrgc g) (gc_strt g) (gc_nuse g)
    (gc_tmudata g) (gc_uvhead g) (gc_next g) x (gc_estimate g) (gc_gcdept g) (gc_gcpause g)
    (gc_gcstepmul g) (gc_buffsize g) (gc_registry g) (gc_mainthread g) (gc_mt g) (gc_tmname g).
Definition setg_estimate (x : Z) (g : gstate) : gstate :=
  mkG (gc_heap g) (gc_currentwhite g) (gc_gcstate g) (gc_gray g) (gc_grayagain g) (gc_weak g)
    (gc_totalbytes g) (gc_root_swept g) (gc_root_rest g) (gc_sweepstrgc g) (gc_strt g) (gc_nuse g)
    (gc_tmudata g) (gc_uvhead g) (gc_next g) (gc_GCthreshold g) x (gc_gcdept g) (gc_gcpause g)
    (gc_gcstepmul g) (gc_buffsize g) (gc_registry g) (gc_mainthread g) (gc_mt g) (gc_tmname g).
Definition setg_gcdept (x : Z) (g : gstate) : gstate :=
  mkG (gc_heap g) (gc_currentwhite g) (gc_gcstate g) (gc_gray g) (gc_grayagain g) (gc_weak g)
    (gc_totalbytes g) (gc_root_swept g) (gc_root_rest g) (gc_sweepstrgc g) (gc_strt g) (gc_nuse g)
    (gc_tmudata g) (gc_uvhead g) (gc_next g) (gc_GCthreshold g) (gc_estimate g) x (gc_gcpause g)
    (gc_gcstepmul g) (gc_buffsize g) (gc_registry g) (gc_mainthread g) (gc_mt g) (gc_tmname g).
Definition setg_buffsize (x : Z) (g : gstate) : gstate :=
  mkG (gc_heap g) (gc_currentwhite g) (gc_gcstate g) (gc_gray g) (gc_grayagain g) (gc_weak g)
    (gc_totalbytes g) (gc_root_swept g) (gc_root_rest g) (gc_sweepstrgc g) (gc_strt g) (gc_nuse g)
    (gc_tmudata g) (gc_uvhead g) (gc_next g) (gc_GCthreshold g) (gc_estimate g) (gc_gcdept g)
    (gc_gcpause g) (gc_gcstepmul g) x (gc_registry g) (gc_mainthread g) (gc_mt g) (gc_tmname g).
Definition setg_rootgc (swept rest : list Z) (g : gstate) : gstate :=
  mkG (gc_heap g) (gc_currentwhite g) (gc_gcstate g) (gc_gray g) (gc_grayagain g) (gc_weak g)
    (gc_totalbytes g) swept rest (gc_sweepstrgc g) (gc_strt g) (gc_nuse g) (gc_tmudata g) (gc_uvhead g)
    (gc_next g) (gc_GCthreshold g) (gc_estimate g) (gc_gcdept g) (gc_gcpause g) (gc_gcstepmul g)
    (gc_buffsize g) (gc_registry g) (gc_mainthread g) (gc_mt g) (gc_tmname g).

#[export] Instance gstate_HasMem : HasMem gstate := {|
  totalbytes := gc_totalbytes;
  set_totalbytes := setg_totalbytes;
|}.
#[export] Instance gstate_HasMemLaws : HasMemLaws gstate.
Proof. split; [done..|]. by intros []. Qed.

Definition otherwhite (g : gstate) : Z := Z.lxor (gc_currentwhite g) WHITEBITS.
Definition isdead (g : gstate) (m : Z) : bool := testbits (Z.land m (otherwhite g)) WHITEBITS.
Definition luaC_white (g : gstate) : Z := u8 (Z.land (gc_currentwhite g) WHITEBITS).
Definition makewhite (g : gstate) (m : Z) : Z := u8 (Z.lor (Z.land m maskmarks) (luaC_white g)).

(** ** Access to the objects *)

Definition deref (a : Z) : M gstate GCObject := fun g =>
  match gc_heap g !! a with
  | Some o => (Ok o, g)
  | None => (Err (UB "dangling pointer"), g)
  end.

Definition upd_marked (a : Z) (f : Z -> Z) : M gstate unit :=
  modify (fun g => setg_heap (alter (fun o => mkObj (f (marked o)) (obj o)) a (gc_heap g)) g).
Definition upd_obj (a : Z) (b : body) : M gstate unit :=
  modify (fun g => setg_heap (alter (fun o => mkObj (marked o) b) a (gc_heap g)) g).

Definition bad_cast {A} : M gstate A := throw (UB "object of another type").
Definition gco2h (a : Z) : M gstate Table := o ← deref a; match obj o with BTable t => mret t | _ => bad_cast end.
Definition gco2cl (a : Z) : M gstate Closure := o ← deref a; match obj o with BFunction c => mret c | _ => bad_cast end.
Definition gco2p (a : Z) : M gstate ProtoObj := o ← deref a; match obj o with BProto p => mret p | _ => bad_cast end.
Definition gco2th (a : Z) : M gstate Thread := o ← deref a; match obj o with BThread th => mret th | _ => bad_cast end.
Definition gco2uv (a : Z) : M gstate UpVal := o ← deref a; match obj o with BUpVal uv => mret uv | _ => bad_cast end.
Definition gco2ts (a : Z) : M gstate bytes := o ← deref a; match obj o with BString s => mret s | _ => bad_cast end.

Definition array_at {A} (l : list A) (i : Z) : M gstate A := lift (of_option "array index" (znth l i)).

(** [*uv->v] *)
Definition uv_value (uv : UpVal) : M gstate TValue :=
  match uv with
  | UClosed v => mret v
  | UOpen th level => x ← gco2th th; array_at (th_stack x) level
  end.

(** ** Sizes of the C structures *)

Definition sizeof_Udata : Z := 40.
Definition sizeof_CallInfo : Z := 40.
Definition sizeof_lua_State : Z := 184.
Definition sizeCclosure (n : Z) : Z := 56 + sizeof_TValue * (n - 1).
Definition sizeLclosure (n : Z) : Z := 48 + sizeof_ptr * (n - 1).

Definition BASIC_CI_SIZE : Z := 8.
Definition BASIC_STACK_SIZE : Z := 40.
Definition EXTRA_STACK : Z := 5.

Definition TM_GC : Z := 2.
Definition TM_MODE : Z := 3.

(** [strchr(s, c) != NULL] for a character that is not 0. *)
Fixpoint strchr (s : bytes) (c : Z) : bool :=
  match s with
  | [] => false
  | x :: s => if x =? 0 then false else if x =? c then true else strchr s c
  end.

Section mark.
Context `{Krealloc} `{StringHash}.

(** ** Marking *)

(** [markobject] and [markvalue], given [reallymarkobject]. *)
Definition mark_object (really : Z -> M gstate unit) (t : Z) : M gstate unit :=
  o ← deref t; when (iswhite (marked o)) (really t).
Definition mark_value (really : Z -> M gstate unit) (o : TValue) : M gstate unit :=
  when (iscollectable o) (mark_object really (gcvalue o)).

(** It calls itself for what an upvalue and a userdata have; the tables of a
    userdata are only linked to the gray list, so the depth is three. *)
Fixpoint reallymark (fuel : nat) (o : Z) : M gstate unit :=
  match fuel with
  | O => throw OutOfFuel
  | S fuel =>
      x ← deref o;
      upd_marked o white2gray;;
      match obj x with
      | BString _ => mret tt
      | BUserdata metatable env _ =>
          upd_marked o gray2black;;  (* udata are never gray *)
          when (negb (metatable =? NULL)) (mark_object (reallymark fuel) metatable);;
          mark_object (reallymark fuel) env
      | BUpVal uv =>
          v ← uv_value uv;
          mark_value (reallymark fuel) v;;
          match uv with
          | UClosed _ => upd_marked o gray2black
          | UOpen _ _ => mret tt  (* open upvalues are never black *)
          end
      | BFunction _ | BTable _ | BThread _ | BProto _ =>
          modify (fun g => setg_gray (o :: gc_gray g) g)
      end
  end.

Definition reallymarkobject : Z -> M gstate unit := reallymark 3.
Definition markobject : Z -> M gstate unit := mark_object reallymarkobject.
Definition markvalue : TValue -> M gstate unit := mark_value reallymarkobject.
Definition stringmark (s : Z) : M gstate unit := gco2ts s;; upd_marked s white2gray.

(** ** Metamethods (ltm.h, ltm.c) *)

Definition luaT_gettm (events event ename : Z) : M gstate (option TValue) :=
  t ← gco2h events;
  s ← lift (luaH_getstr t ename);
  tm ← lift (match s with Some s => slot_get t s | None => Ok VNil end);
  if ttisnil tm then  (* no tag method? *)
    upd_obj events (BTable (set_flags (Z.lor (t_flags t) (u8 (Z.shiftl 1 event))) t));;  (* cache this fact *)
    mret None
  else mret (Some tm).

(** [et] is [None] for NULL. *)
Definition gfasttm (et : option Z) (e : Z) : M gstate (option TValue) :=
  match et with
  | None => mret None
  | Some et =>
      t ← gco2h et;
      if negb (Z.land (t_flags t) (Z.shiftl 1 e) =? 0) then mret None
      else
        names ← gets gc_tmname;
        ename ← array_at names e;
        luaT_gettm et e ename
  end.

(** ** Traversing *)

Definition removeentry (nd : Node) : Node :=
  if iscollectable (i_key nd) then set_key (VDeadKey (gcvalue (i_key nd))) nd  (* dead key; remove it *)
  else nd.

(** The weak mode of a table, from the metamethod; a weak table is linked. *)
Definition weak_mode (h : Z) (mode : option TValue) : M gstate (bool * bool) :=
  match mode with
  | Some (VString s) =>
      str ← gco2ts s;
      let weakkey := strchr str 107 in
      let weakvalue := strchr str 118 in
      when (weakkey || weakvalue)  (* is really weak? *)
        (upd_marked h (fun m => setbits (resetbits m (Z.lor KEYWEAK VALUEWEAK))
            (u8 (Z.lor (Z.shiftl (Z.b2z weakkey) KEYWEAKBIT) (Z.shiftl (Z.b2z weakvalue) VALUEWEAKBIT))));;
         modify (fun g => setg_weak (h :: gc_weak g) g));;
      mret (weakkey, weakvalue)
  | _ => mret (false, false)
  end.

(** The entry at node [i]. *)
Definition traverse_node (h : Z) (weakkey weakvalue : bool) (i : Z) : M gstate unit :=
  t ← gco2h h;
  nd ← array_at (t_node t) i;
  if ttisnil (i_val nd)
  then upd_obj h (BTable (set_nodes (zupd i (removeentry nd) (t_node t)) t))  (* remove empty entries *)
  else
    when (negb weakkey) (markvalue (i_key nd));;
    when (negb weakvalue) (markvalue (i_val nd)).

(** Whether the table is weak. *)
Definition traversetable (h : Z) : M gstate bool :=
  t ← gco2h h;
  match t_metatable t with Some mt => markobject mt | None => mret tt end;;
  mode ← gfasttm (t_metatable t) TM_MODE;
  w ← weak_mode h mode;
  let '(weakkey, weakvalue) := (w : bool * bool) in
  if weakkey && weakvalue then mret true
  else
    when (negb weakvalue)
      (mfor (rev (seqZ 0 (t_sizearray t))) (fun i => v ← array_at (t_array t) i; markvalue v));;
    mfor (rev (seqZ 0 (sizenode t))) (traverse_node h weakkey weakvalue);;
    mret (weakkey || weakvalue).

(** [if (p) mark(p)] *)
Definition unless_null (mark : Z -> M gstate unit) (p : Z) : M gstate unit := when (negb (p =? NULL)) (mark p).

(** All marks are conditional because a GC may happen while the prototype is
    still being created. *)
Definition traverseproto (f : Z) : M gstate unit :=
  p ← gco2p f;
  unless_null stringmark (p_source p);;
  mfor (p_k p) markvalue;;
  mfor (p_upvalues p) (unless_null stringmark);;
  mfor (p_p p) (unless_null markobject);;
  mfor (p_locvars p) (unless_null stringmark).

Definition traverseclosure (cl : Z) : M gstate unit :=
  c ← gco2cl cl;
  match c with
  | CClosure env upvalue => markobject env;; mfor upvalue markvalue
  | LClosure env p upvals => markobject env;; markobject p;; mfor upvals markobject
  end.

Definition luaD_reallocCI (l newsize : Z) : M gstate unit :=
  th ← gco2th l;
  luaM_reallocv (th_size_ci th) newsize sizeof_CallInfo;;
  upd_obj l (BThread (set_size_ci newsize th)).

Definition luaD_reallocstack (l newsize : Z) : M gstate unit :=
  th ← gco2th l;
  let realsize := newsize + 1 + EXTRA_STACK in
  luaM_reallocv (th_stacksize th) realsize sizeof_TValue;;
  upd_obj l (BThread (set_stack (take (Z.to_nat realsize)
    (th_stack th ++ replicate (Z.to_nat realsize) VNil)) th)).

Definition checkstacksizes (l max : Z) : M gstate unit :=
  th ← gco2th l;
  let ci_used := zlen (th_ci th) - 1 in  (* number of `ci' in use *)
  let s_used := max in  (* part of stack in use *)
  if th_size_ci th >? LUAI_MAXCALLS then mret tt  (* handling overflow? do not touch the stacks *)
  else
    when ((4 * ci_used <? th_size_ci th) && (2 * BASIC_CI_SIZE <? th_size_ci th))
      (luaD_reallocCI l (Z.quot (th_size_ci th) 2));;  (* still big enough... *)
    when ((4 * s_used <? th_stacksize th) && (2 * (BASIC_STACK_SIZE + EXTRA_STACK) <? th_stacksize th))
      (luaD_reallocstack l (Z.quot (th_stacksize th) 2)).

(** The highest slot that a frame may use. *)
Definition stack_lim (th : Thread) : Z := foldl (fun lim top => if lim <? top then top else lim) (th_top th) (th_ci th).

Definition set_slot (l i : Z) (v : TValue) : M gstate unit :=
  th ← gco2th l;
  array_at (th_stack th) i;;
  upd_obj l (BThread (set_stack (zupd i v (th_stack th)) th)).

Definition traversestack (l : Z) : M gstate unit :=
  th ← gco2th l;
  markvalue (th_gt th);;
  let lim := stack_lim th in
  mfor (seqZ 0 (th_top th)) (fun o => v ← array_at (th_stack th) o; markvalue v);;
  mfor (seqZ (th_top th) (lim - th_top th + 1)) (fun o => set_slot l o VNil);;
  checkstacksizes l lim.

(** Traverse one gray object, turning it to black: the quantity traversed. *)
Definition propagatemark : M gstate Z :=
  g ← get;
  match gc_gray g with
  | [] => throw (UB "no gray object")
  | o :: gray =>
      upd_marked o gray2black;;
      x ← deref o;
      match obj x with
      | BTable h =>
          modify (setg_gray gray);;
          weak ← traversetable o;
          when weak (upd_marked o black2gray);;  (* keep it gray *)
          h ← gco2h o;
          mret (sizeof_Table + sizeof_TValue * t_sizearray h + sizeof_Node * sizenode h)
      | BFunction cl =>
          modify (setg_gray gray);;
          traverseclosure o;;
          mret (match cl with
                | CClosure _ upvalue => sizeCclosure (zlen upvalue)
                | LClosure _ _ upvals => sizeLclosure (zlen upvals)
                end)
      | BThread _ =>
          modify (fun g => setg_grayagain (o :: gc_grayagain g) (setg_gray gray g));;
          upd_marked o black2gray;;
          traversestack o;;
          th ← gco2th o;
          mret (sizeof_lua_State + sizeof_TValue * th_stacksize th + sizeof_CallInfo * th_size_ci th)
      | BProto p =>
          modify (setg_gray gray);;
          traverseproto o;;
          mret (sizeof_Proto + sizeof_Instruction * p_sizecode p + sizeof_ptr * zlen (p_p p) +
            sizeof_TValue * zlen (p_k p) + sizeof_int * p_sizelineinfo p + sizeof_LocVar * zlen (p_locvars p) +
            sizeof_ptr * zlen (p_upvalues p))
      | _ => throw (UB "object of another type in the gray list")
      end
  end.

(** Each turn takes an object from the gray list for good, and adds only
    white objects to it: the objects of the heap and of the list are enough. *)
Fixpoint propagate_loop (fuel : nat) (m : Z) : M gstate Z :=
  match fuel with
  | O => throw OutOfFuel
  | S fuel =>
      g ← get;
      match gc_gray g with
      | [] => mret m
      | _ => n ← propagatemark; propagate_loop fuel (u64 (m + n))
      end
  end.

Definition propagateall : M gstate Z :=
  g ← get; propagate_loop (S (size (gc_heap g) + length (gc_gray g))) 0.

(** ** Barriers and new objects *)

(** [o] points to [v], both objects. *)
Definition luaC_barrierf (o v : Z) : M gstate unit :=
  g ← get;
  (* must keep invariant? *)
  if gc_gcstate g =? GCSpropagate then reallymarkobject v  (* restore invariant *)
  else  (* don't mind *)
    upd_marked o (makewhite g).  (* mark as white just to avoid other barriers *)

Definition luaC_barrierback (t : Z) : M gstate unit :=
  upd_marked t black2gray;;  (* make table gray (again) *)
  modify (fun g => setg_grayagain (t :: gc_grayagain g) g).

Definition valiswhite (v : TValue) : M gstate bool :=
  if iscollectable v then o ← deref (gcvalue v); mret (iswhite (marked o)) else mret false.

Definition luaC_barrier (p : Z) (v : TValue) : M gstate unit :=
  w ← valiswhite v;
  when w (o ← deref p; when (isblack (marked o)) (luaC_barrierf p (gcvalue v))).

Definition luaC_barriert (t : Z) (v : TValue) : M gstate unit :=
  w ← valiswhite v;
  when w (o ← deref t; when (isblack (marked o)) (luaC_barrierback t)).

Definition luaC_objbarrier (p o : Z) : M gstate unit :=
  x ← deref o;
  when (iswhite (marked x)) (y ← deref p; when (isblack (marked y)) (luaC_barrierf p o)).

Definition luaC_objbarriert (t o : Z) : M gstate unit :=
  x ← deref o;
  when (iswhite (marked x)) (y ← deref t; when (isblack (marked y)) (luaC_barrierback t)).

(** The head of rootgc: it is also *sweepgc as long as nothing is swept. *)
Definition push_root (o : Z) (g : gstate) : gstate :=
  match gc_root_swept g with
  | [] => setg_rootgc [] (o :: gc_root_rest g) g
  | l => setg_rootgc (o :: l) (gc_root_rest g) g
  end.

(** A new object: its address. *)
Definition new_object (m : Z) (b : body) : M gstate Z := fun g =>
  (Ok (gc_next g), setg_next (gc_next g + 1) (setg_heap (<[gc_next g := mkObj m b]> (gc_heap g)) g)).

(** [luaC_link] of an object that was just allocated. *)
Definition luaC_link (b : body) : M gstate Z :=
  g ← get;
  o ← new_object (luaC_white g) b;
  modify (push_root o);;
  mret o.

Definition luaC_linkupval (uv : Z) : M gstate unit :=
  modify (push_root uv);;  (* link upvalue into `rootgc' list *)
  o ← deref uv;
  when (isgray (marked o))
    (g ← get;
     if gc_gcstate g =? GCSpropagate then
       upd_marked uv gray2black;;  (* closed upvalues need barrier *)
       u ← gco2uv uv;
       v ← uv_value u;
       luaC_barrier uv v
     else  (* sweep phase: sweep it (turning it into white) *)
       upd_marked uv (makewhite g)).
End mark.
