(* ===== verification/Func.v ===== *)
(** * Func.v: closures, upvalues and prototypes (lfunc.h, lfunc.c)

    An upvalue is open while the variable lives in a slot of a stack, and
    holds the value itself once it is closed.  The open upvalues of a thread
    are on its list [openupval], by decreasing level, and all of them on the
    list of the global state. *)

From S2P Require Import Prelude Machine Object Mem Table Gc.

(** Memory given back. *)
Definition free_object (a : Z) : M gstate unit := modify (fun g => setg_heap (delete a (gc_heap g)) g).

(** The active variables of a prototype in order: the loop of
    [luaF_getlocalname]. *)
Fixpoint getlocalname_loop (l : list LocVar) (local_number pc : Z) : option TStr :=
  match l with
  | [] => None
  | v :: l =>
      if startpc v <=? pc then
        if pc <? endpc v then  (* is variable active? *)
          let local_number := local_number - 1 in
          if local_number =? 0 then Some (varname v) else getlocalname_loop l local_number pc
        else getlocalname_loop l local_number pc
      else None
  end.

Definition luaF_getlocalname (f : Proto) (local_number pc : Z) : option TStr :=
  getlocalname_loop (pt_locvars f) local_number pc.

Section func.
Context `{Krealloc} `{StringHash}.

(** [init] is what the fresh memory happens to hold. *)
Definition luaF_newCclosure (nelems e : Z) (init : list TValue) : M gstate Z :=
  luaM_malloc (sizeCclosure nelems);;
  luaC_link (BFunction (CClosure e (take (Z.to_nat (u8 nelems)) init))).

Definition luaF_newLclosure (nelems e init : Z) : M gstate Z :=
  luaM_malloc (sizeLclosure nelems);;
  luaC_link (BFunction (LClosure e init (replicate (Z.to_nat nelems) NULL))).

Definition luaF_newupval : M gstate Z :=
  luaM_malloc sizeof_UpVal;;
  luaC_link (BUpVal (UClosed VNil)).

(** The level an open upvalue of the thread points to. *)
Definition open_level (l uv : Z) : M gstate Z :=
  u ← gco2uv uv;
  match u with
  | UOpen th level => if th =? l then mret level else throw (UB "pointer into another stack")
  | UClosed _ => throw (UB "closed upvalue in the open list")
  end.

(** Where the search of [luaF_findupval] ends: the upvalue, or the part of the
    list before the place of a new one. *)
Fixpoint findupval_loop (l level : Z) (pp before : list Z) : M gstate (Z + list Z * list Z) :=
  match pp with
  | [] => mret (inr (before, []))
  | p :: next =>
      v ← open_level l p;
      if v >=? level then
        if v =? level then mret (inl p)  (* found a corresponding upvalue? *)
        else findupval_loop l level next (before ++ [p])
      else mret (inr (before, p :: next))
  end.

Definition luaF_findupval (l level : Z) : M gstate Z :=
  th ← gco2th l;
  r ← findupval_loop l level (th_openupval th) [];
  match r with
  | inl p =>
      o ← deref p;
      g ← get;
      when (isdead g (marked o)) (upd_marked p changewhite);;  (* ressurect it *)
      mret p
  | inr (before, after) =>
      luaM_malloc sizeof_UpVal;;  (* not found: create a new one *)
      g ← get;
      uv ← new_object (luaC_white g) (BUpVal (UOpen l level));  (* current value lives in the stack *)
      th ← gco2th l;
      upd_obj l (BThread (set_openupval (before ++ uv :: after) th));;  (* chain it in the proper position *)
      modify (fun g => setg_uvhead (uv :: gc_uvhead g) g);;  (* double link it in `uvhead' list *)
      mret uv
  end.

Definition unlinkupval (uv : Z) : M gstate unit :=
  modify (fun g => setg_uvhead (filter (fun x => x <> uv) (gc_uvhead g)) g).

Definition luaF_freeupval (uv : Z) : M gstate unit :=
  u ← gco2uv uv;
  match u with UOpen _ _ => unlinkupval uv | UClosed _ => mret tt end;;  (* is it open? *)
  luaM_freemem sizeof_UpVal;;
  free_object uv.

(** The loop of [luaF_close]: each turn takes an upvalue off the list. *)
Fixpoint close_loop (fuel : nat) (l level : Z) : M gstate unit :=
  match fuel with
  | O => throw OutOfFuel
  | S fuel =>
      th ← gco2th l;
      match th_openupval th with
      | [] => mret tt
      | uv :: next =>
          v ← open_level l uv;
          if v >=? level then
            o ← deref uv;
            upd_obj l (BThread (set_openupval next th));;  (* remove from `open' list *)
            g ← get;
            (if isdead g (marked o) then luaF_freeupval uv  (* free upvalue *)
             else
               unlinkupval uv;;
               u ← gco2uv uv;
               x ← uv_value u;
               upd_obj uv (BUpVal (UClosed x));;  (* now current value lives here *)
               luaC_linkupval uv);;  (* link upvalue into `gcroot' list *)
            close_loop fuel l level
          else mret tt
      end
  end.

Definition luaF_close (l level : Z) : M gstate unit :=
  th ← gco2th l; close_loop (S (length (th_openupval th))) l level.

Definition luaF_newproto : M gstate Z :=
  luaM_malloc sizeof_Proto;;
  luaC_link (BProto (mkProtoObj [] [] [] [] NULL 0 0)).

Definition luaF_freeproto (f : Z) : M gstate unit :=
  p ← gco2p f;
  luaM_freearray (p_sizecode p) sizeof_Instruction;;
  luaM_freearray (zlen (p_p p)) sizeof_ptr;;
  luaM_freearray (zlen (p_k p)) sizeof_TValue;;
  luaM_freearray (p_sizelineinfo p) sizeof_int;;
  luaM_freearray (zlen (p_locvars p)) sizeof_LocVar;;
  luaM_freearray (zlen (p_upvalues p)) sizeof_ptr;;
  luaM_freemem sizeof_Proto;;
  free_object f.

Definition luaF_freeclosure (c : Z) : M gstate unit :=
  cl ← gco2cl c;
  luaM_freemem (match cl with
                | CClosure _ upvalue => sizeCclosure (zlen upvalue)
                | LClosure _ _ upvals => sizeLclosure (zlen upvals)
                end);;
  free_object c.
End func.
