(* ===== verification/Collect.v ===== *)
(** * Collect.v: the collector's cycle (lgc.c)

    The atomic end of the mark phase, the sweep, finalisers, and the steps
    that drive them.  A finaliser is Lua code: what [luaD_call] does when it
    calls one is an argument, [call]. *)

From S2P Require Import Prelude Machine Object Mem Zio Table Gc Func.
From S2P Require Str.

Definition GCSTEPSIZE : Z := 1024.
Definition GCSWEEPMAX : Z := 40.
Definition GCSWEEPCOST : Z := 10.
Definition GCFINALIZECOST : Z := 100.

Definition setthreshold (g : gstate) : gstate :=
  setg_GCthreshold (u64 (gc_estimate g / 100 * gc_gcpause g)) g.

Definition sizestring (s : bytes) : Z := sizeof_TString + (zlen s + 1).
Definition sizeudata (len : Z) : Z := sizeof_Udata + len.

Section collect.
Context `{Krealloc} `{StringHash}.
Context (call : TValue -> Z -> M gstate unit).   (* a finaliser, called with a userdata *)

(** ** Userdata to be finalised *)

Definition is_udata (o : GCObject) : bool := match obj o with BUserdata _ _ _ => true | _ => false end.
Definition opt_ptr (p : Z) : option Z := if p =? NULL then None else Some p.

(** The loop of [luaC_separateudata] over the list after the main thread:
    what stays in it, what is added to [tmudata], and the memory. *)
Fixpoint separate_loop (all : bool) (p : list Z) : M gstate (list Z * list Z * Z) :=
  match p with
  | [] => mret ([], [], 0)
  | curr :: next =>
      o ← deref curr;
      match obj o with
      | BUserdata metatable _ len =>
          if negb (iswhite (marked o) || all) || isfinalized (marked o) then  (* don't bother with them *)
            r ← separate_loop all next;
            let '(stay, dead, n) := (r : list Z * list Z * Z) in mret (curr :: stay, dead, n)
          else
            tm ← gfasttm (opt_ptr metatable) TM_GC;
            upd_marked curr markfinalized;;
            r ← separate_loop all next;
            let '(stay, dead, n) := (r : list Z * list Z * Z) in
            match tm with
            | None => mret (curr :: stay, dead, n)  (* don't need finalization *)
            | Some _ => mret (stay, curr :: dead, sizeudata len + n)  (* must call its gc method *)
            end
      | _ => bad_cast
      end
  end.

(** [l] up to the main thread, and what follows it. *)
Fixpoint split_after (x : Z) (l : list Z) : option (list Z * list Z) :=
  match l with
  | [] => None
  | y :: l => if y =? x then Some ([y], l) else match split_after x l with Some (a, b) => Some (y :: a, b) | None => None end
  end.

(** The userdata are the objects linked after the main thread.  [sweepgc] is
    about to be reset, or the state is being closed. *)
Definition luaC_separateudata (all : bool) : M gstate Z :=
  g ← get;
  match split_after (gc_mainthread g) (gc_root_swept g ++ gc_root_rest g) with
  | None => throw (UB "the main thread is not in rootgc")
  | Some (roots, udata) =>
      r ← separate_loop all udata;
      let '(stay, dead, deadmem) := (r : list Z * list Z * Z) in
      modify (fun g => setg_tmudata (gc_tmudata g ++ dead) (setg_rootgc [] (roots ++ stay) g));;
      mret (u64 deadmem)
  end.

Definition marktmu : M gstate unit :=
  l ← gets gc_tmudata;
  mfor l (fun u => g ← get; upd_marked u (makewhite g);; reallymarkobject u).

(** ** Weak tables *)

(** Whether a key or value can be cleared from a weak table. *)
Definition iscleared (o : TValue) (iskey : bool) : M gstate bool :=
  if negb (iscollectable o) then mret false
  else if ttisstring o then stringmark (gcvalue o);; mret false  (* strings are `values', so are never weak *)
  else
    x ← deref (gcvalue o);
    mret (iswhite (marked x) || ((ttype o =? LUA_TUSERDATA) && (negb iskey && isfinalized (marked x)))).

Definition clear_array (h i : Z) : M gstate unit :=
  t ← gco2h h;
  o ← array_at (t_array t) i;
  c ← iscleared o false;
  when c (t ← gco2h h; upd_obj h (BTable (set_array (zupd i VNil (t_array t)) (t_sizearray t) t))).

Definition clear_node (h i : Z) : M gstate unit :=
  t ← gco2h h;
  n ← array_at (t_node t) i;
  when (negb (ttisnil (i_val n)))  (* non-empty entry? *)
    (c ← iscleared (i_key n) true;
     c ← (if (c : bool) then mret true else iscleared (i_val n) false);
     when c (t ← gco2h h; upd_obj h (BTable (set_nodes (zupd i (removeentry (set_val VNil n)) (t_node t)) t)))).

Definition cleartable (l : list Z) : M gstate unit :=
  mfor l (fun h =>
    o ← deref h;
    t ← gco2h h;
    when (testbits (marked o) (bitmask VALUEWEAKBIT)) (mfor (rev (seqZ 0 (t_sizearray t))) (clear_array h));;
    mfor (rev (seqZ 0 (sizenode t))) (clear_node h)).

(** ** The end of the mark phase *)

Definition markmt : M gstate unit := l ← gets gc_mt; mfor l (unless_null markobject).

(** Mark the root set. *)
Definition markroot : M gstate unit :=
  modify (fun g => setg_weak [] (setg_grayagain [] (setg_gray [] g)));;
  g ← get;
  markobject (gc_mainthread g);;
  (* make global table be traversed before main stack *)
  th ← gco2th (gc_mainthread g);
  markvalue (th_gt th);;
  markvalue (gc_registry g);;
  markmt;;
  modify (setg_gcstate GCSpropagate).

Definition remarkupvals : M gstate unit :=
  l ← gets gc_uvhead;
  mfor l (fun uv =>
    o ← deref uv;
    when (isgray (marked o)) (u ← gco2uv uv; v ← uv_value u; markvalue v)).

(** [l] is the running thread. *)
Definition atomic (l : Z) : M gstate unit :=
  (* remark occasional upvalues of (maybe) dead threads *)
  remarkupvals;;
  (* traverse objects cautch by write barrier and by 'remarkupvals' *)
  propagateall;;
  (* remark weak tables *)
  modify (fun g => setg_weak [] (setg_gray (gc_weak g) g));;
  markobject l;;  (* mark running thread *)
  markmt;;  (* mark basic metatables (again) *)
  propagateall;;
  (* remark gray again *)
  modify (fun g => setg_grayagain [] (setg_gray (gc_grayagain g) g));;
  propagateall;;
  udsize ← luaC_separateudata false;  (* separate userdata to be finalized *)
  marktmu;;  (* mark `preserved' userdata *)
  n ← propagateall;  (* remark, to propagate `preserveness' *)
  let udsize := u64 (udsize + n) in
  w ← gets gc_weak;
  cleartable w;;  (* remove collected objects from weak tables *)
  (* flip current white *)
  modify (fun g => setg_currentwhite (u8 (otherwhite g)) g);;
  modify (fun g => setg_gcstate GCSsweepstring (setg_rootgc [] (gc_root_swept g ++ gc_root_rest g) (setg_sweepstrgc 0 g)));;
  modify (fun g => setg_estimate (u64 (gc_totalbytes g - udsize)) g).  (* first estimate *)

(** ** Sweeping *)

Definition freestack (l1 : Z) : M gstate unit :=
  th ← gco2th l1;
  luaM_freearray (th_size_ci th) sizeof_CallInfo;;
  luaM_freearray (th_stacksize th) sizeof_TValue.

Definition luaE_freethread (l1 : Z) : M gstate unit :=
  luaF_close l1 0;;  (* close all upvalues for this thread *)
  freestack l1;;
  luaM_freemem sizeof_lua_State;;
  free_object l1.

(** [luaH_free] on the table at an address. *)
Definition free_table (h : Z) : M gstate unit :=
  t ← gco2h h;
  g ← get;
  let '(r, s) := luaH_free (mkTS (gc_totalbytes g) t) in
  modify (setg_totalbytes (ts_mem s));;
  lift r;;
  free_object h.

Definition freeobj (a : Z) : M gstate unit :=
  o ← deref a;
  match obj o with
  | BProto _ => luaF_freeproto a
  | BFunction _ => luaF_freeclosure a
  | BUpVal _ => luaF_freeupval a
  | BTable _ => free_table a
  | BThread _ => luaE_freethread a
  | BString s =>
      modify (fun g => setg_nuse (u32 (gc_nuse g - 1)) g);;
      luaM_freemem (sizestring s);;
      free_object a
  | BUserdata _ _ len =>
      luaM_freemem (sizeudata len);;
      free_object a
  end.

(** Whether the sweep leaves the object: [(marked ^ WHITEBITS) & deadmask]. *)
Definition survives (deadmask m : Z) : bool := negb (Z.land (Z.lxor m WHITEBITS) deadmask =? 0).

(** [sweepwholelist] of a list other than rootgc: what is left of it.  A
    thread has a list of its own, of upvalues. *)
Fixpoint sweepwholelist (fuel : nat) (p : list Z) : M gstate (list Z) :=
  match fuel with
  | O => throw OutOfFuel
  | S fuel =>
      (fix loop (p : list Z) : M gstate (list Z) :=
         match p with
         | [] => mret []
         | curr :: next =>
             o ← deref curr;
             match obj o with
             | BThread th =>  (* sweep open upvalues of each thread *)
                 l ← sweepwholelist fuel (th_openupval th);
                 upd_obj curr (BThread (set_openupval l th))
             | _ => mret tt
             end;;
             g ← get;
             if survives (otherwhite g) (marked o) then  (* not dead? *)
               upd_marked curr (makewhite g);;  (* make it white (for next cycle) *)
               l ← loop next; mret (curr :: l)
             else  (* must erase `curr' *)
               freeobj curr;; loop next
         end) p
  end.

(** An upvalue has no list. *)
Definition sweepopen (p : list Z) : M gstate (list Z) := sweepwholelist 1 p.

(** One object of rootgc, the one after the link [sweepgc]. *)
Definition sweep_step (curr : Z) (next : list Z) : M gstate unit :=
  o ← deref curr;
  match obj o with
  | BThread th => l ← sweepopen (th_openupval th); upd_obj curr (BThread (set_openupval l th))
  | _ => mret tt
  end;;
  g ← get;
  if survives (otherwhite g) (marked o) then  (* not dead? *)
    upd_marked curr (makewhite g);;
    modify (fun g => setg_rootgc (gc_root_swept g ++ [curr]) next g)
  else  (* must erase `curr' *)
    modify (fun g => setg_rootgc (gc_root_swept g) next g);;
    freeobj curr.

(** [sweeplist] of rootgc from [sweepgc] on, at most [count] objects. *)
Fixpoint sweeplist (count : nat) : M gstate unit :=
  match count with
  | O => mret tt
  | S count =>
      g ← get;
      match gc_root_rest g with
      | [] => mret tt
      | curr :: next => sweep_step curr next;; sweeplist count
      end
  end.

(** The string table as lstring.c has it: a string's hash is that of its
    contents. *)
Definition string_of (g : gstate) (a : Z) : option Str.TString :=
  match gc_heap g !! a with
  | Some (mkObj m (BString s)) =>
      Some (Str.mkTString a (match Str.luaS_hash s (zlen s) with Ok h => h | Err _ => 0 end) m s)
  | _ => None
  end.

Definition str_view (g : gstate) : option Str.global_State :=
  chains ← mapM (mapM (string_of g)) (gc_strt g);
  Some (Str.mkGlobal (gc_totalbytes g) (Str.mkStringtable chains (gc_nuse g) (zlen (gc_strt g)))
    (gc_currentwhite g) (gc_gcstate g) (gc_next g)).

Definition store_string (ts : Str.TString) (h : gmap Z GCObject) : gmap Z GCObject :=
  <[Str.ts_addr ts := mkObj (Str.ts_marked ts) (BString (Str.ts_str ts))]> h.

Definition str_put (s : Str.global_State) (g : gstate) : gstate :=
  let tb := Str.g_strt s in
  setg_totalbytes (Str.g_totalbytes s) (setg_next (Str.g_next s) (setg_nuse (Str.st_nuse tb)
    (setg_strt (map (map Str.ts_addr) (Str.st_hash tb))
      (setg_heap (foldr store_string (gc_heap g) (concat (Str.st_hash tb))) g)))).

(** A function of lstring.c, on the strings of the heap. *)
Definition onStr {A} (m : M Str.global_State A) : M gstate A := fun g =>
  match str_view g with
  | None => (Err (UB "dangling pointer"), g)
  | Some v => let '(r, v) := m v in (r, str_put v g)
  end.

Definition luaS_resize_at (newsize : Z) : M gstate unit := onStr (Str.luaS_resize newsize).

Definition checkSizes : M gstate unit :=
  g ← get;
  (* check size of string hash *)
  when ((gc_nuse g <? u32 (Z.quot (zlen (gc_strt g)) 4)) && (zlen (gc_strt g) >? MINSTRTABSIZE * 2))
    (luaS_resize_at (Z.quot (zlen (gc_strt g)) 2));;  (* table is too big *)
  (* check size of buffer *)
  when (gc_buffsize g >? LUA_MINBUFFER * 2)  (* buffer too big? *)
    (n ← luaZ_resizebuffer (gc_buffsize g) (gc_buffsize g / 2);
     modify (setg_buffsize n)).

(** ** Finalisers *)

(** rootgc with [o] after the main thread. *)
Definition link_after (x o : Z) (l : list Z) : list Z := l ≫= fun y => if y =? x then [y; o] else [y].

Definition GCTM : M gstate unit :=
  g ← get;
  match gc_tmudata g with
  | [] => throw (UB "no userdata to finalize")
  | o :: next =>  (* get first element *)
      modify (setg_tmudata next);;  (* remove udata from `tmudata' *)
      modify (fun g => setg_rootgc (link_after (gc_mainthread g) o (gc_root_swept g))
                         (link_after (gc_mainthread g) o (gc_root_rest g)) g);;  (* return it to `root' list *)
      upd_marked o (makewhite g);;
      x ← deref o;
      match obj x with
      | BUserdata metatable _ _ =>
          tm ← gfasttm (opt_ptr metatable) TM_GC;
          match tm with
          | None => mret tt
          | Some tm =>
              oldt ← gets gc_GCthreshold;
              modify (fun g => setg_GCthreshold (u64 (2 * gc_totalbytes g)) g);;  (* avoid GC steps *)
              call tm o;;
              modify (setg_GCthreshold oldt)  (* restore threshold *)
          end
      | _ => bad_cast
      end
  end.

(** Call all GC tag methods; they may make new ones. *)
Fixpoint luaC_callGCTM (fuel : nat) : M gstate unit :=
  match fuel with
  | O => throw OutOfFuel
  | S fuel => g ← get; match gc_tmudata g with [] => mret tt | _ => GCTM;; luaC_callGCTM fuel end
  end.

(** ** The cycle *)

(** What the sweep took off the estimate. *)
Definition reestimate (old : Z) : M gstate unit :=
  modify (fun g => setg_estimate (u64 (gc_estimate g - (old - gc_totalbytes g))) g).

Definition sweep_strings (i : Z) : M gstate unit :=
  g ← get;
  chain ← array_at (gc_strt g) i;
  l ← sweepwholelist 2 chain;
  modify (fun g => setg_strt (zupd i l (gc_strt g)) g).

Definition singlestep (l : Z) : M gstate Z :=
  g ← get;
  let s := gc_gcstate g in
  if s =? GCSpause then markroot;; mret 0  (* start a new collection *)
  else if s =? GCSpropagate then
    match gc_gray g with
    | [] => atomic l;; mret 0  (* no more `gray' objects: finish mark phase *)
    | _ => propagatemark
    end
  else if s =? GCSsweepstring then
    let old := gc_totalbytes g in
    let i := gc_sweepstrgc g in
    modify (setg_sweepstrgc (i + 1));;
    sweep_strings i;;
    g ← get;
    when (gc_sweepstrgc g >=? zlen (gc_strt g)) (modify (setg_gcstate GCSsweep));;  (* nothing more to sweep? *)
    reestimate old;;
    mret GCSWEEPCOST
  else if s =? GCSsweep then
    let old := gc_totalbytes g in
    sweeplist (Z.to_nat GCSWEEPMAX);;
    g ← get;
    match gc_root_rest g with
    | [] => checkSizes;; modify (setg_gcstate GCSfinalize)  (* nothing more to sweep? *)
    | _ => mret tt
    end;;
    reestimate old;;
    mret (GCSWEEPMAX * GCSWEEPCOST)
  else if s =? GCSfinalize then
    match gc_tmudata g with
    | [] =>
        modify (fun g => setg_gcdept 0 (setg_gcstate GCSpause g));;  (* end collection *)
        mret 0
    | _ =>
        GCTM;;
        modify (fun g => if gc_estimate g >? GCFINALIZECOST then setg_estimate (gc_estimate g - GCFINALIZECOST) g else g);;
        mret GCFINALIZECOST
    end
  else mret 0.

(** The loop of [luaC_step], which goes on while the step may cost more. *)
Fixpoint step_loop (fuel : nat) (l lim : Z) : M gstate unit :=
  match fuel with
  | O => throw OutOfFuel
  | S fuel =>
      n ← singlestep l;
      let lim := lim - n in
      g ← get;
      if gc_gcstate g =? GCSpause then mret tt
      else if lim >? 0 then step_loop fuel l lim else mret tt
  end.

Definition MAX_LUMEM : Z := 2 ^ 64 - 3.

Definition luaC_step (fuel : nat) (l : Z) : M gstate unit :=
  g ← get;
  let lim := u32 (GCSTEPSIZE / 100 * gc_gcstepmul g) in  (* 1024u: an unsigned int *)
  let lim := if lim =? 0 then (MAX_LUMEM - 1) / 2 else lim in  (* no limit *)
  modify (fun g => setg_gcdept (u64 (gc_gcdept g + (gc_totalbytes g - gc_GCthreshold g))) g);;
  step_loop fuel l lim;;
  g ← get;
  if negb (gc_gcstate g =? GCSpause) then
    if gc_gcdept g <? GCSTEPSIZE then modify (fun g => setg_GCthreshold (u64 (gc_totalbytes g + GCSTEPSIZE)) g)
    else modify (fun g => setg_GCthreshold (gc_totalbytes g) (setg_gcdept (gc_gcdept g - GCSTEPSIZE) g))
  else modify setthreshold.

(** [while (g->gcstate != s) singlestep(L)] *)
Fixpoint run_until (fuel : nat) (l s : Z) : M gstate unit :=
  match fuel with
  | O => throw OutOfFuel
  | S fuel => g ← get; if gc_gcstate g =? s then mret tt else singlestep l;; run_until fuel l s
  end.

Definition luaC_fullgc (fuel : nat) (l : Z) : M gstate unit :=
  g ← get;
  when (gc_gcstate g <=? GCSpropagate)
    (* reset sweep marks to sweep all elements (returning them to white), reset other collector lists *)
    (modify (fun g => setg_gcstate GCSsweepstring (setg_weak [] (setg_grayagain [] (setg_gray []
       (setg_rootgc [] (gc_root_swept g ++ gc_root_rest g) (setg_sweepstrgc 0 g)))))));;
  (* finish any pending sweep phase *)
  run_until fuel l GCSfinalize;;
  markroot;;
  run_until fuel l GCSpause;;
  modify setthreshold.

Definition luaC_freeall : M gstate unit :=
  modify (setg_currentwhite (Z.lor WHITEBITS (bitmask SFIXEDBIT)));;  (* mask to collect all elements *)
  modify (fun g => setg_rootgc [] (gc_root_swept g ++ gc_root_rest g) g);;
  g ← get;
  sweeplist (size (gc_heap g));;  (* an object is swept once *)
  g ← get;
  match gc_root_rest g with [] => mret tt | _ => throw OutOfFuel end;;
  mfor (seqZ 0 (zlen (gc_strt g))) sweep_strings.  (* free all string lists *)
End collect.
