(* ===== verification/GcInv.v ===== *)
(** * GcInv.v: what a heap must be for the collector, and what marking keeps

    [heap_ok] says that every reference leads to an object of its type and
    that tables and stacks have their shape.  [evol] is all that marking may do
    to a heap: colours, emptied entries of tables and the unused part of
    stacks; it keeps the references of every object. *)

From S2P Require Import Prelude Machine Object Mem Table TableInv Gc.

(** ** Colours *)

Lemma testbits_pow x n : 0 <= n -> testbits x (bitmask n) = Z.testbit x n.
Proof.
  intros Hn. unfold testbits, bitmask. rewrite Z.shiftl_1_l.
  destruct (Z.testbit x n) eqn:E.
  - apply negb_true_iff, Z.eqb_neq. intros Hz. apply (f_equal (fun z => Z.testbit z n)) in Hz.
    rewrite Z.land_spec, E, Z.pow2_bits_true, Z.bits_0 in Hz by done. done.
  - apply negb_false_iff, Z.eqb_eq, Z.bits_inj'. intros i Hi. rewrite Z.land_spec, Z.bits_0.
    destruct (decide (i = n)) as [->|]; [by rewrite E|]. by rewrite Z.pow2_bits_false, andb_false_r.
Qed.

Lemma iswhite_bits m : iswhite m = Z.testbit m 0 || Z.testbit m 1.
Proof.
  unfold iswhite, testbits. change WHITEBITS with (Z.ones 2). rewrite Z.land_ones by lia.
  rewrite <- (Z.land_ones m 2) by lia.
  destruct (Z.testbit m 0) eqn:E0; [|destruct (Z.testbit m 1) eqn:E1].
  - apply negb_true_iff, Z.eqb_neq. intros Hz. apply (f_equal (fun z => Z.testbit z 0)) in Hz.
    rewrite Z.land_spec, E0, Z.bits_0 in Hz. done.
  - apply negb_true_iff, Z.eqb_neq. intros Hz. apply (f_equal (fun z => Z.testbit z 1)) in Hz.
    rewrite Z.land_spec, E1, Z.bits_0 in Hz. done.
  - apply negb_false_iff, Z.eqb_eq, Z.bits_inj'. intros i Hi. rewrite Z.land_spec, Z.bits_0, Z.testbit_ones by lia.
    destruct (decide (i = 0)) as [->|]; [by rewrite E0|]. destruct (decide (i = 1)) as [->|]; [by rewrite E1|].
    destruct (Z.leb_spec 0 i), (Z.ltb_spec i 2); cbn; rewrite ?andb_false_r; try done; lia.
Qed.

Lemma isblack_bit m : isblack m = Z.testbit m 2.
Proof. apply (testbits_pow m 2). lia. Qed.

(** The bits of a byte after an operation on it. *)
Lemma resetbits_spec m k i : 0 <= i < 8 -> Z.testbit (resetbits m k) i = Z.testbit m i && negb (Z.testbit k i).
Proof.
  intros Hi. unfold resetbits. rewrite Z.land_spec, uwrap_spec, Z.lnot_spec by lia.
  by destruct (Z.ltb_spec i 8); [|lia].
Qed.

Lemma setbits_spec m k i : 0 <= i < 8 -> Z.testbit (setbits m k) i = Z.testbit m i || Z.testbit k i.
Proof.
  intros Hi. unfold setbits. rewrite uwrap_spec, Z.lor_spec by lia. by destruct (Z.ltb_spec i 8); [|lia].
Qed.

Lemma makewhite_spec g m i : 0 <= i < 8 ->
  Z.testbit (makewhite g m) i = (Z.testbit m i && Z.testbit maskmarks i) || (Z.testbit (gc_currentwhite g) i && (i <? 2)).
Proof.
  intros Hi. unfold makewhite, luaC_white. rewrite uwrap_spec, Z.lor_spec, uwrap_spec, !Z.land_spec by lia.
  destruct (Z.ltb_spec i 8); [|lia]. cbn [andb]. f_equal. f_equal. change WHITEBITS with (Z.ones 2).
  rewrite Z.testbit_ones by lia. by destruct (Z.leb_spec 0 i); [|lia].
Qed.

#[global] Hint Rewrite iswhite_bits isblack_bit : marks.
#[global] Hint Rewrite resetbits_spec setbits_spec makewhite_spec Z.lxor_spec using lia : marks.

(** Colours after an operation: the bits of the constants evaluate. *)
Ltac marks :=
  unfold white2gray, gray2black, black2gray, changewhite, markfinalized;
  autorewrite with marks; cbn [Z.testbit]; cbn;
  rewrite ?andb_true_r, ?andb_false_r, ?orb_false_r, ?orb_true_r; try done.

Lemma white2gray_white m : iswhite (white2gray m) = false.
Proof. by marks. Qed.
Lemma gray2black_white m : iswhite (gray2black m) = iswhite m.
Proof. by marks. Qed.
Lemma black2gray_white m : iswhite (black2gray m) = iswhite m.
Proof. by marks. Qed.
Lemma gray2black_black m : isblack (gray2black m) = true.
Proof. by marks. Qed.
Lemma black2gray_black m : isblack (black2gray m) = false.
Proof. by marks. Qed.

(** The bits that tell how a table is weak. *)
Definition keyweak (m : Z) : bool := testbits m KEYWEAK.
Definition valueweak (m : Z) : bool := testbits m VALUEWEAK.

Lemma keyweak_bit m : keyweak m = Z.testbit m 3.
Proof. apply (testbits_pow m 3). lia. Qed.
Lemma valueweak_bit m : valueweak m = Z.testbit m 4.
Proof. apply (testbits_pow m 4). lia. Qed.
#[global] Hint Rewrite keyweak_bit valueweak_bit : marks.

Lemma white2gray_weak m : keyweak (white2gray m) = keyweak m /\ valueweak (white2gray m) = valueweak m.
Proof. split; by marks. Qed.
Lemma gray2black_weak m : keyweak (gray2black m) = keyweak m /\ valueweak (gray2black m) = valueweak m.
Proof. split; by marks. Qed.
Lemma black2gray_weak m : keyweak (black2gray m) = keyweak m /\ valueweak (black2gray m) = valueweak m.
Proof. split; by marks. Qed.

(** ** References *)

Definition ref : Type := Z * Z.   (* the type and the address *)

Definition vref (v : TValue) : list ref := if iscollectable v then [(ttype v, gcvalue v)] else [].
Definition pref (tt p : Z) : list ref := if p =? NULL then [] else [(tt, p)].

(** An empty entry refers to nothing. *)
Definition node_refs (wk wv : bool) (nd : Node) : list ref :=
  if ttisnil (i_val nd) then []
  else (if wk then [] else vref (i_key nd)) ++ (if wv then [] else vref (i_val nd)).

Definition stack_value (h : gmap Z GCObject) (th level : Z) : option TValue :=
  match h !! th with
  | Some (mkObj _ (BThread t)) => znth (th_stack t) level
  | _ => None
  end.

(** The references of an object; of a table without its weak ones. *)
Definition refs_with (wk wv : bool) (h : gmap Z GCObject) (b : body) : list ref :=
  match b with
  | BString _ => []
  | BUserdata mt env _ => pref LUA_TTABLE mt ++ [(LUA_TTABLE, env)]
  | BUpVal (UClosed v) => vref v
  | BUpVal (UOpen th level) => match stack_value h th level with Some v => vref v | None => [] end
  | BFunction (CClosure env up) => (LUA_TTABLE, env) :: (up ≫= vref)
  | BFunction (LClosure env p up) => (LUA_TTABLE, env) :: (LUA_TPROTO, p) :: (pair LUA_TUPVAL <$> up)
  | BTable t =>
      match t_metatable t with Some mt => [(LUA_TTABLE, mt)] | None => [] end ++
      (if wv then [] else take (Z.to_nat (t_sizearray t)) (t_array t) ≫= vref) ++
      (t_node t ≫= node_refs wk wv)
  | BThread th => vref (th_gt th) ++ (take (Z.to_nat (th_top th)) (th_stack th) ≫= vref)
  | BProto p =>
      pref LUA_TSTRING (p_source p) ++ (p_k p ≫= vref) ++ (p_upvalues p ≫= pref LUA_TSTRING) ++
      (p_p p ≫= pref LUA_TPROTO) ++ (p_locvars p ≫= pref LUA_TSTRING)
  end.

Definition refs : gmap Z GCObject -> body -> list ref := refs_with false false.

Definition has_type (h : gmap Z GCObject) (r : ref) : Prop := exists o, h !! r.2 = Some o /\ tt_of (obj o) = r.1.

(** ** Well-formed objects *)

Record thread_ok (th : Thread) : Prop := {
  tho_top : 0 <= th_top th;
  tho_ci : 1 <= zlen (th_ci th);
  tho_lim : stack_lim th < zlen (th_stack th);
  tho_stack : zlen (th_stack th) < 2 ^ 29;
  tho_size_ci : 0 <= th_size_ci th < 2 ^ 29;
}.

Definition shape_ok `{StringHash} (h : gmap Z GCObject) (b : body) : Prop :=
  match b with
  | BTable t => table_ok t
  | BThread th => thread_ok th
  | BUpVal (UOpen a level) => exists m th, h !! a = Some (mkObj m (BThread th)) /\ 0 <= level < th_top th
  | _ => True
  end.

Definition obj_ok `{StringHash} (h : gmap Z GCObject) (b : body) : Prop :=
  shape_ok h b /\ forall r, r ∈ refs h b -> has_type h r.

Definition heap_ok `{StringHash} (h : gmap Z GCObject) : Prop := forall a o, h !! a = Some o -> obj_ok h (obj o).

(** ** What marking may do to a heap *)

Definition node_sim (nd nd' : Node) : Prop :=
  i_val nd' = i_val nd /\ i_next nd' = i_next nd /\
  (i_key nd' = i_key nd \/ i_val nd = VNil /\ i_key nd <> VNil /\ exists p, i_key nd' = VDeadKey p).

(** The collector also takes entries away, from weak tables. *)
Definition val_clr (v v' : TValue) : Prop := v' = v \/ v' = VNil.
Definition node_clr (nd nd' : Node) : Prop :=
  val_clr (i_val nd) (i_val nd') /\ i_next nd' = i_next nd /\
  (i_key nd' = i_key nd \/ i_val nd' = VNil /\ i_key nd <> VNil /\ exists p, i_key nd' = VDeadKey p).

Record table_clr (t t' : Table) : Prop := {
  tc_lsizenode : t_lsizenode t' = t_lsizenode t;
  tc_metatable : t_metatable t' = t_metatable t;
  tc_array : Forall2 val_clr (t_array t) (t_array t');
  tc_sizearray : t_sizearray t' = t_sizearray t;
  tc_dummy : t_dummy t' = t_dummy t;
  tc_lastfree : t_lastfree t' = t_lastfree t;
  tc_node : Forall2 node_clr (t_node t) (t_node t');
}.

Record table_sim (t t' : Table) : Prop := {
  ts_lsizenode : t_lsizenode t' = t_lsizenode t;
  ts_metatable : t_metatable t' = t_metatable t;
  ts_array : t_array t' = t_array t;
  ts_sizearray : t_sizearray t' = t_sizearray t;
  ts_dummy : t_dummy t' = t_dummy t;
  ts_lastfree : t_lastfree t' = t_lastfree t;
  ts_node : Forall2 node_sim (t_node t) (t_node t');
}.

Record thread_sim (th th' : Thread) : Prop := {
  ths_gt : th_gt th' = th_gt th;
  ths_top : th_top th' = th_top th;
  ths_ci : th_ci th' = th_ci th;
  ths_openupval : th_openupval th' = th_openupval th;
  ths_used i : i < th_top th -> znth (th_stack th') i = znth (th_stack th) i;
  ths_stack : zlen (th_stack th') <= zlen (th_stack th);
  ths_lim : stack_lim th < zlen (th_stack th) -> stack_lim th < zlen (th_stack th');
  ths_size_ci : th_size_ci th' <= th_size_ci th;
  ths_size_ci_pos : 0 <= th_size_ci th -> 0 <= th_size_ci th';
}.

Definition body_sim (b b' : body) : Prop :=
  match b, b' with
  | BTable t, BTable t' => table_sim t t'
  | BThread th, BThread th' => thread_sim th th'
  | _, _ => b' = b
  end.

Definition obj_sim (o o' : GCObject) : Prop :=
  body_sim (obj o) (obj o') /\ (iswhite (marked o) = false -> iswhite (marked o') = false).

Definition heap_sim (h h' : gmap Z GCObject) : Prop :=
  forall a, option_relation obj_sim (fun _ => False) (fun _ => False) (h !! a) (h' !! a).

(** ** The order of heaps *)

Lemma node_sim_refl nd : node_sim nd nd.
Proof. split_and!; auto. Qed.
Lemma node_sim_trans x y z : node_sim x y -> node_sim y z -> node_sim x z.
Proof.
  intros (Hv & Hn & Hk) (Hv' & Hn' & Hk'). split_and!; [congruence..|].
  destruct Hk as [Hk|(? & ? & p & Hk)], Hk' as [Hk'|(? & ? & p' & Hk')].
  - left. congruence.
  - right. split_and!; [congruence..|eauto].
  - right. split_and!; [done..|]. exists p. congruence.
  - right. split_and!; [done..|eauto].
Qed.

Lemma table_sim_refl t : table_sim t t.
Proof. split; try done. by apply Forall_Forall2_diag, Forall_true; intros; apply node_sim_refl. Qed.
Lemma nodes_sim_trans l1 l2 l3 : Forall2 node_sim l1 l2 -> Forall2 node_sim l2 l3 -> Forall2 node_sim l1 l3.
Proof.
  intros H. revert l3. induction H as [|x y l1 l2 Hxy _ IH]; intros l3 H'; inversion H'; subst; constructor;
    [by eapply node_sim_trans|by apply IH].
Qed.
Lemma table_sim_trans x y z : table_sim x y -> table_sim y z -> table_sim x z.
Proof. intros [] []. split; try congruence. by eapply nodes_sim_trans. Qed.

Lemma stack_lim_ext th th' : th_top th' = th_top th -> th_ci th' = th_ci th -> stack_lim th' = stack_lim th.
Proof. unfold stack_lim. by intros -> ->. Qed.

Lemma thread_sim_refl th : thread_sim th th.
Proof. split; intros; done. Qed.
Lemma thread_sim_trans x y z : thread_sim x y -> thread_sim y z -> thread_sim x z.
Proof.
  intros [] []. pose proof (stack_lim_ext x y ltac:(done) ltac:(done)) as Hl.
  split; try congruence; try lia.
  intros. rewrite ths_used1 by congruence. by apply ths_used0.
Qed.

Lemma body_sim_refl b : body_sim b b.
Proof. destruct b; cbn; done || apply table_sim_refl || apply thread_sim_refl. Qed.
Lemma body_sim_trans x y z : body_sim x y -> body_sim y z -> body_sim x z.
Proof.
  intros Hxy Hyz. destruct x; cbn in Hxy; try (subst y; exact Hyz);
    destruct y; try done; destruct z; try done; [by eapply table_sim_trans|by eapply thread_sim_trans].
Qed.

Lemma body_sim_tt b b' : body_sim b b' -> tt_of b' = tt_of b.
Proof. destruct b, b'; cbn; congruence. Qed.

Lemma heap_sim_refl h : heap_sim h h.
Proof. intros a. destruct (h !! a) as [o|]; [|done]. split; [apply body_sim_refl|done]. Qed.
Lemma heap_sim_trans h1 h2 h3 : heap_sim h1 h2 -> heap_sim h2 h3 -> heap_sim h1 h3.
Proof.
  intros H12 H23 a. specialize (H12 a). specialize (H23 a).
  destruct (h1 !! a), (h2 !! a), (h3 !! a); cbn in *; try done.
  destruct H12 as [Hb Hw], H23 as [Hb' Hw']. split; [by eapply body_sim_trans|auto].
Qed.

Lemma heap_sim_Some h h' a o : heap_sim h h' -> h !! a = Some o -> exists o', h' !! a = Some o' /\ obj_sim o o'.
Proof. intros Hs Ha. specialize (Hs a). rewrite Ha in Hs. destruct (h' !! a) as [o'|]; [by exists o'|done]. Qed.
Lemma heap_sim_Some_r h h' a o' : heap_sim h h' -> h' !! a = Some o' -> exists o, h !! a = Some o /\ obj_sim o o'.
Proof. intros Hs Ha. specialize (Hs a). rewrite Ha in Hs. destruct (h !! a) as [o|]; [by exists o|done]. Qed.

Lemma heap_sim_has_type h h' r : heap_sim h h' -> has_type h r -> has_type h' r.
Proof.
  intros Hs (o & Ho & Ht). destruct (heap_sim_Some _ _ _ _ Hs Ho) as (o' & Ho' & Hb & _).
  exists o'. split; [done|]. by rewrite (body_sim_tt _ _ Hb).
Qed.

(** ** References stay *)

Lemma take_znth_eq {A} (l l' : list A) n :
  (forall i, 0 <= i < n -> znth l' i = znth l i) -> take (Z.to_nat n) l' = take (Z.to_nat n) l.
Proof.
  intros H. apply list_eq. intros i. destruct (decide (i < Z.to_nat n)%nat).
  - rewrite !lookup_take_lt by done. rewrite <- !znth_of_nat. apply H. lia.
  - by rewrite !lookup_take_ge by lia.
Qed.

Lemma node_refs_sim wk wv nd nd' : node_sim nd nd' -> node_refs wk wv nd' = node_refs wk wv nd.
Proof.
  intros (Hv & _ & Hk). unfold node_refs. rewrite Hv. destruct Hk as [->|(Hn & _)]; [done|]. by rewrite Hn.
Qed.

Lemma nodes_refs_sim wk wv l l' : Forall2 node_sim l l' -> l' ≫= node_refs wk wv = l ≫= node_refs wk wv.
Proof.
  induction 1 as [|nd nd' l l' Hn _ IH]; [done|]. cbn [mbind list_bind].
  by rewrite (node_refs_sim _ _ _ _ Hn), IH.
Qed.

Lemma stack_value_sim h h' a level m th :
  heap_sim h h' -> h !! a = Some (mkObj m (BThread th)) -> level < th_top th ->
  stack_value h' a level = stack_value h a level.
Proof.
  intros Hs Ha Hl. unfold stack_value. destruct (heap_sim_Some _ _ _ _ Hs Ha) as ([m' b'] & -> & Hb & _).
  rewrite Ha. cbn in Hb. destruct b'; try done. by apply (ths_used _ _ Hb).
Qed.

Lemma refs_sim `{StringHash} wk wv h h' b b' :
  heap_sim h h' -> body_sim b b' -> shape_ok h b -> refs_with wk wv h' b' = refs_with wk wv h b.
Proof.
  intros Hs Hb Hsh. destruct b as [| |uv|cl|t|th|p]; cbn in Hb; try (subst b'; cbn; done).
  - subst b'. destruct uv as [a level|]; [|done]. destruct Hsh as (m & th & Ha & Hl).
    cbn. rewrite (stack_value_sim h h' a level m th); [done..|lia].
  - destruct b'; try done. destruct Hb. cbn.
    rewrite ts_metatable0, ts_array0, ts_sizearray0, (nodes_refs_sim _ _ _ _ ts_node0). done.
  - destruct b'; try done. destruct Hb. cbn. rewrite ths_gt0, ths_top0.
    rewrite (take_znth_eq (th_stack th) _ (th_top th)); [done|]. intros i Hi. apply ths_used0. lia.
Qed.

(** ** The well-formedness of objects stays *)

Section hash_clr.
Context (nodes nodes' : list Node) (Hclr : Forall2 node_clr nodes nodes').

Lemma clr_zlen : zlen nodes' = zlen nodes.
Proof. unfold zlen. by rewrite (Forall2_length _ _ _ Hclr). Qed.

Lemma clr_znth i nd' : znth nodes' i = Some nd' -> exists nd, znth nodes i = Some nd /\ node_clr nd nd'.
Proof. unfold znth. case_if; [done|]. intros Hn. by eapply Forall2_lookup_r. Qed.
Lemma clr_znth_l i nd : znth nodes i = Some nd -> exists nd', znth nodes' i = Some nd' /\ node_clr nd nd'.
Proof. unfold znth. case_if; [done|]. intros Hn. by eapply Forall2_lookup_l. Qed.

(** A proper key was there before. *)
Lemma clr_proper nd nd' : node_clr nd nd' -> proper (i_key nd') = true -> i_key nd' = i_key nd.
Proof. intros (_ & _ & [->|(_ & _ & p & ->)]); done. Qed.
Lemma clr_nil nd nd' : node_clr nd nd' -> i_key nd' = VNil -> i_key nd = VNil.
Proof. intros (_ & _ & [->|(_ & _ & p & ->)]); done. Qed.

Lemma clr_chain i l : chain nodes i l -> chain nodes' i l.
Proof.
  induction 1 as [i nd Hi Hn|i nd j l Hi Hn Hc IH]; destruct (clr_znth_l _ _ Hi) as (nd' & Hi' & _ & Hn' & _).
  - eapply chain_end; [done|congruence].
  - eapply chain_step; [done|by rewrite Hn'|done].
Qed.

Lemma clr_hash_ok mpos : hash_ok mpos nodes -> hash_ok mpos nodes'.
Proof.
  intros Hok. split.
  - rewrite clr_zlen. apply (ho_mpos _ _ Hok).
  - intros i Hi. rewrite clr_zlen in Hi. destruct (ho_chain _ _ Hok i Hi) as [l Hl]. exists l. by apply clr_chain.
  - intros i j x y k Hi Hj Hx Hy. destruct (clr_znth _ _ Hi) as (x0 & Hx0 & _ & Ex & _), (clr_znth _ _ Hj) as (y0 & Hy0 & _ & Ey & _).
    eapply (ho_inj _ _ Hok i j x0 y0 k); congruence.
  - intros i x Hi Hk. destruct (clr_znth _ _ Hi) as (x0 & Hx0 & Hs). pose proof (clr_nil _ _ Hs Hk) as Hk0.
    destruct (ho_nil _ _ Hok i x0 Hx0 Hk0) as (Hv & Hn & Hno). destruct Hs as (Ev & En & _).
    split_and!; [destruct Ev; congruence|congruence|].
    intros j y Hj. destruct (clr_znth _ _ Hj) as (y0 & Hy0 & _ & Ey & _). rewrite Ey. by apply (Hno j).
  - intros i x Hi Hp. destruct (clr_znth _ _ Hi) as (x0 & Hx0 & Hs). pose proof (clr_proper _ _ Hs Hp) as Hk.
    destruct (ho_reach _ _ Hok i x0 Hx0) as (l & Hl & Hin); [congruence|]. exists l. split; [|done]. rewrite Hk. by apply clr_chain.
  - intros i x y Hi Hp Hy Hpy. destruct (clr_znth _ _ Hi) as (x0 & Hx0 & Hs). pose proof (clr_proper _ _ Hs Hp) as Hk.
    destruct (clr_znth _ _ Hy) as (y0 & Hy0 & Hsy). pose proof (clr_proper _ _ Hsy Hpy) as Hky. rewrite Hky, Hk in *.
    eapply (ho_first _ _ Hok i x0 y0); congruence.
  - intros i j x y Hi Hj Hp Hk. destruct (clr_znth _ _ Hi) as (x0 & Hx0 & Hs). pose proof (clr_proper _ _ Hs Hp) as Hkx.
    destruct (clr_znth _ _ Hj) as (y0 & Hy0 & Hsy). assert (Hpy : proper (i_key y) = true) by congruence.
    pose proof (clr_proper _ _ Hsy Hpy) as Hky. eapply (ho_uniq _ _ Hok i j x0 y0); congruence.
  - intros i x Hi Hv. destruct (clr_znth _ _ Hi) as (x0 & Hx0 & [Ev|Ev] & _ & Hk); [|done]. rewrite Ev in Hv.
    pose proof (ho_live _ _ Hok i x0 Hx0 Hv) as Hp. destruct Hk as [->|(? & _)]; [done|congruence].
Qed.
End hash_clr.

Lemma hash_ok_mpos f g nodes : (forall k, g k = f k) -> hash_ok f nodes -> hash_ok g nodes.
Proof.
  intros E []. split; intros; rewrite ?E in *; eauto.
Qed.

Lemma table_clr_ok `{StringHash} t t' : table_clr t t' -> table_ok t -> table_ok t'.
Proof.
  intros Hs Hok. pose proof Hs as [El Em Ea Es Ed Ef Hn].
  assert (Ea' : zlen (t_array t') = zlen (t_array t)) by (unfold zlen; by rewrite (Forall2_length _ _ _ Ea)).
  split; rewrite ?El, ?Ea', ?Es, ?Ef, ?Ed, ?(clr_zlen _ _ Hn); try apply Hok.
  - apply (hash_ok_mpos (mainposition t)); [|apply (clr_hash_ok _ _ Hn), Hok].
    intros k. unfold mainposition, hashpow2, hashnum, hashpointer, hashmod, sizenode. by rewrite El.
  - intros i nd' Hi. destruct (clr_znth _ _ Hn _ _ Hi) as (nd & Hnd & Hsn). unfold in_array. rewrite Es.
    destruct Hsn as (_ & _ & [->|(_ & _ & p & ->)]); [by apply (to_apart t Hok i)|done].
  - intros i nd' Hdm Hi Hk. destruct (clr_znth _ _ Hn _ _ Hi) as (nd & Hnd & Hsn).
    apply (to_free t Hok i nd); [done..|]. by eapply clr_nil.
  - intros Hdm. destruct (to_dummy t Hok Hdm) as (Hn0 & ? & ?). split_and!; [|done..].
    rewrite Hn0 in Hn. inversion Hn as [|? nd' ? l' Hsn Hnil]; subst. inversion Hnil; subst.
    destruct nd', Hsn as (Ev & En & [Ek|(_ & Ek & _)]); cbn in *; [|done]. unfold dummynode_. destruct Ev; cbn in *; congruence.
Qed.

Lemma sim_znth_l nodes nodes' i nd : Forall2 node_sim nodes nodes' -> znth nodes i = Some nd ->
  exists nd', znth nodes' i = Some nd' /\ node_sim nd nd'.
Proof. intros Hs. unfold znth. case_if; [done|]. intros Hn. by eapply Forall2_lookup_l. Qed.

Lemma node_sim_clr nd nd' : node_sim nd nd' -> node_clr nd nd'.
Proof. intros (Ev & En & [Ek|(Hn & Hk & Hp)]); split_and!; auto; [by left..|]. right. split_and!; [congruence|done..]. Qed.
Lemma table_sim_clr t t' : table_sim t t' -> table_clr t t'.
Proof.
  intros []. split; auto.
  - rewrite ts_array0. apply Forall_Forall2_diag, Forall_true. by left.
  - eapply Forall2_impl; [done|]. intros ??. apply node_sim_clr.
Qed.
Lemma table_sim_ok `{StringHash} t t' : table_sim t t' -> table_ok t -> table_ok t'.
Proof. intros Hs. by apply table_clr_ok, table_sim_clr. Qed.

Lemma thread_sim_ok th th' : thread_sim th th' -> thread_ok th -> thread_ok th'.
Proof.
  intros [] []. pose proof (stack_lim_ext th th' ltac:(done) ltac:(done)) as Hl.
  split; rewrite ?Hl, ?ths_top0, ?ths_ci0; auto; lia.
Qed.

Lemma heap_sim_ok `{StringHash} h h' : heap_sim h h' -> heap_ok h -> heap_ok h'.
Proof.
  intros Hs Hok a o' Ho'. destruct (heap_sim_Some_r _ _ _ _ Hs Ho') as (o & Ho & Hb & _).
  destruct (Hok a o Ho) as [Hsh Hr]. split.
  - destruct (obj o) as [| |uv|cl|t|th|p], (obj o') as [| |uv'|cl'|t'|th'|p']; cbn in *; try done; try discriminate.
    + injection Hb as ->. destruct uv as [a' level|]; [|done]. destruct Hsh as (m & th & Ha & Hl).
      destruct (heap_sim_Some _ _ _ _ Hs Ha) as ([m' b'] & Ha' & Hb' & _). cbn in Hb'. destruct b'; try done.
      exists m', th0. split; [done|]. by rewrite (ths_top _ _ Hb').
    + by eapply table_sim_ok.
    + by eapply thread_sim_ok.
  - intros r Hin. unfold refs in Hin. rewrite (refs_sim _ _ _ _ _ _ Hs Hb Hsh) in Hin. eapply heap_sim_has_type; [done|by apply Hr].
Qed.

(** ** Clearing *)

Definition body_clr (b b' : body) : Prop :=
  match b, b' with BTable t, BTable t' => table_clr t t' | _, _ => b' = b end.

(** Entries are gone, and objects that refer to nothing were marked. *)
Definition heap_clr (h h' : gmap Z GCObject) : Prop :=
  forall a, option_relation (fun o o' => body_clr (obj o) (obj o') /\ (iswhite (marked o) = false -> iswhite (marked o') = false))
    (fun _ => False) (fun _ => False) (h !! a) (h' !! a).

Lemma val_clr_trans x y z : val_clr x y -> val_clr y z -> val_clr x z.
Proof. unfold val_clr. intuition congruence. Qed.
Lemma node_clr_trans x y z : node_clr x y -> node_clr y z -> node_clr x z.
Proof.
  intros (Hv & Hn & Hk) (Hv' & Hn' & Hk'). split_and!; [by eapply val_clr_trans|congruence|].
  destruct Hk as [Hk|(Hz & ? & p & Hk)], Hk' as [Hk'|(Hz' & ? & p' & Hk')].
  - left. congruence.
  - right. split_and!; [congruence..|eauto].
  - right. split_and!; [destruct Hv'; congruence|done|]. exists p. congruence.
  - right. split_and!; [done..|eauto].
Qed.

Lemma Forall2_trans {A} (R : A -> A -> Prop) : (forall x y z, R x y -> R y z -> R x z) ->
  forall l1 l2 l3, Forall2 R l1 l2 -> Forall2 R l2 l3 -> Forall2 R l1 l3.
Proof.
  intros HR l1 l2 l3 H. revert l3. induction H as [|x y l1 l2 Hxy _ IH]; intros l3 H'; inversion H'; subst; constructor; eauto.
Qed.

Lemma table_clr_refl t : table_clr t t.
Proof. apply table_sim_clr, table_sim_refl. Qed.
Lemma table_clr_trans x y z : table_clr x y -> table_clr y z -> table_clr x z.
Proof.
  intros [] []. split; try congruence; (eapply Forall2_trans; [|done..]); [exact val_clr_trans|exact node_clr_trans].
Qed.

Lemma body_clr_refl b : body_clr b b.
Proof. destruct b; done || apply table_clr_refl. Qed.
Lemma body_clr_trans x y z : body_clr x y -> body_clr y z -> body_clr x z.
Proof.
  intros Hxy Hyz. destruct x; cbn in Hxy; try (subst y; exact Hyz); destruct y; try done; destruct z; try done. by eapply table_clr_trans.
Qed.
Lemma body_clr_tt b b' : body_clr b b' -> tt_of b' = tt_of b.
Proof. destruct b, b'; cbn; congruence. Qed.

Lemma heap_clr_refl h : heap_clr h h.
Proof. intros a. destruct (h !! a) as [o|]; [|done]. split; [apply body_clr_refl|done]. Qed.
Lemma heap_clr_trans h1 h2 h3 : heap_clr h1 h2 -> heap_clr h2 h3 -> heap_clr h1 h3.
Proof.
  intros H12 H23 a. specialize (H12 a). specialize (H23 a).
  destruct (h1 !! a), (h2 !! a), (h3 !! a); cbn in *; try done.
  destruct H12 as [Hb Hw], H23 as [Hb' Hw']. split; [by eapply body_clr_trans|auto].
Qed.
Lemma heap_clr_Some h h' a o : heap_clr h h' -> h !! a = Some o ->
  exists o', h' !! a = Some o' /\ body_clr (obj o) (obj o') /\ (iswhite (marked o) = false -> iswhite (marked o') = false).
Proof. intros Hs Ha. specialize (Hs a). rewrite Ha in Hs. destruct (h' !! a) as [o'|]; [by exists o'|done]. Qed.
Lemma heap_clr_Some_r h h' a o' : heap_clr h h' -> h' !! a = Some o' ->
  exists o, h !! a = Some o /\ body_clr (obj o) (obj o') /\ (iswhite (marked o) = false -> iswhite (marked o') = false).
Proof. intros Hs Ha. specialize (Hs a). rewrite Ha in Hs. destruct (h !! a) as [o|]; [by exists o|done]. Qed.

Lemma heap_clr_has_type h h' r : heap_clr h h' -> has_type h r -> has_type h' r.
Proof.
  intros Hs (o & Ho & Ht). destruct (heap_clr_Some _ _ _ _ Hs Ho) as (o' & Ho' & Hb & _).
  exists o'. split; [done|]. by rewrite (body_clr_tt _ _ Hb).
Qed.

(** References only go away. *)
Lemma vref_clr v v' r : val_clr v v' -> r ∈ vref v' -> r ∈ vref v.
Proof. intros [->| ->]; [done|]. intros Hr. by apply elem_of_nil in Hr. Qed.
Lemma node_refs_clr wk wv nd nd' r : node_clr nd nd' -> r ∈ node_refs wk wv nd' -> r ∈ node_refs wk wv nd.
Proof.
  intros (Hv & _ & Hk). unfold node_refs. destruct Hv as [Hv|Hv]; rewrite Hv; [|intros Hr; by apply elem_of_nil in Hr].
  destruct Hk as [->|(Hz & _)]; [done|]. rewrite Hv in Hz. by rewrite Hz.
Qed.
Lemma bind_clr {A} (R : A -> A -> Prop) (f : A -> list ref) l l' r :
  (forall x x', R x x' -> r ∈ f x' -> r ∈ f x) -> Forall2 R l l' -> r ∈ (l' ≫= f) -> r ∈ (l ≫= f).
Proof.
  intros Hf Hl. rewrite !list_elem_of_bind. intros (x' & Hr & Hx'). apply list_elem_of_lookup in Hx' as [i Hi].
  destruct (Forall2_lookup_r _ _ _ _ _ Hl Hi) as (x & Hx & HR). exists x. split; [eauto|by eapply list_elem_of_lookup_2].
Qed.

Lemma refs_clr wk wv h h' b b' r : heap_clr h h' -> body_clr b b' -> r ∈ refs_with wk wv h' b' -> r ∈ refs_with wk wv h b.
Proof.
  intros Hs Hb. destruct b as [| |uv|cl|t|th|p]; cbn in Hb; try (subst b'; cbn; done).
  - subst b'. destruct uv as [a level|]; [|done]. cbn. unfold stack_value. specialize (Hs a).
    destruct (h !! a) as [[m b]|], (h' !! a) as [[m' b']|]; cbn in Hs; try done. destruct Hs as [Hb _]. destruct b; cbn in Hb; subst; try done.
    by destruct b'.
  - destruct b' as [| | | |t'| |]; try done. destruct Hb. cbn. rewrite tc_metatable0, tc_sizearray0, !elem_of_app.
    intros [Hr|[Hr|Hr]]; [by left|right; left|right; right].
    + destruct wv; [done|]. eapply (bind_clr val_clr vref); [|by apply Forall2_take|done]. intros ??. apply vref_clr.
    + eapply (bind_clr node_clr (node_refs wk wv)); [|done..]. intros ??. apply node_refs_clr.
Qed.

Lemma heap_clr_ok `{StringHash} h h' : heap_clr h h' -> heap_ok h -> heap_ok h'.
Proof.
  intros Hs Hok a o' Ho'. destruct (heap_clr_Some_r _ _ _ _ Hs Ho') as (o & Ho & Hb & _).
  destruct (Hok a o Ho) as [Hsh Hr]. split.
  - destruct (obj o) as [| |uv|cl|t|th|p]; cbn in Hb; try (rewrite Hb; done).
    + rewrite Hb. destruct uv as [a' level|]; [|done]. destruct Hsh as (m & th & Ha & Hl).
      destruct (heap_clr_Some _ _ _ _ Hs Ha) as ([m' b'] & Ha' & Hb' & _). cbn in Hb'. subst b'. by exists m', th.
    + destruct (obj o'); try done. by eapply table_clr_ok.
  - intros r Hin. eapply heap_clr_has_type; [done|]. apply Hr. by eapply refs_clr.
Qed.

Lemma heap_sim_whites h h' a : heap_clr h h' -> forall o', h' !! a = Some o' -> iswhite (marked o') = true ->
  exists o, h !! a = Some o /\ iswhite (marked o) = true.
Proof.
  intros Hs o' Ho' Hw. destruct (heap_clr_Some_r _ _ _ _ Hs Ho') as (o & Ho & _ & Hm). exists o. split; [done|].
  destruct (iswhite (marked o)); [done|]. by rewrite Hm in Hw.
Qed.
