(* ===== verification/GcMark.v ===== *)
(** * GcMark.v: marking

    The tricolour invariant [TC]: what an object that is not white refers to
    is not white either, unless the object is still to be visited.  A function
    that marks is a [marker]: it makes its references not white and keeps the
    invariant; markers compose as the functions do. *)

From S2P Require Import Prelude Machine Object Mem Table TableInv Gc GcInv.

(** ** The invariant *)

Definition whiteb (h : gmap Z GCObject) (a : Z) : bool :=
  match h !! a with Some o => iswhite (marked o) | None => false end.

(** The references the collector must follow: of a table in the list [weak],
    the strong ones. *)
Definition srefs (g : gstate) (a : Z) (o : GCObject) : list ref :=
  if decide (a ∈ gc_weak g) then refs_with (keyweak (marked o)) (valueweak (marked o)) (gc_heap g) (obj o)
  else refs (gc_heap g) (obj o).

Definition scanned (g : gstate) (a : Z) : Prop :=
  forall o, gc_heap g !! a = Some o -> forall r, r ∈ srefs g a o -> whiteb (gc_heap g) r.2 = false.

(** [P] are the objects to be visited later. *)
Definition TC (P : Z -> Prop) (g : gstate) : Prop :=
  forall a o, gc_heap g !! a = Some o -> iswhite (marked o) = false -> a ∈ gc_gray g \/ P a \/ scanned g a.

Definition traversable (b : body) : bool :=
  match b with BTable _ | BFunction _ | BThread _ | BProto _ => true | _ => false end.

(** The objects of the collector's lists are not white, of a kind that has a
    link for them, and on one list. *)
Definition listed (g : gstate) (a : Z) : Prop :=
  exists o, gc_heap g !! a = Some o /\ iswhite (marked o) = false /\ traversable (obj o) = true.
Definition lists (g : gstate) : list Z := gc_gray g ++ gc_grayagain g ++ gc_weak g.
(** [L] are objects taken from the lists. *)
Definition lists_with (L : list Z) (g : gstate) : Prop :=
  NoDup (L ++ lists g) /\ forall a, a ∈ L ++ lists g -> listed g a.
Definition lists_ok : gstate -> Prop := lists_with [].

(** Neither white nor black. *)
Definition grey (m : Z) : Prop := iswhite m = false /\ isblack m = false.

(** Objects that no list of the collector has while they are gray. *)
Definition unlinked (b : body) : bool := match b with BString _ | BUpVal (UOpen _ _) => true | _ => false end.

(** A gray object waits on a list. *)
Definition grays_with (L : list Z) (g : gstate) : Prop :=
  forall a o, gc_heap g !! a = Some o -> grey (marked o) -> a ∈ L ++ lists g \/ unlinked (obj o) = true.
Definition grays_listed : gstate -> Prop := grays_with [].

(** What is left to do: white objects and gray objects. *)
Definition whites (h : gmap Z GCObject) : gset Z := dom (filter (fun x => iswhite (marked x.2) = true) h).
Definition work (g : gstate) : nat := size (whites (gc_heap g)) + length (gc_gray g).

Lemma elem_of_whites h a : a ∈ whites h <-> whiteb h a = true.
Proof.
  unfold whites, whiteb. rewrite elem_of_dom. split.
  - intros [o [Ho Hw]%map_lookup_filter_Some]. by rewrite Ho.
  - destruct (h !! a) as [o|] eqn:E; [|done]. intros Hw. exists o. by apply map_lookup_filter_Some.
Qed.

Lemma heap_sim_whiteb h h' a : heap_sim h h' -> whiteb h a = false -> whiteb h' a = false.
Proof.
  intros Hs. specialize (Hs a). unfold whiteb. destruct (h !! a), (h' !! a); cbn in Hs; try done. apply Hs.
Qed.

Lemma whites_sim h h' : heap_sim h h' -> whites h' ⊆ whites h.
Proof.
  intros Hs a. rewrite !elem_of_whites. intros Hw. destruct (whiteb h a) eqn:E; [done|].
  by rewrite (heap_sim_whiteb _ _ _ Hs E) in Hw.
Qed.

(** ** Marking steps *)

(** The state without what marking changes. *)
Definition rest (g : gstate) : gstate := setg_heap ∅ (setg_gray [] (setg_totalbytes 0 g)).

(** [X] are the objects whose visit is not over. *)
Record Mk (X : list Z) (g g' : gstate) : Prop := {
  mk_rest : rest g' = rest g;
  mk_sim : heap_sim (gc_heap g) (gc_heap g');
  mk_bits a m t o' : gc_heap g !! a = Some (mkObj m (BTable t)) -> gc_heap g' !! a = Some o' ->
    keyweak (marked o') = keyweak m /\ valueweak (marked o') = valueweak m;
  mk_gray : exists new, gc_gray g' = new ++ gc_gray g /\ NoDup new /\
    forall a, a ∈ new -> whiteb (gc_heap g) a = true /\ listed g' a;
  mk_new a : a ∉ X -> whiteb (gc_heap g) a = true -> whiteb (gc_heap g') a = false ->
    a ∈ gc_gray g' \/ scanned g' a;
  mk_grey a o' : a ∉ X -> gc_heap g' !! a = Some o' -> grey (marked o') ->
    a ∈ gc_gray g' \/ unlinked (obj o') = true \/ exists o, gc_heap g !! a = Some o /\ grey (marked o);
  mk_black a o o' : a ∉ X -> gc_heap g !! a = Some o -> gc_heap g' !! a = Some o' -> grey (marked o) -> isblack (marked o') = false;
}.

Lemma rest_weak g g' : rest g' = rest g -> gc_weak g' = gc_weak g.
Proof. intros E. exact (f_equal gc_weak E). Qed.
Lemma rest_grayagain g g' : rest g' = rest g -> gc_grayagain g' = gc_grayagain g.
Proof. intros E. exact (f_equal gc_grayagain E). Qed.

Section mark.
Context `{Krealloc} `{StringHash}.
Implicit Types (g : gstate) (a : Z) (X : list Z) (P : Z -> Prop).

Lemma Mk_weaken X X' g g' : X ⊆ X' -> Mk X g g' -> Mk X' g g'.
Proof. intros HX []. split; try done; intros a; intros; [apply mk_new0|apply mk_grey0|eapply mk_black0]; try done; set_solver. Qed.

Lemma Mk_refl X g : Mk X g g.
Proof.
  split; [done|apply heap_sim_refl| | | | |].
  - intros a m t o' E E'. by simplify_eq.
  - exists []. split; [done|]. split; [constructor|]. intros a Ha. by apply elem_of_nil in Ha.
  - congruence.
  - eauto.
  - intros a o o' _ E E' [_ Hb]. by simplify_eq.
Qed.

Lemma srefs_sim g g' a o o' :
  heap_ok (gc_heap g) -> heap_sim (gc_heap g) (gc_heap g') -> gc_weak g' = gc_weak g ->
  gc_heap g !! a = Some o -> gc_heap g' !! a = Some o' ->
  (forall t, obj o = BTable t -> keyweak (marked o') = keyweak (marked o) /\ valueweak (marked o') = valueweak (marked o)) ->
  srefs g' a o' = srefs g a o.
Proof.
  intros Hok Hs Hw Ho Ho' Hkv. unfold srefs. rewrite Hw.
  destruct (heap_sim_Some _ _ _ _ Hs Ho) as (o1 & Ho1 & Hb & _). simplify_eq. destruct (Hok a o Ho) as [Hsh _].
  unfold refs. case_decide; [|by eapply refs_sim]. etransitivity; [by eapply refs_sim|].
  destruct (obj o) as [| | | |t| |]; try done. by destruct (Hkv t eq_refl) as [-> ->].
Qed.

Lemma Mk_scanned X g g' a : heap_ok (gc_heap g) -> Mk X g g' -> scanned g a -> scanned g' a.
Proof.
  intros Hok HM Hs o' Ho' r Hr. destruct (heap_sim_Some_r _ _ _ _ (mk_sim _ _ _ HM) Ho') as (o & Ho & _).
  rewrite (srefs_sim g g' a o o') in Hr; [|try done..]; [|apply HM|apply rest_weak, HM|].
  2: { intros t Et. destruct o as [m b]; cbn in Et; subst b. by apply (mk_bits _ _ _ HM a m t o'). }
  eapply heap_sim_whiteb; [apply HM|by eapply Hs].
Qed.

Lemma Mk_listed X g g' a : Mk X g g' -> listed g a -> listed g' a.
Proof.
  intros HM (o & Ho & Hw & Ht). destruct (heap_sim_Some _ _ _ _ (mk_sim _ _ _ HM) Ho) as (o' & Ho' & Hb & Hw').
  exists o'. split_and!; [done|auto|]. destruct (obj o), (obj o'); cbn in *; congruence || done.
Qed.

Lemma listed_white g a : listed g a -> whiteb (gc_heap g) a = false.
Proof. intros (o & Ho & Hw & _). unfold whiteb. by rewrite Ho. Qed.

Lemma Mk_trans X g1 g2 g3 : heap_ok (gc_heap g1) -> Mk X g1 g2 -> Mk X g2 g3 -> Mk X g1 g3.
Proof.
  intros Hok H12 H23. pose proof (heap_sim_ok _ _ (mk_sim _ _ _ H12) Hok) as Hok2.
  split.
  - by rewrite (mk_rest _ _ _ H23), (mk_rest _ _ _ H12).
  - eapply heap_sim_trans; [apply H12|apply H23].
  - intros a m t o' Ho Ho'. destruct (heap_sim_Some _ _ _ _ (mk_sim _ _ _ H12) Ho) as ([m2 b2] & Ho2 & Hb & _).
    cbn in Hb. destruct b2 as [| | | |t2| |]; try done.
    destruct (mk_bits _ _ _ H12 a m t _ Ho Ho2), (mk_bits _ _ _ H23 a m2 t2 o' Ho2 Ho'). split; cbn in *; congruence.
  - destruct (mk_gray _ _ _ H12) as (n1 & E1 & Hn1 & Hl1), (mk_gray _ _ _ H23) as (n2 & E2 & Hn2 & Hl2).
    exists (n2 ++ n1). split; [by rewrite E2, E1, app_assoc|]. split.
    + apply NoDup_app. split_and!; [done| |done]. intros a Ha2 Ha1.
      destruct (Hl2 a Ha2) as [Hw _], (Hl1 a Ha1) as [_ Hl]. by rewrite (listed_white _ _ Hl) in Hw.
    + intros a [Ha|Ha]%elem_of_app.
      * destruct (Hl2 a Ha) as [Hw Hl]. split; [|done]. destruct (whiteb (gc_heap g1) a) eqn:E; [done|].
        by rewrite (heap_sim_whiteb _ _ _ (mk_sim _ _ _ H12) E) in Hw.
      * destruct (Hl1 a Ha) as [Hw Hl]. split; [done|]. by eapply Mk_listed.
  - intros a Ha Hw Hw'. destruct (whiteb (gc_heap g2) a) eqn:E; [by apply H23|].
    destruct (mk_new _ _ _ H12 a Ha Hw E) as [Hg|Hs].
    + left. destruct (mk_gray _ _ _ H23) as (n2 & -> & _). apply elem_of_app. by right.
    + right. by eapply Mk_scanned.
  - intros a o3 Ha Ho3 Hg3. destruct (mk_grey _ _ _ H23 a o3 Ha Ho3 Hg3) as [Hg|[Hu|(o2 & Ho2 & Hg2)]]; [by left|by right; left|].
    destruct (mk_grey _ _ _ H12 a o2 Ha Ho2 Hg2) as [Hg|[Hu|Ho]]; [left| |by right; right].
    + destruct (mk_gray _ _ _ H23) as (n2 & -> & _). apply elem_of_app. by right.
    + right; left. destruct (heap_sim_Some _ _ _ _ (mk_sim _ _ _ H23) Ho2) as (o3' & Ho3' & Hb & _). simplify_eq.
      destruct (obj o2) as [| |[]| | | |]; try done; cbn in Hb; by rewrite Hb.
  - intros a o o' Ha Ho Ho' Hg. destruct (heap_sim_Some _ _ _ _ (mk_sim _ _ _ H12) Ho) as (o2 & Ho2 & _ & Hw2).
    eapply (mk_black _ _ _ H23); [done..|]. split; [apply Hw2, Hg|by eapply (mk_black _ _ _ H12)].
Qed.

(** The visit of an object ends. *)
Lemma Mk_close X a g g' :
  Mk (a :: X) g g' -> whiteb (gc_heap g) a = true -> a ∈ gc_gray g' \/ scanned g' a ->
  (forall o', gc_heap g' !! a = Some o' -> grey (marked o') -> a ∈ gc_gray g' \/ unlinked (obj o') = true) -> Mk X g g'.
Proof.
  intros [] Hwa Ha Hg. split; try done; intros b.
  - intros Hb Hw Hw'. destruct (decide (b = a)) as [->|Hne]; [done|]. apply mk_new0; [|done..]. set_solver.
  - intros o' Hb Ho' Hgr. destruct (decide (b = a)) as [->|Hne]; [|apply mk_grey0; [|done..]; set_solver].
    destruct (Hg o' Ho' Hgr); auto.
  - intros o o' Hb Ho Ho' Hgr. destruct (decide (b = a)) as [->|Hne]; [|eapply mk_black0; [|done..]; set_solver].
    unfold whiteb in Hwa. rewrite Ho in Hwa. destruct Hgr. congruence.
Qed.

Lemma Mk_TC X P g g' : heap_ok (gc_heap g) -> (forall a, a ∈ X -> P a) -> Mk X g g' -> TC P g -> TC P g'.
Proof.
  intros Hok HX HM Htc a o' Ho' Hw'. destruct (heap_sim_Some_r _ _ _ _ (mk_sim _ _ _ HM) Ho') as (o & Ho & Hb & Hm).
  destruct (iswhite (marked o)) eqn:Hw.
  - destruct (decide (a ∈ X)) as [Hx|Hx]; [auto|].
    destruct (mk_new _ _ _ HM a Hx) as [Hg|Hs]; auto; unfold whiteb; by rewrite ?Ho, ?Ho'.
  - destruct (Htc a o Ho Hw) as [Hg|[Hp|Hs]]; [left|auto|].
    + destruct (mk_gray _ _ _ HM) as (n2 & -> & _). apply elem_of_app. by right.
    + right. right. by eapply Mk_scanned.
Qed.

(** *** The steps themselves *)

Lemma Mk_alter X a (F : GCObject -> GCObject) g o :
  gc_heap g !! a = Some o -> obj_sim o (F o) ->
  (forall t, obj o = BTable t -> keyweak (marked (F o)) = keyweak (marked o) /\ valueweak (marked (F o)) = valueweak (marked o)) ->
  (iswhite (marked o) = true -> iswhite (marked (F o)) = false -> a ∈ X) ->
  (grey (marked (F o)) -> a ∈ X \/ grey (marked o)) ->
  (grey (marked o) -> a ∈ X \/ isblack (marked (F o)) = false) ->
  Mk X g (setg_heap (alter F a (gc_heap g)) g).
Proof.
  intros Ho Hs Hkv Hw Hg Hbl. split; cbn.
  - done.
  - intros b. destruct (decide (a = b)) as [<-|Hne].
    + by rewrite lookup_alter_eq, Ho.
    + rewrite lookup_alter_ne by done. apply heap_sim_refl.
  - intros b m t x' Hx Hx'. destruct (decide (a = b)) as [<-|Hne].
    + rewrite lookup_alter_eq, Ho in Hx'. rewrite Hx in Ho. simplify_eq/=. by apply (Hkv t).
    + rewrite lookup_alter_ne in Hx' by done. by simplify_eq.
  - exists []. split; [done|]. split; [constructor|]. intros b Hb. by apply elem_of_nil in Hb.
  - intros b Hb. unfold whiteb. destruct (decide (a = b)) as [<-|Hne].
    + rewrite lookup_alter_eq, Ho. cbn. intros. by destruct Hb; apply Hw.
    + rewrite lookup_alter_ne by done. congruence.
  - intros b x Hb. destruct (decide (a = b)) as [<-|Hne].
    + rewrite lookup_alter_eq, Ho. intros Hx Hgx. simplify_eq/=. destruct (Hg Hgx) as [?|?]; [done|eauto].
    + rewrite lookup_alter_ne by done. eauto.
  - intros b x x' Hb Hx. destruct (decide (a = b)) as [<-|Hne].
    + rewrite lookup_alter_eq, Hx. intros Hx' Hgx. simplify_eq/=. by destruct (Hbl Hgx).
    + rewrite lookup_alter_ne by done. intros Hx' [_ Hgx]. by simplify_eq.
Qed.

Lemma Mk_mem X n g : Mk X g (set_totalbytes n g).
Proof.
  split; cbn.
  - done.
  - apply heap_sim_refl.
  - intros a m t o' E E'. by simplify_eq.
  - exists []. split; [done|]. split; [constructor|]. intros a Ha. by apply elem_of_nil in Ha.
  - intros. congruence.
  - eauto.
  - intros a o o' _ E E' [_ Hb]. by simplify_eq.
Qed.

Definition mark_at (a : Z) (f : Z -> Z) (g : gstate) : gstate :=
  setg_heap (alter (fun o => mkObj (f (marked o)) (obj o)) a (gc_heap g)) g.

Lemma Mk_blacken a g o : gc_heap g !! a = Some o -> Mk [a] g (mark_at a gray2black g).
Proof.
  intros Ho. eapply (Mk_alter [a] a _ g o); cbn; auto using gray2black_weak; rewrite ?gray2black_white; try congruence.
  - split; cbn; [apply body_sim_refl|by rewrite gray2black_white].
  - intros [_ Hb]. by rewrite gray2black_black in Hb.
  - intros _. left. by apply list_elem_of_singleton.
Qed.
Lemma Mk_ungray a g o : gc_heap g !! a = Some o -> Mk [a] g (mark_at a black2gray g).
Proof.
  intros Ho. eapply (Mk_alter [a] a _ g o); cbn; auto using black2gray_weak; rewrite ?black2gray_white; try congruence.
  - split; cbn; [apply body_sim_refl|by rewrite black2gray_white].
  - intros _. left. by apply list_elem_of_singleton.
  - intros _. right. apply black2gray_black.
Qed.

Lemma Mk_gray a g o : gc_heap g !! a = Some o -> Mk [a] g (mark_at a white2gray g).
Proof.
  intros Ho. eapply (Mk_alter [a] a _ g o); cbn; auto using white2gray_weak.
  - split; cbn; [apply body_sim_refl|]. intros _. apply white2gray_white.
  - intros. by apply list_elem_of_singleton.
  - intros. left. by apply list_elem_of_singleton.
  - intros. left. by apply list_elem_of_singleton.
Qed.

Lemma mark_at_lookup a f g o : gc_heap g !! a = Some o -> gc_heap (mark_at a f g) !! a = Some (mkObj (f (marked o)) (obj o)).
Proof. intros Ho. cbn. by rewrite lookup_alter_eq, Ho. Qed.

Lemma grayed a g o : gc_heap g !! a = Some o -> whiteb (gc_heap (mark_at a white2gray g)) a = false.
Proof. intros Ho. unfold whiteb. rewrite (mark_at_lookup _ _ _ _ Ho). apply white2gray_white. Qed.

(** White, then linked to the gray list. *)
Lemma Mk_push a g o :
  gc_heap g !! a = Some o -> iswhite (marked o) = true -> traversable (obj o) = true ->
  Mk [] g (setg_gray (a :: gc_gray g) (mark_at a white2gray g)).
Proof.
  intros Ho Hw Ht. destruct (Mk_gray a g o Ho) as [Hr Hs Hb _ Hn Hgr Hbl]. split; try done.
  - exists [a]. split; [done|]. split; [apply NoDup_singleton|]. intros b ->%list_elem_of_singleton.
    split; [unfold whiteb; by rewrite Ho|]. exists (mkObj (white2gray (marked o)) (obj o)).
    split; [by apply (mark_at_lookup a white2gray)|]. split; [apply white2gray_white|done].
  - intros b _ Hb1 Hb2. destruct (decide (b = a)) as [->|Hne]; [left; by left|].
    destruct (Hn b) as [?|?]; [by intros ->%list_elem_of_singleton|done..| |]; [left; by right|by right].
  - intros b o' _ Ho' Hg'. destruct (decide (b = a)) as [->|Hne]; [left; by left|].
    destruct (Hgr b o') as [?|?]; [by intros ->%list_elem_of_singleton|done..| |]; [left; by right|by right].
  - intros b x o' _ Hx Ho' Hg'. destruct (decide (b = a)) as [->|Hne].
    + rewrite Ho in Hx. injection Hx as <-. destruct Hg'. congruence.
    + eapply (Hbl b x o'); [by intros ->%list_elem_of_singleton|done..].
Qed.

Lemma wp_deref a (Q : GCObject -> gstate -> Prop) E g o : gc_heap g !! a = Some o -> Q o g -> wp (deref a) Q E g.
Proof. intros Ho HQ. unfold wp, deref. by rewrite Ho. Qed.

Lemma wp_deref_bind {B} a (k : GCObject -> M gstate B) Q E g o :
  gc_heap g !! a = Some o -> wp (k o) Q E g -> wp (deref a ≫= k) Q E g.
Proof. intros Ho Hk. apply wp_bind. by apply (wp_deref a _ _ g o). Qed.

Lemma srefs_sub g a o r : r ∈ srefs g a o -> r ∈ refs (gc_heap g) (obj o).
Proof.
  unfold srefs. case_decide; [|done]. unfold refs. destruct (obj o) as [| |[]|[]|t|th|p]; cbn; try done.
  rewrite !elem_of_app. intros [Hr|[Hr|Hr]]; [by left|..]; right.
  - left. by destruct (valueweak _); [apply elem_of_nil in Hr|].
  - right. apply list_elem_of_bind in Hr as (nd & Hr & Hnd). apply list_elem_of_bind. exists nd. split; [|done].
    unfold node_refs in *. destruct (ttisnil _); [done|]. apply elem_of_app in Hr. apply elem_of_app.
    destruct (keyweak _), (valueweak _); set_solver.
Qed.

(** ** Markers *)

Definition never : error -> Prop := fun _ => False.

Definition all_nonwhite (rs : list ref) (g : gstate) : Prop := forall r, r ∈ rs -> whiteb (gc_heap g) r.2 = false.

Definition marker (m : M gstate unit) (rs : list ref) : Prop :=
  forall g, heap_ok (gc_heap g) -> (forall r, r ∈ rs -> has_type (gc_heap g) r) ->
    wp m (fun _ g' => Mk [] g g' /\ all_nonwhite rs g') never g.

Lemma Mk_nonwhite X g g' rs : Mk X g g' -> all_nonwhite rs g -> all_nonwhite rs g'.
Proof. intros HM Hn r Hr. eapply heap_sim_whiteb; [apply HM|auto]. Qed.

Lemma marker_ret : marker (mret tt) [].
Proof. intros g Hok _. apply wp_ret. split; [apply Mk_refl|]. intros r Hr. by apply elem_of_nil in Hr. Qed.

Lemma marker_seq m1 m2 r1 r2 : marker m1 r1 -> marker m2 r2 -> marker (m1;; m2) (r1 ++ r2).
Proof.
  intros H1 H2 g Hok Ht. eapply wp_seq.
  { apply H1; [done|]. intros r Hr. apply Ht, elem_of_app. by left. }
  intros [] g1 [HM1 Hn1]. eapply wp_mono; [apply H2| |done].
  - eapply heap_sim_ok; [apply HM1|done].
  - intros r Hr. eapply heap_sim_has_type; [apply HM1|]. apply Ht, elem_of_app. by right.
  - intros [] g2 [HM2 Hn2]. split; [by eapply Mk_trans|]. intros r [Hr|Hr]%elem_of_app; [|auto].
    by eapply (Mk_nonwhite _ _ _ _ HM2 Hn1).
Qed.

Lemma marker_mfor {A} (l : list A) f R : (forall x, x ∈ l -> marker (f x) (R x)) -> marker (mfor l f) (l ≫= R).
Proof.
  induction l as [|x l IH]; intros Hf; [apply marker_ret|]. cbn [mfor mbind list_bind].
  apply marker_seq; [apply Hf; by left|]. apply IH. intros y Hy. apply Hf. by right.
Qed.

Lemma marker_unless_null f tt p : marker (f p) [(tt, p)] -> marker (unless_null f p) (pref tt p).
Proof. intros Hf. unfold unless_null, pref. destruct (p =? NULL); [apply marker_ret|exact Hf]. Qed.

(** *** Marking an object *)

(** The nesting of [reallymarkobject]. *)
Definition need (b : body) : nat := match b with BUpVal _ => 3 | BUserdata _ _ _ => 2 | _ => 1 end.

Definition reallymarks (fuel : nat) : Prop := forall a o g,
  heap_ok (gc_heap g) -> gc_heap g !! a = Some o -> iswhite (marked o) = true -> (need (obj o) <= fuel)%nat ->
  wp (reallymark fuel a) (fun _ g' => Mk [] g g' /\ whiteb (gc_heap g') a = false) never g.

Lemma mark_object_spec fuel t g :
  reallymarks fuel -> heap_ok (gc_heap g) ->
  (exists o, gc_heap g !! t = Some o /\ (need (obj o) <= fuel)%nat) ->
  wp (mark_object (reallymark fuel) t) (fun _ g' => Mk [] g g' /\ whiteb (gc_heap g') t = false) never g.
Proof.
  intros Hf Hok (o & Ho & Hn). unfold mark_object. eapply wp_deref_bind; [done|]. apply wp_when; intros Hw.
  - by eapply Hf.
  - split; [apply Mk_refl|]. unfold whiteb. by rewrite Ho.
Qed.

Lemma mark_value_spec fuel v g :
  reallymarks fuel -> heap_ok (gc_heap g) -> (2 <= fuel)%nat -> (forall r, r ∈ vref v -> has_type (gc_heap g) r) ->
  wp (mark_value (reallymark fuel) v) (fun _ g' => Mk [] g g' /\ all_nonwhite (vref v) g') never g.
Proof.
  intros Hf Hok Hfuel Ht. unfold mark_value, vref in *. destruct (iscollectable v) eqn:Hc.
  - destruct (Ht (ttype v, gcvalue v)) as (o & Ho & Htt); [by left|]. cbn in Ho, Htt.
    eapply wp_mono; [apply (mark_object_spec fuel (gcvalue v)); [done..|]| |done].
    + exists o. split; [done|]. destruct (obj o); cbn in *; try lia. by destruct v.
    + intros [] g' [HM Hw]. split; [done|]. by intros r ->%list_elem_of_singleton.
  - split; [apply Mk_refl|]. intros r Hr. by apply elem_of_nil in Hr.
Qed.

(** The end of a visit: all the references are marked. *)
Lemma scanned_refs g a o :
  gc_heap g !! a = Some o -> all_nonwhite (refs (gc_heap g) (obj o)) g -> scanned g a.
Proof. intros Ho Hn o' Ho' r Hr. simplify_eq. apply Hn. by eapply srefs_sub. Qed.

(** References that were marked one by one since [g], where the object was [b]. *)
Lemma scanned_since X g g' a o :
  heap_ok (gc_heap g) -> Mk X g g' -> gc_heap g !! a = Some o -> all_nonwhite (refs (gc_heap g) (obj o)) g' -> scanned g' a.
Proof.
  intros Hok HM Ho Hn. destruct (heap_sim_Some _ _ _ _ (mk_sim _ _ _ HM) Ho) as (o' & Ho' & Hb & _).
  apply (scanned_refs _ _ o' Ho'). unfold refs. rewrite (refs_sim _ _ _ _ _ _ (mk_sim _ _ _ HM) Hb); [done|].
  by apply (Hok a o Ho).
Qed.

Lemma need_table b : tt_of b = LUA_TTABLE -> need b = 1%nat.
Proof. by destruct b. Qed.

Lemma mark_pref fuel p g :
  reallymarks fuel -> heap_ok (gc_heap g) -> (1 <= fuel)%nat -> (forall r, r ∈ pref LUA_TTABLE p -> has_type (gc_heap g) r) ->
  wp (when (negb (p =? NULL)) (mark_object (reallymark fuel) p))
    (fun _ g' => Mk [] g g' /\ all_nonwhite (pref LUA_TTABLE p) g') never g.
Proof.
  intros Hf Hok Hn Ht. unfold pref in *. destruct (p =? NULL); cbn [negb when].
  - split; [apply Mk_refl|]. intros r Hr. by apply elem_of_nil in Hr.
  - destruct (Ht (LUA_TTABLE, p)) as (o & Ho & Htt); [by left|]. eapply wp_mono; [apply (mark_object_spec fuel p); try done| |done].
    + exists o. split; [done|]. by rewrite (need_table _ Htt).
    + intros [] g' [HM Hw]. split; [done|]. by intros r ->%list_elem_of_singleton.
Qed.

Lemma reallymarks_userdata fuel a mt env len m g :
  reallymarks fuel -> (1 <= fuel)%nat -> heap_ok (gc_heap g) -> iswhite m = true -> gc_heap g !! a = Some (mkObj m (BUserdata mt env len)) ->
  wp (upd_marked a white2gray;; upd_marked a gray2black;;
      when (negb (mt =? NULL)) (mark_object (reallymark fuel) mt);; mark_object (reallymark fuel) env)
    (fun _ g' => Mk [] g g' /\ whiteb (gc_heap g') a = false) never g.
Proof.
  intros Hf Hn Hok Hwm Ho. apply wp_modify, wp_modify. pose proof (Mk_gray a g _ Ho) as HM1.
  pose proof (mark_at_lookup a white2gray g _ Ho) as Ho1. cbn [marked obj] in Ho1.
  pose proof (Mk_blacken a _ _ Ho1) as HM2.
  pose proof (mark_at_lookup a gray2black _ _ Ho1) as Ho2. cbn [marked obj] in Ho2.
  pose proof (Mk_trans _ _ _ _ Hok HM1 HM2) as HM. fold (mark_at a white2gray g) (mark_at a gray2black (mark_at a white2gray g)).
  set (g2 := mark_at a gray2black (mark_at a white2gray g)) in *.
  pose proof (heap_sim_ok _ _ (mk_sim _ _ _ HM) Hok) as Hok2. destruct (Hok2 a _ Ho2) as [_ Ht]. cbn in Ht.
  eapply wp_seq; [apply (mark_pref fuel mt g2); try done|].
  { intros r Hr. apply Ht, elem_of_app. by left. }
  intros [] g3 [HM3 Hn3]. pose proof (heap_sim_ok _ _ (mk_sim _ _ _ HM3) Hok2) as Hok3.
  destruct (Ht (LUA_TTABLE, env)) as (oe & Hoe & Hte); [set_solver|]. cbn in Hoe, Hte.
  destruct (heap_sim_Some _ _ _ _ (mk_sim _ _ _ HM3) Hoe) as (oe' & Hoe' & Hbe & _).
  eapply wp_mono; [apply (mark_object_spec fuel env g3); [done..|]| |done].
  { exists oe'. split; [done|]. rewrite <- (body_sim_tt _ _ Hbe) in Hte. by rewrite (need_table _ Hte). }
  intros [] g4 [HM4 Hn4]. pose proof (Mk_trans _ _ _ _ Hok2 HM3 HM4) as HM5. split.
  - apply (Mk_close [] a); [eapply Mk_trans; [done|exact HM|]; eapply Mk_weaken; [|exact HM5]; set_solver|unfold whiteb; by rewrite Ho|right|].
    + apply (scanned_since [] g2 g4 a _ Hok2 HM5 Ho2). intros r [Hr|Hr]%elem_of_app.
      * by apply (Mk_nonwhite _ _ _ _ HM4 Hn3).
      * by apply list_elem_of_singleton in Hr as ->.
    + intros o' Ho' Hg. destruct (mk_grey _ _ _ HM5 a o') as [?|[?|(x & Hx & _ & Hb)]]; auto; [set_solver|].
      rewrite Ho2 in Hx. simplify_eq/=. by rewrite gray2black_black in Hb.
  - eapply heap_sim_whiteb; [apply HM5|]. unfold whiteb. rewrite Ho2. cbn. by rewrite gray2black_white, white2gray_white.
Qed.

Lemma uv_value_spec a uv m g :
  heap_ok (gc_heap g) -> gc_heap g !! a = Some (mkObj m (BUpVal uv)) ->
  exists v, uv_value uv g = (Ok v, g) /\ refs (gc_heap g) (BUpVal uv) = vref v.
Proof.
  intros Hok Ho. destruct uv as [th level|v]; [|by exists v]. destruct (Hok a _ Ho) as [(m' & t & Ht & Hl) _].
  pose proof (Hok th _ Ht) as [Hth _]. cbn in Hth.
  assert (Hlim : th_top t <= stack_lim t).
  { unfold stack_lim. generalize (th_top t). induction (th_ci t) as [|c l IH]; intros z; cbn; [lia|].
    etransitivity; [|apply IH]. destruct (Z.ltb_spec z c); lia. }
  destruct (znth_is_Some (th_stack t) level) as [v Hv]; [pose proof (tho_lim _ Hth); lia|].
  exists v. cbn. unfold gco2th, deref, stack_value. m_simpl. rewrite Ht. cbn. unfold array_at, lift. by rewrite Hv.
Qed.

Lemma reallymarks_upval fuel a uv m g :
  reallymarks fuel -> (2 <= fuel)%nat -> heap_ok (gc_heap g) -> iswhite m = true -> gc_heap g !! a = Some (mkObj m (BUpVal uv)) ->
  wp (upd_marked a white2gray;; v ← uv_value uv; mark_value (reallymark fuel) v;;
      match uv with UClosed _ => upd_marked a gray2black | UOpen _ _ => mret tt end)
    (fun _ g' => Mk [] g g' /\ whiteb (gc_heap g') a = false) never g.
Proof.
  intros Hf Hn Hok Hwm Ho. apply wp_modify. pose proof (Mk_gray a g _ Ho) as HM1.
  pose proof (mark_at_lookup a white2gray g _ Ho) as Ho1. cbn [marked obj] in Ho1. fold (mark_at a white2gray g).
  set (g1 := mark_at a white2gray g) in *. pose proof (heap_sim_ok _ _ (mk_sim _ _ _ HM1) Hok) as Hok1.
  destruct (uv_value_spec a uv _ g1 Hok1 Ho1) as (v & Hv & Hrefs). destruct (Hok1 a _ Ho1) as [_ Ht].
  cbn [obj] in Ht. rewrite Hrefs in Ht. apply wp_bind. eapply wp_ok; [exact Hv|].
  eapply wp_seq; [by apply (mark_value_spec fuel v g1)|]. intros [] g2 [HM2 Hn2].
  destruct (heap_sim_Some _ _ _ _ (mk_sim _ _ _ HM2) Ho1) as ([m2 b2] & Ho2 & Hb & Hw2). cbn in Hb, Hw2. subst b2.
  specialize (Hw2 (white2gray_white m)).
  assert (HM3 : exists g3, (match uv with UClosed _ => upd_marked a gray2black | UOpen _ _ => mret tt end) g2 = (Ok tt, g3) /\
    Mk [a] g2 g3 /\ forall o', gc_heap g3 !! a = Some o' -> grey (marked o') -> unlinked (obj o') = true).
  { destruct uv; eexists; (split; [reflexivity|]); split.
    - apply Mk_refl.
    - intros o' Ho'. by simplify_eq.
    - by apply (Mk_blacken a _ _ Ho2).
    - intros o' Ho' [_ Hb]. cbn in Ho'. rewrite lookup_alter_eq, Ho2 in Ho'. simplify_eq/=. by rewrite gray2black_black in Hb. }
  destruct HM3 as (g3 & E3 & HM3 & Hg3). eapply wp_ok; [exact E3|].
  pose proof (Mk_trans _ _ _ _ Hok1 (Mk_weaken [] [a] _ _ ltac:(set_solver) HM2) HM3) as HM4. split.
  - apply (Mk_close [] a); [by eapply Mk_trans|unfold whiteb; by rewrite Ho|right|auto].
    apply (scanned_since [a] g1 g3 a _ Hok1 HM4 Ho1). cbn [obj]. rewrite Hrefs. by apply (Mk_nonwhite _ _ _ _ HM3).
  - eapply heap_sim_whiteb; [apply HM3|]. unfold whiteb. by rewrite Ho2.
Qed.

Lemma Mk_string a g m s : gc_heap g !! a = Some (mkObj m (BString s)) -> Mk [] g (mark_at a white2gray g).
Proof.
  intros Ho. pose proof (mark_at_lookup a white2gray g _ Ho) as Ho'. cbn [marked obj] in Ho'. destruct (Mk_gray a g _ Ho) as [].
  split; try done; intros b.
  - intros _ Hw Hw'. destruct (decide (b = a)) as [->|Hne]; [right|apply mk_new0; [|done..]; by intros ->%list_elem_of_singleton].
    apply (scanned_refs _ _ _ Ho'). intros r Hr. by apply elem_of_nil in Hr.
  - intros o' _ Hb Hgr. destruct (decide (b = a)) as [->|Hne]; [|apply mk_grey0; [|done..]; by intros ->%list_elem_of_singleton].
    rewrite Ho' in Hb. simplify_eq. by right; left.
  - intros o o' _ Hb Hb' Hgr. destruct (decide (b = a)) as [->|Hne]; [|eapply mk_black0; [|done..]; by intros ->%list_elem_of_singleton].
    rewrite Ho' in Hb'. rewrite Ho in Hb. simplify_eq/=. destruct Hgr as [_ Hb]. cbn in Hb. revert Hb. by marks.
Qed.

Lemma reallymark_spec fuel : reallymarks fuel.
Proof.
  induction fuel as [|fuel IH]; intros a [m b] g Hok Ho Hw Hn; cbn [obj marked] in *.
  { destruct b; cbn in Hn; lia. }
  cbn [reallymark]. eapply wp_deref_bind; [done|]. cbn [obj].
  destruct b as [s|mt env len|uv|cl|t|th|p]; cbn in Hn.
  2: { by apply (reallymarks_userdata fuel a mt env len m); [|lia|..]. }
  2: { by apply (reallymarks_upval fuel a uv m); [|lia|..]. }
  - apply wp_modify, wp_ret. fold (mark_at a white2gray g). split; [by eapply Mk_string|by eapply grayed].
  - apply wp_modify. split; [exact (Mk_push a g _ Ho Hw eq_refl)|exact (grayed a g _ Ho)].
  - apply wp_modify. split; [exact (Mk_push a g _ Ho Hw eq_refl)|exact (grayed a g _ Ho)].
  - apply wp_modify. split; [exact (Mk_push a g _ Ho Hw eq_refl)|exact (grayed a g _ Ho)].
  - apply wp_modify. split; [exact (Mk_push a g _ Ho Hw eq_refl)|exact (grayed a g _ Ho)].
Qed.

Lemma marker_object tt t : marker (markobject t) [(tt, t)].
Proof.
  intros g Hok Ht. destruct (Ht (tt, t)) as (o & Ho & _); [by left|]. cbn in Ho.
  eapply wp_mono; [apply (mark_object_spec 3 t g (reallymark_spec 3) Hok)| |done].
  - exists o. split; [done|]. destruct (obj o); cbn; lia.
  - intros [] g' [HM Hw]. split; [done|]. by intros r ->%list_elem_of_singleton.
Qed.

Lemma marker_value v : marker (markvalue v) (vref v).
Proof. intros g Hok Ht. apply (mark_value_spec 3 v g (reallymark_spec 3) Hok); [lia|done]. Qed.

Lemma marker_string s : marker (stringmark s) [(LUA_TSTRING, s)].
Proof.
  intros g Hok Ht. destruct (Ht (LUA_TSTRING, s)) as ([m b] & Ho & Htt); [by left|]. cbn in Ho, Htt.
  destruct b; try done. unfold stringmark, gco2ts. apply wp_assoc. eapply wp_deref_bind; [done|]. cbn [obj]. apply wp_bind, wp_ret.
  fold (mark_at s white2gray g). split.
  - by eapply Mk_string.
  - intros r ->%list_elem_of_singleton. by eapply grayed.
Qed.

End mark.
