(* ===== verification/GcTraverse.v ===== *)
(** * GcTraverse.v: the traversal of gray objects

    Each traversal marks all the references of its object, the strong ones of
    a weak table; [propagateall] ends, and leaves no gray object to visit but
    those put aside. *)

From S2P Require Import Prelude Machine Object Mem Table TableInv TableSet Gc GcInv GcMark.

Section traverse.
Context `{Krealloc} `{StringHash}.
Implicit Types (g : gstate) (a : Z) (rs : list ref).

Lemma wp_never {A} (m : M gstate A) Q E g : wp m Q never g -> wp m Q E g.
Proof. intros Hm. eapply wp_mono; [exact Hm|done|]. by intros e []. Qed.

Lemma elem_of_rev {A} (l : list A) x : x ∈ rev l <-> x ∈ l.
Proof. by rewrite !list_elem_of_In, <- in_rev. Qed.

Lemma marker_none g : wp (mret tt) (fun _ g' => Mk [] g g' /\ all_nonwhite [] g') never g.
Proof. split; [apply Mk_refl|]. intros r Hr. by apply elem_of_nil in Hr. Qed.

Lemma marker_ext m rs rs' : (forall r, r ∈ rs' <-> r ∈ rs) -> marker m rs -> marker m rs'.
Proof.
  intros E Hm g Hok Ht. eapply wp_mono; [apply Hm; [done|]| |done].
  - intros r Hr. by apply Ht, E.
  - intros [] g' [HM Hn]. split; [done|]. intros r Hr. by apply Hn, E.
Qed.

(** *** Closures and prototypes *)

Lemma marker_closure cl a m g :
  heap_ok (gc_heap g) -> gc_heap g !! a = Some (mkObj m (BFunction cl)) ->
  wp (traverseclosure a) (fun _ g' => Mk [] g g' /\ all_nonwhite (refs (gc_heap g) (BFunction cl)) g') never g.
Proof.
  intros Hok Ho. unfold traverseclosure, gco2cl. apply wp_assoc. eapply wp_deref_bind; [done|]. apply wp_bind, wp_ret.
  destruct (Hok a _ Ho) as [_ Ht]. cbn [obj] in *. destruct cl as [env up|env p up].
  - apply (marker_seq _ _ [(LUA_TTABLE, env)] (up ≫= vref)); [apply marker_object| |done|exact Ht].
    apply marker_mfor. intros v _. apply marker_value.
  - apply (marker_seq _ _ [(LUA_TTABLE, env)] ((LUA_TPROTO, p) :: (pair LUA_TUPVAL <$> up))); [apply marker_object| |done|exact Ht].
    apply (marker_seq _ _ [(LUA_TPROTO, p)]); [apply marker_object|].
    apply (marker_ext _ (up ≫= fun x => [(LUA_TUPVAL, x)])); [set_solver|].
    apply marker_mfor. intros v _. apply marker_object.
Qed.

Lemma marker_proto p a m g :
  heap_ok (gc_heap g) -> gc_heap g !! a = Some (mkObj m (BProto p)) ->
  wp (traverseproto a) (fun _ g' => Mk [] g g' /\ all_nonwhite (refs (gc_heap g) (BProto p)) g') never g.
Proof.
  intros Hok Ho. unfold traverseproto, gco2p. apply wp_assoc. eapply wp_deref_bind; [done|]. apply wp_bind, wp_ret.
  destruct (Hok a _ Ho) as [_ Ht]. cbn [obj refs refs_with] in *.
  pose proof (marker_seq _ _ _ _ (marker_unless_null stringmark LUA_TSTRING _ (marker_string (p_source p)))
    (marker_seq _ _ _ _ (marker_mfor (p_k p) markvalue vref (fun v _ => marker_value v))
    (marker_seq _ _ _ _ (marker_mfor (p_upvalues p) _ _ (fun v _ => marker_unless_null stringmark LUA_TSTRING _ (marker_string v)))
    (marker_seq _ _ _ _ (marker_mfor (p_p p) _ _ (fun v _ => marker_unless_null markobject LUA_TPROTO _ (marker_object LUA_TPROTO v)))
      (marker_mfor (p_locvars p) _ _ (fun v _ => marker_unless_null stringmark LUA_TSTRING _ (marker_string v))))))) as Hm.
  apply Hm; [done|exact Ht].
Qed.

(** *** Arrays of values *)

Lemma marker_array_index (l : list TValue) i :
  0 <= i < zlen l ->
  marker (v ← array_at l i; markvalue v) (match znth l i with Some v => vref v | None => [] end).
Proof.
  intros Hi g Hok Ht. destruct (znth_is_Some l i Hi) as [v Hv]. rewrite Hv in *.
  apply wp_bind. eapply wp_ok; [unfold array_at, lift; by rewrite Hv|]. by apply marker_value.
Qed.

Lemma elem_of_index_slice (l : list TValue) n r :
  0 <= n <= zlen l ->
  r ∈ (take (Z.to_nat n) l ≫= vref) <-> r ∈ (seqZ 0 n ≫= fun i => match znth l i with Some v => vref v | None => [] end).
Proof.
  intros Hn. rewrite !list_elem_of_bind. split.
  - intros (v & Hr & Hv). apply list_elem_of_lookup in Hv as [i Hi]. apply lookup_take_Some in Hi as [Hi Hlt].
    exists (Z.of_nat i). rewrite znth_of_nat, Hi. split; [done|]. apply elem_of_seqZ. lia.
  - intros (i & Hr & Hi). apply elem_of_seqZ in Hi. destruct (znth l i) as [v|] eqn:Hv; [|by apply elem_of_nil in Hr].
    exists v. split; [done|]. apply list_elem_of_lookup. exists (Z.to_nat i). apply lookup_take_Some.
    split; [|lia]. unfold znth in Hv. by destruct (Z.ltb_spec i 0); [lia|].
Qed.

Lemma marker_slice (l : list TValue) n idx :
  0 <= n <= zlen l -> (forall i, i ∈ idx <-> i ∈ seqZ 0 n) ->
  marker (mfor idx (fun i => v ← array_at l i; markvalue v)) (take (Z.to_nat n) l ≫= vref).
Proof.
  intros Hn Hidx. apply (marker_ext _ (idx ≫= fun i => match znth l i with Some v => vref v | None => [] end)).
  - intros r. rewrite (elem_of_index_slice l n r Hn), !list_elem_of_bind. set_solver.
  - apply marker_mfor. intros i Hi%Hidx%elem_of_seqZ. apply marker_array_index. lia.
Qed.

(** *** Threads *)

Definition mem_err : error -> Prop := fun e => e = ErrMem /\ ~ ReliableAlloc.

(** A store into an object that keeps its references. *)
Lemma wp_upd_obj a b b' m g (Q : unit -> gstate -> Prop) E :
  gc_heap g !! a = Some (mkObj m b) -> body_sim b b' ->
  (forall g', Mk [] g g' -> gc_heap g' !! a = Some (mkObj m b') -> Q tt g') -> wp (upd_obj a b') Q E g.
Proof.
  intros Ho Hb HQ. unfold upd_obj, wp, modify. apply HQ.
  - eapply (Mk_alter [] a _ g (mkObj m b)); cbn; auto; [by split|congruence|by intros []; right].
  - cbn. by rewrite lookup_alter_eq, Ho.
Qed.

Lemma th_top_lim t : th_top t <= stack_lim t.
Proof.
  unfold stack_lim. generalize (th_top t). induction (th_ci t) as [|c l IH]; intros z; cbn; [lia|].
  etransitivity; [|apply IH]. destruct (Z.ltb_spec z c); lia.
Qed.

Lemma wp_set_slot a i m th g (Q : unit -> gstate -> Prop) E :
  gc_heap g !! a = Some (mkObj m (BThread th)) -> th_top th <= i < zlen (th_stack th) ->
  (forall g' th', Mk [] g g' -> gc_heap g' !! a = Some (mkObj m (BThread th')) -> thread_sim th th' ->
     zlen (th_stack th') = zlen (th_stack th) -> Q tt g') ->
  0 <= i -> wp (set_slot a i VNil) Q E g.
Proof.
  intros Ho Hi HQ Hpos. unfold set_slot, gco2th. apply wp_assoc. eapply wp_deref_bind; [done|]. apply wp_bind, wp_ret.
  destruct (znth_is_Some (th_stack th) i) as [v Hv]; [lia|].
  apply wp_bind. eapply wp_ok; [unfold array_at, lift; by rewrite Hv|].
  assert (Hs : thread_sim th (set_stack (zupd i VNil (th_stack th)) th)).
  { split; cbn; rewrite ?zlen_zupd; try done. intros j Hj. apply znth_zupd_ne. lia. }
  eapply wp_upd_obj; [done|exact Hs|]. intros g' HM Ho'. eapply HQ; [done..|]. cbn. apply zlen_zupd.
Qed.

Lemma wp_clear_stack a idx g0 g m th :
  heap_ok (gc_heap g0) -> Mk [] g0 g -> gc_heap g !! a = Some (mkObj m (BThread th)) -> 0 <= th_top th ->
  (forall i, i ∈ idx -> th_top th <= i < zlen (th_stack th)) ->
  wp (mfor idx (fun o => set_slot a o VNil)) (fun _ g' => Mk [] g0 g' /\
     exists th', gc_heap g' !! a = Some (mkObj m (BThread th')) /\ thread_sim th th') never g.
Proof.
  intros Hok. revert g th. induction idx as [|i idx IH]; intros g th HM Ho Hpos Hidx.
  - split; [done|]. exists th. split; [done|apply thread_sim_refl].
  - cbn [mfor]. apply wp_bind. pose proof (Hidx i ltac:(by left)) as Hi. eapply wp_set_slot; [done..| |lia].
    intros g' th' HM' Ho' Hs Hl. eapply wp_mono; [apply (IH g' th'); [by eapply Mk_trans|done|by rewrite (ths_top _ _ Hs)|]| |done].
    + intros j Hj. rewrite (ths_top _ _ Hs), Hl. apply Hidx. by right.
    + intros [] g2 (HM2 & th2 & Ho2 & Hs2). split; [done|]. exists th2. split; [done|]. by eapply thread_sim_trans.
Qed.

Lemma wp_stack_reallocv on n e g (Q : unit -> gstate -> Prop) :
  0 <= n < 2 ^ 31 -> 1 <= e <= 2 ^ 20 ->
  (forall t, Q tt (setg_totalbytes t g)) -> wp (luaM_reallocv on n e) Q mem_err g.
Proof.
  intros Hn He HQ. unfold wp. rewrite luaM_reallocv_fits by done.
  destruct (luaM_realloc_ _ _ g) as [[[]|e'] g'] eqn:E.
  - apply luaM_realloc_Ok in E as ->. apply HQ.
  - apply luaM_realloc_Err in E as (-> & _ & _ & Hr). done.
Qed.

Lemma znth_take {A} (l : list A) n i : i < n -> znth (take (Z.to_nat n) l) i = znth l i.
Proof.
  intros Hi. unfold znth. destruct (Z.ltb_spec i 0); [done|]. apply lookup_take_lt. lia.
Qed.

Lemma zlen_take_le {A} (l : list A) n : 0 <= n <= zlen l -> zlen (take (Z.to_nat n) l) = n.
Proof. unfold zlen. rewrite length_take. lia. Qed.

Lemma wp_checkstacksizes a lim g0 g m th :
  heap_ok (gc_heap g0) -> Mk [] g0 g -> gc_heap g !! a = Some (mkObj m (BThread th)) -> thread_ok th -> lim = stack_lim th ->
  wp (checkstacksizes a lim) (fun _ g' => Mk [] g0 g') mem_err g.
Proof.
  intros Hok HM Ho Hth ->. unfold checkstacksizes, gco2th. apply wp_assoc. eapply wp_deref_bind; [done|]. apply wp_bind, wp_ret.
  case_if; [by apply wp_ret|].
  assert (Hci : wp (when ((4 * (zlen (th_ci th) - 1) <? th_size_ci th) && (2 * BASIC_CI_SIZE <? th_size_ci th))
      (luaD_reallocCI a (Z.quot (th_size_ci th) 2)))
      (fun _ g' => Mk [] g0 g' /\ exists th', gc_heap g' !! a = Some (mkObj m (BThread th')) /\
         thread_sim th th' /\ th_stack th' = th_stack th) mem_err g).
  { apply wp_when; intros Hc; [|split; [done|]; exists th; split_and!; [done|apply thread_sim_refl|done]].
    unfold luaD_reallocCI, gco2th. apply wp_assoc. eapply wp_deref_bind; [done|]. apply wp_bind, wp_ret, wp_bind.
    destruct Hth. apply wp_stack_reallocv; [rewrite Z.quot_div_nonneg by lia; Z.to_euclidean_division_equations; lia|unfold sizeof_CallInfo; lia|].
    intros t. assert (Hs : thread_sim th (set_size_ci (Z.quot (th_size_ci th) 2) th)).
    { split; cbn; try done; rewrite Z.quot_div_nonneg by lia; Z.to_euclidean_division_equations; lia. }
    eapply wp_upd_obj; [done|exact Hs|]. intros g' HM' Ho'. split; [|by eexists].
    eapply Mk_trans; [done|exact HM|]. eapply Mk_trans; [eapply heap_sim_ok; [apply HM|done]|apply (Mk_mem [] t g)|done]. }
  eapply wp_seq; [exact Hci|]. intros [] g1 (HM1 & th1 & Ho1 & Hs1 & Hst). apply wp_when; intros Hc; [|done].
  unfold luaD_reallocstack, gco2th. apply wp_assoc. eapply wp_deref_bind; [done|]. apply wp_bind, wp_ret, wp_bind.
  unfold th_stacksize in *. rewrite Hst in *. b2p. destruct Hth. unfold EXTRA_STACK, BASIC_STACK_SIZE in *. pose proof (th_top_lim th).
  set (n := Z.quot (zlen (th_stack th)) 2) in *.
  assert (Hn : 2 * n <= zlen (th_stack th) <= 2 * n + 1).
  { subst n. rewrite Z.quot_div_nonneg by lia. Z.to_euclidean_division_equations; lia. }
  apply wp_stack_reallocv; [lia|unfold sizeof_TValue; lia|]. intros t.
  assert (Htake : take (Z.to_nat (n + 1 + 5)) (th_stack th ++ replicate (Z.to_nat (n + 1 + 5)) VNil) = take (Z.to_nat (n + 1 + 5)) (th_stack th)).
  { apply take_app_le. unfold zlen in *. lia. }
  assert (Hs : thread_sim th1 (set_stack (take (Z.to_nat (n + 1 + 5)) (th_stack th ++ replicate (Z.to_nat (n + 1 + 5)) VNil)) th1)).
  { rewrite Htake. destruct Hs1. pose proof (stack_lim_ext th th1 ltac:(done) ltac:(done)) as Hlim.
    split; cbn; rewrite ?Hst, ?Hlim, ?zlen_take_le by lia; try done; try lia. intros i Hi. apply znth_take. lia. }
  eapply wp_upd_obj; [done|exact Hs|]. intros g' HM' Ho'.
  eapply Mk_trans; [done|exact HM1|]. eapply Mk_trans; [eapply heap_sim_ok; [apply HM1|done]|apply (Mk_mem [] t g1)|done].
Qed.

Lemma marker_thread th a m g :
  heap_ok (gc_heap g) -> gc_heap g !! a = Some (mkObj m (BThread th)) ->
  wp (traversestack a) (fun _ g' => Mk [] g g' /\ all_nonwhite (refs (gc_heap g) (BThread th)) g') mem_err g.
Proof.
  intros Hok Ho. unfold traversestack, gco2th. apply wp_assoc. eapply wp_deref_bind; [done|]. apply wp_bind, wp_ret.
  destruct (Hok a _ Ho) as [Hth Ht]. cbn [obj shape_ok refs refs_with] in *. pose proof (th_top_lim th) as Hlim. destruct Hth as [Htop _ Hlim' _ _].
  eapply wp_seq.
  { apply wp_never, (marker_value (th_gt th) g Hok). intros r Hr. apply Ht, elem_of_app. by left. }
  intros [] g1 [HM1 Hn1]. pose proof (heap_sim_ok _ _ (mk_sim _ _ _ HM1) Hok) as Hok1.
  eapply wp_seq.
  { apply wp_never, (marker_slice (th_stack th) (th_top th) _ ltac:(lia) ltac:(done) g1 Hok1).
    intros r Hr. eapply heap_sim_has_type; [apply HM1|]. apply Ht, elem_of_app. by right. }
  intros [] g2 [HM2 Hn2]. pose proof (Mk_trans _ _ _ _ Hok HM1 HM2) as HM12.
  pose proof (heap_sim_ok _ _ (mk_sim _ _ _ HM12) Hok) as Hok2.
  destruct (heap_sim_Some _ _ _ _ (mk_sim _ _ _ HM12) Ho) as ([m2 b2] & Ho2 & Hb & _). cbn in Hb. destruct b2 as [| | | | |th2|]; try done.
  assert (Hth2 : thread_ok th2) by apply (Hok2 a _ Ho2).
  eapply wp_seq.
  { apply wp_never, (wp_clear_stack a _ g2 g2 m2 th2 Hok2 (Mk_refl _ _) Ho2); [apply Hth2|].
    intros i Hi%elem_of_seqZ. destruct Hth2. rewrite (ths_top _ _ Hb). pose proof (stack_lim_ext th th2 (ths_top _ _ Hb) (ths_ci _ _ Hb)). lia. }
  intros [] g3 (HM3 & th3 & Ho3 & Hs3). eapply wp_mono.
  - apply (wp_checkstacksizes a _ g2 g3 m2 th3 Hok2 HM3 Ho3).
    + by eapply thread_sim_ok.
    + rewrite (stack_lim_ext th2 th3 (ths_top _ _ Hs3) (ths_ci _ _ Hs3)). symmetry. apply (stack_lim_ext th th2 (ths_top _ _ Hb) (ths_ci _ _ Hb)).
  - intros [] g4 HM4. split; [by eapply Mk_trans|]. intros r [Hr|Hr]%elem_of_app.
    + eapply (Mk_nonwhite _ _ _ _ HM4), Hr. by eapply (Mk_nonwhite _ _ _ _ HM2).
    + by eapply (Mk_nonwhite _ _ _ _ HM4).
  - done.
Qed.

(** *** Tables *)

Lemma table_value_typed g a m t i nd :
  heap_ok (gc_heap g) -> gc_heap g !! a = Some (mkObj m (BTable t)) -> znth (t_node t) i = Some nd ->
  forall wk wv r, r ∈ node_refs wk wv nd -> has_type (gc_heap g) r.
Proof.
  intros Hok Ho Hi wk wv r Hr. destruct (Hok a _ Ho) as [_ Ht]. apply Ht. cbn. rewrite !elem_of_app. right; right.
  apply list_elem_of_bind. exists nd. split; [|by eapply znth_elem]. unfold node_refs in *. destruct (ttisnil _); [done|].
  rewrite elem_of_app in *. destruct wk, wv; set_solver.
Qed.

Lemma ttisnil_true v : ttisnil v = true -> v = VNil.
Proof. by destruct v. Qed.

Lemma wp_gfasttm et e g :
  heap_ok (gc_heap g) -> 0 <= e < zlen (gc_tmname g) ->
  (forall mt, et = Some mt -> has_type (gc_heap g) (LUA_TTABLE, mt)) ->
  wp (gfasttm et e) (fun r g' => Mk [] g g' /\ forall v, r = Some v -> forall q, q ∈ vref v -> has_type (gc_heap g') q) never g.
Proof.
  intros Hok He Ht. destruct et as [mt|]; [|apply wp_ret; split; [apply Mk_refl|done]].
  destruct (Ht mt eq_refl) as ([m b] & Ho & Htt). cbn in Ho, Htt. destruct b as [| | | |t| |]; try done.
  unfold gfasttm, gco2h. apply wp_assoc. eapply wp_deref_bind; [done|]. apply wp_bind, wp_ret.
  case_if; [apply wp_ret; split; [apply Mk_refl|done]|]. apply wp_gets.
  destruct (znth_is_Some (gc_tmname g) e He) as [ename Hname].
  apply wp_bind. eapply wp_ok; [unfold array_at, lift; by rewrite Hname|].
  unfold luaT_gettm, gco2h. apply wp_assoc. eapply wp_deref_bind; [done|]. apply wp_bind, wp_ret.
  destruct (Hok mt _ Ho) as [Hsh _]. cbn [obj shape_ok] in Hsh.
  apply wp_bind. eapply wp_ok; [unfold lift; by rewrite luaH_getstr_spec|].
  assert (Hs : exists v, (match slot_of t (VString ename) with Some s => slot_get t s | None => Ok VNil end) = Ok v /\
      (v <> VNil -> forall q, q ∈ vref v -> has_type (gc_heap g) q)).
  { cbn [slot_of]. destruct (node_of (t_node t) (VString ename)) as [i|] eqn:En; [|by exists VNil].
    apply node_of_Some_1 in En as (nd & Hi & _). exists (i_val nd). cbn. rewrite Hi. split; [done|]. intros Hv q Hq.
    eapply (table_value_typed g mt m t i nd Hok Ho Hi true false). unfold node_refs.
    destruct (ttisnil (i_val nd)) eqn:Hnl; [by apply ttisnil_true in Hnl|]. done. }
  destruct Hs as (v & Hv & Hq). apply wp_bind. eapply wp_ok; [unfold lift; by rewrite Hv|].
  destruct (ttisnil v) eqn:Hnil.
  - apply wp_bind. eapply wp_upd_obj; [done| |].
    + cbn. pose proof (table_sim_refl t) as []. by split.
    + intros g' HM _. apply wp_ret. done.
  - apply wp_ret. split; [apply Mk_refl|]. intros w [= <-]. apply Hq. by intros ->.
Qed.

(** The marks of a weak table. *)
Definition weak_bits (wk wv : bool) (m : Z) : Z :=
  setbits (resetbits m (Z.lor KEYWEAK VALUEWEAK)) (u8 (Z.lor (Z.shiftl (Z.b2z wk) KEYWEAKBIT) (Z.shiftl (Z.b2z wv) VALUEWEAKBIT))).

Lemma weak_bits_spec wk wv m :
  keyweak (weak_bits wk wv m) = wk /\ valueweak (weak_bits wk wv m) = wv /\ iswhite (weak_bits wk wv m) = iswhite m /\
  isblack (weak_bits wk wv m) = isblack m.
Proof. unfold weak_bits. by destruct wk, wv; split_and!; marks. Qed.

(** The state after [weak_mode]. *)
Definition put_weak (h : Z) (wk wv : bool) (g : gstate) : gstate :=
  if wk || wv then setg_weak (h :: gc_weak g) (mark_at h (weak_bits wk wv) g) else g.

Lemma wp_weak_mode h mode g (Q : bool * bool -> gstate -> Prop) E :
  (forall v, mode = Some v -> forall q, q ∈ vref v -> has_type (gc_heap g) q) ->
  (forall wk wv, Q (wk, wv) (put_weak h wk wv g)) -> wp (weak_mode h mode) Q E g.
Proof.
  intros Ht HQ. unfold weak_mode. destruct mode as [[]|]; try (apply wp_ret, (HQ false false)).
  destruct (Ht _ eq_refl (LUA_TSTRING, gc)) as ([m b] & Ho & Htt); [by left|]. cbn in Ho, Htt. destruct b as [str| | | | | |]; try done.
  unfold gco2ts. apply wp_assoc. eapply wp_deref_bind; [done|]. apply wp_bind, wp_ret.
  pose proof (HQ (strchr str 107) (strchr str 118)) as HQ'. unfold put_weak in HQ'.
  apply wp_bind. destruct (strchr str 107 || strchr str 118); [|exact HQ']. apply wp_modify. exact HQ'.
Qed.

Lemma znth_zupd {A} (l : list A) i j x :
  znth (zupd i x l) j = if decide (i = j) then (if decide (0 <= i < zlen l) then Some x else None) else znth l j.
Proof.
  case_decide as E; [|by apply znth_zupd_ne]. subst j. case_decide as E; [by apply znth_zupd_eq|].
  destruct (znth (zupd i x l) i) eqn:Ex; [|done]. apply znth_Some_lt in Ex. by rewrite zlen_zupd in Ex.
Qed.

Lemma remove_sim t i nd :
  znth (t_node t) i = Some nd -> i_val nd = VNil -> table_sim t (set_nodes (zupd i (removeentry nd) (t_node t)) t).
Proof.
  intros Hi Hv. pose proof (table_sim_refl t) as []. split; try done. cbn. apply Forall2_same_length_lookup. split.
  - unfold zupd. case_if; [done|]. by rewrite length_insert.
  - intros k x y Hx Hy. rewrite <- znth_of_nat in Hx, Hy. rewrite znth_zupd in Hy. case_decide as E.
    + subst i. rewrite Hx in Hi. injection Hi as <-. case_decide; [|done]. injection Hy as <-.
      unfold removeentry. destruct (iscollectable (i_key x)) eqn:Hc; [|apply node_sim_refl].
      split_and!; [done..|]. right. split_and!; [done|by intros Hk; rewrite Hk in Hc|by eexists].
    + simplify_eq. apply node_sim_refl.
Qed.

(** One node: the table is [t] but for entries already emptied. *)
Lemma wp_traverse_node h wk wv i g m t t0 nd0 :
  heap_ok (gc_heap g) -> gc_heap g !! h = Some (mkObj m (BTable t)) -> table_sim t0 t -> znth (t_node t0) i = Some nd0 ->
  wp (traverse_node h wk wv i) (fun _ g' => Mk [] g g' /\ all_nonwhite (node_refs wk wv nd0) g') never g.
Proof.
  intros Hok Ho Hs Hi0. destruct (sim_znth_l _ _ i nd0 (ts_node _ _ Hs) Hi0) as (nd & Hi & Hsn).
  rewrite <- (node_refs_sim wk wv nd0 nd Hsn).
  unfold traverse_node, gco2h. apply wp_assoc. eapply wp_deref_bind; [done|]. apply wp_bind, wp_ret.
  apply wp_bind. eapply wp_ok; [unfold array_at, lift; by rewrite Hi|].
  pose proof (table_value_typed g h m t i nd Hok Ho Hi wk wv) as Ht. unfold node_refs in *. destruct (ttisnil (i_val nd)) eqn:Hv.
  - apply ttisnil_true in Hv. eapply wp_upd_obj; [done|exact (remove_sim t i nd Hi Hv)|].
    intros g' HM _. split; [done|]. intros r Hr. by apply elem_of_nil in Hr.
  - apply marker_seq; [..|done|exact Ht]; [destruct wk|destruct wv]; apply marker_ret || apply marker_value.
Qed.

Lemma wp_traverse_nodes h wk wv idx g m t t0 :
  heap_ok (gc_heap g) -> gc_heap g !! h = Some (mkObj m (BTable t)) -> table_sim t0 t ->
  (forall i, i ∈ idx -> 0 <= i < zlen (t_node t0)) ->
  wp (mfor idx (traverse_node h wk wv)) (fun _ g' => Mk [] g g' /\
    forall i nd, i ∈ idx -> znth (t_node t0) i = Some nd -> all_nonwhite (node_refs wk wv nd) g') never g.
Proof.
  revert g m t. induction idx as [|i idx IH]; intros g m t Hok Ho Hs Hidx.
  - split; [apply Mk_refl|]. intros i nd Hi. by apply elem_of_nil in Hi.
  - cbn [mfor]. destruct (znth_is_Some (t_node t0) i) as [nd Hnd]; [apply Hidx; by left|].
    eapply wp_seq; [by apply (wp_traverse_node h wk wv i g m t t0 nd)|]. intros [] g1 [HM1 Hn1].
    pose proof (heap_sim_ok _ _ (mk_sim _ _ _ HM1) Hok) as Hok1.
    destruct (heap_sim_Some _ _ _ _ (mk_sim _ _ _ HM1) Ho) as ([m1 b1] & Ho1 & Hb & _). cbn in Hb. destruct b1 as [| | | |t1| |]; try done.
    eapply wp_mono; [apply (IH g1 m1 t1 Hok1 Ho1)| |done].
    + by eapply table_sim_trans.
    + intros j Hj. apply Hidx. by right.
    + intros [] g2 [HM2 Hn2]. split; [by eapply Mk_trans|]. intros j nd' [->|Hj]%elem_of_cons Hnd'; [|by eapply Hn2].
      simplify_eq. by eapply (Mk_nonwhite _ _ _ _ HM2).
Qed.

(** The table is weak in the way [(wk, wv)] says, and the other references
    are marked. *)
Lemma wp_traversetable h m t g :
  heap_ok (gc_heap g) -> gc_heap g !! h = Some (mkObj m (BTable t)) -> TM_MODE < zlen (gc_tmname g) ->
  wp (traversetable h) (fun w g' => exists g1 wk wv, Mk [] g g1 /\ Mk [] (put_weak h wk wv g1) g' /\ w = wk || wv /\
     all_nonwhite (refs_with wk wv (gc_heap g) (BTable t)) g') never g.
Proof.
  intros Hok Ho Hnames. unfold traversetable, gco2h. apply wp_assoc. eapply wp_deref_bind; [done|]. apply wp_bind, wp_ret.
  destruct (Hok h _ Ho) as [Hsh Ht]. cbn [obj shape_ok refs refs_with] in *.
  set (mrefs := match t_metatable t with Some mt => [(LUA_TTABLE, mt)] | None => [] end) in *.
  eapply (wp_seq _ _ (fun _ g1 => Mk [] g g1 /\ all_nonwhite mrefs g1)).
  { subst mrefs. destruct (t_metatable t) as [mt|].
    - apply marker_object; [done|]. intros r Hr. apply Ht, elem_of_app. by left.
    - apply marker_none. }
  intros [] g1 [HM1 Hn1]. pose proof (heap_sim_ok _ _ (mk_sim _ _ _ HM1) Hok) as Hok1.
  assert (Hnames1 : gc_tmname g1 = gc_tmname g) by exact (f_equal gc_tmname (mk_rest _ _ _ HM1)).
  eapply wp_seq; [apply (wp_gfasttm (t_metatable t) TM_MODE g1 Hok1)|].
  { rewrite Hnames1. unfold TM_MODE in *. lia. }
  { intros mt Hmt. eapply heap_sim_has_type; [apply HM1|]. apply Ht, elem_of_app. left. subst mrefs. rewrite Hmt. by left. }
  intros mode g2 [HM2 Hmode]. pose proof (heap_sim_ok _ _ (mk_sim _ _ _ HM2) Hok1) as Hok2.
  pose proof (Mk_trans _ _ _ _ Hok HM1 HM2) as HM12.
  destruct (heap_sim_Some _ _ _ _ (mk_sim _ _ _ HM12) Ho) as ([m2 b2] & Ho2 & Hb & _). cbn in Hb. destruct b2 as [| | | |t2| |]; try done.
  apply wp_bind, wp_weak_mode; [exact Hmode|]. intros wk wv. set (g3 := put_weak h wk wv g2).
  assert (Hh3 : heap_sim (gc_heap g2) (gc_heap g3)).
  { subst g3. unfold put_weak. destruct (wk || wv); [|apply heap_sim_refl]. cbn. intros b. destruct (decide (h = b)) as [<-|Hne].
    - rewrite lookup_alter_eq, Ho2. cbn. split; [apply body_sim_refl|]. cbn. by destruct (weak_bits_spec wk wv m2) as (_ & _ & -> & _).
    - rewrite lookup_alter_ne by done. apply heap_sim_refl. }
  pose proof (heap_sim_ok _ _ Hh3 Hok2) as Hok3.
  assert (Ho3 : exists m3, gc_heap g3 !! h = Some (mkObj m3 (BTable t2))).
  { subst g3. unfold put_weak. destruct (wk || wv); [|by eexists]. cbn. rewrite lookup_alter_eq, Ho2. by eexists. }
  destruct Ho3 as [m3 Ho3].
  assert (Hn3 : all_nonwhite mrefs g3).
  { intros r Hr. eapply heap_sim_whiteb; [exact Hh3|]. by apply (Mk_nonwhite _ _ _ _ HM2 Hn1). }
  assert (Ht3 : forall r, r ∈ mrefs ++ (take (Z.to_nat (t_sizearray t)) (t_array t) ≫= vref) ++ (t_node t ≫= node_refs false false) -> has_type (gc_heap g3) r).
  { intros r Hr. eapply heap_sim_has_type; [exact Hh3|]. eapply heap_sim_has_type; [apply HM12|]. by apply Ht. }
  destruct (wk && wv) eqn:Hboth.
  { apply andb_true_iff in Hboth as [-> ->]. apply wp_ret. exists g2, true, true. split_and!; [done|apply Mk_refl|done|].
    intros r [Hr|[Hr|Hr]%elem_of_app]%elem_of_app; [auto|by apply elem_of_nil in Hr|].
    apply list_elem_of_bind in Hr as (nd & Hr & _). unfold node_refs in Hr. destruct (ttisnil _); by apply elem_of_nil in Hr. }
  eapply (wp_seq _ _ (fun _ g4 => Mk [] g3 g4 /\ all_nonwhite (if wv then [] else take (Z.to_nat (t_sizearray t)) (t_array t) ≫= vref) g4)).
  { destruct wv; cbn [negb when]; [apply marker_none|].
    apply marker_slice; [apply (to_array t Hsh)|intros i; by rewrite elem_of_rev|done|].
    intros r Hr. apply Ht3. rewrite !elem_of_app. by right; left. }
  intros [] g4 [HM4 Hn4]. pose proof (heap_sim_ok _ _ (mk_sim _ _ _ HM4) Hok3) as Hok4.
  destruct (heap_sim_Some _ _ _ _ (mk_sim _ _ _ HM4) Ho3) as ([m4 b4] & Ho4 & Hb4 & _). cbn in Hb4. destruct b4 as [| | | |t4| |]; try done.
  eapply wp_seq; [apply (wp_traverse_nodes h wk wv _ g4 m4 t4 t Hok4 Ho4)|].
  { by eapply table_sim_trans. }
  { intros i Hi%elem_of_rev%elem_of_seqZ. rewrite sizenode_pow in Hi by apply Hsh. rewrite (to_nodes t Hsh). lia. }
  intros [] g5 [HM5 Hn5]. apply wp_ret. exists g2, wk, wv. split_and!; [done|by eapply Mk_trans|done|].
  intros r [Hr|[Hr|Hr]%elem_of_app]%elem_of_app.
  - by apply (Mk_nonwhite _ _ _ _ HM5 (Mk_nonwhite _ _ _ _ HM4 Hn3)).
  - by apply (Mk_nonwhite _ _ _ _ HM5 Hn4).
  - apply list_elem_of_bind in Hr as (nd & Hr & Hnd). apply list_elem_of_lookup in Hnd as [i Hi]. rewrite <- znth_of_nat in Hi.
    refine (Hn5 (Z.of_nat i) nd _ Hi r Hr). apply elem_of_rev, elem_of_seqZ. apply znth_Some_lt in Hi.
    rewrite sizenode_pow by apply Hsh. rewrite (to_nodes t Hsh) in Hi. lia.
Qed.
End traverse.
