(* ===== verification/GcPropagate.v ===== *)
(** * GcPropagate.v: the propagation of marks

    [propagatemark] visits one gray object; [propagateall] visits all of them.
    The collector's progress [Ev] keeps the tricolour invariant whatever is
    put aside, and the lists. *)

From S2P Require Import Prelude Machine Object Mem Table TableInv TableSet Gc GcInv GcMark GcTraverse.

(** The state without what the mark phase changes. *)
Definition frame (g : gstate) : gstate :=
  setg_heap ∅ (setg_gray [] (setg_grayagain [] (setg_weak [] (setg_totalbytes 0 g)))).

Lemma rest_frame g g' : rest g' = rest g -> frame g' = frame g.
Proof. intros E. exact (f_equal (fun g => setg_grayagain [] (setg_weak [] g)) E). Qed.

(** The list of weak tables. *)
Definition is_table (h : gmap Z GCObject) (a : Z) : Prop := exists m t, h !! a = Some (mkObj m (BTable t)).
Definition weak_tables (g : gstate) : Prop := forall a, a ∈ gc_weak g -> is_table (gc_heap g) a.

Lemma is_table_sim h h' a : heap_sim h h' -> is_table h a -> is_table h' a.
Proof.
  intros Hs (m & t & Ha). destruct (heap_sim_Some _ _ _ _ Hs Ha) as ([m' b] & Ha' & Hb & _). cbn in Hb.
  destruct b; try done. by eexists _, _.
Qed.

(** An open upvalue that is gray stays gray, to be visited atomically. *)
Definition grey_upvals (g g' : gstate) : Prop := forall a m u,
  gc_heap g !! a = Some (mkObj m (BUpVal u)) -> grey m -> exists m', gc_heap g' !! a = Some (mkObj m' (BUpVal u)) /\ grey m'.

Record Ev (g g' : gstate) : Prop := {
  ev_frame : frame g' = frame g;
  ev_sim : heap_sim (gc_heap g) (gc_heap g');
  ev_tc P : TC P g -> TC P g';
  ev_lists L : lists_with L g -> lists_with L g';
  ev_grays L : grays_with L g -> grays_with L g';
  ev_grayagain : gc_grayagain g ⊆ gc_grayagain g';
  ev_weak : gc_weak g ⊆ gc_weak g';
  ev_weakt : weak_tables g -> weak_tables g';
  ev_work : (work g' <= work g)%nat;
  ev_upvals : grey_upvals g g';
}.

Section propagate.
Context `{Krealloc} `{StringHash}.
Implicit Types (g : gstate) (a : Z) (P : Z -> Prop) (L : list Z).

Lemma Ev_refl g : Ev g g.
Proof. split; try done; [apply heap_sim_refl|]. intros a m u; eauto. Qed.

Lemma grey_upvals_trans g1 g2 g3 : grey_upvals g1 g2 -> grey_upvals g2 g3 -> grey_upvals g1 g3.
Proof. intros H12 H23 a m u Ha Hg. destruct (H12 a m u Ha Hg) as (m2 & Ha2 & Hg2). by apply (H23 a m2). Qed.

Lemma Mk_grey_upvals X g g' : (forall a m u, a ∈ X -> gc_heap g !! a <> Some (mkObj m (BUpVal u))) -> Mk X g g' -> grey_upvals g g'.
Proof.
  intros HX HM a m u Ha [Hw Hb]. destruct (heap_sim_Some _ _ _ _ (mk_sim _ _ _ HM) Ha) as ([m' b'] & Ha' & Hbs & Hw').
  cbn in Hbs, Hw'. subst b'. exists m'. split; [done|]. split; [auto|].
  refine (mk_black _ _ _ HM a _ _ _ Ha Ha' (conj Hw Hb)). intros Hin. by apply (HX a m u Hin).
Qed.

Lemma Ev_trans g1 g2 g3 : Ev g1 g2 -> Ev g2 g3 -> Ev g1 g3.
Proof.
  intros [] []. split; auto; [congruence|by eapply heap_sim_trans|..|lia|by eapply grey_upvals_trans].
  - intros a Ha. by apply ev_grayagain1, ev_grayagain0.
  - intros a Ha. by apply ev_weak1, ev_weak0.
Qed.

(** *** Marking is progress *)

Lemma Mk_lists g g' : Mk [] g g' -> exists new, lists g' = new ++ lists g /\ NoDup new /\
  forall a, a ∈ new -> whiteb (gc_heap g) a = true /\ listed g' a.
Proof.
  intros HM. destruct (mk_gray _ _ _ HM) as (new & E & Hnd & Hn). exists new. split_and!; [|done..].
  unfold lists. by rewrite E, (rest_grayagain _ _ (mk_rest _ _ _ HM)), (rest_weak _ _ (mk_rest _ _ _ HM)), <- app_assoc.
Qed.

Lemma Mk_lists_with g g' L : Mk [] g g' -> lists_with L g -> lists_with L g'.
Proof.
  intros HM [Hnd Hl]. destruct (Mk_lists g g' HM) as (new & E & Hnn & Hnew). unfold lists_with. rewrite E. split.
  - rewrite app_assoc, (Permutation_app_comm L new), <- app_assoc. apply NoDup_app. split_and!; [done| |done].
    intros a Ha Hin. destruct (Hnew a Ha) as [Hw _]. by rewrite (listed_white g a (Hl a Hin)) in Hw.
  - intros a Ha. rewrite !elem_of_app in Ha. destruct Ha as [Ha|[Ha|Ha]].
    + eapply Mk_listed; [done|]. apply Hl, elem_of_app. by left.
    + by apply Hnew.
    + eapply Mk_listed; [done|]. apply Hl, elem_of_app. by right.
Qed.

Lemma Mk_grays_with X g g' L : Mk X g g' -> (forall a, a ∈ X -> a ∈ L ++ lists g') -> lists g ⊆ lists g' -> gc_gray g' ⊆ lists g' ->
  grays_with L g -> grays_with L g'.
Proof.
  intros HM HX Hsub Hgr Hg a o' Ho' Hgrey. destruct (decide (a ∈ X)) as [Hx|Hx]; [left; auto|].
  destruct (mk_grey _ _ _ HM a o' Hx Ho' Hgrey) as [Hin|[Hu|(o & Ho & Hgo)]]; [left|by right|].
  - apply elem_of_app. right. auto.
  - destruct (Hg a o Ho Hgo) as [Hin|Hu]; [left|right].
    + rewrite elem_of_app in *. destruct Hin; auto.
    + destruct (heap_sim_Some _ _ _ _ (mk_sim _ _ _ HM) Ho) as (o2 & Ho2 & Hb & _). simplify_eq.
      destruct (obj o) as [| |[]| | | |]; try done; cbn in Hb; by rewrite Hb.
Qed.

Lemma gray_lists g : gc_gray g ⊆ lists g.
Proof. unfold lists. set_solver. Qed.

Lemma Mk_lists_sub g g' : Mk [] g g' -> lists g ⊆ lists g'.
Proof. intros HM. destruct (Mk_lists g g' HM) as (new & -> & _). set_solver. Qed.

Lemma Mk_work X g g' : Mk X g g' -> (work g' <= work g)%nat.
Proof.
  intros HM. destruct (mk_gray _ _ _ HM) as (new & E & Hnd & Hnew). unfold work. rewrite E, length_app.
  assert (Hsz : (size (whites (gc_heap g')) + length new <= size (whites (gc_heap g)))%nat); [|lia].
  rewrite <- (size_list_to_set (C := gset Z) new Hnd), <- size_union.
  - apply subseteq_size. apply union_subseteq. split; [apply whites_sim, HM|].
    intros a Ha%elem_of_list_to_set. by apply elem_of_whites, Hnew.
  - intros a Ha%elem_of_whites Ha'%elem_of_list_to_set. destruct (Hnew a Ha') as [_ Hl]. by rewrite (listed_white _ _ Hl) in Ha.
Qed.

Lemma Mk_Ev g g' : heap_ok (gc_heap g) -> Mk [] g g' -> Ev g g'.
Proof.
  intros Hok HM. split.
  - by apply rest_frame, (mk_rest _ _ _ HM).
  - apply HM.
  - intros P. apply (Mk_TC [] P g g' Hok); [set_solver|done].
  - intros L. by apply Mk_lists_with.
  - intros L. apply (Mk_grays_with [] g g' L HM); [set_solver|by apply Mk_lists_sub|apply gray_lists].
  - by rewrite (rest_grayagain _ _ (mk_rest _ _ _ HM)).
  - by rewrite (rest_weak _ _ (mk_rest _ _ _ HM)).
  - intros Hw a. rewrite (rest_weak _ _ (mk_rest _ _ _ HM)). intros Ha. eapply is_table_sim; [apply HM|auto].
  - by apply (Mk_work []).
  - apply (Mk_grey_upvals [] g g'); [set_solver|done].
Qed.

(** *** Taking an object from the gray list *)

Definition pop (o : Z) (gray : list Z) (g : gstate) : gstate := setg_gray gray (mark_at o gray2black g).

Definition but (P : Z -> Prop) (o : Z) : Z -> Prop := fun a => P a \/ a = o.

Lemma TC_close P o g : TC (but P o) g -> scanned g o -> TC P g.
Proof.
  intros Htc Hs a x Hx Hw. destruct (Htc a x Hx Hw) as [?|[[? | -> ]|?]]; auto.
Qed.

Section pop.
Context (g : gstate) (o : Z) (gray : list Z) (x : GCObject).
Context (Hok : heap_ok (gc_heap g)) (Hgray : gc_gray g = o :: gray) (Ho : gc_heap g !! o = Some x).
Context (Hup : forall u, obj x <> BUpVal u).

Lemma pop_sim : heap_sim (gc_heap g) (gc_heap (pop o gray g)).
Proof. exact (mk_sim _ _ _ (Mk_blacken o g x Ho)). Qed.

Lemma pop_TC P : TC P g -> TC (but P o) (pop o gray g).
Proof.
  intros Htc. assert (Htc1 : TC (but P o) (mark_at o gray2black g)).
  { apply (Mk_TC [o] (but P o) g); [done| |by eapply Mk_blacken|].
    - intros a ->%list_elem_of_singleton. by right.
    - intros a y Hy Hw. destruct (Htc a y Hy Hw) as [?|[?|?]]; [by left|right; left; by left|by right; right]. }
  intros a y Hy Hw. destruct (Htc1 a y Hy Hw) as [Hin|[Hp|Hs]]; [|by right; left|by right; right].
  cbn in Hin. rewrite Hgray in Hin. apply elem_of_cons in Hin as [->|Hin]; [right; left; by right|by left].
Qed.

Lemma pop_listed a : listed g a -> listed (pop o gray g) a.
Proof. apply (Mk_listed [o] g (mark_at o gray2black g)). by eapply Mk_blacken. Qed.

Lemma pop_lists L : lists_with L g -> lists_with (o :: L) (pop o gray g).
Proof.
  intros [Hnd Hl].
  assert (E : L ++ lists g ≡ₚ (o :: L) ++ lists (pop o gray g)).
  { unfold lists, pop, mark_at. cbn. rewrite Hgray. cbn. by rewrite <- Permutation_middle. }
  split; [by rewrite <- E|]. intros a Ha. rewrite <- E in Ha. by apply pop_listed, Hl.
Qed.

Lemma pop_grays L : grays_with L g -> grays_with L (pop o gray g).
Proof.
  intros Hg a y Hy [Hw Hb]. destruct (decide (a = o)) as [->|Hne].
  - cbn in Hy. rewrite lookup_alter_eq, Ho in Hy. simplify_eq/=. by rewrite gray2black_black in Hb.
  - cbn in Hy. rewrite lookup_alter_ne in Hy by done. destruct (Hg a y Hy) as [Hin|?]; [done| |by right]. left.
    unfold lists in *. cbn. rewrite Hgray in Hin. rewrite !elem_of_app, elem_of_cons in *. tauto.
Qed.

Lemma pop_work : (S (work (pop o gray g)) <= work g)%nat.
Proof.
  pose proof (Mk_work [o] _ _ (Mk_blacken o g x Ho)) as Hw. unfold work in *. cbn in *. rewrite Hgray in *. cbn in *. lia.
Qed.

Lemma pop_upvals : grey_upvals g (pop o gray g).
Proof.
  change (grey_upvals g (mark_at o gray2black g)).
  apply (Mk_grey_upvals [o]); [|by eapply Mk_blacken]. intros a m u ->%list_elem_of_singleton. rewrite Ho. intros [= ->]. by apply (Hup u).
Qed.

(** The visit of [o] after it was taken, when it goes on no list. *)
Lemma visit_Ev g' :
  Mk [] (pop o gray g) g' -> scanned g' o -> Ev g g' /\ (work g' < work g)%nat.
Proof.
  intros HM Hs. pose proof (heap_sim_ok _ _ pop_sim Hok) as Hok0. pose proof (Mk_Ev _ _ Hok0 HM) as [].
  split; [|pose proof pop_work; lia]. split; auto.
  - eapply heap_sim_trans; [apply pop_sim|done].
  - intros P Htc. apply (TC_close P o); [by apply ev_tc0, pop_TC|done].
  - intros L Hl. apply pop_lists, ev_lists0 in Hl as [Hnd Hl]. split; [by apply NoDup_cons in Hnd as [_ Hnd]|].
    intros a Ha. apply Hl. by right.
  - intros L Hg. by apply ev_grays0, pop_grays.
  - intros Hw. apply ev_weakt0. intros a Ha. exact (is_table_sim _ _ _ pop_sim (Hw a Ha)).
  - pose proof pop_work. lia.
  - by eapply grey_upvals_trans; [apply pop_upvals|].
Qed.

(** A thread is put aside, to be visited again atomically. *)
Definition aside : gstate :=
  mark_at o black2gray (setg_grayagain (o :: gc_grayagain g) (pop o gray g)).

Lemma pop_lookup : gc_heap (pop o gray g) !! o = Some (mkObj (gray2black (marked x)) (obj x)).
Proof. cbn. by rewrite lookup_alter_eq, Ho. Qed.

Lemma aside_Mk : Mk [o] (pop o gray g) (mark_at o black2gray (pop o gray g)).
Proof. eapply Mk_ungray, pop_lookup. Qed.

Lemma aside_sim : heap_sim (gc_heap (pop o gray g)) (gc_heap aside).
Proof. exact (mk_sim _ _ _ aside_Mk). Qed.

Lemma aside_TC P : TC P g -> TC (but P o) aside.
Proof.
  intros Htc. exact (Mk_TC [o] (but P o) _ _ (heap_sim_ok _ _ pop_sim Hok)
    (fun a Ha => or_intror (proj1 (list_elem_of_singleton a o) Ha)) aside_Mk (pop_TC P Htc)).
Qed.

Lemma aside_perm L : (o :: L) ++ lists (pop o gray g) ≡ₚ L ++ lists aside.
Proof.
  unfold lists, aside, mark_at. cbn. rewrite <- Permutation_middle, (Permutation_middle L). f_equiv.
Qed.

Lemma aside_lists L : lists_with L g -> lists_with L aside.
Proof.
  intros Hl. apply pop_lists in Hl as [Hnd Hl]. split; [by rewrite <- aside_perm|].
  intros a Ha. rewrite <- aside_perm in Ha. exact (Mk_listed _ _ _ a aside_Mk (Hl a Ha)).
Qed.

Lemma aside_grays L : grays_with L g -> grays_with L aside.
Proof.
  intros Hg%pop_grays a y Hy Hgr. destruct (decide (a = o)) as [->|Hne]; [left; unfold lists; cbn; set_solver|].
  unfold aside in Hy. cbn in Hy. rewrite !lookup_alter_ne in Hy by done. destruct (Hg a y) as [Hin|?]; [|done| |by right].
  - cbn. by rewrite lookup_alter_ne.
  - left. unfold lists in *. cbn in *. clear -Hin. set_solver.
Qed.

Lemma aside_upvals : grey_upvals (pop o gray g) aside.
Proof.
  change (grey_upvals (pop o gray g) (mark_at o black2gray (pop o gray g))).
  apply (Mk_grey_upvals [o]); [|exact aside_Mk]. intros a m u ->%list_elem_of_singleton. rewrite pop_lookup. intros [= _ Hb]. by apply (Hup u).
Qed.

Lemma visit_thread_Ev g' : Mk [] aside g' -> scanned g' o -> Ev g g' /\ (work g' < work g)%nat.
Proof.
  intros HM Hs. pose proof (heap_sim_trans _ _ _ pop_sim aside_sim) as Hsim. pose proof (heap_sim_ok _ _ Hsim Hok) as Hok1.
  pose proof (Mk_Ev _ _ Hok1 HM) as [].
  assert (Hw : (work aside < work g)%nat).
  { pose proof pop_work. pose proof (Mk_work [o] _ _ aside_Mk). unfold work in *. cbn in *. lia. }
  split; [|lia]. split; auto.
  - by eapply heap_sim_trans.
  - intros P Htc. apply (TC_close P o); [by apply ev_tc0, aside_TC|done].
  - intros L Hl. by apply ev_lists0, aside_lists.
  - intros L Hg. by apply ev_grays0, aside_grays.
  - intros a Ha. apply ev_grayagain0. by right.
  - intros Hwt. apply ev_weakt0. intros a Ha. exact (is_table_sim _ _ _ Hsim (Hwt a Ha)).
  - lia.
  - eapply grey_upvals_trans; [apply pop_upvals|]. by eapply grey_upvals_trans; [apply aside_upvals|].
Qed.
End pop.

(** *** Putting a weak table aside *)

Section weak.
Context (g : gstate) (o : Z) (wk wv : bool) (m : Z) (t : Table).
Context (Hok : heap_ok (gc_heap g)) (Ho : gc_heap g !! o = Some (mkObj m (BTable t))) (Hw : wk || wv = true).

Lemma put_weak_eq : put_weak o wk wv g = setg_weak (o :: gc_weak g) (mark_at o (weak_bits wk wv) g).
Proof. unfold put_weak. by rewrite Hw. Qed.

Lemma put_weak_sim : heap_sim (gc_heap g) (gc_heap (put_weak o wk wv g)).
Proof.
  rewrite put_weak_eq. cbn. intros b. destruct (decide (o = b)) as [<-|Hne].
  - rewrite lookup_alter_eq, Ho. cbn. split; [apply body_sim_refl|]. cbn. by destruct (weak_bits_spec wk wv m) as (_ & _ & -> & _).
  - rewrite lookup_alter_ne by done. apply heap_sim_refl.
Qed.

Lemma put_weak_upvals : grey_upvals g (put_weak o wk wv g).
Proof.
  intros a mm u Ha Hg. exists mm. split; [|done]. rewrite put_weak_eq. cbn. rewrite lookup_alter_ne; [done|]. intros ->. congruence.
Qed.

Lemma put_weak_TC P : TC (but P o) g -> TC (but P o) (put_weak o wk wv g).
Proof.
  intros Htc a y Hy Hwh. destruct (decide (a = o)) as [->|Hne]; [right; left; by right|].
  assert (Hy0 : gc_heap g !! a = Some y) by (rewrite put_weak_eq in Hy; cbn in Hy; by rewrite lookup_alter_ne in Hy).
  destruct (Htc a y Hy0 Hwh) as [Hin|[?|Hs]]; [left; by rewrite put_weak_eq|by right; left|]. right; right.
  intros y' Hy' r Hr. rewrite Hy in Hy'. injection Hy' as <-. eapply heap_sim_whiteb; [exact put_weak_sim|]. apply (Hs y Hy0).
  assert (Hmem : a ∈ gc_weak (put_weak o wk wv g) <-> a ∈ gc_weak g) by (rewrite put_weak_eq; cbn; set_solver).
  unfold srefs in *. destruct (Hok a y Hy0) as [Hsh _].
  assert (E : forall k v, refs_with k v (gc_heap (put_weak o wk wv g)) (obj y) = refs_with k v (gc_heap g) (obj y)).
  { intros k v. apply refs_sim; [exact put_weak_sim|apply body_sim_refl|done]. }
  unfold refs in *. rewrite !E in Hr. destruct (decide (a ∈ gc_weak g)); case_decide; tauto.
Qed.

Lemma put_weak_listed a : listed g a -> listed (put_weak o wk wv g) a.
Proof.
  intros (y & Hy & Hwh & Htr). destruct (heap_sim_Some _ _ _ _ put_weak_sim Hy) as (y' & Hy' & Hb & Hw').
  exists y'. split_and!; [done|auto|]. destruct (obj y), (obj y'); cbn in *; congruence || done.
Qed.

Lemma put_weak_perm L : (o :: L) ++ lists g ≡ₚ L ++ lists (put_weak o wk wv g).
Proof.
  rewrite put_weak_eq. unfold lists, mark_at. cbn. rewrite (Permutation_middle L). f_equiv. rewrite !app_assoc. by rewrite <- Permutation_middle.
Qed.

Lemma put_weak_lists L : lists_with (o :: L) g -> lists_with L (put_weak o wk wv g).
Proof.
  intros [Hnd Hl]. split; [by rewrite <- put_weak_perm|].
  intros a Ha. rewrite <- put_weak_perm in Ha. by apply put_weak_listed, Hl.
Qed.

Lemma put_weak_grays L : grays_with L g -> grays_with L (put_weak o wk wv g).
Proof.
  intros Hg a y Hy Hgr. destruct (decide (a = o)) as [->|Hne]; [left; rewrite put_weak_eq; unfold lists; cbn; set_solver|].
  assert (Hy0 : gc_heap g !! a = Some y) by (rewrite put_weak_eq in Hy; cbn in Hy; by rewrite lookup_alter_ne in Hy).
  destruct (Hg a y Hy0 Hgr) as [Hin|?]; [left|by right]. rewrite put_weak_eq. unfold lists in *. cbn. set_solver.
Qed.

Lemma put_weak_work : work (put_weak o wk wv g) = work g.
Proof.
  rewrite put_weak_eq. unfold work. cbn. f_equal. f_equal. apply set_eq. intros a. rewrite !elem_of_whites. unfold whiteb.
  destruct (decide (o = a)) as [<-|Hne].
  - rewrite lookup_alter_eq, Ho. cbn. by destruct (weak_bits_spec wk wv m) as (_ & _ & -> & _).
  - by rewrite lookup_alter_ne.
Qed.

Lemma put_weak_lookup : exists m', gc_heap (put_weak o wk wv g) !! o = Some (mkObj m' (BTable t)) /\ keyweak m' = wk /\ valueweak m' = wv.
Proof.
  rewrite put_weak_eq. cbn. rewrite lookup_alter_eq, Ho. cbn. eexists. split; [reflexivity|]. by destruct (weak_bits_spec wk wv m) as (? & ? & _).
Qed.
End weak.

(** *** The visit of a table *)

Lemma Ev_drop o L g : lists_with (o :: L) g -> lists_with L g.
Proof. intros [Hnd Hl]. split; [by apply NoDup_cons in Hnd as [_ Hnd]|]. intros a Ha. apply Hl. by right. Qed.

(** All references but the weak ones of a weak table are marked. *)
Lemma scanned_table g g' o m t wk wv m' t' :
  heap_ok (gc_heap g) -> heap_sim (gc_heap g) (gc_heap g') -> gc_heap g !! o = Some (mkObj m (BTable t)) ->
  all_nonwhite (refs_with wk wv (gc_heap g) (BTable t)) g' ->
  gc_heap g' !! o = Some (mkObj m' (BTable t')) ->
  (wk || wv = true -> o ∈ gc_weak g' /\ keyweak m' = wk /\ valueweak m' = wv) -> scanned g' o.
Proof.
  intros Hok Hs Ho Hn Ho' Hw y Hy r Hr. rewrite Ho' in Hy. injection Hy as <-.
  destruct (heap_sim_Some _ _ _ _ Hs Ho) as (y & Hy & Hb & _). rewrite Ho' in Hy. injection Hy as <-. cbn in Hb.
  destruct (Hok o _ Ho) as [Hsh _]. cbn in Hsh.
  assert (E : forall k v, refs_with k v (gc_heap g') (BTable t') = refs_with k v (gc_heap g) (BTable t)).
  { intros k v. by apply refs_sim. }
  destruct (wk || wv) eqn:Hor.
  - destruct (Hw eq_refl) as (Hin & Hk & Hv). unfold srefs in Hr. rewrite decide_True in Hr by done. cbn [marked obj] in Hr.
    rewrite Hk, Hv, E in Hr. by apply Hn.
  - apply orb_false_iff in Hor as [-> ->]. apply srefs_sub in Hr. unfold refs in Hr. cbn [obj] in Hr. rewrite E in Hr. by apply Hn.
Qed.

Lemma visit_table_Ev g o gray m t g1 wk wv g3 :
  heap_ok (gc_heap g) -> gc_gray g = o :: gray -> gc_heap g !! o = Some (mkObj m (BTable t)) ->
  Mk [] (pop o gray g) g1 -> Mk [] (put_weak o wk wv g1) g3 -> all_nonwhite (refs_with wk wv (gc_heap (pop o gray g)) (BTable t)) g3 ->
  let g4 := if wk || wv then mark_at o black2gray g3 else g3 in
  Ev g g4 /\ (work g4 < work g)%nat /\ exists m4 t4, gc_heap g4 !! o = Some (mkObj m4 (BTable t4)).
Proof.
  intros Hok Hgray Ho HM1 HM3 Hn g4. pose proof (pop_sim g o gray _ Ho) as Hs0. pose proof (heap_sim_ok _ _ Hs0 Hok) as Hok0.
  pose proof (pop_lookup g o gray _ Ho) as Ho0. cbn [marked obj] in Ho0.
  pose proof (heap_sim_ok _ _ (mk_sim _ _ _ HM1) Hok0) as Hok1.
  destruct (heap_sim_Some _ _ _ _ (mk_sim _ _ _ HM1) Ho0) as ([m1 b1] & Ho1 & Hb1 & _). cbn in Hb1. destruct b1 as [| | | |t1| |]; try done.
  destruct (Mk_Ev _ _ Hok0 HM1) as [F1 S1 T1 L1 G1 A1 W1 WT1 K1 U1]. pose proof (pop_work g o gray _ Hgray Ho) as K0.
  destruct (wk || wv) eqn:Hor; subst g4.
  - pose proof (put_weak_sim g1 o wk wv m1 t1 Ho1 Hor) as S2. pose proof (heap_sim_ok _ _ S2 Hok1) as Hok2.
    destruct (put_weak_lookup g1 o wk wv m1 t1 Ho1 Hor) as (m2 & Ho2 & Hk2 & Hv2).
    destruct (Mk_Ev _ _ Hok2 HM3) as [F3 S3 T3 L3 G3 A3 W3 WT3 K3 U3]. pose proof (heap_sim_ok _ _ S3 Hok2) as Hok3.
    destruct (heap_sim_Some _ _ _ _ S3 Ho2) as ([m3 b3] & Ho3 & Hb3 & _). cbn in Hb3. destruct b3 as [| | | |t3| |]; try done.
    destruct (mk_bits _ _ _ HM3 _ _ _ _ Ho2 Ho3) as [Hk3 Hv3]. cbn in Hk3, Hv3.
    pose proof (Mk_ungray o g3 _ Ho3) as HM4. pose proof (mark_at_lookup o black2gray g3 _ Ho3) as Ho4. cbn [marked obj] in Ho4.
    assert (Hin3 : o ∈ gc_weak g3).
    { rewrite (rest_weak _ _ (mk_rest _ _ _ HM3)), (put_weak_eq g1 o wk wv Hor). cbn. by left. }
    assert (Hsc : scanned (mark_at o black2gray g3) o).
    { apply (scanned_table (pop o gray g) _ o (gray2black m) t wk wv (black2gray m3) t3 Hok0); [|done| |done|].
      - eapply heap_sim_trans; [exact S1|]. eapply heap_sim_trans; [exact S2|]. eapply heap_sim_trans; [exact S3|apply HM4].
      - by apply (Mk_nonwhite _ _ _ _ HM4).
      - intros _. split; [done|]. destruct (black2gray_weak m3) as [-> ->]. split; congruence. }
    pose proof (Mk_work _ _ _ HM4) as K4. pose proof (put_weak_work g1 o wk wv m1 t1 Ho1 Hor) as K2.
    split; [split|split; [lia|by eexists _, _]]; try lia.
    + transitivity (frame g3); [done|]. rewrite F3, (put_weak_eq g1 o wk wv Hor). exact F1.
    + eapply heap_sim_trans; [exact Hs0|]. eapply heap_sim_trans; [exact S1|]. eapply heap_sim_trans; [exact S2|].
      eapply heap_sim_trans; [exact S3|apply HM4].
    + intros P Htc. apply (TC_close P o); [|done]. apply (Mk_TC [o] (but P o) g3 _ Hok3); [|done|].
      { intros a ->%list_elem_of_singleton. by right. }
      by apply T3, (put_weak_TC g1 o wk wv m1 t1 Hok1 Ho1 Hor), T1, (pop_TC g o gray _ Hok Hgray Ho).
    + intros L Hl. assert (Hl3 : lists_with L g3) by by apply L3, (put_weak_lists g1 o wk wv m1 t1 Ho1 Hor), L1, (pop_lists g o gray _ Hgray Ho).
      destruct Hl3 as [Hnd Hl3]. split; [done|]. intros a Ha. eapply (Mk_listed _ _ _ a HM4), Hl3, Ha.
    + intros L Hg. apply (Mk_grays_with [o] g3 _ L HM4); [|done|apply gray_lists|].
      * intros a ->%list_elem_of_singleton. unfold lists. cbn. rewrite !elem_of_app. by right; right; right.
      * apply G3. eapply put_weak_grays; try done. by eapply G1, pop_grays.
    + intros a Ha. cbn. apply A3. rewrite (put_weak_eq g1 o wk wv Hor). by apply A1.
    + intros a Ha. cbn. apply W3. rewrite (put_weak_eq g1 o wk wv Hor). right. by apply W1.
    + intros Hwt a Ha. eapply is_table_sim; [apply HM4|]. apply WT3; [|exact Ha]. intros b. rewrite (put_weak_eq g1 o wk wv Hor) at 1.
      intros Hb. eapply is_table_sim; [exact S2|]. cbn in Hb. apply elem_of_cons in Hb as [->|Hb]; [by eexists _, _|].
      apply WT1; [|exact Hb]. intros c Hc. eapply is_table_sim; [exact Hs0|auto].
    + eapply grey_upvals_trans; [eapply pop_upvals; [exact Ho|done]|]. eapply grey_upvals_trans; [exact U1|].
      eapply grey_upvals_trans; [eapply put_weak_upvals; [exact Ho1|done]|]. eapply grey_upvals_trans; [exact U3|].
      apply (Mk_grey_upvals [o]); [|exact HM4]. intros a mm u ->%list_elem_of_singleton. by rewrite Ho3.
  - unfold put_weak in HM3. rewrite Hor in HM3. pose proof (Mk_trans _ _ _ _ Hok0 HM1 HM3) as HM.
    destruct (heap_sim_Some _ _ _ _ (mk_sim _ _ _ HM) Ho0) as ([m3 b3] & Ho3 & Hb3 & _). cbn in Hb3. destruct b3 as [| | | |t3| |]; try done.
    destruct (visit_Ev g o gray _ Hok Hgray Ho ltac:(done) g3 HM) as [HE Hwk].
    + apply (scanned_table (pop o gray g) _ o (gray2black m) t wk wv m3 t3 Hok0 (mk_sim _ _ _ HM) Ho0 Hn Ho3). congruence.
    + split_and!; [done..|]. by eexists _, _.
Qed.

(** *** One step, and all of them *)

Definition names_ok (g : gstate) : Prop := TM_MODE < zlen (gc_tmname g).

Lemma wp_gco2th a m th g (Q : Thread -> gstate -> Prop) E : gc_heap g !! a = Some (mkObj m (BThread th)) -> Q th g -> wp (gco2th a) Q E g.
Proof. intros Ho HQ. unfold gco2th. eapply wp_deref_bind; [done|]. exact HQ. Qed.

Lemma wp_gco2h a m t g (Q : Table -> gstate -> Prop) E : gc_heap g !! a = Some (mkObj m (BTable t)) -> Q t g -> wp (gco2h a) Q E g.
Proof. intros Ho HQ. unfold gco2h. eapply wp_deref_bind; [done|]. exact HQ. Qed.

Lemma propagatemark_spec g :
  heap_ok (gc_heap g) -> lists_ok g -> names_ok g -> gc_gray g <> [] ->
  wp propagatemark (fun _ g' => Ev g g' /\ (work g' < work g)%nat) mem_err g.
Proof.
  intros Hok Hl Hnames Hne. unfold propagatemark. apply wp_get. destruct (gc_gray g) as [|o gray] eqn:Hgray; [done|].
  destruct Hl as [_ Hl]. destruct (Hl o) as ([m b] & Ho & Hw & Htr).
  { cbn. unfold lists. rewrite Hgray. by left. }
  apply wp_modify. pose proof (pop_lookup g o gray _ Ho) as Ho0. cbn [marked obj] in Ho0.
  pose proof (heap_sim_ok _ _ (pop_sim g o gray _ Ho) Hok) as Hok0. cbn [marked obj] in Htr, Hw.
  eapply wp_deref_bind; [exact Ho0|]. cbn [obj]. destruct b as [| | |cl|t|th|p]; try done; cbn [obj].
  - apply wp_modify. change (setg_gray gray _) with (pop o gray g).
    eapply wp_seq; [apply wp_never; by eapply (marker_closure cl o)|]. intros [] g' [HM Hn]. apply wp_ret.
    eapply visit_Ev; [done..|]. eapply scanned_since; [exact Hok0|exact HM|exact Ho0|done].
  - apply wp_modify. change (setg_gray gray _) with (pop o gray g).
    eapply wp_seq; [apply wp_never; by eapply (wp_traversetable o)|].
    intros w g3 (g1 & wk & wv & HM1 & HM3 & -> & Hn).
    destruct (visit_table_Ev g o gray m t g1 wk wv g3 Hok Hgray Ho HM1 HM3 Hn) as (HE & Hwk & m4 & t4 & Ho4).
    eapply (wp_seq _ _ (fun _ g4 => g4 = if wk || wv then mark_at o black2gray g3 else g3)).
    { apply wp_when; intros ->; done. }
    intros [] g4 ->. apply wp_bind. eapply wp_gco2h; [exact Ho4|]. by apply wp_ret.
  - apply wp_modify, wp_modify.
    match goal with |- wp _ _ _ ?s => change s with (aside g o gray) end.
    assert (Hoa : gc_heap (aside g o gray) !! o = Some (mkObj (black2gray (gray2black m)) (BThread th))).
    { unfold aside, pop, mark_at. cbn. by rewrite !lookup_alter_eq, Ho. }
    pose proof (heap_sim_ok _ _ (aside_sim g o gray _ Ho) Hok0) as Hoka.
    eapply wp_seq; [by apply (marker_thread th o _ _ Hoka Hoa)|]. intros [] g' [HM Hn].
    destruct (heap_sim_Some _ _ _ _ (mk_sim _ _ _ HM) Hoa) as ([m' b'] & Ho' & Hb & _). cbn in Hb. destruct b' as [| | | | |th'|]; try done.
    apply wp_bind. eapply wp_gco2th; [exact Ho'|]. apply wp_ret.
    eapply visit_thread_Ev; [done..|]. eapply scanned_since; [exact Hoka|exact HM|exact Hoa|done].
  - apply wp_modify. change (setg_gray gray _) with (pop o gray g).
    eapply wp_seq; [apply wp_never; by eapply (marker_proto p o)|]. intros [] g' [HM Hn]. apply wp_ret.
    eapply visit_Ev; [done..|]. eapply scanned_since; [exact Hok0|exact HM|exact Ho0|done].
Qed.

Lemma Ev_names g g' : Ev g g' -> names_ok g -> names_ok g'.
Proof.
  intros HE. assert (E : gc_tmname g' = gc_tmname g) by exact (f_equal gc_tmname (ev_frame _ _ HE)).
  unfold names_ok. by rewrite E.
Qed.

Lemma propagate_loop_spec fuel n g :
  heap_ok (gc_heap g) -> lists_ok g -> names_ok g -> (work g < fuel)%nat ->
  wp (propagate_loop fuel n) (fun _ g' => Ev g g' /\ gc_gray g' = []) mem_err g.
Proof.
  revert n g. induction fuel as [|fuel IH]; intros n g Hok Hl Hnames Hf; [lia|]. cbn [propagate_loop]. apply wp_get.
  destruct (gc_gray g) as [|o gray] eqn:Hgray; [split; [apply Ev_refl|done]|].
  eapply wp_seq; [apply propagatemark_spec; [done..|by rewrite Hgray]|]. intros k g1 [HE Hw].
  eapply wp_mono; [apply IH| |done].
  - eapply heap_sim_ok; [apply HE|done].
  - by apply HE.
  - by eapply Ev_names.
  - lia.
  - intros r g2 [HE2 Hg2]. split; [by eapply Ev_trans|done].
Qed.

Lemma propagateall_spec g :
  heap_ok (gc_heap g) -> lists_ok g -> names_ok g ->
  wp propagateall (fun _ g' => Ev g g' /\ gc_gray g' = []) mem_err g.
Proof.
  intros Hok Hl Hnames. unfold propagateall. apply wp_get, propagate_loop_spec; [done..|].
  unfold work. assert (size (whites (gc_heap g)) <= size (gc_heap g))%nat; [|lia].
  unfold whites. rewrite <- size_dom. apply subseteq_size, dom_filter_subseteq.
Qed.
End propagate.
