(* ===== verification/GcAtomic.v ===== *)
(** * GcAtomic.v: the atomic end of the mark phase

    After [atomic], what is not white refers only to what is not white, with
    no exceptions: gray threads, open upvalues and weak tables were visited
    again, and weak tables were cleared.  So the objects that the flip of the
    current white declares dead are not reachable. *)

From S2P Require Import Prelude Machine Object Mem Zio Table TableInv TableSet Gc Func Collect GcInv GcMark GcTraverse GcPropagate.

Section atomic.
Context `{Krealloc} `{StringHash}.
Implicit Types (g : gstate) (a : Z) (P : Z -> Prop).

(** ** Upvalues *)

Lemma isgray_grey m : isgray m = true <-> grey m.
Proof. unfold isgray, grey. destruct (isblack m), (iswhite m); cbn; intuition congruence. Qed.

Lemma typed_upval g uv : has_type (gc_heap g) (LUA_TUPVAL, uv) -> exists m u, gc_heap g !! uv = Some (mkObj m (BUpVal u)).
Proof. intros ([m b] & Ho & Ht). cbn in *. destruct b; try done. by eexists _, _. Qed.

Lemma Mk_grey g g' a o o' : Mk [] g g' -> gc_heap g !! a = Some o -> gc_heap g' !! a = Some o' -> grey (marked o) -> grey (marked o').
Proof.
  intros HM Ho Ho' Hg. split; [|eapply (mk_black _ _ _ HM); try done; set_solver].
  destruct (heap_sim_Some _ _ _ _ (mk_sim _ _ _ HM) Ho) as (x & Hx & _ & Hw). simplify_eq. apply Hw, Hg.
Qed.

Lemma wp_remark l g :
  heap_ok (gc_heap g) -> (forall uv, uv ∈ l -> has_type (gc_heap g) (LUA_TUPVAL, uv)) ->
  wp (mfor l (fun uv => o ← deref uv; when (isgray (marked o)) (u ← gco2uv uv; v ← uv_value u; markvalue v)))
    (fun _ g' => Mk [] g g' /\ forall uv o, uv ∈ l -> gc_heap g !! uv = Some o -> grey (marked o) -> scanned g' uv) never g.
Proof.
  revert g. induction l as [|uv l IH]; intros g Hok Ht.
  - split; [apply Mk_refl|]. intros uv o Huv. by apply elem_of_nil in Huv.
  - destruct (typed_upval g uv (Ht uv ltac:(by left))) as (m & u & Ho).
    cbn [mfor]. eapply (wp_seq _ _ (fun _ g1 => Mk [] g g1 /\ (grey m -> scanned g1 uv))).
    + eapply wp_deref_bind; [done|]. cbn [marked]. destruct (isgray m) eqn:Hg; cbn [when].
      * unfold gco2uv. apply wp_assoc. eapply wp_deref_bind; [done|]. apply wp_bind, wp_ret.
        destruct (uv_value_spec uv u m g Hok Ho) as (v & Hv & Hrefs). apply wp_bind. eapply wp_ok; [exact Hv|].
        destruct (Hok uv _ Ho) as [_ Hty]. cbn [obj] in Hty. rewrite Hrefs in Hty.
        eapply wp_mono; [by apply (marker_value v g Hok)| |done]. intros [] g1 [HM1 Hn1]. split; [done|].
        intros _. eapply (scanned_since [] g g1 uv _ Hok HM1 Ho). cbn [obj]. by rewrite Hrefs.
      * split; [apply Mk_refl|]. intros Hgr. by rewrite (proj2 (isgray_grey m) Hgr) in Hg.
    + intros [] g1 [HM1 Hs1]. pose proof (heap_sim_ok _ _ (mk_sim _ _ _ HM1) Hok) as Hok1.
      eapply wp_mono; [apply (IH g1 Hok1)| |done].
      * intros x Hx. eapply heap_sim_has_type; [apply HM1|]. apply Ht. by right.
      * intros [] g2 [HM2 Hs2]. split; [by eapply Mk_trans|]. intros x o [->|Hx]%elem_of_cons Hxo Hgr.
        -- rewrite Ho in Hxo. injection Hxo as <-. eapply Mk_scanned; [done..|]. by apply Hs1.
        -- destruct (heap_sim_Some _ _ _ _ (mk_sim _ _ _ HM1) Hxo) as (o1 & Ho1 & _). apply (Hs2 x o1 Hx Ho1). exact (Mk_grey g g1 x o o1 HM1 Hxo Ho1 Hgr).
Qed.

(** ** The lists that were put aside *)

Definition none : Z -> Prop := fun _ => False.

Lemma requeue_weak P g :
  gc_gray g = [] -> TC (fun a => P a \/ a ∈ gc_weak g) g -> TC P (setg_weak [] (setg_gray (gc_weak g) g)).
Proof.
  intros Hgr Htc a o Ho Hw. cbn in *. destruct (Htc a o Ho Hw) as [Hin|[[?|?]|Hs]]; [|by right; left|by left|].
  - rewrite Hgr in Hin. by apply elem_of_nil in Hin.
  - destruct (decide (a ∈ gc_weak g)) as [Hin|Hin]; [by left|]. right; right. intros o' Ho' r Hr. apply (Hs o' Ho').
    unfold srefs in *. cbn in *. rewrite decide_False in Hr by set_solver. by rewrite decide_False.
Qed.

Lemma requeue_grayagain g :
  gc_gray g = [] -> TC (fun a => a ∈ gc_grayagain g) g -> TC none (setg_grayagain [] (setg_gray (gc_grayagain g) g)).
Proof.
  intros Hgr Htc a o Ho Hw. cbn in *. destruct (Htc a o Ho Hw) as [Hin|[?|Hs]]; [|by left|].
  - rewrite Hgr in Hin. by apply elem_of_nil in Hin.
  - right; right. exact Hs.
Qed.

Lemma TC_mono P Q g : (forall a, P a -> Q a) -> TC P g -> TC Q g.
Proof. intros HPQ Htc a o Ho Hw. destruct (Htc a o Ho Hw) as [?|[?|?]]; auto. Qed.

Lemma requeue_weak_lists g : gc_gray g = [] -> lists_ok g -> lists_ok (setg_weak [] (setg_gray (gc_weak g) g)).
Proof.
  intros Hgr [Hnd Hl]. unfold lists_ok, lists_with, lists in *. cbn in *. rewrite Hgr, app_nil_r in *. cbn in *.
  split; [by rewrite (Permutation_app_comm (gc_weak g))|]. intros a Ha. apply Hl. set_solver.
Qed.
Lemma requeue_grayagain_lists g : gc_gray g = [] -> lists_ok g -> lists_ok (setg_grayagain [] (setg_gray (gc_grayagain g) g)).
Proof. intros Hgr [Hnd Hl]. unfold lists_ok, lists_with, lists in *. cbn in *. rewrite Hgr in *. done. Qed.

(** ** Userdata to be finalised *)

Lemma typed_userdata g u : has_type (gc_heap g) (LUA_TUSERDATA, u) ->
  exists m mt env len, gc_heap g !! u = Some (mkObj m (BUserdata mt env len)).
Proof. intros ([m b] & Ho & Ht). cbn in *. destruct b; try done. by eexists _, _, _, _. Qed.

Lemma Mk_finalized a g m mt env len :
  gc_heap g !! a = Some (mkObj m (BUserdata mt env len)) -> Mk [] g (mark_at a markfinalized g).
Proof.
  intros Ho. assert (Hw : iswhite (markfinalized m) = iswhite m) by by marks.
  assert (Hb : isblack (markfinalized m) = isblack m) by by marks.
  eapply (Mk_alter [] a _ g _ Ho); cbn; unfold grey; rewrite ?Hw, ?Hb; try tauto; try congruence.
  split; cbn; [done|by rewrite Hw].
Qed.

Lemma opt_ptr_typed g a m mt env len t :
  heap_ok (gc_heap g) -> gc_heap g !! a = Some (mkObj m (BUserdata mt env len)) -> opt_ptr mt = Some t ->
  has_type (gc_heap g) (LUA_TTABLE, t).
Proof.
  intros Hok Ho Hmt. destruct (Hok a _ Ho) as [_ Ht]. apply Ht. cbn. unfold opt_ptr, pref in *.
  destruct (mt =? NULL); [done|]. injection Hmt as ->. set_solver.
Qed.

Lemma wp_separate_loop all p g :
  heap_ok (gc_heap g) -> TM_GC < zlen (gc_tmname g) -> (forall u, u ∈ p -> has_type (gc_heap g) (LUA_TUSERDATA, u)) ->
  wp (separate_loop all p) (fun r g' => Mk [] g g' /\ r.1.1 ++ r.1.2 ≡ₚ p) never g.
Proof.
  revert g. induction p as [|curr p IH]; intros g Hok Hn Ht.
  - split; [apply Mk_refl|done].
  - destruct (typed_userdata g curr (Ht curr ltac:(by left))) as (m & mt & env & len & Ho).
    cbn [separate_loop]. eapply wp_deref_bind; [done|]. cbn [obj marked]. case_if.
    + eapply wp_seq; [apply (IH g Hok Hn); intros u Hu; apply Ht; by right|]. intros [[stay dead] n] g' [HM Hp].
      apply wp_ret. split; [done|]. cbn in *. by rewrite Hp.
    + eapply wp_seq; [apply (wp_gfasttm (opt_ptr mt) TM_GC g Hok)|].
      { unfold TM_GC in *. lia. }
      { intros t Hmt. by eapply opt_ptr_typed. }
      intros tm g1 [HM1 _]. apply wp_modify.
      destruct (heap_sim_Some _ _ _ _ (mk_sim _ _ _ HM1) Ho) as ([m1 b1] & Ho1 & Hb1 & _). cbn in Hb1. subst b1.
      fold (mark_at curr markfinalized g1). pose proof (Mk_finalized curr g1 _ _ _ _ Ho1) as HM2.
      pose proof (Mk_trans _ _ _ _ Hok HM1 HM2) as HM. pose proof (heap_sim_ok _ _ (mk_sim _ _ _ HM) Hok) as Hok2.
      assert (Hn2 : gc_tmname (mark_at curr markfinalized g1) = gc_tmname g) by exact (f_equal gc_tmname (mk_rest _ _ _ HM)).
      eapply wp_seq; [apply (IH _ Hok2); [by rewrite Hn2|]|].
      { intros u Hu. eapply heap_sim_has_type; [apply HM|]. apply Ht. by right. }
      intros [[stay dead] n] g' [HM3 Hp]. cbn in Hp.
      destruct tm; apply wp_ret; (split; [by eapply Mk_trans|]); cbn; rewrite <- Hp; [by rewrite Permutation_middle|done].
Qed.

Lemma makewhite_white g m : iswhite (luaC_white g) = true -> iswhite (makewhite g m) = true.
Proof.
  unfold luaC_white. intros Hw. rewrite iswhite_bits in *. rewrite !makewhite_spec by lia.
  rewrite !uwrap_spec, !Z.land_spec in Hw by lia. change (Z.testbit maskmarks 0) with false. change (Z.testbit maskmarks 1) with false.
  rewrite !andb_false_r. cbn [orb]. change (Z.testbit WHITEBITS 0) with true in Hw. change (Z.testbit WHITEBITS 1) with true in Hw.
  cbn in *. by rewrite ?andb_true_r in *.
Qed.

(** *** A userdata that may have been marked is marked again *)

Section whiten.
Context (g : gstate) (u m mt env len : Z).
Context (Hok : heap_ok (gc_heap g)) (Ho : gc_heap g !! u = Some (mkObj m (BUserdata mt env len))).
Context (Hcw : iswhite (luaC_white g) = true).

Definition whiten : gstate := mark_at u (makewhite g) g.

Lemma whiten_at : gc_heap whiten !! u = Some (mkObj (makewhite g m) (BUserdata mt env len)).
Proof. exact (mark_at_lookup u (makewhite g) g _ Ho). Qed.

Lemma whiten_ne a : a <> u -> gc_heap whiten !! a = gc_heap g !! a.
Proof. intros Ha. cbn. by apply lookup_alter_ne. Qed.

Lemma whiten_obj a o1 : gc_heap whiten !! a = Some o1 -> exists o, gc_heap g !! a = Some o /\ obj o = obj o1.
Proof.
  intros Ha. destruct (decide (a = u)) as [->|Hne]; [|exists o1; by rewrite <- whiten_ne].
  rewrite whiten_at in Ha. injection Ha as <-. by eexists.
Qed.

Lemma whiten_obj_r a o : gc_heap g !! a = Some o -> exists o1, gc_heap whiten !! a = Some o1 /\ obj o1 = obj o.
Proof.
  intros Ha. destruct (decide (a = u)) as [->|Hne]; [|exists o; by rewrite whiten_ne].
  rewrite Ho in Ha. injection Ha as <-. rewrite whiten_at. by eexists.
Qed.

Lemma whiten_refs wk wv b : refs_with wk wv (gc_heap whiten) b = refs_with wk wv (gc_heap g) b.
Proof.
  destruct b as [| |[th l|]| | | |]; try done. cbn [refs_with]. unfold stack_value.
  destruct (decide (th = u)) as [->|Hne]; [by rewrite Ho, whiten_at|by rewrite whiten_ne].
Qed.

Lemma whiten_ok : heap_ok (gc_heap whiten).
Proof.
  intros a o1 Ho1. destruct (whiten_obj a o1 Ho1) as (o & Hao & <-). destruct (Hok a o Hao) as [Hsh Hr]. split.
  - destruct (obj o) as [| |[th level|]| | | |]; try done. destruct Hsh as (mm & t & Hth & Hlv). exists mm, t. split; [|done].
    rewrite whiten_ne; [done|]. intros ->. by rewrite Ho in Hth.
  - intros r Hin. unfold refs in Hin. rewrite whiten_refs in Hin. destruct (Hr r Hin) as (x & Hx & Htx).
    destruct (whiten_obj_r _ _ Hx) as (x1 & Hx1 & Ex). exists x1. split; [done|by rewrite Ex].
Qed.

Lemma whiten_whiteb a : a <> u -> whiteb (gc_heap whiten) a = whiteb (gc_heap g) a.
Proof. intros Ha. unfold whiteb. by rewrite whiten_ne. Qed.

Lemma whiten_white : whiteb (gc_heap whiten) u = true.
Proof. unfold whiteb. rewrite whiten_at. by apply makewhite_white. Qed.

Context (g2 : gstate) (HM : Mk [] whiten g2) (Hu : whiteb (gc_heap g2) u = false).

Lemma remark_sim : heap_sim (gc_heap g) (gc_heap g2).
Proof.
  intros a. destruct (decide (a = u)) as [->|Hne].
  - destruct (heap_sim_Some _ _ _ _ (mk_sim _ _ _ HM) whiten_at) as ([m2 b2] & Ho2 & Hb2 & _). cbn in Hb2. subst b2.
    rewrite Ho, Ho2. cbn. split; [done|]. intros _. unfold whiteb in Hu. by rewrite Ho2 in Hu.
  - rewrite <- whiten_ne by done. apply (mk_sim _ _ _ HM).
Qed.

Lemma remark_new a : whiteb (gc_heap whiten) a = true -> listed g2 a -> a <> u /\ whiteb (gc_heap g) a = true.
Proof.
  intros Hw Hli. assert (a <> u); [|by rewrite <- whiten_whiteb].
  intros ->. destruct Hli as (o & Hoo & _ & Htr).
  destruct (heap_sim_Some _ _ _ _ (mk_sim _ _ _ HM) whiten_at) as (o2 & Ho2 & Hb2 & _).
  cbn in Hb2. rewrite Hoo in Ho2. injection Ho2 as <-. by rewrite Hb2 in Htr.
Qed.

Lemma remark_listed a : listed g a -> listed g2 a.
Proof.
  intros (o & Hoo & Hw & Htr). destruct (heap_sim_Some _ _ _ _ remark_sim Hoo) as (o2 & Ho2 & Hb2 & Hw2).
  exists o2. split_and!; [done|auto|]. destruct (obj o), (obj o2); cbn in *; congruence || done.
Qed.

Lemma remark_lists_eq : exists new, gc_gray g2 = new ++ gc_gray g /\ lists g2 = new ++ lists g /\ NoDup new /\
  forall a, a ∈ new -> whiteb (gc_heap g) a = true /\ listed g2 a.
Proof.
  destruct (mk_gray _ _ _ HM) as (new & Egray & Hnd & Hnew). exists new. split_and!; [done| |done|].
  - unfold lists. by rewrite Egray, (rest_grayagain _ _ (mk_rest _ _ _ HM)), (rest_weak _ _ (mk_rest _ _ _ HM)), <- app_assoc.
  - intros a Ha. destruct (Hnew a Ha) as [Hw Hli]. by destruct (remark_new a Hw Hli).
Qed.

Lemma remark_TC P : TC P g -> TC P g2.
Proof.
  intros Htc a o2 Ho2 Hw2. destruct (whiteb (gc_heap whiten) a) eqn:Ew1.
  { assert (Hw2' : whiteb (gc_heap g2) a = false) by (unfold whiteb; by rewrite Ho2).
    destruct (mk_new _ _ _ HM a ltac:(set_solver) Ew1 Hw2'); auto. }
  assert (a <> u) as Hne by (intros ->; by rewrite whiten_white in Ew1).
  destruct (heap_sim_Some_r _ _ _ _ remark_sim Ho2) as (o & Hoo & _). assert (Hw : iswhite (marked o) = false).
  { rewrite whiten_whiteb in Ew1 by done. unfold whiteb in Ew1. by rewrite Hoo in Ew1. }
  destruct (mk_gray _ _ _ HM) as (new & Egray & _).
  destruct (Htc a o Hoo Hw) as [Hin|[?|Hsc]]; [left; rewrite Egray; set_solver|by right; left|right; right].
  intros o2' Ho2' r Hr. rewrite Ho2 in Ho2'. injection Ho2' as <-.
  destruct (decide (r.2 = u)) as [->|Hru]; [done|]. eapply heap_sim_whiteb; [apply HM|]. rewrite whiten_whiteb by done. apply (Hsc o Hoo).
  assert (Ho1 : gc_heap whiten !! a = Some o) by by rewrite whiten_ne.
  rewrite (srefs_sim whiten g2 a o o2 whiten_ok (mk_sim _ _ _ HM) (rest_weak _ _ (mk_rest _ _ _ HM)) Ho1 Ho2) in Hr.
  2: { intros t Et. destruct o as [mo bo]; cbn in Et; subst bo. by apply (mk_bits _ _ _ HM a mo t o2). }
  unfold srefs in *. change (gc_weak whiten) with (gc_weak g) in Hr. unfold refs in *. by rewrite !whiten_refs in Hr.
Qed.

Lemma remark_lists L : lists_with L g -> lists_with L g2.
Proof.
  intros [Hnd0 Hl0]. destruct remark_lists_eq as (new & _ & Hlists & Hnd & Hnu). unfold lists_with. rewrite Hlists. split.
  - rewrite app_assoc, (Permutation_app_comm L new), <- app_assoc. apply NoDup_app. split_and!; [done| |done].
    intros a Ha Hin. destruct (Hnu a Ha) as (Hw & _). by rewrite (listed_white g a (Hl0 a Hin)) in Hw.
  - intros a Ha. rewrite !elem_of_app in Ha.
    destruct Ha as [Ha|[Ha|Ha]]; [apply remark_listed, Hl0; set_solver|by apply Hnu|apply remark_listed, Hl0; set_solver].
Qed.

Lemma remark_grays L : grays_with L g -> grays_with L g2.
Proof.
  destruct remark_lists_eq as (new & Egray & Hlists & _). intros Hg a o2 Ho2 Hgr.
  destruct (mk_grey _ _ _ HM a o2 ltac:(set_solver) Ho2 Hgr) as [Hin|[Hun|(o1 & Ho1 & Hg1)]]; [left; unfold lists; set_solver|by right|].
  assert (a <> u) as Hne.
  { intros ->. rewrite whiten_at in Ho1. injection Ho1 as <-. destruct Hg1 as [Hw _]. cbn in Hw. by rewrite makewhite_white in Hw. }
  rewrite whiten_ne in Ho1 by done. destruct (Hg a o1 Ho1 Hg1) as [Hin|Hun]; [left; rewrite Hlists; set_solver|right].
  destruct (heap_sim_Some _ _ _ _ remark_sim Ho1) as (o2' & Ho2' & Hb & _). rewrite Ho2 in Ho2'. injection Ho2' as <-.
  destruct (obj o1) as [| |[]| | | |]; try done; cbn in Hb; by rewrite Hb.
Qed.

Lemma remark_work : (work g2 <= work g)%nat.
Proof.
  destruct remark_lists_eq as (new & Egray & _ & Hnd & Hnu). unfold work. rewrite Egray, length_app.
  assert (Hsz : (size (whites (gc_heap g2)) + length new <= size (whites (gc_heap g)))%nat); [|lia].
  rewrite <- (size_list_to_set (C := gset Z) new Hnd), <- size_union.
  - apply subseteq_size. apply union_subseteq. split; [apply whites_sim, remark_sim|].
    intros a Ha%elem_of_list_to_set. by apply elem_of_whites, Hnu.
  - intros a Ha%elem_of_whites Ha'%elem_of_list_to_set. destruct (Hnu a Ha') as (_ & Hli). by rewrite (listed_white _ _ Hli) in Ha.
Qed.

Lemma remark_upvals : grey_upvals g g2.
Proof.
  intros a mm v Ha Hg. apply (Mk_grey_upvals [] whiten g2 ltac:(set_solver) HM a mm v); [|done].
  rewrite whiten_ne; [done|]. intros ->. congruence.
Qed.

Lemma remark_Ev : Ev g g2.
Proof.
  split; [|exact remark_sim|exact remark_TC|exact remark_lists|exact remark_grays|..|exact remark_work|exact remark_upvals].
  - transitivity (frame whiten); [by apply rest_frame, (mk_rest _ _ _ HM)|done].
  - by rewrite (rest_grayagain _ _ (mk_rest _ _ _ HM)).
  - by rewrite (rest_weak _ _ (mk_rest _ _ _ HM)).
  - intros Hwt a. rewrite (rest_weak _ _ (mk_rest _ _ _ HM)). intros Ha. eapply is_table_sim; [exact remark_sim|]. by apply Hwt.
Qed.
End whiten.

Lemma wp_remark_userdata u g :
  heap_ok (gc_heap g) -> iswhite (luaC_white g) = true -> has_type (gc_heap g) (LUA_TUSERDATA, u) ->
  wp (g0 ← get; upd_marked u (makewhite g0);; reallymarkobject u) (fun _ g' => Ev g g' /\ whiteb (gc_heap g') u = false) never g.
Proof.
  intros Hok Hcw Ht. destruct (typed_userdata g u Ht) as (m & mt & env & len & Ho). apply wp_get, wp_modify.
  fold (mark_at u (makewhite g) g). fold (whiten g u). pose proof (whiten_at g u m mt env len Ho) as Ho1.
  eapply wp_mono; [apply (reallymark_spec 3 u _ _ (whiten_ok g u m mt env len Hok Ho) Ho1)| |done].
  - by apply makewhite_white.
  - cbn. lia.
  - intros [] g2 [HM Hu]. split; [|done]. by apply (remark_Ev g u m mt env len Hok Ho Hcw).
Qed.

Lemma wp_marktmu l g :
  heap_ok (gc_heap g) -> iswhite (luaC_white g) = true -> (forall u, u ∈ l -> has_type (gc_heap g) (LUA_TUSERDATA, u)) ->
  wp (mfor l (fun u => g0 ← get; upd_marked u (makewhite g0);; reallymarkobject u))
    (fun _ g' => Ev g g' /\ forall u, u ∈ l -> whiteb (gc_heap g') u = false) never g.
Proof.
  revert g. induction l as [|u l IH]; intros g Hok Hcw Ht.
  - split; [apply Ev_refl|]. intros u Hu. by apply elem_of_nil in Hu.
  - cbn [mfor]. eapply wp_seq; [apply (wp_remark_userdata u g Hok Hcw); apply Ht; by left|].
    intros [] g1 [HE1 Hu1]. eapply wp_mono; [apply (IH g1)| |done].
    + eapply heap_sim_ok; [apply HE1|done].
    + pose proof (f_equal gc_currentwhite (ev_frame _ _ HE1)) as E. cbn in E. unfold luaC_white in *. by rewrite E.
    + intros v Hv. eapply heap_sim_has_type; [apply HE1|]. apply Ht. by right.
    + intros [] g2 [HE2 Hu2]. split; [by eapply Ev_trans|]. intros v [->|Hv]%elem_of_cons; [|auto].
      eapply heap_sim_whiteb; [apply HE2|done].
Qed.

(** ** The phases *)

(** The collector in the mark phase; [P] are the objects to be visited when
    the gray list is empty. *)
Record marking (P : Z -> Prop) (g : gstate) : Prop := {
  mg_ok : heap_ok (gc_heap g);
  mg_lists : lists_ok g;
  mg_names : names_ok g;
  mg_weakt : weak_tables g;
  mg_white : iswhite (luaC_white g) = true;
  mg_tc : TC P g;
}.

Lemma frame_white g g' : frame g' = frame g -> luaC_white g' = luaC_white g.
Proof. intros E. exact (f_equal luaC_white E). Qed.

Lemma marking_Ev P g g' : Ev g g' -> marking P g -> marking P g'.
Proof.
  intros HE []. split.
  - eapply heap_sim_ok; [apply HE|done].
  - by apply HE.
  - by eapply Ev_names.
  - by apply HE.
  - by rewrite (frame_white _ _ (ev_frame _ _ HE)).
  - by apply HE.
Qed.

Lemma marking_mono P Q g : (forall a, P a -> Q a) -> marking P g -> marking Q g.
Proof. intros HPQ []. split; try done. by eapply TC_mono. Qed.

Lemma wp_propagateall {B} P (k : Z -> M gstate B) g (Q : B -> gstate -> Prop) :
  marking P g -> (forall n g', Ev g g' -> marking P g' -> gc_gray g' = [] -> wp (k n) Q mem_err g') -> wp (propagateall ≫= k) Q mem_err g.
Proof.
  intros Hm Hk. eapply wp_seq; [apply propagateall_spec; apply Hm|]. intros n g' [HE Hg]. apply Hk; [done| |done]. by eapply marking_Ev.
Qed.

Definition grey_at (g : gstate) (a : Z) : Prop := exists o, gc_heap g !! a = Some o /\ grey (marked o).

(** What may be left to visit when the gray list gets empty. *)
Definition pending (g : gstate) (a : Z) : Prop :=
  a ∈ gc_grayagain g \/ a ∈ gc_weak g \/ a ∈ gc_uvhead g /\ grey_at g a.

Lemma wp_phase_upvals {B} (k : M gstate B) g (Q : B -> gstate -> Prop) :
  marking (pending g) g -> (forall uv, uv ∈ gc_uvhead g -> has_type (gc_heap g) (LUA_TUPVAL, uv)) ->
  (forall g', Ev g g' -> marking (fun a => a ∈ gc_grayagain g' \/ a ∈ gc_weak g') g' -> gc_gray g' = [] -> wp k Q mem_err g') ->
  wp (remarkupvals;; propagateall;; k) Q mem_err g.
Proof.
  intros Hm Ht Hk. apply wp_bind. unfold remarkupvals. apply wp_gets. apply wp_never.
  eapply wp_mono; [apply (wp_remark _ g (mg_ok _ _ Hm) Ht)| |by intros ? []]. intros [] g1 [HM Hs].
  pose proof (Mk_Ev _ _ (mg_ok _ _ Hm) HM) as HE. pose proof (marking_Ev _ _ _ HE Hm) as Hm1.
  assert (Hm2 : marking (fun a => a ∈ gc_grayagain g \/ a ∈ gc_weak g) g1).
  { split; try apply Hm1. intros a o Ho Hw. destruct (mg_tc _ _ Hm1 a o Ho Hw) as [?|[[?|[?|[Hin (x & Hx & Hg)]]]|?]]; auto.
    right; right. by eapply Hs. }
  eapply wp_propagateall; [exact Hm2|]. intros _ g2 HE2 Hm3 Hgr. pose proof (Ev_trans _ _ _ HE HE2) as HE3.
  apply Hk; [done| |done]. eapply marking_mono; [|exact Hm3]. intros a [Ha|Ha]; [left; by apply HE3|right; by apply HE3].
Qed.

Lemma wp_marker {B} P m rs (k : M gstate B) g (Q : B -> gstate -> Prop) :
  marker m rs -> marking P g -> (forall r, r ∈ rs -> has_type (gc_heap g) r) ->
  (forall g', Ev g g' -> marking P g' -> all_nonwhite rs g' -> wp k Q mem_err g') -> wp (m;; k) Q mem_err g.
Proof.
  intros Hm Hg Ht Hk. apply wp_bind. apply wp_never. eapply wp_mono; [apply (Hm g (mg_ok _ _ Hg) Ht)| |by intros ? []].
  intros [] g' [HM Hn]. pose proof (Mk_Ev _ _ (mg_ok _ _ Hg) HM) as HE. apply Hk; [done| |done]. by eapply marking_Ev.
Qed.

Definition mt_refs (g : gstate) : list ref := gc_mt g ≫= pref LUA_TTABLE.

Lemma wp_phase_weak {B} l (k : M gstate B) g (Q : B -> gstate -> Prop) :
  marking (fun a => a ∈ gc_grayagain g \/ a ∈ gc_weak g) g -> gc_gray g = [] ->
  (forall r, r ∈ (LUA_TTHREAD, l) :: mt_refs g -> has_type (gc_heap g) r) ->
  (forall g', frame g' = frame g -> heap_sim (gc_heap g) (gc_heap g') -> marking (fun a => a ∈ gc_grayagain g') g' -> gc_gray g' = [] ->
     all_nonwhite ((LUA_TTHREAD, l) :: mt_refs g) g' -> wp k Q mem_err g') ->
  wp (modify (fun g => setg_weak [] (setg_gray (gc_weak g) g));; markobject l;; markmt;; propagateall;; k) Q mem_err g.
Proof.
  intros Hm Hgr Ht Hk. apply wp_modify. set (g1 := setg_weak [] (setg_gray (gc_weak g) g)).
  assert (Hm1 : marking (fun a => a ∈ gc_grayagain g) g1).
  { destruct Hm. split; try done; [by apply requeue_weak_lists|by intros a Ha%elem_of_nil|by apply requeue_weak]. }
  eapply (wp_marker _ _ [(LUA_TTHREAD, l)]); [apply marker_object|exact Hm1|intros r ->%list_elem_of_singleton; apply Ht; by left|].
  intros g2 HE2 Hm2 Hn2. unfold markmt at 1. apply wp_assoc, wp_gets.
  assert (Hmt : gc_mt g2 = gc_mt g) by exact (f_equal gc_mt (ev_frame _ _ HE2)).
  rewrite Hmt. eapply (wp_marker _ _ (mt_refs g)); [|exact Hm2| |].
  { apply marker_mfor. intros v _. apply marker_unless_null, marker_object. }
  { intros r Hr. eapply heap_sim_has_type; [apply HE2|]. apply Ht. by right. }
  intros g3 HE3 Hm3 Hn3. eapply wp_propagateall; [exact Hm3|]. intros _ g4 HE4 Hm4 Hgr4.
  pose proof (Ev_trans _ _ _ HE2 (Ev_trans _ _ _ HE3 HE4)) as HE. apply Hk.
  - exact (ev_frame _ _ HE).
  - exact (ev_sim _ _ HE).
  - eapply marking_mono; [|exact Hm4]. intros a Ha. by apply (ev_grayagain _ _ HE).
  - done.
  - intros r [->|Hr]%elem_of_cons.
    + eapply heap_sim_whiteb; [apply (Ev_trans _ _ _ HE3 HE4)|]. apply Hn2. by left.
    + eapply heap_sim_whiteb; [apply HE4|]. by apply Hn3.
Qed.

Lemma wp_phase_again {B} (k : M gstate B) g (Q : B -> gstate -> Prop) :
  marking (fun a => a ∈ gc_grayagain g) g -> gc_gray g = [] ->
  (forall g', frame g' = frame g -> heap_sim (gc_heap g) (gc_heap g') -> marking none g' -> gc_gray g' = [] -> wp k Q mem_err g') ->
  wp (modify (fun g => setg_grayagain [] (setg_gray (gc_grayagain g) g));; propagateall;; k) Q mem_err g.
Proof.
  intros Hm Hgr Hk. apply wp_modify. set (g1 := setg_grayagain [] (setg_gray (gc_grayagain g) g)).
  assert (Hm1 : marking none g1).
  { destruct Hm. split; try done; [by apply requeue_grayagain_lists|by apply requeue_grayagain]. }
  eapply wp_propagateall; [exact Hm1|]. intros _ g2 HE2 Hm2 Hgr2. apply Hk; [exact (ev_frame _ _ HE2)|exact (ev_sim _ _ HE2)|done..].
Qed.

(** The userdata of rootgc are split in those that stay and those to be
    finalised. *)
Lemma wp_phase_separate {B} (k : Z -> M gstate B) g (Q : B -> gstate -> Prop) roots udata :
  marking none g -> split_after (gc_mainthread g) (gc_root_swept g ++ gc_root_rest g) = Some (roots, udata) ->
  (forall u, u ∈ udata -> has_type (gc_heap g) (LUA_TUSERDATA, u)) ->
  (forall n g1 stay dead, frame g1 = frame g -> heap_sim (gc_heap g) (gc_heap g1) -> stay ++ dead ≡ₚ udata ->
     let g2 := setg_tmudata (gc_tmudata g ++ dead) (setg_rootgc [] (roots ++ stay) g1) in
     marking none g2 -> wp (k n) Q mem_err g2) ->
  wp (luaC_separateudata false ≫= k) Q mem_err g.
Proof.
  intros Hm Hsplit Ht Hk. apply wp_bind. unfold luaC_separateudata. apply wp_get. rewrite Hsplit.
  eapply wp_seq; [apply wp_never, (wp_separate_loop false udata g (mg_ok _ _ Hm)); [|exact Ht]|].
  { pose proof (mg_names _ _ Hm) as Hn. unfold names_ok, TM_MODE, TM_GC in *. lia. }
  intros [[stay dead] n] g1 [HM Hp]. cbn [fst snd] in Hp. apply wp_modify, wp_ret.
  pose proof (Mk_Ev _ _ (mg_ok _ _ Hm) HM) as HE. pose proof (marking_Ev _ _ _ HE Hm) as Hm1.
  assert (E : gc_tmudata g1 = gc_tmudata g) by exact (f_equal gc_tmudata (ev_frame _ _ HE)). rewrite E.
  apply (Hk _ g1 stay dead); [exact (ev_frame _ _ HE)|exact (ev_sim _ _ HE)|done|by destruct Hm1; split].
Qed.

Lemma wp_phase_tmu {B} (k : Z -> M gstate B) g (Q : B -> gstate -> Prop) :
  marking none g -> (forall u, u ∈ gc_tmudata g -> has_type (gc_heap g) (LUA_TUSERDATA, u)) ->
  (forall n g', Ev g g' -> marking none g' -> gc_gray g' = [] -> (forall u, u ∈ gc_tmudata g -> whiteb (gc_heap g') u = false) ->
     wp (k n) Q mem_err g') ->
  wp (marktmu;; propagateall ≫= k) Q mem_err g.
Proof.
  intros Hm Ht Hk. unfold marktmu. apply wp_assoc, wp_gets, wp_bind, wp_never.
  eapply wp_mono; [apply (wp_marktmu _ g (mg_ok _ _ Hm) (mg_white _ _ Hm) Ht)| |by intros ? []]. intros [] g1 [HE1 Hn1].
  eapply wp_propagateall; [by eapply marking_Ev|]. intros n g2 HE2 Hm2 Hgr. apply Hk; [by eapply Ev_trans|done..|].
  intros u Hu. eapply heap_sim_whiteb; [apply HE2|auto].
Qed.
End atomic.
