(* ===== verification/GcClear.v ===== *)
(** * GcClear.v: clearing weak tables

    [cleartable] leaves no reference from a weak table to an object that was
    not marked: every reference of the tables it clears is to a marked one. *)

From S2P Require Import Prelude Machine Object Mem Table TableInv TableSet Gc Func Collect GcInv GcMark GcTraverse GcPropagate.

(** What clearing does to the state: it empties entries, and marks strings. *)
Record Cl (g g' : gstate) : Prop := {
  cl_rest : setg_heap ∅ g' = setg_heap ∅ g;
  cl_clr : heap_clr (gc_heap g) (gc_heap g');
  cl_new a o' : gc_heap g' !! a = Some o' -> iswhite (marked o') = false ->
    (exists o, gc_heap g !! a = Some o /\ iswhite (marked o) = false) \/ tt_of (obj o') = LUA_TSTRING;
  cl_bits a m t o' : gc_heap g !! a = Some (mkObj m (BTable t)) -> gc_heap g' !! a = Some o' -> marked o' = m;
}.

Section clear.
Context `{Krealloc} `{StringHash}.
Implicit Types (g : gstate) (a : Z).

Lemma Cl_refl g : Cl g g.
Proof. split; [done|apply heap_clr_refl|eauto|]. intros a m t o' E E'. by simplify_eq. Qed.

Lemma Cl_table g g' a m t : Cl g g' -> gc_heap g !! a = Some (mkObj m (BTable t)) ->
  exists t', gc_heap g' !! a = Some (mkObj m (BTable t')) /\ table_clr t t'.
Proof.
  intros HC Ha. destruct (heap_clr_Some _ _ _ _ (cl_clr _ _ HC) Ha) as ([m' b'] & Ha' & Hb & _).
  pose proof (cl_bits _ _ HC _ _ _ _ Ha Ha') as E. cbn in E, Hb. subst m'. destruct b'; try done. by eexists.
Qed.

Lemma Cl_trans g1 g2 g3 : Cl g1 g2 -> Cl g2 g3 -> Cl g1 g3.
Proof.
  intros H12 H23. split.
  - by rewrite (cl_rest _ _ H23), (cl_rest _ _ H12).
  - eapply heap_clr_trans; [apply H12|apply H23].
  - intros a o3 Ho3 Hw. destruct (cl_new _ _ H23 a o3 Ho3 Hw) as [(o2 & Ho2 & Hw2)|?]; [|by right].
    destruct (cl_new _ _ H12 a o2 Ho2 Hw2) as [?|Ht]; [by left|right].
    destruct (heap_clr_Some _ _ _ _ (cl_clr _ _ H23) Ho2) as (o & Ho & Hb & _). simplify_eq. by rewrite (body_clr_tt _ _ Hb).
  - intros a m t o' Ha Ho'. destruct (Cl_table _ _ _ _ _ H12 Ha) as (t2 & Ha2 & _). by eapply (cl_bits _ _ H23).
Qed.

Lemma Cl_ok g g' : Cl g g' -> heap_ok (gc_heap g) -> heap_ok (gc_heap g').
Proof. intros HC. apply heap_clr_ok, HC. Qed.

Lemma Cl_whiteb g g' a : Cl g g' -> whiteb (gc_heap g) a = false -> whiteb (gc_heap g') a = false.
Proof.
  intros HC. pose proof (cl_clr _ _ HC a) as Ha. unfold whiteb. destruct (gc_heap g !! a), (gc_heap g' !! a); cbn in Ha; try done. apply Ha.
Qed.

Lemma Cl_nonwhite g g' rs : Cl g g' -> all_nonwhite rs g -> all_nonwhite rs g'.
Proof. intros HC Hn r Hr. eapply Cl_whiteb; [done|auto]. Qed.

Lemma Cl_string s g m str : gc_heap g !! s = Some (mkObj m (BString str)) -> Cl g (mark_at s white2gray g).
Proof.
  intros Ho. pose proof (mark_at_lookup s white2gray g _ Ho) as Ho'. cbn [marked obj] in Ho'. split.
  - done.
  - intros a. destruct (decide (a = s)) as [->|Hne].
    + rewrite Ho, Ho'. cbn. split; [done|]. intros _. apply white2gray_white.
    + cbn. rewrite lookup_alter_ne by done. apply heap_clr_refl.
  - intros a o' Ha Hw. destruct (decide (a = s)) as [->|Hne]; [right; by simplify_eq|left].
    cbn in Ha. rewrite lookup_alter_ne in Ha by done. eauto.
  - intros a mm t o' Ha Ha'. destruct (decide (a = s)) as [->|Hne]; [by simplify_eq|]. cbn in Ha'.
    rewrite lookup_alter_ne in Ha' by done. by simplify_eq.
Qed.

Lemma Cl_entry h g m t t' : gc_heap g !! h = Some (mkObj m (BTable t)) -> table_clr t t' ->
  Cl g (setg_heap (alter (fun o => mkObj (marked o) (BTable t')) h (gc_heap g)) g).
Proof.
  intros Ho Ht. split; cbn.
  - done.
  - intros a. destruct (decide (a = h)) as [->|Hne].
    + by rewrite lookup_alter_eq, Ho.
    + rewrite lookup_alter_ne by done. apply heap_clr_refl.
  - intros a o'. destruct (decide (a = h)) as [->|Hne].
    + rewrite lookup_alter_eq, Ho. intros [= <-] Hw. left. by eexists.
    + rewrite lookup_alter_ne by done. eauto.
  - intros a mm x o' Ha. destruct (decide (a = h)) as [->|Hne].
    + rewrite lookup_alter_eq, Ha. by intros [= <-].
    + rewrite lookup_alter_ne by done. intros Ha'. by simplify_eq.
Qed.

(** ** One entry *)

(** Tables stay as they are. *)
Definition same_tables (g g' : gstate) : Prop := forall a m t,
  gc_heap g !! a = Some (mkObj m (BTable t)) -> gc_heap g' !! a = Some (mkObj m (BTable t)).

Lemma iscleared_spec v iskey g :
  (forall r, r ∈ vref v -> has_type (gc_heap g) r) ->
  wp (iscleared v iskey) (fun c g' => Cl g g' /\ same_tables g g' /\ (c = false -> all_nonwhite (vref v) g')) never g.
Proof.
  intros Ht. unfold iscleared, vref in *. destruct (iscollectable v) eqn:Hc; cbn [negb].
  2: { apply wp_ret. split_and!; [apply Cl_refl|by intros ???|]. intros _ r Hr. by apply elem_of_nil in Hr. }
  destruct (Ht (ttype v, gcvalue v)) as ([m b] & Ho & Htt); [by left|]. cbn in Ho, Htt. destruct (ttisstring v) eqn:Hs.
  - destruct v; try done. destruct b as [str| | | | | |]; try done. unfold stringmark, gco2ts. apply wp_assoc, wp_assoc.
    eapply wp_deref_bind; [done|]. cbn [obj]. apply wp_bind, wp_ret, wp_modify, wp_ret.
    cbn [gcvalue] in *. fold (mark_at gc white2gray g). split_and!; [by eapply Cl_string| |].
    { intros a mm t Ha. destruct (decide (a = gc)) as [->|Hne]; [by simplify_eq|]. cbn. by rewrite lookup_alter_ne. }
    intros _ r ->%list_elem_of_singleton. by eapply grayed.
  - eapply wp_deref_bind; [done|]. apply wp_ret. split_and!; [apply Cl_refl|by intros ???|]. cbn [marked].
    intros [Hw _]%orb_false_iff r ->%list_elem_of_singleton. unfold whiteb. cbn. by rewrite Ho.
Qed.

Definition arr_done (g : gstate) (h i : Z) : Prop := forall m t v,
  gc_heap g !! h = Some (mkObj m (BTable t)) -> znth (t_array t) i = Some v -> all_nonwhite (vref v) g.
Definition node_done (g : gstate) (h i : Z) : Prop := forall m t nd,
  gc_heap g !! h = Some (mkObj m (BTable t)) -> znth (t_node t) i = Some nd -> all_nonwhite (node_refs false false nd) g.

Lemma Cl_arr_done g g' h i : Cl g g' -> is_table (gc_heap g) h -> arr_done g h i -> arr_done g' h i.
Proof.
  intros HC (m0 & t0 & Ho0) Hd m t v Ho Hv. destruct (Cl_table _ _ _ _ _ HC Ho0) as (t1 & Ho1 & Hc). rewrite Ho in Ho1. injection Ho1 as -> <-.
  unfold znth in Hv. destruct (Z.ltb_spec i 0); [done|].
  destruct (Forall2_lookup_r _ _ _ _ _ (tc_array _ _ Hc) Hv) as (v0 & Hv0 & Hvv). intros r Hr.
  eapply Cl_whiteb; [done|]. eapply (Hd _ _ v0 Ho0); [|by eapply vref_clr]. unfold znth. by destruct (Z.ltb_spec i 0); [lia|].
Qed.

Lemma Cl_node_done g g' h i : Cl g g' -> is_table (gc_heap g) h -> node_done g h i -> node_done g' h i.
Proof.
  intros HC (m0 & t0 & Ho0) Hd m t v Ho Hv. destruct (Cl_table _ _ _ _ _ HC Ho0) as (t1 & Ho1 & Hc). rewrite Ho in Ho1. injection Ho1 as -> <-.
  destruct (clr_znth _ _ (tc_node _ _ Hc) _ _ Hv) as (v0 & Hv0 & Hvv). intros r Hr.
  eapply Cl_whiteb; [done|]. eapply (Hd _ _ v0 Ho0 Hv0). by eapply node_refs_clr.
Qed.

Lemma Cl_is_table g g' h : Cl g g' -> is_table (gc_heap g) h -> is_table (gc_heap g') h.
Proof. intros HC (m & t & Ho). destruct (Cl_table _ _ _ _ _ HC Ho) as (t' & Ho' & _). by eexists _, _. Qed.

Lemma val_clr_zupd l i : Forall2 val_clr l (zupd i VNil l).
Proof.
  apply Forall2_same_length_lookup. split.
  - unfold zupd. case_if; [done|]. by rewrite length_insert.
  - intros k x y Hx Hy. rewrite <- znth_of_nat in Hx, Hy. rewrite znth_zupd in Hy.
    case_decide; [case_decide; [|done]; injection Hy as <-; by right|]. simplify_eq. by left.
Qed.

Lemma node_clr_zupd l i nd nd' : znth l i = Some nd -> node_clr nd nd' -> Forall2 node_clr l (zupd i nd' l).
Proof.
  intros Hi Hc. apply Forall2_same_length_lookup. split.
  - unfold zupd. case_if; [done|]. by rewrite length_insert.
  - intros k x y Hx Hy. rewrite <- znth_of_nat in Hx, Hy. rewrite znth_zupd in Hy. case_decide as E.
    + subst i. case_decide; [|done]. simplify_eq. done.
    + simplify_eq. by split_and!; [left|..|left].
Qed.

Lemma arr_value_typed g h m t i v :
  heap_ok (gc_heap g) -> gc_heap g !! h = Some (mkObj m (BTable t)) -> znth (t_array t) i = Some v -> i < t_sizearray t ->
  forall r, r ∈ vref v -> has_type (gc_heap g) r.
Proof.
  intros Hok Ho Hi Hlt r Hr. destruct (Hok h _ Ho) as [_ Ht]. apply Ht. cbn. rewrite !elem_of_app. right; left.
  apply list_elem_of_bind. exists v. split; [done|]. pose proof (znth_Some_lt _ _ _ Hi). unfold znth in Hi.
  destruct (Z.ltb_spec i 0); [done|]. apply list_elem_of_lookup. exists (Z.to_nat i). apply lookup_take_Some. split; [done|lia].
Qed.

Lemma clear_array_spec h i g :
  heap_ok (gc_heap g) -> (exists m t, gc_heap g !! h = Some (mkObj m (BTable t)) /\ 0 <= i < t_sizearray t) ->
  wp (clear_array h i) (fun _ g' => Cl g g' /\ arr_done g' h i) never g.
Proof.
  intros Hok (m & t & Ho & Hi). destruct (Hok h _ Ho) as [Hsh _]. cbn in Hsh. unfold clear_array.
  apply wp_bind. eapply wp_gco2h; [done|]. pose proof (to_array t Hsh) as Hsz.
  destruct (znth_is_Some (t_array t) i) as [v Hv]; [lia|].
  apply wp_bind. eapply wp_ok; [unfold array_at, lift; by rewrite Hv|].
  eapply wp_seq; [apply iscleared_spec; eapply arr_value_typed; [done..|lia]|]. intros c g1 (HC & Hsame & Hn).
  apply Hsame in Ho as Ho1. apply wp_when; intros E.
  - apply wp_bind. eapply wp_gco2h; [done|]. unfold upd_obj, wp, modify.
    assert (Hc : table_clr t (set_array (zupd i VNil (t_array t)) (t_sizearray t) t)).
    { pose proof (table_clr_refl t) as []. split; try done. cbn. apply val_clr_zupd. }
    split; [eapply Cl_trans; [done|by eapply Cl_entry]|].
    intros mm tt vv Htt Hvv. cbn in Htt. rewrite lookup_alter_eq, Ho1 in Htt. injection Htt as <- <-. cbn in Hvv.
    rewrite znth_zupd, decide_True in Hvv by done. case_decide; [|done]. injection Hvv as <-. intros r Hr. by apply elem_of_nil in Hr.
  - split; [done|]. intros mm tt vv Htt Hvv. simplify_eq. by apply Hn.
Qed.

Lemma remove_clr nd : node_clr nd (removeentry (set_val VNil nd)).
Proof.
  unfold removeentry. cbn. destruct (iscollectable (i_key nd)) eqn:E.
  - split_and!; [by right|done|right]. split_and!; [done|by intros Hk; rewrite Hk in E|by eexists].
  - split_and!; [by right|done|by left].
Qed.

Lemma clear_node_spec h i g :
  heap_ok (gc_heap g) -> (exists m t, gc_heap g !! h = Some (mkObj m (BTable t)) /\ 0 <= i < zlen (t_node t)) ->
  wp (clear_node h i) (fun _ g' => Cl g g' /\ node_done g' h i) never g.
Proof.
  intros Hok (m & t & Ho & Hi). unfold clear_node. apply wp_bind. eapply wp_gco2h; [done|].
  destruct (znth_is_Some (t_node t) i Hi) as [nd Hnd]. apply wp_bind. eapply wp_ok; [unfold array_at, lift; by rewrite Hnd|].
  apply wp_when; intros Hv.
  2: { split; [apply Cl_refl|]. intros mm tt n2 Htt Hn2. simplify_eq. unfold node_refs. apply negb_false_iff in Hv. rewrite Hv.
       intros r Hr. by apply elem_of_nil in Hr. }
  pose proof (table_value_typed g h m t i nd Hok Ho Hnd false false) as Ht. unfold node_refs in Ht. apply negb_true_iff in Hv. rewrite Hv in Ht.
  eapply wp_seq; [apply iscleared_spec; intros r Hr; apply Ht, elem_of_app; by left|]. intros c1 g1 (HC1 & Hs1 & Hn1).
  eapply (wp_seq _ _ (fun c g2 => Cl g1 g2 /\ same_tables g1 g2 /\ (c = false -> c1 = false /\ all_nonwhite (vref (i_val nd)) g2))).
  { destruct c1; [apply wp_ret; split_and!; [apply Cl_refl|by intros ???|done]|]. eapply wp_mono; [apply iscleared_spec| |done].
    - intros r Hr. eapply heap_clr_has_type; [apply HC1|]. apply Ht, elem_of_app. by right.
    - intros c g2 (HC2 & Hs2 & Hn2). split_and!; [done..|auto]. }
  intros c2 g2 (HC2 & Hs2 & Hn2). pose proof (Cl_trans _ _ _ HC1 HC2) as HC. apply Hs1, Hs2 in Ho as Ho2. apply wp_when; intros E.
  - apply wp_bind. eapply wp_gco2h; [done|]. unfold upd_obj, wp, modify.
    assert (Hc : table_clr t (set_nodes (zupd i (removeentry (set_val VNil nd)) (t_node t)) t)).
    { pose proof (table_clr_refl t) as []. split; try done. cbn. eapply node_clr_zupd; [done|apply remove_clr]. }
    split; [eapply Cl_trans; [done|by eapply Cl_entry]|].
    intros mm tt n2 Htt Hn. cbn in Htt. rewrite lookup_alter_eq, Ho2 in Htt. injection Htt as <- <-. cbn in Hn.
    rewrite znth_zupd, decide_True in Hn by done. case_decide; [|done]. injection Hn as <-.
    unfold removeentry. cbn. destruct (iscollectable (i_key nd)); intros r Hr; by apply elem_of_nil in Hr.
  - split; [done|]. destruct (Hn2 E) as [-> Hn]. intros mm tt n2 Htt Hnn. simplify_eq.
    unfold node_refs. rewrite Hv. intros r [Hr|Hr]%elem_of_app; [|by apply Hn]. eapply (Cl_whiteb g1); [done|by apply Hn1].
Qed.

(** ** The tables of the list *)

(** A loop over the entries of a table. *)
Lemma wp_clear_loop (f : Z -> M gstate unit) (D : gstate -> Z -> Prop) idx g n :
  (forall i g0, heap_ok (gc_heap g0) -> Cl g g0 -> i ∈ idx -> wp (f i) (fun _ g' => Cl g0 g' /\ D g' i) never g0) ->
  (forall g1 g2 i, Cl g g1 -> Cl g1 g2 -> D g1 i -> D g2 i) ->
  forall g0, heap_ok (gc_heap g0) -> Cl g g0 -> n ⊆ idx ->
  wp (mfor n f) (fun _ g' => Cl g0 g' /\ forall i, i ∈ n -> D g' i) never g0.
Proof.
  intros Hf HD. induction n as [|i n IH]; intros g0 Hok HC0 Hsub.
  - split; [apply Cl_refl|]. intros i Hi. by apply elem_of_nil in Hi.
  - cbn [mfor]. eapply wp_seq; [apply Hf; [done..|apply Hsub; by left]|]. intros [] g1 [HC1 Hd].
    eapply wp_mono; [apply IH| |done].
    + by eapply Cl_ok.
    + by eapply Cl_trans.
    + intros j Hj. apply Hsub. by right.
    + intros [] g2 [HC2 Hd2]. split; [by eapply Cl_trans|]. intros j [->|Hj]%elem_of_cons; [|auto].
      eapply HD; [|done..]. by eapply Cl_trans.
Qed.

Lemma wp_clear_entries h m t g :
  heap_ok (gc_heap g) -> gc_heap g !! h = Some (mkObj m (BTable t)) ->
  wp (when (testbits m (bitmask VALUEWEAKBIT)) (mfor (rev (seqZ 0 (t_sizearray t))) (clear_array h));;
      mfor (rev (seqZ 0 (sizenode t))) (clear_node h))
    (fun _ g' => Cl g g' /\ (valueweak m = true -> forall i, 0 <= i < t_sizearray t -> arr_done g' h i) /\
       forall i, 0 <= i < sizenode t -> node_done g' h i) never g.
Proof.
  intros Hok Ho. pose proof (Hok h _ Ho) as [Hsh _]. cbn in Hsh.
  assert (Hit : is_table (gc_heap g) h) by by eexists _, _.
  eapply (wp_seq _ _ (fun _ g1 => Cl g g1 /\ (valueweak m = true -> forall i, 0 <= i < t_sizearray t -> arr_done g1 h i))).
  { change (testbits m (bitmask VALUEWEAKBIT)) with (valueweak m). apply wp_when; intros Hv; [|split; [apply Cl_refl|congruence]].
    eapply wp_mono; [apply (wp_clear_loop _ (fun g i => arr_done g h i) (rev (seqZ 0 (t_sizearray t))) g); try done| |done].
    - intros i g0 Hok0 HC Hi%elem_of_rev%elem_of_seqZ. apply clear_array_spec; [done|].
      destruct (Cl_table _ _ _ _ _ HC Ho) as (t0 & Ho0 & Hc). exists m, t0. rewrite (tc_sizearray _ _ Hc). split; [done|lia].
    - intros g1 g2 i H1 H2. apply Cl_arr_done; [done|]. by eapply Cl_is_table.
    - apply Cl_refl.
    - intros [] g1 [HC Hd]. split; [done|]. intros _ i Hi. apply Hd, elem_of_rev, elem_of_seqZ. lia. }
  intros [] g1 [HC1 Hd1]. eapply wp_mono; [apply (wp_clear_loop _ (fun g i => node_done g h i) (rev (seqZ 0 (sizenode t))) g); try done| |done].
  - intros i g0 Hok0 HC Hi%elem_of_rev%elem_of_seqZ. apply clear_node_spec; [done|].
    destruct (Cl_table _ _ _ _ _ HC Ho) as (t0 & Ho0 & Hc). exists m, t0. rewrite (clr_zlen _ _ (tc_node _ _ Hc)).
    rewrite sizenode_pow in Hi by apply Hsh. rewrite (to_nodes t Hsh). split; [done|lia].
  - intros ga gb i H1 H2. apply Cl_node_done; [done|]. by eapply Cl_is_table.
  - by eapply Cl_ok.
  - intros [] g2 [HC Hd]. split_and!; [by eapply Cl_trans| |].
    + intros Hv i Hi. eapply Cl_arr_done; [done| |by apply Hd1]. by eapply Cl_is_table.
    + intros i Hi. apply Hd, elem_of_rev, elem_of_seqZ. lia.
Qed.

(** All the references of the object lead to what is not white. *)
Definition closed_at (g : gstate) (a : Z) : Prop := forall o, gc_heap g !! a = Some o -> all_nonwhite (refs (gc_heap g) (obj o)) g.

Lemma Cl_closed_at g g' a : Cl g g' -> closed_at g a -> closed_at g' a.
Proof.
  intros HC Hc o' Ho' r Hr. destruct (heap_clr_Some_r _ _ _ _ (cl_clr _ _ HC) Ho') as (o & Ho & Hb & _).
  eapply Cl_whiteb; [done|]. apply (Hc o Ho). eapply refs_clr; [apply HC|done..].
Qed.

(** The strong references of a table. *)
Definition strong_at (g : gstate) (a : Z) : Prop := forall o,
  gc_heap g !! a = Some o -> all_nonwhite (refs_with (keyweak (marked o)) (valueweak (marked o)) (gc_heap g) (obj o)) g.

Lemma Cl_strong_at g g' a : Cl g g' -> is_table (gc_heap g) a -> strong_at g a -> strong_at g' a.
Proof.
  intros HC (m & t & Ho) Hs o' Ho' r Hr. pose proof (cl_bits _ _ HC _ _ _ _ Ho Ho') as E.
  destruct (heap_clr_Some _ _ _ _ (cl_clr _ _ HC) Ho) as (o2 & Ho2 & Hb & _). rewrite Ho' in Ho2. injection Ho2 as <-.
  eapply Cl_whiteb; [done|]. apply (Hs _ Ho). cbn [marked]. rewrite E in Hr. eapply refs_clr; [apply HC|done..].
Qed.

Lemma cleared_closed g g' h m t :
  gc_heap g !! h = Some (mkObj m (BTable t)) -> table_ok t -> strong_at g h -> Cl g g' ->
  (valueweak m = true -> forall i, 0 <= i < t_sizearray t -> arr_done g' h i) ->
  (forall i, 0 <= i < sizenode t -> node_done g' h i) -> closed_at g' h.
Proof.
  intros Ho Hok Hst HC Ha Hn o' Ho'. destruct (Cl_table _ _ _ _ _ HC Ho) as (t' & Ho1 & Hc). rewrite Ho' in Ho1. injection Ho1 as ->.
  pose proof (Cl_strong_at _ _ _ HC ltac:(by eexists _, _) Hst _ Ho') as Hs. cbn in *.
  intros r [Hr|[Hr|Hr]%elem_of_app]%elem_of_app.
  - apply Hs, elem_of_app. by left.
  - destruct (valueweak m) eqn:Hv.
    + apply list_elem_of_bind in Hr as (v & Hr & Hin). apply list_elem_of_lookup in Hin as [i Hi]. apply lookup_take_Some in Hi as [Hi Hlt].
      rewrite <- znth_of_nat in Hi. eapply (Ha eq_refl (Z.of_nat i)); [|done..]. rewrite (tc_sizearray _ _ Hc) in Hlt. lia.
    + apply Hs. rewrite !elem_of_app. by right; left.
  - apply list_elem_of_bind in Hr as (nd & Hr & Hin). apply list_elem_of_lookup in Hin as [i Hi]. rewrite <- znth_of_nat in Hi.
    eapply (Hn (Z.of_nat i)); [|done..]. apply znth_Some_lt in Hi. rewrite (clr_zlen _ _ (tc_node _ _ Hc)), (to_nodes t Hok) in Hi.
    rewrite sizenode_pow by apply Hok. lia.
Qed.

Lemma cleartable_spec l g :
  heap_ok (gc_heap g) -> (forall h, h ∈ l -> is_table (gc_heap g) h /\ strong_at g h) ->
  wp (cleartable l) (fun _ g' => Cl g g' /\ forall h, h ∈ l -> closed_at g' h) never g.
Proof.
  unfold cleartable. revert g. induction l as [|h l IH]; intros g Hok Hl.
  - split; [apply Cl_refl|]. intros h Hh. by apply elem_of_nil in Hh.
  - cbn [mfor]. destruct (Hl h ltac:(by left)) as [(m & t & Ho) Hst].
    eapply (wp_seq _ _ (fun _ g1 => Cl g g1 /\ closed_at g1 h)).
    { eapply wp_deref_bind; [done|]. apply wp_bind. eapply wp_gco2h; [done|]. cbn [marked].
      eapply wp_mono; [by apply wp_clear_entries| |done]. intros [] g1 (HC & Ha & Hn). split; [done|].
      pose proof (Hok h _ Ho) as [Hsh _]. by eapply cleared_closed. }
    intros [] g1 [HC1 Hc1]. eapply wp_mono; [apply IH| |done].
    + by eapply Cl_ok.
    + intros x Hx. destruct (Hl x ltac:(by right)) as [Ht Hs]. split; [by eapply Cl_is_table|by eapply Cl_strong_at].
    + intros [] g2 [HC2 Hc2]. split; [by eapply Cl_trans|]. intros x [->|Hx]%elem_of_cons; [by eapply Cl_closed_at|auto].
Qed.
End clear.
