(* ===== verification/GcSafe.v ===== *)
(** * GcSafe.v: the collector keeps what the program can reach

    What the mark phase does not mark cannot be reached from the roots: the
    main thread, the running thread, the registry, the metatables of the
    basic types and the userdata that wait for a finaliser. *)

From S2P Require Import Prelude Machine Object Mem Zio Table TableInv TableSet Gc Func Collect GcInv GcMark GcTraverse GcPropagate GcAtomic GcClear.

(** ** Reachable objects *)

(** [l] is the running thread. *)
Definition roots (l : Z) (g : gstate) : list ref :=
  (LUA_TTHREAD, gc_mainthread g) :: (LUA_TTHREAD, l) :: vref (gc_registry g) ++ mt_refs g ++ (pair LUA_TUSERDATA <$> gc_tmudata g).

Inductive reachable (l : Z) (g : gstate) : Z -> Prop :=
  | reach_root r : r ∈ roots l g -> reachable l g r.2
  | reach_ref a o r : reachable l g a -> gc_heap g !! a = Some o -> r ∈ refs (gc_heap g) (obj o) -> reachable l g r.2.

(** Every object that is not white refers only to such objects. *)
Definition closed (g : gstate) : Prop := forall a, a ∈ dom (gc_heap g) -> whiteb (gc_heap g) a = false -> closed_at g a.

Lemma reachable_nonwhite l g : closed g -> all_nonwhite (roots l g) g -> forall a, reachable l g a -> whiteb (gc_heap g) a = false.
Proof.
  intros Hc Hr a. induction 1 as [r Hin|a o r _ IH Ho Hin]; [by apply Hr|].
  apply (Hc a ltac:(by eapply elem_of_dom_2) IH o Ho). done.
Qed.

Lemma nonwhite_not_dead g m : iswhite m = false -> isdead g m = false.
Proof.
  rewrite iswhite_bits. intros [H0 H1]%orb_false_iff. unfold isdead. change (testbits _ WHITEBITS) with (iswhite (Z.land m (otherwhite g))).
  rewrite iswhite_bits, !Z.land_spec. by rewrite H0, H1.
Qed.

(** ** What a mark phase leaves as it is *)

(** The objects are the same, with their types, the upvalues with their
    contents and the threads with their lists of upvalues. *)
Definition same_body (b b' : body) : Prop :=
  match b, b' with
  | BThread th, BThread th' => th_openupval th' = th_openupval th
  | BTable _, BTable _ => True
  | _, _ => b' = b
  end.
Definition same_links (h h' : gmap Z GCObject) : Prop :=
  forall a, option_relation (fun o o' => same_body (obj o) (obj o')) (fun _ => False) (fun _ => False) (h !! a) (h' !! a).

Record kin (g g' : gstate) : Prop := {
  kin_links : same_links (gc_heap g) (gc_heap g');
  kin_roots : gc_root_swept g' ++ gc_root_rest g' ⊆+ gc_root_swept g ++ gc_root_rest g;
  kin_strt : gc_strt g' = gc_strt g;
  kin_buff : gc_buffsize g' = gc_buffsize g;
}.

Lemma same_body_trans b1 b2 b3 : same_body b1 b2 -> same_body b2 b3 -> same_body b1 b3.
Proof. destruct b1, b2; try done; destruct b3; cbn; congruence. Qed.

Lemma same_links_trans h1 h2 h3 : same_links h1 h2 -> same_links h2 h3 -> same_links h1 h3.
Proof.
  intros H12 H23 a. specialize (H12 a). specialize (H23 a). destruct (h1 !! a), (h2 !! a), (h3 !! a); try done. by eapply same_body_trans.
Qed.

Lemma heap_sim_links h h' : heap_sim h h' -> same_links h h'.
Proof.
  intros Hs a. specialize (Hs a). destruct (h !! a) as [[m b]|], (h' !! a) as [[m' b']|]; try done. destruct Hs as [Hb _]. cbn in *.
  destruct b, b'; try done. apply Hb.
Qed.

Lemma heap_clr_links h h' : heap_clr h h' -> same_links h h'.
Proof.
  intros Hs a. specialize (Hs a). destruct (h !! a) as [[m b]|], (h' !! a) as [[m' b']|]; try done. destruct Hs as [Hb _]. cbn in *.
  destruct b, b'; try done. cbn in *. by injection Hb as <-.
Qed.

Lemma kin_trans g1 g2 g3 : kin g1 g2 -> kin g2 g3 -> kin g1 g3.
Proof. intros [L1 R1 S1 B1] [L2 R2 S2 B2]. split; [by eapply same_links_trans|by etrans|congruence..]. Qed.

Lemma kin_Ev g g' : Ev g g' -> kin g g'.
Proof.
  intros HE. pose proof (ev_frame _ _ HE) as E. split; [apply heap_sim_links, HE| |exact (f_equal gc_strt E)|exact (f_equal gc_buffsize E)].
  rewrite (f_equal gc_root_swept E : gc_root_swept g' = gc_root_swept g). by rewrite (f_equal gc_root_rest E : gc_root_rest g' = gc_root_rest g).
Qed.

Lemma split_after_app x l a b : split_after x l = Some (a, b) -> l = a ++ b.
Proof.
  revert a. induction l as [|y l IH]; intros a; cbn; [done|]. destruct (y =? x); [by intros [= <- <-]|].
  destruct (split_after x l) as [[a' b']|]; [|done]. intros [= <- <-]. cbn. f_equal. by apply IH.
Qed.

Record roots_ok (l : Z) (g : gstate) : Prop := {
  ro_typed r : r ∈ roots l g -> has_type (gc_heap g) r;
  ro_uvhead uv : uv ∈ gc_uvhead g -> has_type (gc_heap g) (LUA_TUPVAL, uv);
  ro_rootgc : exists rs us, split_after (gc_mainthread g) (gc_root_swept g ++ gc_root_rest g) = Some (rs, us) /\
    forall u, u ∈ us -> has_type (gc_heap g) (LUA_TUSERDATA, u);
}.

(** The roots that markroot marks and that do not change. *)
Definition fixed_roots (g : gstate) : list ref := (LUA_TTHREAD, gc_mainthread g) :: vref (gc_registry g).

Section safe.
Context `{Krealloc} `{StringHash}.
Implicit Types (g : gstate) (a l : Z).

(** What [atomic] establishes. *)
Record marked_all l g : Prop := {
  ma_ok : heap_ok (gc_heap g);
  ma_closed : closed g;
  ma_typed r : r ∈ roots l g -> has_type (gc_heap g) r;
  ma_roots : all_nonwhite (roots l g) g;
  ma_state : gc_gcstate g = GCSsweepstring;
  ma_swept : gc_root_swept g = [] /\ gc_sweepstrgc g = 0;
}.

Lemma reachable_typed l g : marked_all l g -> forall a, reachable l g a -> exists o, gc_heap g !! a = Some o.
Proof.
  intros Hm a. induction 1 as [r Hin|a o r _ _ Ho Hin].
  - destruct (ma_typed _ _ Hm r Hin) as (o & Ho & _). by exists o.
  - destruct (ma_ok _ _ Hm a o Ho) as [_ Ht]. destruct (Ht r Hin) as (o' & Ho' & _). by exists o'.
Qed.

Lemma vref_iff v r : r ∈ vref v -> r = (ttype v, gcvalue v).
Proof. unfold vref. destruct (iscollectable v); [by intros ->%list_elem_of_singleton|by intros ?%elem_of_nil]. Qed.

Lemma elem_of_roots l g r : r ∈ roots l g <->
  r ∈ fixed_roots g \/ r ∈ (LUA_TTHREAD, l) :: mt_refs g \/ exists u, r = (LUA_TUSERDATA, u) /\ u ∈ gc_tmudata g.
Proof.
  unfold roots, fixed_roots. rewrite !elem_of_cons, !elem_of_app, list_elem_of_fmap. split.
  - intros [?|[?|[?|[?|?]]]]; auto 10.
  - intros [[?|?]|[[?|?]|?]]; auto 10.
Qed.

(** The parts of the state that marking leaves. *)
Lemma frame_roots l g g' : frame g' = frame g ->
  roots l g' = roots l g /\ fixed_roots g' = fixed_roots g /\ mt_refs g' = mt_refs g /\ gc_uvhead g' = gc_uvhead g /\
  gc_tmudata g' = gc_tmudata g /\ gc_mainthread g' = gc_mainthread g /\
  gc_root_swept g' = gc_root_swept g /\ gc_root_rest g' = gc_root_rest g.
Proof.
  intros E. split_and!; [exact (f_equal (roots l) E)|exact (f_equal fixed_roots E)|exact (f_equal mt_refs E)|exact (f_equal gc_uvhead E)|
    exact (f_equal gc_tmudata E)|exact (f_equal gc_mainthread E)|exact (f_equal gc_root_swept E)|exact (f_equal gc_root_rest E)].
Qed.

Lemma sim_nonwhite g g' rs : heap_sim (gc_heap g) (gc_heap g') -> all_nonwhite rs g -> all_nonwhite rs g'.
Proof. intros Hs Hn r Hr. eapply heap_sim_whiteb; [done|auto]. Qed.

(** The end of [atomic]: after the weak tables are cleared, nothing is left
    to visit. *)
Lemma wp_phase_clear {B} (k : M gstate B) g (Q : B -> gstate -> Prop) :
  marking none g -> gc_gray g = [] ->
  (forall g', Cl g g' -> heap_ok (gc_heap g') -> closed g' -> wp k Q mem_err g') ->
  wp (w ← gets gc_weak; cleartable w;; k) Q mem_err g.
Proof.
  intros Hm Hgr Hk. apply wp_gets, wp_bind, wp_never.
  assert (Hsc : forall a o, gc_heap g !! a = Some o -> iswhite (marked o) = false -> scanned g a).
  { intros a o Ho Hw. destruct (mg_tc _ _ Hm a o Ho Hw) as [Hin|[[]|?]]; [|done]. rewrite Hgr in Hin. by apply elem_of_nil in Hin. }
  assert (Hwl : forall a, a ∈ gc_weak g -> exists o, gc_heap g !! a = Some o /\ iswhite (marked o) = false).
  { intros a Ha. destruct (mg_lists _ _ Hm) as [_ Hl]. destruct (Hl a) as (o & Ho & Hw & _); [|eauto]. unfold lists. set_solver. }
  eapply wp_mono; [apply (cleartable_spec _ g (mg_ok _ _ Hm))| |by intros ? []].
  - intros a Ha. split; [by apply (mg_weakt _ _ Hm)|]. intros o Ho r Hr. destruct (Hwl a Ha) as (o2 & Ho2 & Hw). rewrite Ho in Ho2. injection Ho2 as <-.
    apply (Hsc a o Ho Hw o Ho). unfold srefs. by rewrite decide_True.
  - intros [] g' [HC Hcl]. apply Hk; [done|eapply Cl_ok; [done|apply Hm]|]. intros a Ha Hw.
    destruct (decide (a ∈ gc_weak g)) as [Hin|Hin]; [by apply Hcl|]. apply elem_of_dom in Ha as [o' Ho'].
    unfold whiteb in Hw. rewrite Ho' in Hw. destruct (cl_new _ _ HC a o' Ho' Hw) as [(o & Ho & Hwo)|Hs].
    + eapply Cl_closed_at; [done|]. intros o2 Ho2 r Hr. rewrite Ho in Ho2. injection Ho2 as <-. apply (Hsc a o Ho Hwo o Ho).
      unfold srefs. by rewrite decide_False.
    + intros o2 Ho2 r Hr. rewrite Ho' in Ho2. injection Ho2 as <-. destruct o' as [m []]; try done. by apply elem_of_nil in Hr.
Qed.

Lemma cl_roots l g g' : setg_heap ∅ g' = setg_heap ∅ g -> roots l g' = roots l g.
Proof. intros E. exact (f_equal (roots l) E). Qed.

(** The flip of the current white, with what the last phases establish. *)
Lemma flip_marked l g g' g'' :
  Cl g g' -> heap_ok (gc_heap g') -> closed g' -> (forall r, r ∈ roots l g -> has_type (gc_heap g) r) -> all_nonwhite (roots l g) g ->
  gc_heap g'' = gc_heap g' -> roots l g'' = roots l g' -> gc_gcstate g'' = GCSsweepstring -> gc_root_swept g'' = [] -> gc_sweepstrgc g'' = 0 ->
  marked_all l g''.
Proof.
  intros HC Hok Hcl Ht Hn Eh Er Es Esw Est. pose proof (cl_roots l _ _ (cl_rest _ _ HC)) as R.
  split; [by rewrite Eh| |..|done|done].
  - unfold closed, closed_at, all_nonwhite in *. by rewrite Eh.
  - intros r. rewrite Er, R, Eh. intros Hr. eapply heap_clr_has_type; [apply HC|auto].
  - intros r. rewrite Er, R, Eh. intros Hr. eapply Cl_whiteb; [done|auto].
Qed.

Lemma atomic_marks l g :
  marking (pending g) g -> roots_ok l g -> all_nonwhite (fixed_roots g) g ->
  wp (atomic l) (fun _ g' => marked_all l g' /\ gc_currentwhite g' = u8 (otherwhite g) /\ kin g g') mem_err g.
Proof.
  intros Hm Hr Hf. unfold atomic. eapply wp_phase_upvals; [exact Hm|apply Hr|]. intros g1 HE1 Hm1 Hgr1.
  destruct (frame_roots l _ _ (ev_frame _ _ HE1)) as (R1 & F1 & M1 & U1 & T1 & MT1 & S1 & P1).
  assert (Ht1 : forall r, r ∈ roots l g -> has_type (gc_heap g1) r).
  { intros r Hin. eapply heap_sim_has_type; [apply HE1|]. by apply Hr. }
  eapply (wp_phase_weak l); [exact Hm1|exact Hgr1| |].
  { intros r Hin. apply Ht1, elem_of_roots. right; left. by rewrite M1 in Hin. }
  intros g2 E2 Hs2 Hm2 Hgr2 Hn2. destruct (frame_roots l _ _ E2) as (R2 & F2 & M2 & U2 & T2 & MT2 & S2 & P2).
  eapply wp_phase_again; [exact Hm2|exact Hgr2|]. intros g3 E3 Hs3 Hm3 Hgr3.
  destruct (frame_roots l _ _ E3) as (R3 & F3 & M3 & U3 & T3 & MT3 & S3 & P3).
  pose proof (heap_sim_trans _ _ _ Hs2 Hs3) as Hs23.
  destruct (ro_rootgc _ _ Hr) as (rs & us & Hsplit & Hus).
  eapply (wp_phase_separate _ g3 _ rs us); [exact Hm3|congruence| |].
  { intros u Hu. eapply heap_sim_has_type; [exact Hs23|]. eapply heap_sim_has_type; [apply HE1|auto]. }
  intros n g4 stay dead E4 Hs4 Hp g4' Hm4. subst g4'. set (g4' := setg_tmudata _ _) in *.
  destruct (frame_roots l _ _ E4) as (R4 & F4 & M4 & U4 & T4 & MT4 & S4 & P4).
  pose proof (heap_sim_trans _ _ _ Hs23 Hs4) as Hs24.
  assert (Ht4 : forall r, r ∈ roots l g4' -> has_type (gc_heap g4') r).
  { intros r Hin. apply elem_of_roots in Hin as [Hin|[Hin|(u & -> & Hu)]].
    - eapply heap_sim_has_type; [exact Hs24|]. apply Ht1, elem_of_roots. left. change (fixed_roots g4') with (fixed_roots g4) in Hin. congruence.
    - eapply heap_sim_has_type; [exact Hs24|]. apply Ht1, elem_of_roots. right; left. change (mt_refs g4') with (mt_refs g4) in Hin. congruence.
    - eapply heap_sim_has_type; [exact Hs24|]. cbn in Hu. apply elem_of_app in Hu as [Hu|Hu].
      + apply Ht1, elem_of_roots. right; right. exists u. split; [done|congruence].
      + eapply heap_sim_has_type; [apply HE1|]. apply Hus. rewrite <- Hp. set_solver. }
  eapply wp_phase_tmu; [exact Hm4| |].
  { intros u Hu. apply Ht4, elem_of_roots. right; right. by exists u. }
  intros n5 g5 HE5 Hm5 Hgr5 Hn5. destruct (frame_roots l _ _ (ev_frame _ _ HE5)) as (R5 & F5 & M5 & U5 & T5 & MT5 & S5 & P5).
  eapply wp_phase_clear; [exact Hm5|exact Hgr5|]. intros g6 HC Hok6 Hcl. unfold wp, modify.
  assert (Ecw : gc_currentwhite g6 = gc_currentwhite g).
  { transitivity (gc_currentwhite g5); [exact (f_equal gc_currentwhite (cl_rest _ _ HC))|].
    transitivity (gc_currentwhite g4'); [exact (f_equal gc_currentwhite (ev_frame _ _ HE5))|].
    transitivity (gc_currentwhite g3); [exact (f_equal gc_currentwhite E4)|].
    transitivity (gc_currentwhite g2); [exact (f_equal gc_currentwhite E3)|].
    transitivity (gc_currentwhite g1); [exact (f_equal gc_currentwhite E2)|exact (f_equal gc_currentwhite (ev_frame _ _ HE1))]. }
  split_and!; [|unfold otherwhite; cbn; by rewrite Ecw|].
  2: { split; cbn.
    - eapply same_links_trans; [apply heap_sim_links, HE1|]. eapply same_links_trans; [apply heap_sim_links, Hs24|].
      eapply same_links_trans; [apply heap_sim_links, HE5|apply heap_clr_links, HC].
    - assert (E6 : gc_root_swept g6 ++ gc_root_rest g6 = rs ++ stay).
      { rewrite (f_equal gc_root_swept (cl_rest _ _ HC) : gc_root_swept g6 = gc_root_swept g5), (f_equal gc_root_rest (cl_rest _ _ HC) : gc_root_rest g6 = gc_root_rest g5). by rewrite S5, P5. }
      rewrite E6, (split_after_app _ _ _ _ Hsplit), <- Hp. by apply submseteq_app; [|apply submseteq_inserts_r].
    - transitivity (gc_strt g5); [exact (f_equal gc_strt (cl_rest _ _ HC))|]. transitivity (gc_strt g4'); [exact (f_equal gc_strt (ev_frame _ _ HE5))|].
      transitivity (gc_strt g3); [exact (f_equal gc_strt E4)|]. transitivity (gc_strt g2); [exact (f_equal gc_strt E3)|].
      transitivity (gc_strt g1); [exact (f_equal gc_strt E2)|exact (f_equal gc_strt (ev_frame _ _ HE1))].
    - transitivity (gc_buffsize g5); [exact (f_equal gc_buffsize (cl_rest _ _ HC))|]. transitivity (gc_buffsize g4'); [exact (f_equal gc_buffsize (ev_frame _ _ HE5))|].
      transitivity (gc_buffsize g3); [exact (f_equal gc_buffsize E4)|]. transitivity (gc_buffsize g2); [exact (f_equal gc_buffsize E3)|].
      transitivity (gc_buffsize g1); [exact (f_equal gc_buffsize E2)|exact (f_equal gc_buffsize (ev_frame _ _ HE1))]. }
  apply (flip_marked l g5 g6); [exact HC|exact Hok6|exact Hcl|..]; try reflexivity.
  - intros r. rewrite R5. intros Hin. eapply heap_sim_has_type; [apply HE5|auto].
  - intros r. rewrite R5. intros Hin. apply elem_of_roots in Hin as [Hin|[Hin|(u & -> & Hu)]]; [..|by apply Hn5].
    + eapply heap_sim_whiteb; [apply HE5|]. eapply heap_sim_whiteb; [exact Hs24|]. eapply heap_sim_whiteb; [apply HE1|].
      apply Hf. change (fixed_roots g4') with (fixed_roots g4) in Hin. congruence.
    + eapply heap_sim_whiteb; [apply HE5|]. eapply heap_sim_whiteb; [exact (heap_sim_trans _ _ _ Hs3 Hs4)|].
      apply Hn2. change (mt_refs g4') with (mt_refs g4) in Hin. by rewrite <- M2, <- M3, <- M4.
Qed.

(** ** The mark phase *)

Definition opens_listed g : Prop := forall a m th level,
  gc_heap g !! a = Some (mkObj m (BUpVal (UOpen th level))) -> a ∈ gc_uvhead g.

Record mark_inv l g : Prop := {
  mi_marking : marking (pending g) g;
  mi_roots : roots_ok l g;
  mi_fixed : all_nonwhite (fixed_roots g) g;
  mi_grays : grays_listed g;
  mi_opens : opens_listed g;
}.

Lemma opens_sim g g' : frame g' = frame g -> heap_sim (gc_heap g) (gc_heap g') -> opens_listed g -> opens_listed g'.
Proof.
  intros E Hs Ho a m th level Ha. rewrite (f_equal gc_uvhead E : gc_uvhead g' = gc_uvhead g).
  destruct (heap_sim_Some_r _ _ _ _ Hs Ha) as ([m0 b0] & Ha0 & Hb & _). cbn in Hb.
  destruct b0; cbn in Hb; try done. injection Hb as <-. by eapply Ho.
Qed.

Lemma pending_Ev g g' a : (forall uv, uv ∈ gc_uvhead g -> has_type (gc_heap g) (LUA_TUPVAL, uv)) -> Ev g g' -> pending g a -> pending g' a.
Proof.
  intros Ht HE [Ha|[Ha|[Ha (o & Ho & Hg)]]]; [left; by apply HE|right; left; by apply HE|right; right].
  split; [by rewrite (f_equal gc_uvhead (ev_frame _ _ HE) : gc_uvhead g' = _)|].
  destruct (typed_upval _ _ (Ht a Ha)) as (m & u & Ho2). rewrite Ho in Ho2. injection Ho2 as ->.
  destruct (ev_upvals _ _ HE a m u Ho Hg) as (m' & Ho' & Hg'). by eexists.
Qed.

Lemma roots_ok_sim l g g' : frame g' = frame g -> heap_sim (gc_heap g) (gc_heap g') -> roots_ok l g -> roots_ok l g'.
Proof.
  intros E Hs []. destruct (frame_roots l _ _ E) as (R & F & M & U & T & MT & S & P). split.
  - intros r. rewrite R. intros Hr. eapply heap_sim_has_type; [done|auto].
  - intros uv. rewrite U. intros Hr. eapply heap_sim_has_type; [done|auto].
  - rewrite MT, S, P. destruct ro_rootgc0 as (rs & us & Hsp & Hus). exists rs, us. split; [done|].
    intros u Hu. eapply heap_sim_has_type; [done|auto].
Qed.

Lemma mark_inv_Ev l g g' : Ev g g' -> mark_inv l g -> mark_inv l g'.
Proof.
  intros HE []. split.
  - eapply marking_mono; [|by eapply marking_Ev]. intros a. apply pending_Ev; [apply mi_roots0|done].
  - by eapply roots_ok_sim; [apply HE..|].
  - destruct (frame_roots l _ _ (ev_frame _ _ HE)) as (_ & -> & _). eapply sim_nonwhite; [apply HE|done].
  - by apply HE.
  - by eapply opens_sim; [apply HE..|].
Qed.

(** A cycle starts when all objects are white. *)
Record paused l g : Prop := {
  pa_ok : heap_ok (gc_heap g);
  pa_names : names_ok g;
  pa_currentwhite : iswhite (luaC_white g) = true;
  pa_roots : roots_ok l g;
  pa_opens : opens_listed g;
  pa_white a o : gc_heap g !! a = Some o -> iswhite (marked o) = true;
}.

Definition start (g : gstate) : gstate := setg_weak [] (setg_grayagain [] (setg_gray [] g)).

Lemma start_marking l g : paused l g -> marking none (start g).
Proof.
  intros []. split; try done.
  - split; [apply NoDup_nil_2|]. by intros a ?%elem_of_nil.
  - by intros a ?%elem_of_nil.
  - intros a o Ho Hw. cbn in Ho. by rewrite (pa_white0 a o Ho) in Hw.
Qed.

Lemma start_roots_ok l g : roots_ok l g -> roots_ok l (start g).
Proof. intros []. by split. Qed.

Lemma main_thread l g : roots_ok l g -> exists m th, gc_heap g !! gc_mainthread g = Some (mkObj m (BThread th)).
Proof.
  intros Hr. destruct (ro_typed _ _ Hr (LUA_TTHREAD, gc_mainthread g)) as ([m b] & Ho & Ht); [by left|]. cbn in *.
  destruct b; try done. by eexists _, _.
Qed.

Lemma fixed_root_typed l g r : roots_ok l g -> r ∈ fixed_roots g -> has_type (gc_heap g) r.
Proof. intros Hr Hin. apply Hr, elem_of_roots. by left. Qed.

Lemma mark_inv_gcstate l s g : mark_inv l g -> mark_inv l (setg_gcstate s g).
Proof. intros [[] [] ? ? ?]. by split. Qed.

Lemma whites_size h : (size (whites h) <= size h)%nat.
Proof. unfold whites. rewrite <- size_dom. apply subseteq_size, dom_filter_subseteq. Qed.

(** [markroot] starts a cycle with the roots marked. *)
Lemma markroot_starts l g : paused l g ->
  wp markroot (fun _ g' => mark_inv l g' /\ gc_gcstate g' = GCSpropagate /\ (work g' <= size (gc_heap g))%nat /\ kin g g' /\
    gc_currentwhite g' = gc_currentwhite g) mem_err g.
Proof.
  intros Hp. pose proof (start_marking l g Hp) as Hm. pose proof (start_roots_ok l g (pa_roots _ _ Hp)) as Hr.
  unfold markroot. apply wp_modify, wp_get. change (setg_weak _ _) with (start g). set (g0 := start g) in *.
  eapply (wp_marker _ _ [(LUA_TTHREAD, gc_mainthread g)]); [apply marker_object|exact Hm| |].
  { intros r ->%list_elem_of_singleton. apply Hr. by left. }
  intros g1 HE1 Hm1 Hn1. pose proof (roots_ok_sim l _ _ (ev_frame _ _ HE1) (ev_sim _ _ HE1) Hr) as Hr1.
  destruct (frame_roots l _ _ (ev_frame _ _ HE1)) as (R1 & F1 & M1 & U1 & T1 & MT1 & _).
  destruct (main_thread l g1 Hr1) as (m & th & Hth). rewrite MT1 in Hth.
  apply wp_bind. eapply wp_gco2th; [exact Hth|].
  eapply (wp_marker _ _ (vref (th_gt th))); [apply marker_value|exact Hm1| |].
  { intros r Hin. destruct (mg_ok _ _ Hm1 _ _ Hth) as [_ Ht]. apply Ht. cbn. apply elem_of_app. by left. }
  intros g2 HE2 Hm2 _. pose proof (Ev_trans _ _ _ HE1 HE2) as HE12. pose proof (roots_ok_sim l _ _ (ev_frame _ _ HE12) (ev_sim _ _ HE12) Hr) as Hr2.
  destruct (frame_roots l _ _ (ev_frame _ _ HE12)) as (R2 & F2 & M2 & _).
  eapply (wp_marker _ _ (vref (gc_registry g))); [apply marker_value|exact Hm2| |].
  { intros r Hin. apply Hr2, elem_of_roots. left. rewrite F2. by right. }
  intros g3 HE3 Hm3 Hn3. pose proof (Ev_trans _ _ _ HE12 HE3) as HE13. pose proof (roots_ok_sim l _ _ (ev_frame _ _ HE13) (ev_sim _ _ HE13) Hr) as Hr3.
  destruct (frame_roots l _ _ (ev_frame _ _ HE13)) as (R3 & F3 & M3 & _).
  unfold markmt at 1. apply wp_assoc, wp_gets. eapply (wp_marker _ _ (mt_refs g3)); [|exact Hm3| |].
  { apply marker_mfor. intros v _. apply marker_unless_null, marker_object. }
  { intros r Hin. apply Hr3, elem_of_roots. right; left. by right. }
  intros g4 HE4 Hm4 _. pose proof (Ev_trans _ _ _ HE13 HE4) as HE. unfold wp, modify. split_and!; [|done| | |].
  - apply (mark_inv_gcstate l GCSpropagate). split.
    + eapply marking_mono; [|exact Hm4]. by intros a [].
    + by eapply roots_ok_sim; [apply HE..|].
    + intros r. destruct (frame_roots l _ _ (ev_frame _ _ HE)) as (_ & -> & _). intros [->|Hin]%elem_of_cons.
      * eapply heap_sim_whiteb; [apply (Ev_trans _ _ _ HE2 (Ev_trans _ _ _ HE3 HE4))|]. apply Hn1. by left.
      * eapply heap_sim_whiteb; [apply HE4|]. by apply Hn3.
    + apply (ev_grays _ _ HE). intros a o Ho [Hw _]. cbn in Ho. by rewrite (pa_white _ _ Hp a o Ho) in Hw.
    + eapply opens_sim; [exact (ev_frame _ _ HE)|exact (ev_sim _ _ HE)|]. exact (pa_opens _ _ Hp).
  - etransitivity; [exact (ev_work _ _ HE)|]. unfold work. cbn. rewrite Nat.add_0_r. apply whites_size.
  - destruct (kin_Ev _ _ HE) as [KL KR KS KB]. by split.
  - exact (f_equal gc_currentwhite (ev_frame _ _ HE)).
Qed.

(** Each step of the propagation keeps the invariant and leaves less to do. *)
Lemma propagatemark_inv l g : mark_inv l g -> gc_gray g <> [] ->
  wp propagatemark (fun _ g' => mark_inv l g' /\ gc_gcstate g' = gc_gcstate g /\ (work g' < work g)%nat /\ kin g g' /\
    gc_currentwhite g' = gc_currentwhite g) mem_err g.
Proof.
  intros Hi Hne. eapply wp_mono; [apply propagatemark_spec; [apply Hi..|done]| |done]. intros n g' [HE Hw].
  split_and!; [by eapply mark_inv_Ev|exact (f_equal gc_gcstate (ev_frame _ _ HE))|done|by apply kin_Ev|exact (f_equal gc_currentwhite (ev_frame _ _ HE))].
Qed.

Lemma run_until_reached call fuel l s g (Q : unit -> gstate -> Prop) E : gc_gcstate g = s -> Q tt g -> wp (run_until call (S fuel) l s) Q E g.
Proof. intros Hs HQ. cbn [run_until]. apply wp_get. rewrite Hs, Z.eqb_refl. by apply wp_ret. Qed.

Lemma run_propagate call fuel l g :
  mark_inv l g -> gc_gcstate g = GCSpropagate -> (work g + 2 <= fuel)%nat ->
  wp (run_until call fuel l GCSsweepstring) (fun _ g' => marked_all l g' /\ kin g g' /\ gc_currentwhite g' = u8 (otherwhite g)) mem_err g.
Proof.
  revert g. induction fuel as [|fuel IH]; intros g Hi Hs Hf; [lia|].
  cbn [run_until]. apply wp_get. rewrite Hs. change (GCSpropagate =? GCSsweepstring) with false. cbn iota.
  unfold singlestep. apply wp_assoc, wp_get. rewrite Hs. cbn [Z.eqb GCSpropagate GCSpause].
  change (1 =? 0) with false. change (1 =? 1) with true. cbn iota. destruct (gc_gray g) as [|o gray] eqn:Hgr.
  - apply wp_assoc. eapply wp_seq; [apply atomic_marks; apply Hi|]. intros [] g1 (Hm & Ew & Hk). apply wp_bind, wp_ret.
    destruct fuel as [|fuel]; [lia|]. by apply run_until_reached; [apply Hm|].
  - eapply wp_seq; [apply (propagatemark_inv l); [done|by rewrite Hgr]|]. intros n g1 (Hi1 & Hs1 & Hw1 & Hk1 & Ew1).
    eapply wp_mono; [apply IH; [done|congruence|lia]| |done]. intros [] g2 (Hm2 & Hk2 & Ew2). split_and!; [done|by eapply kin_trans|].
    rewrite Ew2. unfold otherwhite. by rewrite Ew1.
Qed.

Lemma marked_all_alive l g : marked_all l g -> forall a, reachable l g a -> exists o, gc_heap g !! a = Some o /\ isdead g (marked o) = false.
Proof.
  intros Hm a Ha. destruct (reachable_typed l g Hm a Ha) as (o & Ho). exists o. split; [done|].
  apply nonwhite_not_dead. pose proof (reachable_nonwhite l g (ma_closed _ _ Hm) (ma_roots _ _ Hm) a Ha) as Hw.
  unfold whiteb in Hw. by rewrite Ho in Hw.
Qed.

(** A mark phase that starts when all objects are white. *)
Lemma mark_phase_spec call fuel l g :
  paused l g -> gc_gcstate g = GCSpause -> (size (gc_heap g) + 3 <= fuel)%nat ->
  wp (run_until call fuel l GCSsweepstring) (fun _ g' => marked_all l g' /\ kin g g' /\ gc_currentwhite g' = u8 (otherwhite g)) mem_err g.
Proof.
  intros Hp Hs Hf. destruct fuel as [|fuel]; [lia|]. cbn [run_until]. apply wp_get. rewrite Hs.
  change (GCSpause =? GCSsweepstring) with false. cbn iota. unfold singlestep. apply wp_assoc, wp_get. rewrite Hs.
  change (GCSpause =? GCSpause) with true. cbn iota. apply wp_assoc.
  eapply wp_seq; [by apply markroot_starts|]. intros [] g1 (Hi & Hs1 & Hw & Hk & Ew). apply wp_bind, wp_ret.
  eapply wp_mono; [apply run_propagate; [done..|lia]| |done]. intros [] g' (Hm & Hk' & Ew').
  split_and!; [done|by eapply kin_trans|]. rewrite Ew'. unfold otherwhite. by rewrite Ew.
Qed.

(** A mark phase that starts when all objects are white ends, and then every object that the
    program can reach, from the threads, the registry, the metatables or a
    userdata with a finaliser to call, is in the heap and is not dead: the
    sweep will not free it.  The only error is a failed reallocation of a
    stack. *)
Theorem mark_phase_keeps_reachable call fuel l g :
  paused l g -> gc_gcstate g = GCSpause -> (size (gc_heap g) + 3 <= fuel)%nat ->
  wp (run_until call fuel l GCSsweepstring)
    (fun _ g' => heap_ok (gc_heap g') /\ forall a, reachable l g' a -> exists o, gc_heap g' !! a = Some o /\ isdead g' (marked o) = false)
    mem_err g.
Proof.
  intros Hp Hs Hf. eapply wp_mono; [by apply mark_phase_spec| |done]. intros [] g' [Hm _]. split; [apply Hm|].
  by apply marked_all_alive.
Qed.

(** The atomic step that ends an incremental mark phase, with the program's
    writes since its start behind barriers ([mark_inv]): it visits again what
    was left gray, clears the weak tables, flips the current white, and then no
    reachable object is dead.  The only error is a failed reallocation of a
    stack. *)
Theorem atomic_keeps_reachable l g : mark_inv l g ->
  wp (atomic l) (fun _ g' => heap_ok (gc_heap g') /\ gc_currentwhite g' = u8 (otherwhite g) /\ gc_gcstate g' = GCSsweepstring /\
    forall a, reachable l g' a -> exists o, gc_heap g' !! a = Some o /\ isdead g' (marked o) = false) mem_err g.
Proof.
  intros Hi. eapply wp_mono; [apply atomic_marks; apply Hi| |done]. intros [] g' (Hm & Ew & _).
  split_and!; [apply Hm|done|apply Hm|by apply marked_all_alive].
Qed.
End safe.
