(* ===== verification/GcBarrier.v ===== *)
(** * GcBarrier.v: the write barrier

    While objects are being marked the program goes on running, and may store
    a white object in a black one.  [luaC_barrier] after the store keeps the
    invariant that the atomic end of the mark phase relies on. *)

From S2P Require Import Prelude Machine Object Mem Zio Table TableInv TableSet Gc Func Collect GcInv GcMark GcTraverse GcPropagate GcAtomic GcClear GcSafe.

(** The objects that are stored into with this barrier: tables have another
    one, and threads need none, they are always visited again. *)
Definition holder (b : body) : bool :=
  match b with BFunction _ | BProto _ | BUserdata _ _ _ | BUpVal (UClosed _) => true | _ => false end.

Section barrier.
Context `{Krealloc} `{StringHash}.

Lemma whiteb_at g a o : gc_heap g !! a = Some o -> whiteb (gc_heap g) a = iswhite (marked o).
Proof. intros Ho. unfold whiteb. by rewrite Ho. Qed.
Lemma whiteb_true h a : whiteb h a = true -> exists o, h !! a = Some o /\ iswhite (marked o) = true.
Proof. unfold whiteb. destruct (h !! a) as [o|]; [eauto|done]. Qed.

Section store.
Context (l : Z) (g : gstate) (p m : Z) (b0 b : body) (v : TValue).
Context (Hi : mark_inv l g) (Ho : gc_heap g !! p = Some (mkObj m b0)).
Context (Hb0 : holder b0 = true) (Hb : holder b = true) (Htt : tt_of b = tt_of b0).
Context (Hv : forall r, r ∈ vref v -> has_type (gc_heap g) r).
Context (Hrefs : forall r, r ∈ refs (gc_heap g) b -> r ∈ refs (gc_heap g) b0 \/ r ∈ vref v).

Definition stored : gstate := setg_heap (alter (fun o => mkObj (marked o) b) p (gc_heap g)) g.

Lemma stored_at : gc_heap stored !! p = Some (mkObj m b).
Proof. cbn. by rewrite lookup_alter_eq, Ho. Qed.
Lemma stored_ne a : a <> p -> gc_heap stored !! a = gc_heap g !! a.
Proof. intros Ha. cbn. by rewrite lookup_alter_ne. Qed.

(** An object of the new heap is one of the old, but for the body of [p]. *)
Lemma stored_obj a o : gc_heap stored !! a = Some o ->
  a = p /\ o = mkObj m b \/ a <> p /\ gc_heap g !! a = Some o.
Proof.
  intros Ha. destruct (decide (a = p)) as [->|Hne]; [left|right; by rewrite <- stored_ne].
  rewrite stored_at in Ha. injection Ha as <-. done.
Qed.

Lemma stored_has_type r : has_type (gc_heap g) r -> has_type (gc_heap stored) r.
Proof.
  intros (o & Hr & Ht). destruct (decide (r.2 = p)) as [E|Hne]; [|exists o; by rewrite stored_ne].
  rewrite E, Ho in Hr. injection Hr as <-. exists (mkObj m b). rewrite E. split; [exact stored_at|]. cbn in *. congruence.
Qed.

Lemma stored_whiteb a : whiteb (gc_heap stored) a = whiteb (gc_heap g) a.
Proof.
  unfold whiteb. destruct (decide (a = p)) as [->|Hne]; [by rewrite stored_at, Ho|by rewrite stored_ne].
Qed.

Lemma stored_nonwhite rs : all_nonwhite rs g -> all_nonwhite rs stored.
Proof. intros Hn r Hr. rewrite stored_whiteb. by apply Hn. Qed.

Lemma stored_refs wk wv x : refs_with wk wv (gc_heap stored) x = refs_with wk wv (gc_heap g) x.
Proof.
  destruct x as [| |[th lv|]| | | |]; try done. cbn [refs_with]. unfold stack_value.
  destruct (decide (th = p)) as [->|Hne]; [|by rewrite stored_ne]. rewrite stored_at, Ho. by destruct b0, b.
Qed.

Lemma stored_ok : heap_ok (gc_heap stored).
Proof.
  intros a o Ha. assert (Hr : forall r, r ∈ refs (gc_heap g) (obj o) -> has_type (gc_heap g) r).
  { intros r Hin. destruct (stored_obj a o Ha) as [[-> ->]|[_ Hao]].
    - destruct (Hrefs r Hin) as [?|?]; [|auto]. by apply (mg_ok _ _ (mi_marking _ _ Hi) p _ Ho).
    - by apply (mg_ok _ _ (mi_marking _ _ Hi) a _ Hao). }
  split.
  - destruct (stored_obj a o Ha) as [[-> ->]|[_ Hao]]; [by destruct b as [| |[]| | | |]|].
    pose proof (mg_ok _ _ (mi_marking _ _ Hi) a _ Hao) as [Hsh _]. destruct (obj o) as [| |[th lv|]| | | |]; try done.
    destruct Hsh as (mm & t & Hth & Hlv). exists mm, t. split; [|done]. rewrite stored_ne; [done|].
    intros ->. rewrite Ho in Hth. injection Hth as -> ->. done.
  - intros r Hin. unfold refs in Hin. rewrite stored_refs in Hin. by apply stored_has_type, Hr.
Qed.

Lemma stored_listed a : listed g a -> listed stored a.
Proof.
  intros (o & Hao & Hw & Ht). destruct (decide (a = p)) as [->|Hne]; [|exists o; by rewrite stored_ne].
  rewrite Ho in Hao. injection Hao as <-. exists (mkObj m b). split_and!; [exact stored_at|done|]. cbn in *. by destruct b0, b.
Qed.

Lemma stored_grey_at a : grey_at g a <-> grey_at stored a.
Proof.
  unfold grey_at. destruct (decide (a = p)) as [->|Hne]; [rewrite stored_at, Ho|by rewrite stored_ne].
  split; intros (o & [= <-] & Hg); by eexists.
Qed.

Lemma stored_pending a : pending stored a <-> pending g a.
Proof. unfold pending. rewrite <- stored_grey_at. done. Qed.

Lemma stored_table a : is_table (gc_heap g) a -> is_table (gc_heap stored) a.
Proof.
  intros (mm & t & Ha). exists mm, t. rewrite stored_ne; [done|]. intros ->. rewrite Ho in Ha. injection Ha as -> ->. done.
Qed.

(** All is kept but that [p] may now refer to a white object. *)
Lemma stored_TC : TC (but (pending stored) p) stored.
Proof.
  intros a o Ha Hw. destruct (stored_obj a o Ha) as [[-> ->]|[Hne Hao]]; [by right; left; right|].
  destruct (mg_tc _ _ (mi_marking _ _ Hi) a o Hao Hw) as [?|[Hp|Hs]]; [by left|right; left; left; by apply stored_pending|right; right].
  intros o' Ho' r Hr. rewrite Ha in Ho'. injection Ho' as <-. rewrite stored_whiteb. apply (Hs o Hao).
  unfold srefs, refs in *. by rewrite !stored_refs in Hr.
Qed.

Lemma stored_marking : marking (but (pending stored) p) stored.
Proof.
  pose proof (mi_marking _ _ Hi) as []. split; [exact stored_ok| |done| |done|exact stored_TC].
  - destruct mg_lists as [Hnd Hl]. split; [done|]. intros a Ha. by apply stored_listed, Hl.
  - intros a Ha. by apply stored_table, mg_weakt.
Qed.

Lemma stored_roots : roots_ok l stored.
Proof.
  pose proof (mi_roots _ _ Hi) as []. split.
  - intros r Hr. by apply stored_has_type, ro_typed.
  - intros uv Hu. by apply stored_has_type, ro_uvhead.
  - destruct ro_rootgc as (rs & us & Hs & Hu). exists rs, us. split; [done|]. intros u Hin. by apply stored_has_type, Hu.
Qed.

Lemma stored_grays : grays_listed stored.
Proof.
  intros a o Ha Hg. destruct (stored_obj a o Ha) as [[-> ->]|[_ Hao]]; [|by apply (mi_grays _ _ Hi a o)].
  destruct (mi_grays _ _ Hi p _ Ho Hg) as [?|Hu]; [by left|]. by destruct b0 as [| |[]| | | |].
Qed.

Lemma stored_opens : opens_listed stored.
Proof.
  intros a mm th lv Ha. destruct (stored_obj a _ Ha) as [[_ E]|[_ Hao]]; [injection E as _ Eb; by rewrite <- Eb in Hb|]. by eapply (mi_opens _ _ Hi).
Qed.

Lemma stored_inv : TC (pending stored) stored -> mark_inv l stored.
Proof.
  intros Htc. pose proof stored_marking as [].
  split; [by split|exact stored_roots|exact (stored_nonwhite _ (mi_fixed _ _ Hi))|exact stored_grays|exact stored_opens].
Qed.

(** Only a black object has no visit to come. *)
Lemma stored_cases : TC (pending stored) stored \/ isblack m = true /\ all_nonwhite (refs (gc_heap g) b0) g.
Proof.
  assert (Hclose : iswhite m = true \/ p ∈ gc_gray g \/ pending g p -> TC (pending stored) stored).
  { intros Hp a o Ha Hw. destruct (stored_TC a o Ha Hw) as [?|[[?| ->]|?]]; [by left|by right; left| |by right; right].
    destruct Hp as [Hp|[Hp|Hp]]; [|by left|right; left; by apply stored_pending].
    rewrite stored_at in Ha. injection Ha as <-. cbn in Hw. congruence. }
  destruct (iswhite m) eqn:Hw; [auto|].
  destruct (mg_tc _ _ (mi_marking _ _ Hi) p _ Ho Hw) as [?|[?|Hs]]; [by left; auto..|]. destruct (isblack m) eqn:Hbl.
  - right. split; [done|]. intros r Hr. apply (Hs _ Ho). unfold srefs. rewrite decide_False; [done|].
    intros Hin. destruct (mg_weakt _ _ (mi_marking _ _ Hi) p Hin) as (mm & t & Ht). rewrite Ho in Ht. injection Ht as -> ->. done.
  - left. apply Hclose. right. destruct (mi_grays _ _ Hi p _ Ho (conj Hw Hbl)) as [Hin|Hu].
    + unfold lists in Hin. cbn in Hin. unfold pending. set_solver.
    + by destruct b0 as [| |[]| | | |].
Qed.

(** The stored value was marked. *)
Lemma stored_marked g2 : Mk [] stored g2 -> all_nonwhite (refs (gc_heap g) b0) g -> all_nonwhite (vref v) g2 -> mark_inv l g2.
Proof.
  intros HM Hold Hn. pose proof stored_ok as Hok. pose proof (Mk_Ev _ _ Hok HM) as HE. pose proof (marking_Ev _ _ _ HE stored_marking) as Hm2.
  assert (Hpend : forall a, pending stored a -> pending g2 a) by (intros a; apply pending_Ev; [apply stored_roots|done]).
  split; [|by eapply roots_ok_sim; [apply HE..|exact stored_roots]| |by apply HE, stored_grays|by eapply opens_sim; [apply HE..|exact stored_opens]].
  - split; try apply Hm2. intros a o Ha Hw. destruct (mg_tc _ _ Hm2 a o Ha Hw) as [?|[[?| ->]|?]]; [by left|right; left; auto|right; right|by right; right].
    apply (scanned_since [] stored g2 p _ Hok HM stored_at). intros r Hr. cbn in Hr. unfold refs in Hr. rewrite stored_refs in Hr.
    destruct (Hrefs r Hr) as [Hr'|Hr']; [|by apply Hn]. eapply heap_sim_whiteb; [apply HM|]. rewrite stored_whiteb. by apply Hold.
  - destruct (frame_roots l _ _ (ev_frame _ _ HE)) as (_ & -> & _). eapply sim_nonwhite; [apply HE|].
    exact (stored_nonwhite _ (mi_fixed _ _ Hi)).
Qed.

(** The barrier after the store. *)
Lemma stored_barrier : gc_gcstate g = GCSpropagate -> wp (luaC_barrier p v) (fun _ g' => mark_inv l g') never stored.
Proof.
  intros Hst. unfold luaC_barrier, valiswhite.
  eapply (wp_seq _ _ (fun w g' => g' = stored /\ (w = false -> all_nonwhite (vref v) stored) /\
    (w = true -> iscollectable v = true /\ whiteb (gc_heap stored) (gcvalue v) = true))).
  { destruct (iscollectable v) eqn:Hc.
    - destruct (stored_has_type (ttype v, gcvalue v)) as (ov & Hov & _); [apply Hv; unfold vref; rewrite Hc; by left|]. cbn in Hov.
      eapply wp_deref_bind; [done|]. apply wp_ret. split_and!; [done| |].
      + intros Hw r Hr%vref_iff. subst r. cbn [snd]. by rewrite (whiteb_at stored _ ov Hov).
      + intros Hw. by rewrite (whiteb_at stored _ ov Hov).
    - apply wp_ret. split_and!; [done| |done]. intros _ r Hr. unfold vref in Hr. rewrite Hc in Hr. by apply elem_of_nil in Hr. }
  intros w g' (-> & Hw1 & Hw2). apply wp_when; intros E.
  - destruct (Hw2 E) as [Hc Hwv]. eapply wp_deref_bind; [exact stored_at|]. cbn [marked]. apply wp_when; intros Hbl.
    + unfold luaC_barrierf. apply wp_get. change (gc_gcstate stored) with (gc_gcstate g). rewrite Hst. change (GCSpropagate =? GCSpropagate) with true. cbn iota.
      destruct (whiteb_true _ _ Hwv) as (ov & Hov & Hwo).
      eapply wp_mono; [apply (reallymark_spec 3 _ ov _ stored_ok Hov Hwo)| |done]; [destruct (obj ov); cbn; lia|].
      intros [] g2 [HM Hn]. destruct stored_cases as [Htc|[_ Hold]].
      * eapply mark_inv_Ev; [by apply Mk_Ev; [exact stored_ok|]|by apply stored_inv].
      * apply stored_marked; [done..|]. intros r Hr%vref_iff. by subst r.
    + apply stored_inv. destruct stored_cases as [?|[? _]]; [done|congruence].
  - destruct stored_cases as [Htc|[_ Hold]]; [by apply stored_inv|]. apply stored_marked; [apply Mk_refl|done|by apply Hw1].
Qed.
End store.

(** C39: While objects are being marked, storing a value in a closure, a prototype, a
    userdata or a closed upvalue and then calling [luaC_barrier] keeps the
    collector's invariant, whatever the colours of the two objects: a black
    object never refers to a white one that nobody will visit. *)
Theorem luaC_barrier_keeps_invariant l g p m b0 b v :
  mark_inv l g -> gc_gcstate g = GCSpropagate -> gc_heap g !! p = Some (mkObj m b0) ->
  holder b0 = true -> holder b = true -> tt_of b = tt_of b0 ->
  (forall r, r ∈ vref v -> has_type (gc_heap g) r) ->
  (forall r, r ∈ refs (gc_heap g) b -> r ∈ refs (gc_heap g) b0 \/ r ∈ vref v) ->
  wp (upd_obj p b;; luaC_barrier p v) (fun _ g' => mark_inv l g') never g.
Proof. intros Hi Hs Ho Hb0 Hb Htt Hv Hr. apply wp_modify. by apply (stored_barrier l g p m b0 b v). Qed.
End barrier.
