(* ===== verification/FuncSpec.v ===== *)
(** * FuncSpec.v: what lfunc.c promises

    The variables active at an instruction are found in order; a stack slot
    has at most one open upvalue, so closures that capture the same variable
    share it; a closed upvalue has the value that was in the slot. *)

From Stdlib Require Import Sorting.Sorted.
From S2P Require Import Prelude Machine Object Mem Zio Table TableInv TableSet Gc Func GcInv GcMark GcTraverse GcPropagate GcAtomic.

(** ** Local variables *)

Definition active (pc : Z) (v : LocVar) : bool := (startpc v <=? pc) && (pc <? endpc v).

(** The variables start in the order they are declared. *)
Definition by_startpc (u v : LocVar) : Prop := startpc u <= startpc v.

Lemma no_later_active pc v l : StronglySorted by_startpc (v :: l) -> pc < startpc v -> List.filter (active pc) (v :: l) = [].
Proof.
  intros Hs Hlt. assert (Hall : Forall (fun u => pc < startpc u) (v :: l)).
  { apply StronglySorted_inv in Hs as [_ Hf]. constructor; [done|]. eapply Forall_impl; [done|]. unfold by_startpc. lia. }
  clear -Hall. revert Hall. generalize (v :: l). intros k. induction 1 as [|u k Hu _ IH]; [done|]. cbn. unfold active at 1. by destruct (Z.leb_spec (startpc u) pc); [lia|].
Qed.

Lemma getlocalname_loop_spec l n pc : StronglySorted by_startpc l -> 1 <= n ->
  getlocalname_loop l n pc = varname <$> (List.filter (active pc) l !! Z.to_nat (n - 1)).
Proof.
  revert n. induction l as [|v l IH]; intros n Hs Hn; [done|]. apply StronglySorted_inv in Hs as Hs'. destruct Hs' as [Hs' _].
  cbn [getlocalname_loop]. destruct (Z.leb_spec (startpc v) pc) as [Hle|Hlt].
  - cbn [List.filter]. unfold active at 1. destruct (Z.leb_spec (startpc v) pc); [|lia]. destruct (pc <? endpc v); cbn [andb]; [|by apply IH].
    destruct (Z.eqb_spec (n - 1) 0) as [E|E]; [by rewrite E|]. rewrite IH by (done || lia).
    replace (Z.to_nat (n - 1)) with (S (Z.to_nat (n - 1 - 1))) by lia. done.
  - by rewrite no_later_active.
Qed.

(** [luaF_getlocalname(f, n, pc)] is the name of the [n]-th variable that
    is active at [pc], in the order of declaration, or NULL when fewer are
    active. *)
Theorem luaF_getlocalname_spec f n pc :
  StronglySorted by_startpc (pt_locvars f) -> 1 <= n ->
  luaF_getlocalname f n pc = varname <$> (List.filter (active pc) (pt_locvars f) !! Z.to_nat (n - 1)).
Proof. apply getlocalname_loop_spec. Qed.

Section func.
Context `{Krealloc} `{StringHash}.
Implicit Types (g : gstate) (a l : Z).

(** ** The list of open upvalues *)

(** The list of a thread: upvalues of its slots, from the top down. *)
Record open_list g l (list lvs : list Z) : Prop := {
  ol_levels : Forall2 (fun a lv => exists m, gc_heap g !! a = Some (mkObj m (BUpVal (UOpen l lv)))) list lvs;
  ol_sorted : StronglySorted Z.gt lvs;
}.

Lemma open_list_tail g l a list lv lvs : open_list g l (a :: list) (lv :: lvs) -> open_list g l list lvs.
Proof. intros [Hl Hs]. inversion Hl; subst. apply StronglySorted_inv in Hs as [? _]. by split. Qed.

Lemma open_list_head g l a list lvs : open_list g l (a :: list) lvs ->
  exists lv lvs' m, lvs = lv :: lvs' /\ gc_heap g !! a = Some (mkObj m (BUpVal (UOpen l lv))).
Proof. intros [Hl _]. inversion Hl as [|? lv ? lvs' (m & Ha)]; subst. by exists lv, lvs', m. Qed.

(** An upvalue is on the list once. *)
Lemma open_list_notin g l a list lv lvs : open_list g l (a :: list) (lv :: lvs) -> a ∉ list.
Proof.
  intros [Hl Hs] Hin. apply StronglySorted_inv in Hs as [_ Hf]. inversion Hl as [|? ? ? ? (m & Ha) Hl']; subst.
  apply list_elem_of_lookup in Hin as [i Hi]. destruct (Forall2_lookup_l _ _ _ _ _ Hl' Hi) as (lv' & Hlv' & m' & Ha').
  rewrite Ha in Ha'. injection Ha' as _ <-. rewrite Forall_lookup in Hf. specialize (Hf i lv Hlv'). lia.
Qed.

Lemma wp_open_level l a lv m g (Q : Z -> gstate -> Prop) E :
  gc_heap g !! a = Some (mkObj m (BUpVal (UOpen l lv))) -> Q lv g -> wp (open_level l a) Q E g.
Proof.
  intros Ha HQ. unfold open_level, gco2uv. apply wp_assoc. eapply wp_deref_bind; [done|]. apply wp_bind, wp_ret.
  rewrite Z.eqb_refl. by apply wp_ret.
Qed.

(** *** Finding *)

Lemma findupval_loop_spec l level list lvs before g (Q : Z + List.list Z * List.list Z -> gstate -> Prop) E :
  open_list g l list lvs ->
  (forall i a, list !! i = Some a -> lvs !! i = Some level -> Q (inl a) g) ->
  (level ∉ lvs -> Q (inr (before ++ take (length (filter (fun lv => level < lv) lvs)) list, drop (length (filter (fun lv => level < lv) lvs)) list)) g) ->
  wp (findupval_loop l level list before) Q E g.
Proof.
  revert lvs before. induction list as [|a list IH]; intros lvs before Hol H1 H2.
  - destruct Hol as [Hl _]. inversion Hl; subst. specialize (H2 ltac:(set_solver)). cbn in H2. rewrite app_nil_r in H2. exact H2.
  - destruct (open_list_head _ _ _ _ _ Hol) as (lv & lvs' & m & -> & Ha). cbn [findupval_loop]. apply wp_bind.
    eapply wp_open_level; [done|]. destruct (Z.geb_spec lv level) as [Hge|Hlt].
    + destruct (Z.eqb_spec lv level) as [->|Hne]; [apply wp_ret; by apply (H1 0%nat)|].
      eapply (IH lvs'); [by eapply open_list_tail|intros i b Hi Hb; by apply (H1 (S i))|].
      intros Hnin. rewrite <- app_assoc. cbn [app].
      assert (Hf : filter (fun lv => level < lv) (lv :: lvs') = lv :: filter (fun lv => level < lv) lvs') by (rewrite filter_cons_True; [done|lia]).
      assert (Hn : level ∉ lv :: lvs') by (apply not_elem_of_cons; split; [congruence|done]).
      specialize (H2 Hn). rewrite Hf in H2. exact H2.
    + apply wp_ret. assert (Hf : filter (fun x => level < x) (lv :: lvs') = []).
      { destruct Hol as [_ Hs]. apply StronglySorted_inv in Hs as [_ Hs]. clear -Hs Hlt.
        assert (Hall : Forall (fun x => ~ level < x) (lv :: lvs')) by (constructor; [lia|eapply Forall_impl; [done|intros; lia]]).
        clear -Hall. induction Hall; [done|]. rewrite filter_cons_False by done. done. }
      assert (Hn : level ∉ lv :: lvs').
      { destruct Hol as [_ Hs]. apply StronglySorted_inv in Hs as [_ Hs]. rewrite not_elem_of_cons. split; [lia|].
        intros Hin. rewrite Forall_forall in Hs. specialize (Hs _ Hin). lia. }
      specialize (H2 Hn). rewrite Hf in H2. cbn in H2. by rewrite app_nil_r in H2.
Qed.

Lemma sorted_split level lvs : StronglySorted Z.gt lvs ->
  lvs = filter (fun lv => level < lv) lvs ++ filter (fun lv => ~ level < lv) lvs.
Proof.
  induction 1 as [|lv lvs Hs IH Hf]; [done|]. destruct (decide (level < lv)) as [Hlt|Hge].
  - rewrite filter_cons_True, filter_cons_False by (done || lia). cbn. by rewrite <- IH.
  - rewrite filter_cons_False, (filter_cons_True _ lv) by done.
    assert (Hall : Forall (fun x => ~ level < x) lvs) by (eapply Forall_impl; [exact Hf|cbn; intros; lia]).
    assert (E : filter (fun x => level < x) lvs = []).
    { clear -Hall. induction Hall; [done|]. by rewrite filter_cons_False. }
    rewrite E in *. cbn in *. by rewrite <- IH.
Qed.

Lemma StronglySorted_insert lvs level : StronglySorted Z.gt lvs -> level ∉ lvs ->
  StronglySorted Z.gt (filter (fun lv => level < lv) lvs ++ level :: filter (fun lv => ~ level < lv) lvs).
Proof.
  induction 1 as [|lv lvs Hs IH Hf]; intros Hn; [repeat constructor|]. apply not_elem_of_cons in Hn as [Hne Hn]. specialize (IH Hn).
  assert (Hall : forall x, x ∈ lvs -> lv > x) by (by apply Forall_forall).
  destruct (decide (level < lv)) as [Hlt|Hge].
  - rewrite filter_cons_True, filter_cons_False by (done || lia). cbn. constructor; [done|]. apply Forall_forall.
    intros x Hx. rewrite elem_of_app, elem_of_cons, !list_elem_of_filter in Hx. destruct Hx as [[_ Hx]|[->|[_ Hx]]]; [auto|lia|auto].
  - rewrite filter_cons_False, (filter_cons_True _ lv) by done.
    assert (E : filter (fun x => level < x) lvs = []).
    { clear -Hall Hge. induction lvs as [|x lvs IH]; [done|].
      pose proof (Hall x ltac:(by left)). rewrite filter_cons_False by lia. apply IH. intros y Hy. apply Hall. by right. }
    rewrite E in *. cbn in *. apply StronglySorted_inv in IH as [Hs' Hf']. constructor; [constructor; [done|]|].
    + apply Forall_forall. intros x [_ Hx]%list_elem_of_filter. auto.
    + constructor; [lia|]. apply Forall_forall. intros x [_ Hx]%list_elem_of_filter. specialize (Hall x Hx). lia.
Qed.

Definition one_white g : Prop := Z.testbit (gc_currentwhite g) 0 = negb (Z.testbit (gc_currentwhite g) 1).

Lemma dead_bits g m : isdead g m =
  Z.testbit m 0 && negb (Z.testbit (gc_currentwhite g) 0) || Z.testbit m 1 && negb (Z.testbit (gc_currentwhite g) 1).
Proof.
  unfold isdead, otherwhite. change (testbits ?x WHITEBITS) with (iswhite x). rewrite iswhite_bits, !Z.land_spec, !Z.lxor_spec.
  change (Z.testbit WHITEBITS 0) with true. change (Z.testbit WHITEBITS 1) with true. by rewrite !xorb_true_r.
Qed.

(** A dead object that is found again comes back to life. *)
Lemma changewhite_dead g m : one_white g -> isdead g m = true -> isdead g (changewhite m) = false.
Proof.
  unfold one_white, changewhite. rewrite !dead_bits, !Z.lxor_spec. change (Z.testbit WHITEBITS 0) with true. change (Z.testbit WHITEBITS 1) with true.
  intros ->. by destruct (Z.testbit m 0), (Z.testbit m 1), (Z.testbit (gc_currentwhite g) 1).
Qed.

Lemma luaC_white_not_dead g : one_white g -> isdead g (luaC_white g) = false.
Proof.
  unfold one_white, luaC_white. rewrite dead_bits, !uwrap_spec, !Z.land_spec by lia. intros ->. cbn.
  by destruct (Z.testbit (gc_currentwhite g) 1); rewrite ?andb_false_r.
Qed.

(** The upvalue of a level, once it is found or made. *)
Record found (level : Z) (l ml : Z) (th : Thread) (lvs : list Z) (g : gstate) (uv : Z) (g' : gstate) : Prop := {
  fo_list : exists list' lvs', gc_heap g' !! l = Some (mkObj ml (BThread (set_openupval list' th))) /\
    open_list g' l list' lvs' /\ (forall x, x ∈ lvs' <-> x = level \/ x ∈ lvs) /\ uv ∈ list' /\ (level ∈ lvs -> list' = th_openupval th);
  fo_upval : exists m, gc_heap g' !! uv = Some (mkObj m (BUpVal (UOpen l level))) /\ isdead g' m = false;
  fo_other b : b <> l -> b <> uv -> gc_heap g' !! b = gc_heap g !! b;
}.

Lemma set_openupval_id th : set_openupval (th_openupval th) th = th.
Proof. by destruct th. Qed.

Lemma open_list_heap g g' l list lvs :
  (forall a lv m, gc_heap g !! a = Some (mkObj m (BUpVal (UOpen l lv))) -> exists m', gc_heap g' !! a = Some (mkObj m' (BUpVal (UOpen l lv)))) ->
  open_list g l list lvs -> open_list g' l list lvs.
Proof. intros Hh [Hl Hs]. split; [|done]. eapply Forall2_impl; [exact Hl|]. intros a lv (m & Ha). by eapply Hh. Qed.

(** The level has an upvalue. *)
Lemma found_old level l ml th lvs g i a :
  gc_heap g !! l = Some (mkObj ml (BThread th)) -> open_list g l (th_openupval th) lvs -> one_white g ->
  th_openupval th !! i = Some a -> lvs !! i = Some level ->
  wp (o ← deref a; g ← get; when (isdead g (marked o)) (upd_marked a changewhite);; mret a)
    (fun uv g' => found level l ml th lvs g uv g') never g.
Proof.
  intros Hl Hol Hw Hi Hlv. destruct (Forall2_lookup_l _ _ _ _ _ (ol_levels _ _ _ _ Hol) Hi) as (lv & Hlv' & m & Ha).
  rewrite Hlv in Hlv'. injection Hlv' as <-. eapply wp_deref_bind; [done|]. apply wp_get. cbn [marked].
  assert (Hal : a <> l) by (intros ->; by rewrite Hl in Ha).
  assert (Hin : level ∈ lvs) by by eapply list_elem_of_lookup_2.
  eapply (wp_seq _ _ (fun _ g' => exists m', g' = setg_heap (<[a := mkObj m' (BUpVal (UOpen l level))]> (gc_heap g)) g /\ isdead g m' = false)).
  { apply wp_when; intros Hd.
    - unfold upd_marked, wp, modify. exists (changewhite m). split; [|by apply changewhite_dead]. f_equal. apply map_eq. intros b.
      destruct (decide (b = a)) as [->|Hne]; [by rewrite lookup_alter_eq, lookup_insert_eq, Ha|by rewrite lookup_alter_ne, lookup_insert_ne by done].
    - exists m. split; [|done]. rewrite insert_id by done. by destruct g. }
  intros [] g' (m' & -> & Hd). apply wp_ret. split; cbn.
  - exists (th_openupval th), lvs. split_and!; [by rewrite set_openupval_id, lookup_insert_ne| |set_solver|by eapply list_elem_of_lookup_2|done].
    eapply open_list_heap; [|exact Hol]. cbn. intros b lv mb Hb. destruct (decide (b = a)) as [->|Hne].
    + rewrite Ha in Hb. injection Hb as _ <-. rewrite lookup_insert_eq. by eexists.
    + rewrite lookup_insert_ne by done. by eexists.
  - exists m'. by rewrite lookup_insert_eq.
  - intros b Hb1 Hb2. by rewrite lookup_insert_ne.
Qed.

Lemma Forall2_split_insert {A B} (R R' : A -> B -> Prop) (l : list A) (k : list B) n x y :
  Forall2 R l k -> (forall (u : A) (w : B), R u w -> R' u w) -> R' x y -> Forall2 R' (take n l ++ x :: drop n l) (take n k ++ y :: drop n k).
Proof.
  intros Hf HR Hxy. apply Forall2_app; [eapply Forall2_impl; [by apply Forall2_take|done]|].
  constructor; [done|]. eapply Forall2_impl; [by apply Forall2_drop|done].
Qed.

(** A new upvalue is made and put in its place. *)
Lemma found_new level l ml th lvs g :
  let n := length (filter (fun lv => level < lv) lvs) in
  gc_heap g !! l = Some (mkObj ml (BThread th)) -> open_list g l (th_openupval th) lvs -> one_white g ->
  gc_heap g !! gc_next g = None -> level ∉ lvs ->
  wp (luaM_malloc sizeof_UpVal;; g ← get; uv ← new_object (luaC_white g) (BUpVal (UOpen l level)); th2 ← gco2th l;
      upd_obj l (BThread (set_openupval (take n (th_openupval th) ++ uv :: drop n (th_openupval th)) th2));;
      modify (fun g => setg_uvhead (uv :: gc_uvhead g) g);; mret uv)
    (fun uv g' => found level l ml th lvs g uv g') mem_err g.
Proof.
  intros n Hl Hol Hw Hfresh Hn. eapply (wp_seq _ _ (fun _ g1 => exists t, g1 = setg_totalbytes t g)).
  { unfold wp, luaM_malloc. destruct (luaM_realloc_ _ _ g) as [[[]|e] g1] eqn:E.
    - apply luaM_realloc_Ok in E as ->. by eexists.
    - by apply luaM_realloc_Err in E as (-> & _ & _ & Hr). }
  intros [] g1 (t & ->). apply wp_get. set (uv := gc_next g) in *.
  assert (Hul : uv <> l) by (intros E; by rewrite E, Hl in Hfresh).
  apply wp_bind. unfold new_object, wp at 1. cbn [fst snd]. change (gc_next (setg_totalbytes t g)) with uv. apply wp_bind. eapply wp_gco2th; [cbn; rewrite lookup_insert_ne by done; exact Hl|].
  apply wp_modify, wp_modify, wp_ret. split; cbn.
  - exists (take n (th_openupval th) ++ uv :: drop n (th_openupval th)), (take n lvs ++ level :: drop n lvs).
    assert (Elvs : take n lvs = filter (fun lv => level < lv) lvs /\ drop n lvs = filter (fun lv => ~ level < lv) lvs).
    { pose proof (sorted_split level lvs (ol_sorted _ _ _ _ Hol)) as E. subst n. split; rewrite E at 2; [by rewrite take_app_length|by rewrite drop_app_length]. }
    split_and!.
    + rewrite lookup_alter_eq, lookup_insert_ne by done. by rewrite Hl.
    + split; [|destruct Elvs as [-> ->]; apply StronglySorted_insert; [apply Hol|done]].
      eapply Forall2_split_insert; [apply Hol|..]; cbn.
      * intros a lv (m & Ha). exists m. assert (a <> l) by (intros ->; by rewrite Hl in Ha). assert (a <> uv) by (intros ->; by rewrite Hfresh in Ha).
        by rewrite lookup_alter_ne, lookup_insert_ne by done.
      * rewrite lookup_alter_ne, lookup_insert_eq by done. by eexists.
    + intros x. pose proof (take_drop n lvs) as E. rewrite elem_of_app, elem_of_cons. rewrite <- E at 3. rewrite elem_of_app. tauto.
    + set_solver.
    + done.
  - exists (luaC_white g). rewrite lookup_alter_ne, lookup_insert_eq by done. split; [done|]. exact (luaC_white_not_dead g Hw).
  - intros b Hb1 Hb2. by rewrite lookup_alter_ne, lookup_insert_ne by done.
Qed.

Lemma open_list_unique g l list lvs a b ma mb level :
  open_list g l list lvs -> a ∈ list -> b ∈ list -> gc_heap g !! a = Some (mkObj ma (BUpVal (UOpen l level))) ->
  gc_heap g !! b = Some (mkObj mb (BUpVal (UOpen l level))) -> a = b.
Proof.
  intros [Hl Hs]. induction Hl as [|x lv list lvs (m & Hx) Hl IH]; [by intros ?%elem_of_nil|].
  apply StronglySorted_inv in Hs as [Hs Hf]. rewrite Forall_forall in Hf.
  assert (Hlv : forall c mc, c ∈ list -> gc_heap g !! c = Some (mkObj mc (BUpVal (UOpen l level))) -> lv > level).
  { intros c mc Hc Hcl. apply list_elem_of_lookup in Hc as [i Hi]. destruct (Forall2_lookup_l _ _ _ _ _ Hl Hi) as (k & Hk & mk & Hck).
    rewrite Hcl in Hck. injection Hck as _ <-. apply Hf. by eapply list_elem_of_lookup_2. }
  intros [->|Ha]%elem_of_cons [->|Hb]%elem_of_cons Hma Hmb; [done| | |by apply IH].
  - specialize (Hlv b mb Hb Hmb). rewrite Hma in Hx. injection Hx as _ ->. lia.
  - specialize (Hlv a ma Ha Hma). rewrite Hmb in Hx. injection Hx as _ ->. lia.
Qed.

Lemma found_unique level l ml th lvs g uv g' : found level l ml th lvs g uv g' ->
  forall b m, b ∈ (match gc_heap g' !! l with Some (mkObj _ (BThread th')) => th_openupval th' | _ => [] end) ->
    gc_heap g' !! b = Some (mkObj m (BUpVal (UOpen l level))) -> b = uv.
Proof.
  intros [(list' & lvs' & Hl & Hol & _ & Hin & _) (m' & Huv & _) _] b m. rewrite Hl. cbn. intros Hb Hbl.
  by eapply (open_list_unique g' l list' lvs').
Qed.

(** [luaF_findupval] finds the open upvalue of the stack slot, or makes one and
    links it in its place: the list stays ordered with one upvalue for a slot,
    it has the same upvalues as before and that of the slot, which is not
    dead; other objects are as they were.  Two closures that capture a
    variable so get the same upvalue. *)
Theorem luaF_findupval_spec l level ml th lvs g :
  gc_heap g !! l = Some (mkObj ml (BThread th)) -> open_list g l (th_openupval th) lvs -> one_white g ->
  gc_heap g !! gc_next g = None ->
  wp (luaF_findupval l level) (fun uv g' => found level l ml th lvs g uv g' /\
    forall b m, b ∈ (match gc_heap g' !! l with Some (mkObj _ (BThread th')) => th_openupval th' | _ => [] end) ->
      gc_heap g' !! b = Some (mkObj m (BUpVal (UOpen l level))) -> b = uv) mem_err g.
Proof.
  intros Hl Hol Hw Hfresh. eapply wp_mono; [|intros uv g' Hf; split; [exact Hf|by eapply found_unique]|done].
  unfold luaF_findupval. apply wp_bind. eapply wp_gco2th; [done|]. apply wp_bind. eapply findupval_loop_spec; [done|..].
  - intros i a Hi Hlv. apply wp_never. by eapply found_old.
  - intros Hn. exact (found_new level l ml th lvs g Hl Hol Hw Hfresh Hn).
Qed.

(** ** Closing *)

(** Marking leaves the bodies, and makes nothing dead. *)
Definition fewer_whites (m m' : Z) : Prop := forall g, isdead g m = false -> isdead g m' = false.
Definition recoloured (g g' : gstate) : Prop := forall a,
  option_relation (fun o o' => obj o' = obj o /\ fewer_whites (marked o) (marked o')) (fun _ => False) (fun _ => False)
    (gc_heap g !! a) (gc_heap g' !! a).

Lemma recoloured_refl g : recoloured g g.
Proof. intros a. destruct (gc_heap g !! a); [by split; [|intros ?]|done]. Qed.
Lemma recoloured_trans g1 g2 g3 : recoloured g1 g2 -> recoloured g2 g3 -> recoloured g1 g3.
Proof.
  intros H12 H23 a. specialize (H12 a). specialize (H23 a). destruct (gc_heap g1 !! a), (gc_heap g2 !! a), (gc_heap g3 !! a); cbn in *; try done.
  destruct H12 as [E1 F1], H23 as [E2 F2]. split; [congruence|]. intros k Hk. by apply F2, F1.
Qed.
Lemma recoloured_mark a f g : (forall m, fewer_whites m (f m)) -> recoloured g (mark_at a f g).
Proof.
  intros Hf b. cbn. destruct (decide (b = a)) as [->|Hne].
  - rewrite lookup_alter_eq. destruct (gc_heap g !! a); cbn; [|done]. by split.
  - rewrite lookup_alter_ne by done. apply recoloured_refl.
Qed.

Lemma fewer_white2gray m : fewer_whites m (white2gray m).
Proof. intros g _. by rewrite dead_bits; marks. Qed.
Lemma fewer_gray2black m : fewer_whites m (gray2black m).
Proof. intros g. rewrite !dead_bits. by marks. Qed.

Definition quiet (m : M gstate unit) : Prop := forall g, wp m (fun _ g' => recoloured g g') (fun _ => True) g.

Lemma quiet_seq m1 m2 : quiet m1 -> quiet m2 -> quiet (m1;; m2).
Proof.
  intros H1 H2 g. eapply wp_seq; [apply H1|]. intros [] g1 HR1. eapply wp_mono; [apply H2| |done].
  intros [] g2 HR2. by eapply recoloured_trans.
Qed.
Lemma quiet_deref a k : (forall o, quiet (k o)) -> quiet (deref a ≫= k).
Proof. intros Hk g. apply wp_bind. unfold wp, deref. destruct (gc_heap g !! a); [apply Hk|done]. Qed.
Lemma quiet_when b m : quiet m -> quiet (when b m).
Proof. intros Hm g. apply wp_when; [intros _; apply Hm|intros _; apply recoloured_refl]. Qed.
Lemma quiet_mark a f : (forall m, fewer_whites m (f m)) -> quiet (upd_marked a f).
Proof. intros Hf g. exact (recoloured_mark a f g Hf). Qed.
Lemma quiet_ret : quiet (mret tt).
Proof. intros g. apply recoloured_refl. Qed.

Lemma quiet_reallymark fuel a : quiet (reallymark fuel a).
Proof.
  revert a. induction fuel as [|fuel IH]; intros a; [done|]. cbn [reallymark]. apply quiet_deref. intros o.
  apply quiet_seq; [apply quiet_mark, fewer_white2gray|].
  assert (Hobj : forall t, quiet (mark_object (reallymark fuel) t)) by (intros t; apply quiet_deref; intros; by apply quiet_when).
  assert (Hgray : quiet (modify (fun g => setg_gray (a :: gc_gray g) g))) by (intros g; exact (recoloured_refl g)).
  destruct (obj o) as [s|mt env len|uv|cl|t|th|p]; [apply quiet_ret| | |exact Hgray..].
  - apply quiet_seq; [apply quiet_mark, fewer_gray2black|]. apply quiet_seq; [by apply quiet_when|apply Hobj].
  - assert (Hk : forall v, quiet (mark_value (reallymark fuel) v;; match uv with UClosed _ => upd_marked a gray2black | UOpen _ _ => mret tt end)).
    { intros v. apply quiet_seq; [by apply quiet_when|]. destruct uv; [apply quiet_ret|apply quiet_mark, fewer_gray2black]. }
    destruct uv as [th lv|v]; [|exact (Hk v)]. intros g. apply wp_bind. unfold uv_value, gco2th. apply wp_assoc, wp_bind.
    unfold wp at 1, deref. destruct (gc_heap g !! th) as [[m []]|]; try done. apply wp_bind, wp_ret. unfold wp, array_at, lift.
    destruct (znth _ lv); [apply Hk|done].
Qed.

(** What the collector needs for the upvalues that are closed while it marks. *)
Definition calm g : Prop := gc_gcstate g = GCSpropagate ->
  heap_ok (gc_heap g) /\ forall a o, gc_heap g !! a = Some o -> isdead g (marked o) = false.

(** Objects but those of [X] keep their bodies, and stay dead or not dead. *)
Definition same_but (X : list Z) g g' : Prop := forall a, a ∉ X ->
  option_relation (fun o o' => obj o' = obj o /\ isdead g' (marked o') = isdead g (marked o)) (fun _ => False) (fun _ => False)
    (gc_heap g !! a) (gc_heap g' !! a).

Lemma same_but_trans X g1 g2 g3 : same_but X g1 g2 -> same_but X g2 g3 -> same_but X g1 g3.
Proof.
  intros H12 H23 a Ha. specialize (H12 a Ha). specialize (H23 a Ha). destruct (gc_heap g1 !! a), (gc_heap g2 !! a), (gc_heap g3 !! a); cbn in *; try done.
  destruct H12, H23. split; congruence.
Qed.
Lemma same_but_mono X Y g g' : X ⊆ Y -> same_but X g g' -> same_but Y g g'.
Proof. intros HXY Hs a Ha. apply Hs. set_solver. Qed.

Lemma wp_conj {A} (m : M gstate A) (Q Q' : A -> gstate -> Prop) E E' g : wp m Q E g -> wp m Q' E' g -> wp m (fun x g' => Q x g' /\ Q' x g') E g.
Proof. unfold wp. destruct (m g) as [[x|e] g']; auto. Qed.

(** What closing leaves of the rest of the state. *)
Definition same_state g g' : Prop :=
  gc_currentwhite g' = gc_currentwhite g /\ gc_gcstate g' = gc_gcstate g /\ gc_uvhead g' = gc_uvhead g.

Lemma dead_same_white g g' m : gc_currentwhite g' = gc_currentwhite g -> isdead g' m = isdead g m.
Proof. intros E. unfold isdead, otherwhite. by rewrite E. Qed.

(** Marking while nothing is dead. *)
Lemma recoloured_calm X g g' : same_state g g' -> gc_gcstate g = GCSpropagate -> calm g -> recoloured g g' -> heap_ok (gc_heap g') ->
  same_but X g g' /\ calm g'.
Proof.
  intros (Ew & Es & Eu) Hst Hc Hr Hok. destruct (Hc Hst) as [_ Hd]. split.
  - intros a _. specialize (Hr a). destruct (gc_heap g !! a) as [o|] eqn:Ho, (gc_heap g' !! a) as [o'|]; cbn in *; try done.
    destruct Hr as [Eb Hf]. split; [done|]. rewrite (dead_same_white g g') by done. by rewrite (Hd a o Ho), (Hf g (Hd a o Ho)).
  - intros _. split; [done|]. intros a o' Ho'. specialize (Hr a). rewrite Ho' in Hr. destruct (gc_heap g !! a) as [o|] eqn:Ho; [|done].
    destruct Hr as [_ Hf]. rewrite (dead_same_white g g') by done. apply Hf. by eapply Hd.
Qed.

Lemma wp_barrier uv v g :
  gc_gcstate g = GCSpropagate -> calm g -> is_Some (gc_heap g !! uv) -> (forall r, r ∈ vref v -> has_type (gc_heap g) r) ->
  wp (luaC_barrier uv v) (fun _ g' => same_state g g' /\ recoloured g g' /\ heap_ok (gc_heap g')) never g.
Proof.
  intros Hst Hc [o Ho] Ht. destruct (Hc Hst) as [Hok _]. unfold luaC_barrier, valiswhite. unfold vref in Ht.
  destruct (iscollectable v); [|apply wp_bind, wp_ret; split_and!; [done|apply recoloured_refl|done]].
  destruct (Ht (ttype v, gcvalue v)) as (ov & Hov & _); [by left|]. cbn in Hov.
  apply wp_assoc. eapply wp_deref_bind; [done|]. apply wp_bind, wp_ret. apply wp_when; intros Hw; [|split_and!; [done|apply recoloured_refl|done]].
  eapply wp_deref_bind; [done|]. apply wp_when; intros Hb; [|split_and!; [done|apply recoloured_refl|done]].
  unfold luaC_barrierf. apply wp_get. rewrite Hst. change (GCSpropagate =? GCSpropagate) with true. cbn iota.
  eapply wp_mono; [eapply wp_conj; [apply (reallymark_spec 3 _ ov g Hok Hov Hw); destruct (obj ov); cbn; lia|apply (quiet_reallymark 3)]| |done].
  intros [] g' [[HM _] HR]. split_and!; [|done|eapply heap_sim_ok; [apply HM|done]].
  pose proof (mk_rest _ _ _ HM) as E. split_and!; [exact (f_equal gc_currentwhite E)|exact (f_equal gc_gcstate E)|exact (f_equal gc_uvhead E)].
Qed.

Lemma push_root_heap uv g : gc_heap (push_root uv g) = gc_heap g /\ same_state g (push_root uv g).
Proof. unfold push_root. by destruct (gc_root_swept g). Qed.

Lemma linkupval_spec uv mu v g :
  gc_heap g !! uv = Some (mkObj mu (BUpVal (UClosed v))) -> calm g ->
  wp (luaC_linkupval uv) (fun _ g' => same_state g g' /\ same_but [uv] g g' /\ calm g' /\
    exists m', gc_heap g' !! uv = Some (mkObj m' (BUpVal (UClosed v)))) never g.
Proof.
  intros Ho Hc. unfold luaC_linkupval. apply wp_modify. destruct (push_root_heap uv g) as [Eh Es]. set (g1 := push_root uv g) in *.
  destruct Es as (Ew & Est & Eu). assert (Hc1 : calm g1).
  { intros Hst. rewrite Est in Hst. destruct (Hc Hst) as [Hok Hd]. rewrite Eh. split; [done|]. intros a o Hao.
    rewrite (dead_same_white g) by done. by eapply Hd. }
  assert (Hs1 : forall X, same_but X g g1).
  { intros X a _. rewrite Eh. destruct (gc_heap g !! a); cbn; [|done]. split; [done|by apply dead_same_white]. }
  assert (Ho1 : gc_heap g1 !! uv = Some (mkObj mu (BUpVal (UClosed v)))) by by rewrite Eh.
  eapply wp_deref_bind; [done|]. cbn [marked]. apply wp_when; intros Hg; [|split_and!; [exact (conj Ew (conj Est Eu))|apply Hs1|done|by eexists]].
  apply wp_get. destruct (Z.eqb_spec (gc_gcstate g1) GCSpropagate) as [Hst|Hst].
  - apply wp_modify. fold (mark_at uv gray2black g1). set (g2 := mark_at uv gray2black g1).
    pose proof (mark_at_lookup uv gray2black g1 _ Ho1) as Ho2. cbn [marked obj] in Ho2. fold g2 in Ho2. destruct (Hc1 Hst) as [Hok1 _].
    pose proof (mk_sim _ _ _ (Mk_blacken uv g1 _ Ho1)) as Hsim. fold g2 in Hsim. pose proof (heap_sim_ok _ _ Hsim Hok1) as Hok2.
    destruct (recoloured_calm [uv] g1 g2 ltac:(done) Hst Hc1 (recoloured_mark uv gray2black g1 fewer_gray2black) Hok2) as [Hs2 Hc2].
    unfold gco2uv. apply wp_assoc. eapply wp_deref_bind; [done|]. apply wp_bind, wp_ret, wp_bind, wp_ret.
    eapply wp_mono; [apply (wp_barrier uv v g2); [done|done|by eexists|]| |done].
    { intros r Hr. destruct (Hok2 uv _ Ho2) as [_ Ht]. by apply Ht. }
    intros [] g3 (Ess & HR & Hok3). destruct (recoloured_calm [uv] g2 g3 Ess Hst Hc2 HR Hok3) as [Hs3 Hc3].
    destruct Ess as (Ew3 & Est3 & Eu3). split_and!; [split_and!; [exact (eq_trans Ew3 Ew)|exact (eq_trans Est3 Est)|exact (eq_trans Eu3 Eu)]| |done|].
    + eapply same_but_trans; [apply Hs1|]. by eapply same_but_trans.
    + specialize (HR uv). rewrite Ho2 in HR. destruct (gc_heap g3 !! uv) as [[m3 b3]|]; [|done]. destruct HR as [Eb _]. cbn in Eb. subst b3. by eexists.
  - unfold upd_marked, wp, modify. fold (mark_at uv (makewhite g1) g1). pose proof (mark_at_lookup uv (makewhite g1) g1 _ Ho1) as Ho2.
    split_and!; [exact (conj Ew (conj Est Eu))| | |by eexists].
    + intros a Ha. cbn. rewrite lookup_alter_ne by set_solver. rewrite Eh. destruct (gc_heap g !! a); cbn; [|done]. split; [done|by apply dead_same_white].
    + intros Hp. by cbn in Hp.
Qed.

(** A new body for an object; a thread keeps its stack. *)
Lemma heap_ok_alter h a m b b' :
  heap_ok h -> h !! a = Some (mkObj m b) -> tt_of b' = tt_of b ->
  (forall t, b = BThread t -> exists t', b' = BThread t' /\ th_stack t' = th_stack t /\ th_top t' = th_top t) ->
  obj_ok h b' -> heap_ok (alter (fun o => mkObj (marked o) b') a h).
Proof.
  intros Hok Ho Htt Hth Hb'. set (h' := alter _ a h).
  assert (Hat : h' !! a = Some (mkObj m b')) by (subst h'; by rewrite lookup_alter_eq, Ho).
  assert (Hne : forall x, x <> a -> h' !! x = h !! x) by (intros x Hx; subst h'; by rewrite lookup_alter_ne).
  assert (Hsv : forall x lv, stack_value h' x lv = stack_value h x lv).
  { intros x lv. unfold stack_value. destruct (decide (x = a)) as [->|Hx]; [|by rewrite Hne]. rewrite Hat, Ho.
    destruct b as [| | | | |t|]; [by destruct b'..| |by destruct b']. destruct (Hth t eq_refl) as (t' & -> & -> & _). done. }
  assert (Hrefs : forall x, refs h' x = refs h x) by (intros [| |[]| | | |]; try done; unfold refs; cbn; by rewrite Hsv).
  assert (Hty : forall r, has_type h r -> has_type h' r).
  { intros r (o & Hr & Ht). destruct (decide (r.2 = a)) as [E|Hx]; [|exists o; by rewrite Hne].
    rewrite E, Ho in Hr. injection Hr as <-. exists (mkObj m b'). rewrite E. split; [done|]. cbn in *. congruence. }
  assert (Hall : forall x, obj_ok h x -> obj_ok h' x).
  { intros x [Hsh Hr]. split; [|intros r; rewrite Hrefs; intros Hin; by apply Hty, Hr].
    destruct x as [| |[th lv|]| | | |]; try done. destruct Hsh as (mm & t & Ht & Hlv). destruct (decide (th = a)) as [->|Hx].
    - rewrite Ho in Ht. injection Ht as -> ->. destruct (Hth t eq_refl) as (t' & -> & _ & Et). exists mm, t'. by rewrite Et.
    - exists mm, t. by rewrite Hne. }
  intros x o Hx. destruct (decide (x = a)) as [->|Hxa]; [rewrite Hat in Hx; injection Hx as <-; by apply Hall|].
  rewrite Hne in Hx by done. by apply Hall, (Hok x).
Qed.

Lemma wp_freemem n g (Q : unit -> gstate -> Prop) E : (forall t, Q tt (setg_totalbytes t g)) -> wp (luaM_freemem n) Q E g.
Proof.
  intros HQ. unfold luaM_freemem, luaM_realloc_, wp. change (0 >? 0) with false. rewrite andb_false_r. apply HQ.
Qed.

(** One turn of the loop of [luaF_close]. *)
Record closed_one (l : Z) (th' : Thread) (uv mu : Z) (v : TValue) (g g' : gstate) : Prop := {
  co_thread : exists ml, gc_heap g' !! l = Some (mkObj ml (BThread th'));
  co_other : same_but [l; uv] g g';
  co_calm : calm g';
  co_white : gc_currentwhite g' = gc_currentwhite g;
  co_uvhead : gc_uvhead g' = filter (fun x => x <> uv) (gc_uvhead g);
  co_upval : if isdead g mu then gc_heap g' !! uv = None else exists m', gc_heap g' !! uv = Some (mkObj m' (BUpVal (UClosed v)));
}.

Section step.
Context (l ml uv mu lv : Z) (th : Thread) (next : list Z) (v : TValue) (g : gstate).
Context (Hl : gc_heap g !! l = Some (mkObj ml (BThread th))) (Huv : gc_heap g !! uv = Some (mkObj mu (BUpVal (UOpen l lv)))).
Context (Hv : znth (th_stack th) lv = Some v) (Hc : calm g).

Definition close_th : Thread := set_openupval next th.
Definition close_st : gstate := setg_heap (alter (fun o => mkObj (marked o) (BThread close_th)) l (gc_heap g)) g.

Lemma step_ne : uv <> l.
Proof. intros E. by rewrite E, Hl in Huv. Qed.
Lemma step_l : gc_heap close_st !! l = Some (mkObj ml (BThread close_th)).
Proof. cbn. by rewrite lookup_alter_eq, Hl. Qed.
Lemma step_uv : gc_heap close_st !! uv = Some (mkObj mu (BUpVal (UOpen l lv))).
Proof. cbn. rewrite lookup_alter_ne; [done|]. intros E. by apply step_ne. Qed.

Lemma step_ok : heap_ok (gc_heap g) -> heap_ok (gc_heap close_st).
Proof.
  intros Hok. apply (heap_ok_alter _ l ml (BThread th) (BThread close_th)); [done..| |].
  - intros t [= <-]. by exists close_th.
  - destruct (Hok l _ Hl) as [Hsh Hr]. split; [|exact Hr]. by destruct Hsh.
Qed.


Lemma step_dead : isdead g mu = true -> wp (luaF_freeupval uv) (fun _ g' => closed_one l close_th uv mu v g g') never close_st.
Proof.
  intros Hd. unfold luaF_freeupval, gco2uv. apply wp_assoc. eapply wp_deref_bind; [exact step_uv|]. apply wp_bind, wp_ret.
  unfold unlinkupval. apply wp_modify. apply wp_bind, wp_freemem. intros t. unfold wp, modify, free_object.
  pose proof step_ne as Hne. split; [..|done|done|].
  - exists ml. cbn. rewrite lookup_delete_ne by done. exact step_l.
  - intros a Ha. cbn. rewrite lookup_delete_ne, lookup_alter_ne by set_solver. by destruct (gc_heap g !! a).
  - intros Hst. destruct (Hc Hst) as [_ Hnd]. specialize (Hnd uv _ Huv). cbn in Hnd. congruence.
  - rewrite Hd. cbn. apply lookup_delete_eq.
Qed.

Lemma step_live : isdead g mu = false ->
  wp (unlinkupval uv;; u ← gco2uv uv; x ← uv_value u; upd_obj uv (BUpVal (UClosed x));; luaC_linkupval uv)
    (fun _ g' => closed_one l close_th uv mu v g g') never close_st.
Proof.
  intros Hd. pose proof step_ne as Hne. unfold unlinkupval. apply wp_modify. set (g2 := setg_uvhead _ close_st).
  unfold gco2uv. apply wp_assoc. eapply wp_deref_bind; [exact step_uv|]. apply wp_bind, wp_ret.
  cbn [uv_value]. apply wp_assoc, wp_bind. eapply wp_gco2th; [exact step_l|]. change (th_stack close_th) with (th_stack th).
  apply wp_bind. eapply wp_ok; [unfold array_at, lift; by rewrite Hv|]. apply wp_modify.
  set (g3 := setg_heap _ g2). assert (H3 : gc_heap g3 !! uv = Some (mkObj mu (BUpVal (UClosed v)))).
  { cbn. by rewrite lookup_alter_eq, lookup_alter_ne, Huv by done. }
  assert (Hc3 : calm g3).
  { intros Hst. destruct (Hc Hst) as [Hok Hnd]. split.
    - pose proof (step_ok Hok) as Hok1. refine (heap_ok_alter _ uv mu _ (BUpVal (UClosed v)) Hok1 step_uv _ _ _); [done..|].
      split; [done|]. intros r Hr. destruct (Hok1 uv _ step_uv) as [_ Ht]. apply Ht. cbn [obj refs refs_with]. unfold refs. cbn [refs_with].
      unfold stack_value. rewrite step_l. change (th_stack close_th) with (th_stack th). by rewrite Hv.
    - intros a o Ha. cbn in Ha. change (isdead g3) with (isdead g). destruct (decide (a = uv)) as [->|H1].
      + rewrite lookup_alter_eq, lookup_alter_ne, Huv in Ha by done. by injection Ha as <-.
      + rewrite lookup_alter_ne in Ha by done. destruct (decide (a = l)) as [->|H2].
        * rewrite lookup_alter_eq, Hl in Ha. injection Ha as <-. exact (Hnd l _ Hl).
        * rewrite lookup_alter_ne in Ha by done. by eapply Hnd. }
  eapply wp_mono; [exact (linkupval_spec uv mu v g3 H3 Hc3)| |done]. intros [] g' ((Ew & Es & Eu) & Hsame & Hcalm & Hm).
  split; [| |done|exact Ew|exact Eu|by rewrite Hd].
  - specialize (Hsame l ltac:(set_solver)). assert (E : gc_heap g3 !! l = Some (mkObj ml (BThread close_th))) by (cbn; rewrite lookup_alter_ne by done; exact step_l).
    rewrite E in Hsame. destruct (gc_heap g' !! l) as [[m' b']|]; [|done]. destruct Hsame as [Eb _]. cbn in Eb. subst b'. by eexists.
  - intros a Ha. specialize (Hsame a ltac:(set_solver)). cbn in Hsame. rewrite !lookup_alter_ne in Hsame by set_solver. exact Hsame.
Qed.
End step.

(** The slots from [level] up are at the front of the list. *)
Definition closing (level : Z) (lvs : list Z) : nat := length (filter (fun lv => level <= lv) lvs).

Record closed_all (l level : Z) (th : Thread) (lvs : list Z) (g g' : gstate) : Prop := {
  ca_thread : exists ml, gc_heap g' !! l = Some (mkObj ml (BThread (set_openupval (drop (closing level lvs) (th_openupval th)) th)));
  ca_other : same_but (l :: take (closing level lvs) (th_openupval th)) g g';
  ca_uvhead : gc_uvhead g' = filter (fun x => x ∉ take (closing level lvs) (th_openupval th)) (gc_uvhead g);
  ca_upvals i uv lv v mu u : th_openupval th !! i = Some uv -> lvs !! i = Some lv -> level <= lv -> znth (th_stack th) lv = Some v ->
    gc_heap g !! uv = Some (mkObj mu u) ->
    if isdead g mu then gc_heap g' !! uv = None else exists m', gc_heap g' !! uv = Some (mkObj m' (BUpVal (UClosed v)));
}.

Lemma filter_filter_notin (x : Z) (ys l : list Z) :
  filter (fun z => z ∉ ys) (filter (fun z => z <> x) l) = filter (fun z => z ∉ x :: ys) l.
Proof.
  induction l as [|z l IH]; [done|]. destruct (decide (z = x)) as [->|Hne].
  - rewrite (filter_cons_False (fun z => z <> x)) by tauto. rewrite (filter_cons_False (fun z => z ∉ x :: ys)); [done|]. set_solver.
  - rewrite (filter_cons_True (fun z => z <> x)) by done. destruct (decide (z ∈ ys)) as [Hin|Hin].
    + rewrite filter_cons_False by tauto. rewrite (filter_cons_False (fun z => z ∉ x :: ys)); [done|]. set_solver.
    + rewrite filter_cons_True by done. rewrite (filter_cons_True (fun z => z ∉ x :: ys)); [by rewrite IH|]. set_solver.
Qed.

Lemma filter_notin_nil (l : list Z) : filter (fun z => z ∉ []) l = l.
Proof. induction l as [|z l IH]; [done|]. rewrite filter_cons_True; [by rewrite IH|]. set_solver. Qed.

(** Nothing to close. *)
Lemma closed_none l level ml th lvs g :
  gc_heap g !! l = Some (mkObj ml (BThread th)) -> Forall (fun lv => lv < level) lvs -> closed_all l level th lvs g g.
Proof.
  intros Hl Hall. assert (E : closing level lvs = 0%nat).
  { unfold closing. clear -Hall. induction Hall; [done|]. rewrite filter_cons_False; [done|lia]. }
  split; rewrite ?E, ?take_0, ?drop_0.
  - exists ml. rewrite Hl. by rewrite set_openupval_id.
  - intros a _. by destruct (gc_heap g !! a).
  - by rewrite filter_notin_nil.
  - intros i uv lv v mu u _ Hlv Hle. rewrite Forall_lookup in Hall. specialize (Hall i lv Hlv). lia.
Qed.

(** One upvalue closed, then the others. *)
Lemma closed_cons l level ml th uv next lv lvs mu v g g1 g2 :
  gc_heap g !! l = Some (mkObj ml (BThread th)) -> open_list g l (th_openupval th) (lv :: lvs) -> th_openupval th = uv :: next ->
  gc_heap g !! uv = Some (mkObj mu (BUpVal (UOpen l lv))) -> level <= lv -> znth (th_stack th) lv = Some v ->
  closed_one l (set_openupval next th) uv mu v g g1 -> closed_all l level (set_openupval next th) lvs g1 g2 ->
  closed_all l level th (lv :: lvs) g g2.
Proof.
  intros Hl Hol Eth Huv Hle Hv [Ht Ho Hc Hw Hu Hx] [Ht' Ho' Hu' Hx']. rewrite Eth in Hol. pose proof (open_list_notin _ _ _ _ _ _ Hol) as Hnin.
  assert (En : closing level (lv :: lvs) = S (closing level lvs)) by (unfold closing; by rewrite filter_cons_True).
  assert (Hnt : uv ∉ l :: take (closing level lvs) next).
  { apply not_elem_of_cons. split; [intros ->; by rewrite Hl in Huv|]. intros Hin. apply Hnin. apply list_elem_of_lookup in Hin as [i Hi]. apply lookup_take_Some in Hi as [Hi _]. by eapply list_elem_of_lookup_2. }
  split; rewrite ?En, ?Eth; cbn [take drop].
  - exact Ht'.
  - eapply same_but_trans; [eapply (same_but_mono [l; uv]); [set_solver|done]|]. eapply same_but_mono; [|exact Ho']. cbn. set_solver.
  - rewrite Hu', Hu. cbn. by rewrite filter_filter_notin.
  - intros [|i] uv' lv' v' mu' u Hi Hlv' Hle' Hv' Huv'; cbn in Hi, Hlv'.
    + injection Hi as <-. injection Hlv' as <-. rewrite Huv in Huv'. injection Huv' as <- <-. rewrite Hv in Hv'. injection Hv' as <-.
      specialize (Ho' uv Hnt). destruct (isdead g mu); [rewrite Hx in Ho'; by destruct (gc_heap g2 !! uv)|].
      destruct Hx as [m' Hm']. rewrite Hm' in Ho'. destruct (gc_heap g2 !! uv) as [[m2 b2]|]; [|done]. destruct Ho' as [Eb _]. cbn in Eb. subst b2. by eexists.
    + assert (Hne : uv' ∉ [l; uv]).
      { apply list_elem_of_lookup_2 in Hi as Hin. intros Hc'. assert (uv' = l) as -> by set_solver.
        destruct Hol as [Hls _]. destruct (Forall2_lookup_l _ _ _ (S i) l Hls) as (k & _ & m & Hk); [exact Hi|]. by rewrite Hl in Hk. }
      specialize (Ho uv' Hne). rewrite Huv' in Ho. destruct (gc_heap g1 !! uv') as [[m1 b1]|] eqn:E1; [|done]. destruct Ho as [Eb Ed]. cbn in Eb, Ed. subst b1.
      specialize (Hx' i uv' lv' v' m1 u Hi Hlv' Hle' Hv' E1). by rewrite Ed in Hx'.
Qed.

Lemma close_loop_spec fuel l level ml th lvs g :
  gc_heap g !! l = Some (mkObj ml (BThread th)) -> open_list g l (th_openupval th) lvs ->
  (forall lv, lv ∈ lvs -> 0 <= lv < zlen (th_stack th)) -> calm g -> (length (th_openupval th) < fuel)%nat ->
  wp (close_loop fuel l level) (fun _ g' => closed_all l level th lvs g g') never g.
Proof.
  revert ml th lvs g. induction fuel as [|fuel IH]; intros ml th lvs g Hl Hol Hst Hc Hf; [lia|].
  cbn [close_loop]. apply wp_bind. eapply wp_gco2th; [done|]. destruct (th_openupval th) as [|uv next] eqn:Eth.
  { apply wp_ret. eapply closed_none; [done|]. destruct Hol as [Hls _]. by inversion Hls. }
  destruct (open_list_head _ _ _ _ _ Hol) as (lv & lvs' & mu & -> & Huv). apply wp_bind. eapply wp_open_level; [done|].
  destruct (Z.geb_spec lv level) as [Hge|Hlt].
  2: { apply wp_ret. eapply closed_none; [done|]. destruct Hol as [_ Hs]. apply StronglySorted_inv in Hs as [_ Hs].
       constructor; [done|]. eapply Forall_impl; [done|]. cbn. intros. lia. }
  destruct (znth_is_Some (th_stack th) lv) as [v Hv]; [apply Hst; by left|].
  eapply wp_deref_bind; [done|]. apply wp_modify, wp_get. fold (close_th th next) (close_st l th next g). cbn [marked].
  eapply (wp_seq _ _ (fun _ g1 => closed_one l (close_th th next) uv mu v g g1)).
  { change (isdead (close_st l th next g) mu) with (isdead g mu). destruct (isdead g mu) eqn:Hd; [exact (step_dead l ml uv mu lv th next v g Hl Huv Hv Hc Hd)|exact (step_live l ml uv mu lv th next v g Hl Huv Hv Hc Hd)]. }
  intros [] g1 H1. destruct (co_thread _ _ _ _ _ _ _ H1) as [ml1 Hl1].
  assert (Hol1 : open_list g1 l next lvs').
  { pose proof (open_list_notin _ _ _ _ _ _ Hol) as Hnin. pose proof (open_list_tail _ _ _ _ _ _ Hol) as [Hls Hs]. split; [|done].
    apply Forall2_same_length_lookup. split; [by eapply Forall2_length|]. intros i a k Hi Hk.
    destruct (Forall2_lookup_l _ _ _ _ _ Hls Hi) as (k' & Hk' & m & Ha). rewrite Hk in Hk'. injection Hk' as <-.
    assert (Hne : a ∉ [l; uv]).
    { apply list_elem_of_lookup_2 in Hi as Hin. intros Hin2. assert (a = l) as -> by set_solver. by rewrite Hl in Ha. }
    pose proof (co_other _ _ _ _ _ _ _ H1 a Hne) as Hsame. rewrite Ha in Hsame. destruct (gc_heap g1 !! a) as [[m1 b1]|]; [|done].
    destruct Hsame as [Eb _]. cbn in Eb. subst b1. by eexists. }
  eapply wp_mono; [apply (IH ml1 (close_th th next) lvs' g1 Hl1 Hol1)| |done].
  - intros k Hk. apply Hst. by right.
  - by eapply co_calm.
  - cbn in *. lia.
  - intros [] g2 H2. rewrite <- Eth in Hol. eapply closed_cons; [exact Hl|exact Hol|exact Eth|exact Huv|lia|exact Hv|exact H1|exact H2].
Qed.

(** *** The thread, whatever the heap

    When it returns, [luaF_close] has left the thread, but for its list of open
    upvalues, as it was. *)
Definition keeps_thread l (g g' : gstate) : Prop := forall m th, gc_heap g !! l = Some (mkObj m (BThread th)) ->
  exists m' ol, gc_heap g' !! l = Some (mkObj m' (BThread (set_openupval ol th))).
Definition thread_kept l (m : M gstate unit) : Prop := forall g, wp m (fun _ g' => keeps_thread l g g') (fun _ => True) g.

Lemma keeps_thread_same l g g' : gc_heap g' !! l = gc_heap g !! l -> keeps_thread l g g'.
Proof. intros E m th Hl. exists m, (th_openupval th). by rewrite set_openupval_id, E. Qed.
Lemma keeps_thread_trans l g1 g2 g3 : keeps_thread l g1 g2 -> keeps_thread l g2 g3 -> keeps_thread l g1 g3.
Proof.
  intros H12 H23 m th Hl. destruct (H12 m th Hl) as (m2 & ol & Hl2). destruct (H23 _ _ Hl2) as (m3 & ol3 & Hl3). by exists m3, ol3.
Qed.
Lemma thread_kept_seq l m1 m2 : thread_kept l m1 -> thread_kept l m2 -> thread_kept l (m1;; m2).
Proof.
  intros H1 H2 g. eapply wp_seq; [apply H1|]. intros [] g1 HR1. eapply wp_mono; [apply H2| |done].
  intros [] g2 HR2. by eapply keeps_thread_trans.
Qed.
Lemma thread_kept_quiet l m : quiet m -> thread_kept l m.
Proof.
  intros Hm g. eapply wp_mono; [apply Hm| |done]. intros [] g' HR mm th Hl. specialize (HR l). rewrite Hl in HR.
  destruct (gc_heap g' !! l) as [[m' b']|]; [|done]. destruct HR as [Eb _]. cbn in Eb. subst b'. exists m', (th_openupval th).
  by rewrite set_openupval_id.
Qed.
Lemma thread_kept_reads {A} l (m : M gstate A) (k : A -> M gstate unit) :
  (forall g, (m g).2 = g) -> (forall x, thread_kept l (k x)) -> thread_kept l (m ≫= k).
Proof.
  intros Hm Hk g. apply wp_bind. specialize (Hm g). unfold wp at 1. destruct (m g) as [[a|e] g1]; cbn in Hm; subst; [apply Hk|done].
Qed.
Lemma gco2uv_reads uv g : (gco2uv uv g).2 = g.
Proof. unfold gco2uv, deref. m_simpl. destruct (gc_heap g !! uv) as [[? []]|]; done. Qed.
Lemma uv_value_reads u g : (uv_value u g).2 = g.
Proof.
  destruct u as [th lv|v]; [|done]. unfold uv_value, gco2th, deref, array_at, lift. m_simpl.
  by destruct (gc_heap g !! th) as [[? []]|].
Qed.

Lemma thread_kept_mark l a f : thread_kept l (upd_marked a f).
Proof.
  intros g m th Hl. unfold upd_marked, modify. cbn. destruct (decide (l = a)) as [<-|].
  - rewrite lookup_alter_eq, Hl. cbn. exists (f m), (th_openupval th). by rewrite set_openupval_id.
  - rewrite lookup_alter_ne by done. exists m, (th_openupval th). by rewrite set_openupval_id.
Qed.
Lemma thread_kept_when l b m : thread_kept l m -> thread_kept l (when b m).
Proof. intros Hm g. apply wp_when; [intros _; apply Hm|intros _; by apply keeps_thread_same]. Qed.
Lemma deref_reads a g : (deref a g).2 = g.
Proof. unfold deref. by destruct (gc_heap g !! a). Qed.

Lemma thread_kept_linkupval l uv : thread_kept l (luaC_linkupval uv).
Proof.
  unfold luaC_linkupval. apply thread_kept_seq; [intros g; apply keeps_thread_same; by rewrite (proj1 (push_root_heap uv g))|].
  apply thread_kept_reads; [apply deref_reads|]. intros o. apply thread_kept_when.
  apply thread_kept_reads; [done|]. intros g0. destruct (_ =? _); [|apply thread_kept_mark].
  apply thread_kept_seq; [apply thread_kept_mark|]. apply thread_kept_reads; [apply gco2uv_reads|]. intros u.
  apply thread_kept_reads; [apply uv_value_reads|]. intros v. unfold luaC_barrier. apply thread_kept_reads.
  { intros g. unfold valiswhite. destruct (iscollectable v); [|done]. unfold deref. m_simpl. by destruct (gc_heap g !! gcvalue v). }
  intros w. apply thread_kept_when, thread_kept_reads; [apply deref_reads|]. intros ob. apply thread_kept_when. unfold luaC_barrierf.
  apply thread_kept_reads; [done|]. intros g1. destruct (_ =? _); [apply thread_kept_quiet, quiet_reallymark|apply thread_kept_mark].
Qed.

Lemma thread_kept_intro l (mm : M gstate unit) :
  (forall g m th, gc_heap g !! l = Some (mkObj m (BThread th)) ->
     wp mm (fun _ g' => exists m' ol, gc_heap g' !! l = Some (mkObj m' (BThread (set_openupval ol th)))) (fun _ => True) g) ->
  thread_kept l mm.
Proof.
  intros Hm g. destruct (gc_heap g !! l) as [[m [| | | | |th|]]|] eqn:Hl.
  6: { eapply wp_mono; [by eapply Hm| |done]. intros [] g' Hg' m' th' Hl'. rewrite Hl in Hl'. by injection Hl' as <- <-. }
  all: unfold wp; destruct (mm g) as [[]]; [|done]; intros ? ? E; rewrite Hl in E; by simplify_eq.
Qed.

(** What is done to an upvalue is not done to the thread. *)
Lemma upval_ne l uv u g m th g1 :
  gc_heap g !! l = Some (mkObj m (BThread th)) -> gco2uv uv g = (Ok u, g1) -> uv <> l /\ g1 = g.
Proof.
  intros Hl Hu. pose proof (gco2uv_reads uv g) as Hr. rewrite Hu in Hr. split; [|done]. intros ->. revert Hu.
  unfold gco2uv, deref. m_simpl. by rewrite Hl.
Qed.

Lemma thread_kept_freeupval l uv : thread_kept l (luaF_freeupval uv).
Proof.
  apply thread_kept_intro. intros g m th Hl. unfold luaF_freeupval. apply wp_bind. unfold wp at 1.
  destruct (gco2uv uv g) as [[u|e] g1] eqn:Hu; [|done]. destruct (upval_ne _ _ _ _ _ _ _ Hl Hu) as [Hne ->].
  assert (Hfree : forall g', gc_heap g' = gc_heap g ->
    wp (luaM_freemem sizeof_UpVal;; free_object uv)
      (fun _ g' => exists m' ol, gc_heap g' !! l = Some (mkObj m' (BThread (set_openupval ol th)))) (fun _ => True) g').
  { intros g' E. apply wp_bind, wp_freemem. intros t. unfold wp, free_object, modify. cbn. exists m, (th_openupval th).
    rewrite set_openupval_id. by rewrite lookup_delete_ne, E. }
  destruct u; [unfold unlinkupval; apply wp_modify|apply wp_bind, wp_ret]; by apply Hfree.
Qed.

Lemma close_loop_thread fuel l level : thread_kept l (close_loop fuel l level).
Proof.
  induction fuel as [|fuel IH]; [done|]. apply thread_kept_intro. intros g m th Hl. cbn [close_loop].
  apply wp_bind. eapply wp_gco2th; [done|]. destruct (th_openupval th) as [|uv next] eqn:Eo.
  { apply wp_ret. exists m, []. by rewrite <-Eo, set_openupval_id. }
  set (fin := fun (_ : unit) g' => exists m' ol, gc_heap g' !! l = Some (mkObj m' (BThread (set_openupval ol th)))).
  assert (Hgo : forall g' m' ol, gc_heap g' !! l = Some (mkObj m' (BThread (set_openupval ol th))) ->
    wp (close_loop fuel l level) fin (fun _ => True) g').
  { intros g' m' ol Hl'. eapply wp_mono; [apply IH| |done]. intros [] g2 Hk. destruct (Hk _ _ Hl') as (m2 & ol2 & Hl2). by exists m2, ol2. }
  apply wp_bind. unfold open_level. apply wp_bind. unfold wp at 1. destruct (gco2uv uv g) as [[u|e] g1] eqn:Hu; [|done].
  destruct (upval_ne _ _ _ _ _ _ _ Hl Hu) as [Hne ->]. destruct u as [t lv|]; [|done].
  unfold wp. destruct (t =? l); [|done]. change (wp (if lv >=? level then
      o ← deref uv; upd_obj l (BThread (set_openupval next th));; g ← get;
      (if isdead g (marked o) then luaF_freeupval uv
       else unlinkupval uv;; u ← gco2uv uv; x ← uv_value u; upd_obj uv (BUpVal (UClosed x));; luaC_linkupval uv);;
      close_loop fuel l level
    else mret tt) fin (fun _ => True) g).
  destruct (lv >=? level); [|apply wp_ret; exists m, (uv :: next); by rewrite <-Eo, set_openupval_id].
  apply wp_bind. unfold wp at 1. destruct (deref uv g) as [[o|e] g1] eqn:Hd; [|done].
  pose proof (deref_reads uv g) as E. rewrite Hd in E. cbn in E. subst g1.
  apply wp_modify, wp_get. set (g1 := setg_heap _ g).
  assert (Hl1 : gc_heap g1 !! l = Some (mkObj m (BThread (set_openupval next th)))) by (cbn; by rewrite lookup_alter_eq, Hl).
  assert (Hk : thread_kept l (if isdead g1 (marked o) then luaF_freeupval uv
       else unlinkupval uv;; u ← gco2uv uv; x ← uv_value u; upd_obj uv (BUpVal (UClosed x));; luaC_linkupval uv)).
  { destruct (isdead g1 (marked o)); [apply thread_kept_freeupval|]. apply thread_kept_seq; [intros g2; by apply keeps_thread_same|].
    apply thread_kept_intro. intros g2 m2 th2 Hl2. apply wp_bind. unfold wp at 1. destruct (gco2uv uv g2) as [[u|e] g3] eqn:Hu2; [|done].
    destruct (upval_ne _ _ _ _ _ _ _ Hl2 Hu2) as [_ ->]. apply wp_bind. unfold wp at 1. pose proof (uv_value_reads u g2) as E.
    destruct (uv_value u g2) as [[x|e] g3]; [|done]. cbn in E. subst g3. apply wp_modify.
    eapply wp_mono; [apply thread_kept_linkupval| |done]. intros [] g3 Hk. apply (Hk m2). cbn. by rewrite lookup_alter_ne. }
  apply wp_bind. eapply wp_mono; [apply Hk| |done]. intros [] g2 Hg2. destruct (Hg2 _ _ Hl1) as (m2 & ol & Hl2). by eapply Hgo.
Qed.

Lemma luaF_close_thread l level : thread_kept l (luaF_close l level).
Proof.
  unfold luaF_close. apply thread_kept_reads; [|intros th; apply close_loop_thread]. intros g. unfold gco2th, deref. m_simpl.
  by destruct (gc_heap g !! l) as [[? []]|].
Qed.

(** C40: [luaF_close] takes the upvalues of the slots from [level] up off the
    thread's list, the others stay: one that is alive gets the value of its
    slot, for the closures that share it; a dead one is freed.  Nothing else
    changes but colours, and the loop ends. *)
Theorem luaF_close_keeps_values l level ml th lvs g :
  gc_heap g !! l = Some (mkObj ml (BThread th)) -> open_list g l (th_openupval th) lvs ->
  (forall lv, lv ∈ lvs -> 0 <= lv < zlen (th_stack th)) -> calm g ->
  wp (luaF_close l level) (fun _ g' => closed_all l level th lvs g g') never g.
Proof.
  intros Hl Hol Hst Hc. unfold luaF_close. apply wp_bind. eapply wp_gco2th; [done|]. eapply close_loop_spec; [done..|lia].
Qed.
End func.
