(* ===== verification/GcSweep.v ===== *)
(** * GcSweep.v: the sweep (sweeplist, freeobj and luaC_freeall of lgc.c)

    Sweeping goes once over the list of all objects: an object whose mark says
    that it is dead is taken off and freed, any other becomes white for the
    next cycle.  Threads have a list of their own, of open upvalues; freeing a
    thread closes what is left of it, and puts it on the list that is being
    swept.  The theorems say that the sweep frees the dead objects and no
    other, that it needs no more turns than there are objects, and that it
    never follows a dangling pointer. *)

From S2P Require Import Prelude Machine Object Mem Table Gc Func Collect GcInv GcMark GcTraverse GcPropagate GcAtomic FuncSpec.

Implicit Types (g : gstate) (h : gmap Z GCObject) (a : Z) (m : Z) (p : list Z).

(** ** Marks *)

(** Whether the sweep leaves an object with this mark. *)
Definition keep g m : bool := survives (otherwhite g) m.

(** A mark the sweep has set. *)
Definition whitened g m : Prop := exists m0, m = makewhite g m0.

(** The current white has a white bit, and is no black. *)
Definition white_ok g : Prop :=
  Z.testbit (gc_currentwhite g) 0 || Z.testbit (gc_currentwhite g) 1 = true /\ Z.testbit (gc_currentwhite g) 2 = false /\
  in_u 8 (gc_currentwhite g).

Lemma whitened_white g m : white_ok g -> whitened g m -> iswhite m = true /\ isblack m = false /\ isdead g m = false.
Proof.
  intros (Hw & _) [m0 ->]. split_and!.
  - rewrite iswhite_bits, !makewhite_spec by lia. cbn. rewrite !andb_true_r, !andb_false_r. cbn. exact Hw.
  - rewrite isblack_bit, makewhite_spec by lia. cbn. by rewrite !andb_false_r.
  - unfold isdead, testbits. apply negb_false_iff, Z.eqb_eq. apply Z.bits_inj'. intros i Hi.
    rewrite Z.bits_0, !Z.land_spec. change WHITEBITS with (Z.ones 2). rewrite Z.testbit_ones by lia.
    destruct (Z.ltb_spec i 2); [|by rewrite !andb_false_r].
    unfold otherwhite. change WHITEBITS with (Z.ones 2). rewrite makewhite_spec, Z.lxor_spec, Z.testbit_ones by lia.
    destruct (Z.leb_spec 0 i); [|lia]. destruct (Z.ltb_spec i 2); [|lia].
    assert (Hm : Z.testbit maskmarks i = false) by (assert (i = 0 \/ i = 1) as [-> | ->] by lia; done).
    rewrite Hm. by destruct (Z.testbit m0 i), (Z.testbit (gc_currentwhite g) i).
Qed.

(** [keep] on the bits of a mark. *)
Lemma land_zero x k : in_u 8 k -> (Z.land x k =? 0) = forallb (fun i => negb (Z.testbit x i && Z.testbit k i)) (seqZ 0 8).
Proof.
  intros Hk. apply eq_true_iff_eq. rewrite Z.eqb_eq, forallb_forall. split.
  - intros E i _. rewrite <-Z.land_spec, E. by rewrite Z.bits_0.
  - intros Hall. apply Z.bits_inj'. intros i Hi. rewrite Z.bits_0, Z.land_spec. destruct (Z.ltb_spec i 8) as [Hlt|Hge].
    + apply negb_true_iff, Hall. apply list_elem_of_In, elem_of_seqZ. lia.
    + rewrite <-(uwrap_small 8 k Hk), uwrap_spec by lia. destruct (Z.ltb_spec i 8); [lia|]. by rewrite andb_false_r.
Qed.

Lemma otherwhite_u8 g : white_ok g -> in_u 8 (otherwhite g).
Proof. intros (_ & _ & Hu). unfold otherwhite. apply lxor_range; [lia|done|]. by split. Qed.

Lemma keep_makewhite g m : white_ok g -> keep g m = true -> keep g (makewhite g m) = true.
Proof.
  intros Hw. pose proof (otherwhite_u8 g Hw) as Hu. destruct Hw as (_ & H2 & _). unfold keep, survives.
  rewrite !land_zero by done. change (seqZ 0 8) with ([0; 1; 2] ++ [3; 4; 5; 6; 7]). rewrite !forallb_app.
  assert (E : forall i, i ∈ [3; 4; 5; 6; 7] -> Z.testbit (makewhite g m) i = Z.testbit m i).
  { intros i Hi. assert (3 <= i < 8 /\ Z.testbit maskmarks i = true) as [Hr Hm].
    { repeat (apply elem_of_cons in Hi as [->|Hi]; [by split; [lia|]|]). by apply elem_of_nil in Hi. }
    rewrite makewhite_spec, Hm, andb_true_r by lia. destruct (Z.ltb_spec i 2); [lia|]. by rewrite andb_false_r, orb_false_r. }
  cbn [forallb]. rewrite !Z.lxor_spec, (E 3), (E 4), (E 5), (E 6), (E 7) by (rewrite ?elem_of_cons; tauto). set (high := _ && (_ && (_ && (_ && (_ && true))))).
  unfold otherwhite. rewrite !Z.lxor_spec, !makewhite_spec, H2 by lia. clearbody high.
  change (Z.testbit WHITEBITS 0) with true. change (Z.testbit WHITEBITS 1) with true. change (Z.testbit WHITEBITS 2) with false.
  change (Z.testbit maskmarks 0) with false. change (Z.testbit maskmarks 1) with false. change (Z.testbit maskmarks 2) with false.
  destruct high, (Z.testbit m 0), (Z.testbit m 1), (Z.testbit (gc_currentwhite g) 0), (Z.testbit (gc_currentwhite g) 1);
    cbn; by rewrite ?andb_false_r.
Qed.

(** ** What a sweep does to the heap *)

Definition is_thread (b : body) : bool := match b with BThread _ => true | _ => false end.
Definition is_open (b : body) : bool := match b with BUpVal (UOpen _ _) => true | _ => false end.

(** The heap after the objects of [p] have been swept: the specification. *)
Definition sweep_heap g p h : gmap Z GCObject :=
  map_imap (fun a o => if decide (a ∈ p)
    then if keep g (marked o) then Some (mkObj (makewhite g (marked o)) (obj o)) else None
    else Some o) h.

Definition kept h g a : bool := match h !! a with Some o => keep g (marked o) | None => false end.

(** [g'] is [g] with the heap [h], and other counters and list of upvalues. *)
Definition freed g g' h : Prop := exists t n u, g' = setg_heap h (setg_totalbytes t (setg_nuse n (setg_uvhead u g))).

Lemma freed_refl g : freed g g (gc_heap g).
Proof. exists (gc_totalbytes g), (gc_nuse g), (gc_uvhead g). destruct g; reflexivity. Qed.
Lemma freed_trans g g1 g2 h1 h2 : freed g g1 h1 -> freed g1 g2 h2 -> freed g g2 h2.
Proof. intros (t1 & n1 & u1 & ->) (t2 & n2 & u2 & ->). by exists t2, n2, u2. Qed.
Lemma freed_heap g g' h : freed g g' h -> gc_heap g' = h.
Proof. by intros (t & n & u & ->). Qed.
Lemma freed_white g g' h : freed g g' h -> gc_currentwhite g' = gc_currentwhite g.
Proof. by intros (t & n & u & ->). Qed.
Lemma freed_roots g g' h : freed g g' h -> gc_root_swept g' = gc_root_swept g /\ gc_root_rest g' = gc_root_rest g.
Proof. by intros (t & n & u & ->). Qed.
Lemma freed_set g h : freed g (setg_heap h g) h.
Proof. exists (gc_totalbytes g), (gc_nuse g), (gc_uvhead g). destruct g; reflexivity. Qed.
Lemma freed_total g t : freed g (setg_totalbytes t g) (gc_heap g).
Proof. exists t, (gc_nuse g), (gc_uvhead g). destruct g; reflexivity. Qed.

Lemma freed_nuse g n : freed g (setg_nuse n g) (gc_heap g).
Proof. exists (gc_totalbytes g), n, (gc_uvhead g). destruct g; reflexivity. Qed.
Lemma freed_uvhead g u : freed g (setg_uvhead u g) (gc_heap g).
Proof. exists (gc_totalbytes g), (gc_nuse g), u. destruct g; reflexivity. Qed.

(** Colours depend on the current white alone. *)
Lemma keep_white g g' m : gc_currentwhite g' = gc_currentwhite g -> keep g' m = keep g m.
Proof. intros E. unfold keep, otherwhite. by rewrite E. Qed.
Lemma makewhite_same g g' m : gc_currentwhite g' = gc_currentwhite g -> makewhite g' m = makewhite g m.
Proof. intros E. unfold makewhite, luaC_white. by rewrite E. Qed.

Lemma lookup_sweep_heap g p h a : sweep_heap g p h !! a =
  if decide (a ∈ p) then match h !! a with
    | Some o => if keep g (marked o) then Some (mkObj (makewhite g (marked o)) (obj o)) else None
    | None => None end
  else h !! a.
Proof. unfold sweep_heap. rewrite map_lookup_imap. destruct (h !! a); cbn; by destruct (decide _). Qed.

(** ** Freeing an object *)

Section sweep.
Context `{Krealloc} `{StringHash}.

Lemma wp_freearray n e g (Q : unit -> gstate -> Prop) E : 0 < e <= 2 ^ 20 ->
  (forall t, Q tt (setg_totalbytes t g)) -> wp (luaM_freearray n e) Q E g.
Proof.
  intros He HQ. unfold luaM_freearray. unfold wp. rewrite luaM_reallocv_fits by lia.
  unfold luaM_realloc_. change (u64 (0 * e)) with 0. change (0 >? 0) with false. rewrite andb_false_r. apply HQ.
Qed.

(** Memory given back, and then the object. *)
Lemma freed_freemem n g0 g h (k : unit -> M gstate unit) Q E : freed g0 g h ->
  (forall g', freed g0 g' h -> wp (k tt) Q E g') -> wp (luaM_freemem n ≫= k) Q E g.
Proof. intros (t & n' & u & ->) Hk. apply wp_bind, wp_freemem. intros t'. apply Hk. by exists t', n', u. Qed.

Lemma freed_freearray n e g0 g h (k : unit -> M gstate unit) Q E : 0 < e <= 2 ^ 20 -> freed g0 g h ->
  (forall g', freed g0 g' h -> wp (k tt) Q E g') -> wp (luaM_freearray n e ≫= k) Q E g.
Proof. intros He (t & n' & u & ->) Hk. apply wp_bind, wp_freearray; [done|]. intros t'. apply Hk. by exists t', n', u. Qed.

Lemma freed_free_object a g0 g h E : freed g0 g h -> wp (free_object a) (fun _ g' => freed g0 g' (delete a h)) E g.
Proof. intros (t & n & u & ->). unfold wp, free_object, modify. by exists t, n, u. Qed.

Ltac free_step :=
  lazymatch goal with
  | Hf : freed ?g0 ?g ?h |- wp (free_object ?a) _ ?E ?g => exact (freed_free_object a g0 g h E Hf)
  | Hf : freed ?g0 ?g ?h |- wp (luaM_freearray ?n ?e ≫= ?k) ?Q ?E ?g =>
      apply (freed_freearray n e g0 g h k Q E); [done|exact Hf|]; clear Hf; intros ? ?
  | Hf : freed ?g0 ?g ?h |- wp (luaM_freemem ?n ≫= ?k) ?Q ?E ?g =>
      apply (freed_freemem n g0 g h k Q E Hf); clear Hf; intros ? ?
  end.

Lemma luaH_free_Ok n t : exists ts, luaH_free (mkTS n t) = (Ok tt, ts).
Proof.
  assert (Hf : forall k e (ts : TS), 0 < e <= 2 ^ 20 -> exists ts', luaM_freearray k e ts = (Ok tt, ts')).
  { intros k e ts He. unfold luaM_freearray. rewrite luaM_reallocv_fits by lia. unfold luaM_realloc_.
    change (u64 (0 * e)) with 0. change (0 >? 0) with false. rewrite andb_false_r. by eexists. }
  unfold luaH_free. erewrite bind_ok by reflexivity. cbn [ts_t].
  assert (exists ts, when (negb (t_dummy t)) (luaM_freearray (sizenode t) sizeof_Node) (mkTS n t) = (Ok tt, ts)) as [ts1 E1].
  { destruct (negb _); cbn [when]; [by apply Hf|by eexists]. }
  rewrite (bind_ok _ _ _ _ _ E1). destruct (Hf (t_sizearray t) sizeof_TValue ts1 ltac:(done)) as [ts2 E2].
  rewrite (bind_ok _ _ _ _ _ E2). unfold luaM_freemem, luaM_realloc_. change (0 >? 0) with false. rewrite andb_false_r. by eexists.
Qed.

Lemma freeobj_simple a o g : gc_heap g !! a = Some o -> is_thread (obj o) = false ->
  wp (freeobj a) (fun _ g' => freed g g' (delete a (gc_heap g))) never g.
Proof.
  intros Ho Ht. unfold freeobj. eapply wp_deref_bind; [done|]. destruct o as [m b]. destruct b as [s|mt env len|uv|cl|t|th|pt]; cbn [obj]; try done.
  - apply wp_modify. assert (freed g (setg_nuse (u32 (gc_nuse g - 1)) g) (gc_heap g)) by apply freed_nuse.
    repeat free_step.
  - pose proof (freed_refl g). repeat free_step.
  - unfold luaF_freeupval, gco2uv. apply wp_assoc. eapply wp_deref_bind; [done|]. apply wp_bind, wp_ret.
    destruct uv; [unfold unlinkupval; apply wp_modify|apply wp_bind, wp_ret; pose proof (freed_refl g); by repeat free_step].
    assert (freed g (setg_uvhead (filter (fun x => x <> a) (gc_uvhead g)) g) (gc_heap g)) by apply freed_uvhead.
    repeat free_step.
  - unfold luaF_freeclosure, gco2cl. apply wp_assoc. eapply wp_deref_bind; [done|]. apply wp_bind, wp_ret.
    pose proof (freed_refl g). repeat free_step.
  - unfold free_table. apply wp_bind. eapply wp_gco2h; [done|]. apply wp_get. destruct (luaH_free_Ok (gc_totalbytes g) t) as [ts ->].
    apply wp_modify. apply wp_bind, wp_ok with tt (setg_totalbytes (ts_mem ts) g); [done|]. pose proof (freed_total g (ts_mem ts)). free_step.
  - unfold luaF_freeproto, gco2p. apply wp_assoc. eapply wp_deref_bind; [done|]. apply wp_bind, wp_ret.
    pose proof (freed_refl g). repeat free_step.
Qed.

(** ** Lists without threads: the strings, the open upvalues of a thread *)

Lemma sweepwholelist_cons fuel curr next : sweepwholelist (S fuel) (curr :: next) =
  (o ← deref curr;
   match obj o with
   | BThread th => l ← sweepwholelist fuel (th_openupval th); upd_obj curr (BThread (set_openupval l th))
   | _ => mret tt
   end;;
   g ← get;
   if survives (otherwhite g) (marked o) then
     upd_marked curr (makewhite g);; l ← sweepwholelist (S fuel) next; mret (curr :: l)
   else freeobj curr;; sweepwholelist (S fuel) next).
Proof. reflexivity. Qed.

Lemma sweep_heap_nil g h : sweep_heap g [] h = h.
Proof. apply map_eq. intros a. rewrite lookup_sweep_heap. by rewrite decide_False by set_solver. Qed.

(** One object of the list and then the others. *)
Lemma sweep_heap_cons g g1 curr next o h1 : curr ∉ next -> gc_heap g !! curr = Some o -> gc_currentwhite g1 = gc_currentwhite g ->
  h1 = (if keep g (marked o) then alter (fun o => mkObj (makewhite g (marked o)) (obj o)) curr (gc_heap g) else delete curr (gc_heap g)) ->
  sweep_heap g1 next h1 = sweep_heap g (curr :: next) (gc_heap g).
Proof.
  intros Hn Ho Ew ->. apply map_eq. intros a. rewrite !lookup_sweep_heap.
  destruct (decide (a = curr)) as [->|Hne].
  - rewrite decide_False by done. rewrite decide_True by set_solver. rewrite Ho.
    destruct (keep g (marked o)); [by rewrite lookup_alter_eq, Ho|apply lookup_delete_eq].
  - assert (E : (if keep g (marked o) then alter (fun o => mkObj (makewhite g (marked o)) (obj o)) curr (gc_heap g) else delete curr (gc_heap g)) !! a = gc_heap g !! a).
    { destruct (keep _ _); [by rewrite lookup_alter_ne|by rewrite lookup_delete_ne]. }
    rewrite E. destruct (decide (a ∈ next)), (decide (a ∈ curr :: next)); try done; [|set_solver..].
    destruct (gc_heap g !! a) as [oa|]; [|done]. by rewrite (keep_white g g1), (makewhite_same g g1).
Qed.

Definition simple_list g p : Prop := NoDup p /\ forall a, a ∈ p -> exists o, gc_heap g !! a = Some o /\ is_thread (obj o) = false.

Lemma sweep_simple fuel p g : simple_list g p ->
  wp (sweepwholelist (S fuel) p)
    (fun l g' => l = List.filter (kept (gc_heap g) g) p /\ freed g g' (sweep_heap g p (gc_heap g))) never g.
Proof.
  revert g. induction p as [|curr next IH]; intros g [Hnd Hp].
  { apply wp_ret. split; [done|]. rewrite sweep_heap_nil. apply freed_refl. }
  apply NoDup_cons in Hnd as [Hn Hnd]. destruct (Hp curr ltac:(by left)) as (o & Ho & Hto).
  rewrite sweepwholelist_cons. eapply wp_deref_bind; [done|].
  assert (E : match obj o with
    | BThread th => l ← sweepwholelist fuel (th_openupval th); upd_obj curr (BThread (set_openupval l th))
    | _ => mret tt end = mret tt) by (by destruct (obj o)).
  rewrite E. apply wp_bind, wp_ret, wp_get. fold (keep g (marked o)).
  assert (Hnext : forall g1 h1, freed g g1 h1 -> h1 = (if keep g (marked o) then alter (fun o => mkObj (makewhite g (marked o)) (obj o)) curr (gc_heap g) else delete curr (gc_heap g)) ->
    simple_list g1 next /\ (forall a, a ∈ next -> kept (gc_heap g1) g1 a = kept (gc_heap g) g a) /\
    sweep_heap g1 next (gc_heap g1) = sweep_heap g (curr :: next) (gc_heap g)).
  { intros g1 h1 Hf ->. pose proof (freed_heap _ _ _ Hf) as Hh. pose proof (freed_white _ _ _ Hf) as Hw.
    assert (Hsame : forall a, a ∈ next -> gc_heap g1 !! a = gc_heap g !! a).
    { intros a Ha. assert (a <> curr) by (intros ->; done). rewrite Hh. destruct (keep _ _); [by rewrite lookup_alter_ne|by rewrite lookup_delete_ne]. }
    split_and!.
    - split; [done|]. intros a Ha. rewrite Hsame by done. apply Hp. by right.
    - intros a Ha. unfold kept. rewrite Hsame by done. destruct (gc_heap g !! a); [|done]. by apply keep_white.
    - rewrite Hh. eapply sweep_heap_cons; done. }
  assert (Hfil : forall g1, (forall a, a ∈ next -> kept (gc_heap g1) g1 a = kept (gc_heap g) g a) ->
    List.filter (kept (gc_heap g1) g1) next = List.filter (kept (gc_heap g) g) next).
  { intros g1 He. clear -He. induction next as [|a next IH]; [done|]. cbn. rewrite He by (by left). rewrite IH; [done|].
    intros b Hb. apply He. by right. }
  assert (Hk : kept (gc_heap g) g curr = keep g (marked o)) by (unfold kept; by rewrite Ho).
  cbn [List.filter]. rewrite Hk. destruct (keep g (marked o)) eqn:Ek.
  - unfold upd_marked. apply wp_modify. set (g1 := setg_heap _ g).
    destruct (Hnext g1 _ (freed_set g _) eq_refl) as (Hs1 & Hk1 & Hh1).
    eapply wp_seq; [by apply IH|]. intros l g2 [-> Hf2]. apply wp_ret. split.
    + f_equal. by apply Hfil.
    + rewrite <-Hh1. eapply freed_trans; [apply freed_set|exact Hf2].
  - eapply wp_seq; [by apply (freeobj_simple curr o)|]. intros [] g1 Hf1.
    destruct (Hnext g1 _ Hf1 eq_refl) as (Hs1 & Hk1 & Hh1).
    eapply wp_mono; [by apply IH| |done]. intros l g2 [-> Hf2]. split; [by apply Hfil|].
    rewrite <-Hh1. by eapply freed_trans.
Qed.

(** ** Closing what is left of a dead thread *)

(** An open upvalue of the thread [l] that the sweep has been at: it is white,
    so closing it moves it to the list of all objects and no more. *)
Definition swept_upvalue g l (th : Thread) u : Prop :=
  exists m lv, gc_heap g !! u = Some (mkObj m (BUpVal (UOpen l lv))) /\ 0 <= lv < zlen (th_stack th) /\ isdead g m = false /\ isgray m = false.

(** The value with which an upvalue of the thread [l] is closed: the one in its
    slot of the stack. *)
Definition closes h l (b : body) (v : TValue) : Prop :=
  exists lv m th, b = BUpVal (UOpen l lv) /\ h !! l = Some (mkObj m (BThread th)) /\ znth (th_stack th) lv = Some v.

Lemma push_root_perm u g :
  gc_root_swept (push_root u g) ++ gc_root_rest (push_root u g) = u :: gc_root_swept g ++ gc_root_rest g /\
  (forall a, a ∈ gc_root_rest g -> a ∈ gc_root_rest (push_root u g)) /\
  (forall a, a ∈ gc_root_rest (push_root u g) -> a = u \/ a ∈ gc_root_rest g).
Proof. unfold push_root. destruct (gc_root_swept g); cbn; split_and!; set_solver. Qed.

Record closed_upvalues l (list : list Z) g g' : Prop := {
  cu_white : gc_currentwhite g' = gc_currentwhite g;
  cu_thread m th : gc_heap g !! l = Some (mkObj m (BThread th)) -> gc_heap g' !! l = Some (mkObj m (BThread (set_openupval [] th)));
  cu_upvalue u m b : u ∈ list -> gc_heap g !! u = Some (mkObj m b) ->
    exists v, closes (gc_heap g) l b v /\ gc_heap g' !! u = Some (mkObj m (BUpVal (UClosed v)));
  cu_other a : a <> l -> a ∉ list -> gc_heap g' !! a = gc_heap g !! a;
  cu_roots : gc_root_swept g' ++ gc_root_rest g' ≡ₚ list ++ gc_root_swept g ++ gc_root_rest g;
  cu_rest a : a ∈ gc_root_rest g -> a ∈ gc_root_rest g';
  cu_rest_new a : a ∈ gc_root_rest g' -> a ∈ list \/ a ∈ gc_root_rest g;
}.

Lemma close_swept list : forall fuel l ml th g, (length list < fuel)%nat -> NoDup list ->
  gc_heap g !! l = Some (mkObj ml (BThread th)) -> th_openupval th = list ->
  (forall u, u ∈ list -> swept_upvalue g l th u) ->
  wp (close_loop fuel l 0) (fun _ g' => closed_upvalues l list g g') never g.
Proof.
  induction list as [|u list IH]; intros fuel l ml th g Hf Hnd Hl Hop Hall; (destruct fuel as [|fuel]; [cbn in Hf; lia|]);
    cbn [close_loop]; apply wp_bind; (eapply wp_gco2th; [exact Hl|]); rewrite Hop.
  { apply wp_ret. split; try done; try set_solver. intros m th' E. rewrite Hl in E. injection E as <- <-. rewrite Hl. by rewrite <-Hop, set_openupval_id. }
  apply NoDup_cons in Hnd as [Hn Hnd]. destruct (Hall u ltac:(by left)) as (m & lv & Hu & Hlv & Hdead & Hgray).
  assert (Hul : u <> l) by (intros ->; congruence).
  apply wp_bind. eapply wp_open_level; [exact Hu|]. destruct (Z.geb_spec lv 0); [|lia].
  eapply wp_deref_bind; [exact Hu|]. apply wp_modify, wp_get. cbn [marked].
  set (g1 := setg_heap _ g). change (isdead g1 m) with (isdead g m). rewrite Hdead.
  assert (Hl1 : gc_heap g1 !! l = Some (mkObj ml (BThread (set_openupval list th)))) by (cbn; by rewrite lookup_alter_eq, Hl).
  assert (Hu1 : gc_heap g1 !! u = Some (mkObj m (BUpVal (UOpen l lv)))) by (cbn; by rewrite lookup_alter_ne).
  unfold unlinkupval. apply wp_assoc, wp_modify. set (g2 := setg_uvhead _ g1).
  apply wp_assoc. unfold gco2uv. apply wp_assoc. eapply wp_deref_bind; [exact Hu1|]. apply wp_bind, wp_ret.
  cbn [uv_value]. apply wp_assoc, wp_assoc, wp_bind. eapply wp_gco2th; [exact Hl1|].
  destruct (znth_is_Some (th_stack th) lv Hlv) as [v Hv]. apply wp_bind, (wp_ok _ _ _ _ v g2).
  { unfold array_at, lift. change (th_stack (set_openupval list th)) with (th_stack th). by rewrite Hv. }
  apply wp_assoc, wp_modify. set (g3 := setg_heap _ g2). unfold luaC_linkupval. apply wp_assoc, wp_modify. set (g4 := push_root u g3).
  assert (Hh4 : gc_heap g4 = gc_heap g3) by (unfold g4, push_root; by destruct (gc_root_swept g3)).
  assert (Hu4 : gc_heap g4 !! u = Some (mkObj m (BUpVal (UClosed v)))) by (rewrite Hh4; cbn; rewrite lookup_alter_eq; cbn in Hu1; by rewrite Hu1).
  apply wp_assoc. eapply wp_deref_bind; [exact Hu4|]. cbn [marked]. rewrite Hgray. cbn [when]. apply wp_bind, wp_ret.
  assert (Hother : forall a, a <> l -> a <> u -> gc_heap g4 !! a = gc_heap g !! a) by (intros a Ha1 Ha2; rewrite Hh4; cbn; by rewrite !lookup_alter_ne).
  assert (Hl4 : gc_heap g4 !! l = Some (mkObj ml (BThread (set_openupval list th)))) by (rewrite Hh4; cbn; rewrite lookup_alter_ne by done; exact Hl1).
  assert (Hw4 : gc_currentwhite g4 = gc_currentwhite g) by (unfold g4, push_root; by destruct (gc_root_swept g3)).
  eapply wp_mono; [apply (IH fuel l ml (set_openupval list th) g4)| |done]; [cbn in Hf; lia|done|done|done| |].
  { intros x Hx. destruct (Hall x ltac:(by right)) as (mx & lvx & Hx1 & Hx2 & Hx3 & Hx4). exists mx, lvx.
    assert (x <> u) by (intros ->; done). rewrite Hother by congruence. split_and!; try done; try apply Hx2.
    unfold isdead, otherwhite in Hx3 |- *. by rewrite Hw4. }
  intros [] g5 [Cw Ct Cu Co Cr Cs Cn]. destruct (push_root_perm u g3) as (Pr & Ps & Pn). fold g4 in Pr, Ps, Pn. split.
  - congruence.
  - intros m' th' E. rewrite Hl in E. injection E as <- <-. by rewrite (Ct _ _ Hl4).
  - intros x mx b [->|Hx]%elem_of_cons Hxb.
    + rewrite Hu in Hxb. injection Hxb as <- <-. exists v. split; [by exists lv, ml, th|]. rewrite Co by done. exact Hu4.
    + assert (x <> u) by (intros ->; done). assert (x <> l) by (intros ->; destruct (Hall l ltac:(by right)) as (? & ? & E & _); congruence).
      destruct (Cu x mx b Hx) as (vx & (lvx & m4 & th4 & -> & E4 & Ev) & Ex); [by rewrite Hother|]. exists vx. split; [|exact Ex].
      rewrite Hl4 in E4. injection E4 as <- <-. by exists lvx, ml, th.
  - intros a Ha [Hau Hal]%not_elem_of_cons. rewrite Co by done. by apply Hother.
  - rewrite Cr, Pr. change (gc_root_swept g3) with (gc_root_swept g). change (gc_root_rest g3) with (gc_root_rest g).
    cbn [app]. symmetry. apply Permutation_middle.
  - intros a Ha. apply Cs, Ps, Ha.
  - intros a Ha. apply Cn in Ha as [Ha|Ha]; [set_solver|]. apply Pn in Ha as [->|Ha]; [set_solver|]. by right.
Qed.

(** ** What sweeping keeps *)

(** The body of an object that stays, when the heap was [h].  A thread may
    have lost the dead upvalues of its list; an upvalue that was open on a
    dead thread may have been closed, with the value of its slot. *)
Definition swept_body g h (b b' : body) : Prop :=
  b' = b \/
  (exists th, b = BThread th /\ b' = BThread (set_openupval (List.filter (kept h g) (th_openupval th)) th)) \/
  (exists l v, b' = BUpVal (UClosed v) /\ closes h l b v /\ kept h g l = false).

(** The upvalue [u] is on the list of open upvalues of the thread [l]. *)
Definition listed h u l : Prop := exists m th, h !! l = Some (mkObj m (BThread th)) /\ u ∈ th_openupval th.

(** The heap shrinks: objects with a mark to keep stay, with their body and a
    mark to keep, and a mark that changed is white.  An upvalue that stays
    open stays on the list of its thread, so that thread stays too. *)
Definition shrunk g h h' : Prop := forall a,
  match h' !! a with
  | Some o' => exists o, h !! a = Some o /\ swept_body g h (obj o) (obj o') /\
      (marked o' = marked o \/ (keep g (marked o) = true /\ keep g (marked o') = true /\ whitened g (marked o'))) /\
      (forall l lv, obj o' = BUpVal (UOpen l lv) -> listed h a l -> listed h' a l)
  | None => forall o, h !! a = Some o -> keep g (marked o) = false
  end.

Lemma swept_body_refl g h b : swept_body g h b b.
Proof. by left. Qed.
Lemma swept_body_tt g h b b' : swept_body g h b b' -> tt_of b' = tt_of b.
Proof. by intros [->|[(th & -> & ->)|(l & v & -> & (lv & m & th & -> & _) & _)]]. Qed.
Lemma swept_body_still_open g h b l lv : swept_body g h b (BUpVal (UOpen l lv)) -> b = BUpVal (UOpen l lv).
Proof. by intros [->|[(th & -> & E)|(l' & v & E & _)]]. Qed.
Lemma swept_body_open g h b b' : swept_body g h b b' -> is_open b' = true -> is_open b = true.
Proof. by intros [->|[(th & -> & ->)|(l & v & -> & (lv & m & th & -> & _) & _)]]. Qed.
Lemma swept_body_string g h s b' : swept_body g h (BString s) b' -> b' = BString s.
Proof. by intros [->|[(th & E & _)|(l & v & _ & (lv & m & th & E & _) & _)]]. Qed.
#[local] Hint Resolve swept_body_refl : core.

(** An object of the heap is kept as long as it has a mark to keep. *)
Lemma shrunk_kept g h h' a : shrunk g h h' -> kept h' g a = kept h g a.
Proof.
  intros Hsh. specialize (Hsh a). unfold kept. destruct (h' !! a) as [o'|].
  - destruct Hsh as (o & -> & _ & [->|(-> & -> & _)] & _); done.
  - destruct (h !! a) as [o|]; [|done]. symmetry. by apply Hsh.
Qed.

Lemma filter_idemp (f : Z -> bool) p : List.filter f (List.filter f p) = List.filter f p.
Proof. induction p as [|a p IH]; [done|]. cbn. destruct (f a) eqn:E; [|done]. cbn. by rewrite E, IH. Qed.

Lemma swept_body_trans g h1 h2 b1 b2 b3 : shrunk g h1 h2 -> swept_body g h1 b1 b2 -> swept_body g h2 b2 b3 -> swept_body g h1 b1 b3.
Proof.
  intros Hsh H1 H2. assert (Ef : forall p, List.filter (kept h2 g) p = List.filter (kept h1 g) p).
  { intros p. apply List.filter_ext. intros a. by apply shrunk_kept. }
  destruct H2 as [->|[(th & -> & ->)|(l & v & -> & (lv & m & th & -> & El & Ev) & Hk)]]; [done|..].
  - rewrite Ef. destruct H1 as [<-|[(th1 & -> & E)|(l & v & E & _)]]; [right; left; by exists th| |done].
    injection E as ->. right; left. exists th1. split; [done|]. cbn. by rewrite filter_idemp.
  - apply swept_body_still_open in H1 as ->. rewrite (shrunk_kept _ _ _ l Hsh) in Hk. right; right. exists l, v.
    split; [done|]. split; [|done]. specialize (Hsh l). rewrite El in Hsh. destruct Hsh as ([m1 b1] & E1 & Hb & _). cbn [obj] in Hb.
    destruct Hb as [<-|[(th1 & -> & [= ->])|(? & ? & E & _)]]; [by exists lv, m1, th|by exists lv, m1, th1|done].
Qed.

Lemma shrunk_refl g h : shrunk g h h.
Proof. intros a. destruct (h !! a) as [o|]; [|done]. exists o. split_and!; auto. Qed.

Lemma shrunk_trans g h1 h2 h3 : shrunk g h1 h2 -> shrunk g h2 h3 -> shrunk g h1 h3.
Proof.
  intros H12 H23 a. pose proof (H12 a) as H12a. specialize (H23 a). destruct (h3 !! a) as [o3|].
  - destruct H23 as (o2 & E2 & Hb2 & Hm2 & Hl2). rewrite E2 in H12a. destruct H12a as (o1 & E1 & Hb1 & Hm1 & Hl1).
    exists o1. split_and!; [done|by eapply swept_body_trans| |].
    + destruct Hm2 as [Hm2|(K2 & K3 & W)], Hm1 as [Hm1|(K1 & K2' & W1)]; rewrite ?Hm2, ?Hm1 in *; auto.
    + intros l lv E Hl. apply (Hl2 l lv E), (Hl1 l lv); [|done]. rewrite E in Hb2. by apply swept_body_still_open in Hb2.
  - intros o1 E1. destruct (h2 !! a) as [o2|] eqn:E2; [|by apply H12a]. destruct H12a as (o1' & E1' & _ & Hm & _).
    rewrite E1 in E1'. injection E1' as <-. specialize (H23 o2 eq_refl). destruct Hm as [<-|(_ & K & _)]; [done|congruence].
Qed.

(** Sweeping objects that are no threads: the lists of upvalues are as before. *)
Lemma shrunk_sweep g p h : white_ok g -> (forall a m th, a ∈ p -> h !! a <> Some (mkObj m (BThread th))) -> shrunk g h (sweep_heap g p h).
Proof.
  intros Hw Hp a. assert (Hl : forall u l, listed h u l -> listed (sweep_heap g p h) u l).
  { intros u l (m & th & E & Hin). exists m, th. split; [|done]. rewrite lookup_sweep_heap, decide_False; [done|]. intros Hl. by apply (Hp l m th). }
  pose proof (lookup_sweep_heap g p h a) as Ea. destruct (decide (a ∈ p)).
  - destruct (h !! a) as [o|]; [|by rewrite Ea]. destruct (keep g (marked o)) eqn:Hk; rewrite Ea; [|by intros ? [= <-]].
    exists o. split_and!; [done|apply swept_body_refl| |auto]. right. split_and!; [done|by apply keep_makewhite|by eexists].
  - rewrite Ea. destruct (h !! a) as [o|]; [|done]. exists o. split_and!; auto.
Qed.

(** ** The lists of a heap that can be swept *)

Record sweepable g : Prop := {
  sw_white : white_ok g;
  sw_nodup : NoDup (gc_root_swept g ++ gc_root_rest g);
  sw_roots a : a ∈ gc_root_swept g ++ gc_root_rest g -> exists o, gc_heap g !! a = Some o /\ is_open (obj o) = false;
  sw_open a m th : gc_heap g !! a = Some (mkObj m (BThread th)) ->
    NoDup (th_openupval th) /\
    forall u, u ∈ th_openupval th -> exists mu lv, gc_heap g !! u = Some (mkObj mu (BUpVal (UOpen a lv))) /\ 0 <= lv < zlen (th_stack th);
}.

(** The open upvalues that are swept together with an object. *)
Definition own_upvals (o : GCObject) : list Z := match obj o with BThread th => th_openupval th | _ => [] end.
Definition open_at h a : bool := match h !! a with Some o => is_open (obj o) | None => false end.

(** What sweeping [curr] does: [next] is the rest of the list. *)
Record swept_one g (curr : Z) (o : GCObject) (next : list Z) g' : Prop := {
  so_white : gc_currentwhite g' = gc_currentwhite g;
  so_shrunk : shrunk g (gc_heap g) (gc_heap g');
  so_ok : sweepable g';
  so_curr : if keep g (marked o) then (exists o', gc_heap g' !! curr = Some o' /\ whitened g (marked o')) /\ curr ∈ gc_root_swept g'
            else gc_heap g' !! curr = None;
  so_next a : a ∈ next -> a ∈ gc_root_rest g';
  so_new a : a ∈ gc_root_rest g' -> a ∈ next \/ open_at (gc_heap g) a = true;
}.

Section one.
Context (g : gstate) (curr : Z) (next : list Z) (o : GCObject).
Context (Hs : sweepable g) (Hrest : gc_root_rest g = curr :: next) (Ho : gc_heap g !! curr = Some o).

Lemma curr_root : curr ∈ gc_root_swept g ++ gc_root_rest g.
Proof. rewrite Hrest. set_solver. Qed.

Lemma own_simple : simple_list g (own_upvals o) /\ forall u, u ∈ own_upvals o -> exists m lv, gc_heap g !! u = Some (mkObj m (BUpVal (UOpen curr lv))).
Proof.
  unfold own_upvals. destruct o as [m b]. destruct b; cbn; try (split; [split; [constructor|set_solver]|set_solver]).
  destruct (sw_open _ Hs _ _ _ Ho) as [Hnd Hu]. split; [split; [done|]|]; intros u Hin; destruct (Hu u Hin) as (mu & lv & E & _).
  - by eexists.
  - by exists mu, lv.
Qed.

Lemma own_not_root u : u ∈ own_upvals o -> u ∉ gc_root_swept g ++ gc_root_rest g.
Proof.
  intros Hu Hr. destruct (proj2 own_simple u Hu) as (m & lv & E). destruct (sw_roots _ Hs u Hr) as (o' & E' & Hop). rewrite E in E'. by injection E' as <-.
Qed.

Lemma own_not_curr u : u ∈ own_upvals o -> u <> curr.
Proof. intros Hu ->. by apply (own_not_root curr Hu), curr_root. Qed.

(** Other threads have their upvalues as before. *)
Lemma other_threads g' :
  (forall a, a <> curr -> a ∉ own_upvals o -> gc_heap g' !! a = gc_heap g !! a) ->
  (forall u o', u ∈ own_upvals o -> gc_heap g' !! u = Some o' -> is_thread (obj o') = false) ->
  forall a m th, a <> curr -> gc_heap g' !! a = Some (mkObj m (BThread th)) ->
    NoDup (th_openupval th) /\
    forall u, u ∈ th_openupval th -> exists mu lv, gc_heap g' !! u = Some (mkObj mu (BUpVal (UOpen a lv))) /\ 0 <= lv < zlen (th_stack th).
Proof.
  intros Hsame Hup a m th Hne Ha. assert (Hna : a ∉ own_upvals o) by (intros Hin; by specialize (Hup _ _ Hin Ha)).
  rewrite Hsame in Ha by done. destruct (sw_open _ Hs _ _ _ Ha) as [Hnd Hu]. split; [done|]. intros u Hin.
  destruct (Hu u Hin) as (mu & lv & E & Hlv). exists mu, lv. split; [|done]. rewrite Hsame; [done| |].
  - intros ->. destruct (sw_roots _ Hs curr curr_root) as (o' & E' & Hop). rewrite E in E'. by injection E' as <-.
  - intros Hin2. destruct (proj2 own_simple u Hin2) as (m' & lv' & E'). congruence.
Qed.

End one.

(** After the upvalues of the object, before the object itself. *)
Record upvals_swept g curr (o : GCObject) g1 : Prop := {
  us_white : gc_currentwhite g1 = gc_currentwhite g;
  us_roots : gc_root_swept g1 = gc_root_swept g /\ gc_root_rest g1 = gc_root_rest g;
  us_curr : gc_heap g1 !! curr = Some (match obj o with
      | BThread th => mkObj (marked o) (BThread (set_openupval (List.filter (kept (gc_heap g) g) (th_openupval th)) th))
      | _ => o end);
  us_other a : a <> curr -> gc_heap g1 !! a = sweep_heap g (own_upvals o) (gc_heap g) !! a;
}.

Definition sweep_own curr (o : GCObject) : M gstate unit :=
  match obj o with
  | BThread th => l ← sweepopen (th_openupval th); upd_obj curr (BThread (set_openupval l th))
  | _ => mret tt
  end.

Lemma sweep_upvals g curr next o : sweepable g -> gc_root_rest g = curr :: next -> gc_heap g !! curr = Some o ->
  wp (sweep_own curr o) (fun _ g1 => upvals_swept g curr o g1) never g.
Proof.
  intros Hs Hrest Ho. unfold sweep_own. destruct (is_thread (obj o)) eqn:Ht.
  - pose proof (proj1 (own_simple g curr next o Hs Hrest Ho)) as Hsim. pose proof (own_not_curr g curr next o Hs Hrest Ho curr) as Hnc.
    unfold own_upvals in Hsim, Hnc. destruct o as [m b]. destruct b as [| | | | |th|]; try done. cbn [obj] in *.
    eapply wp_seq; [by apply (sweep_simple 0)|]. intros l g1 [-> Hf]. unfold upd_obj, wp, modify.
    assert (Hc : gc_heap g1 !! curr = Some (mkObj m (BThread th))).
    { rewrite (freed_heap _ _ _ Hf), lookup_sweep_heap, decide_False; [exact Ho|]. intros Hin. by apply Hnc. }
    destruct (freed_roots _ _ _ Hf) as [R1 R2]. split; [exact (freed_white _ _ _ Hf)|done| |].
    + cbn. by rewrite lookup_alter_eq, Hc.
    + intros a Ha. cbn. rewrite lookup_alter_ne by done. by rewrite (freed_heap _ _ _ Hf).
  - assert (Eu : own_upvals o = []) by (unfold own_upvals; by destruct (obj o)).
    replace (match obj o with
      | BThread th => l ← sweepopen (th_openupval th); upd_obj curr (BThread (set_openupval l th))
      | _ => mret tt end) with (mret tt : M gstate unit) by (by destruct (obj o)).
    apply wp_ret. split; [done|done|rewrite Ho; by destruct (obj o)|]. intros a _. by rewrite Eu, sweep_heap_nil.
Qed.

(** The object as it is then, and what remains of its upvalues. *)
Definition own_swept g (o : GCObject) : GCObject :=
  match obj o with
  | BThread th => mkObj (marked o) (BThread (set_openupval (List.filter (kept (gc_heap g) g) (th_openupval th)) th))
  | _ => o
  end.

Lemma own_swept_same g o : marked (own_swept g o) = marked o /\ swept_body g (gc_heap g) (obj o) (obj (own_swept g o)) /\ is_open (obj (own_swept g o)) = is_open (obj o).
Proof.
  unfold own_swept. destruct o as [m b]. destruct b; split_and!; try done; try apply swept_body_refl. right; left. by eexists.
Qed.

Lemma own_swept_upvals g o : own_upvals (own_swept g o) = List.filter (kept (gc_heap g) g) (own_upvals o).
Proof. unfold own_swept, own_upvals. destruct o as [m b]. by destruct b. Qed.

Section upvals.
Context (g : gstate) (curr : Z) (next : list Z) (o : GCObject) (g1 : gstate).
Context (Hs : sweepable g) (Hrest : gc_root_rest g = curr :: next) (Ho : gc_heap g !! curr = Some o) (Hu : upvals_swept g curr o g1).

Lemma swept_curr : gc_heap g1 !! curr = Some (own_swept g o).
Proof. exact (us_curr _ _ _ _ Hu). Qed.

Lemma swept_own u : u ∈ own_upvals (own_swept g o) ->
  exists m lv, gc_heap g1 !! u = Some (mkObj m (BUpVal (UOpen curr lv))) /\ whitened g m /\ u ∈ own_upvals o /\
    exists m0, gc_heap g !! u = Some (mkObj m0 (BUpVal (UOpen curr lv))).
Proof.
  rewrite own_swept_upvals. intros [Hin Hk]%list_elem_of_In%filter_In. apply list_elem_of_In in Hin.
  destruct (proj2 (own_simple g curr next o Hs Hrest Ho) u Hin) as (m & lv & E). unfold kept in Hk. rewrite E in Hk. cbn in Hk.
  exists (makewhite g m), lv. split_and!; [|by eexists|done|by eexists].
  rewrite (us_other _ _ _ _ Hu) by (by eapply own_not_curr). rewrite lookup_sweep_heap, decide_True by done. rewrite E. cbn. by rewrite Hk.
Qed.

Lemma swept_other a : a <> curr -> a ∉ own_upvals o -> gc_heap g1 !! a = gc_heap g !! a.
Proof. intros H1 H2. rewrite (us_other _ _ _ _ Hu) by done. by rewrite lookup_sweep_heap, decide_False. Qed.

Lemma swept_not_thread u o' : u ∈ own_upvals o -> gc_heap g1 !! u = Some o' -> is_thread (obj o') = false.
Proof.
  intros Hin. rewrite (us_other _ _ _ _ Hu) by (by eapply own_not_curr). rewrite lookup_sweep_heap, decide_True by done.
  destruct (proj2 (own_simple g curr next o Hs Hrest Ho) u Hin) as (m & lv & ->). cbn. destruct (keep g m); [|done]. by intros [= <-].
Qed.

Lemma upvals_shrunk : shrunk g (gc_heap g) (gc_heap g1).
Proof.
  assert (Hp : shrunk g (gc_heap g) (sweep_heap g (own_upvals o) (gc_heap g))).
  { apply shrunk_sweep; [apply Hs|]. intros u m th Hin E. destruct (proj2 (own_simple g curr next o Hs Hrest Ho) u Hin) as (m' & lv & E'). congruence. }
  assert (Hroot : open_at (gc_heap g) curr = false).
  { destruct (sw_roots _ Hs curr ltac:(rewrite Hrest; set_solver)) as (oc & E & Hop). unfold open_at. by rewrite E. }
  intros a. destruct (decide (a = curr)) as [->|Hne].
  - rewrite swept_curr. exists o. destruct (own_swept_same g o) as (-> & Hb & Eop). split_and!; auto.
    intros l lv E _. rewrite E in Eop. unfold open_at in Hroot. rewrite Ho in Hroot. cbn in Eop. congruence.
  - specialize (Hp a). rewrite (us_other _ _ _ _ Hu) by done. destruct (sweep_heap g (own_upvals o) (gc_heap g) !! a) as [o'|] eqn:Ea; [|done].
    destruct Hp as (oa & E & Hb & Hm & Hl). exists oa. split_and!; [done..|]. intros l lv Eo' Hla. destruct (Hl l lv Eo' Hla) as (m & th & El & Hin).
    destruct (decide (l = curr)) as [->|Hlc]; [|exists m, th; split; [|done]; by rewrite (us_other _ _ _ _ Hu)].
    rewrite lookup_sweep_heap, decide_False in El by (intros Hc; by apply (own_not_curr g curr next o Hs Hrest Ho curr)).
    rewrite Ho in El. injection El as El. pose proof swept_curr as Ec. rewrite El in Ec. exists m, (set_openupval (List.filter (kept (gc_heap g) g) (th_openupval th)) th).
    split; [exact Ec|]. apply list_elem_of_In, filter_In. split; [by apply list_elem_of_In|].
    rewrite lookup_sweep_heap in Ea. cbn in Ea. rewrite decide_True in Ea by (unfold own_upvals; by rewrite El). unfold kept. rewrite E in Ea |- *. by destruct (keep g (marked oa)).
Qed.

Lemma upvals_sweepable : sweepable g1.
Proof.
  destruct (us_roots _ _ _ _ Hu) as [R1 R2]. split.
  - destruct Hs as [Hw _ _ _]. unfold white_ok in *. by rewrite (us_white _ _ _ _ Hu).
  - rewrite R1, R2. apply Hs.
  - rewrite R1, R2. intros a Ha. destruct (sw_roots _ Hs a Ha) as (oa & Ea & Hop). destruct (decide (a = curr)) as [->|Hne].
    + rewrite swept_curr. eexists. split; [done|]. destruct (own_swept_same g o) as (_ & _ & ->). congruence.
    + exists oa. split; [|done]. rewrite swept_other; [done..|]. intros Hin. by apply (own_not_root g curr next o Hs Hrest Ho a).
  - intros a m th Ha. destruct (decide (a = curr)) as [->|Hne].
    + rewrite swept_curr in Ha. injection Ha as Ha. pose proof swept_own as Hown. rewrite Ha in Hown.
      pose proof (own_swept_upvals g o) as El. rewrite Ha in El. cbn in El, Hown.
      assert (exists th0, obj o = BThread th0 /\ th_stack th0 = th_stack th) as (th0 & E0 & Est).
      { unfold own_swept in Ha. destruct o as [mo b]. destruct b; cbn in Ha; try congruence. injection Ha as _ <-. by eexists. }
      assert (Ho' : gc_heap g !! curr = Some (mkObj (marked o) (BThread th0))) by (rewrite <-E0, Ho; by destruct o).
      destruct (sw_open _ Hs _ _ _ Ho') as [Hnd Hall]. rewrite El. split.
      * unfold own_upvals. rewrite E0. by apply NoDup_ListNoDup, List.NoDup_filter, NoDup_ListNoDup.
      * intros u Hin. rewrite <-El in Hin. destruct (Hown u Hin) as (mu & lv & E & _ & Hin0 & m0 & E1). exists mu, lv. split; [done|].
        unfold own_upvals in Hin0. rewrite E0 in Hin0. destruct (Hall u Hin0) as (m1 & lv1 & E2 & Hlv). rewrite E1 in E2. injection E2 as _ <-. by rewrite <-Est.
    + apply (other_threads g curr next o Hs Hrest Ho g1 swept_other swept_not_thread a m th Hne Ha).
Qed.
End upvals.

(** The object is dead and is freed: [own] is what remained of its upvalues. *)
Record curr_freed g1 (curr : Z) (next own : list Z) g' : Prop := {
  cf_white : gc_currentwhite g' = gc_currentwhite g1;
  cf_curr : gc_heap g' !! curr = None;
  cf_own u m b : u ∈ own -> gc_heap g1 !! u = Some (mkObj m b) ->
    exists v, closes (gc_heap g1) curr b v /\ gc_heap g' !! u = Some (mkObj m (BUpVal (UClosed v)));
  cf_other a : a <> curr -> a ∉ own -> gc_heap g' !! a = gc_heap g1 !! a;
  cf_roots : gc_root_swept g' ++ gc_root_rest g' ≡ₚ own ++ gc_root_swept g1 ++ next;
  cf_next a : a ∈ next -> a ∈ gc_root_rest g';
  cf_new a : a ∈ gc_root_rest g' -> a ∈ own \/ a ∈ next;
}.

(** ** One step *)

Section step.
Context (g : gstate) (curr : Z) (next : list Z) (o : GCObject) (g1 : gstate).
Context (Hs : sweepable g) (Hrest : gc_root_rest g = curr :: next) (Ho : gc_heap g !! curr = Some o) (Hu : upvals_swept g curr o g1).

Abbreviation o1 := (own_swept g o).

Lemma swept_ok : sweepable g1 /\ gc_heap g1 !! curr = Some o1 /\ gc_root_rest g1 = curr :: next.
Proof.
  split_and!; [by eapply upvals_sweepable|by apply swept_curr|]. by rewrite (proj2 (us_roots _ _ _ _ Hu)).
Qed.

Lemma next_roots : NoDup (gc_root_swept g1 ++ next) /\ ~ (curr ∈ gc_root_swept g1 ++ next) /\ forall a, a ∈ gc_root_swept g1 ++ next -> a ∈ gc_root_swept g1 ++ gc_root_rest g1.
Proof.
  destruct swept_ok as (Hs1 & _ & Hrest1). pose proof (sw_nodup _ Hs1) as Hnd. rewrite Hrest1 in *. rewrite <-(Permutation_middle (gc_root_swept g1) next curr) in Hnd.
  apply NoDup_cons in Hnd as [Hn Hnd]. split_and!; [done..|]. intros a. rewrite !elem_of_app, elem_of_cons. tauto.
Qed.

Lemma freed_one g' : keep g (marked o) = false -> curr_freed g1 curr next (own_upvals o1) g' -> swept_one g curr o next g'.
Proof.
  destruct swept_ok as (Hs1 & Ho1 & Hrest1). intros Hk [Cw Cc Co Cx Cr Cn Cnew]. destruct next_roots as (Hnd & Hcn & Hsub).
  pose proof (fun u => swept_own g curr next o g1 Hs Hrest Ho Hu u) as Hown.
  assert (Hopen : forall u, u ∈ own_upvals o1 -> exists m v, gc_heap g' !! u = Some (mkObj m (BUpVal (UClosed v)))).
  { intros u Hin. destruct (Hown u Hin) as (m & lv & E & _). destruct (Co u m _ Hin E) as (v & _ & Ev). eauto. }
  split.
  - rewrite Cw. exact (us_white _ _ _ _ Hu).
  - eapply shrunk_trans; [apply (upvals_shrunk g curr next o g1 Hs Hrest Ho Hu)|]. intros a. destruct (decide (a = curr)) as [->|Hne].
    + rewrite Cc. intros o' E. rewrite Ho1 in E. injection E as <-. destruct (own_swept_same g o) as (-> & _). done.
    + destruct (decide (a ∈ own_upvals o1)) as [Hin|Hnin].
      { destruct (Hown a Hin) as (m & lv & E & _). destruct (Co a m _ Hin E) as (v & Hv & ->). eexists. split_and!; [exact E| |by left|done].
        right; right. exists curr, v. split_and!; [done..|]. unfold kept. rewrite Ho1. destruct (own_swept_same g o) as (-> & _). done. }
      rewrite Cx by done. destruct (gc_heap g1 !! a) as [oa|] eqn:Ea; [|done]. exists oa. split_and!; [done|apply swept_body_refl|by left|].
      intros l lv _ (m & th & El & Hin). exists m, th. split; [|done]. rewrite Cx; [done| |].
      * intros ->. apply Hnin. rewrite Ho1 in El. injection El as El. unfold own_upvals. by rewrite El.
      * intros Hl. destruct (Hown l Hl) as (? & ? & E & _). congruence.
  - split.
    + destruct (sw_white _ Hs1) as (W1 & W2 & W3). unfold white_ok. rewrite Cw. done.
    + rewrite Cr. apply NoDup_app. split_and!; [apply (own_simple g1 curr next o1 Hs1 Hrest1 Ho1)| |done].
      intros a Ha Hin. by apply (own_not_root g1 curr next o1 Hs1 Hrest1 Ho1 a Ha), Hsub.
    + intros a. rewrite Cr. intros [Ha|Ha]%elem_of_app; [destruct (Hopen a Ha) as (m & v & ->); by eexists|].
      destruct (sw_roots _ Hs1 a (Hsub a Ha)) as (oa & Ea & Hop). exists oa. split; [|done]. rewrite Cx; [done|congruence|].
      intros Hin. by apply (own_not_root g1 curr next o1 Hs1 Hrest1 Ho1 a Hin), Hsub.
    + intros a m th Ha. destruct (decide (a = curr)) as [->|Hne]; [congruence|].
      apply (other_threads g1 curr next o1 Hs1 Hrest1 Ho1 g') with m; [exact Cx| |done|done].
      intros u o' Hin E. destruct (Hopen u Hin) as (mu & v & E'). rewrite E in E'. by injection E' as ->.
  - rewrite Hk. exact Cc.
  - exact Cn.
  - intros a Ha. destruct (Cnew a Ha) as [Hin|]; [|by left]. right. destruct (Hown a Hin) as (_ & lv & _ & _ & _ & m0 & E). unfold open_at. by rewrite E.
Qed.

Lemma kept_one g' : keep g (marked o) = true -> gc_currentwhite g' = gc_currentwhite g1 ->
  gc_heap g' = alter (fun x => mkObj (makewhite g1 (marked x)) (obj x)) curr (gc_heap g1) ->
  gc_root_swept g' = gc_root_swept g1 ++ [curr] -> gc_root_rest g' = next -> swept_one g curr o next g'.
Proof.
  destruct swept_ok as (Hs1 & Ho1 & Hrest1). intros Hk Cw Eh R1 R2.
  assert (Hb : forall a, obj <$> gc_heap g' !! a = obj <$> gc_heap g1 !! a).
  { intros a. rewrite Eh. destruct (decide (a = curr)) as [->|Hne]; [|by rewrite lookup_alter_ne]. rewrite lookup_alter_eq. by destruct (gc_heap g1 !! curr). }
  assert (Hlist : forall u l, listed (gc_heap g1) u l -> listed (gc_heap g') u l).
  { intros u l (m & th & El & Hin). pose proof (Hb l) as Hbl. rewrite El in Hbl. apply fmap_Some in Hbl as ([m' b'] & El' & Eb). cbn in Eb. subst b'. by exists m', th. }
  assert (Er : gc_root_swept g' ++ gc_root_rest g' = gc_root_swept g1 ++ gc_root_rest g1) by (rewrite R1, R2, Hrest1, <-app_assoc; done).
  assert (Hc : gc_heap g' !! curr = Some (mkObj (makewhite g (marked o)) (obj o1))).
  { rewrite Eh, lookup_alter_eq, Ho1. cbn. destruct (own_swept_same g o) as (-> & _). by rewrite (makewhite_same g g1) by apply Hu. }
  split.
  - rewrite Cw. exact (us_white _ _ _ _ Hu).
  - eapply shrunk_trans; [apply (upvals_shrunk g curr next o g1 Hs Hrest Ho Hu)|]. intros a. destruct (decide (a = curr)) as [->|Hne].
    + rewrite Hc. exists o1. split_and!; [done|apply swept_body_refl| |auto]. right. destruct (own_swept_same g o) as (-> & _).
      split_and!; [done|apply keep_makewhite; [apply Hs|done]|by eexists].
    + rewrite Eh, lookup_alter_ne by done. rewrite <-Eh. destruct (gc_heap g1 !! a) as [oa|]; [|done]. exists oa. split_and!; auto.
  - split.
    + destruct (sw_white _ Hs1) as (W1 & W2 & W3). unfold white_ok. rewrite Cw. done.
    + rewrite Er. apply Hs1.
    + rewrite Er. intros a Ha. destruct (sw_roots _ Hs1 a Ha) as (oa & Ea & Hop). specialize (Hb a). rewrite Ea in Hb.
      apply fmap_Some in Hb as (oa' & Ea' & Eb). exists oa'. split; [done|congruence].
    + intros a m th Ha. pose proof (Hb a) as Hba. rewrite Ha in Hba. symmetry in Hba. apply fmap_Some in Hba as ([m' b'] & Ea' & Eb). cbn in Eb. subst b'.
      destruct (sw_open _ Hs1 a m' th Ea') as [Hnd Hall]. split; [done|]. intros u Hin. destruct (Hall u Hin) as (mu & lv & Eu & Hlv).
      pose proof (Hb u) as Hbu. rewrite Eu in Hbu. apply fmap_Some in Hbu as ([mu' b'] & Eu' & Eb). cbn in Eb. subst b'. by exists mu', lv.
  - rewrite Hk. split; [|rewrite R1; set_solver]. eexists. split; [exact Hc|]. by eexists.
  - by rewrite R2.
  - rewrite R2. by left.
Qed.
End step.

(** Freeing a dead thread closes the upvalues it still has. *)
Lemma freethread_spec g l m th : sweepable g -> gc_heap g !! l = Some (mkObj m (BThread th)) ->
  (forall u, u ∈ th_openupval th -> swept_upvalue g l th u) -> l ∉ gc_root_rest g ->
  wp (luaE_freethread l) (fun _ g' => curr_freed g l (gc_root_rest g) (th_openupval th) g') never g.
Proof.
  intros Hs Hl Hup Hn. unfold luaE_freethread, luaF_close. apply wp_assoc, wp_bind. eapply wp_gco2th; [exact Hl|].
  apply wp_bind. eapply wp_mono; [eapply close_swept; [|apply (sw_open _ Hs _ _ _ Hl)|exact Hl|done|exact Hup]; lia| |done].
  intros [] g1 [Cw Ct Cu Co Cr Cs Cn]. specialize (Ct _ _ Hl). unfold freestack. apply wp_assoc, wp_bind. eapply wp_gco2th; [exact Ct|].
  apply wp_assoc. pose proof (freed_refl g1) as Hf. free_step. free_step. free_step.
  match goal with Hf : freed _ _ _ |- _ => eapply wp_mono; [exact (freed_free_object l _ _ _ never Hf)| |done] end.
  intros [] g2 Hf2. pose proof (freed_heap _ _ _ Hf2) as Hh. destruct (freed_roots _ _ _ Hf2) as [R1 R2].
  assert (Hne : forall u, u ∈ th_openupval th -> u <> l) by (intros u Hin ->; destruct (Hup l Hin) as (? & ? & E & _); congruence).
  split.
  - rewrite (freed_white _ _ _ Hf2). exact Cw.
  - rewrite Hh. apply lookup_delete_eq.
  - intros u mu b Hin E. rewrite Hh, lookup_delete_ne by (by apply not_eq_sym, Hne). by apply (Cu u mu b).
  - intros a Ha Hnin. rewrite Hh, lookup_delete_ne by done. by apply Co.
  - by rewrite R1, R2.
  - rewrite R2. exact Cs.
  - rewrite R2. exact Cn.
Qed.

Lemma freeobj_one g l o : sweepable g -> gc_heap g !! l = Some o ->
  (forall th, obj o = BThread th -> forall u, u ∈ th_openupval th -> swept_upvalue g l th u) -> l ∉ gc_root_rest g ->
  wp (freeobj l) (fun _ g' => curr_freed g l (gc_root_rest g) (own_upvals o) g') never g.
Proof.
  intros Hs Hl Hup Hn. destruct (is_thread (obj o)) eqn:Ht.
  - destruct o as [m b]. destruct b as [| | | | |th|]; try done. unfold freeobj. eapply wp_deref_bind; [exact Hl|]. cbn [obj].
    by eapply freethread_spec; [|exact Hl|apply Hup|].
  - assert (Eu : own_upvals o = []) by (unfold own_upvals; by destruct (obj o)). rewrite Eu.
    eapply wp_mono; [by apply (freeobj_simple l o)| |done]. intros [] g' Hf. pose proof (freed_heap _ _ _ Hf) as Hh. destruct (freed_roots _ _ _ Hf) as [R1 R2].
    split; rewrite ?R1, ?R2; try (by auto); try set_solver.
    + exact (freed_white _ _ _ Hf).
    + rewrite Hh. apply lookup_delete_eq.
    + intros a Ha _. by rewrite Hh, lookup_delete_ne.
Qed.

Lemma sweep_step_spec g curr next o : sweepable g -> gc_root_rest g = curr :: next -> gc_heap g !! curr = Some o ->
  wp (sweep_step curr next) (fun _ g' => swept_one g curr o next g') never g.
Proof.
  intros Hs Hrest Ho. unfold sweep_step. eapply wp_deref_bind; [exact Ho|]. fold (sweep_own curr o).
  eapply wp_seq; [by eapply sweep_upvals|]. intros [] g1 Hu. destruct (swept_ok g curr next o g1 Hs Hrest Ho Hu) as (Hs1 & Ho1 & Hrest1).
  apply wp_get. change (survives (otherwhite g1) (marked o)) with (keep g1 (marked o)). rewrite (keep_white g g1) by apply Hu.
  destruct (keep g (marked o)) eqn:Hk.
  - unfold upd_marked. apply wp_modify. unfold wp, modify. apply (kept_one g curr next o g1); done.
  - apply wp_modify. set (g2 := setg_rootgc _ _ g1). destruct (next_roots g curr next o g1 Hs Hrest Ho Hu) as (Hnd & Hcn & Hsub).
    pose proof (own_swept_same g o) as Hsame.
    eapply wp_mono; [apply (freeobj_one g2 curr (own_swept g o))| |done].
    + split; [apply Hs1|exact Hnd| |apply Hs1]. intros a Ha. apply (sw_roots _ Hs1). by apply Hsub.
    + exact Ho1.
    + intros th Eth u Hin. assert (Hin' : u ∈ own_upvals (own_swept g o)) by (unfold own_upvals; by rewrite Eth).
      destruct (swept_own g curr next o g1 Hs Hrest Ho Hu u Hin') as (m & lv & E & Hw & _).
      assert (Hl : gc_heap g1 !! curr = Some (mkObj (marked o) (BThread th))).
      { rewrite Ho1. destruct Hsame as (<- & _). rewrite <-Eth. by destruct (own_swept g o). }
      destruct (sw_open _ Hs1 _ _ _ Hl) as [_ Hall]. destruct (Hall u Hin) as (mu & lv' & E' & Hlv). rewrite E in E'. injection E' as <- <-.
      assert (Hw1 : whitened g1 m) by (destruct Hw as [m0 ->]; exists m0; symmetry; apply makewhite_same, Hu).
      destruct (whitened_white g1 m (sw_white _ Hs1) Hw1) as (Hwh & _ & Hd). exists m, lv. split_and!; [exact E|apply Hlv..|exact Hd|].
      unfold isgray. by rewrite Hwh, andb_false_r.
    + intros Hin. apply Hcn. apply elem_of_app. by right.
    + intros [] g' [Cw Cc Co Cx Cr Cn Cnew]. apply (freed_one g curr next o g1); try done.
Qed.

(** ** The whole list *)

(** What has become of an object of the heap [h] that was swept. *)
Definition swept_object g h (o : GCObject) a g' : Prop :=
  if keep g (marked o) then exists o', gc_heap g' !! a = Some o' /\ swept_body g h (obj o) (obj o') /\ whitened g (marked o')
  else gc_heap g' !! a = None.

(** An object of the heap may have to be swept, when it is on the list or is
    an upvalue that may be put there. *)
Definition pending g : gset Z := list_to_set (gc_root_rest g) ∪ dom (filter (fun x : Z * GCObject => is_open (obj x.2) = true) (gc_heap g)).

Lemma elem_of_pending g a : a ∈ pending g <-> a ∈ gc_root_rest g \/ open_at (gc_heap g) a = true.
Proof.
  unfold pending, open_at. rewrite elem_of_union, elem_of_list_to_set, elem_of_dom. split; (intros [Hin|Hin]; [by left|right]).
  - destruct Hin as [o [-> Ho]%map_lookup_filter_Some]. exact Ho.
  - destruct (gc_heap g !! a) as [o|] eqn:E; [|done]. exists o. by apply map_lookup_filter_Some.
Qed.

Lemma pending_size g : sweepable g -> (size (pending g) <= size (gc_heap g))%nat.
Proof.
  intros Hs. rewrite <-size_dom. apply subseteq_size. intros a [Ha|Ha]%elem_of_pending; apply elem_of_dom.
  - destruct (sw_roots _ Hs a) as (o & -> & _); [set_solver|by eexists].
  - unfold open_at in Ha. destruct (gc_heap g !! a); [by eexists|done].
Qed.

Lemma shrunk_open g h h' a : shrunk g h h' -> open_at h' a = true -> open_at h a = true.
Proof.
  intros Hsh. specialize (Hsh a). unfold open_at. destruct (h' !! a) as [o'|]; [|done]. destruct Hsh as (o & -> & Hb & _). by eapply swept_body_open.
Qed.

Lemma pending_less g curr next o g' : sweepable g -> gc_root_rest g = curr :: next -> swept_one g curr o next g' ->
  (size (pending g') < size (pending g))%nat.
Proof.
  intros Hs Hrest [Sw Ss Sk Sc Sn Snew]. apply subset_size. split.
  - intros a. rewrite !elem_of_pending. intros [Ha|Ha]; [|right; by eapply shrunk_open].
    destruct (Snew a Ha) as [Hin|Hop]; [left; rewrite Hrest; by right|by right].
  - intros Hsub. assert (Hc : curr ∈ pending g') by (apply Hsub, elem_of_pending; left; rewrite Hrest; by left).
    assert (Hno : open_at (gc_heap g) curr = false).
    { destruct (sw_roots _ Hs curr ltac:(rewrite Hrest; set_solver)) as (oc & E & Hop). unfold open_at. by rewrite E. }
    apply elem_of_pending in Hc as [Hc|Hc]; [|apply (shrunk_open g _ _ _ Ss) in Hc; congruence].
    destruct (Snew _ Hc) as [Hin|Hop]; [|congruence]. pose proof (sw_nodup _ Hs) as Hnd. rewrite Hrest in Hnd.
    rewrite <-(Permutation_middle (gc_root_swept g) next curr) in Hnd. apply NoDup_cons in Hnd as [Hn _]. set_solver.
Qed.

Lemma shrunk_keep g h h' a o o' : shrunk g h h' -> h !! a = Some o -> h' !! a = Some o' ->
  keep g (marked o') = keep g (marked o) /\ swept_body g h (obj o) (obj o').
Proof.
  intros Hsh E E'. specialize (Hsh a). rewrite E' in Hsh. destruct Hsh as (o0 & E0 & Ht & Hm & _). rewrite E in E0. injection E0 as <-.
  split; [|done]. destruct Hm as [->|(K & K' & _)]; congruence.
Qed.

(** An object that was swept stays so while the others are. *)
Lemma swept_object_shrunk g h o a g1 g' : h !! a = Some o -> shrunk g h (gc_heap g1) -> swept_object g h o a g1 ->
  shrunk g (gc_heap g1) (gc_heap g') -> swept_object g h o a g'.
Proof.
  intros E Hs1 Hd Hs. pose proof (Hs a) as Hsa. unfold swept_object in *. destruct (keep g (marked o)) eqn:Hk.
  - destruct Hd as (o1 & E1 & Ht1 & Hw1). destruct (gc_heap g' !! a) as [o'|].
    + destruct Hsa as (o1' & E1' & Ht & Hm & _). rewrite E1 in E1'. injection E1' as <-. exists o'. split_and!; [done|by eapply swept_body_trans|].
      destruct Hm as [->|(_ & _ & Hw)]; done.
    + specialize (Hsa o1 E1). destruct (shrunk_keep _ _ _ a o o1 Hs1 E E1). congruence.
  - destruct (gc_heap g' !! a) as [o'|]; [|done]. destruct Hsa as (o1 & E1 & _). congruence.
Qed.

Record swept_list g (n : nat) g' : Prop := {
  sl_white : gc_currentwhite g' = gc_currentwhite g;
  sl_ok : sweepable g';
  sl_shrunk : shrunk g (gc_heap g) (gc_heap g');
  sl_swept a o : a ∈ gc_root_rest g -> gc_heap g !! a = Some o -> a ∈ gc_root_rest g' \/ swept_object g (gc_heap g) o a g';
  sl_left : gc_root_rest g' = [] \/ (size (pending g') + n <= size (pending g))%nat;
}.

Lemma shrunk_white g g' h h' : gc_currentwhite g' = gc_currentwhite g -> shrunk g' h h' -> shrunk g h h'.
Proof. intros Ew Hsh. unfold shrunk, swept_body, kept, keep, whitened, makewhite, luaC_white, otherwhite in *. by rewrite Ew in Hsh. Qed.

Lemma swept_object_white g g1 h o a g' : gc_currentwhite g1 = gc_currentwhite g -> swept_object g1 h o a g' -> swept_object g h o a g'.
Proof. intros Ew Hd. unfold swept_object, swept_body, kept, keep, whitened, makewhite, luaC_white, otherwhite in *. by rewrite Ew in Hd. Qed.

(** It may be swept later, when the heap has shrunk to [h1]. *)
Lemma swept_object_same g h h1 o o1 a g' : shrunk g h h1 -> h !! a = Some o -> h1 !! a = Some o1 ->
  swept_object g h1 o1 a g' -> swept_object g h o a g'.
Proof.
  intros Hs E E1. destruct (shrunk_keep _ _ _ a o o1 Hs E E1) as [Hk Hb]. unfold swept_object. rewrite Hk.
  destruct (keep g (marked o)); [|done]. intros (o2 & E2 & Hb2 & Hw). exists o2. split_and!; [done|by eapply swept_body_trans|done].
Qed.

(** Enough turns sweep the whole list. *)
Lemma swept_all g n g' : sweepable g -> swept_list g n g' -> (size (gc_heap g) <= n)%nat -> gc_root_rest g' = [].
Proof.
  intros Hs HL Hn. destruct (sl_left _ _ _ HL) as [|Hl]; [done|]. pose proof (pending_size g Hs).
  destruct (gc_root_rest g') as [|a rest] eqn:E; [done|]. assert (Hne : pending g' ≢ ∅).
  { assert (a ∈ pending g') by (apply elem_of_pending; left; rewrite E; by left). set_solver. }
  apply size_non_empty_iff in Hne. lia.
Qed.

Lemma sweeplist_spec n g : sweepable g -> wp (sweeplist n) (fun _ g' => swept_list g n g') never g.
Proof.
  revert g. induction n as [|n IH]; intros g Hs; cbn [sweeplist].
  { apply wp_ret. split; [done|done|apply shrunk_refl|by left|right; lia]. }
  apply wp_get. destruct (gc_root_rest g) as [|curr next] eqn:Hrest.
  { apply wp_ret. split; [done|done|apply shrunk_refl|by left|by left]. }
  destruct (sw_roots _ Hs curr ltac:(rewrite Hrest; set_solver)) as (oc & Eoc & _).
  eapply wp_seq; [by apply (sweep_step_spec g curr next oc)|]. intros [] g1 H1. pose proof H1 as [Sw Ss Sk Sc Sn Snew].
  eapply wp_mono; [by apply IH| |done]. intros [] g' [Lw Lk Ls Ld La]. pose proof (shrunk_white _ _ _ _ Sw Ls) as Ls'. split.
  - congruence.
  - exact Lk.
  - by eapply shrunk_trans.
  - intros a o Ha Eo. rewrite Hrest in Ha. apply elem_of_cons in Ha as [->|Ha].
    + right. rewrite Eoc in Eo. injection Eo as <-. apply (swept_object_shrunk g _ oc curr g1); [done..| |done].
      unfold swept_object. destruct (keep g (marked oc)) eqn:Hk; [|done]. destruct Sc as [(o' & E' & Hw) _]. exists o'. split_and!; [done| |done].
      by apply (shrunk_keep g _ _ curr oc o' Ss).
    + destruct (sw_roots _ Sk a) as (o1 & E1 & _); [apply elem_of_app; right; by apply Sn|].
      destruct (Ld a o1 (Sn a Ha) E1) as [?|Hd]; [by left|]. right.
      eapply swept_object_same; [exact Ss|done..|]. by eapply swept_object_white.
  - pose proof (pending_less g curr next oc g1 Hs Hrest H1). destruct La; [by left|right; lia].
Qed.

(** Outside of [luaC_freeall] the current white is one white, with the bit of
    the objects that are fixed. *)
Definition cycle_white g : Prop :=
  gc_currentwhite g = Z.lor (bitmask WHITE0BIT) (bitmask FIXEDBIT) \/ gc_currentwhite g = Z.lor (bitmask WHITE1BIT) (bitmask FIXEDBIT).

Lemma cycle_white_ok g : cycle_white g -> white_ok g.
Proof. unfold cycle_white, white_ok. by intros [-> | ->]. Qed.

(** What is kept: what is not dead, and what is fixed. *)
Lemma keep_cycle g m : cycle_white g -> keep g m = negb (isdead g m) || Z.testbit m FIXEDBIT.
Proof.
  intros Hc. pose proof (otherwhite_u8 g (cycle_white_ok g Hc)) as Hu. unfold keep, survives, isdead, testbits. rewrite land_zero by done.
  rewrite land_zero by done. change (seqZ 0 8) with [0; 1; 2; 3; 4; 5; 6; 7]. cbn [forallb].
  rewrite !Z.lxor_spec, !Z.land_spec. unfold otherwhite, FIXEDBIT.
  assert (Hbits : exists b, forall i, 0 <= i < 8 -> Z.testbit (Z.lxor (gc_currentwhite g) WHITEBITS) i =
    if i =? 0 then b else if i =? 1 then negb b else i =? 5).
  { destruct Hc as [-> | ->]; [exists false|exists true]; intros i Hi;
      assert (i = 0 \/ i = 1 \/ i = 2 \/ i = 3 \/ i = 4 \/ i = 5 \/ i = 6 \/ i = 7) as Hc by lia;
      by repeat (destruct Hc as [->|Hc]); subst. }
  destruct Hbits as [b Hb]. rewrite !Hb by lia. cbn.
  destruct b, (Z.testbit m 0), (Z.testbit m 1), (Z.testbit m 5); cbn; rewrite ?andb_false_r; reflexivity.
Qed.

(** C38: [sweeplist] takes from the list of objects at most [n].  The dead ones
    it has taken are not in the heap any more, unless they are fixed; the
    others are, with their body, and white, not dead, for the next cycle.  No
    object that is alive is freed, wherever it is, even when the upvalues of a
    freed thread are put on the list that is being swept.  A thread that stays
    loses the dead upvalues of its list; an upvalue is closed only because its
    thread is dead, and with the value of its slot; one that is left open is
    still on the list of its thread, so none is left open on a thread that was
    freed.  With as many turns
    as there are objects the whole list is swept ([luaC_freeall] sweeps without
    a limit).  No pointer it follows dangles. *)
Theorem sweeplist_frees_the_dead n g : sweepable g -> cycle_white g ->
  wp (sweeplist n) (fun _ g' =>
    (forall a o, a ∈ gc_root_rest g -> gc_heap g !! a = Some o -> a ∉ gc_root_rest g' ->
      if isdead g (marked o) && negb (Z.testbit (marked o) FIXEDBIT) then gc_heap g' !! a = None
      else exists o', gc_heap g' !! a = Some o' /\ swept_body g (gc_heap g) (obj o) (obj o') /\ iswhite (marked o') = true /\ isdead g' (marked o') = false) /\
    (forall a o, gc_heap g !! a = Some o -> isdead g (marked o) = false ->
      exists o', gc_heap g' !! a = Some o' /\ swept_body g (gc_heap g) (obj o) (obj o') /\ isdead g' (marked o') = false) /\
    (forall u m l lv, gc_heap g' !! u = Some (mkObj m (BUpVal (UOpen l lv))) -> listed (gc_heap g) u l -> listed (gc_heap g') u l) /\
    ((size (gc_heap g) <= n)%nat -> gc_root_rest g' = []) /\ sweepable g') never g.
Proof.
  intros Hs Hc. eapply wp_mono; [by apply sweeplist_spec| |done]. intros [] g' HL. pose proof HL as [Lw Lk Ls Ld La].
  assert (Hdead : forall m, isdead g' m = isdead g m) by (intros m; unfold isdead, otherwhite; by rewrite Lw).
  split_and!; [| | |by eapply swept_all|done].
  - intros a o Ha Eo Hn. destruct (Ld a o Ha Eo) as [?|Hd]; [done|]. unfold swept_object in Hd. rewrite keep_cycle in Hd by done.
    destruct (isdead g (marked o)), (Z.testbit (marked o) FIXEDBIT); cbn in Hd |- *; try done;
      destruct Hd as (o' & E' & Ht & Hw); exists o'; rewrite Hdead;
      destruct (whitened_white g (marked o') (cycle_white_ok g Hc) Hw) as (? & _ & ?); done.
  - intros a o Eo Hd. assert (Hk : keep g (marked o) = true) by (rewrite keep_cycle by done; by rewrite Hd).
    pose proof (Ls a) as Hsh. destruct (gc_heap g' !! a) as [o'|] eqn:E'; [|specialize (Hsh o Eo); congruence].
    exists o'. rewrite Hdead. destruct Hsh as (o1 & E1 & Ht & Hm & _). rewrite Eo in E1. injection E1 as <-. split_and!; [done|done|].
    destruct Hm as [->|(_ & _ & Hw)]; [done|]. apply (whitened_white g (marked o') (cycle_white_ok g Hc) Hw).
  - intros u m l lv Eu. pose proof (Ls u) as Hsh. rewrite Eu in Hsh. destruct Hsh as (o & _ & _ & _ & Hl). by apply (Hl l lv).
Qed.
End sweep.
