(* ===== verification/GcCycle.v ===== *)
(** * GcCycle.v: a whole collection (run_until, singlestep of lgc.c)

    GcSafe.v says that the mark phase leaves no reachable object dead, and
    GcSweep.v that the sweep frees dead objects only.  This file puts them
    together: the links between objects that the sweep follows stay as they
    should be through the mark phase, the strings are swept, then the list of
    all objects, forty at a time, and the table of strings may shrink. *)

From S2P Require Import Prelude Machine Object Mem Zio Table TableInv TableSet Gc Func Collect GcInv GcMark GcTraverse GcPropagate GcAtomic GcClear GcSafe FuncSpec GcSweep.
From S2P Require Str.

Implicit Types (g : gstate) (h : gmap Z GCObject) (a : Z) (m : Z) (p : list Z).

(** ** The lists of objects *)

Definition is_string (b : body) : bool := match b with BString _ => true | _ => false end.

(** The list of all objects has each of its objects once, none of them a
    string or an open upvalue; a thread has its open upvalues, and the string
    table the strings. *)
Record links_ok g : Prop := {
  lk_nodup : NoDup (gc_root_swept g ++ gc_root_rest g);
  lk_roots a : a ∈ gc_root_swept g ++ gc_root_rest g -> exists o, gc_heap g !! a = Some o /\ is_open (obj o) = false /\ is_string (obj o) = false;
  lk_open a m th : gc_heap g !! a = Some (mkObj m (BThread th)) ->
    NoDup (th_openupval th) /\ forall u, u ∈ th_openupval th -> exists mu lv, gc_heap g !! u = Some (mkObj mu (BUpVal (UOpen a lv)));
  lk_strings_nodup : NoDup (concat (gc_strt g));
  lk_strings a : a ∈ concat (gc_strt g) -> exists m s, gc_heap g !! a = Some (mkObj m (BString s));
  lk_size : exists k, 0 <= k <= 30 /\ zlen (gc_strt g) = 2 ^ k;
}.

Lemma same_links_Some h h' a o : same_links h h' -> h !! a = Some o -> exists o', h' !! a = Some o' /\ same_body (obj o) (obj o').
Proof. intros Hs Ha. specialize (Hs a). rewrite Ha in Hs. destruct (h' !! a) as [o'|]; [by exists o'|done]. Qed.
Lemma same_links_Some_r h h' a o' : same_links h h' -> h' !! a = Some o' -> exists o, h !! a = Some o /\ same_body (obj o) (obj o').
Proof. intros Hs Ha. specialize (Hs a). rewrite Ha in Hs. destruct (h !! a) as [o|]; [by exists o|done]. Qed.

(** The mark phase keeps them. *)
Lemma links_kin g g' : kin g g' -> links_ok g -> links_ok g'.
Proof.
  intros [KL KR KS _] [L1 L2 L3 L4 L5 L6]. split; rewrite ?KS; try done.
  - apply submseteq_Permutation in KR as [k Hk]. rewrite Hk in L1. by apply NoDup_app in L1 as [? _].
  - intros a Ha. assert (Hin : a ∈ gc_root_swept g ++ gc_root_rest g) by (by eapply elem_of_submseteq).
    destruct (L2 a Hin) as (o & Eo & Hop & Hst). destruct (same_links_Some _ _ _ _ KL Eo) as (o' & Eo' & Hb). exists o'. split; [done|].
    destruct (obj o) as [| |uv| | | |], (obj o'); try done; try (by injection Hb as <-); try (by destruct uv).
  - intros a m th Ha. destruct (same_links_Some_r _ _ _ _ KL Ha) as ([m0 b0] & Ea & Hb). cbn in Hb. destruct b0 as [| | | | |th0|]; try done.
    cbn in Hb. rewrite Hb. destruct (L3 _ _ _ Ea) as [Hnd Hall]. split; [done|]. intros u Hu. destruct (Hall u Hu) as (mu & lv & E).
    destruct (same_links_Some _ _ _ _ KL E) as ([mu' b'] & E' & Hb'). cbn in Hb'. subst b'. by exists mu', lv.
  - intros a Ha. destruct (L5 a Ha) as (m & s & E). destruct (same_links_Some _ _ _ _ KL E) as ([m' b'] & E' & Hb'). cbn in Hb'. subst b'. by eexists _, _.
Qed.

Create HintDb leaves discriminated.

Section cycle.
Context `{Krealloc} `{StringHash}.

(** The heap can then be swept. *)
Lemma links_sweepable g : white_ok g -> heap_ok (gc_heap g) -> links_ok g -> sweepable g.
Proof.
  intros Hw Hok [L1 L2 L3 _ _ _]. split; try done.
  - intros a Ha. destruct (L2 a Ha) as (o & E & Hop & _). by exists o.
  - intros a m th Ha. destruct (L3 a m th Ha) as [Hnd Hall]. split; [done|]. intros u Hu. destruct (Hall u Hu) as (mu & lv & E).
    exists mu, lv. split; [done|]. destruct (Hok u _ E) as [(m' & th' & E' & Hlv) _]. rewrite Ha in E'. injection E' as <- <-.
    destruct (Hok a _ Ha) as [[Ht0 _ Hlim _ _] _]. pose proof (th_top_lim th). lia.
Qed.

(** ** The strings *)

(** What the sweep keeps of the string table. *)
Record strings_ok g : Prop := {
  st_nodup : NoDup (concat (gc_strt g));
  st_there a : a ∈ concat (gc_strt g) -> exists m s, gc_heap g !! a = Some (mkObj m (BString s));
  st_roots a : a ∈ concat (gc_strt g) -> a ∉ gc_root_swept g ++ gc_root_rest g;
  st_size : exists k, 0 <= k <= 30 /\ zlen (gc_strt g) = 2 ^ k;
}.

Lemma links_strings g : links_ok g -> strings_ok g.
Proof.
  intros [L1 L2 L3 L4 L5 L6]. split; try done. intros a Ha Hin. destruct (L5 a Ha) as (m & s & E). destruct (L2 a Hin) as (o & E' & _ & Hs).
  rewrite E in E'. by injection E' as <-.
Qed.

Lemma chain_in i chain (l : list (list Z)) : znth l i = Some chain -> forall a, a ∈ chain -> a ∈ concat l.
Proof.
  intros Hi a Ha. unfold znth in Hi. destruct (i <? 0); [done|]. apply list_elem_of_lookup_2 in Hi.
  apply list_elem_of_In, in_concat. exists chain. rewrite <-!list_elem_of_In. done.
Qed.

Lemma concat_zupd_sublist (l : list (list Z)) i x x' : znth l i = Some x -> x' `sublist_of` x -> concat (zupd i x' l) `sublist_of` concat l.
Proof.
  unfold znth, zupd. destruct (i <? 0); [done|]. generalize (Z.to_nat i). intros n. revert n.
  induction l as [|y l IH]; intros [|n] Hn Hs; try done; cbn in *.
  - injection Hn as ->. by apply sublist_app.
  - apply sublist_app; [done|by apply IH].
Qed.

Lemma NoDup_concat_znth (l : list (list Z)) i x : NoDup (concat l) -> znth l i = Some x -> NoDup x.
Proof.
  unfold znth. destruct (i <? 0); [done|]. generalize (Z.to_nat i). intros n. revert n.
  induction l as [|y l IH]; intros [|n] Hnd Hi; try done; cbn in *; apply NoDup_app in Hnd as (H1 & _ & H2); [congruence|by eapply IH].
Qed.

(** In a list without duplicates an element of one chain is in no other. *)
Lemma concat_zupd_own (l : list (list Z)) i x x' a : NoDup (concat l) -> znth l i = Some x -> x' `sublist_of` x ->
  a ∈ concat (zupd i x' l) -> a ∈ x -> a ∈ x'.
Proof.
  unfold znth, zupd. destruct (i <? 0); [done|]. generalize (Z.to_nat i). intros n. revert n.
  induction l as [|y l IH]; intros [|n] Hnd Hi Hs Ha Hx; try done; cbn in *; apply NoDup_app in Hnd as (H1 & H2 & H3).
  - injection Hi as ->. apply elem_of_app in Ha as [?|Ha]; [done|]. by destruct (H2 a Hx).
  - apply elem_of_app in Ha as [Ha|Ha]; [|by eapply IH]. destruct (H2 a Ha). apply list_elem_of_lookup_2 in Hi.
    apply list_elem_of_In, in_concat. exists x. rewrite <-!list_elem_of_In. done.
Qed.

Lemma filter_sublist (f : Z -> bool) p : List.filter f p `sublist_of` p.
Proof. induction p as [|a p IH]; cbn; [done|]. destruct (f a); [by apply sublist_skip|by apply sublist_cons]. Qed.

(** One chain. *)
Record chain_swept g i chain g' : Prop := {
  cs_heap : gc_heap g' = sweep_heap g chain (gc_heap g);
  cs_white : gc_currentwhite g' = gc_currentwhite g;
  cs_roots : gc_root_swept g' = gc_root_swept g /\ gc_root_rest g' = gc_root_rest g;
  cs_state : gc_gcstate g' = gc_gcstate g /\ gc_sweepstrgc g' = gc_sweepstrgc g;
  cs_buff : gc_buffsize g' = gc_buffsize g;
  cs_strt : gc_strt g' = zupd i (List.filter (kept (gc_heap g) g) chain) (gc_strt g);
}.

Lemma sweep_strings_spec g i chain : strings_ok g -> znth (gc_strt g) i = Some chain ->
  wp (sweep_strings i) (fun _ g' => chain_swept g i chain g') never g.
Proof.
  intros Hs Hi. unfold sweep_strings. apply wp_get, wp_bind. eapply wp_ok; [unfold array_at, lift; by rewrite Hi|].
  eapply wp_seq; [apply (sweep_simple 1 chain g)|].
  - split.
    + eapply NoDup_concat_znth; [apply Hs|done].
    + intros a Ha. destruct (st_there _ Hs a) as (m & s & E); [by eapply chain_in|]. eexists. by split; [exact E|].
  - intros l g1 [-> Hf]. unfold wp, modify. destruct Hf as (t & n & u & ->). by split.
Qed.

Section chain.
Context (g : gstate) (i : Z) (chain : list Z) (g' : gstate).
Context (Hs : strings_ok g) (Hi : znth (gc_strt g) i = Some chain) (Hc : chain_swept g i chain g').

Lemma chain_string a : a ∈ chain -> exists m s, gc_heap g !! a = Some (mkObj m (BString s)).
Proof. intros Ha. apply (st_there _ Hs). by eapply chain_in. Qed.

Lemma chain_shrunk : white_ok g -> shrunk g (gc_heap g) (gc_heap g').
Proof.
  intros Hw. rewrite (cs_heap _ _ _ _ Hc). apply shrunk_sweep; [done|]. intros a m th Ha E. destruct (chain_string a Ha) as (? & ? & E'). congruence.
Qed.

(** What is no string of the chain is as before. *)
Lemma chain_other a : (forall o, gc_heap g !! a = Some o -> is_string (obj o) = false) -> gc_heap g' !! a = gc_heap g !! a.
Proof.
  intros Hn. rewrite (cs_heap _ _ _ _ Hc), lookup_sweep_heap. destruct (decide (a ∈ chain)) as [Ha|]; [|done].
  destruct (chain_string a Ha) as (m & s & E). by specialize (Hn _ E).
Qed.

Lemma chain_other_r a o : is_string (obj o) = false -> gc_heap g' !! a = Some o -> gc_heap g !! a = Some o.
Proof.
  intros Hn E. pose proof E as E'. rewrite (cs_heap _ _ _ _ Hc), lookup_sweep_heap in E'. destruct (decide (a ∈ chain)) as [Ha|]; [|done].
  destruct (chain_string a Ha) as (m & s & E0). rewrite E0 in E'. cbn in E'. destruct (keep g m); [|done]. by injection E' as <-.
Qed.

Lemma chain_sweepable : sweepable g -> sweepable g'.
Proof.
  intros [S1 S2 S3 S4]. destruct (cs_roots _ _ _ _ Hc) as [R1 R2]. split.
  - unfold white_ok. by rewrite (cs_white _ _ _ _ Hc).
  - by rewrite R1, R2.
  - rewrite R1, R2. intros a Ha. destruct (S3 a Ha) as (o & E & Hop). exists o. split; [|done]. rewrite (cs_heap _ _ _ _ Hc), lookup_sweep_heap, decide_False; [done|].
    intros Hin. apply (st_roots _ Hs a); [by eapply chain_in|done].
  - intros a m th Ha. apply chain_other_r in Ha; [|done]. destruct (S4 a m th Ha) as [Hnd Hall]. split; [done|]. intros u Hu.
    destruct (Hall u Hu) as (mu & lv & E & Hlv). exists mu, lv. split; [|done]. rewrite chain_other; [done|]. intros o Eo. rewrite E in Eo. by injection Eo as <-.
Qed.

(** The strings that are left, and those of the chain are white. *)
Lemma chain_strings : strings_ok g'.
Proof.
  destruct (cs_roots _ _ _ _ Hc) as [R1 R2]. pose proof (cs_strt _ _ _ _ Hc) as Et.
  assert (Hsub : concat (gc_strt g') `sublist_of` concat (gc_strt g)).
  { rewrite Et. eapply concat_zupd_sublist; [done|apply filter_sublist]. }
  split.
  - eapply sublist_NoDup; [apply Hs|exact Hsub].
  - intros a Ha. destruct (st_there _ Hs a) as (m & s & E); [by eapply elem_of_sublist|].
    rewrite (cs_heap _ _ _ _ Hc), lookup_sweep_heap, E. destruct (decide (a ∈ chain)) as [Hin|]; [|by eexists _, _].
    cbn [marked obj]. destruct (keep g m) eqn:Hk; [by eexists _, _|]. exfalso. rewrite Et in Ha.
    apply (concat_zupd_own _ _ _ _ _ (st_nodup _ Hs) Hi (filter_sublist _ _)) in Ha; [|done].
    apply list_elem_of_In, filter_In in Ha as [_ Hk']. unfold kept in Hk'. rewrite E in Hk'. cbn in Hk'. congruence.
  - rewrite R1, R2. intros a Ha. apply (st_roots _ Hs). by eapply elem_of_sublist.
  - rewrite Et, zlen_zupd. apply Hs.
Qed.
End chain.

(** ** How far the sweep is *)

(** From the end of the mark phase, [gm], to [g]: the chains below [i] were
    swept, and the part of the list of objects that is not left. *)
Record progress gm g i : Prop := {
  pr_white : gc_currentwhite g = gc_currentwhite gm;
  pr_shrunk : shrunk gm (gc_heap gm) (gc_heap g);
  pr_strings j chain a o : j < i -> znth (gc_strt gm) j = Some chain -> a ∈ chain -> gc_heap gm !! a = Some o -> swept_object gm (gc_heap gm) o a g;
  pr_roots a o : a ∈ gc_root_rest gm -> gc_heap gm !! a = Some o -> a ∈ gc_root_rest g \/ swept_object gm (gc_heap gm) o a g;
}.

(** The strings that were swept are alive. *)
Definition strings_alive g i : Prop := forall j chain a, j < i -> znth (gc_strt g) j = Some chain -> a ∈ chain -> kept (gc_heap g) g a = true.

Lemma swept_object_later gm g g' o a : shrunk gm (gc_heap gm) (gc_heap g) ->
  gc_heap gm !! a = Some o -> shrunk gm (gc_heap g) (gc_heap g') -> swept_object gm (gc_heap gm) o a g -> swept_object gm (gc_heap gm) o a g'.
Proof. intros Hs0 Eo Hs Hd. by apply (swept_object_shrunk gm _ o a g). Qed.

(** An object is swept now. *)
Lemma swept_object_now gm g g' o o1 a : gc_currentwhite g = gc_currentwhite gm -> shrunk gm (gc_heap gm) (gc_heap g) ->
  gc_heap gm !! a = Some o -> gc_heap g !! a = Some o1 -> swept_object g (gc_heap g) o1 a g' -> swept_object gm (gc_heap gm) o a g'.
Proof. intros Ew Hs Eo E1 Hd. eapply swept_object_same; [done..|]. by apply (swept_object_white gm g). Qed.

Lemma kept_shrunk g g' a : gc_currentwhite g' = gc_currentwhite g -> shrunk g (gc_heap g) (gc_heap g') ->
  kept (gc_heap g) g a = true -> kept (gc_heap g') g' a = true.
Proof.
  intros Ew Hs. pose proof (Hs a) as Ha. unfold kept. destruct (gc_heap g !! a) as [o|] eqn:E; [|done]. intros Hk.
  destruct (gc_heap g' !! a) as [o'|] eqn:E'; [|by rewrite Ha in Hk]. rewrite (keep_white g g') by done.
  by rewrite (proj1 (shrunk_keep g _ _ a o o' Hs E E')).
Qed.

Lemma progress_start gm : progress gm gm 0.
Proof.
  split; [done|apply shrunk_refl| |by left]. intros j chain a o Hj Hz. unfold znth in Hz. by destruct (Z.ltb_spec j 0); [|lia].
Qed.

(** One chain more. *)
Lemma progress_chain gm g i chain g' : white_ok g -> strings_ok g -> progress gm g i -> znth (gc_strt gm) i = Some chain ->
  znth (gc_strt g) i = Some chain -> chain_swept g i chain g' -> progress gm g' (i + 1).
Proof.
  intros Hw Hst [Pw Ps Pc Pr] Hi Hig Hc. pose proof (shrunk_white _ _ _ _ Pw (chain_shrunk g i chain g' Hst Hig Hc Hw)) as Hs.
  destruct (cs_roots _ _ _ _ Hc) as [R1 R2]. split.
  - rewrite (cs_white _ _ _ _ Hc). done.
  - by eapply shrunk_trans.
  - intros j ch a o Hj Hz Ha Eo. destruct (decide (j = i)) as [->|Hne].
    + rewrite Hi in Hz. injection Hz as <-. pose proof (Ps a) as Psa. destruct (gc_heap g !! a) as [o1|] eqn:E1.
      * eapply (swept_object_now gm g); try done. unfold swept_object. rewrite (cs_heap _ _ _ _ Hc), lookup_sweep_heap, decide_True, E1 by done.
        destruct (keep g (marked o1)) eqn:Hk; [|done]. eexists. split_and!; [done|apply swept_body_refl|by eexists].
      * unfold swept_object. rewrite (Psa o Eo). rewrite (cs_heap _ _ _ _ Hc), lookup_sweep_heap, decide_True, E1 by done. done.
    + eapply swept_object_later; [exact Ps|done..|]. by apply (Pc j ch a o); [lia|..].
  - intros a o Ha Eo. rewrite R2. destruct (Pr a o Ha Eo) as [|Hd]; [by left|right]. by eapply swept_object_later.
Qed.

(** Forty objects more. *)
Lemma progress_list gm g i n g' : sweepable g -> progress gm g i -> swept_list g n g' -> progress gm g' i.
Proof.
  intros Hsw [Pw Ps Pc Pr] [Lw Lk Ls Ld La]. pose proof (shrunk_white _ _ _ _ Pw Ls) as Hs. split.
  - congruence.
  - by eapply shrunk_trans.
  - intros j ch a o Hj Hz Ha Eo. eapply swept_object_later; [exact Ps|done..|]. by apply (Pc j ch a o).
  - intros a o Ha Eo. destruct (Pr a o Ha Eo) as [Hin|Hd]; [|right; by eapply swept_object_later].
    destruct (sw_roots _ Hsw a) as (o1 & E1 & _); [apply elem_of_app; by right|].
    destruct (Ld a o1 Hin E1) as [|Hd]; [by left|right]. by eapply swept_object_now.
Qed.

(** ** What the sweep does not touch *)

Definition still g : Z * list (list Z) * Z * Z := (gc_gcstate g, gc_strt g, gc_sweepstrgc g, gc_buffsize g).
Definition leaves {A} (m : M gstate A) : Prop := forall g, still (snd (m g)) = still g.

Lemma leaves_ret {A} (x : A) : leaves (mret x : M gstate A).
Proof. done. Qed.
Lemma leaves_throw {A} e : leaves (throw e : M gstate A).
Proof. done. Qed.
Lemma leaves_lift {A} (r : result A) : leaves (lift r : M gstate A).
Proof. by destruct r. Qed.
Lemma leaves_get : leaves get.
Proof. done. Qed.
Lemma leaves_gets {A} (f : gstate -> A) : leaves (gets f).
Proof. done. Qed.
Lemma leaves_bind {A B} (m : M gstate A) (k : A -> M gstate B) : leaves m -> (forall x, leaves (k x)) -> leaves (m ≫= k).
Proof.
  intros Hm Hk g. unfold mbind, M_bind. pose proof (Hm g) as E. destruct (m g) as [[a|e] g']; [|exact E]. by rewrite Hk.
Qed.
Lemma leaves_when b (m : M gstate unit) : leaves m -> leaves (when b m).
Proof. intros Hm. by destruct b. Qed.
Lemma leaves_modify (f : gstate -> gstate) : (forall g, still (f g) = still g) -> leaves (modify f).
Proof. intros Hf g. apply Hf. Qed.
Lemma leaves_realloc os ns : leaves (luaM_realloc_ os ns).
Proof. intros g. unfold luaM_realloc_. by destruct (_ && _). Qed.
Lemma leaves_reallocv on n e : leaves (luaM_reallocv on n e).
Proof. unfold luaM_reallocv. destruct (_ <=? _); [apply leaves_realloc|apply leaves_throw]. Qed.
Lemma leaves_deref a : leaves (deref a).
Proof. intros g. unfold deref. by destruct (_ !! _). Qed.
#[local] Hint Resolve @leaves_ret @leaves_throw @leaves_lift leaves_get @leaves_gets leaves_realloc leaves_reallocv leaves_deref : leaves.

Ltac leaves_step :=
  lazymatch goal with
  | |- leaves (mbind _ _) => apply leaves_bind; [|intro]
  | |- leaves (when _ _) => apply leaves_when
  | |- leaves (modify _) => apply leaves_modify; intro; reflexivity
  | |- leaves (upd_obj _ _) => apply leaves_modify; intro; reflexivity
  | |- leaves (upd_marked _ _) => apply leaves_modify; intro; reflexivity
  | |- leaves (free_object _) => apply leaves_modify; intro; reflexivity
  | |- leaves (if ?b then _ else _) => destruct b
  | |- leaves (match ?x with _ => _ end) => destruct x
  | |- leaves _ => solve [auto 1 with leaves nocore]
  end.
Ltac leaves := repeat (cbv zeta; leaves_step).

Lemma leaves_gco2th a : leaves (gco2th a).
Proof. unfold gco2th, bad_cast. leaves. Qed.
Lemma leaves_gco2uv a : leaves (gco2uv a).
Proof. unfold gco2uv, bad_cast. leaves. Qed.
#[local] Hint Resolve leaves_gco2th leaves_gco2uv : leaves.
Lemma leaves_uv_value uv : leaves (uv_value uv).
Proof. unfold uv_value, array_at. leaves. Qed.
#[local] Hint Resolve leaves_uv_value : leaves.
Lemma leaves_reallymark fuel o : leaves (reallymark fuel o).
Proof. revert o. induction fuel as [|fuel IH]; intros o; cbn [reallymark]; unfold mark_object, mark_value, mark_object; leaves; apply IH. Qed.
#[local] Hint Resolve leaves_reallymark : leaves.
Lemma leaves_barrier a v : leaves (luaC_barrier a v).
Proof. unfold luaC_barrier, valiswhite, luaC_barrierf, reallymarkobject. leaves. Qed.
Lemma leaves_push_root a : leaves (modify (push_root a)).
Proof. apply leaves_modify. intros g. unfold push_root. by destruct (gc_root_swept g). Qed.
#[local] Hint Resolve leaves_barrier leaves_push_root : leaves.
Lemma leaves_linkupval a : leaves (luaC_linkupval a).
Proof. unfold luaC_linkupval. apply leaves_bind; [apply leaves_push_root|intro]. leaves. Qed.
Lemma leaves_unlinkupval a : leaves (unlinkupval a).
Proof. unfold unlinkupval. leaves. Qed.
#[local] Hint Resolve leaves_linkupval leaves_unlinkupval : leaves.
Lemma leaves_freeupval a : leaves (luaF_freeupval a).
Proof. unfold luaF_freeupval, luaM_freemem. leaves. Qed.
#[local] Hint Resolve leaves_freeupval : leaves.
Lemma leaves_close fuel l level : leaves (close_loop fuel l level).
Proof. induction fuel as [|fuel IH]; cbn [close_loop]; unfold open_level; leaves; apply IH. Qed.
#[local] Hint Resolve leaves_close : leaves.

Lemma leaves_freeobj a : leaves (freeobj a).
Proof.
  unfold freeobj, luaF_freeproto, luaF_freeclosure, free_table, luaE_freethread, luaF_close, freestack, gco2p, gco2cl, gco2h, bad_cast, luaM_freemem, luaM_freearray.
  leaves.
Qed.
#[local] Hint Resolve leaves_freeobj : leaves.

Lemma leaves_sweepwholelist fuel p : leaves (sweepwholelist fuel p).
Proof.
  revert p. induction fuel as [|fuel IH]; intros p; [apply leaves_throw|]. induction p as [|curr next IHp]; [apply leaves_ret|].
  rewrite sweepwholelist_cons. leaves; apply IH || apply IHp.
Qed.
#[local] Hint Resolve leaves_sweepwholelist : leaves.

Lemma leaves_sweeplist n : leaves (sweeplist n).
Proof. induction n as [|n IH]; cbn [sweeplist]; unfold sweep_step, sweepopen; leaves; apply IH. Qed.

(** A result and what is left as it was, together. *)
Lemma wp_leaves {A} (m : M gstate A) (Q : A -> gstate -> Prop) E g : leaves m -> wp m Q E g -> wp m (fun x g' => Q x g' /\ still g' = still g) E g.
Proof. intros Hs. unfold wp. specialize (Hs g). by destruct (m g) as [[a|e] g']. Qed.

(** ** The table of strings may shrink *)

(** A string as the string table sees it, in the heap. *)
Definition held h (ts : Str.TString) : Prop := h !! Str.ts_addr ts = Some (mkObj (Str.ts_marked ts) (BString (Str.ts_str ts))).

Lemma string_view g p : (forall a, a ∈ p -> exists m s, gc_heap g !! a = Some (mkObj m (BString s))) ->
  exists l, mapM (string_of g) p = Some l /\ map Str.ts_addr l = p /\ Forall (held (gc_heap g)) l.
Proof.
  induction p as [|a p IH]; intros Hp; [by exists []|]. destruct (Hp a ltac:(by left)) as (m & s & E).
  destruct IH as (l & El & Ea & Hl); [intros b Hb; apply Hp; by right|]. cbn [mapM].
  assert (Es : exists ts, string_of g a = Some ts /\ Str.ts_addr ts = a /\ held (gc_heap g) ts) by (unfold string_of; rewrite E; by eexists).
  destruct Es as (ts & Es & Et & Hts). cbn. rewrite Es. cbn. rewrite El. eexists. split_and!; [reflexivity|cbn; by rewrite Et, Ea|by constructor].
Qed.

Lemma table_view g (strt : list (list Z)) : (forall a, a ∈ concat strt -> exists m s, gc_heap g !! a = Some (mkObj m (BString s))) ->
  exists ls, mapM (mapM (string_of g)) strt = Some ls /\ Forall (held (gc_heap g)) (concat ls).
Proof.
  induction strt as [|p strt IH]; intros Hp; [by exists []|]. cbn in Hp.
  destruct (string_view g p) as (l & El & _ & Hl); [intros a Ha; apply Hp, elem_of_app; by left|].
  destruct IH as (ls & Els & Hls); [intros a Ha; apply Hp, elem_of_app; by right|]. cbn. rewrite El. cbn. rewrite Els.
  eexists. split; [reflexivity|]. cbn. by apply Forall_app.
Qed.

(** Strings put back as they were. *)
Lemma store_held h (l : list Str.TString) : Forall (held h) l -> foldr store_string h l = h.
Proof.
  induction 1 as [|ts l Hts _ IH]; [done|]. cbn. rewrite IH. unfold store_string. by apply insert_id.
Qed.

Lemma resize_perm k (v : Str.global_State) : 0 <= k <= 30 ->
  match Str.luaS_resize (2 ^ k) v with
  | (Ok _, v') => concat (Str.st_hash (Str.g_strt v')) ≡ₚ concat (Str.st_hash (Str.g_strt v))
  | (Err e, v') => mem_err e /\ v' = v
  end.
Proof.
  intros Hk. assert (Hpow : 1 <= 2 ^ k <= 2 ^ 30).
  { split; [change 1 with (2 ^ 0); apply Z.pow_le_mono_r; lia|apply Z.pow_le_mono_r; lia]. }
  unfold Str.luaS_resize. m_simpl. destruct (Str.g_gcstate v =? Str.GCSsweepstring); [done|].
  unfold luaM_newvector. rewrite luaM_reallocv_fits by (unfold sizeof_ptr; lia).
  destruct (luaM_realloc_ _ _ v) as [[u|e] v1] eqn:E1.
  - apply luaM_realloc_Ok in E1 as ->. set (n1 := u64 _). destruct (Str.bucket_ok_empty k) as [Hb0 Hc0]; [lia|].
    change (Str.g_strt (set_totalbytes n1 v)) with (Str.g_strt v).
    destruct (Str.rehash_all_spec k (Str.st_hash (Str.g_strt v)) _ ltac:(lia) Hb0) as (nh & Hnh & Hb & Hp). rewrite Hnh. rewrite Hc0, app_nil_r in Hp.
    unfold luaM_freearray. rewrite luaM_reallocv_fits by (unfold sizeof_ptr; lia).
    destruct (luaM_realloc_ _ _ (set_totalbytes n1 v)) as [[u'|e'] v2] eqn:E2; [exact Hp|].
    apply luaM_realloc_Err in E2 as (_ & _ & Habs & _). done.
  - apply luaM_realloc_Err in E1 as (-> & -> & _ & Hrel). done.
Qed.

(** What the end of the sweep leaves as it is. *)
Definition swept_state g : gmap Z GCObject * Z * list Z * list Z := (gc_heap g, gc_currentwhite g, gc_root_swept g, gc_root_rest g).

Lemma checkSizes_spec g : (forall a, a ∈ concat (gc_strt g) -> exists m s, gc_heap g !! a = Some (mkObj m (BString s))) ->
  (exists k, 0 <= k <= 30 /\ zlen (gc_strt g) = 2 ^ k) -> 0 <= gc_buffsize g < 2 ^ 31 ->
  wp checkSizes (fun _ g' => swept_state g' = swept_state g) mem_err g.
Proof.
  intros Hst (k & Hk & Hsz) Hb. unfold checkSizes. apply wp_get.
  eapply (wp_seq _ _ (fun _ g' => swept_state g' = swept_state g /\ gc_buffsize g' = gc_buffsize g)).
  - apply wp_when; intros E; [|done]. apply andb_true_iff in E as [_ E]. rewrite Hsz in *. apply Z.gtb_lt in E. unfold MINSTRTABSIZE in E.
    assert (Hk1 : 1 <= k) by (destruct (decide (k = 0)) as [->|]; [cbn in E; lia|lia]).
    assert (Hq : Z.quot (2 ^ k) 2 = 2 ^ (k - 1)).
    { rewrite Z.quot_div_nonneg by lia. replace (2 ^ k) with (2 ^ (k - 1) * 2) by (rewrite Z.mul_comm, <-Z.pow_succ_r by lia; f_equal; lia). apply Z.div_mul. lia. }
    unfold luaS_resize_at, onStr, wp. destruct (table_view g _ Hst) as (ls & Els & Hls). unfold str_view. rewrite Els, Hq. cbn [mbind option_bind].
    set (v := Str.mkGlobal _ _ _ _ _). pose proof (resize_perm (k - 1) v ltac:(lia)) as Hr.
    destruct (Str.luaS_resize (2 ^ (k - 1)) v) as [[u|e] v']; [|apply Hr]. unfold swept_state, str_put. cbn.
    rewrite store_held; [done|]. rewrite Forall_forall. intros ts Hin. rewrite Hr in Hin. rewrite Forall_forall in Hls. by apply Hls.
  - intros [] g1 [E1 Eb]. apply wp_when; intros E; [|done]. unfold luaZ_resizebuffer. apply wp_assoc.
    eapply wp_seq; [apply (wp_stack_reallocv _ _ _ _ (fun _ g' => swept_state g' = swept_state g))|].
    + split; [apply Z.div_pos; lia|apply Z.div_lt_upper_bound; lia].
    + lia.
    + intros t. exact E1.
    + intros [] g2 E2. apply wp_bind, wp_ret. exact E2.
Qed.

(** ** The steps of the sweep *)

Lemma progress_state gm g g' i : swept_state g' = swept_state g -> progress gm g i -> progress gm g' i.
Proof.
  unfold swept_state. intros E [Pw Ps Pc Pr]. injection E as Eh Ew _ Er.
  split; unfold swept_object in *; rewrite ?Eh, ?Ew, ?Er; done.
Qed.

Lemma sweepable_state g g' : swept_state g' = swept_state g -> sweepable g -> sweepable g'.
Proof.
  unfold swept_state. intros E [S1 S2 S3 S4]. injection E as Eh Ew Es Er. split; unfold white_ok in *; rewrite ?Eh, ?Ew, ?Es, ?Er; done.
Qed.

(** The strings of the table are in the heap, and will not be freed. *)
Definition strings_live g : Prop := forall a, a ∈ concat (gc_strt g) ->
  (exists m s, gc_heap g !! a = Some (mkObj m (BString s))) /\ kept (gc_heap g) g a = true.

Lemma strings_live_shrunk g g' : gc_currentwhite g' = gc_currentwhite g -> shrunk g (gc_heap g) (gc_heap g') -> gc_strt g' = gc_strt g ->
  strings_live g -> strings_live g'.
Proof.
  intros Ew Hs Et Hl a Ha. rewrite Et in Ha. destruct (Hl a Ha) as [(m & s & E) Hk]. split; [|by eapply kept_shrunk].
  pose proof (Hs a) as Hsa. unfold kept in Hk. rewrite E in Hk. destruct (gc_heap g' !! a) as [[m' b']|]; [|by rewrite (Hsa _ E) in Hk].
  destruct Hsa as (o & Eo & Hb & _). rewrite E in Eo. injection Eo as <-. cbn [obj] in Hb. apply swept_body_string in Hb as ->. by eexists _, _.
Qed.

(** The list of all objects is being swept. *)
Record list_phase gm g n : Prop := {
  lp_progress : progress gm g n;
  lp_sweepable : sweepable g;
  lp_strings : strings_live g;
  lp_size : exists k, 0 <= k <= 30 /\ zlen (gc_strt g) = 2 ^ k;
  lp_buff : 0 <= gc_buffsize g < 2 ^ 31;
  lp_state : gc_gcstate g = GCSsweep;
}.

Context (call : TValue -> Z -> M gstate unit) (l : Z).

Lemma run_list fuel gm g n : list_phase gm g n -> (size (pending g) + 2 <= fuel)%nat ->
  wp (run_until call fuel l GCSfinalize) (fun _ g' => progress gm g' n /\ gc_root_rest g' = [] /\ gc_gcstate g' = GCSfinalize) mem_err g.
Proof.
  revert g. induction fuel as [|fuel IH]; intros g [Hp Hsw Hst Hsz Hbf Hgs] Hf; [lia|].
  cbn [run_until]. apply wp_get. rewrite Hgs. change (GCSsweep =? GCSfinalize) with false. cbn iota. unfold singlestep. apply wp_assoc, wp_get. rewrite Hgs.
  change (GCSsweep =? GCSpause) with false. change (GCSsweep =? GCSpropagate) with false. change (GCSsweep =? GCSsweepstring) with false.
  change (GCSsweep =? GCSsweep) with true. cbv zeta iota. apply wp_assoc.
  eapply wp_seq; [apply wp_never, wp_leaves; [apply leaves_sweeplist|by apply sweeplist_spec]|]. intros [] g1 [HL Hstill].
  unfold still in Hstill. injection Hstill as Egs Est _ Ebf. pose proof (progress_list gm g n _ g1 Hsw Hp HL) as Hp1.
  pose proof (strings_live_shrunk g g1 (sl_white _ _ _ HL) (sl_shrunk _ _ _ HL) Est Hst) as Hst1. apply wp_assoc, wp_get.
  destruct (gc_root_rest g1) as [|curr next] eqn:Er.
  - apply wp_assoc, wp_assoc. eapply wp_seq; [apply checkSizes_spec; [intros a Ha; by apply Hst1|by rewrite Est|by rewrite Ebf]|].
    intros [] g2 E2. pose proof (progress_state gm g1 g2 n E2 Hp1) as Hp2. apply wp_modify. unfold reestimate. apply wp_assoc, wp_modify, wp_bind, wp_ret.
    destruct fuel as [|fuel]; [lia|]. apply run_until_reached; [done|]. split_and!; [|cbn|done].
    + apply (progress_state gm g2); [done|exact Hp2].
    + unfold swept_state in E2. injection E2 as _ _ _ E2. by rewrite E2.
  - apply wp_assoc, wp_bind, wp_ret. unfold reestimate. apply wp_assoc, wp_modify, wp_bind, wp_ret. apply IH.
    + split; [apply (progress_state gm g1); [done|exact Hp1]|apply (sweepable_state g1); [done|apply HL]|exact Hst1|cbn; by rewrite Est|cbn; by rewrite Ebf|cbn; congruence].
    + change (pending _) with (pending g1). destruct (sl_left _ _ _ HL) as [E|Hl]; [congruence|]. change (Z.to_nat GCSWEEPMAX) with 40%nat in Hl. lia.
Qed.

(** The strings are being swept: the chain [i] is next. *)
Record string_phase gm g i : Prop := {
  sp_progress : progress gm g i;
  sp_sweepable : sweepable g;
  sp_strings : strings_ok g;
  sp_alive : strings_alive g i;
  sp_len : zlen (gc_strt g) = zlen (gc_strt gm);
  sp_todo j : i <= j -> znth (gc_strt g) j = znth (gc_strt gm) j;
  sp_buff : 0 <= gc_buffsize g < 2 ^ 31;
  sp_state : gc_gcstate g = GCSsweepstring /\ gc_sweepstrgc g = i /\ 0 <= i < zlen (gc_strt gm);
}.

(** After one chain the strings that were swept are alive. *)
Lemma alive_chain g i chain g' : white_ok g -> strings_alive g i -> strings_ok g -> znth (gc_strt g) i = Some chain -> chain_swept g i chain g' ->
  strings_alive g' (i + 1).
Proof.
  intros Hw Ha Hs Hi Hc j ch a Hj Hz Hin. rewrite (cs_strt _ _ _ _ Hc) in Hz. pose proof (znth_Some_lt _ _ _ Hi) as Hlt.
  apply (kept_shrunk g); [apply Hc|by apply (chain_shrunk g i chain g')|]. destruct (decide (j = i)) as [->|Hne].
  - rewrite znth_zupd_eq in Hz by done. injection Hz as <-.
    by apply list_elem_of_In, filter_In in Hin as [_ Hk].
  - rewrite znth_zupd_ne in Hz by done. by apply (Ha j ch a); [lia|..].
Qed.

Lemma shrunk_size g h h' : shrunk g h h' -> (size h' <= size h)%nat.
Proof.
  intros Hs. rewrite <-!size_dom. apply subseteq_size. intros a Ha. apply elem_of_dom in Ha as [o' E]. specialize (Hs a). rewrite E in Hs.
  destruct Hs as (o & Eo & _). by apply elem_of_dom_2 in Eo.
Qed.

(** All chains are swept. *)
Lemma list_phase_start gm g i : progress gm g i -> sweepable g -> strings_ok g -> strings_alive g i -> i >= zlen (gc_strt g) ->
  0 <= gc_buffsize g < 2 ^ 31 -> gc_gcstate g = GCSsweep -> list_phase gm g i.
Proof.
  intros Hp Hsw Hs Ha Hi Hb Hgs. split; try done; [|apply Hs]. intros a Hin. split; [by apply (st_there _ Hs)|].
  apply list_elem_of_In, in_concat in Hin as (ch & Hch & Hin). apply list_elem_of_In in Hch, Hin. apply list_elem_of_lookup in Hch as [j Hj].
  apply (Ha (Z.of_nat j) ch a); [|by rewrite znth_of_nat|done]. apply lookup_lt_Some in Hj. unfold zlen in Hi. lia.
Qed.

Lemma run_strings n : forall fuel gm g i, string_phase gm g i -> Z.to_nat (zlen (gc_strt gm) - i) = n -> (n + size (gc_heap gm) + 2 <= fuel)%nat ->
  wp (run_until call fuel l GCSfinalize)
    (fun _ g' => progress gm g' (zlen (gc_strt gm)) /\ gc_root_rest g' = [] /\ gc_gcstate g' = GCSfinalize) mem_err g.
Proof.
  induction n as [|n IH]; intros fuel gm g i [Hp Hsw Hs Ha Hlen Htodo Hbf (Hgs & Hi & Hir)] Hn Hf; [lia|]. destruct fuel as [|fuel]; [lia|].
  cbn [run_until]. apply wp_get. rewrite Hgs. change (GCSsweepstring =? GCSfinalize) with false. cbn iota. unfold singlestep. apply wp_assoc, wp_get. rewrite Hgs.
  change (GCSsweepstring =? GCSpause) with false. change (GCSsweepstring =? GCSpropagate) with false.
  change (GCSsweepstring =? GCSsweepstring) with true. cbv zeta iota. apply wp_assoc, wp_modify. rewrite Hi. set (g0 := setg_sweepstrgc (i + 1) g).
  destruct (znth_is_Some (gc_strt g) i) as [chain Hch]; [lia|]. pose proof Hch as Hchm. rewrite Htodo in Hchm by lia.
  assert (Hs0 : strings_ok g0) by (by destruct Hs). assert (Hsw0 : sweepable g0) by (by destruct Hsw). assert (Hp0 : progress gm g0 i) by (by destruct Hp).
  apply wp_assoc. eapply wp_seq; [by apply wp_never, (sweep_strings_spec g0 i chain)|]. intros [] g1 Hc.
  destruct (cs_state _ _ _ _ Hc) as [Egs1 Esw1]. pose proof (progress_chain gm g0 i chain g1 (sw_white _ Hsw0) Hs0 Hp0 Hchm Hch Hc) as Hp1.
  pose proof (chain_sweepable g0 i chain g1 Hs0 Hch Hc Hsw0) as Hsw1. pose proof (chain_strings g0 i chain g1 Hs0 Hch Hc) as Hs1.
  pose proof (alive_chain g0 i chain g1 (sw_white _ Hsw0) Ha Hs0 Hch Hc) as Ha1. pose proof (cs_strt _ _ _ _ Hc) as Et1. change (gc_strt g0) with (gc_strt g) in Et1.
  assert (Ebf1 : gc_buffsize g1 = gc_buffsize g) by exact (cs_buff _ _ _ _ Hc).
  apply wp_assoc, wp_get. rewrite Esw1. change (gc_sweepstrgc g0) with (i + 1). assert (El1 : zlen (gc_strt g1) = zlen (gc_strt gm)) by (by rewrite Et1, zlen_zupd).
  destruct (Z.geb_spec (i + 1) (zlen (gc_strt g1))) as [Hge|Hlt]; cbn [when].
  - apply wp_assoc, wp_modify. unfold reestimate. apply wp_assoc, wp_modify, wp_bind, wp_ret. assert (Ei : i + 1 = zlen (gc_strt gm)) by lia. rewrite <-Ei.
    apply run_list.
    + apply list_phase_start; [by destruct Hp1|by destruct Hsw1|by destruct Hs1|exact Ha1|cbn; lia|cbn; by rewrite Ebf1|done].
    + change (pending _) with (pending g1). pose proof (pending_size g1 Hsw1). pose proof (shrunk_size _ _ _ (pr_shrunk _ _ _ Hp1)). lia.
  - apply wp_assoc, wp_bind, wp_ret. unfold reestimate. apply wp_assoc, wp_modify, wp_bind, wp_ret. apply (IH _ gm _ (i + 1)); [|lia|lia].
    split; [by destruct Hp1|by destruct Hsw1|by destruct Hs1|exact Ha1|exact El1| |cbn; by rewrite Ebf1|].
    + intros j Hj. cbn. rewrite Et1, znth_zupd_ne by lia. apply Htodo. lia.
    + cbn. split_and!; [by rewrite Egs1|by rewrite Esw1|lia|lia].
Qed.

Lemma same_links_size h h' : same_links h h' -> size h' = size h.
Proof.
  intros Hs. rewrite <-!size_dom. f_equal. apply leibniz_equiv. intros a. rewrite !elem_of_dom. specialize (Hs a).
  destruct (h !! a), (h' !! a); try done; split; by intros []; eexists.
Qed.

(** The sweep that follows a mark phase. *)
Lemma sweep_phase fuel gm : marked_all l gm -> links_ok gm -> white_ok gm -> 0 <= gc_buffsize gm < 2 ^ 31 ->
  (length (gc_strt gm) + size (gc_heap gm) + 2 <= fuel)%nat ->
  wp (run_until call fuel l GCSfinalize)
    (fun _ g' => progress gm g' (zlen (gc_strt gm)) /\ gc_root_rest g' = [] /\ gc_gcstate g' = GCSfinalize) mem_err gm.
Proof.
  intros Hm Hl Hw Hb Hf. destruct (lk_size _ Hl) as (k & Hk & Hsz). pose proof (Z.pow_pos_nonneg 2 k ltac:(lia) ltac:(lia)).
  destruct (ma_swept _ _ Hm) as [Esw Est]. eapply (run_strings (Z.to_nat (zlen (gc_strt gm) - 0))); [|done|unfold zlen; lia].
  split; try done.
  - apply progress_start.
  - apply links_sweepable; [done|apply Hm|done].
  - by apply links_strings.
  - intros j ch a Hj Hz. unfold znth in Hz. by destruct (Z.ltb_spec j 0); [|lia].
  - split_and!; [apply Hm|done|lia|lia].
Qed.

(** C2: A collection, from the pause to the end of its sweep: when the objects
    are linked as they should be, it ends, and whatever the program could
    reach when the marking ended is still in the heap, with its contents (an
    upvalue that was open on a dead thread has the value of its slot), and
    alive for the next cycle.  Every object and string that was dead then,
    unless it is fixed, has been freed, and the others are white.  The only
    error is a failed reallocation, of a stack, the string table or the
    buffer. *)
Theorem collection_frees_only_garbage f1 f2 g :
  paused l g -> gc_gcstate g = GCSpause -> links_ok g -> cycle_white g -> 0 <= gc_buffsize g < 2 ^ 31 ->
  (size (gc_heap g) + 3 <= f1)%nat -> (length (gc_strt g) + size (gc_heap g) + 2 <= f2)%nat ->
  wp (run_until call f1 l GCSsweepstring;; gm ← get; run_until call f2 l GCSfinalize;; mret gm)
    (fun gm g' =>
      gc_gcstate g' = GCSfinalize /\ gc_root_rest g' = [] /\
      (forall a, reachable l gm a -> exists o o', gc_heap gm !! a = Some o /\ gc_heap g' !! a = Some o' /\
        swept_body gm (gc_heap gm) (obj o) (obj o') /\ isdead g' (marked o') = false) /\
      (forall a o, a ∈ gc_root_rest gm \/ a ∈ concat (gc_strt gm) -> gc_heap gm !! a = Some o ->
        if isdead gm (marked o) && negb (Z.testbit (marked o) FIXEDBIT) then gc_heap g' !! a = None
        else exists o', gc_heap g' !! a = Some o' /\ swept_body gm (gc_heap gm) (obj o) (obj o') /\ iswhite (marked o') = true)) mem_err g.
Proof.
  intros Hp Hs Hl Hc Hb Hf1 Hf2. eapply wp_seq; [by apply mark_phase_spec|]. intros [] gm (Hm & Hk & Ew). apply wp_get.
  assert (Hcm : cycle_white gm) by (unfold cycle_white; rewrite Ew; unfold otherwhite; destruct Hc as [-> | ->]; [by right|by left]).
  pose proof (cycle_white_ok gm Hcm) as Hw.
  eapply wp_seq; [apply sweep_phase; [done|by eapply links_kin|done|by rewrite (kin_buff _ _ Hk)|]|].
  { rewrite (kin_strt _ _ Hk), (same_links_size _ _ (kin_links _ _ Hk)). done. }
  intros [] g' (Hpr & Er & Egs). apply wp_ret. assert (Hdead : forall m, isdead g' m = isdead gm m).
  { intros m. unfold isdead, otherwhite. by rewrite (pr_white _ _ _ Hpr). }
  split_and!; [done|done| |].
  - intros a Ha. destruct (marked_all_alive l gm Hm a Ha) as (o & Eo & Hd). exists o. pose proof (pr_shrunk _ _ _ Hpr a) as Hsh.
    assert (Hkeep : keep gm (marked o) = true) by (rewrite keep_cycle by done; by rewrite Hd).
    destruct (gc_heap g' !! a) as [o'|]; [|by rewrite (Hsh o Eo) in Hkeep]. exists o'. destruct Hsh as (o1 & E1 & Hbody & Hmk & _).
    rewrite Eo in E1. injection E1 as <-. split_and!; [done..|]. rewrite Hdead. destruct Hmk as [->|(_ & _ & Hwh)]; [done|].
    by apply (whitened_white gm).
  - intros a o Ha Eo. assert (Hd : swept_object gm (gc_heap gm) o a g').
    { destruct Ha as [Ha|Ha].
      - destruct (pr_roots _ _ _ Hpr a o Ha Eo) as [Hin|]; [|done]. rewrite Er in Hin. by apply elem_of_nil in Hin.
      - apply list_elem_of_In, in_concat in Ha as (ch & Hch & Hin). apply list_elem_of_In in Hch, Hin. apply list_elem_of_lookup in Hch as [j Hj].
        apply (pr_strings _ _ _ Hpr (Z.of_nat j) ch a o); [apply lookup_lt_Some in Hj; unfold zlen; lia|by rewrite znth_of_nat|done..]. }
    unfold swept_object in Hd. rewrite keep_cycle in Hd by done. destruct (isdead gm (marked o)), (Z.testbit (marked o) FIXEDBIT); cbn in Hd |- *; try done;
      destruct Hd as (o' & E' & Hbody & Hwh); exists o'; destruct (whitened_white gm (marked o') Hw Hwh) as (? & _ & _); done.
Qed.
End cycle.
