(* ===== verification/GcDemo.v ===== *)
(** * GcDemo.v: a small heap

    A main thread with an open upvalue, two tables it reaches, a table it does
    not, a closed upvalue and a userdata: the states on which the theorems on
    the collector are tried. *)

From Stdlib Require Import Sorting.Sorted.
From S2P Require Import Prelude Machine Object Mem Zio Table TableInv TableSet TableRehash TableSpec Gc Func Collect GcInv GcMark GcTraverse GcPropagate GcAtomic GcClear GcSafe GcBarrier FuncSpec GcSweep GcCycle.

#[local] Existing Instances krealloc_always id_hash.

Definition plain_table (arr : list TValue) : Table := mkTable 255 0 None arr [dummynode_] true 0 (zlen arr).

Lemma plain_table_ok arr : zlen arr <= MAXASIZE -> table_ok (plain_table arr).
Proof. intros Hl. eapply (fresh_table_ok _ 0 true arr (zlen arr)); try reflexivity; try done; pose proof (zlen_nonneg arr); lia. Qed.

Definition demo_thread : Thread := mkThread (VTable 2) (VTable 3 :: replicate 9 VNil) 1 [2] 8 [5].

(** The colours are an argument. *)
Definition demo_heap (m : Z -> Z) : gmap Z GCObject :=
  <[1 := mkObj (m 1) (BThread demo_thread)]> (<[2 := mkObj (m 2) (BTable (plain_table [VTable 3]))]>
  (<[3 := mkObj (m 3) (BTable (plain_table []))]> (<[4 := mkObj (m 4) (BTable (plain_table []))]>
  (<[5 := mkObj (m 5) (BUpVal (UOpen 1 0))]> (<[6 := mkObj (m 6) (BUpVal (UClosed VNil))]>
  (<[7 := mkObj (m 7) (BUserdata NULL 2 8)]> ∅)))))).

Definition demo_state (m : Z -> Z) (s : Z) (grayagain : list Z) : gstate :=
  mkG (demo_heap m) 33 s [] grayagain [] 4000 [] [6; 4; 3; 2; 1; 7] 0 [[]; []] 0 [] [5] 100 8000 0 0 200 200 32
    VNil 1 [NULL] [1000; 1001; 1002; 1003].

(** Before a cycle, and in the middle of a mark phase. *)
Definition demo_paused : gstate := demo_state (fun _ => 1) GCSpause [].
Definition demo_marks (a : Z) : Z := if a =? 1 then 0 else if a =? 5 then 0 else if a =? 6 then 4 else 1.
Definition demo_marking : gstate := demo_state demo_marks GCSpropagate [1].

(** The objects one by one. *)
Ltac demo_cases H := repeat (apply lookup_insert_Some in H as [[<- <-]|[_ H]]); [..|by apply lookup_empty_Some in H || done].

Lemma demo_has_type m tt a : (tt, a) ∈ [(LUA_TTHREAD, 1); (LUA_TTABLE, 2); (LUA_TTABLE, 3); (LUA_TTABLE, 4); (LUA_TUPVAL, 5); (LUA_TUPVAL, 6); (LUA_TUSERDATA, 7)] ->
  has_type (demo_heap m) (tt, a).
Proof.
  intros H. repeat (apply elem_of_cons in H as [[= -> ->]|H]; [by eexists|]). by apply elem_of_nil in H.
Qed.

Definition ref_eqb (r s : ref) : bool := (r.1 =? s.1) && (r.2 =? s.2).

Definition demo_refs : list ref :=
  [(LUA_TTHREAD, 1); (LUA_TTABLE, 2); (LUA_TTABLE, 3); (LUA_TTABLE, 4); (LUA_TUPVAL, 5); (LUA_TUPVAL, 6); (LUA_TUSERDATA, 7)].

Lemma demo_typed m l : forallb (fun r => existsb (ref_eqb r) demo_refs) l = true -> forall r, r ∈ l -> has_type (demo_heap m) r.
Proof.
  intros Hl [tt a] Hin. apply list_elem_of_In in Hin. rewrite forallb_forall in Hl. specialize (Hl _ Hin).
  apply existsb_exists in Hl as ([tt' a'] & Hin' & E). unfold ref_eqb in E. cbn in E. b2p. subst. by apply demo_has_type, list_elem_of_In.
Qed.

Lemma demo_heap_ok m : heap_ok (demo_heap m).
Proof.
  intros a o H. assert (Hr : forall r, r ∈ refs (demo_heap m) (obj o) -> has_type (demo_heap m) r).
  { apply demo_typed. unfold demo_heap in H at 1. demo_cases H; vm_compute; reflexivity. }
  split; [|exact Hr]. unfold demo_heap in H at 1. demo_cases H; cbn [obj shape_ok]; try (by apply plain_table_ok); try done.
  exists (m 1), demo_thread. split; [done|]. cbn. lia.
Qed.

Lemma demo_roots_ok m s ga : roots_ok 1 (demo_state m s ga).
Proof.
  split.
  - apply demo_typed. vm_compute. reflexivity.
  - intros uv Hu. apply (demo_typed m [(LUA_TUPVAL, uv)]); [|by left]. by apply list_elem_of_singleton in Hu as ->.
  - exists [6; 4; 3; 2; 1], [7]. split; [reflexivity|]. intros u ->%list_elem_of_singleton. by apply (demo_typed m [(LUA_TUSERDATA, 7)]); [|left].
Qed.

Lemma demo_opens m s ga : opens_listed (demo_state m s ga).
Proof.
  intros a mm th lv H. cbn in H. unfold demo_heap in H. repeat (apply lookup_insert_Some in H as [[<- E]|[_ H]]; [simplify_eq; cbn; set_solver|]).
  by apply lookup_empty_Some in H || done.
Qed.

Lemma demo_is_paused : paused 1 demo_paused.
Proof.
  split; [apply demo_heap_ok|done|done|apply demo_roots_ok|apply demo_opens|].
  intros a o H. cbn in H. unfold demo_heap in H. demo_cases H; reflexivity.
Qed.

Lemma demo_is_marking : mark_inv 1 demo_marking.
Proof.
  split.
  - split; [apply demo_heap_ok| |done|by intros a ?%elem_of_nil|done|].
    + split; [apply NoDup_singleton|]. intros a ->%list_elem_of_singleton. by eexists.
    + intros a o H Hw. cbn in H. unfold demo_heap in H. demo_cases H; try done.
      * right; left. left. by left.
      * right; left. right; right. split; [by left|]. by eexists.
      * right; right. intros o Ho r Hr. vm_compute in Ho. injection Ho as <-. vm_compute in Hr. by apply elem_of_nil in Hr.
  - apply demo_roots_ok.
  - intros r Hr. unfold fixed_roots in Hr. cbn in Hr. by apply list_elem_of_singleton in Hr as ->.
  - intros a o H Hg. cbn in H. unfold demo_heap in H. demo_cases H; try (by destruct Hg); [by left; left|by right].
  - apply demo_opens.
Qed.

(** ** The theorems on them *)

Definition no_finaliser (tm : TValue) (o : Z) : M gstate unit := mret tt.

Lemma mark_phase_keeps_reachable_witness :
  paused 1 demo_paused /\
  wp (run_until no_finaliser 10 1 GCSsweepstring)
    (fun _ g' => heap_ok (gc_heap g') /\ forall a, reachable 1 g' a -> exists o, gc_heap g' !! a = Some o /\ isdead g' (marked o) = false)
    mem_err demo_paused.
Proof.
  split; [exact demo_is_paused|]. apply (mark_phase_keeps_reachable no_finaliser 10 1 demo_paused demo_is_paused); [reflexivity|vm_compute; lia].
Defined.

Lemma atomic_keeps_reachable_witness :
  mark_inv 1 demo_marking /\
  wp (atomic 1) (fun _ g' => heap_ok (gc_heap g') /\ gc_currentwhite g' = u8 (otherwhite demo_marking) /\ gc_gcstate g' = GCSsweepstring /\
    forall a, reachable 1 g' a -> exists o, gc_heap g' !! a = Some o /\ isdead g' (marked o) = false) mem_err demo_marking.
Proof. split; [exact demo_is_marking|]. exact (atomic_keeps_reachable 1 demo_marking demo_is_marking). Defined.

(** The white table 4 is stored in the black upvalue 6. *)
Lemma luaC_barrier_keeps_invariant_witness :
  wp (upd_obj 6 (BUpVal (UClosed (VTable 4)));; luaC_barrier 6 (VTable 4)) (fun _ g' => mark_inv 1 g') never demo_marking.
Proof.
  apply (luaC_barrier_keeps_invariant 1 demo_marking 6 4 (BUpVal (UClosed VNil)) (BUpVal (UClosed (VTable 4))) (VTable 4) demo_is_marking).
  - reflexivity.
  - reflexivity.
  - reflexivity.
  - reflexivity.
  - reflexivity.
  - apply demo_typed. reflexivity.
  - intros r Hr. right. exact Hr.
Defined.

(** Two variables, the second in scope from instruction 4. *)
Definition demo_locals : list LocVar := [mkLocVar (Some [97]) 0 10; mkLocVar (Some [98]) 4 8].
Definition demo_proto : Proto := mkProto None 0 0 0 0 0 2 [] [] [] [] demo_locals [].

Lemma luaF_getlocalname_spec_witness : luaF_getlocalname demo_proto 2 5 = Some (Some [98]).
Proof.
  rewrite luaF_getlocalname_spec; [reflexivity| |lia]. cbn. unfold demo_locals. repeat constructor; cbn; done.
Defined.

Lemma demo_open_list : open_list demo_paused 1 [5] [0].
Proof. split; [constructor; [by eexists|constructor]|repeat constructor]. Qed.

Lemma luaF_findupval_spec_witness :
  wp (luaF_findupval 1 3) (fun uv g' => found 3 1 1 demo_thread [0] demo_paused uv g' /\
    forall b m, b ∈ (match gc_heap g' !! 1 with Some (mkObj _ (BThread th')) => th_openupval th' | _ => [] end) ->
      gc_heap g' !! b = Some (mkObj m (BUpVal (UOpen 1 3))) -> b = uv) mem_err demo_paused.
Proof.
  apply (luaF_findupval_spec 1 3 1 demo_thread [0] demo_paused); [reflexivity|exact demo_open_list|reflexivity|reflexivity].
Defined.

Lemma luaF_close_keeps_values_witness :
  wp (luaF_close 1 0) (fun _ g' => closed_all 1 0 demo_thread [0] demo_paused g') never demo_paused.
Proof.
  apply (luaF_close_keeps_values 1 0 1 demo_thread [0] demo_paused); [reflexivity|exact demo_open_list| |].
  - intros lv ->%list_elem_of_singleton. split; [lia|reflexivity].
  - intros Hs. discriminate Hs.
Defined.

(** ** The sweep *)

(** A second thread, that is dead, with an open upvalue that a closure still
    uses; the table 3 is dead too. *)
Definition dead_thread : Thread := mkThread (VTable 2) (VNumber 0 :: replicate 9 VNil) 1 [2] 8 [9].
Definition sweep_marks (a : Z) : Z := if a =? 3 then 2 else 4.

Definition sweeping_heap : gmap Z GCObject :=
  <[8 := mkObj 2 (BThread dead_thread)]> (<[9 := mkObj 4 (BUpVal (UOpen 8 0))]> (demo_heap sweep_marks)).

Definition demo_sweeping : gstate :=
  mkG sweeping_heap 33 GCSsweep [] [] [] 4000 [] [6; 4; 3; 2; 1; 8; 7] 0 [[]; []] 0 [] [9; 5] 100 8000 0 0 200 200 32
    VNil 1 [NULL] [1000; 1001; 1002; 1003].

Lemma demo_is_sweepable : sweepable demo_sweeping.
Proof.
  split.
  - by split.
  - cbn. repeat (apply NoDup_cons; split; [set_solver|]). apply NoDup_nil_2.
  - cbn. intros a Ha. repeat (apply elem_of_cons in Ha as [->|Ha]; [eexists; split; reflexivity|]). by apply elem_of_nil in Ha.
  - intros a m th Ha. cbn in Ha. unfold sweeping_heap, demo_heap in Ha.
    repeat (apply lookup_insert_Some in Ha as [[<- E]|[_ Ha]]; [try discriminate E|]); try (by apply lookup_empty_Some in Ha || done);
      injection E as <- <-; cbn; (split; [apply NoDup_singleton|]); intros u ->%list_elem_of_singleton; exists 4, 0;
      (split; [reflexivity|vm_compute; by split]).
Qed.

(** The thread and the table are freed, and the upvalue lives on, closed. *)
Example sweep_demo :
  match sweeplist 10 demo_sweeping with
  | (Ok _, g) => (gc_root_swept g, gc_root_rest g, gc_heap g !! 8, gc_heap g !! 3, gc_heap g !! 9)
  | _ => ([], [], None, None, None)
  end = ([9; 6; 4; 2; 1; 7], [], None, None, Some (mkObj 1 (BUpVal (UClosed (VNumber 0))))).
Proof. vm_compute. reflexivity. Qed.

Lemma sweeplist_frees_the_dead_witness :
  sweepable demo_sweeping /\
  wp (sweeplist 40) (fun _ g' =>
    (forall a o, a ∈ gc_root_rest demo_sweeping -> gc_heap demo_sweeping !! a = Some o -> a ∉ gc_root_rest g' ->
      if isdead demo_sweeping (marked o) && negb (Z.testbit (marked o) FIXEDBIT) then gc_heap g' !! a = None
      else exists o', gc_heap g' !! a = Some o' /\ swept_body demo_sweeping (gc_heap demo_sweeping) (obj o) (obj o') /\ iswhite (marked o') = true /\ isdead g' (marked o') = false) /\
    (forall a o, gc_heap demo_sweeping !! a = Some o -> isdead demo_sweeping (marked o) = false ->
      exists o', gc_heap g' !! a = Some o' /\ swept_body demo_sweeping (gc_heap demo_sweeping) (obj o) (obj o') /\ isdead g' (marked o') = false) /\
    (forall u m l lv, gc_heap g' !! u = Some (mkObj m (BUpVal (UOpen l lv))) -> listed (gc_heap demo_sweeping) u l -> listed (gc_heap g') u l) /\
    ((size (gc_heap demo_sweeping) <= 40)%nat -> gc_root_rest g' = []) /\ sweepable g') never demo_sweeping.
Proof.
  split; [exact demo_is_sweepable|]. apply (sweeplist_frees_the_dead 40 demo_sweeping demo_is_sweepable). by left.
Defined.

(** ** A collection *)

Lemma demo_links : links_ok demo_paused.
Proof.
  split.
  - cbn. repeat (apply NoDup_cons; split; [set_solver|]). apply NoDup_nil_2.
  - cbn. intros a Ha. repeat (apply elem_of_cons in Ha as [->|Ha]; [eexists; split; [reflexivity|by split]|]). by apply elem_of_nil in Ha.
  - intros a m th Ha. cbn in Ha. unfold demo_heap in Ha.
    repeat (apply lookup_insert_Some in Ha as [[<- E]|[_ Ha]]; [try discriminate E|]); try (by apply lookup_empty_Some in Ha || done).
    injection E as <- <-. cbn. split; [apply NoDup_singleton|]. intros u ->%list_elem_of_singleton. by exists 1, 0.
  - apply NoDup_nil_2.
  - intros a Ha. by apply elem_of_nil in Ha.
  - by exists 1.
Qed.

(** The main thread and the tables that it reaches stay; the other table, the
    upvalues, which no closure has, and the userdata go. *)
Example collection_demo :
  match (run_until no_finaliser 10 1 GCSsweepstring;; run_until no_finaliser 11 1 GCSfinalize) demo_paused with
  | (Ok _, g) => (gc_root_swept g, map fst (map_to_list (marked <$> gc_heap g)), gc_gcstate g)
  | _ => ([], [], 0)
  end = ([3; 2; 1], [3; 2; 1], GCSfinalize).
Proof. vm_compute. reflexivity. Qed.

Lemma collection_frees_only_garbage_witness :
  paused 1 demo_paused /\ links_ok demo_paused /\
  wp (run_until no_finaliser 10 1 GCSsweepstring;; gm ← get; run_until no_finaliser 11 1 GCSfinalize;; mret gm)
    (fun gm g' =>
      gc_gcstate g' = GCSfinalize /\ gc_root_rest g' = [] /\
      (forall a, reachable 1 gm a -> exists o o', gc_heap gm !! a = Some o /\ gc_heap g' !! a = Some o' /\
        swept_body gm (gc_heap gm) (obj o) (obj o') /\ isdead g' (marked o') = false) /\
      (forall a o, a ∈ gc_root_rest gm \/ a ∈ concat (gc_strt gm) -> gc_heap gm !! a = Some o ->
        if isdead gm (marked o) && negb (Z.testbit (marked o) FIXEDBIT) then gc_heap g' !! a = None
        else exists o', gc_heap g' !! a = Some o' /\ swept_body gm (gc_heap gm) (obj o) (obj o') /\ iswhite (marked o') = true)) mem_err demo_paused.
Proof.
  split; [exact demo_is_paused|]. split; [exact demo_links|].
  apply (collection_frees_only_garbage no_finaliser 1 10 11 demo_paused demo_is_paused); [reflexivity|exact demo_links|by left|vm_compute; split; congruence|vm_compute; lia|vm_compute; lia].
Defined.
