(* ===== verification/Code.v ===== *)
(** * Code.v: the code generator (lcode.h, lcode.c) and its data (lparser.h)

    The parser drives the code generator: both work on the state of the lexer,
    that of the function being compiled and those of the functions around it.
    Arrays that are being built have the elements in use; the allocated size is
    beside them, so [pc], [nk], [np] and [nlocvars] are lengths.  A function
    that changes an expression descriptor returns the new one.  The objects
    are not collected meanwhile: the barriers and the anchors on the Lua stack
    are left out. *)

From S2P Require Import Prelude Machine Opcodes Object Mem Zio Str Table Lex.

(** ** Data (lparser.h, lparser.c) *)

Definition NO_JUMP : Z := -1.

Inductive BinOpr :=
  | OPR_ADD | OPR_SUB | OPR_MUL | OPR_DIV | OPR_MOD | OPR_POW
  | OPR_CONCAT
  | OPR_NE | OPR_EQ
  | OPR_LT | OPR_LE | OPR_GT | OPR_GE
  | OPR_AND | OPR_OR
  | OPR_NOBINOPR.
Inductive UnOpr := OPR_MINUS | OPR_NOT | OPR_LEN | OPR_NOUNOPR.

Inductive expkind :=
  | VVOID  (* no value *)
  | VNIL
  | VTRUE
  | VFALSE
  | VK  (* info = index of constant in `k' *)
  | VKNUM  (* nval = numerical value *)
  | VLOCAL  (* info = local register *)
  | VUPVAL  (* info = index of upvalue in `upvalues' *)
  | VGLOBAL  (* info = index of global name in `k' *)
  | VINDEXED  (* info = table register; aux = index register (or `k') *)
  | VJMP  (* info = instruction pc *)
  | VRELOCABLE  (* info = instruction pc *)
  | VNONRELOC  (* info = result register *)
  | VCALL  (* info = instruction pc *)
  | VVARARG.  (* info = instruction pc *)

#[global] Instance expkind_eq_dec : EqDecision expkind.
Proof. solve_decision. Defined.
#[global] Instance BinOpr_eq_dec : EqDecision BinOpr.
Proof. solve_decision. Defined.
#[global] Instance UnOpr_eq_dec : EqDecision UnOpr.
Proof. solve_decision. Defined.

(** The members of the union are fields of their own: [nval] is read for
    [VKNUM] only, which does not read the others. *)
Record expdesc := mkExp { e_k : expkind; e_info : Z; e_aux : Z; e_nval : Z; e_t : Z; e_f : Z }.

Definition set_k (k : expkind) (e : expdesc) : expdesc := mkExp k (e_info e) (e_aux e) (e_nval e) (e_t e) (e_f e).
Definition set_info (i : Z) (e : expdesc) : expdesc := mkExp (e_k e) i (e_aux e) (e_nval e) (e_t e) (e_f e).
Definition set_aux (i : Z) (e : expdesc) : expdesc := mkExp (e_k e) (e_info e) i (e_nval e) (e_t e) (e_f e).
Definition set_nval (n : Z) (e : expdesc) : expdesc := mkExp (e_k e) (e_info e) (e_aux e) n (e_t e) (e_f e).
Definition set_t (l : Z) (e : expdesc) : expdesc := mkExp (e_k e) (e_info e) (e_aux e) (e_nval e) l (e_f e).
Definition set_f (l : Z) (e : expdesc) : expdesc := mkExp (e_k e) (e_info e) (e_aux e) (e_nval e) (e_t e) l.

Record upvaldesc := mkUpvaldesc { up_k : expkind; up_info : Z }.

Record BlockCnt := mkBlock {
  bl_breaklist : Z;  (* list of jumps out of this loop *)
  bl_nactvar : Z;  (* # active locals outside the breakable structure *)
  bl_upval : bool;  (* true if some variable in the block is an upvalue *)
  bl_isbreakable : bool;  (* true if `block' is a loop *)
}.

(** A local variable, with its name as a string object. *)
Record LocVarT := mkLocVarT { lv_varname : TString; lv_startpc : Z; lv_endpc : Z }.

(** The fields of the prototype [f] that is being built, then those of the
    state. *)
Record FuncState := mkFS {
  f_code : list Z;  (* the code, of which the first [pc] instructions *)
  f_sizecode : Z;
  f_lineinfo : list Z;  (* a line for each instruction *)
  f_sizelineinfo : Z;
  f_k : list Const;  (* the constants, [nk] of them *)
  f_sizek : Z;
  f_p : list Proto;  (* [np] functions defined inside *)
  f_sizep : Z;
  f_locvars : list LocVarT;  (* [nlocvars] local variables *)
  f_sizelocvars : Z;
  f_upvalues : list TString;  (* names of the [nups] upvalues *)
  f_sizeupvalues : Z;
  f_source : bytes;
  f_linedefined : Z;
  f_lastlinedefined : Z;
  f_numparams : Z;
  f_is_vararg : Z;
  f_maxstacksize : Z;
  fs_h : Z;  (* the address of fs->h *)
  fs_bl : list BlockCnt;  (* the chain of blocks, the innermost first *)
  fs_lasttarget : Z;
  fs_jpc : Z;  (* list of pending jumps to [pc] *)
  fs_freereg : Z;
  fs_nactvar : Z;
  fs_upvalues : list upvaldesc;
  fs_actvar : list Z;  (* the array, LUAI_MAXVARS elements *)
}.

Definition set_f_code (x : list Z) (fs : FuncState) : FuncState :=
  mkFS x (f_sizecode fs) (f_lineinfo fs) (f_sizelineinfo fs) (f_k fs) (f_sizek fs) (f_p fs) (f_sizep fs)
    (f_locvars fs) (f_sizelocvars fs) (f_upvalues fs) (f_sizeupvalues fs) (f_source fs) (f_linedefined fs)
    (f_lastlinedefined fs) (f_numparams fs) (f_is_vararg fs) (f_maxstacksize fs) (fs_h fs) (fs_bl fs)
    (fs_lasttarget fs) (fs_jpc fs) (fs_freereg fs) (fs_nactvar fs) (fs_upvalues fs) (fs_actvar fs).
Definition set_f_sizecode (x : Z) (fs : FuncState) : FuncState :=
  mkFS (f_code fs) x (f_lineinfo fs) (f_sizelineinfo fs) (f_k fs) (f_sizek fs) (f_p fs) (f_sizep fs)
    (f_locvars fs) (f_sizelocvars fs) (f_upvalues fs) (f_sizeupvalues fs) (f_source fs) (f_linedefined fs)
    (f_lastlinedefined fs) (f_numparams fs) (f_is_vararg fs) (f_maxstacksize fs) (fs_h fs) (fs_bl fs)
    (fs_lasttarget fs) (fs_jpc fs) (fs_freereg fs) (fs_nactvar fs) (fs_upvalues fs) (fs_actvar fs).
Definition set_f_lineinfo (x : list Z) (fs : FuncState) : FuncState :=
  mkFS (f_code fs) (f_sizecode fs) x (f_sizelineinfo fs) (f_k fs) (f_sizek fs) (f_p fs) (f_sizep fs)
    (f_locvars fs) (f_sizelocvars fs) (f_upvalues fs) (f_sizeupvalues fs) (f_source fs) (f_linedefined fs)
    (f_lastlinedefined fs) (f_numparams fs) (f_is_vararg fs) (f_maxstacksize fs) (fs_h fs) (fs_bl fs)
    (fs_lasttarget fs) (fs_jpc fs) (fs_freereg fs) (fs_nactvar fs) (fs_upvalues fs) (fs_actvar fs).
Definition set_f_sizelineinfo (x : Z) (fs : FuncState) : FuncState :=
  mkFS (f_code fs) (f_sizecode fs) (f_lineinfo fs) x (f_k fs) (f_sizek fs) (f_p fs) (f_sizep fs) (f_locvars fs)
    (f_sizelocvars fs) (f_upvalues fs) (f_sizeupvalues fs) (f_source fs) (f_linedefined fs)
    (f_lastlinedefined fs) (f_numparams fs) (f_is_vararg fs) (f_maxstacksize fs) (fs_h fs) (fs_bl fs)
    (fs_lasttarget fs) (fs_jpc fs) (fs_freereg fs) (fs_nactvar fs) (fs_upvalues fs) (fs_actvar fs).
Definition set_f_k (x : list Const) (fs : FuncState) : FuncState :=
  mkFS (f_code fs) (f_sizecode fs) (f_lineinfo fs) (f_sizelineinfo fs) x (f_sizek fs) (f_p fs) (f_sizep fs)
    (f_locvars fs) (f_sizelocvars fs) (f_upvalues fs) (f_sizeupvalues fs) (f_source fs) (f_linedefined fs)
    (f_lastlinedefined fs) (f_numparams fs) (f_is_vararg fs) (f_maxstacksize fs) (fs_h fs) (fs_bl fs)
    (fs_lasttarget fs) (fs_jpc fs) (fs_freereg fs) (fs_nactvar fs) (fs_upvalues fs) (fs_actvar fs).
Definition set_f_sizek (x : Z) (fs : FuncState) : FuncState :=
  mkFS (f_code fs) (f_sizecode fs) (f_lineinfo fs) (f_sizelineinfo fs) (f_k fs) x (f_p fs) (f_sizep fs)
    (f_locvars fs) (f_sizelocvars fs) (f_upvalues fs) (f_sizeupvalues fs) (f_source fs) (f_linedefined fs)
    (f_lastlinedefined fs) (f_numparams fs) (f_is_vararg fs) (f_maxstacksize fs) (fs_h fs) (fs_bl fs)
    (fs_lasttarget fs) (fs_jpc fs) (fs_freereg fs) (fs_nactvar fs) (fs_upvalues fs) (fs_actvar fs).
Definition set_f_p (x : list Proto) (fs : FuncState) : FuncState :=
  mkFS (f_code fs) (f_sizecode fs) (f_lineinfo fs) (f_sizelineinfo fs) (f_k fs) (f_sizek fs) x (f_sizep fs)
    (f_locvars fs) (f_sizelocvars fs) (f_upvalues fs) (f_sizeupvalues fs) (f_source fs) (f_linedefined fs)
    (f_lastlinedefined fs) (f_numparams fs) (f_is_vararg fs) (f_maxstacksize fs) (fs_h fs) (fs_bl fs)
    (fs_lasttarget fs) (fs_jpc fs) (fs_freereg fs) (fs_nactvar fs) (fs_upvalues fs) (fs_actvar fs).
Definition set_f_sizep (x : Z) (fs : FuncState) : FuncState :=
  mkFS (f_code fs) (f_sizecode fs) (f_lineinfo fs) (f_sizelineinfo fs) (f_k fs) (f_sizek fs) (f_p fs) x
    (f_locvars fs) (f_sizelocvars fs) (f_upvalues fs) (f_sizeupvalues fs) (f_source fs) (f_linedefined fs)
    (f_lastlinedefined fs) (f_numparams fs) (f_is_vararg fs) (f_maxstacksize fs) (fs_h fs) (fs_bl fs)
    (fs_lasttarget fs) (fs_jpc fs) (fs_freereg fs) (fs_nactvar fs) (fs_upvalues fs) (fs_actvar fs).
Definition set_f_locvars (x : list LocVarT) (fs : FuncState) : FuncState :=
  mkFS (f_code fs) (f_sizecode fs) (f_lineinfo fs) (f_sizelineinfo fs) (f_k fs) (f_sizek fs) (f_p fs)
    (f_sizep fs) x (f_sizelocvars fs) (f_upvalues fs) (f_sizeupvalues fs) (f_source fs) (f_linedefined fs)
    (f_lastlinedefined fs) (f_numparams fs) (f_is_vararg fs) (f_maxstacksize fs) (fs_h fs) (fs_bl fs)
    (fs_lasttarget fs) (fs_jpc fs) (fs_freereg fs) (fs_nactvar fs) (fs_upvalues fs) (fs_actvar fs).
Definition set_f_sizelocvars (x : Z) (fs : FuncState) : FuncState :=
  mkFS (f_code fs) (f_sizecode fs) (f_lineinfo fs) (f_sizelineinfo fs) (f_k fs) (f_sizek fs) (f_p fs)
    (f_sizep fs) (f_locvars fs) x (f_upvalues fs) (f_sizeupvalues fs) (f_source fs) (f_linedefined fs)
    (f_lastlinedefined fs) (f_numparams fs) (f_is_vararg fs) (f_maxstacksize fs) (fs_h fs) (fs_bl fs)
    (fs_lasttarget fs) (fs_jpc fs) (fs_freereg fs) (fs_nactvar fs) (fs_upvalues fs) (fs_actvar fs).
Definition set_f_upvalues (x : list TString) (fs : FuncState) : FuncState :=
  mkFS (f_code fs) (f_sizecode fs) (f_lineinfo fs) (f_sizelineinfo fs) (f_k fs) (f_sizek fs) (f_p fs)
    (f_sizep fs) (f_locvars fs) (f_sizelocvars fs) x (f_sizeupvalues fs) (f_source fs) (f_linedefined fs)
    (f_lastlinedefined fs) (f_numparams fs) (f_is_vararg fs) (f_maxstacksize fs) (fs_h fs) (fs_bl fs)
    (fs_lasttarget fs) (fs_jpc fs) (fs_freereg fs) (fs_nactvar fs) (fs_upvalues fs) (fs_actvar fs).
Definition set_f_sizeupvalues (x : Z) (fs : FuncState) : FuncState :=
  mkFS (f_code fs) (f_sizecode fs) (f_lineinfo fs) (f_sizelineinfo fs) (f_k fs) (f_sizek fs) (f_p fs)
    (f_sizep fs) (f_locvars fs) (f_sizelocvars fs) (f_upvalues fs) x (f_source fs) (f_linedefined fs)
    (f_lastlinedefined fs) (f_numparams fs) (f_is_vararg fs) (f_maxstacksize fs) (fs_h fs) (fs_bl fs)
    (fs_lasttarget fs) (fs_jpc fs) (fs_freereg fs) (fs_nactvar fs) (fs_upvalues fs) (fs_actvar fs).
Definition set_f_linedefined (x : Z) (fs : FuncState) : FuncState :=
  mkFS (f_code fs) (f_sizecode fs) (f_lineinfo fs) (f_sizelineinfo fs) (f_k fs) (f_sizek fs) (f_p fs)
    (f_sizep fs) (f_locvars fs) (f_sizelocvars fs) (f_upvalues fs) (f_sizeupvalues fs) (f_source fs) x
    (f_lastlinedefined fs) (f_numparams fs) (f_is_vararg fs) (f_maxstacksize fs) (fs_h fs) (fs_bl fs)
    (fs_lasttarget fs) (fs_jpc fs) (fs_freereg fs) (fs_nactvar fs) (fs_upvalues fs) (fs_actvar fs).
Definition set_f_lastlinedefined (x : Z) (fs : FuncState) : FuncState :=
  mkFS (f_code fs) (f_sizecode fs) (f_lineinfo fs) (f_sizelineinfo fs) (f_k fs) (f_sizek fs) (f_p fs)
    (f_sizep fs) (f_locvars fs) (f_sizelocvars fs) (f_upvalues fs) (f_sizeupvalues fs) (f_source fs)
    (f_linedefined fs) x (f_numparams fs) (f_is_vararg fs) (f_maxstacksize fs) (fs_h fs) (fs_bl fs)
    (fs_lasttarget fs) (fs_jpc fs) (fs_freereg fs) (fs_nactvar fs) (fs_upvalues fs) (fs_actvar fs).
Definition set_f_numparams (x : Z) (fs : FuncState) : FuncState :=
  mkFS (f_code fs) (f_sizecode fs) (f_lineinfo fs) (f_sizelineinfo fs) (f_k fs) (f_sizek fs) (f_p fs)
    (f_sizep fs) (f_locvars fs) (f_sizelocvars fs) (f_upvalues fs) (f_sizeupvalues fs) (f_source fs)
    (f_linedefined fs) (f_lastlinedefined fs) x (f_is_vararg fs) (f_maxstacksize fs) (fs_h fs) (fs_bl fs)
    (fs_lasttarget fs) (fs_jpc fs) (fs_freereg fs) (fs_nactvar fs) (fs_upvalues fs) (fs_actvar fs).
Definition set_f_is_vararg (x : Z) (fs : FuncState) : FuncState :=
  mkFS (f_code fs) (f_sizecode fs) (f_lineinfo fs) (f_sizelineinfo fs) (f_k fs) (f_sizek fs) (f_p fs)
    (f_sizep fs) (f_locvars fs) (f_sizelocvars fs) (f_upvalues fs) (f_sizeupvalues fs) (f_source fs)
    (f_linedefined fs) (f_lastlinedefined fs) (f_numparams fs) x (f_maxstacksize fs) (fs_h fs) (fs_bl fs)
    (fs_lasttarget fs) (fs_jpc fs) (fs_freereg fs) (fs_nactvar fs) (fs_upvalues fs) (fs_actvar fs).
Definition set_f_maxstacksize (x : Z) (fs : FuncState) : FuncState :=
  mkFS (f_code fs) (f_sizecode fs) (f_lineinfo fs) (f_sizelineinfo fs) (f_k fs) (f_sizek fs) (f_p fs)
    (f_sizep fs) (f_locvars fs) (f_sizelocvars fs) (f_upvalues fs) (f_sizeupvalues fs) (f_source fs)
    (f_linedefined fs) (f_lastlinedefined fs) (f_numparams fs) (f_is_vararg fs) x (fs_h fs) (fs_bl fs)
    (fs_lasttarget fs) (fs_jpc fs) (fs_freereg fs) (fs_nactvar fs) (fs_upvalues fs) (fs_actvar fs).
Definition set_fs_h (x : Z) (fs : FuncState) : FuncState :=
  mkFS (f_code fs) (f_sizecode fs) (f_lineinfo fs) (f_sizelineinfo fs) (f_k fs) (f_sizek fs) (f_p fs)
    (f_sizep fs) (f_locvars fs) (f_sizelocvars fs) (f_upvalues fs) (f_sizeupvalues fs) (f_source fs)
    (f_linedefined fs) (f_lastlinedefined fs) (f_numparams fs) (f_is_vararg fs) (f_maxstacksize fs) x (fs_bl fs)
    (fs_lasttarget fs) (fs_jpc fs) (fs_freereg fs) (fs_nactvar fs) (fs_upvalues fs) (fs_actvar fs).
Definition set_fs_bl (x : list BlockCnt) (fs : FuncState) : FuncState :=
  mkFS (f_code fs) (f_sizecode fs) (f_lineinfo fs) (f_sizelineinfo fs) (f_k fs) (f_sizek fs) (f_p fs)
    (f_sizep fs) (f_locvars fs) (f_sizelocvars fs) (f_upvalues fs) (f_sizeupvalues fs) (f_source fs)
    (f_linedefined fs) (f_lastlinedefined fs) (f_numparams fs) (f_is_vararg fs) (f_maxstacksize fs) (fs_h fs) x
    (fs_lasttarget fs) (fs_jpc fs) (fs_freereg fs) (fs_nactvar fs) (fs_upvalues fs) (fs_actvar fs).
Definition set_fs_lasttarget (x : Z) (fs : FuncState) : FuncState :=
  mkFS (f_code fs) (f_sizecode fs) (f_lineinfo fs) (f_sizelineinfo fs) (f_k fs) (f_sizek fs) (f_p fs)
    (f_sizep fs) (f_locvars fs) (f_sizelocvars fs) (f_upvalues fs) (f_sizeupvalues fs) (f_source fs)
    (f_linedefined fs) (f_lastlinedefined fs) (f_numparams fs) (f_is_vararg fs) (f_maxstacksize fs) (fs_h fs)
    (fs_bl fs) x (fs_jpc fs) (fs_freereg fs) (fs_nactvar fs) (fs_upvalues fs) (fs_actvar fs).
Definition set_fs_jpc (x : Z) (fs : FuncState) : FuncState :=
  mkFS (f_code fs) (f_sizecode fs) (f_lineinfo fs) (f_sizelineinfo fs) (f_k fs) (f_sizek fs) (f_p fs)
    (f_sizep fs) (f_locvars fs) (f_sizelocvars fs) (f_upvalues fs) (f_sizeupvalues fs) (f_source fs)
    (f_linedefined fs) (f_lastlinedefined fs) (f_numparams fs) (f_is_vararg fs) (f_maxstacksize fs) (fs_h fs)
    (fs_bl fs) (fs_lasttarget fs) x (fs_freereg fs) (fs_nactvar fs) (fs_upvalues fs) (fs_actvar fs).
Definition set_fs_freereg (x : Z) (fs : FuncState) : FuncState :=
  mkFS (f_code fs) (f_sizecode fs) (f_lineinfo fs) (f_sizelineinfo fs) (f_k fs) (f_sizek fs) (f_p fs)
    (f_sizep fs) (f_locvars fs) (f_sizelocvars fs) (f_upvalues fs) (f_sizeupvalues fs) (f_source fs)
    (f_linedefined fs) (f_lastlinedefined fs) (f_numparams fs) (f_is_vararg fs) (f_maxstacksize fs) (fs_h fs)
    (fs_bl fs) (fs_lasttarget fs) (fs_jpc fs) x (fs_nactvar fs) (fs_upvalues fs) (fs_actvar fs).
Definition set_fs_nactvar (x : Z) (fs : FuncState) : FuncState :=
  mkFS (f_code fs) (f_sizecode fs) (f_lineinfo fs) (f_sizelineinfo fs) (f_k fs) (f_sizek fs) (f_p fs)
    (f_sizep fs) (f_locvars fs) (f_sizelocvars fs) (f_upvalues fs) (f_sizeupvalues fs) (f_source fs)
    (f_linedefined fs) (f_lastlinedefined fs) (f_numparams fs) (f_is_vararg fs) (f_maxstacksize fs) (fs_h fs)
    (fs_bl fs) (fs_lasttarget fs) (fs_jpc fs) (fs_freereg fs) x (fs_upvalues fs) (fs_actvar fs).
Definition set_fs_upvalues (x : list upvaldesc) (fs : FuncState) : FuncState :=
  mkFS (f_code fs) (f_sizecode fs) (f_lineinfo fs) (f_sizelineinfo fs) (f_k fs) (f_sizek fs) (f_p fs)
    (f_sizep fs) (f_locvars fs) (f_sizelocvars fs) (f_upvalues fs) (f_sizeupvalues fs) (f_source fs)
    (f_linedefined fs) (f_lastlinedefined fs) (f_numparams fs) (f_is_vararg fs) (f_maxstacksize fs) (fs_h fs)
    (fs_bl fs) (fs_lasttarget fs) (fs_jpc fs) (fs_freereg fs) (fs_nactvar fs) x (fs_actvar fs).
Definition set_fs_actvar (x : list Z) (fs : FuncState) : FuncState :=
  mkFS (f_code fs) (f_sizecode fs) (f_lineinfo fs) (f_sizelineinfo fs) (f_k fs) (f_sizek fs) (f_p fs)
    (f_sizep fs) (f_locvars fs) (f_sizelocvars fs) (f_upvalues fs) (f_sizeupvalues fs) (f_source fs)
    (f_linedefined fs) (f_lastlinedefined fs) (f_numparams fs) (f_is_vararg fs) (f_maxstacksize fs) (fs_h fs)
    (fs_bl fs) (fs_lasttarget fs) (fs_jpc fs) (fs_freereg fs) (fs_nactvar fs) (fs_upvalues fs) x.

Definition fs_pc (fs : FuncState) : Z := zlen (f_code fs).
Definition fs_nk (fs : FuncState) : Z := zlen (f_k fs).
Definition fs_np (fs : FuncState) : Z := zlen (f_p fs).
Definition fs_nlocvars (fs : FuncState) : Z := zlen (f_locvars fs).
Definition f_nups (fs : FuncState) : Z := zlen (f_upvalues fs).

(** The state of a compilation: [ls], ls->fs, the functions around it with
    their tables of constants, and L->nCcalls. *)
Record KS := mkKS {
  ks_ls : LexState;
  ks_fs : FuncState;
  ks_prev : list (FuncState * option Table);
  ks_nCcalls : Z;
}.

Definition set_ls (x : LexState) (s : KS) : KS := mkKS x (ks_fs s) (ks_prev s) (ks_nCcalls s).
Definition set_fs (x : FuncState) (s : KS) : KS := mkKS (ks_ls s) x (ks_prev s) (ks_nCcalls s).
Definition set_prev (x : list (FuncState * option Table)) (s : KS) : KS := mkKS (ks_ls s) (ks_fs s) x (ks_nCcalls s).
Definition set_nCcalls (x : Z) (s : KS) : KS := mkKS (ks_ls s) (ks_fs s) (ks_prev s) x.

#[export] Instance KS_HasMem : HasMem KS := {|
  totalbytes s := totalbytes (ks_ls s);
  set_totalbytes n s := set_ls (set_totalbytes n (ks_ls s)) s;
|}.
#[export] Instance KS_HasMemLaws : HasMemLaws KS.
Proof. split; [done..|]. by intros [[? ? ? ? ? ? [] ? ? ? ? ? ?] ? ? ?]. Qed.

Definition onLex {A} (m : M LexState A) : M KS A := fun s =>
  let '(r, ls) := m (ks_ls s) in (r, set_ls ls s).
Definition get_fs : M KS FuncState := gets ks_fs.
Definition upd_fs (f : FuncState -> FuncState) : M KS unit := modify (fun s => set_fs (f (ks_fs s)) s).

(** [fs->f->code[pc]] *)
Definition code_at (pc : Z) : M KS Z := fs ← get_fs; lift (of_option "code index" (znth (f_code fs) pc)).
Definition set_code_at (pc : Z) (f : Z -> Z) : M KS unit :=
  i ← code_at pc; upd_fs (fun fs => set_f_code (zupd pc (f i) (f_code fs)) fs).
Definition getcode (e : expdesc) : M KS Z := code_at (e_info e).

Definition opcode_is (i : Z) (o : OpCode) : bool := GET_OPCODE i =? op2z o.
(** [testTMode(GET_OPCODE(i))]: luaP_opmodes has an entry for each opcode. *)
Definition test_mode (i : Z) : M KS bool := o ← lift (of_option "luaP_opmodes" (z2op (GET_OPCODE i))); mret (testTMode o).

Definition hasjumps (e : expdesc) : bool := negb (e_t e =? e_f e).
Definition isnumeral (e : expdesc) : bool :=
  bool_decide (e_k e = VKNUM) && (e_t e =? NO_JUMP) && (e_f e =? NO_JUMP).

Section code.
Context `{Krealloc} `{StringHash} `{KernelStrto}.

Definition syntaxerror {A} (msg : string) : M KS A := onLex (luaX_syntaxerror msg).

(** ** Jumps *)

Definition fixjump (pc dest : Z) : M KS unit :=
  code_at pc;;
  let offset := dest - (pc + 1) in
  when (Z.abs offset >? MAXARG_sBx) (syntaxerror "control structure too long");;
  set_code_at pc (fun jmp => SETARG_sBx jmp offset).

(** Returns the current `pc' and marks it as a jump target. *)
Definition luaK_getlabel : M KS Z :=
  fs ← get_fs;
  upd_fs (set_fs_lasttarget (fs_pc fs));;
  mret (fs_pc fs).

Definition getjump (pc : Z) : M KS Z :=
  i ← code_at pc;
  let offset := GETARG_sBx i in
  if offset =? NO_JUMP then mret NO_JUMP  (* end of list *)
  else mret (pc + 1 + offset).  (* turn offset into absolute position *)

(** The position of the instruction that controls a jump. *)
Definition getjumpcontrol (pc : Z) : M KS Z :=
  code_at pc;;
  if pc >=? 1 then
    i ← code_at (pc - 1);
    t ← test_mode i;
    mret (if (t : bool) then pc - 1 else pc)
  else mret pc.

(** A list of jumps visits an instruction once: the code is fuel enough. *)
Fixpoint need_value_loop (fuel : nat) (list : Z) : M KS bool :=
  match fuel with
  | O => throw OutOfFuel
  | S fuel =>
      if list =? NO_JUMP then mret false  (* not found *)
      else
        c ← getjumpcontrol list;
        i ← code_at c;
        if negb (opcode_is i OP_TESTSET) then mret true
        else next ← getjump list; need_value_loop fuel next
  end.

Definition list_fuel (fs : FuncState) : nat := S (length (f_code fs)).

Definition need_value (list : Z) : M KS bool := fs ← get_fs; need_value_loop (list_fuel fs) list.

Definition patchtestreg (node reg : Z) : M KS bool :=
  c ← getjumpcontrol node;
  i ← code_at c;
  if negb (opcode_is i OP_TESTSET) then mret false  (* cannot patch other instructions *)
  else
    (if negb (reg =? NO_REG) && negb (reg =? GETARG_B i) then set_code_at c (fun i => SETARG_A i reg)
     else  (* no register to put value or register already has the value *)
       set_code_at c (fun i => CREATE_ABC OP_TEST (GETARG_B i) 0 (GETARG_C i)));;
    mret true.

Fixpoint removevalues_loop (fuel : nat) (list : Z) : M KS unit :=
  match fuel with
  | O => throw OutOfFuel
  | S fuel =>
      if list =? NO_JUMP then mret tt
      else patchtestreg list NO_REG;; next ← getjump list; removevalues_loop fuel next
  end.

Definition removevalues (list : Z) : M KS unit := fs ← get_fs; removevalues_loop (list_fuel fs) list.

Fixpoint patchlist_loop (fuel : nat) (list vtarget reg dtarget : Z) : M KS unit :=
  match fuel with
  | O => throw OutOfFuel
  | S fuel =>
      if list =? NO_JUMP then mret tt
      else
        next ← getjump list;
        b ← patchtestreg list reg;
        (if (b : bool) then fixjump list vtarget
         else fixjump list dtarget);;  (* jump to default target *)
        patchlist_loop fuel next vtarget reg dtarget
  end.

Definition patchlistaux (list vtarget reg dtarget : Z) : M KS unit :=
  fs ← get_fs; patchlist_loop (list_fuel fs) list vtarget reg dtarget.

Definition dischargejpc : M KS unit :=
  fs ← get_fs;
  patchlistaux (fs_jpc fs) (fs_pc fs) NO_REG (fs_pc fs);;
  upd_fs (set_fs_jpc NO_JUMP).

(** The last element of a list. *)
Fixpoint last_loop (fuel : nat) (list : Z) : M KS Z :=
  match fuel with
  | O => throw OutOfFuel
  | S fuel => next ← getjump list; if next =? NO_JUMP then mret list else last_loop fuel next
  end.

(** The new value of [l1]. *)
Definition luaK_concat (l1 l2 : Z) : M KS Z :=
  if l2 =? NO_JUMP then mret l1
  else if l1 =? NO_JUMP then mret l2
  else
    fs ← get_fs;
    list ← last_loop (list_fuel fs) l1;  (* find last element *)
    fixjump list l2;;
    mret l1.

Definition luaK_patchtohere (list : Z) : M KS unit :=
  luaK_getlabel;;
  fs ← get_fs;
  jpc ← luaK_concat (fs_jpc fs) list;
  upd_fs (set_fs_jpc jpc).

Definition luaK_patchlist (list target : Z) : M KS unit :=
  fs ← get_fs;
  if target =? fs_pc fs then luaK_patchtohere list
  else patchlistaux list target NO_REG target.

(** ** Instructions *)

Definition luaK_code (i line : Z) : M KS Z :=
  dischargejpc;;  (* `pc' will change *)
  (* put new instruction in code array *)
  fs ← get_fs;
  let pc := fs_pc fs in
  size ← luaM_growvector pc (f_sizecode fs) sizeof_Instruction MAX_INT "code size overflow";
  upd_fs (set_f_sizecode size);;
  (* save corresponding line information *)
  size ← luaM_growvector pc (f_sizelineinfo fs) sizeof_int MAX_INT "code size overflow";
  upd_fs (fun fs => set_f_sizelineinfo size (set_f_lineinfo (f_lineinfo fs ++ [line]) (set_f_code (f_code fs ++ [i]) fs)));;
  mret pc.

Definition lastline : M KS Z := gets (fun s => ls_lastline (ks_ls s)).

Definition luaK_codeABC (o : OpCode) (a b c : Z) : M KS Z :=
  line ← lastline; luaK_code (CREATE_ABC o a b c) line.
Definition luaK_codeABx (o : OpCode) (a bc : Z) : M KS Z :=
  line ← lastline; luaK_code (CREATE_ABx o a bc) line.
Definition luaK_codeAsBx (o : OpCode) (A sBx : Z) : M KS Z := luaK_codeABx o A (u32 (sBx + MAXARG_sBx)).

Definition luaK_fixline (line : Z) : M KS unit :=
  fs ← get_fs;
  if (0 <=? fs_pc fs - 1) && (fs_pc fs - 1 <? zlen (f_lineinfo fs))
  then upd_fs (fun fs => set_f_lineinfo (zupd (fs_pc fs - 1) line (f_lineinfo fs)) fs)
  else throw (UB "lineinfo index").

Definition luaK_nil (from n : Z) : M KS unit :=
  let emit := luaK_codeABC OP_LOADNIL from (from + n - 1) 0;; mret tt in  (* else no optimization *)
  fs ← get_fs;
  if fs_pc fs >? fs_lasttarget fs then  (* no jumps to current position? *)
    if fs_pc fs =? 0 then  (* function start? *)
      if from >=? fs_nactvar fs then mret tt  (* positions are already clean *)
      else emit
    else
      previous ← code_at (fs_pc fs - 1);
      if opcode_is previous OP_LOADNIL then
        let pfrom := GETARG_A previous in
        let pto := GETARG_B previous in
        if (pfrom <=? from) && (from <=? pto + 1) then  (* can connect both? *)
          when (from + n - 1 >? pto) (set_code_at (fs_pc fs - 1) (fun i => SETARG_B i (from + n - 1)))
        else emit
      else emit
  else emit.

Definition luaK_jump : M KS Z :=
  fs ← get_fs;
  let jpc := fs_jpc fs in  (* save list of jumps to here *)
  upd_fs (set_fs_jpc NO_JUMP);;
  j ← luaK_codeAsBx OP_JMP 0 NO_JUMP;
  luaK_concat j jpc.  (* keep them on hold *)

Definition luaK_ret (first nret : Z) : M KS unit := luaK_codeABC OP_RETURN first (nret + 1) 0;; mret tt.

Definition condjump (op : OpCode) (A B C : Z) : M KS Z := luaK_codeABC op A B C;; luaK_jump.

(** ** Registers *)

Definition luaK_checkstack (n : Z) : M KS unit :=
  fs ← get_fs;
  let newstack := fs_freereg fs + n in
  when (newstack >? f_maxstacksize fs)
    (when (newstack >=? MAXSTACK) (syntaxerror "function or expression too complex");;
     upd_fs (set_f_maxstacksize (u8 newstack))).

Definition luaK_reserveregs (n : Z) : M KS unit :=
  luaK_checkstack n;;
  upd_fs (fun fs => set_fs_freereg (fs_freereg fs + n) fs).

Definition freereg (reg : Z) : M KS unit :=
  fs ← get_fs;
  when (negb (ISK reg) && (reg >=? fs_nactvar fs)) (upd_fs (fun fs => set_fs_freereg (fs_freereg fs - 1) fs)).

Definition freeexp (e : expdesc) : M KS unit := when (bool_decide (e_k e = VNONRELOC)) (freereg (e_info e)).

(** ** Constants *)

(** [k] is the key in fs->h, [v] the constant. *)
Definition addk (k : TValue) (v : Const) : M KS Z :=
  fs ← get_fs;
  let nk := fs_nk fs in
  idx ← onLex (on_h (
    idx ← luaH_set k;
    t ← gets ts_t;
    x ← lift (slot_get t idx);
    when (negb (ttype x =? LUA_TNUMBER)) (upd (slot_set idx (VNumber nk)));;  (* constant not found; create a new entry *)
    mret x));
  match idx with
  | VNumber n => mret (s32 n)
  | _ =>
      size ← luaM_growvector nk (f_sizek fs) sizeof_TValue MAXARG_Bx "constant table overflow";
      upd_fs (fun fs => set_f_sizek size (set_f_k (f_k fs ++ [v]) fs));;
      mret nk
  end.

Definition luaK_stringK (s : TString) : M KS Z := addk (VString (ts_addr s)) (KString (Some (ts_str s))).
Definition luaK_numberK (r : Z) : M KS Z := addk (VNumber r) (KNumber r).
Definition boolK (b : Z) : M KS Z := addk (VBoolean b) (KBoolean b).
(** Nil cannot be a key; the table itself stands for it. *)
Definition nilK : M KS Z := fs ← get_fs; addk (VTable (fs_h fs)) KNil.

(** ** Expressions *)

Definition luaK_setreturns (e : expdesc) (nresults : Z) : M KS unit :=
  match e_k e with
  | VCALL => set_code_at (e_info e) (fun i => SETARG_C i (nresults + 1))  (* expression is an open function call? *)
  | VVARARG =>
      set_code_at (e_info e) (fun i => SETARG_B i (nresults + 1));;
      fs ← get_fs;
      set_code_at (e_info e) (fun i => SETARG_A i (fs_freereg fs));;
      luaK_reserveregs 1
  | _ => mret tt
  end.

Definition luaK_setmultret (e : expdesc) : M KS unit := luaK_setreturns e LUA_MULTRET.

Definition luaK_setoneret (e : expdesc) : M KS expdesc :=
  match e_k e with
  | VCALL => i ← getcode e; mret (set_info (GETARG_A i) (set_k VNONRELOC e))
  | VVARARG =>
      set_code_at (e_info e) (fun i => SETARG_B i 2);;
      mret (set_k VRELOCABLE e)  (* can relocate its simple result *)
  | _ => mret e
  end.

Definition luaK_dischargevars (e : expdesc) : M KS expdesc :=
  match e_k e with
  | VLOCAL => mret (set_k VNONRELOC e)
  | VUPVAL => info ← luaK_codeABC OP_GETUPVAL 0 (e_info e) 0; mret (set_k VRELOCABLE (set_info info e))
  | VGLOBAL => info ← luaK_codeABx OP_GETGLOBAL 0 (e_info e); mret (set_k VRELOCABLE (set_info info e))
  | VINDEXED =>
      freereg (e_aux e);;
      freereg (e_info e);;
      info ← luaK_codeABC OP_GETTABLE 0 (e_info e) (e_aux e);
      mret (set_k VRELOCABLE (set_info info e))
  | VVARARG | VCALL => luaK_setoneret e
  | _ => mret e  (* there is one value available (somewhere) *)
  end.

Definition code_label (A b jump : Z) : M KS Z :=
  luaK_getlabel;;  (* those instructions may be jump targets *)
  luaK_codeABC OP_LOADBOOL A b jump.

Definition discharge2reg (e : expdesc) (reg : Z) : M KS expdesc :=
  e ← luaK_dischargevars e;
  let done := mret (set_k VNONRELOC (set_info reg e)) in
  match e_k e with
  | VNIL => luaK_nil reg 1;; done
  | VFALSE | VTRUE => luaK_codeABC OP_LOADBOOL reg (Z.b2z (bool_decide (e_k e = VTRUE))) 0;; done
  | VK => luaK_codeABx OP_LOADK reg (e_info e);; done
  | VKNUM => k ← luaK_numberK (e_nval e); luaK_codeABx OP_LOADK reg k;; done
  | VRELOCABLE => set_code_at (e_info e) (fun i => SETARG_A i reg);; done
  | VNONRELOC => when (negb (reg =? e_info e)) (luaK_codeABC OP_MOVE reg (e_info e) 0;; mret tt);; done
  | _ => mret e  (* nothing to do... *)
  end.

Definition discharge2anyreg (e : expdesc) : M KS expdesc :=
  if bool_decide (e_k e = VNONRELOC) then mret e
  else
    luaK_reserveregs 1;;
    fs ← get_fs;
    discharge2reg e (fs_freereg fs - 1).

Definition exp2reg (e : expdesc) (reg : Z) : M KS expdesc :=
  e ← discharge2reg e reg;
  e ← (if bool_decide (e_k e = VJMP)
       then t ← luaK_concat (e_t e) (e_info e); mret (set_t t e)  (* put this jump in `t' list *)
       else mret e);
  when (hasjumps e) (
    nt ← need_value (e_t e);
    nv ← (if (nt : bool) then mret true else need_value (e_f e));
    p ← (if (nv : bool) then
           fj ← (if bool_decide (e_k e = VJMP) then mret NO_JUMP else luaK_jump);
           p_f ← code_label reg 0 1;  (* position of an eventual LOAD false *)
           p_t ← code_label reg 1 0;  (* position of an eventual LOAD true *)
           luaK_patchtohere fj;;
           mret (p_f, p_t)
         else mret (NO_JUMP, NO_JUMP));
    let '(p_f, p_t) := p in
    final ← luaK_getlabel;  (* position after whole expression *)
    patchlistaux (e_f e) final reg p_f;;
    patchlistaux (e_t e) final reg p_t);;
  mret (set_k VNONRELOC (set_info reg (set_t NO_JUMP (set_f NO_JUMP e)))).

Definition luaK_exp2nextreg (e : expdesc) : M KS expdesc :=
  e ← luaK_dischargevars e;
  freeexp e;;
  luaK_reserveregs 1;;
  fs ← get_fs;
  exp2reg e (fs_freereg fs - 1).

(** The register is the [info] of the new descriptor. *)
Definition luaK_exp2anyreg (e : expdesc) : M KS expdesc :=
  e ← luaK_dischargevars e;
  fs ← get_fs;
  if bool_decide (e_k e = VNONRELOC) && negb (hasjumps e) then mret e  (* exp is already in a register *)
  else if bool_decide (e_k e = VNONRELOC) && (e_info e >=? fs_nactvar fs)  (* reg. is not a local? *)
  then exp2reg e (e_info e)  (* put value on it *)
  else luaK_exp2nextreg e.  (* default *)

Definition luaK_exp2val (e : expdesc) : M KS expdesc :=
  if hasjumps e then luaK_exp2anyreg e else luaK_dischargevars e.

(** The operand, with the new descriptor. *)
Definition luaK_exp2RK (e : expdesc) : M KS (Z * expdesc) :=
  e ← luaK_exp2val e;
  fs ← get_fs;
  (* not a constant in the right range: put it in a register *)
  let inreg := e ← luaK_exp2anyreg e; mret (e_info e, e) in
  let const (m : M KS Z) :=
    if fs_nk fs <=? MAXINDEXRK  (* constant fit in RK operand? *)
    then info ← m; mret (RKASK info, set_k VK (set_info info e))
    else inreg in
  match e_k e with
  | VKNUM => const (luaK_numberK (e_nval e))
  | VTRUE => const (boolK 1)
  | VFALSE => const (boolK 0)
  | VNIL => const nilK
  | VK => if e_info e <=? MAXINDEXRK then mret (RKASK (e_info e), e) else inreg  (* constant fit in argC? *)
  | _ => inreg
  end.

Definition luaK_storevar (var ex : expdesc) : M KS unit :=
  match e_k var with
  | VLOCAL => freeexp ex;; exp2reg ex (e_info var);; mret tt
  | VUPVAL =>
      ex ← luaK_exp2anyreg ex;
      luaK_codeABC OP_SETUPVAL (e_info ex) (e_info var) 0;;
      freeexp ex
  | VGLOBAL =>
      ex ← luaK_exp2anyreg ex;
      luaK_codeABx OP_SETGLOBAL (e_info ex) (e_info var);;
      freeexp ex
  | VINDEXED =>
      '(e, ex) ← luaK_exp2RK ex;
      luaK_codeABC OP_SETTABLE (e_info var) (e_aux var) e;;
      freeexp ex
  | _ => freeexp ex  (* invalid var kind to store *)
  end.

Definition luaK_self (e key : expdesc) : M KS expdesc :=
  e ← luaK_exp2anyreg e;
  freeexp e;;
  fs ← get_fs;
  let func := fs_freereg fs in
  luaK_reserveregs 2;;
  '(rk, key) ← luaK_exp2RK key;
  luaK_codeABC OP_SELF func (e_info e) rk;;
  freeexp key;;
  mret (set_k VNONRELOC (set_info func e)).

(** ** Conditions *)

Definition invertjump (e : expdesc) : M KS unit :=
  c ← getjumpcontrol (e_info e);
  set_code_at c (fun i => SETARG_A i (Z.b2z (GETARG_A i =? 0))).

(** [fs->pc--] *)
Definition drop_pc : M KS unit :=
  upd_fs (fun fs => set_f_lineinfo (removelast (f_lineinfo fs)) (set_f_code (removelast (f_code fs)) fs)).

Definition jumponcond (e : expdesc) (cond : Z) : M KS Z :=
  let testset :=
    e ← discharge2anyreg e;
    freeexp e;;
    condjump OP_TESTSET NO_REG (e_info e) cond in
  if bool_decide (e_k e = VRELOCABLE) then
    ie ← getcode e;
    if opcode_is ie OP_NOT then
      drop_pc;;  (* remove previous OP_NOT *)
      condjump OP_TEST (GETARG_B ie) 0 (Z.b2z (cond =? 0))
    else testset
  else testset.

Definition luaK_goiftrue (e : expdesc) : M KS expdesc :=
  e ← luaK_dischargevars e;
  pc ← match e_k e with  (* pc of last jump *)
       | VK | VKNUM | VTRUE => mret NO_JUMP  (* always true; do nothing *)
       | VFALSE => luaK_jump  (* always jump *)
       | VJMP => invertjump e;; mret (e_info e)
       | _ => jumponcond e 0
       end;
  f ← luaK_concat (e_f e) pc;  (* insert last jump in `f' list *)
  luaK_patchtohere (e_t e);;
  mret (set_t NO_JUMP (set_f f e)).

Definition luaK_goiffalse (e : expdesc) : M KS expdesc :=
  e ← luaK_dischargevars e;
  pc ← match e_k e with  (* pc of last jump *)
       | VNIL | VFALSE => mret NO_JUMP  (* always false; do nothing *)
       | VTRUE => luaK_jump  (* always jump *)
       | VJMP => mret (e_info e)
       | _ => jumponcond e 1
       end;
  t ← luaK_concat (e_t e) pc;  (* insert last jump in `t' list *)
  luaK_patchtohere (e_f e);;
  mret (set_f NO_JUMP (set_t t e)).

Definition codenot (e : expdesc) : M KS expdesc :=
  e ← luaK_dischargevars e;
  e ← match e_k e with
      | VNIL | VFALSE => mret (set_k VTRUE e)
      | VK | VKNUM | VTRUE => mret (set_k VFALSE e)
      | VJMP => invertjump e;; mret e
      | VRELOCABLE | VNONRELOC =>
          e ← discharge2anyreg e;
          freeexp e;;
          info ← luaK_codeABC OP_NOT 0 (e_info e) 0;
          mret (set_k VRELOCABLE (set_info info e))
      | _ => mret e  (* cannot happen *)
      end;
  (* interchange true and false lists *)
  let e := set_t (e_f e) (set_f (e_t e) e) in
  removevalues (e_f e);;
  removevalues (e_t e);;
  mret e.

Definition luaK_indexed (t k : expdesc) : M KS expdesc :=
  '(rk, _) ← luaK_exp2RK k;
  mret (set_k VINDEXED (set_aux rk t)).

(** ** Operators *)

(** The new [e1] when the operation can be done now. *)
Definition constfolding (op : OpCode) (e1 e2 : expdesc) : result (option expdesc) :=
  if negb (isnumeral e1) || negb (isnumeral e2) then mret None
  else
    let v1 := e_nval e1 in
    let v2 := e_nval e2 in
    let fold r := if luai_numisnan r then None else Some (set_nval r e1) in  (* do not attempt to produce NaN *)
    match op with
    | OP_ADD => mret (fold (luai_numadd v1 v2))
    | OP_SUB => mret (fold (luai_numsub v1 v2))
    | OP_MUL => mret (fold (luai_nummul v1 v2))
    | OP_DIV => if v2 =? 0 then mret None else r ← luai_numdiv v1 v2; mret (fold r)  (* do not attempt to divide by 0 *)
    | OP_MOD => if v2 =? 0 then mret None else r ← luai_nummod v1 v2; mret (fold r)
    | OP_POW => mret (fold (luai_numpow v1 v2))
    | OP_UNM => mret (fold (luai_numunm v1))
    | OP_LEN => mret None  (* no constant folding for 'len' *)
    | _ => mret (fold 0)
    end.

Definition codearith (op : OpCode) (e1 e2 : expdesc) : M KS expdesc :=
  folded ← lift (constfolding op e1 e2);
  match folded with
  | Some e1 => mret e1
  | None =>
      '(o2, e2) ← (if negb (bool_decide (op = OP_UNM)) && negb (bool_decide (op = OP_LEN))
                   then luaK_exp2RK e2 else mret (0, e2));
      '(o1, e1) ← luaK_exp2RK e1;
      (if o1 >? o2 then freeexp e1;; freeexp e2 else freeexp e2;; freeexp e1);;
      info ← luaK_codeABC op 0 o1 o2;
      mret (set_k VRELOCABLE (set_info info e1))
  end.

Definition codecomp (op : OpCode) (cond : Z) (e1 e2 : expdesc) : M KS expdesc :=
  '(o1, e1) ← luaK_exp2RK e1;
  '(o2, e2) ← luaK_exp2RK e2;
  freeexp e2;;
  freeexp e1;;
  info ← (if (cond =? 0) && negb (bool_decide (op = OP_EQ))
          then condjump op 1 o2 o1  (* exchange args to replace by `<' or `<=' *)
          else condjump op cond o1 o2);
  mret (set_k VJMP (set_info info e1)).

Definition luaK_prefix (op : UnOpr) (e : expdesc) : M KS expdesc :=
  let e2 := mkExp VKNUM 0 0 0 NO_JUMP NO_JUMP in
  match op with
  | OPR_MINUS =>
      e ← (if isnumeral e then mret e else luaK_exp2anyreg e);  (* cannot operate on non-numeric constants *)
      codearith OP_UNM e e2
  | OPR_NOT => codenot e
  | OPR_LEN => e ← luaK_exp2anyreg e; codearith OP_LEN e e2  (* cannot operate on constants *)
  | OPR_NOUNOPR => mret e
  end.

Definition luaK_infix (op : BinOpr) (v : expdesc) : M KS expdesc :=
  let rk := '(_, v) ← luaK_exp2RK v; mret v in
  match op with
  | OPR_AND => luaK_goiftrue v
  | OPR_OR => luaK_goiffalse v
  | OPR_CONCAT => luaK_exp2nextreg v  (* operand must be on the `stack' *)
  | OPR_ADD | OPR_SUB | OPR_MUL | OPR_DIV | OPR_MOD | OPR_POW => if isnumeral v then mret v else rk
  | _ => rk
  end.

(** The new [e1]; the parser does not use [e2] after it. *)
Definition luaK_posfix (op : BinOpr) (e1 e2 : expdesc) : M KS expdesc :=
  match op with
  | OPR_AND =>
      e2 ← luaK_dischargevars e2;
      f ← luaK_concat (e_f e2) (e_f e1);
      mret (set_f f e2)
  | OPR_OR =>
      e2 ← luaK_dischargevars e2;
      t ← luaK_concat (e_t e2) (e_t e1);
      mret (set_t t e2)
  | OPR_CONCAT =>
      e2 ← luaK_exp2val e2;
      concat ← (if bool_decide (e_k e2 = VRELOCABLE)
                then i ← getcode e2; mret (opcode_is i OP_CONCAT) else mret false);
      if (concat : bool) then
        freeexp e1;;
        set_code_at (e_info e2) (fun i => SETARG_B i (e_info e1));;
        mret (set_info (e_info e2) (set_k VRELOCABLE e1))
      else
        e2 ← luaK_exp2nextreg e2;  (* operand must be on the 'stack' *)
        codearith OP_CONCAT e1 e2
  | OPR_ADD => codearith OP_ADD e1 e2
  | OPR_SUB => codearith OP_SUB e1 e2
  | OPR_MUL => codearith OP_MUL e1 e2
  | OPR_DIV => codearith OP_DIV e1 e2
  | OPR_MOD => codearith OP_MOD e1 e2
  | OPR_POW => codearith OP_POW e1 e2
  | OPR_EQ => codecomp OP_EQ 1 e1 e2
  | OPR_NE => codecomp OP_EQ 0 e1 e2
  | OPR_LT => codecomp OP_LT 1 e1 e2
  | OPR_LE => codecomp OP_LE 1 e1 e2
  | OPR_GT => codecomp OP_LT 0 e1 e2
  | OPR_GE => codecomp OP_LE 0 e1 e2
  | OPR_NOBINOPR => mret e1
  end.

Definition luaK_setlist (base nelems tostore : Z) : M KS unit :=
  let c := Z.quot (nelems - 1) LFIELDS_PER_FLUSH + 1 in
  let b := if tostore =? LUA_MULTRET then 0 else tostore in
  (if c <=? MAXARG_C then luaK_codeABC OP_SETLIST base b c
   else
     luaK_codeABC OP_SETLIST base b 0;;
     line ← lastline;
     luaK_code (u32 c) line);;
  upd_fs (set_fs_freereg (base + 1)).  (* free registers with list values *)
End code.
