(* ===== verification/Parser.v ===== *)
(** * Parser.v: the parser (lparser.h, lparser.c)

    A recursive descent over the tokens of the lexer, which calls the code
    generator as it goes.  The rules are in a section over the two functions
    lparser.c declares ahead, [subexpr] (for [expr]) and [chunk]; the last
    definitions tie the knot on fuel.  Both raise nCcalls first, up to
    LUAI_MAXCCALLS, so the depth needs no more fuel than that; a loop takes a
    token each turn, so the characters left are fuel enough for it. *)

From Stdlib Require Import Ascii.
From S2P Require Import Prelude Machine Opcodes Object Mem Zio Str Table Lex Code.

Definition ch (c : Ascii.ascii) : Z := Z.of_N (Ascii.N_of_ascii c).
Arguments ch c%_char.

Definition SHRT_MAX : Z := 32767.

(** ** The other reserved words (llex.h) *)

Definition TK_BREAK : Z := 258.
Definition TK_DO : Z := 259.
Definition TK_ELSE : Z := 260.
Definition TK_ELSEIF : Z := 261.
Definition TK_END : Z := 262.
Definition TK_FALSE : Z := 263.
Definition TK_FOR : Z := 264.
Definition TK_IF : Z := 266.
Definition TK_IN : Z := 267.
Definition TK_LOCAL : Z := 268.
Definition TK_NIL : Z := 269.
Definition TK_NOT : Z := 270.
Definition TK_OR : Z := 271.
Definition TK_REPEAT : Z := 272.
Definition TK_RETURN : Z := 273.
Definition TK_THEN : Z := 274.
Definition TK_TRUE : Z := 275.
Definition TK_UNTIL : Z := 276.

Definition hasmultret (k : expkind) : bool := bool_decide (k = VCALL) || bool_decide (k = VVARARG).

Definition init_exp (k : expkind) (i : Z) : expdesc := mkExp k i 0 0 NO_JUMP NO_JUMP.

(** [getlocvar(fs, i)] *)
Definition getlocvar (fs : FuncState) (i : Z) : result LocVarT :=
  a ← of_option "actvar index" (znth (fs_actvar fs) i);
  of_option "locvars index" (znth (f_locvars fs) a).
Definition set_locvar (i : Z) (f : LocVarT -> LocVarT) (fs : FuncState) : result FuncState :=
  a ← of_option "actvar index" (znth (fs_actvar fs) i);
  lv ← of_option "locvars index" (znth (f_locvars fs) a);
  mret (set_f_locvars (zupd a (f lv) (f_locvars fs)) fs).

(** The last active variable of the name, from [n] down. *)
Fixpoint searchvar_loop (fs : FuncState) (n : TString) (i : nat) : result Z :=
  match i with
  | O => mret (-1)  (* not found *)
  | S i =>
      lv ← getlocvar fs (Z.of_nat i);
      if ts_addr n =? ts_addr (lv_varname lv) then mret (Z.of_nat i) else searchvar_loop fs n i
  end.
Definition searchvar (fs : FuncState) (n : TString) : result Z :=
  searchvar_loop fs n (Z.to_nat (fs_nactvar fs)).

(** Marks the block where the variable at [level] was defined. *)
Fixpoint markupval_blocks (bl : list BlockCnt) (level : Z) : list BlockCnt :=
  match bl with
  | [] => []
  | b :: rest =>
      if bl_nactvar b >? level then b :: markupval_blocks rest level
      else mkBlock (bl_breaklist b) (bl_nactvar b) true (bl_isbreakable b) :: rest
  end.
Definition markupval (level : Z) (fs : FuncState) : FuncState := set_fs_bl (markupval_blocks (fs_bl fs) level) fs.

(** The prototype of a function that has been closed. *)
Definition proto_of (fs : FuncState) : Proto :=
  mkProto (Some (f_source fs)) (f_linedefined fs) (f_lastlinedefined fs) (f_nups fs) (f_numparams fs)
    (f_is_vararg fs) (f_maxstacksize fs) (f_code fs) (f_k fs) (f_p fs) (f_lineinfo fs)
    (map (fun lv => mkLocVar (Some (ts_str (lv_varname lv))) (lv_startpc lv) (lv_endpc lv)) (f_locvars fs))
    (map (fun ts => Some (ts_str ts)) (f_upvalues fs)).

(** The functions being compiled by level, the innermost is 0. *)
Definition get_level (d : nat) : M KS FuncState := fun s =>
  match d with
  | O => (Ok (ks_fs s), s)
  | S d => (of_option "enclosing function" (fst <$> (ks_prev s !! d)), s)
  end.
Definition upd_level (d : nat) (f : FuncState -> FuncState) : M KS unit := modify (fun s =>
  match d with
  | O => set_fs (f (ks_fs s)) s
  | S d => set_prev (alter (fun p => (f (fst p), snd p)) d (ks_prev s)) s
  end).

Definition getunopr (op : Z) : UnOpr :=
  if op =? TK_NOT then OPR_NOT
  else if op =? ch "-" then OPR_MINUS
  else if op =? ch "#" then OPR_LEN
  else OPR_NOUNOPR.

Definition getbinopr (op : Z) : BinOpr :=
  if op =? ch "+" then OPR_ADD
  else if op =? ch "-" then OPR_SUB
  else if op =? ch "*" then OPR_MUL
  else if op =? ch "/" then OPR_DIV
  else if op =? ch "%" then OPR_MOD
  else if op =? ch "^" then OPR_POW
  else if op =? TK_CONCAT then OPR_CONCAT
  else if op =? TK_NE then OPR_NE
  else if op =? TK_EQ then OPR_EQ
  else if op =? ch "<" then OPR_LT
  else if op =? TK_LE then OPR_LE
  else if op =? ch ">" then OPR_GT
  else if op =? TK_GE then OPR_GE
  else if op =? TK_AND then OPR_AND
  else if op =? TK_OR then OPR_OR
  else OPR_NOBINOPR.

(** The left and the right priority; luaY_parser asks for those of the
    operators only. *)
Definition priority (op : BinOpr) : Z * Z :=
  match op with
  | OPR_ADD | OPR_SUB => (6, 6)
  | OPR_MUL | OPR_DIV | OPR_MOD => (7, 7)
  | OPR_POW => (10, 9)
  | OPR_CONCAT => (5, 4)  (* power and concat (right associative) *)
  | OPR_NE | OPR_EQ => (3, 3)
  | OPR_LT | OPR_LE | OPR_GT | OPR_GE => (3, 3)
  | OPR_AND => (2, 2)
  | OPR_OR => (1, 1)
  | OPR_NOBINOPR => (0, 0)
  end.
Definition UNARY_PRIORITY : Z := 8.

Definition block_follow (token : Z) : bool :=
  (token =? TK_ELSE) || (token =? TK_ELSEIF) || (token =? TK_END) || (token =? TK_UNTIL) || (token =? TK_EOS).

Record ConsControl := mkCons {
  cc_v : expdesc;  (* last list item read *)
  cc_t : expdesc;  (* table descriptor *)
  cc_nh : Z;  (* total number of `record' elements *)
  cc_na : Z;  (* total number of array elements *)
  cc_tostore : Z;  (* number of array elements pending to be stored *)
}.

(** The first loop of a chain of blocks with [upval] of those before it. *)
Fixpoint find_loop (bl : list BlockCnt) (upval : bool) : option (nat * BlockCnt * bool) :=
  match bl with
  | [] => None
  | b :: rest =>
      if bl_isbreakable b then Some (O, b, upval)
      else '(n, b', u) ← find_loop rest (upval || bl_upval b); mret (S n, b', u)
  end.

(** [check_conflict] on the chain of variables: the new chain, and whether one
    needs the local variable [v]. *)
Fixpoint conflict_loop (extra info : Z) (lh : list expdesc) : list expdesc * bool :=
  match lh with
  | [] => ([], false)
  | lv :: prev =>
      let '(prev, c) := conflict_loop extra info prev in
      if bool_decide (e_k lv = VINDEXED) then
        let c1 := e_info lv =? info in
        let lv1 := if c1 then set_info extra lv else lv in  (* previous assignment will use safe copy *)
        let c2 := e_aux lv1 =? info in
        let lv2 := if c2 then set_aux extra lv1 else lv1 in
        (lv2 :: prev, c1 || c2 || c)
      else (lv :: prev, c)
  end.

Section parser.
Context `{Krealloc} `{StringHash} `{KernelStrto}.

(** ** Tokens *)

Definition token : M KS Z := gets (fun s => tk_token (ls_t (ks_ls s))).
Definition linenumber : M KS Z := gets (fun s => ls_linenumber (ks_ls s)).
(** [ls->t.seminfo.ts] and [ls->t.seminfo.r] *)
Definition seminfo_ts : M KS TString :=
  s ← get;
  match tk_seminfo (ls_t (ks_ls s)) with SString ts => mret ts | _ => throw (UB "seminfo.ts") end.
Definition seminfo_r : M KS Z :=
  s ← get;
  match tk_seminfo (ls_t (ks_ls s)) with SNumber r => mret r | _ => throw (UB "seminfo.r") end.
Definition nextToken : M KS unit := onLex luaX_next.

(** Fuel for a loop that takes a token each turn. *)
Definition loop_fuel : M KS nat := gets (fun s => 4 + left (ks_ls s))%nat.

Definition anchor_token : M KS unit :=
  t ← token;
  when ((t =? TK_NAME) || (t =? TK_STRING)) (ts ← seminfo_ts; onLex (luaX_newstring (ts_str ts));; mret tt).

Definition quoted (b : bytes) : bytes := [39] ++ b ++ [39].

Definition error_expected {A} (t : Z) : M KS A :=
  syntaxerror (string_of_bytes (quoted (luaX_token2str t) ++ bytes_of_string " expected")).

Definition errorlimit {A} (fs : FuncState) (limit : Z) (what : string) : M KS A :=
  let more := bytes_of_string " has more than " ++ fmt_d limit ++ bytes_of_string " " ++ bytes_of_string what in
  let msg := if f_linedefined fs =? 0 then bytes_of_string "main function" ++ more
             else bytes_of_string "function at line " ++ fmt_d (f_linedefined fs) ++ more in
  onLex (luaX_lexerror (string_of_bytes msg) 0).

Definition luaY_checklimit (fs : FuncState) (v l : Z) (m : string) : M KS unit :=
  when (v >? l) (errorlimit fs l m).

Definition testnext (c : Z) : M KS bool :=
  t ← token; if t =? c then nextToken;; mret true else mret false.

Definition check_token (c : Z) : M KS unit := t ← token; when (negb (t =? c)) (error_expected c).

Definition checknext (c : Z) : M KS unit := check_token c;; nextToken.

Definition check_condition (c : bool) (msg : string) : M KS unit := when (negb c) (syntaxerror msg).

Definition check_match (what who wher : Z) : M KS unit :=
  b ← testnext what;
  when (negb b)
    (l ← linenumber;
     if wher =? l then error_expected what
     else syntaxerror (string_of_bytes (quoted (luaX_token2str what) ++ bytes_of_string " expected (to close " ++
            quoted (luaX_token2str who) ++ bytes_of_string " at line " ++ fmt_d wher ++ [41]))).

Definition str_checkname : M KS TString :=
  check_token TK_NAME;;
  ts ← seminfo_ts;
  nextToken;;
  mret ts.

Definition codestring (s : TString) : M KS expdesc := k ← luaK_stringK s; mret (init_exp VK k).

Definition checkname : M KS expdesc := ts ← str_checkname; codestring ts.

(** ** Variables *)

Definition registerlocalvar (varname : TString) : M KS Z :=
  fs ← get_fs;
  size ← luaM_growvector (fs_nlocvars fs) (f_sizelocvars fs) sizeof_LocVar SHRT_MAX "too many local variables";
  upd_fs (fun fs => set_f_sizelocvars size (set_f_locvars (f_locvars fs ++ [mkLocVarT varname 0 0]) fs));;
  mret (fs_nlocvars fs).

Definition new_localvar (name : TString) (n : Z) : M KS unit :=
  fs ← get_fs;
  luaY_checklimit fs (fs_nactvar fs + n + 1) LUAI_MAXVARS "local variables";;
  r ← registerlocalvar name;
  lift (of_option "actvar index" (znth (fs_actvar fs) (fs_nactvar fs + n)));;
  upd_fs (fun fs => set_fs_actvar (zupd (fs_nactvar fs + n) (uwrap 16 r) (fs_actvar fs)) fs).

Definition new_localvarliteral (v : string) (n : Z) : M KS unit :=
  ts ← onLex (luaX_newstring (bytes_of_string v)); new_localvar ts n.

Definition upd_locvar (i : Z) (f : LocVarT -> LocVarT) : M KS unit :=
  fs ← get_fs; fs ← lift (set_locvar i f fs); upd_fs (fun _ => fs).

Fixpoint adjust_loop (nvars : nat) : M KS unit :=
  match nvars with
  | O => mret tt
  | S n =>
      fs ← get_fs;
      upd_locvar (fs_nactvar fs - Z.of_nat nvars) (fun lv => mkLocVarT (lv_varname lv) (fs_pc fs) (lv_endpc lv));;
      adjust_loop n
  end.

Definition adjustlocalvars (nvars : Z) : M KS unit :=
  upd_fs (fun fs => set_fs_nactvar (u8 (fs_nactvar fs + nvars)) fs);;
  adjust_loop (Z.to_nat nvars).

Fixpoint removevars_loop (n : nat) : M KS unit :=
  match n with
  | O => mret tt
  | S n =>
      upd_fs (fun fs => set_fs_nactvar (fs_nactvar fs - 1) fs);;
      fs ← get_fs;
      upd_locvar (fs_nactvar fs) (fun lv => mkLocVarT (lv_varname lv) (lv_startpc lv) (fs_pc fs));;
      removevars_loop n
  end.

Definition removevars (tolevel : Z) : M KS unit :=
  fs ← get_fs; removevars_loop (Z.to_nat (fs_nactvar fs - tolevel)).

(** The index of the upvalue that is the variable [v] outside. *)
Definition find_upvalue (fs : FuncState) (v : expdesc) : option nat :=
  fst <$> list_find (fun u => up_k u = e_k v /\ up_info u = e_info v) (fs_upvalues fs).

Definition indexupvalue (d : nat) (name : TString) (v : expdesc) : M KS Z :=
  fs ← get_level d;
  match find_upvalue fs v with
  | Some i => mret (Z.of_nat i)
  | None =>  (* new one *)
      luaY_checklimit fs (f_nups fs + 1) LUAI_MAXUPVALUES "upvalues";;
      size ← luaM_growvector (f_nups fs) (f_sizeupvalues fs) sizeof_ptr MAX_INT "";
      upd_level d (fun fs => set_fs_upvalues (fs_upvalues fs ++ [mkUpvaldesc (e_k v) (u8 (e_info v))])
        (set_f_sizeupvalues size (set_f_upvalues (f_upvalues fs ++ [name]) fs)));;
      mret (f_nups fs)
  end.

(** [levels] functions are left, the next one at [d]. *)
Fixpoint singlevaraux (levels d : nat) (n : TString) (base : bool) : M KS expdesc :=
  match levels with
  | O => mret (init_exp VGLOBAL NO_REG)  (* no more levels: default is global variable *)
  | S levels =>
      fs ← get_level d;
      v ← lift (searchvar fs n);  (* look up at current level *)
      if v >=? 0 then
        when (negb base) (upd_level d (markupval v));;  (* local will be used as an upval *)
        mret (init_exp VLOCAL v)
      else  (* not found at current level; try upper one *)
        var ← singlevaraux levels (S d) n false;
        if bool_decide (e_k var = VGLOBAL) then mret var
        else
          info ← indexupvalue d n var;  (* else was LOCAL or UPVAL *)
          mret (set_k VUPVAL (set_info info var))  (* upvalue in this level *)
  end.

Definition singlevar : M KS expdesc :=
  varname ← str_checkname;
  s ← get;
  var ← singlevaraux (S (length (ks_prev s))) 0 varname true;
  if bool_decide (e_k var = VGLOBAL)
  then k ← luaK_stringK varname; mret (set_info k var)  (* info points to global name *)
  else mret var.

Definition adjust_assign (nvars nexps : Z) (e : expdesc) : M KS unit :=
  let extra := nvars - nexps in
  if hasmultret (e_k e) then
    let extra := Z.max 0 (extra + 1) in  (* includes call itself *)
    luaK_setreturns e extra;;  (* last exp. provides the difference *)
    when (extra >? 1) (luaK_reserveregs (extra - 1))
  else
    when (negb (bool_decide (e_k e = VVOID))) (luaK_exp2nextreg e;; mret tt);;  (* close last expression *)
    when (extra >? 0)
      (fs ← get_fs;
       luaK_reserveregs extra;;
       luaK_nil (fs_freereg fs) extra).

(** ** Levels, blocks and functions *)

Definition enterlevel : M KS unit :=
  modify (fun s => set_nCcalls (ks_nCcalls s + 1) s);;
  s ← get;
  when (ks_nCcalls s >? LUAI_MAXCCALLS) (onLex (luaX_lexerror "chunk has too many syntax levels" 0)).
Definition leavelevel : M KS unit := modify (fun s => set_nCcalls (ks_nCcalls s - 1) s).

Definition enterblock (isbreakable : bool) : M KS unit :=
  upd_fs (fun fs => set_fs_bl (mkBlock NO_JUMP (fs_nactvar fs) false isbreakable :: fs_bl fs) fs).

Definition leaveblock : M KS unit :=
  fs ← get_fs;
  match fs_bl fs with
  | [] => throw (UB "fs->bl is NULL")
  | bl :: previous =>
      upd_fs (set_fs_bl previous);;
      removevars (bl_nactvar bl);;
      when (bl_upval bl) (luaK_codeABC OP_CLOSE (bl_nactvar bl) 0 0;; mret tt);;
      upd_fs (fun fs => set_fs_freereg (fs_nactvar fs) fs);;  (* free registers *)
      luaK_patchtohere (bl_breaklist bl)
  end.

Fixpoint code_upvalues (us : list upvaldesc) : M KS unit :=
  match us with
  | [] => mret tt
  | u :: us =>
      luaK_codeABC (if bool_decide (up_k u = VLOCAL) then OP_MOVE else OP_GETUPVAL) 0 (up_info u) 0;;
      code_upvalues us
  end.

Definition pushclosure (func : FuncState) : M KS expdesc :=
  fs ← get_fs;
  size ← luaM_growvector (fs_np fs) (f_sizep fs) sizeof_ptr MAXARG_Bx "constant table overflow";
  upd_fs (fun fs => set_f_sizep size (set_f_p (f_p fs ++ [proto_of func]) fs));;
  fs ← get_fs;
  pc ← luaK_codeABx OP_CLOSURE 0 (fs_np fs - 1);
  code_upvalues (fs_upvalues func);;
  mret (init_exp VRELOCABLE pc).

(** A new table of constants is fs->h: its address. *)
Definition new_h : M LexState Z := fun ls =>
  let '(r, st) := luaH_new 0 0 (mkTS (totalbytes (ls_G ls)) (mkTable 0 0 None [] [] true 0 0)) in
  let g := set_totalbytes (ts_mem st) (ls_G ls) in
  match r with
  | Ok _ => (Ok (g_next g), set_world (Some (ts_t st)) (set_next (g_next g + 1) g) (ls_reserved ls) ls)
  | Err e => (Err e, set_world (ls_h ls) g (ls_reserved ls) ls)
  end.

(** The state of a function at its start, with [h] to come. *)
Definition new_fs (source : bytes) : FuncState :=
  mkFS [] 0 [] 0 [] 0 [] 0 [] 0 [] 0 source 0 0 0 0
    2  (* registers 0/1 are always valid *)
    0 [] (-1) NO_JUMP 0 0 [] (replicate (Z.to_nat LUAI_MAXVARS) 0).

Definition open_func (prev : list (FuncState * option Table)) : M KS unit :=
  luaM_malloc sizeof_Proto;;  (* luaF_newproto *)
  modify (fun s => set_prev prev (set_fs (new_fs (ls_source (ks_ls s))) s));;
  h ← onLex new_h;
  upd_fs (set_fs_h h).

Definition shrink_arrays : M KS unit :=
  fs ← get_fs;
  luaM_reallocv (f_sizecode fs) (fs_pc fs) sizeof_Instruction;;
  upd_fs (set_f_sizecode (fs_pc fs));;
  luaM_reallocv (f_sizelineinfo fs) (fs_pc fs) sizeof_int;;
  upd_fs (set_f_sizelineinfo (fs_pc fs));;
  luaM_reallocv (f_sizek fs) (fs_nk fs) sizeof_TValue;;
  upd_fs (set_f_sizek (fs_nk fs));;
  luaM_reallocv (f_sizep fs) (fs_np fs) sizeof_ptr;;
  upd_fs (set_f_sizep (fs_np fs));;
  luaM_reallocv (f_sizelocvars fs) (fs_nlocvars fs) sizeof_LocVar;;
  upd_fs (set_f_sizelocvars (fs_nlocvars fs));;
  luaM_reallocv (f_sizeupvalues fs) (f_nups fs) sizeof_ptr;;
  upd_fs (set_f_sizeupvalues (f_nups fs)).

(** [ls->fs = fs->prev]; the state of the main function has none. *)
Definition pop_func (s : KS) : KS :=
  let set_h h ls := set_world h (ls_G ls) (ls_reserved ls) ls in
  match ks_prev s with
  | [] => set_ls (set_h None (ks_ls s)) s
  | (fs, h) :: prev => set_prev prev (set_fs fs (set_ls (set_h h (ks_ls s)) s))
  end.

(** The state of the function that was closed. *)
Definition close_func : M KS FuncState :=
  removevars 0;;
  luaK_ret 0 0;;  (* final return *)
  shrink_arrays;;
  fs ← get_fs;
  modify pop_func;;
  anchor_token;;  (* last token read was anchored in defunct function; must reanchor it *)
  mret fs.

(** ** Grammar rules *)

Section rules.
Variable subexpr : Z -> M KS (expdesc * BinOpr).
Variable chunk : M KS unit.

Definition expr : M KS expdesc := '(v, _) ← subexpr 0; mret v.

Definition field (v : expdesc) : M KS expdesc :=
  v ← luaK_exp2anyreg v;
  nextToken;;  (* skip the dot or colon *)
  key ← checkname;
  luaK_indexed v key.

Definition yindex : M KS expdesc :=
  nextToken;;  (* skip the '[' *)
  v ← expr;
  v ← luaK_exp2val v;
  checknext (ch "]");;
  mret v.

(** *** Constructors *)

Definition recfield (cc : ConsControl) : M KS ConsControl :=
  fs ← get_fs;
  let reg := fs_freereg fs in
  t ← token;
  key ← (if t =? TK_NAME then luaY_checklimit fs (cc_nh cc) MAX_INT "items in a constructor";; checkname
         else yindex);  (* '[' *)
  checknext (ch "=");;
  '(rkkey, _) ← luaK_exp2RK key;
  val ← expr;
  '(rk, _) ← luaK_exp2RK val;
  luaK_codeABC OP_SETTABLE (e_info (cc_t cc)) rkkey rk;;
  upd_fs (set_fs_freereg reg);;  (* free registers *)
  mret (mkCons (cc_v cc) (cc_t cc) (cc_nh cc + 1) (cc_na cc) (cc_tostore cc)).

Definition closelistfield (cc : ConsControl) : M KS ConsControl :=
  if bool_decide (e_k (cc_v cc) = VVOID) then mret cc  (* there is no list item *)
  else
    v ← luaK_exp2nextreg (cc_v cc);
    let cc := mkCons (set_k VVOID v) (cc_t cc) (cc_nh cc) (cc_na cc) (cc_tostore cc) in
    if cc_tostore cc =? LFIELDS_PER_FLUSH then
      luaK_setlist (e_info (cc_t cc)) (cc_na cc) (cc_tostore cc);;  (* flush *)
      mret (mkCons (cc_v cc) (cc_t cc) (cc_nh cc) (cc_na cc) 0)  (* no more items pending *)
    else mret cc.

Definition lastlistfield (cc : ConsControl) : M KS ConsControl :=
  if cc_tostore cc =? 0 then mret cc
  else if hasmultret (e_k (cc_v cc)) then
    luaK_setmultret (cc_v cc);;
    luaK_setlist (e_info (cc_t cc)) (cc_na cc) LUA_MULTRET;;
    (* do not count last expression (unknown number of elements) *)
    mret (mkCons (cc_v cc) (cc_t cc) (cc_nh cc) (cc_na cc - 1) (cc_tostore cc))
  else
    when (negb (bool_decide (e_k (cc_v cc) = VVOID))) (luaK_exp2nextreg (cc_v cc);; mret tt);;
    luaK_setlist (e_info (cc_t cc)) (cc_na cc) (cc_tostore cc);;
    mret cc.

Definition listfield (cc : ConsControl) : M KS ConsControl :=
  v ← expr;
  fs ← get_fs;
  luaY_checklimit fs (cc_na cc) MAX_INT "items in a constructor";;
  mret (mkCons v (cc_t cc) (cc_nh cc) (cc_na cc + 1) (cc_tostore cc + 1)).

Fixpoint constructor_loop (fuel : nat) (cc : ConsControl) : M KS ConsControl :=
  match fuel with
  | O => throw OutOfFuel
  | S fuel =>
      t ← token;
      if t =? ch "}" then mret cc
      else
        cc ← closelistfield cc;
        t ← token;
        cc ← (if t =? TK_NAME then  (* may be listfields or recfields *)
                onLex luaX_lookahead;;
                s ← get;
                if negb (tk_token (ls_lookahead (ks_ls s)) =? ch "=")  (* expression? *)
                then listfield cc
                else recfield cc
              else if t =? ch "[" then recfield cc  (* constructor_item -> recfield *)
              else listfield cc);  (* constructor_part -> listfield *)
        b ← testnext (ch ",");
        b ← (if (b : bool) then mret true else testnext (ch ";"));
        if (b : bool) then constructor_loop fuel cc else mret cc
  end.

Definition constructor : M KS expdesc :=
  line ← linenumber;
  pc ← luaK_codeABC OP_NEWTABLE 0 0 0;
  t ← luaK_exp2nextreg (init_exp VRELOCABLE pc);  (* fix it at stack top (for gc) *)
  checknext (ch "{");;
  fuel ← loop_fuel;
  cc ← constructor_loop fuel (mkCons (init_exp VVOID 0) t 0 0 0);
  check_match (ch "}") (ch "{") line;;
  cc ← lastlistfield cc;
  set_code_at pc (fun i => SETARG_B i (luaO_int2fb (u32 (cc_na cc))));;  (* set initial array size *)
  set_code_at pc (fun i => SETARG_C i (luaO_int2fb (u32 (cc_nh cc))));;  (* set initial table size *)
  mret t.

(** *** Function bodies and calls *)

Fixpoint parlist_loop (fuel : nat) (nparams : Z) : M KS Z :=
  match fuel with
  | O => throw OutOfFuel
  | S fuel =>
      t ← token;
      (if t =? TK_NAME then ts ← str_checkname; new_localvar ts nparams  (* param -> NAME *)
       else if t =? TK_DOTS then  (* param -> `...' *)
         nextToken;;
         (* use `arg' as default name *)
         new_localvarliteral "arg" nparams;;
         upd_fs (set_f_is_vararg (Z.lor VARARG_HASARG VARARG_NEEDSARG));;
         upd_fs (fun fs => set_f_is_vararg (Z.lor (f_is_vararg fs) VARARG_ISVARARG) fs)
       else syntaxerror "<name> or '...' expected");;
      fs ← get_fs;
      b ← (if f_is_vararg fs =? 0 then testnext (ch ",") else mret false);
      if (b : bool) then parlist_loop fuel (nparams + 1) else mret (nparams + 1)
  end.

Definition parlist : M KS unit :=
  upd_fs (set_f_is_vararg 0);;
  t ← token;
  nparams ← (if negb (t =? ch ")")  (* is `parlist' not empty? *)
             then fuel ← loop_fuel; parlist_loop fuel 0 else mret 0);
  adjustlocalvars nparams;;
  upd_fs (fun fs => set_f_numparams (u8 (fs_nactvar fs - Z.land (f_is_vararg fs) VARARG_HASARG)) fs);;
  fs ← get_fs;
  luaK_reserveregs (fs_nactvar fs).  (* reserve register for parameters *)

Definition body (needself : bool) (line : Z) : M KS expdesc :=
  s ← get;
  open_func ((ks_fs s, ls_h (ks_ls s)) :: ks_prev s);;
  upd_fs (set_f_linedefined line);;
  checknext (ch "(");;
  when needself (new_localvarliteral "self" 0;; adjustlocalvars 1);;
  parlist;;
  checknext (ch ")");;
  chunk;;
  l ← linenumber;
  upd_fs (set_f_lastlinedefined l);;
  check_match TK_END TK_FUNCTION line;;
  new_fs ← close_func;
  pushclosure new_fs.

(** The number of expressions and the last of them. *)
Fixpoint explist1_loop (fuel : nat) (n : Z) (v : expdesc) : M KS (Z * expdesc) :=
  match fuel with
  | O => throw OutOfFuel
  | S fuel =>
      b ← testnext (ch ",");
      if (b : bool) then
        luaK_exp2nextreg v;;
        v ← expr;
        explist1_loop fuel (n + 1) v
      else mret (n, v)
  end.

Definition explist1 : M KS (Z * expdesc) :=
  v ← expr;  (* at least one expression *)
  fuel ← loop_fuel;
  explist1_loop fuel 1 v.

Definition funcargs (f : expdesc) : M KS expdesc :=
  line ← linenumber;
  t ← token;
  args ← (if t =? ch "(" then  (* funcargs -> `(' [ explist1 ] `)' *)
            last ← lastline;
            when (negb (line =? last)) (syntaxerror "ambiguous syntax (function call x new statement)");;
            nextToken;;
            t ← token;
            args ← (if t =? ch ")" then mret (init_exp VVOID 0)  (* arg list is empty? *)
                    else '(_, args) ← explist1; luaK_setmultret args;; mret args);
            check_match (ch ")") (ch "(") line;;
            mret args
          else if t =? ch "{" then constructor  (* funcargs -> constructor *)
          else if t =? TK_STRING then  (* funcargs -> STRING *)
            ts ← seminfo_ts;
            args ← codestring ts;
            nextToken;;  (* must use `seminfo' before `next' *)
            mret args
          else syntaxerror "function arguments expected");
  let base := e_info f in  (* base register for call *)
  nparams ← (if hasmultret (e_k args) then mret LUA_MULTRET  (* open call *)
             else
               when (negb (bool_decide (e_k args = VVOID))) (luaK_exp2nextreg args;; mret tt);;  (* close last argument *)
               fs ← get_fs;
               mret (fs_freereg fs - (base + 1)));
  pc ← luaK_codeABC OP_CALL base (nparams + 1) 2;
  luaK_fixline line;;
  (* call remove function and arguments and leaves (unless changed) one result *)
  upd_fs (set_fs_freereg (base + 1));;
  mret (init_exp VCALL pc).

(** *** Expressions *)

Definition prefixexp : M KS expdesc :=
  t ← token;
  if t =? ch "(" then
    line ← linenumber;
    nextToken;;
    v ← expr;
    check_match (ch ")") (ch "(") line;;
    luaK_dischargevars v
  else if t =? TK_NAME then singlevar
  else syntaxerror "unexpected symbol".

Fixpoint primaryexp_loop (fuel : nat) (v : expdesc) : M KS expdesc :=
  match fuel with
  | O => throw OutOfFuel
  | S fuel =>
      t ← token;
      if t =? ch "." then v ← field v; primaryexp_loop fuel v
      else if t =? ch "[" then
        v ← luaK_exp2anyreg v;
        key ← yindex;
        v ← luaK_indexed v key;
        primaryexp_loop fuel v
      else if t =? ch ":" then
        nextToken;;
        key ← checkname;
        v ← luaK_self v key;
        v ← funcargs v;
        primaryexp_loop fuel v
      else if (t =? ch "(") || (t =? TK_STRING) || (t =? ch "{") then
        v ← luaK_exp2nextreg v;
        v ← funcargs v;
        primaryexp_loop fuel v
      else mret v
  end.

Definition primaryexp : M KS expdesc :=
  v ← prefixexp;
  fuel ← loop_fuel;
  primaryexp_loop fuel v.

Definition simpleexp : M KS expdesc :=
  t ← token;
  let next v := nextToken;; mret v in
  if t =? TK_NUMBER then r ← seminfo_r; next (set_nval r (init_exp VKNUM 0))
  else if t =? TK_STRING then ts ← seminfo_ts; v ← codestring ts; next v
  else if t =? TK_NIL then next (init_exp VNIL 0)
  else if t =? TK_TRUE then next (init_exp VTRUE 0)
  else if t =? TK_FALSE then next (init_exp VFALSE 0)
  else if t =? TK_DOTS then  (* vararg *)
    fs ← get_fs;
    check_condition (negb (f_is_vararg fs =? 0)) "cannot use '...' outside a vararg function";;
    upd_fs (fun fs => set_f_is_vararg (Z.land (f_is_vararg fs) (u8 (Z.lnot VARARG_NEEDSARG))) fs);;  (* don't need 'arg' *)
    pc ← luaK_codeABC OP_VARARG 0 1 0;
    next (init_exp VVARARG pc)
  else if t =? ch "{" then constructor
  else if t =? TK_FUNCTION then nextToken;; line ← linenumber; body false line
  else primaryexp.

(** Expands while operators have priorities higher than [limit]. *)
Fixpoint binop_loop (fuel : nat) (limit : Z) (op : BinOpr) (v : expdesc) : M KS (expdesc * BinOpr) :=
  match fuel with
  | O => throw OutOfFuel
  | S fuel =>
      if negb (bool_decide (op = OPR_NOBINOPR)) && (fst (priority op) >? limit) then
        nextToken;;
        v ← luaK_infix op v;
        (* read sub-expression with higher priority *)
        '(v2, nextop) ← subexpr (snd (priority op));
        v ← luaK_posfix op v v2;
        binop_loop fuel limit nextop v
      else mret (v, op)  (* return first untreated operator *)
  end.

(** The body of [subexpr]. *)
Definition subexpr_rule (limit : Z) : M KS (expdesc * BinOpr) :=
  enterlevel;;
  t ← token;
  let uop := getunopr t in
  v ← (if negb (bool_decide (uop = OPR_NOUNOPR)) then
         nextToken;;
         '(v, _) ← subexpr UNARY_PRIORITY;
         luaK_prefix uop v
       else simpleexp);
  t ← token;
  fuel ← loop_fuel;
  r ← binop_loop fuel limit (getbinopr t) v;
  leavelevel;;
  mret r.

(** *** Statements *)

Definition block : M KS unit :=
  enterblock false;;
  chunk;;
  leaveblock.

(** The chain [lh] with copies for the local variable [v] where it is needed. *)
Definition check_conflict (lh : list expdesc) (v : expdesc) : M KS (list expdesc) :=
  fs ← get_fs;
  let extra := fs_freereg fs in  (* eventual position to save local variable *)
  let '(lh, conflict) := conflict_loop extra (e_info v) lh in
  when conflict
    (luaK_codeABC OP_MOVE (fs_freereg fs) (e_info v) 0;;  (* make copy *)
     luaK_reserveregs 1);;
  mret lh.

(** The variable [v] on the left and the chain [prev] before it, which is
    returned as the calls changed it. *)
Fixpoint assignment (fuel : nat) (v : expdesc) (prev : list expdesc) (nvars : Z) : M KS (list expdesc) :=
  match fuel with
  | O => throw OutOfFuel
  | S fuel =>
      let default v prev :=  (* default assignment *)
        fs ← get_fs;
        luaK_storevar v (init_exp VNONRELOC (fs_freereg fs - 1));;
        mret prev in
      check_condition (bool_decide (e_k v ∈ [VLOCAL; VUPVAL; VGLOBAL; VINDEXED])) "syntax error";;
      b ← testnext (ch ",");
      if (b : bool) then  (* assignment -> `,' primaryexp assignment *)
        nv ← primaryexp;
        lh ← (if bool_decide (e_k nv = VLOCAL) then check_conflict (v :: prev) nv else mret (v :: prev));
        s ← get;
        luaY_checklimit (ks_fs s) nvars (LUAI_MAXCCALLS - ks_nCcalls s) "variables in assignment";;
        lh ← assignment fuel nv lh (nvars + 1);
        match lh with
        | v :: prev => default v prev
        | [] => throw (UB "chain of variables")
        end
      else  (* assignment -> `=' explist1 *)
        checknext (ch "=");;
        '(nexps, e) ← explist1;
        if negb (nexps =? nvars) then
          adjust_assign nvars nexps e;;
          when (nexps >? nvars)  (* remove extra values *)
            (upd_fs (fun fs => set_fs_freereg (fs_freereg fs - (nexps - nvars)) fs));;
          default v prev
        else
          e ← luaK_setoneret e;  (* close last expression *)
          luaK_storevar v e;;
          mret prev  (* avoid default *)
  end.

Definition cond : M KS Z :=
  v ← expr;  (* read condition *)
  let v := if bool_decide (e_k v = VNIL) then set_k VFALSE v else v in  (* `falses' are all equal here *)
  v ← luaK_goiftrue v;
  mret (e_f v).

Definition breakstat : M KS unit :=
  fs ← get_fs;
  match find_loop (fs_bl fs) false with
  | None => syntaxerror "no loop to break"
  | Some (n, bl, upval) =>
      when upval (luaK_codeABC OP_CLOSE (bl_nactvar bl) 0 0;; mret tt);;
      j ← luaK_jump;
      l ← luaK_concat (bl_breaklist bl) j;
      upd_fs (fun fs => set_fs_bl
        (alter (fun b => mkBlock l (bl_nactvar b) (bl_upval b) (bl_isbreakable b)) n (fs_bl fs)) fs)
  end.

Definition whilestat (line : Z) : M KS unit :=
  nextToken;;  (* skip WHILE *)
  whileinit ← luaK_getlabel;
  condexit ← cond;
  enterblock true;;
  checknext TK_DO;;
  block;;
  j ← luaK_jump;
  luaK_patchlist j whileinit;;
  check_match TK_END TK_WHILE line;;
  leaveblock;;
  luaK_patchtohere condexit.  (* false conditions finish the loop *)

Definition repeatstat (line : Z) : M KS unit :=
  repeat_init ← luaK_getlabel;
  enterblock true;;  (* loop block *)
  enterblock false;;  (* scope block *)
  nextToken;;  (* skip REPEAT *)
  chunk;;
  check_match TK_UNTIL TK_REPEAT line;;
  condexit ← cond;  (* read condition (inside scope block) *)
  fs ← get_fs;
  upval ← lift (of_option "bl2" (bl_upval <$> head (fs_bl fs)));
  (if negb upval then  (* no upvalues? *)
     leaveblock;;  (* finish scope *)
     luaK_patchlist condexit repeat_init  (* close the loop *)
   else  (* complete semantics when there are upvalues *)
     breakstat;;  (* if condition then break *)
     luaK_patchtohere condexit;;  (* else... *)
     leaveblock;;  (* finish scope... *)
     j ← luaK_jump;
     luaK_patchlist j repeat_init);;  (* and repeat *)
  leaveblock.  (* finish loop *)

Definition exp1 : M KS expkind :=
  e ← expr;
  luaK_exp2nextreg e;;
  mret (e_k e).

Definition forbody (base line nvars : Z) (isnum : bool) : M KS unit :=
  adjustlocalvars 3;;  (* control variables *)
  checknext TK_DO;;
  prep ← (if isnum then luaK_codeAsBx OP_FORPREP base NO_JUMP else luaK_jump);
  enterblock false;;  (* scope for declared variables *)
  adjustlocalvars nvars;;
  luaK_reserveregs nvars;;
  block;;
  leaveblock;;  (* end of scope for declared variables *)
  luaK_patchtohere prep;;
  endfor ← (if isnum then luaK_codeAsBx OP_FORLOOP base NO_JUMP else luaK_codeABC OP_TFORLOOP base 0 nvars);
  luaK_fixline line;;  (* pretend that `OP_FOR' starts the loop *)
  j ← (if isnum then mret endfor else luaK_jump);
  luaK_patchlist j (prep + 1).

Definition fornum (varname : TString) (line : Z) : M KS unit :=
  fs ← get_fs;
  let base := fs_freereg fs in
  new_localvarliteral "(for index)" 0;;
  new_localvarliteral "(for limit)" 1;;
  new_localvarliteral "(for step)" 2;;
  new_localvar varname 3;;
  checknext (ch "=");;
  exp1;;  (* initial value *)
  checknext (ch ",");;
  exp1;;  (* limit *)
  b ← testnext (ch ",");
  (if (b : bool) then exp1;; mret tt  (* optional step *)
   else  (* default step = 1 *)
     k ← luaK_numberK 1;
     fs ← get_fs;
     luaK_codeABx OP_LOADK (fs_freereg fs) k;;
     luaK_reserveregs 1);;
  forbody base line 1 true.

(** The names after the first; how many variables there are then. *)
Fixpoint forlist_loop (fuel : nat) (nvars : Z) : M KS Z :=
  match fuel with
  | O => throw OutOfFuel
  | S fuel =>
      b ← testnext (ch ",");
      if (b : bool) then
        ts ← str_checkname;
        new_localvar ts nvars;;
        forlist_loop fuel (nvars + 1)
      else mret nvars
  end.

Definition forlist (indexname : TString) : M KS unit :=
  fs ← get_fs;
  let base := fs_freereg fs in
  (* create control variables *)
  new_localvarliteral "(for generator)" 0;;
  new_localvarliteral "(for state)" 1;;
  new_localvarliteral "(for control)" 2;;
  (* create declared variables *)
  new_localvar indexname 3;;
  fuel ← loop_fuel;
  nvars ← forlist_loop fuel 4;
  checknext TK_IN;;
  line ← linenumber;
  '(n, e) ← explist1;
  adjust_assign 3 n e;;
  luaK_checkstack 3;;  (* extra space to call generator *)
  forbody base line (nvars - 3) false.

Definition forstat (line : Z) : M KS unit :=
  enterblock true;;  (* scope for loop and control variables *)
  nextToken;;  (* skip `for' *)
  varname ← str_checkname;  (* first variable name *)
  t ← token;
  (if t =? ch "=" then fornum varname line
   else if (t =? ch ",") || (t =? TK_IN) then forlist varname
   else syntaxerror "'=' or 'in' expected");;
  check_match TK_END TK_FOR line;;
  leaveblock.  (* loop scope (`break' jumps to this point) *)

Definition test_then_block : M KS Z :=
  nextToken;;  (* skip IF or ELSEIF *)
  condexit ← cond;
  checknext TK_THEN;;
  block;;  (* `then' part *)
  mret condexit.

(** [{ELSEIF cond THEN block}]: the jumps of the last condition and those to
    the end. *)
Fixpoint elseif_loop (fuel : nat) (flist escapelist : Z) : M KS (Z * Z) :=
  match fuel with
  | O => throw OutOfFuel
  | S fuel =>
      t ← token;
      if t =? TK_ELSEIF then
        j ← luaK_jump;
        escapelist ← luaK_concat escapelist j;
        luaK_patchtohere flist;;
        flist ← test_then_block;  (* ELSEIF cond THEN block *)
        elseif_loop fuel flist escapelist
      else mret (flist, escapelist)
  end.

Definition ifstat (line : Z) : M KS unit :=
  flist ← test_then_block;  (* IF cond THEN block *)
  fuel ← loop_fuel;
  '(flist, escapelist) ← elseif_loop fuel flist NO_JUMP;
  t ← token;
  escapelist ← (if t =? TK_ELSE then
                  j ← luaK_jump;
                  escapelist ← luaK_concat escapelist j;
                  luaK_patchtohere flist;;
                  nextToken;;  (* skip ELSE (after patch, for correct line info) *)
                  block;;  (* `else' part *)
                  mret escapelist
                else luaK_concat escapelist flist);
  luaK_patchtohere escapelist;;
  check_match TK_END TK_IF line.

Definition localfunc : M KS unit :=
  ts ← str_checkname;
  new_localvar ts 0;;
  fs ← get_fs;
  let v := init_exp VLOCAL (fs_freereg fs) in
  luaK_reserveregs 1;;
  adjustlocalvars 1;;
  line ← linenumber;
  b ← body false line;
  luaK_storevar v b;;
  (* debug information will only see the variable after this point! *)
  fs ← get_fs;
  upd_locvar (fs_nactvar fs - 1) (fun lv => mkLocVarT (lv_varname lv) (fs_pc fs) (lv_endpc lv)).

Fixpoint localstat_loop (fuel : nat) (nvars : Z) : M KS Z :=
  match fuel with
  | O => throw OutOfFuel
  | S fuel =>
      ts ← str_checkname;
      new_localvar ts nvars;;
      b ← testnext (ch ",");
      if (b : bool) then localstat_loop fuel (nvars + 1) else mret (nvars + 1)
  end.

Definition localstat : M KS unit :=
  fuel ← loop_fuel;
  nvars ← localstat_loop fuel 0;
  b ← testnext (ch "=");
  '(nexps, e) ← (if (b : bool) then explist1 else mret (0, init_exp VVOID 0));
  adjust_assign nvars nexps e;;
  adjustlocalvars nvars.

Fixpoint funcname_loop (fuel : nat) (v : expdesc) : M KS expdesc :=
  match fuel with
  | O => throw OutOfFuel
  | S fuel => t ← token; if t =? ch "." then v ← field v; funcname_loop fuel v else mret v
  end.

(** The variable, and whether the function needs [self]. *)
Definition funcname : M KS (expdesc * bool) :=
  v ← singlevar;
  fuel ← loop_fuel;
  v ← funcname_loop fuel v;
  t ← token;
  if t =? ch ":" then v ← field v; mret (v, true) else mret (v, false).

Definition funcstat (line : Z) : M KS unit :=
  nextToken;;  (* skip FUNCTION *)
  '(v, needself) ← funcname;
  b ← body needself line;
  luaK_storevar v b;;
  luaK_fixline line.  (* definition `happens' in the first line *)

Definition exprstat : M KS unit :=
  v ← primaryexp;
  if bool_decide (e_k v = VCALL)  (* stat -> func *)
  then set_code_at (e_info v) (fun i => SETARG_C i 1)  (* call statement uses no results *)
  else fuel ← loop_fuel; assignment fuel v [] 1;; mret tt.  (* stat -> assignment *)

Definition retstat : M KS unit :=
  nextToken;;  (* skip RETURN *)
  t ← token;
  if block_follow t || (t =? ch ";") then luaK_ret 0 0  (* return no values *)
  else
    '(nret, e) ← explist1;  (* optional return values *)
    if hasmultret (e_k e) then
      luaK_setmultret e;;
      when (bool_decide (e_k e = VCALL) && (nret =? 1))  (* tail call? *)
        (set_code_at (e_info e) (fun i => SET_OPCODE i OP_TAILCALL));;
      fs ← get_fs;
      luaK_ret (fs_nactvar fs) LUA_MULTRET  (* return all values *)
    else if nret =? 1 then  (* only one single value? *)
      e ← luaK_exp2anyreg e;
      luaK_ret (e_info e) nret
    else
      luaK_exp2nextreg e;;  (* values must go to the `stack' *)
      fs ← get_fs;
      luaK_ret (fs_nactvar fs) nret.  (* return all `active' values *)

(** Whether it must be the last statement. *)
Definition statement : M KS bool :=
  line ← linenumber;  (* may be needed for error messages *)
  t ← token;
  if t =? TK_IF then ifstat line;; mret false
  else if t =? TK_WHILE then whilestat line;; mret false
  else if t =? TK_DO then  (* stat -> DO block END *)
    nextToken;;  (* skip DO *)
    block;;
    check_match TK_END TK_DO line;;
    mret false
  else if t =? TK_FOR then forstat line;; mret false
  else if t =? TK_REPEAT then repeatstat line;; mret false
  else if t =? TK_FUNCTION then funcstat line;; mret false
  else if t =? TK_LOCAL then
    nextToken;;  (* skip LOCAL *)
    b ← testnext TK_FUNCTION;
    (if (b : bool) then localfunc else localstat);;  (* local function? *)
    mret false
  else if t =? TK_RETURN then retstat;; mret true  (* must be last statement *)
  else if t =? TK_BREAK then
    nextToken;;  (* skip BREAK *)
    breakstat;;
    mret true  (* must be last statement *)
  else exprstat;; mret false.

Fixpoint chunk_loop (fuel : nat) (islast : bool) : M KS unit :=
  match fuel with
  | O => throw OutOfFuel
  | S fuel =>
      t ← token;
      if negb islast && negb (block_follow t) then
        islast ← statement;
        testnext (ch ";");;
        upd_fs (fun fs => set_fs_freereg (fs_nactvar fs) fs);;  (* free registers *)
        chunk_loop fuel islast
      else mret tt
  end.

(** The body of [chunk]. *)
Definition chunk_rule : M KS unit :=
  enterlevel;;
  fuel ← loop_fuel;
  chunk_loop fuel false;;
  leavelevel.
End rules.

Fixpoint subexpr (fuel : nat) (limit : Z) : M KS (expdesc * BinOpr) :=
  match fuel with
  | O => throw OutOfFuel
  | S fuel => subexpr_rule (subexpr fuel) (chunk fuel) limit
  end
with chunk (fuel : nat) : M KS unit :=
  match fuel with
  | O => throw OutOfFuel
  | S fuel => chunk_rule (subexpr fuel) (chunk fuel)
  end.

(** The levels of syntax. *)
Definition level_fuel : nat := S (Z.to_nat LUAI_MAXCCALLS).

(** [ks_ls] holds the buffer and the world of L, and [ks_nCcalls] its
    nCcalls; the rest is set here. *)
Definition luaY_parser (z : ZIO) (name : bytes) : M KS Proto :=
  ts ← onLex (onLexG (luaS_newlstr name));  (* luaS_new *)
  onLex (luaX_setinput z (ts_str ts));;
  open_func [];;
  upd_fs (set_f_is_vararg VARARG_ISVARARG);;  (* main func. is always vararg *)
  nextToken;;  (* read first token *)
  chunk level_fuel;;
  check_token TK_EOS;;
  funcstate ← close_func;
  mret (proto_of funcstate).
End parser.
