(* ===== verification/ParserLimits.v ===== *)
(** * ParserLimits.v: what every prototype of the parser satisfies

    Whatever the source, the state of each function being compiled keeps the
    limits of the format and of the interpreter ([fs_ok]), the parser leaves
    L->nCcalls as it found it, and the prototypes it returns pass the first
    test of the bytecode verifier ([proto_ok]).

    [keeps m]: [m] preserves all that.  Each operation of lcode.c and lparser.c
    has a lemma, most of them found by following its code. *)

From S2P Require Import Prelude Machine Opcodes Object Mem Zio Debug Str Table Lex Code Parser.

(** ** The invariant *)

Inductive proto_ok (p : Proto) : Prop := Proto_ok {
  po_precheck : precheck p = Ok true;
  po_stack : 2 <= pt_maxstacksize p < MAXSTACK;
  po_params : 0 <= pt_numparams p;
  po_lines : zlen (pt_lineinfo p) = zlen (pt_code p);
  po_nups : pt_nups p = zlen (pt_upvalues p);
  po_upvalues : pt_nups p <= LUAI_MAXUPVALUES;
  po_k : zlen (pt_k p) <= MAXARG_Bx;
  po_p : zlen (pt_p p) <= MAXARG_Bx;
  po_locvars : zlen (pt_locvars p) <= SHRT_MAX;
  po_inside : Forall proto_ok (pt_p p);
}.

(** An array of [n] elements with room for [size], at most [limit]. *)
Definition array_ok (n size limit : Z) : Prop := n <= size <= limit.

(** The values of [is_vararg]. *)
Definition vararg_ok (v : Z) : Prop := v = 0 \/ v = 1 \/ v = 2 \/ v = 3 \/ v = 5 \/ v = 7.

Record fs_ok (fs : FuncState) : Prop := {
  fo_lines : zlen (f_lineinfo fs) = zlen (f_code fs);
  fo_k : array_ok (zlen (f_k fs)) (f_sizek fs) MAXARG_Bx;
  fo_p : array_ok (zlen (f_p fs)) (f_sizep fs) MAXARG_Bx;
  fo_locvars : array_ok (zlen (f_locvars fs)) (f_sizelocvars fs) SHRT_MAX;
  fo_inside : Forall proto_ok (f_p fs);
  fo_ups : zlen (fs_upvalues fs) = zlen (f_upvalues fs);
  fo_upvalues : zlen (f_upvalues fs) <= LUAI_MAXUPVALUES;
  fo_stack : 2 <= f_maxstacksize fs < MAXSTACK;
  fo_numparams : 0 <= f_numparams fs;
  fo_vararg : vararg_ok (f_is_vararg fs);
  fo_params : f_numparams fs + Z.land (f_is_vararg fs) VARARG_HASARG <= f_maxstacksize fs;
}.

Definition ks_ok (s : KS) : Prop := fs_ok (ks_fs s) /\ Forall (fun p => fs_ok (fst p)) (ks_prev s).

(** What a step leaves alone. *)
Definition step_ok (s s' : KS) : Prop :=
  ks_ok s' /\ ks_nCcalls s' = ks_nCcalls s /\ length (ks_prev s') = length (ks_prev s).

Definition keeps {A} (m : M KS A) : Prop :=
  forall s, ks_ok s -> wp m (fun _ s' => step_ok s s') (fun _ => True) s.

(** ** Rules *)

Lemma step_ok_refl s : ks_ok s -> step_ok s s.
Proof. intros Hs. split; [done|]. by split. Qed.
Lemma step_ok_trans s s' s'' : step_ok s s' -> step_ok s' s'' -> step_ok s s''.
Proof. intros (? & ? & ?) (? & ? & ?). split; [done|]. split; congruence. Qed.

Lemma wp_true {S A} (m : M S A) (Q : A -> S -> Prop) s :
  (forall a s', m s = (Ok a, s') -> Q a s') -> wp m Q (fun _ => True) s.
Proof. unfold wp. destruct (m s) as [[a|e] s']; auto. Qed.

Lemma wp_and {S A} (m : M S A) (Q Q' : A -> S -> Prop) E s :
  wp m Q E s -> wp m Q' E s -> wp m (fun a s' => Q a s' /\ Q' a s') E s.
Proof. unfold wp. destruct (m s) as [[a|e] s']; auto. Qed.

(** From [s0], where the operation started. *)
Lemma wp_keeps {A} (m : M KS A) s0 s : keeps m -> step_ok s0 s -> wp m (fun _ s' => step_ok s0 s') (fun _ => True) s.
Proof.
  intros Hm Hs. eapply wp_mono; [apply Hm, Hs| |done]. intros a s' Ha. by eapply step_ok_trans.
Qed.

Lemma keeps_bind {A B} (m : M KS A) (k : A -> M KS B) : keeps m -> (forall a, keeps (k a)) -> keeps (m ≫= k).
Proof.
  intros Hm Hk s Hs. eapply wp_seq; [apply Hm, Hs|]. intros a s' Hs'. by apply wp_keeps.
Qed.
Lemma keeps_ret {A} (a : A) : keeps (mret a).
Proof. intros s Hs. apply wp_ret. by apply step_ok_refl. Qed.
Lemma keeps_throw {A} e : keeps (throw e : M KS A).
Proof. by intros s Hs. Qed.
Lemma keeps_lift {A} (r : result A) : keeps (lift r).
Proof. intros s Hs. destruct r; [by apply step_ok_refl|done]. Qed.
Lemma keeps_gets {A} (f : KS -> A) : keeps (gets f).
Proof. intros s Hs. by apply step_ok_refl. Qed.
Lemma keeps_get : keeps get.
Proof. intros s Hs. by apply step_ok_refl. Qed.
Lemma keeps_when b (m : M KS unit) : keeps m -> keeps (when b m).
Proof. intros Hm. destruct b; [done|apply keeps_ret]. Qed.
Lemma keeps_get_level d : keeps (get_level d).
Proof.
  intros s Hs. destruct d as [|d]; [by apply step_ok_refl|]. unfold wp, get_level.
  destruct (ks_prev s !! d); [by apply step_ok_refl|done].
Qed.

(** The lexer does not touch the functions. *)
Lemma keeps_onLex {A} (m : M LexState A) : keeps (onLex m).
Proof. intros s Hs. unfold wp, onLex. destruct (m (ks_ls s)) as [[a|e] ls]; [|done]. split; [exact Hs|by split]. Qed.

Lemma keeps_upd_fs f : (forall fs, fs_ok fs -> fs_ok (f fs)) -> keeps (upd_fs f).
Proof. intros Hf s [Hs Hp]. split; [|done]. split; [by apply Hf|done]. Qed.

(** A step that depends on the current function. *)
Lemma keeps_fs {A} (k : FuncState -> M KS A) :
  (forall s, ks_ok s -> wp (k (ks_fs s)) (fun _ s' => step_ok s s') (fun _ => True) s) -> keeps (fs ← get_fs; k fs).
Proof. intros Hk s Hs. apply wp_gets. by apply Hk. Qed.

Create HintDb keeps discriminated.
#[export] Hint Constants Opaque : keeps.
#[export] Hint Resolve keeps_ret keeps_throw keeps_lift keeps_gets keeps_get keeps_get_level keeps_onLex : keeps.

Lemma zlen_one {A} (a : A) : zlen [a] = 1.
Proof. done. Qed.
Lemma zlen_removelast {A} (l : list A) : zlen (removelast l) = Z.max 0 (zlen l - 1).
Proof.
  destruct l as [|a l] using rev_ind; [done|]. rewrite removelast_last, zlen_app, zlen_one.
  pose proof (zlen_nonneg l). lia.
Qed.

(** A record of [fs_ok] after a change of some fields. *)
Ltac fs_ok_tac :=
  let H := fresh in
  intros ? H; destruct H; split; cbn; rewrite ?zlen_app, ?zlen_zupd, ?zlen_one, ?zlen_removelast; auto; try lia.

Ltac keeps_upd := apply keeps_upd_fs; fs_ok_tac.

Ltac keeps_step :=
  lazymatch goal with
  | |- keeps (mbind _ _) => apply keeps_bind; [|intro]
  | |- keeps (when _ _) => apply keeps_when
  | |- keeps (if ?b then _ else _) => destruct b
  | |- keeps (match ?x with _ => _ end) => destruct x
  | |- keeps (upd_fs _) => solve [keeps_upd | auto 1 with keeps nocore]
  | |- keeps get_fs => apply keeps_gets
  | |- keeps _ => solve [auto 1 with keeps nocore]
  end.
Ltac keeps := repeat (cbv zeta; keeps_step).

Section limits.
Context `{Krealloc} `{StringHash} `{KernelStrto}.

(** ** Memory and arrays *)

(** The functions are those of before. *)
Definition same_funcs (s s' : KS) : Prop :=
  ks_fs s' = ks_fs s /\ ks_prev s' = ks_prev s /\ ks_nCcalls s' = ks_nCcalls s.

Lemma same_funcs_ok s s' : same_funcs s s' -> ks_ok s -> step_ok s s'.
Proof. intros (Hf & Hp & Hn) Hs. split; [|by rewrite Hp]. unfold ks_ok. by rewrite Hf, Hp. Qed.

(** Only the counter of bytes changes. *)
Definition only_mem (s s' : KS) : Prop := exists n, s' = set_totalbytes n s.
Lemma only_mem_same s s' : only_mem s s' -> same_funcs s s'.
Proof. by intros [n ->]. Qed.

Lemma realloc_mem on n e s : wp (luaM_reallocv on n e) (fun _ s' => only_mem s s') (fun _ => True) s.
Proof.
  apply wp_true. intros a s'. unfold luaM_reallocv. case_if; [|done].
  intros ->%luaM_realloc_Ok. by eexists.
Qed.
Lemma realloc_same on n e s : wp (luaM_reallocv on n e) (fun _ s' => same_funcs s s') (fun _ => True) s.
Proof. eapply wp_mono; [apply realloc_mem| |done]. intros a s'. apply only_mem_same. Qed.

Lemma keeps_realloc on n e : keeps (luaM_reallocv on n e).
Proof. intros s Hs. eapply wp_mono; [apply realloc_same| |done]. intros a s' Hsame. by apply same_funcs_ok. Qed.
Lemma keeps_malloc t : keeps (luaM_malloc t).
Proof. intros s Hs. apply wp_true. intros a s' ->%luaM_realloc_Ok. by apply same_funcs_ok. Qed.

Lemma growvector_mem n size t limit e s :
  wp (luaM_growvector n size t limit e) (fun _ s' => only_mem s s') (fun _ => True) s.
Proof.
  apply wp_true. intros size' s'. unfold luaM_growvector. case_if; [|intros Hr; m_inv Hr; exists (totalbytes s'); by destruct s' as [[? ? ? ? ? ? [] ? ? ? ? ? ?] ? ? ?]].
  unfold luaM_growaux_. intros (n' & s1 & Hn & Hr)%bind_Ok_inv.
  assert (s1 = s) as -> by (destruct (size >=? limit / 2); [destruct (size >=? limit)|]; by m_inv Hn).
  apply bind_Ok_inv in Hr as ([] & s2 & Hs2 & Hr). pose proof (realloc_mem size n' t s) as Hs.
  unfold wp in Hs. rewrite Hs2 in Hs. by m_inv Hr.
Qed.

Lemma growvector_same n size t limit e s :
  wp (luaM_growvector n size t limit e) (fun _ s' => same_funcs s s') (fun _ => True) s.
Proof. eapply wp_mono; [apply growvector_mem| |done]. intros a s'. apply only_mem_same. Qed.

Lemma keeps_grow n size t limit e : keeps (luaM_growvector n size t limit e).
Proof. intros s Hs. eapply wp_mono; [apply growvector_same| |done]. intros a s' Hsame. by apply same_funcs_ok. Qed.

(** There is room for one more element. *)
Lemma growvector_ok n size t limit e s :
  0 <= n -> array_ok n size limit -> MINSIZEARRAY <= limit ->
  wp (luaM_growvector n size t limit e) (fun size' s' => array_ok (n + 1) size' limit /\ same_funcs s s') (fun _ => True) s.
Proof.
  unfold array_ok. intros Hn Ha Hm. apply wp_true. intros size' s' Hr.
  pose proof (growvector_same n size t limit e s) as Hsame. unfold wp in Hsame. rewrite Hr in Hsame. split; [|done].
  unfold luaM_growvector in Hr. destruct (n + 1 >? size) eqn:Hgt; b2p; [|m_inv Hr; lia].
  pose proof (luaM_growaux_bounds size t limit e s size' s' ltac:(lia) Hm Hr) as [Hb _]. lia.
Qed.

Lemma keeps_growvector {A} n size t limit e (k : FuncState -> Z -> M KS A) :
  (forall fs, fs_ok fs -> array_ok (n fs) (size fs) limit) -> (forall fs, 0 <= n fs) -> MINSIZEARRAY <= limit ->
  (forall s size', ks_ok s -> array_ok (n (ks_fs s) + 1) size' limit ->
    wp (k (ks_fs s) size') (fun _ s' => step_ok s s') (fun _ => True) s) ->
  keeps (fs ← get_fs; x ← luaM_growvector (n fs) (size fs) t limit e; k fs x).
Proof.
  intros Hok Hn Hm Hk. apply keeps_fs. intros s Hs.
  eapply wp_seq; [apply growvector_ok; [apply Hn|exact (Hok _ (proj1 Hs))|done]|].
  intros size' s' [Hs' Hsame]. pose proof (same_funcs_ok _ _ Hsame Hs) as Hst.
  destruct Hsame as (Hf & _). rewrite <- Hf. rewrite <- Hf in Hs'.
  eapply wp_mono; [apply Hk; [apply Hst|exact Hs']| |done]. intros a s'' Ha'. by eapply step_ok_trans.
Qed.

#[local] Hint Resolve keeps_realloc keeps_malloc keeps_grow : keeps.

(** ** The code generator *)

(** An error does not return. *)
Lemma lexerror_throws {A} msg token ls : exists e ls', luaX_lexerror (A:=A) msg token ls = (Err e, ls').
Proof.
  unfold luaX_lexerror. destruct (token =? 0); [by do 2 eexists|]. unfold mbind, M_bind.
  destruct (txtToken token ls) as [[t|e] ls']; by do 2 eexists.
Qed.
Lemma wp_syntaxerror {A} msg (Q : A -> KS -> Prop) s : wp (syntaxerror msg) Q (fun _ => True) s.
Proof.
  unfold wp, syntaxerror, onLex, luaX_syntaxerror. unfold mbind, M_bind, get.
  destruct (lexerror_throws (A:=A) msg (tk_token (ls_t (ks_ls s))) (ks_ls s)) as (e & ls' & ->). done.
Qed.

Lemma keeps_syntaxerror {A} msg : keeps (syntaxerror (A:=A) msg).
Proof. apply keeps_onLex. Qed.
Lemma keeps_code_at pc : keeps (code_at pc).
Proof. unfold code_at. keeps. Qed.
Lemma keeps_getcode e : keeps (getcode e).
Proof. apply keeps_code_at. Qed.
#[local] Hint Resolve keeps_syntaxerror keeps_code_at keeps_getcode : keeps.
Lemma keeps_set_code_at pc f : keeps (set_code_at pc f).
Proof. unfold set_code_at. keeps. Qed.
#[local] Hint Resolve keeps_set_code_at : keeps.
Lemma keeps_fixjump pc dest : keeps (fixjump pc dest).
Proof. unfold fixjump. keeps. Qed.
Lemma keeps_getlabel : keeps luaK_getlabel.
Proof. unfold luaK_getlabel. keeps. Qed.
Lemma keeps_getjump pc : keeps (getjump pc).
Proof. unfold getjump. keeps. Qed.
Lemma keeps_getjumpcontrol pc : keeps (getjumpcontrol pc).
Proof. unfold getjumpcontrol, test_mode. keeps. Qed.
#[local] Hint Resolve keeps_fixjump keeps_getlabel keeps_getjump keeps_getjumpcontrol : keeps.
Lemma keeps_need_value list : keeps (need_value list).
Proof.
  apply keeps_bind; [apply keeps_gets|intros fs]. generalize (list_fuel fs). intros n. revert list.
  induction n; intros; cbn [need_value_loop]; keeps.
Qed.
Lemma keeps_patchtestreg node reg : keeps (patchtestreg node reg).
Proof. unfold patchtestreg. keeps. Qed.
#[local] Hint Resolve keeps_need_value keeps_patchtestreg : keeps.
Lemma keeps_removevalues list : keeps (removevalues list).
Proof.
  apply keeps_bind; [apply keeps_gets|intros fs]. generalize (list_fuel fs). intros n. revert list.
  induction n; intros; cbn [removevalues_loop]; keeps.
Qed.
Lemma keeps_patchlistaux list vtarget reg dtarget : keeps (patchlistaux list vtarget reg dtarget).
Proof.
  apply keeps_bind; [apply keeps_gets|intros fs]. generalize (list_fuel fs). intros n. revert list.
  induction n; intros; cbn [patchlist_loop]; keeps.
Qed.
Lemma keeps_last_loop n list : keeps (last_loop n list).
Proof. revert list. induction n; intros; cbn [last_loop]; keeps. Qed.
#[local] Hint Resolve keeps_removevalues keeps_patchlistaux keeps_last_loop : keeps.
Lemma keeps_concat l1 l2 : keeps (luaK_concat l1 l2).
Proof. unfold luaK_concat. keeps. Qed.
#[local] Hint Resolve keeps_concat : keeps.
Lemma keeps_dischargejpc : keeps dischargejpc.
Proof. unfold dischargejpc. keeps. Qed.
Lemma keeps_patchtohere list : keeps (luaK_patchtohere list).
Proof. unfold luaK_patchtohere. keeps. Qed.
#[local] Hint Resolve keeps_dischargejpc keeps_patchtohere : keeps.
Lemma keeps_patchlist list target : keeps (luaK_patchlist list target).
Proof. unfold luaK_patchlist. keeps. Qed.
Lemma keeps_code i line : keeps (luaK_code i line).
Proof. unfold luaK_code. keeps. Qed.
#[local] Hint Resolve keeps_patchlist keeps_code : keeps.
Lemma keeps_lastline : keeps lastline.
Proof. apply keeps_gets. Qed.
#[local] Hint Resolve keeps_lastline : keeps.
Lemma keeps_codeABC o a b c : keeps (luaK_codeABC o a b c).
Proof. unfold luaK_codeABC. keeps. Qed.
Lemma keeps_codeABx o a b : keeps (luaK_codeABx o a b).
Proof. unfold luaK_codeABx. keeps. Qed.
Lemma keeps_codeAsBx o a b : keeps (luaK_codeAsBx o a b).
Proof. apply keeps_codeABx. Qed.
Lemma keeps_fixline line : keeps (luaK_fixline line).
Proof. unfold luaK_fixline. keeps. Qed.
#[local] Hint Resolve keeps_codeABC keeps_codeABx keeps_codeAsBx keeps_fixline : keeps.
Lemma keeps_nil from n : keeps (luaK_nil from n).
Proof. unfold luaK_nil. keeps. Qed.
Lemma keeps_jump : keeps luaK_jump.
Proof. unfold luaK_jump. keeps. Qed.
Lemma keeps_luaK_ret first nret : keeps (luaK_ret first nret).
Proof. unfold luaK_ret. keeps. Qed.
#[local] Hint Resolve keeps_nil keeps_jump keeps_luaK_ret : keeps.
Lemma keeps_condjump op A B C : keeps (condjump op A B C).
Proof. unfold condjump. keeps. Qed.
#[local] Hint Resolve keeps_condjump : keeps.

(** The size of the stack grows, and stays below MAXSTACK. *)
Lemma keeps_checkstack n : keeps (luaK_checkstack n).
Proof.
  apply keeps_fs. intros s [Hs Hp]. apply wp_when; b2p.
  - intros Hn. b2p. apply wp_bind, wp_when.
    + intros Hm. apply wp_syntaxerror.
    + intros Hm. b2p. split; [|done]. split; [|done]. pose proof (fo_stack _ Hs). pose proof (fo_params _ Hs).
      assert (u8 (fs_freereg (ks_fs s) + n) = fs_freereg (ks_fs s) + n) as Hu.
      { apply uwrap_small. unfold in_u. unfold MAXSTACK in *. lia. }
      cbn. rewrite Hu. destruct Hs; split; cbn; try done; lia.
  - intros _. by apply step_ok_refl.
Qed.
#[local] Hint Resolve keeps_checkstack : keeps.
Lemma keeps_reserveregs n : keeps (luaK_reserveregs n).
Proof. unfold luaK_reserveregs. keeps. Qed.
Lemma keeps_freereg reg : keeps (freereg reg).
Proof. unfold freereg. keeps. Qed.
#[local] Hint Resolve keeps_reserveregs keeps_freereg : keeps.
Lemma keeps_freeexp e : keeps (freeexp e).
Proof. unfold freeexp. keeps. Qed.
#[local] Hint Resolve keeps_freeexp : keeps.

Lemma keeps_addk k v : keeps (addk k v).
Proof.
  apply keeps_fs. intros s Hs. apply wp_bind, wp_true. intros idx s1 Hr. unfold onLex in Hr.
  destruct (on_h _ (ks_ls s)) as [r ls]. injection Hr as Hr <-. set (s1 := set_ls ls s).
  assert (Hs1 : step_ok s s1) by (split; [exact Hs|done]).
  assert (Hgo : wp (size ← luaM_growvector (fs_nk (ks_fs s)) (f_sizek (ks_fs s)) sizeof_TValue MAXARG_Bx "constant table overflow";
      upd_fs (fun fs => set_f_sizek size (set_f_k (f_k fs ++ [v]) fs));; mret (fs_nk (ks_fs s)))
    (fun _ s' => step_ok s s') (fun _ => True) s1).
  { eapply wp_seq; [apply growvector_ok; [apply zlen_nonneg|apply Hs|done]|].
    intros size s2 [Ha Hsame]. pose proof (same_funcs_ok _ _ Hsame (proj1 Hs1)) as Hs2.
    destruct Hsame as (Hf & Hp & Hn). apply wp_bind. split; [|cbn; by rewrite Hn, Hp].
    split; [|apply Hs2]. cbn. rewrite Hf. destruct (proj1 Hs). split; cbn; auto.
    rewrite zlen_app. exact Ha. }
  destruct idx; try exact Hgo. by apply Hs1.
Qed.
#[local] Hint Resolve keeps_addk : keeps.
Lemma keeps_stringK ts : keeps (luaK_stringK ts).
Proof. apply keeps_addk. Qed.
Lemma keeps_numberK r : keeps (luaK_numberK r).
Proof. apply keeps_addk. Qed.
Lemma keeps_boolK b : keeps (boolK b).
Proof. apply keeps_addk. Qed.
Lemma keeps_nilK : keeps nilK.
Proof. unfold nilK. keeps. Qed.
#[local] Hint Resolve keeps_stringK keeps_numberK keeps_boolK keeps_nilK : keeps.
Lemma keeps_setreturns e n : keeps (luaK_setreturns e n).
Proof. unfold luaK_setreturns. keeps. Qed.
#[local] Hint Resolve keeps_setreturns : keeps.
Lemma keeps_setoneret e : keeps (luaK_setoneret e).
Proof. unfold luaK_setoneret. keeps. Qed.
#[local] Hint Resolve keeps_setoneret : keeps.
Lemma keeps_dischargevars e : keeps (luaK_dischargevars e).
Proof. unfold luaK_dischargevars. keeps. Qed.
#[local] Hint Resolve keeps_dischargevars : keeps.
Lemma keeps_code_label A b j : keeps (code_label A b j).
Proof. unfold code_label. keeps. Qed.
#[local] Hint Resolve keeps_code_label : keeps.
Lemma keeps_discharge2reg e reg : keeps (discharge2reg e reg).
Proof. unfold discharge2reg. keeps. Qed.
#[local] Hint Resolve keeps_discharge2reg : keeps.
Lemma keeps_discharge2anyreg e : keeps (discharge2anyreg e).
Proof. unfold discharge2anyreg. keeps. Qed.
#[local] Hint Resolve keeps_discharge2anyreg : keeps.
Lemma keeps_exp2reg e reg : keeps (exp2reg e reg).
Proof. unfold exp2reg. keeps. Qed.
#[local] Hint Resolve keeps_exp2reg : keeps.
Lemma keeps_exp2nextreg e : keeps (luaK_exp2nextreg e).
Proof. unfold luaK_exp2nextreg. keeps. Qed.
#[local] Hint Resolve keeps_exp2nextreg : keeps.
Lemma keeps_exp2anyreg e : keeps (luaK_exp2anyreg e).
Proof. unfold luaK_exp2anyreg. keeps. Qed.
#[local] Hint Resolve keeps_exp2anyreg : keeps.
Lemma keeps_exp2val e : keeps (luaK_exp2val e).
Proof. unfold luaK_exp2val. keeps. Qed.
#[local] Hint Resolve keeps_exp2val : keeps.
Lemma keeps_exp2RK e : keeps (luaK_exp2RK e).
Proof. unfold luaK_exp2RK. keeps. Qed.
#[local] Hint Resolve keeps_exp2RK : keeps.
Lemma keeps_storevar v e : keeps (luaK_storevar v e).
Proof. unfold luaK_storevar. keeps. Qed.
#[local] Hint Resolve keeps_storevar : keeps.
Lemma keeps_self e k : keeps (luaK_self e k).
Proof. unfold luaK_self. keeps. Qed.
#[local] Hint Resolve keeps_self : keeps.
Lemma keeps_invertjump e : keeps (invertjump e).
Proof. unfold invertjump. keeps. Qed.
#[local] Hint Resolve keeps_invertjump : keeps.
Lemma keeps_drop_pc : keeps (drop_pc).
Proof. unfold drop_pc. keeps. Qed.
#[local] Hint Resolve keeps_drop_pc : keeps.
Lemma keeps_jumponcond e c : keeps (jumponcond e c).
Proof. unfold jumponcond. keeps. Qed.
#[local] Hint Resolve keeps_jumponcond : keeps.
Lemma keeps_goiftrue e : keeps (luaK_goiftrue e).
Proof. unfold luaK_goiftrue. keeps. Qed.
#[local] Hint Resolve keeps_goiftrue : keeps.
Lemma keeps_goiffalse e : keeps (luaK_goiffalse e).
Proof. unfold luaK_goiffalse. keeps. Qed.
#[local] Hint Resolve keeps_goiffalse : keeps.
Lemma keeps_codenot e : keeps (codenot e).
Proof. unfold codenot. keeps. Qed.
#[local] Hint Resolve keeps_codenot : keeps.
Lemma keeps_indexed t k : keeps (luaK_indexed t k).
Proof. unfold luaK_indexed. keeps. Qed.
#[local] Hint Resolve keeps_indexed : keeps.
Lemma keeps_codearith op e1 e2 : keeps (codearith op e1 e2).
Proof. unfold codearith. keeps. Qed.
#[local] Hint Resolve keeps_codearith : keeps.
Lemma keeps_codecomp op c e1 e2 : keeps (codecomp op c e1 e2).
Proof. unfold codecomp. keeps. Qed.
#[local] Hint Resolve keeps_codecomp : keeps.
Lemma keeps_prefix op e : keeps (luaK_prefix op e).
Proof. unfold luaK_prefix. keeps. Qed.
#[local] Hint Resolve keeps_prefix : keeps.
Lemma keeps_infix op e : keeps (luaK_infix op e).
Proof. unfold luaK_infix. keeps. Qed.
#[local] Hint Resolve keeps_infix : keeps.
Lemma keeps_posfix op e1 e2 : keeps (luaK_posfix op e1 e2).
Proof. unfold luaK_posfix. keeps. Qed.
#[local] Hint Resolve keeps_posfix : keeps.
Lemma keeps_setlist a b c : keeps (luaK_setlist a b c).
Proof. unfold luaK_setlist. keeps. Qed.
#[local] Hint Resolve keeps_setlist : keeps.
End limits.

#[export] Hint Resolve keeps_realloc keeps_malloc keeps_grow keeps_syntaxerror keeps_code_at keeps_getcode keeps_set_code_at
  keeps_fixjump keeps_getlabel keeps_getjump keeps_getjumpcontrol keeps_need_value keeps_patchtestreg
  keeps_removevalues keeps_patchlistaux keeps_last_loop keeps_concat keeps_dischargejpc
  keeps_patchtohere keeps_patchlist keeps_code keeps_lastline keeps_codeABC keeps_codeABx
  keeps_codeAsBx keeps_fixline keeps_nil keeps_jump keeps_luaK_ret keeps_condjump keeps_checkstack
  keeps_reserveregs keeps_freereg keeps_freeexp keeps_addk keeps_stringK keeps_numberK keeps_boolK
  keeps_nilK keeps_setreturns keeps_setoneret keeps_dischargevars keeps_code_label keeps_discharge2reg
  keeps_discharge2anyreg keeps_exp2reg keeps_exp2nextreg keeps_exp2anyreg keeps_exp2val keeps_exp2RK
  keeps_storevar keeps_self keeps_invertjump keeps_drop_pc keeps_jumponcond keeps_goiftrue
  keeps_goiffalse keeps_codenot keeps_indexed keeps_codearith keeps_codecomp keeps_prefix keeps_infix
  keeps_posfix keeps_setlist : keeps.
