(* ===== verification/ParserOk.v ===== *)
(** * ParserOk.v: the parser keeps the limits

    The operations of lparser.c preserve the invariant of ParserLimits.v, and
    what the parser returns satisfies [proto_ok]. *)

From Stdlib Require Import Ascii.
From S2P Require Import Prelude Machine Opcodes Object Mem Zio Debug Str Table Lex Code Parser ParserLimits.

Section parser_ok.
Context `{Krealloc} `{StringHash} `{KernelStrto}.

(** ** Tokens and variables *)

Lemma keeps_token : keeps token.
Proof. apply keeps_gets. Qed.
Lemma keeps_linenumber : keeps linenumber.
Proof. apply keeps_gets. Qed.
Lemma keeps_loop_fuel : keeps loop_fuel.
Proof. apply keeps_gets. Qed.
Lemma keeps_nextToken : keeps nextToken.
Proof. apply keeps_onLex. Qed.
Lemma keeps_setmultret e : keeps (luaK_setmultret e).
Proof. apply keeps_setreturns. Qed.
#[local] Hint Resolve keeps_token keeps_linenumber keeps_loop_fuel keeps_nextToken keeps_setmultret : keeps.
Lemma keeps_seminfo_ts : keeps seminfo_ts.
Proof. unfold seminfo_ts. keeps. Qed.
Lemma keeps_seminfo_r : keeps seminfo_r.
Proof. unfold seminfo_r. keeps. Qed.
#[local] Hint Resolve keeps_seminfo_ts keeps_seminfo_r : keeps.
Lemma keeps_anchor_token : keeps anchor_token.
Proof. unfold anchor_token. keeps. Qed.
Lemma keeps_error_expected {A} t : keeps (error_expected (A:=A) t).
Proof. apply keeps_syntaxerror. Qed.
Lemma keeps_errorlimit {A} fs l m : keeps (errorlimit (A:=A) fs l m).
Proof. apply keeps_onLex. Qed.
#[local] Hint Resolve keeps_anchor_token keeps_error_expected keeps_errorlimit : keeps.
Lemma keeps_checklimit fs v l m : keeps (luaY_checklimit fs v l m).
Proof. unfold luaY_checklimit. keeps. Qed.
Lemma keeps_testnext c : keeps (testnext c).
Proof. unfold testnext. keeps. Qed.
Lemma keeps_check_token c : keeps (check_token c).
Proof. unfold check_token. keeps. Qed.
#[local] Hint Resolve keeps_checklimit keeps_testnext keeps_check_token : keeps.
Lemma keeps_checknext c : keeps (checknext c).
Proof. unfold checknext. keeps. Qed.
Lemma keeps_check_condition c m : keeps (check_condition c m).
Proof. unfold check_condition. keeps. Qed.
Lemma keeps_check_match a b c : keeps (check_match a b c).
Proof. unfold check_match. keeps. Qed.
Lemma keeps_str_checkname : keeps str_checkname.
Proof. unfold str_checkname. keeps. Qed.
Lemma keeps_codestring ts : keeps (codestring ts).
Proof. unfold codestring. keeps. Qed.
#[local] Hint Resolve keeps_checknext keeps_check_condition keeps_check_match keeps_str_checkname keeps_codestring : keeps.
Lemma keeps_checkname : keeps checkname.
Proof. unfold checkname. keeps. Qed.
#[local] Hint Resolve keeps_checkname : keeps.

Lemma keeps_registerlocalvar name : keeps (registerlocalvar name).
Proof.
  apply (keeps_growvector fs_nlocvars f_sizelocvars); [intros fs Hfs; apply Hfs|intros fs; apply zlen_nonneg|done|].
  intros s size [Hs Hp] Ha. apply wp_bind. split; [|done]. split; [|done]. cbn.
  destruct Hs; split; cbn; auto. by rewrite zlen_app.
Qed.
#[local] Hint Resolve keeps_registerlocalvar : keeps.
Lemma keeps_new_localvar name n : keeps (new_localvar name n).
Proof. unfold new_localvar. keeps. Qed.
#[local] Hint Resolve keeps_new_localvar : keeps.
Lemma keeps_new_localvarliteral v n : keeps (new_localvarliteral v n).
Proof. unfold new_localvarliteral. keeps. Qed.
#[local] Hint Resolve keeps_new_localvarliteral : keeps.

(** A change of one local variable. *)
Lemma set_locvar_Ok i f fs fs' :
  set_locvar i f fs = Ok fs' -> exists l, zlen l = zlen (f_locvars fs) /\ fs' = set_f_locvars l fs.
Proof.
  unfold set_locvar. intros (a & Ha & Hr)%result_bind_Ok. apply result_bind_Ok in Hr as (lv & Hlv & Hr).
  injection Hr as <-. eexists. split; [|done]. apply zlen_zupd.
Qed.

Lemma keeps_upd_locvar i f : keeps (upd_locvar i f).
Proof.
  apply keeps_fs. intros s [Hs Hp]. apply wp_bind. unfold wp, lift.
  destruct (set_locvar i f (ks_fs s)) as [fs|] eqn:Hset; [|done].
  apply set_locvar_Ok in Hset as (l & Hl & ->). split; [|done]. split; [|done]. cbn.
  destruct Hs; split; cbn; rewrite ?Hl; auto.
Qed.
#[local] Hint Resolve keeps_upd_locvar : keeps.
Lemma keeps_adjustlocalvars n : keeps (adjustlocalvars n).
Proof.
  unfold adjustlocalvars. keeps. generalize (Z.to_nat n). intros k. induction k as [|k IH]; cbn [adjust_loop]; keeps.
Qed.
Lemma keeps_removevars n : keeps (removevars n).
Proof.
  unfold removevars. keeps. generalize (Z.to_nat (fs_nactvar a - n)). intros k.
  induction k as [|k IH]; cbn [removevars_loop]; keeps.
Qed.
#[local] Hint Resolve keeps_adjustlocalvars keeps_removevars : keeps.

(** The function at a level. *)
Definition at_level (d : nat) (s : KS) : option FuncState :=
  match d with O => Some (ks_fs s) | S d => fst <$> (ks_prev s !! d) end.

Lemma at_level_ok d s fs : ks_ok s -> at_level d s = Some fs -> fs_ok fs.
Proof.
  intros [Hs Hp]. destruct d as [|d]; cbn; [by intros [= <-]|].
  intros ([fs' h] & Hl & ->)%fmap_Some. exact (Forall_lookup_1 _ _ _ _ Hp Hl).
Qed.

Lemma upd_level_ok d f s :
  ks_ok s -> (forall fs, at_level d s = Some fs -> fs_ok fs -> fs_ok (f fs)) ->
  wp (upd_level d f) (fun _ s' => step_ok s s') (fun _ => True) s.
Proof.
  intros [Hs Hp] Hf. destruct d as [|d].
  - split; [|done]. split; [by apply Hf|done].
  - split; [|split; [done|apply (length_alter (fun p => (f p.1, p.2)))]]. split; [done|].
    apply Forall_alter; [done|]. intros x Hx. apply Hf. cbn. by rewrite Hx.
Qed.

Lemma keeps_markupval d v : keeps (upd_level d (markupval v)).
Proof. intros s Hs. apply upd_level_ok; [done|]. intros fs _. revert fs. fs_ok_tac. Qed.
#[local] Hint Resolve keeps_markupval : keeps.

Lemma keeps_indexupvalue d name v : keeps (indexupvalue d name v).
Proof.
  intros s Hs. unfold indexupvalue, wp, mbind at 1, M_bind at 1.
  assert (Hl : get_level d s = (of_option "enclosing function" (at_level d s), s)) by (by destruct d).
  rewrite Hl. destruct (at_level d s) as [fs|] eqn:Hfs; [|done]. cbn [of_option].
  destruct (find_upvalue fs v); [by apply step_ok_refl|].
  pose proof (at_level_ok _ _ _ Hs Hfs) as Hok. unfold luaY_checklimit. destruct (f_nups fs + 1 >? LUAI_MAXUPVALUES) eqn:Hlim; b2p.
  - unfold errorlimit, when, onLex. unfold mbind, M_bind.
    match goal with |- context [luaX_lexerror ?m ?t ?ls] => destruct (lexerror_throws (A:=unit) m t ls) as (e & ls' & ->) end.
    done.
  - unfold when. apply wp_bind. apply wp_ret. eapply wp_seq; [apply growvector_same|].
    intros size s' Hsame. pose proof (same_funcs_ok _ _ Hsame Hs) as Hstep. apply wp_bind.
    eapply wp_mono; [apply upd_level_ok; [apply Hstep|]| |done].
    + intros fs' Hfs' _. assert (fs' = fs) as ->.
      { destruct Hsame as (Hf & Hp & _). destruct d; cbn in *; rewrite ?Hf, ?Hp in Hfs'; congruence. }
      destruct Hok. split; cbn; auto; rewrite !zlen_app, !zlen_one; [congruence|]. unfold f_nups in *. lia.
    + intros [] s'' Hs''. apply wp_ret. by eapply step_ok_trans.
Qed.
#[local] Hint Resolve keeps_indexupvalue : keeps.

Lemma keeps_singlevaraux levels d n base : keeps (singlevaraux levels d n base).
Proof. revert d base. induction levels; intros; cbn [singlevaraux]; keeps. Qed.
#[local] Hint Resolve keeps_singlevaraux : keeps.
Lemma keeps_singlevar : keeps singlevar.
Proof. unfold singlevar. keeps. Qed.
Lemma keeps_adjust_assign a b e : keeps (adjust_assign a b e).
Proof. unfold adjust_assign. keeps. Qed.
Lemma keeps_enterblock b : keeps (enterblock b).
Proof. unfold enterblock. keeps. Qed.
Lemma keeps_leaveblock : keeps leaveblock.
Proof. unfold leaveblock. keeps. Qed.
Lemma keeps_code_upvalues us : keeps (code_upvalues us).
Proof. induction us; cbn [code_upvalues]; keeps. Qed.
#[local] Hint Resolve keeps_singlevar keeps_adjust_assign keeps_enterblock keeps_leaveblock keeps_code_upvalues : keeps.

(** ** Functions *)

Lemma keeps_pushclosure func : proto_ok (proto_of func) -> keeps (pushclosure func).
Proof.
  intros Hf. apply (keeps_growvector fs_np f_sizep); [intros fs Hfs; apply Hfs|intros fs; apply zlen_nonneg|done|].
  intros s size [Hs Hp] Ha. apply wp_bind.
  match goal with |- wp _ ?Q _ _ => enough (Hst : step_ok s (set_fs (set_f_sizep size (set_f_p (f_p (ks_fs s) ++ [proto_of func]) (ks_fs s))) s)) end.
  - apply (wp_keeps (fs ← get_fs; pc ← luaK_codeABx OP_CLOSURE 0 (fs_np fs - 1); code_upvalues (fs_upvalues func);; mret (init_exp VRELOCABLE pc))); [keeps|exact Hst].
  - split; [|done]. split; [|done]. cbn. destruct Hs; split; cbn; auto.
    + by rewrite zlen_app.
    + apply Forall_app. by split; [|constructor].
Qed.


(** *** Parameters

    While the parameters are read, the registers, the active variables and the
    number of parameters stay. *)

Definition regs (s : KS) : Z * Z * Z := (fs_freereg (ks_fs s), fs_nactvar (ks_fs s), f_numparams (ks_fs s)).

Definition framed {A} (m : M KS A) : Prop := forall s, wp m (fun _ s' => regs s' = regs s) (fun _ => True) s.

Lemma framed_bind {A B} (m : M KS A) (k : A -> M KS B) : framed m -> (forall a, framed (k a)) -> framed (m ≫= k).
Proof.
  intros Hm Hk s. eapply wp_seq; [apply Hm|]. intros a s' Hs'. eapply wp_mono; [apply Hk| |done].
  intros b s'' Hs''. congruence.
Qed.
Lemma framed_gets {A} (f : KS -> A) : framed (gets f).
Proof. done. Qed.
Lemma framed_ret {A} (a : A) : framed (mret a).
Proof. done. Qed.
Lemma framed_onLex {A} (m : M LexState A) : framed (onLex m).
Proof. intros s. unfold wp, onLex. by destruct (m (ks_ls s)) as [[a|e] ls]. Qed.
Lemma framed_lift {A} (r : result A) : framed (lift r).
Proof. intros s. by destruct r. Qed.
Lemma framed_when b (m : M KS unit) : framed m -> framed (when b m).
Proof. by destruct b. Qed.
Lemma framed_grow n size t limit e : framed (luaM_growvector n size t limit e).
Proof. intros s. eapply wp_mono; [apply growvector_same| |done]. intros a s' (Hf & _). unfold regs. by rewrite Hf. Qed.
Lemma framed_upd_fs f :
  (forall fs, fs_freereg (f fs) = fs_freereg fs /\ fs_nactvar (f fs) = fs_nactvar fs /\ f_numparams (f fs) = f_numparams fs) ->
  framed (upd_fs f).
Proof. intros Hf s. unfold wp, upd_fs, modify, regs. cbn. by destruct (Hf (ks_fs s)) as (-> & -> & ->). Qed.

Lemma framed_testnext c : framed (testnext c).
Proof.
  unfold testnext. apply framed_bind; [apply framed_gets|intros t]. destruct (t =? c); [|apply framed_ret].
  apply framed_bind; [apply framed_onLex|intros []; apply framed_ret].
Qed.
Lemma framed_str_checkname : framed str_checkname.
Proof.
  unfold str_checkname, check_token. apply framed_bind.
  - apply framed_bind; [apply framed_gets|intros t]. apply framed_when, framed_onLex.
  - intros []. apply framed_bind.
    + intros s. unfold wp, seminfo_ts, mbind, M_bind, get. by destruct (tk_seminfo _).
    + intros ts. apply framed_bind; [apply framed_onLex|intros []; apply framed_ret].
Qed.

(** The new variable is among the LUAI_MAXVARS. *)
Lemma new_localvar_wp name n s :
  ks_ok s ->
  wp (new_localvar name n) (fun _ s' => step_ok s s' /\ regs s' = regs s /\ fs_nactvar (ks_fs s) + n + 1 <= LUAI_MAXVARS)
    (fun _ => True) s.
Proof.
  intros Hs. apply wp_and; [by apply keeps_new_localvar|]. unfold new_localvar, luaY_checklimit.
  apply wp_gets. destruct (_ >? LUAI_MAXVARS) eqn:Hlim; b2p.
  - unfold errorlimit, when, onLex, wp. unfold mbind, M_bind.
    match goal with |- context [luaX_lexerror ?m ?t ?ls] => destruct (lexerror_throws (A:=unit) m t ls) as (e & ls' & ->) end.
    done.
  - unfold when. apply wp_bind, wp_ret. eapply wp_mono; [|intros a s' Hr; split; [exact Hr|lia]|done].
    apply framed_bind.
    + unfold registerlocalvar. apply framed_bind; [apply framed_gets|intros fs].
      apply framed_bind; [apply framed_grow|intros size]. apply framed_bind; [by apply framed_upd_fs|intros []; apply framed_ret].
    + intros r. apply framed_bind; [apply framed_lift|intros i]. by apply framed_upd_fs.
Qed.

Lemma new_localvarliteral_wp v n s :
  ks_ok s ->
  wp (new_localvarliteral v n)
    (fun _ s' => step_ok s s' /\ regs s' = regs s /\ fs_nactvar (ks_fs s) + n + 1 <= LUAI_MAXVARS) (fun _ => True) s.
Proof.
  intros Hs. unfold new_localvarliteral. eapply wp_seq; [apply wp_and; [by apply keeps_onLex|apply framed_onLex]|].
  intros ts s1 [Hs1 Hr]. eapply wp_mono; [apply new_localvar_wp, Hs1| |done].
  intros [] s2 (Hs2 & Hr2 & Hn). split; [by eapply step_ok_trans|]. split; [congruence|].
  unfold regs in Hr. congruence.
Qed.

(** Only the descriptions of local variables change. *)
Lemma adjust_loop_wp k s :
  wp (adjust_loop k) (fun _ s' => exists l, ks_fs s' = set_f_locvars l (ks_fs s)) (fun _ => True) s.
Proof.
  revert s. induction k as [|k IH]; intros s; cbn [adjust_loop].
  - apply wp_ret. exists (f_locvars (ks_fs s)). by destruct (ks_fs s).
  - apply wp_gets. unfold upd_locvar. apply wp_assoc, wp_gets. apply wp_bind. unfold wp at 1, lift, mbind, M_bind.
    destruct (set_locvar _ _ (ks_fs s)) as [fs'|e] eqn:Hset; [|done].
    apply set_locvar_Ok in Hset as (l & _ & ->). cbn. eapply wp_mono; [apply IH| |done].
    intros [] s' (l' & ->). by exists l'.
Qed.

Lemma adjustlocalvars_wp n s :
  ks_ok s ->
  wp (adjustlocalvars n) (fun _ s' => step_ok s s' /\ fs_freereg (ks_fs s') = fs_freereg (ks_fs s) /\
    fs_nactvar (ks_fs s') = u8 (fs_nactvar (ks_fs s) + n) /\ f_is_vararg (ks_fs s') = f_is_vararg (ks_fs s) /\
    f_numparams (ks_fs s') = f_numparams (ks_fs s))
    (fun _ => True) s.
Proof.
  intros Hs. apply wp_and; [by apply keeps_adjustlocalvars|]. unfold adjustlocalvars. apply wp_modify.
  eapply wp_mono; [apply adjust_loop_wp| |done]. by intros [] s' (l & ->).
Qed.

(** A parameter, or `...' with its hidden one. *)
Lemma param_wp t n s :
  ks_ok s -> f_numparams (ks_fs s) = 0 ->
  wp (if t =? TK_NAME then ts ← str_checkname; new_localvar ts n
      else if t =? TK_DOTS then
        nextToken;;
        new_localvarliteral "arg" n;;
        upd_fs (set_f_is_vararg (Z.lor VARARG_HASARG VARARG_NEEDSARG));;
        upd_fs (fun fs => set_f_is_vararg (Z.lor (f_is_vararg fs) VARARG_ISVARARG) fs)
      else syntaxerror "<name> or '...' expected")
    (fun _ s' => step_ok s s' /\ regs s' = regs s /\ fs_nactvar (ks_fs s) + n + 1 <= LUAI_MAXVARS) (fun _ => True) s.
Proof.
  intros Hs Hp0. case_if; [|case_if].
  - eapply wp_seq; [apply wp_and; [by apply keeps_str_checkname|apply framed_str_checkname]|].
    intros ts s1 [Hs1 Hr]. eapply wp_mono; [apply new_localvar_wp, Hs1| |done].
    intros [] s2 (Hs2 & Hr2 & Hn). split; [by eapply step_ok_trans|]. unfold regs in *. split; congruence.
  - eapply wp_seq; [apply wp_and; [by apply keeps_nextToken|apply framed_onLex]|]. intros [] s1 [Hs1 Hr1].
    eapply wp_seq; [apply new_localvarliteral_wp, Hs1|]. intros [] s2 (Hs2 & Hr2 & Hn).
    apply wp_bind. unfold regs in *.
    assert (Hnum : f_numparams (ks_fs s2) = 0) by congruence.
    split; [|split; [by cbn; rewrite Hr2, Hr1|congruence]].
    eapply step_ok_trans; [exact Hs1|]. eapply step_ok_trans; [exact Hs2|]. split; [|done].
    destruct Hs2 as ([Hf Hp] & _). split; [|done]. destruct Hf. split; cbn; auto.
    + unfold vararg_ok. cbn. tauto.
    + rewrite Hnum. change (0 + 1 <= f_maxstacksize (ks_fs s2)). lia.
  - apply wp_syntaxerror.
Qed.

(** However many parameters: one at least, and at most LUAI_MAXVARS. *)
Lemma parlist_loop_wp fuel n s :
  ks_ok s -> f_numparams (ks_fs s) = 0 -> 0 <= n ->
  wp (parlist_loop fuel n) (fun m s' => step_ok s s' /\ regs s' = regs s /\ n + 1 <= m /\
    fs_nactvar (ks_fs s) + m <= LUAI_MAXVARS) (fun _ => True) s.
Proof.
  revert n s. induction fuel as [|fuel IH]; intros n s Hs Hp0 Hn; cbn [parlist_loop]; [done|].
  apply wp_gets. eapply wp_seq; [by apply param_wp|]. intros [] s1 (Hs1 & Hr1 & Hm1).
  apply wp_gets.
  apply (wp_seq _ _ (fun _ s2 => step_ok s1 s2 /\ regs s2 = regs s1)).
  { case_if; [|split; [apply step_ok_refl, Hs1|done]].
    apply wp_and; [apply keeps_testnext, Hs1|apply framed_testnext]. }
  intros b s2 [Hs2 Hr2]. pose proof (step_ok_trans _ _ _ Hs1 Hs2) as Hs12. unfold regs in *.
  destruct b; [|split; [done|]; split; [congruence|lia]].
  eapply wp_mono; [apply IH; [apply Hs2|congruence|lia]| |done]. intros m s3 (Hs3 & Hr3 & Hm3 & Hm3').
  split; [by eapply step_ok_trans|]. split; [congruence|]. split; [lia|]. congruence.
Qed.

(** Registers for the parameters, the hidden one included. *)
Lemma reserve_params_wp s a :
  ks_ok s -> fs_freereg (ks_fs s) = 0 -> fs_nactvar (ks_fs s) = a -> Z.land (f_is_vararg (ks_fs s)) VARARG_HASARG <= a ->
  0 <= Z.land (f_is_vararg (ks_fs s)) VARARG_HASARG -> a < 256 ->
  wp (upd_fs (fun fs => set_f_numparams (u8 (fs_nactvar fs - Z.land (f_is_vararg fs) VARARG_HASARG)) fs);;
      fs ← get_fs;
      luaK_reserveregs (fs_nactvar fs)) (fun _ s' => step_ok s s') (fun _ => True) s.
Proof.
  intros [Hs Hp] Hfree Ha Hh Hh0 Ha8. apply wp_modify, wp_gets. unfold luaK_reserveregs, luaK_checkstack.
  apply wp_assoc, wp_gets. cbn [ks_fs set_fs fs_nactvar fs_freereg f_maxstacksize set_f_numparams].
  rewrite Hfree, Ha. pose proof (fo_stack _ Hs). set (h := Z.land _ _) in *.
  assert (Hu : u8 (a - h) = a - h) by (apply uwrap_small; unfold in_u; lia).
  destruct (0 + a >? f_maxstacksize (ks_fs s)) eqn:Hgt; b2p; cbn [when].
  - apply wp_assoc. destruct (0 + a >=? MAXSTACK) eqn:Hmax; b2p; cbn [when].
    + apply wp_bind, wp_syntaxerror.
    + apply wp_bind, wp_ret, wp_modify. split; [|done]. split; [|done]. cbn. rewrite Hu.
      unfold MAXSTACK in *. assert (u8 (0 + a) = a) as -> by (apply uwrap_small; unfold in_u; lia).
      destruct Hs. split; cbn; auto; fold h; unfold MAXSTACK; lia.
  - apply wp_bind, wp_ret. split; [|done]. split; [|done]. cbn. rewrite Hu.
    destruct Hs. split; cbn; auto; fold h; lia.
Qed.

Lemma vararg_hasarg v : vararg_ok v -> 0 <= Z.land v VARARG_HASARG <= 1.
Proof. intros [->|[->|[->|[->|[->| ->]]]]]; split; by vm_compute. Qed.

Lemma parlist_wp s :
  ks_ok s -> fs_freereg (ks_fs s) = 0 -> 0 <= fs_nactvar (ks_fs s) <= 1 -> f_numparams (ks_fs s) = 0 ->
  wp parlist (fun _ s' => step_ok s s') (fun _ => True) s.
Proof.
  intros Hs Hfree Hact Hp0. unfold parlist. apply wp_modify.
  match goal with |- wp _ _ _ ?x => set (s1 := x) end.
  assert (Hs1 : step_ok s s1).
  { split; [|done]. destruct Hs as [Hf Hp]. split; [|done]. destruct Hf. split; cbn; auto; [by left|].
    rewrite Hp0. change (0 + 0 <= f_maxstacksize (ks_fs s)). lia. }
  apply wp_gets.
  apply (wp_seq _ _ (fun n s2 => step_ok s s2 /\ regs s2 = regs s1 /\
    (n = 0 /\ f_is_vararg (ks_fs s2) = 0 \/ 1 <= n /\ fs_nactvar (ks_fs s) + n <= LUAI_MAXVARS))).
  { destruct (negb _).
    - apply wp_gets. eapply wp_mono; [apply parlist_loop_wp; [apply Hs1|done|done]| |done].
      intros n s2 (Hs2 & Hr2 & Hn & Hn'). split; [exact (step_ok_trans _ _ _ Hs1 Hs2)|]. split; [done|]. right. by split.
    - apply wp_ret. split; [done|]. split; [done|]. by left. }
  intros n s2 (Hs2 & Hr2 & Hn). eapply wp_seq; [apply adjustlocalvars_wp, Hs2|].
  intros [] s3 (Hs3 & Hfree3 & Hact3 & Hva & Hnum).
  assert (regs s1 = regs s) as Hr1 by done. rewrite Hr1 in Hr2. unfold regs in Hr2. injection Hr2 as Hr2 Hr2' Hr2''.
  pose proof (vararg_hasarg _ (fo_vararg _ (proj1 (proj1 Hs3)))) as Hh. unfold LUAI_MAXVARS in Hn.
  assert (Hu : u8 (fs_nactvar (ks_fs s2) + n) = fs_nactvar (ks_fs s2) + n) by (apply uwrap_small; unfold in_u; lia).
  rewrite Hu in Hact3. eapply wp_mono; [apply (reserve_params_wp s3 (fs_nactvar (ks_fs s2) + n)); [apply Hs3|congruence|exact Hact3|..]| |done].
  - destruct Hn as [[-> Hv]|Hn]; [|lia]. rewrite Hva, Hv. change (Z.land 0 VARARG_HASARG) with 0. lia.
  - lia.
  - lia.
  - intros [] s4 Hs4. eapply step_ok_trans; [exact Hs2|]. by eapply step_ok_trans.
Qed.

(** *** Opening and closing *)

Lemma open_func_wp prev s :
  Forall (fun p => fs_ok (fst p)) prev ->
  wp (open_func prev) (fun _ s' => ks_ok s' /\ ks_prev s' = prev /\ ks_nCcalls s' = ks_nCcalls s /\ regs s' = (0, 0, 0))
    (fun _ => True) s.
Proof.
  intros Hp. apply wp_bind, wp_true. intros [] s1 ->%luaM_realloc_Ok. apply wp_modify.
  match goal with |- wp _ _ _ ?x => set (s2 := x) end.
  assert (Hs2 : ks_ok s2).
  { split; [|exact Hp]. split; cbn; try done. by left. }
  eapply wp_seq; [apply wp_and; [apply keeps_onLex, Hs2|apply wp_and; [apply framed_onLex|]]|].
  - instantiate (1 := fun _ s3 => ks_fs s3 = ks_fs s2 /\ ks_prev s3 = prev).
    unfold wp, onLex. by destruct (new_h _) as [[]].
  - intros h s3 (Hs3 & Hr3 & Hf3 & Hp3). destruct Hs3 as ([Hf Hp'] & Hn & _). split.
    + split; [|exact Hp']. destruct Hf. by split.
    + split; [exact Hp3|]. split; [exact Hn|]. unfold regs in *. cbn. by rewrite Hf3.
Qed.

(** The current function is [fs]; the others are those of [s0]. *)
Definition funcs_are (fs : FuncState) (s0 s : KS) : Prop :=
  ks_fs s = fs /\ ks_prev s = ks_prev s0 /\ ks_nCcalls s = ks_nCcalls s0.

Lemma shrink_step {A} on n e f fs s0 s (k : M KS A) Q :
  funcs_are fs s0 s -> (forall s', funcs_are (f fs) s0 s' -> wp k Q (fun _ => True) s') ->
  wp (luaM_reallocv on n e;; upd_fs f;; k) Q (fun _ => True) s.
Proof.
  intros (Hf & Hp & Hn) Hk. eapply wp_seq; [apply realloc_same|]. intros [] s' (Hf' & Hp' & Hn').
  apply wp_modify, Hk. split_and!; cbn; congruence.
Qed.

(** Every array gets the length of what is in it. *)
Lemma shrink_arrays_wp s :
  ks_ok s -> wp shrink_arrays (fun _ s' => step_ok s s' /\ f_code (ks_fs s') = f_code (ks_fs s)) (fun _ => True) s.
Proof.
  intros [Hs Hp]. apply wp_gets. assert (funcs_are (ks_fs s) s s) as Hare by done.
  eapply shrink_step; [exact Hare|intros s1 H1']. eapply shrink_step; [exact H1'|intros s2 H2'].
  eapply shrink_step; [exact H2'|intros s3 H3']. eapply shrink_step; [exact H3'|intros s4 H4'].
  eapply shrink_step; [exact H4'|intros s5 H5']. eapply wp_seq; [apply realloc_same|].
  intros [] s6 (Hf6 & Hp6 & Hn6). destruct H5' as (Hf & Hpr & Hn).
  split; [|cbn; by rewrite Hf6, Hf]. split; [|split; cbn; congruence]. split; [|cbn; congruence].
  cbn. rewrite Hf6, Hf. destruct Hs. unfold array_ok in *.
  split; cbn; unfold array_ok, fs_nk, fs_np, fs_nlocvars; auto; lia.
Qed.

(** The last instruction. *)
Lemma code_wp i line s :
  ks_ok s ->
  wp (luaK_code i line) (fun _ s' => step_ok s s' /\ exists c, f_code (ks_fs s') = c ++ [i]) (fun _ => True) s.
Proof.
  intros Hs. apply wp_and; [by apply keeps_code|]. unfold luaK_code.
  eapply wp_seq; [by apply keeps_dischargejpc|]. intros [] s1 Hs1. apply wp_gets.
  eapply wp_seq; [apply growvector_same|]. intros size s2 _. apply wp_modify.
  eapply wp_seq; [apply growvector_same|]. intros size' s3 _. apply wp_modify, wp_ret. by eexists.
Qed.

Lemma luaK_ret_wp first nret s :
  ks_ok s ->
  wp (luaK_ret first nret) (fun _ s' => step_ok s s' /\ exists c, f_code (ks_fs s') = c ++ [CREATE_ABC OP_RETURN first (nret + 1) 0])
    (fun _ => True) s.
Proof.
  intros Hs. unfold luaK_ret, luaK_codeABC. apply wp_assoc, wp_gets.
  eapply wp_seq; [by apply code_wp|]. intros pc s' Hs'. exact Hs'.
Qed.

(** The prototype passes the first test of the verifier. *)
Lemma proto_of_ok fs c :
  fs_ok fs -> f_code fs = c ++ [CREATE_ABC OP_RETURN 0 1 0] -> proto_ok (proto_of fs).
Proof.
  intros Hok Hc. pose proof (vararg_hasarg _ (fo_vararg _ Hok)) as Hva. destruct Hok. unfold array_ok in *.
  assert (Hlen : zlen (f_code fs) = zlen c + 1) by (by rewrite Hc, zlen_app).
  assert (Hup : zlen (map (fun ts => Some (ts_str ts)) (f_upvalues fs)) = zlen (f_upvalues fs)) by (unfold zlen; by rewrite length_map).
  split; cbn; auto; try lia.
  - unfold precheck, pt_sizeupvalues, pt_sizelineinfo, pt_sizecode. cbn [proto_of pt_maxstacksize pt_numparams pt_is_vararg pt_upvalues pt_nups pt_lineinfo pt_code].
    unfold f_nups. rewrite Hup.
    rewrite (proj2 (Z.leb_le (f_maxstacksize fs) MAXSTACK)) by lia.
    rewrite (proj2 (Z.leb_le _ (f_maxstacksize fs))) by lia.
    rewrite Z.leb_refl, fo_lines, Z.eqb_refl, Z.gtb_ltb. rewrite (proj2 (Z.ltb_lt 0 _)) by (pose proof (zlen_nonneg c); lia).
    assert (Hn : (Z.land (f_is_vararg fs) VARARG_NEEDSARG =? 0) || negb (Z.land (f_is_vararg fs) VARARG_HASARG =? 0) = true).
    { by destruct fo_vararg as [->|[->|[->|[->|[->| ->]]]]]. }
    rewrite Hn. cbn [negb orb]. unfold Debug.code_at. cbn [proto_of pt_code]. rewrite Hlen, Hc.
    rewrite znth_app_r by lia. replace (zlen c + 1 - 1 - zlen c) with 0 by lia. done.
  - unfold zlen in *. rewrite length_map. lia.
Qed.

(** Closing: the prototype is good, and the function around is current. *)
Lemma close_func_wp s :
  ks_ok s ->
  wp close_func (fun fs s' => proto_ok (proto_of fs) /\ ks_ok s' /\ ks_nCcalls s' = ks_nCcalls s /\
    length (ks_prev s') = Nat.pred (length (ks_prev s))) (fun _ => True) s.
Proof.
  intros Hs. eapply wp_seq; [by apply keeps_removevars|]. intros [] s1 Hs1.
  eapply wp_seq; [apply luaK_ret_wp, Hs1|]. intros [] s2 (Hs2 & c & Hc).
  eapply wp_seq; [apply shrink_arrays_wp, Hs2|]. intros [] s3 (Hs3 & Hc3).
  pose proof (step_ok_trans _ _ _ Hs1 (step_ok_trans _ _ _ Hs2 Hs3)) as ([Hf Hp] & Hn & Hlen).
  apply wp_gets, wp_modify. rewrite Hc in Hc3.
  assert (Hpop : ks_ok (pop_func s3) /\ ks_nCcalls (pop_func s3) = ks_nCcalls s3 /\
    length (ks_prev (pop_func s3)) = Nat.pred (length (ks_prev s3))).
  { unfold pop_func. destruct (ks_prev s3) as [|[fs h] prev] eqn:E; cbn.
    - unfold ks_ok. cbn. by rewrite E.
    - apply Forall_cons in Hp as [Hfs Hp]. by split. }
  destruct Hpop as (Hok4 & Hn4 & Hlen4).
  eapply wp_seq; [by apply keeps_anchor_token|]. intros [] s5 (Hok5 & Hn5 & Hlen5). apply wp_ret.
  split; [exact (proto_of_ok _ c Hf Hc3)|]. split; [done|]. split; congruence.
Qed.

(** ** Grammar rules *)

(** A level of syntax is left as it was entered. *)
Definition entered (s0 s : KS) : Prop :=
  ks_ok s /\ ks_nCcalls s = ks_nCcalls s0 + 1 /\ length (ks_prev s) = length (ks_prev s0).

Lemma enterlevel_wp s : ks_ok s -> wp enterlevel (fun _ s' => entered s s') (fun _ => True) s.
Proof.
  intros Hs. apply wp_modify, wp_get. match goal with |- wp _ _ _ ?x => set (s1 := x) end.
  assert (Hs1 : entered s s1) by (split; [exact Hs|done]).
  destruct (_ >? LUAI_MAXCCALLS); [|exact Hs1].
  eapply wp_mono; [apply (keeps_onLex (luaX_lexerror _ _)), Hs1| |done].
  intros [] s' (Hok & Hn & Hl). destruct Hs1 as (_ & Hn1 & Hl1). split; [done|]. split; congruence.
Qed.

Lemma entered_step s0 s s' : entered s0 s -> step_ok s s' -> entered s0 s'.
Proof. intros (Hs & Hn & Hl) (Hs' & Hn' & Hl'). split; [done|]. split; congruence. Qed.

Lemma leavelevel_wp s0 s : entered s0 s -> wp leavelevel (fun _ s' => step_ok s0 s') (fun _ => True) s.
Proof. intros (Hs & Hn & Hl). split; [exact Hs|]. split; [cbn; lia|exact Hl]. Qed.

Section rules.
Variable subexpr : Z -> M KS (expdesc * BinOpr).
Variable chunk : M KS unit.
Hypothesis keeps_subexpr : forall limit, keeps (subexpr limit).
Hypothesis keeps_chunk : keeps chunk.
#[local] Hint Resolve keeps_subexpr keeps_chunk : keeps.

Lemma keeps_expr : keeps (expr subexpr).
Proof. unfold expr. keeps. Qed.
#[local] Hint Resolve keeps_expr : keeps.
Lemma keeps_field v : keeps (field v).
Proof. unfold field. keeps. Qed.
Lemma keeps_yindex : keeps (yindex subexpr).
Proof. unfold yindex. keeps. Qed.
#[local] Hint Resolve keeps_field keeps_yindex : keeps.
Lemma keeps_recfield cc : keeps (recfield subexpr cc).
Proof. unfold recfield. keeps. Qed.
Lemma keeps_closelistfield cc : keeps (closelistfield cc).
Proof. unfold closelistfield. keeps. Qed.
Lemma keeps_lastlistfield cc : keeps (lastlistfield cc).
Proof. unfold lastlistfield. keeps. Qed.
Lemma keeps_listfield cc : keeps (listfield subexpr cc).
Proof. unfold listfield. keeps. Qed.
#[local] Hint Resolve keeps_recfield keeps_closelistfield keeps_lastlistfield keeps_listfield : keeps.
Lemma keeps_constructor_loop fuel cc : keeps (constructor_loop subexpr fuel cc).
Proof. revert cc. induction fuel; intros; cbn [constructor_loop]; keeps. Qed.
#[local] Hint Resolve keeps_constructor_loop : keeps.
Lemma keeps_constructor : keeps (constructor subexpr).
Proof. unfold constructor. keeps. Qed.
#[local] Hint Resolve keeps_constructor : keeps.

(** The parameters of a new function, [self] first. *)
Lemma params_wp (needself : bool) s :
  ks_ok s -> regs s = (0, 0, 0) ->
  wp (checknext (ch "(");; when needself (new_localvarliteral "self" 0;; adjustlocalvars 1);; parlist)
    (fun _ s' => step_ok s s') (fun _ => True) s.
Proof.
  intros Hs Hr. apply (wp_seq _ _ (fun _ s1 => step_ok s s1 /\ regs s1 = (0, 0, 0))).
  { apply wp_and; [by apply keeps_checknext|]. rewrite <- Hr. unfold checknext, check_token.
    apply framed_bind; [|intros []; apply framed_onLex]. apply framed_bind; [apply framed_gets|intros t].
    apply framed_when, framed_onLex. }
  intros [] s1 [Hs1 Hr1]. unfold regs in Hr1. injection Hr1 as Hfree Hact Hnum.
  apply (wp_seq _ _ (fun _ s2 => step_ok s s2 /\ fs_freereg (ks_fs s2) = 0 /\ 0 <= fs_nactvar (ks_fs s2) <= 1 /\
    f_numparams (ks_fs s2) = 0)).
  - destruct needself; cbn [when]; [|split; [done|]; rewrite Hact; lia].
    eapply wp_seq; [apply new_localvarliteral_wp, Hs1|]. intros [] s2 (Hs2 & Hr2 & _).
    unfold regs in Hr2. injection Hr2 as Hfree2 Hact2 Hnum2.
    eapply wp_mono; [apply adjustlocalvars_wp, Hs2| |done]. intros [] s3 (Hs3 & Hfree3 & Hact3 & _ & Hnum3).
    split; [exact (step_ok_trans _ _ _ Hs1 (step_ok_trans _ _ _ Hs2 Hs3))|]. rewrite Hact3, Hact2, Hact.
    split; [congruence|]. split; [by vm_compute|congruence].
  - intros [] s2 (Hs2 & Hfree2 & Hact2 & Hnum2). eapply wp_mono; [by apply parlist_wp; [apply Hs2|..]| |done].
    intros [] s3 Hs3. by eapply step_ok_trans.
Qed.

Lemma wp_assoc3 {A B C D} (m1 : M KS A) (m2 : M KS B) (m3 : M KS C) (k : C -> M KS D) Q E s :
  wp (x ← (m1;; m2;; m3); k x) Q E s -> wp (m1;; m2;; x ← m3; k x) Q E s.
Proof.
  unfold wp, mbind, M_bind. destruct (m1 s) as [[a|e] s1]; [|done]. by destruct (m2 s1) as [[b|e] s2].
Qed.

(** The body of a function: opened, compiled and closed. *)
Lemma keeps_body needself line : keeps (body chunk needself line).
Proof.
  intros s Hs. apply wp_get. eapply wp_seq; [apply open_func_wp; constructor; [apply Hs|apply Hs]|].
  intros [] s1 (Hs1 & Hp1 & Hn1 & Hr1). apply wp_modify. match goal with |- wp _ _ _ ?x => set (s2 := x) end.
  assert (Hs2 : ks_ok s2) by (destruct Hs1 as [[] Hp]; split; [by split|exact Hp]).
  apply wp_assoc3. eapply wp_seq; [by apply params_wp|]. intros [] s3 Hs3.
  eapply wp_seq; [apply keeps_checknext, Hs3|]. intros [] s4 Hs4.
  eapply wp_seq; [apply keeps_chunk, Hs4|]. intros [] s5 Hs5. apply wp_gets, wp_modify.
  match goal with |- wp _ _ _ ?x => set (s6 := x) end.
  assert (Hs6 : step_ok s5 s6) by (destruct Hs5 as ([[] Hp] & _); split; [split; [by split|exact Hp]|done]).
  eapply wp_seq; [apply keeps_check_match, Hs6|]. intros [] s7 Hs7.
  pose proof (step_ok_trans _ _ _ Hs3 (step_ok_trans _ _ _ Hs4 (step_ok_trans _ _ _ Hs5 (step_ok_trans _ _ _ Hs6 Hs7)))) as (Hok7 & Hn7 & Hl7).
  eapply wp_seq; [by apply close_func_wp|]. intros fs s8 (Hfs & Hok8 & Hn8 & Hl8).
  apply wp_keeps; [by apply keeps_pushclosure|]. split; [done|].
  split; [by rewrite Hn8, Hn7|]. rewrite Hl8, Hl7. cbn. by rewrite Hp1.
Qed.
#[local] Hint Resolve keeps_body : keeps.

Lemma keeps_explist1 : keeps (explist1 subexpr).
Proof.
  unfold explist1. keeps. generalize 1, a, a0. intros n v k. revert n v.
  induction k; intros; cbn [explist1_loop]; keeps.
Qed.
#[local] Hint Resolve keeps_explist1 : keeps.
Lemma keeps_funcargs f : keeps (funcargs subexpr f).
Proof. unfold funcargs. keeps. Qed.
Lemma keeps_prefixexp : keeps (prefixexp subexpr).
Proof. unfold prefixexp. keeps. Qed.
#[local] Hint Resolve keeps_funcargs keeps_prefixexp : keeps.
Lemma keeps_primaryexp_loop fuel v : keeps (primaryexp_loop subexpr fuel v).
Proof. revert v. induction fuel; intros; cbn [primaryexp_loop]; keeps. Qed.
#[local] Hint Resolve keeps_primaryexp_loop : keeps.
Lemma keeps_primaryexp : keeps (primaryexp subexpr).
Proof. unfold primaryexp. keeps. Qed.
#[local] Hint Resolve keeps_primaryexp : keeps.
Lemma keeps_no_needsarg :
  keeps (upd_fs (fun fs => set_f_is_vararg (Z.land (f_is_vararg fs) (u8 (Z.lnot VARARG_NEEDSARG))) fs)).
Proof.
  apply keeps_upd_fs. intros fs Hfs. assert (Hv : vararg_ok (Z.land (f_is_vararg fs) (u8 (Z.lnot VARARG_NEEDSARG))) /\
    Z.land (Z.land (f_is_vararg fs) (u8 (Z.lnot VARARG_NEEDSARG))) VARARG_HASARG = Z.land (f_is_vararg fs) VARARG_HASARG).
  { unfold vararg_ok. destruct (fo_vararg _ Hfs) as [->|[->|[->|[->|[->| ->]]]]]; (split; [|done]);
      vm_compute; tauto. }
  destruct Hv as [Hv Hh]. destruct Hfs. split; cbn; auto. by rewrite Hh.
Qed.
#[local] Hint Resolve keeps_no_needsarg : keeps.
Lemma keeps_simpleexp : keeps (simpleexp subexpr chunk).
Proof. unfold simpleexp. keeps. Qed.
#[local] Hint Resolve keeps_simpleexp : keeps.
Lemma keeps_binop_loop fuel limit op v : keeps (binop_loop subexpr fuel limit op v).
Proof. revert op v. induction fuel; intros; cbn [binop_loop]; keeps. Qed.
#[local] Hint Resolve keeps_binop_loop : keeps.

Lemma wp_entered {A} (m : M KS A) s0 s :
  keeps m -> entered s0 s -> wp m (fun _ s' => entered s0 s') (fun _ => True) s.
Proof.
  intros Hm Hs. eapply wp_mono; [apply Hm, Hs| |done]. intros a s' Hs'. by eapply entered_step.
Qed.

Lemma keeps_subexpr_rule limit : keeps (subexpr_rule subexpr chunk limit).
Proof.
  intros s Hs. eapply wp_seq; [by apply enterlevel_wp|]. intros [] s1 Hs1. apply wp_gets. cbv zeta.
  eapply wp_seq; [apply wp_entered; [keeps|exact Hs1]|]. intros v s2 Hs2. apply wp_gets, wp_gets.
  eapply wp_seq; [apply wp_entered; [keeps|exact Hs2]|]. intros r s3 Hs3.
  eapply wp_seq; [apply (leavelevel_wp s); exact Hs3|]. by intros [] s4 Hs4.
Qed.

(** *** Statements *)

Lemma keeps_block : keeps (block chunk).
Proof. unfold block. keeps. Qed.
Lemma keeps_check_conflict lh v : keeps (check_conflict lh v).
Proof. unfold check_conflict. keeps. Qed.
#[local] Hint Resolve keeps_block keeps_check_conflict : keeps.
Lemma keeps_assignment fuel v prev n : keeps (assignment subexpr fuel v prev n).
Proof. revert v prev n. induction fuel; intros; cbn [assignment]; keeps. Qed.
#[local] Hint Resolve keeps_assignment : keeps.
Lemma keeps_cond : keeps (cond subexpr).
Proof. unfold cond. keeps. Qed.
Lemma keeps_breakstat : keeps breakstat.
Proof. unfold breakstat. keeps. Qed.
#[local] Hint Resolve keeps_cond keeps_breakstat : keeps.
Lemma keeps_whilestat line : keeps (whilestat subexpr chunk line).
Proof. unfold whilestat. keeps. Qed.
Lemma keeps_repeatstat line : keeps (repeatstat subexpr chunk line).
Proof. unfold repeatstat. keeps. Qed.
Lemma keeps_exp1 : keeps (exp1 subexpr).
Proof. unfold exp1. keeps. Qed.
Lemma keeps_forbody base line nvars isnum : keeps (forbody chunk base line nvars isnum).
Proof. unfold forbody. keeps. Qed.
#[local] Hint Resolve keeps_whilestat keeps_repeatstat keeps_exp1 keeps_forbody : keeps.
Lemma keeps_fornum name line : keeps (fornum subexpr chunk name line).
Proof. unfold fornum. keeps. Qed.
Lemma keeps_forlist_loop fuel n : keeps (forlist_loop fuel n).
Proof. revert n. induction fuel; intros; cbn [forlist_loop]; keeps. Qed.
#[local] Hint Resolve keeps_fornum keeps_forlist_loop : keeps.
Lemma keeps_forlist name : keeps (forlist subexpr chunk name).
Proof. unfold forlist. keeps. Qed.
#[local] Hint Resolve keeps_forlist : keeps.
Lemma keeps_forstat line : keeps (forstat subexpr chunk line).
Proof. unfold forstat. keeps. Qed.
Lemma keeps_test_then_block : keeps (test_then_block subexpr chunk).
Proof. unfold test_then_block. keeps. Qed.
#[local] Hint Resolve keeps_forstat keeps_test_then_block : keeps.
Lemma keeps_elseif_loop fuel a b : keeps (elseif_loop subexpr chunk fuel a b).
Proof. revert a b. induction fuel; intros; cbn [elseif_loop]; keeps. Qed.
#[local] Hint Resolve keeps_elseif_loop : keeps.
Lemma keeps_ifstat line : keeps (ifstat subexpr chunk line).
Proof. unfold ifstat. keeps. Qed.
Lemma keeps_localfunc : keeps (localfunc chunk).
Proof. unfold localfunc. keeps. Qed.
Lemma keeps_localstat_loop fuel n : keeps (localstat_loop fuel n).
Proof. revert n. induction fuel; intros; cbn [localstat_loop]; keeps. Qed.
#[local] Hint Resolve keeps_ifstat keeps_localfunc keeps_localstat_loop : keeps.
Lemma keeps_localstat : keeps (localstat subexpr).
Proof. unfold localstat. keeps. Qed.
Lemma keeps_funcname_loop fuel v : keeps (funcname_loop fuel v).
Proof. revert v. induction fuel; intros; cbn [funcname_loop]; keeps. Qed.
#[local] Hint Resolve keeps_localstat keeps_funcname_loop : keeps.
Lemma keeps_funcname : keeps funcname.
Proof. unfold funcname. keeps. Qed.
#[local] Hint Resolve keeps_funcname : keeps.
Lemma keeps_funcstat line : keeps (funcstat chunk line).
Proof. unfold funcstat. keeps. Qed.
Lemma keeps_exprstat : keeps (exprstat subexpr).
Proof. unfold exprstat. keeps. Qed.
Lemma keeps_retstat : keeps (retstat subexpr).
Proof. unfold retstat. keeps. Qed.
#[local] Hint Resolve keeps_funcstat keeps_exprstat keeps_retstat : keeps.
Lemma keeps_statement : keeps (statement subexpr chunk).
Proof. unfold statement. keeps. Qed.
#[local] Hint Resolve keeps_statement : keeps.
Lemma keeps_chunk_loop fuel b : keeps (chunk_loop subexpr chunk fuel b).
Proof. revert b. induction fuel; intros; cbn [chunk_loop]; keeps. Qed.

Lemma keeps_chunk_rule : keeps (chunk_rule subexpr chunk).
Proof.
  intros s Hs. eapply wp_seq; [by apply enterlevel_wp|]. intros [] s1 Hs1. apply wp_gets.
  eapply wp_seq; [apply wp_entered; [apply keeps_chunk_loop|exact Hs1]|]. intros [] s2 Hs2. by apply leavelevel_wp.
Qed.
End rules.

Lemma keeps_subexpr_chunk fuel : (forall limit, keeps (Parser.subexpr fuel limit)) /\ keeps (Parser.chunk fuel).
Proof.
  induction fuel as [|fuel [IHe IHc]]; cbn [Parser.subexpr Parser.chunk].
  - split; [intros limit|]; apply keeps_throw.
  - split; [intros limit; by apply keeps_subexpr_rule|by apply keeps_chunk_rule].
Qed.

(** What the caller of the parser relies on: a well-formed function and the
    depth of C calls it had before. *)
Definition parsed (s : KS) (p : Proto) (s' : KS) : Prop :=
  proto_ok p /\ ks_nCcalls s' = ks_nCcalls s.

(** C33: Whatever the source and the state, a prototype that luaY_parser returns
    passes the first test of the bytecode verifier, has a line for every
    instruction, a stack below MAXSTACK that holds its parameters, at most
    LUAI_MAXUPVALUES named upvalues, constants and inner functions whose
    indices fit an instruction, and so have all the functions inside it; and
    L->nCcalls is what it was. *)
Theorem luaY_parser_proto_ok z name s :
  match luaY_parser z name s with
  | (Ok p, s') => parsed s p s'
  | (Err _, _) => True
  end.
Proof.
  change (wp (luaY_parser z name) (fun p s' => proto_ok p /\ ks_nCcalls s' = ks_nCcalls s) (fun _ => True) s).
  assert (Hlex : forall A (m : M LexState A) s0, wp (onLex m) (fun _ s1 => ks_nCcalls s1 = ks_nCcalls s0) (fun _ => True) s0).
  { intros A m s0. unfold wp, onLex. by destruct (m (ks_ls s0)) as [[]]. }
  eapply wp_seq; [apply Hlex|]. intros ts s1 Hn1. eapply wp_seq; [apply Hlex|]. intros [] s2 Hn2.
  eapply wp_seq; [by apply open_func_wp|]. intros [] s3 (Hs3 & _ & Hn3 & Hr3). apply wp_modify.
  match goal with |- wp _ _ _ ?x => set (s4 := x) end.
  assert (Hs4 : ks_ok s4).
  { destruct Hs3 as [Hf Hp]. unfold regs in Hr3. injection Hr3 as _ _ Hnum. split; [|exact Hp].
    destruct Hf. split; cbn; auto; [unfold vararg_ok; tauto|]. rewrite Hnum. change (0 + 0 <= f_maxstacksize (ks_fs s3)). lia. }
  eapply wp_seq; [by apply keeps_nextToken|]. intros [] s5 Hs5.
  eapply wp_seq; [apply keeps_subexpr_chunk, Hs5|]. intros [] s6 Hs6.
  eapply wp_seq; [apply keeps_check_token, Hs6|]. intros [] s7 Hs7.
  pose proof (step_ok_trans _ _ _ Hs5 (step_ok_trans _ _ _ Hs6 Hs7)) as (Hok7 & Hn7 & _).
  eapply wp_seq; [by apply close_func_wp|]. intros fs s8 (Hfs & _ & Hn8 & _). apply wp_ret. split; [done|].
  rewrite Hn8, Hn7. change (ks_nCcalls s3 = ks_nCcalls s). congruence.
Qed.
End parser_ok.
