(* ===== verification/JumpLists.v ===== *)
(** * JumpLists.v: the lists of pending jumps

    A jump whose target is not known is in a list: its offset leads to the
    next one, and the offset NO_JUMP ends the list.  [jumps code l js] says
    that the list from [l] is the jumps at [js].  Joining two lists and
    patching a list end, and do what they say. *)

From S2P Require Import Prelude Machine Opcodes Object Mem Zio Str Table Lex Code.

Lemma wp_assoc_b {A B C} (m : M KS A) (f : A -> M KS B) (k : M KS C) Q E s :
  wp (_ ← (x ← m; f x); k) Q E s -> wp (x ← m; f x;; k) Q E s.
Proof. unfold wp, mbind, M_bind. by destruct (m s) as [[a|e] s']. Qed.

(** ** Fields of any word *)

Lemma SETFIELD_u32 i v p n : 0 <= n -> 0 <= p -> n + p <= 32 -> SETFIELD (u32 i) v p n = SETFIELD i v p n.
Proof.
  intros. apply Z.bits_inj'. intros j Hj. unfold SETFIELD. rewrite !Z.lor_spec, !Z.land_spec, MASK0_spec, uwrap_spec by lia.
  destruct (Z.ltb_spec j 32); cbn; [done|]. by rewrite andb_false_r.
Qed.
Lemma GETFIELD_u32 i p n : 0 <= n -> 0 <= p -> n + p <= 32 -> GETFIELD (u32 i) p n = GETFIELD i p n.
Proof.
  intros. apply Z.bits_inj'. intros j Hj. rewrite !GETFIELD_spec, uwrap_spec by lia.
  destruct (Z.ltb_spec j n); cbn; [|done]. by rewrite (proj2 (Z.ltb_lt (j + p) 32)) by lia.
Qed.

Lemma GETARG_sBx_SETARG i v : - MAXARG_sBx <= v <= MAXARG_sBx -> GETARG_sBx (SETARG_sBx i v) = v.
Proof.
  intros Hv. replace (SETARG_sBx i v) with (SETARG_sBx (u32 i) v) by (unfold SETARG_sBx, SETARG_Bx; by apply SETFIELD_u32).
  apply (SETARG_spec (u32 i) v); [|done]. by apply uwrap_range.
Qed.

Lemma GET_OPCODE_SETFIELD i v p n : 6 <= p -> 0 <= n -> n + p <= 32 -> GET_OPCODE (SETFIELD i v p n) = GET_OPCODE i.
Proof.
  intros. unfold GET_OPCODE. rewrite <- (SETFIELD_u32 i), <- (GETFIELD_u32 i) by (fields; lia).
  apply GET_SETFIELD_other; fields; try lia. by apply uwrap_range.
Qed.
Lemma GET_OPCODE_SETARG_sBx i v : GET_OPCODE (SETARG_sBx i v) = GET_OPCODE i.
Proof. by apply GET_OPCODE_SETFIELD. Qed.
Lemma GET_OPCODE_SETARG_A i v : GET_OPCODE (SETARG_A i v) = GET_OPCODE i.
Proof. by apply GET_OPCODE_SETFIELD. Qed.

(** The opcode of a created word, whatever the operands. *)
Lemma shifted_low a k j : 0 <= j < 6 -> 6 <= k -> Z.testbit (u32 (Z.shiftl (u32 a) k)) j = false.
Proof.
  intros. rewrite uwrap_spec, Z.shiftl_spec by lia. rewrite Z.testbit_neg_r by lia. apply andb_false_r.
Qed.
Lemma GET_OPCODE_CREATE o a b c : GET_OPCODE (CREATE_ABC o a b c) = op2z o.
Proof.
  pose proof (op2z_range o) as Ho. unfold GET_OPCODE, CREATE_ABC. fields.
  apply Z.bits_inj'. intros j Hj. rewrite GETFIELD_spec by lia. destruct (Z.ltb_spec j 6); cbn.
  - rewrite Z.add_0_r, !Z.lor_spec. rewrite (shifted_low a), (shifted_low b), (shifted_low c) by lia. rewrite !orb_false_r, uwrap_spec, Z.shiftl_0_r, uwrap_spec by lia.
    by destruct (Z.ltb_spec j 32); [|lia].
  - symmetry. by apply (testbit_in_u 6).
Qed.

(** ** The lists *)

(** Where the jump [i] at [p] goes. *)
Definition jump_dest (p i : Z) : Z := p + 1 + GETARG_sBx i.

(** The next jump of the list. *)
Definition next_jump (p i : Z) : Z := if GETARG_sBx i =? NO_JUMP then NO_JUMP else jump_dest p i.

Inductive jumps (code : list Z) : Z -> list Z -> Prop :=
  | jumps_nil : jumps code NO_JUMP []
  | jumps_cons p i js : znth code p = Some i -> jumps code (next_jump p i) js -> jumps code p (p :: js).

Lemma jumps_in code l js p : jumps code l js -> p ∈ js -> 0 <= p < zlen code.
Proof.
  induction 1 as [|q i js Hi _ IH]; [by intros ?%elem_of_nil|]. intros [->|Hp]%elem_of_cons; [|auto].
  by eapply znth_Some_lt.
Qed.

Lemma jumps_head code l js : jumps code l js -> l = match js with [] => NO_JUMP | p :: _ => p end.
Proof. by destruct 1. Qed.

Lemma jumps_pos code l q js : jumps code l (q :: js) -> (l =? NO_JUMP) = false.
Proof.
  intros Hj. apply Z.eqb_neq. intros ->. assert (0 <= NO_JUMP) as Hbad; [|unfold NO_JUMP in Hbad; lia].
  apply jumps_head in Hj as Hh. rewrite Hh. eapply jumps_in; [done|by left].
Qed.

Lemma jumps_frame code code' l js :
  jumps code l js -> (forall p, p ∈ js -> znth code' p = znth code p) -> jumps code' l js.
Proof.
  induction 1 as [|p i js Hi _ IH]; intros Heq; [constructor|]. econstructor.
  - rewrite Heq by by left. exact Hi.
  - apply IH. intros q Hq. apply Heq. by right.
Qed.

(** A list without repetition is no longer than the code. *)
Lemma NoDup_in_range (js : list Z) n : NoDup js -> (forall p, p ∈ js -> 0 <= p < Z.of_nat n) -> (length js <= n)%nat.
Proof.
  intros Hnd Hin. assert (Hl : (length js <= length (seqZ 0 (Z.of_nat n)))%nat).
  { apply submseteq_length, NoDup_submseteq; [done|]. intros p Hp. apply elem_of_seqZ. specialize (Hin p Hp). lia. }
  rewrite length_seqZ in Hl. lia.
Qed.
Lemma jumps_length code l js : jumps code l js -> NoDup js -> (length js <= length code)%nat.
Proof. intros Hj Hnd. apply NoDup_in_range; [done|]. intros p Hp. by eapply jumps_in. Qed.

(** Changes of the code. *)
Definition with_code (c : list Z) (s : KS) : KS := set_fs (set_f_code c (ks_fs s)) s.
Definition code_of (s : KS) : list Z := f_code (ks_fs s).

Lemma with_code_same s : with_code (code_of s) s = s.
Proof. by destruct s as [ls [] prev n]. Qed.
Lemma with_code_twice c c' s : with_code c' (with_code c s) = with_code c' s.
Proof. done. Qed.

Section lists.
Context `{Krealloc} `{StringHash} `{KernelStrto}.

(** The only error: the offset of a jump does not fit. *)
Definition too_long (e : error) : Prop :=
  exists s s', syntaxerror (A:=unit) "control structure too long" s = (Err e, s').

Lemma code_at_Some p i s : znth (code_of s) p = Some i -> code_at p s = (Ok i, s).
Proof. intros Hi. unfold code_of in Hi. unfold code_at, mbind, M_bind, get_fs, gets, lift. by rewrite Hi. Qed.

Lemma set_code_at_Some p i f s : znth (code_of s) p = Some i -> set_code_at p f s = (Ok tt, with_code (zupd p (f i) (code_of s)) s).
Proof. intros Hi. unfold set_code_at, mbind, M_bind. by rewrite (code_at_Some p i s Hi). Qed.

Lemma getjump_Some p i s : znth (code_of s) p = Some i -> getjump p s = (Ok (next_jump p i), s).
Proof.
  intros Hi. unfold getjump, mbind, M_bind. rewrite (code_at_Some p i s Hi). unfold next_jump, jump_dest. by case_if.
Qed.

Lemma fixjump_wp p i dest s Q :
  znth (code_of s) p = Some i ->
  (let c := zupd p (SETARG_sBx i (dest - (p + 1))) (code_of s) in
   Z.abs (dest - (p + 1)) <= MAXARG_sBx -> Q tt (with_code c s)) ->
  wp (fixjump p dest) Q too_long s.
Proof.
  intros Hi HQ. unfold fixjump. apply wp_bind. unfold wp at 1. rewrite (code_at_Some p i s Hi).
  apply wp_bind. destruct (_ >? MAXARG_sBx) eqn:Hgt; b2p; cbn [when].
  - unfold wp at 1. destruct (syntaxerror _ s) as [[[]|e] s'] eqn:Herr; [|by exists s, s'].
    exfalso. unfold syntaxerror, onLex in Herr. destruct (luaX_syntaxerror _ (ks_ls s)) as [r ls] eqn:Hl.
    unfold luaX_syntaxerror in Hl. unfold mbind, M_bind, get, luaX_lexerror in Hl.
    destruct (tk_token (ls_t (ks_ls s)) =? 0); [by injection Hl as <- <-|]. unfold mbind, M_bind in Hl.
    destruct (txtToken _ (ks_ls s)) as [[t|e] ls']; by injection Hl as <- <-.
  - apply wp_ret. unfold wp. rewrite (set_code_at_Some p i _ s Hi). by apply HQ.
Qed.

(** *** Joining *)

Lemma last_loop_Some fuel l js p s :
  jumps (code_of s) l (js ++ [p]) -> (length js < fuel)%nat -> last_loop fuel l s = (Ok p, s).
Proof.
  revert l js. induction fuel as [|fuel IH]; intros l js Hj Hf; [lia|]. cbn [last_loop]. unfold mbind, M_bind.
  destruct js as [|q js]; inversion Hj as [|? i ? Hi Hj']; subst; rewrite (getjump_Some _ i s Hi).
  - apply jumps_head in Hj'. by rewrite Hj'.
  - assert ((next_jump q i =? NO_JUMP) = false) as ->; [|apply (IH _ js); [done|cbn in Hf; lia]].
    destruct (js ++ [p]) as [|r rest] eqn:E; [by destruct js|]. by eapply jumps_pos.
Qed.

(** The link from the last jump of a list to another list. *)
Lemma jumps_link code l js p i l2 js2 :
  jumps code l (js ++ [p]) -> znth code p = Some i -> jumps code l2 js2 -> js2 <> [] ->
  NoDup (js ++ [p] ++ js2) -> Z.abs (l2 - (p + 1)) <= MAXARG_sBx ->
  jumps (zupd p (SETARG_sBx i (l2 - (p + 1))) code) l (js ++ [p] ++ js2).
Proof.
  intros Hj Hi Hj2 Hne Hnd Habs. set (code' := zupd _ _ _).
  assert (Hp : 0 <= p < zlen code) by by eapply znth_Some_lt.
  assert (Hframe : forall q, q <> p -> znth code' q = znth code q) by (intros q Hq; by apply znth_zupd_ne).
  assert (Hl2 : jumps code' l2 js2).
  { apply (jumps_frame code); [done|]. intros q Hq. apply Hframe. intros ->.
    apply NoDup_app in Hnd as (_ & _ & Hnd). cbn in Hnd. by apply NoDup_cons_1_1 in Hnd. }
  assert (Hp' : jumps code' p ([p] ++ js2)).
  { econstructor; [by apply znth_zupd_eq|]. unfold next_jump, jump_dest. rewrite GETARG_sBx_SETARG by lia.
    case_if; [|by replace (p + 1 + (l2 - (p + 1))) with l2 by lia].
    exfalso. unfold NO_JUMP in *. assert (l2 = p) by lia. subst l2. apply jumps_head in Hl2.
    destruct js2 as [|q js2]; [done|]. subst q. apply NoDup_app in Hnd as (_ & _ & Hnd). cbn in Hnd.
    apply NoDup_cons_1_1 in Hnd. apply Hnd. by left. }
  clear Hl2. revert l Hj Hnd. induction js as [|q js IH]; intros l Hj Hnd.
  - apply jumps_head in Hj. cbn in Hj. by subst l.
  - inversion Hj as [|? iq ? Hiq Hj']; subst. econstructor.
    + rewrite Hframe; [exact Hiq|]. intros ->. cbn in Hnd. apply NoDup_cons_1_1 in Hnd. apply Hnd.
      apply elem_of_app. right. by left.
    + apply IH; [done|]. cbn in Hnd. by apply NoDup_cons_1_2 in Hnd.
Qed.

(** luaK_concat joins two lists of pending jumps: from two lists without a
    jump in common it returns one list, the jumps of the first and then those
    of the second, changes nothing but the offset of the last jump of the
    first, and fails only when that offset does not fit. *)
Theorem luaK_concat_joins l1 l2 js1 js2 s :
  jumps (code_of s) l1 js1 -> jumps (code_of s) l2 js2 -> NoDup (js1 ++ js2) ->
  wp (luaK_concat l1 l2)
    (fun l s' => exists code, s' = with_code code s /\ jumps code l (js1 ++ js2) /\ zlen code = zlen (code_of s) /\
       forall q, last js1 <> Some q -> znth code q = znth (code_of s) q)
    too_long s.
Proof.
  intros Hj1 Hj2 Hnd. unfold luaK_concat.
  destruct js2 as [|p2 js2'].
  { apply jumps_head in Hj2 as ->. apply wp_ret. exists (code_of s). rewrite with_code_same, app_nil_r. by split_and!. }
  rewrite (jumps_pos _ _ _ _ Hj2). destruct js1 as [|p1 js1'].
  { apply jumps_head in Hj1 as ->. apply wp_ret. exists (code_of s). rewrite with_code_same. by split_and!. }
  rewrite (jumps_pos _ _ _ _ Hj1). apply wp_gets.
  destruct (exists_last (l := p1 :: js1') ltac:(done)) as (js & p & Hjs). rewrite Hjs in *.
  apply NoDup_app in Hnd as Hnd1. destruct Hnd1 as (Hnd1 & _ & _).
  pose proof (jumps_length _ _ _ Hj1 Hnd1) as Hlen. rewrite length_app in Hlen. cbn in Hlen.
  apply wp_bind. unfold wp at 1. erewrite last_loop_Some; [|exact Hj1|unfold list_fuel, code_of in *; lia].
  destruct (znth_is_Some (code_of s) p) as [i Hi]; [eapply jumps_in; [exact Hj1|set_solver]|].
  apply wp_bind. eapply fixjump_wp; [exact Hi|]. intros c Hc. apply wp_ret. exists c.
  rewrite <- app_assoc in *. split_and!; [done|by apply jumps_link|apply zlen_zupd|].
  intros q Hq. apply znth_zupd_ne. intros ->. apply Hq. by rewrite last_snoc.
Qed.

(** ** Patching *)

(** The instruction that controls the jump at [p]: the test before it. *)
Definition is_test (i : Z) : bool := match z2op (GET_OPCODE i) with Some o => testTMode o | None => false end.
Definition control (code : list Z) (p : Z) : Z :=
  if (p >=? 1) && match znth code (p - 1) with Some i => is_test i | None => false end then p - 1 else p.

(** Every word is an instruction. *)
Definition all_ops (code : list Z) : Prop := forall p i, znth code p = Some i -> is_Some (z2op (GET_OPCODE i)).

(** A TESTSET that sets another register, or is left without its value. *)
Definition patched_test (reg i : Z) : Z :=
  if negb (reg =? NO_REG) && negb (reg =? GETARG_B i) then SETARG_A i reg
  else CREATE_ABC OP_TEST (GETARG_B i) 0 (GETARG_C i).

(** The code after a turn of patchlistaux. *)
Definition patch1 (vtarget reg dtarget : Z) (code : list Z) (p : Z) : list Z :=
  let c := control code p in
  match znth code p, znth code c with
  | Some i, Some ic =>
      if opcode_is ic OP_TESTSET
      then zupd p (SETARG_sBx i (vtarget - (p + 1))) (zupd c (patched_test reg ic) code)
      else zupd p (SETARG_sBx i (dtarget - (p + 1))) code
  | _, _ => code
  end.

(** What is asked of the jumps of a list. *)
Definition plain (code : list Z) (js : list Z) : Prop :=
  NoDup js /\ forall p, p ∈ js -> exists i, znth code p = Some i /\ is_test i = false.

Lemma getjumpcontrol_Some p i s :
  all_ops (code_of s) -> znth (code_of s) p = Some i -> getjumpcontrol p s = (Ok (control (code_of s) p), s).
Proof.
  intros Hops Hi. unfold getjumpcontrol, control. unfold mbind at 1, M_bind at 1. rewrite (code_at_Some p i s Hi).
  destruct (p >=? 1) eqn:Hp; b2p; [|done]. destruct (znth_is_Some (code_of s) (p - 1)) as [j Hj].
  { apply znth_Some_lt in Hi. lia. }
  unfold mbind, M_bind. rewrite (code_at_Some _ j s Hj), Hj. destruct (Hops _ _ Hj) as [o Ho].
  unfold test_mode, is_test, mbind, M_bind, lift. rewrite Ho. cbn. by destruct (testTMode o).
Qed.

Lemma control_lt code p i : znth code p = Some i -> exists ic, znth code (control code p) = Some ic.
Proof.
  intros Hi. unfold control. destruct (_ && _) eqn:E; [|by eexists]. apply andb_true_iff in E as [_ E].
  destruct (znth code (p - 1)) as [ic|]; [by eexists|done].
Qed.

(** [control] is the jump itself or a test before it. *)
Lemma control_cases code p :
  control code p = p \/ (control code p = p - 1 /\ exists i, znth code (p - 1) = Some i /\ is_test i = true).
Proof.
  unfold control. destruct (_ && _) eqn:E; [|by left]. right. split; [done|]. apply andb_true_iff in E as [_ E].
  destruct (znth code (p - 1)) as [i|]; [by eexists|done].
Qed.

Lemma opcode_is_true i o : opcode_is i o = true -> z2op (GET_OPCODE i) = Some o.
Proof. unfold opcode_is. intros ->%Z.eqb_eq. apply z2op_op2z. Qed.

(** Each target is near enough. *)
Definition near (vtarget dtarget : Z) (code : list Z) (p : Z) : Prop :=
  forall ic, znth code (control code p) = Some ic ->
    Z.abs ((if opcode_is ic OP_TESTSET then vtarget else dtarget) - (p + 1)) <= MAXARG_sBx.

(** One turn. *)
Lemma patch_turn vtarget reg dtarget p i s (Q : unit -> KS -> Prop) :
  all_ops (code_of s) -> znth (code_of s) p = Some i -> is_test i = false ->
  (near vtarget dtarget (code_of s) p -> Q tt (with_code (patch1 vtarget reg dtarget (code_of s) p) s)) ->
  wp (b ← patchtestreg p reg; if (b : bool) then fixjump p vtarget else fixjump p dtarget) Q too_long s.
Proof.
  intros Hops Hi Hnt HQ. destruct (control_lt _ _ _ Hi) as [ic Hic]. unfold patch1 in HQ. rewrite Hi, Hic in HQ.
  unfold patchtestreg. apply wp_assoc, wp_bind. unfold wp at 1. rewrite (getjumpcontrol_Some p i s Hops Hi).
  apply wp_assoc, wp_bind. unfold wp at 1. rewrite (code_at_Some _ ic s Hic).
  destruct (opcode_is ic OP_TESTSET) eqn:Hts; cbn [negb].
  - assert (Hcp : control (code_of s) p <> p).
    { intros Hcp. rewrite Hcp, Hi in Hic. injection Hic as ->. apply opcode_is_true in Hts.
      unfold is_test in Hnt. by rewrite Hts in Hnt. }
    set (s1 := with_code (zupd (control (code_of s) p) (patched_test reg ic) (code_of s)) s) in *.
    apply wp_assoc. apply (wp_seq _ _ (fun _ s' => s' = s1)).
    { unfold wp, patched_test in *. destruct (negb (reg =? NO_REG) && negb (reg =? GETARG_B ic));
        by rewrite (set_code_at_Some _ ic _ s Hic). }
    intros [] s' ->. apply wp_bind, wp_ret. apply (fixjump_wp p i).
    + unfold s1, code_of. cbn. by rewrite znth_zupd_ne.
    + intros c Hc. apply HQ. intros j Hj. rewrite Hic in Hj. injection Hj as <-. by rewrite Hts.
  - apply wp_bind, wp_ret. apply (fixjump_wp p i); [done|]. intros c Hc. apply HQ.
    intros j Hj. rewrite Hic in Hj. injection Hj as <-. by rewrite Hts.
Qed.

Lemma patched_test_op reg i :
  opcode_is i OP_TESTSET = true -> exists o, z2op (GET_OPCODE (patched_test reg i)) = Some o /\ testTMode o = true.
Proof.
  intros Hi. apply opcode_is_true in Hi. unfold patched_test. case_if.
  - rewrite GET_OPCODE_SETARG_A. exists OP_TESTSET. by split.
  - rewrite GET_OPCODE_CREATE, z2op_op2z. exists OP_TEST. by split.
Qed.

(** The code keeps its length, and each word whether it is an instruction and
    a test. *)
Definition alike (code code' : list Z) : Prop :=
  zlen code' = zlen code /\
  forall q i, znth code q = Some i -> exists i', znth code' q = Some i' /\ is_test i' = is_test i /\
    (is_Some (z2op (GET_OPCODE i)) -> is_Some (z2op (GET_OPCODE i'))).

Lemma alike_refl code : alike code code.
Proof. split; [done|]. intros q i Hi. by exists i. Qed.
Lemma alike_trans c1 c2 c3 : alike c1 c2 -> alike c2 c3 -> alike c1 c3.
Proof.
  intros [Hl1 Ha1] [Hl2 Ha2]. split; [congruence|]. intros q i Hi. destruct (Ha1 q i Hi) as (i1 & Hi1 & Ht1 & Ho1).
  destruct (Ha2 q i1 Hi1) as (i2 & Hi2 & Ht2 & Ho2). exists i2. split_and!; [done|congruence|auto].
Qed.
Lemma alike_zupd code p i i' :
  znth code p = Some i -> is_test i' = is_test i -> (is_Some (z2op (GET_OPCODE i)) -> is_Some (z2op (GET_OPCODE i'))) ->
  alike code (zupd p i' code).
Proof.
  intros Hi Ht Ho. split; [apply zlen_zupd|]. intros q j Hj. destruct (decide (q = p)) as [->|Hq].
  - exists i'. rewrite znth_zupd_eq by by eapply znth_Some_lt. by simplify_eq.
  - exists j. by rewrite znth_zupd_ne.
Qed.
Lemma alike_ops c c' : alike c c' -> all_ops c -> all_ops c'.
Proof.
  intros [Hl Ha] Hops q i Hi. destruct (znth_is_Some c q) as [j Hj]; [rewrite <- Hl; by eapply znth_Some_lt|].
  destruct (Ha q j Hj) as (i' & Hi' & _ & Ho). simplify_eq. apply Ho. by eapply Hops.
Qed.
Lemma alike_control c c' p : alike c c' -> control c' p = control c p.
Proof.
  intros [Hl Ha]. unfold control. f_equal. destruct (p >=? 1); [|done]. cbn.
  destruct (znth c (p - 1)) as [i|] eqn:Hi.
  - destruct (Ha _ _ Hi) as (i' & -> & Ht & _). by rewrite Ht.
  - destruct (znth c' (p - 1)) as [i'|] eqn:Hi'; [|done]. exfalso.
    destruct (znth_is_Some c (p - 1)) as [j Hj]; [rewrite <- Hl; by eapply znth_Some_lt|congruence].
Qed.

Lemma is_test_sBx i v : is_test (SETARG_sBx i v) = is_test i.
Proof. unfold is_test. by rewrite GET_OPCODE_SETARG_sBx. Qed.

Lemma patch1_alike vtarget reg dtarget code p : alike code (patch1 vtarget reg dtarget code p).
Proof.
  unfold patch1. destruct (znth code p) as [i|] eqn:Hi; [|apply alike_refl].
  destruct (znth code (control code p)) as [ic|] eqn:Hic; [|apply alike_refl].
  destruct (opcode_is ic OP_TESTSET) eqn:Hts.
  - destruct (patched_test_op reg ic Hts) as (o & Ho & Hto). pose proof (opcode_is_true _ _ Hts) as Hop.
    apply (alike_trans _ (zupd (control code p) (patched_test reg ic) code)).
    + apply (alike_zupd _ _ ic); [done| |by rewrite Ho]. unfold is_test. by rewrite Ho, Hop, Hto.
    + destruct (decide (control code p = p)) as [Hcp|Hcp].
      * rewrite Hcp in *. simplify_eq. apply (alike_zupd _ _ (patched_test reg i)).
        { apply znth_zupd_eq. by eapply znth_Some_lt. }
        { rewrite is_test_sBx. unfold is_test. by rewrite Ho, Hop, Hto. }
        { intros _. rewrite GET_OPCODE_SETARG_sBx, Hop. by eexists. }
      * apply (alike_zupd _ _ i); [by rewrite znth_zupd_ne|apply is_test_sBx|by rewrite GET_OPCODE_SETARG_sBx].
  - apply (alike_zupd _ _ i); [done|apply is_test_sBx|by rewrite GET_OPCODE_SETARG_sBx].
Qed.

(** What became of one jump of a list. *)
Definition lands (vtarget reg dtarget : Z) (code code' : list Z) (p : Z) : Prop :=
  exists i i' ic, znth code p = Some i /\ znth code' p = Some i' /\ znth code (control code p) = Some ic /\
    GET_OPCODE i' = GET_OPCODE i /\
    if opcode_is ic OP_TESTSET
    then jump_dest p i' = vtarget /\ znth code' (control code p) = Some (patched_test reg ic)
    else jump_dest p i' = dtarget /\ (control code p <> p -> znth code' (control code p) = Some ic).

(** Nothing but a jump and its control changes in a turn. *)
Lemma patch1_frame vtarget reg dtarget code p q :
  q <> p -> q <> control code p -> znth (patch1 vtarget reg dtarget code p) q = znth code q.
Proof.
  intros Hp Hc. unfold patch1. destruct (znth code p); [|done]. destruct (znth code (control code p)); [|done].
  case_if; by rewrite !znth_zupd_ne.
Qed.

Lemma patch1_lands vtarget reg dtarget code p i ic :
  znth code p = Some i -> is_test i = false -> znth code (control code p) = Some ic ->
  Z.abs ((if opcode_is ic OP_TESTSET then vtarget else dtarget) - (p + 1)) <= MAXARG_sBx ->
  lands vtarget reg dtarget code (patch1 vtarget reg dtarget code p) p.
Proof.
  intros Hi Hnt Hic Habs. unfold patch1. rewrite Hi, Hic.
  assert (Hp : 0 <= p < zlen code) by by eapply znth_Some_lt.
  assert (Hc : 0 <= control code p < zlen code) by by eapply znth_Some_lt.
  destruct (opcode_is ic OP_TESTSET) eqn:Hts.
  - exists i, (SETARG_sBx i (vtarget - (p + 1))), ic. rewrite Hts.
    assert (Hcp : control code p <> p).
    { intros Hcp. rewrite Hcp, Hi in Hic. injection Hic as ->. apply opcode_is_true in Hts.
      unfold is_test in Hnt. by rewrite Hts in Hnt. }
    rewrite znth_zupd_eq by by rewrite zlen_zupd. rewrite znth_zupd_ne by done. rewrite znth_zupd_eq by done.
    rewrite GET_OPCODE_SETARG_sBx. unfold jump_dest. rewrite GETARG_sBx_SETARG by lia.
    split_and!; try done. lia.
  - exists i, (SETARG_sBx i (dtarget - (p + 1))), ic. rewrite Hts, znth_zupd_eq by done.
    rewrite GET_OPCODE_SETARG_sBx. unfold jump_dest. rewrite GETARG_sBx_SETARG by lia.
    split_and!; try done; [lia|]. intros Hcp. by rewrite znth_zupd_ne.
Qed.

(** The jumps of a list keep out of each other's way. *)
Lemma plain_frame vtarget reg dtarget code p js :
  plain code (p :: js) ->
  plain (patch1 vtarget reg dtarget code p) js /\
  (forall q, q ∈ js -> znth (patch1 vtarget reg dtarget code p) q = znth code q) /\
  (forall q, q ∈ js -> control code q <> p /\ (control code q = control code p -> control code p = p)).
Proof.
  intros [Hnd Hpl]. apply NoDup_cons in Hnd as [Hp Hnd].
  destruct (Hpl p) as (i & Hi & Hnt); [by left|].
  assert (Hne : forall q, q ∈ js -> q <> p /\ q <> control code p).
  { intros q Hq. assert (q <> p) as Hqp by (by intros ->). split; [done|].
    destruct (control_cases code p) as [->|(-> & j & Hj & Htj)]; [done|]. intros ->.
    destruct (Hpl (p - 1)) as (j' & Hj' & Hnt'); [by right|]. congruence. }
  assert (Hsame : forall q, q ∈ js -> znth (patch1 vtarget reg dtarget code p) q = znth code q).
  { intros q Hq. destruct (Hne q Hq). by apply patch1_frame. }
  split; [|split; [done|]].
  - split; [done|]. intros q Hq. rewrite (Hsame q Hq). apply Hpl. by right.
  - intros q Hq. destruct (Hne q Hq) as [Hqp Hqc].
    destruct (control_cases code q) as [Hcq|(Hcq & j & Hj & Htj)]; rewrite Hcq.
    + split; [done|]. intros Heq. by destruct Hqc.
    + split; [intros <-; congruence|]. intros Heq.
      destruct (control_cases code p) as [Hcp|(Hcp & _)]; [done|]. lia.
Qed.

(** The whole list. *)
Definition patch_all vtarget reg dtarget (js : list Z) (code : list Z) : list Z :=
  fold_left (patch1 vtarget reg dtarget) js code.
Lemma patch_all_cons vtarget reg dtarget p js code :
  patch_all vtarget reg dtarget (p :: js) code = patch_all vtarget reg dtarget js (patch1 vtarget reg dtarget code p).
Proof. done. Qed.

Lemma patch_all_frame vtarget reg dtarget js code q :
  q ∉ js -> (forall p, p ∈ js -> q <> control code p) -> znth (patch_all vtarget reg dtarget js code) q = znth code q.
Proof.
  revert code. induction js as [|p js IH]; intros code Hq Hc; [done|]. rewrite patch_all_cons, IH.
  - apply patch1_frame; [by intros ->; apply Hq; left|]. apply Hc. by left.
  - intros Hq'. apply Hq. by right.
  - intros p' Hp'. rewrite (alike_control code) by apply patch1_alike. apply Hc. by right.
Qed.

Lemma patch_all_lands vtarget reg dtarget js code :
  plain code js -> (forall p, p ∈ js -> near vtarget dtarget code p) ->
  forall p, p ∈ js -> lands vtarget reg dtarget code (patch_all vtarget reg dtarget js code) p.
Proof.
  revert code. induction js as [|p js IH]; intros code Hpl Hnear q Hq; [by apply elem_of_nil in Hq|].
  destruct (plain_frame vtarget reg dtarget _ _ _ Hpl) as (Hpl1 & Hsame & Hctl). rewrite patch_all_cons.
  set (code1 := patch1 vtarget reg dtarget code p) in *.
  pose proof (patch1_alike vtarget reg dtarget code p : alike code code1) as Hal.
  assert (Hcsame : forall r, r ∈ js -> znth code1 (control code r) = znth code (control code r) \/
    (control code r = control code p /\ control code p = p)).
  { intros r Hr. destruct (Hctl r Hr) as [Hcp Hcc]. destruct (decide (control code r = control code p)) as [He|He]; [by right; auto|].
    left. by apply patch1_frame. }
  assert (Hcsame' : forall r, r ∈ js -> znth code1 (control code r) = znth code (control code r)).
  { intros r Hr. destruct (Hcsame r Hr) as [He|[He He']]; [done|]. exfalso. apply (proj1 (Hctl r Hr)). congruence. }
  apply elem_of_cons in Hq as [->|Hq].
  - destruct Hpl as [Hnd Hin]. destruct (Hin p) as (i & Hi & Hnt); [by left|]. destruct (control_lt _ _ _ Hi) as [ic Hic].
    destruct (patch1_lands vtarget reg dtarget code p i ic Hi Hnt Hic) as (i0 & i' & ic0 & Hi0 & Hi' & Hic0 & Hop & Hland).
    { apply (Hnear p); [by left|done]. }
    fold code1 in Hi', Hland. apply NoDup_cons in Hnd as [Hp _].
    assert (Hp1 : znth (patch_all vtarget reg dtarget js code1) p = znth code1 p).
    { apply patch_all_frame; [done|]. intros r Hr. rewrite (alike_control code code1) by done. intros He. by apply (Hctl r Hr). }
    assert (Hp2 : control code p <> p -> znth (patch_all vtarget reg dtarget js code1) (control code p) = znth code1 (control code p)).
    { intros Hcp. apply patch_all_frame.
      - intros Hin'. destruct (control_cases code p) as [?|(Hc & j & Hj & Htj)]; [done|].
        destruct (Hin (control code p)) as (j' & Hj' & Hnt'); [by right|]. rewrite Hc in Hj'. congruence.
      - intros r Hr. rewrite (alike_control code code1) by done. intros He. by apply Hcp, (Hctl r Hr). }
    exists i0, i', ic0. rewrite Hp1. split_and!; try done.
    destruct (opcode_is ic0 OP_TESTSET) eqn:Hts; destruct Hland as [Hd Hl]; (split; [done|]).
    + rewrite Hp2; [done|]. intros Hcp. rewrite Hcp in Hic0. simplify_eq. apply opcode_is_true in Hts.
      unfold is_test in Hnt. by rewrite Hts in Hnt.
    + intros Hcp. rewrite Hp2 by done. by apply Hl.
  - destruct (IH code1 Hpl1) with (p := q) as (i0 & i' & ic0 & Hi0 & Hi' & Hic0 & Hop & Hland); [|done|].
    { intros r Hr ic. rewrite (alike_control code code1), Hcsame' by done. apply Hnear. by right. }
    rewrite (alike_control code code1) in Hic0, Hland by done. rewrite Hcsame' in Hic0 by done. rewrite Hsame in Hi0 by done.
    by exists i0, i', ic0.
Qed.

Lemma patchlist_loop_wp fuel list js vtarget reg dtarget s :
  all_ops (code_of s) -> jumps (code_of s) list js -> plain (code_of s) js -> (length js < fuel)%nat ->
  wp (patchlist_loop fuel list vtarget reg dtarget)
    (fun _ s' => s' = with_code (patch_all vtarget reg dtarget js (code_of s)) s /\
       forall p, p ∈ js -> near vtarget dtarget (code_of s) p) too_long s.
Proof.
  revert list js s. induction fuel as [|fuel IH]; intros list js s Hops Hj Hpl Hf; [lia|]. cbn [patchlist_loop].
  destruct js as [|p js].
  { apply jumps_head in Hj as ->. apply wp_ret. unfold patch_all. cbn. rewrite with_code_same. split; [done|]. by intros p Hp%elem_of_nil. }
  rewrite (jumps_pos _ _ _ _ Hj). inversion Hj as [|? i ? Hi Hj']; subst.
  apply wp_bind. unfold wp at 1. rewrite (getjump_Some p i s Hi).
  destruct (proj2 Hpl p) as (i' & Hi' & Hnt); [by left|]. simplify_eq.
  destruct (plain_frame vtarget reg dtarget _ _ _ Hpl) as (Hpl1 & Hsame & Hctl).
  pose proof (patch1_alike vtarget reg dtarget (code_of s) p) as Hal.
  apply wp_assoc_b. eapply wp_seq; [apply (patch_turn vtarget reg dtarget p i s (fun _ s1 => near vtarget dtarget (code_of s) p /\
    s1 = with_code (patch1 vtarget reg dtarget (code_of s) p) s)); [exact Hops|exact Hi|exact Hnt|intros Hn; by split]|].
  intros [] s1 [Hnear ->]. set (s1 := with_code (patch1 vtarget reg dtarget (code_of s) p) s).
  assert (Hcode : code_of s1 = patch1 vtarget reg dtarget (code_of s) p) by reflexivity.
  eapply wp_mono; [apply (IH _ js)| |done].
  - rewrite Hcode. by eapply alike_ops.
  - rewrite Hcode. by eapply jumps_frame.
  - by rewrite Hcode.
  - cbn in Hf. lia.
  - intros [] s2 [-> Hn]. rewrite Hcode, patch_all_cons. split; [done|]. intros q [->|Hq]%elem_of_cons; [done|].
    intros ic Hic. destruct (Hctl q Hq) as [Hcp Hcc]. apply (Hn q Hq). rewrite Hcode.
    rewrite (alike_control (code_of s)) by done. rewrite patch1_frame; [done..|].
    intros He. apply Hcp. rewrite He. by apply Hcc.
Qed.

(** C34: patchlistaux takes every jump of a list to its target and ends: a jump
    under a TESTSET goes to [vtarget], with the test setting [reg] or, when
    there is no register or it holds the value already, turned into a TEST; any
    other jump goes to [dtarget]; nothing else changes, and the only error is a
    target too far away. *)
Theorem patchlistaux_lands list js vtarget reg dtarget s :
  all_ops (code_of s) -> jumps (code_of s) list js -> plain (code_of s) js ->
  wp (patchlistaux list vtarget reg dtarget)
    (fun _ s' => exists code, s' = with_code code s /\ zlen code = zlen (code_of s) /\
       (forall p, p ∈ js -> lands vtarget reg dtarget (code_of s) code p) /\
       (forall q, q ∉ js -> (forall p, p ∈ js -> q <> control (code_of s) p) -> znth code q = znth (code_of s) q))
    too_long s.
Proof.
  intros Hops Hj Hpl. apply wp_gets. eapply wp_mono; [apply (patchlist_loop_wp _ _ js); [done..|]| |done].
  - pose proof (jumps_length _ _ _ Hj (proj1 Hpl)). unfold list_fuel, code_of in *. lia.
  - intros [] s' [-> Hnear]. eexists. split; [done|]. split; [|split].
    + clear. revert s. enough (forall code, zlen (patch_all vtarget reg dtarget js code) = zlen code) as Hen by (intros s; apply Hen).
      induction js as [|p js IH]; intros code; [done|]. rewrite patch_all_cons, IH. apply patch1_alike.
    + by apply patch_all_lands.
    + intros q Hq Hc. by apply patch_all_frame.
Qed.
End lists.
