(* ===== verification/ConstPool.v ===== *)
(** * ConstPool.v: the constants of a function

    The table fs->h takes a constant to its index in [k]; the strings of the
    source are in it too, with the value [true].  [pool_ok] says how the two
    agree, and addk keeps it: a constant is stored once. *)

From S2P Require Import Prelude Machine Opcodes Object Mem Zio Str Table TableInv TableSet TablePut TableCount TableRehash TableSpec Lex Code ParserLimits JumpLists.

Section pool.
Context `{Krealloc} `{StringHash} `{KernelStrto}.
(** The contents of the string object at an address: strings are interned. *)
Variable str_of : Z -> option bytes.
Hypothesis str_of_inj : forall a b s, str_of a = Some s -> str_of b = Some s -> a = b.

(** The constant a key of fs->h stands for, when the table is at [h]. *)
Definition const_of (h : Z) (key : TValue) : option Const :=
  match key with
  | VNumber n => Some (KNumber n)
  | VBoolean b => Some (KBoolean b)
  | VString a => s ← str_of a; Some (KString (Some s))
  | VTable a => if a =? h then Some KNil else None
  | _ => None
  end.

Lemma const_of_proper h k c : const_of h k = Some c -> proper k = true.
Proof. by destruct k. Qed.

Lemma const_of_inj h k1 k2 c : const_of h k1 = Some c -> const_of h k2 = Some c -> k1 = k2.
Proof.
  destruct k1, k2; cbn; repeat case_if; try congruence;
    try (destruct (str_of gc) eqn:?; cbn; congruence); try (destruct (str_of gc0) eqn:?; cbn; congruence).
  destruct (str_of gc) as [s|] eqn:Hs; [|done]. destruct (str_of gc0) as [s'|] eqn:Hs'; [|done]. cbn.
  intros [= <-] [= ->]. f_equal. by eapply str_of_inj.
Qed.

(** The index of a key, when it has one. *)
Definition index_of (t : Table) (k : TValue) : option Z :=
  match tget t k with VNumber n => Some n | _ => None end.

Record pool_ok (t : Table) (h : Z) (ks : list Const) : Prop := {
  pl_table : table_ok t;
  pl_index k n : proper k = true -> index_of t k = Some n -> exists c, const_of h k = Some c /\ znth ks n = Some c;
  pl_const n c : znth ks n = Some c -> exists k, const_of h k = Some c /\ index_of t k = Some n;
}.

(** No constant is stored twice. *)
Lemma pool_unique t h ks i j c : pool_ok t h ks -> znth ks i = Some c -> znth ks j = Some c -> i = j.
Proof.
  intros Hp Hi Hj. destruct (pl_const _ _ _ Hp i c Hi) as (k1 & Hc1 & Hx1).
  destruct (pl_const _ _ _ Hp j c Hj) as (k2 & Hc2 & Hx2). rewrite (const_of_inj _ _ _ _ Hc1 Hc2) in Hx1. congruence.
Qed.

(** A new constant. *)
Lemma pool_add t t' h ks k c :
  pool_ok t h ks -> const_of h k = Some c -> index_of t k = None -> updated t k (VNumber (zlen ks)) t' ->
  pool_ok t' h (ks ++ [c]).
Proof.
  intros Hp Hc Hx (Hok & _ & Hget & _).
  assert (Hix : forall k', index_of t' k' = if decide (k' = k) then Some (zlen ks) else index_of t k').
  { intros k'. unfold index_of. rewrite Hget. by case_decide. }
  split; [done| |].
  - intros k' n Hk'. rewrite Hix. case_decide as Hkk.
    + intros [= <-]. subst k'. exists c. split; [done|]. rewrite znth_app_r by lia. by rewrite Z.sub_diag.
    + intros Hn. destruct (pl_index _ _ _ Hp k' n Hk' Hn) as (c' & Hc' & Hnth). exists c'. split; [done|].
      rewrite znth_app_l; [done|]. apply znth_Some_lt in Hnth. lia.
  - intros n c' Hn. destruct (decide (n < zlen ks)) as [Hlt|Hge].
    + rewrite znth_app_l in Hn by done. destruct (pl_const _ _ _ Hp n c' Hn) as (k' & Hc' & Hxk).
      exists k'. split; [done|]. rewrite Hix. case_decide; congruence.
    + exists k. rewrite Hix, decide_True by done. rewrite znth_app_r in Hn by lia.
      assert (n - zlen ks = 0) as Hz by (apply znth_Some_lt in Hn; rewrite zlen_one in Hn; lia).
      rewrite Hz in Hn. injection Hn as <-. split; [done|]. f_equal. lia.
Qed.

(** What can go wrong: no memory, a full table, too many constants. *)
Definition pool_err (t : Table) (e : error) : Prop := set_err t e \/ e = ErrMem \/ exists msg, e = ErrRun msg.

(** The state of the constants of the current function. *)
Definition pool_at (s : KS) (t : Table) : Prop :=
  ls_h (ks_ls s) = Some t /\ pool_ok t (fs_h (ks_fs s)) (f_k (ks_fs s)) /\
  array_ok (zlen (f_k (ks_fs s))) (f_sizek (ks_fs s)) MAXARG_Bx.

Lemma set_index_wp m t k n :
  table_ok t -> proper k = true ->
  wp (idx ← luaH_set k;
      t ← gets ts_t;
      x ← lift (slot_get t idx);
      when (negb (ttype x =? LUA_TNUMBER)) (upd (slot_set idx (VNumber n)));;
      mret x)
    (fun x st => x = tget t k /\
       match index_of t k with
       | Some _ => table_ok (ts_t st) /\ forall k', tget (ts_t st) k' = tget t k'
       | None => updated t k (VNumber n) (ts_t st)
       end) (set_err t) (mkTS m t).
Proof.
  intros Hok Hp. eapply wp_seq; [by apply wp_luaH_set|]. intros o [m1 t1] Hf. apply wp_gets. cbn [ts_t] in *.
  pose proof Hf as [Hok1 _ Hs Hget]. pose proof (get_value_tget t1 k Hok1 Hp) as Hg. rewrite luaH_get_spec in Hg by done.
  unfold get_value in Hg. rewrite Hs in Hg. cbn in Hg. rewrite Hg. apply wp_bind. unfold lift, wp at 1.
  rewrite Hget. unfold index_of. destruct (tget t k) as [| | |x| | | | | | |] eqn:Ht; cbn [ttype];
    try (split; [done|]; exact (found_updated t k (VNumber n) t1 o Hp Hf)).
  cbn. by split.
Qed.

Lemma onh_wp {A} (m : M TS A) t s (Q : A -> TS -> Prop) (E : error -> Prop) :
  ls_h (ks_ls s) = Some t -> wp m Q E (mkTS (totalbytes (ls_G (ks_ls s))) t) ->
  wp (onLex (on_h m)) (fun a s' => ks_fs s' = ks_fs s /\ exists st, Q a st /\ ls_h (ks_ls s') = Some (ts_t st)) E s.
Proof.
  intros Hh. unfold wp, onLex, on_h. rewrite Hh. destruct (m _) as [[a|e] st]; [|done].
  intros HQ. split; [done|]. by exists st.
Qed.

Lemma wp_combine {A} (m : M KS A) (Q : A -> KS -> Prop) (E : error -> Prop) s :
  wp m Q (fun _ => True) s -> wp m (fun _ _ => True) E s -> wp m Q E s.
Proof. unfold wp. by destruct (m s) as [[a|e] s']. Qed.

Lemma growvector_err n size t limit e s :
  wp (luaM_growvector n size t limit e) (fun _ _ => True) (fun er => er = ErrMem \/ exists msg, er = ErrRun msg) s.
Proof.
  assert (Hr : forall on n e s, wp (luaM_reallocv on n e) (fun _ _ => True) (fun er => er = ErrMem \/ exists msg, er = ErrRun msg) s).
  { intros on n' e' s'. unfold wp, luaM_reallocv. case_if.
    - destruct (luaM_realloc_ _ _ s') as [[]] eqn:Hr; [done|]. left. by apply luaM_realloc_Err in Hr as [-> _].
    - unfold luaM_toobig, throw. right. by eexists. }
  unfold luaM_growvector. case_if; [|done]. unfold luaM_growaux_.
  apply (wp_seq _ _ (fun _ _ => True)).
  - case_if; [case_if|]; [right; by eexists|done..].
  - intros n' s' _. eapply wp_seq; [apply Hr|]. done.
Qed.

(** C35: The constants of a function have no duplicates: addk returns the index
    of the constant, which is the old one when the key was in the table and
    else that of a new last constant; the other constants keep their indices,
    the table and the array still agree, and no constant is in the array
    twice. *)
Theorem addk_spec s t k v :
  pool_at s t -> const_of (fs_h (ks_fs s)) k = Some v ->
  wp (addk k v) (fun i s' => exists t', pool_at s' t' /\ znth (f_k (ks_fs s')) i = Some v /\
      f_k (ks_fs s') = match index_of t k with Some _ => f_k (ks_fs s) | None => f_k (ks_fs s) ++ [v] end /\
      (forall j, znth (f_k (ks_fs s')) j = Some v -> j = i)) (pool_err t) s.
Proof.
  intros (Hh & Hp & Hn) Hc. pose proof (const_of_proper _ _ _ Hc) as Hprop. apply wp_gets.
  eapply wp_seq.
  { eapply wp_mono; [apply (onh_wp _ t); [done|by apply (set_index_wp _ t k (fs_nk (ks_fs s))), Hprop; apply Hp]|intros x s1 Hx; exact Hx|].
    intros e He. by left. }
  intros x s1 (Hfs & st & [-> Hset] & Hh1). unfold index_of in *.
  assert (Hnew : updated t k (VNumber (zlen (f_k (ks_fs s)))) (ts_t st) -> (forall n, tget t k <> VNumber n) ->
    wp (size ← luaM_growvector (fs_nk (ks_fs s)) (f_sizek (ks_fs s)) sizeof_TValue MAXARG_Bx "constant table overflow";
        upd_fs (fun fs => set_f_sizek size (set_f_k (f_k fs ++ [v]) fs));;
        mret (fs_nk (ks_fs s)))
      (fun i s' => exists t', pool_at s' t' /\ znth (f_k (ks_fs s')) i = Some v /\
        f_k (ks_fs s') = f_k (ks_fs s) ++ [v] /\ (forall j, znth (f_k (ks_fs s')) j = Some v -> j = i)) (pool_err t) s1).
  { intros Hupd Hnn. eapply wp_seq; [apply (wp_combine _ (fun size' s' => (array_ok (zlen (f_k (ks_fs s)) + 1) size' MAXARG_Bx /\ same_funcs s1 s') /\ ls_h (ks_ls s') = ls_h (ks_ls s1)))|].
    - apply wp_and; [by apply growvector_ok; [apply zlen_nonneg|..]|]. eapply wp_mono; [apply growvector_mem| |done]. by intros size s2 [m ->].
    - eapply wp_mono; [apply growvector_err|done|]. intros e He. by right.
    - intros size s2 ((Ha & Hfs2 & _) & Hh2). apply wp_modify, wp_ret. cbn. rewrite Hfs2, Hfs.
      assert (Hp' : pool_ok (ts_t st) (fs_h (ks_fs s)) (f_k (ks_fs s) ++ [v])).
      { apply (pool_add t _ _ _ k); try done. unfold index_of. destruct (tget t k) eqn:Ht; try done. by destruct (Hnn n). }
      assert (Hnth : znth (f_k (ks_fs s) ++ [v]) (zlen (f_k (ks_fs s))) = Some v).
      { rewrite znth_app_r by lia. by rewrite Z.sub_diag. }
      exists (ts_t st). split_and!; cbn; try done; try congruence.
      + split; [cbn; congruence|]. split; [exact Hp'|]. cbn. unfold array_ok in *. rewrite zlen_app, zlen_one. lia.
      + intros j Hj. by eapply pool_unique. }
  destruct (tget t k) as [| | |x| | | | | | |] eqn:Ht; try (by apply Hnew).
  destruct Hset as [Hok Hget]. destruct (pl_index _ _ _ Hp k x Hprop) as (c & Hc' & Hx); [unfold index_of; by rewrite Ht|].
  assert (s32 x = x) as ->.
  { apply znth_Some_lt in Hx. destruct Hn as [Hn1 Hn2]. change MAXARG_Bx with 262143 in Hn2. apply swrap_small; [done|]. unfold in_s. lia. }
  apply wp_ret. rewrite Hfs. assert (c = v) as -> by congruence. exists (ts_t st). split_and!; [|done..|].
  - split; [done|]. rewrite Hfs. split; [|done]. destruct Hp as [_ Hpi Hpc].
    assert (Hix : forall k', index_of (ts_t st) k' = index_of t k') by (intros k'; unfold index_of; by rewrite Hget).
    split; [done| |].
    + intros k' n Hk'. rewrite Hix. by apply Hpi.
    + intros n c Hnc. destruct (Hpc n c Hnc) as (k' & Hk' & Hx'). exists k'. by rewrite Hix.
  - intros j Hj. by eapply pool_unique.
Qed.
End pool.
