(* ===== verification/Scope.v ===== *)
(** * Scope.v: how names are resolved

    [resolves] is the static scoping of Lua on the functions being compiled, the
    innermost first: the last active variable of that name, in the innermost
    function that has one.  singlevaraux finds it, and makes each function
    between keep it as an upvalue. *)

From S2P Require Import Prelude Machine Opcodes Object Mem Zio Debug Str Table Lex Code Parser ParserLimits ParserOk.

(** The name is that of the active variable [v], and of none after it. *)
Definition named (fs : FuncState) (n : TString) (i : Z) : Prop :=
  exists lv, getlocvar fs i = Ok lv /\ ts_addr (lv_varname lv) = ts_addr n.
Definition not_named (fs : FuncState) (n : TString) (i : Z) : Prop :=
  exists lv, getlocvar fs i = Ok lv /\ ts_addr (lv_varname lv) <> ts_addr n.
Definition bound (fs : FuncState) (n : TString) (v : Z) : Prop :=
  0 <= v < fs_nactvar fs /\ named fs n v /\ forall i, v < i < fs_nactvar fs -> not_named fs n i.
Definition unbound (fs : FuncState) (n : TString) : Prop :=
  forall i, 0 <= i < fs_nactvar fs -> not_named fs n i.

(** The function, counted outwards, and the variable in it. *)
Inductive resolves : list FuncState -> TString -> option (nat * Z) -> Prop :=
  | resolves_global n : resolves [] n None
  | resolves_here fs L n v : bound fs n v -> resolves (fs :: L) n (Some (O, v))
  | resolves_outer fs L n l i : unbound fs n -> resolves L n (Some (l, i)) -> resolves (fs :: L) n (Some (S l, i))
  | resolves_none fs L n : unbound fs n -> resolves L n None -> resolves (fs :: L) n None.

(** The same as a function. *)
Fixpoint resolve (L : list FuncState) (n : TString) : result (option (nat * Z)) :=
  match L with
  | [] => Ok None
  | fs :: L =>
      v ← searchvar fs n;
      if v >=? 0 then Ok (Some (O, v))
      else r ← resolve L n; Ok (match r with Some (l, i) => Some (S l, i) | None => None end)
  end.

(** In the functions [L], a variable of kind [k] at [info] is the local
    variable [i] of the function [l] levels out. *)
Inductive refers : list FuncState -> expkind -> Z -> nat -> Z -> Prop :=
  | refers_local fs L i : refers (fs :: L) VLOCAL i O i
  | refers_upval fs L j u l i :
      znth (fs_upvalues fs) j = Some u -> refers L (up_k u) (up_info u) l i -> refers (fs :: L) VUPVAL j (S l) i.

(** What resolving a name does to a function: it may have a new upvalue, or a
    block marked. *)
Record grows (fs fs' : FuncState) : Prop := {
  gr_upvalues : fs_upvalues fs `prefix_of` fs_upvalues fs';
  gr_actvar : fs_actvar fs' = fs_actvar fs;
  gr_locvars : f_locvars fs' = f_locvars fs;
  gr_nactvar : fs_nactvar fs' = fs_nactvar fs;
  gr_code : f_code fs' = f_code fs;
}.

Lemma grows_refl fs : grows fs fs.
Proof. by split. Qed.

Lemma refers_grows L L' k info l i : Forall2 grows L L' -> refers L k info l i -> refers L' k info l i.
Proof.
  intros Hg Hr. revert L' Hg. induction Hr as [fs L i|fs L j u l i Hu _ IH]; intros L' Hg.
  - inversion Hg; subst. constructor.
  - inversion Hg as [|? fs' ? L1 Hfs HL]; subst. econstructor; [|by apply IH].
    destruct (gr_upvalues _ _ Hfs) as [more ->]. rewrite znth_app_l; [done|]. apply znth_Some_lt in Hu. lia.
Qed.

(** The block that closes the variable [level]: the innermost that began before it. *)
Definition marked (bl : list BlockCnt) (level : Z) : Prop :=
  match filter (fun b => bl_nactvar b <= level) bl with [] => True | b :: _ => bl_upval b = true end.

Lemma markupval_marks bl level : marked (markupval_blocks bl level) level.
Proof.
  unfold marked. induction bl as [|b bl IH]; [done|]. cbn [markupval_blocks]. case_if.
  - rewrite filter_cons, decide_False by lia. exact IH.
  - rewrite filter_cons. cbn. by rewrite decide_True by lia.
Qed.

(** searchvar is the last active variable of the name. *)
Lemma searchvar_loop_spec fs n k :
  match searchvar_loop fs n k with
  | Ok v => (v = -1 \/ exists lv, 0 <= v < Z.of_nat k /\ getlocvar fs v = Ok lv /\ ts_addr (lv_varname lv) = ts_addr n) /\
      forall i, v < i < Z.of_nat k -> exists lv, getlocvar fs i = Ok lv /\ ts_addr (lv_varname lv) <> ts_addr n
  | Err _ => True
  end.
Proof.
  induction k as [|k IH]; cbn [searchvar_loop]; [cbn; split; [by left|lia]|].
  cbn. destruct (getlocvar fs (Z.of_nat k)) as [lv|] eqn:Hlv; [cbn|done].
  destruct (ts_addr n =? ts_addr (lv_varname lv)) eqn:Heq; b2p; cbn.
  - split; [|lia]. right. exists lv. split_and!; [lia..|done|done].
  - destruct (searchvar_loop fs n k) as [v|]; [|done]. destruct IH as [Hv Hi]. split.
    + destruct Hv as [->|(lv' & ? & ? & ?)]; [by left|]. right. exists lv'. split_and!; [lia..|done|done].
    + intros i Hin. destruct (decide (i = Z.of_nat k)) as [->|Hne]; [|apply Hi; lia]. exists lv. by split.
Qed.

(** Outside any block with the name, a variable found here is the resolution. *)
Lemma searchvar_range fs n v : searchvar fs n = Ok v -> v < 0 \/ 0 <= v < fs_nactvar fs.
Proof.
  intros Hv. pose proof (searchvar_loop_spec fs n (Z.to_nat (fs_nactvar fs))) as Hs.
  unfold searchvar in Hv. rewrite Hv in Hs. destruct Hs as [[->|(lv & ? & _)] _]; lia.
Qed.

Lemma searchvar_bound fs n v : searchvar fs n = Ok v -> if v >=? 0 then bound fs n v else unbound fs n.
Proof.
  intros Hv. pose proof (searchvar_loop_spec fs n (Z.to_nat (fs_nactvar fs))) as Hs.
  unfold searchvar in Hv. rewrite Hv in Hs. destruct Hs as [Hs Hi]. case_if.
  - destruct Hs as [->|(lv & Hr & Hlv)]; [lia|]. split; [lia|]. split; [by exists lv|]. intros i Hin. apply Hi. lia.
  - destruct Hs as [->|(lv & Hr & Hlv)]; [|lia]. intros i Hin. apply Hi. lia.
Qed.

Lemma resolve_resolves L n r : resolve L n = Ok r -> resolves L n r.
Proof.
  revert r. induction L as [|fs L IH]; intros r; cbn [resolve]; [intros [= <-]; constructor|].
  intros (v & Hv & Hr)%result_bind_Ok. apply searchvar_bound in Hv. destruct (v >=? 0).
  - injection Hr as <-. by constructor.
  - apply result_bind_Ok in Hr as ([[l i]|] & Hr & [= <-]); constructor; auto.
Qed.

Section scope.
Context `{Krealloc} `{StringHash} `{KernelStrto}.

(** The functions being compiled, the innermost first. *)
Definition functions (s : KS) : list FuncState := ks_fs s :: (fst <$> ks_prev s).

Lemma get_level_functions d s : get_level d s = (of_option "enclosing function" (functions s !! d), s).
Proof. destruct d as [|d]; [done|]. unfold get_level. by rewrite <- list_lookup_fmap. Qed.

Lemma functions_upd_level d f s : functions (upd_level d f s).2 = alter f d (functions s).
Proof.
  destruct d as [|d]; [done|]. unfold functions, upd_level, modify. cbn. f_equal.
  apply list_fmap_alter. by apply Forall_true.
Qed.

Lemma upd_level_wp d f s : wp (upd_level d f) (fun _ s' => functions s' = alter f d (functions s)) (fun _ => True) s.
Proof. exact (functions_upd_level d f s). Qed.

Lemma functions_only_mem s s' : only_mem s s' -> functions s' = functions s.
Proof. by intros [n ->]. Qed.

Lemma alter_insert {A} (f : A -> A) (l : list A) d x : l !! d = Some x -> alter f d l = <[d := f x]> l.
Proof.
  intros Hx. apply list_eq. intros i. rewrite list_lookup_alter. destruct (decide (d = i)) as [->|Hne].
  - rewrite Hx. cbn. rewrite list_lookup_insert_eq; [done|]. by eapply lookup_lt_Some.
  - by rewrite list_lookup_insert_ne.
Qed.

(** indexupvalue finds the upvalue or adds it. *)
Lemma indexupvalue_wp d name v s :
  ks_ok s -> in_u 8 (e_info v) ->
  wp (indexupvalue d name v)
    (fun j s' => exists fs fs', functions s !! d = Some fs /\ functions s' = <[d := fs']> (functions s) /\
       grows fs fs' /\ znth (fs_upvalues fs') j = Some (mkUpvaldesc (e_k v) (e_info v))) (fun _ => True) s.
Proof.
  intros Hok Hinfo. unfold indexupvalue. apply wp_bind. unfold wp at 1. rewrite get_level_functions.
  destruct (functions s !! d) as [fs|] eqn:Hfs; [|done]. cbn [of_option].
  destruct (find_upvalue fs v) as [i|] eqn:Hfind.
  - apply wp_ret. exists fs, fs. split; [done|]. rewrite list_insert_id by done. split; [done|]. split; [apply grows_refl|].
    unfold find_upvalue in Hfind. apply fmap_Some in Hfind as ([i' u] & Hl & ->).
    apply list_find_Some in Hl as (Hu & [Hk Hi] & _). unfold znth. rewrite (proj2 (Z.ltb_ge _ 0)) by lia.
    rewrite Nat2Z.id. cbn in *. rewrite Hu. destruct u; cbn in *. by subst.
  - unfold luaY_checklimit. destruct (_ >? LUAI_MAXUPVALUES) eqn:Hlim.
    { unfold errorlimit, when, onLex, wp. unfold mbind, M_bind.
      match goal with |- context [luaX_lexerror ?m ?t ?ls] => destruct (lexerror_throws (A:=unit) m t ls) as (e & ls' & ->) end.
      done. }
    apply wp_bind, wp_ret. eapply wp_seq; [apply growvector_mem|]. intros size s1 Hs1%functions_only_mem.
    eapply wp_seq; [apply upd_level_wp|]. intros [] s2 Hs2. apply wp_ret. rewrite Hs1 in Hs2.
    rewrite (alter_insert _ _ _ _ Hfs) in Hs2. eexists fs, _. split; [done|]. split; [exact Hs2|]. split.
    + split; try done. cbn. by eexists.
    + assert (Hl : at_level d s = Some fs).
      { rewrite <- Hfs. unfold functions. destruct d as [|d]; [done|]. unfold at_level. by rewrite <- list_lookup_fmap. }
      apply (at_level_ok _ _ _ Hok) in Hl. unfold f_nups. cbn. rewrite <- (fo_ups _ Hl), znth_app_r, Z.sub_diag by lia.
      cbn. by rewrite uwrap_small.
Qed.

(** The functions are small enough for their numbers to be bytes. *)
Definition small (fs : FuncState) : Prop := fs_nactvar fs <= 255.

Lemma ks_ok_functions s : ks_ok s -> Forall fs_ok (functions s).
Proof. intros [Hf Hp]. constructor; [done|]. by apply Forall_fmap. Qed.

Lemma Forall2_grows_refl L : Forall2 grows L L.
Proof. induction L; constructor; [apply grows_refl|done]. Qed.
Lemma grows_trans f1 f2 f3 : grows f1 f2 -> grows f2 f3 -> grows f1 f3.
Proof. intros [] []. split; [by etrans|congruence..]. Qed.
Lemma Forall2_grows_trans L1 L2 L3 : Forall2 grows L1 L2 -> Forall2 grows L2 L3 -> Forall2 grows L1 L3.
Proof.
  intros H12. revert L3. induction H12 as [|f1 f2 L1 L2 Hg _ IH]; intros L3 H23; [done|].
  inversion H23; subst. constructor; [by eapply grows_trans|by apply IH].
Qed.
Lemma Forall2_grows_insert L d fs fs' : L !! d = Some fs -> grows fs fs' -> Forall2 grows L (<[d := fs']> L).
Proof.
  intros Hd Hg. rewrite <- (list_insert_id L d fs) at 1 by done. apply Forall2_insert; [apply Forall2_grows_refl|done].
Qed.
Lemma grows_small L L' : Forall2 grows L L' -> Forall small L -> Forall small L'.
Proof.
  induction 1 as [|fs fs' L L' Hg _ IH]; intros Hs; [done|]. apply Forall_cons in Hs as [Hf Hs].
  constructor; [|by apply IH]. unfold small. by rewrite (gr_nactvar _ _ Hg).
Qed.

(** What singlevaraux promises of the variable it returns, in the functions [L]. *)
Definition resolved (L : list FuncState) (base : bool) (r : option (nat * Z)) (var : expdesc) : Prop :=
  match r with
  | None => e_k var = VGLOBAL
  | Some (l, i) =>
      refers L (e_k var) (e_info var) l i /\ in_u 8 (e_info var) /\
      (base = false \/ l <> O -> exists fs, L !! l = Some fs /\ marked (fs_bl fs) i)
  end.

Lemma refers_kind L k info l i : refers L k info l i -> k = VLOCAL /\ l = O \/ k = VUPVAL /\ l <> O.
Proof. destruct 1; [by left|by right]. Qed.

Lemma singlevaraux_wp levels d n base s :
  (levels + d)%nat = length (functions s) -> ks_ok s -> Forall small (functions s) ->
  wp (singlevaraux levels d n base)
    (fun var s' => Forall2 grows (functions s) (functions s') /\ take d (functions s') = take d (functions s) /\
       exists r, resolve (drop d (functions s)) n = Ok r /\ resolved (drop d (functions s')) base r var) (fun _ => True) s.
Proof.
  revert d base s. induction levels as [|levels IH]; intros d base s Hlen Hok Hsm; cbn [singlevaraux].
  { apply wp_ret. split; [apply Forall2_grows_refl|]. split; [done|]. exists None. rewrite drop_ge by lia. done. }
  apply wp_bind. unfold wp at 1. rewrite get_level_functions.
  destruct (functions s !! d) as [fs|] eqn:Hfs; [|done]. cbn [of_option]. rewrite (drop_S _ _ _ Hfs).
  apply wp_bind. unfold wp at 1, lift. cbn [resolve]. destruct (searchvar fs n) as [v|] eqn:Hv; [|done]. cbn [mbind result_bind].
  assert (Hfss : fs_nactvar fs <= 255) by exact (Forall_lookup_1 _ _ _ _ Hsm Hfs).
  destruct (searchvar_range _ _ _ Hv) as [Hneg|Hpos]; destruct (v >=? 0) eqn:Hge; b2p; try lia.
  - (* in an outer function, or global *)
    eapply wp_seq; [apply wp_and; [apply (keeps_singlevaraux levels (S d) n false), Hok|apply IH; [lia|done|done]]|].
    intros var s1 (Hst1 & Hg1 & Htk1 & r & Hr & Hres). rewrite Hr. cbn [mbind result_bind].
    assert (Htk1' : take d (functions s1) = take d (functions s)).
    { assert (Htt : forall L : list FuncState, take d L = take d (take (S d) L)) by (intros L; rewrite take_take; f_equal; lia).
      by rewrite (Htt (functions s1)), Htk1, <- Htt. }
    destruct r as [[l i]|].
    + destruct Hres as (Href & Hinfo & Hmark).
      rewrite bool_decide_eq_false_2 by (destruct (refers_kind _ _ _ _ _ Href) as [[-> _]|[-> _]]; done).
      eapply wp_seq; [apply wp_and; [apply (keeps_indexupvalue d n var), Hst1|by apply indexupvalue_wp; [apply Hst1|]]|].
      intros j s2 (Hst2 & fs1 & fs' & Hfs1 & Hs2 & Hgf & Hj). apply wp_ret.
      assert (Hd : functions s2 !! d = Some fs').
      { rewrite Hs2. apply list_lookup_insert_eq. by eapply lookup_lt_Some. }
      assert (Hdrop : drop (S d) (functions s2) = drop (S d) (functions s1)) by (rewrite Hs2; apply drop_insert_lt; lia).
      split; [|split].
      * eapply Forall2_grows_trans; [exact Hg1|]. rewrite Hs2. by eapply Forall2_grows_insert.
      * rewrite Hs2, take_insert_ge by lia. exact Htk1'.
      * exists (Some (S l, i)). split; [done|]. rewrite (drop_S _ _ _ Hd), Hdrop. split; [by econstructor|]. split.
        { assert (Hfok : fs_ok fs') by exact (Forall_lookup_1 _ _ _ _ (ks_ok_functions _ (proj1 Hst2)) Hd).
          apply znth_Some_lt in Hj. rewrite (fo_ups _ Hfok) in Hj. pose proof (fo_upvalues _ Hfok).
          unfold LUAI_MAXUPVALUES in *. unfold in_u. cbn. lia. }
        intros _. by apply Hmark; left.
    + rewrite bool_decide_eq_true_2 by exact Hres. apply wp_ret. split; [done|]. split; [done|]. by exists None.
  - (* here *)
    destruct base; cbn [negb when].
    + apply wp_ret. split; [apply Forall2_grows_refl|]. split; [done|]. exists (Some (O, v)). split; [done|].
      rewrite (drop_S _ _ _ Hfs). split; [constructor|]. split; [unfold in_u; cbn; lia|]. by intros [?|?].
    + eapply wp_seq; [apply upd_level_wp|]. intros [] s1 Hs1. rewrite (alter_insert _ _ _ _ Hfs) in Hs1. apply wp_ret.
      rewrite Hs1. assert (Hd : <[d := markupval v fs]> (functions s) !! d = Some (markupval v fs)).
      { apply list_lookup_insert_eq. by eapply lookup_lt_Some. }
      split; [by eapply Forall2_grows_insert|]. split; [by rewrite take_insert_ge by lia|]. exists (Some (O, v)). split; [done|].
      rewrite (drop_S _ _ _ Hd). split; [constructor|]. split; [unfold in_u; cbn; lia|].
      intros _. exists (markupval v fs). split; [done|]. apply markupval_marks.
Qed.

(** C36: Names are resolved by static scoping: the variable singlevaraux returns
    for a name is global when no function being compiled has an active
    variable of that name, and otherwise it refers, through the upvalues of the
    functions between, to the last such variable of the innermost function; the block of a variable
    that becomes an upvalue is marked to be closed; and nothing else changes
    but upvalues added at the end. *)
Theorem singlevaraux_resolves n s :
  ks_ok s -> Forall small (functions s) ->
  wp (singlevaraux (length (functions s)) 0 n true)
    (fun var s' => Forall2 grows (functions s) (functions s') /\
       exists r, resolves (functions s) n r /\ resolved (functions s') true r var) (fun _ => True) s.
Proof.
  intros Hok Hsm. eapply wp_mono; [apply (singlevaraux_wp _ 0 n true s); [lia|done|done]| |done].
  intros var s' (Hg & _ & r & Hr & Hres). split; [done|]. exists r. split; [by apply resolve_resolves|done].
Qed.
End scope.
