(* ===== verification/CompileDemo.v ===== *)
(** * CompileDemo.v: the compiler on concrete inputs

    Witnesses of the theorems on the code generator and the parser, and what
    two sources compile to. *)

From S2P Require Import Prelude Machine Opcodes Object Mem Zio Debug Str Table TableInv TableCount TableSpec Lex LexInit Code Parser ParserLimits ParserOk JumpLists ConstPool Scope.

#[local] Existing Instances krealloc_always id_hash decimal_strto.

(** The parser on a source, after luaX_init. *)
Definition compile (src : bytes) : result Proto :=
  match luaX_init start_state with
  | (Ok _, ls) => (luaY_parser (luaZ_init [src]) (bytes_of_string "=sample") (mkKS ls (new_fs []) [] 0)).1
  | (Err e, _) => Err e
  end.

(** A state in the middle of a function with the code [code]. *)
Definition state_with (code : list Z) : KS :=
  mkKS (with_fs empty_table start_state) (set_f_lineinfo (replicate (length code) 0) (set_f_code code (new_fs []))) [] 0.

(** ** Jump lists *)

Definition two_jumps : list Z := [CREATE_ABx OP_JMP 0 (NO_JUMP + MAXARG_sBx); CREATE_ABx OP_JMP 0 (NO_JUMP + MAXARG_sBx)].

Lemma one_jump code p : match znth code p with Some i => GETARG_sBx i =? NO_JUMP | None => false end = true -> jumps code p [p].
Proof.
  destruct (znth code p) as [i|] eqn:Hi; [|done]. intros Hn%Z.eqb_eq. econstructor; [exact Hi|].
  unfold next_jump. rewrite Hn. constructor.
Qed.

Lemma luaK_concat_joins_witness :
  wp (luaK_concat 0 1)
    (fun l s' => exists code, s' = with_code code (state_with two_jumps) /\ jumps code l [0; 1] /\
       zlen code = zlen (code_of (state_with two_jumps)) /\
       forall q, last [0] <> Some q -> znth code q = znth (code_of (state_with two_jumps)) q)
    too_long (state_with two_jumps).
Proof.
  apply (luaK_concat_joins 0 1 [0] [1]).
  - apply one_jump. vm_compute. reflexivity.
  - apply one_jump. vm_compute. reflexivity.
  - apply (bool_decide_eq_true_1 (NoDup _)). vm_compute. reflexivity.
Defined.

Definition test_jump : list Z := [CREATE_ABC OP_TESTSET NO_REG 3 0; CREATE_ABx OP_JMP 0 (NO_JUMP + MAXARG_sBx)].

Lemma patchlistaux_lands_witness :
  wp (patchlistaux 1 9 4 7)
    (fun _ s' => exists code, s' = with_code code (state_with test_jump) /\ zlen code = zlen (code_of (state_with test_jump)) /\
       (forall p, p ∈ [1] -> lands 9 4 7 (code_of (state_with test_jump)) code p) /\
       (forall q, q ∉ [1] -> (forall p, p ∈ [1] -> q <> control (code_of (state_with test_jump)) p) ->
          znth code q = znth (code_of (state_with test_jump)) q))
    too_long (state_with test_jump).
Proof.
  apply (patchlistaux_lands 1 [1]).
  - intros p i Hi. apply znth_elem in Hi. revert i Hi. apply Forall_forall.
    apply (bool_decide_eq_true_1 (Forall _ _)). vm_compute. reflexivity.
  - apply one_jump. vm_compute. reflexivity.
  - split; [apply NoDup_singleton|]. intros p ->%list_elem_of_singleton. eexists. split; [reflexivity|]. vm_compute. reflexivity.
Defined.

(** ** Constants *)

Lemma empty_pool h : pool_ok (fun _ => None) empty_table h [].
Proof.
  split.
  - by apply table_ok_initial.
  - intros k n _ Hk. exfalso. revert Hk. unfold index_of.
    destruct (decide (tget empty_table k = VNil)) as [->|Hne]; [done|]. exfalso.
    assert (Hok : table_ok empty_table) by by apply table_ok_initial.
    assert (Hin : (k, tget empty_table k) ∈ entries empty_table) by by apply elem_of_entries.
    by apply elem_of_nil in Hin.
  - intros n c Hn. unfold znth in Hn. by destruct (n <? 0).
Qed.

Lemma addk_spec_witness :
  let s := state_with [] in
  wp (addk (VNumber 5) (KNumber 5)) (fun i s' => exists t', pool_at (fun _ => None) s' t' /\ znth (f_k (ks_fs s')) i = Some (KNumber 5) /\
      f_k (ks_fs s') = match index_of empty_table (VNumber 5) with Some _ => f_k (ks_fs s) | None => f_k (ks_fs s) ++ [KNumber 5] end /\
      (forall j, znth (f_k (ks_fs s')) j = Some (KNumber 5) -> j = i)) (pool_err empty_table) s.
Proof.
  cbv zeta. apply (addk_spec (fun _ => None)); [done| |reflexivity].
  split; [reflexivity|]. split; [apply empty_pool|]. split; vm_compute; congruence.
Defined.

(** ** Names *)

Definition name_x : TString := mkTString 1000 0 0 (bytes_of_string "x").

(** A function inside one that has the local variable [x] in its first block. *)
Definition outer_fs : FuncState :=
  set_fs_bl [mkBlock NO_JUMP 0 false false]
    (set_fs_nactvar 1 (set_f_sizelocvars 4 (set_f_locvars [mkLocVarT name_x 0 0] (new_fs [])))).
Definition nested : KS := mkKS (with_fs empty_table start_state) (new_fs []) [(outer_fs, Some empty_table)] 0.

Lemma new_fs_ok b : fs_ok (new_fs b).
Proof. split; cbn; try done. by left. Qed.

Lemma singlevaraux_resolves_witness :
  wp (singlevaraux (length (functions nested)) 0 name_x true)
    (fun var s' => Forall2 grows (functions nested) (functions s') /\
       exists r, resolves (functions nested) name_x r /\ resolved (functions s') true r var) (fun _ => True) nested.
Proof.
  apply (singlevaraux_resolves name_x nested).
  - split; [apply new_fs_ok|]. repeat constructor; cbn; try done.
  - repeat constructor; vm_compute; congruence.
Defined.

Example x_is_upvalue :
  match singlevaraux 2 0 name_x true nested with
  | (Ok var, s') => e_k var = VUPVAL /\ e_info var = 0 /\ fs_upvalues (ks_fs s') = [mkUpvaldesc VLOCAL 0] /\
      (bl_upval <$> fs_bl (snd (hd (new_fs [], outer_fs) ((fun p => (new_fs [], fst p)) <$> ks_prev s')))) = [true]
  | _ => False
  end.
Proof. vm_compute. by split_and!. Qed.

(** ** Sources *)

(** The prototype of a function with a closure, a loop and a table passes the
    verifier, comes back from its binary form, and has the size of stack the
    code needs. *)
Example sample_compiles :
  match compile (bytes_of_string "local a = 1; local function f(x, ...) return a + x end; for i = 1, 10 do f(i, {1, 2, k = 3}) end") with
  | Ok p => luaG_checkcode p = Ok true /\ pt_maxstacksize p = 11 /\ length (pt_p p) = 1%nat
  | Err _ => False
  end.
Proof. vm_compute. by split_and!. Qed.

Example syntax_error_message :
  compile (bytes_of_string "x = = 1") = Err (ErrSyntax "sample:1: unexpected symbol near '='").
Proof. vm_compute. reflexivity. Qed.

(** Constant folding divides in the compiler: this source traps. *)
Example constant_division_traps :
  compile (bytes_of_string "return (-9223372036854775807 - 1) / -1") = Err (UB "division trap").
Proof. vm_compute. reflexivity. Qed.

(** After a list of 539 times fifty items the count 539 stands where
    getjumpcontrol looks for a test; taken for a TESTSET it is rewritten. *)
Example setlist_count_rewritten :
  match (luaK_setlist 0 26950 50;; j ← luaK_jump; luaK_patchtohere j;; luaK_ret 0 0) (state_with []) with
  | (Ok _, s) => znth (code_of s) 1 = Some 26
  | _ => False
  end.
Proof. vm_compute. reflexivity. Qed.
