(* ===== verification/State.v ===== *)
(** * State.v: threads and the state they share (lstate.h, lstring.h)

    What the interpreter works on: the collector's state with its heap (Gc.v),
    what a [lua_State] has beside the fields the collector looks at, and of
    each prototype the fields it does not look at.  Pointers into a stack are
    indices, and pointers to CallInfos are positions in the list of those in
    use, which are what the C code keeps of them across a reallocation. *)

From S2P Require Import Prelude Machine Opcodes Object Mem Zio Table Gc Func Collect.
From S2P Require Str Lex.

(** ** Data *)

Record CallInfo := mkCI {
  ci_base : Z;
  ci_func : Z;
  ci_top : Z;
  ci_savedpc : Z;
  ci_nresults : Z;
  ci_tailcalls : Z;
}.

Definition set_ci_base (x : Z) (ci : CallInfo) : CallInfo :=
  mkCI x (ci_func ci) (ci_top ci) (ci_savedpc ci) (ci_nresults ci) (ci_tailcalls ci).
Definition set_ci_top (x : Z) (ci : CallInfo) : CallInfo :=
  mkCI (ci_base ci) (ci_func ci) x (ci_savedpc ci) (ci_nresults ci) (ci_tailcalls ci).
Definition set_ci_savedpc (x : Z) (ci : CallInfo) : CallInfo :=
  mkCI (ci_base ci) (ci_func ci) (ci_top ci) x (ci_nresults ci) (ci_tailcalls ci).
Definition set_ci_tailcalls (x : Z) (ci : CallInfo) : CallInfo :=
  mkCI (ci_base ci) (ci_func ci) (ci_top ci) (ci_savedpc ci) (ci_nresults ci) x.

(** A [lua_State] but for the fields of [Thread]: gt, the stack with its top
    and size, size_ci and the open upvalues.  The collector sees of the
    CallInfos their [top], so [th_ci] is kept equal to those of [l_cis]. *)
Record LState := mkL {
  l_status : Z;
  l_base : Z;
  l_savedpc : Z;  (* index into the code of the function *)
  l_cis : list CallInfo;  (* the CallInfos in use, [ci] first and [base_ci] last *)
  l_nCcalls : Z;
  l_baseCcalls : Z;
  l_hookmask : Z;
  l_allowhook : bool;
  l_basehookcount : Z;
  l_hookcount : Z;
  l_hook : bool;  (* [hook != NULL] *)
  l_errfunc : Z;  (* stack index *)
}.

Definition set_status (x : Z) (l : LState) : LState :=
  mkL x (l_base l) (l_savedpc l) (l_cis l) (l_nCcalls l) (l_baseCcalls l) (l_hookmask l) (l_allowhook l) (l_basehookcount l) (l_hookcount l) (l_hook l) (l_errfunc l).
Definition set_base (x : Z) (l : LState) : LState :=
  mkL (l_status l) x (l_savedpc l) (l_cis l) (l_nCcalls l) (l_baseCcalls l) (l_hookmask l) (l_allowhook l) (l_basehookcount l) (l_hookcount l) (l_hook l) (l_errfunc l).
Definition set_savedpc (x : Z) (l : LState) : LState :=
  mkL (l_status l) (l_base l) x (l_cis l) (l_nCcalls l) (l_baseCcalls l) (l_hookmask l) (l_allowhook l) (l_basehookcount l) (l_hookcount l) (l_hook l) (l_errfunc l).
Definition set_cis_of (x : list CallInfo) (l : LState) : LState :=
  mkL (l_status l) (l_base l) (l_savedpc l) x (l_nCcalls l) (l_baseCcalls l) (l_hookmask l) (l_allowhook l) (l_basehookcount l) (l_hookcount l) (l_hook l) (l_errfunc l).
Definition set_nCcalls (x : Z) (l : LState) : LState :=
  mkL (l_status l) (l_base l) (l_savedpc l) (l_cis l) x (l_baseCcalls l) (l_hookmask l) (l_allowhook l) (l_basehookcount l) (l_hookcount l) (l_hook l) (l_errfunc l).
Definition set_baseCcalls (x : Z) (l : LState) : LState :=
  mkL (l_status l) (l_base l) (l_savedpc l) (l_cis l) (l_nCcalls l) x (l_hookmask l) (l_allowhook l) (l_basehookcount l) (l_hookcount l) (l_hook l) (l_errfunc l).
Definition set_hookmask (x : Z) (l : LState) : LState :=
  mkL (l_status l) (l_base l) (l_savedpc l) (l_cis l) (l_nCcalls l) (l_baseCcalls l) x (l_allowhook l) (l_basehookcount l) (l_hookcount l) (l_hook l) (l_errfunc l).
Definition set_allowhook (x : bool) (l : LState) : LState :=
  mkL (l_status l) (l_base l) (l_savedpc l) (l_cis l) (l_nCcalls l) (l_baseCcalls l) (l_hookmask l) x (l_basehookcount l) (l_hookcount l) (l_hook l) (l_errfunc l).
Definition set_basehookcount (x : Z) (l : LState) : LState :=
  mkL (l_status l) (l_base l) (l_savedpc l) (l_cis l) (l_nCcalls l) (l_baseCcalls l) (l_hookmask l) (l_allowhook l) x (l_hookcount l) (l_hook l) (l_errfunc l).
Definition set_hookcount (x : Z) (l : LState) : LState :=
  mkL (l_status l) (l_base l) (l_savedpc l) (l_cis l) (l_nCcalls l) (l_baseCcalls l) (l_hookmask l) (l_allowhook l) (l_basehookcount l) x (l_hook l) (l_errfunc l).
Definition set_hook (x : bool) (l : LState) : LState :=
  mkL (l_status l) (l_base l) (l_savedpc l) (l_cis l) (l_nCcalls l) (l_baseCcalls l) (l_hookmask l) (l_allowhook l) (l_basehookcount l) (l_hookcount l) x (l_errfunc l).
Definition set_errfunc (x : Z) (l : LState) : LState :=
  mkL (l_status l) (l_base l) (l_savedpc l) (l_cis l) (l_nCcalls l) (l_baseCcalls l) (l_hookmask l) (l_allowhook l) (l_basehookcount l) (l_hookcount l) (l_hook l) x.

(** [v_p] has the prototypes as the compiler or the loader made them,
    [v_reserved] the field tsv.reserved of the reserved words, [v_cf] the field f of
    the C closures, and [v_ud] the block of each userdata. *)
Record VS := mkVS {
  v_g : gstate;
  v_L : gmap Z LState;
  v_p : gmap Z Proto;
  v_reserved : gmap Z Z;
  v_cf : gmap Z Z;
  v_ud : gmap Z bytes;
}.

Definition with_g (g : gstate) (s : VS) : VS := mkVS g (v_L s) (v_p s) (v_reserved s) (v_cf s) (v_ud s).
Definition upd_L (l : Z) (f : LState -> LState) (s : VS) : VS :=
  mkVS (v_g s) (alter f l (v_L s)) (v_p s) (v_reserved s) (v_cf s) (v_ud s).
Definition new_L (l : Z) (x : LState) (s : VS) : VS := mkVS (v_g s) (<[l := x]> (v_L s)) (v_p s) (v_reserved s) (v_cf s) (v_ud s).
Definition new_proto (p : Z) (x : Proto) (s : VS) : VS := mkVS (v_g s) (v_L s) (<[p := x]> (v_p s)) (v_reserved s) (v_cf s) (v_ud s).
Definition with_reserved (r : gmap Z Z) (s : VS) : VS := mkVS (v_g s) (v_L s) (v_p s) r (v_cf s) (v_ud s).
Definition new_cf (c f : Z) (s : VS) : VS := mkVS (v_g s) (v_L s) (v_p s) (v_reserved s) (<[c := f]> (v_cf s)) (v_ud s).
Definition new_ud (u : Z) (b : bytes) (s : VS) : VS := mkVS (v_g s) (v_L s) (v_p s) (v_reserved s) (v_cf s) (<[u := b]> (v_ud s)).

#[export] Instance VS_HasMem : HasMem VS := {|
  totalbytes s := gc_totalbytes (v_g s);
  set_totalbytes n s := with_g (setg_totalbytes n (v_g s)) s;
|}.
#[export] Instance VS_HasMemLaws : HasMemLaws VS.
Proof. split; [done..|]. by intros [[] ? ? ? ? ?]. Qed.

(** A function of the collector's state. *)
Definition onG {A} (m : M gstate A) : M VS A := fun s => let '(r, g) := m (v_g s) in (r, with_g g s).

(** ** Fields of a thread *)

Definition state_of (l : Z) : M VS LState := fun s =>
  (of_option "dangling thread" (v_L s !! l), s).
Definition getL {A} (l : Z) (f : LState -> A) : M VS A := x ← state_of l; mret (f x).
Definition setL (l : Z) (f : LState -> LState) : M VS unit := modify (upd_L l f).

Definition thread_of (l : Z) : M VS Thread := onG (gco2th l).
Definition set_thread (l : Z) (f : Thread -> Thread) : M VS unit :=
  th ← thread_of l; onG (upd_obj l (BThread (f th))).

Definition set_th_top (x : Z) (th : Thread) : Thread :=
  mkThread (th_gt th) (th_stack th) x (th_ci th) (th_size_ci th) (th_openupval th).
Definition set_th_ci (x : list Z) (th : Thread) : Thread :=
  mkThread (th_gt th) (th_stack th) (th_top th) x (th_size_ci th) (th_openupval th).

(** [L->top] *)
Definition top (l : Z) : M VS Z := th ← thread_of l; mret (th_top th).
Definition set_top (l x : Z) : M VS unit := set_thread l (set_th_top x).
Definition base (l : Z) : M VS Z := getL l l_base.

(** The CallInfos: [ci] is the running function's. *)
Definition set_cis (l : Z) (cis : list CallInfo) : M VS unit :=
  setL l (set_cis_of cis);; set_thread l (set_th_ci (map ci_top cis)).
Definition ci (l : Z) : M VS CallInfo :=
  c ← getL l l_cis; lift (of_option "no call" (hd_error c)).
(** A store to a field of [L->ci]. *)
Definition upd_ci (l : Z) (f : CallInfo -> CallInfo) : M VS unit :=
  c ← getL l l_cis;
  match c with
  | [] => throw (UB "no call")
  | x :: c => set_cis l (f x :: c)
  end.
(** [ci - n] for the CallInfo at [ci]. *)
Definition ci_below (l n : Z) : M VS CallInfo :=
  c ← getL l l_cis; lift (of_option "no call" (znth c n)).

(** Stack slots. *)
Definition slot_at (l i : Z) : M VS TValue :=
  th ← thread_of l; lift (of_option "stack index" (znth (th_stack th) i)).
Definition set_slot (l i : Z) (v : TValue) : M VS unit :=
  th ← thread_of l;
  lift (of_option "stack index" (znth (th_stack th) i));;
  onG (upd_obj l (BThread (set_stack (zupd i v (th_stack th)) th))).
(** [setobjs2s(L, to, from)] *)
Definition move_slot (l to from : Z) : M VS unit := v ← slot_at l from; set_slot l to v.

(** A [const TValue *] that may point into the stack of [L]; elsewhere only
    the value matters. *)
Inductive tref := TStack (i : Z) | TVal (v : TValue).
Definition rvalue (l : Z) (p : tref) : M VS TValue :=
  match p with TStack i => slot_at l i | TVal v => mret v end.

(** The prototype at an address, and the closures of functions. *)
Definition proto_at (p : Z) : M VS Proto := fun s => (of_option "dangling prototype" (v_p s !! p), s).
Definition clvalue (v : TValue) : M VS Closure :=
  match v with VFunction c => onG (gco2cl c) | _ => throw (UB "object of another type") end.
Definition ttisfunction (v : TValue) : bool := ttype v =? LUA_TFUNCTION.
Definition ttistable (v : TValue) : bool := ttype v =? LUA_TTABLE.

(** [isLua(ci)]: the prototype's address. *)
Definition ci_proto (l : Z) (c : CallInfo) : M VS (option Z) :=
  v ← slot_at l (ci_func c);
  match v with
  | VFunction c => cl ← onG (gco2cl c); mret (match cl with LClosure _ p _ => Some p | CClosure _ _ => None end)
  | _ => mret None
  end.

(** ** Strings and tables of the heap *)

Definition FIXED (m : Z) : Z := setbits m (bitmask FIXEDBIT).

Section heap.
Context `{Krealloc} `{StringHash}.

(** [luaS_newlstr]: the address. *)
Definition newstring (str : bytes) : M VS Z := onG (onStr (ts ← Str.luaS_newlstr str; mret (Str.ts_addr ts))).
Definition luaS_newliteral (s : string) : M VS Z := newstring (bytes_of_string s).
Definition luaS_fix (s : Z) : M VS unit := onG (upd_marked s FIXED).

Definition tsvalue (a : Z) : M VS bytes := onG (gco2ts a).
(** [getstr], as a C string *)
Definition svalue (a : Z) : M VS bytes := s ← tsvalue a; mret (Lex.c_string s).

(** A function of ltable.c on the table at an address. *)
Definition onH {A} (h : Z) (m : M TS A) : M VS A :=
  t ← onG (gco2h h);
  n ← gets totalbytes;
  let '(r, s) := m (mkTS n t) in
  modify (set_totalbytes (ts_mem s));;
  onG (upd_obj h (BTable (ts_t s)));;
  lift r.

(** The object is linked as soon as it has its memory. *)
Definition newtable (narray nhash : Z) : M VS Z :=
  h ← onG (luaM_malloc sizeof_Table;; luaC_link (BTable (mkTable (u8 (Z.lnot 0)) 0 None [] [dummynode_] true 0 0)));
  onH h (setarrayvector narray;; setnodevector nhash);;
  mret h.

(** A userdata of [len] bytes, chained after the main thread. *)
Definition luaS_newudata (len env : Z) : M VS Z :=
  if len >? MAX_SIZET - sizeof_Udata then onG luaM_toobig
  else
    onG (luaM_malloc (len + sizeof_Udata);;
         g ← get;
         u ← new_object (luaC_white g) (BUserdata NULL env len);
         modify (fun g => setg_rootgc (link_after (gc_mainthread g) u (gc_root_swept g))
                            (link_after (gc_mainthread g) u (gc_root_rest g)) g);;
         mret u).

(** The value found by a search. *)
Definition found (h : Z) (s : Table -> result (option slot)) : M VS TValue :=
  t ← onG (gco2h h);
  lift (o ← s t; match o with Some x => slot_get t x | None => Ok VNil end).
Definition table_get (h : Z) (key : TValue) : M VS TValue := found h (fun t => luaH_get t key).
Definition table_getstr (h key : Z) : M VS TValue := found h (fun t => luaH_getstr t key).

(** [luaH_set] with the barrier of a key that is new. *)
Definition table_set (h : Z) (key : TValue) : M VS slot :=
  t ← onG (gco2h h);
  old ← lift (luaH_get t key);
  x ← onH h (luaH_set key);
  match old with Some _ => mret tt | None => onG (luaC_barriert h key) end;;
  mret x.
Definition table_slot (h : Z) (x : slot) : M VS TValue := t ← onG (gco2h h); lift (slot_get t x).
(** [setobj2t(L, slot, v)] *)
Definition set_table_slot (h : Z) (x : slot) (v : TValue) : M VS unit :=
  t ← onG (gco2h h); onG (upd_obj h (BTable (slot_set x v t))).

(** The upvalue at an address: [*uv->v]. *)
Definition upval_get (uv : Z) : M VS TValue := onG (u ← gco2uv uv; uv_value u).
Definition upval_set (uv : Z) (v : TValue) : M VS unit :=
  u ← onG (gco2uv uv);
  match u with
  | UOpen l i => set_slot l i v
  | UClosed _ => onG (upd_obj uv (BUpVal (UClosed v)))
  end.
End heap.
