(* ===== verification/Errors.v ===== *)
(** * Errors.v: metamethods and run-time errors (ltm.c, ldebug.c)

    The search for metamethods, and the messages of run-time errors: the
    position of the running instruction, and the name of the variable that
    symbolic execution finds for a value (Debug.v).  An error leaves its
    message on the stack; the error value of the model carries the text
    without its position.  [call] is what luaD_call does.

    luaO_pushfstring is the string it builds, pushed at once; the pieces it
    pushes and concatenates on the way are left out. *)

From S2P Require Import Prelude Machine Opcodes Object Mem Debug Table Gc Func Collect State.
From S2P Require Lex.

(** ** Metamethods (ltm.h, ltm.c) *)

Definition TM_INDEX : Z := 0.
Definition TM_NEWINDEX : Z := 1.
Definition TM_EQ : Z := 4.
Definition TM_ADD : Z := 5.
Definition TM_SUB : Z := 6.
Definition TM_MUL : Z := 7.
Definition TM_DIV : Z := 8.
Definition TM_MOD : Z := 9.
Definition TM_POW : Z := 10.
Definition TM_UNM : Z := 11.
Definition TM_LEN : Z := 12.
Definition TM_LT : Z := 13.
Definition TM_LE : Z := 14.
Definition TM_CONCAT : Z := 15.
Definition TM_CALL : Z := 16.

Definition luaT_typenames : list string :=
  ["nil"; "boolean"; "userdata"; "number"; "string"; "table"; "function"; "userdata"; "thread"; "proto"; "upval"].

(** [luaT_typenames[ttype(o)]] *)
Definition typename (o : TValue) : M VS string :=
  lift (of_option "type name" (znth luaT_typenames (ttype o))).

(** [\x27%s\x27] *)
Definition LUA_QS (name : bytes) : bytes := [39] ++ name ++ [39].

(** [getline(f, pc)] *)
Definition getline (p : Proto) (pc : Z) : result Z :=
  match pt_lineinfo p with
  | [] => Ok 0
  | l => of_option "line info" (znth l pc)
  end.

Section errors.
Context `{Krealloc} `{StringHash} `{KernelStrto}.
Context (call : Z -> Z -> Z -> M VS unit).   (* luaD_call *)

Definition fasttm (mt : option Z) (e : Z) : M VS (option TValue) := onG (gfasttm mt e).

Definition luaT_gettmbyobj (o : TValue) (event : Z) : M VS TValue :=
  mt ← (match o with
        | VTable h => t ← onG (gco2h h); mret (t_metatable t)
        | VUserdata u =>
            x ← onG (deref u);
            match obj x with BUserdata mt _ _ => mret (opt_ptr mt) | _ => onG bad_cast end
        | _ => g ← gets v_g; mt ← lift (of_option "array index" (znth (gc_mt g) (ttype o))); mret (opt_ptr mt)
        end);
  match mt with
  | None => mret VNil
  | Some mt =>
      g ← gets v_g;
      name ← lift (of_option "array index" (znth (gc_tmname g) event));
      table_getstr mt name
  end.

(** ** The stack (ldo.h, ldo.c) *)

Definition growstack (l n : Z) : M VS unit :=
  th ← thread_of l;
  if n <=? th_stacksize th  (* double size is enough? *)
  then onG (luaD_reallocstack l (2 * th_stacksize th))
  else onG (luaD_reallocstack l (th_stacksize th + n)).

Definition checkstack (l n : Z) : M VS unit :=
  th ← thread_of l;
  when (th_stacksize th - EXTRA_STACK - 1 - th_top th <=? n) (growstack l n).

Definition inc_top (l : Z) : M VS unit := checkstack l 1;; n ← top l; set_top l (n + 1).

Definition pushstr (l : Z) (s : bytes) : M VS unit :=
  a ← newstring s;
  n ← top l;
  set_slot l n (VString a);;
  inc_top l.

(** ** Where the program is (ldebug.c) *)

(** [pcRel(ci->savedpc, p)] of the CallInfo [n] below the running one. *)
Definition currentpc (l n : Z) : M VS Z :=
  c ← ci_below l n;
  p ← ci_proto l c;
  match p with
  | None => mret (-1)  (* function is not a Lua function? *)
  | Some _ =>
      when (n =? 0) (pc ← getL l l_savedpc; upd_ci l (set_ci_savedpc pc));;
      c ← ci_below l n;
      mret (ci_savedpc c - 1)
  end.

Definition currentline (l n : Z) : M VS Z :=
  pc ← currentpc l n;
  if pc <? 0 then mret (-1)  (* only active lua functions have current-line information *)
  else
    c ← ci_below l n;
    p ← ci_proto l c;
    match p with
    | None => mret (-1)
    | Some p => pt ← proto_at p; lift (getline pt pc)
    end.

Definition kname (p : Proto) (c : Z) : bytes :=
  match (if ISK c then znth (pt_k p) (INDEXK c) else None) with
  | Some (KString (Some s)) => Lex.c_string s
  | _ => bytes_of_string "?"
  end.

(** The kind and the name of the variable at a position of the stack frame; a
    move goes to a lower register. *)
Fixpoint getobjname (fuel : nat) (p : Proto) (pc stackpos : Z) : result (option (string * bytes)) :=
  match fuel with
  | O => Err OutOfFuel
  | S fuel =>
      match luaF_getlocalname p (stackpos + 1) pc with
      | Some name => Ok (Some ("local"%string, default [] (Lex.c_string <$> name)))  (* is a local? *)
      | None =>
          i ← symbexec p pc stackpos;  (* try symbolic execution *)
          match z2op (GET_OPCODE i) with
          | Some OP_GETGLOBAL =>
              k ← of_option "constant index" (znth (pt_k p) (GETARG_Bx i));  (* global index *)
              Ok (match k with KString (Some s) => Some ("global"%string, Lex.c_string s) | _ => None end)
          | Some OP_MOVE =>
              if GETARG_B i <? GETARG_A i then getobjname fuel p pc (GETARG_B i)  (* get name for `b' *)
              else Ok None
          | Some OP_GETTABLE => Ok (Some ("field"%string, kname p (GETARG_C i)))
          | Some OP_GETUPVAL =>
              match pt_upvalues p with
              | [] => Ok (Some ("upvalue"%string, bytes_of_string "?"))
              | l =>
                  name ← of_option "upvalue name" (znth l (GETARG_B i));
                  Ok (Some ("upvalue"%string, default [] (Lex.c_string <$> name)))
              end
          | Some OP_SELF => Ok (Some ("method"%string, kname p (GETARG_C i)))
          | _ => Ok None  (* no useful name found *)
          end
      end
  end.

(** [getobjname] of the function of the CallInfo [n] below the running one. *)
Definition objname_at (l n stackpos : Z) : M VS (option (string * bytes)) :=
  c ← ci_below l n;
  p ← ci_proto l c;
  match p with
  | None => mret None
  | Some p =>
      pt ← proto_at p;
      pc ← currentpc l n;
      lift (getobjname (S (Z.to_nat stackpos)) pt pc stackpos)
  end.
Definition objname (l stackpos : Z) : M VS (option (string * bytes)) := objname_at l 0 stackpos.

(** ** Raising an error *)

(** The message is on the top of the stack. *)
Definition luaG_errormsg {A} (l : Z) (what : string) : M VS A :=
  ef ← getL l l_errfunc;
  when (negb (ef =? 0))  (* is there an error handling function? *)
    (f ← slot_at l ef;
     if negb (ttisfunction f) then throw ErrErr
     else
       n ← top l;
       move_slot l n (n - 1);;  (* move argument *)
       set_slot l (n - 1) f;;  (* push function *)
       inc_top l;;
       n ← top l;
       call l (n - 2) 1);;  (* call it *)
  throw (ErrRun what).

Definition addinfo (l : Z) (msg : bytes) : M VS unit :=
  c ← ci l;
  p ← ci_proto l c;
  match p with  (* is Lua code? *)
  | None => mret tt
  | Some p =>
      line ← currentline l 0;  (* add file:line information *)
      pt ← proto_at p;
      let buff := luaO_chunkid (Lex.c_string (default [] (pt_source pt))) LUA_IDSIZE in
      pushstr l (buff ++ [58] ++ Lex.fmt_d line ++ bytes_of_string ": " ++ msg)
  end.

Definition luaG_runerror {A} (l : Z) (msg : bytes) : M VS A :=
  pushstr l msg;;
  addinfo l msg;;
  luaG_errormsg l (Lex.string_of_bytes msg).

(** Errors of functions that work on the state of the collector. *)
Definition raising {A} (l : Z) (m : M VS A) : M VS A := fun s =>
  match m s with
  | (Err (ErrRun msg), s) => luaG_runerror l (bytes_of_string msg) s
  | r => r
  end.

(** [isinstack] and the distance to the base. *)
Definition stack_position (l : Z) (o : tref) : M VS (option Z) :=
  match o with
  | TVal _ => mret None
  | TStack i =>
      c ← ci l;
      b ← base l;
      mret (if (ci_base c <=? i) && (i <? ci_top c) then Some (i - b) else None)
  end.

Definition luaG_typeerror {A} (l : Z) (o : tref) (op : string) : M VS A :=
  v ← rvalue l o;
  t ← typename v;
  pos ← stack_position l o;
  kind ← (match pos with Some pos => objname l pos | None => mret None end);
  match kind with
  | Some (kind, name) =>
      luaG_runerror l (bytes_of_string "attempt to " ++ bytes_of_string op ++ [32] ++ bytes_of_string kind ++ [32] ++
        LUA_QS name ++ bytes_of_string " (a " ++ bytes_of_string t ++ bytes_of_string " value)")
  | None =>
      luaG_runerror l (bytes_of_string "attempt to " ++ bytes_of_string op ++ bytes_of_string " a " ++
        bytes_of_string t ++ bytes_of_string " value")
  end.

Definition luaG_concaterror {A} (l p1 p2 : Z) : M VS A :=
  v ← slot_at l p1;
  luaG_typeerror l (TStack (if ttisstring v || ttisnumber v then p2 else p1)) "concatenate".

(** The number of a value, if it has one ([luaV_tonumber] of lvm.c). *)
Definition luaV_tonumber (o : TValue) : M VS (option Z) :=
  match o with
  | VNumber n => mret (Some n)
  | VString s => str ← svalue s; mret (luaO_str2d str)
  | _ => mret None
  end.

Definition luaG_aritherror {A} (l : Z) (p1 p2 : tref) : M VS A :=
  v ← rvalue l p1;
  n ← luaV_tonumber v;
  luaG_typeerror l (match n with None => p1 | Some _ => p2 end) "perform arithmetic on".  (* first operand is wrong *)

Definition luaG_ordererror {A} (l : Z) (p1 p2 : TValue) : M VS A :=
  t1 ← typename p1;
  t2 ← typename p2;
  if bool_decide (String.get 2 t1 = String.get 2 t2)
  then luaG_runerror l (bytes_of_string "attempt to compare two " ++ bytes_of_string t1 ++ bytes_of_string " values")
  else luaG_runerror l (bytes_of_string "attempt to compare " ++ bytes_of_string t1 ++
         bytes_of_string " with " ++ bytes_of_string t2).
End errors.
