(* ===== verification/Call.v ===== *)
(** * Call.v: calls, errors and coroutines (ldo.h, ldo.c)

    The protocol of a call: luaD_precall makes the frame of a Lua function or
    runs a C function, luaD_poscall takes the frame away and moves the
    results; protected calls and coroutines on top of them.

    The C functions of closures, hooks, and finalisers are the host's.  A
    longjmp is an error of the monad, which ends what runs when no protected
    call is around it; what the engine does then is in Panic.v. *)

From S2P Require Import Prelude Machine Opcodes Object Mem Debug Table Gc Func Collect State Errors.

Definition LUA_YIELD : Z := 1.
Definition LUA_ERRRUN : Z := 2.
Definition LUA_ERRSYNTAX : Z := 3.
Definition LUA_ERRMEM : Z := 4.
Definition LUA_ERRERR : Z := 5.

Definition LUA_MINSTACK : Z := 20.
Definition LUA_HOOKCALL : Z := 0.
Definition LUA_HOOKRET : Z := 1.
Definition LUA_HOOKLINE : Z := 2.
Definition LUA_HOOKCOUNT : Z := 3.
Definition LUA_HOOKTAILRET : Z := 4.
Definition LUA_MASKCALL : Z := 1.
Definition LUA_MASKRET : Z := 2.
Definition LUA_MASKLINE : Z := 4.
Definition LUA_MASKCOUNT : Z := 8.

(** The results of luaD_precall. *)
Definition PCRLUA : Z := 0.
Definition PCRC : Z := 1.
Definition PCRYIELD : Z := 2.

(** [c_function f l]: the C function at [f], called on the thread [l];
    [hook_function l event line i_ci]; a finaliser as Collect.v has it; what a
    block of memory at an address holds before it is written; and the turns a
    step of the collector gets. *)
Class Host := {
  c_function : Z -> Z -> M VS Z;
  hook_function : Z -> Z -> Z -> Z -> M VS unit;
  finalizer : TValue -> Z -> M gstate unit;
  fresh_block : Z -> bytes;
  collector_fuel : nat;
}.

(** The status a protected call returns for an error; an error that is no
    longjmp is not caught. *)
Definition error_status (e : error) : option Z :=
  match e with
  | ErrRun _ => Some LUA_ERRRUN
  | ErrSyntax _ => Some LUA_ERRSYNTAX
  | ErrMem => Some LUA_ERRMEM
  | ErrErr => Some LUA_ERRERR
  | UB _ | OutOfFuel => None
  end.

Definition luaD_rawrunprotected (f : M VS unit) : M VS Z := fun s =>
  match f s with
  | (Ok _, s) => (Ok 0, s)
  | (Err e, s) => match error_status e with Some status => (Ok status, s) | None => (Err e, s) end
  end.

(** [for (i = wanted; i != 0 && firstResult < L->top; i--)]: [n] results are
    left. *)
Fixpoint move_results (l : Z) (n : nat) (i res first : Z) : M VS (Z * Z) :=
  match n with
  | O => mret (i, res)
  | S n =>
      if i =? 0 then mret (i, res)
      else move_slot l res first;; move_results l n (i - 1) (res + 1) (first + 1)
  end.

(** [for (st = from; st < to; st++) setnilvalue(st)] *)
Definition clear_slots (l from to : Z) : M VS unit := mfor (seqZ from (to - from)) (fun st => set_slot l st VNil).

Section call.
Context `{Krealloc} `{StringHash} `{KernelStrto} `{Host}.
Context (call : Z -> Z -> Z -> M VS unit).   (* luaD_call, for error handlers *)

Definition luaC_checkGC (l : Z) : M VS unit :=
  g ← gets v_g;
  when (gc_totalbytes g >=? gc_GCthreshold g) (onG (luaC_step finalizer collector_fuel l)).

(** ** Errors *)

Definition luaD_seterrorobj (l errcode oldtop : Z) : M VS unit :=
  (if errcode =? LUA_ERRMEM then a ← luaS_newliteral "not enough memory"; set_slot l oldtop (VString a)
   else if errcode =? LUA_ERRERR then a ← luaS_newliteral "error in error handling"; set_slot l oldtop (VString a)
   else if (errcode =? LUA_ERRSYNTAX) || (errcode =? LUA_ERRRUN) then
     n ← top l; move_slot l oldtop (n - 1)  (* error message on current top *)
   else mret tt);;
  set_top l (oldtop + 1).

Definition restore_stack_limit (l : Z) : M VS unit :=
  th ← thread_of l;
  when (th_size_ci th >? LUAI_MAXCALLS)  (* there was an overflow? *)
    (c ← getL l l_cis;
     let inuse := zlen c - 1 in
     when (inuse + 1 <? LUAI_MAXCALLS)  (* can `undo' overflow? *)
       (onG (luaD_reallocCI l LUAI_MAXCALLS))).

(** ** CallInfos *)

Definition growCI (l : Z) : M VS unit :=
  th ← thread_of l;
  if th_size_ci th >? LUAI_MAXCALLS then throw ErrErr  (* overflow while handling overflow? *)
  else
    raising call l (onG (luaD_reallocCI l (2 * th_size_ci th)));;
    th ← thread_of l;
    when (th_size_ci th >? LUAI_MAXCALLS) (luaG_runerror call l (bytes_of_string "stack overflow")).

(** The next CallInfo; the caller sets its fields. *)
Definition inc_ci (l : Z) (c : CallInfo) : M VS unit :=
  th ← thread_of l;
  cs ← getL l l_cis;
  when (zlen cs =? th_size_ci th) (growCI l);;
  set_cis l (c :: cs).

(** ** Hooks *)

Definition luaD_callhook (l event line : Z) : M VS unit :=
  L ← state_of l;
  when (l_hook L && l_allowhook L)
    (oldtop ← top l;
     c ← ci l;
     let i_ci := if event =? LUA_HOOKTAILRET then 0  (* tail call; no debug information about it *)
                 else zlen (l_cis L) - 1 in
     checkstack l LUA_MINSTACK;;  (* ensure minimum stack size *)
     n ← top l;
     upd_ci l (set_ci_top (n + LUA_MINSTACK));;
     setL l (set_allowhook false);;  (* cannot call hooks inside a hook *)
     hook_function l event line i_ci;;
     setL l (set_allowhook true);;
     upd_ci l (set_ci_top (ci_top c));;
     set_top l oldtop).

(** ** Calls *)

(** The table [arg] of an old-style vararg function: [nvar] extra arguments. *)
Definition vararg_table (l nvar : Z) : M VS Z :=
  luaC_checkGC l;;
  h ← raising call l (newtable nvar 1);  (* create `arg' table *)
  mfor (seqZ 0 nvar) (fun i =>
    n ← top l;
    v ← slot_at l (n - nvar + i);
    x ← raising call l (table_set h (VNumber (i + 1)));
    set_table_slot h x v);;
  name ← luaS_newliteral "n";  (* store counter in field `n' *)
  x ← raising call l (table_set h (VString name));
  set_table_slot h x (VNumber nvar);;
  mret h.

Definition adjust_varargs (l : Z) (p : Proto) (actual : Z) : M VS Z :=
  let nfixargs := pt_numparams p in
  n ← top l;
  let missing := Z.max 0 (nfixargs - actual) in
  clear_slots l n (n + missing);;
  set_top l (n + missing);;
  let actual := Z.max actual nfixargs in
  htab ← (if negb (Z.land (pt_is_vararg p) VARARG_NEEDSARG =? 0)  (* compat. with old-style vararg? *)
          then h ← vararg_table l (actual - nfixargs); mret (Some h)
          else mret None);
  (* move fixed parameters to final position *)
  n ← top l;
  let fixed := n - actual in  (* first fixed argument *)
  let base := n in  (* final position of first argument *)
  mfor (seqZ 0 nfixargs) (fun i => move_slot l (base + i) (fixed + i);; set_slot l (fixed + i) VNil);;
  set_top l (base + nfixargs);;
  (* add `arg' parameter *)
  match htab with
  | None => mret tt
  | Some h => set_slot l (base + nfixargs) (VTable h);; set_top l (base + nfixargs + 1)
  end;;
  mret base.

Definition tryfuncTM (l func : Z) : M VS unit :=
  f ← slot_at l func;
  tm ← luaT_gettmbyobj f TM_CALL;
  if negb (ttisfunction tm) then luaG_typeerror call l (TStack func) "call"
  else
    (* open a hole inside the stack at `func' *)
    n ← top l;
    mfor (rev (seqZ (func + 1) (n - func))) (fun p => move_slot l p (p - 1));;
    inc_top l;;
    set_slot l func tm.  (* tag method is the new function to be called *)

(** [while ((L->hookmask & LUA_MASKRET) && L->ci->tailcalls--)]: a hook leaves
    the CallInfo alone. *)
Fixpoint tail_hooks (fuel : nat) (l : Z) : M VS unit :=
  match fuel with
  | O => throw OutOfFuel
  | S fuel =>
      L ← state_of l;
      if Z.land (l_hookmask L) LUA_MASKRET =? 0 then mret tt
      else
        c ← ci l;
        upd_ci l (set_ci_tailcalls (ci_tailcalls c - 1));;
        if ci_tailcalls c =? 0 then mret tt
        else luaD_callhook l LUA_HOOKTAILRET (-1);; tail_hooks fuel l
  end.

Definition callrethooks (l firstResult : Z) : M VS Z :=
  luaD_callhook l LUA_HOOKRET (-1);;
  c ← ci l;
  p ← ci_proto l c;
  match p with
  | None => mret tt
  | Some _ => tail_hooks (S (Z.to_nat (ci_tailcalls c))) l  (* Lua function? *)
  end;;
  mret firstResult.

(** 0 iff wanted == LUA_MULTRET *)
Definition luaD_poscall (l firstResult : Z) : M VS Z :=
  L ← state_of l;
  firstResult ← (if negb (Z.land (l_hookmask L) LUA_MASKRET =? 0) then callrethooks l firstResult else mret firstResult);
  cs ← getL l l_cis;
  match cs with
  | c :: (c1 :: _) as cs =>
      let wanted := ci_nresults c in
      set_cis l cs;;
      setL l (set_base (ci_base c1));;  (* restore base *)
      setL l (set_savedpc (ci_savedpc c1));;  (* restore savedpc *)
      n ← top l;
      (* move results to correct place; res == final position of 1st result *)
      r ← move_results l (Z.to_nat (n - firstResult)) wanted (ci_func c) firstResult;
      let '(i, res) := (r : Z * Z) in
      let missing := Z.max 0 i in
      clear_slots l res (res + missing);;
      set_top l (res + missing);;
      mret (wanted - LUA_MULTRET)
  | _ => throw (UB "return from the first call")
  end.

(** The frame of a Lua function whose closure is at [func]. *)
Definition enter_lua (l func nresults : Z) (p : Proto) : M VS unit :=
  checkstack l (pt_maxstacksize p);;
  n ← top l;
  b ← (if pt_is_vararg p =? 0 then  (* no varargs? *)
         when (n >? func + 1 + pt_numparams p) (set_top l (func + 1 + pt_numparams p));;
         mret (func + 1)
       else adjust_varargs l p (n - func - 1));  (* vararg function *)
  let ci_top := b + pt_maxstacksize p in
  inc_ci l (mkCI b func ci_top 0 nresults 0);;  (* now `enter' new function *)
  setL l (set_base b);;
  setL l (set_savedpc 0);;  (* starting point *)
  n ← top l;
  clear_slots l n ci_top;;
  set_top l ci_top;;
  L ← state_of l;
  when (negb (Z.land (l_hookmask L) LUA_MASKCALL =? 0))
    (setL l (set_savedpc (l_savedpc L + 1));;  (* hooks assume 'pc' is already incremented *)
     luaD_callhook l LUA_HOOKCALL (-1);;
     L ← state_of l;
     setL l (set_savedpc (l_savedpc L - 1))).  (* correct 'pc' *)

(** [cl->c.f] of the closure at [c]. *)
Definition c_pointer (c : Z) : M VS Z := fun s => (of_option "no C function" (v_cf s !! c), s).

Definition enter_c (l func nresults c : Z) : M VS Z :=
  checkstack l LUA_MINSTACK;;  (* ensure minimum stack size *)
  n ← top l;
  inc_ci l (mkCI (func + 1) func (n + LUA_MINSTACK) 0 nresults 0);;  (* now `enter' new function *)
  setL l (set_base (func + 1));;
  L ← state_of l;
  when (negb (Z.land (l_hookmask L) LUA_MASKCALL =? 0)) (luaD_callhook l LUA_HOOKCALL (-1));;
  f ← c_pointer c;
  n ← c_function f l;  (* do the actual call *)
  if n <? 0 then mret PCRYIELD  (* yielding? *)
  else
    t ← top l;
    luaD_poscall l (t - n);;
    mret PCRC.

Definition luaD_precall (l func nresults : Z) : M VS Z :=
  f ← slot_at l func;
  when (negb (ttisfunction f)) (tryfuncTM l func);;  (* check the `function' tag method *)
  f ← slot_at l func;
  cl ← clvalue f;
  pc ← getL l l_savedpc;
  upd_ci l (set_ci_savedpc pc);;
  match cl with
  | LClosure _ p _ => pt ← proto_at p; enter_lua l func nresults pt;; mret PCRLUA  (* Lua function? prepare its call *)
  | CClosure _ _ => enter_c l func nresults (gcvalue f)  (* if is a C function, call it *)
  end.

Section run.
Context (luaV_execute : Z -> Z -> M VS unit).

(** nCcalls is an unsigned short. *)
Definition luaD_call (l func nResults : Z) : M VS unit :=
  L ← state_of l;
  let n := u16 (l_nCcalls L + 1) in
  setL l (set_nCcalls n);;
  when (n >=? LUAI_MAXCCALLS)
    (if n =? LUAI_MAXCCALLS then luaG_runerror call l (bytes_of_string "C stack overflow")
     else when (n >=? LUAI_MAXCCALLS + Z.shiftr LUAI_MAXCCALLS 3) (throw ErrErr));;  (* error while handing stack error *)
  r ← luaD_precall l func nResults;
  when (r =? PCRLUA) (luaV_execute l 1);;  (* is a Lua function? call it *)
  L ← state_of l;
  setL l (set_nCcalls (u16 (l_nCcalls L - 1)));;
  luaC_checkGC l.

(** ** Protected calls *)

Definition luaD_pcall (l : Z) (func : M VS unit) (old_top ef : Z) : M VS Z :=
  L ← state_of l;
  let oldnCcalls := l_nCcalls L in
  let old_ci := length (l_cis L) in
  let old_allowhooks := l_allowhook L in
  let old_errfunc := l_errfunc L in
  setL l (set_errfunc ef);;
  status ← luaD_rawrunprotected func;
  when (negb (status =? 0))  (* an error occurred? *)
    (onG (luaF_close l old_top);;  (* close eventual pending closures *)
     luaD_seterrorobj l status old_top;;
     setL l (set_nCcalls oldnCcalls);;
     L ← state_of l;
     set_cis l (drop (length (l_cis L) - old_ci) (l_cis L));;
     c ← ci l;
     setL l (set_base (ci_base c));;
     setL l (set_savedpc (ci_savedpc c));;
     setL l (set_allowhook old_allowhooks);;
     restore_stack_limit l);;
  setL l (set_errfunc old_errfunc);;
  mret status.

(** ** Coroutines *)

Definition resume (l firstArg : Z) : M VS unit :=
  L ← state_of l;
  go ← (if l_status L =? 0 then  (* start coroutine? *)
          r ← luaD_precall l (firstArg - 1) LUA_MULTRET; mret (r =? PCRLUA)
        else  (* resuming from previous yield *)
          setL l (set_status 0);;
          c ← ci l;
          p ← ci_proto l c;
          match p with
          | None =>  (* `common' yield: finish interrupted execution of `OP_CALL' *)
              r ← luaD_poscall l firstArg;
              when (negb (r =? 0)) (c ← ci l; set_top l (ci_top c))
          | Some _ => setL l (set_base (ci_base c))  (* yielded inside a hook: just continue its execution *)
          end;;
          mret true);
  when go (cs ← getL l l_cis; luaV_execute l (zlen cs - 1)).

Definition resume_error (l : Z) (msg : string) : M VS Z :=
  c ← ci l;
  set_top l (ci_base c);;
  pushstr l (bytes_of_string msg);;
  mret LUA_ERRRUN.

Definition lua_resume (l nargs : Z) : M VS Z :=
  L ← state_of l;
  if negb (l_status L =? LUA_YIELD) && (negb (l_status L =? 0) || negb (zlen (l_cis L) =? 1))
  then resume_error l "cannot resume non-suspended coroutine"
  else if l_nCcalls L >=? LUAI_MAXCCALLS then resume_error l "C stack overflow"
  else
    let n := u16 (l_nCcalls L + 1) in
    setL l (set_nCcalls n);; setL l (set_baseCcalls n);;
    t ← top l;
    status ← luaD_rawrunprotected (resume l (t - nargs));
    status ← (if negb (status =? 0) then  (* error? *)
                setL l (set_status (u8 status));;  (* mark thread as `dead' *)
                t ← top l;
                luaD_seterrorobj l status t;;
                t ← top l;
                upd_ci l (set_ci_top t);;
                mret status
              else getL l l_status);
    L ← state_of l;
    setL l (set_nCcalls (u16 (l_nCcalls L - 1)));;
    mret status.

Definition lua_yield (l nresults : Z) : M VS Z :=
  L ← state_of l;
  if l_nCcalls L >? l_baseCcalls L
  then luaG_runerror call l (bytes_of_string "attempt to yield across metamethod/C-call boundary")
  else
    t ← top l;
    setL l (set_base (t - nresults));;  (* protect stack slots below *)
    setL l (set_status LUA_YIELD);;
    mret (-1).
End run.
End call.
