(* ===== verification/Vm.v ===== *)
(** * Vm.v: the operations on values (lvm.h, lvm.c)

    Conversions, indexing with metamethods, comparison, concatenation and
    arithmetic, as the interpreter performs them.  [call] is luaD_call. *)

From S2P Require Import Prelude Machine Opcodes Object Mem Zio Debug Table Gc Func Collect State Errors Call.
From S2P Require Lex.

Definition MAXTAGLOOP : nat := 100.

(** ** Comparison of strings *)

(** [strcoll], which is the kernel's strcmp, on C strings without their NUL. *)
Fixpoint strcmp (l r : bytes) : Z :=
  match l, r with
  | [], [] => 0
  | [], _ :: _ => -1
  | _ :: _, [] => 1
  | x :: l, y :: r => if x <? y then -1 else if y <? x then 1 else strcmp l r
  end.

(** The loop of [l_strcmp]: each turn passes a zero of both strings. *)
Fixpoint l_strcmp_loop (fuel : nat) (l : bytes) (ll : Z) (r : bytes) (lr : Z) : result Z :=
  match fuel with
  | O => Err OutOfFuel
  | S fuel =>
      let temp := strcmp (Lex.c_string l) (Lex.c_string r) in
      if negb (temp =? 0) then Ok temp
      else  (* strings are equal up to a `\0' *)
        let len := zlen (Lex.c_string l) in  (* index of first `\0' in both strings *)
        if len =? lr then Ok (if len =? ll then 0 else 1)  (* r is finished? *)
        else if len =? ll then Ok (-1)  (* l is smaller than r (because r is not finished) *)
        else  (* both strings longer than `len'; go on comparing (after the `\0') *)
          let len := len + 1 in
          l_strcmp_loop fuel (drop (Z.to_nat len) l) (ll - len) (drop (Z.to_nat len) r) (lr - len)
  end.

Definition l_strcmp (ls rs : bytes) : result Z :=
  l_strcmp_loop (S (length ls)) ls (zlen ls) rs (zlen rs).

Section vm.
Context `{Krealloc} `{StringHash} `{KernelStrto} `{Host}.
Context (call : Z -> Z -> Z -> M VS unit).

(** ** Conversions *)

(** Of the value in a slot, in place. *)
Definition luaV_tostring (l i : Z) : M VS bool :=
  v ← slot_at l i;
  match v with
  | VNumber n =>
      s ← raising call l (newstring (Lex.fmt_d n));
      set_slot l i (VString s);;
      mret true
  | _ => mret false
  end.
Definition tostring (l i : Z) : M VS bool := v ← slot_at l i; if ttisstring v then mret true else luaV_tostring l i.

(** ** Hooks *)

Definition traceexec (l pc : Z) : M VS unit :=
  L ← state_of l;
  let mask := l_hookmask L in
  let oldpc := l_savedpc L in
  setL l (set_savedpc pc);;
  when (negb (Z.land mask LUA_MASKCOUNT =? 0) && (l_hookcount L =? 0))
    (setL l (set_hookcount (l_basehookcount L));;
     luaD_callhook l LUA_HOOKCOUNT (-1));;
  when (negb (Z.land mask LUA_MASKLINE =? 0))
    (c ← ci l;
     p ← ci_proto l c;
     match p with
     | None => throw (UB "object of another type")
     | Some p =>
         pt ← proto_at p;
         let npc := pc - 1 in
         newline ← lift (getline pt npc);
         (* call linehook when enter a new function, when jump back (loop), or when enter a new line *)
         go ← (if (npc =? 0) || (pc <=? oldpc) then mret true
               else oldline ← lift (getline pt (oldpc - 1)); mret (negb (newline =? oldline)));
         when go (luaD_callhook l LUA_HOOKLINE newline)
     end).

(** ** Calling metamethods *)

(** [call func top-n ...]: the function and its arguments are pushed. *)
Definition push_call (l : Z) (args : list TValue) (nresults : Z) : M VS unit :=
  n ← top l;
  mfor (zip (seqZ n (zlen args)) args) (fun '(i, v) => set_slot l i v);;
  checkstack l (zlen args);;
  set_top l (n + zlen args);;
  call l n nresults.

Definition callTMres (l res : Z) (f p1 p2 : TValue) : M VS unit :=
  push_call l [f; p1; p2] 1;;
  n ← top l;
  set_top l (n - 1);;
  move_slot l res (n - 1).

Definition callTM (l : Z) (f p1 p2 p3 : TValue) : M VS unit := push_call l [f; p1; p2; p3] 0.

(** ** Indexing *)

(** [loop] turns of the chain of metamethods are left. *)
Fixpoint gettable_loop (loop : nat) (l : Z) (t : tref) (key : TValue) (val : Z) : M VS unit :=
  match loop with
  | O => luaG_runerror call l (bytes_of_string "loop in gettable")
  | S loop =>
      v ← rvalue l t;
      let again (tm : TValue) : M VS unit :=
        if ttisfunction tm then callTMres l val tm v key
        else gettable_loop loop l (TVal tm) key val in  (* else repeat with `tm' *)
      match v with
      | VTable h =>  (* `t' is a table? *)
          res ← table_get h key;  (* do a primitive get *)
          if negb (ttisnil res) then set_slot l val res  (* result is no nil? *)
          else
            tb ← onG (gco2h h);
            tm ← fasttm (t_metatable tb) TM_INDEX;
            match tm with
            | None => set_slot l val res  (* or no TM? *)
            | Some tm => again tm  (* else will try the tag method *)
            end
      | _ =>
          tm ← luaT_gettmbyobj v TM_INDEX;
          if ttisnil tm then luaG_typeerror call l t "index" else again tm
      end
  end.
Definition luaV_gettable (l : Z) (t : tref) (key : TValue) (val : Z) : M VS unit :=
  gettable_loop MAXTAGLOOP l t key val.

Fixpoint settable_loop (loop : nat) (l : Z) (t : tref) (key val : TValue) : M VS unit :=
  match loop with
  | O => luaG_runerror call l (bytes_of_string "loop in settable")
  | S loop =>
      v ← rvalue l t;
      let again (tm : TValue) : M VS unit :=
        if ttisfunction tm then callTM l tm v key val
        else settable_loop loop l (TVal tm) key val in
      match v with
      | VTable h =>
          oldval ← raising call l (table_set h key);  (* do a primitive set *)
          let store := set_table_slot h oldval val;; onG (luaC_barriert h val) in
          x ← table_slot h oldval;
          if negb (ttisnil x) then store  (* result is no nil? *)
          else
            tb ← onG (gco2h h);
            tm ← fasttm (t_metatable tb) TM_NEWINDEX;
            match tm with
            | None => store  (* or no TM? *)
            | Some tm => again tm
            end
      | _ =>
          tm ← luaT_gettmbyobj v TM_NEWINDEX;
          if ttisnil tm then luaG_typeerror call l t "index" else again tm
      end
  end.
Definition luaV_settable (l : Z) (t : tref) (key val : TValue) : M VS unit :=
  settable_loop MAXTAGLOOP l t key val.

(** Whether there was a metamethod. *)
Definition call_binTM (l : Z) (p1 p2 : TValue) (res event : Z) : M VS bool :=
  tm ← luaT_gettmbyobj p1 event;  (* try first operand *)
  tm ← (if ttisnil tm then luaT_gettmbyobj p2 event else mret tm);  (* try second operand *)
  if ttisnil tm then mret false else callTMres l res tm p1 p2;; mret true.

(** ** Comparison *)

Definition get_compTM (mt1 mt2 : option Z) (event : Z) : M VS (option TValue) :=
  tm1 ← fasttm mt1 event;
  match tm1 with
  | None => mret None  (* no metamethod *)
  | Some tm1 =>
      if bool_decide (mt1 = mt2) then mret (Some tm1)  (* same metatables => same metamethods *)
      else
        tm2 ← fasttm mt2 event;
        match tm2 with
        | None => mret None  (* no metamethod *)
        | Some tm2 => mret (if luaO_rawequalObj tm1 tm2 then Some tm1 else None)  (* same metamethods? *)
        end
  end.

(** [callTMres(L, L->top, ...); !l_isfalse(L->top)] *)
Definition call_test (l : Z) (tm p1 p2 : TValue) : M VS bool :=
  n ← top l;
  callTMres l n tm p1 p2;;
  n ← top l;
  v ← slot_at l n;
  mret (negb (l_isfalse v)).

(** [None] for -1. *)
Definition call_orderTM (l : Z) (p1 p2 : TValue) (event : Z) : M VS (option bool) :=
  tm1 ← luaT_gettmbyobj p1 event;
  if ttisnil tm1 then mret None  (* no metamethod? *)
  else
    tm2 ← luaT_gettmbyobj p2 event;
    if negb (luaO_rawequalObj tm1 tm2) then mret None  (* different metamethods? *)
    else b ← call_test l tm1 p1 p2; mret (Some b).

Definition luaV_lessthan (l : Z) (x y : TValue) : M VS bool :=
  if negb (ttype x =? ttype y) then luaG_ordererror call l x y
  else
    match x, y with
    | VNumber a, VNumber b => mret (luai_numlt a b)
    | VString a, VString b => s ← tsvalue a; t ← tsvalue b; c ← lift (l_strcmp s t); mret (c <? 0)
    | _, _ =>
        res ← call_orderTM l x y TM_LT;
        match res with Some b => mret b | None => luaG_ordererror call l x y end
    end.

Definition lessequal (l : Z) (x y : TValue) : M VS bool :=
  if negb (ttype x =? ttype y) then luaG_ordererror call l x y
  else
    match x, y with
    | VNumber a, VNumber b => mret (luai_numle a b)
    | VString a, VString b => s ← tsvalue a; t ← tsvalue b; c ← lift (l_strcmp s t); mret (c <=? 0)
    | _, _ =>
        res ← call_orderTM l x y TM_LE;  (* first try `le' *)
        match res with
        | Some b => mret b
        | None =>
            res ← call_orderTM l y x TM_LT;  (* else try `lt' *)
            match res with Some b => mret (negb b) | None => luaG_ordererror call l x y end
        end
    end.

Definition metatable_of (v : TValue) : M VS (option Z) :=
  match v with
  | VTable h => t ← onG (gco2h h); mret (t_metatable t)
  | VUserdata u =>
      x ← onG (deref u);
      match obj x with BUserdata mt _ _ => mret (opt_ptr mt) | _ => onG bad_cast end
  | _ => mret None
  end.

Definition equal_with_TM (l : Z) (t1 t2 : TValue) : M VS bool :=
  mt1 ← metatable_of t1;
  mt2 ← metatable_of t2;
  tm ← get_compTM mt1 mt2 TM_EQ;
  match tm with
  | None => mret false  (* no TM? *)
  | Some tm => call_test l tm t1 t2  (* call TM *)
  end.

(** Both values have the same type. *)
Definition luaV_equalval (l : Z) (t1 t2 : TValue) : M VS bool :=
  match t1, t2 with
  | VNil, _ => mret true
  | VNumber a, VNumber b => mret (luai_numeq a b)
  | VBoolean a, VBoolean b => mret (a =? b)  (* true must be 1 !! *)
  | VLightUserdata a, VLightUserdata b => mret (a =? b)
  | VUserdata a, VUserdata b | VTable a, VTable b =>
      if a =? b then mret true else equal_with_TM l t1 t2  (* will try TM *)
  | _, _ => mret (gcvalue t1 =? gcvalue t2)
  end.
Definition equalobj (l : Z) (o1 o2 : TValue) : M VS bool :=
  if ttype o1 =? ttype o2 then luaV_equalval l o1 o2 else mret false.

(** ** Concatenation *)

Definition is_strnum (v : TValue) : bool := ttisstring v || ttisnumber v.

(** The length of the string in a slot. *)
Definition slot_string (l i : Z) : M VS bytes :=
  v ← slot_at l i; match v with VString s => tsvalue s | _ => throw (UB "object of another type") end.

(** [for (n = 1; n < total && tostring(L, top-n-1); n++)]: how many values
    there are, and their length. *)
Fixpoint collect_loop (fuel : nat) (l top n total tl : Z) : M VS (Z * Z) :=
  match fuel with
  | O => throw OutOfFuel
  | S fuel =>
      if n <? total then
        b ← tostring l (top - n - 1);
        if (b : bool) then
          s ← slot_string l (top - n - 1);
          if zlen s >=? MAX_SIZET - tl then luaG_runerror call l (bytes_of_string "string length overflow")
          else collect_loop fuel l top (n + 1) total (tl + zlen s)
        else mret (n, tl)
      else mret (n, tl)
  end.

(** [for (i=n; i>0; i--)]: the contents of the buffer. *)
Fixpoint concat_strings (l top : Z) (i : nat) : M VS bytes :=
  match i with
  | O => mret []
  | S i' => s ← slot_string l (top - Z.of_nat i); rest ← concat_strings l top i'; mret (s ++ rest)
  end.

(** One turn: the number of elements handled in this pass (at least 2). *)
Definition concat_pass (l total last : Z) : M VS Z :=
  b ← base l;
  let top := b + last + 1 in
  x ← slot_at l (top - 2);
  y ← slot_at l (top - 1);
  str ← (if is_strnum x then tostring l (top - 1) else mret false);
  if negb (str : bool) then
    done ← call_binTM l x y (top - 2) TM_CONCAT;
    (if (done : bool) then mret tt else luaG_concaterror call l (top - 2) (top - 1));;
    mret 2
  else
    s ← slot_string l (top - 1);
    if zlen s =? 0 then tostring l (top - 2);; mret 2  (* second op is empty? result is first op (as string) *)
    else
      (* at least two string values; get as many as possible *)
      r ← collect_loop (Z.to_nat total) l top 1 total (zlen s);
      let '(n, tl) := (r : Z * Z) in
      g ← gets v_g;
      raising call l (onG (size ← luaZ_openspace (gc_buffsize g) tl; modify (setg_buffsize size)));;
      buffer ← concat_strings l top (Z.to_nat n);  (* concat all strings *)
      a ← raising call l (newstring buffer);
      set_slot l (top - n) (VString a);;
      mret n.

(** [do ... while (total > 1)] *)
Fixpoint concat_loop (fuel : nat) (l total last : Z) : M VS unit :=
  match fuel with
  | O => throw OutOfFuel
  | S fuel =>
      n ← concat_pass l total last;
      let total := total - (n - 1) in  (* got `n' strings to create 1 new *)
      let last := last - (n - 1) in
      if total >? 1 then concat_loop fuel l total last else mret tt  (* repeat until only 1 result left *)
  end.

Definition luaV_concat (l total last : Z) : M VS unit := concat_loop (S (Z.to_nat total)) l total last.

(** ** Arithmetic *)

Definition arith (op nb nc : Z) : result Z :=
  if op =? TM_ADD then Ok (luai_numadd nb nc)
  else if op =? TM_SUB then Ok (luai_numsub nb nc)
  else if op =? TM_MUL then Ok (luai_nummul nb nc)
  else if op =? TM_DIV then luai_numdiv nb nc
  else if op =? TM_MOD then luai_nummod nb nc
  else if op =? TM_POW then Ok (luai_numpow nb nc)
  else if op =? TM_UNM then Ok (luai_numunm nb)
  else Err (UB "assertion").

Definition Arith (l ra : Z) (rb rc : tref) (op : Z) : M VS unit :=
  vb ← rvalue l rb;
  vc ← rvalue l rc;
  b ← luaV_tonumber vb;
  c ← (match b with None => mret None | Some _ => luaV_tonumber vc end);
  match b, c with
  | Some nb, Some nc => r ← lift (arith op nb nc); set_slot l ra (VNumber r)
  | _, _ =>
      done ← call_binTM l vb vc ra op;
      if (done : bool) then mret tt else luaG_aritherror call l rb rc
  end.
End vm.
