(* ===== verification/Execute.v ===== *)
(** * Execute.v: the main loop of the interpreter (luaV_execute of lvm.c)

    [frame] has the local variables of luaV_execute: the closure, the base and
    the program counter, which L->savedpc is not equal to between the points
    where the code saves it; the constants are those of the closure's
    prototype.  An instruction ends in an [outcome]: the loop goes on, it
    starts over with the function on top of the call stack, or luaV_execute
    returns. *)

From S2P Require Import Prelude Machine Opcodes Object Mem Debug Table Gc Func Collect State Errors Call Vm.

Record frame := mkFrame {
  x_cl : Z;
  x_base : Z;
  x_pc : Z;
}.
Definition set_pc (pc : Z) (fr : frame) : frame := mkFrame (x_cl fr) (x_base fr) pc.
Definition rebase (b : Z) (fr : frame) : frame := mkFrame (x_cl fr) b (x_pc fr).

Inductive outcome :=
  | Next (fr : frame)
  | Reentry (nexeccalls : Z)
  | Return.

Definition RA (fr : frame) (i : Z) : Z := x_base fr + GETARG_A i.
Definition RB (fr : frame) (i : Z) : Z := x_base fr + GETARG_B i.
Definition RC (fr : frame) (i : Z) : Z := x_base fr + GETARG_C i.

(** The running closure: its environment, prototype and upvalues. *)
Definition running (fr : frame) : M VS (Z * Z * list Z) :=
  cl ← onG (gco2cl (x_cl fr));
  match cl with
  | LClosure env p upvals => mret (env, p, upvals)
  | CClosure _ _ => throw (UB "object of another type")
  end.
Definition frame_env (fr : frame) : M VS Z := '(env, _, _) ← running fr; mret env.
Definition frame_proto (fr : frame) : M VS Proto := '(_, p, _) ← running fr; proto_at p.
(** [cl->upvals[b]] *)
Definition frame_upval (fr : frame) (b : Z) : M VS Z :=
  '(_, _, upvals) ← running fr; lift (of_option "upvalue index" (znth upvals b)).
(** [k[n]] *)
Definition frame_k (fr : frame) (n : Z) : M VS TValue :=
  '(_, p, _) ← running fr;
  po ← onG (gco2p p);
  lift (of_option "constant index" (znth (p_k po) n)).
(** [cl->p->p[n]] *)
Definition frame_p (fr : frame) (n : Z) : M VS Z :=
  '(_, p, _) ← running fr;
  po ← onG (gco2p p);
  lift (of_option "prototype index" (znth (p_p po) n)).
(** The instruction at [pc]. *)
Definition fetch (fr : frame) (pc : Z) : M VS Z := pt ← frame_proto fr; lift (code_at pt pc).

(** [RKB], [RKC] *)
Definition RK (fr : frame) (x : Z) : M VS tref :=
  if ISK x then v ← frame_k fr (INDEXK x); mret (TVal v) else mret (TStack (x_base fr + x)).
Definition rk_value (l : Z) (fr : frame) (x : Z) : M VS TValue := r ← RK fr x; rvalue l r.

Definition dojump (fr : frame) (i : Z) : frame := set_pc (x_pc fr + i) fr.

(** After a test: the next instruction is a jump, taken or passed over. *)
Definition test_jump (fr : frame) (taken : bool) : M VS frame :=
  fr ← (if taken then j ← fetch fr (x_pc fr); mret (dojump fr (GETARG_sBx j)) else mret fr);
  mret (set_pc (x_pc fr + 1) fr).

Definition arith_event (op : OpCode) : Z :=
  match op with
  | OP_ADD => TM_ADD | OP_SUB => TM_SUB | OP_MUL => TM_MUL | OP_DIV => TM_DIV
  | OP_MOD => TM_MOD | OP_POW => TM_POW | _ => TM_UNM
  end.

Section execute.
Context `{Krealloc} `{StringHash} `{KernelStrto} `{Host}.
Context (call : Z -> Z -> Z -> M VS unit).   (* luaD_call *)

Definition Protect {A} (l : Z) (fr : frame) (x : M VS A) : M VS (A * frame) :=
  setL l (set_savedpc (x_pc fr));;
  a ← x;
  b ← base l;
  mret (a, rebase b fr).
Definition protected (l : Z) (fr : frame) (x : M VS unit) : M VS outcome :=
  '(_, fr) ← Protect l fr x; mret (Next fr).

(** ** Instructions without control *)

Definition op_setlist (l : Z) (fr : frame) (i : Z) : M VS outcome :=
  let ra := RA fr i in
  n ← (if GETARG_B i =? 0 then
         t ← top l; c ← ci l; set_top l (ci_top c);; mret (t - ra - 1)
       else mret (GETARG_B i));
  '(c, fr) ← (if GETARG_C i =? 0 then c ← fetch fr (x_pc fr); mret (s32 c, set_pc (x_pc fr + 1) fr)
              else mret (GETARG_C i, fr));
  v ← slot_at l ra;
  match v with
  | VTable h =>
      let last := s32 ((c - 1) * LFIELDS_PER_FLUSH + n) in
      t ← onG (gco2h h);
      when (last >? t_sizearray t)  (* needs more space? *)
        (raising call l (onH h (luaH_resizearray last)));;  (* pre-alloc it at once *)
      mfor (seqZ 0 n) (fun j =>
        val ← slot_at l (ra + (n - j));
        x ← raising call l (onH h (luaH_setnum (last - j)));
        set_table_slot h x val;;
        onG (luaC_barriert h val));;
      mret (Next fr)
  | _ => mret (Next fr)
  end.

(** The upvalue that a pseudo-instruction names. *)
Definition capture (l : Z) (fr : frame) (j : Z) : M VS Z :=
  match z2op (GET_OPCODE j) with
  | Some OP_GETUPVAL => frame_upval fr (GETARG_B j)
  | _ => onG (luaF_findupval l (x_base fr + GETARG_B j))
  end.

Definition set_upval (ncl j uv : Z) : M VS unit :=
  cl ← onG (gco2cl ncl);
  match cl with
  | LClosure env p upvals => onG (upd_obj ncl (BFunction (LClosure env p (zupd j uv upvals))))
  | CClosure _ _ => throw (UB "object of another type")
  end.

Definition op_closure (l : Z) (fr : frame) (i : Z) : M VS outcome :=
  p ← frame_p fr (GETARG_Bx i);
  pt ← proto_at p;
  let nup := pt_nups pt in
  env ← frame_env fr;
  ncl ← onG (luaF_newLclosure nup env p);
  mfor (seqZ 0 nup) (fun j =>
    w ← fetch fr (x_pc fr + j);
    uv ← capture l fr w;
    set_upval ncl j uv);;
  set_slot l (RA fr i) (VFunction ncl);;
  protected l (set_pc (x_pc fr + nup) fr) (luaC_checkGC l).

Definition op_vararg (l : Z) (fr : frame) (i : Z) : M VS outcome :=
  let b := GETARG_B i - 1 in
  c ← ci l;
  pt ← frame_proto fr;
  let n := ci_base c - ci_func c - pt_numparams pt - 1 in
  '(b, fr) ← (if b =? LUA_MULTRET then
                '(_, fr) ← Protect l fr (checkstack l n);
                set_top l (RA fr i + n);;
                mret (n, fr)
              else mret (b, fr));
  mfor (seqZ 0 b) (fun j =>
    if j <? n then move_slot l (RA fr i + j) (ci_base c - n + j) else set_slot l (RA fr i + j) VNil);;
  mret (Next fr).

Definition op_len (l : Z) (fr : frame) (i : Z) : M VS outcome :=
  v ← slot_at l (RB fr i);
  match v with
  | VTable h => t ← onG (gco2h h); n ← lift (luaH_getn t); set_slot l (RA fr i) (VNumber n);; mret (Next fr)
  | VString s => str ← tsvalue s; set_slot l (RA fr i) (VNumber (s64 (zlen str)));; mret (Next fr)
  | _ =>  (* try metamethod *)
      protected l fr
        (done ← call_binTM call l v VNil (RA fr i) TM_LEN;
         if (done : bool) then mret tt else luaG_typeerror call l (TStack (RB fr i)) "get length of")
  end.

Definition op_arith (l : Z) (fr : frame) (i : Z) (op : OpCode) (rb rc : tref) : M VS outcome :=
  vb ← rvalue l rb;
  vc ← rvalue l rc;
  match vb, vc with
  | VNumber nb, VNumber nc =>
      r ← lift (arith (arith_event op) nb nc); set_slot l (RA fr i) (VNumber r);; mret (Next fr)
  | _, _ => protected l fr (Arith call l (RA fr i) rb rc (arith_event op))
  end.

(** ** Tests and loops *)

(** A comparison, which may call. *)
Definition op_compare (l : Z) (fr : frame) (i : Z) (compare : TValue -> TValue -> M VS bool) : M VS outcome :=
  x ← rk_value l fr (GETARG_B i);
  y ← rk_value l fr (GETARG_C i);
  '(res, fr) ← Protect l fr (compare x y);
  fr ← test_jump fr (Z.b2z res =? GETARG_A i);
  mret (Next fr).

Definition for_number (l ra : Z) (what : string) : M VS Z :=
  v ← slot_at l ra;
  n ← luaV_tonumber v;
  match n with
  | Some n => set_slot l ra (VNumber n);; mret n
  | None => luaG_runerror call l (bytes_of_string "'for' " ++ bytes_of_string what ++ bytes_of_string " must be a number")
  end.

Definition op_forprep (l : Z) (fr : frame) (i : Z) : M VS outcome :=
  let ra := RA fr i in
  setL l (set_savedpc (x_pc fr));;  (* next steps may throw errors *)
  init ← for_number l ra "initial value";
  for_number l (ra + 1) "limit";;
  step ← for_number l (ra + 2) "step";
  set_slot l ra (VNumber (luai_numsub init step));;
  mret (Next (dojump fr (GETARG_sBx i))).

(** [nvalue] of a slot *)
Definition slot_number (l i : Z) : M VS Z :=
  v ← slot_at l i; match v with VNumber n => mret n | _ => throw (UB "object of another type") end.

Definition op_forloop (l : Z) (fr : frame) (i : Z) : M VS outcome :=
  let ra := RA fr i in
  step ← slot_number l (ra + 2);
  init ← slot_number l ra;
  let idx := luai_numadd init step in  (* increment index *)
  limit ← slot_number l (ra + 1);
  if (if luai_numlt 0 step then luai_numle idx limit else luai_numle limit idx) then
    set_slot l ra (VNumber idx);;  (* update internal index... *)
    set_slot l (ra + 3) (VNumber idx);;  (* ...and external index *)
    mret (Next (dojump fr (GETARG_sBx i)))  (* jump back *)
  else mret (Next fr).

Definition op_tforloop (l : Z) (fr : frame) (i : Z) : M VS outcome :=
  let cb := RA fr i + 3 in  (* call base *)
  move_slot l (cb + 2) (RA fr i + 2);;
  move_slot l (cb + 1) (RA fr i + 1);;
  move_slot l cb (RA fr i);;
  set_top l (cb + 3);;  (* func. + 2 args (state and index) *)
  '(_, fr) ← Protect l fr (call l cb (GETARG_C i));
  c ← ci l;
  set_top l (ci_top c);;
  let cb := RA fr i + 3 in  (* previous call may change the stack *)
  v ← slot_at l cb;
  when (negb (ttisnil v)) (set_slot l (cb - 1) v);;  (* save control variable *)
  fr ← test_jump fr (negb (ttisnil v));  (* continue loop? *)
  mret (Next fr).

(** ** Calls and returns *)

Definition op_call (l : Z) (fr : frame) (i nexeccalls : Z) : M VS outcome :=
  let nresults := GETARG_C i - 1 in
  when (negb (GETARG_B i =? 0)) (set_top l (RA fr i + GETARG_B i));;  (* else previous instruction set top *)
  setL l (set_savedpc (x_pc fr));;
  r ← luaD_precall call l (RA fr i) nresults;
  if r =? PCRLUA then mret (Reentry (nexeccalls + 1))  (* restart luaV_execute over new Lua function *)
  else if r =? PCRC then
    (* it was a C function (`precall' called it); adjust results *)
    when (nresults >=? 0) (c ← ci l; set_top l (ci_top c));;
    b ← base l;
    mret (Next (rebase b fr))
  else mret Return.  (* yield *)

(** The new frame in place of the one that called. *)
Definition replace_frame (l : Z) : M VS unit :=
  L ← state_of l;
  match l_cis L with
  | new :: old :: rest =>
      let func := ci_func old in
      let pfunc := ci_func new in  (* previous function index *)
      th ← thread_of l;
      match th_openupval th with [] => mret tt | _ => onG (luaF_close l (ci_base old)) end;;
      let b := func + (ci_base new - pfunc) in
      setL l (set_base b);;
      t ← top l;
      let aux := Z.max 0 (t - pfunc) in
      mfor (seqZ 0 aux) (fun aux => move_slot l (func + aux) (pfunc + aux));;  (* move frame down *)
      set_top l (func + aux);;  (* correct top *)
      (* one more call lost; remove new frame *)
      set_cis l (mkCI b func (func + aux) (l_savedpc L) (ci_nresults old) (ci_tailcalls old + 1) :: rest)
  | _ => throw (UB "tail call in the first call")
  end.

Definition op_tailcall (l : Z) (fr : frame) (i nexeccalls : Z) : M VS outcome :=
  when (negb (GETARG_B i =? 0)) (set_top l (RA fr i + GETARG_B i));;
  setL l (set_savedpc (x_pc fr));;
  r ← luaD_precall call l (RA fr i) LUA_MULTRET;
  if r =? PCRLUA then replace_frame l;; mret (Reentry nexeccalls)
  else if r =? PCRC then b ← base l; mret (Next (rebase b fr))
  else mret Return.

Definition op_return (l : Z) (fr : frame) (i nexeccalls : Z) : M VS outcome :=
  let b := GETARG_B i in
  when (negb (b =? 0)) (set_top l (RA fr i + b - 1));;
  th ← thread_of l;
  match th_openupval th with [] => mret tt | _ => onG (luaF_close l (x_base fr)) end;;
  setL l (set_savedpc (x_pc fr));;
  b ← luaD_poscall l (RA fr i);
  if nexeccalls - 1 =? 0 then mret Return  (* was previous function running `here'? no: return *)
  else  (* yes: continue its execution *)
    when (negb (b =? 0)) (c ← ci l; set_top l (ci_top c));;
    mret (Reentry (nexeccalls - 1)).

(** ** One instruction *)

Definition exec_op (l : Z) (fr : frame) (i nexeccalls : Z) (op : OpCode) : M VS outcome :=
  let ra := RA fr i in
  let next : M VS outcome := mret (Next fr) in
  match op with
  | OP_MOVE => move_slot l ra (RB fr i);; next
  | OP_LOADK => v ← frame_k fr (GETARG_Bx i); set_slot l ra v;; next
  | OP_LOADBOOL =>
      set_slot l ra (VBoolean (GETARG_B i));;
      mret (Next (if negb (GETARG_C i =? 0) then set_pc (x_pc fr + 1) fr else fr))  (* skip next instruction (if C) *)
  | OP_LOADNIL =>
      set_slot l (RB fr i) VNil;;
      mfor (rev (seqZ ra (RB fr i - ra))) (fun r => set_slot l r VNil);; next
  | OP_GETUPVAL => uv ← frame_upval fr (GETARG_B i); v ← upval_get uv; set_slot l ra v;; next
  | OP_GETGLOBAL =>
      k ← frame_k fr (GETARG_Bx i);
      env ← frame_env fr;
      protected l fr (luaV_gettable call l (TVal (VTable env)) k ra)
  | OP_GETTABLE =>
      key ← rk_value l fr (GETARG_C i);
      protected l fr (luaV_gettable call l (TStack (RB fr i)) key ra)
  | OP_SETGLOBAL =>
      env ← frame_env fr;
      k ← frame_k fr (GETARG_Bx i);
      v ← slot_at l ra;
      protected l fr (luaV_settable call l (TVal (VTable env)) k v)
  | OP_SETUPVAL =>
      uv ← frame_upval fr (GETARG_B i);
      v ← slot_at l ra;
      upval_set uv v;;
      onG (luaC_barrier uv v);; next
  | OP_SETTABLE =>
      key ← rk_value l fr (GETARG_B i);
      val ← rk_value l fr (GETARG_C i);
      protected l fr (luaV_settable call l (TStack ra) key val)
  | OP_NEWTABLE =>
      h ← raising call l (newtable (luaO_fb2int (GETARG_B i)) (luaO_fb2int (GETARG_C i)));
      set_slot l ra (VTable h);;
      protected l fr (luaC_checkGC l)
  | OP_SELF =>
      move_slot l (ra + 1) (RB fr i);;
      key ← rk_value l fr (GETARG_C i);
      protected l fr (luaV_gettable call l (TStack (RB fr i)) key ra)
  | OP_ADD | OP_SUB | OP_MUL | OP_DIV | OP_MOD | OP_POW =>
      rb ← RK fr (GETARG_B i);
      rc ← RK fr (GETARG_C i);
      op_arith l fr i op rb rc
  | OP_UNM => op_arith l fr i OP_UNM (TStack (RB fr i)) (TStack (RB fr i))
  | OP_NOT =>
      v ← slot_at l (RB fr i);  (* next assignment may change this value *)
      set_slot l ra (VBoolean (Z.b2z (l_isfalse v)));; next
  | OP_LEN => op_len l fr i
  | OP_CONCAT =>
      let b := GETARG_B i in
      let c := GETARG_C i in
      '(_, fr) ← Protect l fr (luaV_concat call l (c - b + 1) c;; luaC_checkGC l);
      move_slot l (RA fr i) (x_base fr + b);;
      mret (Next fr)
  | OP_JMP => mret (Next (dojump fr (GETARG_sBx i)))
  | OP_EQ => op_compare l fr i (equalobj call l)
  | OP_LT => op_compare l fr i (luaV_lessthan call l)
  | OP_LE => op_compare l fr i (lessequal call l)
  | OP_TEST =>
      v ← slot_at l ra;
      fr ← test_jump fr (negb (Z.b2z (l_isfalse v) =? GETARG_C i));
      mret (Next fr)
  | OP_TESTSET =>
      v ← slot_at l (RB fr i);
      let taken := negb (Z.b2z (l_isfalse v) =? GETARG_C i) in
      when taken (set_slot l ra v);;
      fr ← test_jump fr taken;
      mret (Next fr)
  | OP_CALL => op_call l fr i nexeccalls
  | OP_TAILCALL => op_tailcall l fr i nexeccalls
  | OP_RETURN => op_return l fr i nexeccalls
  | OP_FORLOOP => op_forloop l fr i
  | OP_FORPREP => op_forprep l fr i
  | OP_TFORLOOP => op_tforloop l fr i
  | OP_SETLIST => op_setlist l fr i
  | OP_CLOSE => onG (luaF_close l ra);; next
  | OP_CLOSURE => op_closure l fr i
  | OP_VARARG => op_vararg l fr i
  end.

(** The hooks before an instruction; whether one of them yielded. *)
Definition count_hook (l : Z) (fr : frame) : M VS (bool * frame) :=
  L ← state_of l;
  if Z.land (l_hookmask L) (Z.lor LUA_MASKLINE LUA_MASKCOUNT) =? 0 then mret (false, fr)
  else
    let n := s32 (l_hookcount L - 1) in
    setL l (set_hookcount n);;
    if (n =? 0) || negb (Z.land (l_hookmask L) LUA_MASKLINE =? 0) then
      traceexec l (x_pc fr);;
      status ← getL l l_status;
      if status =? LUA_YIELD then setL l (set_savedpc (x_pc fr - 1));; mret (true, fr)  (* did hook yield? *)
      else b ← base l; mret (false, rebase b fr)
    else mret (false, fr).

(** A turn of the main loop; an opcode that is none of the enumeration does
    nothing. *)
Definition exec_instr (l : Z) (fr : frame) (nexeccalls : Z) : M VS outcome :=
  i ← fetch fr (x_pc fr);
  let fr := set_pc (x_pc fr + 1) fr in
  '(yielded, fr) ← count_hook l fr;
  if (yielded : bool) then mret Return
  else
    match z2op (GET_OPCODE i) with
    | Some op => exec_op l fr i nexeccalls op
    | None => mret (Next fr)
    end.

(** [reentry]: the function on top of the call stack. *)
Definition reentry (l : Z) : M VS frame :=
  L ← state_of l;
  c ← ci l;
  f ← slot_at l (ci_func c);
  match f with
  | VFunction cl => mret (mkFrame cl (l_base L) (l_savedpc L))
  | _ => throw (UB "object of another type")
  end.
End execute.

Section main.
Context `{Krealloc} `{StringHash} `{KernelStrto} `{Host}.

(** The interpreter on fuel: an instruction takes one, and a nested call has
    what is left. *)
Fixpoint main_loop (fuel : nat) (l : Z) (fr : frame) (nexeccalls : Z) : M VS unit :=
  match fuel with
  | O => throw OutOfFuel
  | S fuel =>
      r ← exec_instr (call_loop fuel) l fr nexeccalls;
      match r with
      | Next fr => main_loop fuel l fr nexeccalls
      | Reentry n => fr ← reentry l; main_loop fuel l fr n
      | Return => mret tt
      end
  end
(** luaD_call *)
with call_loop (fuel : nat) (l func nResults : Z) : M VS unit :=
  match fuel with
  | O => throw OutOfFuel
  | S fuel =>
      luaD_call (call_loop fuel) (fun l n => fr ← reentry l; main_loop fuel l fr n) l func nResults
  end.

Definition luaV_execute (fuel : nat) (l nexeccalls : Z) : M VS unit :=
  fr ← reentry l; main_loop fuel l fr nexeccalls.
End main.
