(* ===== verification/LuaState.v ===== *)
(** * LuaState.v: making and closing a state (lstate.c, luaT_init of ltm.c)

    The steps of lua_newstate, each of which may run out of memory, and of
    lua_close.  The main thread and the global state are one block of memory;
    the main thread gets the first address. *)

From S2P Require Import Prelude Machine Opcodes Object Mem Zio Table Gc Func Collect State Errors Call.
From S2P Require Str Lex.

Definition sizeof_global_State : Z := 432.
(** [state_size(LG)]; LUAI_EXTRASPACE is 0. *)
Definition state_size_LG : Z := sizeof_lua_State + sizeof_global_State.
Definition LUAI_GCPAUSE : Z := 200.
Definition LUAI_GCMUL : Z := 200.
Definition NUM_TAGS : Z := 9.

Definition luaT_eventname : list string :=
  ["__index"; "__newindex"; "__gc"; "__mode"; "__eq"; "__add"; "__sub"; "__mul"; "__div"; "__mod";
   "__pow"; "__unm"; "__len"; "__lt"; "__le"; "__concat"; "__call"].

Definition setg_registry (x : TValue) (g : gstate) : gstate :=
  mkG (gc_heap g) (gc_currentwhite g) (gc_gcstate g) (gc_gray g) (gc_grayagain g) (gc_weak g) (gc_totalbytes g)
    (gc_root_swept g) (gc_root_rest g) (gc_sweepstrgc g) (gc_strt g) (gc_nuse g) (gc_tmudata g)
    (gc_uvhead g) (gc_next g) (gc_GCthreshold g) (gc_estimate g) (gc_gcdept g) (gc_gcpause g)
    (gc_gcstepmul g) (gc_buffsize g) x (gc_mainthread g) (gc_mt g) (gc_tmname g).
Definition setg_tmname (x : list Z) (g : gstate) : gstate :=
  mkG (gc_heap g) (gc_currentwhite g) (gc_gcstate g) (gc_gray g) (gc_grayagain g) (gc_weak g) (gc_totalbytes g)
    (gc_root_swept g) (gc_root_rest g) (gc_sweepstrgc g) (gc_strt g) (gc_nuse g) (gc_tmudata g)
    (gc_uvhead g) (gc_next g) (gc_GCthreshold g) (gc_estimate g) (gc_gcdept g) (gc_gcpause g)
    (gc_gcstepmul g) (gc_buffsize g) (gc_registry g) (gc_mainthread g) (gc_mt g) x.
Definition setg_mt (x : list Z) (g : gstate) : gstate :=
  mkG (gc_heap g) (gc_currentwhite g) (gc_gcstate g) (gc_gray g) (gc_grayagain g) (gc_weak g) (gc_totalbytes g)
    (gc_root_swept g) (gc_root_rest g) (gc_sweepstrgc g) (gc_strt g) (gc_nuse g) (gc_tmudata g)
    (gc_uvhead g) (gc_next g) (gc_GCthreshold g) (gc_estimate g) (gc_gcdept g) (gc_gcpause g)
    (gc_gcstepmul g) (gc_buffsize g) (gc_registry g) (gc_mainthread g) x (gc_tmname g).

Definition set_gt (x : TValue) (th : Thread) : Thread :=
  mkThread x (th_stack th) (th_top th) (th_ci th) (th_size_ci th) (th_openupval th).

(** [preinit_state]: the two parts of a thread. *)
Definition preinit_L : LState := mkL 0 0 0 [] 0 0 0 true 0 0 false 0.
Definition preinit_thread : Thread := mkThread VNil [] 0 [] 0 [].

(** A function of llex.c that works on strings only. *)
Definition onLexer {A} (m : M Lex.LexState A) : M VS A := fun s =>
  match str_view (v_g s) with
  | None => (Err (UB "dangling pointer"), s)
  | Some v =>
      let no_token := Lex.mkToken Lex.TK_EOS Lex.NoInfo in
      let '(r, ls) := m (Lex.mkLex 0 0 0 no_token no_token None v (v_reserved s) (luaZ_init []) [] 0 [] 0) in
      (r, with_reserved (Lex.ls_reserved ls) (with_g (str_put (Lex.ls_G ls) (v_g s)) s))
  end.

Section state.
Context `{Krealloc} `{StringHash} `{KernelStrto} `{Host}.

Definition stack_init (l1 : Z) : M VS unit :=
  (* initialize CallInfo array *)
  onG (luaM_newvector BASIC_CI_SIZE sizeof_CallInfo);;
  set_thread l1 (Gc.set_size_ci BASIC_CI_SIZE);;
  (* initialize stack array *)
  onG (luaM_newvector (BASIC_STACK_SIZE + EXTRA_STACK) sizeof_TValue);;
  set_thread l1 (fun th => set_th_top 0 (set_stack (replicate (Z.to_nat (BASIC_STACK_SIZE + EXTRA_STACK)) VNil) th));;
  (* initialize first ci; its `function' entry *)
  set_slot l1 0 VNil;;
  set_top l1 1;;
  setL l1 (set_base 1);;
  set_cis l1 [mkCI 1 0 (1 + LUA_MINSTACK) 0 0 0].

Definition luaT_init : M VS unit :=
  mfor luaT_eventname (fun name =>
    a ← luaS_newliteral name;
    modify (fun s => with_g (setg_tmname (gc_tmname (v_g s) ++ [a]) (v_g s)) s);;
    luaS_fix a).  (* never collect these names *)

(** The parts that may cause memory-allocation errors. *)
Definition f_luaopen (l : Z) : M VS unit :=
  stack_init l;;  (* init stack *)
  h ← newtable 0 2;
  set_thread l (set_gt (VTable h));;  (* table of globals *)
  r ← newtable 0 2;
  onG (modify (setg_registry (VTable r)));;  (* registry *)
  onG (luaS_resize_at MINSTRTABSIZE);;  (* initial size of string table *)
  luaT_init;;
  onLexer Lex.luaX_init;;
  a ← luaS_newliteral "not enough memory";
  luaS_fix a;;
  onG (modify (fun g => setg_GCthreshold (u64 (4 * gc_totalbytes g)) g)).

(** A copy of the fields of [l] that a new thread shares. *)
Definition luaE_newthread (l : Z) : M VS Z :=
  onG (luaM_malloc sizeof_lua_State);;
  l1 ← onG (luaC_link (BThread preinit_thread));
  modify (new_L l1 preinit_L);;
  stack_init l1;;  (* init stack *)
  th ← thread_of l;
  set_thread l1 (set_gt (th_gt th));;  (* share table of globals *)
  L ← state_of l;
  setL l1 (fun x => set_hookmask (l_hookmask L) (set_basehookcount (l_basehookcount L) (set_hook (l_hook L)
    (set_hookcount (l_basehookcount L) x))));;
  mret l1.

Definition close_state (l : Z) : M VS unit :=
  onG (luaF_close l 0);;  (* close all upvalues for this thread *)
  onG luaC_freeall;;  (* collect all objects *)
  g ← gets v_g;
  onG (luaM_freearray (zlen (gc_strt g)) sizeof_ptr);;
  onG (luaM_freearray (gc_buffsize g) 1);;
  onG (freestack l).

(** The state before f_luaopen: the main thread is the only object. *)
Definition main_address : Z := 1.
Definition preinit : VS :=
  let white := bit2mask WHITE0BIT FIXEDBIT in
  let marked := setbits (Z.land white WHITEBITS) (bit2mask FIXEDBIT SFIXEDBIT) in
  mkVS
    (mkG {[main_address := mkObj marked (BThread preinit_thread)]} white GCSpause [] [] [] state_size_LG
       [] [main_address] 0 [] 0 [] [] (main_address + 1) 0 (* mark it as unfinished state *) 0 0 LUAI_GCPAUSE LUAI_GCMUL 0
       VNil main_address (replicate (Z.to_nat NUM_TAGS) NULL) [])
    {[main_address := preinit_L]} ∅ ∅ ∅ ∅.

(** The main thread and the state, or NULL. *)
Definition lua_newstate : result (option (Z * VS)) :=
  if negb (l_alloc 0 0 state_size_LG) then Ok None
  else
    match luaD_rawrunprotected (f_luaopen main_address) preinit with
    | (Ok status, s) =>
        if status =? 0 then Ok (Some (main_address, s))
        else  (* memory allocation error: free partial state *)
          match close_state main_address s with (Ok _, _) => Ok None | (Err e, _) => Err e end
    | (Err e, _) => Err e
    end.

(** The finalisers at the end: repeat until no more errors. *)
Fixpoint close_tries (fuel : nat) (l : Z) : M VS unit :=
  match fuel with
  | O => throw OutOfFuel
  | S fuel =>
      L ← state_of l;
      match drop (length (l_cis L) - 1) (l_cis L) with
      | [c] =>
          set_cis l [c];;
          setL l (set_base (ci_base c));;
          set_top l (ci_base c);;
          setL l (fun x => set_nCcalls 0 (set_baseCcalls 0 x));;
          status ← luaD_rawrunprotected (onG (luaC_callGCTM finalizer collector_fuel));  (* callallgcTM *)
          if status =? 0 then mret tt else close_tries fuel l
      | _ => throw (UB "no call")
      end
  end.

Definition lua_close (fuel : nat) : M VS unit :=
  g ← gets v_g;
  let l := gc_mainthread g in  (* only the main thread can be closed *)
  onG (luaF_close l 0);;  (* close all upvalues for this thread *)
  onG (luaC_separateudata true);;  (* separate udata that have GC metamethods *)
  setL l (set_errfunc 0);;  (* no error function during GC metamethods *)
  close_tries fuel l;;
  close_state l.
End state.
