(* ===== verification/Load.v ===== *)
(** * Load.v: loading a chunk (f_parser and luaD_protectedparser of ldo.c)

    The front end joined to the machine: the parser or the loader of binary
    chunks runs over the strings and the memory of the global state, and its
    prototype becomes objects of the heap.  In the C code they are objects
    from the start; nothing collects them before the closure holds them, as
    the collector runs only before the parser. *)

From S2P Require Import Prelude Machine Opcodes Object Mem Zio Table Gc Func Collect State Errors Call.
From S2P Require Str Do Lex Undump Code Parser.

Section load.
Context `{Krealloc} `{StringHash} `{KernelStrto} `{Host}.
Context (call : Z -> Z -> Z -> M VS unit).

(** ** Prototypes as objects *)

Definition name_object (s : option bytes) : M VS Z :=
  match s with None => mret NULL | Some s => newstring s end.

Definition constant_value (c : Const) : M VS TValue :=
  match c with
  | KNil => mret VNil
  | KBoolean b => mret (VBoolean b)
  | KNumber n => mret (VNumber n)
  | KString s => a ← name_object s; mret (VString a)
  end.

Fixpoint build_proto (p : Proto) : M VS Z :=
  source ← name_object (pt_source p);
  k ← mapM constant_value (pt_k p);
  ps ← (fix build (l : list Proto) : M VS (list Z) :=
          match l with
          | [] => mret []
          | p :: l => a ← build_proto p; rest ← build l; mret (a :: rest)
          end) (pt_p p);
  upvalues ← mapM name_object (pt_upvalues p);
  locvars ← mapM (fun lv => name_object (varname lv)) (pt_locvars p);
  a ← onG (luaC_link (BProto (mkProtoObj k ps upvalues locvars source (pt_sizecode p) (pt_sizelineinfo p))));
  modify (new_proto a p);;
  mret a.

(** ** Running the front end *)

(** The lexer's world is the strings and the memory of the state. *)
Definition run_parser (l : Z) (z : ZIO) (name : bytes) : M VS Proto := fun s =>
  match str_view (v_g s), v_L s !! l with
  | Some v, Some L =>
      let no_token := Lex.mkToken Lex.TK_EOS Lex.NoInfo in
      let ls := Lex.mkLex 0 0 0 no_token no_token None v (v_reserved s) z [] 0 [] 0 in
      let '(r, ks) := Parser.luaY_parser z name (Code.mkKS ls (Parser.new_fs []) [] (l_nCcalls L)) in
      let ls := Code.ks_ls ks in
      let s := with_g (str_put (Lex.ls_G ls) (v_g s)) s in
      (* luaZ_freebuffer *)
      let s := set_totalbytes (totalbytes s - Lex.ls_buffsize ls) s in
      (r, upd_L l (set_nCcalls (Code.ks_nCcalls ks)) s)
  | _, _ => (Err (UB "dangling pointer"), s)
  end.

(** The loader pushes prototypes and strings on the stack, which may grow. *)
Definition run_undump (l : Z) (z : ZIO) (name : string) : M VS Proto := fun s =>
  match str_view (v_g s), v_L s !! l, gc_heap (v_g s) !! l with
  | Some v, Some L, Some (mkObj m (BThread th)) =>
      let '(r, ld) := Undump.luaU_undump name
        (Undump.mkLoadState (Do.mkState v (th_top th) (th_stacksize th) (l_nCcalls L)) z 0) in
      let L' := Undump.ls_L ld in
      let s := with_g (str_put (Do.l_G L') (v_g s)) s in
      let grown := th_stack th ++ replicate (Z.to_nat (Do.L_stacksize L' - th_stacksize th)) VNil in
      let s := with_g (setg_heap (<[l := mkObj m (BThread (set_stack grown th))]> (gc_heap (v_g s))) (v_g s)) s in
      let s := set_totalbytes (totalbytes s - Undump.ls_buffsize ld) s in
      (r, upd_L l (set_nCcalls (Do.L_nCcalls L')) s)
  | _, _, _ => (Err (UB "dangling pointer"), s)
  end.

(** A front end that throws has pushed its message. *)
Definition with_message {A} (l : Z) (m : M VS A) : M VS A := fun s =>
  match m s with
  | (Err (ErrSyntax msg), s) => (pushstr l (bytes_of_string msg);; throw (ErrSyntax msg)) s
  | (Err (ErrRun msg), s) => luaG_runerror call l (bytes_of_string msg) s
  | r => r
  end.

(** ** Chunks *)

Definition f_parser (l : Z) (z : ZIO) (name : bytes) : M VS unit :=
  match luaZ_lookahead z with
  | (Err e, _) => throw e
  | (Ok c, z) =>
      luaC_checkGC l;;
      tf ← with_message l
             (if c =? 27 (* LUA_SIGNATURE[0] *) then run_undump l z (Lex.string_of_bytes name) else run_parser l z name);
      p ← build_proto tf;
      th ← thread_of l;
      cl ← onG (luaF_newLclosure (pt_nups tf) (gcvalue (th_gt th)) p);
      mfor (seqZ 0 (pt_nups tf)) (fun i =>  (* initialize eventual upvalues *)
        uv ← onG luaF_newupval;
        x ← onG (gco2cl cl);
        match x with
        | LClosure env p upvals => onG (upd_obj cl (BFunction (LClosure env p (zupd i uv upvals))))
        | CClosure _ _ => throw (UB "object of another type")
        end);;
      n ← top l;
      set_slot l n (VFunction cl);;
      inc_top l
  end.

Definition luaD_protectedparser (l : Z) (z : ZIO) (name : bytes) : M VS Z :=
  n ← top l;
  ef ← getL l l_errfunc;
  luaD_pcall l (f_parser l z name) n ef.
End load.
