(* ===== verification/Api.v ===== *)
(** * Api.v: the interface to C (lapi.c, lua.h)

    One definition for each function of lapi.c, over the state of the
    interpreter.  [l] is the thread's address.  luai_apicheck does nothing in
    this configuration: an index that is out of range reads the stack outside
    of what is in use, and is [UB] outside of the array.  The
    accessors of the panic function and of the allocator are in Panic.v. *)

From S2P Require Import Prelude Machine Opcodes Object Mem Zio Debug Dump Table Gc Func Collect State Errors Call Vm LuaState Load.
From S2P Require Lex.

Definition LUA_REGISTRYINDEX : Z := -10000.
Definition LUA_ENVIRONINDEX : Z := -10001.
Definition LUA_GLOBALSINDEX : Z := -10002.
Definition LUA_TNONE : Z := -1.
Definition LUAI_MAXCSTACK : Z := 8000.

Definition LUA_GCSTOP : Z := 0.
Definition LUA_GCRESTART : Z := 1.
Definition LUA_GCCOLLECT : Z := 2.
Definition LUA_GCCOUNT : Z := 3.
Definition LUA_GCCOUNTB : Z := 4.
Definition LUA_GCSTEP : Z := 5.
Definition LUA_GCSETPAUSE : Z := 6.
Definition LUA_GCSETSTEPMUL : Z := 7.

(** What index2adr points to. *)
Inductive adr :=
  | AStack (i : Z)
  | ARegistry
  | AGlobals
  | AEnv (env : Z)         (* L->env, which now holds the table *)
  | AUpvalue (c n : Z)     (* upvalue[n] of the closure at c *)
  | ANil.                  (* luaO_nilobject *)
#[export] Instance adr_dec : EqDecision adr.
Proof. solve_decision. Defined.

Definition is_nilobject (a : adr) : bool := bool_decide (a = ANil).

Definition set_metatable (mt : option Z) (t : Table) : Table :=
  mkTable (t_flags t) (t_lsizenode t) mt (t_array t) (t_node t) (t_dummy t) (t_lastfree t) (t_sizearray t).

Definition setg_gcpause (x : Z) (g : gstate) : gstate :=
  mkG (gc_heap g) (gc_currentwhite g) (gc_gcstate g) (gc_gray g) (gc_grayagain g) (gc_weak g) (gc_totalbytes g)
    (gc_root_swept g) (gc_root_rest g) (gc_sweepstrgc g) (gc_strt g) (gc_nuse g) (gc_tmudata g)
    (gc_uvhead g) (gc_next g) (gc_GCthreshold g) (gc_estimate g) (gc_gcdept g) x
    (gc_gcstepmul g) (gc_buffsize g) (gc_registry g) (gc_mainthread g) (gc_mt g) (gc_tmname g).
Definition setg_gcstepmul (x : Z) (g : gstate) : gstate :=
  mkG (gc_heap g) (gc_currentwhite g) (gc_gcstate g) (gc_gray g) (gc_grayagain g) (gc_weak g) (gc_totalbytes g)
    (gc_root_swept g) (gc_root_rest g) (gc_sweepstrgc g) (gc_strt g) (gc_nuse g) (gc_tmudata g)
    (gc_uvhead g) (gc_next g) (gc_GCthreshold g) (gc_estimate g) (gc_gcdept g) (gc_gcpause g)
    x (gc_buffsize g) (gc_registry g) (gc_mainthread g) (gc_mt g) (gc_tmname g).

(** Arguments of a formatted message. *)
Inductive fmt_arg :=
  | FString (s : option bytes)  (* a C string or NULL *)
  | FInt (n : Z)
  | FNumber (n : Z)
  | FPointer (text : bytes).    (* as sprintf of the kernel writes it *)

Section api.
Context `{Krealloc} `{StringHash} `{KernelStrto} `{Host}.
Context (call : Z -> Z -> Z -> M VS unit).   (* luaD_call *)

(** [curr_func(L)]: the address of the closure. *)
Definition curr_func (l : Z) : M VS Z :=
  c ← ci l; f ← slot_at l (ci_func c);
  match f with VFunction a => mret a | _ => throw (UB "object of another type") end.

Definition closure_env (cl : Closure) : Z := match cl with CClosure env _ | LClosure env _ _ => env end.
Definition set_closure_env (env : Z) (cl : Closure) : Closure :=
  match cl with CClosure _ u => CClosure env u | LClosure _ p u => LClosure env p u end.

Definition index2adr (l idx : Z) : M VS adr :=
  if idx >? 0 then
    b ← base l; t ← top l;
    let o := b + (idx - 1) in
    mret (if o >=? t then ANil else AStack o)
  else if idx >? LUA_REGISTRYINDEX then t ← top l; mret (AStack (t + idx))
  else if idx =? LUA_REGISTRYINDEX then mret ARegistry  (* pseudo-indices *)
  else if idx =? LUA_ENVIRONINDEX then
    f ← curr_func l; cl ← onG (gco2cl f); mret (AEnv (closure_env cl))
  else if idx =? LUA_GLOBALSINDEX then mret AGlobals
  else
    f ← curr_func l;
    cl ← onG (gco2cl f);
    let idx := LUA_GLOBALSINDEX - idx in
    match cl with
    | CClosure _ upvalue => mret (if idx <=? zlen upvalue then AUpvalue f (idx - 1) else ANil)
    | LClosure _ _ _ => throw (UB "object of another type")
    end.

(** The value there. *)
Definition adr_value (l : Z) (a : adr) : M VS TValue :=
  match a with
  | AStack i => slot_at l i
  | ARegistry => g ← gets v_g; mret (gc_registry g)
  | AGlobals => th ← thread_of l; mret (th_gt th)
  | AEnv env => mret (VTable env)
  | AUpvalue f n =>
      cl ← onG (gco2cl f);
      match cl with
      | CClosure _ upvalue => lift (of_option "upvalue index" (znth upvalue n))
      | LClosure _ _ _ => throw (UB "object of another type")
      end
  | ANil => mret VNil
  end.
Definition index_value (l idx : Z) : M VS TValue := a ← index2adr l idx; adr_value l a.

(** [setobj(L, a, v)]; luaO_nilobject is constant. *)
Definition adr_set (l : Z) (a : adr) (v : TValue) : M VS unit :=
  match a with
  | AStack i => set_slot l i v
  | ARegistry => onG (modify (setg_registry v))
  | AGlobals => set_thread l (set_gt v)
  | AEnv _ => mret tt
  | AUpvalue f n =>
      cl ← onG (gco2cl f);
      match cl with
      | CClosure env upvalue => onG (upd_obj f (BFunction (CClosure env (zupd n v upvalue))))
      | LClosure _ _ _ => throw (UB "object of another type")
      end
  | ANil => throw (UB "store to a constant")
  end.

(** As an operand of the interpreter. *)
Definition adr_ref (l : Z) (a : adr) : M VS tref :=
  match a with AStack i => mret (TStack i) | _ => v ← adr_value l a; mret (TVal v) end.

Definition no_enclosing (l : Z) : M VS bool := cs ← getL l l_cis; mret (zlen cs =? 1).

(** [hvalue(gt(L))] *)
Definition global_table (l : Z) : M VS Z := th ← thread_of l; mret (gcvalue (th_gt th)).

Definition getcurrenv (l : Z) : M VS Z :=
  b ← no_enclosing l;  (* no enclosing function? *)
  if (b : bool) then global_table l  (* use global table as environment *)
  else f ← curr_func l; cl ← onG (gco2cl f); mret (closure_env cl).

(** [api_incr_top] after a store to the top. *)
Definition push (l : Z) (v : TValue) : M VS unit := n ← top l; set_slot l n v;; set_top l (n + 1).
Definition luaA_pushobject (l : Z) (o : TValue) : M VS unit := push l o.
Definition pop (l n : Z) : M VS unit := t ← top l; set_top l (t - n).
(** [L->top - n] *)
Definition from_top (l n : Z) : M VS TValue := t ← top l; slot_at l (t - n).

Definition lua_checkstack (l size : Z) : M VS Z :=
  t ← top l;
  b ← base l;
  if (size >? LUAI_MAXCSTACK) || (t - b + size >? LUAI_MAXCSTACK) then mret 0  (* stack overflow *)
  else
    when (size >? 0)
      (checkstack l size;;
       t ← top l;
       c ← ci l;
       when (ci_top c <? t + size) (upd_ci l (set_ci_top (t + size))));;
    mret 1.

Definition lua_xmove (from to n : Z) : M VS unit :=
  if from =? to then mret tt
  else
    pop from n;;
    t ← top from;
    mfor (seqZ 0 n) (fun i => v ← slot_at from (t + i); push to v).

Definition lua_setlevel (from to : Z) : M VS unit := n ← getL from l_nCcalls; setL to (set_nCcalls n).

Definition lua_newthread (l : Z) : M VS Z :=
  luaC_checkGC l;;
  l1 ← luaE_newthread l;
  push l (VThread l1);;
  mret l1.

(** ** Basic stack manipulation *)

Definition lua_gettop (l : Z) : M VS Z := t ← top l; b ← base l; mret (s32 (t - b)).

Definition lua_settop (l idx : Z) : M VS unit :=
  if idx >=? 0 then
    t ← top l;
    b ← base l;
    clear_slots l t (b + idx);;
    set_top l (b + idx)
  else pop l (- (idx + 1)).  (* `subtract' index (index is negative) *)

(** A stack address; another one would be moved as if the stack went on there. *)
Definition stack_adr (a : adr) : M VS Z :=
  match a with AStack i => mret i | _ => throw (UB "pointer outside of the stack") end.

Definition lua_remove (l idx : Z) : M VS unit :=
  a ← index2adr l idx;
  p ← stack_adr a;
  t ← top l;
  mfor (seqZ (p + 1) (t - (p + 1))) (fun p => move_slot l (p - 1) p);;
  pop l 1.

Definition lua_insert (l idx : Z) : M VS unit :=
  a ← index2adr l idx;
  p ← stack_adr a;
  t ← top l;
  mfor (rev (seqZ (p + 1) (t - p))) (fun q => move_slot l q (q - 1));;
  move_slot l p t.

Definition lua_replace (l idx : Z) : M VS unit :=
  b ← no_enclosing l;
  (* explicit test for incompatible code *)
  when ((idx =? LUA_ENVIRONINDEX) && (b : bool)) (luaG_runerror call l (bytes_of_string "no calling environment"));;
  o ← index2adr l idx;
  v ← from_top l 1;
  (if idx =? LUA_ENVIRONINDEX then
     f ← curr_func l;
     cl ← onG (gco2cl f);
     onG (upd_obj f (BFunction (set_closure_env (gcvalue v) cl)));;
     onG (luaC_barrier f v)
   else
     adr_set l o v;;
     when (idx <? LUA_GLOBALSINDEX)  (* function upvalue? *)
       (f ← curr_func l; onG (luaC_barrier f v)));;
  pop l 1.

Definition lua_pushvalue (l idx : Z) : M VS unit := v ← index_value l idx; push l v.

(** ** Access functions (stack -> C) *)

Definition lua_type (l idx : Z) : M VS Z :=
  a ← index2adr l idx;
  if is_nilobject a then mret LUA_TNONE else v ← adr_value l a; mret (ttype v).

Definition lua_typename (t : Z) : result string :=
  if t =? LUA_TNONE then Ok "no value"%string else of_option "type name" (znth luaT_typenames t).

(** [iscfunction(o)] *)
Definition iscfunction (v : TValue) : M VS bool :=
  match v with
  | VFunction c => cl ← onG (gco2cl c); mret (match cl with CClosure _ _ => true | LClosure _ _ _ => false end)
  | _ => mret false
  end.

Definition lua_iscfunction (l idx : Z) : M VS bool := v ← index_value l idx; iscfunction v.
Definition lua_isnumber (l idx : Z) : M VS bool :=
  v ← index_value l idx; n ← luaV_tonumber v; mret (match n with Some _ => true | None => false end).
Definition lua_isstring (l idx : Z) : M VS bool :=
  t ← lua_type l idx; mret ((t =? LUA_TSTRING) || (t =? LUA_TNUMBER)).
Definition lua_isuserdata (l idx : Z) : M VS bool :=
  v ← index_value l idx; mret ((ttype v =? LUA_TUSERDATA) || (ttype v =? LUA_TLIGHTUSERDATA)).

(** Both objects, if both are there. *)
Definition two_objects (l i1 i2 : Z) (compare : TValue -> TValue -> M VS bool) : M VS bool :=
  a1 ← index2adr l i1;
  a2 ← index2adr l i2;
  if is_nilobject a1 || is_nilobject a2 then mret false
  else v1 ← adr_value l a1; v2 ← adr_value l a2; compare v1 v2.

Definition lua_rawequal (l i1 i2 : Z) : M VS bool := two_objects l i1 i2 (fun v1 v2 => mret (luaO_rawequalObj v1 v2)).
Definition lua_equal (l i1 i2 : Z) : M VS bool := two_objects l i1 i2 (equalobj call l).  (* may call tag method *)
Definition lua_lessthan (l i1 i2 : Z) : M VS bool := two_objects l i1 i2 (luaV_lessthan call l).

Definition lua_tonumber (l idx : Z) : M VS Z := v ← index_value l idx; n ← luaV_tonumber v; mret (default 0 n).
(** lua_Integer is as wide as lua_Number. *)
Definition lua_tointeger (l idx : Z) : M VS Z := lua_tonumber l idx.
Definition lua_toboolean (l idx : Z) : M VS bool := v ← index_value l idx; mret (negb (l_isfalse v)).

(** [luaV_tostring(L, o)]: only a number that is somewhere can be converted. *)
Definition adr_tostring (l : Z) (a : adr) : M VS bool :=
  match a with
  | AStack i => luaV_tostring call l i
  | _ =>
      v ← adr_value l a;
      match v with
      | VNumber n => s ← raising call l (newstring (Lex.fmt_d n)); adr_set l a (VString s);; mret true
      | _ => mret false
      end
  end.

(** The string object and its length; [None] is NULL, with the length 0. *)
Definition lua_tolstring (l idx : Z) : M VS (option (Z * Z)) :=
  a ← index2adr l idx;
  v ← adr_value l a;
  ok ← (if ttisstring v then mret true
        else
          b ← adr_tostring l a;  (* conversion failed? *)
          if (b : bool) then luaC_checkGC l;; mret true else mret false);
  if negb (ok : bool) then mret None
  else
    v ← index_value l idx;  (* previous call may reallocate the stack *)
    match v with
    | VString s => str ← tsvalue s; mret (Some (s, zlen str))
    | _ => throw (UB "object of another type")
    end.

(** [uvalue(o)] *)
Definition uvalue (u : Z) : M VS (Z * Z * Z) :=
  o ← onG (deref u);
  match obj o with BUserdata mt env len => mret (mt, env, len) | _ => onG bad_cast end.

Definition lua_objlen (l idx : Z) : M VS Z :=
  a ← index2adr l idx;
  v ← adr_value l a;
  match v with
  | VString s => str ← tsvalue s; mret (zlen str)
  | VUserdata u => '(_, _, len) ← uvalue u; mret len
  | VTable h => t ← onG (gco2h h); lift (luaH_getn t)
  | VNumber _ =>
      b ← adr_tostring l a;
      if (b : bool) then
        v ← adr_value l a;
        match v with VString s => str ← tsvalue s; mret (zlen str) | _ => throw (UB "object of another type") end
      else mret 0
  | _ => mret 0
  end.

(** NULL, or the function. *)
Definition lua_tocfunction (l idx : Z) : M VS Z :=
  v ← index_value l idx;
  b ← iscfunction v;
  if (b : bool) then c_pointer (gcvalue v) else mret NULL.

(** [rawuvalue(o) + 1]: the block behind the header. *)
Definition lua_touserdata (l idx : Z) : M VS Z :=
  v ← index_value l idx;
  match v with
  | VUserdata u => mret (u + sizeof_Udata)
  | VLightUserdata p => mret p
  | _ => mret NULL
  end.
Definition lua_tothread (l idx : Z) : M VS Z := v ← index_value l idx; mret (match v with VThread t => t | _ => NULL end).
Definition lua_topointer (l idx : Z) : M VS Z :=
  v ← index_value l idx;
  match v with
  | VTable a | VFunction a | VThread a => mret a
  | VUserdata _ | VLightUserdata _ => lua_touserdata l idx
  | _ => mret NULL
  end.

(** ** Push functions (C -> stack) *)

Definition lua_pushnil (l : Z) : M VS unit := push l VNil.
Definition lua_pushnumber (l n : Z) : M VS unit := push l (VNumber n).
Definition lua_pushinteger (l n : Z) : M VS unit := push l (VNumber n).
Definition lua_pushlstring (l : Z) (s : bytes) : M VS unit :=
  luaC_checkGC l;; a ← raising call l (newstring s); push l (VString a).
(** [s = NULL] or a C string. *)
Definition lua_pushstring (l : Z) (s : option bytes) : M VS unit :=
  match s with None => lua_pushnil l | Some s => lua_pushlstring l (Lex.c_string s) end.

(** The upvalues are the [n] values on the top. *)
Definition lua_pushcclosure (l fn n : Z) : M VS unit :=
  luaC_checkGC l;;
  env ← getcurrenv l;
  t ← top l;
  upvalues ← mapM (slot_at l) (seqZ (t - n) n);
  c ← onG (luaF_newCclosure n env upvalues);
  modify (new_cf c fn);;
  set_top l (t - n);;
  push l (VFunction c).

Definition lua_pushboolean (l b : Z) : M VS unit := push l (VBoolean (if b =? 0 then 0 else 1)).  (* ensure that true is 1 *)
Definition lua_pushlightuserdata (l p : Z) : M VS unit := push l (VLightUserdata p).
Definition lua_pushthread (l : Z) : M VS bool :=
  push l (VThread l);; g ← gets v_g; mret (gc_mainthread g =? l).

(** ** Get functions (Lua -> stack) *)

Definition lua_gettable (l idx : Z) : M VS unit :=
  a ← index2adr l idx;
  t ← adr_ref l a;
  n ← top l;
  key ← slot_at l (n - 1);
  luaV_gettable call l t key (n - 1).

(** [luaS_new(L, k)] *)
Definition luaS_new (l : Z) (k : bytes) : M VS Z := raising call l (newstring (Lex.c_string k)).

Definition lua_getfield (l idx : Z) (k : bytes) : M VS unit :=
  a ← index2adr l idx;
  s ← luaS_new l k;
  t ← adr_ref l a;
  n ← top l;
  luaV_gettable call l t (VString s) n;;
  n ← top l;
  set_top l (n + 1).

(** [hvalue(t)] of a value that must be a table. *)
Definition hvalue (v : TValue) : M VS Z := match v with VTable h => mret h | _ => throw (UB "object of another type") end.

Definition lua_rawget (l idx : Z) : M VS unit :=
  v ← index_value l idx;
  h ← hvalue v;
  n ← top l;
  key ← slot_at l (n - 1);
  x ← table_get h key;
  set_slot l (n - 1) x.

Definition lua_rawgeti (l idx n : Z) : M VS unit :=
  v ← index_value l idx;
  h ← hvalue v;
  x ← found h (fun t => luaH_getnum t n);
  push l x.

Definition lua_createtable (l narray nrec : Z) : M VS unit :=
  luaC_checkGC l;; h ← raising call l (newtable narray nrec); push l (VTable h).

(** The metatable of a value, or NULL. *)
Definition value_metatable (v : TValue) : M VS Z :=
  match v with
  | VTable h => t ← onG (gco2h h); mret (default NULL (t_metatable t))
  | VUserdata u => '(mt, _, _) ← uvalue u; mret mt
  | _ => g ← gets v_g; lift (of_option "array index" (znth (gc_mt g) (ttype v)))
  end.
Definition lua_getmetatable (l objindex : Z) : M VS bool :=
  v ← index_value l objindex;
  mt ← value_metatable v;
  if mt =? NULL then mret false else push l (VTable mt);; mret true.

Definition lua_getfenv (l idx : Z) : M VS unit :=
  v ← index_value l idx;
  x ← (match v with
       | VFunction c => cl ← onG (gco2cl c); mret (VTable (closure_env cl))
       | VUserdata u => '(_, env, _) ← uvalue u; mret (VTable env)
       | VThread t => th ← thread_of t; mret (th_gt th)
       | _ => mret VNil
       end);
  push l x.

(** ** Set functions (stack -> Lua) *)

Definition lua_settable (l idx : Z) : M VS unit :=
  a ← index2adr l idx;
  t ← adr_ref l a;
  key ← from_top l 2;
  val ← from_top l 1;
  luaV_settable call l t key val;;
  pop l 2.  (* pop index and value *)

Definition lua_setfield (l idx : Z) (k : bytes) : M VS unit :=
  a ← index2adr l idx;
  s ← luaS_new l k;
  t ← adr_ref l a;
  val ← from_top l 1;
  luaV_settable call l t (VString s) val;;
  pop l 1.  (* pop value *)

Definition lua_rawset (l idx : Z) : M VS unit :=
  v ← index_value l idx;
  h ← hvalue v;
  key ← from_top l 2;
  val ← from_top l 1;
  x ← raising call l (table_set h key);
  set_table_slot h x val;;
  onG (luaC_barriert h val);;
  pop l 2.

Definition lua_rawseti (l idx n : Z) : M VS unit :=
  v ← index_value l idx;
  h ← hvalue v;
  val ← from_top l 1;
  x ← raising call l (onH h (luaH_setnum n));
  set_table_slot h x val;;
  onG (luaC_barriert h val);;
  pop l 1.

Definition set_metatable_of (v : TValue) (mt : Z) : M VS unit :=
  match v with
  | VTable h =>
      t ← onG (gco2h h);
      onG (upd_obj h (BTable (set_metatable (opt_ptr mt) t)));;
      when (negb (mt =? NULL)) (onG (luaC_objbarriert h mt))
  | VUserdata u =>
      '(_, env, len) ← uvalue u;
      onG (upd_obj u (BUserdata mt env len));;
      when (negb (mt =? NULL)) (onG (luaC_objbarrier u mt))
  | _ => onG (modify (fun g => setg_mt (zupd (ttype v) mt (gc_mt g)) g))
  end.
Definition lua_setmetatable (l objindex : Z) : M VS unit :=
  v ← index_value l objindex;
  m ← from_top l 1;
  mt ← (if ttisnil m then mret NULL else hvalue m);
  set_metatable_of v mt;;
  pop l 1.

Definition lua_setfenv (l idx : Z) : M VS bool :=
  v ← index_value l idx;
  x ← from_top l 1;
  env ← hvalue x;
  res ← (match v with
         | VFunction c => cl ← onG (gco2cl c); onG (upd_obj c (BFunction (set_closure_env env cl)));; mret true
         | VUserdata u => '(mt, _, len) ← uvalue u; onG (upd_obj u (BUserdata mt env len));; mret true
         | VThread t => set_thread t (set_gt (VTable env));; mret true
         | _ => mret false
         end);
  when res (onG (luaC_objbarrier (gcvalue v) env));;
  pop l 1;;
  mret res.

(** ** Formatted messages (luaO_pushvfstring of lobject.c) *)

(** [incr_top] after a store to the top. *)
Definition push_piece (l : Z) (v : TValue) : M VS unit := n ← top l; set_slot l n v;; inc_top l.
(** [pushstr(L, str)] of lobject.c *)
Definition push_cstring (l : Z) (s : bytes) : M VS unit := a ← luaS_new l s; push_piece l (VString a).

(** The piece for the directive [c], and the arguments left; an argument of
    another type is undefined. *)
Definition push_directive (l c : Z) (args : list fmt_arg) : M VS (list fmt_arg) :=
  let wrong : M VS (list fmt_arg) := throw (UB "argument of another type") in
  if c =? 115 (* 's' *) then
    match args with FString s :: args => push_cstring l (default (bytes_of_string "(null)") s);; mret args | _ => wrong end
  else if c =? 99 (* 'c' *) then
    match args with FInt n :: args => push_cstring l [u8 n];; mret args | _ => wrong end
  else if c =? 100 (* 'd' *) then
    match args with FInt n :: args => push_piece l (VNumber n);; mret args | _ => wrong end
  else if c =? 102 (* 'f' *) then
    match args with FNumber n :: args => push_piece l (VNumber n);; mret args | _ => wrong end
  else if c =? 112 (* 'p' *) then
    match args with FPointer s :: args => push_cstring l s;; mret args | _ => wrong end
  else if c =? 37 (* '%' *) then push_cstring l [37];; mret args
  else push_cstring l [37; c];; mret args.

(** [strchr(fmt, '%')]: what is before it, and from it on. *)
Fixpoint split_format (fmt : bytes) : bytes * bytes :=
  match fmt with
  | [] => ([], [])
  | c :: rest => if c =? 37 then ([], fmt) else let '(b, e) := split_format rest in (c :: b, e)
  end.

(** The loop over the directives, which returns what is left of the format and
    how many strings were pushed. *)
Fixpoint format_loop (fuel : nat) (l n : Z) (fmt : bytes) (args : list fmt_arg) : M VS (bytes * Z) :=
  match fuel with
  | O => throw OutOfFuel
  | S fuel =>
      let '(before, e) := split_format fmt in
      match e with
      | [] => mret (fmt, n)
      | [_] => throw (UB "format ends in a directive")  (* reads on behind its zero *)
      | _ :: c :: fmt =>
          a ← raising call l (newstring before);
          push_piece l (VString a);;
          args ← push_directive l c args;
          format_loop fuel l (n + 2) fmt args
      end
  end.

(** The message is left on the top. *)
Definition luaO_pushvfstring (l : Z) (fmt : bytes) (args : list fmt_arg) : M VS unit :=
  push_cstring l [];;
  r ← format_loop (S (length fmt)) l 1 fmt args;
  let '(fmt, n) := (r : bytes * Z) in
  push_cstring l fmt;;
  t ← top l;
  b ← base l;
  luaV_concat call l (n + 1) (s32 (t - b) - 1);;
  pop l n.

Definition lua_pushvfstring (l : Z) (fmt : bytes) (args : list fmt_arg) : M VS unit :=
  luaC_checkGC l;; luaO_pushvfstring l fmt args.
Definition lua_pushfstring (l : Z) (fmt : bytes) (args : list fmt_arg) : M VS unit := lua_pushvfstring l fmt args.

(** ** Load and call functions (run Lua code) *)

Definition adjustresults (l nres : Z) : M VS unit :=
  when (nres =? LUA_MULTRET) (t ← top l; c ← ci l; when (t >=? ci_top c) (upd_ci l (set_ci_top t))).

Definition lua_call (l nargs nresults : Z) : M VS unit :=
  t ← top l;
  call l (t - (nargs + 1)) nresults;;
  adjustresults l nresults.

Definition lua_pcall (l nargs nresults errfunc : Z) : M VS Z :=
  func ← (if errfunc =? 0 then mret 0 else a ← index2adr l errfunc; stack_adr a);
  t ← top l;
  let f := t - (nargs + 1) in  (* function to be called *)
  status ← luaD_pcall l (call l f nresults (* f_call *)) f func;
  adjustresults l nresults;;
  mret status.

Definition f_Ccall (l func ud : Z) : M VS unit :=
  env ← getcurrenv l;
  c ← onG (luaF_newCclosure 0 env []);
  modify (new_cf c func);;
  push l (VFunction c);;  (* push function *)
  push l (VLightUserdata ud);;  (* push only argument *)
  t ← top l;
  call l (t - 2) 0.

Definition lua_cpcall (l func ud : Z) : M VS Z := t ← top l; luaD_pcall l (f_Ccall l func ud) t 0.

(** The reader is a list of blocks. *)
Definition lua_load (l : Z) (blocks : list bytes) (chunkname : option bytes) : M VS Z :=
  luaD_protectedparser call l (luaZ_init blocks) (default (bytes_of_string "?") chunkname).

(** The writer of Dump.v, its data, and the status. *)
Definition lua_dump {W} (writer : W -> bytes -> Z * W) (l : Z) (data : W) : M VS (Z * W) :=
  v ← from_top l 1;
  match v with
  | VFunction c =>
      cl ← onG (gco2cl c);
      match cl with
      | LClosure _ p _ => pt ← proto_at p; mret (luaU_dump writer false pt data)
      | CClosure _ _ => mret (1, data)
      end
  | _ => mret (1, data)
  end.

Definition lua_status (l : Z) : M VS Z := getL l l_status.

(** ** Garbage-collection function *)

(** [while (g->GCthreshold <= g->totalbytes)] *)
Fixpoint gc_steps (fuel : nat) (l : Z) : M VS Z :=
  match fuel with
  | O => throw OutOfFuel
  | S fuel =>
      g ← gets v_g;
      if gc_GCthreshold g <=? gc_totalbytes g then
        onG (luaC_step finalizer collector_fuel l);;
        g ← gets v_g;
        if gc_gcstate g =? GCSpause then mret 1 else gc_steps fuel l  (* end of cycle? signal it *)
      else mret 0
  end.

Definition lua_gc (fuel : nat) (l what data : Z) : M VS Z :=
  g ← gets v_g;
  let set f : M VS unit := onG (modify f) in
  if what =? LUA_GCSTOP then set (setg_GCthreshold MAX_LUMEM);; mret 0
  else if what =? LUA_GCRESTART then set (setg_GCthreshold (gc_totalbytes g));; mret 0
  else if what =? LUA_GCCOLLECT then onG (luaC_fullgc finalizer collector_fuel l);; mret 0
  else if what =? LUA_GCCOUNT then mret (s32 (Z.shiftr (gc_totalbytes g) 10))  (* GC values are expressed in Kbytes *)
  else if what =? LUA_GCCOUNTB then mret (s32 (Z.land (gc_totalbytes g) 1023))
  else if what =? LUA_GCSTEP then
    let a := u64 (Z.shiftl (u64 data) 10) in
    set (setg_GCthreshold (if a <=? gc_totalbytes g then gc_totalbytes g - a else 0));;
    gc_steps fuel l
  else if what =? LUA_GCSETPAUSE then set (setg_gcpause data);; mret (gc_gcpause g)
  else if what =? LUA_GCSETSTEPMUL then set (setg_gcstepmul data);; mret (gc_gcstepmul g)
  else mret (-1).  (* invalid option *)

(** ** Miscellaneous functions *)

Definition lua_error {A} (l : Z) : M VS A := luaG_errormsg call l "".

(** At the end the key is removed. *)
Definition lua_next (l idx : Z) : M VS bool :=
  v ← index_value l idx;
  h ← hvalue v;
  key ← from_top l 1;
  t ← onG (gco2h h);
  e ← raising call l (lift (luaH_next t key));
  match e with
  | Some (k, x) =>
      n ← top l;
      set_slot l (n - 1) k;;
      push l x;;
      mret true
  | None => pop l 1;; mret false  (* no more elements: remove key *)
  end.

Definition lua_concat (l n : Z) : M VS unit :=
  if n >=? 2 then
    luaC_checkGC l;;
    t ← top l;
    b ← base l;
    luaV_concat call l n (s32 (t - b) - 1);;
    pop l (n - 1)
  else when (n =? 0) (a ← newstring []; push l (VString a)).  (* push empty string *)

(** The block behind the header, with whatever the memory held. *)
Definition lua_newuserdata (l size : Z) : M VS Z :=
  luaC_checkGC l;;
  env ← getcurrenv l;
  u ← raising call l (luaS_newudata size env);
  modify (new_ud u (take (Z.to_nat size) (fresh_block u ++ replicate (Z.to_nat size) 0)));;
  push l (VUserdata u);;
  mret (u + sizeof_Udata).

(** The name of the upvalue [n] of a function and where it is. *)
Inductive upvalue_at := InClosure (c n : Z) | InUpVal (uv : Z).
Definition aux_upvalue (fi : TValue) (n : Z) : M VS (option (bytes * upvalue_at)) :=
  match fi with
  | VFunction c =>
      f ← onG (gco2cl c);
      match f with
      | CClosure _ upvalue =>
          mret (if (1 <=? n) && (n <=? zlen upvalue) then Some ([], InClosure c (n - 1)) else None)
      | LClosure _ p upvals =>
          pt ← proto_at p;
          if (1 <=? n) && (n <=? zlen (pt_upvalues pt)) then
            uv ← lift (of_option "upvalue index" (znth upvals (n - 1)));
            name ← lift (of_option "upvalue name" (znth (pt_upvalues pt) (n - 1)));
            mret (Some (default [] (Lex.c_string <$> name), InUpVal uv))
          else mret None
      end
  | _ => mret None
  end.
Definition upvalue_read (l : Z) (x : upvalue_at) : M VS TValue :=
  match x with InClosure c n => adr_value l (AUpvalue c n) | InUpVal uv => upval_get uv end.
Definition upvalue_write (l : Z) (x : upvalue_at) (v : TValue) : M VS unit :=
  match x with InClosure c n => adr_set l (AUpvalue c n) v | InUpVal uv => upval_set uv v end.

Definition lua_getupvalue (l funcindex n : Z) : M VS (option bytes) :=
  f ← index_value l funcindex;
  r ← aux_upvalue f n;
  match r with
  | Some (name, x) => v ← upvalue_read l x; push l v;; mret (Some name)
  | None => mret None
  end.

Definition lua_setupvalue (l funcindex n : Z) : M VS (option bytes) :=
  f ← index_value l funcindex;
  r ← aux_upvalue f n;
  match r with
  | Some (name, x) =>
      v ← from_top l 1;
      pop l 1;;
      upvalue_write l x v;;
      onG (luaC_barrier (gcvalue f) v);;
      mret (Some name)
  | None => mret None
  end.
End api.
