(* ===== verification/DebugApi.v ===== *)
(** * DebugApi.v: the debug interface (ldebug.h, ldebug.c)

    Hooks, levels of the call stack, local variables of active functions, and
    what lua_getinfo tells of a function.  A CallInfo is given by its distance
    from the running one; [ar_i_ci] counts from the bottom, as in the code. *)

From S2P Require Import Prelude Machine Opcodes Object Mem Debug Table Gc Func Collect State Errors Call Vm LuaState Load Api.
From S2P Require Lex.

Record lua_Debug := mkDebug {
  ar_name : option bytes;
  ar_namewhat : string;
  ar_what : string;
  ar_source : bytes;
  ar_currentline : Z;
  ar_nups : Z;
  ar_linedefined : Z;
  ar_lastlinedefined : Z;
  ar_short_src : bytes;
  ar_i_ci : Z;
}.

Definition ar_set_name (name : option bytes) (namewhat : string) (ar : lua_Debug) : lua_Debug :=
  mkDebug name namewhat (ar_what ar) (ar_source ar) (ar_currentline ar) (ar_nups ar) (ar_linedefined ar)
    (ar_lastlinedefined ar) (ar_short_src ar) (ar_i_ci ar).
Definition ar_set_currentline (n : Z) (ar : lua_Debug) : lua_Debug :=
  mkDebug (ar_name ar) (ar_namewhat ar) (ar_what ar) (ar_source ar) n (ar_nups ar) (ar_linedefined ar)
    (ar_lastlinedefined ar) (ar_short_src ar) (ar_i_ci ar).
Definition ar_set_nups (n : Z) (ar : lua_Debug) : lua_Debug :=
  mkDebug (ar_name ar) (ar_namewhat ar) (ar_what ar) (ar_source ar) (ar_currentline ar) n (ar_linedefined ar)
    (ar_lastlinedefined ar) (ar_short_src ar) (ar_i_ci ar).
(** The source fields, with the short form of the source. *)
Definition ar_set_source (what : string) (source : bytes) (first last : Z) (ar : lua_Debug) : lua_Debug :=
  mkDebug (ar_name ar) (ar_namewhat ar) what source (ar_currentline ar) (ar_nups ar) first last
    (luaO_chunkid source LUA_IDSIZE) (ar_i_ci ar).
Definition ar_set_i_ci (i : Z) (ar : lua_Debug) : lua_Debug :=
  mkDebug (ar_name ar) (ar_namewhat ar) (ar_what ar) (ar_source ar) (ar_currentline ar) (ar_nups ar) (ar_linedefined ar)
    (ar_lastlinedefined ar) (ar_short_src ar) i.

Section debug.
Context `{Krealloc} `{StringHash} `{KernelStrto} `{Host}.
Context (call : Z -> Z -> Z -> M VS unit).   (* luaD_call *)

(** ** Hooks *)

(** [func] is whether there is a hook function. *)
Definition lua_sethook (l : Z) (func : bool) (mask count : Z) : M VS Z :=
  let off := negb func || (mask =? 0) in  (* turn off hooks? *)
  setL l (fun L => set_hookmask (if off then 0 else u8 mask)
    (set_hookcount count (set_basehookcount count (set_hook (negb off) L))));;
  mret 1.
Definition lua_gethook (l : Z) : M VS bool := getL l l_hook.
Definition lua_gethookmask (l : Z) : M VS Z := getL l l_hookmask.
Definition lua_gethookcount (l : Z) : M VS Z := getL l l_basehookcount.

(** ** Levels *)

(** The CallInfos from some one down, the last being base_ci: what is left of
    the level, and where it was found. *)
Fixpoint getstack_loop (l level : Z) (cis : list CallInfo) : M VS (Z * list CallInfo) :=
  match cis with
  | c :: (_ :: _) as rest =>
      if level >? 0 then
        p ← ci_proto l c;
        let level := level - 1 in
        (* skip lost tail calls *)
        getstack_loop l (match p with Some _ => level - ci_tailcalls c | None => level end) rest
      else mret (level, cis)
  | _ => mret (level, cis)
  end.

Definition lua_getstack (l level : Z) (ar : lua_Debug) : M VS (Z * lua_Debug) :=
  cis ← getL l l_cis;
  '(level, cis) ← getstack_loop l level cis;
  let n := zlen cis - 1 in  (* ci - L->base_ci *)
  mret (if (level =? 0) && (n >? 0) then (1, ar_set_i_ci n ar)  (* level found? *)
        else if level <? 0 then (1, ar_set_i_ci 0 ar)  (* level is of a lost tail call? *)
        else (0, ar)).  (* no such level *)

(** The distance of [L->base_ci + i]. *)
Definition ci_distance (l i : Z) : M VS Z := cis ← getL l l_cis; mret (zlen cis - 1 - i).

(** ** Local variables *)

Definition getluaproto (l : Z) (c : CallInfo) : M VS (option Z) := ci_proto l c.

Definition findlocal (l d n : Z) : M VS (option bytes) :=
  c ← ci_below l d;
  fp ← getluaproto l c;
  name ← (match fp with
          | Some p => pc ← currentpc l d; pt ← proto_at p; mret (luaF_getlocalname pt n pc)
          | None => mret None
          end);
  match name with
  | Some name => mret (Some (default [] (Lex.c_string <$> name)))  (* is a local variable in a Lua function *)
  | None =>
      limit ← (if d =? 0 then top l else above ← ci_below l (d - 1); mret (ci_func above));
      mret (if (limit - ci_base c >=? n) && (n >? 0) then Some (bytes_of_string "(*temporary)") else None)
  end.

Definition lua_getlocal (l : Z) (ar : lua_Debug) (n : Z) : M VS (option bytes) :=
  d ← ci_distance l (ar_i_ci ar);
  name ← findlocal l d n;
  match name with
  | Some _ => c ← ci_below l d; v ← slot_at l (ci_base c + (n - 1)); luaA_pushobject l v
  | None => mret tt
  end;;
  mret name.

Definition lua_setlocal (l : Z) (ar : lua_Debug) (n : Z) : M VS (option bytes) :=
  d ← ci_distance l (ar_i_ci ar);
  name ← findlocal l d n;
  match name with
  | Some _ => c ← ci_below l d; t ← top l; move_slot l (ci_base c + (n - 1)) (t - 1)
  | None => mret tt
  end;;
  pop l 1;;
  mret name.

(** ** Information about functions *)

Definition funcinfo (ar : lua_Debug) (cl : Closure) : M VS lua_Debug :=
  match cl with
  | CClosure _ _ => mret (ar_set_source "C" (bytes_of_string "=[C]") (-1) (-1) ar)
  | LClosure _ p _ =>
      pt ← proto_at p;
      source ← lift (of_option "null string" (pt_source pt));
      mret (ar_set_source (if pt_linedefined pt =? 0 then "main" else "Lua") (Lex.c_string source)
              (pt_linedefined pt) (pt_lastlinedefined pt) ar)
  end.

Definition info_tailcall (ar : lua_Debug) : lua_Debug :=
  ar_set_nups 0 (ar_set_currentline (-1) (ar_set_source "tail" (bytes_of_string "=(tail call)") (-1) (-1)
    (ar_set_name (Some []) "" ar))).

Definition collectvalidlines (l : Z) (f : option Closure) : M VS unit :=
  v ← (match f with
       | Some (LClosure _ p _) =>
           t ← raising call l (newtable 0 0);
           pt ← proto_at p;
           mfor (pt_lineinfo pt) (fun line =>
             x ← raising call l (onH t (luaH_setnum line));
             set_table_slot t x (VBoolean 1));;
           mret (VTable t)
       | _ => mret VNil
       end);
  push_piece l v.

Definition getfuncname (l d : Z) : M VS (option (string * bytes)) :=
  c ← ci_below l d;
  p ← ci_proto l c;
  let lost := match p with Some _ => ci_tailcalls c >? 0 | None => false end in
  if (lost : bool) then mret None
  else
    below ← ci_below l (d + 1);
    q ← ci_proto l below;
    match q with
    | None => mret None  (* calling function is not Lua (or is unknown) *)
    | Some q =>
        pc ← currentpc l (d + 1);
        pt ← proto_at q;
        i ← lift (code_at pt pc);
        match z2op (GET_OPCODE i) with
        | Some (OP_CALL | OP_TAILCALL | OP_TFORLOOP) => objname_at l (d + 1) (GETARG_A i)
        | _ => mret None  (* no useful name can be found *)
        end
    end.

(** One option of [what]; 0 for one that is none. *)
Definition getinfo_option (l : Z) (f : Closure) (d : option Z) (c status : Z) (ar : lua_Debug) : M VS (Z * lua_Debug) :=
  if c =? 83 (* 'S' *) then ar ← funcinfo ar f; mret (status, ar)
  else if c =? 108 (* 'l' *) then
    line ← (match d with Some d => currentline l d | None => mret (-1) end);
    mret (status, ar_set_currentline line ar)
  else if c =? 117 (* 'u' *) then
    mret (status, ar_set_nups (match f with CClosure _ u => zlen u | LClosure _ _ u => zlen u end) ar)
  else if c =? 110 (* 'n' *) then
    name ← (match d with Some d => getfuncname l d | None => mret None end);
    mret (status, match name with
                  | Some (kind, name) => ar_set_name (Some name) kind ar
                  | None => ar_set_name None "" ar  (* not found *)
                  end)
  else if (c =? 76) || (c =? 102) then mret (status, ar)  (* 'L', 'f': handled by lua_getinfo *)
  else mret (0, ar).  (* invalid option *)

Fixpoint getinfo_options (l : Z) (f : Closure) (d : option Z) (what : bytes) (status : Z) (ar : lua_Debug) : M VS (Z * lua_Debug) :=
  match what with
  | [] => mret (status, ar)
  | c :: what => '(status, ar) ← getinfo_option l f d c status ar; getinfo_options l f d what status ar
  end.

Definition auxgetinfo (l : Z) (what : bytes) (ar : lua_Debug) (f : option Closure) (d : option Z) : M VS (Z * lua_Debug) :=
  match f with
  | None => mret (1, info_tailcall ar)
  | Some f => getinfo_options l f d what 1 ar
  end.

(** [what] is a C string; [>] takes the function from the top. *)
Definition lua_getinfo (l : Z) (what : bytes) (ar : lua_Debug) : M VS (Z * lua_Debug) :=
  '(what, f, d) ← (match what with
    | 62 :: what => v ← from_top l 1; pop l 1;; mret (what, v, None)  (* skip the '>', pop function *)
    | _ =>
        if negb (ar_i_ci ar =? 0) then  (* no tail call? *)
          d ← ci_distance l (ar_i_ci ar);
          c ← ci_below l d;
          v ← slot_at l (ci_func c);
          mret (what, v, Some d)
        else mret (what, VNil, None)
    end);
  cl ← (if ttisnil f then mret None else cl ← clvalue f; mret (Some cl));
  r ← auxgetinfo l what ar cl d;
  when (bool_decide (102 ∈ what)) (push_piece l f);;
  when (bool_decide (76 ∈ what)) (collectvalidlines l cl);;
  mret r.
End debug.
