(* ===== verification/Auxlib.v ===== *)
(** * Auxlib.v: the auxiliary library (lauxlib.h, lauxlib.c)

    Written on the C interface of Api.v and DebugApi.v, as the code is.  A
    pointer to a string of Lua is its contents; C strings are bytes without
    the final zero, and a buffer is the value of its fields.  The sizes of
    arrays (LUA_COMPAT_GETN) and files are not compiled in the kernel. *)

From S2P Require Import Prelude Machine Opcodes Object Mem Zio Table Gc Func Collect State Errors Call Vm LuaState Load Api DebugApi.
From S2P Require Lex.

Definition FREELIST_REF : Z := 0.
Definition LUA_REFNIL : Z := -1.
Definition BUFSIZ : Z := 8192.
Definition LUAL_BUFFERSIZE : Z := BUFSIZ.
Definition LIMIT : Z := LUA_MINSTACK / 2.

Definition no_debug : lua_Debug := mkDebug None "" "" [] 0 0 0 0 [] 0.

(** luaL_Buffer: what is in [buffer], and the strings on the stack. *)
Record luaL_Buffer := mkBuffer { B_buffer : bytes; B_lvl : Z }.

Record luaL_Reg := mkReg { r_name : bytes; r_func : Z }.

(** [strstr(s, p)]: what is before it and from it on. *)
Fixpoint strstr (s p : bytes) : option (bytes * bytes) :=
  if bool_decide (take (length p) s = p) then Some ([], s)
  else match s with
       | [] => None
       | c :: s => '(b, e) ← strstr s p; Some (c :: b, e)
       end.

Section aux.
Context `{Krealloc} `{StringHash} `{KernelStrto} `{Host}.
Context (call : Z -> Z -> Z -> M VS unit).   (* luaD_call *)

(** ** Macros of lua.h and lauxlib.h *)

Definition abs_index (l i : Z) : M VS Z :=
  if (i >? 0) || (i <=? LUA_REGISTRYINDEX) then mret i else t ← lua_gettop l; mret (t + i + 1).
Definition lua_pop (l n : Z) : M VS unit := lua_settop l (- n - 1).
Definition lua_isnil (l n : Z) : M VS bool := t ← lua_type l n; mret (t =? LUA_TNIL).
Definition lua_istable (l n : Z) : M VS bool := t ← lua_type l n; mret (t =? LUA_TTABLE).
Definition lua_isnoneornil (l n : Z) : M VS bool := t ← lua_type l n; mret (t <=? 0).
Definition lua_pushliteral (l : Z) (s : string) : M VS unit := lua_pushlstring call l (bytes_of_string s).
Definition luaL_typename (l i : Z) : M VS string := t ← lua_type l i; lift (lua_typename t).
(** [lua_tolstring], the contents. *)
Definition tolstring (l i : Z) : M VS (option bytes) :=
  r ← lua_tolstring call l i;
  match r with None => mret None | Some (s, _) => str ← tsvalue s; mret (Some str) end.

(** ** Error-report functions *)

Definition luaL_where (l level : Z) : M VS unit :=
  '(found, ar) ← lua_getstack l level no_debug;
  ar ← (if (found =? 0) then mret ar
        else '(_, ar) ← lua_getinfo call l (bytes_of_string "Sl") ar; mret ar);  (* get info about it *)
  if negb (found =? 0) && (ar_currentline ar >? 0)  (* is there info? *)
  then lua_pushfstring call l (bytes_of_string "%s:%d: ") [FString (Some (ar_short_src ar)); FInt (ar_currentline ar)]
  else lua_pushliteral l "".  (* else, no information available... *)

Definition luaL_error {A} (l : Z) (fmt : string) (args : list fmt_arg) : M VS A :=
  luaL_where l 1;;
  lua_pushvfstring call l (bytes_of_string fmt) args;;
  lua_concat call l 2;;
  lua_error call l.

Definition luaL_argerror {A} (l narg : Z) (extramsg : bytes) : M VS A :=
  '(found, ar) ← lua_getstack l 0 no_debug;
  if found =? 0  (* no stack frame? *)
  then luaL_error l "bad argument #%d (%s)" [FInt narg; FString (Some extramsg)]
  else
    '(_, ar) ← lua_getinfo call l (bytes_of_string "n") ar;
    let is_method := bool_decide (ar_namewhat ar = "method") in
    let narg := if is_method then narg - 1 else narg in  (* do not count `self' *)
    if is_method && (narg =? 0)  (* error is in the self argument itself? *)
    then luaL_error l "calling '%s' on bad self (%s)" [FString (ar_name ar); FString (Some extramsg)]
    else
      let name := default (bytes_of_string "?") (ar_name ar) in
      luaL_error l "bad argument #%d to '%s' (%s)" [FInt narg; FString (Some name); FString (Some extramsg)].

(** The message that lua_pushfstring left on the top. *)
Definition pushed_message (l : Z) (fmt : string) (args : list fmt_arg) : M VS bytes :=
  lua_pushfstring call l (bytes_of_string fmt) args;;
  v ← from_top l 1;
  match v with VString s => svalue s | _ => throw (UB "object of another type") end.

Definition luaL_typerror {A} (l narg : Z) (tname : bytes) : M VS A :=
  t ← luaL_typename l narg;
  msg ← pushed_message l "%s expected, got %s" [FString (Some tname); FString (Some (bytes_of_string t))];
  luaL_argerror l narg msg.

Definition tag_error {A} (l narg tag : Z) : M VS A :=
  t ← lift (lua_typename tag); luaL_typerror l narg (bytes_of_string t).

(** ** Arguments *)

Definition luaL_checkstack (l space : Z) (mes : bytes) : M VS unit :=
  ok ← lua_checkstack l space;
  when (ok =? 0) (luaL_error l "stack overflow (%s)" [FString (Some mes)]).
Definition luaL_checktype (l narg t : Z) : M VS unit := x ← lua_type l narg; when (negb (x =? t)) (tag_error l narg t).
Definition luaL_checkany (l narg : Z) : M VS unit :=
  x ← lua_type l narg; when (x =? LUA_TNONE) (luaL_argerror l narg (bytes_of_string "value expected")).

Definition luaL_checklstring (l narg : Z) : M VS bytes :=
  s ← tolstring l narg;
  match s with Some s => mret s | None => tag_error l narg LUA_TSTRING end.
Definition luaL_optlstring (l narg : Z) (def : option bytes) : M VS (option bytes) :=
  b ← lua_isnoneornil l narg;
  if (b : bool) then mret def else s ← luaL_checklstring l narg; mret (Some s).

Definition luaL_checknumber (l narg : Z) : M VS Z :=
  d ← lua_tonumber l narg;
  (* avoid extra test when d is not 0 *)
  bad ← (if d =? 0 then b ← lua_isnumber l narg; mret (negb b) else mret false);
  if (bad : bool) then tag_error l narg LUA_TNUMBER else mret d.
Definition luaL_checkinteger (l narg : Z) : M VS Z :=
  d ← lua_tointeger l narg;
  bad ← (if d =? 0 then b ← lua_isnumber l narg; mret (negb b) else mret false);
  if (bad : bool) then tag_error l narg LUA_TNUMBER else mret d.
Definition luaL_opt (f : Z -> Z -> M VS Z) (l n d : Z) : M VS Z :=
  b ← lua_isnoneornil l n; if (b : bool) then mret d else f l n.
Definition luaL_optnumber (l narg def : Z) : M VS Z := luaL_opt luaL_checknumber l narg def.
Definition luaL_optinteger (l narg def : Z) : M VS Z := luaL_opt luaL_checkinteger l narg def.

(** The index of the option in a list of C strings. *)
Definition luaL_checkoption (l narg : Z) (def : option bytes) (lst : list bytes) : M VS Z :=
  name ← (match def with
          | Some _ => s ← luaL_optlstring l narg def; mret (default [] s)
          | None => luaL_checklstring l narg
          end);
  let name := Lex.c_string name in
  match list_find (fun x => x = name) lst with
  | Some (i, _) => mret (Z.of_nat i)
  | None => msg ← pushed_message l "invalid option '%s'" [FString (Some name)]; luaL_argerror l narg msg
  end.

(** ** Metatables *)

Definition luaL_newmetatable (l : Z) (tname : bytes) : M VS bool :=
  lua_getfield call l LUA_REGISTRYINDEX tname;;  (* get registry.name *)
  nil ← lua_isnil l (-1);
  if negb nil then mret false  (* name already in use: leave previous value on top, but return 0 *)
  else
    lua_pop l 1;;
    lua_createtable call l 0 0;;  (* create metatable *)
    lua_pushstring call l (Some tname);;
    lua_setfield call l (-2) (bytes_of_string "__name");;  (* metatable.__name = tname *)
    lua_pushvalue l (-1);;
    lua_setfield call l LUA_REGISTRYINDEX tname;;  (* registry.name = metatable *)
    mret true.

Definition luaL_checkudata (l ud : Z) (tname : bytes) : M VS Z :=
  p ← lua_touserdata l ud;
  ok ← (if p =? NULL then mret false
        else
          mt ← lua_getmetatable l ud;  (* does it have a metatable? *)
          if negb mt then mret false
          else
            lua_getfield call l LUA_REGISTRYINDEX tname;;  (* get correct metatable *)
            same ← lua_rawequal l (-1) (-2);  (* does it have the correct mt? *)
            when same (lua_pop l 2);;  (* remove both metatables *)
            mret same);
  if (ok : bool) then mret p else luaL_typerror l ud tname.

Definition luaL_getmetafield (l obj : Z) (event : bytes) : M VS bool :=
  mt ← lua_getmetatable l obj;
  if negb mt then mret false  (* no metatable? *)
  else
    lua_pushstring call l (Some event);;
    lua_rawget l (-2);;
    nil ← lua_isnil l (-1);
    if (nil : bool) then lua_pop l 2;; mret false  (* remove metatable and metafield *)
    else lua_remove l (-2);; mret true.  (* remove only metatable *)

Definition luaL_callmeta (l obj : Z) (event : bytes) : M VS bool :=
  obj ← abs_index l obj;
  b ← luaL_getmetafield l obj event;
  if negb b then mret false  (* no metafield? *)
  else lua_pushvalue l obj;; lua_call call l 1 1;; mret true.

(** ** Libraries *)

(** The part of a name before the next dot, and the rest if there is a dot. *)
Fixpoint split_name (fname : bytes) : bytes * option bytes :=
  match fname with
  | [] => ([], None)
  | c :: rest => if c =? 46 then ([], Some rest) else let '(b, e) := split_name rest in (c :: b, e)
  end.

(** [do ... while ( *e == '.')]; the problematic part of the name. *)
Fixpoint findtable_loop (fuel : nat) (l : Z) (fname : bytes) (szhint : Z) : M VS (option bytes) :=
  match fuel with
  | O => throw OutOfFuel
  | S fuel =>
      let '(part, rest) := split_name fname in
      let next : M VS (option bytes) :=
        lua_remove l (-2);;  (* remove previous table *)
        match rest with Some fname => findtable_loop fuel l fname szhint | None => mret None end in
      lua_pushlstring call l part;;
      lua_rawget l (-2);;
      nil ← lua_isnil l (-1);
      if (nil : bool) then  (* no such field? *)
        lua_pop l 1;;  (* remove this nil *)
        lua_createtable call l 0 (match rest with Some _ => 1 | None => szhint end);;  (* new table for field *)
        lua_pushlstring call l part;;
        lua_pushvalue l (-2);;
        lua_settable call l (-4);;  (* set new table into field *)
        next
      else
        tbl ← lua_istable l (-1);
        if negb tbl then  (* field has a non-table value? *)
          lua_pop l 2;;  (* remove table and value *)
          mret (Some fname)  (* return problematic part of the name *)
        else next
  end.
Definition luaL_findtable (l idx : Z) (fname : bytes) (szhint : Z) : M VS (option bytes) :=
  lua_pushvalue l idx;; findtable_loop (S (length fname)) l fname szhint.

Definition libsize (r : list luaL_Reg) : Z := zlen r.

Definition luaI_openlib (l : Z) (libname : option bytes) (r : list luaL_Reg) (nup : Z) : M VS unit :=
  match libname with
  | None => mret tt
  | Some libname =>
      let size := libsize r in
      (* check whether lib already exists *)
      luaL_findtable l LUA_REGISTRYINDEX (bytes_of_string "_LOADED") 1;;
      lua_getfield call l (-1) libname;;  (* get _LOADED[libname] *)
      tbl ← lua_istable l (-1);
      when (negb tbl)  (* not found? *)
        (lua_pop l 1;;  (* remove previous result *)
         (* try global variable (and create one if it does not exist) *)
         conflict ← luaL_findtable l LUA_GLOBALSINDEX libname size;
         match conflict with
         | Some _ => luaL_error l "name conflict for module '%s'" [FString (Some libname)]
         | None => mret tt
         end;;
         lua_pushvalue l (-1);;
         lua_setfield call l (-3) libname);;  (* _LOADED[libname] = new table *)
      lua_remove l (-2);;  (* remove _LOADED table *)
      lua_insert l (- (nup + 1))  (* move library table to below upvalues *)
  end;;
  mfor r (fun f =>
    mfor (seqZ 0 nup) (fun _ => lua_pushvalue l (- nup));;  (* copy upvalues to the top *)
    lua_pushcclosure l (r_func f) nup;;
    lua_setfield call l (- (nup + 2)) (r_name f));;
  lua_pop l nup.  (* remove upvalues *)
Definition luaL_register (l : Z) (libname : option bytes) (r : list luaL_Reg) : M VS unit := luaI_openlib l libname r 0.

(** ** Buffers *)

Definition bufffree (B : luaL_Buffer) : Z := LUAL_BUFFERSIZE - zlen (B_buffer B).

Definition emptybuffer (l : Z) (B : luaL_Buffer) : M VS (bool * luaL_Buffer) :=
  if zlen (B_buffer B) =? 0 then mret (false, B)  (* put nothing on stack *)
  else lua_pushlstring call l (B_buffer B);; mret (true, mkBuffer [] (B_lvl B + 1)).

(** [do ... while (toget < B->lvl)] *)
Fixpoint adjust_loop (fuel : nat) (l lvl toget toplen : Z) : M VS Z :=
  match fuel with
  | O => throw OutOfFuel
  | S fuel =>
      n ← lua_objlen call l (- (toget + 1));
      if (lvl - toget + 1 >=? LIMIT) || (toplen >? n) then
        let toget := toget + 1 in
        if toget <? lvl then adjust_loop fuel l lvl toget (u64 (toplen + n)) else mret toget
      else mret toget
  end.

Definition adjuststack (l : Z) (B : luaL_Buffer) : M VS luaL_Buffer :=
  if B_lvl B >? 1 then
    toplen ← lua_objlen call l (-1);
    toget ← adjust_loop (Z.to_nat (B_lvl B)) l (B_lvl B) 1 toplen;  (* number of levels to concat *)
    lua_concat call l toget;;
    mret (mkBuffer (B_buffer B) (B_lvl B - toget + 1))
  else mret B.

Definition luaL_prepbuffer (l : Z) (B : luaL_Buffer) : M VS luaL_Buffer :=
  '(pushed, B) ← emptybuffer l B;
  if (pushed : bool) then adjuststack l B else mret B.

Definition luaL_addchar (l : Z) (B : luaL_Buffer) (c : Z) : M VS luaL_Buffer :=
  B ← (if zlen (B_buffer B) <? LUAL_BUFFERSIZE then mret B else luaL_prepbuffer l B);
  mret (mkBuffer (B_buffer B ++ [c]) (B_lvl B)).

Fixpoint luaL_addlstring (l : Z) (B : luaL_Buffer) (s : bytes) : M VS luaL_Buffer :=
  match s with
  | [] => mret B
  | c :: s => B ← luaL_addchar l B c; luaL_addlstring l B s
  end.
Definition luaL_addstring (l : Z) (B : luaL_Buffer) (s : bytes) : M VS luaL_Buffer := luaL_addlstring l B (Lex.c_string s).

Definition luaL_pushresult (l : Z) (B : luaL_Buffer) : M VS luaL_Buffer :=
  '(_, B) ← emptybuffer l B;
  lua_concat call l (B_lvl B);;
  mret (mkBuffer (B_buffer B) 1).

Definition luaL_addvalue (l : Z) (B : luaL_Buffer) : M VS luaL_Buffer :=
  s ← tolstring l (-1);
  let s := default [] s in
  if zlen s <=? bufffree B then  (* fit into buffer? *)
    lua_pop l 1;;  (* remove from stack *)
    mret (mkBuffer (B_buffer B ++ s) (B_lvl B))
  else
    '(pushed, B) ← emptybuffer l B;
    when pushed (lua_insert l (-2));;  (* put buffer before new value *)
    adjuststack l (mkBuffer (B_buffer B) (B_lvl B + 1)).  (* add new value into B stack *)

Definition luaL_buffinit : luaL_Buffer := mkBuffer [] 0.

(** [while ((wild = strstr(s, p)) != NULL)], which never ends for an empty
    pattern. *)
Fixpoint gsub_loop (fuel : nat) (l : Z) (B : luaL_Buffer) (s p r : bytes) : M VS (luaL_Buffer * bytes) :=
  match fuel with
  | O => throw OutOfFuel
  | S fuel =>
      match strstr s p with
      | None => mret (B, s)
      | Some (before, wild) =>
          B ← luaL_addlstring l B before;  (* push prefix *)
          B ← luaL_addstring l B r;  (* push replacement in place of pattern *)
          gsub_loop fuel l B (drop (length p) wild) p r  (* continue after `p' *)
      end
  end.
Definition luaL_gsub (l : Z) (s p r : bytes) : M VS (option bytes) :=
  '(B, s) ← gsub_loop (S (length s)) l luaL_buffinit s p r;
  B ← luaL_addstring l B s;  (* push last suffix *)
  luaL_pushresult l B;;
  tolstring l (-1).

(** ** References *)

Definition luaL_ref (l t : Z) : M VS Z :=
  t ← abs_index l t;
  nil ← lua_isnil l (-1);
  if (nil : bool) then lua_pop l 1;; mret LUA_REFNIL  (* `nil' has a unique fixed reference *)
  else
    lua_rawgeti l t FREELIST_REF;;  (* get first free element *)
    n ← lua_tointeger l (-1);
    let ref := s32 n in  (* ref = t[FREELIST_REF] *)
    lua_pop l 1;;  (* remove it from stack *)
    ref ← (if negb (ref =? 0) then  (* any free element? *)
             lua_rawgeti l t ref;;  (* remove it from list *)
             lua_rawseti call l t FREELIST_REF;;  (* (t[FREELIST_REF] = t[ref]) *)
             mret ref
           else n ← lua_objlen call l t; mret (s32 (s32 n + 1)));  (* create new reference *)
    lua_rawseti call l t ref;;
    mret ref.

Definition luaL_unref (l t ref : Z) : M VS unit :=
  when (ref >=? 0)
    (t ← abs_index l t;
     lua_rawgeti l t FREELIST_REF;;
     lua_rawseti call l t ref;;  (* t[ref] = t[FREELIST_REF] *)
     lua_pushinteger l ref;;
     lua_rawseti call l t FREELIST_REF).  (* t[FREELIST_REF] = ref *)

(** ** Load functions *)

(** [getS]: the buffer once, unless it is empty. *)
Definition getS (buff : bytes) : list bytes := match buff with [] => [] | _ => [buff] end.
Definition luaL_loadbuffer (l : Z) (buff name : bytes) : M VS Z := lua_load call l (getS buff) (Some (Lex.c_string name)).
Definition luaL_loadstring (l : Z) (s : bytes) : M VS Z := luaL_loadbuffer l (Lex.c_string s) s.

(** The panic function that it sets is in Panic.v. *)
Definition luaL_newstate : result (option (Z * VS)) := lua_newstate.
End aux.
