(* ===== verification/StrOrder.v ===== *)
(** * StrOrder.v: the order of strings

    The interpreter compares strings piece by piece between their zeros; the
    result is the lexicographic order of their bytes. *)

From S2P Require Import Prelude Machine Opcodes Object Mem Table Gc State Errors Call Vm.
From S2P Require Lex.

(** The order of byte strings, whatever bytes they have. *)
Fixpoint lex_compare (s t : bytes) : comparison :=
  match s, t with
  | [], [] => Eq
  | [], _ :: _ => Lt
  | _ :: _, [] => Gt
  | x :: s, y :: t => match x ?= y with Eq => lex_compare s t | c => c end
  end.

Lemma zlen_zero {A} (l : list A) : zlen l = 0 -> l = [].
Proof. unfold zlen. destruct l; cbn; [done|lia]. Qed.

Lemma lex_compare_app p s t : lex_compare (p ++ s) (p ++ t) = lex_compare s t.
Proof. induction p as [|x p IH]; [done|]. cbn. by rewrite Z.compare_refl. Qed.

(** What follows the first zero of a string, with it. *)
Lemma c_string_split s : exists r, s = Lex.c_string s ++ r /\ (r = [] \/ exists r', r = 0 :: r').
Proof.
  induction s as [|c s IH]; [exists []; auto|]. cbn. destruct (Z.eqb_spec c 0) as [->|Hc].
  - exists (0 :: s). eauto.
  - destruct IH as (r & Hs & Hr). exists r. split; [cbn; congruence|done].
Qed.

Lemma strcmp_eq l r : strcmp l r = 0 -> l = r.
Proof.
  revert r. induction l as [|x l IH]; intros [|y r]; cbn; try done.
  destruct (Z.ltb_spec x y); [done|]. destruct (Z.ltb_spec y x); [done|]. intros Hr%IH. f_equal; [lia|done].
Qed.

(** A difference before the first zero decides; a zero is the least byte. *)
Lemma strcmp_lex l r :
  wf_bytes l -> wf_bytes r -> strcmp (Lex.c_string l) (Lex.c_string r) <> 0 ->
  (strcmp (Lex.c_string l) (Lex.c_string r) ?= 0) = lex_compare l r.
Proof.
  revert r. induction l as [|x l IH]; intros [|y r] Hl Hr; cbn [Lex.c_string]; try done.
  - destruct (Z.eqb_spec y 0); [done|]. cbn. done.
  - destruct (Z.eqb_spec x 0); [done|]. cbn. done.
  - apply Forall_cons in Hl as [Hx Hl]. apply Forall_cons in Hr as [Hy Hr]. unfold in_u in Hx, Hy. cbn [lex_compare].
    destruct (Z.eqb_spec x 0) as [->|Hx0], (Z.eqb_spec y 0) as [->|Hy0]; cbn [strcmp].
    + done.
    + intros _. destruct (Z.compare_spec 0 y); [lia|done|lia].
    + intros _. destruct (Z.compare_spec x 0); [lia|lia|done].
    + destruct (Z.ltb_spec x y); [by destruct (Z.compare_spec x y); [lia|done|lia]|].
      destruct (Z.ltb_spec y x); [by destruct (Z.compare_spec x y); [lia|lia|done]|].
      replace y with x by lia. rewrite Z.compare_refl. by apply IH.
Qed.

Lemma l_strcmp_loop_lex fuel l r :
  wf_bytes l -> wf_bytes r -> (length l < fuel)%nat ->
  exists c, l_strcmp_loop fuel l (zlen l) r (zlen r) = Ok c /\ (c ?= 0) = lex_compare l r.
Proof.
  revert l r. induction fuel as [|fuel IH]; intros l r Hl Hr Hf; [lia|]. cbn [l_strcmp_loop].
  destruct (Z.eqb_spec (strcmp (Lex.c_string l) (Lex.c_string r)) 0) as [He|Hne]; cbn [negb].
  2: { eexists. split; [done|]. by apply strcmp_lex. }
  apply strcmp_eq in He. destruct (c_string_split l) as (sl & Hsl & Hl'), (c_string_split r) as (sr & Hsr & Hr').
  rewrite <-He in Hsr. set (p := Lex.c_string l) in *. clearbody p. subst l r. rewrite lex_compare_app, !zlen_app.
  apply Forall_app in Hl as [_ Hl], Hr as [_ Hr]. rewrite length_app in Hf. pose proof (zlen_nonneg sl). pose proof (zlen_nonneg sr).
  destruct (Z.eqb_spec (zlen p) (zlen p + zlen sr)) as [Hsr0|Hsr0].
  { assert (sr = []) as -> by (apply zlen_zero; lia). case_if; eexists; (split; [done|]).
    - assert (sl = []) as -> by (apply zlen_zero; lia). done.
    - destruct sl; [unfold zlen in *; cbn in *; lia|done]. }
  destruct Hr' as [->|[r' ->]]; [unfold zlen in Hsr0; cbn in Hsr0; lia|]. destruct (Z.eqb_spec (zlen p) (zlen p + zlen sl)) as [Hsl0|Hsl0].
  { assert (sl = []) as -> by (apply zlen_zero; lia). by exists (-1). }
  destruct Hl' as [->|[l' ->]]; [unfold zlen in Hsl0; cbn in Hsl0; lia|]. cbn [lex_compare]. rewrite Z.compare_refl.
  apply Forall_cons in Hl as [_ Hl], Hr as [_ Hr]. cbn [length] in Hf.
  assert (Hd : forall x : bytes, drop (Z.to_nat (zlen p + 1)) (p ++ 0 :: x) = x).
  { intros x. replace (Z.to_nat (zlen p + 1)) with (length p + 1)%nat by (unfold zlen; lia). rewrite drop_app_add. done. }
  rewrite !Hd, !zlen_cons. replace (zlen p + (1 + zlen l') - (zlen p + 1)) with (zlen l') by lia.
  replace (zlen p + (1 + zlen r') - (zlen p + 1)) with (zlen r') by lia. apply IH; [done|done|lia].
Qed.

Lemma l_strcmp_lex s t :
  wf_bytes s -> wf_bytes t -> exists c, l_strcmp s t = Ok c /\ (c ?= 0) = lex_compare s t.
Proof. intros Hs Ht. apply l_strcmp_loop_lex; [done..|lia]. Qed.

(** The tests of the interpreter. *)
Definition lex_lt (s t : bytes) : bool := match lex_compare s t with Lt => true | _ => false end.
Definition lex_le (s t : bytes) : bool := match lex_compare s t with Gt => false | _ => true end.

Section order.
Context `{Krealloc} `{StringHash} `{KernelStrto} `{Host}.
Context (call : Z -> Z -> Z -> M VS unit).

(** The string object at an address. *)
Definition string_at (s : VS) (a : Z) (str : bytes) : Prop :=
  exists m, gc_heap (v_g s) !! a = Some (mkObj m (BString str)) /\ wf_bytes str.

Lemma tsvalue_at s a str : string_at s a str -> tsvalue a s = (Ok str, s).
Proof. intros (m & Hm & _). unfold tsvalue, onG, gco2ts, deref. m_simpl. rewrite Hm. by destruct s as [[]]. Qed.

(** C11: Strings are compared as byte strings, in lexicographic order with zeros
    anywhere in them: luaV_lessthan and lessequal of two strings end, change
    nothing, and answer by that order. *)
Theorem luaV_lessthan_strings l a b x y s :
  string_at s a x -> string_at s b y ->
  luaV_lessthan call l (VString a) (VString b) s = (Ok (lex_lt x y), s) /\
  lessequal call l (VString a) (VString b) s = (Ok (lex_le x y), s).
Proof.
  intros Ha Hb. pose proof (tsvalue_at _ _ _ Ha) as Hx. pose proof (tsvalue_at _ _ _ Hb) as Hy.
  destruct Ha as (_ & _ & Hwx), Hb as (_ & _ & Hwy). destruct (l_strcmp_lex x y Hwx Hwy) as (c & Hc & Hs).
  unfold luaV_lessthan, lessequal. cbn [ttype negb Z.eqb]. rewrite Z.eqb_refl. cbn [negb].
  split; (erewrite bind_ok by exact Hx); (erewrite bind_ok by exact Hy); rewrite Hc; unfold lift; m_simpl; do 2 f_equal.
  - unfold lex_lt. rewrite <-Hs. by destruct c.
  - unfold lex_le. rewrite <-Hs. by destruct c.
Qed.
End order.
