(* ===== verification/StackLemmas.v ===== *)
(** * StackLemmas.v: equations of the operations on a thread

    A thread is an object of the heap; every store to one of its fields is a
    [put_thread], and a sequence of stores is the last one. *)

From S2P Require Import Prelude Machine Object Mem Table Gc State.

(** The thread at [l]. *)
Definition thread_at (s : VS) (l : Z) (th : Thread) : Prop :=
  exists m, gc_heap (v_g s) !! l = Some (mkObj m (BThread th)).

Definition put_thread (l : Z) (th : Thread) (s : VS) : VS :=
  with_g (setg_heap (alter (fun o => mkObj (marked o) (BThread th)) l (gc_heap (v_g s))) (v_g s)) s.

(** The rest of the thread. *)
Definition L_at (s : VS) (l : Z) (L : LState) : Prop := v_L s !! l = Some L.

Lemma with_g_g s : with_g (v_g s) s = s.
Proof. by destruct s. Qed.

Lemma thread_at_put s l th th' : thread_at s l th -> thread_at (put_thread l th' s) l th'.
Proof. intros [m Hm]. exists m. cbn. by rewrite lookup_alter_eq, Hm. Qed.

Lemma thread_at_fun s l th th' : thread_at s l th -> thread_at s l th' -> th = th'.
Proof. intros [m Hm] [m' Hm']. congruence. Qed.

Lemma put_put l th th' s : put_thread l th (put_thread l th' s) = put_thread l th s.
Proof.
  unfold put_thread, with_g. cbn. f_equal. unfold setg_heap. cbn. f_equal.
  apply map_eq. intros k. destruct (decide (k = l)) as [->|Hk].
  - rewrite !lookup_alter_eq. by destruct (gc_heap (v_g s) !! l).
  - by rewrite !lookup_alter_ne.
Qed.

Lemma put_same s l th : thread_at s l th -> put_thread l th s = s.
Proof.
  intros [m Hm]. unfold put_thread. replace (alter _ l (gc_heap (v_g s))) with (gc_heap (v_g s)).
  - destruct s as [g]. unfold with_g. cbn. f_equal. by destruct g.
  - apply map_eq. intros k. destruct (decide (k = l)) as [->|Hk]; [|by rewrite lookup_alter_ne].
    rewrite lookup_alter_eq, Hm. done.
Qed.

Lemma L_at_put s l l' th L : L_at s l L -> L_at (put_thread l' th s) l L.
Proof. done. Qed.

Lemma L_at_upd s l L f : L_at s l L -> L_at (upd_L l f s) l (f L).
Proof. unfold L_at, upd_L. cbn. intros H. by rewrite lookup_alter_eq, H. Qed.

Lemma thread_at_upd s l l' th f : thread_at s l th -> thread_at (upd_L l' f s) l th.
Proof. done. Qed.

(** A store to the one part and one to the other commute. *)
Lemma put_upd l th l' f s : put_thread l th (upd_L l' f s) = upd_L l' f (put_thread l th s).
Proof. done. Qed.

Lemma upd_upd l f f' s : upd_L l f (upd_L l f' s) = upd_L l (fun L => f (f' L)) s.
Proof.
  unfold upd_L. cbn. f_equal. apply map_eq. intros k. destruct (decide (k = l)) as [->|Hk].
  - rewrite !lookup_alter_eq. by destruct (v_L s !! l).
  - by rewrite !lookup_alter_ne.
Qed.

Lemma set_stack_set a b th : set_stack a (set_stack b th) = set_stack a th.
Proof. done. Qed.

(** ** The operations *)

Section thread_ops.
Context (s : VS) (l : Z) (th : Thread) (Hth : thread_at s l th).

Lemma onG_th {A} (m : M gstate A) r : m (v_g s) = (r, v_g s) -> onG m s = (r, s).
Proof. intros E. unfold onG. rewrite E, with_g_g. done. Qed.

Lemma thread_of_at : thread_of l s = (Ok th, s).
Proof. apply onG_th. destruct Hth as [m Hm]. unfold gco2th, deref. m_simpl. by rewrite Hm. Qed.

Lemma set_thread_at f : set_thread l f s = (Ok tt, put_thread l (f th) s).
Proof. unfold set_thread. by erewrite bind_ok by apply thread_of_at. Qed.

Lemma top_at : top l s = (Ok (th_top th), s).
Proof. unfold top. by erewrite bind_ok by apply thread_of_at. Qed.

Lemma set_top_at n : set_top l n s = (Ok tt, put_thread l (set_th_top n th) s).
Proof. apply set_thread_at. Qed.

Lemma slot_at_at i v : znth (th_stack th) i = Some v -> slot_at l i s = (Ok v, s).
Proof. intros Hi. unfold slot_at. erewrite bind_ok by apply thread_of_at. by rewrite Hi. Qed.

Lemma set_slot_at i v :
  0 <= i < zlen (th_stack th) -> set_slot l i v s = (Ok tt, put_thread l (set_stack (zupd i v (th_stack th)) th) s).
Proof.
  intros Hi. unfold set_slot. erewrite bind_ok by apply thread_of_at. destruct (znth_is_Some _ _ Hi) as [x Hx].
  by rewrite Hx.
Qed.

Lemma move_slot_at to from v :
  znth (th_stack th) from = Some v -> 0 <= to < zlen (th_stack th) ->
  move_slot l to from s = (Ok tt, put_thread l (set_stack (zupd to v (th_stack th)) th) s).
Proof. intros Hf Ht. unfold move_slot. erewrite bind_ok by by apply slot_at_at. by apply set_slot_at. Qed.
End thread_ops.

Section L_ops.
Context (s : VS) (l : Z) (L : LState) (HL : L_at s l L).

Lemma state_of_at : state_of l s = (Ok L, s).
Proof. unfold state_of. rewrite HL. done. Qed.

Lemma getL_at {A} (f : LState -> A) : getL l f s = (Ok (f L), s).
Proof. unfold getL. by erewrite bind_ok by apply state_of_at. Qed.

Lemma base_at : base l s = (Ok (l_base L), s).
Proof. apply getL_at. Qed.

Lemma ci_at c rest : l_cis L = c :: rest -> ci l s = (Ok c, s).
Proof. intros Hc. unfold ci. erewrite bind_ok by apply getL_at. by rewrite Hc. Qed.

Lemma set_cis_at th cis :
  thread_at s l th -> set_cis l cis s = (Ok tt, put_thread l (set_th_ci (map ci_top cis) th) (upd_L l (set_cis_of cis) s)).
Proof. intros Hth. unfold set_cis. apply (set_thread_at (upd_L l (set_cis_of cis) s) l th Hth). Qed.

Lemma upd_ci_at th c rest f :
  thread_at s l th -> l_cis L = c :: rest ->
  upd_ci l f s = (Ok tt, put_thread l (set_th_ci (map ci_top (f c :: rest)) th) (upd_L l (set_cis_of (f c :: rest)) s)).
Proof. intros Hth Hc. unfold upd_ci. erewrite bind_ok by apply getL_at. rewrite Hc. by apply set_cis_at. Qed.
End L_ops.
