(* ===== verification/ForLoop.v ===== *)
(** * ForLoop.v: the numeric for

    OP_FORPREP and OP_FORLOOP as a loop around a body: which indices the body
    gets, that the loop ends, and that it does not when the index wraps. *)

From S2P Require Import Prelude Machine Opcodes Object Mem Table Gc State StackLemmas Errors Call Vm Execute.

(** The turns of the loop whose OP_FORLOOP is [i], until it is passed; [fr] is
    the frame after that instruction, and the body gets the external index. *)
Fixpoint for_run (fuel : nat) (l : Z) (fr : frame) (i : Z) (body : Z -> M VS unit) : M VS (list Z) :=
  match fuel with
  | O => throw OutOfFuel
  | S fuel =>
      o ← op_forloop l fr i;
      match o with
      | Next fr' =>
          if x_pc fr' =? x_pc fr then mret []
          else
            idx ← slot_number l (RA fr i + 3);
            body idx;;
            rest ← for_run fuel l fr i body;
            mret (idx :: rest)
      | _ => throw (UB "not a loop")
      end
  end.

(** How often the loop turns, and the indices. *)
Definition for_count (init limit step : Z) : Z :=
  Z.max 0 (if 0 <? step then (limit - init) / step + 1 else (init - limit) / (- step) + 1).
Definition for_values (init limit step : Z) : list Z :=
  (fun k => init + k * step) <$> seqZ 0 (for_count init limit step).

(** The three numbers of the loop, and the slot of its variable. *)
Definition for_slots (s : VS) (l ra idx limit step : Z) : Prop :=
  exists th, thread_at s l th /\ znth (th_stack th) ra = Some (VNumber idx) /\
    znth (th_stack th) (ra + 1) = Some (VNumber limit) /\ znth (th_stack th) (ra + 2) = Some (VNumber step) /\
    ra + 3 < zlen (th_stack th).

(** The index that comes next stays inside the type. *)
Definition no_wrap (limit step : Z) : Prop := step <> 0 /\ in_s 64 limit /\ in_s 64 step /\ in_s 64 (limit + step).

Definition for_test (idx limit step : Z) : bool :=
  if luai_numlt 0 step then luai_numle idx limit else luai_numle limit idx.

(** ** Arithmetic *)

Lemma for_count_stop init limit step : step <> 0 -> for_test init limit step = false -> for_count init limit step = 0.
Proof.
  unfold for_test, for_count, luai_numlt, luai_numle. intros Hs. destruct (Z.ltb_spec 0 step) as [Hp|Hp]; intros Ht; b2p.
  - pose proof (Z.div_lt_upper_bound (limit - init) step 0). lia.
  - pose proof (Z.div_lt_upper_bound (init - limit) (- step) 0). lia.
Qed.

Lemma for_count_next init limit step :
  step <> 0 -> for_test init limit step = true -> for_count init limit step = 1 + for_count (init + step) limit step.
Proof.
  unfold for_test, for_count, luai_numlt, luai_numle. intros Hs. destruct (Z.ltb_spec 0 step) as [Hp|Hp]; intros Ht; b2p.
  - replace (limit - (init + step)) with (limit - init + -1 * step) by lia. rewrite Z.div_add by lia.
    pose proof (Z.div_pos (limit - init) step). lia.
  - replace (init + step - limit) with (init - limit + -1 * (- step)) by lia. rewrite Z.div_add by lia.
    pose proof (Z.div_pos (init - limit) (- step)). lia.
Qed.

Lemma for_values_stop init limit step : step <> 0 -> for_test init limit step = false -> for_values init limit step = [].
Proof. intros Hs Ht. unfold for_values. by rewrite for_count_stop. Qed.

Lemma for_values_next init limit step :
  step <> 0 -> for_test init limit step = true -> for_values init limit step = init :: for_values (init + step) limit step.
Proof.
  intros Hs Ht. unfold for_values. rewrite for_count_next by done.
  set (n := for_count (init + step) limit step). assert (0 <= n) by (subst n; unfold for_count; lia).
  rewrite Z.add_comm, seqZ_cons by lia. cbn [fmap list_fmap]. f_equal; [lia|].
  replace (Z.pred (n + 1)) with n by lia. replace (Z.succ 0) with (1 + 0) by lia.
  rewrite <-fmap_add_seqZ, <-list_fmap_compose.
  apply list_fmap_ext. intros _ k _. cbn. lia.
Qed.

Lemma zupd_same {A} (l : list A) i x : znth l i = Some x -> zupd i x l = l.
Proof. unfold znth, zupd. destruct (i <? 0); [done|]. apply list_insert_id. Qed.

Lemma swrap_add x k : s64 (x + k * 2 ^ 64) = s64 x.
Proof. unfold swrap. replace (x + k * 2 ^ 64 + 2 ^ (64 - 1)) with (x + 2 ^ (64 - 1) + k * 2 ^ 64) by lia. by rewrite Z.mod_add. Qed.

(** ** One turn *)

Lemma set_number_slots s l th ra idx limit step v :
  thread_at s l th -> znth (th_stack th) (ra + 1) = Some (VNumber limit) -> znth (th_stack th) (ra + 2) = Some (VNumber step) ->
  0 <= ra -> ra + 3 < zlen (th_stack th) ->
  for_slots (put_thread l (set_stack (zupd (ra + 3) v (zupd ra (VNumber idx) (th_stack th))) th) s) l ra idx limit step.
Proof.
  intros Hth Hl Hs H0 Hr. eexists. split; [by eapply thread_at_put|]. cbn [set_stack th_stack]. rewrite !zlen_zupd.
  rewrite (znth_zupd_ne _ (ra + 3) ra), (znth_zupd_ne _ (ra + 3) (ra + 1)), (znth_zupd_ne _ (ra + 3) (ra + 2)) by lia.
  rewrite (znth_zupd_ne _ ra (ra + 1)), (znth_zupd_ne _ ra (ra + 2)) by lia. split_and!; [|done..].
  apply znth_zupd_eq. lia.
Qed.

Lemma op_forloop_turn l fr i s idx limit step :
  for_slots s l (RA fr i) idx limit step ->
  if for_test (luai_numadd idx step) limit step
  then exists s', op_forloop l fr i s = (Ok (Next (dojump fr (GETARG_sBx i))), s') /\
         for_slots s' l (RA fr i) (luai_numadd idx step) limit step /\
         slot_number l (RA fr i + 3) s' = (Ok (luai_numadd idx step), s')
  else op_forloop l fr i s = (Ok (Next fr), s).
Proof.
  intros (th & Hth & Hi & Hl & Hs & Hr). pose proof (znth_Some_lt _ _ _ Hi) as Hb. set (ra := RA fr i) in *.
  assert (Hn : forall j n, znth (th_stack th) j = Some (VNumber n) -> slot_number l j s = (Ok n, s)).
  { intros j n Hj. unfold slot_number. by erewrite bind_ok by by eapply slot_at_at. }
  unfold op_forloop. fold ra. erewrite bind_ok by by apply Hn. erewrite bind_ok by by apply Hn.
  cbv zeta. erewrite bind_ok by by apply Hn. fold (for_test (luai_numadd idx step) limit step).
  destruct (for_test (luai_numadd idx step) limit step); [|done].
  rewrite (bind_ok _ _ _ _ _ (set_slot_at s l th Hth ra (VNumber (luai_numadd idx step)) Hb)).
  set (th1 := set_stack (zupd ra (VNumber (luai_numadd idx step)) (th_stack th)) th).
  assert (Hth1 : thread_at (put_thread l th1 s) l th1) by by eapply thread_at_put.
  rewrite (bind_ok _ _ _ _ _ (set_slot_at _ l th1 Hth1 (ra + 3) (VNumber (luai_numadd idx step))
    ltac:(subst th1; cbn [set_stack th_stack]; rewrite zlen_zupd; lia))).
  subst th1. eexists. rewrite put_put, set_stack_set. change (th_stack (set_stack ?x th)) with x. split; [reflexivity|]. clear Hth1. split; [apply set_number_slots; first [done|lia]|].
  unfold slot_number. erewrite bind_ok by (eapply slot_at_at; [eapply thread_at_put; exact Hth|];
    apply znth_zupd_eq; rewrite zlen_zupd; lia). done.
Qed.

(** ** The loop *)

(** A body that leaves the loop's numbers alone, as compiled code does: they
    have no name in the source. *)
Definition body_ok (l ra limit step : Z) (body : Z -> M VS unit) : Prop :=
  forall idx s, for_slots s l ra idx limit step -> exists s', body idx s = (Ok tt, s') /\ for_slots s' l ra idx limit step.

Section for_loop.
Context (l : Z) (fr : frame) (i limit step : Z) (body : Z -> M VS unit).
Context (Hwrap : no_wrap limit step) (Hjump : GETARG_sBx i <> 0) (Hbody : body_ok l (RA fr i) limit step body).

Lemma for_run_values n v idx s :
  for_slots s l (RA fr i) idx limit step -> luai_numadd idx step = v -> for_count v limit step <= Z.of_nat n -> in_s 64 v ->
  exists s', for_run (S n) l fr i body s = (Ok (for_values v limit step), s').
Proof.
  destruct Hwrap as (Hs0 & Hl & Hs & Hls).
  revert v idx s. induction n as [|n IH]; intros v idx s Hsl Hv Hn Hin; pose proof (op_forloop_turn l fr i s idx limit step Hsl) as Ht;
    rewrite Hv in Ht; destruct (for_test v limit step) eqn:E.
  1: { rewrite for_count_next in Hn by done. unfold for_count in Hn. lia. }
  1, 3: exists s; cbn [for_run]; erewrite bind_ok by exact Ht; cbn [x_pc]; rewrite Z.eqb_refl; by rewrite for_values_stop.
  destruct Ht as (s1 & Hop & Hsl1 & Hnum). destruct (Hbody v s1 Hsl1) as (s2 & Hb & Hsl2).
  rewrite for_count_next in Hn by done.
  assert (Hin' : in_s 64 (v + step)).
  { revert E. unfold for_test, luai_numlt, luai_numle, in_s in *. destruct (Z.ltb_spec 0 step); intros ?; b2p; lia. }
  destruct (IH (v + step) v s2 Hsl2) as (s' & Hrest); [|lia|done|].
  { unfold luai_numadd. by apply swrap_small. }
  exists s'. change (for_run (S (S n))) with (fun l fr i body => o ← op_forloop l fr i;
      match o with
      | Next fr' =>
          if x_pc fr' =? x_pc fr then mret []
          else idx ← slot_number l (RA fr i + 3); body idx;; rest ← for_run (S n) l fr i body; mret (idx :: rest)
      | _ => throw (UB "not a loop")
      end). cbv beta. erewrite bind_ok by exact Hop. cbn [dojump set_pc x_pc].
  destruct (Z.eqb_spec (x_pc fr + GETARG_sBx i) (x_pc fr)) as [He|_]; [exfalso; lia|].
  erewrite bind_ok by exact Hnum. erewrite bind_ok by exact Hb. erewrite bind_ok by exact Hrest.
  rewrite (for_values_next v) by done. reflexivity.
Qed.
End for_loop.

Section for_theorems.
Context `{Krealloc} `{StringHash} `{KernelStrto} `{Host}.
Context (call : Z -> Z -> Z -> M VS unit).

Lemma for_number_at l i what s th n :
  thread_at s l th -> znth (th_stack th) i = Some (VNumber n) -> for_number call l i what s = (Ok n, s).
Proof.
  intros Hth Hi. unfold for_number. erewrite bind_ok by by eapply slot_at_at. unfold luaV_tonumber.
  erewrite (bind_ok (mret (Some n))) by reflexivity. cbv iota beta.
  erewrite bind_ok by (eapply set_slot_at; [exact Hth|by eapply znth_Some_lt]). rewrite zupd_same by done.
  replace (set_stack (th_stack th) th) with th by by destruct th. by rewrite put_same.
Qed.

(** OP_FORPREP takes the step off the initial value. *)
Lemma op_forprep_numbers l fr i init limit step s L :
  for_slots s l (RA fr i) init limit step -> L_at s l L ->
  exists s', op_forprep call l fr i s = (Ok (Next (dojump fr (GETARG_sBx i))), s') /\
    for_slots s' l (RA fr i) (luai_numsub init step) limit step.
Proof.
  intros (th & Hth & Hi & Hl & Hs & Hr) HL. pose proof (znth_Some_lt _ _ _ Hi). unfold op_forprep. cbv zeta.
  set (s1 := upd_L l (set_savedpc (x_pc fr)) s).
  erewrite (bind_ok (setL _ _)) by reflexivity. fold s1.
  do 3 (erewrite bind_ok by by eapply (for_number_at _ _ _ s1)).
  erewrite bind_ok by (by eapply (set_slot_at s1)).
  eexists. split; [reflexivity|]. eexists. split; [by eapply thread_at_put|]. cbn [set_stack th_stack]. rewrite zlen_zupd.
  rewrite (znth_zupd_ne _ _ (RA fr i + 1)), (znth_zupd_ne _ _ (RA fr i + 2)) by lia. split_and!; [by apply znth_zupd_eq|done..].
Qed.

(** C8: A numeric for with number limits and a step that is not zero runs its
    body for init, init + step, and so on up to the limit, and then ends, when
    the limit plus the step fits the type. *)
Theorem for_loop_visits l fr iprep iloop init limit step body s L :
  for_slots s l (RA fr iprep) init limit step -> L_at s l L -> in_s 64 init -> no_wrap limit step ->
  RA fr iloop = RA fr iprep -> GETARG_sBx iloop <> 0 -> body_ok l (RA fr iprep) limit step body ->
  exists s', (op_forprep call l fr iprep;; for_run (S (Z.to_nat (for_count init limit step))) l fr iloop body) s =
    (Ok (for_values init limit step), s').
Proof.
  intros Hsl HL Hin Hw Hra Hj Hb. destruct (op_forprep_numbers l fr iprep init limit step s L Hsl HL) as (s1 & Hp & Hsl1).
  rewrite <-Hra in Hsl1, Hb. destruct (for_run_values l fr iloop limit step body Hw Hj Hb
    (Z.to_nat (for_count init limit step)) init _ s1 Hsl1) as (s2 & Hr); [|unfold for_count; lia|done|].
  - unfold luai_numadd, luai_numsub. destruct (swrap_congr 64 (init - step)) as [k Hk]; [lia|]. rewrite Hk.
    replace (init - step + k * 2 ^ 64 + step) with (init + k * 2 ^ 64) by lia. rewrite swrap_add. by apply swrap_small.
  - exists s2. by rewrite (bind_ok _ _ _ _ _ Hp).
Qed.

(** C9: A for loop whose limit is the greatest number never ends: the index
    wraps around and stays below the limit, however often the body has run. *)
Theorem for_loop_at_maxint l fr iloop idx body s fuel :
  for_slots s l (RA fr iloop) idx (2 ^ 63 - 1) 1 -> GETARG_sBx iloop <> 0 -> body_ok l (RA fr iloop) (2 ^ 63 - 1) 1 body ->
  (for_run fuel l fr iloop body s).1 = Err OutOfFuel.
Proof.
  intros Hsl Hj Hb. revert idx s Hsl. induction fuel as [|fuel IH]; intros idx s Hsl; [done|]. cbn [for_run].
  pose proof (op_forloop_turn l fr iloop s _ _ _ Hsl) as Ht.
  assert (for_test (luai_numadd idx 1) (2 ^ 63 - 1) 1 = true) as Htest.
  { unfold for_test, luai_numlt, luai_numle, luai_numadd. cbn [Z.ltb Z.compare]. apply Z.leb_le.
    pose proof (swrap_range 64 (idx + 1)). unfold in_s in *. lia. }
  rewrite Htest in Ht. destruct Ht as (s1 & Hop & Hsl1 & Hnum). destruct (Hb _ s1 Hsl1) as (s2 & Hbd & Hsl2).
  rewrite (bind_ok _ _ _ _ _ Hop). cbn [dojump set_pc x_pc].
  destruct (Z.eqb_spec (x_pc fr + GETARG_sBx iloop) (x_pc fr)) as [He|_]; [exfalso; lia|].
  rewrite (bind_ok _ _ _ _ _ Hnum), (bind_ok _ _ _ _ _ Hbd). specialize (IH _ _ Hsl2).
  destruct (for_run fuel l fr iloop body s2) as [[r|e] s3] eqn:E; [done|]. cbn in IH. injection IH as ->.
  by rewrite (bind_err _ _ _ _ _ E).
Qed.
End for_theorems.
