(* ===== verification/Folding.v ===== *)
(** * Folding.v: constant folding against the interpreter

    What the compiler computes for an operator on two numerals is what the
    interpreter would have computed. *)

From S2P Require Import Prelude Machine Opcodes Object Mem Table Gc State StackLemmas Errors Call Vm Execute.
From S2P Require Code.

(** The operators of arithmetic. *)
Definition arith_op (op : OpCode) : bool :=
  match op with OP_ADD | OP_SUB | OP_MUL | OP_DIV | OP_MOD | OP_POW | OP_UNM => true | _ => false end.

(** The interpreter on two numbers. *)
Definition run_arith (op : OpCode) (a b : Z) : result Z := arith (arith_event op) a b.

(** The folded expression is the first operand with the new value; nothing is
    folded for a division by zero. *)
Lemma constfolding_run op e1 e2 :
  arith_op op = true -> Code.isnumeral e1 = true -> Code.isnumeral e2 = true ->
  Code.constfolding op e1 e2 =
    if (bool_decide (op = OP_DIV) || bool_decide (op = OP_MOD)) && (Code.e_nval e2 =? 0) then Ok None
    else n ← run_arith op (Code.e_nval e1) (Code.e_nval e2); Ok (Some (Code.set_nval n e1)).
Proof.
  intros Hop H1 H2. unfold Code.constfolding. rewrite H1, H2. cbn [negb orb].
  assert (Hn : forall n, luai_numisnan n = false) by (intros n; unfold luai_numisnan, luai_numeq; by rewrite Z.eqb_refl).
  destruct op; try discriminate Hop; cbv [run_arith arith arith_event]; cbn; rewrite ?Hn; try done.
  all: destruct (Code.e_nval e2 =? 0) eqn:E; [done|].
  1: destruct (luai_numdiv _ _); cbn; by rewrite ?Hn.
  destruct (luai_nummod _ _); cbn; by rewrite ?Hn.
Qed.

Section folding.
Context `{Krealloc} `{StringHash} `{KernelStrto} `{Host}.
Context (call : Z -> Z -> Z -> M VS unit).

(** C10: For an operator of arithmetic on two numerals the compiler's constant
    is the value the instruction would store, a fault of the compiler is a
    fault of the interpreter, and an expression the compiler leaves alone is a
    division by zero, on which the interpreter faults. *)
Theorem constfolding_is_arith op e1 e2 l fr i s th :
  arith_op op = true -> Code.isnumeral e1 = true -> Code.isnumeral e2 = true ->
  thread_at s l th -> 0 <= RA fr i < zlen (th_stack th) ->
  op_arith call l fr i op (TVal (VNumber (Code.e_nval e1))) (TVal (VNumber (Code.e_nval e2))) s =
    match Code.constfolding op e1 e2 with
    | Ok (Some e) => (Ok (Next fr), put_thread l (set_stack (zupd (RA fr i) (VNumber (Code.e_nval e)) (th_stack th)) th) s)
    | Ok None => (Err (UB "division trap"), s)
    | Err e => (Err e, s)
    end.
Proof.
  intros Hop Hn1 Hn2 Hth Hra. rewrite constfolding_run by done. unfold op_arith, rvalue.
  erewrite bind_ok by reflexivity. erewrite bind_ok by reflexivity. cbv iota. fold (run_arith op (Code.e_nval e1) (Code.e_nval e2)).
  destruct ((bool_decide (op = OP_DIV) || bool_decide (op = OP_MOD)) && (Code.e_nval e2 =? 0)) eqn:E.
  - apply andb_true_iff in E as [E Ez]. destruct op; try discriminate Hop; try discriminate E.
    all: cbv [run_arith arith arith_event luai_numdiv luai_nummod]; rewrite Ez; reflexivity.
  - destruct (run_arith op (Code.e_nval e1) (Code.e_nval e2)) as [n|e]; cbn [mbind result_bind]; [|reflexivity].
    erewrite bind_ok by reflexivity. erewrite bind_ok by by eapply set_slot_at. reflexivity.
Qed.
End folding.
