(* ===== verification/CallSpec.v ===== *)
(** * CallSpec.v: frames and results

    What a call finds on the stack and what its return leaves there. *)

From S2P Require Import Prelude Machine Opcodes Object Mem Table Gc State StackLemmas Errors Call.

(** [l] written to the slots from [i] on. *)
Fixpoint write_at (i : Z) (l : list TValue) (st : list TValue) : list TValue :=
  match l with
  | [] => st
  | v :: l => write_at (i + 1) l (zupd i v st)
  end.

Lemma zlen_write_at i l st : zlen (write_at i l st) = zlen st.
Proof. revert i st. induction l as [|v l IH]; intros i st; [done|]. cbn. rewrite IH. apply zlen_zupd. Qed.

Lemma znth_write_out i l st j : j < i \/ i + zlen l <= j -> znth (write_at i l st) j = znth st j.
Proof.
  revert i st. induction l as [|v l IH]; intros i st Hj; [done|]. cbn [write_at]. rewrite zlen_cons in Hj.
  pose proof (zlen_nonneg l). rewrite IH by lia. apply znth_zupd_ne. lia.
Qed.

Lemma znth_write_in i l st k v :
  0 <= i -> i + zlen l <= zlen st -> znth l k = Some v -> znth (write_at i l st) (i + k) = Some v.
Proof.
  revert i st k. induction l as [|x l IH]; intros i st k Hi Hl Hk; [by apply znth_Some_lt in Hk; unfold zlen in Hk; cbn in Hk; lia|].
  cbn [write_at]. rewrite zlen_cons in Hl. pose proof (zlen_nonneg l). pose proof (znth_Some_lt _ _ _ Hk) as Hr. rewrite zlen_cons in Hr.
  destruct (decide (k = 0)) as [->|Hk0].
  - rewrite znth_write_out by lia. change (Some x = Some v) in Hk. injection Hk as ->. rewrite Z.add_0_r. apply znth_zupd_eq. lia.
  - replace (i + k) with (i + 1 + (k - 1)) by lia. apply IH; [lia|rewrite zlen_zupd; lia|].
    rewrite <-Hk. unfold znth. destruct (Z.ltb_spec (k - 1) 0); [lia|]. destruct (Z.ltb_spec k 0); [lia|].
    replace (Z.to_nat k) with (S (Z.to_nat (k - 1))) by lia. done.
Qed.

Lemma write_at_app i l1 l2 st : write_at i (l1 ++ l2) st = write_at (i + zlen l1) l2 (write_at i l1 st).
Proof.
  revert i st. induction l1 as [|v l1 IH]; intros i st; [unfold zlen; cbn; f_equal; lia|].
  cbn [app write_at]. rewrite IH, zlen_cons. f_equal. lia.
Qed.

(** The values of a stack from a slot on. *)
Definition holds (st : list TValue) (i : Z) (vs : list TValue) : Prop :=
  forall k v, znth vs k = Some v -> znth st (i + k) = Some v.

Lemma holds_cons st i v vs : holds st i (v :: vs) -> znth st i = Some v /\ holds st (i + 1) vs.
Proof.
  intros H. split; [by rewrite <-(H 0 v), Z.add_0_r|]. intros k x Hk. pose proof (znth_Some_lt _ _ _ Hk).
  replace (i + 1 + k) with (i + (k + 1)) by lia. apply H. rewrite <-Hk. unfold znth.
  destruct (Z.ltb_spec (k + 1) 0); [lia|]. destruct (Z.ltb_spec k 0); [lia|]. by replace (Z.to_nat (k + 1)) with (S (Z.to_nat k)) by lia.
Qed.

(** A store below the values leaves them alone. *)
Lemma holds_zupd st i vs j v : j < i -> holds st i vs -> holds (zupd j v st) i vs.
Proof. intros Hj H k x Hk. pose proof (znth_Some_lt _ _ _ Hk). rewrite znth_zupd_ne by lia. by apply H. Qed.

(** ** Loops over slots *)

Section loops.
Context (l : Z) (s : VS) (th : Thread) (Hth : thread_at s l th).

(** The state with another stack. *)
Definition stack_state (st : list TValue) : VS := put_thread l (set_stack st th) s.

Lemma stack_state_at st : thread_at (stack_state st) l (set_stack st th).
Proof. by eapply thread_at_put. Qed.

Lemma set_slot_state st i v : 0 <= i < zlen st -> set_slot l i v (stack_state st) = (Ok tt, stack_state (zupd i v st)).
Proof. intros Hi. rewrite (set_slot_at _ l _ (stack_state_at st) i v) by done. unfold stack_state. by rewrite put_put. Qed.

Lemma move_slot_state st to from v :
  znth st from = Some v -> 0 <= to < zlen st -> move_slot l to from (stack_state st) = (Ok tt, stack_state (zupd to v st)).
Proof. intros Hf Ht. rewrite (move_slot_at _ l _ (stack_state_at st) to from v) by done. unfold stack_state. by rewrite put_put. Qed.

Lemma move_results_run vs st i res first :
  holds st first vs -> 0 <= res <= first -> res + zlen vs <= zlen st ->
  let k := if i <? 0 then zlen vs else Z.min i (zlen vs) in
  move_results l (length vs) i res first (stack_state st) =
    (Ok (i - k, res + k), stack_state (write_at res (take (Z.to_nat k) vs) st)).
Proof.
  revert st i res first. induction vs as [|v vs IH]; intros st i res first Hvs Hr Hz.
  - assert (Hk : (if i <? 0 then zlen (@nil TValue) else Z.min i (zlen (@nil TValue))) = 0) by (unfold zlen; cbn; destruct (Z.ltb_spec i 0); lia).
    cbv zeta. rewrite Hk, Z.sub_0_r, Z.add_0_r. reflexivity.
  - cbv zeta. cbn [length move_results]. apply holds_cons in Hvs as [Hv Hvs]. rewrite zlen_cons in *. pose proof (zlen_nonneg vs).
    destruct (Z.eqb_spec i 0) as [->|Hi].
    { change (0 <? 0) with false. cbv iota. replace (Z.min 0 (1 + zlen vs)) with 0 by lia. rewrite Z.add_0_r. reflexivity. }
    erewrite bind_ok by (apply move_slot_state; [exact Hv|lia]).
    rewrite (IH _ (i - 1) (res + 1) (first + 1)); [|apply holds_zupd; [lia|done]|lia|rewrite zlen_zupd; lia].
    assert (Hk : (if i <? 0 then 1 + zlen vs else Z.min i (1 + zlen vs)) =
      1 + (if i - 1 <? 0 then zlen vs else Z.min (i - 1) (zlen vs))) by (destruct (Z.ltb_spec i 0), (Z.ltb_spec (i - 1) 0); lia).
    rewrite Hk. set (k := if i - 1 <? 0 then _ else _). assert (0 <= k) by (subst k; case_match; lia).
    replace (Z.to_nat (1 + k)) with (S (Z.to_nat k)) by lia. cbn [take write_at]. do 2 f_equal. f_equal; lia.
Qed.

Lemma clear_slots_run st from n :
  0 <= n -> 0 <= from -> from + n <= zlen st ->
  clear_slots l from (from + n) (stack_state st) = (Ok tt, stack_state (write_at from (replicate (Z.to_nat n) VNil) st)).
Proof.
  intros Hn Hf Hz. unfold clear_slots. replace (from + n - from) with n by lia. rewrite <-(Z2Nat.id n) in Hz |- * by done.
  rewrite Nat2Z.id. set (m := Z.to_nat n) in *. clearbody m. clear Hn n. revert from st Hf Hz. induction m as [|m IH]; intros from st Hf Hz; [done|].
  rewrite seqZ_cons by lia. cbn [mfor replicate write_at].
  erewrite bind_ok by (apply set_slot_state; lia). replace (Z.pred (Z.of_nat (S m))) with (Z.of_nat m) by lia.
  replace (Z.succ from) with (from + 1) by lia. apply IH; [lia|]. rewrite zlen_zupd. lia.
Qed.
End loops.

(** ** Returning *)

(** The results as the caller wanted them: all of them, or so many, with nil
    for those that are missing. *)
Definition delivered (wanted : Z) (results : list TValue) : list TValue :=
  if wanted <? 0 then results
  else take (Z.to_nat wanted) results ++ replicate (Z.to_nat (wanted - zlen results)) VNil.

(** The thread when [c] has returned to [c1]. *)
Definition returned_thread (c c1 : CallInfo) (cs : list CallInfo) (results : list TValue) (th : Thread) : Thread :=
  let d := delivered (ci_nresults c) results in
  set_th_top (ci_func c + zlen d) (set_stack (write_at (ci_func c) d (th_stack th)) (set_th_ci (map ci_top (c1 :: cs)) th)).
Definition returned_L (c1 : CallInfo) (cs : list CallInfo) (L : LState) : LState :=
  set_savedpc (ci_savedpc c1) (set_base (ci_base c1) (set_cis_of (c1 :: cs) L)).

Section poscall.
Context `{Krealloc} `{StringHash} `{KernelStrto} `{Host}.

(** C7: luaD_poscall takes the frame away and puts the results where the
    function was: all of them or as many as were wanted, nil for missing ones,
    the top behind them; the caller's base and pc are back, and nothing else
    has changed. *)
Theorem luaD_poscall_delivers l first results c c1 cs s th L :
  thread_at s l th -> L_at s l L -> l_cis L = c :: c1 :: cs -> Z.land (l_hookmask L) LUA_MASKRET = 0 ->
  holds (th_stack th) first results -> th_top th = first + zlen results ->
  0 <= ci_func c <= first -> -1 <= ci_nresults c ->
  ci_func c + Z.max (zlen results) (ci_nresults c) <= zlen (th_stack th) ->
  luaD_poscall l first s =
    (Ok (ci_nresults c + 1), put_thread l (returned_thread c c1 cs results th) (upd_L l (returned_L c1 cs) s)).
Proof.
  intros Hth HL Hc Hm Hr Ht Hf Hn Hz. pose proof (zlen_nonneg results). unfold luaD_poscall.
  rewrite (bind_ok _ _ _ _ _ (state_of_at s l L HL)). rewrite Hm. cbn [Z.eqb negb].
  rewrite (bind_ok _ _ s first s) by done. rewrite (bind_ok _ _ _ _ _ (getL_at s l L HL l_cis)). rewrite Hc. cbv iota zeta.
  rewrite (bind_ok _ _ _ _ _ (set_cis_at s l th (c1 :: cs) Hth)). do 2 (erewrite (bind_ok (setL _ _)) by reflexivity).
  set (th1 := set_th_ci (map ci_top (c1 :: cs)) th).
  match goal with |- (top l ≫= _) ?x = _ => set (s1 := x) end.
  assert (Hth1 : thread_at s1 l th1) by (subst s1; by eapply thread_at_put).
  rewrite (bind_ok _ _ _ _ _ (top_at s1 l th1 Hth1)). change (th_top th1) with (th_top th). rewrite Ht.
  replace (Z.to_nat (first + zlen results - first)) with (length results) by (unfold zlen; lia).
  assert (Hs1 : s1 = stack_state l s1 th1 (th_stack th)).
  { unfold stack_state. symmetry. apply put_same. by replace (set_stack (th_stack th) th1) with th1 by by destruct th. }
  pose proof (move_results_run l s1 th1 Hth1 results (th_stack th) (ci_nresults c) (ci_func c) first Hr Hf ltac:(lia)) as Hmv.
  cbv zeta in Hmv. rewrite <-Hs1 in Hmv.
  rewrite (bind_ok _ _ _ _ _ Hmv). clear Hmv. set (w := ci_nresults c) in *.
  set (k := if w <? 0 then zlen results else Z.min w (zlen results)).
  assert (Hk : 0 <= k) by (subst k; case_match; b2p; lia).
  assert (Hd : delivered w results = take (Z.to_nat k) results ++ replicate (Z.to_nat (Z.max 0 (w - k))) VNil).
  { unfold delivered. subst k. destruct (Z.ltb_spec w 0).
    - rewrite take_ge by (unfold zlen; lia). replace (Z.max 0 (w - zlen results)) with 0 by lia. by rewrite app_nil_r.
    - f_equal; [|f_equal; lia]. destruct (decide (w <= zlen results)); [f_equal; lia|].
      rewrite !take_ge by (unfold zlen in *; lia). done. }
  assert (Hlen : zlen (take (Z.to_nat k) results) = k).
  { unfold zlen in *. rewrite length_take. subst k. case_match; b2p; lia. }
  assert (Hroom : ci_func c + k + Z.max 0 (w - k) <= zlen (write_at (ci_func c) (take (Z.to_nat k) results) (th_stack th))).
  { rewrite zlen_write_at. subst k. destruct (Z.ltb_spec w 0); lia. }
  rewrite (bind_ok _ _ _ _ _ (clear_slots_run l s1 th1 Hth1 _ (ci_func c + k) (Z.max 0 (w - k)) ltac:(lia) ltac:(lia) Hroom)).
  rewrite (bind_ok _ _ _ _ _ (set_top_at _ l _ (stack_state_at l s1 th1 Hth1 _) _)). unfold stack_state.
  unfold mret, M_ret. f_equal. subst s1. rewrite !put_put, <-!put_upd, !upd_upd, put_put.
  unfold returned_thread. fold w. rewrite Hd, write_at_app, Hlen, zlen_app, Hlen. replace (zlen (replicate (Z.to_nat (Z.max 0 (w - k))) VNil)) with (Z.max 0 (w - k)) by (unfold zlen; rewrite length_replicate; lia).
  by rewrite Z.add_assoc.
Qed.
End poscall.

(** ** Entering a Lua function *)

(** The state with its memory accounted otherwise. *)
Abbreviation mem_state b s := (set_totalbytes b s : VS).

Lemma thread_at_mem b s l th : thread_at s l th -> thread_at (mem_state b s) l th.
Proof. intros [m Hm]. by exists m. Qed.

Section frame.
Context `{Krealloc} `{!ReliableAlloc} `{StringHash} `{KernelStrto} `{Host}.
Context (call : Z -> Z -> Z -> M VS unit).

Lemma reallocstack_runs l n s th :
  thread_at s l th -> zlen (th_stack th) - 6 <= n < 2 ^ 29 ->
  exists b, onG (luaD_reallocstack l n) s =
    (Ok tt, put_thread l (set_stack (th_stack th ++ replicate (Z.to_nat (n + 6 - zlen (th_stack th))) VNil) th) (mem_state b s)).
Proof.
  intros Hth Hn. pose proof (zlen_nonneg (th_stack th)). destruct Hth as [m Hm]. unfold luaD_reallocstack, onG.
  assert (Hg : gco2th l (v_g s) = (Ok th, v_g s)) by (unfold gco2th, deref; m_simpl; by rewrite Hm).
  rewrite (bind_ok _ _ _ _ _ Hg). cbv zeta. unfold EXTRA_STACK. replace (n + 1 + 5) with (n + 6) by lia.
  assert (Hr : luaM_reallocv (th_stacksize th) (n + 6) sizeof_TValue (v_g s) = (Ok tt, setg_totalbytes
    (u64 (u64 (gc_totalbytes (v_g s) - u64 (th_stacksize th * sizeof_TValue)) + u64 ((n + 6) * sizeof_TValue))) (v_g s))).
  { rewrite luaM_reallocv_fits by (unfold sizeof_TValue; lia). etrans; [apply luaM_realloc_reliable|reflexivity]. }
  rewrite (bind_ok _ _ _ _ _ Hr). eexists. unfold upd_obj, modify. f_equal. rewrite take_app_ge by (unfold zlen in *; lia).
  rewrite take_replicate. do 4 f_equal. unfold zlen in *. replace (Init.Nat.min _ _) with (Z.to_nat (n + 6 - Z.of_nat (length (th_stack th)))) by lia.
  reflexivity.
Qed.

(** After [checkstack] there is room for [n] values and one more. *)
Lemma checkstack_runs l n s th :
  thread_at s l th -> 0 <= n < 2 ^ 27 -> th_top th <= zlen (th_stack th) - 6 < 2 ^ 27 ->
  exists b k, checkstack l n s = (Ok tt, put_thread l (set_stack (th_stack th ++ replicate k VNil) th) (mem_state b s)) /\
    th_top th + n < zlen (th_stack th ++ replicate k VNil) - 6.
Proof.
  intros Hth Hn Ht. unfold checkstack. rewrite (bind_ok _ _ _ _ _ (thread_of_at s l th Hth)).
  unfold th_stacksize, EXTRA_STACK. destruct (Z.leb_spec (zlen (th_stack th) - 5 - 1 - th_top th) n) as [Hg|Hg]; cbn [when].
  - unfold growstack. rewrite (bind_ok _ _ _ _ _ (thread_of_at s l th Hth)). unfold th_stacksize. pose proof (zlen_nonneg (th_stack th)).
    set (size := if n <=? zlen (th_stack th) then 2 * zlen (th_stack th) else zlen (th_stack th) + n).
    destruct (reallocstack_runs l size s th Hth) as [b Hb]; [subst size; case_match; b2p; lia|].
    exists b, (Z.to_nat (size + 6 - zlen (th_stack th))). split.
    + rewrite <-Hb. subst size. by destruct (n <=? zlen (th_stack th)).
    + rewrite zlen_app. unfold zlen at 2. rewrite length_replicate. subst size. case_match; b2p; lia.
  - exists (totalbytes s), 0%nat. cbn [replicate]. rewrite app_nil_r. split; [|lia].
    rewrite set_totalbytes_id, put_same; [done|]. by destruct th.
Qed.

Lemma reallocCI_runs l n s th :
  thread_at s l th -> 0 <= n < 2 ^ 30 ->
  exists b, onG (luaD_reallocCI l n) s = (Ok tt, put_thread l (Gc.set_size_ci n th) (mem_state b s)).
Proof.
  intros [m Hm] Hn. unfold luaD_reallocCI, onG.
  assert (Hg : gco2th l (v_g s) = (Ok th, v_g s)) by (unfold gco2th, deref; m_simpl; by rewrite Hm).
  rewrite (bind_ok _ _ _ _ _ Hg).
  assert (Hr : luaM_reallocv (th_size_ci th) n sizeof_CallInfo (v_g s) = (Ok tt, setg_totalbytes
    (u64 (u64 (gc_totalbytes (v_g s) - u64 (th_size_ci th * sizeof_CallInfo)) + u64 (n * sizeof_CallInfo))) (v_g s))).
  { rewrite luaM_reallocv_fits by (unfold sizeof_CallInfo; lia). etrans; [apply luaM_realloc_reliable|reflexivity]. }
  rewrite (bind_ok _ _ _ _ _ Hr). by eexists.
Qed.

Lemma growCI_runs l s th :
  thread_at s l th -> 0 <= th_size_ci th -> 2 * th_size_ci th <= LUAI_MAXCALLS ->
  exists b, growCI call l s = (Ok tt, put_thread l (Gc.set_size_ci (2 * th_size_ci th) th) (mem_state b s)).
Proof.
  unfold LUAI_MAXCALLS. intros Hth Hs0 Hm. unfold growCI, LUAI_MAXCALLS. rewrite (bind_ok _ _ _ _ _ (thread_of_at s l th Hth)).
  destruct (Z.gtb_spec (th_size_ci th) 20000); [lia|]. destruct (reallocCI_runs l (2 * th_size_ci th) s th Hth) as [b Hb]; [lia|].
  exists b. set (s1 := put_thread l _ _) in *.
  assert (Hra : raising call l (onG (luaD_reallocCI l (2 * th_size_ci th))) s = (Ok tt, s1)) by (unfold raising; by rewrite Hb).
  rewrite (bind_ok _ _ _ _ _ Hra). subst s1. rewrite (bind_ok _ _ _ _ _ (thread_of_at _ l _ (thread_at_put (mem_state b s) l th _ (thread_at_mem b s l th Hth)))).
  cbn [Gc.set_size_ci th_size_ci]. by destruct (Z.gtb_spec (2 * th_size_ci th) 20000); [lia|].
Qed.

(** The next CallInfo, in an array that grows below its limit. *)
Lemma inc_ci_runs l c s th L :
  thread_at s l th -> L_at s l L -> 0 <= zlen (l_cis L) <= th_size_ci th -> 2 * th_size_ci th <= LUAI_MAXCALLS ->
  exists b n, inc_ci call l c s = (Ok tt, put_thread l (set_th_ci (map ci_top (c :: l_cis L)) (Gc.set_size_ci n th))
      (upd_L l (set_cis_of (c :: l_cis L)) (mem_state b s))) /\
    (0 < th_size_ci th -> zlen (l_cis L) < n).
Proof.
  intros Hth HL Hz Hm. unfold inc_ci. rewrite (bind_ok _ _ _ _ _ (thread_of_at s l th Hth)), (bind_ok _ _ _ _ _ (getL_at s l L HL l_cis)).
  destruct (Z.eqb_spec (zlen (l_cis L)) (th_size_ci th)) as [He|He]; cbn [when].
  - destruct (growCI_runs l s th Hth ltac:(lia) Hm) as [b Hb]. exists b, (2 * th_size_ci th). split; [|lia].
    rewrite (bind_ok _ _ _ _ _ Hb), (set_cis_at _ l _ (c :: l_cis L) (thread_at_put (mem_state b s) l th _ (thread_at_mem b s l th Hth))).
    by rewrite <-put_upd, put_put.
  - exists (totalbytes s), (th_size_ci th). split; [|lia]. rewrite (bind_ok (mret tt) _ _ tt s), (set_cis_at s l th _ Hth) by done.
    rewrite set_totalbytes_id. by destruct th.
Qed.

(** The frame of a Lua function without varargs. *)
Definition lua_frame (func nresults : Z) (pt : Proto) : CallInfo :=
  mkCI (func + 1) func (func + 1 + pt_maxstacksize pt) 0 nresults 0.

(** What the new function finds in its registers: the arguments it has
    parameters for, and nil. *)
Definition registers (st : list TValue) (func nargs : Z) (pt : Proto) (j : Z) : option TValue :=
  if j <? Z.min (pt_numparams pt) nargs then znth st (func + 1 + j) else Some VNil.

(** C6: Entering a Lua function without varargs, when memory lasts and calls
    are not too deep: its frame is on top of the CallInfos with base, pc and
    top set, the stack has room for its registers and the spare slots, the
    registers hold the arguments up to the number of parameters and nil
    behind them, and the slots below are untouched. *)
Theorem enter_lua_frame l func nresults pt s th L :
  thread_at s l th -> L_at s l L -> Z.land (l_hookmask L) LUA_MASKCALL = 0 -> pt_is_vararg pt = 0 ->
  0 <= pt_numparams pt <= pt_maxstacksize pt -> pt_maxstacksize pt < 2 ^ 20 ->
  0 <= func < th_top th -> th_top th <= zlen (th_stack th) - 6 < 2 ^ 27 ->
  0 <= zlen (l_cis L) <= th_size_ci th -> 2 * th_size_ci th <= LUAI_MAXCALLS ->
  exists s' th', enter_lua call l func nresults pt s = (Ok tt, s') /\ thread_at s' l th' /\
    L_at s' l (set_savedpc 0 (set_base (func + 1) (set_cis_of (lua_frame func nresults pt :: l_cis L) L))) /\
    th_top th' = func + 1 + pt_maxstacksize pt /\ th_top th' <= zlen (th_stack th') - 6 /\
    (forall j, 0 <= j < pt_maxstacksize pt ->
       znth (th_stack th') (func + 1 + j) = registers (th_stack th) func (th_top th - func - 1) pt j) /\
    (forall j, j <= func -> znth (th_stack th') j = znth (th_stack th) j) /\
    th_openupval th' = th_openupval th.
Proof.
  intros Hth HL Hm Hv Hp Hms Hf Ht Hz Hsz. unfold enter_lua.
  destruct (checkstack_runs l (pt_maxstacksize pt) s th Hth ltac:(lia) ltac:(lia)) as (b & k & Hcs & Hroom).
  rewrite (bind_ok _ _ _ _ _ Hcs). set (st := th_stack th ++ replicate k VNil) in *. set (th1 := set_stack st th) in *.
  set (s1 := put_thread l th1 (mem_state b s)). assert (Hth1 : thread_at s1 l th1) by by apply (thread_at_put (mem_state b s) l th), thread_at_mem.
  rewrite (bind_ok _ _ _ _ _ (top_at s1 l th1 Hth1)), Hv. cbn [Z.eqb]. change (th_top th1) with (th_top th).
  set (t2 := Z.min (th_top th) (func + 1 + pt_numparams pt)). set (th2 := set_th_top t2 th1).
  set (s2 := put_thread l th2 s1). assert (Hth2 : thread_at s2 l th2) by by apply (thread_at_put s1 l th1).
  assert (Hw : (when (th_top th >? func + 1 + pt_numparams pt) (set_top l (func + 1 + pt_numparams pt));; mret (func + 1)) s1 = (Ok (func + 1), s2)).
  { destruct (Z.gtb_spec (th_top th) (func + 1 + pt_numparams pt)); cbn [when].
    - rewrite (bind_ok _ _ _ _ _ (set_top_at s1 l th1 Hth1 _)). subst s2 th2 t2. by rewrite Z.min_r by lia.
    - assert (s2 = s1) as ->; [|done]. subst s2 th2 t2. rewrite Z.min_l by lia. apply put_same. by destruct th. }
  rewrite (bind_ok _ _ _ _ _ Hw). cbv zeta. fold (lua_frame func nresults pt).
  destruct (inc_ci_runs l (lua_frame func nresults pt) s2 th2 L Hth2 HL Hz Hsz) as (b' & n & Hic & _).
  rewrite (bind_ok _ _ _ _ _ Hic). do 2 (erewrite (bind_ok (setL _ _)) by reflexivity).
  set (cis := lua_frame func nresults pt :: l_cis L) in *. set (th3 := set_th_ci (map ci_top cis) (Gc.set_size_ci n th2)).
  match goal with |- context [(top l ≫= _) ?x] => set (s3 := x) end.
  assert (Hth3 : thread_at s3 l th3) by by apply (thread_at_put (mem_state b' s2) l th2), thread_at_mem.
  assert (HL3 : L_at s3 l (set_savedpc 0 (set_base (func + 1) (set_cis_of cis L)))).
  { subst s3. by apply L_at_upd, L_at_upd, L_at_put, L_at_upd. }
  rewrite (bind_ok _ _ _ _ _ (top_at s3 l th3 Hth3)). change (th_top th3) with t2.
  assert (Hs3 : s3 = stack_state l s3 th3 st).
  { unfold stack_state. symmetry. apply put_same. by replace (set_stack st th3) with th3. }
  set (m := func + 1 + pt_maxstacksize pt - t2).
  assert (Hst : th_top th + pt_maxstacksize pt < zlen st - 6) by done. assert (Hm0 : 0 <= m) by lia.
  pose proof (clear_slots_run l s3 th3 Hth3 st t2 m Hm0 ltac:(lia) ltac:(lia)) as Hcl. rewrite <-Hs3 in Hcl.
  replace (t2 + m) with (func + 1 + pt_maxstacksize pt) in Hcl by lia.
  rewrite (bind_ok _ _ _ _ _ Hcl), (bind_ok _ _ _ _ _ (set_top_at _ l _ (stack_state_at l s3 th3 Hth3 _) _)).
  erewrite (bind_ok (state_of l)) by (apply state_of_at; exact HL3).
  change (l_hookmask (set_savedpc 0 (set_base (func + 1) (set_cis_of cis L)))) with (l_hookmask L). rewrite Hm. cbn [Z.eqb negb when].
  eexists _, _. split; [reflexivity|]. split; [eapply thread_at_put; by apply stack_state_at|]. split; [exact HL3|].
  cbn [set_th_top set_stack th_top th_stack th_openupval]. split; [done|]. rewrite zlen_write_at. split; [lia|].
  assert (Hpre : forall j, j < th_top th -> znth st j = znth (th_stack th) j).
  { intros j Hj. apply znth_app_l. lia. }
  assert (Hzr : zlen (replicate (Z.to_nat m) VNil) = m) by (unfold zlen; rewrite length_replicate; lia).
  split_and!; [|intros j Hj; rewrite znth_write_out by lia; apply Hpre; lia|done].
  intros j Hj. unfold registers. destruct (Z.ltb_spec j (Z.min (pt_numparams pt) (th_top th - func - 1))).
  - rewrite znth_write_out by lia. apply Hpre. lia.
  - replace (func + 1 + j) with (t2 + (func + 1 + j - t2)) by lia. apply znth_write_in; [lia|rewrite Hzr; lia|].
    unfold znth. destruct (Z.ltb_spec (func + 1 + j - t2) 0); [lia|]. apply lookup_replicate. split; [done|lia].
Qed.
End frame.
