(* ===== verification/VmNext.v ===== *)
(** * VmNext.v: the interpreter stays where the verifier looked

    [vm_next] of Debug.v says where the program counter may go; here the
    instructions of Execute.v are shown to go nowhere else.  Together with the
    soundness of the verifier: in verified code the interpreter always finds
    an instruction. *)

From S2P Require Import Prelude Machine Opcodes Object Mem Debug Table Gc Func Collect State StackLemmas Errors Call Vm Execute.

(** The closure at [cl] is there, its prototype is the one at [p], whose code
    is that of [pt], and whose nested prototypes are those of [pt]. *)
Definition runs (cl p : Z) (pt : Proto) (s : VS) : Prop :=
  (exists m env ups, gc_heap (v_g s) !! cl = Some (mkObj m (BFunction (LClosure env p ups)))) /\ v_p s !! p = Some pt /\
  exists m po, gc_heap (v_g s) !! p = Some (mkObj m (BProto po)) /\
    forall n a, znth (p_p po) n = Some a -> exists q, v_p s !! a = Some q /\ znth (pt_p pt) n = Some q.

(** *** Computations that never return, and those that only read *)

Definition never {A} (m : M VS A) : Prop := forall s a s', m s <> (Ok a, s').
Definition reads {A} (m : M VS A) : Prop := forall s, (m s).2 = s.

Lemma never_throw {A} e : never (throw e : M VS A).
Proof. done. Qed.
Lemma never_bind {A B} (m : M VS A) (k : A -> M VS B) : (forall a, never (k a)) -> never (m ≫= k).
Proof. intros Hk s b s' H. apply bind_Ok_inv in H as (a & s1 & _ & H). by apply Hk in H. Qed.

Lemma reads_inv {A} (m : M VS A) s r s' : reads m -> m s = (r, s') -> s' = s.
Proof. intros Hm E. specialize (Hm s). by rewrite E in Hm. Qed.
Lemma reads_bind {A B} (m : M VS A) (k : A -> M VS B) : reads m -> (forall a, reads (k a)) -> reads (m ≫= k).
Proof.
  intros Hm Hk s. specialize (Hm s). unfold mbind, M_bind. destruct (m s) as [[a|e] s1]; cbn in *; subst; [apply Hk|done].
Qed.
Lemma reads_ret {A} (a : A) : reads (mret a : M VS A).
Proof. done. Qed.
Lemma reads_lift {A} (r : result A) : reads (lift r).
Proof. done. Qed.
Lemma reads_throw {A} e : reads (throw e : M VS A).
Proof. done. Qed.
Lemma reads_proto_at a : reads (proto_at a).
Proof. done. Qed.
Lemma reads_gco2cl a : reads (onG (gco2cl a)).
Proof.
  intros s. unfold onG, gco2cl, deref. m_simpl. destruct (gc_heap (v_g s) !! a) as [[? []]|]; cbn; apply with_g_g.
Qed.

Create HintDb reads.
#[export] Hint Resolve reads_ret reads_lift reads_throw reads_proto_at reads_gco2cl : reads.

(** Step through the code: reads, binds, matches. *)
Ltac reads_step :=
  match goal with
  | |- reads (_ ≫= _) => apply reads_bind; [|intros ?]
  | |- reads (match ?x with _ => _ end) => destruct x
  | |- reads _ => solve [eauto with reads]
  end.
Ltac reads_tac := repeat (cbv zeta; reads_step).

Lemma reads_running fr : reads (running fr).
Proof. unfold running. reads_tac. Qed.
#[export] Hint Resolve reads_running : reads.
Lemma reads_fetch fr pc : reads (fetch fr pc).
Proof. unfold fetch, frame_proto. reads_tac. Qed.
#[export] Hint Resolve reads_fetch : reads.
Lemma reads_test_jump fr taken : reads (test_jump fr taken).
Proof. unfold test_jump. reads_tac. Qed.

(** An error is raised, whatever the handler does. *)
Section errors.
Context `{Krealloc} `{StringHash} `{KernelStrto} `{Host}.
Context (call : Z -> Z -> Z -> M VS unit).
Lemma never_errormsg {A} l what : never (luaG_errormsg call l what : M VS A).
Proof. unfold luaG_errormsg. repeat (apply never_bind; intros ?). apply never_throw. Qed.
Lemma never_runerror {A} l msg : never (luaG_runerror call l msg : M VS A).
Proof. unfold luaG_runerror. do 2 (apply never_bind; intros ?). apply never_errormsg. Qed.
End errors.

(** ** What an operation returns *)

Section ends.
Context (cl p : Z) (pt : Proto).

(** Whatever the state, what [m] returns has [P]. *)
Definition yields {A} (P : A -> Prop) (m : M VS A) : Prop := forall s a s', m s = (Ok a, s') -> P a.
(** Where the function runs, before and after. *)
Definition ends {A} (P : A -> Prop) (m : M VS A) : Prop :=
  forall s a s', runs cl p pt s -> runs cl p pt s' -> m s = (Ok a, s') -> P a.
(** Where it runs afterwards. *)
Definition settles {A} (P : A -> Prop) (m : M VS A) : Prop :=
  forall s a s', runs cl p pt s' -> m s = (Ok a, s') -> P a.

Lemma yields_ret {A} (P : A -> Prop) a : P a -> yields P (mret a).
Proof. intros Ha s x s' Hx. cbv [mret M_ret] in Hx. by simplify_eq. Qed.
Lemma yields_bind {A B} (Q : B -> Prop) (m : M VS A) (k : A -> M VS B) : (forall a, yields Q (k a)) -> yields Q (m ≫= k).
Proof. intros Hk s b s' Hx. apply bind_Ok_inv in Hx as (a & s1 & _ & Hx). by eapply Hk. Qed.
Lemma yields_bind' {A B} (P : A -> Prop) (Q : B -> Prop) (m : M VS A) (k : A -> M VS B) :
  yields P m -> (forall a, P a -> yields Q (k a)) -> yields Q (m ≫= k).
Proof. intros Hm Hk s b s' Hx. apply bind_Ok_inv in Hx as (a & s1 & H1 & Hx). eapply Hk, Hx. by eapply Hm. Qed.
Lemma yields_throw {A} (P : A -> Prop) e : yields P (throw e).
Proof. done. Qed.
Lemma yields_never {A} (P : A -> Prop) (m : M VS A) : never m -> yields P m.
Proof. intros Hm s a s' Hx. by apply Hm in Hx. Qed.

Lemma settles_yields {A} (P : A -> Prop) (m : M VS A) : yields P m -> settles P m.
Proof. intros Hm s a s' _. apply Hm. Qed.
Lemma ends_settles {A} (P : A -> Prop) (m : M VS A) : settles P m -> ends P m.
Proof. intros Hm s a s' _. apply Hm. Qed.
Lemma ends_yields {A} (P : A -> Prop) (m : M VS A) : yields P m -> ends P m.
Proof. intros Hm. by apply ends_settles, settles_yields. Qed.
Lemma settles_bind' {A B} (P : A -> Prop) (Q : B -> Prop) (m : M VS A) (k : A -> M VS B) :
  yields P m -> (forall a, P a -> settles Q (k a)) -> settles Q (m ≫= k).
Proof. intros Hm Hk s b s' Hr Hx. apply bind_Ok_inv in Hx as (a & s1 & H1 & Hx). eapply Hk; [by eapply Hm|done|exact Hx]. Qed.
Lemma settles_bind {A B} (Q : B -> Prop) (m : M VS A) (k : A -> M VS B) : (forall a, settles Q (k a)) -> settles Q (m ≫= k).
Proof. intros Hk. apply (settles_bind' (fun _ => True)); [done|intros a _; apply Hk]. Qed.
Lemma ends_mono {A} (P Q : A -> Prop) (m : M VS A) : (forall a, P a -> Q a) -> ends P m -> ends Q m.
Proof. intros HPQ Hm s a s' Hr Hr' Hx. apply HPQ. exact (Hm s a s' Hr Hr' Hx). Qed.
End ends.

(** An instruction that goes on at the next one. *)
Definition same_place (fr fr' : frame) : Prop := x_cl fr' = x_cl fr /\ x_pc fr' = x_pc fr.
Definition goes_on (fr : frame) (P : Z -> Prop) (o : outcome) : Prop :=
  match o with Next fr' => x_cl fr' = x_cl fr /\ P (x_pc fr') | _ => True end.

Lemma yields_Protect {A} l fr (x : M VS A) : yields (fun r => same_place fr r.2) (Protect l fr x).
Proof. unfold Protect. do 3 (apply yields_bind; intros ?). by apply yields_ret. Qed.
Lemma yields_protected l fr x (P : Z -> Prop) : P (x_pc fr) -> yields (goes_on fr P) (protected l fr x).
Proof.
  intros HP. unfold protected. eapply yields_bind'; [apply yields_Protect|]. intros [[] fr'] [Hc Hp]. cbn in Hc, Hp.
  apply yields_ret. cbn. by rewrite Hp.
Qed.

Lemma yields_luaG_runerror {A} `{Krealloc} `{StringHash} `{KernelStrto} `{Host} call l msg (P : A -> Prop) :
  yields P (luaG_runerror call l msg).
Proof. intros s a s' Hx. by apply never_runerror in Hx. Qed.

Ltac yields_step :=
  match goal with
  | |- yields _ (Protect _ _ _ ≫= _) => eapply yields_bind'; [apply yields_Protect|intros [? ?] [? ?]; cbn in *]
  | |- yields _ (protected _ _ _) => apply yields_protected
  | |- yields _ (_ ≫= _) => apply yields_bind; intros ?
  | |- yields _ (match ?x with _ => _ end) => destruct x
  | |- yields _ (mret _) => apply yields_ret
  | |- yields _ (throw _) => apply yields_throw
  end.
Ltac yields_tac := repeat (cbv zeta; yields_step); cbn; try done.

Section next.
Context `{Krealloc} `{StringHash} `{KernelStrto} `{Host}.
Context (call : Z -> Z -> Z -> M VS unit) (cl p : Z) (pt : Proto).
Lemma yields_count_hook l fr : yields (fun r => same_place fr r.2) (count_hook l fr).
Proof. unfold count_hook, same_place. yields_tac. Qed.

Lemma fetch_code fr pc s w s' : x_cl fr = cl -> runs cl p pt s -> fetch fr pc s = (Ok w, s') -> znth (pt_code pt) pc = Some w.
Proof.
  intros Hfr ((m & env & ups & Hc) & Hp & _). unfold fetch, frame_proto, running, onG, gco2cl, deref. m_simpl.
  rewrite Hfr, Hc. cbn. rewrite with_g_g. unfold proto_at. rewrite Hp. cbn. unfold lift, code_at.
  destruct (znth (pt_code pt) pc); cbn; intros; by simplify_eq.
Qed.

Definition after_test (fr fr' : frame) : Prop :=
  x_cl fr' = x_cl fr /\
  (x_pc fr' = x_pc fr + 1 \/ exists j, znth (pt_code pt) (x_pc fr) = Some j /\ x_pc fr' = x_pc fr + GETARG_sBx j + 1).

Lemma settles_test_jump fr taken : x_cl fr = cl -> settles cl p pt (after_test fr) (test_jump fr taken).
Proof.
  intros Hfr s x s' Hr Hx. pose proof (reads_inv _ _ _ _ (reads_test_jump fr taken) Hx). subst s'. unfold test_jump in Hx.
  apply bind_Ok_inv in Hx as (fr1 & s1 & Hj & Hx). cbv [mret M_ret] in Hx. injection Hx as <- ->. destruct taken.
  - apply bind_Ok_inv in Hj as (j & s2 & Hj & Hret). cbv [mret M_ret] in Hret. injection Hret as <- ->.
    apply fetch_code in Hj; [|done..]. split; [done|]. right. by exists j.
  - cbv [mret M_ret] in Hj. injection Hj as <-. split; [done|by left].
Qed.

(** The instruction at [pc]. *)
Definition instruction_at (pc i : Z) (op : OpCode) : Prop :=
  znth (pt_code pt) pc = Some i /\ z2op (GET_OPCODE i) = Some op.

(** ** The groups of instructions *)

Lemma yields_vararg l fr i : yields (goes_on fr (eq (x_pc fr))) (op_vararg l fr i).
Proof.
  unfold op_vararg. cbv zeta. do 2 (apply yields_bind; intros ?).
  apply yields_bind' with (P := fun r => same_place fr r.2).
  - destruct (_ =? _); [|by apply yields_ret]. yields_tac.
  - intros [b fr'] [Hc Hpc]. cbn in *. yields_tac.
Qed.

Lemma yields_plain l fr i n op :
  op ∉ [OP_LOADBOOL; OP_JMP; OP_EQ; OP_LT; OP_LE; OP_TEST; OP_TESTSET;
        OP_RETURN; OP_FORPREP; OP_FORLOOP; OP_TFORLOOP; OP_SETLIST; OP_CLOSURE] ->
  yields (goes_on fr (eq (x_pc fr))) (exec_op call l fr i n op).
Proof.
  intros Hop. destruct op; try (exfalso; apply Hop; solve [repeat constructor]); unfold exec_op; cbv zeta;
    unfold op_arith, op_len, op_call, op_tailcall; try solve [yields_tac]. apply yields_vararg.
Qed.

(** A jump, and a loop, which may also end. *)
Lemma yields_jump l fr i n op :
  op ∈ [OP_JMP; OP_FORPREP; OP_FORLOOP] ->
  yields (goes_on fr (fun pc => pc = x_pc fr + GETARG_sBx i \/ op = OP_FORLOOP /\ pc = x_pc fr)) (exec_op call l fr i n op).
Proof.
  rewrite !elem_of_cons, elem_of_nil. intros [-> | [-> | [-> | []]]]; unfold exec_op, op_forprep, op_forloop; yields_tac; auto.
Qed.

Lemma yields_loadbool l fr i n :
  yields (goes_on fr (eq (if GETARG_C i =? 0 then x_pc fr else x_pc fr + 1))) (exec_op call l fr i n OP_LOADBOOL).
Proof. unfold exec_op. cbv zeta. apply yields_bind. intros ?. apply yields_ret. by destruct (GETARG_C i =? 0). Qed.

Lemma yields_return l fr i n P : yields (goes_on fr P) (exec_op call l fr i n OP_RETURN).
Proof. unfold exec_op, op_return. yields_tac. Qed.

(** A test at the end of an instruction. *)
Lemma settles_test fr fr' taken :
  x_cl fr = cl -> same_place fr fr' ->
  settles cl p pt (fun o => exists fr', o = Next fr' /\ after_test fr fr') (fr' ← test_jump fr' taken; mret (Next fr')).
Proof.
  intros Hfr [Hc Hpc] s o s' Hr Hx. apply bind_Ok_inv in Hx as (fr2 & s1 & Ht & Hx). cbv [mret M_ret] in Hx. injection Hx as <- ->.
  apply settles_test_jump in Ht as [Hc2 Ht]; [|congruence|done].
  exists fr2. split; [done|]. split; [congruence|by rewrite <- Hpc].
Qed.

(** Of what comes before the test only the place it leaves counts. *)
Ltac settles_tac :=
  cbv zeta;
  repeat match goal with
  | |- settles _ _ _ _ (Protect _ _ _ ≫= _) => eapply settles_bind'; [apply yields_Protect|intros [? ?] ?]
  | |- settles _ _ _ _ (fr' ← test_jump _ _; _) => by apply settles_test
  | |- settles _ _ _ _ (_ ≫= _) => apply settles_bind; intros ?
  end.

(** The instructions that test. *)
Lemma settles_tests l fr i n op :
  x_cl fr = cl -> op ∈ [OP_EQ; OP_LT; OP_LE; OP_TEST; OP_TESTSET; OP_TFORLOOP] ->
  settles cl p pt (fun o => exists fr', o = Next fr' /\ after_test fr fr') (exec_op call l fr i n op).
Proof.
  intros Hfr. rewrite !elem_of_cons, elem_of_nil.
  intros [-> | [-> | [-> | [-> | [-> | [-> | []]]]]]]; cbn [exec_op]; unfold op_compare, op_tforloop; settles_tac.
Qed.

Lemma yields_setlist l fr i n :
  yields (goes_on fr (eq (if GETARG_C i =? 0 then x_pc fr + 1 else x_pc fr))) (exec_op call l fr i n OP_SETLIST).
Proof.
  cbn [exec_op]. unfold op_setlist. cbv zeta. apply yields_bind. intros ?.
  apply yields_bind' with (P := fun r => x_cl r.2 = x_cl fr /\ x_pc r.2 = if GETARG_C i =? 0 then x_pc fr + 1 else x_pc fr).
  - destruct (GETARG_C i =? 0); yields_tac.
  - intros [c fr'] [Hc Hpc]. cbn in Hc, Hpc. yields_tac.
Qed.

(** The prototype of a new closure. *)
Lemma frame_p_nested fr x s a s1 q s2 :
  x_cl fr = cl -> runs cl p pt s -> frame_p fr x s = (Ok a, s1) -> proto_at a s1 = (Ok q, s2) -> znth (pt_p pt) x = Some q.
Proof.
  intros Hfr ((m & env & ups & Hc) & Hp & m' & po & Hpo & Hn). unfold frame_p, running, onG, gco2cl, gco2p, deref. m_simpl.
  rewrite Hfr, Hc. cbn. rewrite with_g_g, Hpo. cbn. unfold lift. destruct (znth (p_p po) x) as [a'|] eqn:Ea; cbn; intros E; simplify_eq.
  destruct (Hn _ _ Ea) as (q' & Hq & Hnth). unfold proto_at. cbn. rewrite Hq. cbn. intros. by simplify_eq.
Qed.
Lemma ends_closure l fr i n :
  x_cl fr = cl ->
  ends cl p pt (goes_on fr (fun pc => exists q, znth (pt_p pt) (GETARG_Bx i) = Some q /\ pc = x_pc fr + pt_nups q))
    (exec_op call l fr i n OP_CLOSURE).
Proof.
  intros Hfr s o s' Hr _ Hx. cbn [exec_op] in Hx. unfold op_closure in Hx.
  apply bind_Ok_inv in Hx as (a & s1 & Ha & Hx). apply bind_Ok_inv in Hx as (q & s2 & Hq & Hx).
  pose proof (frame_p_nested _ _ _ _ _ _ _ Hfr Hr Ha Hq) as Hnth. cbv zeta in Hx. revert Hx.
  match goal with |- ?m s2 = _ -> _ => enough (yields (goes_on fr (fun pc => pc = x_pc fr + pt_nups q)) m) as Hy end.
  { intros Hx. apply Hy in Hx. destruct o; try done. cbn in *. destruct Hx. split; [done|]. by exists q. }
  do 4 (apply yields_bind; intros ?). by apply (yields_protected l (set_pc (x_pc fr + pt_nups q) fr)).
Qed.

(** ** The relation of Debug.v *)

Lemma goes_on_mono fr (P Q : Z -> Prop) o : (forall pc, P pc -> Q pc) -> goes_on fr P o -> goes_on fr Q o.
Proof. intros HPQ. destruct o; cbn; intuition. Qed.
Lemma exec_op_next l fr i n op pc :
  x_cl fr = cl -> x_pc fr = pc + 1 -> instruction_at pc i op -> ends cl p pt (goes_on fr (vm_next pt pc)) (exec_op call l fr i n op).
Proof.
  intros Hfr Hpc [Hi Hop].
  destruct (decide (op ∈ [OP_EQ; OP_LT; OP_LE; OP_TEST; OP_TESTSET; OP_TFORLOOP])) as [Ht|Ht].
  { eapply ends_mono; [|by apply ends_settles, settles_tests]. intros o (fr' & -> & Hc & [Hn|(j & Hj & Hn)]); (split; [done|]).
    - rewrite Hn, Hpc. replace (pc + 1 + 1) with (pc + 2) by lia. by eapply vm_test_skip.
    - rewrite Hn. rewrite Hpc in Hj |- *. by eapply vm_test_jump. }
  destruct (decide (op ∈ [OP_JMP; OP_FORPREP; OP_FORLOOP])) as [Hj|Hj].
  { eapply ends_mono; [|by apply ends_yields, yields_jump]. intros o. apply goes_on_mono. intros pc' [->|[-> ->]].
    - rewrite Hpc. eapply vm_jump; [done..|]. revert Hj. clear. set_solver.
    - rewrite Hpc. eapply vm_plain; [done..|]. rewrite !elem_of_cons, elem_of_nil. naive_solver. }
  destruct (decide (op ∈ [OP_LOADBOOL; OP_RETURN; OP_SETLIST; OP_CLOSURE])) as [Hs|Hs].
  - rewrite !elem_of_cons, elem_of_nil in Hs. destruct Hs as [-> | [-> | [-> | [-> | []]]]].
    + eapply ends_mono; [|apply ends_yields, yields_loadbool]. intros o. apply goes_on_mono. intros pc' <-. rewrite Hpc.
      replace (if GETARG_C i =? 0 then pc + 1 else pc + 1 + 1) with (if GETARG_C i =? 0 then pc + 1 else pc + 2) by (case_match; lia).
      by apply vm_loadbool.
    + apply ends_yields, yields_return.
    + eapply ends_mono; [|apply ends_yields, yields_setlist]. intros o. apply goes_on_mono. intros pc' <-. rewrite Hpc.
      replace (if GETARG_C i =? 0 then pc + 1 + 1 else pc + 1) with (if GETARG_C i =? 0 then pc + 2 else pc + 1) by (case_match; lia).
      by apply vm_setlist.
    + eapply ends_mono; [|by apply ends_closure]. intros o. apply goes_on_mono. intros pc' (q & Hq & ->). rewrite Hpc. by eapply vm_closure.
  - assert (op ∉ [OP_LOADBOOL; OP_JMP; OP_EQ; OP_LT; OP_LE; OP_TEST; OP_TESTSET;
        OP_RETURN; OP_FORPREP; OP_FORLOOP; OP_TFORLOOP; OP_SETLIST; OP_CLOSURE]) as Hp.
    { revert Ht Hj Hs. clear. rewrite !not_elem_of_cons. set_solver. }
    eapply ends_mono; [|by apply ends_yields, yields_plain]. intros o. apply goes_on_mono. intros pc' <-. rewrite Hpc.
    eapply vm_plain; [done..|]. revert Hp. clear. rewrite !not_elem_of_cons. set_solver.
Qed.

Lemma exec_instr_goes_on l fr n pc s o s' :
  x_cl fr = cl -> x_pc fr = pc -> (forall i, znth (pt_code pt) pc = Some i -> exists op, z2op (GET_OPCODE i) = Some op) ->
  runs cl p pt s -> (forall r s1, count_hook l (set_pc (pc + 1) fr) s = (Ok r, s1) -> runs cl p pt s1) -> runs cl p pt s' ->
  exec_instr call l fr n s = (Ok o, s') -> goes_on fr (vm_next pt pc) o.
Proof.
  intros Hfr Hpc Hvalid Hr Hhook Hr' Hx. unfold exec_instr in Hx. apply bind_Ok_inv in Hx as (i & s1 & Hi & Hx).
  pose proof (reads_inv _ _ _ _ (reads_fetch fr (x_pc fr)) Hi). subst s1. apply fetch_code in Hi; [|done..].
  rewrite Hpc in Hi, Hx. cbv zeta in Hx. apply bind_Ok_inv in Hx as ([y fr'] & s1 & Hc & Hx).
  destruct (yields_count_hook _ _ _ _ _ Hc) as [Hc' Hpc']. cbn in Hc', Hpc'. specialize (Hhook _ _ Hc).
  destruct y; [cbv [mret M_ret] in Hx; by simplify_eq|]. destruct (Hvalid i Hi) as [op Hop]. rewrite Hop in Hx.
  eapply exec_op_next in Hx; [|congruence|exact Hpc'|by split|done|done]. destruct o; cbn in Hx |- *; by rewrite <-?Hc'.
Qed.
End next.

(** C5: The interpreter stays where the verifier looked: when an instruction of
    code that luaG_checkcode accepts, with every C of a LOADBOOL at most 1
    ([loadbool_c01]), is executed at a point that a call can reach, and the
    loop goes on, then it does so in the same function, at a point that the
    relation of the verifier allows, and there is a valid instruction there.
    Hooks, metamethods and calls may do anything, as long as the running
    function and its prototype are still there after the hook of the
    instruction, and at its end. *)
Theorem exec_instr_next `{Krealloc} `{StringHash} `{KernelStrto} `{Host} call l fr n p pt s fr' s' :
  wf_nups pt -> loadbool_c01 pt -> luaG_checkcode pt = Ok true ->
  runs (x_cl fr) p pt s ->
  (forall r s1, count_hook l (set_pc (x_pc fr + 1) fr) s = (Ok r, s1) -> runs (x_cl fr) p pt s1) ->
  runs (x_cl fr) p pt s' -> vm_reach pt (x_pc fr) ->
  exec_instr call l fr n s = (Ok (Next fr'), s') ->
  x_cl fr' = x_cl fr /\ vm_next pt (x_pc fr) (x_pc fr') /\
  exists i op, znth (pt_code pt) (x_pc fr') = Some i /\ z2op (GET_OPCODE i) = Some op.
Proof.
  intros Hn Hlb Hc Hr Hhook Hr' Hreach Hx. pose proof (luaG_checkcode_verified pt Hn Hc) as Hv.
  pose proof (vm_reach_on_walk pt _ Hv Hlb Hreach) as Hw.
  assert (goes_on fr (vm_next pt (x_pc fr)) (Next fr')) as [Hcl Hnext].
  { apply (exec_instr_goes_on call (x_cl fr) p pt l fr n (x_pc fr) s (Next fr') s'); try done.
    intros i Hi. destruct (on_walk_valid pt _ Hv Hw) as (i' & op & Hi' & Hop). simplify_eq. by exists op. }
  split_and!; [done..|]. eapply on_walk_valid; [done|]. by eapply vm_next_on_walk.
Qed.
