(* ===== verification/PcallSpec.v ===== *)
(** * PcallSpec.v: what a protected call restores

    After an error luaD_pcall is back in the frame it was called in, whatever
    the function did above it. *)

From S2P Require Import Prelude Machine Opcodes Object Mem Table Gc Func Collect FuncSpec State StackLemmas Errors Call.

(** A computation that leaves the part of the threads alone that the collector
    does not look at. *)
Definition only_g {A} (m : M VS A) : Prop := forall s, v_L (m s).2 = v_L s.

Lemma only_g_bind {A B} (m : M VS A) (k : A -> M VS B) : only_g m -> (forall a, only_g (k a)) -> only_g (m ≫= k).
Proof.
  intros Hm Hk s. unfold mbind, M_bind. specialize (Hm s). destruct (m s) as [[a|e] s1]; cbn in *; [|done].
  by rewrite Hk.
Qed.
Lemma only_g_ret {A} (a : A) : only_g (mret a).
Proof. done. Qed.
Lemma only_g_lift {A} (r : result A) : only_g (lift r).
Proof. done. Qed.
Lemma only_g_gets {A} (f : VS -> A) : only_g (gets f).
Proof. done. Qed.
Lemma only_g_onG {A} (m : M gstate A) : only_g (onG m).
Proof. intros s. unfold onG. by destruct (m (v_g s)). Qed.
Create HintDb only_g.
#[export] Hint Resolve only_g_ret only_g_lift only_g_gets only_g_onG : only_g.

Ltac only_g_step :=
  match goal with
  | |- only_g (_ ≫= _) => apply only_g_bind; [|intros ?]
  | |- only_g (when ?b _) => destruct b; cbn [when]
  | |- only_g (match ?x with _ => _ end) => destruct x
  | |- only_g _ => solve [eauto with only_g]
  end.
Ltac only_g_tac := repeat (cbv zeta; only_g_step).

Lemma only_g_thread_of l : only_g (thread_of l).
Proof. apply only_g_onG. Qed.
#[export] Hint Resolve only_g_thread_of : only_g.
Lemma only_g_set_thread l f : only_g (set_thread l f).
Proof. unfold set_thread. only_g_tac. Qed.
Lemma only_g_set_slot l i v : only_g (set_slot l i v).
Proof. unfold set_slot. only_g_tac. Qed.
Lemma only_g_slot_at l i : only_g (slot_at l i).
Proof. unfold slot_at. only_g_tac. Qed.
Lemma only_g_top l : only_g (top l).
Proof. unfold top. only_g_tac. Qed.
#[export] Hint Resolve only_g_set_thread only_g_set_slot only_g_slot_at only_g_top : only_g.
Lemma only_g_move_slot l to from : only_g (move_slot l to from).
Proof. unfold move_slot. only_g_tac. Qed.
Lemma only_g_set_top l n : only_g (set_top l n).
Proof. apply only_g_set_thread. Qed.
#[export] Hint Resolve only_g_move_slot only_g_set_top : only_g.

(** Stores to a thread, when they succeed. *)
Lemma thread_of_inv l s th s' : thread_of l s = (Ok th, s') -> s' = s /\ thread_at s l th.
Proof.
  unfold thread_of, onG, gco2th, deref. m_simpl. destruct (gc_heap (v_g s) !! l) as [[m b]|] eqn:E; [|done].
  destruct b; cbn; try done. intros Hx. rewrite with_g_g in Hx. simplify_eq. split; [done|]. by exists m.
Qed.
Lemma set_thread_inv l f s s' :
  set_thread l f s = (Ok tt, s') -> exists th, thread_at s l th /\ s' = put_thread l (f th) s.
Proof.
  intros Hx. unfold set_thread in Hx. apply bind_Ok_inv in Hx as (th & s1 & Ht & Hx).
  apply thread_of_inv in Ht as [-> Ht]. exists th. split; [done|]. cbv [onG upd_obj modify] in Hx. by simplify_eq.
Qed.
Lemma set_cis_inv l cs s s' :
  set_cis l cs s = (Ok tt, s') ->
  exists th, thread_at s l th /\ s' = put_thread l (set_th_ci (map ci_top cs) th) (upd_L l (set_cis_of cs) s).
Proof.
  intros Hx. unfold set_cis in Hx. apply bind_Ok_inv in Hx as ([] & s1 & Hs & Hx). cbv [setL modify] in Hs. simplify_eq.
  apply set_thread_inv in Hx as (th & Ht & ->). by exists th.
Qed.
Lemma setL_inv l f s s' : setL l f s = (Ok tt, s') -> s' = upd_L l f s.
Proof. cbv [setL modify]. by intros [= <-]. Qed.
Lemma state_of_inv l s L s' : state_of l s = (Ok L, s') -> s' = s /\ L_at s l L.
Proof. unfold state_of. destruct (v_L s !! l) eqn:E; cbn; intros Hx; by simplify_eq. Qed.

Lemma getL_inv {A} l (f : LState -> A) s a s' : getL l f s = (Ok a, s') -> exists L, s' = s /\ L_at s l L /\ a = f L.
Proof.
  unfold getL. intros Hx. apply bind_Ok_inv in Hx as (L & s2 & Hl & Hx). apply state_of_inv in Hl as [-> HL].
  cbv [mret M_ret] in Hx. simplify_eq. by exists L.
Qed.

Lemma ci_inv l s c s' : ci l s = (Ok c, s') -> s' = s /\ exists L, L_at s l L /\ hd_error (l_cis L) = Some c.
Proof.
  unfold ci. intros Hx. apply bind_Ok_inv in Hx as (cs & s1 & Hc & Hx). apply getL_inv in Hc as (L & -> & HL & ->).
  unfold lift in Hx. destruct (hd_error (l_cis L)) as [x|] eqn:E; cbn in Hx; [|done]. simplify_eq. split; [done|]. by exists L.
Qed.

Lemma top_inv l s n s' : top l s = (Ok n, s') -> s' = s /\ exists th, thread_at s l th /\ n = th_top th.
Proof.
  unfold top. intros Hx. apply bind_Ok_inv in Hx as (th & s1 & Ht & Hx). apply thread_of_inv in Ht as [-> Ht].
  cbv [mret M_ret] in Hx. simplify_eq. split; [done|]. by exists th.
Qed.
Lemma slot_at_inv l i s v s' : slot_at l i s = (Ok v, s') -> s' = s /\ exists th, thread_at s l th /\ znth (th_stack th) i = Some v.
Proof.
  unfold slot_at. intros Hx. apply bind_Ok_inv in Hx as (th & s1 & Ht & Hx). apply thread_of_inv in Ht as [-> Ht].
  unfold lift in Hx. destruct (znth (th_stack th) i) as [x|] eqn:E; cbn in Hx; [|done]. simplify_eq. split; [done|]. by exists th.
Qed.
Lemma set_slot_inv l i v s s' :
  set_slot l i v s = (Ok tt, s') -> exists th, thread_at s l th /\ 0 <= i < zlen (th_stack th) /\
    s' = put_thread l (set_stack (zupd i v (th_stack th)) th) s.
Proof.
  unfold set_slot. intros Hx. apply bind_Ok_inv in Hx as (th & s1 & Ht & Hx). apply thread_of_inv in Ht as [-> Ht].
  apply bind_Ok_inv in Hx as (x & s1 & Hi & Hx). unfold lift in Hi.
  destruct (znth (th_stack th) i) as [y|] eqn:E; cbn in Hi; [|done]. simplify_eq. exists th. split; [done|].
  split; [by eapply znth_Some_lt|]. cbv [onG upd_obj modify] in Hx. by simplify_eq.
Qed.

Section pcall.
Context `{Krealloc} `{StringHash} `{KernelStrto} `{Host}.

Lemma only_g_newliteral str : only_g (luaS_newliteral str).
Proof. apply only_g_onG. Qed.
Hint Resolve only_g_newliteral : only_g.

(** The value that an error thrown in the state [s1] leaves at [oldtop]: the
    message that was on the top of the stack, or the string of the errors that
    have no message. *)
Inductive error_value (l oldtop : Z) (s1 : VS) : Z -> TValue -> Prop :=
  | ev_message status th v :
      status = LUA_ERRRUN \/ status = LUA_ERRSYNTAX -> thread_at s1 l th -> znth (th_stack th) (th_top th - 1) = Some v ->
      error_value l oldtop s1 status v
  | ev_memory s2 s3 a :
      onG (luaF_close l oldtop) s1 = (Ok tt, s2) -> luaS_newliteral "not enough memory" s2 = (Ok a, s3) ->
      error_value l oldtop s1 LUA_ERRMEM (VString a)
  | ev_error s2 s3 a :
      onG (luaF_close l oldtop) s1 = (Ok tt, s2) -> luaS_newliteral "error in error handling" s2 = (Ok a, s3) ->
      error_value l oldtop s1 LUA_ERRERR (VString a).

Definition one_of_errors (status : Z) : Prop := exists e, error_status e = Some status.

Lemma one_of_errors_cases status : one_of_errors status ->
  status = LUA_ERRMEM \/ status = LUA_ERRERR \/ status = LUA_ERRRUN \/ status = LUA_ERRSYNTAX.
Proof. intros [[] E]; cbn in E; simplify_eq; auto. Qed.

(** luaF_close moves no value of the stack. *)
Lemma close_keeps_stack l level s s' th :
  onG (luaF_close l level) s = (Ok tt, s') -> thread_at s' l th ->
  exists th0, thread_at s l th0 /\ th_stack th0 = th_stack th /\ th_top th0 = th_top th.
Proof.
  intros Hx [m' Hth']. unfold onG in Hx. destruct (luaF_close l level (v_g s)) as [r g'] eqn:E. simplify_eq.
  pose proof (luaF_close_thread l level (v_g s)) as Hk. unfold wp in Hk. rewrite E in Hk.
  unfold luaF_close, gco2th, deref in E. revert E. m_simpl.
  destruct (gc_heap (v_g s) !! l) as [[m []]|] eqn:Hth; try done. intros _. eexists. split; [by exists m|].
  destruct (Hk m _ Hth) as (m2 & ol & Hl2). cbn in Hth'. rewrite Hl2 in Hth'. by simplify_eq.
Qed.

(** The error value is the only one above the old top. *)
Lemma seterrorobj_top l status oldtop s1 s s' :
  one_of_errors status -> onG (luaF_close l oldtop) s1 = (Ok tt, s) ->
  luaD_seterrorobj l status oldtop s = (Ok tt, s') ->
  v_L s' = v_L s /\ exists th v, thread_at s' l th /\ th_top th = oldtop + 1 /\ znth (th_stack th) oldtop = Some v /\
    error_value l oldtop s1 status v.
Proof.
  intros Hst Hc Hx. unfold luaD_seterrorobj in Hx. apply bind_Ok_inv in Hx as ([] & s2 & Ha & Hx).
  apply set_thread_inv in Hx as (th & Ht & ->).
  assert (Hslot : exists v, znth (th_stack th) oldtop = Some v /\ error_value l oldtop s1 status v).
  { assert (Hset : forall s0 v, set_slot l oldtop v s0 = (Ok tt, s2) -> znth (th_stack th) oldtop = Some v).
    { intros s0 v Hs. apply set_slot_inv in Hs as (th0 & Hth0 & Hi & ->).
      rewrite (thread_at_fun _ _ _ _ Ht (thread_at_put _ _ _ (set_stack (zupd oldtop v (th_stack th0)) th0) Hth0)).
      cbn. by apply znth_zupd_eq. }
    destruct (one_of_errors_cases status Hst) as [-> | [-> | Hrun]].
    - cbn -[luaS_newliteral set_slot] in Ha. apply bind_Ok_inv in Ha as (a & s3 & Hn & Ha). exists (VString a).
      split; [by eapply Hset|]. by eapply ev_memory.
    - cbn -[luaS_newliteral set_slot] in Ha. apply bind_Ok_inv in Ha as (a & s3 & Hn & Ha). exists (VString a).
      split; [by eapply Hset|]. by eapply ev_error.
    - assert (Ha' : (n ← top l; move_slot l oldtop (n - 1)) s = (Ok tt, s2)) by (by destruct Hrun as [-> | ->]).
      clear Ha. apply bind_Ok_inv in Ha' as (n & s3 & Hn & Ha). apply top_inv in Hn as (-> & th3 & Hth3 & ->).
      unfold move_slot in Ha. apply bind_Ok_inv in Ha as (v & s3 & Hv & Ha). apply slot_at_inv in Hv as (-> & th4 & Hth4 & Hv).
      rewrite (thread_at_fun _ _ _ _ Hth4 Hth3) in Hv. exists v. split; [by eapply Hset|].
      destruct (close_keeps_stack _ _ _ _ _ Hc Hth3) as (th0 & Hth0 & Es & Et).
      apply (ev_message _ _ _ _ th0); [tauto|done|by rewrite Es, Et]. }
  split.
  - change (v_L s2 = v_L s). match type of Ha with ?m _ = _ => assert (only_g m) as Hg by only_g_tac end.
    specialize (Hg s). by rewrite Ha in Hg.
  - destruct Hslot as (v & Hv & He). eexists _, v. split; [by eapply thread_at_put|done].
Qed.

Lemma reallocCI_keeps l n s s' th :
  onG (luaD_reallocCI l n) s = (Ok tt, s') -> thread_at s l th -> thread_at s' l (Gc.set_size_ci n th).
Proof.
  intros Hx [m Hm]. unfold onG in Hx. destruct (luaD_reallocCI l n (v_g s)) as [r g'] eqn:E. simplify_eq.
  unfold luaD_reallocCI in E. assert (gco2th l (v_g s) = (Ok th, v_g s)) as Hg by (unfold gco2th, deref; m_simpl; by rewrite Hm).
  rewrite (bind_ok _ _ _ _ _ Hg) in E. apply bind_Ok_inv in E as ([] & g1 & Hr & E).
  unfold luaM_reallocv in Hr. destruct (_ <=? _) in Hr; [|done]. apply luaM_realloc_Ok in Hr as ->.
  unfold upd_obj, modify in E. simplify_eq. exists m. cbn. by rewrite lookup_alter_eq, Hm.
Qed.

Lemma restore_stack_limit_keeps l s s' th :
  restore_stack_limit l s = (Ok tt, s') -> thread_at s l th ->
  v_L s' = v_L s /\ exists th', thread_at s' l th' /\ th_top th' = th_top th /\ th_ci th' = th_ci th /\ th_stack th' = th_stack th.
Proof.
  intros Hx Hth. unfold restore_stack_limit in Hx. rewrite (bind_ok _ _ _ _ _ (thread_of_at s l th Hth)) in Hx.
  destruct (th_size_ci th >? LUAI_MAXCALLS); cbn [when] in Hx; [|cbv [mret M_ret] in Hx; simplify_eq; eauto 6].
  apply bind_Ok_inv in Hx as (c & s1 & Hc & Hx). apply getL_inv in Hc as (L & -> & _ & _). cbv zeta in Hx.
  destruct (_ <? _); cbn [when] in Hx; [|cbv [mret M_ret] in Hx; simplify_eq; eauto 6].
  pose proof (only_g_onG (luaD_reallocCI l LUAI_MAXCALLS) s) as Hg. rewrite Hx in Hg. split; [exact Hg|].
  eexists. split; [by eapply reallocCI_keeps|done].
Qed.

(** ** The frame after an error *)

(** [l] is back in the frame whose CallInfos are those of [L], with the value
    of the error that was thrown in [s1], and nothing else, above [oldtop]. *)
Definition unwound (l oldtop status : Z) (s1 : VS) (L L' : LState) (s' : VS) : Prop :=
  l_cis L' = l_cis L /\ l_nCcalls L' = l_nCcalls L /\ l_allowhook L' = l_allowhook L /\
  (exists c, hd_error (l_cis L) = Some c /\ l_base L' = ci_base c /\ l_savedpc L' = ci_savedpc c) /\
  exists th v, thread_at s' l th /\ th_top th = oldtop + 1 /\ th_ci th = map ci_top (l_cis L) /\
    znth (th_stack th) oldtop = Some v /\ error_value l oldtop s1 status v.

(** The frames of [L] are still below whatever [f] has put above them. *)
Definition frames_kept (f : M VS unit) (l : Z) (L : LState) (s : VS) : Prop :=
  forall r s1, f s = (r, s1) -> exists L1 news, L_at s1 l L1 /\ l_cis L1 = news ++ l_cis L.

(** The steps after an error. *)
Lemma unwind_restores l old_top n hooks status L L1 news s s' :
  one_of_errors status -> L_at s l L1 -> l_cis L1 = news ++ l_cis L ->
  (onG (luaF_close l old_top);;
   luaD_seterrorobj l status old_top;;
   setL l (set_nCcalls n);;
   L' ← state_of l;
   set_cis l (drop (length (l_cis L') - length (l_cis L)) (l_cis L'));;
   c ← ci l;
   setL l (set_base (ci_base c));;
   setL l (set_savedpc (ci_savedpc c));;
   setL l (set_allowhook hooks);;
   restore_stack_limit l) s = (Ok tt, s') ->
  exists c L', hd_error (l_cis L) = Some c /\ L_at s' l L' /\
    L' = set_allowhook hooks (set_savedpc (ci_savedpc c) (set_base (ci_base c) (set_cis_of (l_cis L) (set_nCcalls n L1)))) /\
    exists th v, thread_at s' l th /\ th_top th = old_top + 1 /\ th_ci th = map ci_top (l_cis L) /\
      znth (th_stack th) old_top = Some v /\ error_value l old_top s status v.
Proof.
  intros Hst HL1 Hcis Hx. apply bind_Ok_inv in Hx as ([] & s1 & Hc & Hx).
  pose proof (only_g_onG (luaF_close l old_top) s) as Hg. rewrite Hc in Hg. cbn [snd] in Hg.
  apply bind_Ok_inv in Hx as ([] & s2 & Hs & Hx). eapply seterrorobj_top in Hs as (Hv & th & v & Hth & Htop & Hval & Herr); [|done..].
  apply bind_Ok_inv in Hx as ([] & s3 & Hn & Hx). apply setL_inv in Hn as ->.
  assert (L_at (upd_L l (set_nCcalls n) s2) l (set_nCcalls n L1)) as HL3.
  { apply L_at_upd. unfold L_at. by rewrite Hv, Hg. }
  rewrite (bind_ok _ _ _ _ _ (state_of_at _ l _ HL3)) in Hx.
  replace (drop _ (l_cis (set_nCcalls n L1))) with (l_cis L) in Hx.
  2: { change (l_cis (set_nCcalls n L1)) with (l_cis L1). rewrite Hcis, length_app, Nat.add_sub. by rewrite drop_app_length. }
  rewrite (bind_ok _ _ _ _ _ (set_cis_at _ l th (l_cis L) (thread_at_upd s2 l l th _ Hth))) in Hx.
  apply bind_Ok_inv in Hx as (c & s4 & Hc4 & Hx). apply ci_inv in Hc4 as (-> & L4 & HL4 & Hhd).
  pose proof (L_at_put _ l l (set_th_ci (map ci_top (l_cis L)) th) _ (L_at_upd _ l _ (set_cis_of (l_cis L)) HL3)) as HL4'.
  assert (L4 = set_cis_of (l_cis L) (set_nCcalls n L1)) as -> by (unfold L_at in *; congruence). cbn [set_cis_of l_cis] in Hhd.
  do 3 (erewrite (bind_ok (setL _ _)) in Hx by reflexivity).
  eapply restore_stack_limit_keeps in Hx as (Hv5 & th5 & Hth5 & Htop5 & Hci5 & Hst5);
    [|do 3 apply thread_at_upd; by eapply thread_at_put, thread_at_upd].
  exists c. eexists. split; [done|]. split_and!; [|reflexivity|].
  2: { exists th5, v. split_and!; [done|by rewrite Htop5|by rewrite Hci5|by rewrite Hst5|done]. }
  unfold L_at. rewrite Hv5. by do 3 apply L_at_upd.
Qed.

(** C14: A protected call of a function that keeps the frames below it: the
    status is 0 or that of the error (other errors are not caught), and the
    error function is the one of before.  After an error the CallInfos, the
    base and pc, the count of C calls and the permission of hooks are as
    before, and the only value above the old top is that of the error: the
    message that was on the stack when it was thrown, or the string for an
    error of memory or in the error handling. *)
Theorem luaD_pcall_restores l func old_top ef s L status s' :
  L_at s l L -> frames_kept func l L (upd_L l (set_errfunc ef) s) ->
  luaD_pcall l func old_top ef s = (Ok status, s') ->
  (match (func (upd_L l (set_errfunc ef) s)).1 with Ok _ => status = 0 | Err e => error_status e = Some status end) /\
  exists L', L_at s' l L' /\ l_errfunc L' = l_errfunc L /\ (status <> 0 -> unwound l old_top status (func (upd_L l (set_errfunc ef) s)).2 L L' s').
Proof.
  intros HL Hk Hx. unfold luaD_pcall in Hx. rewrite (bind_ok _ _ _ _ _ (state_of_at s l L HL)) in Hx.
  cbv zeta in Hx. erewrite (bind_ok (setL _ _)) in Hx by reflexivity.
  apply bind_Ok_inv in Hx as (st & s1 & Hst & Hx). apply bind_Ok_inv in Hx as ([] & s2 & Hw & Hx).
  apply bind_Ok_inv in Hx as ([] & s3 & He & Hx). apply setL_inv in He as ->. cbv [mret M_ret] in Hx. simplify_eq.
  unfold luaD_rawrunprotected in Hst.
  destruct (func (upd_L l (set_errfunc ef) s)) as [r s3] eqn:E. destruct (Hk _ _ E) as (L1 & news & HL1 & Hcis). cbn [fst snd].
  destruct r as [[]|e].
  - simplify_eq. cbn [when Z.eqb negb] in Hw. cbv [mret M_ret] in Hw. simplify_eq. split; [done|].
    eexists. split; [by apply L_at_upd|]. split; [done|]. intros Hs. by destruct Hs.
  - destruct (error_status e) as [st|] eqn:Ee; [|done]. simplify_eq. split; [done|].
    assert (status <> 0) as Hs0 by (by intros ->; destruct e). apply Z.eqb_neq in Hs0. rewrite Hs0 in Hw. cbn [negb when] in Hw.
    eapply unwind_restores in Hw as (c & L' & Hhd & HL' & -> & th & v & Hth & Htop & Hci & Hval & Herr); [|by exists e|done..].
    eexists. split; [by apply L_at_upd|]. split; [done|]. intros _. split_and!; [done..| |].
    + exists c. done.
    + exists th, v. split_and!; [by apply thread_at_upd|done..].
Qed.
End pcall.
