(* ===== verification/ApiSpec.v ===== *)
(** * ApiSpec.v: the stack of a C function as a list

    The functions of lapi.c that move values around implement operations on
    the list of the values of the frame, and touch nothing else. *)

From S2P Require Import Prelude Machine Opcodes Object Mem Table Gc Collect State StackLemmas Errors Call CallSpec PcallSpec Vm LuaState Api.

(** ** The operations on lists *)

Inductive stack_op :=
  | Push (v : TValue)
  | PushValue (idx : Z)
  | Insert (idx : Z)
  | Remove (idx : Z)
  | Replace (idx : Z)
  | SetTop (idx : Z).

(** The position an index means, from the bottom or from the top. *)
Definition abs_index (n idx : Z) : option Z :=
  if (0 <? idx) && (idx <=? n) then Some (idx - 1)
  else if (LUA_REGISTRYINDEX <? idx) && (idx <? 0) && (- idx <=? n) then Some (n + idx)
  else None.

(** All values but the last. *)
Definition but_last (vs : list TValue) : list TValue := take (length vs - 1) vs.

Definition abs_op (op : stack_op) (vs : list TValue) : option (list TValue) :=
  match op with
  | Push v => Some (vs ++ [v])
  | PushValue idx => i ← abs_index (zlen vs) idx; v ← znth vs i; Some (vs ++ [v])
  | Insert idx =>
      i ← abs_index (zlen vs) idx;
      v ← last vs;
      Some (take (Z.to_nat i) (but_last vs) ++ v :: drop (Z.to_nat i) (but_last vs))
  | Remove idx => i ← abs_index (zlen vs) idx; Some (take (Z.to_nat i) vs ++ drop (S (Z.to_nat i)) vs)
  | Replace idx => i ← abs_index (zlen vs) idx; v ← last vs; Some (zupd i v (but_last vs))
  | SetTop idx =>
      if 0 <=? idx then Some (take (Z.to_nat idx) vs ++ replicate (Z.to_nat (idx - zlen vs)) VNil)
      else if - (idx + 1) <=? zlen vs then Some (take (Z.to_nat (zlen vs + idx + 1)) vs)
      else None
  end.

(** With room for so many values; one of them stays free. *)
Fixpoint abs_ops (room : Z) (ops : list stack_op) (vs : list TValue) : option (list TValue) :=
  match ops with
  | [] => Some vs
  | op :: ops =>
      vs' ← abs_op op vs;
      if (zlen vs <? room) && (zlen vs' <? room) then abs_ops room ops vs' else None
  end.

Lemma but_last_snoc vs v : but_last (vs ++ [v]) = vs.
Proof. unfold but_last. rewrite length_app. cbn. by rewrite Nat.add_sub, take_app_length. Qed.

Section spec.
Context `{Krealloc} `{StringHash} `{KernelStrto} `{Host}.
Context (call : Z -> Z -> Z -> M VS unit).

Definition run_op (l : Z) (op : stack_op) : M VS unit :=
  match op with
  | Push v => luaA_pushobject l v
  | PushValue idx => lua_pushvalue l idx
  | Insert idx => lua_insert l idx
  | Remove idx => lua_remove l idx
  | Replace idx => lua_replace call l idx
  | SetTop idx => lua_settop l idx
  end.
End spec.

(** ** Lists *)

Section lists.
Context {A : Type}.
Implicit Types (p r l : list A) (x v : A).

Lemma znth_mid p x r : znth (p ++ x :: r) (zlen p) = Some x.
Proof. rewrite znth_app_r by lia. by rewrite Z.sub_diag. Qed.
Lemma zupd_mid p x v r : zupd (zlen p) v (p ++ x :: r) = p ++ v :: r.
Proof.
  unfold zupd, zlen. destruct (Z.ltb_spec (Z.of_nat (length p)) 0); [lia|]. rewrite Nat2Z.id.
  rewrite <-(Nat.add_0_r (length p)). by rewrite insert_app_r.
Qed.
Lemma znth_split l i x : znth l i = Some x -> exists p r, l = p ++ x :: r /\ i = zlen p.
Proof.
  intros Hi. pose proof (znth_Some_lt _ _ _ Hi). unfold znth in Hi. destruct (Z.ltb_spec i 0); [done|].
  exists (take (Z.to_nat i) l), (drop (S (Z.to_nat i)) l). split; [by rewrite take_drop_middle|].
  unfold zlen in *. rewrite length_take. lia.
Qed.
End lists.

(** Lengths. *)
Ltac zl := rewrite ?zlen_app, ?zlen_cons; change (zlen (@nil TValue)) with 0; lia.

(** ** The frame *)

Section frame.
Context `{Krealloc} `{StringHash} `{KernelStrto} `{Host}.
Context (call : Z -> Z -> Z -> M VS unit).
Context (s : VS) (l : Z) (th : Thread) (L : LState) (lo : list TValue).
Context (Hth : thread_at s l th) (HL : L_at s l L) (Hb : l_base L = zlen lo).

(** The stack is [lo], below the frame, then the values, then free slots. *)
Definition with_frame (vs hi : list TValue) : VS :=
  put_thread l (set_th_top (zlen lo + zlen vs) (set_stack (lo ++ vs ++ hi) th)) s.

Lemma frame_thread vs hi : thread_at (with_frame vs hi) l (set_th_top (zlen lo + zlen vs) (set_stack (lo ++ vs ++ hi) th)).
Proof. by eapply thread_at_put. Qed.
Lemma frame_L vs hi : L_at (with_frame vs hi) l L.
Proof. done. Qed.
Lemma frame_top vs hi : top l (with_frame vs hi) = (Ok (zlen lo + zlen vs), with_frame vs hi).
Proof. apply (top_at _ l _ (frame_thread vs hi)). Qed.
Lemma frame_base vs hi : base l (with_frame vs hi) = (Ok (zlen lo), with_frame vs hi).
Proof. rewrite <-Hb. apply (base_at _ l _ (frame_L vs hi)). Qed.

(** The stack in the middle of an operation: top may be anywhere. *)
Definition mid (t : Z) (st : list TValue) : VS := put_thread l (set_th_top t (set_stack st th)) s.
Lemma mid_thread t st : thread_at (mid t st) l (set_th_top t (set_stack st th)).
Proof. by eapply thread_at_put. Qed.
Lemma frame_mid vs hi : with_frame vs hi = mid (zlen lo + zlen vs) (lo ++ vs ++ hi).
Proof. done. Qed.
Lemma mid_frame t st vs hi : t = zlen lo + zlen vs -> st = lo ++ vs ++ hi -> mid t st = with_frame vs hi.
Proof. by intros -> ->. Qed.

Lemma mid_slot t st i v : znth st i = Some v -> slot_at l i (mid t st) = (Ok v, mid t st).
Proof. apply (slot_at_at _ l _ (mid_thread t st)). Qed.
Lemma mid_set t p x r v i : i = zlen p -> set_slot l i v (mid t (p ++ x :: r)) = (Ok tt, mid t (p ++ v :: r)).
Proof.
  intros ->. rewrite (set_slot_at _ l _ (mid_thread t _)); unfold set_th_top, set_stack; cbn [th_stack].
  - unfold mid. rewrite put_put, zupd_mid. done.
  - rewrite zlen_app, zlen_cons. pose proof (zlen_nonneg p). pose proof (zlen_nonneg r). lia.
Qed.
Lemma mid_move t p x r v from i :
  i = zlen p -> znth (p ++ x :: r) from = Some v -> move_slot l i from (mid t (p ++ x :: r)) = (Ok tt, mid t (p ++ v :: r)).
Proof. intros Hi Hf. unfold move_slot. rewrite (bind_ok _ _ _ _ _ (mid_slot t _ _ _ Hf)). by apply mid_set. Qed.
Lemma mid_set_top t st t' : set_top l t' (mid t st) = (Ok tt, mid t' st).
Proof. rewrite (set_top_at _ l _ (mid_thread t st)). unfold mid. by rewrite put_put. Qed.
Lemma mid_top t st : top l (mid t st) = (Ok t, mid t st).
Proof. apply (top_at _ l _ (mid_thread t st)). Qed.
Lemma mid_pop t st n : pop l n (mid t st) = (Ok tt, mid (t - n) st).
Proof. unfold pop. rewrite (bind_ok _ _ _ _ _ (mid_top t st)). apply mid_set_top. Qed.
Lemma mid_push st p x r v : st = p ++ x :: r -> push l v (mid (zlen p) st) = (Ok tt, mid (zlen p + 1) (p ++ v :: r)).
Proof.
  intros ->. unfold push. rewrite (bind_ok _ _ _ _ _ (mid_top _ _)), (bind_ok _ _ _ _ _ (mid_set _ p x r v _ eq_refl)). apply mid_set_top.
Qed.

(** ** Loops *)

(** One slot up: the first stays, the one behind them is lost. *)
Lemma shift_up t p c x r :
  exists z, mfor (rev (seqZ (zlen p + 1) (zlen c))) (fun q => move_slot l q (q - 1)) (mid t (p ++ c ++ x :: r)) =
    (Ok tt, mid t (p ++ z :: c ++ r)).
Proof.
  revert x r. induction c as [|y c IH] using rev_ind; intros x r; [by exists x|].
  pose proof (zlen_nonneg c). pose proof (zlen_nonneg p).
  rewrite zlen_app. change (zlen [y]) with 1. rewrite seqZ_app by lia. rewrite (seqZ_cons _ 1), (seqZ_nil _ (Z.pred 1)) by lia.
  rewrite rev_app_distr. cbn [rev app mfor].
  replace (p ++ (c ++ [y]) ++ x :: r) with ((p ++ c ++ [y]) ++ x :: r) by by rewrite <-!app_assoc.
  erewrite bind_ok; [|apply (mid_move _ _ x r y); [rewrite !zlen_app; change (zlen [y]) with 1; lia|]].
  - replace ((p ++ c ++ [y]) ++ y :: r) with (p ++ c ++ y :: (y :: r)) by by rewrite <-!app_assoc.
    destruct (IH y (y :: r)) as [z Hz]. exists z. rewrite Hz. by rewrite <-app_assoc.
  - replace ((p ++ c ++ [y]) ++ x :: r) with ((p ++ c) ++ y :: (x :: r)) by by rewrite <-!app_assoc.
    replace (zlen p + 1 + zlen c - 1) with (zlen (p ++ c)) by (rewrite zlen_app; lia). apply znth_mid.
Qed.

(** One slot down: the first is lost, the last is there twice. *)
Lemma shift_down t p x b r :
  exists z, mfor (seqZ (zlen p + 1) (zlen b)) (fun q => move_slot l (q - 1) q) (mid t (p ++ x :: b ++ r)) =
    (Ok tt, mid t (p ++ b ++ z :: r)).
Proof.
  revert p x. induction b as [|y b IH]; intros p x; [by exists x|].
  pose proof (zlen_nonneg b). rewrite zlen_cons, seqZ_cons by lia. cbn [mfor].
  erewrite bind_ok; [|apply (mid_move _ p x (y :: b ++ r) y); [lia|]].
  - destruct (IH (p ++ [y]) y) as [z Hz]. exists z. rewrite zlen_app in Hz. change (zlen [y]) with 1 in Hz.
    replace (Z.succ (zlen p + 1)) with (zlen p + 1 + 1) by lia. replace (Z.pred (1 + zlen b)) with (zlen b) by lia.
    cbn [app]. rewrite <-!app_assoc in Hz. exact Hz.
  - change (znth (p ++ [x] ++ y :: (b ++ r)) (zlen p + 1) = Some y). rewrite app_assoc.
    replace (zlen p + 1) with (zlen (p ++ [x])) by by rewrite zlen_app. apply znth_mid.
Qed.

(** ** Indices *)

Lemma index2adr_frame vs hi idx i :
  abs_index (zlen vs) idx = Some i ->
  0 <= i < zlen vs /\ LUA_REGISTRYINDEX < idx /\
  index2adr l idx (with_frame vs hi) = (Ok (AStack (zlen lo + i)), with_frame vs hi).
Proof.
  unfold abs_index, index2adr, LUA_REGISTRYINDEX. intros Hi. destruct ((0 <? idx) && (idx <=? zlen vs)) eqn:E1; b2p; simplify_eq.
  - destruct (Z.gtb_spec idx 0) as [_|]; [|lia]. split_and!; [lia..|].
    rewrite (bind_ok _ _ _ _ _ (frame_base vs hi)), (bind_ok _ _ _ _ _ (frame_top vs hi)). cbv zeta.
    destruct (Z.geb_spec (zlen lo + (idx - 1)) (zlen lo + zlen vs)); [lia|done].
  - destruct (_ && _) eqn:E2 in Hi; b2p; simplify_eq.
    destruct (Z.gtb_spec idx 0); [lia|]. destruct (Z.gtb_spec idx (-10000)); [|lia]. split_and!; [lia..|].
    rewrite (bind_ok _ _ _ _ _ (frame_top vs hi)). by replace (zlen lo + zlen vs + idx) with (zlen lo + (zlen vs + idx)) by lia.
Qed.

(** ** The operations *)

Definition implements (op : stack_op) (vs hi vs' : list TValue) : Prop :=
  exists hi', run_op call l op (with_frame vs hi) = (Ok tt, with_frame vs' hi') /\ zlen vs' + zlen hi' = zlen vs + zlen hi.

Lemma push_frame vs x hi v : push l v (with_frame vs (x :: hi)) = (Ok tt, with_frame (vs ++ [v]) hi).
Proof.
  rewrite frame_mid, <-zlen_app. rewrite (mid_push _ (lo ++ vs) x hi v) by by rewrite app_assoc.
  f_equal. apply mid_frame; [zl|by rewrite <-!app_assoc].
Qed.

Lemma push_implements vs x hi v : implements (Push v) vs (x :: hi) (vs ++ [v]).
Proof. exists hi. split; [apply push_frame|]. zl. Qed.

(** A value of the frame. *)
Lemma frame_slot vs hi i v : znth vs i = Some v -> slot_at l (zlen lo + i) (with_frame vs hi) = (Ok v, with_frame vs hi).
Proof.
  intros Hi. rewrite frame_mid. apply mid_slot. pose proof (znth_Some_lt _ _ _ Hi).
  rewrite znth_app_r by lia. replace (zlen lo + i - zlen lo) with i by lia. rewrite znth_app_l by lia. done.
Qed.
Lemma frame_last vs hi v : last vs = Some v -> from_top l 1 (with_frame vs hi) = (Ok v, with_frame vs hi).
Proof.
  intros Hv. unfold from_top. rewrite (bind_ok _ _ _ _ _ (frame_top vs hi)). 
  destruct vs as [|x vs] using rev_ind; [done|]. rewrite last_snoc in Hv. simplify_eq.
  replace (zlen lo + zlen (vs ++ [v]) - 1) with (zlen lo + zlen vs) by (zl).
  apply frame_slot. apply znth_mid.
Qed.

Lemma pushvalue_implements vs x hi idx i v :
  abs_index (zlen vs) idx = Some i -> znth vs i = Some v -> implements (PushValue idx) vs (x :: hi) (vs ++ [v]).
Proof.
  intros Hi Hv. exists hi. split; [|zl].
  unfold run_op, lua_pushvalue, index_value. destruct (index2adr_frame vs (x :: hi) idx i Hi) as (_ & _ & Ha).
  assert ((a ← index2adr l idx; adr_value l a) (with_frame vs (x :: hi)) = (Ok v, with_frame vs (x :: hi))) as He.
  { rewrite (bind_ok _ _ _ _ _ Ha). by apply frame_slot. }
  rewrite (bind_ok _ _ _ _ _ He). apply push_frame.
Qed.

Lemma remove_implements a x b hi idx :
  abs_index (zlen (a ++ x :: b)) idx = Some (zlen a) -> implements (Remove idx) (a ++ x :: b) hi (a ++ b).
Proof.
  intros Hi. unfold run_op, lua_remove. destruct (index2adr_frame _ hi idx _ Hi) as (_ & _ & Ha).
  destruct (shift_down (zlen lo + zlen (a ++ x :: b)) (lo ++ a) x b hi) as [z Hz].
  exists (z :: hi). split; [|zl].
  unfold run_op, lua_remove. rewrite (bind_ok _ _ _ _ _ Ha). erewrite (bind_ok (stack_adr _)) by reflexivity.
  rewrite (bind_ok _ _ _ _ _ (frame_top _ hi)). rewrite frame_mid.
  replace (lo ++ (a ++ x :: b) ++ hi) with ((lo ++ a) ++ x :: b ++ hi) by by rewrite <-!app_assoc.
  replace (zlen lo + zlen (a ++ x :: b) - (zlen lo + zlen a + 1)) with (zlen b) by (zl).
  replace (zlen lo + zlen a + 1) with (zlen (lo ++ a) + 1) by by rewrite zlen_app.
  rewrite (bind_ok _ _ _ _ _ Hz), mid_pop. f_equal. apply mid_frame; [zl|by rewrite <-!app_assoc].
Qed.

Lemma insert_implements a b v x hi idx :
  abs_index (zlen (a ++ b ++ [v])) idx = Some (zlen a) -> implements (Insert idx) (a ++ b ++ [v]) (x :: hi) (a ++ v :: b).
Proof.
  intros Hi. destruct (index2adr_frame _ (x :: hi) idx _ Hi) as (_ & _ & Ha).
  destruct (shift_up (zlen lo + zlen (a ++ b ++ [v])) (lo ++ a) (b ++ [v]) x hi) as [z Hz].
  exists (v :: hi). split; [|zl].
  unfold run_op, lua_insert. rewrite (bind_ok _ _ _ _ _ Ha). erewrite (bind_ok (stack_adr _)) by reflexivity.
  rewrite (bind_ok _ _ _ _ _ (frame_top _ (x :: hi))). rewrite frame_mid.
  replace (lo ++ (a ++ b ++ [v]) ++ x :: hi) with ((lo ++ a) ++ (b ++ [v]) ++ x :: hi) by by rewrite <-!app_assoc.
  replace (zlen lo + zlen (a ++ b ++ [v]) - (zlen lo + zlen a)) with (zlen (b ++ [v])) by (rewrite !zlen_app; lia).
  replace (zlen lo + zlen a) with (zlen (lo ++ a)) by by rewrite zlen_app.
  rewrite (bind_ok _ _ _ _ _ Hz).
  rewrite (mid_move _ (lo ++ a) z ((b ++ [v]) ++ hi) v); [|done|].
  - f_equal. apply mid_frame; [zl|by rewrite <-!app_assoc].
  - replace ((lo ++ a) ++ z :: (b ++ [v]) ++ hi) with ((lo ++ a ++ z :: b) ++ v :: hi) by by rewrite <-!app_assoc; cbn; rewrite <-?app_assoc.
    replace (zlen lo + zlen (a ++ b ++ [v])) with (zlen (lo ++ a ++ z :: b)) by (zl).
    apply znth_mid.
Qed.

Lemma replace_implements vs v hi idx i :
  abs_index (zlen (vs ++ [v])) idx = Some i -> implements (Replace idx) (vs ++ [v]) hi (zupd i v vs).
Proof.
  intros Hi. destruct (index2adr_frame _ hi idx _ Hi) as (Hr & Hidx & Ha). unfold LUA_REGISTRYINDEX in Hidx.
  exists (v :: hi). split; [|rewrite zlen_zupd; zl].
  unfold run_op, lua_replace, no_enclosing. erewrite bind_ok.
  2: { rewrite (bind_ok _ _ _ _ _ (getL_at _ l _ (frame_L _ hi) l_cis)). reflexivity. }
  unfold LUA_ENVIRONINDEX, LUA_GLOBALSINDEX. destruct (Z.eqb_spec idx (-10001)); [lia|]. cbn [andb when].
  erewrite (bind_ok (mret tt)) by reflexivity. rewrite (bind_ok _ _ _ _ _ Ha).
  rewrite (bind_ok _ _ _ _ _ (frame_last _ hi v (last_snoc _ _))). destruct (Z.ltb_spec idx (-10002)); [lia|]. cbn [when adr_set].
  assert (set_slot l (zlen lo + i) v (with_frame (vs ++ [v]) hi) = (Ok tt, with_frame (zupd i v vs ++ [v]) hi)) as Hs.
  { rewrite zlen_app in Hr. change (zlen [v]) with 1 in Hr. destruct (decide (i = zlen vs)) as [->|Hne].
    - assert (zupd (zlen vs) v vs = vs) as ->.
      { unfold zupd. destruct (_ <? 0); [done|]. apply list_insert_ge. unfold zlen. lia. }
      rewrite frame_mid. replace (lo ++ (vs ++ [v]) ++ hi) with ((lo ++ vs) ++ v :: hi) by by rewrite <-!app_assoc.
      apply mid_set. by rewrite zlen_app.
    - destruct (znth_is_Some vs i) as [x Hx]; [lia|]. apply znth_split in Hx as (p & r & -> & ->). rewrite zupd_mid.
      rewrite frame_mid. replace (lo ++ ((p ++ x :: r) ++ [v]) ++ hi) with ((lo ++ p) ++ x :: r ++ [v] ++ hi) by by rewrite <-!app_assoc.
      rewrite (mid_set _ (lo ++ p) x _ v) by by rewrite zlen_app. f_equal. apply mid_frame; [zl|by rewrite <-!app_assoc]. }
  erewrite bind_ok; [|rewrite (bind_ok _ _ _ _ _ Hs); reflexivity]. rewrite frame_mid, mid_pop. f_equal.
  apply mid_frame; [rewrite zlen_app, zlen_zupd; zl|by rewrite <-!app_assoc].
Qed.

Lemma clear_run t p c r :
  clear_slots l (zlen p) (zlen p + zlen c) (mid t (p ++ c ++ r)) = (Ok tt, mid t (p ++ replicate (length c) VNil ++ r)).
Proof.
  unfold clear_slots. replace (zlen p + zlen c - zlen p) with (zlen c) by lia.
  revert p. induction c as [|x c IH]; intros p; [done|]. pose proof (zlen_nonneg c). rewrite zlen_cons, seqZ_cons by lia. cbn [mfor].
  erewrite bind_ok by by apply (mid_set t p x (c ++ r) VNil).
  specialize (IH (p ++ [VNil])). rewrite zlen_app in IH. change (zlen [VNil]) with 1 in IH. rewrite <-!app_assoc in IH.
  replace (Z.succ (zlen p)) with (zlen p + 1) by lia. replace (Z.pred (1 + zlen c)) with (zlen c) by lia. exact IH.
Qed.

Lemma settop_up_implements vs c hi :
  implements (SetTop (zlen vs + zlen c)) vs (c ++ hi) (vs ++ replicate (length c) VNil).
Proof.
  pose proof (zlen_nonneg vs). pose proof (zlen_nonneg c). assert (zlen (replicate (length c) VNil) = zlen c) as Hn by (unfold zlen; by rewrite length_replicate).
  exists hi. split; [|rewrite !zlen_app; lia]. unfold run_op, lua_settop. destruct (Z.geb_spec (zlen vs + zlen c) 0); [|lia].
  rewrite (bind_ok _ _ _ _ _ (frame_top vs (c ++ hi))), (bind_ok _ _ _ _ _ (frame_base vs (c ++ hi))), frame_mid.
  pose proof (clear_run (zlen lo + zlen vs) (lo ++ vs) c hi) as Hc. rewrite zlen_app, <-!app_assoc, <-Z.add_assoc in Hc.
  rewrite (bind_ok _ _ _ _ _ Hc), mid_set_top. f_equal. apply mid_frame; [rewrite zlen_app; lia|by rewrite <-!app_assoc].
Qed.

Lemma settop_down_implements vs c hi idx :
  idx = zlen vs \/ idx = - zlen c - 1 -> implements (SetTop idx) (vs ++ c) hi vs.
Proof.
  intros Hidx. pose proof (zlen_nonneg vs). pose proof (zlen_nonneg c).
  exists (c ++ hi). split; [|rewrite !zlen_app; lia]. unfold run_op, lua_settop.
  destruct (Z.geb_spec idx 0).
  - assert (idx = zlen vs) as -> by lia.
    rewrite (bind_ok _ _ _ _ _ (frame_top (vs ++ c) hi)), (bind_ok _ _ _ _ _ (frame_base (vs ++ c) hi)), frame_mid.
    assert (clear_slots l (zlen lo + zlen (vs ++ c)) (zlen lo + zlen vs) = mret tt) as ->.
    { unfold clear_slots. rewrite seqZ_nil; [done|]. rewrite zlen_app. lia. }
    erewrite (bind_ok (mret tt)) by reflexivity. rewrite mid_set_top. f_equal. apply mid_frame; [done|by rewrite <-!app_assoc].
  - assert (idx = - zlen c - 1) as -> by lia. rewrite frame_mid, mid_pop. f_equal. apply mid_frame; [rewrite zlen_app; lia|by rewrite <-!app_assoc].
Qed.

Lemma settop_implements vs hi idx vs' :
  abs_op (SetTop idx) vs = Some vs' -> zlen vs' <= zlen vs + zlen hi -> implements (SetTop idx) vs hi vs'.
Proof.
  intros Ha Hr. cbn [abs_op] in Ha. pose proof (zlen_nonneg vs).
  assert (forall n, 0 <= n <= zlen vs -> zlen (take (Z.to_nat n) vs) = n /\ zlen (drop (Z.to_nat n) vs) = zlen vs - n) as Hlen.
  { intros n Hn. unfold zlen in *. rewrite length_take, length_drop. lia. }
  destruct (Z.leb_spec 0 idx).
  - destruct (decide (idx <= zlen vs)) as [Hle|Hgt].
    + replace (Z.to_nat (idx - zlen vs)) with 0%nat in Ha by lia. cbn [replicate] in Ha. rewrite app_nil_r in Ha. simplify_eq.
      rewrite <-(take_drop (Z.to_nat idx) vs) at 1. apply settop_down_implements. left. by rewrite (proj1 (Hlen idx ltac:(lia))).
    + rewrite take_ge in Ha by (unfold zlen in *; lia). simplify_eq. set (n := Z.to_nat (idx - zlen vs)) in *.
      rewrite zlen_app in Hr. unfold zlen at 2 in Hr. rewrite length_replicate in Hr.
      assert (length (take n hi) = n) as Hn by (unfold zlen in *; rewrite length_take; lia).
      pose proof (settop_up_implements vs (take n hi) (drop n hi)) as Hup. rewrite take_drop, Hn in Hup.
      replace (zlen vs + zlen (take n hi)) with idx in Hup by (unfold zlen in *; rewrite Hn; lia). exact Hup.
  - destruct (Z.leb_spec (- (idx + 1)) (zlen vs)); [|done]. simplify_eq.
    rewrite <-(take_drop (Z.to_nat (zlen vs + idx + 1)) vs) at 1. apply settop_down_implements. right.
    rewrite (proj2 (Hlen (zlen vs + idx + 1) ltac:(lia))). lia.
Qed.

(** ** Every operation *)

Lemma op_implements op vs hi vs' :
  abs_op op vs = Some vs' -> zlen vs < zlen vs + zlen hi -> zlen vs' <= zlen vs + zlen hi -> implements op vs hi vs'.
Proof.
  intros Ha Hr Hr'. destruct hi as [|x hi]; [unfold zlen in Hr; cbn in Hr; lia|]. destruct op as [v|idx|idx|idx|idx|idx]; cbn [abs_op] in Ha.
  - simplify_eq. apply push_implements.
  - destruct (abs_index (zlen vs) idx) as [i|] eqn:Hi; cbn in Ha; [|done]. destruct (znth vs i) as [v|] eqn:Hv; cbn in Ha; [|done].
    simplify_eq. by eapply pushvalue_implements.
  - destruct (abs_index (zlen vs) idx) as [i|] eqn:Hi; cbn in Ha; [|done]. pose proof (index2adr_frame vs (x :: hi) idx i Hi) as (Hin & _).
    destruct vs as [|v vs] using rev_ind; [done|]. rewrite last_snoc in Ha. cbn in Ha. simplify_eq.
    rewrite but_last_snoc in *. rewrite zlen_app in Hin. change (zlen [v]) with 1 in Hin.
    assert (zlen (take (Z.to_nat i) vs) = i) as Hz by (unfold zlen in *; rewrite length_take; lia).
    pose proof (insert_implements (take (Z.to_nat i) vs) (drop (Z.to_nat i) vs) v x hi idx) as Hins.
    rewrite app_assoc, take_drop, Hz in Hins. by apply Hins.
  - destruct (abs_index (zlen vs) idx) as [i|] eqn:Hi; cbn in Ha; [|done]. pose proof (index2adr_frame vs (x :: hi) idx i Hi) as (Hin & _).
    destruct (znth_is_Some vs i Hin) as [v Hv]. apply znth_split in Hv as (a & b & -> & ->). simplify_eq.
    unfold zlen at 1 2. rewrite Nat2Z.id. rewrite take_app_length. replace (a ++ v :: b) with ((a ++ [v]) ++ b) at 2 by by rewrite <-app_assoc.
    rewrite drop_app_length'; [|rewrite length_app; cbn; lia]. by apply remove_implements.
  - destruct (abs_index (zlen vs) idx) as [i|] eqn:Hi; cbn in Ha; [|done].
    destruct vs as [|v vs] using rev_ind; [done|]. rewrite last_snoc in Ha. cbn in Ha. simplify_eq.
    rewrite but_last_snoc. by apply replace_implements.
  - by apply settop_implements.
Qed.
End frame.

(** C13: The functions of the stack implement operations on lists: on a frame
    with the values [vs] and free slots, a sequence of pushes, copies, inserts,
    removes, replaces and changes of the top, with indices from the bottom or
    from the top, that is defined on the list and has room gives the frame with
    the values that the lists give; it returns, and nothing else in the state
    changes. *)
Theorem stack_ops_refine `{Krealloc} `{StringHash} `{KernelStrto} `{Host} call s l th L lo ops vs hi vs' :
  thread_at s l th -> L_at s l L -> l_base L = zlen lo -> abs_ops (zlen vs + zlen hi) ops vs = Some vs' ->
  exists hi', mfor ops (run_op call l) (with_frame s l th lo vs hi) = (Ok tt, with_frame s l th lo vs' hi') /\
    zlen vs' + zlen hi' = zlen vs + zlen hi.
Proof.
  intros Hth HL Hb. remember (zlen vs + zlen hi) as room eqn:Hroom. symmetry in Hroom. revert vs hi Hroom.
  induction ops as [|op ops IH]; intros vs hi Hroom Ha; cbn [abs_ops] in Ha.
  - simplify_eq. exists hi. by split.
  - destruct (abs_op op vs) as [vs1|] eqn:Hop; cbn in Ha; [|done]. destruct (_ && _) eqn:Hfits in Ha; [|done]. b2p.
    destruct (op_implements call s l th L lo Hth HL Hb op vs hi vs1 Hop) as (hi1 & Hrun & Hz); [lia..|].
    destruct (IH vs1 hi1 ltac:(lia) Ha) as (hi2 & Hrest & Hz2). exists hi2. split; [|lia].
    cbn [mfor]. by rewrite (bind_ok _ _ _ _ _ Hrun).
Qed.
