(* ===== verification/VmDemo.v ===== *)
(** * VmDemo.v: the interpreter on concrete inputs

    Witnesses of the theorems on the interpreter, and sources that are
    compiled and run from a new state. *)

From S2P Require Import Prelude Machine Opcodes Object Mem Zio Debug Table TableSpec LexInit Gc State StackLemmas Errors Call Vm Execute LuaState Load StrOrder ForLoop Folding CallSpec VmNext.
From S2P Require Code Lex.

#[local] Existing Instances krealloc_always krealloc_always_reliable id_hash decimal_strto.

(** A host without C functions and hooks. *)
#[local] Instance no_host : Host := {|
  c_function _ _ := mret 0;
  hook_function _ _ _ _ := mret tt;
  finalizer _ _ := mret tt;
  fresh_block _ := [];
  collector_fuel := 1000;
|}.

Definition no_call : Z -> Z -> Z -> M VS unit := fun _ _ _ => mret tt.

(** ** A thread with a stack and CallInfos *)

Definition demo_L (cis : list CallInfo) : LState := set_cis_of cis preinit_L.
Definition demo_thread (stack : list TValue) (top : Z) (cis : list CallInfo) : Thread :=
  mkThread VNil stack top (map ci_top cis) 8 [].
Definition demo_state (objs : gmap Z GCObject) (protos : gmap Z Proto) (stack : list TValue) (top : Z) (cis : list CallInfo) : VS :=
  mkVS (setg_heap (<[1 := mkObj 0 (BThread (demo_thread stack top cis))]> objs) (v_g preinit))
    {[1 := demo_L cis]} protos ∅ ∅ ∅.

Lemma demo_thread_at objs protos stack top cis :
  thread_at (demo_state objs protos stack top cis) 1 (demo_thread stack top cis).
Proof. exists 0. apply lookup_insert_eq. Qed.
Lemma demo_L_at objs protos stack top cis : L_at (demo_state objs protos stack top cis) 1 (demo_L cis).
Proof. apply lookup_insert_eq. Qed.

(** ** Strings *)

Definition str_a : bytes := [97; 0; 98].
Definition str_b : bytes := [97; 0; 98; 0].
Definition two_strings : VS := demo_state {[2 := mkObj 0 (BString str_a); 3 := mkObj 0 (BString str_b)]} ∅ [] 0 [].

Lemma luaV_lessthan_strings_witness :
  luaV_lessthan no_call 1 (VString 2) (VString 3) two_strings = (Ok true, two_strings) /\
  lessequal no_call 1 (VString 2) (VString 3) two_strings = (Ok true, two_strings).
Proof.
  apply (luaV_lessthan_strings no_call 1 2 3 str_a str_b two_strings);
    (exists 0; split; [vm_compute; reflexivity|repeat constructor; done]).
Defined.

(** ** Loops *)

Definition loop_frame : frame := mkFrame 9 0 4.
Definition loop_prep : Z := CREATE_ABx OP_FORPREP 1 (MAXARG_sBx + 2).
Definition loop_instr : Z := CREATE_ABx OP_FORLOOP 1 (MAXARG_sBx - 2).
Definition loop_state (idx limit step : Z) : VS :=
  demo_state ∅ ∅ [VNil; VNumber idx; VNumber limit; VNumber step; VNil; VNil] 5 [].

Lemma loop_state_slots idx limit step : for_slots (loop_state idx limit step) 1 1 idx limit step.
Proof. eexists. split; [apply demo_thread_at|]. done. Qed.

Lemma for_loop_visits_witness :
  exists s', (op_forprep no_call 1 loop_frame loop_prep;; for_run 5 1 loop_frame loop_instr (fun _ => mret tt)) (loop_state 1 11 3)
    = (Ok [1; 4; 7; 10], s').
Proof.
  apply (for_loop_visits no_call 1 loop_frame loop_prep loop_instr 1 11 3 (fun _ => mret tt) (loop_state 1 11 3) (demo_L [])).
  - apply loop_state_slots.
  - apply demo_L_at.
  - unfold in_s; lia.
  - unfold no_wrap, in_s; lia.
  - vm_compute. reflexivity.
  - vm_compute. discriminate.
  - intros idx s Hs. exists s. by split.
Defined.

Lemma for_loop_at_maxint_witness :
  (for_run 100 1 loop_frame loop_instr (fun _ => mret tt) (loop_state (2 ^ 63 - 3) (2 ^ 63 - 1) 1)).1 = Err OutOfFuel.
Proof.
  apply (for_loop_at_maxint 1 loop_frame loop_instr (2 ^ 63 - 3) (fun _ => mret tt)).
  - apply loop_state_slots.
  - vm_compute. discriminate.
  - intros idx s Hs. exists s. by split.
Defined.

(** ** Constants *)

Definition numeral (n : Z) : Code.expdesc := Code.mkExp Code.VKNUM 0 0 n Code.NO_JUMP Code.NO_JUMP.
Definition folding_state : VS := demo_state ∅ ∅ [VNil; VNil; VNil] 2 [].

Lemma constfolding_is_arith_witness :
  op_arith no_call 1 loop_frame (CREATE_ABC OP_MUL 2 0 1) OP_MUL (TVal (VNumber 6)) (TVal (VNumber 7)) folding_state =
    (Ok (Next loop_frame), put_thread 1 (demo_thread [VNil; VNil; VNumber 42] 2 []) folding_state).
Proof.
  apply (constfolding_is_arith no_call OP_MUL (numeral 6) (numeral 7) 1 loop_frame (CREATE_ABC OP_MUL 2 0 1) folding_state
    (demo_thread [VNil; VNil; VNil] 2 [])); [reflexivity..|apply demo_thread_at|vm_compute; split; [discriminate|reflexivity]].
Defined.

(** ** Calls *)

Definition caller_ci : CallInfo := mkCI 1 0 20 7 0 0.
Definition callee_ci : CallInfo := mkCI 4 3 24 0 3 0.

Lemma luaD_poscall_delivers_witness :
  let stack := [VNil; VNil; VNil; VNil; VNil; VNumber 5; VNumber 6; VNil] in
  let s := demo_state ∅ ∅ stack 7 [callee_ci; caller_ci] in
  luaD_poscall 1 5 s =
    (Ok 4, put_thread 1 (returned_thread callee_ci caller_ci [] [VNumber 5; VNumber 6] (demo_thread stack 7 [callee_ci; caller_ci]))
       (upd_L 1 (returned_L caller_ci []) s)).
Proof.
  intros stack s. eapply (luaD_poscall_delivers 1 5 [VNumber 5; VNumber 6] callee_ci caller_ci []).
  - apply demo_thread_at.
  - apply demo_L_at.
  - reflexivity.
  - vm_compute. reflexivity.
  - intros k v Hk. pose proof (znth_Some_lt _ _ _ Hk) as Hr. change (zlen [VNumber 5; VNumber 6]) with 2 in Hr.
    assert (k = 0 \/ k = 1) as [-> | ->] by lia; exact Hk.
  - reflexivity.
  - cbn. lia.
  - cbn. lia.
  - vm_compute. discriminate.
Defined.

Definition entered : Proto := mkProto None 0 0 0 2 0 4 [CREATE_ABC OP_RETURN 0 1 0] [] [] [] [] [].

Lemma enter_lua_frame_witness :
  let stack := [VNil; VNumber 1; VNil; VNumber 8] ++ replicate 40 (VNumber 9) in
  let s := demo_state ∅ ∅ stack 4 [caller_ci] in
  exists s' th', enter_lua no_call 1 2 (-1) entered s = (Ok tt, s') /\ thread_at s' 1 th' /\
    L_at s' 1 (set_savedpc 0 (set_base 3 (set_cis_of [lua_frame 2 (-1) entered; caller_ci] (demo_L [caller_ci])))) /\
    th_top th' = 7 /\ th_top th' <= zlen (th_stack th') - 6 /\
    (forall j, 0 <= j < 4 -> znth (th_stack th') (2 + 1 + j) = registers stack 2 1 entered j) /\
    (forall j, j <= 2 -> znth (th_stack th') j = znth stack j) /\ th_openupval th' = [].
Proof.
  intros stack s. eapply (enter_lua_frame no_call 1 2 (-1) entered s (demo_thread stack 4 [caller_ci]) (demo_L [caller_ci])).
  - apply demo_thread_at.
  - apply demo_L_at.
  - reflexivity.
  - reflexivity.
  - cbn. lia.
  - cbn. lia.
  - cbn. lia.
  - vm_compute. split; [discriminate|reflexivity].
  - vm_compute. split; discriminate.
  - vm_compute. discriminate.
Defined.

(** ** The verifier and the interpreter *)

(** A generic for at its OP_TFORLOOP, with a Lua function for generator that
    returns 7: the interpreter calls it and goes round. *)
Definition generator : Proto := mkProto None 0 0 0 2 0 4 [CREATE_ABx OP_LOADK 0 0; CREATE_ABC OP_RETURN 0 2 0] [KNumber 7] [] [] [] [].
Definition tforloop_objects : gmap Z GCObject :=
  {[2 := mkObj 0 (BFunction (LClosure 5 3 []));
    3 := mkObj 0 (BProto (mkProtoObj [] [] [] [] NULL 4 0));
    6 := mkObj 0 (BFunction (LClosure 5 7 []));
    7 := mkObj 0 (BProto (mkProtoObj [VNumber 7] [] [] [] NULL 2 0))]}.
Definition tforloop_state : VS :=
  let s := demo_state tforloop_objects {[3 := tforloop_c1; 7 := generator]} ([VFunction 2; VFunction 6] ++ replicate 40 VNil) 5 [mkCI 1 0 5 0 0 0] in
  with_g (setg_GCthreshold 100000 (v_g s)) s.
Definition tforloop_frame : frame := mkFrame 2 1 1.
Definition tforloop_after : VS := (exec_instr (call_loop 20) 1 tforloop_frame 1 tforloop_state).2.

Lemma tforloop_c1_loadbool : loadbool_c01 tforloop_c1.
Proof.
  assert (H : Forall (fun i => z2op (GET_OPCODE i) = Some OP_LOADBOOL -> GETARG_C i <= 1) (pt_code tforloop_c1)).
  { repeat constructor; vm_compute; congruence. }
  intros pc i Hi. exact (proj1 (Forall_forall _ _) H i (znth_elem _ _ _ Hi)).
Qed.

Lemma tforloop_runs s :
  gc_heap (v_g s) !! 2 = Some (mkObj 0 (BFunction (LClosure 5 3 []))) -> v_p s !! 3 = Some tforloop_c1 ->
  gc_heap (v_g s) !! 3 = Some (mkObj 0 (BProto (mkProtoObj [] [] [] [] NULL 4 0))) -> runs 2 3 tforloop_c1 s.
Proof.
  intros H2 Hp H3. split; [by exists 0, 5, []|]. split; [done|]. eexists _, _. split; [exact H3|]. intros n a Hn.
  apply znth_Some_lt in Hn. change (zlen (p_p _)) with 0 in Hn. lia.
Qed.

Lemma exec_instr_next_witness :
  2 = 2 /\ vm_next tforloop_c1 1 1 /\
  exists i op, znth (pt_code tforloop_c1) 1 = Some i /\ z2op (GET_OPCODE i) = Some op.
Proof.
  apply (exec_instr_next (call_loop 20) 1 tforloop_frame 1 3 tforloop_c1 tforloop_state tforloop_frame tforloop_after).
  - repeat constructor; vm_compute; discriminate.
  - apply tforloop_c1_loadbool.
  - vm_compute. reflexivity.
  - apply tforloop_runs; vm_compute; reflexivity.
  - intros r s1 Hx. vm_compute in Hx. injection Hx as _ <-. apply tforloop_runs; vm_compute; reflexivity.
  - apply tforloop_runs; vm_compute; reflexivity.
  - apply luaG_checkcode_tforloop_above.
  - vm_compute. reflexivity.
Defined.

(** ** Programs *)

(** A source, compiled and run in a new state: the status and what is left on
    the stack. *)
Inductive answer := Ans (status : Z) (results : list (sum TValue bytes)) | Fault (e : error) | NoState.

Definition shown (s : VS) (v : TValue) : sum TValue bytes :=
  match v with
  | VString a => match (svalue a s).1 with Ok str => inr str | Err _ => inl v end
  | _ => inl v
  end.
Definition run (fuel : nat) (src : string) : answer :=
  match lua_newstate with
  | Ok (Some (l, s)) =>
      match (luaD_protectedparser (call_loop fuel) l (luaZ_init [bytes_of_string src]) (bytes_of_string "=demo");;
             n ← top l;
             status ← luaD_pcall l (call_loop fuel l (n - 1) (-1)) (n - 1) 0;
             th ← thread_of l;
             mret (status, drop (Z.to_nat (n - 1)) (take (Z.to_nat (th_top th)) (th_stack th)))) s with
      | (Ok (status, vs), s) => Ans status (map (shown s) vs)
      | (Err e, _) => Fault e
      end
  | Ok None => NoState
  | Err e => Fault e
  end.

Definition text (s : string) : sum TValue bytes := inr (bytes_of_string s).

(** Closures, recursion, loops, arithmetic and concatenation. *)
Example run_factorial :
  run 400 "local function fact(n) if n < 2 then return 1 end return n * fact(n - 1) end local s = '' for i = 1, 4 do s = s .. fact(i) .. ' ' end return s"
  = Ans 0 [text "1 2 6 24 "].
Proof. vm_compute. reflexivity. Qed.

(** A run-time error has the line and the name of what is wrong. *)
Example run_index_nil :
  run 100 "local t = {} ; return t.x.y" = Ans 2 [text "demo:1: attempt to index field 'x' (a nil value)"].
Proof. vm_compute. reflexivity. Qed.

(** Upvalues are shared and outlive their block. *)
Example run_counter :
  run 200 "local function counter() local n = 0 return function() n = n + 1 return n end end local a, b = counter(), counter() a() a() return a(), b()"
  = Ans 0 [inl (VNumber 3); inl (VNumber 1)].
Proof. vm_compute. reflexivity. Qed.

(** A division by a zero that is no constant is a fault of the machine. *)
Example run_division : run 100 "local x = 0 return 1 / x" = Fault (UB "division trap").
Proof. vm_compute. reflexivity. Qed.

(** An expression of boolean constants that the compiler gets wrong. *)
Example run_boolean : run 100 "return ((1 or false) and true) or false" = Ans 0 [inl (VNumber 1)].
Proof. vm_compute. reflexivity. Qed.
