(* ===== verification/ApiDemo.v ===== *)
(** * ApiDemo.v: the C interface on concrete inputs

    Witnesses of the theorems on protected calls and on the stack, and a C
    function that a source calls. *)

From S2P Require Import Prelude Machine Opcodes Object Mem Zio Table TableSpec LexInit Gc State StackLemmas Errors Call CallSpec PcallSpec Vm Execute LuaState Load Api ApiSpec VmDemo.

#[local] Existing Instances krealloc_always krealloc_always_reliable id_hash decimal_strto no_host.

(** ** Witnesses *)

Definition failing_state : VS := demo_state ∅ ∅ [VNil; VNumber 1; VNumber 7; VNil] 3 [callee_ci; caller_ci].

Lemma failing_restores :
  exists s', luaD_pcall 1 (throw (ErrRun "some error")) 1 0 failing_state = (Ok LUA_ERRRUN, s').
Proof. eexists. vm_compute. reflexivity. Qed.

Lemma luaD_pcall_restores_witness :
  exists s', luaD_pcall 1 (throw (ErrRun "some error")) 1 0 failing_state = (Ok LUA_ERRRUN, s') /\
    exists L', L_at s' 1 L' /\ l_errfunc L' = 0 /\
      unwound 1 1 LUA_ERRRUN (upd_L 1 (set_errfunc 0) failing_state) (demo_L [callee_ci; caller_ci]) L' s'.
Proof.
  destruct failing_restores as [s' Hs]. exists s'. split; [exact Hs|].
  destruct (luaD_pcall_restores 1 (throw (ErrRun "some error")) 1 0 failing_state (demo_L [callee_ci; caller_ci]) LUA_ERRRUN s')
    as (_ & L' & HL & Hf & Hu).
  - apply demo_L_at.
  - intros r s1 Hr. injection Hr as _ <-. exists (set_errfunc 0 (demo_L [callee_ci; caller_ci])), []. split; [|reflexivity].
    apply L_at_upd, demo_L_at.
  - exact Hs.
  - exists L'. split; [exact HL|]. split; [exact Hf|]. apply Hu. discriminate.
Defined.

Definition some_ops : list stack_op := [Push (VNumber 3); Insert 1; PushValue (-2); Replace (-3); Remove 1; SetTop 4; SetTop (-2)].

Lemma stack_ops_refine_witness :
  exists hi', mfor some_ops (run_op no_call 1) (with_frame (demo_state ∅ ∅ [] 0 []) 1 (demo_thread [] 0 []) [] [VNumber 1; VNumber 2] (replicate 5 VNil)) =
      (Ok tt, with_frame (demo_state ∅ ∅ [] 0 []) 1 (demo_thread [] 0 []) [] [VNumber 1; VNumber 2; VNil] hi') /\
    zlen [VNumber 1; VNumber 2; VNil] + zlen hi' = 2 + 5.
Proof.
  apply (stack_ops_refine no_call _ 1 _ (set_base 0 (demo_L [])) [] some_ops [VNumber 1; VNumber 2] (replicate 5 VNil)).
  - apply demo_thread_at.
  - apply demo_L_at.
  - reflexivity.
  - vm_compute. reflexivity.
Defined.

(** ** A C function *)

(** The host's only function adds its two arguments. *)
Definition add_function (l : Z) : M VS Z :=
  x ← lua_tonumber l 1;
  y ← lua_tonumber l 2;
  lua_pushnumber l (luai_numadd x y);;
  mret 1.

#[local] Instance add_host : Host := {|
  c_function _ l := add_function l;
  hook_function _ _ _ _ := mret tt;
  finalizer _ _ := mret tt;
  fresh_block _ := [];
  collector_fuel := 1000;
|}.

(** Register it, load a source, call it, and take the result. *)
Definition run_add (fuel : nat) (src : string) : answer :=
  match lua_newstate with
  | Ok (Some (l, s)) =>
      let call := call_loop fuel in
      match (lua_pushcclosure l 7 0;;
             lua_setfield call l LUA_GLOBALSINDEX (bytes_of_string "add");;
             lua_load call l [bytes_of_string src] (Some (bytes_of_string "=demo"));;
             status ← lua_pcall call l 0 LUA_MULTRET 0;
             v ← index_value l (-1);
             mret (status, [v])) s with
      | (Ok (status, vs), s) => Ans status (map (shown s) vs)
      | (Err e, _) => Fault e
      end
  | Ok None => NoState
  | Err e => Fault e
  end.

Example run_cfunction : run_add 100 "return add(2, add(3, 4))" = Ans 0 [inl (VNumber 9)].
Proof. vm_compute. reflexivity. Qed.
