(* ===== verification/Bindings.v ===== *)
(** * Bindings.v: the libraries of the kernel (bindings/)

    buffer.c, crypto.c, printk.c and inspect.c, written on the C interface as
    the code is.  A C function takes the thread and returns the number of its
    results; its pointer is a number, by which the host calls it.  The
    contents of a userdata are in [v_ud] as bytes; an access to the block of an
    object that was freed is [UB].  The mutex around a registration is left
    out; so are the entry points of the modules but for the registration of
    their binding. *)

From S2P Require Import Prelude Machine Opcodes Object Mem Zio Table Gc Func Collect State Errors Call Vm LuaState Load Api DebugApi Auxlib StackLemmas ApiSpec.
From S2P Require Lex Kernel Lunatik.

(** ** The kernel *)

(** The log, the hash interface of crypto.h and random.h.  [hash_update h b n]
    hashes the first [n] bytes of the scatterlist [b]. *)
Class BindingsKernel := {
  printk : bytes -> M VS unit;
  hash_state : Type;
  crypto_alloc_hash : M VS (option Z);
  crypto_hash_digestsize : Z -> Z;
  crypto_hash_init : Z -> hash_state;
  crypto_hash_update : hash_state -> bytes -> Z -> hash_state;
  crypto_hash_final : hash_state -> bytes;
  crypto_free_hash : Z -> M VS unit;
  get_random_bytes : Z -> M VS bytes;
}.

(** ** The block of a userdata, by its pointer *)

Definition block_of (p : Z) : M VS bytes :=
  let u := p - sizeof_Udata in
  onG (deref u);;
  b ← gets (fun s => v_ud s !! u);
  lift (of_option "no userdata" b).
Definition block_get (p i : Z) : M VS Z := b ← block_of p; lift (of_option "block index" (znth b i)).
Definition block_set (p i c : Z) : M VS unit :=
  b ← block_of p;
  lift (of_option "block index" (znth b i));;
  modify (new_ud (p - sizeof_Udata) (zupd i c b)).
(** [src] at the start of the block. *)
Definition block_write (p : Z) (src : bytes) : M VS unit :=
  b ← block_of p;
  if zlen src <=? zlen b then modify (new_ud (p - sizeof_Udata) (src ++ drop (length src) b))
  else throw (UB "block index").

(** A [char], which is signed, and an [unsigned char]. *)
Definition s8 (c : Z) : Z := swrap 8 c.

Section bindings.
Context `{Krealloc} `{StringHash} `{KernelStrto} `{Host} `{BindingsKernel}.
Context (call : Z -> Z -> Z -> M VS unit).   (* luaD_call *)

Definition lua_pushcfunction (l f : Z) : M VS unit := lua_pushcclosure l f 0.
Definition lua_setglobal (l : Z) (s : string) : M VS unit := lua_setfield call l LUA_GLOBALSINDEX (bytes_of_string s).
Definition lua_register (l : Z) (n : string) (f : Z) : M VS unit := lua_pushcfunction l f;; lua_setglobal l n.
(** [lua_pushstring(L, s); lua_error(L)] *)
Definition push_error {A} (l : Z) (s : bytes) : M VS A := lua_pushstring call l (Some s);; lua_error call l.

(** ** buffer.c *)

Definition buffer_name : bytes := bytes_of_string "buffer".

Definition lunatik_buf_length (l : Z) : M VS Z := n ← lua_objlen call l (-1); lua_pushinteger l n;; mret 1.

Definition lunatik_buf_call (l : Z) : M VS Z :=
  buf ← luaL_checkudata call l (-1) buffer_name;
  buffer_len ← lua_objlen call l (-1);
  lua_pop l 1;;
  lua_createtable call l 0 (s32 buffer_len);;
  mfor (seqZ 0 buffer_len) (fun idx =>
    c ← block_get buf idx;
    lua_pushinteger l (s8 c);;
    lua_rawseti call l (-2) (s32 (idx + 1)));;
  mret 1.

(** [(idx < 0) || (idx >= lua_objlen(L, n))]: the length is a size_t. *)
Definition out_of_range (idx len : Z) : bool := (idx <? 0) || (u64 idx >=? len).

Definition lunatik_buf_newindex (l : Z) : M VS Z :=
  buf ← luaL_checkudata call l (-3) buffer_name;
  idx ← luaL_checkinteger call l (-2);
  val ← luaL_checkinteger call l (-1);
  len ← (if idx <? 0 then mret 0 else lua_objlen call l (-3));
  when (out_of_range idx len) (push_error l (bytes_of_string "index out of range"));;
  when ((val <? 0) || (val >? 255)) (push_error l (bytes_of_string "value must be between 0 and 255"));;
  block_set buf idx val;;
  mret 0.

Definition lunatik_buf_index (l : Z) : M VS Z :=
  buf ← luaL_checkudata call l (-2) buffer_name;
  idx ← luaL_checkinteger call l (-1);
  len ← (if idx <? 0 then mret 0 else lua_objlen call l (-2));
  when (out_of_range idx len) (push_error l (bytes_of_string "index out of  range"));;
  c ← block_get buf idx;
  lua_pushinteger l c;;
  mret 1.

(** The pointers of the functions. *)
Definition fn_buf_new : Z := 1.
Definition fn_buf_call : Z := 2.
Definition fn_buf_length : Z := 3.
Definition fn_buf_newindex : Z := 4.
Definition fn_buf_index : Z := 5.
Definition fn_sha1 : Z := 6.
Definition fn_get_random_bytes : Z := 7.
Definition fn_printk : Z := 8.
Definition fn_type : Z := 9.
Definition fn_gc_count : Z := 10.

Definition lunatik_buf_new (l : Z) : M VS Z :=
  size ← luaL_checkinteger call l (-1);
  lua_pop l 1;;
  lua_newuserdata call l (u64 size);;
  luaL_newmetatable call l buffer_name;;
  lua_pushcfunction l fn_buf_call;;
  lua_setfield call l (-2) (bytes_of_string "__call");;
  lua_pushcfunction l fn_buf_length;;
  lua_setfield call l (-2) (bytes_of_string "__len");;
  lua_pushcfunction l fn_buf_newindex;;
  lua_setfield call l (-2) (bytes_of_string "__newindex");;
  lua_pushcfunction l fn_buf_index;;
  lua_setfield call l (-2) (bytes_of_string "__index");;
  lua_setmetatable l (-2);;
  mret 1.

Definition lib_buffer : list luaL_Reg := [mkReg (bytes_of_string "new") fn_buf_new].
Definition lunatik_buf_register (l : Z) : M VS Z := luaL_register call l (Some buffer_name) lib_buffer;; mret 0.

(** ** crypto.c *)

Definition lunatik_sha1 (l : Z) : M VS Z :=
  buf ← luaL_checkudata call l (-1) buffer_name;
  buflen ← lua_objlen call l (-1);
  tfm ← crypto_alloc_hash;
  match tfm with
  | None => push_error l (bytes_of_string "failed to allocate hash " ++ [34] ++ bytes_of_string "sha1" ++ [34])
  | Some tfm =>
      lua_pushinteger l (crypto_hash_digestsize tfm);;
      lunatik_buf_new l;;
      result ← lua_touserdata l (-1);
      let desc := crypto_hash_init tfm in
      b ← block_of buf;
      let sg := take (Z.to_nat (u32 buflen)) b in  (* sg_set_buf(&sg[0], buf, buflen) *)
      let desc := crypto_hash_update desc sg 1 in  (* ARRAY_SIZE(sg) *)
      block_write result (crypto_hash_final desc);;
      crypto_free_hash tfm;;
      mret 1
  end.

Definition lunatik_get_random_bytes (l : Z) : M VS Z :=
  d ← luaL_checknumber call l (-1);
  let n := s32 d in
  when (n <? 0) (push_error l (bytes_of_string "expected a positive param"));;
  lua_pushinteger l n;;
  lunatik_buf_new l;;
  buf ← lua_touserdata l (-1);
  b ← get_random_bytes n;
  block_write buf b;;
  mret 1.

Definition lib_crypto : list luaL_Reg :=
  [mkReg (bytes_of_string "sha1") fn_sha1; mkReg (bytes_of_string "random") fn_get_random_bytes].
Definition lunatik_crypto_register (l : Z) : M VS Z :=
  luaL_register call l (Some (bytes_of_string "crypto")) lib_crypto;; mret 0.

(** ** printk.c *)

Definition lunatik_printk (l : Z) : M VS Z :=
  n ← lua_gettop l;
  mfor (rev (seqZ 1 n)) (fun i =>
    s ← tolstring call l (- i);
    match s with
    | Some s => printk (Lex.c_string s)
    | None => printk (bytes_of_string "(null)")
    end);;
  when (negb (n =? 0)) (printk [10]);;
  lua_pop l n;;
  mret 0.
Definition lunatik_printk_register (l : Z) : M VS Z := lua_register l "print" fn_printk;; mret 0.

(** ** inspect.c *)

Definition lunatik_gc_count (l : Z) : M VS Z := n ← lua_gc 0 l LUA_GCCOUNT 0; lua_pushinteger l n;; mret 1.
Definition lunatik_type (l : Z) : M VS Z :=
  type ← luaL_typename l (-1);
  lua_pop l 1;;
  lua_pushstring call l (Some (bytes_of_string type));;
  mret 1.
Definition lunatik_inspect_register (l : Z) : M VS Z :=
  lua_register l "type" fn_type;; lua_register l "gc_count" fn_gc_count;; mret 0.

(** The function at a pointer. *)
Definition binding_function (f l : Z) : M VS Z :=
  if f =? fn_buf_new then lunatik_buf_new l
  else if f =? fn_buf_call then lunatik_buf_call l
  else if f =? fn_buf_length then lunatik_buf_length l
  else if f =? fn_buf_newindex then lunatik_buf_newindex l
  else if f =? fn_buf_index then lunatik_buf_index l
  else if f =? fn_sha1 then lunatik_sha1 l
  else if f =? fn_get_random_bytes then lunatik_get_random_bytes l
  else if f =? fn_printk then lunatik_printk l
  else if f =? fn_type then lunatik_type l
  else if f =? fn_gc_count then lunatik_gc_count l
  else throw (UB "no C function").
End bindings.

(** ** Access to buffers *)

(** An index that passes the test of the code is inside the block. *)
Lemma block_set_in_range u mk mt env len b idx c s :
  gc_heap (v_g s) !! u = Some (mkObj mk (BUserdata mt env len)) -> v_ud s !! u = Some b -> zlen b = len -> len < 2 ^ 63 ->
  in_s 64 idx -> out_of_range idx len = false ->
  0 <= idx < len /\ block_set (u + sizeof_Udata) idx c s = (Ok tt, new_ud u (zupd idx c b) s).
Proof.
  intros Hu Hb Hlen Hmax Hidx Hr. unfold out_of_range in Hr. apply orb_false_iff in Hr as [H0 Hr]. b2p.
  assert (u64 idx = idx) as Hw by (unfold u64, uwrap, in_s in *; apply Z.mod_small; lia). rewrite Hw in Hr.
  assert (0 <= idx < len) as Hin by lia. split; [done|]. unfold block_set, block_of.
  replace (u + sizeof_Udata - sizeof_Udata) with u by lia.
  assert (onG (deref u) s = (Ok (mkObj mk (BUserdata mt env len)), s)) as Hd.
  { unfold onG, deref. rewrite Hu. by rewrite with_g_g. }
  rewrite <-Hlen in Hin. destruct (znth_is_Some b idx Hin) as [x Hx].
  erewrite bind_ok; [|rewrite (bind_ok _ _ _ _ _ Hd); rewrite (bind_ok (gets _) _ s (v_ud s !! u) s) by done; rewrite Hb; reflexivity].
  rewrite Hx. reflexivity.
Qed.

Section length.
Context `{Krealloc} `{StringHash} `{KernelStrto} `{Host} `{BindingsKernel}.

(** C17: The length operator calls the metamethod __len with the buffer and nil
    (call_binTM of OP_LEN), and lunatik_buf_length looks at its last argument:
    whatever the buffer is, the length it returns is 0. *)
Theorem buf_length_of_operator call s l th L lo vs x hi :
  thread_at s l th -> L_at s l L -> l_base L = zlen lo ->
  lunatik_buf_length call l (with_frame s l th lo (vs ++ [VNil]) (x :: hi)) =
    (Ok 1, with_frame s l th lo (vs ++ [VNil] ++ [VNumber 0]) hi).
Proof.
  intros Hth HL Hb. assert (abs_index (zlen (vs ++ [VNil])) (-1) = Some (zlen vs)) as Hi.
  { unfold abs_index, LUA_REGISTRYINDEX. rewrite zlen_app. change (zlen [VNil]) with 1. pose proof (zlen_nonneg vs).
    cbn [Z.ltb Z.compare andb]. destruct (Z.leb_spec (- (-1)) (zlen vs + 1)); [f_equal|]; lia. }
  destruct (index2adr_frame s l th L lo Hth HL Hb (vs ++ [VNil]) (x :: hi) (-1) (zlen vs) Hi) as (_ & _ & Ha).
  unfold lunatik_buf_length, lua_objlen. erewrite bind_ok.
  2: { rewrite (bind_ok _ _ _ _ _ Ha). cbn [adr_value].
       rewrite (bind_ok _ _ _ _ _ (frame_slot s l th lo Hth (vs ++ [VNil]) (x :: hi) (zlen vs) VNil (znth_mid vs VNil []))). reflexivity. }
  unfold lua_pushinteger. rewrite (bind_ok _ _ _ _ _ (push_frame s l th lo Hth (vs ++ [VNil]) x hi (VNumber 0))).
  by rewrite <-app_assoc.
Qed.
End length.

(** ** Registration of the modules *)

Section modules.
Import Kernel Lunatik.
Context `{LuaEngine} (THIS_MODULE regfunc : Z).

(** The init and exit functions are the same in the four files: the binding
    that was made, and the error number. *)
Definition binding_init : M kernel (Z + ptr) := lunatik_bindings_register THIS_MODULE regfunc.
Definition binding_init_status (b : Z + ptr) : Z := match b with inl e => e | inr _ => 0 end.
Definition binding_exit (b : Z + ptr) : M kernel unit :=
  match b with inr p => if p =? Kernel.NULL then mret tt else lunatik_bindings_unregister p | inl _ => mret tt end.
End modules.
