(* ===== verification/BindingsDemo.v ===== *)
(** * BindingsDemo.v: scripts that use the libraries of the kernel

    The bindings registered in a new state, and scripts run in it: what works
    and what the findings on bindings/ are about. *)

From S2P Require Import Prelude Machine Opcodes Object Mem Zio Table TableSpec LexInit Gc State StackLemmas Errors Call Vm Execute LuaState Load Api ApiSpec Auxlib VmDemo Bindings.

#[local] Existing Instances krealloc_always krealloc_always_reliable id_hash decimal_strto.

(** The host under the C functions: memory has 200 and 201 in it. *)
#[local] Instance base_host : Host := {|
  c_function _ _ := throw (UB "no C function");
  hook_function _ _ _ _ := mret tt;
  finalizer _ _ := mret tt;
  fresh_block _ := [200; 201];
  collector_fuel := 1000;
|}.

(** A hash that is its own input, and bytes that count. *)
#[local] Instance demo_kernel : BindingsKernel := {|
  printk _ := mret tt;
  hash_state := bytes;
  crypto_alloc_hash := mret (Some 1);
  crypto_hash_digestsize _ := 20;
  crypto_hash_init _ := [];
  crypto_hash_update h b n := h ++ take (Z.to_nat n) b;
  crypto_hash_final h := take 20 (h ++ replicate 20 0);
  crypto_free_hash _ := mret tt;
  get_random_bytes n := mret (seqZ 0 n);
|}.

Lemma buf_length_of_operator_witness :
  lunatik_buf_length no_call 1 (with_frame (demo_state ∅ ∅ [] 0 []) 1 (demo_thread [] 0 []) [] ([VUserdata 7] ++ [VNil]) [VNil; VNil]) =
    (Ok 1, with_frame (demo_state ∅ ∅ [] 0 []) 1 (demo_thread [] 0 []) [] ([VUserdata 7] ++ [VNil] ++ [VNumber 0]) [VNil]).
Proof.
  apply (buf_length_of_operator no_call _ 1 _ (set_base 0 (demo_L []))).
  - apply demo_thread_at.
  - apply demo_L_at.
  - reflexivity.
Defined.

(** None of the functions of the scripts below calls back. *)
Definition no_callback : Z -> Z -> Z -> M VS unit := fun _ _ _ => throw OutOfFuel.
Definition the_functions : Z -> Z -> M VS Z := binding_function no_callback.

#[local] Instance binding_host : Host := {|
  c_function := the_functions;
  hook_function _ _ _ _ := mret tt;
  finalizer _ _ := mret tt;
  fresh_block _ := [200; 201];
  collector_fuel := 1000;
|}.

(** The source in a state with all libraries, after [prepare]. *)
Definition run_with (prepare : Z -> M VS unit) (fuel : nat) (src : string) : answer :=
  match luaL_newstate with
  | Ok (Some (l, s)) =>
      let call := call_loop fuel in
      match (lunatik_buf_register call l;; lunatik_crypto_register call l;;
             lunatik_inspect_register call l;; lunatik_printk_register call l;;
             luaL_loadbuffer call l (bytes_of_string src) (bytes_of_string "=demo");;
             prepare l;;
             status ← lua_pcall call l 0 LUA_MULTRET 0;
             v ← index_value l (-1);
             mret (status, [v])) s with
      | (Ok (status, vs), s) => Ans status (map (shown s) vs)
      | (Err e, _) => Fault e
      end
  | Ok None => NoState
  | Err e => Fault e
  end.
Definition run_script : nat -> string -> answer := run_with (fun _ => mret tt).

(** Bytes are stored and read back. *)
Example buffer_store : run_script 200 "local b = buffer.new(10) b[0] = 7 b[9] = 255 return b[0] + b[9]" = Ans 0 [inl (VNumber 262)].
Proof. vm_compute. reflexivity. Qed.

(** The last index of a buffer of ten bytes is nine. *)
Example buffer_bounds : run_script 200 "local b = buffer.new(10) b[10] = 255" = Ans 2 [text "index out of range"].
Proof. vm_compute. reflexivity. Qed.

(** The length operator gives 0. *)
Example buffer_length : run_script 200 "return #buffer.new(10)" = Ans 0 [inl (VNumber 0)].
Proof. vm_compute. reflexivity. Qed.

(** A byte above 127 is negative in the table that a call makes, and is not
    when it is read by its index. *)
Example buffer_signs : run_script 200 "local b = buffer.new(10) b[1] = 200 return b()[2] + b[1]" = Ans 0 [inl (VNumber 144)].
Proof. vm_compute. reflexivity. Qed.

(** The hash of two bytes is that of the first. *)
Example sha1_first_byte :
  run_script 300 "local a = buffer.new(2) a[0] = 9 a[1] = 8 local h = crypto.sha1(a) return h[0] * 256 + h[1]" = Ans 0 [inl (VNumber 2304)].
Proof. vm_compute. reflexivity. Qed.

(** With a collector that works at every allocation, a buffer that is called
    and not held elsewhere is freed while its bytes are read. *)
Definition eager_collector (l : Z) : M VS unit :=
  lua_gc 100 l LUA_GCSETPAUSE 0;; lua_gc 100 l LUA_GCSETSTEPMUL 100000;; lua_gc 100 l LUA_GCCOLLECT 0;; mret tt.
Example buffer_freed : run_with eager_collector 200 "return buffer.new(4)()" = Fault (UB "dangling pointer").
Proof. vm_compute. reflexivity. Qed.
Example buffer_held : run_with eager_collector 200 "local b = buffer.new(4) return b()[1]" = Ans 0 [inl (VNumber (-56))].
Proof. vm_compute. reflexivity. Qed.

(** An argument of the wrong type. *)
Example buffer_wrong_type :
  run_script 200 "return buffer.new({})" = Ans 2 [text "demo:1: bad argument #-1 to 'new' (number expected, got table)"].
Proof. vm_compute. reflexivity. Qed.

(** The type of a table. *)
Example type_of_table : run_script 200 "return type({ 123 })" = Ans 0 [text "table"].
Proof. vm_compute. reflexivity. Qed.
