(* ===== verification/SetJmp.v ===== *)
(** * SetJmp.v: non-local jumps (setjmp_x86_64.S, setjmp_x86_32.S)

    The engine leaves a C function through [longjmp] (LUAI_THROW of luaconf.h),
    which the other files write as a value [Err].  Here are the two routines
    as the assembler has them: the instructions they use, on registers and a
    memory of bytes, and what they do together. *)

From S2P Require Import Prelude Machine.

(** ** The processor *)

(** General registers; a register has 64 bits on x86-64 and 32 bits on i386,
    which has the first eight only. *)
Inductive reg := A | B | C | D | SI | DI | SP | BP | R8 | R9 | R10 | R11 | R12 | R13 | R14 | R15.

#[global] Instance reg_eq_dec : EqDecision reg.
Proof. solve_decision. Defined.

(** Bytes at addresses; an access wraps at the end of the address space. *)
Definition memory : Type := Z -> Z.

Record cpu := mkCpu { regs : reg -> Z; bytes_at : memory; ip : Z }.

Definition upd_reg (r : reg) (v : Z) (rs : reg -> Z) : reg -> Z := fun x => if decide (x = r) then v else rs x.
Definition set_reg (r : reg) (v : Z) (s : cpu) : cpu := mkCpu (upd_reg r v (regs s)) (bytes_at s) (ip s).
Definition set_ip (a : Z) (s : cpu) : cpu := mkCpu (regs s) (bytes_at s) a.
Definition set_mem (m : memory) (s : cpu) : cpu := mkCpu (regs s) m (ip s).

(** The instructions of the two files, operands in the order of the
    assembler: the source first. *)
Inductive instr :=
  | Pop (r : reg)
  | Push (r : reg)
  | Xorl (r1 r2 : reg)  (* of 32 bits: clears the upper half of a longer register *)
  | Movl (r1 r2 : reg)
  | Xchgl (r1 r2 : reg)
  | Store (r : reg) (d : Z) (b : reg)  (* mov r,d(b) of a whole register *)
  | Load (d : Z) (b r : reg)  (* mov d(b),r *)
  | Ret
  | JmpMem (d : Z) (b : reg).  (* jmp *d(b) *)

Section width.
(** The bytes of a register and of an address. *)
Context (wb : nat).

Definition wbits : Z := 8 * Z.of_nat wb.
Definition wword : Z -> Z := uwrap wbits.
Definition wsize : Z := Z.of_nat wb.

(** Little-endian access to a word. *)
Fixpoint load_bytes (n : nat) (m : memory) (a : Z) : Z :=
  match n with
  | O => 0
  | S n => m (wword a) + 256 * load_bytes n m (a + 1)
  end.
Fixpoint store_bytes (n : nat) (v a : Z) (m : memory) : memory :=
  match n with
  | O => m
  | S n => fun x => if x =? wword a then v mod 256 else store_bytes n (v / 256) (a + 1) m x
  end.
Definition load_word : memory -> Z -> Z := load_bytes wb.
Definition store_word (v a : Z) (m : memory) : memory := store_bytes wb v a m.

(** One instruction; [Ret] and [JmpMem] leave the routine. *)
Definition cpu_step (i : instr) (s : cpu) : cpu :=
  match i with
  | Pop r => set_reg r (load_word (bytes_at s) (regs s SP)) (set_reg SP (wword (regs s SP + wsize)) s)
  | Push r =>
      let sp := wword (regs s SP - wsize) in
      set_mem (store_word (regs s r) sp (bytes_at s)) (set_reg SP sp s)
  | Xorl r1 r2 => set_reg r2 (u32 (Z.lxor (regs s r2) (regs s r1))) s
  | Movl r1 r2 => set_reg r2 (u32 (regs s r1)) s
  | Xchgl r1 r2 => set_reg r1 (u32 (regs s r2)) (set_reg r2 (u32 (regs s r1)) s)
  | Store r d b => set_mem (store_word (regs s r) (regs s b + d) (bytes_at s)) s
  | Load d b r => set_reg r (load_word (bytes_at s) (regs s b + d)) s
  | Ret => set_ip (load_word (bytes_at s) (regs s SP)) (set_reg SP (wword (regs s SP + wsize)) s)
  | JmpMem d b => set_ip (load_word (bytes_at s) (regs s b + d)) s
  end.

(** A routine until it leaves; [None] when it runs off its end. *)
Fixpoint cpu_exec (code : list instr) (s : cpu) : option cpu :=
  match code with
  | [] => None
  | i :: code =>
      match i with
      | Ret | JmpMem _ _ => Some (cpu_step i s)
      | _ => cpu_exec code (cpu_step i s)
      end
  end.
End width.

(** ** setjmp_x86_64.S *)

Definition setjmp_64 : list instr := [
  Pop SI;  (* Return address, and adjust the stack *)
  Xorl A A;  (* Return value *)
  Store B 0 DI;
  Store SP 8 DI;  (* Post-return %rsp! *)
  Push SI;  (* Make the call/return stack happy *)
  Store BP 16 DI;
  Store R12 24 DI;
  Store R13 32 DI;
  Store R14 40 DI;
  Store R15 48 DI;
  Store SI 56 DI;  (* Return address *)
  Ret].

Definition longjmp_64 : list instr := [
  Movl SI A;  (* Return value (int) *)
  Load 0 DI B;
  Load 8 DI SP;
  Load 16 DI BP;
  Load 24 DI R12;
  Load 32 DI R13;
  Load 40 DI R14;
  Load 48 DI R15;
  JmpMem 56 DI].

(** ** setjmp_x86_32.S, where [_REGPARM] says that arguments are in registers *)

Definition setjmp_32 (regparm : bool) : list instr :=
  (if regparm then [Movl A D] else [Load 4 SP D]) ++
  [Pop C;  (* Return address, and adjust the stack *)
   Xorl A A;  (* Return value *)
   Store B 0 D;
   Store SP 4 D;  (* Post-return %esp! *)
   Push C;  (* Make the call/return stack happy *)
   Store BP 8 D;
   Store SI 12 D;
   Store DI 16 D;
   Store C 20 D;  (* Return address *)
   Ret].

Definition longjmp_32 (regparm : bool) : list instr :=
  (if regparm then [Xchgl A D]
   else [Load 4 SP D;  (* jmp_ptr address *)
         Load 8 SP A]) ++  (* Return value *)
  [Load 0 D B;
   Load 4 D SP;
   Load 8 D BP;
   Load 12 D SI;
   Load 16 D DI;
   JmpMem 20 D].

(** ** The three conventions *)

Inductive abi := X86_64 | I386 (regparm : bool).

(** Bytes of a word, the routines, the argument [buf] of both and [val] of
    [longjmp], and the size of the buffer. *)
Definition word_bytes (p : abi) : nat := match p with X86_64 => 8 | I386 _ => 4 end.
Definition abi_bits (p : abi) : Z := wbits (word_bytes p).
Definition setjmp (p : abi) : list instr := match p with X86_64 => setjmp_64 | I386 r => setjmp_32 r end.
Definition longjmp (p : abi) : list instr := match p with X86_64 => longjmp_64 | I386 r => longjmp_32 r end.
Definition arg (p : abi) (n : Z) (s : cpu) : Z :=
  match p with
  | X86_64 => regs s (if n =? 1 then DI else SI)
  | I386 true => regs s (if n =? 1 then A else D)
  | I386 false => load_word 4 (bytes_at s) (regs s SP + 4 * n)
  end.
Definition jmp_buf_words (p : abi) : Z := match p with X86_64 => 8 | I386 _ => 6 end.
Definition jmp_buf_size (p : abi) : Z := jmp_buf_words p * wsize (word_bytes p).

(** The registers a function must give back to its caller. *)
Definition callee_saved (p : abi) : list reg :=
  match p with X86_64 => [B; BP; R12; R13; R14; R15] | I386 _ => [B; BP; SI; DI] end.

Definition cpu_run (p : abi) (code : list instr) (s : cpu) : option cpu := cpu_exec (word_bytes p) code s.

(** LUAI_TRY of luaconf.h runs its body when [setjmp] returns 0, and
    LUAI_THROW passes 1 to [longjmp]. *)
Definition LUAI_TRY (s : cpu) : bool := u32 (regs s A) =? 0.
Definition LUAI_THROW_val : Z := 1.

(** ** Memory *)

(** Places of the memory apart from each other: [n] bytes at [a] and [n'] at
    [b]. *)
Definition disjoint (wb : nat) (n a n' b : Z) : Prop := n <= wword wb (b - a) /\ wword wb (b - a) + n' <= 2 ^ wbits wb.

Section memory_lemmas.
Context (wb : nat).
Hypothesis Hwb : (0 < wb <= 8)%nat.
Implicit Types (m : memory) (a b v : Z).

Abbreviation ww := (wword wb).
Abbreviation dj := (disjoint wb).

Lemma wbits_pos : 0 < 2 ^ wbits wb.
Proof. unfold wbits. lia. Qed.
Lemma wb_small : Z.of_nat wb <= 2 ^ wbits wb.
Proof. unfold wbits. pose proof (Z.pow_gt_lin_r 2 (8 * Z.of_nat wb)). lia. Qed.

Lemma disjoint_neq n a n' b i j : dj n a n' b -> 0 <= i < n -> 0 <= j < n' -> ww (a + i) <> ww (b + j).
Proof.
  unfold disjoint, wword, uwrap. pose proof wbits_pos. set (W := 2 ^ wbits wb) in *. intros [H1 H2] Hi Hj He.
  assert ((b - a) mod W + (j - i) = 0); [|lia].
  rewrite <- (Z.mod_small ((b - a) mod W + (j - i)) W) by lia.
  rewrite Zplus_mod_idemp_l. replace (b - a + (j - i)) with (b + j - (a + i)) by lia.
  by rewrite Zminus_mod, He, Z.sub_diag, Z.mod_0_l by lia.
Qed.

Lemma load_store_diff n m a n' b v :
  (forall i j, 0 <= i < Z.of_nat n -> 0 <= j < Z.of_nat n' -> ww (a + i) <> ww (b + j)) ->
  load_bytes wb n (store_bytes wb n' v b m) a = load_bytes wb n m a.
Proof.
  revert a. induction n as [|n IH]; intros a Hd; [done|]. cbn [load_bytes]. f_equal.
  - assert (Hx : forall j, 0 <= j < Z.of_nat n' -> ww a <> ww (b + j)).
    { intros j Hj. rewrite <- (Z.add_0_r a). apply Hd; lia. }
    clear Hd IH. revert v b Hx. induction n' as [|n' IH]; intros v b Hx; [done|]. cbn.
    rewrite (proj2 (Z.eqb_neq _ _)) by (rewrite <- (Z.add_0_r b); apply Hx; lia).
    apply IH. intros j Hj. replace (b + 1 + j) with (b + (j + 1)) by lia. apply Hx. lia.
  - f_equal. apply IH. intros i j Hi Hj. replace (a + 1 + i) with (a + (i + 1)) by lia. apply Hd; lia.
Qed.

Lemma load_bytes_ext n m m' a : (forall i, 0 <= i < Z.of_nat n -> m' (ww (a + i)) = m (ww (a + i))) ->
  load_bytes wb n m' a = load_bytes wb n m a.
Proof.
  clear Hwb. revert a. induction n as [|n IH]; intros a He; [done|]. cbn [load_bytes]. f_equal.
  - rewrite <- (Z.add_0_r a). apply He. lia.
  - f_equal. apply IH. intros i Hi. replace (a + 1 + i) with (a + (i + 1)) by lia. apply He. lia.
Qed.

(** Different addresses of one word. *)
Lemma word_neq a i j : 0 <= i < j -> j <= 2 ^ wbits wb - 1 -> ww (a + i) <> ww (a + j).
Proof.
  unfold wword, uwrap. pose proof wbits_pos. set (W := 2 ^ wbits wb) in *. intros Hi Hj He.
  assert (Hz : (j - i) mod W = 0).
  { replace (j - i) with (a + j - (a + i)) by lia. by rewrite Zminus_mod, He, Z.sub_diag, Z.mod_0_l by lia. }
  rewrite Z.mod_small in Hz; lia.
Qed.

Lemma load_store_same n m a v : Z.of_nat n <= 2 ^ wbits wb ->
  load_bytes wb n (store_bytes wb n v a m) a = v mod 256 ^ Z.of_nat n.
Proof.
  revert a v. induction n as [|n IH]; intros a v Hn; [by rewrite Z.mod_1_r|].
  assert (Hb : store_bytes wb (S n) v a m (ww a) = v mod 256) by (cbn; by rewrite Z.eqb_refl).
  cbn [load_bytes]. rewrite Hb.
  rewrite (load_bytes_ext n (store_bytes wb n (v / 256) (a + 1) m)).
  - rewrite IH by lia. rewrite Nat2Z.inj_succ, Z.pow_succ_r by lia. symmetry. apply Z.rem_mul_r; lia.
  - intros i Hi. cbn [store_bytes]. rewrite (proj2 (Z.eqb_neq _ _)); [done|]. intros He. symmetry in He.
    replace (a + 1 + i) with (a + (i + 1)) in He by lia.
    apply (word_neq a 0 (i + 1)); [lia..|]. by rewrite Z.add_0_r.
Qed.

(** Storing what is there changes nothing. *)
Lemma store_load_id n m a x : (forall y, in_u 8 (m y)) -> store_bytes wb n (load_bytes wb n m a) a m x = m x.
Proof.
  clear Hwb. intros Hm. revert a. induction n as [|n IH]; intros a; [done|]. cbn [store_bytes load_bytes].
  pose proof (Hm (ww a)) as Ha. unfold in_u in Ha. change (2 ^ 8) with 256 in Ha.
  rewrite (Z.mul_comm 256), Z.div_add, Z.div_small, Z.add_0_l by lia.
  destruct (Z.eqb_spec x (ww a)) as [->|]; [|apply IH].
  by rewrite Z.mod_add, Z.mod_small by lia.
Qed.

Lemma store_outside n v a m x : (forall i, 0 <= i < Z.of_nat n -> x <> ww (a + i)) -> store_bytes wb n v a m x = m x.
Proof.
  clear Hwb. revert v a. induction n as [|n IH]; intros v a Hx; [done|]. cbn.
  rewrite (proj2 (Z.eqb_neq _ _)) by (rewrite <- (Z.add_0_r a); apply Hx; lia).
  apply IH. intros i Hi. replace (a + 1 + i) with (a + (i + 1)) by lia. apply Hx. lia.
Qed.

Lemma load_bytes_range n m a : (forall y, in_u 8 (m y)) -> 0 <= load_bytes wb n m a < 256 ^ Z.of_nat n.
Proof.
  intros Hm. revert a. induction n as [|n IH]; intros a; [cbn; lia|]. cbn [load_bytes].
  specialize (IH (a + 1)). pose proof (Hm (ww a)) as Ha. unfold in_u in Ha. change (2 ^ 8) with 256 in Ha.
  rewrite Nat2Z.inj_succ, Z.pow_succ_r by lia. nia.
Qed.

(** Words. *)
Lemma wword_range m a : (forall y, in_u 8 (m y)) -> in_u (wbits wb) (load_word wb m a).
Proof.
  intros Hm. unfold in_u. pose proof (load_bytes_range wb m a Hm) as Hr. unfold load_word.
  unfold wbits. rewrite Z.pow_mul_r by lia. exact Hr.
Qed.

Lemma load_store_word m a v : in_u (wbits wb) v -> load_word wb (store_word wb v a m) a = v.
Proof.
  intros Hv. unfold load_word, store_word. rewrite load_store_same by apply wb_small.
  change 256 with (2 ^ 8). rewrite <- Z.pow_mul_r by lia. apply Z.mod_small. exact Hv.
Qed.

Lemma load_store_field m a i j v :
  0 <= i -> 0 <= j -> i + wsize wb <= j \/ j + wsize wb <= i -> i + wsize wb <= 64 -> j + wsize wb <= 64 ->
  load_word wb (store_word wb v (a + j) m) (a + i) = load_word wb m (a + i).
Proof.
  unfold wsize. intros Hi Hj Hij Hi8 Hj8. apply load_store_diff. intros x y Hx Hy.
  assert (64 <= 2 ^ wbits wb - 1).
  { transitivity (2 ^ 8 - 1); [done|]. enough (2 ^ 8 <= 2 ^ wbits wb) by lia. apply Z.pow_le_mono_r; unfold wbits; lia. }
  rewrite <- !Z.add_assoc. destruct Hij.
  - apply word_neq; lia.
  - apply not_eq_sym, word_neq; lia.
Qed.

(** A word of [n] bytes at [a] and one apart from them. *)
Lemma load_store_in m a n b i v : dj n a (wsize wb) b -> 0 <= i -> i + wsize wb <= n ->
  load_word wb (store_word wb v b m) (a + i) = load_word wb m (a + i).
Proof.
  intros Hd Hi Hn. apply load_store_diff. intros x y Hx Hy. rewrite <- Z.add_assoc.
  eapply disjoint_neq; [exact Hd|unfold wsize in Hn; lia|done].
Qed.
Lemma load_store_out m a n b i v : dj n a (wsize wb) b -> 0 <= i -> i + wsize wb <= n ->
  load_word wb (store_word wb v (a + i) m) b = load_word wb m b.
Proof.
  intros Hd Hi Hn. apply load_store_diff. intros x y Hx Hy. rewrite <- Z.add_assoc. apply not_eq_sym.
  eapply disjoint_neq; [exact Hd|unfold wsize in Hn; lia|done].
Qed.

Lemma load_word_ext m m' a : (forall i, 0 <= i < wsize wb -> m' (ww (a + i)) = m (ww (a + i))) -> load_word wb m' a = load_word wb m a.
Proof. clear Hwb. apply load_bytes_ext. Qed.

Lemma store_word_outside m a n i v x : (forall j, 0 <= j < n -> x <> ww (a + j)) -> 0 <= i -> i + wsize wb <= n ->
  store_word wb v (a + i) m x = m x.
Proof.
  clear Hwb. unfold wsize. intros Hx Hi Hn. apply store_outside. intros j Hj. rewrite <- Z.add_assoc. apply Hx. lia.
Qed.

Lemma store_word_bytes m a v : (forall y, in_u 8 (m y)) -> forall y, in_u 8 (store_word wb v a m y).
Proof.
  intros Hm. unfold store_word. generalize wb at 2. intros n. revert v a. induction n as [|n IH]; intros v a y; [apply Hm|].
  cbn. destruct (_ =? _); [|apply IH]. unfold in_u. change (2 ^ 8) with 256. by apply Z.mod_pos_bound.
Qed.

Lemma store_word_back m a v x : (forall y, in_u 8 (m y)) -> load_word wb m a = v -> store_word wb v a m x = m x.
Proof. clear Hwb. intros Hm <-. by apply store_load_id. Qed.
End memory_lemmas.

(** ** What the routines do *)

(** Registers and bytes in the range of their types. *)
Record cpu_ok (p : abi) (s : cpu) : Prop := {
  ok_regs : forall r, in_u (abi_bits p) (regs s r);
  ok_bytes : forall a, in_u 8 (bytes_at s a);
}.

(** The state the caller of a routine entered in [s] goes on with. *)
Record returned (p : abi) (s s1 : cpu) : Prop := {
  ret_ip : ip s1 = load_word (word_bytes p) (bytes_at s) (regs s SP);
  ret_sp : regs s1 SP = wword (word_bytes p) (regs s SP + wsize (word_bytes p));
  ret_saved : forall r, r ∈ callee_saved p -> regs s1 r = regs s r;
}.

(** What [setjmp] leaves in the buffer, in order. *)
Definition jmp_buf_of (p : abi) (s : cpu) : list Z :=
  let sp := wword (word_bytes p) (regs s SP + wsize (word_bytes p)) in
  let ret := load_word (word_bytes p) (bytes_at s) (regs s SP) in
  match p with
  | X86_64 => [regs s B; sp; regs s BP; regs s R12; regs s R13; regs s R14; regs s R15; ret]
  | I386 _ => [regs s B; sp; regs s BP; regs s SI; regs s DI; ret]
  end.
Definition buf_holds (p : abi) (m : memory) (b : Z) (l : list Z) : Prop :=
  forall i v, znth l i = Some v -> load_word (word_bytes p) m (b + wsize (word_bytes p) * i) = v.

#[global] Opaque load_word store_word.

Definition apart (p : abi) (s : cpu) : Prop :=
  disjoint (word_bytes p) (jmp_buf_size p) (arg p 1 s) (wsize (word_bytes p)) (regs s SP).

(** An address that is not in the buffer. *)
Definition outside (p : abi) (b x : Z) : Prop := forall j, 0 <= j < jmp_buf_size p -> x <> wword (word_bytes p) (b + j).

Lemma upd_reg_eq r v rs : upd_reg r v rs r = v.
Proof. unfold upd_reg. by rewrite decide_True. Qed.
Lemma upd_reg_ne r v rs x : x <> r -> upd_reg r v rs x = rs x.
Proof. intros H. unfold upd_reg. by rewrite decide_False. Qed.

(** Run a routine to its end: the registers read back. *)
Ltac reg_simpl := repeat first [rewrite upd_reg_eq | rewrite upd_reg_ne by discriminate].


Lemma slot_back wb x : in_u (wbits wb) x -> wword wb (wword wb (x + wsize wb) - wsize wb) = x.
Proof.
  intros Hx. unfold wword, uwrap. rewrite Zminus_mod_idemp_l. replace (x + wsize wb - wsize wb) with x by lia. by apply Z.mod_small.
Qed.

(** Read a word back from the stores to the buffer and the stack. *)
Ltac word_ok := first [done | unfold wsize; lia | match goal with H : forall r, in_u _ (regs _ r) |- _ => exact (H _) end
  | apply wword_range; [lia|assumption] | apply uwrap_range; done].
Ltac mem_simpl :=
  repeat first [rewrite load_store_field by word_ok | rewrite load_store_word by word_ok
    | match goal with H : disjoint ?wb _ _ _ _ |- _ => first
        [rewrite (load_store_out wb ltac:(lia) _ _ _ _ _ _ H) by word_ok | rewrite (load_store_in wb ltac:(lia) _ _ _ _ _ _ H) by word_ok] end].

Lemma u32_reg x : in_u 32 x -> u32 x = x.
Proof. apply uwrap_small. Qed.

Ltac setjmp_tac wb Hr Hm :=
  eexists; split; [cbn; reg_simpl; rewrite ?(u32_reg _ (Hr _)); rewrite ?(slot_back wb _ (Hr SP)); reflexivity|];
  split; [split|split_and!];
  [cbn; mem_simpl; done
  |cbn; by reg_simpl
  |let Hin := fresh "Hin" in
   intros ? Hin; cbn in Hin; repeat (apply elem_of_cons in Hin as [->|Hin]; [cbn; by reg_simpl|]); by apply elem_of_nil in Hin
  |cbn; reg_simpl; by rewrite Z.lxor_nilpotent
  |let i := fresh "i" in let v := fresh "v" in let Hv := fresh "Hv" in let Hi := fresh "Hi" in let Hc := fresh "Hc" in 
   intros i v Hv; pose proof (znth_Some_lt _ _ _ Hv) as Hi; cbn in Hi; unfold zlen in Hi; cbn in Hi;
   first [assert (i = 0 \/ i = 1 \/ i = 2 \/ i = 3 \/ i = 4 \/ i = 5 \/ i = 6 \/ i = 7) as Hc by lia];
   repeat destruct Hc as [->|Hc]; try subst i; try (discriminate Hv || (injection Hv as <-; cbn; mem_simpl; done))
  |let x := fresh "x" in let Hx := fresh "Hx" in
   intros x Hx; unfold outside, jmp_buf_size in Hx; cbn [jmp_buf_words word_bytes arg Z.eqb Pos.eqb] in Hx; cbn;
   repeat first [rewrite (store_word_outside wb _ _ _ _ _ _ Hx) by word_ok
     | rewrite store_word_back; [|repeat apply store_word_bytes; exact Hm|by mem_simpl]]; done].

Ltac buf_field Hb := first
  [exact (Hb 0 _ eq_refl) | exact (Hb 2 _ eq_refl) | exact (Hb 3 _ eq_refl) | exact (Hb 4 _ eq_refl)
  |exact (Hb 5 _ eq_refl) | exact (Hb 6 _ eq_refl)].
Ltac longjmp_tac n Hr Hm Hb :=
  eexists; split; [cbn; reg_simpl; rewrite ?(u32_reg _ (Hr _)); reflexivity|];
  split; [split|split];
  [exact (Hb n _ eq_refl)
  |cbn; reg_simpl; exact (Hb 1 _ eq_refl)
  |let Hin := fresh "Hin" in
   intros ? Hin; cbn in Hin; repeat (apply elem_of_cons in Hin as [->|Hin]; [cbn; reg_simpl; buf_field Hb|]); by apply elem_of_nil in Hin
  |cbn; reg_simpl; first [done | symmetry; apply u32_reg; first [apply Hr | apply (wword_range 4); [lia|exact Hm]]]
  |done].

(** The first return of [setjmp]: to its caller, with 0, the buffer filled and
    the rest of the memory as it was. *)
Lemma setjmp_spec p s : cpu_ok p s -> apart p s ->
  exists s1, cpu_run p (setjmp p) s = Some s1 /\ returned p s s1 /\ regs s1 A = 0 /\
    buf_holds p (bytes_at s1) (arg p 1 s) (jmp_buf_of p s) /\
    forall x, outside p (arg p 1 s) x -> bytes_at s1 x = bytes_at s x.
Proof.
  intros [Hr Hm] Hd. unfold apart, jmp_buf_size in Hd. destruct p as [|[]]; cbn in Hd.
  - setjmp_tac 8%nat Hr Hm.
  - setjmp_tac 4%nat Hr Hm.
  - setjmp_tac 4%nat Hr Hm.
Qed.

Lemma jmp_buf_of_length p s : zlen (jmp_buf_of p s) = jmp_buf_words p.
Proof. by destruct p. Qed.

Lemma buf_holds_ext p s m m' b :
  (forall j, 0 <= j < jmp_buf_size p -> let x := wword (word_bytes p) (b + j) in m' x = m x) ->
  buf_holds p m b (jmp_buf_of p s) -> buf_holds p m' b (jmp_buf_of p s).
Proof.
  intros He Hb i v Hv. rewrite <- (Hb i v Hv). apply load_word_ext. intros j Hj.
  apply znth_Some_lt in Hv. rewrite jmp_buf_of_length in Hv. rewrite <- Z.add_assoc. apply He.
  unfold jmp_buf_size, wsize in *. nia.
Qed.

(** [longjmp] with the buffer of a call of [setjmp] returns from that call
    with the low 32 bits of [val]. *)
Lemma longjmp_spec p s s2 : cpu_ok p s2 -> buf_holds p (bytes_at s2) (arg p 1 s2) (jmp_buf_of p s) ->
  exists s3, cpu_run p (longjmp p) s2 = Some s3 /\ returned p s s3 /\ regs s3 A = u32 (arg p 2 s2) /\ bytes_at s3 = bytes_at s2.
Proof.
  intros [Hr Hm] Hb. destruct p as [|[]].
  - longjmp_tac 7 Hr Hm Hb.
  - longjmp_tac 5 Hr Hm Hb.
  - longjmp_tac 5 Hr Hm Hb.
Qed.

(** Memory stays a memory of bytes. *)
Lemma exec_bytes wb code s s1 : (forall y, in_u 8 (bytes_at s y)) -> cpu_exec wb code s = Some s1 -> forall y, in_u 8 (bytes_at s1 y).
Proof.
  assert (Hi : forall i s, (forall y, in_u 8 (bytes_at s y)) -> forall y, in_u 8 (bytes_at (cpu_step wb i s) y)).
  { intros i s0 Hs. destruct i; try exact Hs; cbn; by apply store_word_bytes. }
  revert s. induction code as [|i code IH]; intros s Hs Hx; [done|].
  pose proof (Hi i s Hs) as Hii. destruct i; cbn [cpu_exec] in Hx; first [injection Hx as <-; exact Hii|exact (IH _ Hii Hx)].
Qed.

(** C15: [setjmp] returns once to its caller with 0, so LUAI_TRY runs its body,
    and changes no memory but the buffer.  Whatever the program does after
    that, if it leaves the buffer alone a call of [longjmp] with it returns to
    the same place, with the same stack pointer and callee-saved registers, in
    the memory as it now is; with the 1 of LUAI_THROW the body is then
    skipped.  This holds of the three calling conventions. *)
Theorem longjmp_resumes_setjmp p s : cpu_ok p s -> apart p s ->
  exists s1, cpu_run p (setjmp p) s = Some s1 /\ returned p s s1 /\ LUAI_TRY s1 = true /\
    (forall x, outside p (arg p 1 s) x -> bytes_at s1 x = bytes_at s x) /\
    forall s2, cpu_ok p s2 -> arg p 1 s2 = arg p 1 s ->
      (forall j, 0 <= j < jmp_buf_size p -> let x := wword (word_bytes p) (arg p 1 s + j) in bytes_at s2 x = bytes_at s1 x) ->
      exists s3, cpu_run p (longjmp p) s2 = Some s3 /\ returned p s s3 /\ regs s3 A = u32 (arg p 2 s2) /\
        bytes_at s3 = bytes_at s2 /\ (arg p 2 s2 = LUAI_THROW_val -> LUAI_TRY s3 = false).
Proof.
  intros Hs Hd. destruct (setjmp_spec p s Hs Hd) as (s1 & Hrun & Hret & HA & Hb & Hout).
  exists s1. split_and!; [done..|by unfold LUAI_TRY; rewrite HA|done|].
  intros s2 Hs2 Harg Hsame. destruct (longjmp_spec p s s2 Hs2) as (s3 & Hrun3 & Hret3 & HA3 & Hm3).
  { rewrite Harg. by eapply buf_holds_ext. }
  exists s3. split_and!; [done..|]. intros Hv. unfold LUAI_TRY. by rewrite HA3, Hv.
Qed.

(** A call of [setjmp] from code at address 7, its buffer at 8192, and a
    [longjmp] from deeper in the stack. *)
Definition demo_cpu : cpu :=
  mkCpu (fun r => match r with DI => 8192 | SP => 4096 | B => 11 | R15 => 15 | _ => 0 end) (fun x => if x =? 4096 then 7 else 0) 0.
Definition demo_throw (m : memory) : cpu :=
  mkCpu (fun r => match r with DI => 8192 | SI => LUAI_THROW_val | SP => 4000 | B => 12 | _ => 0 end) m 0.

Lemma longjmp_resumes_setjmp_witness : exists s1 s3,
  cpu_run X86_64 (setjmp X86_64) demo_cpu = Some s1 /\ ip s1 = 7 /\ LUAI_TRY s1 = true /\
  cpu_run X86_64 (longjmp X86_64) (demo_throw (bytes_at s1)) = Some s3 /\ ip s3 = 7 /\ regs s3 SP = 4104 /\ regs s3 B = 11 /\
  LUAI_TRY s3 = false.
Proof.
  assert (Hs : cpu_ok X86_64 demo_cpu).
  { split; [intros []; split; by vm_compute|]. intros a. cbn. destruct (_ =? _); split; by vm_compute. }
  destruct (longjmp_resumes_setjmp X86_64 demo_cpu Hs ltac:(by split; vm_compute)) as (s1 & Hrun & [Hip _ _] & Htry & _ & H).
  destruct (H (demo_throw (bytes_at s1))) as (s3 & Hrun3 & [Hip3 Hsp3 Hsv] & _ & _ & Hv).
  - split; [intros []; split; by vm_compute|]. apply (exec_bytes _ _ _ _ (ok_bytes _ _ Hs) Hrun).
  - done.
  - done.
  - exists s1, s3. split_and!; [done|by rewrite Hip|done|done|by rewrite Hip3|by rewrite Hsp3|by rewrite (Hsv B) by (by left)|by apply Hv].
Defined.
