(* ===== verification/Panic.v ===== *)
(** * Panic.v: errors outside of any protected call (ldo.c, lapi.c, lauxlib.c)

    When no protected call is active ([errorJmp] is NULL) luaD_throw resets
    the thread, calls the panic function and leaves the program by exit.  In
    the kernel fakelibc_include/stdlib.h makes [exit] a [return]: luaD_throw
    comes back to callers that were written for one that does not.  The other
    files describe what runs under a protected call; this one is the other
    branch, with the fields of the global state that only it uses. *)

From S2P Require Import Prelude Machine Opcodes Object Mem Zio Table Gc Func Collect State StackLemmas Errors Call LuaState Load Api TableSpec LexInit VmDemo.
From S2P Require Str Lex.

(** The fields [panic], [frealloc] and [ud] of the global state; a NULL
    [panic] is [None], and a C function is what it does to the thread it
    gets. *)
Record PState := mkPS {
  ps_vs : VS;
  ps_panic : option (Z -> M VS Z);
  ps_frealloc : Z;
  ps_ud : Z;
}.

Definition set_vs (s : VS) (p : PState) : PState := mkPS s (ps_panic p) (ps_frealloc p) (ps_ud p).

#[export] Instance PState_HasMem : HasMem PState := {|
  totalbytes p := totalbytes (ps_vs p);
  set_totalbytes n p := set_vs (set_totalbytes n (ps_vs p)) p;
|}.

(** What runs on the state of the interpreter. *)
Definition onVS {A} (m : M VS A) : M PState A := fun p => let '(r, s) := m (ps_vs p) in (r, set_vs s p).

(** ** Accessors (lapi.c) *)

Definition lua_atpanic (panicf : option (Z -> M VS Z)) : M PState (option (Z -> M VS Z)) :=
  old ← gets ps_panic;
  modify (fun p => mkPS (ps_vs p) panicf (ps_frealloc p) (ps_ud p));;
  mret old.

(** The function and its argument. *)
Definition lua_getallocf : M PState (Z * Z) := p ← get; mret (ps_frealloc p, ps_ud p).

Definition lua_setallocf (f ud : Z) : M PState unit := modify (fun p => mkPS (ps_vs p) (ps_panic p) f ud).

(** ** Throwing (ldo.c) *)

Section panic.
Context `{Krealloc} `{StringHash} `{KernelStrto} `{Host}.
Context (call : Z -> Z -> Z -> M VS unit).

(** Back to the first CallInfo, with the error value alone on the stack. *)
Definition resetstack (l status : Z) : M VS unit :=
  cs ← getL l l_cis;
  base_ci ← lift (of_option "no call" (last cs));
  set_cis l [base_ci];;
  setL l (set_base (ci_base base_ci));;
  onG (luaF_close l (ci_base base_ci));;  (* close eventual pending closures *)
  luaD_seterrorobj l status (ci_base base_ci);;
  L ← state_of l;
  setL l (set_nCcalls (l_baseCcalls L));;
  setL l (set_allowhook true);;
  restore_stack_limit l;;
  setL l (set_errfunc 0).

(** luaD_throw, given whether a protected call is active: then the longjmp is
    the error of the monad.  [exit(EXIT_FAILURE)] is [return]. *)
Definition luaD_throw (errorJmp : bool) (l : Z) (e : error) : M PState unit :=
  match error_status e with
  | None => throw e
  | Some errcode =>
      if errorJmp then throw e
      else
        onVS (setL l (set_status (u8 errcode)));;
        panic ← gets ps_panic;
        match panic with
        | Some panic => onVS (resetstack l errcode;; panic l;; mret tt)
        | None => mret tt
        end
        (* exit(EXIT_FAILURE) *)
  end.

(** luaM_realloc_ of lmem.c with its call of luaD_throw: whether the block it
    returns is not NULL. *)
Definition realloc_block (errorJmp : bool) (l osize nsize : Z) : M PState bool :=
  n ← gets totalbytes;
  let block := l_alloc n osize nsize in
  when (negb block && (nsize >? 0)) (luaD_throw errorJmp l ErrMem);;
  modify (fun p => set_totalbytes (u64 (u64 (totalbytes p - osize) + nsize)) p);;
  mret block.

(** ** The panic function of a new state (lauxlib.c) *)

(** Its message goes to the kernel's log; an error value that is no string is
    NULL. *)
Definition lpanic (printk : option bytes -> M VS unit) (l : Z) : M VS Z :=
  r ← lua_tolstring call l (-1);
  text ← match r with Some (a, _) => s ← svalue a; mret (Some s) | None => mret None end;
  printk text;;
  mret 0.

(** luaL_newstate, with l_alloc at address [l_alloc_addr]. *)
Definition luaL_newstate (printk : option bytes -> M VS unit) (l_alloc_addr : Z) : result (option (Z * PState)) :=
  match LuaState.lua_newstate with
  | Ok (Some (l, s)) =>
      match lua_atpanic (Some (lpanic printk)) (mkPS s None l_alloc_addr 0) with
      | (Ok _, p) => Ok (Some (l, p))
      | (Err e, _) => Err e
      end
  | Ok None => Ok None
  | Err e => Err e
  end.

(** ** What an unprotected error does *)

(** Under a protected call it is the error that the other files throw. *)
Lemma luaD_throw_protected l e p : luaD_throw true l e p = (Err e, p).
Proof. by destruct e. Qed.

(** The memory manager of Mem.v is this one under a protected call. *)
Lemma realloc_block_protected l osize nsize p :
  realloc_block true l osize nsize p =
    match luaM_realloc_ osize nsize p with
    | (Ok _, p') => (Ok (l_alloc (totalbytes p) osize nsize), p')
    | (Err e, p') => (Err e, p')
    end.
Proof.
  unfold realloc_block, luaM_realloc_. erewrite bind_ok by reflexivity. cbv zeta.
  destruct (negb _ && _); [|done]. by erewrite bind_err by apply luaD_throw_protected.
Qed.

(** The thread after [resetstack], where [c] is its first CallInfo and [v] the
    error value. *)
Definition reset_L (c : CallInfo) (status : Z) (L : LState) : LState :=
  set_errfunc 0 (set_allowhook true (set_nCcalls (l_baseCcalls L) (set_base (ci_base c) (set_cis_of [c] (set_status status L))))).
Definition reset_thread (c : CallInfo) (v : TValue) (th : Thread) : Thread :=
  set_th_top (ci_base c + 1) (set_stack (zupd (ci_base c) v (th_stack th)) (set_th_ci [ci_top c] th)).

(** The thread cut back to its first CallInfo, where the value of the error is
    put. *)
Definition cut_thread (c : CallInfo) (th : Thread) : Thread := set_th_ci [ci_top c] th.
Definition cut_state (l : Z) (c : CallInfo) (th : Thread) (s : VS) : VS :=
  upd_L l (set_base (ci_base c)) (put_thread l (cut_thread c th) (upd_L l (set_cis_of [c]) s)).

(** The value of an error of this status in [s], and the state with the value:
    the message on the stack, or the string of an error without a message,
    which luaS_newliteral finds or makes. *)
Inductive raised (l : Z) (th : Thread) (s : VS) : Z -> TValue -> VS -> Prop :=
  | raised_message status v :
      status = LUA_ERRRUN \/ status = LUA_ERRSYNTAX -> znth (th_stack th) (th_top th - 1) = Some v -> raised l th s status v s
  | raised_memory a s' :
      luaS_newliteral "not enough memory" s = (Ok a, s') -> thread_at s' l th -> raised l th s LUA_ERRMEM (VString a) s'
  | raised_error a s' :
      luaS_newliteral "error in error handling" s = (Ok a, s') -> thread_at s' l th -> raised l th s LUA_ERRERR (VString a) s'.

(** A thread without open upvalues. *)
Record unprotected (l : Z) (L : LState) (th : Thread) (c : CallInfo) (s : VS) : Prop := {
  up_L : L_at s l L;
  up_th : thread_at s l th;
  up_ci : last (l_cis L) = Some c;
  up_open : th_openupval th = [];
  up_size : th_size_ci th <= LUAI_MAXCALLS;
  up_base : 0 <= ci_base c < zlen (th_stack th);
}.

Lemma close_nothing l level th s : thread_at s l th -> th_openupval th = [] -> onG (luaF_close l level) s = (Ok tt, s).
Proof.
  intros Hth Ho. apply onG_th. destruct Hth as [m Hm].
  assert (Hg : gco2th l (v_g s) = (Ok th, v_g s)) by (unfold gco2th, deref; m_simpl; by rewrite Hm).
  unfold luaF_close. rewrite (bind_ok _ _ _ _ _ Hg), Ho. cbn [length close_loop].
  by rewrite (bind_ok _ _ _ _ _ Hg), Ho.
Qed.

Lemma newliteral_L lit s a s' : luaS_newliteral lit s = (Ok a, s') -> v_L s' = v_L s.
Proof. unfold luaS_newliteral, newstring, onG. destruct (onStr _ (v_g s)) as [r g]. by intros [= _ <-]. Qed.

Lemma seterrorobj_raised l th s status v s' oldtop :
  thread_at s l th -> 0 <= oldtop < zlen (th_stack th) -> raised l th s status v s' ->
  luaD_seterrorobj l status oldtop s = (Ok tt, put_thread l (set_th_top (oldtop + 1) (set_stack (zupd oldtop v (th_stack th)) th)) s') /\
  thread_at s' l th /\ v_L s' = v_L s.
Proof.
  intros Hth Hi Hr. set (th1 := set_stack (zupd oldtop v (th_stack th)) th).
  assert (Hgo : thread_at s' l th /\ v_L s' = v_L s /\ forall (m : M VS unit), m s = (Ok tt, put_thread l th1 s') ->
    (m;; set_top l (oldtop + 1)) s = (Ok tt, put_thread l (set_th_top (oldtop + 1) th1) s')).
  { assert (Hth' : thread_at s' l th) by (by destruct Hr). split; [done|]. split.
    - destruct Hr as [| a s' Hn _| a s' Hn _]; [done|by eapply newliteral_L..].
    - intros m Hm. rewrite (bind_ok _ _ _ _ _ Hm). rewrite (set_top_at _ l th1) by (by eapply thread_at_put).
      by rewrite put_put. }
  destruct Hgo as (Hth' & HL & Hgo). split; [|done]. unfold luaD_seterrorobj.
  destruct Hr as [status v Hst Hv|a s' Hn _|a s' Hn _]; apply Hgo.
  - destruct Hst as [-> | ->]; cbn -[top move_slot]; rewrite (bind_ok _ _ _ _ _ (top_at s l th Hth));
      by apply (move_slot_at s l th Hth).
  - cbn -[luaS_newliteral set_slot]. rewrite (bind_ok _ _ _ _ _ Hn). by apply set_slot_at.
  - cbn -[luaS_newliteral set_slot]. rewrite (bind_ok _ _ _ _ _ Hn). by apply set_slot_at.
Qed.

Lemma resetstack_spec l status L th c v s s1 :
  unprotected l L th c s -> raised l (cut_thread c th) (cut_state l c th s) status v s1 ->
  exists s', resetstack l status s = (Ok tt, s') /\ thread_at s' l (reset_thread c v th) /\
    L_at s' l (reset_L c (l_status L) L).
Proof.
  intros [HL Hth Hc Ho Hsz Hb] Hr. unfold resetstack.
  rewrite (bind_ok _ _ _ _ _ (getL_at s l L HL l_cis)), Hc. erewrite bind_ok by reflexivity.
  rewrite (bind_ok _ _ _ _ _ (set_cis_at s l th [c] Hth)). erewrite bind_ok by reflexivity.
  fold (cut_thread c th). fold (cut_state l c th s). set (s2 := cut_state l c th s) in *.
  assert (Hth2 : thread_at s2 l (cut_thread c th)) by (by eapply thread_at_upd, thread_at_put).
  rewrite (bind_ok _ _ _ _ _ (close_nothing l (ci_base c) (cut_thread c th) s2 Hth2 Ho)).
  destruct (seterrorobj_raised l (cut_thread c th) s2 status v s1 (ci_base c) Hth2 Hb Hr) as (Herr & Hth1 & HvL).
  change (set_th_top _ (set_stack _ (cut_thread c th))) with (reset_thread c v th) in Herr.
  rewrite (bind_ok _ _ _ _ _ Herr). set (s3 := put_thread l (reset_thread c v th) s1).
  set (L3 := set_base (ci_base c) (set_cis_of [c] L)).
  assert (HL3 : L_at s3 l L3).
  { apply L_at_put. unfold L_at. rewrite HvL. by apply L_at_upd, L_at_put, L_at_upd. }
  rewrite (bind_ok _ _ _ _ _ (state_of_at s3 l L3 HL3)).
  do 2 (erewrite bind_ok by reflexivity).
  set (s4 := upd_L l (set_allowhook true) _).
  assert (Hth4 : thread_at s4 l (reset_thread c v th)) by (by eapply thread_at_put).
  assert (Hlim : restore_stack_limit l s4 = (Ok tt, s4)).
  { unfold restore_stack_limit. rewrite (bind_ok _ _ _ _ _ (thread_of_at s4 l _ Hth4)).
    destruct (Z.gtb_spec (th_size_ci (reset_thread c v th)) LUAI_MAXCALLS); [cbn in *; lia|done]. }
  rewrite (bind_ok _ _ _ _ _ Hlim). eexists. split; [reflexivity|]. split; [done|].
  replace (reset_L c (l_status L) L) with (set_errfunc 0 (set_allowhook true (set_nCcalls (l_baseCcalls L3) L3))) by by destruct L.
  apply L_at_upd. apply L_at_upd. apply (L_at_upd s3 l L3 (set_nCcalls (l_baseCcalls L3)) HL3).
Qed.

(** C16: An error of any status outside of any protected call does not stop the
    program: with [exit] a [return], luaD_throw marks the thread with the
    status and, in a thread without open upvalues, cuts its stack back to the
    first frame with the value of the error alone in it (its message, or the
    string for an error of memory or in the error handling, when that string
    can be had), calls the panic function and comes back to its caller.
    Without a panic function it only marks the thread. *)
Theorem unprotected_throw_returns l L th c e status p :
  error_status e = Some status ->
  match ps_panic p with
  | None => luaD_throw false l e p = (Ok tt, set_vs (upd_L l (set_status status) (ps_vs p)) p)
  | Some panic => forall v s1, unprotected l L th c (ps_vs p) ->
      raised l (cut_thread c th) (cut_state l c th (upd_L l (set_status status) (ps_vs p))) status v s1 ->
      exists s', thread_at s' l (reset_thread c v th) /\ L_at s' l (reset_L c status L) /\
        forall n s2, panic l s' = (Ok n, s2) -> luaD_throw false l e p = (Ok tt, set_vs s2 p)
  end.
Proof.
  intros He. unfold luaD_throw. rewrite He. assert (Hu8 : u8 status = status) by (destruct e; cbn in He; by simplify_eq).
  rewrite Hu8. set (s0 := upd_L l (set_status status) (ps_vs p)).
  rewrite (bind_ok _ _ _ tt (set_vs s0 p)) by done. erewrite bind_ok by reflexivity. cbn [ps_panic set_vs].
  destruct (ps_panic p) as [panic|]; [|done]. intros v s1 [HL Hth Hrest] Hr.
  destruct (resetstack_spec l status (set_status status L) th c v s0 s1) as (s' & Hrun & Hth' & HL'); [|done|].
  { split; try done. by apply L_at_upd. }
  exists s'. split_and!; [done..|]. intros n s2 Hp. unfold onVS. cbn [ps_vs set_vs].
  rewrite (bind_ok _ _ _ _ _ Hrun), (bind_ok _ _ _ _ _ Hp). done.
Qed.

(** Memory that an unprotected allocation does not get is counted all the
    same, and its caller goes on with NULL. *)
Lemma unprotected_realloc_null l osize nsize p p' :
  l_alloc (totalbytes p) osize nsize = false -> 0 < nsize -> luaD_throw false l ErrMem p = (Ok tt, p') ->
  realloc_block false l osize nsize p = (Ok false, set_totalbytes (u64 (u64 (totalbytes p' - osize) + nsize)) p').
Proof.
  intros Ha Hn Ht. unfold realloc_block. erewrite bind_ok by reflexivity. cbv zeta. rewrite Ha.
  destruct (Z.gtb_spec nsize 0); [|lia]. cbn [negb andb when]. by rewrite (bind_ok _ _ _ _ _ Ht).
Qed.
End panic.

(** ** Examples *)

#[local] Existing Instances id_hash decimal_strto.
(** Memory for 12000 bytes. *)
#[local] Instance little_memory : Krealloc := fun total _ nsize => total + nsize <=? 12000.
#[local] Instance panic_host : Host := {|
  c_function _ _ := throw (UB "no C function");
  hook_function _ _ _ _ := mret tt;
  finalizer _ _ := mret tt;
  fresh_block _ := [];
  collector_fuel := 1000;
|}.

(** A message two frames up. *)
Definition demo_base : CallInfo := mkCI 1 0 6 0 0 0.
Definition demo_p : PState :=
  mkPS (demo_state {[2 := mkObj 0 (BString [98; 111; 111; 109])]} ∅ [VNil; VNil; VNil; VNil; VString 2; VNil] 5 [mkCI 4 3 6 0 0 0; demo_base])
    (Some (fun _ => mret 0)) 0 0.

Lemma unprotected_throw_returns_witness :
  exists s', luaD_throw false 1 (ErrRun "boom") demo_p = (Ok tt, set_vs s' demo_p) /\
    exists th, thread_at s' 1 th /\ take 2 (th_stack th) = [VNil; VString 2] /\ th_top th = 2.
Proof.
  destruct (unprotected_throw_returns 1 (demo_L [mkCI 4 3 6 0 0 0; demo_base])
    (demo_thread [VNil; VNil; VNil; VNil; VString 2; VNil] 5 [mkCI 4 3 6 0 0 0; demo_base]) demo_base
    (ErrRun "boom") LUA_ERRRUN demo_p eq_refl (VString 2)
    (cut_state 1 demo_base (demo_thread [VNil; VNil; VNil; VNil; VString 2; VNil] 5 [mkCI 4 3 6 0 0 0; demo_base])
       (upd_L 1 (set_status LUA_ERRRUN) (ps_vs demo_p)))) as (s' & Hth & _ & Hrun).
  - split; [apply demo_L_at|apply demo_thread_at|done..].
  - apply raised_message; [by left|done].
  - exists s'. split; [by apply (Hrun 0)|]. eexists. split; [exact Hth|done].
Defined.

(** A new state whose memory then runs out: an allocation outside of a
    protected call gives NULL, is counted, and leaves the message of the
    error on the stack. *)
Definition out_of_memory : option (result bool * Z * Z * bytes) :=
  match luaL_newstate no_call (fun _ => mret tt) 0 with
  | Ok (Some (l, p)) =>
      match realloc_block false l 0 50000 p with
      | (r, p') =>
          match (n ← top l; v ← slot_at l (n - 1); text ← (match v with VString a => tsvalue a | _ => mret [] end);
               L ← state_of l; mret (l_status L, text)) (ps_vs p') with
          | (Ok (status, text), _) => Some (r, totalbytes p' - totalbytes p, status, text)
          | _ => None
          end
      end
  | _ => None
  end.
Example out_of_memory_goes_on : out_of_memory = Some (Ok false, 50000, LUA_ERRMEM, bytes_of_string "not enough memory").
Proof. vm_compute. reflexivity. Qed.
