(* ===== verification/Engine.v ===== *)
(** * Engine.v: the glue on top of the engine (lunatik.c, lunatik_syscall.c, bindings/)

    The class [LuaEngine], through which Kernel.v and Lunatik.v see the
    engine, implemented by the C interface of Api.v and Auxlib.v, and the
    functions of [KernelFunctions] by the modules of bindings/ and the callback of
    sys_lua: a system call then runs its script through the compiler and the
    interpreter, with the libraries of the kernel loaded. *)

From S2P Require Import Prelude Machine Opcodes Object Mem Zio Table TableSpec LexInit Gc State Errors Call Vm Execute LuaState Load Api Auxlib Bindings.
From S2P Require Kernel Lunatik LunatikSpec LunatikBindings Syscall BindingsDemo.

(** An engine: the main thread and the state; or what is left after an error
    that no protected call caught (Panic.v), from which the glue code can
    expect nothing. *)
Inductive engine := Running (l : Z) (s : VS) | Broken (e : error).

Definition on_engine {A} (d : A) (m : Z -> M VS A) (e : engine) : A * engine :=
  match e with
  | Running l s => match m l s with (Ok a, s) => (a, Running l s) | (Err e, _) => (d, Broken e) end
  | Broken e => (d, Broken e)
  end.

Section engine.
Context `{Krealloc} `{StringHash} `{KernelStrto} `{Host} `{BindingsKernel}.
Context (fuel : nat).   (* of a call of the engine *)

Abbreviation call := (call_loop fuel).

(** ** What lunatik.c calls *)

Definition engine_newstate : engine :=
  match luaL_newstate with
  | Ok (Some (l, s)) => Running l s
  | Ok None => Broken ErrMem
  | Err e => Broken e
  end.

Definition engine_loadbuffer (l : Z) (code : bytes) : M VS Z := luaL_loadbuffer call l code (bytes_of_string "loadcode").
Definition engine_pcall (l : Z) : M VS Z := lua_pcall call l 0 1 0.

(** The name of the type of a userdata, when its metatable has one; a name
    that is no string is NULL with length 0. *)
Definition userdata_name (l : Z) : M VS (option bytes) :=
  found ← luaL_getmetafield call l (-1) (bytes_of_string "__name");
  if negb found then mret None
  else
    r ← lua_tolstring call l (-1);
    match r with Some (a, _) => s ← tsvalue a; mret (Some s) | None => mret (Some []) end.

(** The value lunatik_result_get looks at. *)
Definition engine_top (l : Z) : M VS Kernel.lua_value :=
  v ← index_value l (-1);
  match v with
  | VNil => mret Kernel.LNil
  | VNumber n => mret (Kernel.LNumber n)
  | VBoolean b => mret (Kernel.LBoolean (Z.b2z (negb (l_isfalse (VBoolean b)))))
  | VString a => s ← tsvalue a; mret (Kernel.LString s)
  | VUserdata u =>
      b ← gets (fun s => v_ud s !! u);
      data ← lift (of_option "dangling userdata" b);
      name ← userdata_name l;
      mret (Kernel.LUserdata data name)
  | VLightUserdata p => mret (Kernel.LLightUserdata p)
  | v => mret (Kernel.LOther (ttype v))
  end.

(** The glue reads it without changing the state. *)
Definition engine_value (e : engine) : Kernel.lua_value := fst (on_engine (Kernel.LOther LUA_TNONE) engine_top e).

#[export] Instance lua_engine : Kernel.LuaEngine := {|
  Kernel.lua_State := engine;
  Kernel.lua_newstate := engine_newstate;
  Kernel.luaL_loadbuffer e code := on_engine (-1) (fun l => engine_loadbuffer l code) e;
  Kernel.lua_pcall := on_engine (-1) engine_pcall;
  Kernel.lua_at_top := engine_value;
  Kernel.lua_pop1 e := snd (on_engine tt (fun l => lua_pop l 1) e);
  Kernel.lua_pushcfunction e f := snd (on_engine tt (fun l => lua_pushcfunction l f) e);
|}.

(** ** The modules of bindings/ *)

Definition buffer_regfunc : Z := 1.
Definition crypto_regfunc : Z := 2.
Definition inspect_regfunc : Z := 3.
Definition printk_regfunc : Z := 4.

(** A registration function takes the lock of the context, works on its
    engine and returns 0. *)
Definition register_with (m : Z -> M VS Z) (lc : Kernel.ptr) : M Kernel.kernel Z :=
  Lunatik.lunatik_context_lock lc;;
  L ← Lunatik.get_L lc;
  let '(ret, L) := on_engine (-1) m L in
  Lunatik.set_L (Some L) lc;;
  Lunatik.lunatik_context_unlock lc;;
  mret ret.

Definition binding_regfunc (f : Z) (lc : Kernel.ptr) : M Kernel.kernel Z :=
  if f =? buffer_regfunc then register_with (lunatik_buf_register call) lc
  else if f =? crypto_regfunc then register_with (lunatik_crypto_register call) lc
  else if f =? inspect_regfunc then register_with (lunatik_inspect_register call) lc
  else if f =? printk_regfunc then register_with (lunatik_printk_register call) lc
  else throw (UB "no registration function").

Definition lunatik_crypto_init (THIS_MODULE : Z) : M Kernel.kernel (Z + Kernel.ptr) := Lunatik.lunatik_bindings_register THIS_MODULE crypto_regfunc.
Definition lunatik_inspect_init (THIS_MODULE : Z) : M Kernel.kernel (Z + Kernel.ptr) := Lunatik.lunatik_bindings_register THIS_MODULE inspect_regfunc.
Definition lunatik_printk_init (THIS_MODULE : Z) : M Kernel.kernel (Z + Kernel.ptr) := Lunatik.lunatik_bindings_register THIS_MODULE printk_regfunc.
Definition lunatik_crypto_exit : Z + Kernel.ptr -> M Kernel.kernel unit := binding_exit.
Definition lunatik_inspect_exit : Z + Kernel.ptr -> M Kernel.kernel unit := binding_exit.
Definition lunatik_printk_exit : Z + Kernel.ptr -> M Kernel.kernel unit := binding_exit.

(** The address of sys_lua_async_cleanup. *)
Definition cleanup_callback : Z := 1.

(** All modules stay loaded; the one callback is that of sys_lua. *)
#[export] Instance lua_functions : Kernel.KernelFunctions := {|
  Kernel.module_live _ := true;
  Kernel.run_callback _ _ _ _ := throw (UB "no callback");
  Kernel.run_callback_nores f arg ret :=
    if f =? cleanup_callback then Syscall.sys_lua_async_cleanup arg ret else throw (UB "no callback");
  Kernel.run_regfunc := binding_regfunc;
|}.

(** ** The registration functions keep to what lunatik_bindings_load asks *)

#[local] Existing Instance lua_engine.
#[local] Existing Instance lua_functions.

Lemma register_with_good f m :
  (forall lc k, Kernel.run_regfunc f lc k = register_with m lc k) -> LunatikBindings.good_register f.
Proof.
  intros Hf lc [e mu w act] orc mods bs h nx al Hw Hc [Hmu [L HL]]. cbn in Hmu, HL. subst mu e. rewrite Hf.
  pose proof (proj2 Hw _ _ Hc). unfold register_with.
  erewrite bind_ok by (by eapply LunatikSpec.lock_spec).
  erewrite bind_ok by (unfold Lunatik.get_L; LunatikSpec.kstep; reflexivity). cbn [Kernel.lc_L].
  destruct (on_engine (-1) m L) as [ret L'].
  erewrite bind_ok by (unfold Lunatik.set_L; LunatikSpec.kstep; eapply LunatikSpec.store_ok; LunatikSpec.klookup).
  erewrite bind_ok by (unfold Lunatik.lunatik_context_unlock; LunatikSpec.kstep; eapply LunatikSpec.store_ok; LunatikSpec.klookup).
  cbn [Kernel.lc_L Kernel.lc_wq Kernel.lc_active]. eexists _, _, _, _. split; [reflexivity|]. rewrite !insert_insert_eq. split_and!.
  - by apply (LunatikSpec.heap_wf_insert _ nx); [|lia|lia].
  - intros p o Hp Ho. rewrite lookup_insert_ne; [done|]. intros <-. rewrite Hc in Hp. by injection Hp as <-.
  - intros c E. rewrite Hc in E. injection E as <-. eexists. split; [LunatikSpec.klookup|]. split; [|done]. by split; [|eexists].
Qed.

(** Those of buffer, crypto, inspect and printk. *)
Lemma binding_regfunc_good f : f ∈ [buffer_regfunc; crypto_regfunc; inspect_regfunc; printk_regfunc] -> LunatikBindings.good_register f.
Proof.
  intros Hf. repeat (apply elem_of_cons in Hf as [->|Hf]; [by eapply register_with_good|]). by apply elem_of_nil in Hf.
Qed.
End engine.
