(* ===== verification/EngineDemo.v ===== *)
(** * EngineDemo.v: scripts run by the system call

    From the bytes of a script in user memory to the type and the value the
    caller finds there, through the glue, the compiler, the interpreter and
    the libraries of the kernel. *)

From S2P Require Import Prelude Machine Opcodes Object Mem Zio Table TableSpec LexInit Gc State Errors Call Vm Execute LuaState Load Api Auxlib Bindings Engine.
From S2P Require Kernel Lunatik LunatikSpec LunatikBindings Syscall BindingsDemo.

#[local] Existing Instances krealloc_always id_hash decimal_strto BindingsDemo.demo_kernel BindingsDemo.binding_host Syscall.map_space Syscall.map_laws.

(** The script with its final zero at 1000, where to put the result at 100
    (type), 200 (size) and 400, and room for 16 bytes. *)
Definition user_with (src : string) : gmap Z Z :=
  Syscall.map_poke 1000 (bytes_of_string src ++ [0]) (Syscall.map_poke 200 [16] ∅).
Definition size_with (src : string) : Z := zlen (bytes_of_string src) + 1.

Definition demo_fuel : nat := 300.
Definition new_kernel (bindings : list Kernel.ptr) (h : gmap Z Kernel.obj) (nx : Z) : Kernel.kernel (H := lua_engine demo_fuel) :=
  Kernel.mkKernel h nx (fun _ => true) 0 ∅ bindings.

(** The modules of bindings/ loaded into the kernel. *)
Definition with_bindings : Kernel.kernel (H := lua_engine demo_fuel) :=
  snd ((binding_init (H := lua_engine demo_fuel) 1 buffer_regfunc;; lunatik_crypto_init demo_fuel 2;;
        lunatik_inspect_init demo_fuel 3;; lunatik_printk_init demo_fuel 4) (new_kernel [] ∅ 1)).

(** The system call: its value, and the type, the size and the bytes in user
    memory. *)
Definition call_sys_lua (k : Kernel.kernel (H := lua_engine demo_fuel)) (src : string) : result Z * (Z * Z * bytes) :=
  let '(r, s) := Syscall.sys_lua (H := lua_engine demo_fuel) (H0 := lua_functions demo_fuel) 2 cleanup_callback 1000 (size_with src) 100 400 200
                   (Syscall.mkSystem (lua_engine demo_fuel) _ k (user_with src)) in
  let u := Syscall.s_user s in
  let size := snd (Syscall.get_user 8 200 u) in
  (r, (snd (Syscall.get_user 4 100 u), size, Syscall.map_peek 400 size u)).

Definition string_result (s : string) : Z * Z * bytes := (LUA_TSTRING, zlen (bytes_of_string s), bytes_of_string s).

(** A number. *)
Example sys_lua_number : call_sys_lua (new_kernel [] ∅ 1) "return 6 * 7" = (Ok 0, (LUA_TNUMBER, 8, [42; 0; 0; 0; 0; 0; 0; 0])).
Proof. vm_compute. reflexivity. Qed.

(** The example of the documentation: the library function [type] of the
    module inspect, called by the script. *)
Example sys_lua_type : call_sys_lua with_bindings "return type({ 123 })" = (Ok 0, (LUA_TSTRING, 6, bytes_of_string "table" ++ [0])).
Proof. vm_compute. reflexivity. Qed.

(** A buffer is filled and read back. *)
Example sys_lua_buffer :
  call_sys_lua with_bindings "local b = buffer.new(4) b[2] = 17 return b[2] + 1" = (Ok 0, (LUA_TNUMBER, 8, [18; 0; 0; 0; 0; 0; 0; 0])).
Proof. vm_compute. reflexivity. Qed.

(** An error at run time and one of the syntax: the status is LUA_ERRRUN or
    LUA_ERRSYNTAX, and the message is cut to the room there is. *)
Definition cut_message : Z * Z * bytes := string_result ("[string " ++ String (Ascii.ascii_of_nat 34) "loadcod").
Example sys_lua_runtime_error : call_sys_lua with_bindings "local x = nil return x.y" = (Ok LUA_ERRRUN, cut_message).
Proof. vm_compute. reflexivity. Qed.
Example sys_lua_syntax_error : call_sys_lua with_bindings "return +" = (Ok LUA_ERRSYNTAX, cut_message).
Proof. vm_compute. reflexivity. Qed.

(** A table is no result: -EINVAL, and its type. *)
Example sys_lua_table : call_sys_lua with_bindings "return {}" = (Ok (- Kernel.EINVAL), (LUA_TTABLE, 0, [])).
Proof. vm_compute. reflexivity. Qed.

(** Without places for a result the call returns at once, and the worker of
    the context runs the script later; then its callback has freed the code,
    the context and its own argument, and the queue is left. *)
Definition async_call (src : string) (steps : nat) : result Z * list Z :=
  let '(r, s) := Syscall.sys_lua (H := lua_engine demo_fuel) (H0 := lua_functions demo_fuel) 0 cleanup_callback 1000 (size_with src) 0 0 0
                   (Syscall.mkSystem (lua_engine demo_fuel) _ (new_kernel [] ∅ 1) (user_with src)) in
  let '(_, k) := Lunatik.worker_steps (H := lua_engine demo_fuel) (H0 := lua_functions demo_fuel) steps 3 (Syscall.s_kernel s) in
  (r, (map_to_list (Kernel.k_heap k)).*1).
Example async_before : async_call "return 6 * 7" 0 = (Ok 0, [5; 3; 6; 4; 2; 1]).
Proof. vm_compute. reflexivity. Qed.
Example async_after : async_call "return 6 * 7" 2 = (Ok 0, [3]).
Proof. vm_compute. reflexivity. Qed.

(** ** The four modules of bindings/ in a new context *)

#[local] Existing Instances lua_engine lua_functions.
Definition library_heap : gmap Z (Kernel.obj (H := lua_engine demo_fuel)) :=
  {[ 1 := LunatikSpec.open_context (H := lua_engine demo_fuel) (engine_newstate) 2 []; 2 := Kernel.OQueue [] Kernel.Idle;
     3 := Kernel.OBinding (Kernel.mkBinding 1 buffer_regfunc); 4 := Kernel.OBinding (Kernel.mkBinding 2 crypto_regfunc);
     5 := Kernel.OBinding (Kernel.mkBinding 3 inspect_regfunc); 6 := Kernel.OBinding (Kernel.mkBinding 4 printk_regfunc) ]}.

Lemma library_bindings b : b ∈ [3; 4; 5; 6] -> LunatikBindings.is_binding (H0 := lua_functions demo_fuel) library_heap b.
Proof.
  intros Hb. repeat (apply elem_of_cons in Hb as [->|Hb]; [eexists; split; [reflexivity|apply binding_regfunc_good; set_solver]|]).
  by apply elem_of_nil in Hb.
Qed.

Lemma library_heap_wf : LunatikSpec.heap_wf library_heap 7.
Proof. apply LunatikSpec.heap_wf_decide. vm_compute. reflexivity. Qed.

Lemma lunatik_bindings_load_activates_witness :
  exists r mods' h' nx' al' new extra,
    Lunatik.lunatik_bindings_load (H0 := lua_functions demo_fuel) 1 (LunatikSpec.K (fun _ => true) ∅ [3; 4; 5; 6] library_heap 7 0) =
      (Ok r, LunatikSpec.K (fun _ => true) mods' [3; 4; 5; 6] h' nx' al') /\
    LunatikSpec.heap_wf h' nx' /\ LunatikBindings.keeps_registry library_heap h' /\
    LunatikBindings.loads (H0 := lua_functions demo_fuel) [3; 4; 5; 6] 1 [] library_heap ∅ r h' mods' new extra.
Proof.
  apply (LunatikBindings.lunatik_bindings_load_activates (H0 := lua_functions demo_fuel)).
  - exact library_heap_wf.
  - eexists. split; [reflexivity|]. split; [by split; [|eexists]|constructor].
  - apply NoDup_nil_2.
  - exact library_bindings.
Defined.
