(* ===== verification/Sysni.v ===== *)
(** * Sysni.v: system calls that are not there (src/kernel/sys_ni.c)

    Each entry of the list is a weak name for sys_ni_syscall: when the kernel
    is built without the file that defines it, sys_lua among them, the system
    call table still links, and the call answers -ENOSYS. *)

From stdpp Require Import strings.
From S2P Require Import Prelude.

Definition ENOSYS : Z := 38.

Definition sys_ni_syscall : Z := - ENOSYS.

(** The arguments of cond_syscall, up to the entries of single
    architectures, and the others. *)
Definition cond_syscalls_generic : list string := [
  "sys_quotactl"; "sys32_quotactl"; "sys_acct"; "sys_lookup_dcookie"; "compat_sys_lookup_dcookie";
  "sys_swapon"; "sys_swapoff"; "sys_kexec_load"; "compat_sys_kexec_load"; "sys_kexec_file_load";
  "sys_init_module"; "sys_finit_module"; "sys_delete_module"; "sys_socketpair"; "sys_bind"; "sys_listen";
  "sys_accept"; "sys_accept4"; "sys_connect"; "sys_getsockname"; "sys_getpeername"; "sys_sendto"; "sys_send";
  "sys_recvfrom"; "sys_recv"; "sys_socket"; "sys_setsockopt"; "compat_sys_setsockopt"; "sys_getsockopt";
  "compat_sys_getsockopt"; "sys_shutdown"; "sys_sendmsg"; "sys_sendmmsg"; "compat_sys_sendmsg";
  "compat_sys_sendmmsg"; "sys_recvmsg"; "sys_recvmmsg"; "compat_sys_recvmsg"; "compat_sys_recv";
  "compat_sys_recvfrom"; "compat_sys_recvmmsg"; "sys_socketcall"; "sys_futex"; "compat_sys_futex";
  "sys_set_robust_list"; "compat_sys_set_robust_list"; "sys_get_robust_list"; "compat_sys_get_robust_list";
  "sys_epoll_create"; "sys_epoll_create1"; "sys_epoll_ctl"; "sys_epoll_wait"; "sys_epoll_pwait";
  "compat_sys_epoll_pwait"; "sys_semget"; "sys_semop"; "sys_semtimedop"; "compat_sys_semtimedop";
  "sys_semctl"; "compat_sys_semctl"; "sys_msgget"; "sys_msgsnd"; "compat_sys_msgsnd"; "sys_msgrcv";
  "compat_sys_msgrcv"; "sys_msgctl"; "compat_sys_msgctl"; "sys_shmget"; "sys_shmat"; "compat_sys_shmat";
  "sys_shmdt"; "sys_shmctl"; "compat_sys_shmctl"; "sys_mq_open"; "sys_mq_unlink"; "sys_mq_timedsend";
  "sys_mq_timedreceive"; "sys_mq_notify"; "sys_mq_getsetattr"; "compat_sys_mq_open";
  "compat_sys_mq_timedsend"; "compat_sys_mq_timedreceive"; "compat_sys_mq_notify";
  "compat_sys_mq_getsetattr"; "sys_mbind"; "sys_get_mempolicy"; "sys_set_mempolicy"; "compat_sys_mbind";
  "compat_sys_get_mempolicy"; "compat_sys_set_mempolicy"; "sys_add_key"; "sys_request_key"; "sys_keyctl";
  "compat_sys_keyctl"; "compat_sys_socketcall"; "sys_inotify_init"; "sys_inotify_init1";
  "sys_inotify_add_watch"; "sys_inotify_rm_watch"; "sys_migrate_pages"; "sys_move_pages"; "sys_chown16";
  "sys_fchown16"; "sys_getegid16"; "sys_geteuid16"; "sys_getgid16"; "sys_getgroups16"; "sys_getresgid16";
  "sys_getresuid16"; "sys_getuid16"; "sys_lchown16"; "sys_setfsgid16"; "sys_setfsuid16"; "sys_setgid16";
  "sys_setgroups16"; "sys_setregid16"; "sys_setresgid16"; "sys_setresuid16"; "sys_setreuid16";
  "sys_setuid16"; "sys_sgetmask"; "sys_ssetmask"; "sys_vm86old"; "sys_vm86"; "sys_ipc"; "compat_sys_ipc";
  "compat_sys_sysctl"; "sys_flock"; "sys_io_setup"; "sys_io_destroy"; "sys_io_submit"; "sys_io_cancel";
  "sys_io_getevents"; "sys_sysfs"; "sys_syslog"; "sys_process_vm_readv"; "sys_process_vm_writev";
  "compat_sys_process_vm_readv"; "compat_sys_process_vm_writev"; "sys_uselib"; "sys_fadvise64";
  "sys_fadvise64_64"; "sys_madvise"]%string.

Definition cond_syscalls_special : list string := [
  "sys_pciconfig_read"; "sys_pciconfig_write"; "sys_pciconfig_iobase"; "compat_sys_s390_ipc"; "ppc_rtas";
  "sys_spu_run"; "sys_spu_create"; "sys_subpage_prot"; "sys_s390_pci_mmio_read"; "sys_s390_pci_mmio_write";
  "sys_mprotect"; "sys_msync"; "sys_mlock"; "sys_munlock"; "sys_mlockall"; "sys_munlockall"; "sys_mincore";
  "sys_madvise"; "sys_mremap"; "sys_remap_file_pages"; "compat_sys_move_pages"; "compat_sys_migrate_pages";
  "sys_bdflush"; "sys_ioprio_set"; "sys_ioprio_get"; "sys_signalfd"; "sys_signalfd4"; "compat_sys_signalfd";
  "compat_sys_signalfd4"; "sys_timerfd_create"; "sys_timerfd_settime"; "sys_timerfd_gettime";
  "compat_sys_timerfd_settime"; "compat_sys_timerfd_gettime"; "sys_eventfd"; "sys_eventfd2";
  "sys_memfd_create"; "sys_perf_event_open"; "sys_fanotify_init"; "sys_fanotify_mark";
  "compat_sys_fanotify_mark"; "sys_name_to_handle_at"; "sys_open_by_handle_at";
  "compat_sys_open_by_handle_at"; "sys_kcmp"; "sys_seccomp"; "sys_bpf"; "sys_execveat"; "sys_lua"]%string.

Definition cond_syscalls : list string := cond_syscalls_generic ++ cond_syscalls_special.

(** What an entry of the system call table is bound to: the function the
    kernel was linked with, or the weak one; [None] when the kernel does not
    link. *)
Section link.
Context {S : Type} (linked : string -> option (M S Z)).

Definition entry_point (x : string) : option (M S Z) :=
  match linked x with
  | Some f => Some f
  | None => if bool_decide (x ∈ cond_syscalls) then Some (mret sys_ni_syscall) else None
  end.

(** Built without CONFIG_LUNATIK_SYSCALL the call changes nothing. *)
Lemma sys_lua_not_linked : linked "sys_lua"%string = None ->
  exists f, entry_point "sys_lua"%string = Some f /\ forall s, f s = (Ok (-38), s).
Proof. intros E. unfold entry_point. rewrite E, bool_decide_true by (by apply (bool_decide_unpack _); vm_compute). by eexists. Qed.

Lemma sys_lua_linked f : linked "sys_lua"%string = Some f -> entry_point "sys_lua"%string = Some f.
Proof. intros E. unfold entry_point. by rewrite E. Qed.
End link.
